(* ===== verification/_CoqProject ===== *)
-Q . S2P
Prelude.v
Outcomes.v
Wire.v
Packed.v
Probe.v
Palette.v
Container.v
SectionNet.v
View.v
Sorted.v
Sorting.v
Nbt.v
NbtNumeric.v
NbtPredicate.v
NbtWrite.v
NbtRead.v
NbtPredicateFacts.v
NbtPredicateWalk.v
NbtPredicateStack.v
NbtPredicateMain.v
TickTypes.v
TickHeap.v
TickTables.v
TickIndex.v
TickOwner.v
TickOwnerInv.v
TickOwnerOps.v
TickPhase.v
TickWork.v
TickArea.v
TickCalls.v
LightTypes.v
LightTable.v
ChunkRegistry.v
RegistryFacts.v
ChunkDraft.v
ChunkFacts.v
LightSource.v
LightLayer.v
LightQueue.v
LightStore.v
LightSourceFacts.v
LightSourceInput.v
Edges.v
SkySources.v
SkySourcesFacts.v
SkySourcesUpdate.v
Heightmap.v
HeightmapFacts.v
HeightmapSets.v
LightStorage.v
LightStorageOps.v
LightStorageInv.v
LightStorageWrites.v
LightStorageLevels.v
LightStorageSettle.v
LightStorageStatus.v
LightStorageTransition.v
LightStorageApply.v
LightStorageQueue.v
LightStorageSnapshots.v
LightStorageHandle.v
LightStorageReach.v
LightStorageFacts.v
LightStorageStore.v
BlockLight.v
BlockLightInv.v
BlockLightPlan.v
BlockLightMeasure.v
BlockLightUnits.v
BlockLightLoop.v
BlockLightSafe.v
BlockLightRun.v
BlockLightCalls.v
BlockLightMain.v
BlockLightExample.v
