(* ===== verification/Prelude.v ===== *)
(** * Arrow MC: verification development

    Arrow MC is a Minecraft server written in Rust.  This library models the
    deterministic core of the server, the code between the sockets and the
    disk, and proves what that code promises: the wire and NBT formats, the
    paletted section storage and its network payloads, the streaming of player
    chunk views, the scheduled-tick owner, the registry of block states and the
    decoding of stored chunks, NBT predicates, heightmaps, and the light of a
    world: its sources, its section storage and the block-light engine.

    ** How the model reads

    Every definition keeps the name of the Rust item it translates.  Machine
    integers are [Z] with wrap-around written out ([u_wrap], [i_wrap]) and
    checked operations as options; bytes are [Z] in [0..256).  A call returns an
    [outcome]: a value, a typed error, [Panic] (index out of range, failed
    [unwrap], [expect], [assert!] or subtraction) or [NoFuel], so that absence of
    panics and termination are theorems.  A method on [&mut self] returns the new
    state, also on an error where the code leaves a changed state behind.
    [Vec::try_reserve_exact] is the class [Allocator]: it may fail, and may grant
    more than asked, as its documentation says.  [RandomState] hashing is an
    arbitrary function, and [size_of] a parameter of the layout classes.

    ** Files, from the bottom up

    - [Prelude]: outcomes, machine integers, big-endian bytes, the allocator, the
      bit-level automation.  [Outcomes]: the judgement that a call returns a
      value with a property or a typed error, with one rule per kind of step.
      [Sorted], [Sorting]: binary search, entry insertion and sorting by key in
      sorted vectors.  [Edges]: the highest row of a column with a property.
      [Probe]: open addressing with linear probing, shared by every hash
      table of the server: the table invariant, probe loops, insertion, removal by
      backward shift and by re-insertion.
    - [Wire] (src/wire/mod.rs): VarInt and VarLong.
    - [Packed] (src/world/section/packed.rs): values packed in 64-bit words.
      [Palette], [Container], [SectionNet] (src/world/section.rs): the first-use
      palette scratch, the three-representation container with growth and
      repacking, and the network decoders, encoders and the dense worker kernel.
    - [View] (src/world/view.rs): view geometry, the streamed difference between
      two views, and the resumable per-player owner.
    - [Nbt], [NbtWrite], [NbtRead] (src/nbt/mod.rs, write.rs, size.rs, read.rs):
      trees with sorted compounds, iterative release, the writer and its
      iterative sizer, and the budgeted reader.  [NbtNumeric]
      (src/nbt/numeric.rs): numeric tags as integers.  [NbtPredicate]
      (src/nbt/predicate.rs): the comparison of two trees with a stack of frames;
      [NbtPredicateFacts] has its meaning and price, [NbtPredicateWalk] a
      judgement for what each turn owes to them, [NbtPredicateStack] the price of
      the stack, and [NbtPredicateMain] the calls.
    - [TickTypes], [TickHeap] (src/world/ticks/heap.rs), [TickTables]
      (src/world/ticks.rs and src/world/ticks/remaining.rs), [TickIndex]
      (src/world/ticks/order_index.rs): data, the two binary heaps with their
      removal pass, the identity set, the remaining counts and the scheduling
      index.  [TickOwner] is the whole owner of src/world/ticks.rs;
      [TickOwnerInv], [TickOwnerOps], [TickPhase], [TickWork], [TickArea] prove
      its operations against those tables, and [TickCalls] composes all calls of
      the owner into one transition system.
    - [ChunkRegistry], [RegistryFacts] (src/world/storage/registry.rs): the
      validation that builds the registry snapshot, and the lookups of palette
      entries.  [ChunkDraft], [ChunkFacts] (src/world/storage/chunk.rs): a stored
      chunk decoded from its NBT.
    - [LightTypes] (src/world/lighting/mod.rs), [LightTable]
      (src/world/storage/registry/lighting.rs): positions, directions and the
      registry's light materials and face occlusion.  [LightSource],
      [LightSourceFacts], [LightSourceInput] (src/world/lighting/source.rs): the
      immutable source of block states that engines read, captured from resident
      chunks or built from sections.
    - [SkySources], [SkySourcesFacts], [SkySourcesUpdate]
      (src/world/lighting/sources.rs): the lowest sky-light source of each column.
      [Heightmap], [HeightmapFacts], [HeightmapSets] (src/world/heightmap.rs):
      heightmaps, primed, updated and restored.
    - [LightLayer] (src/world/lighting/layer.rs), [LightQueue]
      (src/world/lighting/queue.rs): nibble layers and the deduplicating ring
      queue.  [LightStore]: what the engines need from storage and world, as two
      type classes with their laws.
    - [LightStorage], [LightStorageOps] (src/world/lighting/storage.rs): the
      section storage, its layers in a heap with counted references.
      [LightStorageInv] is its invariant; [LightStorageWrites],
      [LightStorageLevels], [LightStorageSettle], [LightStorageStatus],
      [LightStorageTransition], [LightStorageApply], [LightStorageQueue],
      [LightStorageSnapshots] and [LightStorageHandle] take the operations one
      group each, [LightStorageReach] composes every public call into one
      transition system, [LightStorageFacts] has the properties, and
      [LightStorageStore] makes the storage an instance of [LightStore].
    - [BlockLight] (src/world/lighting/block.rs): the block-light engine, over
      any [LightStore] and [LightInput].  [BlockLightInv] is the theory of one
      propagation step on functions and lists; [BlockLightPlan] shows that the
      plans of the code are those steps, [BlockLightMeasure] what they cost and
      [BlockLightUnits] what one unit of a run performs.  [BlockLightLoop] proves
      the run once, against the interface [run_laws] of an invariant that its
      units keep; [BlockLightSafe] instantiates it with an invariant of every
      state, [BlockLightRun] with that of exact light, [BlockLightCalls] has the
      calls around a run, [BlockLightMain] the properties, and
      [BlockLightExample] the engine on the storage.

    ** What the theorems show

    - Formats: what is written reads back, readers accept any bytes without panic,
      within their limits and budgets, and the sizer agrees with the writer.
    - Containers: reading and updating any representation is reading and updating
      an array; growth and repacking change the representation only; the dense
      kernel writes the bytes of the general path.
    - Views: one update offers exactly the events of the difference, and an idle
      owner's client holds exactly the chunks of its view.
    - Tables: the hash tables, heaps and the index implement finite sets,
      multisets, priority queues and maps, through removal and rehashing, for any
      hash function.
    - Ticks: from a new owner every sequence of calls leaves a well-formed owner
      whose further calls return and whose memory is accounted exactly; a phase
      selects due ticks as a merge over eligible chunks and hands out exactly
      these; batch copying equals creating ticks one by one; clearing an area
      removes its ticks and their identities and nothing else; packing, loading
      and unpacking give the same ticks.
    - Registry and chunks: a registry that loads gives every state id to exactly
      one choice of property values, at its mixed-radix position, and a palette
      entry resolves to the id of what it says, or recovers as documented; any
      bytes decode to a valid chunk or a typed error.
    - Comparison: a comparison answers the recursive meaning of the predicate
      ([Tag::eq] in the exact mode) or names a limit below what the trees need;
      the allocation it spends is exactly the price of its deepest stack.
    - Sources, sky sources, heightmaps: a light source answers the blocks it was
      built from; updating sky sources or a heightmap after one block changes
      gives what initialising on the changed world gives.
    - Storage: whatever public calls are made, direct writes through layers taken
      for writing included, none panics, the referenced layers are exactly those
      alive and charged, neighbour counts are right, and no snapshot changes.
    - Block light: whatever was done with engine and storage, a run returns, and
      a budget as large as the work left is enough; relighting from exact light
      gives exact light, the brightest that reaches each block.

    ** Side conditions

    Where the code relies on more than it checks, the theorem says so.
    Relighting is exact ([relight_after_changes]) when the light was exact before
    the change, the changed blocks are those to be checked, a changed block that
    keeps its light does not close an open face (the code leaves the light that
    came through the face), and only the engine writes to the storage in between; safety and termination of the engine need none of this.  Sky
    sources are exact for columns without an edge against a section with only
    air ([seamless]; [seam_is_lost] is the exception).  A heightmap update is
    exact when the air state belongs to no heightmap.  A light source meets the
    engines' contract when air and bedrock emit no light; reading it needs no
    condition.  The owner of resident chunks is an interface with its contract
    ([owner_ok]).  A container reads back as itself when it is [portable].

    ** Fuel

    Loops that are not structural carry fuel, and a theorem says the fuel is
    enough: probe loops run for the length of their table; the removal shift and
    re-insertion for one more; heap sifts for the height of the heap; the view
    scan for [SCAN_FUEL = 133 * 133 + 3] steps, the largest bordered square and
    its two turns; [Container.set] for two rounds, since one growth always makes
    room; the sizer for three steps per node and the release for two; the reader
    for one level more than the depth limit and one entry per byte left; a tick
    phase for the chunks and ticks it can select; a comparison for two turns per
    unit of work and one more; the iteration of a light source for its sections
    and 4096 blocks in each; the bit loop of sky sources for the 64 bits of a
    word, and its downward scan for the rows of the column; the selection of a
    data snapshot for its entries and visible layers and one more; a run of the
    block-light engine for its budget and six phase changes.

    ** Not modelled

    Code that only moves bytes or schedules tasks: the tokio server and runtime
    loops, sockets, region files, the RSA, AES and zlib layers, and the JSON
    bundles of the registry.  The SNBT text format, which depends on Java's
    printing of floating-point numbers; the rate control of the chunk sender,
    which computes in 32-bit floats; unicode names, which are generated tables.
    The reading, hashing and JSON decoding of the registry's files come before
    the validation modelled here.  NBT paths, the sky-light engine, the lighting
    owner with its work scheduling, and the loading and preparation of chunks
    are deterministic at their core and could be added with the same
    means.  [Display] and [Error] implementations are formatting.  Atomics inside
    [Arc] and [Budget] are single-threaded counters here: every modelled call
    takes [&mut self]. *)

From Stdlib Require Export ZArith Lia.
From stdpp Require Export base tactics numbers option list.

(** ** Outcomes

    A Rust call either returns a value, returns a typed error, panics (index
    out of range, [unwrap] on [None], failed [assert!]) or, for a loop that is
    modelled with fuel, does not finish within the fuel given.  The last two
    are values too, so that "never panics" and "always finishes" are theorems. *)
Inductive outcome (E A : Type) : Type :=
| Ok (a : A)
| Err (e : E)
| Panic
| NoFuel.
Arguments Ok {E A} a.
Arguments Err {E A} e.
Arguments Panic {E A}.
Arguments NoFuel {E A}.

Definition outcome_bind {E A B} (f : A → outcome E B) (m : outcome E A) : outcome E B :=
  match m with
  | Ok a => f a
  | Err e => Err e
  | Panic => Panic
  | NoFuel => NoFuel
  end.

#[global] Instance outcome_mret {E} : MRet (outcome E) := λ A a, Ok a.
#[global] Instance outcome_mbind {E} : MBind (outcome E) := λ A B f m, outcome_bind f m.
#[global] Instance outcome_fmap {E} : FMap (outcome E) := λ A B f m, outcome_bind (λ a, Ok (f a)) m.

(** [opt.ok_or(e)?] *)
Definition ok_or {E A} (o : option A) (e : E) : outcome E A :=
  match o with Some a => Ok a | None => Err e end.
(** [opt.unwrap()], slice indexing: [None] is a panic. *)
Definition unwrap {E A} (o : option A) : outcome E A :=
  match o with Some a => Ok a | None => Panic end.
(** [result.map_err(f)] *)
Definition map_err {E F A} (f : E → F) (m : outcome E A) : outcome F A :=
  match m with
  | Ok a => Ok a
  | Err e => Err (f e)
  | Panic => Panic
  | NoFuel => NoFuel
  end.
(** A call that has no error of its own. *)
Definition lift {E A} (m : outcome False A) : outcome E A :=
  map_err (λ f : False, match f return E with end) m.
(** [if !cond { return Err(e) }] *)
Definition ensure {E} (c : bool) (e : E) : outcome E () := if c then Ok tt else Err e.
(** [assert!(cond)] *)
Definition assert_that {E} (c : bool) : outcome E () := if c then Ok tt else Panic.

Lemma outcome_bind_ok {E A B} (f : A → outcome E B) (m : outcome E A) b :
  (m ≫= f) = Ok b ↔ ∃ a, m = Ok a ∧ f a = Ok b.
Proof.
  destruct m as [a| | |]; cbn; (split; [|intros (?&?&?); congruence]); try done. eauto.
Qed.

Lemma ensure_ok {E} (c : bool) (e : E) u : ensure c e = Ok u ↔ c = true.
Proof. destruct c, u; by split. Qed.
Lemma ok_or_ok {E A} (o : option A) (e : E) a : ok_or o e = Ok a ↔ o = Some a.
Proof. destruct o; cbn; split; congruence. Qed.
Lemma unwrap_ok {E A} (o : option A) a : unwrap (E := E) o = Ok a ↔ o = Some a.
Proof. destruct o; cbn; split; congruence. Qed.
Lemma assert_that_ok {E} (c : bool) u : assert_that (E := E) c = Ok u ↔ c = true.
Proof. destruct c, u; by split. Qed.
Lemma map_err_ok {E F A} (f : E → F) (m : outcome E A) a : map_err f m = Ok a ↔ m = Ok a.
Proof. destruct m; cbn; split; congruence. Qed.

(** ** Machine integers

    A [w]-bit integer is a [Z]; wrap-around is written out. *)
Definition u_wrap (w z : Z) : Z := (z `mod` 2 ^ w)%Z.
Definition i_wrap (w z : Z) : Z :=
  let m := (z `mod` 2 ^ w)%Z in if (m <? 2 ^ (w - 1))%Z then m else (m - 2 ^ w)%Z.
Definition in_u (w z : Z) : Prop := (0 ≤ z < 2 ^ w)%Z.
Definition in_i (w z : Z) : Prop := (- 2 ^ (w - 1) ≤ z < 2 ^ (w - 1))%Z.

(** [usize] on the supported 64-bit targets. *)
Definition usize_max : Z := (2 ^ 64 - 1)%Z.
Definition checked_add (a b : Z) : option Z :=
  if (a + b <=? usize_max)%Z then Some (a + b)%Z else None.
Definition checked_mul (a b : Z) : option Z :=
  if (a * b <=? usize_max)%Z then Some (a * b)%Z else None.
Definition checked_sub (a b : Z) : option Z :=
  if (b <=? a)%Z then Some (a - b)%Z else None.

(** [!z] on [w] bits. *)
Definition u_not (w z : Z) : Z := Z.lxor z (2 ^ w - 1).

(** Number of significant bits, [W::BITS - x.leading_zeros()]. *)
Definition bit_len (z : Z) : Z := if (z <=? 0)%Z then 0%Z else (Z.log2 z + 1)%Z.
(** [usize::div_ceil] *)
Definition div_ceil (a b : Z) : Z := ((a + b - 1) `div` b)%Z.
Definition zlen {A} (l : list A) : Z := Z.of_nat (length l).

Section machine_integers.
Local Open Scope Z_scope.

Lemma pow2_pos w : 0 ≤ w → 0 < 2 ^ w.
Proof. intros. apply Z.pow_pos_nonneg; lia. Qed.

Lemma pow2_le a b : 0 ≤ a ≤ b → 2 ^ a ≤ 2 ^ b.
Proof. intros. apply Z.pow_le_mono_r; lia. Qed.

Lemma u_wrap_range w z : 0 ≤ w → in_u w (u_wrap w z).
Proof. intros. apply Z.mod_pos_bound, pow2_pos; lia. Qed.

Lemma u_wrap_id w z : in_u w z → u_wrap w z = z.
Proof. intros. by apply Z.mod_small. Qed.

Lemma pow2_half w : 0 < w → 2 ^ w = 2 * 2 ^ (w - 1).
Proof. intros. rewrite <- Z.pow_succ_r by lia. f_equal; lia. Qed.

Lemma i_wrap_range w z : 0 < w → in_i w (i_wrap w z).
Proof.
  intros Hw. unfold i_wrap, in_i. pose proof (pow2_half w Hw).
  pose proof (Z.mod_pos_bound z (2 ^ w) (pow2_pos w ltac:(lia))).
  case_match; lia.
Qed.

(** Casting a signed value to unsigned and back is the identity. *)
Lemma i_wrap_u_wrap w z : 0 < w → in_i w z → i_wrap w (u_wrap w z) = z.
Proof.
  intros Hw Hz. unfold i_wrap, u_wrap, in_i in *. pose proof (pow2_half w Hw).
  rewrite Z.mod_mod by lia. destruct (decide (0 ≤ z)) as [Hp|Hn].
  - rewrite Z.mod_small by lia. case_match; lia.
  - replace (z `mod` 2 ^ w) with (z + 2 ^ w).
    + case_match; lia.
    + rewrite <- (Z.mod_add z 1) by lia. rewrite Z.mod_small; lia.
Qed.

Lemma u_wrap_i_wrap w z : 0 < w → u_wrap w (i_wrap w z) = u_wrap w z.
Proof.
  intros Hw. unfold i_wrap, u_wrap. pose proof (pow2_pos w ltac:(lia)).
  case_match.
  - by rewrite Z.mod_mod by lia.
  - replace (z `mod` 2 ^ w - 2 ^ w) with (z `mod` 2 ^ w + (-1) * 2 ^ w) by lia.
    rewrite Z.mod_add by lia. by rewrite Z.mod_mod by lia.
Qed.

Lemma i_wrap_id w z : 0 < w → 0 ≤ z < 2 ^ (w - 1) → i_wrap w z = z.
Proof.
  intros Hw Hz. unfold i_wrap. pose proof (pow2_half w Hw).
  rewrite Z.mod_small by lia. case_match; lia.
Qed.

Lemma testbit_high w z i : in_u w z → w ≤ i → Z.testbit z i = false.
Proof.
  intros [H0 H1] Hi. destruct (decide (0 ≤ w)) as [Hw|Hw].
  - rewrite <- (Z.mod_small z (2 ^ w)) by lia. by apply Z.mod_pow2_bits_high.
  - rewrite Z.pow_neg_r in H1 by lia. lia.
Qed.

Lemma in_u_testbit w z : 0 ≤ w → 0 ≤ z → (∀ i, w ≤ i → Z.testbit z i = false) → in_u w z.
Proof.
  intros Hw Hz Hb. split; [done|]. destruct (decide (z < 2 ^ w)) as [|Hge]; [done|exfalso].
  assert (0 < z) by (pose proof (pow2_pos w Hw); lia).
  assert (w ≤ Z.log2 z) by (apply Z.log2_le_pow2; lia).
  specialize (Hb (Z.log2 z) ltac:(lia)). by rewrite Z.bit_log2 in Hb by lia.
Qed.

(** The bits of a truncation. *)
Lemma u_wrap_testbit w z i :
  0 ≤ w → 0 ≤ i → Z.testbit (u_wrap w z) i = (i <? w) && Z.testbit z i.
Proof.
  intros. unfold u_wrap. destruct (Z.ltb_spec i w).
  - by rewrite Z.mod_pow2_bits_low by lia.
  - by rewrite Z.mod_pow2_bits_high by lia.
Qed.

Lemma shiftl_testbit z n i :
  0 ≤ i → Z.testbit (Z.shiftl z n) i = (n <=? i) && Z.testbit z (i - n).
Proof.
  intros. rewrite Z.shiftl_spec by lia. destruct (Z.leb_spec n i); [done|].
  by rewrite Z.testbit_neg_r by lia.
Qed.

Lemma mod_pow2_testbit z n i :
  0 ≤ n → 0 ≤ i → Z.testbit (z `mod` 2 ^ n) i = (i <? n) && Z.testbit z i.
Proof. apply u_wrap_testbit. Qed.

Lemma pow2_testbit n i : 0 ≤ n → Z.testbit (2 ^ n) i = (n =? i).
Proof. intros. by apply Z.pow2_bits_eqb. Qed.

Lemma ones_testbit n i : 0 ≤ n → 0 ≤ i → Z.testbit (2 ^ n - 1) i = (i <? n).
Proof.
  intros. replace (2 ^ n - 1) with (Z.ones n) by (rewrite Z.ones_equiv; lia).
  destruct (Z.ltb_spec i n); [by apply Z.ones_spec_low|by apply Z.ones_spec_high].
Qed.

Lemma u_not_testbit w z i :
  0 ≤ w → 0 ≤ i → Z.testbit (u_not w z) i = xorb (Z.testbit z i) (i <? w).
Proof. intros. unfold u_not. by rewrite Z.lxor_spec, ones_testbit by lia. Qed.

Lemma in_u_mono w w' z : 0 ≤ w ≤ w' → in_u w z → in_u w' z.
Proof. intros ? [??]. split; [done|]. pose proof (pow2_le w w'). lia. Qed.
End machine_integers.

(** ** Bytes

    A byte is a [Z] in [0..256); [be_bytes n v] is [v.to_be_bytes()] for an
    [n]-byte integer and [be_value] is [from_be_bytes] read as unsigned. *)
Definition is_byte (z : Z) : Prop := in_u 8 z.
Definition bytes_ok (l : list Z) : Prop := Forall is_byte l.

Fixpoint be_bytes (n : nat) (v : Z) : list Z :=
  match n with
  | O => []
  | S m => Z.land (Z.shiftr v (8 * Z.of_nat m)) 255 :: be_bytes m v
  end.
Definition be_value (l : list Z) : Z := fold_left (λ acc b, (acc * 256 + b)%Z) l 0%Z.

Section bytes.
Local Open Scope Z_scope.

Lemma land_ones_mod z n : 0 ≤ n → Z.land z (2 ^ n - 1) = z `mod` 2 ^ n.
Proof. intros. rewrite <- Z.land_ones by lia. f_equal. by rewrite Z.ones_equiv. Qed.

Lemma land_255 z : Z.land z 255 = z `mod` 256.
Proof. apply (land_ones_mod z 8). lia. Qed.

Lemma land_255_byte z : is_byte (Z.land z 255).
Proof. rewrite land_255. apply Z.mod_pos_bound. lia. Qed.

Lemma length_be_bytes n v : length (be_bytes n v) = n.
Proof. induction n; simpl; congruence. Qed.

Lemma be_bytes_ok n v : bytes_ok (be_bytes n v).
Proof. induction n; simpl; constructor; [apply land_255_byte|done]. Qed.

Lemma be_value_acc l a :
  fold_left (λ acc b, acc * 256 + b) l a = a * 2 ^ (8 * zlen l) + be_value l.
Proof.
  unfold be_value, zlen. revert a. induction l as [|b l IH]; intros a.
  - simpl. lia.
  - cbn [fold_left length]. rewrite (IH (a * 256 + b)), (IH (0 * 256 + b)).
    rewrite Nat2Z.inj_succ, Z.mul_succ_r, Z.pow_add_r by lia.
    change (2 ^ 8) with 256. lia.
Qed.

Lemma be_value_cons b l : be_value (b :: l) = b * 2 ^ (8 * zlen l) + be_value l.
Proof. unfold be_value at 1. simpl. by rewrite be_value_acc. Qed.

Lemma be_value_be_bytes n v : be_value (be_bytes n v) = u_wrap (8 * Z.of_nat n) v.
Proof.
  unfold u_wrap. induction n as [|n IH]; cbn [be_bytes].
  - by rewrite Z.mod_1_r.
  - rewrite be_value_cons, IH. unfold zlen. rewrite length_be_bytes, land_255.
    rewrite Z.shiftr_div_pow2 by lia.
    rewrite Nat2Z.inj_succ, Z.mul_succ_r, Z.pow_add_r by lia.
    rewrite Z.rem_mul_r by lia. change (2 ^ 8) with 256. lia.
Qed.

Lemma be_value_range l : bytes_ok l → in_u (8 * zlen l) (be_value l).
Proof.
  unfold in_u, zlen. induction 1 as [|b l [Hb1 Hb2] _ IH].
  - done.
  - rewrite be_value_cons. cbn [length]. unfold zlen in *.
    rewrite Nat2Z.inj_succ, Z.mul_succ_r, Z.pow_add_r by lia.
    change (2 ^ 8) with 256 in *. nia.
Qed.
End bytes.

(** ** Allocation

    [Vec::try_reserve_exact] on an empty vector: given the element size and the
    number of elements it answers with the capacity obtained, or fails.  The
    only documented promise is that the capacity is at least the request; the
    code under verification re-checks what it got against its budget. *)
Class Allocator := {
  reserve_exact : Z → Z → option Z;
  reserve_exact_ge size n c : reserve_exact size n = Some c → (n ≤ c)%Z
}.

(** The allocator that never fails and never over-allocates. *)
#[export] Instance exact_allocator : Allocator | 100.
Proof. refine {| reserve_exact _ n := Some n |}. by intros ??? [= ->]. Defined.

(** Memory that is always granted, and never in excess. *)
Definition exact_memory `{Allocator} : Prop := ∀ size n, reserve_exact size n = Some n.

Lemma exact_memory_holds : @exact_memory exact_allocator.
Proof. by intros size n. Qed.

(** ** Powers of two *)
Section powers.
Local Open Scope Z_scope.

(** [checked_next_power_of_two] on a 64-bit target. *)
Definition next_power_of_two (n : Z) : option Z :=
  let p := if n <=? 1 then 1 else 2 ^ (Z.log2 (n - 1) + 1) in
  if p <=? usize_max then Some p else None.

Lemma next_power_spec n p :
  0 ≤ n → next_power_of_two n = Some p → n ≤ p ∧ 1 ≤ p ∧ ∃ k : nat, p = 2 ^ Z.of_nat k.
Proof.
  unfold next_power_of_two. intros Hn. destruct (Z.leb_spec n 1).
  - destruct (Z.leb_spec 1 usize_max); [|done]. intros [= <-]. split; [lia|]. split; [lia|]. by exists 0%nat.
  - destruct (Z.leb_spec (2 ^ (Z.log2 (n - 1) + 1)) usize_max); [|done]. intros [= <-].
    pose proof (Z.log2_spec (n - 1) ltac:(lia)) as [_ Hlt]. pose proof (Z.log2_nonneg (n - 1)).
    rewrite Z.add_1_r. split; [lia|]. split; [lia|]. exists (Z.to_nat (Z.succ (Z.log2 (n - 1)))).
    by rewrite Z2Nat.id by lia.
Qed.

Lemma to_nat_pow2 (k : nat) : Z.to_nat (2 ^ Z.of_nat k) = (2 ^ k)%nat.
Proof. rewrite <- (Nat2Z.id (2 ^ k)). f_equal. by rewrite Nat2Z.inj_pow. Qed.
End powers.

(** ** Generic list facts *)
Section lists.
Context {A : Type}.
Implicit Types l k : list A.

Lemma insert_app_split l i x y :
  l !! i = Some y → <[i := x]> l = take i l ++ x :: drop (S i) l.
Proof. intros H. rewrite insert_take_drop; [done|]. by eapply lookup_lt_Some. Qed.

Lemma lookup_lt_ok l i : i < length l → ∃ x, l !! i = Some x.
Proof. intros. by apply lookup_lt_is_Some. Qed.
End lists.

(** ** Automation *)
Create Rewrite HintDb bitspec.
#[export] Hint Rewrite Z.lor_spec Z.land_spec Z.ldiff_spec Z.bits_0 : bitspec.
#[export] Hint Rewrite Z.shiftr_spec shiftl_testbit u_wrap_testbit mod_pow2_testbit
  pow2_testbit ones_testbit u_not_testbit using lia : bitspec.

(** Reduces an equality of integers to one of their bits, decides every
    comparison of bit positions by [lia] and closes the rest by [btauto]. *)
Ltac bit_case :=
  match goal with
  | |- context [Z.ltb ?a ?b] => destruct (Z.ltb_spec a b)
  | |- context [Z.leb ?a ?b] => destruct (Z.leb_spec a b)
  | |- context [Z.eqb ?a ?b] => destruct (Z.eqb_spec a b)
  end.
Ltac bit_norm :=
  repeat first
    [ progress autorewrite with bitspec
    | progress rewrite ?andb_true_l, ?andb_true_r, ?andb_false_l, ?andb_false_r,
        ?orb_false_l, ?orb_false_r, ?orb_true_l, ?orb_true_r,
        ?xorb_false_r, ?xorb_true_r, ?xorb_false_l, ?xorb_true_l ].
(** Identifies two reads of the same bit whose positions [lia] proves equal. *)
Ltac bit_merge :=
  match goal with
  | |- context [Z.testbit ?z ?a] =>
    match goal with
    | |- context [Z.testbit z ?b] =>
      assert_fails (unify a b); replace (Z.testbit z b) with (Z.testbit z a) by (f_equal; lia)
    end
  end.
Ltac bit_solve :=
  bit_norm; try done; try lia;
  first [ bit_case; bit_solve
        | repeat bit_merge; try done;
          repeat match goal with |- context [Z.testbit ?z ?n] =>
            destruct (Z.testbit z n) eqn:? end; try done; try congruence ].
Ltac bitwise :=
  apply Z.bits_inj'; let i := fresh "i" in let Hi := fresh "Hi" in
  intros i Hi; bit_solve.

Create HintDb arrow.
Create Rewrite HintDb arrow_len.
#[export] Hint Resolve u_wrap_range i_wrap_range land_255_byte be_bytes_ok : arrow.
#[export] Hint Rewrite @length_insert @length_replicate length_be_bytes @length_app : arrow_len.

(** Inverts a chain of successful binds in hypothesis [H]: one hypothesis per
    call, with guards and option conversions reduced to what they test. *)
Ltac inv_guard H :=
  first [ apply ensure_ok in H | apply ok_or_ok in H | apply unwrap_ok in H
        | apply assert_that_ok in H | apply map_err_ok in H | idtac ].
Ltac inv_bind H :=
  repeat match type of H with
  | (_ ≫= _) = Ok _ => let a := fresh "v" in let Ha := fresh "Hv" in
      apply outcome_bind_ok in H; destruct H as (a & Ha & H); inv_guard Ha
  end.

(** Runs the monadic plumbing of an outcome and nothing else. *)
Ltac mstep :=
  cbn [mbind mret fmap outcome_mbind outcome_mret outcome_fmap outcome_bind
       ok_or unwrap ensure assert_that map_err].
Tactic Notation "mstep" "in" hyp(H) :=
  cbn [mbind mret fmap outcome_mbind outcome_mret outcome_fmap outcome_bind
       ok_or unwrap ensure assert_that map_err] in H.
