(* ===== verification/Outcomes.v ===== *)
(** * Safe outcomes

    [yields m P]: the call [m] returns a value that satisfies [P] or one of its
    typed errors, so it neither panics nor runs out of fuel.  The rules follow
    the code: one for [?], one for each of the small operations that fail. *)

From S2P Require Import Prelude.

Definition yields {E A} (m : outcome E A) (P : A → Prop) : Prop :=
  match m with Ok a => P a | Err _ => True | Panic | NoFuel => False end.

Lemma yields_ok {E A} (P : A → Prop) a : P a → yields (Ok (E := E) a) P.
Proof. done. Qed.

Lemma yields_err {E A} (P : A → Prop) e : yields (Err (E := E) e) P.
Proof. done. Qed.

Lemma yields_bind {E A B} (m : outcome E A) (f : A → outcome E B) P Q :
  yields m P → (∀ a, P a → yields (f a) Q) → yields (m ≫= f) Q.
Proof. destruct m; cbn; auto; done. Qed.

Lemma yields_weaken {E A} (m : outcome E A) (P Q : A → Prop) : yields m P → (∀ a, P a → Q a) → yields m Q.
Proof. destruct m; cbn; auto. Qed.

Lemma yields_is_ok {E A} (m : outcome E A) a (P : A → Prop) : yields m P → m = Ok a → P a.
Proof. by intros Hy ->. Qed.

Lemma yields_ok_or {E A} (o : option A) (e : E) : yields (ok_or o e) (λ a, o = Some a).
Proof. by destruct o. Qed.

Lemma yields_ensure {E} (c : bool) (e : E) : yields (ensure c e) (λ _, c = true).
Proof. by destruct c. Qed.

Lemma yields_lift {E A} (m : outcome False A) a (P : A → Prop) : m = Ok a → P a → yields (lift (E := E) m) P.
Proof. by intros ->. Qed.

Lemma yields_map_err {E F A} (g : E → F) (m : outcome E A) P : yields m P → yields (map_err g m) P.
Proof. by destruct m. Qed.

Lemma yields_if {E A} (b : bool) (m n : outcome E A) P : (b = true → yields m P) → (b = false → yields n P) → yields (if b then m else n) P.
Proof. destruct b; auto. Qed.

(** One step of the code. *)
Ltac ystep :=
  match goal with
  | |- yields (ok_or _ _ ≫= _) _ => eapply yields_bind; [apply yields_ok_or|cbv beta]
  | |- yields (ensure _ _ ≫= _) _ => eapply yields_bind; [apply yields_ensure|cbv beta; intros []]
  | |- yields (_ ≫= _) _ => eapply yields_bind; cbv beta
  | |- yields (Ok _) _ => apply yields_ok
  | |- yields (Err _) _ => exact I
  end.
