(* ===== verification/Wire.v ===== *)
(** * Variable-length integers (src/wire/mod.rs)

    VarInt and VarLong share one algorithm at two widths; the Rust file writes
    it twice, so each Rust function is a definition here, an instance of a
    width-generic loop.  [read_*] takes the whole input slice and returns the
    value with the number of bytes consumed; [write_*] takes the output slice
    and returns the result together with the slice afterwards. *)

From S2P Require Import Prelude.
Local Open Scope Z_scope.

Definition MAX_VARINT_BYTES : nat := 5.
Definition MAX_VARLONG_BYTES : nat := 10.

Inductive DecodeError := Incomplete | TooLong.

Record BufferTooSmall := { required : Z; available : Z }.

(** ** Reading *)

(** The [for (index, &byte) in input.iter().take(MAX).enumerate()] loop over an
    unsigned accumulator of [w] bits; [None] is the fall through the loop. *)
Fixpoint read_loop (w : Z) (fuel : nat) (index value : Z) (input : list Z) : option (Z * Z) :=
  match fuel, input with
  | S fuel', byte :: rest =>
      let value := Z.lor value (u_wrap w (Z.shiftl (Z.land byte 127) (index * 7))) in
      if Z.land byte 128 =? 0 then Some (i_wrap w value, index + 1)
      else read_loop w fuel' (index + 1) value rest
  | _, _ => None
  end.

Definition read_varint (input : list Z) : outcome DecodeError (Z * Z) :=
  match read_loop 32 MAX_VARINT_BYTES 0 0 input with
  | Some r => Ok r
  | None => if (MAX_VARINT_BYTES <? length input)%nat then Err TooLong else Err Incomplete
  end.

Definition read_varlong (input : list Z) : outcome DecodeError (Z * Z) :=
  match read_loop 64 MAX_VARLONG_BYTES 0 0 input with
  | Some r => Ok r
  | None => if (MAX_VARLONG_BYTES <? length input)%nat then Err TooLong else Err Incomplete
  end.

(** ** Lengths *)

Definition varint_len (value : Z) : Z :=
  if value =? 0 then 1 else div_ceil (bit_len (u_wrap 32 value)) 7.

Definition varlong_len (value : Z) : Z :=
  if value =? 0 then 1 else div_ceil (bit_len (u_wrap 64 value)) 7.

(** ** Writing *)

(** [for byte in &mut output[..length - 1]] followed by the last byte: fills
    the first [n + 1] bytes of [output]. *)
Fixpoint write_loop (n : nat) (remaining : Z) (output : list Z) : list Z :=
  match n, output with
  | O, _ :: rest => u_wrap 8 remaining :: rest
  | S n', _ :: rest =>
      Z.lor (Z.land (u_wrap 8 remaining) 127) 128 :: write_loop n' (Z.shiftr remaining 7) rest
  | _, [] => []
  end.

Definition write_varint (value : Z) (output : list Z)
    : outcome BufferTooSmall Z * list Z :=
  let length := varint_len value in
  if zlen output <? length then
    (Err {| required := length; available := zlen output |}, output)
  else (Ok length, write_loop (Z.to_nat (length - 1)) (u_wrap 32 value) output).

Definition write_varlong (value : Z) (output : list Z)
    : outcome BufferTooSmall Z * list Z :=
  let length := varlong_len value in
  if zlen output <? length then
    (Err {| required := length; available := zlen output |}, output)
  else (Ok length, write_loop (Z.to_nat (length - 1)) (u_wrap 64 value) output).

(** ** Width-generic facts *)

(** The number of 7-bit groups of an unsigned value, at least one. *)
Definition groups (v : Z) : Z := if v =? 0 then 1 else div_ceil (bit_len v) 7.

(** The canonical encoding of an unsigned value in exactly [n + 1] groups. *)
Fixpoint encode (n : nat) (v : Z) : list Z :=
  match n with
  | O => [u_wrap 8 v]
  | S n' => Z.lor (Z.land (u_wrap 8 v) 127) 128 :: encode n' (Z.shiftr v 7)
  end.

Lemma length_encode n v : length (encode n v) = S n.
Proof. revert v; induction n; intros v; simpl; [done|]. by rewrite IHn. Qed.

Lemma write_loop_encode n v output :
  (n < length output)%nat →
  write_loop n v output = encode n v ++ drop (S n) output.
Proof.
  revert v output. induction n as [|n IH]; intros v [|b output] Hl; simpl in *; try lia.
  - by rewrite drop_0.
  - rewrite IH by lia. done.
Qed.

(** [groups] is the least [k >= 1] with [v < 2^(7 k)]. *)
Lemma groups_spec v : 0 ≤ v → 1 ≤ groups v ∧ v < 2 ^ (7 * groups v).
Proof.
  intros Hv. unfold groups, bit_len, div_ceil. case_match eqn:E.
  - apply Z.eqb_eq in E as ->. lia.
  - apply Z.eqb_neq in E. destruct (v <=? 0) eqn:E'; [lia|].
    pose proof (Z.log2_nonneg v). pose proof (Z.log2_spec v ltac:(lia)) as [_ Hs].
    split; [apply Z.div_le_lower_bound; lia|].
    eapply Z.lt_le_trans; [apply Hs|]. apply Z.pow_le_mono_r; [lia|].
    pose proof (Z.div_mod (Z.log2 v + 1 + 7 - 1) 7 ltac:(lia)).
    pose proof (Z.mod_pos_bound (Z.log2 v + 1 + 7 - 1) 7 ltac:(lia)). lia.
Qed.

Lemma groups_le v k : 0 ≤ v → 1 ≤ k → v < 2 ^ (7 * k) → groups v ≤ k.
Proof.
  intros Hv Hk Hlt. unfold groups, bit_len, div_ceil. case_match eqn:E; [lia|].
  apply Z.eqb_neq in E. destruct (v <=? 0) eqn:E'; [lia|].
  assert (Z.log2 v < 7 * k) by (apply Z.log2_lt_pow2; lia).
  apply Z.lt_succ_r, Z.div_lt_upper_bound; lia.
Qed.

Lemma land_127 z : Z.land z 127 = z `mod` 128.
Proof. apply (land_ones_mod z 7). lia. Qed.

Lemma land_128_eqb z : (Z.land z 128 =? 0) = negb (Z.testbit z 7).
Proof.
  destruct (Z.testbit z 7) eqn:E; simpl.
  - apply Z.eqb_neq. intros H. apply (f_equal (λ x, Z.testbit x 7)) in H.
    rewrite Z.land_spec, E, Z.bits_0 in H. done.
  - apply Z.eqb_eq. change 128 with (2 ^ 7). bitwise.
Qed.

Lemma testbit7_lor z : Z.testbit (Z.lor z 128) 7 = true.
Proof. rewrite Z.lor_spec. apply orb_true_r. Qed.

(** The decoder undoes [encode] at any position of the accumulator. *)
Lemma read_loop_encode w n fuel index value v rest :
  0 ≤ w → (n < fuel)%nat → 0 ≤ index → 0 ≤ v < 2 ^ (7 * (Z.of_nat n + 1)) →
  read_loop w fuel index value (encode n v ++ rest)
  = Some (i_wrap w (Z.lor value (u_wrap w (Z.shiftl v (index * 7)))),
          index + Z.of_nat n + 1).
Proof.
  intros Hw. revert fuel index value v. induction n as [|n IH];
    intros [|fuel] index value v Hf Hi Hv; try lia; cbn [encode app read_loop].
  - change (7 * (Z.of_nat 0 + 1)) with 7 in Hv. rewrite u_wrap_id by (unfold in_u; lia).
    rewrite land_128_eqb, (testbit_high 7) by (unfold in_u; lia). cbn [negb].
    rewrite land_127, Z.mod_small by lia. do 2 f_equal. lia.
  - rewrite land_128_eqb, testbit7_lor. cbn [negb].
    rewrite Nat2Z.inj_succ in Hv. rewrite IH; [|lia|lia|].
    + f_equal. f_equal; [|lia]. f_equal. rewrite land_127.
      change 128 with (2 ^ 7). change 127 with (2 ^ 7 - 1). bitwise.
    + rewrite Z.shiftr_div_pow2 by lia. split; [apply Z.div_pos; lia|].
      apply Z.div_lt_upper_bound; [lia|]. rewrite <- Z.pow_add_r by lia.
      eapply Z.lt_le_trans; [apply Hv|]. apply Z.pow_le_mono_r; lia.
Qed.

(** One step keeps the accumulator inside both of its bounds. *)
Lemma read_step_range w index value b :
  0 < w → 0 ≤ index → in_u w value → value < 2 ^ (7 * index) →
  let value' := Z.lor value (u_wrap w (Z.shiftl (Z.land b 127) (index * 7))) in
  in_u w value' ∧ value' < 2 ^ (7 * (index + 1)).
Proof.
  intros Hw Hi Hu Hlt value'.
  assert (0 ≤ value') by (apply Z.lor_nonneg; split; [apply Hu|apply u_wrap_range; lia]).
  assert (∀ i, w ≤ i ∨ 7 * (index + 1) ≤ i → Z.testbit value' i = false) as Hb.
  { intros i Hc. unfold value'. rewrite land_127. change 128 with (2 ^ 7).
    destruct (decide (0 ≤ i)); [|by rewrite Z.testbit_neg_r by lia].
    rewrite Z.lor_spec, orb_false_iff. split; [|bit_solve].
    destruct Hc; [by apply (testbit_high w)|].
    apply (testbit_high (7 * index)); [unfold in_u in *; lia|lia]. }
  split; (apply in_u_testbit; [lia|done|intros; apply Hb; lia]).
Qed.

(** Whatever the decoder returns, it never consumed fewer groups than needed. *)
Lemma read_loop_sound w fuel index value input r k :
  0 < w → 0 ≤ index → in_u w value → value < 2 ^ (7 * index) →
  read_loop w fuel index value input = Some (r, k) →
  index < k ≤ index + zlen input ∧ k ≤ index + Z.of_nat fuel ∧
  ∃ u, r = i_wrap w u ∧ in_u w u ∧ u < 2 ^ (7 * k).
Proof.
  intros Hw. revert index value input.
  induction fuel as [|fuel IH]; intros index value [|b input] Hi Hu Hlt H; try done.
  cbn [read_loop] in H. unfold zlen in *. cbn [length].
  pose proof (read_step_range w index value b Hw Hi Hu Hlt) as [Hu' Hlt'].
  destruct (Z.land b 128 =? 0).
  - injection H as <- <-. repeat split; try lia. eauto.
  - apply IH in H; [|lia|done|done]. destruct H as (?&?&?). repeat split; try lia. done.
Qed.

(** Only the consumed prefix matters. *)
Lemma read_loop_app w fuel index value input rest r :
  read_loop w fuel index value input = Some r →
  read_loop w fuel index value (input ++ rest) = Some r.
Proof.
  revert index value input.
  induction fuel as [|fuel IH]; intros index value [|b input] H; try done.
  cbn [app read_loop] in *. destruct (Z.land b 128 =? 0); [done|]. by apply IH.
Qed.

(** The loop falls through exactly when every byte it may read continues. *)
Lemma read_loop_None w fuel index value input :
  read_loop w fuel index value input = None ↔
  Forall (λ b, Z.testbit b 7 = true) (take fuel input).
Proof.
  revert index value input.
  induction fuel as [|fuel IH]; intros index value [|b input];
    cbn [read_loop take]; try (split; by constructor).
  rewrite land_128_eqb, Forall_cons. destruct (Z.testbit b 7); cbn [negb].
  - rewrite IH. by split; [|intros []].
  - by split; [|intros []].
Qed.

(** ** The two instances *)

(** What the theorems below say once for VarInt ([w = 32], 5 bytes) and once
    for VarLong ([w = 64], 10 bytes). *)
Lemma len_groups w value :
  0 < w → in_i w value →
  (if value =? 0 then 1 else div_ceil (bit_len (u_wrap w value)) 7) = groups (u_wrap w value).
Proof.
  intros Hw Hv. unfold groups.
  destruct (Z.eqb_spec value 0) as [->|Hne].
  - unfold u_wrap. by rewrite Z.mod_0_l by (pose proof (pow2_pos w); lia).
  - destruct (Z.eqb_spec (u_wrap w value) 0) as [Hz|]; [|done].
    exfalso. apply Hne. rewrite <- (i_wrap_u_wrap w value), Hz by done.
    unfold i_wrap. rewrite Z.mod_0_l by (pose proof (pow2_pos w); lia).
    case_match; [done|]. pose proof (pow2_pos (w - 1)). lia.
Qed.

Lemma varint_len_groups value : in_i 32 value → varint_len value = groups (u_wrap 32 value).
Proof. by apply len_groups. Qed.
Lemma varlong_len_groups value : in_i 64 value → varlong_len value = groups (u_wrap 64 value).
Proof. by apply len_groups. Qed.

Lemma groups_bound w v k : 0 ≤ w → 1 ≤ k → w ≤ 7 * k → in_u w v → 1 ≤ groups v ≤ k.
Proof.
  intros Hw Hk Hle [H0 H1]. split; [by apply groups_spec|].
  apply groups_le; [done|done|]. eapply Z.lt_le_trans; [done|]. apply pow2_le; lia.
Qed.

Lemma varint_len_range value : in_i 32 value → 1 ≤ varint_len value ≤ 5.
Proof.
  intros. rewrite varint_len_groups by done.
  apply (groups_bound 32); [lia..|]. apply u_wrap_range; lia.
Qed.
Lemma varlong_len_range value : in_i 64 value → 1 ≤ varlong_len value ≤ 10.
Proof.
  intros. rewrite varlong_len_groups by done.
  apply (groups_bound 64); [lia..|]. apply u_wrap_range; lia.
Qed.

(** Reading back what [write_loop] wrote, for any width and fuel. *)
Lemma read_write_loop w fuel value output :
  0 < w → in_i w value → groups (u_wrap w value) ≤ Z.of_nat fuel →
  groups (u_wrap w value) ≤ zlen output →
  read_loop w fuel 0 0
    (write_loop (Z.to_nat (groups (u_wrap w value) - 1)) (u_wrap w value) output)
  = Some (value, groups (u_wrap w value)).
Proof.
  intros Hw Hv Hf Hl. set (u := u_wrap w value) in *. unfold zlen in *.
  assert (Hu : in_u w u) by (apply u_wrap_range; lia).
  pose proof (groups_spec u ltac:(apply Hu)) as [Hg1 Hg2].
  rewrite write_loop_encode by lia.
  rewrite read_loop_encode; [|lia|lia|lia|].
  - rewrite Z.mul_0_l, Z.shiftl_0_r, Z.lor_0_l, u_wrap_id by done.
    unfold u. rewrite i_wrap_u_wrap by done. do 2 f_equal. unfold u in *. lia.
  - split; [apply Hu|]. replace (7 * _) with (7 * groups u) by lia. done.
Qed.

Lemma write_loop_frame n v output :
  (n < length output)%nat →
  drop (S n) (write_loop n v output) = drop (S n) output ∧
  length (write_loop n v output) = length output.
Proof.
  intros Hn. rewrite write_loop_encode by done. split.
  - rewrite drop_app_length'; [done|]. by rewrite length_encode.
  - rewrite length_app, length_encode, length_drop. lia.
Qed.

Lemma write_varint_ok value output :
  in_i 32 value → varint_len value ≤ zlen output →
  write_varint value output =
    (Ok (varint_len value),
     encode (Z.to_nat (varint_len value - 1)) (u_wrap 32 value)
       ++ drop (Z.to_nat (varint_len value)) output).
Proof.
  intros Hv Hl. pose proof (varint_len_range value Hv). unfold write_varint.
  destruct (Z.ltb_spec (zlen output) (varint_len value)); [lia|].
  rewrite write_loop_encode by (unfold zlen in *; lia). do 3 f_equal. lia.
Qed.

(** ** Properties *)

(** Round trip: whenever [write_varint] (or [write_varlong]) succeeds on a
    value of its signed type, reading the output slice back gives that value
    and the same byte count, whatever follows, and the bytes past the count
    are untouched. *)
Theorem wire_roundtrip value output output' n :
  (in_i 32 value → write_varint value output = (Ok n, output') →
     read_varint output' = Ok (value, n) ∧
     drop (Z.to_nat n) output' = drop (Z.to_nat n) output ∧ length output' = length output)
  ∧ (in_i 64 value → write_varlong value output = (Ok n, output') →
     read_varlong output' = Ok (value, n) ∧
     drop (Z.to_nat n) output' = drop (Z.to_nat n) output ∧ length output' = length output).
Proof.
  split; intros Hv.
  - pose proof (varint_len_range value Hv). unfold write_varint.
    destruct (Z.ltb_spec (zlen output) (varint_len value)) as [|Hl]; [done|].
    injection 1 as <- <-. rewrite varint_len_groups in * by done. split.
    + unfold read_varint. rewrite read_write_loop; [done|lia|done|unfold MAX_VARINT_BYTES, MAX_VARLONG_BYTES; lia|done].
    + unfold zlen in *. pose proof (write_loop_frame
        (Z.to_nat (groups (u_wrap 32 value) - 1)) (u_wrap 32 value) output ltac:(lia)) as [Hd ?].
      replace (S _) with (Z.to_nat (groups (u_wrap 32 value))) in Hd by lia. done.
  - pose proof (varlong_len_range value Hv). unfold write_varlong.
    destruct (Z.ltb_spec (zlen output) (varlong_len value)) as [|Hl]; [done|].
    injection 1 as <- <-. rewrite varlong_len_groups in * by done. split.
    + unfold read_varlong. rewrite read_write_loop; [done|lia|done|unfold MAX_VARINT_BYTES, MAX_VARLONG_BYTES; lia|done].
    + unfold zlen in *. pose proof (write_loop_frame
        (Z.to_nat (groups (u_wrap 64 value) - 1)) (u_wrap 64 value) output ltac:(lia)) as [Hd ?].
      replace (S _) with (Z.to_nat (groups (u_wrap 64 value))) in Hd by lia. done.
Qed.

Lemma wire_roundtrip_witness :
  read_varint [0xff; 0xff; 0xff; 0xff; 0x0f; 7] = Ok (-1, 5) ∧
  read_varlong [0x80; 0x01; 7] = Ok (128, 2).
Proof.
  split.
  - apply (wire_roundtrip (-1) [1; 2; 3; 4; 5; 7]); [unfold in_i; lia|reflexivity].
  - apply (wire_roundtrip 128 [1; 2; 7]); [unfold in_i; lia|reflexivity].
Defined.

(** Decoded values are in range, the count is within the input and the
    byte limit, and no accepted encoding (overlong ones included) is shorter
    than the canonical length; a negative VarInt always takes five bytes and a
    negative VarLong ten. *)
Theorem wire_read_bounds input value n :
  (read_varint input = Ok (value, n) →
     in_i 32 value ∧ varint_len value ≤ n ≤ 5 ∧ n ≤ zlen input ∧ (value < 0 → n = 5))
  ∧ (read_varlong input = Ok (value, n) →
     in_i 64 value ∧ varlong_len value ≤ n ≤ 10 ∧ n ≤ zlen input ∧ (value < 0 → n = 10)).
Proof.
  assert (∀ w fuel, 0 < w → read_loop w fuel 0 0 input = Some (value, n) →
    in_i w value ∧ groups (u_wrap w value) ≤ n ≤ Z.of_nat fuel ∧ n ≤ zlen input
    ∧ (value < 0 → w - 1 < 7 * n)) as Hgen.
  { intros w fuel Hw H. apply read_loop_sound in H as (Hn&Hf&u&->&Hu&Hlt); [|lia..| |lia].
    - rewrite u_wrap_i_wrap, u_wrap_id by done.
      split_and!; [apply i_wrap_range; lia|apply groups_le; [apply Hu|lia|done]|lia|lia|].
      intros Hneg. destruct (decide (w - 1 < 7 * n)) as [|Hge]; [done|exfalso].
        rewrite i_wrap_id in Hneg; [destruct Hu; lia|done|].
        split; [apply Hu|]. eapply Z.lt_le_trans; [done|]. apply pow2_le; lia.
    - unfold in_u. pose proof (pow2_pos w). lia. }
  split.
  - unfold read_varint. destruct (read_loop 32 _ _ _ _) eqn:E; [|by case_match].
    intros [= ->]. apply Hgen in E as (?&?&?&?); [|lia]. rewrite varint_len_groups by done.
    change (Z.of_nat MAX_VARINT_BYTES) with 5 in *. split_and!; try done; lia.
  - unfold read_varlong. destruct (read_loop 64 _ _ _ _) eqn:E; [|by case_match].
    intros [= ->]. apply Hgen in E as (?&?&?&?); [|lia]. rewrite varlong_len_groups by done.
    change (Z.of_nat MAX_VARLONG_BYTES) with 10 in *. split_and!; try done; lia.
Qed.

Lemma wire_read_bounds_witness :
  in_i 32 1 ∧ varint_len 1 ≤ 3 ≤ 5 ∧ 3 ≤ 4 ∧ (1 < 0 → 3 = 5).
Proof. apply (wire_read_bounds [0x81; 0x80; 0x00; 9] 1 3). reflexivity. Defined.

(** The two errors exactly: a read fails iff every byte it may look at has
    its continuation bit, with [TooLong] iff a byte beyond the limit exists
    (so five continuation bytes alone are still [Incomplete]); and a
    successful read is unchanged by more input. *)
Theorem wire_read_errors input more :
  (read_varint input = Err Incomplete ↔
     Forall (λ b, Z.testbit b 7 = true) (take 5 input) ∧ (length input ≤ 5)%nat)
  ∧ (read_varint input = Err TooLong ↔
     Forall (λ b, Z.testbit b 7 = true) (take 5 input) ∧ (5 < length input)%nat)
  ∧ (read_varlong input = Err Incomplete ↔
     Forall (λ b, Z.testbit b 7 = true) (take 10 input) ∧ (length input ≤ 10)%nat)
  ∧ (read_varlong input = Err TooLong ↔
     Forall (λ b, Z.testbit b 7 = true) (take 10 input) ∧ (10 < length input)%nat)
  ∧ (∀ r, read_varint input = Ok r → read_varint (input ++ more) = Ok r)
  ∧ (∀ r, read_varlong input = Ok r → read_varlong (input ++ more) = Ok r).
Proof.
  pose proof (read_loop_None 32 5 0 0 input) as H5.
  pose proof (read_loop_None 64 10 0 0 input) as H10.
  unfold read_varint, read_varlong, MAX_VARINT_BYTES, MAX_VARLONG_BYTES.
  destruct (read_loop 32 5 0 0 input) as [r5|] eqn:E5;
  destruct (read_loop 64 10 0 0 input) as [r10|] eqn:E10;
  destruct (Nat.ltb_spec 5 (length input));
  destruct (Nat.ltb_spec 10 (length input));
  try (pose proof (read_loop_app _ _ _ _ _ more _ E5) as ->);
  try (pose proof (read_loop_app _ _ _ _ _ more _ E10) as ->);
  repeat split; intros; try done; try lia; try congruence; try naive_solver.
Qed.

Lemma wire_read_errors_witness :
  read_varint [0x80; 0x80; 0x80; 0x80; 0x80] = Err Incomplete ∧
  read_varint [0x80; 0x80; 0x80; 0x80; 0x80; 0x00] = Err TooLong ∧
  read_varint ([0x05] ++ [9]) = Ok (5, 1).
Proof.
  split_and!.
  - apply (proj1 (wire_read_errors [0x80; 0x80; 0x80; 0x80; 0x80] [])).
    split; [repeat constructor|simpl; lia].
  - apply (proj1 (proj2 (wire_read_errors [0x80; 0x80; 0x80; 0x80; 0x80; 0x00] []))).
    split; [repeat constructor|simpl; lia].
  - apply (proj1 (proj2 (proj2 (proj2 (proj2 (wire_read_errors [0x05] [9])))))). reflexivity.
Defined.
