(* ===== verification/Packed.v ===== *)
(** * Packed arrays of small values (src/world/section/packed.rs)

    Values of [bits] bits are packed low to high in 64-bit words, never across
    a word boundary.  [wf] is the invariant the Rust comments state (unused
    high bits stay zero); [values] is the array the words stand for. *)

From S2P Require Import Prelude.
Local Open Scope Z_scope.

(** src/world/section.rs, [enum Error], shared by the section codecs. *)
Inductive Error :=
| InvalidRegistrySize (n : Z)
| InvalidBits (n : Z)
| InvalidLength (expected actual : Z)
| IndexOutOfBounds
| ValueOutOfRange (v : Z)
| InvalidPaletteLength (n : Z)
| InvalidPaletteIndex (n : Z)
| InvalidCounts
| Truncated
| InvalidVarInt
| AllocationBudgetExceeded
| AllocationFailed
| OutputCapacity
| NonCanonicalPadding.

Definition MAX_LEN : nat := 4096.

(** [words] is the vector's contents and [cap] its capacity. *)
Record packed := Packed {
  bits : nat;
  len : nat;
  words : list Z;
  cap : Z;
}.

Definition word_count (bits len : nat) : outcome Error nat :=
  if negb ((1 <=? bits)%nat && (bits <=? 31)%nat) then Err (InvalidBits (Z.of_nat bits))
  else if negb ((1 <=? len)%nat && (len <=? MAX_LEN)%nat) then
    Err (InvalidLength (Z.of_nat (Nat.min (Nat.max len 1) MAX_LEN)) (Z.of_nat len))
  else Ok (Z.to_nat (div_ceil (Z.of_nat len) (64 `div` Z.of_nat bits))).

Definition per_word (bits : nat) : nat := (64 / bits)%nat.

Definition position (p : packed) (index : nat) : option (nat * Z) :=
  if (len p <=? index)%nat then None
  else Some ((index / per_word (bits p))%nat,
             Z.of_nat (index mod per_word (bits p) * bits p)%nat).

Definition mask (bits : nat) : Z := Z.shiftl 1 (Z.of_nat bits) - 1.

Section packed.
Context `{Allocator}.

Definition new (bits len : nat) (allocation_limit : Z) : outcome Error packed :=
  count ← word_count bits len;
  _ ← ensure (Z.of_nat count * 8 <=? allocation_limit) AllocationBudgetExceeded;
  cap ← ok_or (reserve_exact 8 (Z.of_nat count)) AllocationFailed;
  _ ← ensure (cap * 8 <=? allocation_limit) AllocationBudgetExceeded;
  Ok (Packed bits len (replicate count 0) cap).
End packed.

(** The body of the padding loop of [from_words] at one word. *)
Definition padding_ok (bits len index : nat) (word : Z) : bool :=
  let entries := Nat.min (per_word bits) (len - index * per_word bits) in
  let used_bits := Z.of_nat (entries * bits) in
  negb ((used_bits <? 64) && negb (Z.shiftr word used_bits =? 0)).

Fixpoint padding_loop (bits len index : nat) (words : list Z) : bool :=
  match words with
  | [] => true
  | word :: rest => padding_ok bits len index word && padding_loop bits len (S index) rest
  end.

Definition from_words (bits len : nat) (words : list Z) (cap : Z) : outcome Error packed :=
  expected ← word_count bits len;
  _ ← ensure (length words =? expected)%nat
        (InvalidLength (Z.of_nat expected) (zlen words));
  _ ← ensure (padding_loop bits len 0 words) NonCanonicalPadding;
  Ok (Packed bits len words cap).

(** Reads a field of a word. *)
Definition field (bits : nat) (word shift : Z) : Z := Z.land (Z.shiftr word shift) (mask bits).

Definition get (p : packed) (index : nat) : outcome Error (option Z) :=
  match position p index with
  | None => Ok None
  | Some (word, shift) =>
      w ← unwrap (words p !! word);
      Ok (Some (u_wrap 32 (field (bits p) w shift)))
  end.

Definition set (p : packed) (index : nat) (value : Z) : outcome Error (Z * packed) :=
  '(word, shift) ← ok_or (position p index) IndexOutOfBounds;
  let m := mask (bits p) in
  if m <? value then Err (ValueOutOfRange value)
  else
    w ← unwrap (words p !! word);
    let previous := u_wrap 32 (field (bits p) w shift) in
    let w' := Z.lor (Z.land w (u_not 64 (u_wrap 64 (Z.shiftl m shift))))
                    (u_wrap 64 (Z.shiftl value shift)) in
    Ok (previous, Packed (bits p) (len p) (<[word := w']> (words p)) (cap p)).

Definition heap_bytes (p : packed) : Z := cap p * 8.

(** ** Invariant and abstraction *)

(** Number of used bits of word [k]. *)
Definition used (bits len k : nat) : Z :=
  Z.of_nat (Nat.min (per_word bits) (len - k * per_word bits) * bits).

Definition dims_ok (bits len : nat) : Prop :=
  (1 ≤ bits ≤ 31)%nat ∧ (1 ≤ len ≤ MAX_LEN)%nat.
#[global] Instance dims_ok_dec bits len : Decision (dims_ok bits len) := _.

Record wf (p : packed) : Prop := {
  wf_dims : dims_ok (bits p) (len p);
  wf_count : length (words p) = Z.to_nat (div_ceil (Z.of_nat (len p)) (64 `div` Z.of_nat (bits p)));
  wf_words k w : words p !! k = Some w → in_u (used (bits p) (len p) k) w;
}.

Definition values (p : packed) : list Z :=
  (λ i, field (bits p) (nth (i / per_word (bits p)) (words p) 0)
          (Z.of_nat (i mod per_word (bits p) * bits p))) <$> seq 0 (len p).

(** ** Geometry of a word *)

Lemma mask_eq b : mask b = 2 ^ Z.of_nat b - 1.
Proof. unfold mask. by rewrite Z.shiftl_1_l. Qed.

Lemma per_word_bounds b : (1 ≤ b ≤ 31)%nat → (2 ≤ per_word b ≤ 64)%nat ∧ (per_word b * b ≤ 64)%nat.
Proof.
  intros. unfold per_word. pose proof (Nat.div_mod_eq 64 b).
  pose proof (Nat.mod_upper_bound 64 b ltac:(lia)). split; nia.
Qed.

(** Where index [i] falls, as a quotient and a remainder. *)
Lemma index_split b i :
  (1 ≤ b ≤ 31)%nat →
  i = (i / per_word b * per_word b + i mod per_word b)%nat ∧ (i mod per_word b < per_word b)%nat.
Proof.
  intros. pose proof (per_word_bounds b). pose proof (Nat.div_mod_eq i (per_word b)).
  pose proof (Nat.mod_upper_bound i (per_word b) ltac:(lia)). lia.
Qed.

Lemma used_le b n k : (1 ≤ b ≤ 31)%nat → 0 ≤ used b n k ≤ 64.
Proof. intros. pose proof (per_word_bounds b). unfold used. nia. Qed.

Lemma index_used b n i :
  (1 ≤ b ≤ 31)%nat → (i < n)%nat →
  Z.of_nat (i mod per_word b * b) + Z.of_nat b ≤ used b n (i / per_word b).
Proof. intros Hb Hi. pose proof (index_split b i Hb). unfold used. nia. Qed.

Lemma count_eq b n :
  (1 ≤ b ≤ 31)%nat →
  Z.to_nat (div_ceil (Z.of_nat n) (64 `div` Z.of_nat b)) = ((n + per_word b - 1) / per_word b)%nat.
Proof.
  intros. unfold div_ceil, per_word. change 64 with (Z.of_nat 64).
  rewrite <- Nat2Z.inj_div. pose proof (per_word_bounds b ltac:(done)). unfold per_word in *.
  rewrite <- Nat2Z.inj_add. change 1 with (Z.of_nat 1). rewrite <- Nat2Z.inj_sub by lia.
  by rewrite <- Nat2Z.inj_div, Nat2Z.id.
Qed.

Lemma index_word_lt b n i :
  (1 ≤ b ≤ 31)%nat → (i < n)%nat →
  (i / per_word b < (n + per_word b - 1) / per_word b)%nat.
Proof.
  intros Hb Hi. pose proof (per_word_bounds b Hb). pose proof (index_split b i Hb).
  apply Nat.div_le_lower_bound; nia.
Qed.

(** Word [k] of a full table starts inside the array: the subtraction
    [len - index * per_word] in [from_words] does not underflow. *)
Lemma word_start_lt b n k :
  (1 ≤ b ≤ 31)%nat → (1 ≤ n)%nat → (k < (n + per_word b - 1) / per_word b)%nat →
  (k * per_word b < n)%nat.
Proof.
  intros Hb Hn Hk. pose proof (per_word_bounds b Hb).
  pose proof (Nat.div_mod_eq (n + per_word b - 1) (per_word b)). nia.
Qed.

(** ** Fields of a word *)

Lemma field_testbit b w s i :
  0 ≤ s → 0 ≤ i → Z.testbit (field b w s) i = (i <? Z.of_nat b) && Z.testbit w (i + s).
Proof. intros. unfold field. rewrite mask_eq. bit_norm. apply andb_comm. Qed.

Lemma field_range b w s : 0 ≤ s → in_u (Z.of_nat b) (field b w s).
Proof.
  intros. unfold field. rewrite mask_eq, land_ones_mod by lia. apply u_wrap_range. lia.
Qed.

Lemma field_u32 b w s : (b ≤ 31)%nat → 0 ≤ s → u_wrap 32 (field b w s) = field b w s.
Proof.
  intros. apply u_wrap_id, (in_u_mono (Z.of_nat b)); [lia|]. by apply field_range.
Qed.

(** The word [set] stores. *)
Definition set_word (b : nat) (w shift value : Z) : Z :=
  Z.lor (Z.land w (u_not 64 (u_wrap 64 (Z.shiftl (mask b) shift))))
        (u_wrap 64 (Z.shiftl value shift)).

Section set_word.
Context (b : nat) (w s v n : Z).
Hypothesis Hs : 0 ≤ s.
Hypothesis Hn : s + Z.of_nat b ≤ n.
Hypothesis Hn64 : n ≤ 64.
Hypothesis Hv : in_u (Z.of_nat b) v.
Hypothesis Hw : in_u n w.

Lemma set_word_testbit i :
  0 ≤ i → Z.testbit (set_word b w s v) i
  = if (s <=? i) && (i <? s + Z.of_nat b) then Z.testbit v (i - s) else Z.testbit w i.
Proof.
  intros Hi. unfold set_word. rewrite mask_eq.
  assert (n ≤ i → Z.testbit w i = false) by (intros; by apply (testbit_high n)).
  assert (s + Z.of_nat b ≤ i → Z.testbit v (i - s) = false)
    by (intros; apply (testbit_high (Z.of_nat b)); [done|lia]).
  destruct (Z.leb_spec s i); destruct (Z.ltb_spec i (s + Z.of_nat b)); simpl;
    bit_norm; repeat (bit_case; bit_norm; try lia);
    repeat match goal with H : ?P → _ |- _ => rewrite H by lia; clear H end;
    bit_norm; done.
Qed.

Lemma set_word_range : in_u n (set_word b w s v).
Proof.
  apply in_u_testbit; [lia| |].
  - unfold set_word. apply Z.lor_nonneg. split; [|apply u_wrap_range; lia].
    apply Z.land_nonneg. left. apply Hw.
  - intros i Hi. rewrite set_word_testbit by lia.
    destruct (Z.leb_spec s i), (Z.ltb_spec i (s + Z.of_nat b)); simpl; try lia;
      by apply (testbit_high n).
Qed.

Lemma field_set_word : field b (set_word b w s v) s = v.
Proof.
  apply Z.bits_inj'. intros i Hi. rewrite field_testbit, set_word_testbit by lia.
  destruct (Z.leb_spec s (i + s)); [|lia].
  destruct (Z.ltb_spec i (Z.of_nat b)), (Z.ltb_spec (i + s) (s + Z.of_nat b)); simpl; try lia.
  - f_equal. lia.
  - symmetry. by apply (testbit_high (Z.of_nat b)).
Qed.

Lemma field_set_word_ne t :
  0 ≤ t → t + Z.of_nat b ≤ s ∨ s + Z.of_nat b ≤ t →
  field b (set_word b w s v) t = field b w t.
Proof.
  intros Ht Hd. apply Z.bits_inj'. intros i Hi. rewrite !field_testbit, set_word_testbit by lia.
  destruct (Z.ltb_spec i (Z.of_nat b)); [|done].
  destruct (Z.leb_spec s (i + t)), (Z.ltb_spec (i + t) (s + Z.of_nat b)); simpl; try done; lia.
Qed.
End set_word.

(** Two words in range with the same fields at every slot are equal. *)
Lemma word_ext b n k w1 w2 :
  (1 ≤ b ≤ 31)%nat → in_u (used b n k) w1 → in_u (used b n k) w2 →
  (∀ r, (r < Nat.min (per_word b) (n - k * per_word b))%nat →
     field b w1 (Z.of_nat (r * b)) = field b w2 (Z.of_nat (r * b))) →
  w1 = w2.
Proof.
  intros Hb H1 H2 Hf. apply Z.bits_inj'. intros i Hi.
  destruct (decide (i < used b n k)) as [Hlt|Hge].
  2: { by rewrite !(testbit_high (used b n k)) by (done || lia). }
  set (r := Z.to_nat (i `div` Z.of_nat b)).
  pose proof (Z.div_mod i (Z.of_nat b) ltac:(lia)) as Hd.
  pose proof (Z.mod_pos_bound i (Z.of_nat b) ltac:(lia)) as Hm.
  pose proof (Z.div_pos i (Z.of_nat b) ltac:(lia) ltac:(lia)).
  assert (Hr : (r < Nat.min (per_word b) (n - k * per_word b))%nat).
  { unfold used in Hlt. unfold r. nia. }
  specialize (Hf r Hr). apply (f_equal (λ z, Z.testbit z (i `mod` Z.of_nat b))) in Hf.
  rewrite !field_testbit in Hf by lia.
  destruct (Z.ltb_spec (i `mod` Z.of_nat b) (Z.of_nat b)); [|lia].
  assert (i `mod` Z.of_nat b + Z.of_nat (r * b) = i) as E by (unfold r; nia).
  by rewrite E in Hf.
Qed.

(** ** Operations under the invariant *)

Lemma length_values p : length (values p) = len p.
Proof. unfold values. by rewrite length_fmap, length_seq. Qed.

Lemma values_lookup p i :
  (i < len p)%nat →
  values p !! i = Some (field (bits p) (nth (i / per_word (bits p)) (words p) 0)
                          (Z.of_nat (i mod per_word (bits p) * bits p))).
Proof. intros. unfold values. by rewrite list_lookup_fmap, lookup_seq_lt by done. Qed.

Lemma wf_word p i :
  wf p → (i < len p)%nat →
  ∃ w, words p !! (i / per_word (bits p))%nat = Some w ∧
       nth (i / per_word (bits p)) (words p) 0 = w ∧
       in_u (used (bits p) (len p) (i / per_word (bits p))) w.
Proof.
  intros [[Hb Hl] Hc Hw] Hi. rewrite count_eq in Hc by done.
  destruct (lookup_lt_ok (words p) (i / per_word (bits p))) as [w Hlk].
  { rewrite Hc. by apply index_word_lt. }
  exists w. split_and!; [done| |by apply Hw].
  by rewrite nth_lookup, Hlk.
Qed.

Lemma values_range p i v : wf p → values p !! i = Some v → in_u (Z.of_nat (bits p)) v.
Proof.
  intros Hwf Hv. pose proof (lookup_lt_Some _ _ _ Hv) as Hi. rewrite length_values in Hi.
  rewrite values_lookup in Hv by done. injection Hv as <-. apply field_range. lia.
Qed.

Lemma get_spec p i : wf p → get p i = Ok (values p !! i).
Proof.
  intros Hwf. unfold get, position. destruct (Nat.leb_spec (len p) i) as [Hge|Hlt].
  - by rewrite lookup_ge_None_2 by (rewrite length_values; lia).
  - destruct (wf_word p i Hwf Hlt) as (w&Hlk&Hnth&_).
    rewrite Hlk. cbn. rewrite values_lookup, Hnth by done.
    destruct Hwf as [[??] _ _]. by rewrite field_u32 by lia.
Qed.

(** The updated words keep the invariant and stand for the updated array. *)
Lemma set_words_spec p i v w :
  wf p → (i < len p)%nat → in_u (Z.of_nat (bits p)) v →
  words p !! (i / per_word (bits p))%nat = Some w →
  let p' := Packed (bits p) (len p)
    (<[(i / per_word (bits p))%nat :=
        set_word (bits p) w (Z.of_nat (i mod per_word (bits p) * bits p)) v]> (words p)) (cap p) in
  wf p' ∧ values p' = <[i := v]> (values p).
Proof.
  intros Hwf Hi Hv Hlk p'. pose proof Hwf as [[Hb Hl] Hc Hw].
  pose proof (index_used (bits p) (len p) i Hb Hi) as Hu.
  pose proof (used_le (bits p) (len p) (i / per_word (bits p)) Hb) as Hu64.
  assert (Hlt : (i / per_word (bits p) < length (words p))%nat) by (by eapply lookup_lt_Some).
  split.
  - split; [done|cbn; by rewrite length_insert|]. cbn. intros k w' Hk.
    destruct (decide (k = (i / per_word (bits p))%nat)) as [->|Hne].
    + rewrite list_lookup_insert_eq in Hk by done. injection Hk as <-.
      apply set_word_range; [lia|exact Hu|lia|done|by apply Hw].
    + rewrite list_lookup_insert_ne in Hk by done. by apply Hw.
  - apply list_eq. intros j. destruct (decide (j < len p)%nat) as [Hj|Hj].
    2: { rewrite !lookup_ge_None_2; [done|..]; rewrite ?length_insert, length_values; cbn; lia. }
    rewrite values_lookup by done. unfold p'. cbn [bits words len].
    destruct (wf_word p j Hwf Hj) as (wj&Hlkj&Hnthj&_).
    pose proof (index_split (bits p) i Hb) as [Hi1 Hi2].
    pose proof (index_split (bits p) j Hb) as [Hj1 Hj2].
    destruct (decide (j / per_word (bits p) = i / per_word (bits p))%nat) as [Hq|Hq].
    + rewrite nth_lookup, Hq, list_lookup_insert_eq by done. cbn.
      destruct (decide (j = i)) as [->|Hne].
      * rewrite list_lookup_insert_eq by (by rewrite length_values). f_equal.
        eapply field_set_word; [lia|exact Hu|lia|done|by apply Hw].
      * rewrite list_lookup_insert_ne by done. rewrite values_lookup, Hnthj by done.
        f_equal. rewrite Hq, Hlk in Hlkj. injection Hlkj as <-.
        eapply field_set_word_ne; [exact Hu|lia|done|by apply Hw|lia|].
        rewrite Hq in Hj1.
        destruct (Nat.lt_total (j mod per_word (bits p)) (i mod per_word (bits p))) as [|[|]];
          [left; nia|lia|right; nia].
    + rewrite nth_lookup, list_lookup_insert_ne, Hlkj by done. cbn.
      rewrite list_lookup_insert_ne by congruence. by rewrite values_lookup, Hnthj.
Qed.

Lemma mask_ltb b v : 0 ≤ v → (mask b <? v) = false ↔ in_u (Z.of_nat b) v.
Proof. intros. rewrite mask_eq, Z.ltb_ge. unfold in_u. lia. Qed.

Lemma set_total p i v :
  wf p → 0 ≤ v →
  match set p i v with
  | Ok (old, p') => (i < len p)%nat ∧ in_u (Z.of_nat (bits p)) v ∧ values p !! i = Some old ∧
      wf p' ∧ values p' = <[i := v]> (values p) ∧
      bits p' = bits p ∧ len p' = len p ∧ cap p' = cap p
  | Err e => (e = IndexOutOfBounds ∧ (len p ≤ i)%nat) ∨
      (e = ValueOutOfRange v ∧ (i < len p)%nat ∧ ¬ in_u (Z.of_nat (bits p)) v)
  | Panic | NoFuel => False
  end.
Proof.
  intros Hwf Hv. unfold set, position. destruct (Nat.leb_spec (len p) i) as [Hge|Hlt]; cbn.
  { by left. }
  destruct (wf_word p i Hwf Hlt) as (w&Hlk&Hnth&_).
  pose proof (mask_ltb (bits p) v Hv) as Hm. destruct (mask (bits p) <? v).
  { right. split_and!; [done|done|]. intros Hu. by apply Hm in Hu. }
  rewrite Hlk. cbn. pose proof (proj1 Hm eq_refl) as Hu.
  destruct (set_words_spec p i v w Hwf Hlt Hu Hlk) as [Hwf' Hvals].
  split_and!; try done. rewrite values_lookup, Hnth by done.
  destruct Hwf as [[??] _ _]. by rewrite field_u32 by lia.
Qed.

Lemma word_count_ok b n c :
  word_count b n = Ok c ↔ dims_ok b n ∧ c = Z.to_nat (div_ceil (Z.of_nat n) (64 `div` Z.of_nat b)).
Proof.
  unfold word_count, dims_ok.
  destruct (Nat.leb_spec 1 b), (Nat.leb_spec b 31), (Nat.leb_spec 1 n), (Nat.leb_spec n MAX_LEN);
    cbn [andb negb]; (split; [intros E; simplify_eq/=; by (split; [lia|])|intros [? ->]]); (done || lia).
Qed.

Lemma padding_ok_spec b n k w :
  (1 ≤ b ≤ 31)%nat → in_u 64 w → padding_ok b n k w = true ↔ in_u (used b n k) w.
Proof.
  intros Hb [H0 H1]. pose proof (used_le b n k Hb) as Hu. unfold padding_ok.
  change (Z.of_nat _) with (used b n k). rewrite negb_true_iff, andb_false_iff, negb_false_iff.
  rewrite Z.ltb_ge, Z.eqb_eq, Z.shiftr_div_pow2, Z.div_small_iff
    by (pose proof (pow2_pos (used b n k)); lia).
  unfold in_u. pose proof (pow2_pos (used b n k)). split.
  - intros [?|?]; [|lia]. replace (used b n k) with 64 by lia. done.
  - intros ?. right. left. done.
Qed.

Lemma padding_loop_spec b n k ws :
  padding_loop b n k ws = true ↔ ∀ j w, ws !! j = Some w → padding_ok b n (k + j) w = true.
Proof.
  revert k. induction ws as [|w ws IH]; intros k; cbn [padding_loop].
  - split; [intros _ j w' Hj; by rewrite lookup_nil in Hj|done].
  - rewrite andb_true_iff, IH. split.
    + intros [Hw Hr] [|j] w'; cbn.
      * intros [= <-]. by rewrite Nat.add_0_r.
      * intros Hj. rewrite Nat.add_succ_r. by apply Hr.
    + intros Ha. split.
      * rewrite <- (Nat.add_0_r k). by apply (Ha 0%nat).
      * intros j w' Hj. cbn. rewrite <- Nat.add_succ_r. by apply (Ha (S j)).
Qed.

Lemma wf_new b n c :
  dims_ok b n →
  wf (Packed b n (replicate (Z.to_nat (div_ceil (Z.of_nat n) (64 `div` Z.of_nat b))) 0) c).
Proof.
  intros Hd. split; [done|cbn; by rewrite length_replicate|]. cbn.
  intros k w Hk. apply lookup_replicate in Hk as [-> _].
  pose proof (used_le b n k (proj1 Hd)). pose proof (pow2_pos (used b n k)). unfold in_u. lia.
Qed.

Lemma field_0 b s : field b 0 s = 0.
Proof. unfold field. by rewrite Z.shiftr_0_l. Qed.

Lemma values_zero b n c k : values (Packed b n (replicate k 0) c) = replicate n 0.
Proof.
  unfold values. cbn. apply list_eq. intros i. rewrite list_lookup_fmap.
  destruct (decide (i < n)%nat) as [Hi|Hi].
  - rewrite lookup_seq_lt, lookup_replicate_2 by done. cbn. f_equal.
    rewrite nth_lookup. destruct (replicate k 0 !! _) as [z|] eqn:Ez; [|apply field_0].
    apply lookup_replicate in Ez as [-> _]. apply field_0.
  - rewrite lookup_seq_ge by lia. cbn. symmetry. apply lookup_ge_None. rewrite length_replicate. lia.
Qed.

Lemma from_words_wf b n ws c :
  wf (Packed b n ws c) → from_words b n ws c = Ok (Packed b n ws c).
Proof.
  intros [Hd Hl Hw]. unfold from_words. cbn in Hd, Hl, Hw.
  rewrite (proj2 (word_count_ok b n _) (conj Hd eq_refl)). mstep.
  rewrite <- Hl, Nat.eqb_refl. mstep.
  rewrite (proj2 (padding_loop_spec b n 0 ws)); [done|].
  intros j w Hj. apply padding_ok_spec; [apply Hd| |by apply Hw].
  eapply in_u_mono; [|by apply Hw]. apply used_le, Hd.
Qed.

(** With valid dimensions [new] only fails for lack of memory. *)
Lemma new_cases `{Allocator} b n limit :
  dims_ok b n → let count := Z.to_nat (div_ceil (Z.of_nat n) (64 `div` Z.of_nat b)) in
  (∃ p, new b n limit = Ok p ∧ wf p ∧ bits p = b ∧ len p = n ∧ values p = replicate n 0 ∧
        length (words p) = count ∧ zlen (words p) * 8 ≤ heap_bytes p ≤ limit ∧
        (exact_memory → cap p = Z.of_nat count)) ∨
  (new b n limit = Err AllocationBudgetExceeded ∨ new b n limit = Err AllocationFailed) ∧
  (exact_memory → limit < Z.of_nat count * 8).
Proof.
  intros Hd count. unfold new. rewrite (proj2 (word_count_ok b n _) (conj Hd eq_refl)). mstep.
  pose proof (wf_new b n) as Hwf. fold count in Hwf |- *.
  destruct (Z.leb_spec (Z.of_nat count * 8) limit); mstep; [|tauto].
  destruct (reserve_exact 8 (Z.of_nat count)) as [cp|] eqn:Hr; mstep.
  2: { right. split; [tauto|]. intros He. by rewrite He in Hr. }
  pose proof (reserve_exact_ge _ _ _ Hr) as Hge.
  destruct (Z.leb_spec (cp * 8) limit); mstep.
  - left. eexists. split_and!; [done|by apply Hwf|done|done|apply values_zero| | | |];
      unfold zlen, heap_bytes; cbn; rewrite ?length_replicate; try lia.
    intros He. rewrite He in Hr. by injection Hr.
  - right. split; [tauto|]. intros He. rewrite He in Hr. injection Hr as <-. lia.
Qed.

(** ** Properties *)

(** Refinement: under the invariant the packed words behave as the array
    [values]: [get] is its lookup and never panics; [set] answers
    [IndexOutOfBounds] or [ValueOutOfRange] exactly when the index or the value
    is out of range, and otherwise returns the old entry and stands for the
    array with that one entry replaced, keeping the invariant. *)
Theorem packed_refines_array p i v :
  wf p → 0 ≤ v →
  get p i = Ok (values p !! i) ∧
  match set p i v with
  | Ok (old, p') => (i < len p)%nat ∧ in_u (Z.of_nat (bits p)) v ∧ values p !! i = Some old ∧
      wf p' ∧ values p' = <[i := v]> (values p) ∧
      bits p' = bits p ∧ len p' = len p ∧ cap p' = cap p
  | Err e => (e = IndexOutOfBounds ∧ (len p ≤ i)%nat) ∨
      (e = ValueOutOfRange v ∧ (i < len p)%nat ∧ ¬ in_u (Z.of_nat (bits p)) v)
  | Panic | NoFuel => False
  end.
Proof. intros. split; [by apply get_spec|by apply set_total]. Qed.

(** Construction: [new] succeeds only on widths 1..31 and lengths 1..4096,
    gives the all-zero array under the invariant, and the capacity it retains
    is within the allocation limit; for bad dimensions it reports the width
    first. *)
Theorem packed_new_spec `{Allocator} b n limit :
  match new b n limit with
  | Ok p => dims_ok b n ∧ wf p ∧ bits p = b ∧ len p = n ∧
      values p = replicate n 0 ∧ zlen (words p) * 8 ≤ heap_bytes p ≤ limit
  | Err (InvalidBits x) => x = Z.of_nat b ∧ ¬ (1 ≤ b ≤ 31)%nat
  | Err (InvalidLength e a) => (1 ≤ b ≤ 31)%nat ∧ a = Z.of_nat n ∧ e ≠ a ∧ 1 ≤ e ≤ 4096
  | Err AllocationBudgetExceeded | Err AllocationFailed => dims_ok b n
  | _ => False
  end.
Proof.
  destruct (decide (dims_ok b n)) as [Hd|Hd].
  - destruct (new_cases b n limit Hd) as [(p&->&?&?&?&?&_&?&_)|[[->| ->] _]]; done.
  - unfold new. destruct (word_count b n) as [c|e| |] eqn:Hc; mstep.
    + by apply word_count_ok in Hc as [? _].
    + revert Hc. unfold word_count, MAX_LEN.
      destruct (Nat.leb_spec 1 b), (Nat.leb_spec b 31), (Nat.leb_spec 1 n), (Nat.leb_spec n 4096);
        cbn [andb negb]; intros [= <-]; lia.
    + unfold word_count in Hc. repeat case_match; done.
    + unfold word_count in Hc. repeat case_match; done.
Qed.

(** Canonical form: [from_words] accepts 64-bit words exactly when the
    dimensions are valid, the count is exact and all padding is zero (that is,
    exactly the invariant), it keeps the words unchanged, and the accepted
    words are determined by the array they stand for. *)
Theorem packed_from_words_canonical b n ws c :
  Forall (in_u 64) ws →
  (from_words b n ws c = Ok (Packed b n ws c) ↔ wf (Packed b n ws c)) ∧
  (∀ p, from_words b n ws c = Ok p → p = Packed b n ws c) ∧
  (∀ ws' c', wf (Packed b n ws c) → wf (Packed b n ws' c') →
     values (Packed b n ws c) = values (Packed b n ws' c') → ws = ws').
Proof.
  intros H64. rewrite Forall_lookup in H64. split_and!.
  - unfold from_words. split.
    + intros H. inv_bind H. apply word_count_ok in Hv as [Hd ->].
      apply Nat.eqb_eq in Hv0. split; [done|done|]. cbn. intros k w Hk.
      apply padding_ok_spec; [apply Hd|by eapply H64|].
      by apply (proj1 (padding_loop_spec b n 0 ws) Hv1 k w).
    + apply from_words_wf.
  - intros p H. unfold from_words in H. inv_bind H. congruence.
  - intros ws' c' Hwf Hwf' Hval. pose proof Hwf as [[Hb Hn] Hl Hw].
    pose proof Hwf' as [_ Hl' Hw']. cbn [len bits words] in Hb, Hn, Hl, Hw, Hl', Hw'. rewrite count_eq in Hl, Hl' by done.
    apply list_eq_same_length with (length ws); [lia|done|].
    intros k w w' Hk Hlk Hlk'.
    eapply (word_ext b n k); [done|by apply Hw|by apply Hw'|].
    intros r Hr. pose proof (per_word_bounds b Hb).
    assert (Hi : (k * per_word b + r < n)%nat) by lia.
    assert (values (Packed b n ws c) !! (k * per_word b + r)%nat
            = values (Packed b n ws' c') !! (k * per_word b + r)%nat) as Hat by by rewrite Hval.
    clear Hval. rename Hat into Hval. rewrite !values_lookup in Hval by done. cbn [bits len words] in Hval.
    rewrite Nat.div_add_l, Nat.div_small, Nat.add_0_r in Hval by lia.
    rewrite Nat.add_comm, Nat.Div0.mod_add, Nat.mod_small in Hval by lia.
    rewrite !nth_lookup, Hlk, Hlk' in Hval. by injection Hval.
Qed.

(** The invariant and every property hold on concrete tables. *)
Lemma packed_refines_array_witness :
  get (Packed 5 14 [0; 0] 2) 13 = Ok (Some 0) ∧
  set (Packed 5 14 [0; 0] 2) 13 3 = Ok (0, Packed 5 14 [0; 96] 2) ∧
  values (Packed 5 14 [0; 96] 2) = <[13%nat := 3]> (values (Packed 5 14 [0; 0] 2)).
Proof.
  assert (wf (Packed 5 14 [0; 0] 2)) as Hwf.
  { apply (wf_new 5 14 2). unfold dims_ok, MAX_LEN. lia. }
  destruct (packed_refines_array (Packed 5 14 [0; 0] 2) 13 3 Hwf ltac:(lia)) as [Hg Hs].
  split; [exact Hg|]. split; [reflexivity|]. apply Hs.
Defined.

Lemma packed_from_words_canonical_witness :
  from_words 5 14 [0x0880000000000011; 0x23] 2 = Ok (Packed 5 14 [0x0880000000000011; 0x23] 2).
Proof.
  apply (packed_from_words_canonical 5 14 [0x0880000000000011; 0x23] 2).
  - repeat constructor; unfold in_u; lia.
  - split; [unfold dims_ok, MAX_LEN; cbn; lia|reflexivity|].
    intros [|[|k]] w; cbn; intros [= <-]; unfold in_u; split; (done || reflexivity).
Defined.
