(* ===== verification/Probe.v ===== *)
(** * Open addressing with linear probing

    Six components of the server keep a hash table of this shape: the palette
    scratch of a section (src/world/section.rs), the identity set, the
    remaining counts and the scheduling index of the tick owner
    (src/world/ticks.rs and src/world/ticks/), the check queue of the lighting
    engine and the pending positions of the chunk sender.  This file has the
    theory they share: a table of [n] slots, the invariant that every key's
    probe path is occupied, the probe loop, insertion, removal by backward
    shifting and removal by re-insertion.  The hash is a parameter ([home]):
    the Rust code seeds most of these tables with [RandomState]. *)

From S2P Require Import Prelude.
From stdpp Require Import list_misc.
Local Open Scope nat_scope.

(** One probe loop: [loop { if let Some(r) = body(i) { return r } i = (i + 1) & mask }]. *)
Fixpoint probe_loop {E R} (fuel : nat) (body : nat → outcome E (option R)) (mask i : nat)
    : outcome E R :=
  match fuel with
  | O => NoFuel
  | S fuel' =>
      r ← body i;
      match r with
      | Some x => Ok x
      | None => probe_loop fuel' body mask (Nat.land (i + 1) mask)
      end
  end.

#[global] Arguments probe_loop {E R} fuel body mask i : simpl never.

(** ** Positions on a ring of [n] slots *)
Section ring.
Context (n : nat).

Definition step (i : nat) : nat := if S i =? n then 0 else S i.
(** Probe distance from [a] to [b], the Rust [(b.wrapping_sub(a)) & mask]. *)
Definition dist (a b : nat) : nat := if a <=? b then b - a else n + b - a.

Lemma dist_spec a b :
  a < n → b < n → dist a b < n ∧ (a + dist a b = b ∨ a + dist a b = b + n).
Proof. intros. unfold dist. destruct (Nat.leb_spec a b); lia. Qed.

Lemma step_spec i : i < n → step i < n ∧ (step i = i + 1 ∨ (step i = 0 ∧ i + 1 = n)).
Proof. intros. unfold step. destruct (Nat.eqb_spec (S i) n); lia. Qed.

Lemma land_step p i : n = 2 ^ p → i < n → Nat.land (i + 1) (n - 1) = step i.
Proof.
  unfold step. intros -> Hi. replace (2 ^ p - 1) with (Nat.ones p) by (rewrite Nat.ones_equiv; lia).
  rewrite Nat.land_ones. destruct (Nat.eqb_spec (S i) (2 ^ p)) as [E|].
  - replace (i + 1) with (2 ^ p) by lia. apply Nat.Div0.mod_same.
  - rewrite Nat.mod_small; lia.
Qed.

Lemma land_mask p x : n = 2 ^ p → Nat.land x (n - 1) < n.
Proof.
  intros ->. replace (2 ^ p - 1) with (Nat.ones p) by (rewrite Nat.ones_equiv; lia).
  rewrite Nat.land_ones. apply Nat.mod_upper_bound. pose proof (Nat.pow_nonzero 2 p). lia.
Qed.
End ring.

(** Adds the specification of every step and distance in sight whose indices
    are provably on the ring, then calls [lia]. *)
Ltac on_ring := first [assumption | solve [auto] | lia].
Ltac ring_step n a :=
  lazymatch goal with
  | _ : step n a < n ∧ _ |- _ => fail
  | _ => pose proof (step_spec n a ltac:(on_ring))
  end.
Ltac ring_dist n a b :=
  lazymatch goal with
  | _ : dist n a b < n ∧ _ |- _ => fail
  | _ => pose proof (dist_spec n a b ltac:(on_ring) ltac:(on_ring))
  end.
Ltac ring_facts :=
  repeat match goal with
  | |- context [step ?n ?a] => ring_step n a
  | _ : context [step ?n ?a] |- _ => ring_step n a
  end;
  repeat match goal with
  | |- context [dist ?n ?a ?b] => ring_dist n a b
  | _ : context [dist ?n ?a ?b] |- _ => ring_dist n a b
  end.
Ltac ring_lia := ring_facts; lia.

(** Seen from a slot [e] that a probe path from [h] to [s] does not cross,
    probe distances are differences of distances from [e]. *)
Lemma path_offset n h q s e :
  h < n → q < n → s < n → e < n → s ≠ e →
  dist n h q ≤ dist n h s → dist n h s ≤ dist n h e →
  dist n e q = dist n e h + dist n h q.
Proof.
  intros. unfold dist in *.
  destruct (Nat.leb_spec h q), (Nat.leb_spec h s), (Nat.leb_spec h e),
    (Nat.leb_spec e q), (Nat.leb_spec e h); lia.
Qed.

Lemma path_after n h r s e :
  h < n → r < n → s < n → e < n → s ≠ e →
  dist n e h ≤ dist n e r → dist n e r < dist n e s → dist n h s ≤ dist n h e →
  dist n h r < dist n h s.
Proof.
  intros. unfold dist in *.
  destruct (Nat.leb_spec h r), (Nat.leb_spec h s), (Nat.leb_spec h e),
    (Nat.leb_spec e r), (Nat.leb_spec e h), (Nat.leb_spec e s); lia.
Qed.

Lemma path_linear n h q s e :
  h < n → q < n → s < n → e < n →
  dist n h q < dist n h s → dist n h s ≤ dist n h e → s ≠ e → dist n e q < dist n e s.
Proof.
  intros. rewrite (path_offset n h q s e), (path_offset n h s s e) by lia. lia.
Qed.

Lemma dist_inj n e q r : q < n → r < n → e < n → dist n e q = dist n e r → q = r.
Proof. intros. ring_lia. Qed.

(** A slot between two slots of a path is on the path. *)
Lemma path_between n e q r s h :
  h < n → q < n → r < n → s < n → e < n →
  dist n e q < dist n e r → dist n e r ≤ dist n e s → r ≠ s → s ≠ e →
  dist n h s ≤ dist n h e → dist n h q < dist n h s → dist n h r < dist n h s.
Proof.
  intros. apply (path_after n h r s e); [done..| | |done].
  - pose proof (path_offset n h q s e). lia.
  - destruct (decide (dist n e r = dist n e s)) as [?%dist_inj|]; [done..|lia].
Qed.

Lemma step_before n q s e :
  q < n → s < n → e < n → dist n e q < dist n e s →
  step n q ≠ e ∧ dist n e (step n q) ≤ dist n e s.
Proof. intros. split; ring_lia. Qed.

Lemma step_after n q e :
  q < n → e < n → q ≠ e → dist n e q < dist n e (step n q) ∨ step n q = e.
Proof. intros. destruct (decide (step n q = e)); [by right|left]. ring_lia. Qed.

(** The loop returns what the body gives at the first slot that stops it. *)
Lemma probe_loop_spec {E R} n p fuel (body : nat → outcome E (option R)) a e r :
  n = 2 ^ p → a < n → e < n → dist n a e < fuel →
  (∀ q, q < n → dist n a q < dist n a e → body q = Ok None) →
  body e = Ok (Some r) →
  probe_loop fuel body (n - 1) a = Ok r.
Proof.
  intros Hp Ha He. revert a Ha. induction fuel as [|fuel IH]; intros a Ha Hf Hskip Hstop; [lia|].
  unfold probe_loop; fold (@probe_loop E R). destruct (decide (a = e)) as [->|Hne]; [by rewrite Hstop|].
  rewrite Hskip by ring_lia. cbn. rewrite (land_step n p) by done.
  apply IH; [ring_lia|ring_lia| |done].
  intros q Hq Hd. apply Hskip; [done|]. ring_lia.
Qed.

(** The first slot with a decidable property along a probe path. *)
Lemma first_on_path n (P : nat → Prop) `{∀ q, Decision (P q)} a q0 :
  a < n → q0 < n → P q0 →
  ∃ e, e < n ∧ P e ∧ dist n a e ≤ dist n a q0 ∧
    ∀ q, q < n → dist n a q < dist n a e → ¬ P q.
Proof.
  intros Ha. remember (dist n a q0) as d eqn:Ed. revert q0 Ed.
  induction d as [d IH] using lt_wf_ind. intros q0 Ed Hq0 HP0.
  destruct (decide (Exists (λ q, dist n a q < d ∧ P q) (seq 0 n))) as [Hex|Hno].
  - apply Exists_exists in Hex as (q & Hq%elem_of_seq & Hdq & HPq).
    destruct (IH _ Hdq q eq_refl ltac:(lia) HPq) as (e&?&?&?&?). exists e. split_and!; try done. lia.
  - exists q0. split_and!; try done; [lia|]. rewrite <- Ed. intros q Hq Hd HPq. apply Hno, Exists_exists.
    exists q. by split; [apply elem_of_seq; lia|].
Qed.

(** ** Tables *)
Section table.
Context {V K : Type} `{EqDecision K} (key : V → K).
Context (n : nat) (home : K → nat).
Hypothesis home_lt : ∀ k, home k < n.
Implicit Types (t : list (option V)) (k : K) (v : V).

Definition occupied t q : Prop := ∃ v, t !! q = Some (Some v).
#[export] Instance occupied_dec t q : Decision (occupied t q).
Proof.
  destruct (t !! q) as [[v|]|] eqn:E; [left; by exists v|right; intros [v' ?]; congruence..].
Defined.

(** [t] is a well-formed table: one slot per key, and every slot strictly
    before a key on its probe path is occupied. *)
Record table_ok t : Prop := {
  ok_length : length t = n;
  ok_unique s s' v v' :
    t !! s = Some (Some v) → t !! s' = Some (Some v') → key v = key v' → s = s';
  ok_path s v q :
    t !! s = Some (Some v) → q < n →
    dist n (home (key v)) q < dist n (home (key v)) s → occupied t q;
}.

(** The entries, in slot order. *)
Definition entries t : list V := omap id t.

Lemma elem_of_entries t v : v ∈ entries t ↔ ∃ s, t !! s = Some (Some v).
Proof.
  unfold entries. rewrite list_elem_of_omap. split.
  - intros ([v'|] & Hin & [= ->]). by apply list_elem_of_lookup in Hin.
  - intros [s Hs]. exists (Some v). split; [|done]. by apply list_elem_of_lookup_2 in Hs.
Qed.

Lemma lookup_bound t s v : table_ok t → t !! s = Some (Some v) → s < n.
Proof. intros Hok Hs. rewrite <- (ok_length t Hok). by eapply lookup_lt_Some. Qed.

Lemma lookup_total t s : length t = n → s < n → occupied t s ∨ t !! s = Some None.
Proof.
  intros Hl Hs. destruct (lookup_lt_ok t s ltac:(lia)) as [[v|] Hv]; [left; by exists v|by right].
Qed.

Lemma table_ok_empty : table_ok (replicate n None).
Proof.
  split; [by rewrite length_replicate| |];
    intros; exfalso;
    match goal with H : replicate _ _ !! _ = Some (Some _) |- _ =>
      apply lookup_replicate in H as [? _] end; done.
Qed.

(** What the probe from [home k] meets.  A present key is reached through
    occupied slots holding other keys; an absent key meets only occupied slots
    of other keys up to the first empty one. *)
Lemma probe_hit t s v :
  table_ok t → t !! s = Some (Some v) →
  ∀ q, q < n → dist n (home (key v)) q < dist n (home (key v)) s →
  ∃ v', t !! q = Some (Some v') ∧ key v' ≠ key v.
Proof.
  intros Hok Hs q Hq Hd. destruct (ok_path t Hok s v q Hs Hq Hd) as [v' Hv'].
  exists v'. split; [done|]. intros Hk.
  assert (q = s) as -> by (by eapply (ok_unique t Hok)). lia.
Qed.

Lemma probe_miss t k e0 :
  table_ok t → e0 < n → t !! e0 = Some None →
  (∀ v, v ∈ entries t → key v ≠ k) →
  ∃ e, e < n ∧ t !! e = Some None ∧
    ∀ q, q < n → dist n (home k) q < dist n (home k) e →
    ∃ v', t !! q = Some (Some v') ∧ key v' ≠ k.
Proof.
  intros Hok He0 Hempty Habs.
  destruct (first_on_path n (λ q, ¬ occupied t q) (home k) e0) as (e&He&Hte&_&Hmin);
    [done|done|intros [v ?]; congruence|].
  destruct (lookup_total t e (ok_length t Hok) He) as [?|Hn]; [done|].
  exists e. split_and!; [done|done|]. intros q Hq Hd.
  destruct (decide (occupied t q)) as [[v' Hv']|Hno]; [|by destruct (Hmin q Hq Hd)].
  exists v'. split; [done|]. apply Habs, elem_of_entries. by exists q.
Qed.

(** [probe t k s]: the probe for [k] ends at slot [s] (holding [k] or empty). *)
Definition probe_ends t k s : Prop :=
  s < n ∧ (t !! s = Some None ∨ ∃ v, t !! s = Some (Some v) ∧ key v = k) ∧
  ∀ q, q < n → dist n (home k) q < dist n (home k) s →
    ∃ v', t !! q = Some (Some v') ∧ key v' ≠ k.

Lemma probe_ends_exists t k e0 :
  table_ok t → e0 < n → t !! e0 = Some None →
  (∃ s v, probe_ends t k s ∧ t !! s = Some (Some v) ∧ key v = k) ∨
  (∃ s, probe_ends t k s ∧ t !! s = Some None ∧ ∀ v, v ∈ entries t → key v ≠ k).
Proof.
  intros Hok He0 Hempty.
  destruct (decide (Exists (λ v, key v = k) (entries t))) as [Hin|Hout].
  - left. apply Exists_exists in Hin as (v & [s Hs]%elem_of_entries & <-).
    exists s, v. split_and!; try done. split_and!; [by eapply lookup_bound|eauto|].
    by apply probe_hit.
  - right. assert (Habs : ∀ v, v ∈ entries t → key v ≠ k).
    { intros v Hv Hk. apply Hout, Exists_exists. eauto. }
    destruct (probe_miss t k e0 Hok He0 Hempty Habs) as (e&He&Hte&Hp).
    exists e. split_and!; try done. split_and!; [done|by left|done].
Qed.

(** Running a Rust probe loop to its end slot. *)
Lemma probe_loop_ends {E R} p fuel (body : nat → outcome E (option R)) t k s r :
  n = 2 ^ p → n ≤ fuel → probe_ends t k s →
  (∀ q v', t !! q = Some (Some v') → key v' ≠ k → body q = Ok None) →
  body s = Ok (Some r) →
  probe_loop fuel body (n - 1) (home k) = Ok r.
Proof.
  intros Hp Hf (Hs & _ & Hpath) Hskip Hstop. pose proof (home_lt k).
  eapply probe_loop_spec; [done|done|exact Hs|ring_lia| |done].
  intros q Hq Hd. destruct (Hpath q Hq Hd) as (v'&Hv'&Hk). by eapply Hskip.
Qed.

(** Filling the empty slot where the probe for an absent key ended. *)
Lemma table_ok_insert t v s :
  table_ok t → probe_ends t (key v) s → t !! s = Some None →
  (∀ v', v' ∈ entries t → key v' ≠ key v) →
  table_ok (<[s := Some v]> t) ∧ entries (<[s := Some v]> t) ≡ₚ v :: entries t.
Proof.
  intros Hok (Hs & _ & Hpath) Hempty Habs. pose proof (ok_length t Hok) as Hl.
  assert (Hnew : ∀ q v', <[s := Some v]> t !! q = Some (Some v') →
    (q = s ∧ v' = v) ∨ (q ≠ s ∧ t !! q = Some (Some v'))).
  { intros q v' Hq. destruct (decide (q = s)) as [->|Hne].
    - rewrite list_lookup_insert_eq in Hq by lia. left. by simplify_eq.
    - right. by rewrite list_lookup_insert_ne in Hq by done. }
  assert (Hocc : ∀ q, occupied t q → occupied (<[s := Some v]> t) q).
  { intros q [v' Hq]. exists v'. destruct (decide (q = s)) as [->|]; [congruence|].
    by rewrite list_lookup_insert_ne by done. }
  split; [split|].
  - by rewrite length_insert.
  - intros q q' w w' [[-> ->]|[Hq Hw]]%Hnew [[-> ->]|[Hq' Hw']]%Hnew Hk; [done| | |].
    + exfalso. eapply Habs; [apply elem_of_entries; by exists q'|done].
    + exfalso. eapply Habs; [apply elem_of_entries; by exists q|done].
    + by eapply (ok_unique t Hok).
  - intros q w r [[-> ->]|[Hq Hw]]%Hnew Hr Hd.
    + destruct (Hpath r Hr Hd) as (v'&Hv'&_). apply Hocc. by exists v'.
    + apply Hocc. by eapply (ok_path t Hok).
  - unfold entries. rewrite insert_take_drop by lia.
    rewrite omap_app. cbn. rewrite <- Permutation_middle. constructor.
    rewrite <- (take_drop_middle t s None Hempty) at 3. by rewrite omap_app.
Qed.

Lemma entries_fill t s v : t !! s = Some None → entries (<[s := Some v]> t) ≡ₚ v :: entries t.
Proof.
  intros Hs. pose proof (lookup_lt_Some _ _ _ Hs).
  unfold entries. rewrite insert_take_drop by lia. rewrite omap_app. cbn.
  rewrite <- Permutation_middle. constructor.
  rewrite <- (take_drop_middle t s None Hs) at 3. by rewrite omap_app.
Qed.

Lemma entries_clear t s v : t !! s = Some (Some v) → entries t ≡ₚ v :: entries (<[s := None]> t).
Proof.
  intros Hs. pose proof (lookup_lt_Some _ _ _ Hs).
  rewrite <- (entries_fill (<[s := None]> t) s v) by (by rewrite list_lookup_insert_eq).
  by rewrite list_insert_insert_eq, list_insert_id.
Qed.

(** ** Removal by backward shifting

    The hole left by a removed entry moves forward: each following entry of
    the cluster whose probe path passes the hole is moved into it. *)
Fixpoint shift (fuel : nat) t (hole scan : nat) : option (list (option V)) :=
  match fuel with
  | O => None
  | S fuel' =>
      match t !! scan with
      | Some (Some v) =>
          if dist n (home (key v)) hole <? dist n (home (key v)) scan
          then shift fuel' (<[scan := None]> (<[hole := Some v]> t)) scan (step n scan)
          else shift fuel' t hole (step n scan)
      | _ => Some t
      end
  end.

(** The loop invariant, seen from a slot [e] that stays empty: positions are
    distances from [e], so no probe path wraps. *)
Record shift_inv t e hole scan : Prop := {
  si_length : length t = n;
  si_unique s s' v v' :
    t !! s = Some (Some v) → t !! s' = Some (Some v') → key v = key v' → s = s';
  si_e : e < n ∧ t !! e = Some None ∧ e ≠ hole;
  si_hole : hole < n ∧ t !! hole = Some None;
  si_scan : scan < n ∧ (dist n e hole < dist n e scan ∨ scan = e);
  si_path s v q :
    t !! s = Some (Some v) → q < n → dist n (home (key v)) q < dist n (home (key v)) s →
    occupied t q ∨ (q = hole ∧ scan ≠ e ∧ dist n e scan ≤ dist n e s);
}.

Lemma si_bound t e hole scan s v :
  shift_inv t e hole scan → t !! s = Some (Some v) → s < n ∧ s ≠ e ∧ s ≠ hole.
Proof.
  intros Hi Hs. destruct (si_e _ _ _ _ Hi) as (?&?&?), (si_hole _ _ _ _ Hi).
  pose proof (lookup_lt_Some _ _ _ Hs). rewrite (si_length _ _ _ _ Hi) in *.
  split_and!; [done|congruence..].
Qed.

(** No probe path crosses [e]. *)
Lemma si_linear t e hole scan s v :
  shift_inv t e hole scan → t !! s = Some (Some v) →
  dist n (home (key v)) s ≤ dist n (home (key v)) e.
Proof.
  intros Hi Hs. destruct (si_e _ _ _ _ Hi) as (He&Hte&Hne).
  destruct (decide (dist n (home (key v)) e < dist n (home (key v)) s)) as [Hlt|]; [|lia].
  destruct (si_path _ _ _ _ Hi s v e Hs He Hlt) as [[v' ?]|[? _]]; congruence.
Qed.

Lemma shift_step_stay t e hole scan v :
  shift_inv t e hole scan → t !! scan = Some (Some v) →
  dist n (home (key v)) scan ≤ dist n (home (key v)) hole →
  shift_inv t e hole (step n scan).
Proof.
  intros Hi Hs Hd. pose proof (si_bound _ _ _ _ _ _ Hi Hs) as (?&?&?).
  destruct Hi as [Hl Hu (He&Hte&Hne) (Hh&Hth) (Hsc&Hpos) Hp].
  split; try done.
  - split; [ring_lia|]. destruct Hpos as [Hpos|?]; [|done].
    destruct (step_after n scan e) as [?|?]; [done..|left; lia|by right].
  - intros s w q Hw Hq Hdq. destruct (Hp s w q Hw Hq Hdq) as [?|(->&Hne'&Hle)]; [by left|].
    right. pose proof (lookup_lt_Some _ _ _ Hw). rewrite Hl in *.
    destruct (decide (s = scan)) as [->|Hss]; [rewrite Hs in Hw; simplify_eq; lia|].
    split; [done|]. apply step_before; [done..|].
    assert (dist n e s ≠ dist n e scan); [|lia]. clear Hdq Hd. ring_lia.
Qed.

Lemma shift_step_move t e hole scan v :
  shift_inv t e hole scan → t !! scan = Some (Some v) →
  dist n (home (key v)) hole < dist n (home (key v)) scan →
  shift_inv (<[scan := None]> (<[hole := Some v]> t)) e scan (step n scan).
Proof.
  intros Hi Hs Hd. pose proof (si_bound _ _ _ _ _ _ Hi Hs) as (?&?&?).
  pose proof (λ s w, si_linear t e hole scan s w Hi) as Hlin.
  destruct Hi as [Hl Hu (He&Hte&Hne) (Hh&Hth) (Hsc&Hpos) Hp].
  set (t' := <[scan := None]> (<[hole := Some v]> t)).
  assert (Hlk : ∀ s w, t' !! s = Some (Some w) →
    (s = hole ∧ w = v) ∨ (s ≠ hole ∧ s ≠ scan ∧ t !! s = Some (Some w))).
  { intros s w. unfold t'. destruct (decide (s = scan)) as [->|].
    { by rewrite list_lookup_insert_eq by (rewrite length_insert; lia). }
    rewrite list_lookup_insert_ne by done. destruct (decide (s = hole)) as [->|].
    - rewrite list_lookup_insert_eq by lia. intros; left; by simplify_eq.
    - rewrite list_lookup_insert_ne by done. by right. }
  assert (Hocc : ∀ q, q ≠ scan → occupied t q ∨ q = hole → occupied t' q).
  { intros q Hq [[w Hw]| ->]; unfold occupied, t'; rewrite list_lookup_insert_ne by done.
    - destruct (decide (q = hole)) as [->|]; [congruence|].
      rewrite list_lookup_insert_ne by done. by exists w.
    - rewrite list_lookup_insert_eq by lia. by exists v. }
  split.
  - unfold t'. by rewrite !length_insert.
  - intros s s' w w' [[-> ->]|(?&?&Hw)]%Hlk [[-> ->]|(?&?&Hw')]%Hlk Hk; [done| | |by eapply Hu].
    + exfalso. by assert (scan = s') by (by eapply Hu).
    + exfalso. by assert (s = scan) by (by eapply Hu).
  - split_and!; [done| |congruence]. unfold t'. by rewrite !list_lookup_insert_ne by congruence.
  - split; [done|]. unfold t'. by rewrite list_lookup_insert_eq by (rewrite length_insert; lia).
  - split; [ring_lia|]. by apply step_after.
  - intros s w q [[-> ->]|(?&?&Hw)]%Hlk Hq Hdq.
    + left. apply Hocc; [intros ->; lia|].
      destruct (Hp scan v q Hs Hq ltac:(lia)) as [?|(->&_)]; [by left|lia].
    + pose proof (Hlin s w Hw). pose proof (lookup_lt_Some _ _ _ Hw). rewrite Hl in *.
      assert (s ≠ e) by congruence. pose proof (home_lt (key w)).
      destruct (decide (q = scan)) as [->|Hqs].
      * right. split; [done|]. apply step_before; [done..|].
        by apply (path_linear n (home (key w))).
      * left. apply Hocc; [done|].
        destruct (Hp s w q Hw Hq Hdq) as [?|(->&_)]; [by left|by right].
Qed.

Lemma shift_stop t e hole scan :
  shift_inv t e hole scan → t !! scan = Some None → table_ok t.
Proof.
  intros Hi Hs. pose proof (λ s w, si_linear t e hole scan s w Hi) as Hlin.
  destruct Hi as [Hl Hu (He&Hte&Hne) (Hh&Hth) (Hsc&Hpos) Hp].
  split; [done|done|]. intros s v q Hv Hq Hd.
  destruct (Hp s v q Hv Hq Hd) as [?|(->&Hse&Hle)]; [done|exfalso].
  pose proof (Hlin s v Hv). pose proof (lookup_lt_Some _ _ _ Hv). rewrite Hl in *.
  assert (s ≠ e ∧ s ≠ scan) as [? ?] by (split; congruence). pose proof (home_lt (key v)).
  assert (Hin : dist n (home (key v)) scan < dist n (home (key v)) s).
  { destruct Hpos; [|done]. by apply (path_between n e hole scan s). }
  destruct (Hp s v scan Hv Hsc Hin) as [[v' ?]|(->&_)]; [congruence|]. destruct Hpos; [lia|done].
Qed.

(** How many slots the scan may still visit. *)
Definition shift_fuel (e scan : nat) : nat := if decide (scan = e) then 1 else n - dist n e scan + 1.

Lemma shift_spec fuel t e hole scan :
  shift_inv t e hole scan → shift_fuel e scan ≤ fuel →
  ∃ t', shift fuel t hole scan = Some t' ∧ table_ok t' ∧ entries t' ≡ₚ entries t
        ∧ t' !! e = Some None.
Proof.
  revert t hole scan. induction fuel as [|fuel IH]; intros t hole scan Hi Hf.
  { unfold shift_fuel in Hf. case_decide; lia. }
  pose proof (si_e _ _ _ _ Hi) as (He&Hte&Hne).
  pose proof (si_hole _ _ _ _ Hi) as (Hh&Hth). pose proof (si_scan _ _ _ _ Hi) as (Hsc&Hpos).
  cbn [shift]. destruct (lookup_total t scan (si_length _ _ _ _ Hi) Hsc) as [[v Hv]|Hn].
  2: { rewrite Hn. exists t. split_and!; [done|by eapply shift_stop|done|done]. }
  rewrite Hv. pose proof (si_bound _ _ _ _ _ _ Hi Hv) as (_&Hse&Hsh).
  assert (Hf' : shift_fuel e (step n scan) ≤ fuel).
  { unfold shift_fuel in *. repeat case_decide; ring_lia. }
  destruct (Nat.ltb_spec (dist n (home (key v)) hole) (dist n (home (key v)) scan)) as [Hd|Hd].
  - destruct (IH _ _ _ (shift_step_move _ _ _ _ _ Hi Hv Hd) Hf') as (t'&?&?&Hperm&?).
    exists t'. split_and!; [done|done| |done]. rewrite Hperm.
    apply (Permutation_cons_inv (a := v)).
    rewrite <- (entries_clear (<[hole := Some v]> t) scan v)
      by (by rewrite list_lookup_insert_ne by congruence).
    by apply entries_fill.
  - destruct (IH _ _ _ (shift_step_stay _ _ _ _ _ Hi Hv Hd) Hf') as (t'&?&?&?&?). eauto.
Qed.

Lemma shift_inv_start t s v e :
  table_ok t → t !! s = Some (Some v) → e < n → t !! e = Some None →
  shift_inv (<[s := None]> t) e s (step n s).
Proof.
  intros Hok Hs He Hte. pose proof (lookup_bound _ _ _ Hok Hs).
  destruct Hok as [Hl Hu Hp]. assert (e ≠ s) by congruence.
  assert (Hlk : ∀ q w, <[s := None]> t !! q = Some (Some w) → q ≠ s ∧ t !! q = Some (Some w)).
  { intros q w. destruct (decide (q = s)) as [->|].
    - by rewrite list_lookup_insert_eq by lia.
    - by rewrite list_lookup_insert_ne by done. }
  split.
  - by rewrite length_insert.
  - intros q q' w w' [_ ?]%Hlk [_ ?]%Hlk. by apply Hu.
  - split_and!; [done|by rewrite list_lookup_insert_ne by done|done].
  - split; [done|]. by rewrite list_lookup_insert_eq by lia.
  - split; [ring_lia|]. by apply step_after.
  - intros q w r [Hqs Hw]%Hlk Hr Hd. destruct (decide (r = s)) as [->|].
    + right. pose proof (lookup_lt_Some _ _ _ Hw). rewrite Hl in *.
      assert (q ≠ e) by congruence. pose proof (home_lt (key w)).
      assert (dist n (home (key w)) q ≤ dist n (home (key w)) e).
      { destruct (decide (dist n (home (key w)) e < dist n (home (key w)) q)) as [Hlt|]; [|lia].
        destruct (Hp q w e Hw He Hlt) as [? ?]. congruence. }
      split; [done|]. apply step_before; [done..|].
      by apply (path_linear n (home (key w))).
    + left. destruct (Hp q w r Hw Hr Hd) as [w' ?]. exists w'.
      by rewrite list_lookup_insert_ne by done.
Qed.

(** Removal is total and exact. *)
Lemma shift_remove t s v e :
  table_ok t → t !! s = Some (Some v) → e < n → t !! e = Some None →
  ∃ t', shift (S n) (<[s := None]> t) s (step n s) = Some t' ∧ table_ok t' ∧
        entries t ≡ₚ v :: entries t' ∧ t' !! e = Some None.
Proof.
  intros Hok Hs He Hte. pose proof (lookup_bound _ _ _ Hok Hs).
  destruct (shift_spec (S n) _ _ _ _ (shift_inv_start t s v e Hok Hs He Hte))
    as (t'&?&?&Hperm&?).
  { unfold shift_fuel. case_decide; ring_lia. }
  exists t'. split_and!; [done|done| |done]. rewrite Hperm. by apply entries_clear.
Qed.

(** ** Removal by re-insertion

    The removed slot is cleared, then each following entry of the cluster is
    taken out and inserted again. *)
Record reinsert_inv t e s0 idx : Prop := {
  ri_length : length t = n;
  ri_unique s s' v v' :
    t !! s = Some (Some v) → t !! s' = Some (Some v') → key v = key v' → s = s';
  ri_e : e < n ∧ t !! e = Some None;
  ri_s0 : s0 < n ∧ s0 ≠ e;
  ri_idx : idx < n ∧ (dist n e s0 < dist n e idx ∨ idx = e);
  ri_path s v q :
    t !! s = Some (Some v) → q < n → dist n (home (key v)) q < dist n (home (key v)) s →
    occupied t q ∨ (idx ≠ e ∧ dist n e s0 ≤ dist n e q < dist n e idx ∧ dist n e idx ≤ dist n e s);
}.

Lemma dist_refl a : dist n a a = 0.
Proof. unfold dist. rewrite Nat.leb_refl. lia. Qed.

Lemma ri_linear t e s0 idx s v :
  reinsert_inv t e s0 idx → t !! s = Some (Some v) →
  dist n (home (key v)) s ≤ dist n (home (key v)) e.
Proof.
  intros Hi Hs. destruct (ri_e _ _ _ _ Hi) as (He&Hte), (ri_s0 _ _ _ _ Hi) as (Hs0&Hne).
  destruct (decide (dist n (home (key v)) e < dist n (home (key v)) s)) as [Hlt|]; [|lia].
  destruct (ri_path _ _ _ _ Hi s v e Hs He Hlt) as [[v' ?]|(_&[Hle _]&_)]; [congruence|].
  rewrite dist_refl in Hle. exfalso. apply Hne. apply (dist_inj n e); [done..|].
  rewrite dist_refl. lia.
Qed.

Lemma reinsert_stop t e s0 idx :
  reinsert_inv t e s0 idx → t !! idx = Some None → table_ok t.
Proof.
  intros Hi Hidx. pose proof (λ s w, ri_linear t e s0 idx s w Hi) as Hlin.
  destruct Hi as [Hl Hu (He&Hte) (Hs0&Hne) (Hix&Hpos) Hp].
  split; [done|done|]. intros s v q Hv Hq Hd.
  destruct (Hp s v q Hv Hq Hd) as [?|(Hie&[Hlo Hhi]&Hle)]; [done|exfalso].
  pose proof (lookup_lt_Some _ _ _ Hv). rewrite Hl in *.
  assert (s ≠ idx ∧ s ≠ e) as [? ?] by (split; congruence).
  assert (Hin : dist n (home (key v)) idx < dist n (home (key v)) s).
  { apply (path_between n e q idx s); auto. }
  destruct (Hp s v idx Hv Hix Hin) as [[v' ?]|(_&?&_)]; [congruence|lia].
Qed.

(** Taking out the entry at the cursor and inserting it again. *)
Lemma reinsert_step t e s0 idx d :
  reinsert_inv t e s0 idx → t !! idx = Some (Some d) →
  let t1 := <[idx := None]> t in
  ∃ f, probe_ends t1 (key d) f ∧ t1 !! f = Some None ∧ length t1 = n ∧
       reinsert_inv (<[f := Some d]> t1) e s0 (step n idx).
Proof.
  intros Hi Hidx t1. pose proof (λ s w, ri_linear t e s0 idx s w Hi) as Hlin.
  destruct Hi as [Hl Hu (He&Hte) (Hs0&Hne) (Hix&Hpos) Hp]. pose proof (home_lt (key d)) as Hhd.
  assert (idx ≠ e) as Hie by congruence. destruct Hpos as [Hpos|?]; [|done].
  assert (Hl1 : length t1 = n) by (unfold t1; by rewrite length_insert).
  assert (Hlk1 : ∀ s w, t1 !! s = Some (Some w) ↔ s ≠ idx ∧ t !! s = Some (Some w)).
  { intros s w. unfold t1. destruct (decide (s = idx)) as [->|].
    - rewrite list_lookup_insert_eq by lia. split; [done|by intros []].
    - rewrite list_lookup_insert_ne by done. split; [done|by intros []]. }
  destruct (first_on_path n (λ q, ¬ occupied t1 q) (home (key d)) idx)
    as (f&Hf&Hfe&Hfd&Hmin); [done|done|intros [w Hw]; by apply Hlk1 in Hw as []|].
  assert (Hf1 : t1 !! f = Some None) by (destruct (lookup_total t1 f Hl1 Hf); done).
  assert (Hpath : ∀ q, q < n → dist n (home (key d)) q < dist n (home (key d)) f →
    ∃ w, t1 !! q = Some (Some w) ∧ key w ≠ key d).
  { intros q Hq Hd. destruct (decide (occupied t1 q)) as [[w Hw]|Hno]; [|by destruct (Hmin q Hq Hd)].
    exists w. split; [done|]. intros Hk. apply Hlk1 in Hw as [Hqi Hw]. apply Hqi. by eapply Hu. }
  pose proof (Hlin idx d Hidx) as Hlind.
  assert (Hfpos : dist n e f ≤ dist n e idx ∧ f ≠ e).
  { pose proof (path_offset n (home (key d)) f idx e) as Ho1.
    pose proof (path_offset n (home (key d)) idx idx e) as Ho2. split; [lia|].
    intros ->. rewrite dist_refl in Ho1.
    assert (dist n e idx = 0) as Hz by lia.
    apply Hie, (dist_inj n e); [done..|]. by rewrite dist_refl. }
  exists f. split_and!; [split_and!; [done|by left|done]|done|done|].
  set (t2 := <[f := Some d]> t1).
  assert (Hlk2 : ∀ s w, t2 !! s = Some (Some w) →
    (s = f ∧ w = d) ∨ (s ≠ f ∧ s ≠ idx ∧ t !! s = Some (Some w))).
  { intros s w. unfold t2. destruct (decide (s = f)) as [->|].
    - rewrite list_lookup_insert_eq by lia. left; by simplify_eq.
    - rewrite list_lookup_insert_ne, Hlk1 by done. intros []. by right. }
  assert (Hocc : ∀ q, occupied t1 q ∨ q = f → occupied t2 q).
  { intros q Hq. unfold occupied, t2. destruct (decide (q = f)) as [->|].
    - rewrite list_lookup_insert_eq by lia. by exists d.
    - rewrite list_lookup_insert_ne by done. by destruct Hq as [[w ?]|?]; [exists w|]. }
  split.
  - unfold t2. by rewrite length_insert.
  - intros s s' w w' [[-> ->]|(?&?&Hw)]%Hlk2 [[-> ->]|(?&?&Hw')]%Hlk2 Hk; [done| | |by eapply Hu].
    + exfalso. by assert (idx = s') by (by eapply Hu).
    + exfalso. by assert (s = idx) by (by eapply Hu).
  - split; [done|]. unfold t2, t1. destruct Hfpos. by rewrite !list_lookup_insert_ne by congruence.
  - done.
  - split; [ring_lia|]. destruct (step_after n idx e) as [?|?]; [done..|left; lia|by right].
  - intros s w q [[-> ->]|(?&?&Hw)]%Hlk2 Hq Hd.
    + left. apply Hocc. left. destruct (Hpath q Hq Hd) as (w&?&_). by exists w.
    + pose proof (lookup_lt_Some _ _ _ Hw). rewrite Hl in *.
      assert (s ≠ e) by congruence. pose proof (Hlin s w Hw) as Hls.
      destruct (Hp s w q Hw Hq Hd) as [[x Hx]|(_&[Hlo Hhi]&Hle)].
      * destruct (decide (q = idx)) as [->|]; [|left; apply Hocc; left; exists x; by apply Hlk1].
        assert (dist n e idx < dist n e s) by (apply (path_linear n (home (key w))); auto).
        destruct (step_before n idx s e) as [? ?]; [done..|].
        right. split_and!; [done|lia| |done].
        destruct (step_after n idx e) as [?|?]; done.
      * assert (dist n e idx < dist n e s).
        { destruct (decide (dist n e idx = dist n e s)) as [?%dist_inj|]; [done..|lia]. }
        destruct (step_before n idx s e) as [? ?]; [done..|].
        right. split_and!; [done|lia| |done].
        destruct (step_after n idx e) as [?|?]; [done..|lia|done].
Qed.

Lemma reinsert_start t s v e :
  table_ok t → t !! s = Some (Some v) → e < n → t !! e = Some None →
  reinsert_inv (<[s := None]> t) e s (step n s).
Proof.
  intros Hok Hs He Hte. pose proof (lookup_bound _ _ _ Hok Hs).
  pose proof (shift_inv_start t s v e Hok Hs He Hte) as [Hl Hu (_&?&?) (_&?) (?&Hpos) Hp].
  split; try done. intros q w r Hw Hr Hd.
  destruct (Hp q w r Hw Hr Hd) as [?|(->&Hse&Hle)]; [by left|right].
  split_and!; [done|lia| |done]. by destruct Hpos.
Qed.
End table.

(** ** Facts the clients share *)

(** Fewer entries than slots: some slot is empty. *)
Lemma table_has_empty {V} (t : list (option V)) :
  length (entries t) < length t → ∃ e, e < length t ∧ t !! e = Some None.
Proof.
  unfold entries. induction t as [|[v|] t IH]; cbn; intros Hl; [lia| |].
  - destruct IH as (e&?&?); [lia|]. exists (S e). split; [lia|done].
  - exists 0. split; [lia|done].
Qed.

Lemma entries_blank {V} n : entries (replicate n (None : option V)) = [].
Proof. unfold entries. induction n; [done|]. exact IHn. Qed.

(** The table invariant only depends on the keys of the stored entries. *)
Lemma table_ok_ext {V K} (key key' : V → K) n home t :
  (∀ s v, t !! s = Some (Some v) → key v = key' v) → table_ok key n home t → table_ok key' n home t.
Proof.
  intros He [Hl Hu Hp]. split; [done| |].
  - intros s s' v v' Hs Hs'. rewrite <- (He s v), <- (He s' v') by done. by apply Hu.
  - intros s v q Hs. rewrite <- (He s v) by done. by apply Hp.
Qed.

(** A full table has as many entries as slots, a well-formed one no duplicates. *)
Lemma entries_nodup {V K} (key : V → K) n home t :
  table_ok key n home t → NoDup (key <$> entries t).
Proof.
  intros [_ Hu _]. unfold entries.
  assert (Hgen : ∀ t, (∀ s s' v v', t !! s = Some (Some v) → t !! s' = Some (Some v') → key v = key v' → s = s') →
    NoDup (key <$> omap id t)); [|by apply Hgen].
  clear. intros t. induction t as [|[v|] t IH]; intros Hu; cbn; [constructor| |].
  - constructor.
    + intros Hin. apply list_elem_of_fmap in Hin as (w&Hk&Hw). apply elem_of_entries in Hw as [s Hs].
      discriminate (Hu 0 (S s) v w eq_refl Hs Hk).
    + apply IH. intros s s' w w' Hs Hs' Hk. assert (S s = S s') by (by apply (Hu (S s) (S s') w w')). lia.
  - apply IH. intros s s' w w' Hs Hs' Hk. assert (S s = S s') by (by apply (Hu (S s) (S s') w w')). lia.
Qed.

(** Giving the entry of one slot a new value with the same key. *)
Lemma table_ok_rename {V K} (key key' : V → K) n home t b i j :
  table_ok key n home t → t !! b = Some (Some i) → key' j = key i →
  (∀ s v, s ≠ b → t !! s = Some (Some v) → key' v = key v) → table_ok key' n home (<[b := Some j]> t).
Proof.
  intros [Hl Hu Hp] Hb Hj Hkey. pose proof (lookup_lt_Some _ _ _ Hb) as Hlt.
  assert (Hlk : ∀ s v, <[b := Some j]> t !! s = Some (Some v) → ∃ w, t !! s = Some (Some w) ∧ key' v = key w).
  { intros s v. destruct (decide (s = b)) as [->|Hne].
    - rewrite list_lookup_insert_eq by done. intros [= <-]. eauto.
    - rewrite list_lookup_insert_ne by done. intros Hs. exists v. split; [done|by eapply Hkey]. }
  split; [by rewrite length_insert| |].
  - intros s s' v v' (w&Hs&Hk)%Hlk (w'&Hs'&Hk')%Hlk E. rewrite Hk, Hk' in E. by eapply Hu.
  - intros s v q (w&Hs&Hk)%Hlk Hq. rewrite Hk. intros Hd. destruct (Hp s w q Hs Hq Hd) as [x Hx].
    destruct (decide (q = b)) as [->|Hne]; [exists j; by rewrite list_lookup_insert_eq by done|].
    exists x. by rewrite list_lookup_insert_ne by done.
Qed.

(** The distance is the Rust [(b.wrapping_sub(a)) & mask] on 64-bit indices. *)
Lemma dist_wrapping p a b :
  p ≤ 64 → a < 2 ^ p → b < 2 ^ p →
  Z.of_nat (dist (2 ^ p) a b) = Z.land (u_wrap 64 (Z.of_nat b - Z.of_nat a)) (2 ^ Z.of_nat p - 1).
Proof.
  intros Hp Ha Hb. rewrite land_ones_mod by lia. unfold u_wrap.
  assert (Z.of_nat (2 ^ p) = 2 ^ Z.of_nat p)%Z as Hn by apply Nat2Z.inj_pow.
  assert (2 ^ 64 = 2 ^ (64 - Z.of_nat p) * 2 ^ Z.of_nat p)%Z as -> by (rewrite <- Z.pow_add_r by lia; f_equal; lia).
  rewrite Z.mul_comm, Z.rem_mul_r by lia. rewrite Z.mul_comm, Z.mod_add by lia. rewrite Z.mod_mod by lia.
  pose proof (dist_spec (2 ^ p) a b Ha Hb) as [Hlt [He|He]]; rewrite <- Hn.
  - symmetry. replace (Z.of_nat b - Z.of_nat a)%Z with (Z.of_nat (dist (2 ^ p) a b)) by lia. apply Z.mod_small. lia.
  - replace (Z.of_nat b - Z.of_nat a)%Z with (Z.of_nat (dist (2 ^ p) a b) + (-1) * Z.of_nat (2 ^ p))%Z by lia.
    rewrite Z.mod_add by lia. symmetry. apply Z.mod_small. lia.
Qed.
