(* ===== verification/Palette.v ===== *)
(** * The palette scratch (src/world/section.rs, [PaletteScratch])

    A fixed 512-slot open-addressed index over at most 256 distinct IDs that
    remembers them in first-use order; a 257th distinct value only sets the
    length to 257.  [slots] holds an index plus one, zero meaning empty. *)

From S2P Require Import Prelude Probe.
Local Open Scope nat_scope.

Record PaletteScratch := {
  ids : list Z;
  slots : list Z;
  plen : nat;
}.

(** [PaletteScratch::new] *)
Definition ps_new : PaletteScratch :=
  {| ids := replicate 256 0%Z; slots := replicate 512 0%Z; plen := 0 |}.

(** [PaletteScratch::slot]: the top nine bits of a 32-bit product. *)
Definition ps_slot (value : Z) : nat :=
  Z.to_nat (Z.shiftr (u_wrap 32 (value * 0x9e3779b9)) 23).

(** One round of the loop in [find]: [Some r] leaves the loop with [r]. *)
Definition find_body (s : PaletteScratch) (value : Z) (slot : nat)
    : outcome False (option (option nat)) :=
  entry ← unwrap (slots s !! slot);
  if (entry =? 0)%Z then Ok (Some None)
  else
    let index := Z.to_nat (entry - 1) in
    id ← unwrap (ids s !! index);
    if (id =? value)%Z then Ok (Some (Some index)) else Ok None.

Definition ps_find (s : PaletteScratch) (value : Z) : outcome False (option nat) :=
  probe_loop 512 (find_body s value) 511 (ps_slot value).

(** [while self.slots[slot] != 0 { slot = (slot + 1) & 511 }] *)
Definition free_body (s : PaletteScratch) (slot : nat) : outcome False (option nat) :=
  entry ← unwrap (slots s !! slot);
  if (entry =? 0)%Z then Ok (Some slot) else Ok None.

Definition ps_insert (s : PaletteScratch) (value : Z) : outcome False PaletteScratch :=
  if 256 <? plen s then Ok s
  else
    found ← ps_find s value;
    match found with
    | Some _ => Ok s
    | None =>
        if plen s =? 256 then Ok {| ids := ids s; slots := slots s; plen := 257 |}
        else
          let index := plen s in
          _ ← assert_that (index <? length (ids s));
          slot ← probe_loop 512 (free_body s) 511 (ps_slot value);
          Ok {| ids := <[index := value]> (ids s);
                slots := <[slot := u_wrap 16 (Z.of_nat (index + 1))]> (slots s);
                plen := plen s + 1 |}
    end.

(** [for &value in input { palette.insert(value) }] *)
Fixpoint ps_insert_all (s : PaletteScratch) (input : list Z) : outcome False PaletteScratch :=
  match input with
  | [] => Ok s
  | value :: rest => s' ← ps_insert s value; ps_insert_all s' rest
  end.

(** ** Specification *)

(** The distinct values of a list in first-use order. *)
Definition add_new (acc : list Z) (v : Z) : list Z :=
  if decide (v ∈ acc) then acc else acc ++ [v].
Definition distinct (l : list Z) : list Z := fold_left add_new l [].

(** The slots as a table of palette indices. *)
Definition view (s : PaletteScratch) : list (option nat) :=
  (λ e, if (e =? 0)%Z then None else Some (Z.to_nat (e - 1))) <$> slots s.
Definition id_at (s : PaletteScratch) (i : nat) : Z := nth i (ids s) 0%Z.

Record ps_inv (s : PaletteScratch) : Prop := {
  inv_ids : length (ids s) = 256;
  inv_len : plen s ≤ 256;
  inv_nodup : NoDup (take (plen s) (ids s));
  inv_table : table_ok (id_at s) 512 ps_slot (view s);
  inv_entries : entries (view s) ≡ₚ seq 0 (plen s);
}.

(** What the scratch stands for after the distinct values [d]. *)
Definition stands_for (s : PaletteScratch) (d : list Z) : Prop :=
  if decide (length d ≤ 256) then ps_inv s ∧ plen s = length d ∧ take (plen s) (ids s) = d
  else plen s = 257.

Lemma ps_slot_lt v : ps_slot v < 512.
Proof.
  unfold ps_slot. pose proof (u_wrap_range 32 (v * 0x9e3779b9) ltac:(lia)) as [H0 H1].
  rewrite Z.shiftr_div_pow2 by lia.
  assert (0 ≤ u_wrap 32 (v * 0x9e3779b9) `div` 2 ^ 23 < 512)%Z; [|lia].
  split; [apply Z.div_pos; lia|apply Z.div_lt_upper_bound; lia].
Qed.

Lemma id_at_lookup s i :
  i < plen s → i < length (ids s) → take (plen s) (ids s) !! i = Some (id_at s i).
Proof.
  intros Hi Hl. rewrite lookup_take_lt by done. unfold id_at. rewrite nth_lookup.
  by destruct (lookup_lt_ok (ids s) i Hl) as [x ->].
Qed.

Lemma view_lookup s q :
  view s !! q = (λ e, if (e =? 0)%Z then None else Some (Z.to_nat (e - 1))) <$> slots s !! q.
Proof. unfold view. apply list_lookup_fmap. Qed.

(** ** Lookup and insertion *)

Lemma view_entry s q i :
  ps_inv s → view s !! q = Some (Some i) →
  i < plen s ∧ ids s !! i = Some (id_at s i) ∧
  ∃ e, slots s !! q = Some e ∧ e ≠ 0%Z ∧ Z.to_nat (e - 1) = i.
Proof.
  intros Hi Hq. assert (Hlt : i < plen s).
  { assert (i ∈ seq 0 (plen s)) as Hin%elem_of_seq; [|lia].
    rewrite <- (inv_entries s Hi). apply elem_of_entries. by exists q. }
  pose proof (inv_len s Hi). pose proof (inv_ids s Hi). split_and!; [done| |].
  - unfold id_at. rewrite nth_lookup. by destruct (lookup_lt_ok (ids s) i ltac:(lia)) as [x ->].
  - rewrite view_lookup in Hq. destruct (slots s !! q) as [e|]; [|done]. cbn in Hq.
    destruct (Z.eqb_spec e 0); [done|]. injection Hq as Hq. by exists e.
Qed.

Lemma view_empty s q : view s !! q = Some None → slots s !! q = Some 0%Z.
Proof.
  rewrite view_lookup. destruct (slots s !! q) as [e|]; [|done]. cbn.
  destruct (Z.eqb_spec e 0); [by subst|done].
Qed.

Lemma find_body_skip s v q i :
  ps_inv s → view s !! q = Some (Some i) → id_at s i ≠ v → find_body s v q = Ok None.
Proof.
  intros Hi Hq Hne. destruct (view_entry s q i Hi Hq) as (_&Hid&e&He&Hne0&Hei).
  unfold find_body. rewrite He. cbn. destruct (Z.eqb_spec e 0); [done|].
  rewrite Hei, Hid. cbn. by destruct (Z.eqb_spec (id_at s i) v).
Qed.

Lemma inv_has_empty s : ps_inv s → ∃ e, e < 512 ∧ view s !! e = Some None.
Proof.
  intros Hi. pose proof (ok_length _ _ _ _ (inv_table s Hi)) as Hl.
  destruct (table_has_empty (view s)) as (e&?&?).
  - rewrite (Permutation_length (inv_entries s Hi)), length_seq, Hl. pose proof (inv_len s Hi). lia.
  - exists e. by rewrite Hl in *.
Qed.

Lemma ps_find_spec s v :
  ps_inv s →
  ∃ r, ps_find s v = Ok r ∧ ∀ i, r = Some i ↔ take (plen s) (ids s) !! i = Some v.
Proof.
  intros Hi. destruct (inv_has_empty s Hi) as (e0&He0&Hempty).
  pose proof (inv_table s Hi) as Ht. pose proof (inv_ids s Hi). pose proof (inv_len s Hi).
  unfold ps_find. change 511 with (512 - 1).
  destruct (probe_ends_exists (id_at s) 512 ps_slot ps_slot_lt (view s) v e0 Ht He0 Hempty)
    as [(q&i&Hend&Hq&Hk)|(q&Hend&Hq&Habs)].
  - exists (Some i). destruct (view_entry s q i Hi Hq) as (Hlt&Hid&e&He&Hne0&Hei). split.
    + eapply (probe_loop_ends (id_at s) 512 ps_slot ps_slot_lt 9); [done|done|exact Hend| |].
      * intros q' i'. by apply find_body_skip.
      * unfold find_body. rewrite He. cbn. destruct (Z.eqb_spec e 0); [done|].
        rewrite Hei, Hid. cbn. by rewrite Hk, Z.eqb_refl.
    + intros j. split; [intros [= <-]; rewrite id_at_lookup by lia; by f_equal|].
      intros Hj. f_equal. eapply (NoDup_lookup _ _ _ v (inv_nodup s Hi)); [|exact Hj].
      rewrite id_at_lookup by lia. by f_equal.
  - exists None. split.
    + eapply (probe_loop_ends (id_at s) 512 ps_slot ps_slot_lt 9); [done|done|exact Hend| |].
      * intros q' i'. by apply find_body_skip.
      * unfold find_body. by rewrite (view_empty s q Hq).
    + intros j. split; [done|]. intros Hj. exfalso.
      pose proof (lookup_lt_Some _ _ _ Hj) as Hjl. rewrite length_take in Hjl.
      assert (Hin : j ∈ entries (view s)).
      { rewrite (inv_entries s Hi). apply elem_of_seq. lia. }
      apply (Habs j Hin). rewrite id_at_lookup in Hj by lia. by injection Hj.
Qed.

Definition with_id (s : PaletteScratch) (v : Z) : list Z := <[plen s := v]> (ids s).

Lemma ps_insert_fresh s v :
  ps_inv s → plen s < 256 → v ∉ take (plen s) (ids s) →
  ∃ s', ps_insert s v = Ok s' ∧ ps_inv s' ∧ plen s' = plen s + 1 ∧
        take (plen s') (ids s') = take (plen s) (ids s) ++ [v].
Proof.
  intros Hi Hlen Hnew. pose proof (inv_ids s Hi) as Hids.
  destruct (ps_find_spec s v Hi) as (r&Hfind&Hr).
  assert (r = None) as ->.
  { destruct r as [i|]; [|done]. exfalso. apply Hnew, list_elem_of_lookup. exists i. by apply Hr. }
  destruct (inv_has_empty s Hi) as (e0&He0&Hempty).
  set (key' := λ i, nth i (with_id s v) 0%Z).
  assert (Hsame : ∀ q i, view s !! q = Some (Some i) → id_at s i = key' i).
  { intros q i Hq. destruct (view_entry s q i Hi Hq) as (Hlt&_). unfold key', id_at, with_id.
    rewrite !nth_lookup. by rewrite list_lookup_insert_ne by lia. }
  pose proof (table_ok_ext _ key' _ _ _ Hsame (inv_table s Hi)) as Ht.
  destruct (probe_ends_exists key' 512 ps_slot ps_slot_lt (view s) v e0 Ht He0 Hempty)
    as [(q&i&Hend&Hq&Hk)|(q&Hend&Hq&Habs)].
  { exfalso. destruct (view_entry s q i Hi Hq) as (Hlt&_). apply Hnew, list_elem_of_lookup.
    exists i. rewrite id_at_lookup by lia. by rewrite (Hsame q i Hq), Hk. }
  assert (Hkv : key' (plen s) = v).
  { unfold key', with_id. by rewrite nth_lookup, list_lookup_insert_eq by lia. }
  rewrite <- Hkv in Hend, Habs.
  destruct (table_ok_insert key' 512 ps_slot (view s) (plen s) q Ht Hend Hq Habs) as [Ht' Hent'].
  exists {| ids := with_id s v; slots := <[q := Z.of_nat (plen s + 1)]> (slots s);
            plen := plen s + 1 |}. split.
  { assert (Hprobe : probe_loop 512 (free_body s) 511 (ps_slot v) = Ok q).
    { rewrite <- Hkv.
      eapply (probe_loop_ends key' 512 ps_slot ps_slot_lt 9); [done|done|exact Hend| |].
      - intros q' i' Hq' _. destruct (view_entry s q' i' Hi Hq') as (_&_&e&He&Hne&_).
        unfold free_body. rewrite He. mstep. by destruct (Z.eqb_spec e 0).
      - unfold free_body. by rewrite (view_empty s q Hq). }
    unfold ps_insert. destruct (Nat.ltb_spec 256 (plen s)); [lia|]. rewrite Hfind. mstep.
    destruct (Nat.eqb_spec (plen s) 256); [lia|]. rewrite Hids.
    destruct (Nat.ltb_spec (plen s) 256); [|lia]. mstep. rewrite Hprobe. mstep.
    rewrite u_wrap_id by (unfold in_u; lia). reflexivity. }
  assert (Htake : take (plen s + 1) (with_id s v) = take (plen s) (ids s) ++ [v]).
  { unfold with_id. rewrite Nat.add_1_r.
    rewrite (take_S_r _ _ v) by (rewrite list_lookup_insert_eq; [done|lia]).
    by rewrite take_insert_ge by lia. }
  assert (Hview : ∀ l n, view {| ids := l; slots := <[q := Z.of_nat (plen s + 1)]> (slots s);
            plen := n |} = <[q := Some (plen s)]> (view s)).
  { intros. unfold view. cbn. rewrite list_fmap_insert.
    destruct (Z.eqb_spec (Z.of_nat (plen s + 1)) 0); [lia|]. do 2 f_equal. lia. }
  split_and!; [|done|done]. split; cbn [ids slots plen]; rewrite ?Hview.
  - unfold with_id. by rewrite length_insert.
  - lia.
  - rewrite Htake. apply NoDup_app. split_and!; [apply (inv_nodup s Hi)| |apply NoDup_singleton].
    intros x Hx ->%list_elem_of_singleton. done.
  - exact Ht'.
  - rewrite Hent', (inv_entries s Hi), Nat.add_1_r, seq_S. cbn.
    apply Permutation_cons_append.
Qed.

Lemma ps_inv_new : ps_inv ps_new.
Proof.
  assert (Hv : view ps_new = replicate 512 None) by reflexivity.
  split; [reflexivity|cbn; lia|constructor| |]; rewrite Hv.
  - apply table_ok_empty.
  - unfold entries. change (seq 0 (plen ps_new)) with (@nil nat).
    generalize 512. intros m. by induction m.
Qed.

(** ** Distinct values *)

Lemma add_new_in acc v : v ∈ acc → add_new acc v = acc.
Proof. intros. unfold add_new. by rewrite decide_True. Qed.
Lemma add_new_notin acc v : v ∉ acc → add_new acc v = acc ++ [v].
Proof. intros. unfold add_new. by rewrite decide_False. Qed.

Lemma fold_add_new_nodup l acc : NoDup acc → NoDup (fold_left add_new l acc).
Proof.
  revert acc. induction l as [|v l IH]; intros acc Ha; cbn; [done|].
  apply IH. unfold add_new. case_decide; [done|].
  apply NoDup_app. split_and!; [done| |apply NoDup_singleton].
  intros x Hx ->%list_elem_of_singleton. done.
Qed.

Lemma fold_add_new_elem l acc x : x ∈ fold_left add_new l acc ↔ x ∈ acc ∨ x ∈ l.
Proof.
  revert acc. induction l as [|v l IH]; intros acc; cbn.
  - rewrite elem_of_nil. tauto.
  - rewrite IH, elem_of_cons. unfold add_new. case_decide as Hd.
    + split; [tauto|]. intros [?|[->|?]]; tauto.
    + rewrite elem_of_app, list_elem_of_singleton. tauto.
Qed.

Lemma distinct_nodup l : NoDup (distinct l).
Proof. apply fold_add_new_nodup. constructor. Qed.
Lemma elem_of_distinct l x : x ∈ distinct l ↔ x ∈ l.
Proof. unfold distinct. rewrite fold_add_new_elem, elem_of_nil. tauto. Qed.

Lemma distinct_incl l x : x ∈ distinct l → x ∈ l.
Proof. by rewrite elem_of_distinct. Qed.

Lemma add_new_length acc v : length acc ≤ length (add_new acc v).
Proof. unfold add_new. case_decide; [done|]. rewrite length_app. lia. Qed.

Lemma stands_small s d :
  length d ≤ 256 → ps_inv s → plen s = length d → take (plen s) (ids s) = d → stands_for s d.
Proof. intros. unfold stands_for. by rewrite decide_True by done. Qed.
Lemma stands_big s d : 256 < length d → plen s = 257 → stands_for s d.
Proof. intros. unfold stands_for. by rewrite decide_False by lia. Qed.

(** One [insert] is one [add_new] of the specification. *)
Lemma ps_insert_spec s d v :
  NoDup d → stands_for s d → ∃ s', ps_insert s v = Ok s' ∧ stands_for s' (add_new d v).
Proof.
  unfold stands_for at 1. intros Hd Hs. case_decide as Hlen.
  - destruct Hs as (Hi&Hpl&Htake). pose proof (ps_find_spec s v Hi) as (r&Hf&Hr).
    rewrite Htake in Hr. destruct (decide (v ∈ d)) as [Hin|Hout].
    + exists s. rewrite add_new_in by done. split; [|by apply stands_small].
      pose proof Hin as [i Hdi]%list_elem_of_lookup. apply Hr in Hdi as ->.
      unfold ps_insert. destruct (Nat.ltb_spec 256 (plen s)); [done|]. by rewrite Hf.
    + rewrite add_new_notin by done.
      destruct (decide (length d = 256)) as [Hfull|Hnf].
      * exists {| ids := ids s; slots := slots s; plen := 257 |}. split; [|by apply stands_big; [rewrite length_app; cbn; lia|reflexivity]].
        unfold ps_insert. destruct (Nat.ltb_spec 256 (plen s)); [lia|]. rewrite Hf. mstep.
        destruct r as [i|]; [|destruct (Nat.eqb_spec (plen s) 256); [reflexivity|lia]].
        exfalso. apply Hout, list_elem_of_lookup. exists i. by apply Hr.
      * destruct (ps_insert_fresh s v Hi) as (s'&Hs'&Hi'&Hpl'&Htake');
          [lia|by rewrite Htake|].
        exists s'. split; [done|]. rewrite Htake in Htake'.
        apply stands_small; rewrite ?length_app; cbn; [lia|done|lia|done].
  - exists s. split.
    + unfold ps_insert. by rewrite Hs.
    + apply stands_big; [|done]. pose proof (add_new_length d v). lia.
Qed.

Lemma ps_insert_all_spec s d input :
  NoDup d → stands_for s d →
  ∃ s', ps_insert_all s input = Ok s' ∧ stands_for s' (fold_left add_new input d).
Proof.
  revert s d. induction input as [|v input IH]; intros s d Hd Hs; cbn [ps_insert_all fold_left].
  - by exists s.
  - destruct (ps_insert_spec s d v Hd Hs) as (s'&->&Hs'). mstep. apply IH; [|done].
    by apply (fold_add_new_nodup [v]).
Qed.

(** The scratch after inserting a whole input, in one statement. *)
Lemma ps_build input :
  ∃ s, ps_insert_all ps_new input = Ok s ∧ stands_for s (distinct input).
Proof.
  apply ps_insert_all_spec; [constructor|].
  apply stands_small; [cbn; lia|apply ps_inv_new|done|done].
Qed.

(** ** Property *)

(** The palette scratch: inserting any input never panics and every probe
    loop ends within the table; afterwards the length is the number of distinct
    values capped at 257, the IDs are exactly the distinct values in first-use
    order when there are at most 256, and [find] is then the exact inverse of
    that list (index of a value, or nothing for an absent one). *)
Theorem palette_scratch_first_use input :
  ∃ s, ps_insert_all ps_new input = Ok s ∧
    plen s = Nat.min (length (distinct input)) 257 ∧
    (length (distinct input) ≤ 256 →
       take (plen s) (ids s) = distinct input ∧
       ∀ v, ∃ r, ps_find s v = Ok r ∧ ∀ i, r = Some i ↔ distinct input !! i = Some v).
Proof.
  destruct (ps_build input) as (s&Hs&Hf). exists s. unfold stands_for in Hf. case_decide.
  - destruct Hf as (Hi&Hpl&Htake). split_and!; [done|lia|]. intros _. split; [done|].
    intros v. rewrite <- Htake. by apply ps_find_spec.
  - split_and!; [done|lia|lia].
Qed.

Example palette_scratch_example :
  (s ← ps_insert_all ps_new [7; 7; 9; 7; 3]%Z; i ← ps_find s 9; Ok (take 3 (ids s), plen s, i))
  = Ok ([7; 9; 3]%Z, 3, Some 1).
Proof. vm_compute. reflexivity. Qed.
