(* ===== verification/Container.v ===== *)
(** * Paletted containers and sections (src/world/section.rs)

    A container of 4096 block or 64 biome IDs is a single value, a palette
    with packed indices, or packed IDs directly.  [&mut self] methods return
    the new container with their result; on an error the caller keeps the old
    one.  A [Vec] whose capacity the code measures is a list with a capacity. *)

From stdpp Require Import sets.
From S2P Require Import Prelude.
From S2P Require Import Wire.
From S2P Require Import Packed.
From S2P Require Import Probe.
From S2P Require Import Palette.
Local Open Scope Z_scope.

Definition BLOCKS_PER_SECTION : nat := 4096.
Definition BIOMES_PER_SECTION : nat := 64.
Definition MAX_SECTION_NETWORK_BYTES : Z := 4 + 1 + 2048 * 8 + 1 + 32 * 8.

(** ** Registry and kind *)

Record Registry := { state_count : Z }.

Definition registry_new (state_count : Z) : outcome Error Registry :=
  if (state_count =? 0) || (Z.shiftl 1 31 <? state_count)
  then Err (InvalidRegistrySize state_count)
  else Ok {| state_count := state_count |}.

Definition registry_bits (r : Registry) : nat := Z.to_nat (bit_len (state_count r - 1)).

Definition validate (r : Registry) (value : Z) : outcome Error () :=
  if value <? state_count r then Ok tt else Err (ValueOutOfRange value).

Inductive ContainerKind := Blocks | Biomes.

Definition kind_len (k : ContainerKind) : nat :=
  match k with Blocks => BLOCKS_PER_SECTION | Biomes => BIOMES_PER_SECTION end.

Definition kind_index (k : ContainerKind) (x y z : Z) : outcome Error Z :=
  let side := match k with Blocks => 16 | Biomes => 4 end in
  if (side <=? x) || (side <=? y) || (side <=? z) then Err IndexOutOfBounds
  else Ok (x + side * (z + side * y)).

Definition min_bits (k : ContainerKind) : nat := match k with Blocks => 4 | Biomes => 1 end.
Definition max_bits (k : ContainerKind) : nat := match k with Blocks => 8 | Biomes => 3 end.

Definition normalized_bits (k : ContainerKind) (bits : nat) (r : Registry) : nat :=
  if (bits =? 0)%nat then 0%nat
  else if (bits <=? max_bits k)%nat then Nat.max bits (min_bits k)
  else registry_bits r.

(** ** Containers *)

Inductive Storage :=
| Single (value : Z)
| Indirect (palette : list Z) (palette_cap : Z) (values : packed)
| Direct (values : packed).

Record PalettedContainer := {
  kind : ContainerKind;
  registry : Registry;
  storage : Storage;
}.

(** [len.div_ceil(64 / usize::from(bits))]: zero bits divide by zero. *)
Definition words_for (bits len : nat) : outcome Error Z :=
  if (bits =? 0)%nat then Panic else Ok (div_ceil (Z.of_nat len) (64 `div` Z.of_nat bits)).

Definition single (k : ContainerKind) (r : Registry) (initial : Z)
    : outcome Error PalettedContainer :=
  _ ← validate r initial;
  Ok {| kind := k; registry := r; storage := Single initial |}.

(** [for &value in input { registry.validate(value)?; palette.insert(value) }] *)
Fixpoint scan_input (r : Registry) (s : PaletteScratch) (input : list Z)
    : outcome Error PaletteScratch :=
  match input with
  | [] => Ok s
  | value :: rest =>
      _ ← validate r value;
      s' ← lift (ps_insert s value);
      scan_input r s' rest
  end.

(** [for (index, &id) in input.iter().enumerate() { values.set(index, f(id))? }] *)
Fixpoint fill (f : Z → outcome Error Z) (values : packed) (index : nat) (input : list Z)
    : outcome Error packed :=
  match input with
  | [] => Ok values
  | id :: rest =>
      v ← f id;
      '(_, values') ← Packed.set values index v;
      fill f values' (S index) rest
  end.

(** [palette.find(id).unwrap() as u32] *)
Definition palette_key (s : PaletteScratch) (id : Z) : outcome Error Z :=
  r ← lift (ps_find s id);
  i ← unwrap r;
  Ok (Z.of_nat i).

Section container.
Context `{Allocator}.

Definition build (k : ContainerKind) (r : Registry) (input : list Z) (forced_bits : option nat)
    (allocation_limit : Z) : outcome Error PalettedContainer :=
  _ ← ensure (length input =? kind_len k)%nat
        (InvalidLength (Z.of_nat (kind_len k)) (zlen input));
  palette ← scan_input r ps_new input;
  let bits := match forced_bits with
    | Some b => b
    | None => if (plen palette =? 1)%nat then 0%nat
              else Z.to_nat (bit_len (Z.of_nat (plen palette) - 1))
    end in
  if (bits =? 0)%nat then
    first ← unwrap (input !! 0%nat);
    single k r first
  else
    let direct := (max_bits k <? bits)%nat in
    let bits := normalized_bits k bits r in
    let palette_bytes := if direct then 0 else Z.shiftl 1 (Z.of_nat bits) * 4 in
    count ← words_for bits (kind_len k);
    let words_bytes := count * 8 in
    _ ← ensure (palette_bytes + words_bytes <=? allocation_limit) AllocationBudgetExceeded;
    values ← Packed.new bits (kind_len k) words_bytes;
    if direct then
      values ← fill Ok values 0 input;
      Ok {| kind := k; registry := r; storage := Direct values |}
    else
      cap ← ok_or (reserve_exact 4 (Z.shiftl 1 (Z.of_nat bits))) AllocationFailed;
      _ ← ensure (cap * 4 + Packed.heap_bytes values <=? allocation_limit)
            AllocationBudgetExceeded;
      _ ← assert_that (plen palette <=? length (ids palette))%nat;
      let entries := take (plen palette) (ids palette) in
      values ← fill (palette_key palette) values 0 input;
      Ok {| kind := k; registry := r; storage := Indirect entries cap values |}.

Definition from_dense (k : ContainerKind) (r : Registry) (input : list Z) (allocation_limit : Z)
    : outcome Error PalettedContainer :=
  build k r input None allocation_limit.

Definition bits (c : PalettedContainer) : nat :=
  match storage c with
  | Single _ => 0
  | Indirect _ _ values | Direct values => Packed.bits values
  end%nat.

Definition heap_bytes (c : PalettedContainer) : Z :=
  match storage c with
  | Single _ => 0
  | Indirect _ cap values => cap * 4 + Packed.heap_bytes values
  | Direct values => Packed.heap_bytes values
  end.

Definition get (c : PalettedContainer) (index : nat) : outcome Error Z :=
  if (kind_len (kind c) <=? index)%nat then Err IndexOutOfBounds
  else
    match storage c with
    | Single value => Ok value
    | Indirect palette _ values =>
        k ← Packed.get values index;
        key ← ok_or k IndexOutOfBounds;
        ok_or (palette !! Z.to_nat key) (InvalidPaletteIndex key)
    | Direct values =>
        v ← Packed.get values index;
        ok_or v IndexOutOfBounds
    end.

(** [for (i, id) in dense.iter_mut().enumerate() { *id = self.get(i)? }] *)
Fixpoint dense_from (c : PalettedContainer) (i n : nat) : outcome Error (list Z) :=
  match n with
  | O => Ok []
  | S n' => v ← get c i; rest ← dense_from c (S i) n'; Ok (v :: rest)
  end.

(** [palette.iter().position(|&entry| entry == value)] *)
Definition palette_position (palette : list Z) (value : Z) : option nat :=
  fst <$> list_find (λ entry, entry = value) palette.

Definition with_storage (c : PalettedContainer) (s : Storage) : PalettedContainer :=
  {| kind := kind c; registry := registry c; storage := s |}.

(** The tail of [set]: rebuild with more bits, then store the new value with
    [continue], the recursive call. *)
Definition grow_and (continue : PalettedContainer → Z → outcome Error (Z * PalettedContainer))
    (c : PalettedContainer) (old allocation_limit : Z) : outcome Error (Z * PalettedContainer) :=
  budget ← ok_or (checked_sub allocation_limit (heap_bytes c)) AllocationBudgetExceeded;
  dense ← dense_from c 0 (kind_len (kind c));
  let next_bits := Nat.max (bits c + 1) (min_bits (kind c)) in
  replacement ← build (kind c) (registry c) dense (Some next_bits) budget;
  '(_, replacement) ← continue replacement budget;
  Ok (old, replacement).

Fixpoint set_fuel (fuel : nat) (c : PalettedContainer) (index : nat) (value allocation_limit : Z)
    : outcome Error (Z * PalettedContainer) :=
  match fuel with
  | O => NoFuel
  | S fuel' =>
      let grow old := grow_and (λ c' budget, set_fuel fuel' c' index value budget)
                        c old allocation_limit in
      _ ← validate (registry c) value;
      old ← get c index;
      match storage c with
      | Single current => if current =? value then Ok (old, c) else grow old
      | Indirect palette cap values =>
          match palette_position palette value with
          | Some key =>
              '(_, values') ← Packed.set values index (Z.of_nat key);
              Ok (old, with_storage c (Indirect palette cap values'))
          | None =>
              if zlen palette <? Z.shiftl 1 (Z.of_nat (Packed.bits values)) then
                let key := length palette in
                '(_, values') ← Packed.set values index (Z.of_nat key);
                Ok (old, with_storage c (Indirect (palette ++ [value]) cap values'))
              else grow old
          end
      | Direct values =>
          '(_, values') ← Packed.set values index value;
          Ok (old, with_storage c (Direct values'))
      end
  end.

(** A rebuilt container always has room, so one recursive call is enough. *)
Definition set (c : PalettedContainer) (index : nat) (value allocation_limit : Z)
    : outcome Error (Z * PalettedContainer) :=
  set_fuel 2 c index value allocation_limit.

Definition repack (c : PalettedContainer) (allocation_limit : Z)
    : outcome Error PalettedContainer :=
  budget ← ok_or (checked_sub allocation_limit (heap_bytes c)) AllocationBudgetExceeded;
  dense ← dense_from c 0 (kind_len (kind c));
  from_dense (kind c) (registry c) dense budget.
End container.

(** ** Invariant and abstraction *)

Definition registry_ok (r : Registry) : Prop := 1 ≤ state_count r ≤ 2 ^ 31.
Definition valid (r : Registry) (v : Z) : Prop := 0 ≤ v < state_count r.

(** Keys of an indirect container point into its palette. *)
Record indirect_ok (k : ContainerKind) (r : Registry) (palette : list Z) (cap : Z) (p : packed)
    : Prop := {
  io_wf : wf p;
  io_len : len p = kind_len k;
  io_bits : (min_bits k ≤ Packed.bits p ≤ max_bits k)%nat;
  io_palette : 1 ≤ zlen palette ≤ 2 ^ Z.of_nat (Packed.bits p);
  io_cap : 2 ^ Z.of_nat (Packed.bits p) ≤ cap;
  io_valid : Forall (valid r) palette;
  io_keys : Forall (λ key, key < zlen palette) (Packed.values p);
}.

Record direct_ok (k : ContainerKind) (r : Registry) (p : packed) : Prop := {
  do_wf : wf p;
  do_len : len p = kind_len k;
  do_bits : Packed.bits p = registry_bits r;
  do_valid : Forall (valid r) (Packed.values p);
}.

Record inv (c : PalettedContainer) : Prop := {
  inv_registry : registry_ok (registry c);
  inv_storage : match storage c with
    | Single v => valid (registry c) v
    | Indirect palette cap p => indirect_ok (kind c) (registry c) palette cap p
    | Direct p => direct_ok (kind c) (registry c) p
    end;
}.

(** The dense array a container stands for. *)
Definition contents (c : PalettedContainer) : list Z :=
  match storage c with
  | Single v => replicate (kind_len (kind c)) v
  | Indirect palette _ p => (λ key, nth (Z.to_nat key) palette 0) <$> Packed.values p
  | Direct p => Packed.values p
  end.

Lemma length_contents c : inv c → length (contents c) = kind_len (kind c).
Proof.
  intros [_ Hs]. unfold contents. destruct (storage c); rewrite ?length_fmap, ?length_values.
  - apply length_replicate.
  - apply (io_len _ _ _ _ _ Hs).
  - apply (do_len _ _ _ Hs).
Qed.

Lemma kind_len_dims k : (1 ≤ kind_len k ≤ MAX_LEN)%nat.
Proof. destruct k; cbv; lia. Qed.
#[global] Opaque kind_len.

Lemma validate_ok r v : 0 ≤ v → validate r v = Ok tt ↔ valid r v.
Proof. intros. unfold validate, valid. destruct (Z.ltb_spec v (state_count r)); split; (done || lia). Qed.

Lemma validate_cases r v :
  0 ≤ v → (validate r v = Ok tt ∧ valid r v) ∨ (validate r v = Err (ValueOutOfRange v) ∧ ¬ valid r v).
Proof.
  intros. unfold validate, valid. destruct (Z.ltb_spec v (state_count r)); [left|right]; split; (done || lia).
Qed.

Lemma key_lookup palette p i key :
  wf p → Forall (λ key, key < zlen palette) (Packed.values p) → Packed.values p !! i = Some key →
  palette !! Z.to_nat key = Some (nth (Z.to_nat key) palette 0).
Proof.
  intros Hwf Hk Hi. pose proof (values_range p i key Hwf Hi) as [Hlo _].
  rewrite Forall_lookup in Hk. specialize (Hk i key Hi). cbn in Hk. unfold zlen in Hk.
  rewrite nth_lookup. by destruct (lookup_lt_ok palette (Z.to_nat key) ltac:(lia)) as [x ->].
Qed.

Lemma container_get_spec c i :
  inv c → get c i = match contents c !! i with Some v => Ok v | None => Err IndexOutOfBounds end.
Proof.
  intros Hinv. pose proof (length_contents c Hinv) as Hl. unfold get.
  destruct (Nat.leb_spec (kind_len (kind c)) i) as [Hge|Hlt].
  { by rewrite lookup_ge_None_2 by lia. }
  destruct Hinv as [_ Hs]. revert Hl. unfold contents. destruct (storage c) as [v|palette cp p|p]; intros Hl.
  - by rewrite lookup_replicate_2.
  - rewrite get_spec by apply Hs. mstep. rewrite list_lookup_fmap.
    rewrite length_fmap in Hl.
    destruct (lookup_lt_ok (Packed.values p) i ltac:(lia)) as [key Hkey]. rewrite Hkey. mstep.
    by rewrite (key_lookup palette p i key (io_wf _ _ _ _ _ Hs) (io_keys _ _ _ _ _ Hs) Hkey).
  - rewrite get_spec by apply Hs. mstep.
    by destruct (lookup_lt_ok (Packed.values p) i ltac:(lia)) as [key ->].
Qed.

Lemma dense_from_spec c i n :
  inv c → (i + n = kind_len (kind c))%nat → dense_from c i n = Ok (drop i (contents c)).
Proof.
  intros Hinv. revert i. induction n as [|n IH]; intros i Hi; cbn [dense_from].
  - rewrite drop_ge; [done|]. rewrite length_contents by done. lia.
  - rewrite container_get_spec by done.
    destruct (lookup_lt_ok (contents c) i) as [v Hv]; [rewrite length_contents by done; lia|].
    rewrite Hv. mstep. rewrite IH by lia. mstep. by rewrite (drop_S _ v i).
Qed.

Lemma dense_from_all c : inv c → dense_from c 0 (kind_len (kind c)) = Ok (contents c).
Proof. intros. by rewrite dense_from_spec. Qed.

Lemma contents_valid c : inv c → Forall (valid (registry c)) (contents c).
Proof.
  intros [_ Hs]. unfold contents. destruct (storage c) as [cur|palette cp p|p].
  - by apply Forall_replicate.
  - apply Forall_fmap, Forall_lookup. intros j key Hj. cbn.
    pose proof (key_lookup palette p j key (io_wf _ _ _ _ _ Hs) (io_keys _ _ _ _ _ Hs) Hj) as Hlk.
    pose proof (io_valid _ _ _ _ _ Hs) as Hva. rewrite Forall_lookup in Hva. by eapply Hva.
  - apply Hs.
Qed.

Lemma div_ceil_nonneg n b : (1 ≤ b ≤ 31)%nat → 0 ≤ div_ceil (Z.of_nat n) (64 `div` Z.of_nat b).
Proof.
  intros Hb. pose proof (per_word_bounds b Hb) as [? _]. unfold per_word, div_ceil in *.
  change 64 with (Z.of_nat 64). rewrite <- Nat2Z.inj_div. apply Z.div_pos; lia.
Qed.

(** ** Building *)

Lemma fill_spec f g p i input :
  wf p → (i + length input = len p)%nat →
  (∀ v, v ∈ input → f v = Ok (g v) ∧ in_u (Z.of_nat (Packed.bits p)) (g v)) →
  ∃ p', fill f p i input = Ok p' ∧ wf p' ∧ Packed.values p' = take i (Packed.values p) ++ (g <$> input) ∧
    Packed.bits p' = Packed.bits p ∧ len p' = len p ∧ Packed.cap p' = Packed.cap p.
Proof.
  revert p i. induction input as [|v input IH]; intros p i Hwf Hi Hf; cbn [fill length] in *.
  - exists p. split_and!; try done. rewrite app_nil_r, take_ge; [done|].
    rewrite length_values. lia.
  - destruct (Hf v ltac:(set_solver)) as [-> Hg]. mstep.
    pose proof (set_total p i (g v) Hwf ltac:(apply Hg)) as Hs.
    destruct (Packed.set p i (g v)) as [[old p']|e| |]; [|exfalso|done|done].
    2: { destruct Hs as [[_ Hs]|(_&_&Hs)]; [lia|done]. }
    destruct Hs as (Hlt&_&Hold&Hwf'&Hv'&Hb&Hl&Hc). mstep.
    destruct (IH p' (S i) Hwf') as (p2&->&Hwf2&Hv2&Hb2&Hl2&Hc2); [lia| |].
    { intros w Hw. rewrite Hb. apply Hf. set_solver. }
    exists p2. split_and!; try congruence.
    rewrite Hv2, Hv', (take_S_r _ _ (g v)).
    + rewrite take_insert_ge by lia. cbn. by rewrite <- (assoc_L (++)).
    + apply list_lookup_insert_eq. by rewrite length_values.
Qed.

Lemma scan_input_spec r s d input :
  Forall (λ v, 0 ≤ v) input → NoDup d → stands_for s d →
  (Forall (valid r) input ∧
     ∃ s', scan_input r s input = Ok s' ∧ stands_for s' (fold_left add_new input d)) ∨
  (∃ v, v ∈ input ∧ ¬ valid r v ∧ scan_input r s input = Err (ValueOutOfRange v)).
Proof.
  intros Hpos. revert s d. induction Hpos as [|v input Hv Hpos IH]; intros s d Hd Hs; cbn [scan_input].
  - left. split; [constructor|]. by exists s.
  - destruct (validate_cases r v Hv) as [[-> Hval]|[-> Hval]]; mstep.
    2: { right. exists v. split_and!; [set_solver|done|done]. }
    destruct (ps_insert_spec s d v Hd Hs) as (s'&->&Hs'). unfold lift. mstep.
    destruct (IH s' (add_new d v)) as [[Hall (s2&->&Hs2)]|(w&Hw&Hn&->)];
      [by apply (fold_add_new_nodup [v])|done| |].
    + left. split; [by constructor|]. by exists s2.
    + right. exists w. split_and!; [set_solver|done|done].
Qed.

Lemma stands_for_new : stands_for ps_new [].
Proof. apply stands_small; [cbn; lia|apply ps_inv_new|done|done]. Qed.

(** The registry's width holds every valid ID. *)
Lemma bit_len_spec z : 0 ≤ z → z < 2 ^ bit_len z.
Proof.
  intros. unfold bit_len. destruct (Z.leb_spec z 0); [lia|].
  pose proof (Z.log2_spec z ltac:(lia)). rewrite Z.add_1_r. lia.
Qed.
Lemma bit_len_nonneg z : 0 ≤ bit_len z.
Proof. unfold bit_len. case_match; [lia|]. pose proof (Z.log2_nonneg z). lia. Qed.
Lemma bit_len_le z n : 0 ≤ n → z < 2 ^ n → bit_len z ≤ n.
Proof.
  intros Hn Hz. unfold bit_len. destruct (Z.leb_spec z 0); [lia|].
  pose proof (proj1 (Z.log2_lt_pow2 z n ltac:(lia))). lia.
Qed.
Lemma bit_len_gt z n : 0 ≤ n → 2 ^ n ≤ z → n < bit_len z.
Proof.
  intros Hn Hz. unfold bit_len. pose proof (pow2_pos n Hn). destruct (Z.leb_spec z 0); [lia|].
  pose proof (proj1 (Z.log2_le_pow2 z n ltac:(lia))). lia.
Qed.

Lemma registry_bits_bound r : registry_ok r → (registry_bits r ≤ 31)%nat.
Proof.
  unfold registry_ok, registry_bits. intros [H0 H1].
  pose proof (bit_len_le (state_count r - 1) 31). pose proof (bit_len_nonneg (state_count r - 1)). lia.
Qed.
Lemma registry_bits_pos r : 2 ≤ state_count r → (1 ≤ registry_bits r)%nat.
Proof. intros. unfold registry_bits. pose proof (bit_len_gt (state_count r - 1) 0). lia. Qed.
Lemma registry_bits_valid r v : valid r v → in_u (Z.of_nat (registry_bits r)) v.
Proof.
  intros [Hv0 Hv1]. split; [done|]. unfold registry_bits.
  rewrite Z2Nat.id by apply bit_len_nonneg. pose proof (bit_len_spec (state_count r - 1)). lia.
Qed.

(** Distinct valid IDs are at most as many as the registry has states. *)
Lemma distinct_le_states r input :
  Forall (valid r) input → 0 ≤ state_count r → zlen (distinct input) ≤ state_count r.
Proof.
  intros Hall Hr. assert (length (distinct input) ≤ length (seqZ 0 (state_count r)))%nat as Hle.
  { apply submseteq_length, NoDup_submseteq; [apply distinct_nodup|]. intros x Hx.
    rewrite elem_of_distinct in Hx. rewrite Forall_forall in Hall. apply elem_of_seqZ.
    destruct (Hall x Hx). lia. }
  rewrite length_seqZ in Hle. unfold zlen. lia.
Qed.

(** The width asked for: the forced one, or what the distinct values need. *)
Definition wanted_bits (forced : option nat) (d : nat) : nat :=
  match forced with
  | Some b => b
  | None => if (d =? 1)%nat then 0%nat else Z.to_nat (bit_len (Z.of_nat d - 1))
  end.

(** A forced width is never zero, and an indirect one has room for the palette. *)
Definition forced_ok (k : ContainerKind) (r : Registry) (forced : option nat) (d : nat) : Prop :=
  match forced with
  | None => True
  | Some b => (min_bits k ≤ b)%nat ∧ ((b ≤ max_bits k)%nat → Z.of_nat d ≤ 2 ^ Z.of_nat b) ∧
      ((max_bits k < b)%nat → 2 ≤ state_count r)
  end.

(** Which representation [build] picks. *)
Definition shape_ok (k : ContainerKind) (forced : option nat) (d : list Z) (s : Storage) : Prop :=
  let wanted := wanted_bits forced (length d) in
  match s with
  | Single _ => wanted = 0%nat
  | Indirect palette _ p =>
      palette = d ∧ (1 ≤ wanted ≤ max_bits k)%nat ∧ Packed.bits p = Nat.max wanted (min_bits k)
  | Direct _ => (max_bits k < wanted)%nat
  end.

Lemma kind_bits k : (1 ≤ min_bits k ≤ max_bits k)%nat ∧ (max_bits k ≤ 8)%nat.
Proof. destruct k; cbn; lia. Qed.

Lemma normalized_indirect k n r :
  (1 ≤ n ≤ max_bits k)%nat → normalized_bits k n r = Nat.max n (min_bits k).
Proof.
  intros Hn. unfold normalized_bits. destruct (Nat.eqb_spec n 0); [lia|].
  by destruct (Nat.leb_spec n (max_bits k)); [|lia].
Qed.
Lemma normalized_direct k n r : (max_bits k < n)%nat → normalized_bits k n r = registry_bits r.
Proof.
  intros Hn. unfold normalized_bits. destruct (Nat.eqb_spec n 0); [lia|].
  by destruct (Nat.leb_spec n (max_bits k)); [lia|].
Qed.

Lemma wanted_zero forced k r d :
  forced_ok k r forced d → wanted_bits forced d = 0%nat ↔ forced = None ∧ (d ≤ 1)%nat.
Proof.
  pose proof (kind_bits k). unfold forced_ok, wanted_bits. destruct forced as [b|]; intros Hf.
  - split; [lia|naive_solver].
  - destruct (Nat.eqb_spec d 1); [naive_solver lia|]. pose proof (bit_len_nonneg (Z.of_nat d - 1)).
    destruct (decide (d = 0)%nat) as [->|]; [split; [split; [done|lia]|done]|].
    pose proof (bit_len_gt (Z.of_nat d - 1) 0). naive_solver lia.
Qed.

Lemma distinct_nonempty (l : list Z) : l ≠ [] → (1 ≤ length (distinct l))%nat.
Proof.
  destruct l as [|x l]; [done|]. intros _. destruct (distinct (x :: l)) eqn:E; [|cbn; lia].
  exfalso. assert (x ∈ distinct (x :: l)) as Hx by (apply elem_of_distinct; set_solver).
  rewrite E in Hx. by apply elem_of_nil in Hx.
Qed.

Lemma distinct_one l v :
  length (distinct l) = 1%nat → l !! 0%nat = Some v → l = replicate (length l) v.
Proof.
  intros Hd Hv. destruct (distinct l) as [|a [|]] eqn:E; [done| |done].
  symmetry. apply replicate_as_Forall. split; [done|]. apply Forall_forall. intros x Hx.
  assert (∀ y, y ∈ l → y = a) as Ha.
  { intros y Hy. rewrite <- elem_of_distinct, E in Hy. set_solver. }
  rewrite (Ha x Hx). apply Ha. by apply list_elem_of_lookup_2 in Hv.
Qed.

(** The number of distinct values the scratch counts, capped at 257, asks for
    the same representation as the real number. *)
Lemma wanted_capped k forced d :
  let w := wanted_bits forced (Nat.min d 257) in let w' := wanted_bits forced d in
  w = w' ∨ (max_bits k < w)%nat ∧ (max_bits k < w')%nat.
Proof.
  cbn. destruct forced as [b|]; [by left|]. destruct (decide (d ≤ 257)%nat) as [Hle|Hgt].
  { left. by rewrite Nat.min_l by done. }
  right. rewrite Nat.min_r by lia. pose proof (kind_bits k). unfold wanted_bits.
  destruct (Nat.eqb_spec d 1); [lia|]. pose proof (bit_len_gt (Z.of_nat d - 1) 8).
  change (if (257 =? 1)%nat then 0%nat else _) with 9%nat. lia.
Qed.

Lemma stands_for_len s d : stands_for s d → plen s = Nat.min (length d) 257.
Proof. unfold stands_for. case_decide; [intros (?&?&?)|intros ->]; lia. Qed.

Lemma words_for_ok b k :
  (1 ≤ b ≤ 31)%nat → words_for b (kind_len k) = Ok (div_ceil (Z.of_nat (kind_len k)) (64 `div` Z.of_nat b)).
Proof. intros. unfold words_for. by destruct (Nat.eqb_spec b 0); [lia|]. Qed.

Lemma palette_key_spec s d v :
  (length d ≤ 256)%nat → stands_for s d → v ∈ d →
  ∃ i, palette_key s v = Ok (Z.of_nat i) ∧ d !! i = Some v.
Proof.
  intros Hd Hs Hv. unfold stands_for in Hs. rewrite decide_True in Hs by done.
  destruct Hs as (Hi&Hpl&Htake). destruct (ps_find_spec s v Hi) as (r&Hf&Hr).
  rewrite Htake in Hr. apply list_elem_of_lookup in Hv as [i Hv]. exists i. split; [|done].
  unfold palette_key, lift. apply Hr in Hv as ->. by rewrite Hf.
Qed.

Section build.
Context `{Allocator} (k : ContainerKind) (r : Registry) (input : list Z) (forced : option nat).
Context (limit : Z).
Hypothesis Hreg : registry_ok r.
Hypothesis Hpos : Forall (λ v, 0 ≤ v) input.
Hypothesis Hlimit : 0 ≤ limit.
Hypothesis Hforced : forced_ok k r forced (length (distinct input)).

(** What [build] promises for the container it returns. *)
Definition built (c : PalettedContainer) : Prop :=
  inv c ∧ kind c = k ∧ registry c = r ∧ contents c = input ∧ heap_bytes c ≤ limit ∧
  shape_ok k forced (distinct input) (storage c).

Let d := distinct input.
Let want := wanted_bits forced (length d).

Lemma build_single v :
  length input = kind_len k → Forall (valid r) input → want = 0%nat → input !! 0%nat = Some v →
  ∃ c, single k r v = Ok c ∧ built c.
Proof using Hreg Hpos Hlimit Hforced.
  intros Hl Hv Hw H0. pose proof (wanted_zero _ _ _ _ Hforced) as [Hz _].
  destruct (Hz Hw) as [Hf Hd]. pose proof (kind_len_dims k).
  assert (Hne : input ≠ []) by (intros E; rewrite E in Hl; cbn in Hl; lia).
  pose proof (distinct_nonempty input Hne).
  assert (Hvv : valid r v) by (rewrite Forall_lookup in Hv; by eapply Hv).
  unfold single. rewrite (proj2 (validate_ok r v ltac:(apply Hvv)) Hvv). mstep.
  eexists. split; [done|]. split_and!; cbn; try done.
  rewrite <- Hl. symmetry. by apply distinct_one; [lia|].
Qed.

Lemma build_direct p :
  Forall (valid r) input → length input = kind_len k → (max_bits k < want)%nat →
  wf p → Packed.bits p = registry_bits r → len p = kind_len k → Packed.heap_bytes p ≤ limit →
  ∃ p', fill Ok p 0 input = Ok p' ∧
    built {| kind := k; registry := r; storage := Direct p' |}.
Proof using Hreg Hpos Hlimit Hforced.
  intros Hv Hl Hw Hwf Hb Hlen Hheap.
  destruct (fill_spec Ok id p 0 input Hwf) as (p'&->&Hwf'&Hvals&Hb'&Hl'&Hc'); [lia| |].
  { intros v Hin. split; [done|]. rewrite Hb. apply registry_bits_valid.
    rewrite Forall_forall in Hv. by apply Hv. }
  exists p'. split; [done|]. rewrite take_0, list_fmap_id in Hvals. cbn in Hvals.
  split_and!; try done; cbn.
  - split; cbn; [done|]. split; rewrite ?Hvals; [done|congruence|congruence|done].
  - unfold Packed.heap_bytes in *. by rewrite Hc'.
Qed.

Lemma build_indirect s p cp :
  Forall (valid r) input → length input = kind_len k → (1 ≤ want ≤ max_bits k)%nat →
  stands_for s d →
  wf p → Packed.bits p = Nat.max want (min_bits k) → len p = kind_len k →
  2 ^ Z.of_nat (Packed.bits p) ≤ cp → cp * 4 + Packed.heap_bytes p ≤ limit →
  ∃ p', fill (palette_key s) p 0 input = Ok p' ∧ take (plen s) (ids s) = d ∧
    (plen s ≤ length (ids s))%nat ∧
    built {| kind := k; registry := r; storage := Indirect d cp p' |}.
Proof using Hreg Hpos Hlimit Hforced.
  intros Hv Hl Hw Hs Hwf Hb Hlen Hcap Hheap. pose proof (kind_bits k) as Hkb.
  pose proof (kind_len_dims k).
  assert (Hne : input ≠ []) by (intros E; rewrite E in Hl; cbn in Hl; lia).
  pose proof (distinct_nonempty input Hne) as Hd1. fold d in Hd1.
  assert (Hdle : Z.of_nat (length d) ≤ 2 ^ Z.of_nat want).
  { unfold want, wanted_bits in Hw |- *. unfold forced_ok in Hforced. fold d in Hforced.
    destruct forced as [b|]; [apply Hforced; lia|].
    destruct (Nat.eqb_spec (length d) 1); [lia|].
    rewrite Z2Nat.id by apply bit_len_nonneg. pose proof (bit_len_spec (Z.of_nat (length d) - 1)). lia. }
  assert (Hd2 : Z.of_nat (length d) ≤ 2 ^ Z.of_nat (Packed.bits p)).
  { etrans; [exact Hdle|]. apply pow2_le. lia. }
  assert (Hd3 : (length d ≤ 256)%nat).
  { pose proof (pow2_le (Z.of_nat (Packed.bits p)) 8). change (2 ^ 8) with 256 in *. lia. }
  set (g := λ v, default 0 (Z.of_nat <$> palette_position d v)).
  assert (Hkey : ∀ v, v ∈ input → palette_key s v = Ok (g v) ∧ d !! Z.to_nat (g v) = Some v
                   ∧ 0 ≤ g v < zlen d).
  { intros v Hin. apply elem_of_distinct in Hin.
    destruct (palette_key_spec s d v Hd3 Hs Hin) as (i&->&Hi).
    assert (g v = Z.of_nat i) as ->.
    { unfold g, palette_position.
      destruct (list_find (λ entry, entry = v) d) as [[j w]|] eqn:Ef; cbn.
      - apply list_find_Some in Ef as (Hj&->&_). f_equal.
        by eapply NoDup_lookup; [apply distinct_nodup|exact Hj|].
      - apply list_find_None in Ef. rewrite Forall_forall in Ef. by destruct (Ef v Hin). }
    rewrite Nat2Z.id. split_and!; [done|done|lia|]. unfold zlen. apply lookup_lt_Some in Hi. lia. }
  destruct (fill_spec (palette_key s) g p 0 input Hwf) as (p'&->&Hwf'&Hvals&Hb'&Hl'&Hc'); [lia| |].
  { intros v Hin. destruct (Hkey v Hin) as (->&_&Hr). split; [done|]. unfold zlen in Hr. split; lia. }
  unfold stands_for in Hs. rewrite decide_True in Hs by done. destruct Hs as (Hi&Hpl&Htake).
  pose proof (inv_ids s Hi).
  exists p'. rewrite take_0 in Hvals. cbn [app] in Hvals. split_and!; [done|done|lia|]. unfold built. split_and!.
  - split; [done|]. cbn. split; rewrite ?Hb', ?Hb; try done; try congruence.
    + lia.
    + unfold zlen. rewrite <- Hb. lia.
    + rewrite Forall_forall in Hv |- *. intros x Hx. apply Hv. by rewrite <- elem_of_distinct.
    + rewrite Hvals. apply Forall_fmap, Forall_forall. intros v Hin. cbn. by apply Hkey.
  - done.
  - done.
  - cbn. rewrite Hvals. rewrite <- list_fmap_compose. rewrite <- (list_fmap_id input) at 2.
    apply list_fmap_ext. intros i v Hin%list_elem_of_lookup_2. cbn.
    destruct (Hkey v Hin) as (_&Hlk&_). by rewrite nth_lookup, Hlk.
  - cbn. unfold Packed.heap_bytes in *. rewrite Hc'. lia.
  - cbn. split_and!; [done|fold d; lia..|]. by rewrite Hb'.
Qed.
End build.

(** No container needs more: 2048 words, or 512 words and 256 palette IDs. *)
Definition MAX_HEAP_BYTES : Z := 2048 * 8 + 256 * 4.

(** The outcomes of [build]: a container for exactly the input, or the first
    applicable error; it neither panics nor loops. *)
Definition build_result `{Allocator} (k : ContainerKind) (r : Registry) (input : list Z)
    (forced : option nat) (limit : Z) (m : outcome Error PalettedContainer) : Prop :=
  match m with
  | Ok c => length input = kind_len k ∧ built k r input forced limit c
  | Err e =>
      (e = InvalidLength (Z.of_nat (kind_len k)) (zlen input) ∧ length input ≠ kind_len k) ∨
      (length input = kind_len k ∧ ∃ v, v ∈ input ∧ ¬ valid r v ∧ e = ValueOutOfRange v) ∨
      (length input = kind_len k ∧ Forall (valid r) input ∧
        (e = AllocationBudgetExceeded ∨ e = AllocationFailed) ∧
        (exact_memory → limit < MAX_HEAP_BYTES))
  | Panic | NoFuel => False
  end.

Lemma words_le_len p : wf p → (length (words p) ≤ len p)%nat.
Proof.
  intros [[Hb Hl] Hc _]. rewrite Hc, count_eq by done. pose proof (per_word_bounds _ Hb).
  apply Nat.lt_succ_r, Nat.Div0.div_lt_upper_bound. nia.
Qed.

Lemma words_max b n : dims_ok b n → Z.of_nat (Z.to_nat (div_ceil (Z.of_nat n) (64 `div` Z.of_nat b))) ≤ 2048.
Proof.
  intros [Hb Hn]. rewrite count_eq by done. pose proof (per_word_bounds b Hb) as [? _].
  unfold MAX_LEN in Hn. pose proof (Nat.div_mod_eq (n + per_word b - 1) (per_word b)). nia.
Qed.

Lemma build_spec `{Allocator} k r input forced limit :
  registry_ok r → Forall (λ v, 0 ≤ v) input → 0 ≤ limit →
  forced_ok k r forced (length (distinct input)) →
  build_result k r input forced limit (build k r input forced limit).
Proof.
  intros Hreg Hpos Hlimit Hforced. unfold build.
  destruct (Nat.eqb_spec (length input) (kind_len k)) as [Hl|Hl]; mstep; [|by left].
  destruct (scan_input_spec r ps_new [] input Hpos ltac:(constructor) stands_for_new)
    as [(Hv&s&->&Hs)|(v&Hv&Hnv&->)]; mstep.
  2: { right; left. split; [done|]. by exists v. }
  change (fold_left add_new input []) with (distinct input) in Hs.
  pose proof (stands_for_len s _ Hs) as Hpl.
  change (match forced with Some b => b | None => _ end) with (wanted_bits forced (plen s)).
  set (want := wanted_bits forced (length (distinct input))).
  pose proof (wanted_capped k forced (length (distinct input))) as Hcap.
  cbv zeta in Hcap. rewrite <- Hpl in Hcap. fold want in Hcap.
  pose proof (kind_len_dims k) as Hdims. pose proof (kind_bits k) as Hkb.
  destruct (lookup_lt_ok input 0) as [v0 Hv0]; [lia|].
  assert (Hnorm : normalized_bits k (wanted_bits forced (plen s)) r = normalized_bits k want r).
  { destruct Hcap as [->|[??]]; [done|]. by rewrite !normalized_direct. }
  destruct (Nat.eqb_spec (wanted_bits forced (plen s)) 0) as [Hz|Hz].
  { rewrite Hv0. mstep.
    destruct (build_single k r input forced limit Hreg Hpos Hlimit Hforced v0)
      as (c&->&Hc); try done. fold want. lia. }
  rewrite Hnorm.
  assert (Hdir : (max_bits k <? wanted_bits forced (plen s))%nat = (max_bits k <? want)%nat).
  { destruct (Nat.ltb_spec (max_bits k) (wanted_bits forced (plen s))),
      (Nat.ltb_spec (max_bits k) want); done || lia. }
  rewrite Hdir. clear Hnorm Hdir. assert (Hz' : want ≠ 0%nat) by lia. clear Hcap Hz.
  assert (Hbits : (1 ≤ normalized_bits k want r ≤ 31)%nat).
  { unfold normalized_bits. destruct (Nat.eqb_spec want 0); [done|].
    destruct (Nat.leb_spec want (max_bits k)); [lia|].
    split; [|by apply registry_bits_bound]. apply registry_bits_pos.
    unfold want, wanted_bits in *. unfold forced_ok in Hforced. destruct forced as [b|]; [by apply Hforced|].
    pose proof (distinct_le_states r input Hv). unfold zlen, registry_ok in *.
    destruct (Nat.eqb_spec (length (distinct input)) 1); [done|].
    assert (input ≠ []) as Hne by (intros ->; cbn in Hl; lia).
    pose proof (distinct_nonempty input Hne). lia. }
  rewrite words_for_ok by done. mstep.
  set (count := div_ceil _ _).
  assert (Hcount : count = Z.of_nat (Z.to_nat count) ∧ count ≤ 2048).
  { pose proof (words_max _ _ (conj Hbits Hdims)) as Hmax. fold count in Hmax.
    pose proof (div_ceil_nonneg (kind_len k) (normalized_bits k want r) Hbits). fold count in H0. lia. }
  assert (Hpal : (if (max_bits k <? want)%nat then 0
     else Z.shiftl 1 (Z.of_nat (normalized_bits k want r)) * 4) ≤ 1024).
  { destruct (Nat.ltb_spec (max_bits k) want); [lia|]. rewrite Z.shiftl_1_l.
    pose proof (pow2_le (Z.of_nat (normalized_bits k want r)) 8) as H8. change (2 ^ 8) with 256 in H8.
    unfold normalized_bits in *. destruct (Nat.eqb_spec want 0); [done|].
    destruct (Nat.leb_spec want (max_bits k)); lia. }
  destruct (Z.leb_spec ((if (max_bits k <? want)%nat then 0
     else Z.shiftl 1 (Z.of_nat (normalized_bits k want r)) * 4) +
     count * 8) limit)
    as [Hbud|Hbud]; mstep; [|right; right; unfold MAX_HEAP_BYTES; split_and!; [done|done|tauto|lia]].
  match goal with |- context [Packed.new ?b ?n ?l] =>
    destruct (new_cases b n l ltac:(done)) as [(p&->&Hwf&Hb&Hlen&_&Hwl&[_ Hheap]&Hexact)|[[->| ->] Hexact]] end;
    mstep; [|right; right; unfold MAX_HEAP_BYTES; split_and!; [done|done|tauto|];
      intros He; specialize (Hexact He); fold count in Hexact; lia..].
  destruct (Nat.ltb_spec (max_bits k) want) as [Hd|Hd].
  - destruct (build_direct k r input forced limit Hreg Hpos Hlimit Hforced p)
      as (p'&->&Hc); try done.
    + by rewrite Hb, normalized_direct.
    + lia.
  - destruct (reserve_exact 4 _) as [cp|] eqn:Hres; mstep.
    2: { right; right. split_and!; [done|done|tauto|]. intros He. by rewrite He in Hres. }
    pose proof (reserve_exact_ge _ _ _ Hres) as Hge. rewrite Z.shiftl_1_l in Hge.
    destruct (Z.leb_spec (cp * 4 + Packed.heap_bytes p) limit) as [Hbud2|Hbud2]; mstep.
    2: { right; right. split_and!; [done|done|tauto|]. intros He.
      rewrite He in Hres. injection Hres as <-. specialize (Hexact He). unfold Packed.heap_bytes in Hbud2.
      fold count in Hexact. unfold MAX_HEAP_BYTES. lia. }
    destruct (build_indirect k r input forced limit Hreg Hpos Hlimit Hforced s p cp)
      as (p'&Hfill&Htake&Hle&Hc); try done.
    + fold want. lia.
    + rewrite Hb, normalized_indirect by lia. done.
    + by rewrite Hb.
    + destruct (Nat.leb_spec (plen s) (length (ids s))); [|lia]. mstep.
      rewrite Hfill, Htake. mstep. by split.
Qed.

(** ** Mutation *)

(** [c'] is [c] with entry [i], which was [old], replaced by [v]. *)
Definition updated (c : PalettedContainer) (i : nat) (v old : Z) (c' : PalettedContainer) : Prop :=
  contents c !! i = Some old ∧ inv c' ∧ contents c' = <[i := v]> (contents c) ∧
  kind c' = kind c ∧ registry c' = registry c.

(** Storing a key of a palette that may just have grown at its end. *)
Lemma store_indirect k r palette ext cp p i key v :
  indirect_ok k r palette cp p → (i < kind_len k)%nat →
  (palette ++ ext) !! key = Some v → Forall (valid r) ext →
  zlen (palette ++ ext) ≤ 2 ^ Z.of_nat (Packed.bits p) →
  ∃ old p', Packed.set p i (Z.of_nat key) = Ok (old, p') ∧
    Packed.heap_bytes p' = Packed.heap_bytes p ∧
    indirect_ok k r (palette ++ ext) cp p' ∧
    ((λ key, nth (Z.to_nat key) (palette ++ ext) 0) <$> Packed.values p')
    = <[i := v]> ((λ key, nth (Z.to_nat key) palette 0) <$> Packed.values p).
Proof.
  intros [Hwf Hl Hb Hp Hc Hv Hk] Hi Hkey Hext Hroom.
  pose proof (set_total p i (Z.of_nat key) Hwf ltac:(lia)) as Hs.
  pose proof (lookup_lt_Some _ _ _ Hkey) as Hkl. unfold zlen in *.
  assert (Hu : in_u (Z.of_nat (Packed.bits p)) (Z.of_nat key)) by (split; lia).
  destruct (Packed.set p i (Z.of_nat key)) as [[old p']|e| |]; [|exfalso|done|done].
  2: { destruct Hs as [[_ ?]|(_&_&?)]; [lia|done]. }
  destruct Hs as (_&_&_&Hwf'&Hvals&Hb'&Hl'&Hc'). exists old, p'. split_and!; [done| | |].
  - unfold Packed.heap_bytes. by rewrite Hc'.
  - rewrite length_app in *. split; rewrite ?Hb'; try done; try lia; try congruence.
    + unfold zlen. rewrite length_app. lia.
    + by apply Forall_app.
    + rewrite Hvals. apply Forall_insert.
      * eapply Forall_impl; [exact Hk|]. cbn. unfold zlen. rewrite length_app. lia.
      * unfold zlen. rewrite length_app. lia.
  - rewrite Hvals, list_fmap_insert. f_equal; [rewrite Nat2Z.id, nth_lookup; by rewrite Hkey|].
    apply list_fmap_ext. intros j x Hx. cbn. rewrite Forall_lookup in Hk.
    specialize (Hk j x Hx). cbn in Hk. pose proof (values_range p j x Hwf Hx) as [??].
    rewrite app_nth1 by lia. done.
Qed.

Lemma store_direct k r p i v :
  registry_ok r → direct_ok k r p → (i < kind_len k)%nat → valid r v →
  ∃ old p', Packed.set p i v = Ok (old, p') ∧ Packed.heap_bytes p' = Packed.heap_bytes p ∧
    direct_ok k r p' ∧ Packed.values p' = <[i := v]> (Packed.values p).
Proof.
  intros Hreg [Hwf Hl Hb Hv] Hi Hvv.
  pose proof (set_total p i v Hwf ltac:(apply Hvv)) as Hs.
  pose proof (registry_bits_valid r v Hvv) as Hu. rewrite <- Hb in Hu.
  destruct (Packed.set p i v) as [[old p']|e| |]; [|exfalso|done|done].
  2: { destruct Hs as [[_ ?]|(_&_&?)]; [lia|done]. }
  destruct Hs as (_&_&_&Hwf'&Hvals&Hb'&Hl'&Hc'). exists old, p'. split_and!; [done| | |done].
  - unfold Packed.heap_bytes. by rewrite Hc'.
  - split; try done; try congruence. rewrite Hvals. by apply Forall_insert.
Qed.

Lemma palette_position_Some palette v key :
  palette_position palette v = Some key → palette !! key = Some v.
Proof.
  unfold palette_position. destruct (list_find _ palette) as [[j w]|] eqn:Ef; cbn; [|done].
  intros [= <-]. by apply list_find_Some in Ef as (Hj&->&_).
Qed.
Lemma palette_position_None palette v : palette_position palette v = None → v ∉ palette.
Proof.
  unfold palette_position. destruct (list_find _ palette) as [[j w]|] eqn:Ef; cbn; [done|].
  intros _ Hin. apply list_find_None in Ef. rewrite Forall_forall in Ef. by apply (Ef v Hin).
Qed.

(** Whether [set] stores in place. *)
Definition has_room (c : PalettedContainer) (v : Z) : Prop :=
  match storage c with
  | Single current => current = v
  | Indirect palette _ p => v ∈ palette ∨ zlen palette < 2 ^ Z.of_nat (Packed.bits p)
  | Direct _ => True
  end.
#[global] Instance has_room_dec c v : Decision (has_room c v).
Proof. unfold has_room. destruct (storage c); apply _. Defined.

Section set.
Context `{Allocator}.

Lemma set_in_place fuel c i v limit :
  inv c → valid (registry c) v → (i < kind_len (kind c))%nat → has_room c v →
  ∃ old c', set_fuel (S fuel) c i v limit = Ok (old, c') ∧ updated c i v old c' ∧
    heap_bytes c' = heap_bytes c.
Proof using Type.
  intros Hinv Hv Hi Hroom. pose proof Hinv as [Hreg Hs].
  pose proof (length_contents c Hinv) as Hlc.
  destruct (lookup_lt_ok (contents c) i) as [old Hold]; [lia|].
  cbn [set_fuel]. rewrite (proj2 (validate_ok _ v ltac:(apply Hv)) Hv). mstep.
  rewrite container_get_spec, Hold by done. mstep. unfold updated. unfold has_room in Hroom.
  destruct c as [k r s]. cbn [kind registry storage] in *.
  destruct s as [cur|palette cp p|p]; cbn [storage].
  - subst cur. rewrite Z.eqb_refl. eexists _, _. split; [done|]. split_and!; try done.
    symmetry. apply list_insert_id. unfold contents in Hold |- *. cbn in *.
    apply lookup_replicate in Hold as [-> ?]. by apply lookup_replicate.
  - destruct (palette_position palette v) as [key|] eqn:Ep.
    + apply palette_position_Some in Ep.
      destruct (store_indirect k r palette [] cp p i key v) as (o&p'&->&Hh&Hok&Hc); rewrite ?app_nil_r; try done.
      { apply Hs. }
      rewrite app_nil_r in Hok, Hc. mstep. eexists _, _. split; [done|]. split_and!; try done.
      unfold heap_bytes. cbn. by rewrite Hh.
    + apply palette_position_None in Ep. destruct Hroom as [Hroom|Hroom]; [done|].
      rewrite Z.shiftl_1_l. destruct (Z.ltb_spec (zlen palette) (2 ^ Z.of_nat (Packed.bits p))); [|lia].
      destruct (store_indirect k r palette [v] cp p i (length palette) v)
        as (o&p'&->&Hh&Hok&Hc); try done.
      { by rewrite list_lookup_middle. }
      { by constructor. }
      { unfold zlen in *. rewrite length_app. cbn. lia. }
      mstep. eexists _, _. split; [done|]. split_and!; try done.
      unfold heap_bytes. cbn. by rewrite Hh.
  - destruct (store_direct k r p i v Hreg Hs Hi Hv) as (o&p'&->&Hh&Hok&Hc).
    mstep. eexists _, _. split; [done|]. split_and!; try done.
Qed.

(** Without room, the rebuilt container has room and holds the same array. *)
Lemma rebuild_spec c v budget :
  inv c → valid (registry c) v → ¬ has_room c v → 0 ≤ budget →
  let next := Nat.max (bits c + 1) (min_bits (kind c)) in
  match build (kind c) (registry c) (contents c) (Some next) budget with
  | Ok c' => inv c' ∧ kind c' = kind c ∧ registry c' = registry c ∧ contents c' = contents c ∧
      heap_bytes c' ≤ budget ∧ has_room c' v
  | Err e => e = AllocationBudgetExceeded ∨ e = AllocationFailed
  | Panic | NoFuel => False
  end.
Proof.
  intros Hinv Hv Hroom Hbud next. pose proof Hinv as [Hreg Hs].
  pose proof (length_contents c Hinv) as Hl. pose proof (kind_bits (kind c)) as Hkb.
  pose proof (contents_valid c Hinv) as Hval.
  set (d := distinct (contents c)).
  (* the dense array has at most [2 ^ bits] distinct values *)
  assert (Hd : Z.of_nat (length d) ≤ 2 ^ Z.of_nat (bits c) ∨ ∃ p, storage c = Direct p).
  { unfold has_room in Hroom. unfold bits, d, contents. destruct (storage c) as [cur|palette cp p|p].
    - left. cbn. assert (length (distinct (replicate (kind_len (kind c)) cur)) ≤ length [cur])%nat; [|cbn in *; lia].
      apply submseteq_length, NoDup_submseteq; [apply distinct_nodup|].
      intros x Hx%distinct_incl%elem_of_replicate_inv. set_solver.
    - left. etrans; [|apply (io_palette _ _ _ _ _ Hs)]. unfold zlen. apply inj_le.
      apply submseteq_length, NoDup_submseteq; [apply distinct_nodup|].
      intros x Hx%distinct_incl. apply list_elem_of_fmap in Hx as (key&->&Hk).
      apply list_elem_of_lookup in Hk as [j Hj].
      eapply list_elem_of_lookup_2, (key_lookup palette p j); [apply Hs|apply Hs|done].
    - right. by exists p. }
  destruct Hd as [Hd|[p Hp]]; [|unfold has_room in Hroom; by rewrite Hp in Hroom].
  assert (Hnext : Z.of_nat (length d) < 2 ^ Z.of_nat next).
  { eapply Z.le_lt_trans; [exact Hd|]. apply Z.pow_lt_mono_r; lia. }
  (* two valid values differ, so the registry has at least two *)
  assert (Hsc : 2 ≤ state_count (registry c)).
  { assert (∃ w, valid (registry c) w ∧ w ≠ v) as (w&[??]&?); [|destruct Hv; lia].
    destruct (lookup_lt_ok (contents c) 0) as [w Hw]; [rewrite Hl; pose proof (kind_len_dims (kind c)); lia|].
    unfold has_room in Hroom. unfold contents in Hw, Hval.
    destruct (storage c) as [cur|palette cp p|p]; [| |done].
    - by exists cur.
    - assert (∃ w, palette !! 0%nat = Some w) as [w' Hw'].
      { apply lookup_lt_ok. pose proof (io_palette _ _ _ _ _ Hs). unfold zlen in *. lia. }
      exists w'. split; [|by intros ->; apply Hroom; left; apply list_elem_of_lookup_2 in Hw'].
      pose proof (io_valid _ _ _ _ _ Hs) as Hva. rewrite Forall_lookup in Hva. by eapply Hva. }
  pose proof (build_spec (kind c) (registry c) (contents c) (Some next) budget Hreg) as Hb.
  unfold build_result in Hb. specialize (Hb ltac:(eapply Forall_impl; [exact Hval|by intros ? [??]]) Hbud).
  specialize (Hb ltac:(cbn; fold d; lia)).
  destruct (build _ _ _ _ _) as [c'|e| |]; [| |done|done].
  - destruct Hb as (_&Hinv'&Hk&Hr&Hc&Hh&Hsh). split_and!; try done.
    unfold has_room, shape_ok in *. cbn in Hsh. destruct (storage c') as [cur|palette cp p|p]; [lia| |done].
    destruct Hsh as (->&_&Hbits). right. fold d. unfold zlen. rewrite Hbits.
    eapply Z.lt_le_trans; [exact Hnext|]. apply pow2_le. lia.
  - destruct Hb as [[_ ?]|[(_&w&Hw&Hnw&_)|(_&_&?&_)]]; [done| |done].
    rewrite Forall_forall in Hval. by destruct Hnw; apply Hval.
Qed.

Lemma set_fuel_spec c i v limit :
  inv c → 0 ≤ v →
  match set_fuel 2 c i v limit with
  | Ok (old, c') => valid (registry c) v ∧ updated c i v old c' ∧
      (has_room c v ∧ heap_bytes c' = heap_bytes c ∨
       ¬ has_room c v ∧ heap_bytes c + heap_bytes c' ≤ limit)
  | Err e => (e = ValueOutOfRange v ∧ ¬ valid (registry c) v) ∨
      (e = IndexOutOfBounds ∧ valid (registry c) v ∧ (kind_len (kind c) ≤ i)%nat) ∨
      ((e = AllocationBudgetExceeded ∨ e = AllocationFailed) ∧
       valid (registry c) v ∧ (i < kind_len (kind c))%nat ∧ ¬ has_room c v)
  | Panic | NoFuel => False
  end.
Proof.
  intros Hinv Hv0. pose proof (length_contents c Hinv) as Hlc.
  destruct (decide (valid (registry c) v)) as [Hv|Hv].
  2: { cbn [set_fuel]. destruct (validate_cases (registry c) v Hv0) as [[_ ?]|[-> _]]; [done|].
    mstep. by left. }
  destruct (decide (i < kind_len (kind c))%nat) as [Hi|Hi].
  2: { cbn [set_fuel]. rewrite (proj2 (validate_ok _ v Hv0) Hv). mstep.
    rewrite container_get_spec, lookup_ge_None_2 by (done || lia). mstep. right; left. by split_and!; [| |lia]. }
  destruct (decide (has_room c v)) as [Hr|Hr].
  { destruct (set_in_place 1 c i v limit Hinv Hv Hi Hr) as (old&c'&->&Hu&Hh). split_and!; tauto. }
  destruct (lookup_lt_ok (contents c) i) as [old Hold]; [lia|].
  assert (Hgrow : set_fuel 2 c i v limit =
    grow_and (λ c' budget, set_fuel 1 c' i v budget) c old limit).
  { cbn [set_fuel]. rewrite (proj2 (validate_ok _ v Hv0) Hv). mstep.
    rewrite container_get_spec, Hold by done. mstep. unfold has_room in Hr.
    destruct (storage c) as [cur|palette cp p|p]; [| |done].
    - by destruct (Z.eqb_spec cur v).
    - destruct (palette_position palette v) as [key|] eqn:Ep.
      { apply palette_position_Some, list_elem_of_lookup_2 in Ep. tauto. }
      rewrite Z.shiftl_1_l. destruct (Z.ltb_spec (zlen palette) (2 ^ Z.of_nat (Packed.bits p))); [tauto|done]. }
  rewrite Hgrow. unfold grow_and, checked_sub.
  destruct (Z.leb_spec (heap_bytes c) limit) as [Hbud|]; mstep; [|right; right; tauto].
  rewrite dense_from_all by done. mstep.
  pose proof (rebuild_spec c v (limit - heap_bytes c) Hinv Hv Hr ltac:(lia)) as Hb. cbv zeta in Hb.
  destruct (build _ _ _ _ _) as [c'|e| |]; mstep; [|right; right; tauto|done|done].
  destruct Hb as (Hinv'&Hk&Hreg'&Hc&Hh&Hroom').
  destruct (set_in_place 0 c' i v (limit - heap_bytes c) Hinv') as (old'&c2&->&Hu&Hh2);
    [by rewrite Hreg'|by rewrite Hk|done|]. mstep.
  destruct Hu as (Ho&Hi2&Hc2&Hk2&Hr2). split_and!; [done| |right; split; [done|lia]].
  split_and!; try done; congruence.
Qed.
End set.

(** ** Properties *)

(** Compaction: [from_dense] either builds a container that satisfies the
    invariant, reads back as exactly the input at every index (and
    [IndexOutOfBounds] beyond), stays within the allocation limit and uses the
    representation the number of distinct IDs asks for, with the palette in
    first-use order; or it reports a wrong length, an ID outside the registry,
    or lack of memory, each only when it applies: with 17408 bytes and an
    allocator that grants them it succeeds.  It never panics. *)
Theorem container_from_dense `{Allocator} k r input limit :
  registry_ok r → Forall (λ v, 0 ≤ v) input → 0 ≤ limit →
  match from_dense k r input limit with
  | Ok c => inv c ∧ kind c = k ∧ registry c = r ∧ heap_bytes c ≤ limit ∧
      shape_ok k None (distinct input) (storage c) ∧
      ∀ i, get c i = match input !! i with Some v => Ok v | None => Err IndexOutOfBounds end
  | Err e =>
      (e = InvalidLength (Z.of_nat (kind_len k)) (zlen input) ∧ length input ≠ kind_len k) ∨
      (length input = kind_len k ∧ ∃ v, v ∈ input ∧ ¬ valid r v ∧ e = ValueOutOfRange v) ∨
      (length input = kind_len k ∧ Forall (valid r) input ∧
        (e = AllocationBudgetExceeded ∨ e = AllocationFailed) ∧
        (exact_memory → limit < MAX_HEAP_BYTES))
  | Panic | NoFuel => False
  end.
Proof.
  intros Hreg Hpos Hlim. pose proof (build_spec k r input None limit Hreg Hpos Hlim I) as Hb.
  unfold from_dense, build_result in *. destruct (build k r input None limit) as [c| | |]; try done.
  destruct Hb as (_&Hinv&Hk&Hr&Hc&Hh&Hs). split_and!; try done.
  intros i. by rewrite container_get_spec, Hc.
Qed.

(** C15. [set] is an array update: on success the old entry is returned, the
    container stands for the array with that one entry replaced, the
    invariant holds, and old and new storage together fit the limit when the
    storage was rebuilt; storing in place (exactly when the value has room)
    changes no allocation and cannot fail.  It reports an invalid ID, an index
    out of range or lack of memory exactly as stated, never panics, and its
    recursion is at most two deep. *)
Theorem container_set_refines `{Allocator} c i v limit :
  inv c → 0 ≤ v →
  match set c i v limit with
  | Ok (old, c') => valid (registry c) v ∧ updated c i v old c' ∧
      (has_room c v ∧ heap_bytes c' = heap_bytes c ∨
       ¬ has_room c v ∧ heap_bytes c + heap_bytes c' ≤ limit)
  | Err e => (e = ValueOutOfRange v ∧ ¬ valid (registry c) v) ∨
      (e = IndexOutOfBounds ∧ valid (registry c) v ∧ (kind_len (kind c) ≤ i)%nat) ∨
      ((e = AllocationBudgetExceeded ∨ e = AllocationFailed) ∧
       valid (registry c) v ∧ (i < kind_len (kind c))%nat ∧ ¬ has_room c v)
  | Panic | NoFuel => False
  end.
Proof. apply set_fuel_spec. Qed.

(** [repack] keeps the array and the invariant, moves to the
    representation of [from_dense], and only fails for lack of memory. *)
Theorem container_repack_contents `{Allocator} c limit :
  inv c →
  match repack c limit with
  | Ok c' => inv c' ∧ contents c' = contents c ∧ kind c' = kind c ∧ registry c' = registry c ∧
      shape_ok (kind c) None (distinct (contents c)) (storage c') ∧
      heap_bytes c + heap_bytes c' ≤ limit
  | Err e => e = AllocationBudgetExceeded ∨ e = AllocationFailed
  | Panic | NoFuel => False
  end.
Proof.
  intros Hinv. pose proof (length_contents c Hinv) as Hl. unfold repack, checked_sub.
  destruct (Z.leb_spec (heap_bytes c) limit) as [Hle|]; mstep; [|by left].
  rewrite dense_from_all by done. mstep. pose proof (contents_valid c Hinv) as Hv.
  pose proof (build_spec (kind c) (registry c) (contents c) None (limit - heap_bytes c)
    (inv_registry c Hinv)) as Hb.
  specialize (Hb ltac:(eapply Forall_impl; [exact Hv|by intros ? [??]]) ltac:(lia) I).
  unfold from_dense, build_result in *. destruct (build _ _ _ _ _) as [c'|e| |]; try done.
  - destruct Hb as (_&Hi&Hk&Hr&Hc&Hh&Hs). split_and!; try done. lia.
  - destruct Hb as [[_ ?]|[(_&w&Hw&Hnw&_)|(_&_&?&_)]]; [done| |done].
    rewrite Forall_forall in Hv. by destruct Hnw; apply Hv.
Qed.

(** ** The properties at concrete containers *)

Definition five_biomes : Registry := {| state_count := 5 |}.
Definition two_halves : list Z := replicate 32 1 ++ replicate 32 4.

Lemma two_halves_pos : Forall (λ v, 0 ≤ v) two_halves.
Proof. unfold two_halves. apply Forall_app. split; by apply Forall_replicate. Qed.
Lemma five_biomes_ok : registry_ok five_biomes.
Proof. unfold registry_ok, five_biomes. cbn [state_count]. lia. Qed.

Lemma two_halves_container :
  ∃ c, from_dense Biomes five_biomes two_halves 1000 = Ok c ∧ inv c ∧ contents c = two_halves.
Proof.
  pose proof (build_spec Biomes five_biomes two_halves None 1000 five_biomes_ok two_halves_pos
    ltac:(lia) I) as Hb. unfold build_result, from_dense in *.
  destruct (build Biomes five_biomes two_halves None 1000) as [c|e| |] eqn:E; try (vm_compute in E; discriminate).
  exists c. destruct Hb as (_&?&?&?&?&_). split; [reflexivity|split; assumption].
Qed.

Lemma container_from_dense_witness :
  ∃ c, from_dense Biomes five_biomes two_halves 1000 = Ok c ∧ bits c = 1%nat ∧
    get c 40 = Ok 4 ∧ get c 64 = Err IndexOutOfBounds.
Proof.
  pose proof (container_from_dense Biomes five_biomes two_halves 1000 five_biomes_ok
    two_halves_pos ltac:(lia)) as Hb.
  destruct (from_dense Biomes five_biomes two_halves 1000) as [c|e| |] eqn:E; try (vm_compute in E; discriminate).
  exists c. destruct Hb as (_&_&_&_&Hs&Hg). split; [reflexivity|]. split; [|rewrite !Hg; split; reflexivity].
  vm_compute in E. by injection E as <-.
Defined.

Lemma container_set_refines_witness :
  ∃ c old c', from_dense Biomes five_biomes two_halves 1000 = Ok c ∧
    set c 63 3 1000 = Ok (old, c') ∧ contents c' = <[63%nat := 3]> two_halves ∧ bits c' = 2%nat.
Proof.
  destruct two_halves_container as (c&E&Hi&Hc).
  pose proof (container_set_refines c 63 3 1000 Hi ltac:(lia)) as Hs.
  vm_compute in E. injection E as <-.
  match type of Hs with match ?s with _ => _ end => destruct s as [[old c']|e| |] eqn:Es end;
    try (vm_compute in Es; discriminate).
  eexists _, old, c'. split; [vm_compute; reflexivity|]. split; [exact Es|].
  destruct Hs as (_&(_&_&Hu&_)&_). split; [rewrite Hu, Hc; reflexivity|].
  vm_compute in Es. by injection Es as <- <-.
Defined.

Lemma container_repack_contents_witness :
  ∃ c c', from_dense Biomes five_biomes two_halves 1000 = Ok c ∧ repack c 1000 = Ok c' ∧
    contents c' = two_halves.
Proof.
  destruct two_halves_container as (c&E&Hi&Hc).
  pose proof (container_repack_contents c 1000 Hi) as Hs.
  vm_compute in E. injection E as <-.
  match type of Hs with match ?s with _ => _ end => destruct s as [c'|e| |] eqn:Es end;
    try (vm_compute in Es; discriminate).
  eexists _, c'. split; [vm_compute; reflexivity|]. split; [exact Es|].
  destruct Hs as (_&Hu&_). rewrite Hu. exact Hc.
Defined.
