(* ===== verification/SectionNet.v ===== *)
(** * Section network payloads (src/world/section.rs, network half)

    The 26.3-pre-2 encoding of containers and sections.  An output [Vec<u8>]
    is its bytes with a capacity; an input slice [&mut &[u8]] is passed in and
    handed back, and on an error the caller keeps the original.  The reading
    and writing functions are followed by what they say about each other. *)

From S2P Require Import Prelude.
From S2P Require Import Wire.
From S2P Require Import Packed.
From S2P Require Import Palette.
From S2P Require Import Container.
Local Open Scope Z_scope.

Record Output := { data : list Z; capacity : Z }.

Definition spare (o : Output) : Z := capacity o - zlen (data o).
Definition extend (o : Output) (bytes : list Z) : Output :=
  {| data := data o ++ bytes; capacity := capacity o |}.

(** ** Writing *)

(** [write_varint(value as i32, &mut bytes).unwrap()] into five bytes. *)
Definition append_varint (o : Output) (value : Z) : outcome Error Output :=
  match write_varint (i_wrap 32 value) (replicate 5 0) with
  | (Ok length, bytes) => Ok (extend o (take (Z.to_nat length) bytes))
  | _ => Panic
  end.

Fixpoint append_ids (o : Output) (ids : list Z) : outcome Error Output :=
  match ids with
  | [] => Ok o
  | id :: rest => o' ← append_varint o id; append_ids o' rest
  end.

Fixpoint append_words (o : Output) (words : list Z) : Output :=
  match words with
  | [] => o
  | word :: rest => append_words (extend o (be_bytes 8 word)) rest
  end.

Definition network_len (c : PalettedContainer) : Z :=
  match storage c with
  | Single value => 1 + varint_len (i_wrap 32 value)
  | Indirect palette _ values =>
      1 + varint_len (i_wrap 32 (zlen palette))
        + fold_right Z.add 0 ((λ id, varint_len (i_wrap 32 id)) <$> palette)
        + zlen (words values) * 8
  | Direct values => 1 + zlen (words values) * 8
  end.

Definition write_network (c : PalettedContainer) (o : Output) : outcome Error Output :=
  _ ← ensure (negb (spare o <? network_len c)) OutputCapacity;
  let o := extend o [Z.of_nat (bits c)] in
  match storage c with
  | Single value => append_varint o value
  | Indirect palette _ values =>
      o ← append_varint o (u_wrap 32 (zlen palette));
      o ← append_ids o palette;
      Ok (append_words o (words values))
  | Direct values => Ok (append_words o (words values))
  end.

(** ** Reading *)

Definition take_bytes (input : list Z) (count : Z) : outcome Error (list Z * list Z) :=
  if zlen input <? count then Err Truncated
  else Ok (take (Z.to_nat count) input, drop (Z.to_nat count) input).

Definition read_int (input : list Z) : outcome Error (Z * list Z) :=
  '(value, count) ← map_err (λ e, match e with Incomplete => Truncated | TooLong => InvalidVarInt end)
                      (read_varint input);
  Ok (value, drop (Z.to_nat count) input).

Definition read_id (input : list Z) : outcome Error (Z * list Z) :=
  '(value, rest) ← read_int input;
  Ok (u_wrap 32 value, rest).

(** [for entry in &mut scratch[..count] { *entry = read_id()?; validate entry? }] *)
Fixpoint read_palette (r : Registry) (count : nat) (input : list Z)
    : outcome Error (list Z * list Z) :=
  match count with
  | O => Ok ([], input)
  | S n =>
      '(id, input) ← read_id input;
      _ ← validate r id;
      '(ids, input) ← read_palette r n input;
      Ok (id :: ids, input)
  end.

(** [u64::from_be_bytes(bytes[8 * k..][..8])] *)
Definition word_at (bytes : list Z) (k : nat) : outcome Error Z :=
  if (8 * k + 8 <=? length bytes)%nat then Ok (be_value (take 8 (drop (8 * k) bytes))) else Panic.

(** The validation loop over [index .. index + n]. *)
Fixpoint check_keys (r : Registry) (direct : bool) (palette_len : Z) (bits : nat)
    (bytes : list Z) (index n : nat) : outcome Error () :=
  match n with
  | O => Ok tt
  | S n' =>
      let per_word := (64 / bits)%nat in
      word ← word_at bytes (index / per_word);
      let key := u_wrap 32 (Z.land (Z.shiftr word (Z.of_nat (index mod per_word * bits)))
                              (Z.shiftl 1 (Z.of_nat bits) - 1)) in
      _ ← (if direct then validate r key
           else if palette_len <=? key then Err (InvalidPaletteIndex key) else Ok tt);
      check_keys r direct palette_len bits bytes (S index) n'
  end.

(** [for (index, bytes) in bytes.chunks_exact(8).enumerate()]: each word with
    its padding cleared.  A word past the array would underflow. *)
Fixpoint mask_words (bits len index : nat) (bytes : list Z) (n : nat) : outcome Error (list Z) :=
  match n with
  | O => Ok []
  | S n' =>
      let per_word := (64 / bits)%nat in
      _ ← assert_that (index * per_word <=? len)%nat;
      let entries := Nat.min per_word (len - index * per_word) in
      let used_bits := Z.of_nat (entries * bits) in
      let word_mask := Z.shiftr (2 ^ 64 - 1) (64 - used_bits) in
      rest ← mask_words bits len (S index) (drop 8 bytes) n';
      Ok (Z.land (be_value (take 8 bytes)) word_mask :: rest)
  end.

Section network.
Context `{Allocator}.

(** The part of [read_network] between the key check and the storage: the
    budget checks, the word vector and [Packed::from_words]. *)
Definition load_words (bits len : nat) (bytes : list Z) (count palette_bytes allocation_limit : Z)
    : outcome Error packed :=
  _ ← ensure (count * 8 + palette_bytes <=? allocation_limit) AllocationBudgetExceeded;
  cap ← ok_or (reserve_exact 8 count) AllocationFailed;
  _ ← ensure (cap * 8 + palette_bytes <=? allocation_limit) AllocationBudgetExceeded;
  words ← mask_words bits len 0 bytes (length bytes / 8);
  from_words bits len words cap.

(** The second half of [read_network], after the header and the palette. *)
Definition read_values (k : ContainerKind) (r : Registry) (bits : nat) (direct : bool)
    (scratch cursor : list Z) (allocation_limit : Z) : outcome Error (Storage * list Z) :=
  count ← words_for bits (kind_len k);
  '(bytes, cursor) ← take_bytes cursor (count * 8);
  _ ← check_keys r direct (zlen scratch) bits bytes 0 (kind_len k);
  let palette_bytes := if direct then 0 else Z.shiftl 1 (Z.of_nat bits) * 4 in
  values ← load_words bits (kind_len k) bytes count palette_bytes allocation_limit;
  s ← (if direct then Ok (Direct values)
       else
         pcap ← ok_or (reserve_exact 4 (Z.shiftl 1 (Z.of_nat bits))) AllocationFailed;
         _ ← ensure (pcap * 4 + Packed.heap_bytes values <=? allocation_limit)
               AllocationBudgetExceeded;
         Ok (Indirect scratch pcap values));
  Ok (s, cursor).

(** The palette of [read_network]; a direct container has none. *)
Definition read_scratch (r : Registry) (bits : nat) (direct : bool) (cursor : list Z)
    : outcome Error (list Z * list Z) :=
  if direct then Ok ([], cursor)
  else
    '(count, cursor) ← read_int cursor;
    _ ← ensure (negb ((count <? 1) || (Z.shiftl 1 (Z.of_nat bits) <? u_wrap 64 count)))
          (InvalidPaletteLength count);
    _ ← assert_that (count <=? 256);
    read_palette r (Z.to_nat count) cursor.

Definition read_network (input : list Z) (k : ContainerKind) (r : Registry)
    (allocation_limit : Z) : outcome Error (PalettedContainer * list Z) :=
  '(head, cursor) ← take_bytes input 1;
  header ← unwrap (head !! 0%nat);
  let bits := normalized_bits k (Z.to_nat header) r in
  if header =? 0 then
    '(value, cursor) ← read_id cursor;
    result ← single k r value;
    Ok (result, cursor)
  else
    _ ← ensure (negb (bits =? 0)%nat) (InvalidBits header);
    let direct := (max_bits k <? Z.to_nat header)%nat in
    '(scratch, cursor) ← read_scratch r bits direct cursor;
    '(s, cursor) ← read_values k r bits direct scratch cursor allocation_limit;
    Ok ({| kind := k; registry := r; storage := s |}, cursor).
End network.

(** ** Sections *)

Record SectionCounts := { non_empty_blocks : Z; fluid_blocks : Z }.

Definition validate_counts (c : SectionCounts) : outcome Error () :=
  if (Z.of_nat BLOCKS_PER_SECTION <? non_empty_blocks c) || (non_empty_blocks c <? fluid_blocks c)
  then Err InvalidCounts else Ok tt.

Record Section_ := { counts : SectionCounts; blocks : PalettedContainer; biomes : PalettedContainer }.

Definition append_counts (o : Output) (c : SectionCounts) : Output :=
  extend (extend o (be_bytes 2 (non_empty_blocks c))) (be_bytes 2 (fluid_blocks c)).

Definition kind_eqb (a b : ContainerKind) : bool :=
  match a, b with Blocks, Blocks | Biomes, Biomes => true | _, _ => false end.

Definition section_write (s : Section_) (o : Output) : outcome Error Output :=
  _ ← validate_counts (counts s);
  _ ← ensure (kind_eqb (kind (blocks s)) Blocks && kind_eqb (kind (biomes s)) Biomes)
        (InvalidLength (Z.of_nat BLOCKS_PER_SECTION) (Z.of_nat (kind_len (kind (blocks s)))));
  _ ← ensure (negb (spare o <? 4 + network_len (blocks s) + network_len (biomes s))) OutputCapacity;
  o ← write_network (blocks s) (append_counts o (counts s));
  write_network (biomes s) o.

Section sections.
Context `{Allocator}.

Definition section_read (input : list Z) (block_registry biome_registry : Registry)
    (allocation_limit : Z) : outcome Error (Section_ * list Z) :=
  '(bytes, cursor) ← take_bytes input 4;
  let counts := {| non_empty_blocks := be_value (take 2 bytes);
                   fluid_blocks := be_value (take 2 (drop 2 bytes)) |} in
  _ ← validate_counts counts;
  '(blocks, cursor) ← read_network cursor Blocks block_registry allocation_limit;
  remaining ← ok_or (checked_sub allocation_limit (heap_bytes blocks)) AllocationBudgetExceeded;
  '(biomes, cursor) ← read_network cursor Biomes biome_registry remaining;
  Ok ({| counts := counts; blocks := blocks; biomes := biomes |}, cursor).
End sections.

(** [for (index, &id) in group.iter().enumerate() { word |= f(id) << (index * bits) }] *)
Fixpoint pack_group (f : Z → outcome Error Z) (bits index : nat) (group : list Z) (word : Z)
    : outcome Error Z :=
  match group with
  | [] => Ok word
  | id :: rest =>
      value ← f id;
      pack_group f bits (S index) rest
        (Z.lor word (u_wrap 64 (Z.shiftl value (Z.of_nat (index * bits)))))
  end.

(** [for group in input.chunks(per_word)]; [n] bounds the number of chunks. *)
Fixpoint pack_chunks (f : Z → outcome Error Z) (bits n : nat) (input : list Z) (o : Output)
    : outcome Error Output :=
  match input, n with
  | [], _ => Ok o
  | _, O => NoFuel
  | _, S n' =>
      word ← pack_group f bits 0 (take (64 / bits) input) 0;
      pack_chunks f bits n' (drop (64 / bits) input) (extend o (be_bytes 8 word))
  end.

Definition encode_dense (k : ContainerKind) (r : Registry) (input : list Z) (o : Output)
    : outcome Error Output :=
  palette ← lift (ps_insert_all ps_new input);
  if (plen palette =? 1)%nat then
    first ← unwrap (input !! 0%nat);
    append_varint (extend o [0]) first
  else
    let needed := Z.to_nat (bit_len (Z.of_nat (plen palette) - 1)) in
    let direct := (max_bits k <? needed)%nat in
    let bits := normalized_bits k needed r in
    let o := extend o [Z.of_nat bits] in
    o ← (if direct then Ok o
         else
           o ← append_varint o (Z.of_nat (plen palette));
           _ ← assert_that (plen palette <=? length (ids palette))%nat;
           append_ids o (take (plen palette) (ids palette)));
    _ ← assert_that (negb (bits =? 0)%nat);
    pack_chunks (if direct then Ok else palette_key palette) bits (length input) input o.

Fixpoint validate_all (r : Registry) (input : list Z) : outcome Error () :=
  match input with
  | [] => Ok tt
  | id :: rest => _ ← validate r id; validate_all r rest
  end.

Definition prepare_section (blocks biomes : list Z) (block_registry biome_registry : Registry)
    (counts : SectionCounts) (o : Output) : outcome Error Output :=
  _ ← validate_counts counts;
  _ ← ensure (negb (spare o <? MAX_SECTION_NETWORK_BYTES)) OutputCapacity;
  _ ← validate_all block_registry blocks;
  _ ← validate_all biome_registry biomes;
  o ← encode_dense Blocks block_registry blocks (append_counts o counts);
  encode_dense Biomes biome_registry biomes o.

(** ** The encoding as a function *)

Definition varint_bytes (v : Z) : list Z :=
  encode (Z.to_nat (varint_len (i_wrap 32 v) - 1)) v.
Definition words_bytes (ws : list Z) : list Z := concat (be_bytes 8 <$> ws).
Definition ids_bytes (l : list Z) : list Z := concat (varint_bytes <$> l).

Definition network_bytes (c : PalettedContainer) : list Z :=
  Z.of_nat (bits c) ::
  match storage c with
  | Single v => varint_bytes v
  | Indirect palette _ p => varint_bytes (zlen palette) ++ ids_bytes palette ++ words_bytes (words p)
  | Direct p => words_bytes (words p)
  end.

Lemma extend_extend o a b : extend (extend o a) b = extend o (a ++ b).
Proof. unfold extend. cbn. by rewrite (assoc_L (++)). Qed.
Lemma extend_nil o : extend o [] = o.
Proof. destruct o. unfold extend. cbn. by rewrite app_nil_r. Qed.
Lemma spare_extend o a : spare (extend o a) = spare o - zlen a.
Proof. unfold spare, extend, zlen. cbn. rewrite length_app. lia. Qed.

Lemma length_varint_bytes v : in_u 32 v → zlen (varint_bytes v) = varint_len (i_wrap 32 v).
Proof.
  intros Hv. unfold varint_bytes, zlen. rewrite length_encode.
  pose proof (varint_len_range (i_wrap 32 v) ltac:(by apply i_wrap_range)). lia.
Qed.

Lemma append_varint_spec o v : in_u 32 v → append_varint o v = Ok (extend o (varint_bytes v)).
Proof.
  intros Hv. unfold append_varint.
  pose proof (varint_len_range (i_wrap 32 v) ltac:(by apply i_wrap_range)) as Hr.
  rewrite write_varint_ok; [|by apply i_wrap_range|unfold zlen; rewrite length_replicate; lia].
  rewrite u_wrap_i_wrap, u_wrap_id by (done || lia). fold (varint_bytes v).
  rewrite take_app_length'; [done|]. pose proof (length_varint_bytes v Hv). unfold zlen in *. lia.
Qed.

Lemma append_ids_spec o l : Forall (in_u 32) l → append_ids o l = Ok (extend o (ids_bytes l)).
Proof.
  intros Hl. revert o. induction Hl as [|v l Hv Hl IH]; intros o; cbn [append_ids].
  - by rewrite extend_nil.
  - rewrite append_varint_spec by done. mstep. by rewrite IH, extend_extend.
Qed.

Lemma append_words_spec o ws : append_words o ws = extend o (words_bytes ws).
Proof.
  revert o. induction ws as [|w ws IH]; intros o; cbn [append_words].
  - by rewrite extend_nil.
  - by rewrite IH, extend_extend.
Qed.

Lemma length_words_bytes ws : length (words_bytes ws) = (8 * length ws)%nat.
Proof.
  induction ws as [|w ws IH]; [done|]. unfold words_bytes in *. cbn [fmap list_fmap concat].
  rewrite length_app, length_be_bytes, IH. cbn. lia.
Qed.

Lemma length_ids_bytes l :
  Forall (in_u 32) l →
  zlen (ids_bytes l) = fold_right Z.add 0 ((λ id, varint_len (i_wrap 32 id)) <$> l).
Proof.
  induction 1 as [|v l Hv _ IH]; [done|]. unfold ids_bytes in *. cbn.
  rewrite <- IH, <- length_varint_bytes by done. unfold zlen. rewrite length_app. lia.
Qed.

Lemma read_int_varint v rest :
  in_u 32 v → read_int (varint_bytes v ++ rest) = Ok (i_wrap 32 v, rest).
Proof.
  intros Hv. set (value := i_wrap 32 v).
  assert (Hi : in_i 32 value) by (by apply i_wrap_range).
  pose proof (varint_len_range value Hi) as Hr. pose proof (length_varint_bytes v Hv) as Hl.
  fold value in Hl. unfold zlen in Hl.
  assert (Hread : read_varint (varint_bytes v ++ rest) = Ok (value, varint_len value)).
  { unfold read_varint, MAX_VARINT_BYTES. pose proof (read_write_loop 32 5 value (replicate (length (varint_bytes v)) 0 ++ rest)
      ltac:(lia) Hi) as Hrw. rewrite <- varint_len_groups in Hrw by done.
    assert (Hu : u_wrap 32 value = v) by (unfold value; rewrite u_wrap_i_wrap, u_wrap_id; done || lia).
    rewrite Hu, write_loop_encode in Hrw by (rewrite length_app, length_replicate; lia).
    fold (varint_bytes v) in Hrw. rewrite drop_app_length' in Hrw by (rewrite length_replicate; lia).
    change (encode (Z.to_nat (varint_len value - 1)) v) with (varint_bytes v) in Hrw.
    rewrite Hrw; [done|lia|unfold zlen; rewrite length_app, length_replicate; lia]. }
  unfold read_int. rewrite Hread. mstep. by rewrite drop_app_length' by lia.
Qed.

Lemma read_id_varint v rest : in_u 32 v → read_id (varint_bytes v ++ rest) = Ok (v, rest).
Proof.
  intros Hv. unfold read_id. rewrite read_int_varint by done. mstep.
  by rewrite u_wrap_i_wrap, u_wrap_id by (done || lia).
Qed.

(** ** Writing a container *)

Lemma valid_u32 r v : registry_ok r → valid r v → in_u 32 v.
Proof. unfold registry_ok, valid, in_u. lia. Qed.

Lemma valid_all_u32 r l : registry_ok r → Forall (valid r) l → Forall (in_u 32) l.
Proof. intros Hr Hl. eapply Forall_impl; [exact Hl|]. intros v. by apply valid_u32. Qed.

(** The palette length always fits the VarInt. *)
Lemma indirect_palette_256 k r palette cp p : indirect_ok k r palette cp p → 1 ≤ zlen palette ≤ 256.
Proof.
  intros Hi. pose proof (io_palette _ _ _ _ _ Hi). pose proof (io_bits _ _ _ _ _ Hi).
  pose proof (kind_bits k). pose proof (pow2_le (Z.of_nat (Packed.bits p)) 8).
  change (2 ^ 8) with 256 in *. lia.
Qed.

Lemma length_network_bytes c : inv c → zlen (network_bytes c) = network_len c.
Proof.
  intros [Hr Hs]. unfold network_bytes, network_len. destruct (storage c) as [v|palette cp p|p].
  - rewrite <- length_varint_bytes by (by eapply valid_u32). unfold zlen. cbn [length]. lia.
  - pose proof (indirect_palette_256 _ _ _ _ _ Hs).
    rewrite <- length_varint_bytes by (unfold in_u; lia).
    rewrite <- length_ids_bytes by (eapply valid_all_u32; [done|apply Hs]).
    unfold zlen. cbn [length]. rewrite !length_app, length_words_bytes. lia.
  - unfold zlen. cbn [length]. rewrite length_words_bytes. lia.
Qed.

Lemma write_network_spec c o :
  inv c → write_network c o =
    if spare o <? network_len c then Err OutputCapacity else Ok (extend o (network_bytes c)).
Proof.
  intros [Hr Hs]. unfold write_network. destruct (Z.ltb_spec (spare o) (network_len c)); [done|].
  mstep. unfold network_bytes. destruct (storage c) as [v|palette cp p|p].
  - rewrite append_varint_spec by (by eapply valid_u32). by rewrite extend_extend.
  - pose proof (indirect_palette_256 _ _ _ _ _ Hs).
    rewrite u_wrap_id, append_varint_spec by (unfold in_u; lia). mstep.
    rewrite append_ids_spec by (eapply valid_all_u32; [done|apply Hs]). mstep.
    by rewrite append_words_spec, !extend_extend.
  - by rewrite append_words_spec, extend_extend.
Qed.

(** ** Reading words *)

(** Word [k] of a byte string. *)
Definition raw (bytes : list Z) (k : nat) : Z := be_value (take 8 (drop (8 * k) bytes)).

Lemma word_at_raw bytes k : (8 * k + 8 ≤ length bytes)%nat → word_at bytes k = Ok (raw bytes k).
Proof. intros. unfold word_at. by destruct (Nat.leb_spec (8 * k + 8) (length bytes)); [|lia]. Qed.

Lemma raw_words_bytes ws rest k w :
  Forall (in_u 64) ws → ws !! k = Some w → raw (words_bytes ws ++ rest) k = w.
Proof.
  intros Hw. revert k. induction Hw as [|x ws Hx Hw IH]; intros k Hk; [done|].
  unfold words_bytes, raw in *. cbn [fmap list_fmap concat]. rewrite <- (assoc_L (++)).
  destruct k as [|k]; cbn in Hk.
  - injection Hk as ->. rewrite drop_0, take_app_length' by (by rewrite length_be_bytes).
    rewrite be_value_be_bytes. by apply u_wrap_id.
  - rewrite <- (IH k Hk). do 2 f_equal.
    replace (8 * S k)%nat with (8 + 8 * k)%nat by lia. rewrite <- drop_drop.
    by rewrite drop_app_length' by (by rewrite length_be_bytes).
Qed.

Lemma raw_nonneg bytes k : bytes_ok bytes → 0 ≤ raw bytes k.
Proof.
  intros Hb. apply be_value_range. apply Forall_take, Forall_drop, Hb.
Qed.

(** Field [i] of the packed words in a byte string. *)
Definition key_at (bits : nat) (bytes : list Z) (i : nat) : Z :=
  field bits (raw bytes (i / per_word bits)) (Z.of_nat (i mod per_word bits * bits)).

Definition key_bad (r : Registry) (direct : bool) (palette_len key : Z) : option Error :=
  if direct then (if key <? state_count r then None else Some (ValueOutOfRange key))
  else if palette_len <=? key then Some (InvalidPaletteIndex key) else None.

(** The key check walks the indices and stops at the first bad key. *)
Lemma check_keys_spec r direct plen bits bytes index n :
  (1 ≤ bits ≤ 31)%nat → (8 * ((index + n + per_word bits - 1) / per_word bits) ≤ length bytes)%nat →
  (check_keys r direct plen bits bytes index n = Ok tt ∧
     ∀ i, (index ≤ i < index + n)%nat → key_bad r direct plen (key_at bits bytes i) = None) ∨
  (∃ i e, (index ≤ i < index + n)%nat ∧ key_bad r direct plen (key_at bits bytes i) = Some e ∧
     check_keys r direct plen bits bytes index n = Err e).
Proof.
  intros Hb. revert index. induction n as [|n IH]; intros index Hlen; cbn [check_keys].
  - left. split; [done|]. lia.
  - pose proof (index_word_lt bits (index + S n) index Hb ltac:(lia)) as Hw.
    change (64 / bits)%nat with (per_word bits). rewrite word_at_raw by lia. mstep.
    change (Z.land _ _) with (key_at bits bytes index).
    assert (Hk : u_wrap 32 (key_at bits bytes index) = key_at bits bytes index)
      by (apply field_u32; lia). rewrite Hk.
    set (key := key_at bits bytes index) in *.
    assert (Hstep : (if direct then validate r key
       else if plen <=? key then Err (InvalidPaletteIndex key) else Ok ())
      = match key_bad r direct plen key with None => Ok tt | Some e => Err e end).
    { unfold key_bad, validate. destruct direct; by case_match. }
    rewrite Hstep. destruct (key_bad r direct plen key) as [e|] eqn:Hkb; mstep.
    + right. exists index, e. split_and!; [lia|lia|done|done].
    + destruct (IH (S index)) as [[-> Hall]|(i&e&Hi&He&->)].
      { by replace (S index + n)%nat with (index + S n)%nat by lia. }
      * left. split; [done|]. intros i Hi. destruct (decide (i = index)) as [->|]; [done|].
        apply Hall. lia.
      * right. exists i, e. split_and!; [lia|lia|done|done].
Qed.

Lemma shiftr_ones n : 0 ≤ n ≤ 64 → Z.shiftr (2 ^ 64 - 1) (64 - n) = 2 ^ n - 1.
Proof.
  intros. apply Z.bits_inj'. intros i Hi. rewrite Z.shiftr_spec, !ones_testbit by lia.
  destruct (Z.ltb_spec (i + (64 - n)) 64), (Z.ltb_spec i n); done || lia.
Qed.

(** The words with their padding cleared. *)
Definition masked (bits len : nat) (bytes : list Z) (index n : nat) : list Z :=
  (λ k, Z.land (raw bytes k) (2 ^ used bits len (index + k) - 1)) <$> seq 0 n.

Lemma mask_words_spec bits len index bytes n :
  (1 ≤ bits ≤ 31)%nat → (1 ≤ n)%nat → ((index + n - 1) * per_word bits ≤ len)%nat →
  (8 * n ≤ length bytes)%nat →
  mask_words bits len index bytes n = Ok (masked bits len bytes index n).
Proof.
  intros Hb Hn. revert index bytes. induction n as [|n IH]; intros index bytes Hlen Hbytes; [lia|].
  cbn [mask_words]. change (64 / bits)%nat with (per_word bits).
  destruct (Nat.leb_spec (index * per_word bits) len); [|nia]. mstep.
  change (Z.of_nat _) with (used bits len index). rewrite shiftr_ones by (by apply used_le).
  assert (Hhead : masked bits len bytes index (S n) =
    Z.land (be_value (take 8 bytes)) (2 ^ used bits len index - 1)
      :: masked bits len (drop 8 bytes) (S index) n).
  { unfold masked. rewrite <- cons_seq, fmap_cons. f_equal.
    - unfold raw. by rewrite Nat.mul_0_r, drop_0, Nat.add_0_r.
    - rewrite <- fmap_S_seq, <- list_fmap_compose. apply list_fmap_ext. intros ? k _. cbn.
      unfold raw. rewrite drop_drop. do 4 f_equal; lia. }
  rewrite Hhead. destruct n as [|n]; [done|].
  rewrite IH; [done|lia|nia|rewrite length_drop; lia].
Qed.

(** Number of words of an array, as a natural number. *)
Definition nwords (bits len : nat) : nat := ((len + per_word bits - 1) / per_word bits)%nat.

Lemma used_mask_land bits len k z :
  (1 ≤ bits ≤ 31)%nat → in_u (used bits len k) (Z.land z (2 ^ used bits len k - 1)).
Proof.
  intros Hb. pose proof (used_le bits len k Hb). rewrite land_ones_mod by lia.
  apply u_wrap_range. lia.
Qed.

Lemma masked_lookup bits len bytes n k :
  (k < n)%nat → masked bits len bytes 0 n !! k = Some (Z.land (raw bytes k) (2 ^ used bits len k - 1)).
Proof. intros. unfold masked. by rewrite list_lookup_fmap, lookup_seq_lt. Qed.

(** Masking produces a canonical array with the keys of the input. *)
Lemma masked_wf bits len bytes cp :
  dims_ok bits len → let p := Packed bits len (masked bits len bytes 0 (nwords bits len)) cp in
  wf p ∧ Packed.values p = key_at bits bytes <$> seq 0 len.
Proof.
  intros [Hb Hl] p. split.
  - split; [done|cbn; by rewrite count_eq; [unfold masked; rewrite length_fmap, length_seq|]|].
    cbn. intros k w Hk. pose proof (lookup_lt_Some _ _ _ Hk) as Hlt.
    unfold masked in Hlt. rewrite length_fmap, length_seq in Hlt.
    rewrite masked_lookup in Hk by done. injection Hk as <-. by apply used_mask_land.
  - unfold Packed.values. apply list_fmap_ext. intros j i Hi. apply lookup_seq in Hi as [-> Hi]. cbn.
    pose proof (index_word_lt bits len j Hb Hi) as Hw. fold (nwords bits len) in Hw.
    rewrite nth_lookup, masked_lookup by done. cbn. unfold key_at.
    pose proof (index_used bits len j Hb Hi) as Hu. pose proof (used_le bits len (j / per_word bits) Hb).
    apply Z.bits_inj'. intros q Hq. rewrite !field_testbit by lia.
    destruct (Z.ltb_spec q (Z.of_nat bits)); [|done]. cbn.
    rewrite Z.land_spec, ones_testbit by lia.
    destruct (Z.ltb_spec (q + Z.of_nat (j mod per_word bits * bits)) (used bits len (j / per_word bits))); [|lia].
    by rewrite andb_true_r.
Qed.

Lemma nwords_pos bits len : dims_ok bits len → (1 ≤ nwords bits len)%nat.
Proof.
  intros [Hb Hl]. pose proof (per_word_bounds bits Hb). unfold nwords.
  apply Nat.div_le_lower_bound; lia.
Qed.

Section reading.
Context `{Allocator}.

Lemma load_words_spec bits len bytes pb limit :
  dims_ok bits len → length bytes = (8 * nwords bits len)%nat →
  (∃ p, load_words bits len bytes (Z.of_nat (nwords bits len)) pb limit = Ok p ∧
     p = Packed bits len (masked bits len bytes 0 (nwords bits len)) (Packed.cap p) ∧
     Packed.heap_bytes p + pb ≤ limit ∧ (exact_memory → Packed.cap p = Z.of_nat (nwords bits len))) ∨
  ((load_words bits len bytes (Z.of_nat (nwords bits len)) pb limit = Err AllocationBudgetExceeded ∨
    load_words bits len bytes (Z.of_nat (nwords bits len)) pb limit = Err AllocationFailed) ∧
   (exact_memory → limit < Z.of_nat (nwords bits len) * 8 + pb)).
Proof using Type.
  intros Hd Hlen. pose proof Hd as [Hb Hl]. pose proof (nwords_pos bits len Hd) as Hn.
  pose proof (word_start_lt bits len (nwords bits len - 1) Hb ltac:(lia)) as Hws.
  specialize (Hws ltac:(unfold nwords; unfold nwords in Hn; lia)).
  set (n := nwords bits len) in *.
  unfold load_words. destruct (Z.leb_spec (Z.of_nat n * 8 + pb) limit) as [Hbud|]; mstep; [|tauto].
  destruct (reserve_exact 8 (Z.of_nat n)) as [cp|] eqn:Hr; mstep.
  2: { right. split; [tauto|]. intros He. by rewrite He in Hr. }
  destruct (Z.leb_spec (cp * 8 + pb) limit) as [Hbud2|Hbud2]; mstep.
  2: { right. split; [tauto|]. intros He. rewrite He in Hr. injection Hr as <-. lia. }
  rewrite Hlen. replace (8 * n / 8)%nat with n by (rewrite Nat.mul_comm; by rewrite Nat.div_mul).
  rewrite mask_words_spec by (done || lia). mstep.
  destruct (masked_wf bits len bytes cp Hd) as [Hwf _].
  rewrite from_words_wf by done. left. eexists. split_and!; [done|done|done|].
  cbn. intros He. rewrite He in Hr. by injection Hr.
Qed.

(** Everything after the palette.  Either there are too few bytes, or a key is
    out of range, or memory is short, or the storage holds exactly the keys. *)
Lemma read_values_spec k r bits direct scratch cursor limit :
  (1 ≤ bits ≤ 31)%nat → (direct = false → bits ≤ max_bits k)%nat →
  let n := nwords bits (kind_len k) in
  let keys := key_at bits cursor <$> seq 0 (kind_len k) in
  let pb := if direct then 0 else 2 ^ Z.of_nat bits * 4 in
  match read_values k r bits direct scratch cursor limit with
  | Ok (s, rest) =>
      (8 * n ≤ length cursor)%nat ∧ rest = drop (8 * n) cursor ∧
      Forall (λ key, key_bad r direct (zlen scratch) key = None) keys ∧
      ∃ p, wf p ∧ len p = kind_len k ∧ Packed.bits p = bits ∧ Packed.values p = keys ∧
        words p = masked bits (kind_len k) cursor 0 n ∧ (exact_memory → Packed.cap p = Z.of_nat n) ∧
        if direct then s = Direct p ∧ Packed.heap_bytes p ≤ limit
        else ∃ cp, s = Indirect scratch cp p ∧ 2 ^ Z.of_nat bits ≤ cp ∧ (exact_memory → cp = 2 ^ Z.of_nat bits) ∧
          cp * 4 + Packed.heap_bytes p ≤ limit
  | Err e => (e = Truncated ∧ (length cursor < 8 * n)%nat) ∨
      ((8 * n ≤ length cursor)%nat ∧ Exists (λ key, key_bad r direct (zlen scratch) key = Some e) keys) ∨
      ((8 * n ≤ length cursor)%nat ∧ (e = AllocationBudgetExceeded ∨ e = AllocationFailed) ∧
       (exact_memory → limit < Z.of_nat n * 8 + pb))
  | Panic | NoFuel => False
  end.
Proof using Type.
  intros Hb Hdir n keys pb. pose proof (kind_len_dims k) as Hlen.
  assert (Hd : dims_ok bits (kind_len k)) by done.
  unfold read_values. rewrite words_for_ok by done. mstep.
  assert (Hn : div_ceil (Z.of_nat (kind_len k)) (64 `div` Z.of_nat bits) = Z.of_nat n).
  { unfold n, nwords. rewrite <- count_eq by done. rewrite Z2Nat.id; [done|]. by apply div_ceil_nonneg. }
  rewrite Hn. unfold take_bytes. destruct (Z.ltb_spec (zlen cursor) (Z.of_nat n * 8)) as [Hlt|Hge]; mstep;
    unfold zlen in *; [left; split; [done|lia]|].
  replace (Z.to_nat (Z.of_nat n * 8)) with (8 * n)%nat by lia.
  set (bytes := take (8 * n) cursor).
  assert (Hbl : length bytes = (8 * n)%nat) by (unfold bytes; rewrite length_take; lia).
  assert (Hraw : ∀ q, (q < n)%nat → raw bytes q = raw cursor q).
  { intros q Hq. unfold raw, bytes. rewrite skipn_firstn_comm, take_take. do 2 f_equal. lia. }
  assert (Hkeys : ∀ i, (i < kind_len k)%nat → key_at bits bytes i = key_at bits cursor i).
  { intros i Hi. unfold key_at. rewrite Hraw; [done|]. by apply index_word_lt. }
  destruct (check_keys_spec r direct (Z.of_nat (length scratch)) bits bytes 0 (kind_len k) Hb)
    as [[-> Hall]|(i&e&Hi&He&->)]; [fold n; cbn [Nat.add]; fold (nwords bits (kind_len k)); lia| |]; mstep.
  2: { right; left. split; [lia|]. apply Exists_exists. exists (key_at bits cursor i). split.
    - apply list_elem_of_fmap. exists i. split; [done|]. apply elem_of_seq. lia.
    - rewrite <- Hkeys by lia. done. }
  assert (Hok : Forall (λ key, key_bad r direct (Z.of_nat (length scratch)) key = None) keys).
  { apply Forall_fmap, Forall_forall. intros i Hi%elem_of_seq. cbn. rewrite <- Hkeys by lia. apply Hall. lia. }
  assert (Hmask : masked bits (kind_len k) bytes 0 n = masked bits (kind_len k) cursor 0 n).
  { unfold masked. apply list_fmap_ext. intros ? q Hq%list_elem_of_lookup_2%elem_of_seq. cbn beta.
    by rewrite Hraw by lia. }
  rewrite Z.shiftl_1_l.
  pose proof (load_words_spec bits (kind_len k) bytes pb limit Hd Hbl) as Hlw.
  fold n pb in Hlw |- *. destruct Hlw as [(p&->&Hp&Hheap&Hexact)|[[->| ->] Hex]]; mstep;
    [|right; right; split; [lia|split; [tauto|exact Hex]]..].
  destruct (masked_wf bits (kind_len k) bytes (Packed.cap p) Hd) as [Hwf Hvals].
  fold n in Hp, Hwf, Hvals. rewrite <- Hp in Hwf, Hvals.
  assert (Hvals' : Packed.values p = keys).
  { rewrite Hvals. apply list_fmap_ext. intros ? i Hi%list_elem_of_lookup_2%elem_of_seq. apply Hkeys. lia. }
  pose proof (f_equal len Hp) as Hpl. pose proof (f_equal Packed.bits Hp) as Hpb.
  pose proof (f_equal words Hp) as Hpw. cbn [len Packed.bits words] in Hpl, Hpb, Hpw.
  rewrite Hmask in Hpw. destruct direct; mstep.
  - split_and!; [lia|done|done|]. exists p. unfold pb in Hheap. split_and!; try done. lia.
  - destruct (reserve_exact 4 (2 ^ Z.of_nat bits)) as [cp|] eqn:Hr; mstep.
    2: { right; right. split; [lia|]. split; [tauto|]. intros He. by rewrite He in Hr. }
    destruct (Z.leb_spec (cp * 4 + Packed.heap_bytes p) limit) as [Hb2|Hb2]; mstep.
    + split_and!; [lia|done|done|]. exists p. split_and!; try done.
      exists cp. split_and!; [done|by eapply reserve_exact_ge| |done].
      intros He. rewrite He in Hr. by injection Hr.
    + right; right. split; [lia|]. split; [tauto|]. intros He. rewrite He in Hr. injection Hr as <-.
      unfold pb in Hheap. lia.
Qed.
End reading.

(** ** Reading a container *)

Lemma read_int_cases input :
  bytes_ok input →
  (∃ v rest, read_int input = Ok (v, rest) ∧ in_i 32 v ∧ rest `suffix_of` input ∧ bytes_ok rest) ∨
  read_int input = Err Truncated ∨ read_int input = Err InvalidVarInt.
Proof.
  intros Hb. unfold read_int, read_varint. destruct (read_loop _ _ _ _ _) as [[v n]|] eqn:E; mstep.
  - left. exists v, (drop (Z.to_nat n) input). split_and!; [done| | |].
    + apply read_loop_sound in E as (_&_&u&->&_); [by apply i_wrap_range|lia|lia|split; lia|lia].
    + exists (take (Z.to_nat n) input). by rewrite take_drop.
    + by apply Forall_drop.
  - right. case_match; mstep; tauto.
Qed.

Lemma read_id_cases input :
  bytes_ok input →
  (∃ v rest, read_id input = Ok (v, rest) ∧ in_u 32 v ∧ rest `suffix_of` input ∧ bytes_ok rest) ∨
  read_id input = Err Truncated ∨ read_id input = Err InvalidVarInt.
Proof.
  intros Hb. unfold read_id. destruct (read_int_cases input Hb) as [(v&rest&->&Hv&?&?)|[->| ->]]; mstep; [|tauto..].
  left. eexists _, _. split_and!; try done. by apply u_wrap_range.
Qed.

Lemma read_palette_cases r n input :
  bytes_ok input →
  match read_palette r n input with
  | Ok (ids, rest) => length ids = n ∧ Forall (valid r) ids ∧ rest `suffix_of` input ∧ bytes_ok rest
  | Err e => e = Truncated ∨ e = InvalidVarInt ∨ ∃ v, e = ValueOutOfRange v
  | Panic | NoFuel => False
  end.
Proof.
  revert input. induction n as [|n IH]; intros input Hb; cbn [read_palette]; [by split_and!; [|constructor| |]|].
  destruct (read_id_cases input Hb) as [(v&rest&->&Hv&Hs&Hr)|[->| ->]]; mstep; [|tauto..].
  destruct (validate_cases r v ltac:(apply Hv)) as [[-> Hval]|[-> _]]; mstep; [|naive_solver].
  specialize (IH rest Hr). destruct (read_palette r n rest) as [[ids rest']|e| |]; mstep; try done.
  destruct IH as (<-&?&?&?). split_and!; [done|by constructor|by etrans|done].
Qed.

Lemma read_palette_ids r ids rest :
  registry_ok r → Forall (valid r) ids →
  read_palette r (length ids) (ids_bytes ids ++ rest) = Ok (ids, rest).
Proof.
  intros Hr. induction 1 as [|v ids Hv _ IH]; [done|]. unfold ids_bytes in *. cbn [length read_palette fmap list_fmap concat].
  rewrite <- (assoc_L (++)), read_id_varint by (by eapply valid_u32). mstep.
  rewrite (proj2 (validate_ok r v ltac:(apply Hv)) Hv). mstep. by rewrite IH.
Qed.

Lemma read_scratch_cases r bits direct cursor :
  bytes_ok cursor → (bits ≤ 8 ∨ direct = true)%nat →
  match read_scratch r bits direct cursor with
  | Ok (scratch, rest) => rest `suffix_of` cursor ∧ bytes_ok rest ∧ Forall (valid r) scratch ∧
      (direct = false → 1 ≤ zlen scratch ≤ 2 ^ Z.of_nat bits)
  | Err e => e = Truncated ∨ e = InvalidVarInt ∨ (∃ v, e = ValueOutOfRange v) ∨ ∃ n, e = InvalidPaletteLength n
  | Panic | NoFuel => False
  end.
Proof.
  intros Hb Hd. unfold read_scratch. destruct direct; [split_and!; try done; by constructor|].
  destruct (read_int_cases cursor Hb) as [(count&rest&->&Hv&Hs&Hr)|[->| ->]]; mstep; [|tauto..].
  rewrite Z.shiftl_1_l.
  assert (H8 : 2 ^ Z.of_nat bits ≤ 2 ^ 8) by (apply pow2_le; destruct Hd; [lia|done]).
  destruct (Z.ltb_spec count 1); cbn [orb negb]; mstep; [naive_solver|].
  assert (Hw : u_wrap 64 count = count) by (apply u_wrap_id; unfold in_i, in_u in *; lia).
  rewrite Hw. destruct (Z.ltb_spec (2 ^ Z.of_nat bits) count); cbn [negb]; mstep; [naive_solver|].
  destruct (Z.leb_spec count 256); [|lia]. mstep.
  pose proof (read_palette_cases r (Z.to_nat count) rest Hr) as Hp.
  destruct (read_palette r (Z.to_nat count) rest) as [[ids rest']|e| |]; try done; [|tauto].
  destruct Hp as (Hl&Hval&Hs'&Hr'). split_and!; [by etrans|done|done|].
  intros _. unfold zlen. lia.
Qed.

(** A key accepted by the check is a palette index, or a valid ID. *)
Lemma keys_direct_ok k r p :
  wf p → len p = kind_len k → Packed.bits p = registry_bits r →
  Forall (λ key, key_bad r true 0 key = None) (Packed.values p) → direct_ok k r p.
Proof.
  intros Hwf Hl Hb Hk. split; try done. rewrite Forall_lookup in Hk |- *. intros i key Hi.
  specialize (Hk i key Hi). unfold key_bad in Hk. cbn in Hk. pose proof (values_range p i key Hwf Hi) as [??].
  unfold valid. destruct (Z.ltb_spec key (state_count r)); [lia|done].
Qed.

Lemma keys_indirect_ok k r scratch cp p :
  wf p → len p = kind_len k → (min_bits k ≤ Packed.bits p ≤ max_bits k)%nat →
  1 ≤ zlen scratch ≤ 2 ^ Z.of_nat (Packed.bits p) → 2 ^ Z.of_nat (Packed.bits p) ≤ cp →
  Forall (valid r) scratch →
  Forall (λ key, key_bad r false (zlen scratch) key = None) (Packed.values p) →
  indirect_ok k r scratch cp p.
Proof.
  intros Hwf Hl Hb Hs Hc Hv Hk. split; try done. eapply Forall_impl; [exact Hk|]. cbn.
  intros key. unfold key_bad. by destruct (Z.leb_spec (zlen scratch) key).
Qed.

Section reading_container.
Context `{Allocator}.

Lemma read_network_cases input k r limit :
  registry_ok r → bytes_ok input → 0 ≤ limit →
  match read_network input k r limit with
  | Ok (c, rest) => inv c ∧ kind c = k ∧ registry c = r ∧ heap_bytes c ≤ limit ∧ rest `suffix_of` input ∧ bytes_ok rest
  | Err e =>
      e = Truncated ∨ e = InvalidVarInt ∨ e = AllocationBudgetExceeded ∨ e = AllocationFailed ∨
      (∃ n, e = InvalidBits n ∨ e = ValueOutOfRange n ∨ e = InvalidPaletteLength n ∨
            e = InvalidPaletteIndex n)
  | Panic | NoFuel => False
  end.
Proof using Type.
  intros Hreg Hb Hlim. unfold read_network, take_bytes.
  destruct input as [|header cursor]; [by left|].
  destruct (Z.ltb_spec (zlen (header :: cursor)) 1); [unfold zlen in *; cbn in *; lia|]. mstep.
  change (take (Z.to_nat 1) (header :: cursor)) with [header].
  change (drop (Z.to_nat 1) (header :: cursor)) with cursor. cbn [lookup list_lookup]. mstep.
  apply Forall_cons in Hb as [Hh Hb].
  assert (Hsuf : cursor `suffix_of` header :: cursor) by (by exists [header]).
  destruct (Z.eqb_spec header 0) as [->|Hne].
  { destruct (read_id_cases cursor Hb) as [(v&rest&->&Hv&Hs&Hr)|[->| ->]]; mstep; [|tauto..].
    unfold single. destruct (validate_cases r v ltac:(apply Hv)) as [[-> Hval]|[-> _]]; mstep; [|naive_solver].
    split_and!; try done. by etrans. }
  pose proof (kind_bits k) as Hkb. pose proof (registry_bits_bound r Hreg) as Hrb.
  destruct Hh as [Hh0 Hh1].
  assert (Hn : normalized_bits k (Z.to_nat header) r =
     if (max_bits k <? Z.to_nat header)%nat then registry_bits r else Nat.max (Z.to_nat header) (min_bits k)).
  { destruct (Nat.ltb_spec (max_bits k) (Z.to_nat header));
      [by apply normalized_direct|apply normalized_indirect; lia]. }
  set (bits := normalized_bits k (Z.to_nat header) r) in *.
  destruct (Nat.eqb_spec bits 0) as [Hz|Hz]; cbn [negb]; mstep; [naive_solver|].
  destruct (Nat.ltb_spec (max_bits k) (Z.to_nat header)) as [Hd|Hd].
  - pose proof (read_values_spec k r bits true [] cursor limit ltac:(lia) ltac:(done)) as Hv.
    cbv zeta in Hv. unfold read_scratch. mstep.
    destruct (read_values k r bits true [] cursor limit) as [[s rest]|e| |]; mstep; try done.
    + destruct Hv as (_&->&Hok&p&Hwf&Hl&Hpb&Hvals&_&_&->&Hheap). rewrite <- Hvals in Hok.
      split_and!; try done; [|by etrans; [apply suffix_drop|]|by apply Forall_drop].
      split; [done|]. cbn. apply keys_direct_ok; try done. by rewrite Hpb.
    + destruct Hv as [[-> _]|[[_ He]|(_&[-> | ->]&_)]]; [tauto| |tauto..].
      apply Exists_exists in He as (key&_&He). unfold key_bad in He. case_match; naive_solver.
  - pose proof (read_scratch_cases r bits false cursor Hb ltac:(left; lia)) as Hsc.
    destruct (read_scratch r bits false cursor) as [[scratch cur]|e| |]; mstep; [|naive_solver|done|done].
    destruct Hsc as (Hsuf2&Hb2&Hval&Hsl). specialize (Hsl eq_refl).
    pose proof (read_values_spec k r bits false scratch cur limit ltac:(lia) ltac:(lia)) as Hv.
    cbv zeta in Hv.
    destruct (read_values k r bits false scratch cur limit) as [[s rest]|e| |]; mstep; try done.
    + destruct Hv as (_&->&Hok&p&Hwf&Hl&Hpb&Hvals&_&_&cp&->&Hcp&_&Hheap). rewrite <- Hvals in Hok.
      split_and!; try done; [|by etrans; [apply suffix_drop|by etrans]|by apply Forall_drop].
      split; [done|]. cbn. apply keys_indirect_ok; rewrite ?Hpb; try done. lia.
    + destruct Hv as [[-> _]|[[_ He]|(_&[-> | ->]&_)]]; [tauto| |tauto..].
      apply Exists_exists in He as (key&_&He). unfold key_bad in He. case_match; naive_solver.
Qed.
End reading_container.

(** ** Reading back what was written *)

Lemma read_back_words p rest :
  wf p → let cursor := words_bytes (words p) ++ rest in
  nwords (Packed.bits p) (len p) = length (words p) ∧
  drop (8 * length (words p)) cursor = rest ∧
  key_at (Packed.bits p) cursor <$> seq 0 (len p) = Packed.values p ∧
  masked (Packed.bits p) (len p) cursor 0 (length (words p)) = words p.
Proof.
  intros Hwf cursor. pose proof Hwf as [[Hb Hl] Hc Hw]. rewrite count_eq in Hc by done.
  assert (H64 : Forall (in_u 64) (words p)).
  { apply Forall_lookup. intros k w Hk. eapply in_u_mono; [|by apply (Hw k)]. by apply used_le. }
  assert (Hraw : ∀ k w, words p !! k = Some w → raw cursor k = w) by (intros; by apply raw_words_bytes).
  split_and!; [done| | |].
  - unfold cursor. by rewrite drop_app_length' by (by rewrite length_words_bytes).
  - unfold Packed.values. apply list_fmap_ext. intros j i Hi. apply lookup_seq in Hi as [-> Hi].
    destruct (wf_word p j Hwf Hi) as (w&Hlk&Hnth&_). cbn. unfold key_at. rewrite Hnth.
    by rewrite (Hraw _ w).
  - apply list_eq_same_length with (length (words p)); [done|unfold masked; by rewrite length_fmap, length_seq|].
    intros k w w' Hk Hm Hlk. rewrite masked_lookup in Hm by done. injection Hm as <-.
    rewrite (Hraw k w') by done. pose proof (used_le (Packed.bits p) (len p) k Hb).
    rewrite land_ones_mod by lia. by apply u_wrap_id, Hw.
Qed.

(** A direct container can be told from an indirect one only when its width is
    above the indirect widths, which every registry with more than
    [2 ^ max_bits] entries gives. *)
Definition portable (c : PalettedContainer) : Prop :=
  match storage c with Direct _ => (max_bits (kind c) < registry_bits (registry c))%nat | _ => True end.

(** Bytes [read_network] allocates for the container. *)
Definition read_cost (c : PalettedContainer) : Z :=
  match storage c with
  | Single _ => 0
  | Indirect _ _ p => zlen (words p) * 8 + 2 ^ Z.of_nat (Packed.bits p) * 4
  | Direct p => zlen (words p) * 8
  end.

(** The same container, with capacities of its own. *)
Definition same_storage (a b : Storage) : Prop :=
  match a, b with
  | Single v, Single w => v = w
  | Indirect pal _ p, Indirect pal' _ p' => pal = pal' ∧ words p = words p' ∧ Packed.bits p = Packed.bits p'
  | Direct p, Direct p' => words p = words p' ∧ Packed.bits p = Packed.bits p'
  | _, _ => False
  end.

Definition same_container (c c' : PalettedContainer) : Prop :=
  kind c' = kind c ∧ registry c' = registry c ∧ same_storage (storage c) (storage c') ∧
  contents c' = contents c.

Lemma same_network_bytes c c' : same_container c c' → network_bytes c' = network_bytes c.
Proof.
  intros (_&_&Hs&_). unfold network_bytes, bits, same_storage in *.
  destruct (storage c), (storage c'); try done; naive_solver congruence.
Qed.

Section read_back.
Context `{Allocator}.

Definition reads_back (c : PalettedContainer) (rest : list Z) (limit : Z)
    (m : outcome Error (PalettedContainer * list Z)) : Prop :=
  match m with
  | Ok (c', rest') => rest' = rest ∧ same_container c c' ∧ (exact_memory → heap_bytes c' = read_cost c)
  | Err e => (e = AllocationBudgetExceeded ∨ e = AllocationFailed) ∧ (exact_memory → limit < read_cost c)
  | Panic | NoFuel => False
  end.

Lemma read_back_header c rest :
  (bits c ≤ 31)%nat → take_bytes (network_bytes c ++ rest) 1 = Ok ([Z.of_nat (bits c)], tail (network_bytes c) ++ rest).
Proof using Type.
  intros Hb. unfold take_bytes, network_bytes. cbn [app].
  match goal with |- context [zlen ?l <? 1] => destruct (Z.ltb_spec (zlen l) 1) as [Hl|] end; [|done].
  unfold zlen in Hl. cbn [length] in Hl. lia.
Qed.

Lemma read_network_back c rest limit :
  inv c → portable c → reads_back c rest limit (read_network (network_bytes c ++ rest) (kind c) (registry c) limit).
Proof using Type.
  intros [Hreg Hs] Hport. pose proof (kind_bits (kind c)) as Hkb.
  pose proof (registry_bits_bound _ Hreg) as Hrb.
  assert (Hb31 : (bits c ≤ 31)%nat).
  { unfold bits. destruct (storage c) as [v|palette cp p|p]; [lia|pose proof (io_bits _ _ _ _ _ Hs); lia|].
    by rewrite (do_bits _ _ _ Hs). }
  unfold read_network. rewrite read_back_header by done. mstep. cbn [lookup list_lookup]. mstep.
  rewrite Nat2Z.id. unfold bits, network_bytes, reads_back, read_cost, same_container, portable, contents in *.
  destruct (storage c) as [v|palette cp p|p]; cbn [tail].
  - cbn [Z.of_nat Z.eqb]. rewrite read_id_varint by (by eapply valid_u32). mstep.
    unfold single. rewrite (proj2 (validate_ok _ v ltac:(apply Hs)) Hs). by mstep.
  - pose proof (indirect_palette_256 _ _ _ _ _ Hs) as Hp256. pose proof Hs as [Hwf Hl Hb Hp Hc Hv Hk].
    destruct (Z.eqb_spec (Z.of_nat (Packed.bits p)) 0); [lia|].
    rewrite normalized_indirect, Nat.max_l by lia.
    destruct (Nat.eqb_spec (Packed.bits p) 0); [lia|]. cbn [negb]. mstep.
    destruct (Nat.ltb_spec (max_bits (kind c)) (Packed.bits p)); [lia|].
    unfold read_scratch. rewrite <- !(assoc_L (++)), read_int_varint by (unfold in_u; lia). mstep.
    rewrite i_wrap_id by (cbn; lia). rewrite Z.shiftl_1_l, u_wrap_id by (unfold in_u; lia).
    destruct (Z.ltb_spec (zlen palette) 1); [lia|].
    destruct (Z.ltb_spec (2 ^ Z.of_nat (Packed.bits p)) (zlen palette)); [lia|]. cbn [orb negb]. mstep.
    destruct (Z.leb_spec (zlen palette) 256); [|lia]. mstep.
    unfold zlen at 1. rewrite Nat2Z.id, read_palette_ids by done. mstep.
    destruct (read_back_words p rest Hwf) as (Hnw&Hdrop&Hkeys&Hmask).
    pose proof (read_values_spec (kind c) (registry c) (Packed.bits p) false palette
      (words_bytes (words p) ++ rest) limit ltac:(lia) ltac:(lia)) as Hrv.
    cbv zeta in Hrv. rewrite <- Hl, Hnw, Hkeys, Hdrop, Hmask in Hrv.
    destruct (read_values _ _ _ _ _ _ _) as [[s r2]|e| |]; mstep; try done.
    + destruct Hrv as (_&->&_&p'&Hwf'&Hl'&Hb'&Hvals&Hw&He&cp'&->&_&He'&_). cbn. split_and!; try done; [by rewrite Hvals|].
      intros Hex. rewrite (He' Hex). unfold Packed.heap_bytes. rewrite (He Hex). unfold zlen. lia.
    + destruct Hrv as [[_ Hlt]|[[_ He]|(_&?&?)]]; [|exfalso|done].
      { rewrite length_app, length_words_bytes in Hlt. lia. }
      apply Exists_exists in He as (key&Hin&He). unfold key_bad in He.
      rewrite Forall_forall in Hk. specialize (Hk key Hin). cbn in Hk.
      destruct (Z.leb_spec (zlen palette) key); [lia|done].
  - pose proof Hs as [Hwf Hl Hb Hv].
    destruct (Z.eqb_spec (Z.of_nat (Packed.bits p)) 0); [lia|].
    rewrite normalized_direct, <- Hb by lia.
    destruct (Nat.eqb_spec (Packed.bits p) 0); [lia|]. cbn [negb]. mstep.
    destruct (Nat.ltb_spec (max_bits (kind c)) (Packed.bits p)); [|lia].
    unfold read_scratch. mstep.
    destruct (read_back_words p rest Hwf) as (Hnw&Hdrop&Hkeys&Hmask).
    pose proof (read_values_spec (kind c) (registry c) (Packed.bits p) true []
      (words_bytes (words p) ++ rest) limit ltac:(lia) ltac:(done)) as Hrv.
    cbv zeta in Hrv. rewrite <- Hl, Hnw, Hkeys, Hdrop, Hmask in Hrv.
    destruct (read_values _ _ _ _ _ _ _) as [[s r2]|e| |]; mstep; try done.
    + destruct Hrv as (_&->&_&p'&Hwf'&Hl'&Hb'&Hvals&Hw&He&->&_). split_and!; try done.
      intros Hex. cbn. unfold Packed.heap_bytes. by rewrite (He Hex).
    + destruct Hrv as [[_ Hlt]|[[_ He]|(_&?&Hx)]]; [|exfalso|].
      { rewrite length_app, length_words_bytes in Hlt. lia. }
      2: { split; [done|]. intros Hex. specialize (Hx Hex). unfold zlen. lia. }
      apply Exists_exists in He as (key&Hin&He). unfold key_bad in He.
      rewrite Forall_forall in Hv. destruct (Hv key Hin). destruct (Z.ltb_spec key (state_count (registry c))); [done|lia].
Qed.
End read_back.

(** ** The dense encoder writes the same bytes *)

Section packing.
Context (f : Z → outcome Error Z) (g : Z → Z) (b : nat).
Hypothesis Hb : (1 ≤ b ≤ 31)%nat.

Lemma or_field_testbit acc v s j :
  0 ≤ s → s + Z.of_nat b ≤ 64 → in_u s acc → in_u (Z.of_nat b) v → 0 ≤ j →
  Z.testbit (Z.lor acc (u_wrap 64 (Z.shiftl v s))) j
  = if j <? s then Z.testbit acc j else Z.testbit v (j - s).
Proof.
  intros Hs H64 Ha Hv Hj. bit_norm. destruct (Z.ltb_spec j s).
  - destruct (Z.leb_spec s j); [lia|]. by rewrite andb_false_l, andb_false_r, orb_false_r.
  - rewrite (testbit_high s acc) by done. cbn. destruct (Z.leb_spec s j); [|lia]. cbn.
    destruct (Z.ltb_spec j 64); [done|]. cbn. symmetry. apply (testbit_high (Z.of_nat b)); [done|lia].
Qed.

Lemma pack_group_spec index group acc :
  (index + length group ≤ per_word b)%nat → in_u (Z.of_nat (index * b)) acc →
  (∀ v, v ∈ group → f v = Ok (g v) ∧ in_u (Z.of_nat b) (g v)) →
  ∃ w, pack_group f b index group acc = Ok w ∧ in_u (Z.of_nat ((index + length group) * b)) w ∧
    (∀ j, 0 ≤ j < Z.of_nat (index * b) → Z.testbit w j = Z.testbit acc j) ∧
    ∀ r v, group !! r = Some v → field b w (Z.of_nat ((index + r) * b)) = g v.
Proof.
  pose proof (per_word_bounds b Hb) as [_ H64].
  revert index acc. induction group as [|v group IH]; intros index acc Hlen Hacc Hf; cbn [pack_group length] in *.
  - exists acc. rewrite Nat.add_0_r. split_and!; done.
  - destruct (Hf v ltac:(left)) as [-> Hg]. mstep. set (acc' := Z.lor _ _).
    assert (Hbit : ∀ j, 0 ≤ j → Z.testbit acc' j = if j <? Z.of_nat (index * b) then Z.testbit acc j
      else Z.testbit (g v) (j - Z.of_nat (index * b))).
    { intros j Hj. apply or_field_testbit; try done; nia. }
    assert (Hacc' : in_u (Z.of_nat (S index * b)) acc').
    { apply in_u_testbit; [lia| |].
      - apply Z.lor_nonneg. split; [apply Hacc|]. apply u_wrap_range. lia.
      - intros j Hj. rewrite Hbit by lia. destruct (Z.ltb_spec j (Z.of_nat (index * b))); [nia|].
        apply (testbit_high (Z.of_nat b)); [done|nia]. }
    destruct (IH (S index) acc') as (w&->&Hw&Hlow&Hfield); [lia|done|intros; apply Hf; by right|].
    exists w. split_and!; [done|by replace (index + S (length group))%nat with (S index + length group)%nat by lia| |].
    + intros j Hj. rewrite Hlow, Hbit by nia. by destruct (Z.ltb_spec j (Z.of_nat (index * b))); [|lia].
    + intros [|r] v'; cbn [lookup list_lookup].
      * intros [= <-]. rewrite Nat.add_0_r. apply Z.bits_inj'. intros j Hj.
        rewrite field_testbit by lia. destruct (Z.ltb_spec j (Z.of_nat b)); cbn.
        -- rewrite Hlow, Hbit by nia. destruct (Z.ltb_spec (j + Z.of_nat (index * b)) (Z.of_nat (index * b))); [lia|].
           f_equal. lia.
        -- symmetry. by apply (testbit_high (Z.of_nat b)).
      * intros Hr. rewrite <- (Hfield r v' Hr). do 2 f_equal. lia.
Qed.

Context (p : packed) (input : list Z).
Hypothesis Hwf : wf p.
Hypothesis Hbits : Packed.bits p = b.
Hypothesis Hvals : Packed.values p = g <$> input.
Hypothesis Hf : ∀ v, v ∈ input → f v = Ok (g v) ∧ in_u (Z.of_nat b) (g v).

Lemma pack_chunk_word k w :
  words p !! k = Some w →
  pack_group f b 0 (take (per_word b) (drop (k * per_word b) input)) 0 = Ok w.
Proof using All.
  intros Hw. pose proof (per_word_bounds b Hb) as [Hpw H64].
  assert (Hlen : len p = length input) by (rewrite <- length_values, Hvals; apply length_fmap).
  pose proof Hwf as [_ Hc Hwords]. rewrite Hbits, Hlen, count_eq in Hc by done.
  pose proof (lookup_lt_Some _ _ _ Hw) as Hk. rewrite Hc in Hk.
  pose proof (word_start_lt b (length input) k Hb) as Hst.
  set (group := take _ _).
  assert (Hgl : length group = Nat.min (per_word b) (length input - k * per_word b))
    by (unfold group; rewrite length_take, length_drop; done).
  destruct (pack_group_spec 0 group 0) as (w'&->&Hw'&_&Hfield); [cbn; lia|split; cbn; lia| |].
  { intros v Hv. apply Hf. unfold group in Hv.
    apply list_elem_of_lookup in Hv as [i Hi]. apply lookup_take_Some in Hi as [Hi _].
    rewrite lookup_drop in Hi. by eapply list_elem_of_lookup_2. }
  f_equal. pose proof (Hwords k w Hw) as Hu. rewrite Hbits, Hlen in Hu.
  eapply (word_ext b (length input) k); [done| |done|].
  { cbn in Hw'. rewrite Hgl in Hw'. done. }
  intros r Hr. destruct (lookup_lt_ok group r) as [v Hv]; [lia|].
  cbn [Nat.add] in Hfield. rewrite (Hfield r v Hv).
  unfold group in Hv. apply lookup_take_Some in Hv as [Hv _]. rewrite lookup_drop in Hv.
  pose proof (f_equal (λ l, l !! (k * per_word b + r)%nat) Hvals) as Hval. cbn in Hval.
  rewrite values_lookup, list_lookup_fmap, Hv in Hval by lia. cbn in Hval. injection Hval as Hval.
  rewrite <- Hval, Hbits. rewrite Nat.div_add_l, Nat.div_small, Nat.add_0_r by lia.
  rewrite Nat.add_comm, Nat.Div0.mod_add, Nat.mod_small by lia. by rewrite nth_lookup, Hw.
Qed.

Lemma pack_chunks_spec n k o :
  (length (words p) ≤ k + n)%nat →
  pack_chunks f b n (drop (k * per_word b) input) o = Ok (extend o (words_bytes (drop k (words p)))).
Proof using All.
  assert (Hlen : len p = length input) by (rewrite <- length_values, Hvals; apply length_fmap).
  pose proof Hwf as [_ Hc _]. rewrite Hbits, Hlen, count_eq in Hc by done.
  pose proof (per_word_bounds b Hb) as [Hpw _].
  revert k o. induction n as [|n IH]; intros k o Hn.
  - rewrite (drop_ge (words p)) by lia. rewrite drop_ge; [cbn; by rewrite extend_nil|].
    pose proof (Nat.div_mod_eq (length input + per_word b - 1) (per_word b)).
    pose proof (Nat.mod_upper_bound (length input + per_word b - 1) (per_word b) ltac:(lia)). nia.
  - destruct (decide (k < length (words p))%nat) as [Hk|Hk].
    + destruct (lookup_lt_ok (words p) k Hk) as [w Hw].
      pose proof (word_start_lt b (length input) k Hb) as Hst.
      destruct (drop (k * per_word b) input) as [|x l] eqn:Ed.
      { apply (f_equal length) in Ed. rewrite length_drop in Ed. cbn in Ed.
        destruct (decide (length input = 0%nat)) as [E0|]; [|lia].
        rewrite E0 in Hc. rewrite Nat.div_small in Hc by lia. lia. }
      cbn [pack_chunks]. rewrite <- Ed. change (64 / b)%nat with (per_word b).
      rewrite (pack_chunk_word k w Hw). mstep. rewrite drop_drop.
      replace (k * per_word b + per_word b)%nat with (S k * per_word b)%nat by lia.
      rewrite IH by lia. rewrite (drop_S (words p) w k) by done.
      unfold words_bytes. cbn [fmap list_fmap concat]. by rewrite extend_extend.
    + rewrite (drop_ge (words p)) by lia. rewrite drop_ge; [cbn; by rewrite extend_nil|].
      pose proof (Nat.div_mod_eq (length input + per_word b - 1) (per_word b)).
      pose proof (Nat.mod_upper_bound (length input + per_word b - 1) (per_word b) ltac:(lia)). nia.
Qed.
End packing.

Lemma validate_all_spec r l :
  Forall (λ v, 0 ≤ v) l →
  (validate_all r l = Ok tt ∧ Forall (valid r) l) ∨
  (∃ v, v ∈ l ∧ ¬ valid r v ∧ validate_all r l = Err (ValueOutOfRange v)).
Proof.
  induction 1 as [|v l Hv _ IH]; cbn [validate_all]; [by left|].
  destruct (validate_cases r v Hv) as [[-> Hval]|[-> Hval]]; mstep.
  2: { right. exists v. split_and!; [by left|done|done]. }
  destruct IH as [[-> ?]|(w&?&?&->)]; [left; split; [done|by constructor]|].
  right. exists w. split_and!; [by right|done|done].
Qed.

(** The keys of an indirect container are the positions of its values. *)
Definition position_of (d : list Z) (v : Z) : Z := default 0 (Z.of_nat <$> palette_position d v).

Lemma indirect_keys k r d cp p s :
  indirect_ok k r d cp p → NoDup d → stands_for s d →
  let input := (λ key, nth (Z.to_nat key) d 0) <$> Packed.values p in
  Packed.values p = position_of d <$> input ∧
  ∀ v, v ∈ input → palette_key s v = Ok (position_of d v) ∧
    in_u (Z.of_nat (Packed.bits p)) (position_of d v).
Proof.
  intros Hok Hnd Hs input. pose proof (indirect_palette_256 _ _ _ _ _ Hok) as H256.
  unfold zlen in H256. pose proof Hok as [Hwf _ _ _ _ _ Hk].
  assert (Hkey : ∀ i key, Packed.values p !! i = Some key →
    palette_key s (nth (Z.to_nat key) d 0) = Ok key ∧ position_of d (nth (Z.to_nat key) d 0) = key).
  { intros i key Hi. pose proof (key_lookup d p i key Hwf Hk Hi) as Hlk.
    pose proof (values_range p i key Hwf Hi) as [Hk0 _].
    assert (Hlk' : ∀ j, d !! j = Some (nth (Z.to_nat key) d 0) → Z.of_nat j = key).
    { intros j Hj. pose proof (NoDup_lookup _ _ _ _ Hnd Hj Hlk). lia. }
    split.
    - destruct (palette_key_spec s d (nth (Z.to_nat key) d 0)) as (j&->&Hj); [lia|done| |].
      + by eapply list_elem_of_lookup_2.
      + f_equal. by apply Hlk'.
    - unfold position_of. destruct (palette_position d _) as [j|] eqn:Ej.
      + apply palette_position_Some in Ej. cbn. by apply Hlk'.
      + apply palette_position_None in Ej. destruct Ej. by eapply list_elem_of_lookup_2. }
  split.
  - unfold input. rewrite <- list_fmap_compose. rewrite <- (list_fmap_id (Packed.values p)) at 1.
    apply list_fmap_ext. intros i key Hi. cbn. symmetry. by eapply Hkey.
  - intros v Hin. apply list_elem_of_fmap in Hin as (key&->&Hin).
    apply list_elem_of_lookup in Hin as [i Hi]. destruct (Hkey i key Hi) as [-> ->].
    split; [done|]. by eapply values_range.
Qed.

Section encode.
Context (k : ContainerKind) (r : Registry) (input : list Z) (o : Output) (s : PaletteScratch).
Let d := distinct input.
Hypothesis Hlen : length input = kind_len k.
Hypothesis Hscratch : ps_insert_all ps_new input = Ok s.
Hypothesis Hstands : stands_for s d.

Lemma encode_single v :
  inv {| kind := k; registry := r; storage := Single v |} →
  input = replicate (kind_len k) v → wanted_bits None (length d) = 0%nat →
  encode_dense k r input o = Ok (extend o (0 :: varint_bytes v)).
Proof using All.
  intros [Hreg Hv] Hin Hw. pose proof (kind_len_dims k) as Hkl. cbn in Hreg, Hv.
  assert (Hne : input ≠ []) by (intros E; rewrite E in Hlen; cbn in Hlen; lia).
  pose proof (distinct_nonempty input Hne) as Hd1. fold d in Hd1.
  pose proof (wanted_zero None k r (length d) I) as [Hz _]. destruct (Hz Hw) as [_ Hd].
  pose proof (stands_for_len s d Hstands) as Hpl.
  unfold encode_dense, lift. rewrite Hscratch. mstep.
  destruct (Nat.eqb_spec (plen s) 1); [|lia].
  rewrite Hin, lookup_replicate_2 by lia. mstep.
  rewrite append_varint_spec by (by eapply valid_u32). by rewrite extend_extend.
Qed.

Lemma encode_indirect cp p :
  registry_ok r → indirect_ok k r d cp p → input = (λ key, nth (Z.to_nat key) d 0) <$> Packed.values p →
  (1 ≤ wanted_bits None (length d) ≤ max_bits k)%nat →
  Packed.bits p = Nat.max (wanted_bits None (length d)) (min_bits k) →
  encode_dense k r input o =
    Ok (extend o (Z.of_nat (Packed.bits p) :: varint_bytes (zlen d) ++ ids_bytes d ++ words_bytes (words p))).
Proof using All.
  intros Hreg Hst Hin Hw Hpb. pose proof (indirect_palette_256 _ _ _ _ _ Hst) as H256.
  unfold zlen in H256. pose proof (stands_for_len s d Hstands) as Hpl.
  destruct (indirect_keys k r d cp p s Hst (distinct_nodup input) Hstands) as [Hvals Hfg].
  rewrite <- Hin in Hvals, Hfg. pose proof Hst as [Hwf Hl _ _ _ Hv _]. pose proof Hwf as [[Hb31 _] _ _].
  unfold encode_dense, lift. rewrite Hscratch. mstep.
  assert (Hpl' : plen s = length d) by lia. rewrite Hpl'.
  unfold wanted_bits in Hw, Hpb. destruct (length d =? 1)%nat; [lia|].
  set (needed := Z.to_nat (bit_len (Z.of_nat (length d) - 1))) in *.
  destruct (Nat.ltb_spec (max_bits k) needed); [lia|].
  rewrite normalized_indirect, <- Hpb, append_varint_spec by (done || unfold in_u; lia). mstep.
  pose proof Hstands as Hsf. unfold stands_for in Hsf. rewrite decide_True in Hsf by lia.
  destruct Hsf as (Hi&_&Htake). pose proof (inv_ids s Hi). rewrite Hpl' in Htake.
  destruct (Nat.leb_spec (length d) (length (ids s))); [|lia]. mstep. rewrite Htake.
  rewrite append_ids_spec by (by eapply valid_all_u32). mstep.
  destruct (Nat.eqb_spec (Packed.bits p) 0); [lia|]. cbn [negb]. mstep.
  pose proof (pack_chunks_spec _ _ _ Hb31 p input Hwf eq_refl Hvals Hfg (length input) 0) as Hpack.
  rewrite Nat.mul_0_l, !drop_0 in Hpack. rewrite Hpack; [by rewrite !extend_extend|].
  rewrite Hlen, <- Hl. by apply words_le_len.
Qed.

Lemma encode_direct p :
  direct_ok k r p → input = Packed.values p → (max_bits k < wanted_bits None (length d))%nat →
  encode_dense k r input o = Ok (extend o (Z.of_nat (Packed.bits p) :: words_bytes (words p))).
Proof using All.
  intros [Hwf Hl Hbits Hv] Hin Hw. pose proof Hwf as [[Hb31 _] _ _].
  pose proof (stands_for_len s d Hstands) as Hpl. pose proof (wanted_capped k None (length d)) as Hcap.
  cbv zeta in Hcap. rewrite <- Hpl in Hcap.
  assert (Hw' : (max_bits k < wanted_bits None (plen s))%nat) by lia.
  unfold encode_dense, lift. rewrite Hscratch. mstep.
  unfold wanted_bits in Hw'. destruct (plen s =? 1)%nat; [lia|].
  set (needed := Z.to_nat (bit_len (Z.of_nat (plen s) - 1))) in *.
  destruct (Nat.ltb_spec (max_bits k) needed); [|lia]. mstep.
  rewrite normalized_direct, <- Hbits by done.
  destruct (Nat.eqb_spec (Packed.bits p) 0); [lia|]. cbn [negb]. mstep.
  pose proof (pack_chunks_spec Ok id (Packed.bits p) Hb31 p input Hwf eq_refl) as Hpack.
  rewrite list_fmap_id in Hpack. specialize (Hpack (eq_sym Hin)).
  assert (Hfg : ∀ v, v ∈ input → Ok (E := Error) v = Ok (id v) ∧ in_u (Z.of_nat (Packed.bits p)) (id v)).
  { intros v Hvin. split; [done|]. rewrite Hin in Hvin. apply list_elem_of_lookup in Hvin as [i Hi].
    by eapply values_range. }
  specialize (Hpack Hfg (length input) 0%nat). rewrite Nat.mul_0_l, !drop_0 in Hpack.
  rewrite Hpack; [by rewrite !extend_extend|]. rewrite Hlen, <- Hl. by apply words_le_len.
Qed.
End encode.

Lemma encode_dense_spec c o :
  inv c → shape_ok (kind c) None (distinct (contents c)) (storage c) →
  encode_dense (kind c) (registry c) (contents c) o = Ok (extend o (network_bytes c)).
Proof.
  intros Hinv Hshape. pose proof (length_contents c Hinv) as Hl.
  destruct (ps_build (contents c)) as (s&Hs&Hsf). destruct c as [k r st].
  pose proof Hinv as [Hreg Hst]. cbn [kind registry storage] in *.
  destruct st as [v|palette cp p|p]; unfold shape_ok in Hshape; cbv zeta in Hshape.
  - by apply (encode_single k r _ o s).
  - destruct Hshape as (Hpal&Hw&Hpb). pose proof (encode_indirect k r _ o s Hl Hs Hsf cp p Hreg) as He.
    rewrite <- Hpal in He, Hw, Hpb. by apply He.
  - by apply (encode_direct k r _ o s).
Qed.

(** ** Bounds *)

Lemma words_bound p n m :
  wf p → (Packed.bits p ≤ n)%nat → (1 ≤ n)%nat → (len p ≤ m * (64 / n))%nat → (length (words p) ≤ m)%nat.
Proof.
  intros [[Hb Hl] Hc _] Hn H1 Hm. rewrite Hc, count_eq by done. pose proof (per_word_bounds _ Hb).
  assert (64 / n ≤ per_word (Packed.bits p))%nat by (apply Nat.div_le_compat_l; lia).
  apply Nat.lt_succ_r, Nat.Div0.div_lt_upper_bound. nia.
Qed.

Lemma ids_bytes_bound l : Forall (in_u 32) l → zlen (ids_bytes l) ≤ 5 * zlen l.
Proof.
  induction 1 as [|v l Hv _ IH]; [done|]. unfold ids_bytes, zlen in *. cbn [fmap list_fmap concat length].
  rewrite length_app. pose proof (length_varint_bytes v Hv) as Hl. unfold zlen in Hl.
  pose proof (varint_len_range (i_wrap 32 v) ltac:(by apply i_wrap_range)). lia.
Qed.

(** The largest encoding of each kind: direct words at 31 bits. *)
Definition max_network_len (k : ContainerKind) : Z := match k with Blocks => 1 + 2048 * 8 | Biomes => 1 + 32 * 8 end.

Lemma kind_len_blocks : kind_len Blocks = 4096%nat.
Proof. reflexivity. Qed.
Lemma kind_len_biomes : kind_len Biomes = 64%nat.
Proof. reflexivity. Qed.

Lemma network_len_bound c : inv c → 1 ≤ network_len c ≤ max_network_len (kind c).
Proof.
  intros Hinv. rewrite <- length_network_bytes by done. pose proof Hinv as [Hreg Hs].
  unfold network_bytes, zlen. cbn [length]. split; [lia|].
  destruct c as [k r st]. cbn [kind registry storage] in *. destruct st as [v|palette cp p|p].
  - pose proof (length_varint_bytes v ltac:(by eapply valid_u32)) as Hl. unfold zlen in Hl.
    pose proof (varint_len_range (i_wrap 32 v) ltac:(by apply i_wrap_range)). destruct k; cbn; lia.
  - pose proof Hs as [Hwf Hl Hb Hp Hc Hv _]. pose proof (indirect_palette_256 _ _ _ _ _ Hs) as H256.
    pose proof (length_varint_bytes (zlen palette) ltac:(unfold in_u; lia)) as Hvl.
    pose proof (varint_len_range (i_wrap 32 (zlen palette)) ltac:(by apply i_wrap_range)).
    pose proof (ids_bytes_bound palette ltac:(by eapply valid_all_u32)) as Hids.
    rewrite !length_app, length_words_bytes. unfold zlen in *.
    pose proof (pow2_le (Z.of_nat (Packed.bits p)) (Z.of_nat (max_bits k)) ltac:(lia)) as Hpow.
    destruct k; cbn [max_bits max_network_len] in *.
    + rewrite kind_len_blocks in Hl.
      pose proof (words_bound p 8 512 Hwf ltac:(lia) ltac:(lia) ltac:(rewrite Hl; vm_compute; lia)). lia.
    + rewrite kind_len_biomes in Hl. change (2 ^ Z.of_nat 3) with 8 in Hpow.
      pose proof (words_bound p 3 4 Hwf ltac:(lia) ltac:(lia) ltac:(rewrite Hl; vm_compute; lia)). lia.
  - pose proof Hs as [Hwf Hl Hb _]. rewrite length_words_bytes. pose proof Hwf as [[Hb31 _] _ _].
    pose proof (words_bound p 31 (kind_len k / 2) Hwf ltac:(lia) ltac:(lia)) as Hwb.
    change (64 / 31)%nat with 2%nat in Hwb.
    destruct k; cbn [max_network_len]; rewrite ?kind_len_blocks, ?kind_len_biomes in *.
    + change (4096 / 2)%nat with 2048%nat in Hwb. lia.
    + change (64 / 2)%nat with 32%nat in Hwb. lia.
Qed.

(** ** Sections *)

Record section_ok (s : Section_) : Prop := {
  so_counts : 0 ≤ fluid_blocks (counts s) ≤ non_empty_blocks (counts s) ∧ non_empty_blocks (counts s) ≤ 4096;
  so_blocks : inv (blocks s) ∧ kind (blocks s) = Blocks;
  so_biomes : inv (biomes s) ∧ kind (biomes s) = Biomes;
}.

Definition counts_bytes (c : SectionCounts) : list Z :=
  be_bytes 2 (non_empty_blocks c) ++ be_bytes 2 (fluid_blocks c).
Definition section_bytes (s : Section_) : list Z :=
  counts_bytes (counts s) ++ network_bytes (blocks s) ++ network_bytes (biomes s).

Lemma validate_counts_ok c :
  validate_counts c = Ok tt ↔ fluid_blocks c ≤ non_empty_blocks c ≤ 4096.
Proof.
  unfold validate_counts. change (Z.of_nat BLOCKS_PER_SECTION) with 4096.
  destruct (Z.ltb_spec 4096 (non_empty_blocks c)), (Z.ltb_spec (non_empty_blocks c) (fluid_blocks c));
    cbn [orb]; (split; [intros E; try done; lia|intros; try done; lia]).
Qed.

Lemma section_write_spec s o :
  section_ok s → section_write s o =
    if spare o <? zlen (section_bytes s) then Err OutputCapacity else Ok (extend o (section_bytes s)).
Proof.
  intros [Hc [Hb Hkb] [Hm Hkm]]. unfold section_write.
  rewrite (proj2 (validate_counts_ok (counts s))) by lia. mstep. rewrite Hkb, Hkm. cbn [kind_eqb andb]. mstep.
  assert (Hlen : zlen (section_bytes s) = 4 + network_len (blocks s) + network_len (biomes s)).
  { unfold section_bytes, counts_bytes. rewrite <- !length_network_bytes by done. unfold zlen.
    rewrite !length_app, !length_be_bytes. lia. }
  rewrite Hlen. destruct (Z.ltb_spec (spare o) (4 + network_len (blocks s) + network_len (biomes s)));
    cbn [negb]; mstep; [done|].
  pose proof (network_len_bound _ Hb). pose proof (network_len_bound _ Hm).
  assert (Hcnt : append_counts o (counts s) = extend o (counts_bytes (counts s)))
    by (unfold append_counts; apply extend_extend).
  assert (Hsp : ∀ o', spare (extend o' (counts_bytes (counts s))) = spare o' - 4).
  { intros o'. rewrite spare_extend. unfold counts_bytes, zlen. rewrite length_app, !length_be_bytes. lia. }
  rewrite Hcnt, write_network_spec, Hsp by done.
  destruct (Z.ltb_spec (spare o - 4) (network_len (blocks s))); [lia|]. mstep.
  rewrite write_network_spec, spare_extend, Hsp, length_network_bytes by done.
  destruct (Z.ltb_spec (spare o - 4 - network_len (blocks s)) (network_len (biomes s))); [lia|].
  by rewrite !extend_extend.
Qed.

(** ** Properties *)

(** C30. Container round trip, for [portable] containers: single, indirect, or
    direct with a registry width above the indirect widths of its kind (a direct
    container of a narrower registry has the width byte of an indirect one and is
    read back as that).  [write_network] fails (with [OutputCapacity]) exactly
    when the spare capacity is below [network_len], and otherwise appends exactly
    [network_len] bytes without outgrowing the capacity; [read_network] on those
    bytes, whatever follows them, consumes exactly them and rebuilds the same
    container (IDs, palette order, widths and words), or fails for lack of memory,
    which cannot happen when memory is granted exactly and the limit covers the
    container. *)
Theorem container_network_roundtrip `{Allocator} c o rest limit :
  inv c → portable c →
  match write_network c o with
  | Ok o' => network_len c ≤ spare o ∧ capacity o' = capacity o ∧ 0 ≤ spare o' ∧
      ∃ bytes, data o' = data o ++ bytes ∧ zlen bytes = network_len c ∧
        reads_back c rest limit (read_network (bytes ++ rest) (kind c) (registry c) limit)
  | Err e => e = OutputCapacity ∧ spare o < network_len c
  | Panic | NoFuel => False
  end.
Proof.
  intros Hinv Hport. rewrite write_network_spec by done.
  destruct (Z.ltb_spec (spare o) (network_len c)); [done|]. split_and!; [done|done| |].
  - rewrite spare_extend, length_network_bytes by done. lia.
  - exists (network_bytes c). split_and!; [done|by apply length_network_bytes|].
    by apply read_network_back.
Qed.

(** C31. Hostile input: on any bytes whatsoever [read_network] never panics; it
    returns either a container that satisfies the invariant and stays within
    the allocation limit, with the unread rest of the input, or one of the
    errors listed (never [NonCanonicalPadding] or [InvalidLength], because the
    padding is cleared and the words are counted before they are packed). *)
Theorem container_network_sound `{Allocator} input k r limit :
  registry_ok r → bytes_ok input → 0 ≤ limit →
  match read_network input k r limit with
  | Ok (c, rest) => inv c ∧ kind c = k ∧ registry c = r ∧ heap_bytes c ≤ limit ∧ rest `suffix_of` input
  | Err e =>
      e = Truncated ∨ e = InvalidVarInt ∨ e = AllocationBudgetExceeded ∨ e = AllocationFailed ∨
      (∃ n, e = InvalidBits n ∨ e = ValueOutOfRange n ∨ e = InvalidPaletteLength n ∨
            e = InvalidPaletteIndex n)
  | Panic | NoFuel => False
  end.
Proof.
  intros Hr Hb Hl. pose proof (read_network_cases input k r limit Hr Hb Hl) as Hc.
  destruct (read_network input k r limit) as [[c rest]|e| |]; [tauto|exact Hc|done|done].
Qed.

(** Section round trip: a valid section is written exactly when its bytes
    fit, into at most [MAX_SECTION_NETWORK_BYTES] bytes, and reading them back
    with the same registries gives the same counts and the same containers and
    leaves the rest of the packet; only lack of memory can prevent it, and not
    when memory is exact and the limit covers both containers. *)
Theorem section_network_roundtrip `{Allocator} s o rest limit :
  section_ok s → portable (blocks s) → portable (biomes s) →
  match section_write s o with
  | Ok o' => ∃ bytes, data o' = data o ++ bytes ∧ zlen bytes ≤ MAX_SECTION_NETWORK_BYTES ∧
      zlen (data o') ≤ capacity o' ∧ capacity o' = capacity o ∧
      match section_read (bytes ++ rest) (registry (blocks s)) (registry (biomes s)) limit with
      | Ok (s', rest') => rest' = rest ∧ counts s' = counts s ∧
          same_container (blocks s) (blocks s') ∧ same_container (biomes s) (biomes s')
      | Err e => (e = AllocationBudgetExceeded ∨ e = AllocationFailed) ∧
          (exact_memory → limit < read_cost (blocks s) + read_cost (biomes s))
      | Panic | NoFuel => False
      end
  | Err e => e = OutputCapacity ∧ spare o < MAX_SECTION_NETWORK_BYTES
  | Panic | NoFuel => False
  end.
Proof.
  intros Hok Hpb Hpm. pose proof Hok as [Hc [Hb Hkb] [Hm Hkm]]. rewrite section_write_spec by done.
  pose proof (network_len_bound _ Hb) as Hbb. pose proof (network_len_bound _ Hm) as Hbm.
  rewrite Hkb in Hbb. rewrite Hkm in Hbm. cbn [max_network_len] in Hbb, Hbm.
  assert (Hlen : zlen (section_bytes s) = 4 + network_len (blocks s) + network_len (biomes s)).
  { unfold section_bytes, counts_bytes. rewrite <- !length_network_bytes by done. unfold zlen.
    rewrite !length_app, !length_be_bytes. lia. }
  unfold MAX_SECTION_NETWORK_BYTES.
  destruct (Z.ltb_spec (spare o) (zlen (section_bytes s))) as [Hlt|Hge]; [split; [done|lia]|].
  exists (section_bytes s). split_and!; [done|lia| |done|].
  { unfold spare, extend, zlen in *. cbn [data capacity]. rewrite length_app. lia. }
  unfold section_read, take_bytes.
  destruct (Z.ltb_spec (zlen (section_bytes s ++ rest)) 4) as [Hs|Hs].
  { unfold zlen in *. rewrite length_app in Hs. lia. }
  mstep. change (Z.to_nat 4) with 4%nat. unfold section_bytes, counts_bytes.
  rewrite <- !(assoc_L (++)).
  destruct (counts s) as [ne fl] eqn:Ec. cbn [non_empty_blocks fluid_blocks] in *.
  change (take 4 (be_bytes 2 ne ++ be_bytes 2 fl ++ ?l)) with (be_bytes 2 ne ++ be_bytes 2 fl).
  change (drop 4 (be_bytes 2 ne ++ be_bytes 2 fl ++ ?l)) with l.
  change (take 2 (be_bytes 2 ne ++ be_bytes 2 fl)) with (be_bytes 2 ne).
  change (take 2 (drop 2 (be_bytes 2 ne ++ be_bytes 2 fl))) with (be_bytes 2 fl).
  rewrite !be_value_be_bytes, !u_wrap_id by (unfold in_u; cbn; lia).
  rewrite (proj2 (validate_counts_ok _)) by (cbn; lia). mstep.
  pose proof (read_network_back (blocks s) (network_bytes (biomes s) ++ rest) limit Hb Hpb) as Hrb.
  rewrite Hkb in Hrb. unfold reads_back in Hrb.
  assert (0 ≤ read_cost (biomes s)).
  { unfold read_cost. destruct (storage (biomes s)); unfold zlen; lia. }
  destruct (read_network _ Blocks _ _) as [[cb rest1]|e| |]; mstep; [| |done|done].
  2: { split; [tauto|]. intros He. destruct Hrb as [_ Hrb]. specialize (Hrb He). lia. }
  destruct Hrb as (->&Hsb&Hcost). unfold checked_sub.
  destruct (Z.leb_spec (heap_bytes cb) limit) as [Hle|Hgt]; mstep.
  2: { split; [tauto|]. intros He. specialize (Hcost He). lia. }
  pose proof (read_network_back (biomes s) rest (limit - heap_bytes cb) Hm Hpm) as Hrm.
  rewrite Hkm in Hrm. unfold reads_back in Hrm.
  destruct (read_network _ Biomes _ _) as [[cm rest2]|e| |]; mstep; [| |done|done].
  2: { split; [tauto|]. intros He. destruct Hrm as [_ Hrm]. specialize (Hrm He). specialize (Hcost He). lia. }
  destruct Hrm as (->&Hsm&_). by split_and!.
Qed.

Lemma from_dense_exists k r input :
  registry_ok r → Forall (valid r) input → length input = kind_len k →
  ∃ c, @from_dense exact_allocator k r input MAX_HEAP_BYTES = Ok c ∧ inv c ∧ kind c = k ∧ registry c = r ∧
    contents c = input ∧ shape_ok k None (distinct input) (storage c).
Proof.
  intros Hr Hv Hl.
  assert (Hpos : Forall (λ v, 0 ≤ v) input) by (eapply Forall_impl; [exact Hv|by intros ? [??]]).
  pose proof (@build_spec exact_allocator k r input None MAX_HEAP_BYTES Hr Hpos ltac:(unfold MAX_HEAP_BYTES; lia) I) as Hb.
  unfold from_dense, build_result in *. destruct (build _ _ _ _ _) as [c|e| |]; [|exfalso|done|done].
  - destruct Hb as (_&Hi&Hk&Hrg&Hc&_&Hs). by exists c.
  - destruct Hb as [[_ ?]|[(_&v&Hin&Hn&_)|(_&_&_&He)]]; [done| |].
    + rewrite Forall_forall in Hv. by apply Hn, Hv.
    + specialize (He exact_memory_holds). lia.
Qed.

(** C21. The worker kernel [prepare_section] is equivalent to building both
    containers with [from_dense] and writing the section: it answers
    [InvalidCounts], [OutputCapacity] or [ValueOutOfRange] exactly when the
    stated check fails, and otherwise appends the very bytes the section
    writer appends for those containers, within the reserved capacity. *)
Theorem prepare_section_equiv blocks biomes br bir counts o :
  registry_ok br → registry_ok bir →
  length blocks = kind_len Blocks → length biomes = kind_len Biomes →
  Forall (λ v, 0 ≤ v) blocks → Forall (λ v, 0 ≤ v) biomes → 0 ≤ fluid_blocks counts →
  match prepare_section blocks biomes br bir counts o with
  | Ok o' => ∃ cb cm,
      @from_dense exact_allocator Blocks br blocks MAX_HEAP_BYTES = Ok cb ∧
      @from_dense exact_allocator Biomes bir biomes MAX_HEAP_BYTES = Ok cm ∧
      section_write {| counts := counts; blocks := cb; biomes := cm |} o = Ok o' ∧
      zlen (data o') ≤ capacity o'
  | Err e =>
      (e = InvalidCounts ∧ ¬ (fluid_blocks counts ≤ non_empty_blocks counts ≤ 4096)) ∨
      (e = OutputCapacity ∧ spare o < MAX_SECTION_NETWORK_BYTES) ∨
      ∃ v, e = ValueOutOfRange v ∧ (v ∈ blocks ∧ ¬ valid br v ∨ v ∈ biomes ∧ ¬ valid bir v)
  | Panic | NoFuel => False
  end.
Proof.
  intros Hbr Hbir Hlb Hlm Hpb Hpm Hfl. unfold prepare_section.
  destruct (validate_counts counts) as [[]|e| |] eqn:Ec; mstep.
  2: { left. revert Ec. unfold validate_counts. change (Z.of_nat BLOCKS_PER_SECTION) with 4096.
    destruct (Z.ltb_spec 4096 (non_empty_blocks counts)), (Z.ltb_spec (non_empty_blocks counts) (fluid_blocks counts));
      cbn [orb]; intros [= <-]; (split; [done|lia]). }
  2,3: unfold validate_counts in Ec; by case_match.
  apply validate_counts_ok in Ec.
  destruct (Z.ltb_spec (spare o) MAX_SECTION_NETWORK_BYTES) as [Hlt|Hge]; cbn [negb]; mstep; [by right; left|].
  destruct (validate_all_spec br blocks Hpb) as [[-> Hvb]|(v&?&?&->)]; mstep; [|right; right; naive_solver].
  destruct (validate_all_spec bir biomes Hpm) as [[-> Hvm]|(v&?&?&->)]; mstep; [|right; right; naive_solver].
  destruct (from_dense_exists Blocks br blocks Hbr Hvb Hlb) as (cb&Hcb&Hib&Hkb&Hrb&Hcontb&Hsb).
  destruct (from_dense_exists Biomes bir biomes Hbir Hvm Hlm) as (cm&Hcm&Him&Hkm&Hrm&Hcontm&Hsm).
  pose proof (encode_dense_spec cb (append_counts o counts) Hib) as Heb.
  rewrite Hkb, Hrb, Hcontb in Heb. rewrite (Heb Hsb). mstep.
  match goal with |- context [encode_dense Biomes _ _ ?out] => pose proof (encode_dense_spec cm out Him) as Hem end.
  rewrite Hkm, Hrm, Hcontm in Hem. rewrite (Hem Hsm). exists cb, cm. split_and!; [done|done| |].
  - assert (Hok : section_ok {| counts := counts; blocks := cb; biomes := cm |}) by (split; cbn; [lia|done|done]).
    rewrite section_write_spec by done.
    pose proof (network_len_bound _ Hib) as Hbb. pose proof (network_len_bound _ Him) as Hbm.
    rewrite Hkb in Hbb. rewrite Hkm in Hbm. cbn [max_network_len] in *. unfold MAX_SECTION_NETWORK_BYTES in Hge.
    rewrite <- length_network_bytes in Hbb, Hbm by done.
    destruct (Z.ltb_spec (spare o) (zlen (section_bytes {| counts := counts; blocks := cb; biomes := cm |}))) as [Hl|_].
    { exfalso. unfold section_bytes, counts_bytes in Hl. cbn [SectionNet.counts SectionNet.blocks SectionNet.biomes] in Hl.
      unfold zlen in *. rewrite !length_app, !length_be_bytes in Hl. lia. }
    unfold append_counts, section_bytes, counts_bytes. by rewrite !extend_extend.
  - pose proof (network_len_bound _ Hib) as Hbb. pose proof (network_len_bound _ Him) as Hbm.
    rewrite Hkb in Hbb. rewrite Hkm in Hbm. cbn [max_network_len] in *. unfold MAX_SECTION_NETWORK_BYTES in Hge.
    rewrite <- length_network_bytes in Hbb, Hbm by done.
    unfold append_counts, extend, spare, zlen in *. cbn [data capacity].
    rewrite !length_app, !length_be_bytes. lia.
Qed.

(** ** The properties at concrete data *)

Lemma container_network_roundtrip_witness :
  ∃ c bytes, from_dense Biomes five_biomes two_halves 1000 = Ok c ∧
    write_network c {| data := [7]; capacity := 13 |} = Ok {| data := 7 :: bytes; capacity := 13 |} ∧
    bytes = [1; 2; 1; 4; 255; 255; 255; 255; 0; 0; 0; 0] ∧
    reads_back c [9] 1000 (read_network (bytes ++ [9]) Biomes five_biomes 1000).
Proof.
  destruct two_halves_container as (c&E&Hi&_). vm_compute in E. injection E as <-.
  match type of Hi with inv ?c =>
    pose proof (container_network_roundtrip c {| data := [7]; capacity := 13 |} [9] 1000 Hi I) as Hr end.
  destruct Hr as (_&_&_&bytes&Hd&_&Hb). vm_compute in Hd. injection Hd as <-.
  eexists _, _. split; [vm_compute; reflexivity|]. split; [vm_compute; reflexivity|].
  split; [reflexivity|exact Hb].
Defined.

(** A short packet and a packet with an index outside its palette. *)
Lemma container_network_sound_witness :
  read_network [1; 2; 1] Biomes five_biomes 1000 = Err Truncated ∧
  read_network [1; 1; 1; 255; 255; 255; 255; 255; 255; 255; 255] Biomes five_biomes 1000
    = Err (InvalidPaletteIndex 1) ∧
  ∃ c, read_network [0; 3; 8] Biomes five_biomes 1000 = Ok (c, [8]) ∧ inv c.
Proof.
  split; [reflexivity|]. split; [vm_compute; reflexivity|].
  pose proof (container_network_sound [0; 3; 8] Biomes five_biomes 1000) as Hs.
  specialize (Hs five_biomes_ok ltac:(repeat constructor; unfold is_byte, in_u; lia) ltac:(lia)).
  eexists. split; [vm_compute; reflexivity|]. exact (proj1 Hs).
Defined.

Definition plain_section : Section_ := {|
  counts := {| non_empty_blocks := 4096; fluid_blocks := 7 |};
  blocks := {| kind := Blocks; registry := {| state_count := 300 |}; storage := Single 299 |};
  biomes := {| kind := Biomes; registry := five_biomes; storage := Single 4 |};
|}.

Lemma section_network_roundtrip_witness :
  ∃ bytes, section_write plain_section {| data := []; capacity := 20 |} = Ok {| data := bytes; capacity := 20 |} ∧
    bytes = [16; 0; 0; 7; 0; 171; 2; 0; 4] ∧
    section_read (bytes ++ [1]) {| state_count := 300 |} five_biomes 0 = Ok (plain_section, [1]).
Proof.
  assert (Hok : section_ok plain_section).
  { split; cbn; [lia|split; [|reflexivity]..]; split; unfold registry_ok, valid; cbn; lia. }
  pose proof (section_network_roundtrip plain_section {| data := []; capacity := 20 |} [1] 0 Hok I I) as Hs.
  destruct Hs as (bytes&Hd&_&_&_&Hr). vm_compute in Hd. subst bytes.
  eexists. split; [vm_compute; reflexivity|]. split; [reflexivity|].
  match type of Hr with match ?s with _ => _ end => destruct s as [[s' rest]|e| |] eqn:Es end;
    try (vm_compute in Es; discriminate).
  vm_compute in Es. injection Es as <- <-. reflexivity.
Defined.

Lemma prepare_section_equiv_witness :
  ∃ o', prepare_section (replicate 4096 299) two_halves {| state_count := 300 |} five_biomes
      {| non_empty_blocks := 4096; fluid_blocks := 7 |} {| data := []; capacity := 20000 |} = Ok o' ∧
    data o' = [16; 0; 0; 7; 0; 171; 2; 1; 2; 1; 4; 255; 255; 255; 255; 0; 0; 0; 0] ∧
    ∃ cb cm, section_write {| counts := {| non_empty_blocks := 4096; fluid_blocks := 7 |};
      blocks := cb; biomes := cm |} {| data := []; capacity := 20000 |} = Ok o'.
Proof.
  pose proof (prepare_section_equiv (replicate 4096 299) two_halves {| state_count := 300 |} five_biomes
    {| non_empty_blocks := 4096; fluid_blocks := 7 |} {| data := []; capacity := 20000 |}
    ltac:(unfold registry_ok; cbn; lia) five_biomes_ok
    ltac:(rewrite kind_len_blocks; apply length_replicate) ltac:(by rewrite kind_len_biomes)
    (Forall_replicate (λ v, 0 ≤ v) 4096 299 ltac:(cbn; lia)) two_halves_pos ltac:(cbn; lia)) as Hp.
  match type of Hp with match ?s with _ => _ end => destruct s as [o'|e| |] eqn:Es end;
    try (vm_compute in Es; discriminate).
  exists o'. split; [reflexivity|]. destruct Hp as (cb&cm&_&_&Hw&_).
  split; [vm_compute in Es; by injection Es as <-|]. exists cb, cm. exact Hw.
Defined.
