(* ===== verification/View.v ===== *)
(** * Player chunk views (src/world/view.rs)

    The tracking geometry, the streamed difference of two views and the
    resumable owner [PlayerView].  Coordinates are [i32] values in [Z] with
    the wrapping operations written out; the loop of [ViewDifference::next]
    runs with fuel [SCAN_FUEL], which is more than the 133*133 cells of the
    largest union.  The file ends with the client's side: what the events say
    when they are applied one by one. *)

From stdpp Require Import sets relations.
From S2P Require Import Prelude.
Local Open Scope Z_scope.

Record ChunkAddress := { x : Z; z : Z }.
#[global] Instance ChunkAddress_eq_dec : EqDecision ChunkAddress.
Proof. solve_decision. Defined.

Definition MIN_VIEW_DISTANCE : Z := 2.
Definition MAX_VIEW_DISTANCE : Z := 32.

(** [Ord::clamp] panics on an empty range. *)
Definition clamp (lo hi v : Z) : outcome False Z :=
  if hi <? lo then Panic else Ok (Z.max lo (Z.min hi v)).

Definition ViewDistance := Z.
Definition distance_server (requested : Z) : outcome False ViewDistance :=
  clamp MIN_VIEW_DISTANCE MAX_VIEW_DISTANCE requested.
Definition effective (d : ViewDistance) (client_requested : Z) : outcome False ViewDistance :=
  clamp MIN_VIEW_DISTANCE d client_requested.

Inductive ViewError := CoordinateBounds | UpdateActive | NoUpdate | NoEvent | UnconsumedEvents.

Record Bounds := { bmin : ChunkAddress; bmax : ChunkAddress }.
#[global] Instance Bounds_eq_dec : EqDecision Bounds.
Proof. solve_decision. Defined.

Definition intersects (a b : Bounds) : bool :=
  (x (bmin a) <=? x (bmax b)) && (x (bmin b) <=? x (bmax a)) &&
  (z (bmin a) <=? z (bmax b)) && (z (bmin b) <=? z (bmax a)).

Definition bounds_union (a b : Bounds) : Bounds := {|
  bmin := {| x := Z.min (x (bmin a)) (x (bmin b)); z := Z.min (z (bmin a)) (z (bmin b)) |};
  bmax := {| x := Z.max (x (bmax a)) (x (bmax b)); z := Z.max (z (bmax a)) (z (bmax b)) |};
|}.

Record PositionedView := { vcenter : ChunkAddress; vdistance : ViewDistance; vbounds : Bounds }.
#[global] Instance PositionedView_eq_dec : EqDecision PositionedView.
Proof. solve_decision. Defined.

Definition TrackingView := option PositionedView.
Definition EMPTY : TrackingView := None.

(** [checked_sub]/[checked_add] on [i32]. *)
Definition i32_min : Z := - 2 ^ 31.
Definition i32_max : Z := 2 ^ 31 - 1.
Definition checked_i32 (v : Z) : option Z :=
  if (i32_min <=? v) && (v <=? i32_max) then Some v else None.

Definition view_minimum (extent value : Z) : outcome ViewError Z :=
  ok_or (checked_i32 (value - extent)) CoordinateBounds.
Definition view_maximum (extent value : Z) : outcome ViewError Z :=
  ok_or (m ← checked_i32 (value + extent); if m =? i32_max then None else Some m) CoordinateBounds.

Definition positioned (center : ChunkAddress) (distance : ViewDistance) : outcome ViewError TrackingView :=
  let extent := distance + 1 in
  min_x ← view_minimum extent (x center);
  min_z ← view_minimum extent (z center);
  max_x ← view_maximum extent (x center);
  max_z ← view_maximum extent (z center);
  Ok (Some {| vcenter := center; vdistance := distance;
              vbounds := {| bmin := {| x := min_x; z := min_z |};
                            bmax := {| x := max_x; z := max_z |} |} |}).

Definition view_center (v : TrackingView) : option ChunkAddress := vcenter <$> v.

(** [value.wrapping_sub(origin).wrapping_abs().wrapping_sub(border).max(0)] *)
Definition axis (border value origin : Z) : Z :=
  Z.max 0 (i_wrap 32 (i_wrap 32 (Z.abs (i_wrap 32 (value - origin))) - border)).

Definition is_within_distance (center : ChunkAddress) (distance : ViewDistance)
    (chunk : ChunkAddress) (include_neighbors : bool) : bool :=
  let border := if include_neighbors then 2 else 1 in
  let dx := axis border (x chunk) (x center) in
  let dz := axis border (z chunk) (z center) in
  i_wrap 64 (i_wrap 64 (dx * dx) + i_wrap 64 (dz * dz)) <? distance * distance.

Definition contains (v : TrackingView) (chunk : ChunkAddress) : bool :=
  match v with
  | Some view => is_within_distance (vcenter view) (vdistance view) chunk true
  | None => false
  end.
Definition is_in_view_distance (v : TrackingView) (chunk : ChunkAddress) : bool :=
  match v with
  | Some view => is_within_distance (vcenter view) (vdistance view) chunk false
  | None => false
  end.

(** ** The scan and the difference *)

Inductive ViewChange := CEnter (c : ChunkAddress) | CLeave (c : ChunkAddress).

Record Scan := { sbounds : Bounds; snext : option ChunkAddress }.

Definition scan_new (b : Bounds) : Scan := {| sbounds := b; snext := Some (bmin b) |}.

Definition scan_next (s : Scan) : option (ChunkAddress * Scan) :=
  result ← snext s;
  let next :=
    if z result <? z (bmax (sbounds s)) then Some {| x := x result; z := z result + 1 |}
    else if x result <? x (bmax (sbounds s)) then
      Some {| x := x result + 1; z := z (bmin (sbounds s)) |}
    else None in
  Some (result, {| sbounds := sbounds s; snext := next |}).

Inductive DifferencePhase := Overlap | Leave | Enter | Done.

Record ViewDifference := {
  previous : TrackingView;
  next : TrackingView;
  scan : option Scan;
  phase : DifferencePhase;
}.

Definition difference_new (previous next : TrackingView) : ViewDifference :=
  let '(phase, bounds) :=
    if decide (previous = next) then (Done, None)
    else match previous, next with
         | Some old, Some new =>
             if intersects (vbounds old) (vbounds new)
             then (Overlap, Some (bounds_union (vbounds old) (vbounds new)))
             else (Leave, Some (vbounds old))
         | _, _ => (Leave, vbounds <$> previous)
         end in
  {| previous := previous; next := next; scan := scan_new <$> bounds; phase := phase |}.

Definition not_enter (p : DifferencePhase) : bool := match p with Enter => false | _ => true end.
Definition not_leave (p : DifferencePhase) : bool := match p with Leave => false | _ => true end.

(** [ViewDifference::next]: the result with the iterator afterwards. *)
Fixpoint difference_next (fuel : nat) (d : ViewDifference)
    : outcome False (option ViewChange * ViewDifference) :=
  match fuel with
  | O => NoFuel
  | S fuel' =>
      match scan d ≫= scan_next with
      | Some (chunk, s) =>
          let d' := {| previous := previous d; next := next d; scan := Some s; phase := phase d |} in
          let was := not_enter (phase d) && contains (previous d) chunk in
          let now := not_leave (phase d) && contains (next d) chunk in
          if xorb was now then Ok (Some (if now then CEnter chunk else CLeave chunk), d')
          else difference_next fuel' d'
      | None =>
          match phase d with
          | Leave => difference_next fuel'
              {| previous := previous d; next := next d;
                 scan := (λ view, scan_new (vbounds view)) <$> next d; phase := Enter |}
          | _ => Ok (None, {| previous := previous d; next := next d; scan := None; phase := Done |})
          end
      end
  end.

Definition SCAN_FUEL : nat := Z.to_nat (133 * 133 + 3).

(** ** The owner *)

Inductive ViewEvent := SetCenter (c : ChunkAddress) | EEnter (c : ChunkAddress) | ELeave (c : ChunkAddress).
#[global] Instance ViewEvent_eq_dec : EqDecision ViewEvent.
Proof. solve_decision. Defined.

Definition event_from (change : ViewChange) : ViewEvent :=
  match change with CEnter c => EEnter c | CLeave c => ELeave c end.

Record Transition := { tnext : TrackingView; changes : ViewDifference; event : option ViewEvent }.

Record PlayerView := { current : TrackingView; transition : option Transition }.

Definition player_new : PlayerView := {| current := EMPTY; transition := None |}.

(** [changes.next().map(ViewEvent::from)] *)
Definition next_event (d : ViewDifference) : outcome ViewError (option ViewEvent * ViewDifference) :=
  '(c, changes) ← lift (difference_next SCAN_FUEL d);
  Ok (fmap (M := option) event_from c, changes).

Definition first_event (current next : TrackingView) (changes : ViewDifference)
    : outcome ViewError (option ViewEvent * ViewDifference) :=
  match view_center next with
  | Some center =>
      if decide (Some center = view_center current) then next_event changes
      else Ok (Some (SetCenter center), changes)
  | None => next_event changes
  end.

Definition begin_update (p : PlayerView) (next : TrackingView) : outcome ViewError PlayerView :=
  match transition p with
  | Some _ => Err UpdateActive
  | None =>
      '(event, changes) ← first_event (current p) next (difference_new (current p) next);
      Ok {| current := current p;
            transition := Some {| tnext := next; changes := changes; event := event |} |}
  end.

Definition pending_event (p : PlayerView) : option ViewEvent := t ← transition p; event t.

Definition acknowledge_event (p : PlayerView) : outcome ViewError PlayerView :=
  t ← ok_or (transition p) NoUpdate;
  match event t with
  | None => Err NoEvent
  | Some _ =>
      '(event, changes) ← next_event (changes t);
      Ok {| current := current p;
            transition := Some {| tnext := tnext t; changes := changes; event := event |} |}
  end.

Definition finish_update (p : PlayerView) : outcome ViewError PlayerView :=
  t ← ok_or (transition p) NoUpdate;
  match event t with
  | Some _ => Err UnconsumedEvents
  | None => Ok {| current := tnext t; transition := None |}
  end.

(** ** Geometry *)

Definition coord_ok (c : ChunkAddress) : Prop := in_i 32 (x c) ∧ in_i 32 (z c).
Definition distance_ok (d : ViewDistance) : Prop := 2 ≤ d ≤ 32.

(** What [positioned] builds. *)
Definition view_ok (v : TrackingView) : Prop :=
  match v with
  | None => True
  | Some p => coord_ok (vcenter p) ∧ distance_ok (vdistance p) ∧
      positioned (vcenter p) (vdistance p) = Ok (Some p)
  end.

Definition in_bounds (b : Bounds) (c : ChunkAddress) : Prop :=
  x (bmin b) ≤ x c ≤ x (bmax b) ∧ z (bmin b) ≤ z c ≤ z (bmax b).
Definition bounds_ok (b : Bounds) : Prop := x (bmin b) ≤ x (bmax b) ∧ z (bmin b) ≤ z (bmax b).

Lemma checked_i32_spec v w : checked_i32 v = Some w ↔ w = v ∧ in_i 32 v.
Proof.
  unfold checked_i32, in_i, i32_min, i32_max. change (2 ^ (32 - 1)) with (2 ^ 31).
  destruct (Z.leb_spec (- 2 ^ 31) v), (Z.leb_spec v (2 ^ 31 - 1)); cbn [andb];
    (split; [intros E; try discriminate; injection E as <-; split; first [done|lia]|intros [-> ?]; (done || lia)]).
Qed.

Lemma i_wrap_in w v : 0 < w → in_i w v → i_wrap w v = v.
Proof.
  intros Hw Hv. rewrite <- (i_wrap_u_wrap w v) at 2 by done. unfold i_wrap, u_wrap.
  by rewrite Z.mod_mod by (pose proof (pow2_pos w); lia).
Qed.

(** The square around the centre, as [positioned] computes it. *)
Lemma view_ok_bounds p :
  view_ok (Some p) →
  let e := vdistance p + 1 in
  x (bmin (vbounds p)) = x (vcenter p) - e ∧ x (bmax (vbounds p)) = x (vcenter p) + e ∧
  z (bmin (vbounds p)) = z (vcenter p) - e ∧ z (bmax (vbounds p)) = z (vcenter p) + e ∧
  in_i 32 (x (vcenter p) - e) ∧ in_i 32 (x (vcenter p) + e) ∧
  in_i 32 (z (vcenter p) - e) ∧ in_i 32 (z (vcenter p) + e).
Proof.
  intros (_&_&H). unfold positioned, view_minimum, view_maximum in H. inv_bind H.
  apply bind_Some in Hv1 as (m1&Hm1&Hv1). apply bind_Some in Hv2 as (m2&Hm2&Hv2).
  rewrite checked_i32_spec in Hv, Hv0, Hm1, Hm2. repeat case_match; simplify_eq.
  destruct Hv, Hv0, Hm1, Hm2. rewrite <- H in *. cbn in *. subst. split_and!; done.
Qed.

(** Wrapped subtraction only looks near for points that are near. *)
Lemma axis_spec border value origin r :
  in_i 32 value → in_i 32 origin → 1 ≤ border ≤ 2 → 2 ≤ r ≤ 32 →
  in_i 32 (origin - (r + 1)) → in_i 32 (origin + (r + 1)) →
  0 ≤ axis border value origin < 2 ^ 31 ∧
  (axis border value origin < r → axis border value origin = Z.max 0 (Z.abs (value - origin) - border) ∧
     Z.abs (value - origin) ≤ r + 1) ∧
  (Z.max 0 (Z.abs (value - origin) - border) < r →
     axis border value origin = Z.max 0 (Z.abs (value - origin) - border)).
Proof.
  unfold in_i. change (2 ^ (32 - 1)) with 2147483648. intros Hv Ho Hb Hr Hlo Hhi.
  unfold axis, i_wrap. change (2 ^ 32) with 4294967296. change (2 ^ (32 - 1)) with 2147483648.
  change (2 ^ 31) with 2147483648.
  assert (Hm : (value - origin) `mod` 4294967296 = if 0 <=? value - origin then value - origin else value - origin + 4294967296).
  { destruct (Z.leb_spec 0 (value - origin)); [rewrite Z.mod_small; lia|].
    rewrite <- (Z.mod_add _ 1) by lia. rewrite Z.mod_small; lia. }
  rewrite Hm. clear Hm.
  set (dv := if (if 0 <=? value - origin then value - origin else value - origin + 4294967296) <? 2147483648
       then if 0 <=? value - origin then value - origin else value - origin + 4294967296
       else (if 0 <=? value - origin then value - origin else value - origin + 4294967296) - 4294967296).
  assert (Hdv : -2147483648 ≤ dv < 2147483648 ∧
    (dv = value - origin ∨ dv = value - origin - 4294967296 ∨ dv = value - origin + 4294967296)).
  { unfold dv. destruct (Z.leb_spec 0 (value - origin)); case_match; lia. }
  clearbody dv. destruct Hdv as [Hd1 Hd2].
  rewrite (Z.mod_small (Z.abs dv)) by lia.
  set (av := if Z.abs dv <? 2147483648 then Z.abs dv else Z.abs dv - 4294967296).
  assert (Hav : (dv = -2147483648 ∧ av = -2147483648) ∨ (-2147483648 < dv ∧ av = Z.abs dv)).
  { unfold av. destruct (Z.ltb_spec (Z.abs dv) 2147483648); lia. }
  clearbody av.
  assert (Hmod : (av - border) `mod` 4294967296 = if 0 <=? av - border then av - border else av - border + 4294967296).
  { destruct (Z.leb_spec 0 (av - border)); [rewrite Z.mod_small; lia|].
    rewrite <- (Z.mod_add _ 1) by lia. rewrite Z.mod_small; lia. }
  rewrite Hmod. clear Hmod. destruct (Z.leb_spec 0 (av - border)); case_match; lia.
Qed.

(** Distance of a point from a centre, as the doc comments describe it. *)
Definition near (border : Z) (p : PositionedView) (c : ChunkAddress) : Prop :=
  let dx := Z.max 0 (Z.abs (x c - x (vcenter p)) - border) in
  let dz := Z.max 0 (Z.abs (z c - z (vcenter p)) - border) in
  dx * dx + dz * dz < vdistance p * vdistance p.

Lemma squares_lt a b r : 0 ≤ r → a * a + b * b < r * r → a < r ∧ b < r.
Proof.
  intros Hr H. pose proof (Z.square_nonneg a). pose proof (Z.square_nonneg b).
  split; apply Z.square_lt_simpl_nonneg; lia.
Qed.

Lemma within_distance_spec p c nb :
  view_ok (Some p) → coord_ok c →
  is_within_distance (vcenter p) (vdistance p) c nb = true ↔ near (if nb then 2 else 1) p c.
Proof.
  intros Hv [Hcx Hcz]. pose proof (view_ok_bounds p Hv) as (_&_&_&_&Hx1&Hx2&Hz1&Hz2).
  destruct Hv as ([Hox Hoz]&Hd&_). unfold distance_ok in Hd. unfold is_within_distance, near.
  set (border := if nb then 2 else 1). assert (1 ≤ border ≤ 2) by (unfold border; destruct nb; lia).
  set (r := vdistance p) in *.
  pose proof (axis_spec border (x c) (x (vcenter p)) r Hcx Hox ltac:(lia) ltac:(lia) Hx1 Hx2) as (Hax&Hax1&Hax2).
  pose proof (axis_spec border (z c) (z (vcenter p)) r Hcz Hoz ltac:(lia) ltac:(lia) Hz1 Hz2) as (Haz&Haz1&Haz2).
  set (dx := axis border (x c) (x (vcenter p))) in *. set (dz := axis border (z c) (z (vcenter p))) in *.
  set (gx := Z.max 0 (Z.abs (x c - x (vcenter p)) - border)) in *.
  set (gz := Z.max 0 (Z.abs (z c - z (vcenter p)) - border)) in *.
  change (2 ^ 31) with 2147483648 in *.
  assert (0 ≤ gx ∧ 0 ≤ gz) by (unfold gx, gz; lia).
  assert (Hxx : 0 ≤ dx * dx ≤ 2147483647 * 2147483647) by nia.
  assert (Hzz : 0 ≤ dz * dz ≤ 2147483647 * 2147483647) by nia.
  assert (H64 : ∀ w, 0 ≤ w ≤ 2 * (2147483647 * 2147483647) → i_wrap 64 w = w).
  { intros w Hw. apply i_wrap_in; [lia|]. unfold in_i. change (2 ^ (64 - 1)) with 9223372036854775808. lia. }
  rewrite (H64 (dx * dx)), (H64 (dz * dz)), H64 by lia.
  rewrite Z.ltb_lt. split.
  - intros Hlt. pose proof (squares_lt _ _ r ltac:(lia) Hlt) as [Hl1 Hl2].
    destruct (Hax1 Hl1) as [<- _]. by destruct (Haz1 Hl2) as [<- _].
  - intros Hlt. pose proof (squares_lt _ _ r ltac:(lia) Hlt) as [Hl1 Hl2].
    by rewrite Hax2, Haz2.
Qed.

Lemma contains_some p c : contains (Some p) c = is_within_distance (vcenter p) (vdistance p) c true.
Proof. reflexivity. Qed.
Lemma in_view_some p c : is_in_view_distance (Some p) c = is_within_distance (vcenter p) (vdistance p) c false.
Proof. reflexivity. Qed.

Lemma contains_near p c : view_ok (Some p) → coord_ok c → contains (Some p) c = true ↔ near 2 p c.
Proof. intros Hv Hc. rewrite contains_some. by rewrite within_distance_spec. Qed.
Lemma in_view_near p c : view_ok (Some p) → coord_ok c → is_in_view_distance (Some p) c = true ↔ near 1 p c.
Proof. intros Hv Hc. rewrite in_view_some. by rewrite within_distance_spec. Qed.
#[global] Opaque is_within_distance.

Lemma near_bounds p c : view_ok (Some p) → near 2 p c → in_bounds (vbounds p) c.
Proof.
  intros Hv Hn. pose proof (view_ok_bounds p Hv) as (Hx1&Hx2&Hz1&Hz2&_).
  destruct Hv as (_&Hd&_). unfold distance_ok in Hd. unfold near in Hn. unfold in_bounds.
  rewrite Hx1, Hx2, Hz1, Hz2.
  pose proof (squares_lt _ _ (vdistance p) ltac:(lia) Hn). lia.
Qed.

Lemma contains_bounds v c p : view_ok v → v = Some p → coord_ok c → contains v c = true → in_bounds (vbounds p) c.
Proof. intros Hv -> Hc Hin. apply (contains_near p c Hv Hc) in Hin. by apply near_bounds. Qed.

(** ** What a scan visits *)

Definition row (b : Bounds) (cx cz : Z) : list ChunkAddress :=
  (λ w, {| x := cx; z := w |}) <$> seqZ cz (z (bmax b) - cz + 1).
Definition rows (b : Bounds) (cx : Z) : list ChunkAddress :=
  seqZ cx (x (bmax b) - cx + 1) ≫= λ w, row b w (z (bmin b)).

(** The cells a scan has still to visit, in order. *)
Definition remaining (s : Scan) : list ChunkAddress :=
  match snext s with
  | None => []
  | Some c => row (sbounds s) (x c) (z c) ++ rows (sbounds s) (x c + 1)
  end.
Definition cells (b : Bounds) : list ChunkAddress := rows b (x (bmin b)).
Definition remaining_of (s : option Scan) : list ChunkAddress := match s with Some s => remaining s | None => [] end.

Definition scan_ok (s : Scan) : Prop :=
  bounds_ok (sbounds s) ∧ match snext s with Some c => in_bounds (sbounds s) c | None => True end.

Lemma seqZ_cons' m n : 0 < n → seqZ m n = m :: seqZ (m + 1) (n - 1).
Proof. intros. rewrite seqZ_cons by done. do 2 f_equal; lia. Qed.
Lemma seqZ_nil' m n : n ≤ 0 → seqZ m n = [].
Proof. intros. by apply seqZ_nil. Qed.

Lemma scan_new_remaining b : bounds_ok b → remaining (scan_new b) = cells b ∧ scan_ok (scan_new b).
Proof.
  intros Hb. split; [|split; [done|]; cbn; unfold in_bounds, bounds_ok in *; lia].
  unfold cells, rows, remaining. cbn [scan_new snext sbounds].
  unfold bounds_ok in Hb. rewrite (seqZ_cons' (x (bmin b))) by lia. cbn.
  unfold rows. do 3 f_equal. lia.
Qed.

Lemma scan_next_spec s :
  scan_ok s →
  match scan_next s with
  | None => remaining s = []
  | Some (c, s') => remaining s = c :: remaining s' ∧ scan_ok s' ∧ sbounds s' = sbounds s
  end.
Proof.
  intros [Hb Hc]. unfold scan_next, remaining. destruct (snext s) as [c|] eqn:E; [|done]. cbn.
  split; [|split; [|done]].
  2: { split; [done|]. cbn. unfold in_bounds, bounds_ok in *.
    destruct (Z.ltb_spec (z c) (z (bmax (sbounds s)))); cbn; [lia|].
    destruct (Z.ltb_spec (x c) (x (bmax (sbounds s)))); cbn; [lia|done]. }
  unfold in_bounds, bounds_ok in *. unfold row at 1. rewrite seqZ_cons' by lia. cbn.
  assert (Hce : {| x := x c; z := z c |} = c) by (by destruct c). rewrite Hce. f_equal.
  destruct (Z.ltb_spec (z c) (z (bmax (sbounds s)))) as [Hz|Hz]; cbn.
  { unfold row. do 3 f_equal. lia. }
  rewrite seqZ_nil' by lia. cbn.
  destruct (Z.ltb_spec (x c) (x (bmax (sbounds s)))) as [Hx|Hx]; cbn.
  - unfold rows at 1. rewrite seqZ_cons' by lia. cbn. unfold rows. f_equal. do 2 f_equal. lia.
  - unfold rows. by rewrite seqZ_nil' by lia.
Qed.

Lemma elem_of_row b cx cz c : c ∈ row b cx cz ↔ x c = cx ∧ cz ≤ z c ≤ z (bmax b).
Proof.
  unfold row. rewrite list_elem_of_fmap. split.
  - intros (w&->&Hw%elem_of_seqZ). cbn. lia.
  - intros [<- Hz]. exists (z c). split; [by destruct c|]. apply elem_of_seqZ. lia.
Qed.

Lemma elem_of_rows b cx c : c ∈ rows b cx ↔ cx ≤ x c ≤ x (bmax b) ∧ z (bmin b) ≤ z c ≤ z (bmax b).
Proof.
  unfold rows. rewrite list_elem_of_bind. split.
  - intros (w&[-> ?]%elem_of_row&Hw%elem_of_seqZ). lia.
  - intros [? ?]. exists (x c). rewrite elem_of_row, elem_of_seqZ. lia.
Qed.

Lemma elem_of_cells b c : c ∈ cells b ↔ in_bounds b c.
Proof. unfold cells, in_bounds. apply elem_of_rows. Qed.

Lemma NoDup_row b cx cz : NoDup (row b cx cz).
Proof. apply NoDup_fmap_2; [intros ?? [= ->]; done|apply NoDup_seqZ]. Qed.

Lemma NoDup_rows b cx : NoDup (rows b cx).
Proof.
  unfold rows. assert (Hn : NoDup (seqZ cx (x (bmax b) - cx + 1))) by apply NoDup_seqZ.
  induction Hn as [|w l Hw Hl IH]; cbn; [constructor|].
  apply NoDup_app. split_and!; [apply NoDup_row| |done].
  intros c [<- _]%elem_of_row (w'&[Hx _]%elem_of_row&Hin)%list_elem_of_bind. by subst.
Qed.

Lemma length_rows b cx : length (rows b cx) = (Z.to_nat (x (bmax b) - cx + 1) * Z.to_nat (z (bmax b) - z (bmin b) + 1))%nat.
Proof.
  unfold rows. rewrite <- (length_seqZ cx (x (bmax b) - cx + 1)).
  induction (seqZ cx (x (bmax b) - cx + 1)) as [|w l IH]; [done|]. cbn. rewrite length_app, IH.
  unfold row. by rewrite length_fmap, length_seqZ.
Qed.

(** ** What a difference emits *)

Definition change_at (prev next : TrackingView) (p : DifferencePhase) (c : ChunkAddress) : option ViewChange :=
  let was := not_enter p && contains prev c in
  let now := not_leave p && contains next c in
  if xorb was now then Some (if now then CEnter c else CLeave c) else None.

Definition view_cells (v : TrackingView) : list ChunkAddress :=
  match v with Some p => cells (vbounds p) | None => [] end.

(** The changes an iterator has still to emit, in order. *)
Definition pending (d : ViewDifference) : list ViewChange :=
  let emit p l := omap (change_at (previous d) (next d) p) l in
  match phase d with
  | Leave => emit Leave (remaining_of (scan d)) ++ emit Enter (view_cells (next d))
  | p => emit p (remaining_of (scan d))
  end.

Definition measure (d : ViewDifference) : nat :=
  length (remaining_of (scan d)) +
  match phase d with Leave => S (length (view_cells (next d))) | _ => 0 end + 1.

Record diff_ok (d : ViewDifference) : Prop := {
  dk_previous : view_ok (previous d);
  dk_next : view_ok (next d);
  dk_scan : match scan d with Some s => scan_ok s | None => True end;
  dk_done : phase d = Done → scan d = None;
}.

Lemma view_bounds_ok p : view_ok (Some p) → bounds_ok (vbounds p).
Proof.
  intros Hv. pose proof (view_ok_bounds p Hv) as (?&?&?&?&_). destruct Hv as (_&Hd&_).
  unfold distance_ok, bounds_ok in *. lia.
Qed.

Lemma view_scan v :
  view_ok v → remaining_of ((λ view, scan_new (vbounds view)) <$> v) = view_cells v ∧
    match (λ view, scan_new (vbounds view)) <$> v with Some s => scan_ok s | None => True end.
Proof.
  intros Hv. destruct v as [p|]; [|done]. cbn. apply scan_new_remaining. by apply view_bounds_ok.
Qed.

(** An exhausted iterator stays at its end. *)
Local Ltac finished Hsc :=
  eexists; split; [unfold pending; cbn; rewrite Hsc; reflexivity|];
  unfold pending, measure; cbn; rewrite Hsc; split_and!; try done; cbn; lia.

Lemma difference_next_spec fuel d :
  diff_ok d → (measure d ≤ fuel)%nat →
  ∃ d', difference_next fuel d = Ok (head (pending d), d') ∧ diff_ok d' ∧
    pending d' = tail (pending d) ∧ (measure d' ≤ measure d)%nat ∧
    previous d' = previous d ∧ next d' = next d.
Proof.
  revert d. induction fuel as [|fuel IH]; intros d [Hp Hn Hs Hd] Hm; [unfold measure in Hm; lia|].
  cbn [difference_next]. destruct d as [prev nxt sc ph]. cbn [previous next scan phase] in *.
  assert (Hsc : match sc ≫= scan_next with
    | None => remaining_of sc = []
    | Some (c, s') => remaining_of sc = c :: remaining s' ∧ scan_ok s' ∧ ph ≠ Done end).
  { destruct sc as [s|]; cbn; [|done]. pose proof (scan_next_spec s Hs) as Hx.
    destruct (scan_next s) as [[c s']|]; [|done]. destruct Hx as (?&?&_). split_and!; try done.
    intros Hdone. by apply Hd in Hdone. }
  destruct (sc ≫= scan_next) as [[c s']|].
  - destruct Hsc as (Hrem&Hs'&Hph).
    set (d1 := {| previous := prev; next := nxt; scan := Some s'; phase := ph |}).
    assert (Hok1 : diff_ok d1) by (by split).
    set (d0 := {| previous := prev; next := nxt; scan := sc; phase := ph |}) in *.
    assert (Hm1 : (measure d1 < measure d0)%nat).
    { unfold measure, d1, d0. cbn [scan phase next remaining_of]. rewrite Hrem. cbn [length]. lia. }
    assert (Hpend : pending d0 = match change_at prev nxt ph c with
      | Some e => e :: pending d1 | None => pending d1 end).
    { unfold pending, d0, d1. cbn [scan phase next previous remaining_of]. rewrite Hrem. cbn.
      destruct ph, (change_at prev nxt _ c); done. }
    rewrite Hpend. unfold change_at.
    destruct (xorb (not_enter ph && contains prev c) (not_leave ph && contains nxt c)).
    + exists d1. split_and!; try done. lia.
    + destruct (IH d1 Hok1) as (d'&->&?&?&?&?&?); [lia|]. exists d'. split_and!; try done. lia.
  - destruct ph; cbn [pending measure phase scan next previous] in *.
    + finished Hsc.
    + destruct (view_scan nxt Hn) as [Hvc Hvs].
      destruct (IH {| previous := prev; next := nxt; scan := (λ view, scan_new (vbounds view)) <$> nxt; phase := Enter |})
        as (d'&Hd'&?&Ht&Hm'&?&?).
      { by split. }
      { unfold measure in Hm |- *. cbn [scan phase next] in *. rewrite Hvc. rewrite Hsc in Hm. cbn in Hm. lia. }
      unfold pending, measure in Hd', Ht, Hm'. cbn [scan phase next previous] in *. rewrite Hvc in Hd', Ht, Hm'.
      exists d'. rewrite Hd'. unfold pending, measure. cbn [scan phase next previous]. rewrite Hsc. cbn [length app omap list_omap].
      split_and!; try done. lia.
    + finished Hsc.
    + finished Hsc.
Qed.

(** ** The difference of two views *)

Definition emitted (prev nxt : TrackingView) : list ViewChange := pending (difference_new prev nxt).

Lemma side_67 p : view_ok (Some p) →
  x (bmax (vbounds p)) - x (bmin (vbounds p)) ≤ 66 ∧ z (bmax (vbounds p)) - z (bmin (vbounds p)) ≤ 66.
Proof.
  intros Hv. pose proof (view_ok_bounds p Hv) as (?&?&?&?&_). destruct Hv as (_&Hd&_).
  unfold distance_ok in Hd. lia.
Qed.

Lemma length_cells_le b n m :
  x (bmax b) - x (bmin b) < Z.of_nat n → z (bmax b) - z (bmin b) < Z.of_nat m → (length (cells b) ≤ n * m)%nat.
Proof. intros. unfold cells. rewrite length_rows. apply Nat.mul_le_mono; lia. Qed.

Lemma view_cells_le v : view_ok v → (length (view_cells v) ≤ 67 * 67)%nat.
Proof.
  intros Hv. destruct v as [p|]; [|cbn; lia]. cbn [view_cells]. pose proof (side_67 p Hv).
  apply length_cells_le; lia.
Qed.

Lemma difference_new_ok prev nxt :
  view_ok prev → view_ok nxt →
  diff_ok (difference_new prev nxt) ∧ (measure (difference_new prev nxt) ≤ 133 * 133 + 1)%nat.
Proof.
  intros Hp Hn. pose proof (view_cells_le prev Hp). pose proof (view_cells_le nxt Hn).
  unfold difference_new. case_decide as Heq.
  { split; [by split|]. cbn. lia. }
  destruct prev as [old|], nxt as [new|]; cbn [fmap option_fmap option_map]; [|split..].
  - pose proof (view_bounds_ok old Hp) as Ho. pose proof (view_bounds_ok new Hn) as Hw.
    pose proof (side_67 old Hp). pose proof (side_67 new Hn).
    destruct (intersects (vbounds old) (vbounds new)) eqn:Ei.
    + unfold intersects in Ei. rewrite !andb_true_iff, !Z.leb_le in Ei. unfold bounds_ok in *.
      destruct (scan_new_remaining (bounds_union (vbounds old) (vbounds new))) as [Hr Hs].
      { unfold bounds_ok, bounds_union. cbn. lia. }
      split; [by split|]. unfold measure. cbn [scan phase remaining_of fmap option_fmap option_map].
      rewrite Hr. pose proof (length_cells_le (bounds_union (vbounds old) (vbounds new)) 133 133) as Hl.
      cbn in Hl. lia.
    + destruct (scan_new_remaining (vbounds old) Ho) as [Hr Hs].
      split; [by split|]. unfold measure. cbn [scan phase next remaining_of fmap option_fmap option_map].
      rewrite Hr. cbn [view_cells] in *. lia.
  - split; cbn; try done. apply scan_new_remaining. by apply view_bounds_ok.
  - unfold measure. cbn [scan phase next remaining_of fmap option_fmap option_map view_cells length] in *.
    rewrite (proj1 (scan_new_remaining _ (view_bounds_ok _ Hp))). lia.
  - by split.
  - unfold measure. cbn [scan phase next remaining_of fmap option_fmap option_map] in *. cbn [length]. lia.
  - by split.
  - cbn. lia.
Qed.

Definition chunk_of (e : ViewChange) : ChunkAddress := match e with CEnter c | CLeave c => c end.

Lemma change_at_chunk prev nxt p c e : change_at prev nxt p c = Some e → chunk_of e = c.
Proof. unfold change_at. destruct (xorb _ _); [|done]. intros [= <-]. by destruct (_ && _). Qed.

Lemma NoDup_emit prev nxt p l : NoDup l → NoDup (omap (change_at prev nxt p) l).
Proof.
  induction 1 as [|c l Hc Hl IH]; cbn; [constructor|].
  destruct (change_at prev nxt p c) as [e|] eqn:E; [|done]. constructor; [|done].
  intros (c'&Hin&He)%list_elem_of_omap. apply change_at_chunk in E, He. congruence.
Qed.

Lemma view_coord p c : view_ok (Some p) → in_bounds (vbounds p) c → coord_ok c.
Proof.
  intros Hv. pose proof (view_ok_bounds p Hv) as (Hx1&Hx2&Hz1&Hz2&?&?&?&?).
  unfold in_bounds, coord_ok, in_i in *. rewrite Hx1, Hx2, Hz1, Hz2. lia.
Qed.

Lemma view_bounds_disjoint a b c :
  intersects a b = false → in_bounds a c → in_bounds b c → False.
Proof.
  unfold intersects, in_bounds. rewrite !andb_false_iff, !Z.leb_gt. lia.
Qed.

Section emitted.
Context (prev nxt : TrackingView).
Hypothesis Hp : view_ok prev.
Hypothesis Hn : view_ok nxt.

(** [Leave] and [Enter] are emitted for exactly the cells that change. *)
Definition exact_change (e : ViewChange) : Prop :=
  coord_ok (chunk_of e) ∧
  match e with
  | CEnter c => contains prev c = false ∧ contains nxt c = true
  | CLeave c => contains prev c = true ∧ contains nxt c = false
  end.

Lemma in_view_cells v c : view_ok v → coord_ok c → contains v c = true → c ∈ view_cells v.
Proof.
  intros Hv Hc Hin. destruct v as [p|]; [|done]. cbn. apply elem_of_cells.
  by apply (contains_bounds (Some p) c p).
Qed.

Lemma view_cells_coord v c : view_ok v → c ∈ view_cells v → coord_ok c.
Proof.
  intros Hv Hc. destruct v as [p|]; [|by apply elem_of_nil in Hc]. cbn in Hc. apply elem_of_cells in Hc.
  by apply (view_coord p).
Qed.

Lemma emitted_disjoint :
  (∀ c, coord_ok c → contains prev c = true → contains nxt c = true → False) →
  let l := omap (change_at prev nxt Leave) (view_cells prev) ++ omap (change_at prev nxt Enter) (view_cells nxt) in
  (∀ e, e ∈ l ↔ exact_change e) ∧ NoDup l.
Proof using Hp Hn.
  intros Hdisj l. split.
  - intros e. unfold l. rewrite elem_of_app, !list_elem_of_omap. unfold exact_change. split.
    + intros [(c&Hc&He)|(c&Hc&He)].
      * pose proof (view_cells_coord prev c Hp Hc) as Hco. pose proof (Hdisj c Hco) as Hd. revert He. unfold change_at. cbn.
        destruct (contains prev c) eqn:E1; [|done]. intros [= <-]. cbn.
        destruct (contains nxt c); [exfalso; by apply Hd|done].
      * pose proof (view_cells_coord nxt c Hn Hc) as Hco. pose proof (Hdisj c Hco) as Hd. revert He. unfold change_at. cbn.
        destruct (contains nxt c) eqn:E1; [|done]. intros [= <-]. cbn.
        destruct (contains prev c); [exfalso; by apply Hd|done].
    + destruct e as [c|c]; cbn; intros (Hco&H1&H2); [right|left]; exists c.
      * split; [by apply in_view_cells|]. unfold change_at. cbn. by rewrite H2.
      * split; [by apply in_view_cells|]. unfold change_at. cbn. by rewrite H1.
  - unfold l. apply NoDup_app. split_and!.
    + apply NoDup_emit. destruct prev; [apply NoDup_rows|constructor].
    + intros e (c&_&He)%list_elem_of_omap (c'&_&He')%list_elem_of_omap. revert He He'.
      unfold change_at. cbn. destruct (contains prev c), (contains nxt c'); cbn; congruence.
    + apply NoDup_emit. destruct nxt; [apply NoDup_rows|constructor].
Qed.

Lemma emitted_overlap b :
  (∀ c, coord_ok c → contains prev c = true ∨ contains nxt c = true → c ∈ cells b) →
  (∀ c, c ∈ cells b → coord_ok c) →
  let l := omap (change_at prev nxt Overlap) (cells b) in
  (∀ e, e ∈ l ↔ exact_change e) ∧ NoDup l.
Proof using Type.
  intros Hall Hco l. split; [|apply NoDup_emit, NoDup_rows].
  intros e. unfold l. rewrite list_elem_of_omap. unfold exact_change. split.
  - intros (c&Hc&He). pose proof (Hco c Hc). revert He. unfold change_at. cbn.
    destruct (contains prev c) eqn:E1, (contains nxt c) eqn:E2; intros [= <-]; done.
  - destruct e as [c|c]; cbn; intros (Hcc&H1&H2); exists c;
      (split; [apply Hall; tauto|]); unfold change_at; cbn; by rewrite H1, H2.
Qed.

End emitted.

Lemma emitted_exact prev nxt :
  view_ok prev → view_ok nxt →
  (∀ e, e ∈ emitted prev nxt ↔ exact_change prev nxt e) ∧ NoDup (emitted prev nxt).
Proof.
  intros Hp Hn. unfold emitted, difference_new. case_decide as Heq.
  { cbn. split; [|constructor]. intros e. rewrite elem_of_nil. split; [done|].
    intros [_ He]. subst nxt. destruct e as [c|c]; destruct He; congruence. }
  assert (Hleave : (∀ c, coord_ok c → contains prev c = true → contains nxt c = true → False) →
    (∀ e, e ∈ pending {| previous := prev; next := nxt; scan := (λ v, scan_new (vbounds v)) <$> prev; phase := Leave |} ↔ exact_change prev nxt e) ∧
    NoDup (pending {| previous := prev; next := nxt; scan := (λ v, scan_new (vbounds v)) <$> prev; phase := Leave |})).
  { intros Hd. unfold pending. cbn [phase previous next scan]. rewrite (proj1 (view_scan prev Hp)).
    by apply emitted_disjoint. }
  destruct prev as [old|], nxt as [new|]; cbn [fmap option_fmap option_map] in *;
    [|by apply Hleave; intros|by apply Hleave; intros|by apply Hleave; intros].
  destruct (intersects (vbounds old) (vbounds new)) eqn:Ei.
  - unfold pending. cbn [phase previous next scan fmap option_fmap option_map remaining_of].
    pose proof (view_bounds_ok old Hp) as Ho. pose proof (view_bounds_ok new Hn) as Hw. unfold bounds_ok in *.
    destruct (scan_new_remaining (bounds_union (vbounds old) (vbounds new))) as [-> _].
    { unfold bounds_ok, bounds_union. cbn. lia. }
    apply emitted_overlap.
    + intros c Hc Hin. apply elem_of_cells.
      destruct Hin as [Hin|Hin]; eapply contains_bounds in Hin; try done;
        revert Hin; unfold in_bounds, bounds_union; cbn; lia.
    + intros c Hc%elem_of_cells. revert Hc.
      pose proof (view_ok_bounds old Hp) as (?&?&?&?&?&?&?&?).
      pose proof (view_ok_bounds new Hn) as (?&?&?&?&?&?&?&?).
      unfold in_bounds, bounds_union, coord_ok, in_i in *. cbn [bmin bmax x z]. lia.
  - apply Hleave. intros c Hc H1 H2. apply (view_bounds_disjoint _ _ c Ei).
    + by apply (contains_bounds (Some old) c old).
    + by apply (contains_bounds (Some new) c new).
Qed.

(** ** Draining *)

(** Calls [next] until it answers [None]; one call more than there are changes. *)
Fixpoint collect (n : nat) (d : ViewDifference) : outcome False (list ViewChange * ViewDifference) :=
  match n with
  | O => NoFuel
  | S n' =>
      '(e, d') ← difference_next SCAN_FUEL d;
      match e with
      | None => Ok ([], d')
      | Some e => '(l, d'') ← collect n' d'; Ok (e :: l, d'')
      end
  end.

Lemma scan_fuel_eq : SCAN_FUEL = (133 * 133 + 3)%nat.
Proof. unfold SCAN_FUEL. lia. Qed.
#[global] Opaque SCAN_FUEL.

Lemma difference_next_none fuel d d' : difference_next fuel d = Ok (None, d') → scan d' = None ∧ phase d' = Done.
Proof.
  revert d. induction fuel as [|fuel IH]; intros d; cbn [difference_next]; [done|].
  destruct (scan d ≫= scan_next) as [[c s]|].
  - destruct (xorb _ _); [done|apply IH].
  - destruct (phase d); [intros [= <-]; done|apply IH|intros [= <-]; done..].
Qed.

(** [FusedIterator]: after [None], always [None]. *)
Lemma difference_fused fuel d d' :
  difference_next fuel d = Ok (None, d') → difference_next fuel d' = Ok (None, d').
Proof.
  intros H. pose proof (difference_next_none fuel d d' H) as [Hs Hp].
  destruct fuel as [|fuel]; [done|]. cbn [difference_next]. rewrite Hs. cbn. rewrite Hp.
  destruct d'. cbn in *. by subst.
Qed.

Lemma collect_spec d :
  diff_ok d → (measure d ≤ SCAN_FUEL)%nat →
  ∃ d', collect (S (length (pending d))) d = Ok (pending d, d') ∧ difference_next SCAN_FUEL d' = Ok (None, d').
Proof.
  remember (length (pending d)) as n eqn:Hn. revert d Hn. induction n as [|n IH]; intros d Hn Hok Hm;
    cbn [collect]; destruct (difference_next_spec SCAN_FUEL d Hok Hm) as (d'&Hnext&Hok'&Hp'&Hm'&_); rewrite Hnext; mstep.
  - destruct (pending d) as [|e l] eqn:E; [|done]. cbn in *. exists d'. split; [done|]. by apply difference_fused in Hnext.
  - destruct (pending d) as [|e l] eqn:E; [done|]. cbn [head tail length] in *.
    destruct (IH d') as (d2&Hc&?); [rewrite Hp'; lia|done|lia|]. rewrite Hp' in Hc.
    cbn [collect] in Hc. rewrite Hc. mstep. by exists d2.
Qed.

(** ** The client's side *)

Record Client := { shown : ChunkAddress → bool; centre : option ChunkAddress }.
Definition client_new : Client := {| shown := λ _, false; centre := None |}.

Definition apply_event (cl : Client) (e : ViewEvent) : Client :=
  match e with
  | SetCenter c => {| shown := shown cl; centre := Some c |}
  | EEnter c => {| shown := λ a, if decide (a = c) then true else shown cl a; centre := centre cl |}
  | ELeave c => {| shown := λ a, if decide (a = c) then false else shown cl a; centre := centre cl |}
  end.

(** The client agrees with a view. *)
Definition agrees (cl : Client) (v : TrackingView) : Prop :=
  (∀ c, coord_ok c → shown cl c = contains v c) ∧ (∀ c, view_center v = Some c → centre cl = Some c).

Definition applied (cl : Client) (l : list ViewChange) : Client := fold_left apply_event (event_from <$> l) cl.

Lemma applied_centre cl l : centre (applied cl l) = centre cl.
Proof. revert cl. induction l as [|[c|c] l IH]; intros cl; [done|..]; unfold applied in *; cbn; by rewrite IH. Qed.

Definition after (e : ViewChange) : bool := match e with CEnter _ => true | CLeave _ => false end.

Lemma applied_shown cl l c v :
  (∀ e, e ∈ l → chunk_of e = c → after e = v) →
  shown (applied cl l) c = if decide (Exists (λ e, chunk_of e = c) l) then v else shown cl c.
Proof.
  revert cl. induction l as [|e l IH]; intros cl Hv.
  { case_decide as Hd; [by apply Exists_nil in Hd|done]. }
  unfold applied in *. cbn. rewrite IH by (intros; apply Hv; [by right|done]).
  pose proof (Hv e ltac:(left)) as He.
  repeat case_decide; try done.
  - exfalso. by eauto using Exists_cons_tl.
  - destruct e as [a|a]; cbn in *; case_decide as Ha; try (by rewrite <- He); exfalso;
      match goal with H : Exists _ (_ :: _) |- _ => apply Exists_cons in H as [Hc|Hc]; cbn in Hc; congruence end.
  - destruct e as [a|a]; cbn in *; case_decide as Ha; try done; exfalso; eauto using Exists_cons_hd.
Qed.

(** Applying a whole difference moves a client from one view to the next. *)
Lemma applied_emitted cl prev nxt c :
  view_ok prev → view_ok nxt → (∀ c, coord_ok c → shown cl c = contains prev c) → coord_ok c →
  shown (applied cl (emitted prev nxt)) c = contains nxt c.
Proof.
  intros Hp Hn Hcl Hc. destruct (emitted_exact prev nxt Hp Hn) as [He _].
  rewrite (applied_shown cl _ c (contains nxt c)).
  - case_decide as Hd; [done|]. rewrite Hcl by done.
    destruct (contains prev c) eqn:E1, (contains nxt c) eqn:E2; try done; exfalso; apply Hd, Exists_exists.
    + exists (CLeave c). split; [by apply He|done].
    + exists (CEnter c). split; [by apply He|done].
  - intros e Hin Hch. apply He in Hin as [_ Hex]. destruct e as [a|a]; cbn in *; subst; by destruct Hex as [_ ->].
Qed.

(** The steps an owner and its client take together: an event reaches the
    client when it is acknowledged. *)
Inductive view_step : PlayerView * Client → PlayerView * Client → Prop :=
| step_begin p p' cl nxt : view_ok nxt → begin_update p nxt = Ok p' → view_step (p, cl) (p', cl)
| step_acknowledge p p' cl e :
    pending_event p = Some e → acknowledge_event p = Ok p' → view_step (p, cl) (p', apply_event cl e)
| step_finish p p' cl : finish_update p = Ok p' → view_step (p, cl) (p', cl).

(** The events of an active transition. *)
Definition todo (t : Transition) : list ViewEvent :=
  option_list (event t) ++ (event_from <$> pending (changes t)).

Definition player_inv (s : PlayerView * Client) : Prop :=
  let '(p, cl) := s in
  view_ok (current p) ∧
  match transition p with
  | None => agrees cl (current p)
  | Some t => view_ok (tnext t) ∧ diff_ok (changes t) ∧ (measure (changes t) ≤ SCAN_FUEL)%nat ∧
      (event t = None → pending (changes t) = []) ∧ agrees (fold_left apply_event (todo t) cl) (tnext t)
  end.

Lemma next_event_spec d :
  diff_ok d → (measure d ≤ SCAN_FUEL)%nat →
  ∃ d', next_event d = Ok (event_from <$> head (pending d), d') ∧ diff_ok d' ∧ (measure d' ≤ SCAN_FUEL)%nat ∧
    pending d' = tail (pending d).
Proof.
  intros Hok Hm. destruct (difference_next_spec SCAN_FUEL d Hok Hm) as (d'&Hd&?&?&?&_).
  exists d'. unfold next_event, lift. rewrite Hd. mstep. split_and!; try done. lia.
Qed.

(** What [begin_update] puts in the transition. *)
Definition expected (cur nxt : TrackingView) : list ViewEvent :=
  match view_center nxt with
  | Some c => if decide (Some c = view_center cur) then [] else [SetCenter c]
  | None => []
  end ++ (event_from <$> emitted cur nxt).

Lemma begin_spec p nxt :
  view_ok (current p) → view_ok nxt → transition p = None →
  ∃ t, begin_update p nxt = Ok {| current := current p; transition := Some t |} ∧ tnext t = nxt ∧
    diff_ok (changes t) ∧ (measure (changes t) ≤ SCAN_FUEL)%nat ∧
    (event t = None → pending (changes t) = []) ∧ todo t = expected (current p) nxt.
Proof.
  intros Hc Hn Ht. unfold begin_update. rewrite Ht.
  destruct (difference_new_ok (current p) nxt Hc Hn) as [Hok Hm].
  assert (Hm' : (measure (difference_new (current p) nxt) ≤ SCAN_FUEL)%nat) by (rewrite scan_fuel_eq; lia).
  destruct (next_event_spec _ Hok Hm') as (d'&Hnext&Hok'&Hmd&Hpd).
  fold (emitted (current p) nxt) in Hnext, Hpd.
  assert (Hgo : ∀ pre, expected (current p) nxt = pre ++ (event_from <$> emitted (current p) nxt) →
    pre = [] → ∃ t, ('(event, changes) ← next_event (difference_new (current p) nxt);
      Ok {| current := current p; transition := Some {| tnext := nxt; changes := changes; event := event |} |})
      = Ok (E := ViewError) {| current := current p; transition := Some t |} ∧ tnext t = nxt ∧
      diff_ok (changes t) ∧ (measure (changes t) ≤ SCAN_FUEL)%nat ∧
      (event t = None → pending (changes t) = []) ∧ todo t = expected (current p) nxt).
  { intros pre He ->. rewrite Hnext. mstep. eexists. split; [done|]. cbn [tnext changes event].
    split_and!; try done.
    - rewrite Hpd. by destruct (emitted (current p) nxt).
    - rewrite He. unfold todo. cbn [event changes]. rewrite Hpd. by destruct (emitted (current p) nxt). }
  unfold first_event, expected in *. destruct (view_center nxt) as [c|]; [case_decide|].
  - by apply (Hgo []).
  - mstep. eexists. split; [done|]. by split_and!.
  - by apply (Hgo []).
Qed.

Lemma acknowledge_spec p t e :
  transition p = Some t → event t = Some e → diff_ok (changes t) → (measure (changes t) ≤ SCAN_FUEL)%nat →
  ∃ t', acknowledge_event p = Ok {| current := current p; transition := Some t' |} ∧ tnext t' = tnext t ∧
    diff_ok (changes t') ∧ (measure (changes t') ≤ SCAN_FUEL)%nat ∧
    (event t' = None → pending (changes t') = []) ∧ todo t = e :: todo t'.
Proof.
  intros Ht He Hok Hm. unfold acknowledge_event. rewrite Ht. mstep. rewrite He.
  destruct (next_event_spec _ Hok Hm) as (d'&->&Hok'&Hmd&Hpd). mstep.
  eexists. split; [done|]. cbn [tnext changes event]. split_and!; try done.
  - rewrite Hpd. by destruct (pending (changes t)).
  - unfold todo. rewrite He. cbn [event changes option_list app]. rewrite Hpd. by destruct (pending (changes t)).
Qed.

Lemma player_inv_step s s' : player_inv s → view_step s s' → player_inv s'.
Proof.
  intros Hinv Hstep. destruct Hstep as [p p' cl nxt Hn Hb|p p' cl e He Ha|p p' cl Hf]; destruct Hinv as [Hc Hinv].
  - unfold begin_update in Hb. destruct (transition p) as [t|] eqn:Ht; [done|].
    destruct (begin_spec p nxt Hc Hn Ht) as (t&Hb'&Htn&Hok&Hm&Hemp&Htodo).
    unfold begin_update in Hb'. rewrite Ht, Hb in Hb'. injection Hb' as ->.
    cbn. split; [done|]. rewrite Htn, Htodo. split_and!; try done.
    destruct Hinv as [Hshown Hcentre]. unfold expected. rewrite fold_left_app.
    fold (applied (fold_left apply_event (match view_center nxt with
      | Some c => if decide (Some c = view_center (current p)) then [] else [SetCenter c]
      | None => [] end) cl) (emitted (current p) nxt)). split.
    + intros c Hco. apply applied_emitted; try done. intros c' Hc'.
      rewrite <- Hshown by done. by repeat case_match.
    + intros c Hcn. rewrite applied_centre, Hcn. case_decide as Hd; [|done]. cbn. by apply Hcentre.
  - unfold pending_event in He. destruct (transition p) as [t|] eqn:Ht; [|done]. cbn in He.
    destruct Hinv as (Hn&Hok&Hm&Hemp&Hag).
    destruct (acknowledge_spec p t e Ht He Hok Hm) as (t'&Ha'&Htn&Hok'&Hm'&Hemp'&Htodo).
    rewrite Ha in Ha'. injection Ha' as ->. cbn. rewrite Htn. split_and!; try done.
    by rewrite Htodo in Hag.
  - unfold finish_update in Hf. destruct (transition p) as [t|] eqn:Ht; [|done]. mstep in Hf.
    destruct (event t) as [e|] eqn:He; [done|]. injection Hf as <-.
    destruct Hinv as (Hn&Hok&Hm&Hemp&Hag). cbn. split; [done|].
    unfold todo in Hag. rewrite He, (Hemp eq_refl) in Hag. done.
Qed.

Lemma player_inv_reachable s s' : rtc view_step s s' → player_inv s → player_inv s'.
Proof. induction 1; [done|]. eauto using player_inv_step. Qed.

(** Acknowledges the given events, each of which must be the pending one. *)
Fixpoint acknowledge_all (es : list ViewEvent) (p : PlayerView) : option PlayerView :=
  match es with
  | [] => Some p
  | e :: rest =>
      match pending_event p, acknowledge_event p with
      | Some e', Ok p' => if decide (e = e') then acknowledge_all rest p' else None
      | _, _ => None
      end
  end.

Lemma acknowledge_all_spec t p :
  transition p = Some t → diff_ok (changes t) → (measure (changes t) ≤ SCAN_FUEL)%nat →
  (event t = None → pending (changes t) = []) →
  ∃ t', acknowledge_all (todo t) p = Some {| current := current p; transition := Some t' |} ∧
    tnext t' = tnext t ∧ event t' = None ∧ pending (changes t') = [].
Proof.
  remember (todo t) as es eqn:Hes. revert t p Hes.
  induction es as [|e es IH]; intros t p Hes Ht Hok Hm Hemp; cbn [acknowledge_all].
  - destruct (event t) as [e|] eqn:He; [unfold todo in Hes; by rewrite He in Hes|].
    exists t. split_and!; try done; [by destruct p; cbn in *; subst|by apply Hemp].
  - destruct (event t) as [e'|] eqn:He.
    2: { unfold todo in Hes. by rewrite He, (Hemp eq_refl) in Hes. }
    assert (e' = e) as -> by (unfold todo in Hes; rewrite He in Hes; by injection Hes).
    destruct (acknowledge_spec p t e Ht He Hok Hm) as (t'&->&Htn&Hok'&Hm'&Hemp'&Htodo).
    unfold pending_event. rewrite Ht. cbn. rewrite He, decide_True by done.
    rewrite <- Hes in Htodo. injection Htodo as Htodo.
    destruct (IH t' {| current := current p; transition := Some t' |}) as (t2&->&?&?&?); try done.
    exists t2. split_and!; try done. congruence.
Qed.

Lemma view_minimum_cases e v :
  (view_minimum e v = Ok (v - e) ∧ i32_min ≤ v - e ≤ i32_max) ∨
  (view_minimum e v = Err CoordinateBounds ∧ ¬ (i32_min ≤ v - e ≤ i32_max)).
Proof.
  unfold view_minimum, checked_i32.
  destruct (Z.leb_spec i32_min (v - e)), (Z.leb_spec (v - e) i32_max); cbn; first [left; split; [done|lia]|right; split; [done|lia]].
Qed.

Lemma view_maximum_cases e v :
  (view_maximum e v = Ok (v + e) ∧ i32_min ≤ v + e < i32_max) ∨
  (view_maximum e v = Err CoordinateBounds ∧ ¬ (i32_min ≤ v + e < i32_max)).
Proof.
  unfold view_maximum, checked_i32.
  destruct (Z.leb_spec i32_min (v + e)), (Z.leb_spec (v + e) i32_max); cbn;
    [destruct (Z.eqb_spec (v + e) i32_max); cbn|..];
    first [left; split; [done|lia]|right; split; [done|lia]].
Qed.

Lemma positioned_cases center d :
  coord_ok center → distance_ok d →
  match positioned center d with
  | Ok v => ∃ p, v = Some p ∧ vcenter p = center ∧ vdistance p = d ∧
      x (bmax (vbounds p)) < i32_max ∧ z (bmax (vbounds p)) < i32_max
  | Err e => e = CoordinateBounds ∧
      ¬ (i32_min ≤ x center - (d + 1) ∧ x center + (d + 1) < i32_max ∧
         i32_min ≤ z center - (d + 1) ∧ z center + (d + 1) < i32_max)
  | Panic | NoFuel => False
  end.
Proof.
  unfold coord_ok, in_i, distance_ok. change (2 ^ (32 - 1)) with (2 ^ 31). fold i32_min.
  assert (Hm : i32_max = 2 ^ 31 - 1) by done. assert (Hn : i32_min = - 2 ^ 31) by done.
  intros [Hcx Hcz] Hd. unfold positioned.
  destruct (view_minimum_cases (d + 1) (x center)) as [[-> H1]|[-> H1]]; mstep; [|split; [done|lia]].
  destruct (view_minimum_cases (d + 1) (z center)) as [[-> H2]|[-> H2]]; mstep; [|split; [done|lia]].
  destruct (view_maximum_cases (d + 1) (x center)) as [[-> H3]|[-> H3]]; mstep; [|split; [done|lia]].
  destruct (view_maximum_cases (d + 1) (z center)) as [[-> H4]|[-> H4]]; mstep; [|split; [done|lia]].
  eexists. split; [done|]. cbn [vcenter vdistance vbounds bmax x z]. split_and!; [done|done|lia|lia].
Qed.

Lemma near_wider p c : 0 ≤ vdistance p → near 1 p c → near 2 p c.
Proof. unfold near. nia. Qed.

(** ** Properties *)

(** C40. Geometry: [positioned] succeeds exactly when the bordered square
    around the centre fits in [i32] with room for the final increment;
    for any chunk the wrapping [i32] arithmetic of [contains] then decides the
    Euclidean condition with a border of two chunks, [is_in_view_distance] the
    one with a border of one, every tracked chunk lies inside the square, and
    the tracked set includes the view-distance set. *)
Theorem view_geometry center d chunk :
  coord_ok center → distance_ok d → coord_ok chunk →
  match positioned center d with
  | Ok v => ∃ p, v = Some p ∧ vcenter p = center ∧ vdistance p = d ∧
      (contains v chunk = true ↔ near 2 p chunk) ∧
      (is_in_view_distance v chunk = true ↔ near 1 p chunk) ∧
      (contains v chunk = true → in_bounds (vbounds p) chunk) ∧
      (is_in_view_distance v chunk = true → contains v chunk = true) ∧
      x (bmax (vbounds p)) < i32_max ∧ z (bmax (vbounds p)) < i32_max
  | Err e => e = CoordinateBounds ∧
      ¬ (i32_min ≤ x center - (d + 1) ∧ x center + (d + 1) < i32_max ∧
         i32_min ≤ z center - (d + 1) ∧ z center + (d + 1) < i32_max)
  | Panic | NoFuel => False
  end.
Proof.
  intros Hc Hd Hch. pose proof (positioned_cases center d Hc Hd) as Hp.
  destruct (positioned center d) as [v|e| |] eqn:E; try done.
  destruct Hp as (p&->&Hpc&Hpd&Hx&Hz).
  assert (Hok : view_ok (Some p)) by (split_and!; rewrite ?Hpc, ?Hpd; done).
  pose proof (contains_near p chunk Hok Hch) as Hb2. pose proof (in_view_near p chunk Hok Hch) as Hb1.
  exists p. split_and!; [done|done|done|exact Hb2|exact Hb1| | |exact Hx|exact Hz].
  - intros Hin%Hb2. by apply near_bounds.
  - intros Hin%Hb1. apply Hb2. apply near_wider; [|done]. rewrite Hpd. unfold distance_ok in Hd. lia.
Qed.

(** The streamed difference of two views terminates within the scan fuel
    at every call (at most 133*133 cells are left at the start) and emits,
    without repetition, exactly the chunks that the second view adds
    ([Enter]) and drops ([Leave]); once it has answered [None] it does so for
    ever. *)
Theorem view_difference_exact prev nxt :
  view_ok prev → view_ok nxt →
  (length (remaining_of (scan (difference_new prev nxt))) ≤ 133 * 133)%nat ∧
  ∃ l d', collect (S (length l)) (difference_new prev nxt) = Ok (l, d') ∧ NoDup l ∧
    (∀ c, CEnter c ∈ l ↔ coord_ok c ∧ contains prev c = false ∧ contains nxt c = true) ∧
    (∀ c, CLeave c ∈ l ↔ coord_ok c ∧ contains prev c = true ∧ contains nxt c = false) ∧
    difference_next SCAN_FUEL d' = Ok (None, d').
Proof.
  intros Hp Hn. destruct (difference_new_ok prev nxt Hp Hn) as [Hok Hm].
  assert (Hm' : (measure (difference_new prev nxt) ≤ SCAN_FUEL)%nat) by (rewrite scan_fuel_eq; lia).
  split; [unfold measure in Hm; lia|].
  destruct (collect_spec _ Hok Hm') as (d'&Hc&Hfix).
  destruct (emitted_exact prev nxt Hp Hn) as [He Hnd].
  exists (emitted prev nxt), d'. by split_and!; [done|done|intros c; apply He|intros c; apply He|].
Qed.

(** C25. A whole update: from an idle owner [begin_update] offers the
    [SetCenter] event when the centre changed to another chunk, then the
    difference; acknowledging those events one by one, each being the pending
    one, drains the transition, and [finish_update] then installs the new view.
    While events are pending [finish_update] refuses, while the transition is
    active [begin_update] refuses, and without one the other calls refuse. *)
Theorem player_view_update p nxt :
  view_ok (current p) → view_ok nxt → transition p = None →
  acknowledge_event p = Err NoUpdate ∧ finish_update p = Err NoUpdate ∧
  ∃ p1 p2, begin_update p nxt = Ok p1 ∧ begin_update p1 nxt = Err UpdateActive ∧
    acknowledge_all (expected (current p) nxt) p1 = Some p2 ∧
    (pending_event p1 ≠ None → finish_update p1 = Err UnconsumedEvents) ∧
    pending_event p2 = None ∧ acknowledge_event p2 = Err NoEvent ∧
    current p2 = current p ∧ finish_update p2 = Ok {| current := nxt; transition := None |}.
Proof.
  intros Hc Hn Ht. split_and!; [unfold acknowledge_event; by rewrite Ht|unfold finish_update; by rewrite Ht|].
  destruct (begin_spec p nxt Hc Hn Ht) as (t&Hb&Htn&Hok&Hm&Hemp&Htodo).
  destruct (acknowledge_all_spec t {| current := current p; transition := Some t |} eq_refl Hok Hm Hemp)
    as (t'&Ha&Htn'&He'&Hp'). rewrite Htodo in Ha.
  eexists _, _. split_and!; [exact Hb|done|exact Ha| | | |done|].
  - unfold pending_event, finish_update. cbn. by destruct (event t).
  - unfold pending_event. cbn. by rewrite He'.
  - unfold acknowledge_event. cbn. by rewrite He'.
  - unfold finish_update. cbn. rewrite He'. by rewrite Htn', Htn.
Qed.

(** C32. The owner and its client stay together: in every state reachable from
    the empty view by updates, acknowledgements (each delivering its event to
    the client) and finishes, an idle owner's view is exactly what the client
    shows, and the client's centre is the view's. *)
Theorem player_view_tracks_client p cl :
  rtc view_step (player_new, client_new) (p, cl) → transition p = None →
  (∀ c, coord_ok c → shown cl c = contains (current p) c) ∧
  (∀ c, view_center (current p) = Some c → centre cl = Some c).
Proof.
  intros Hr Ht. assert (Hinv : player_inv (p, cl)).
  { eapply player_inv_reachable; [exact Hr|]. by split. }
  destruct Hinv as [_ Hinv]. by rewrite Ht in Hinv.
Qed.

(** ** The properties at concrete views *)

Definition small_view (cx cz : Z) : TrackingView :=
  match positioned {| x := cx; z := cz |} 2 with Ok v => v | _ => None end.

Lemma small_view_ok cx cz : 0 ≤ cx ≤ 10 → 0 ≤ cz ≤ 10 → view_ok (small_view cx cz).
Proof.
  intros Hx Hz. unfold small_view. destruct (positioned {| x := cx; z := cz |} 2) as [[p|]| | |] eqn:E; try done.
  pose proof E as E'. unfold positioned in E'. inv_bind E'. injection E' as Hp.
  unfold view_ok. rewrite <- Hp at 1 2. cbn. split_and!; [unfold coord_ok, in_i; cbn; lia|by unfold distance_ok|].
  rewrite <- Hp. cbn. by rewrite E, Hp.
Qed.

Lemma view_geometry_witness :
  ∃ v, positioned {| x := 0; z := 2147483643 |} 2 = Ok v ∧
    contains v {| x := 3; z := 2147483643 |} = true ∧ contains v {| x := 4; z := 2147483643 |} = false ∧
    positioned {| x := 0; z := 2147483644 |} 2 = Err CoordinateBounds.
Proof.
  pose proof (view_geometry {| x := 0; z := 2147483643 |} 2 {| x := 4; z := 2147483643 |}) as Hg.
  specialize (Hg ltac:(unfold coord_ok, in_i; cbn; lia) ltac:(by unfold distance_ok)
    ltac:(unfold coord_ok, in_i; cbn; lia)).
  destruct (positioned {| x := 0; z := 2147483643 |} 2) as [v|e| |] eqn:E; try (vm_compute in E; discriminate).
  exists v. split; [reflexivity|]. destruct Hg as (p&->&Hc&Hd&Hn&_).
  split; [vm_compute in E; injection E as <-; reflexivity|].
  split; [|reflexivity].
  destruct (contains (Some p) {| x := 4; z := 2147483643 |}); [|reflexivity].
  exfalso. pose proof (proj1 Hn eq_refl) as Hx. unfold near in Hx. rewrite Hc, Hd in Hx.
  cbn [x z] in Hx. vm_compute in Hx. discriminate.
Defined.

Lemma view_difference_exact_witness :
  ∃ l d, collect (S (length l)) (difference_new (small_view 0 0) (small_view 1 0)) = Ok (l, d) ∧
    CEnter {| x := 4; z := 0 |} ∈ l ∧ CLeave {| x := -3; z := 0 |} ∈ l ∧ NoDup l.
Proof.
  destruct (view_difference_exact (small_view 0 0) (small_view 1 0)) as (_&l&d&Hl&Hn&He&Hv&_);
    [apply small_view_ok; lia|apply small_view_ok; lia|].
  exists l, d. split; [exact Hl|]. split; [|split; [|exact Hn]].
  - apply He. split; [unfold coord_ok, in_i; cbn; lia|]. split; reflexivity.
  - apply Hv. split; [unfold coord_ok, in_i; cbn; lia|]. split; reflexivity.
Defined.

Lemma player_view_update_witness :
  ∃ p1 p2, begin_update player_new (small_view 0 0) = Ok p1 ∧
    pending_event p1 = Some (SetCenter {| x := 0; z := 0 |}) ∧
    acknowledge_all (expected EMPTY (small_view 0 0)) p1 = Some p2 ∧
    finish_update p2 = Ok {| current := small_view 0 0; transition := None |}.
Proof.
  destruct (player_view_update player_new (small_view 0 0)) as (_&_&p1&p2&Hb&_&Ha&_&_&_&_&Hf);
    [done|apply small_view_ok; lia|done|].
  exists p1, p2. split; [exact Hb|]. split; [|split; [exact Ha|exact Hf]].
  revert Hb. unfold begin_update, first_event. intros Hb.
  change (view_center (small_view 0 0)) with (Some {| x := 0; z := 0 |}) in Hb.
  cbn [player_new transition current EMPTY view_center fmap option_fmap option_map] in Hb.
  rewrite decide_False in Hb by discriminate. mstep in Hb. by injection Hb as <-.
Defined.

Lemma player_view_tracks_client_witness :
  ∃ p cl, rtc view_step (player_new, client_new) (p, cl) ∧ current p = EMPTY ∧
    shown cl {| x := 1; z := 1 |} = contains (current p) {| x := 1; z := 1 |}.
Proof.
  destruct (begin_spec player_new EMPTY I I eq_refl) as (t&Hb&Htn&_&_&_&Ht).
  assert (He : event t = None) by (unfold todo, expected in Ht; by destruct (event t)).
  assert (Hr : rtc view_step (player_new, client_new) ({| current := EMPTY; transition := None |}, client_new)).
  { eapply rtc_l; [by eapply (step_begin player_new _ client_new EMPTY)|]. eapply rtc_l; [|apply rtc_refl].
    apply step_finish. unfold finish_update. cbn. by rewrite He, Htn. }
  exists {| current := EMPTY; transition := None |}, client_new. split; [exact Hr|]. split; [reflexivity|].
  apply (player_view_tracks_client _ _ Hr); [reflexivity|]. unfold coord_ok, in_i; cbn; lia.
Defined.
