(* ===== verification/Sorted.v ===== *)
(** * Sorted vectors: binary search and keyed entries

    Many owners of the server keep a vector sorted by a unique key and find
    entries with [binary_search_by].  [binary_search] is that loop; a
    [KeyOrder] says what a comparison must satisfy, and the lemmas give lookup,
    insertion and removal on sorted vectors once for all of them. *)

From Stdlib Require Import Sorted.
From stdpp Require Import sorting sets.
From S2P Require Import Prelude.

(** A total order given by its comparison function. *)
Class KeyOrder (K : Type) := {
  key_cmp : K → K → comparison;
  key_cmp_eq a b : key_cmp a b = Eq ↔ a = b;
  key_cmp_antisym a b : key_cmp a b = CompOpp (key_cmp b a);
  key_cmp_trans a b c : key_cmp a b = Lt → key_cmp b c = Lt → key_cmp a c = Lt;
}.

Definition key_lt `{KeyOrder K} (a b : K) : Prop := key_cmp a b = Lt.

#[export] Instance Z_order : KeyOrder Z.
Proof.
  refine {| key_cmp := Z.compare |}.
  - apply Z.compare_eq_iff.
  - intros. apply Z.compare_antisym.
  - intros a b c. rewrite !Z.compare_lt_iff. lia.
Defined.

(** Lexicographic order of slices. *)
Fixpoint list_cmp `{KeyOrder K} (a b : list K) : comparison :=
  match a, b with
  | [], [] => Eq
  | [], _ => Lt
  | _, [] => Gt
  | x :: a, y :: b => match key_cmp x y with Eq => list_cmp a b | c => c end
  end.

#[export] Instance list_order `{KeyOrder K} : KeyOrder (list K).
Proof.
  refine {| key_cmp := list_cmp |}.
  - induction a as [|x a IH]; intros [|y b]; cbn; try (split; congruence).
    pose proof (key_cmp_eq x y). destruct (key_cmp x y); rewrite ?IH; naive_solver.
  - induction a as [|x a IH]; intros [|y b]; cbn; try done.
    rewrite (key_cmp_antisym x y). destruct (key_cmp y x); cbn; [apply IH|done..].
  - induction a as [|x a IH]; intros [|y b] [|z c]; cbn; try done.
    destruct (key_cmp x y) eqn:E1; [apply key_cmp_eq in E1 as ->| |done].
    + destruct (key_cmp y z); [apply IH|done..].
    + intros _. destruct (key_cmp y z) eqn:E2; [apply key_cmp_eq in E2 as ->; by rewrite E1| |done].
      intros _. by rewrite (key_cmp_trans x y z).
Defined.

(** Lexicographic order of pairs. *)
#[export] Instance pair_order `{KeyOrder K1, KeyOrder K2} : KeyOrder (K1 * K2).
Proof.
  refine {| key_cmp p q := match key_cmp p.1 q.1 with Eq => key_cmp p.2 q.2 | c => c end |}.
  - intros [a b] [c d]. cbn. pose proof (key_cmp_eq a c). pose proof (key_cmp_eq b d).
    destruct (key_cmp a c); naive_solver.
  - intros [a b] [c d]. cbn. rewrite (key_cmp_antisym a c). destruct (key_cmp c a); cbn; [apply key_cmp_antisym|done..].
  - intros [a a'] [b b'] [c c']. cbn. destruct (key_cmp a b) eqn:E1; [apply key_cmp_eq in E1 as ->| |done].
    + destruct (key_cmp b c); [apply key_cmp_trans|done..].
    + intros _. destruct (key_cmp b c) eqn:E2; [apply key_cmp_eq in E2 as ->; by rewrite E1| |done].
      intros _. by rewrite (key_cmp_trans a b c).
Defined.

Section order.
Context `{KeyOrder K}.

Lemma key_cmp_refl a : key_cmp a a = Eq.
Proof. by apply key_cmp_eq. Qed.
Lemma key_lt_irrefl a : ¬ key_lt a a.
Proof. unfold key_lt. by rewrite key_cmp_refl. Qed.
Lemma key_cmp_gt a b : key_cmp a b = Gt ↔ key_lt b a.
Proof. unfold key_lt. rewrite key_cmp_antisym. by destruct (key_cmp b a). Qed.
#[global] Instance key_lt_trans : Transitive key_lt.
Proof. intros a b c. apply key_cmp_trans. Qed.
#[global] Instance key_lt_dec a b : Decision (key_lt a b).
Proof. unfold key_lt. apply _. Defined.
End order.

(** ** Binary search *)

(** [slice::binary_search_by(f)]: [inl] is [Ok], [inr] is [Err].  The loop
    halves [size]; the fuel is the length. *)
Fixpoint search_loop {A} (f : A → comparison) (l : list A) (fuel left size : nat) : nat + nat :=
  match fuel, size with
  | _, O | O, _ => inr left
  | S fuel', _ =>
      let mid := left + size / 2 in
      match l !! mid with
      | None => inr left
      | Some a =>
          match f a with
          | Eq => inl mid
          | Lt => search_loop f l fuel' (S mid) (size - size / 2 - 1)
          | Gt => search_loop f l fuel' left (size / 2)
          end
      end
  end.

Definition binary_search {A} (f : A → comparison) (l : list A) : nat + nat :=
  search_loop f l (length l) 0 (length l).

(** A comparison that is [Lt], then at most once [Eq], then [Gt] along the list. *)
Definition bisects {A} (f : A → comparison) (l : list A) : Prop :=
  ∀ i j a b, i < j → l !! i = Some a → l !! j = Some b →
    (f b = Lt ∨ f b = Eq → f a = Lt) ∧ (f a = Gt ∨ f a = Eq → f b = Gt).

Lemma search_loop_spec {A} (f : A → comparison) l fuel left size :
  bisects f l → size ≤ fuel → left + size ≤ length l →
  (∀ i a, i < left → l !! i = Some a → f a = Lt) →
  (∀ i a, left + size ≤ i → l !! i = Some a → f a = Gt) →
  match search_loop f l fuel left size with
  | inl i => ∃ a, l !! i = Some a ∧ f a = Eq
  | inr i => i ≤ length l ∧ (∀ j a, j < i → l !! j = Some a → f a = Lt) ∧
      (∀ j a, i ≤ j → l !! j = Some a → f a = Gt)
  end.
Proof.
  intros Hb. revert left size. induction fuel as [|fuel IH]; intros left size Hf Hlen Hlo Hhi.
  { destruct size; [|lia]. cbn. split_and!; [lia|done|]. intros j a Hj. apply Hhi. lia. }
  cbn [search_loop]. destruct size as [|size].
  { split_and!; [lia|done|]. intros j a Hj. apply Hhi. lia. }
  pose proof (Nat.div_lt (S size) 2 ltac:(lia) ltac:(lia)) as Hd. set (n := S size) in *.
  destruct (lookup_lt_ok l (left + n / 2)) as [a Ha]; [lia|]. rewrite Ha.
  destruct (f a) eqn:Hfa.
  - by exists a.
  - apply IH; [lia|lia| |].
    + intros i b Hi Hlk. destruct (decide (i = left + n / 2)) as [->|]; [congruence|].
      apply (Hb i (left + n / 2) b a); [lia|done|done|by left].
    + intros i b Hi. apply Hhi. lia.
  - apply IH; [lia|lia|done|].
    intros i b Hi Hlk. destruct (decide (i = left + n / 2)) as [->|]; [congruence|].
    apply (Hb (left + n / 2) i a b); [lia|done|done|by left].
Qed.

Lemma binary_search_spec {A} (f : A → comparison) l :
  bisects f l →
  match binary_search f l with
  | inl i => ∃ a, l !! i = Some a ∧ f a = Eq
  | inr i => i ≤ length l ∧ (∀ j a, j < i → l !! j = Some a → f a = Lt) ∧
      (∀ j a, i ≤ j → l !! j = Some a → f a = Gt)
  end.
Proof.
  intros Hb. apply search_loop_spec; [done|lia|lia|lia|].
  intros i a Hi Hlk. apply lookup_lt_Some in Hlk. lia.
Qed.

(** ** Entries with sorted, unique keys *)

Section keyed.
Context {A K : Type} `{KeyOrder K} (key : A → K).

Definition sorted_keys (l : list A) : Prop := StronglySorted key_lt (key <$> l).

Lemma sorted_lookup l i j a b :
  sorted_keys l → i < j → l !! i = Some a → l !! j = Some b → key_lt (key a) (key b).
Proof.
  unfold sorted_keys. intros Hs. revert i j. induction l as [|x l IH]; intros i j Hij Hi Hj; [done|].
  cbn in Hs. apply StronglySorted_inv in Hs as [Hs Hall]. destruct j as [|j]; [lia|]. cbn in Hj.
  destruct i as [|i]; cbn in Hi.
  - injection Hi as ->. rewrite Forall_forall in Hall. apply Hall.
    apply list_elem_of_fmap. exists b. split; [done|]. by eapply list_elem_of_lookup_2.
  - apply (IH Hs i j); [lia|done|done].
Qed.

Lemma sorted_bisects l k : sorted_keys l → bisects (λ a, key_cmp (key a) k) l.
Proof.
  intros Hs i j a b Hij Hi Hj. pose proof (sorted_lookup l i j a b Hs Hij Hi Hj) as Hlt. split.
  - intros [Hb|Hb]; [by eapply key_cmp_trans|]. apply key_cmp_eq in Hb. by rewrite <- Hb.
  - rewrite !key_cmp_gt. intros [Ha|Ha]; [by etrans|]. apply key_cmp_eq in Ha. by rewrite <- Ha.
Qed.

Lemma sorted_unique l i j a b :
  sorted_keys l → l !! i = Some a → l !! j = Some b → key a = key b → i = j.
Proof.
  intros Hs Hi Hj Hk. destruct (Nat.lt_total i j) as [Hl|[->|Hl]]; [|done|]; exfalso.
  - pose proof (sorted_lookup l i j a b Hs Hl Hi Hj) as Hlt. rewrite Hk in Hlt. by apply key_lt_irrefl in Hlt.
  - pose proof (sorted_lookup l j i b a Hs Hl Hj Hi) as Hlt. rewrite Hk in Hlt. by apply key_lt_irrefl in Hlt.
Qed.

(** The result of a search for a key. *)
Lemma search_key l k :
  sorted_keys l →
  match binary_search (λ a, key_cmp (key a) k) l with
  | inl i => ∃ a, l !! i = Some a ∧ key a = k
  | inr i => i ≤ length l ∧ Forall (λ a, key_lt (key a) k) (take i l) ∧ Forall (λ a, key_lt k (key a)) (drop i l)
  end.
Proof.
  intros Hs. pose proof (binary_search_spec _ l (sorted_bisects l k Hs)) as Hb.
  destruct (binary_search _ l) as [i|i].
  - destruct Hb as (a&Ha&Hk). exists a. split; [done|]. by apply key_cmp_eq.
  - destruct Hb as (Hi&Hlo&Hhi). split; [done|]. split; apply Forall_lookup.
    + intros j a Hj. apply lookup_take_Some in Hj as [Hj Hlt]. by apply (Hlo j).
    + intros j a Hj. rewrite lookup_drop in Hj. apply key_cmp_gt. apply (Hhi (i + j)); [lia|done].
Qed.

Lemma sorted_app l1 l2 :
  sorted_keys (l1 ++ l2) ↔ sorted_keys l1 ∧ sorted_keys l2 ∧
    ∀ a b, a ∈ l1 → b ∈ l2 → key_lt (key a) (key b).
Proof.
  unfold sorted_keys. rewrite fmap_app. induction l1 as [|x l1 IH]; cbn.
  - split; [intros; split_and!; [constructor|done|set_unfold; naive_solver]|naive_solver].
  - split.
    + intros Hs. apply StronglySorted_inv in Hs as [Hs Hall]. apply IH in Hs as (?&?&Hx).
      apply Forall_app in Hall as [Hall1 Hall2]. split_and!; [by constructor|done|].
      intros a b [->|Ha]%elem_of_cons Hb; [|by apply Hx].
      rewrite Forall_forall in Hall2. apply Hall2, list_elem_of_fmap. by exists b.
    + intros (Hs&Hs2&Hx). apply StronglySorted_inv in Hs as [Hs Hall]. constructor.
      * apply IH. split_and!; [done|done|]. intros a b Ha. apply Hx. by right.
      * apply Forall_app. split; [done|]. apply Forall_forall. intros k (b&->&Hb)%list_elem_of_fmap.
        apply Hx; [by left|done].
Qed.

(** Inserting at the position a failed search reports keeps the order. *)
Lemma sorted_insert l i a :
  sorted_keys l → Forall (λ b, key_lt (key b) (key a)) (take i l) → Forall (λ b, key_lt (key a) (key b)) (drop i l) →
  sorted_keys (take i l ++ a :: drop i l).
Proof.
  intros Hs Hlo Hhi. rewrite Forall_forall in Hlo. rewrite Forall_forall in Hhi.
  rewrite <- (take_drop i l) in Hs. apply sorted_app in Hs as (Hs1&Hs2&Hx).
  apply sorted_app. split_and!; [done| |].
  - constructor; [done|]. apply Forall_fmap, Forall_forall. intros b Hb. by apply Hhi.
  - intros b c Hb [->|Hc]%elem_of_cons; [by apply Hlo|by apply Hx].
Qed.

Lemma sorted_delete l i : sorted_keys l → sorted_keys (delete i l).
Proof.
  intros Hs. destruct (decide (i < length l)) as [Hi|Hi].
  - rewrite delete_take_drop. rewrite <- (take_drop i l) in Hs. apply sorted_app in Hs as (Hs1&Hs2&Hx).
    destruct (drop i l) as [|y r] eqn:E; [apply (f_equal length) in E; rewrite length_drop in E; cbn in E; lia|].
    assert (Hd : drop (S i) l = r) by (rewrite <- Nat.add_1_r, <- drop_drop, E; done).
    rewrite Hd. apply sorted_app. split_and!; [done| |].
    + unfold sorted_keys in *. cbn in Hs2. by apply StronglySorted_inv in Hs2 as [? _].
    + intros a b Ha Hb. apply Hx; [done|by right].
  - rewrite delete_take_drop, take_ge, drop_ge by lia. by rewrite app_nil_r.
Qed.

Lemma sorted_replace l i a b :
  sorted_keys l → l !! i = Some a → key b = key a → sorted_keys (<[i := b]> l).
Proof.
  unfold sorted_keys. intros Hs Hi Hk. rewrite list_fmap_insert, Hk.
  rewrite list_insert_id; [done|]. by rewrite list_lookup_fmap, Hi.
Qed.
End keyed.
