(* ===== verification/Sorting.v ===== *)
(** * Sorting by key

    [sort_unstable_by_key] followed by a look for equal neighbours, the way the
    tables of the server are put in order and refused when a key occurs twice:
    when the look finds nothing the result is the one sorted arrangement of the
    elements, and otherwise some key did occur twice. *)

From Stdlib Require Import Sorted.
From stdpp Require Import sorting.
From S2P Require Import Prelude.
From S2P Require Import Sorted.

Section sorting.
Context {A K : Type} `{KeyOrder K} (key : A → K).

Definition key_le (a b : A) : Prop := key_cmp (key a) (key b) ≠ Gt.
#[global] Instance key_le_dec a b : Decision (key_le a b).
Proof. unfold key_le. destruct (key_cmp _ _); [left; done|left; done|right; by intros []]. Defined.

(** Any sort gives this up to the order of elements with equal keys. *)
Definition sort_by_key (l : list A) : list A := merge_sort key_le l.

(** [windows(2).any(|pair| pair[0] == pair[1])] *)
Fixpoint repeats (l : list A) : bool :=
  match l with
  | a :: ((b :: _) as rest) => match key_cmp (key a) (key b) with Eq => true | _ => repeats rest end
  | _ => false
  end.

#[global] Instance key_le_total : Total key_le.
Proof.
  intros a b. unfold key_le. rewrite (key_cmp_antisym (key b) (key a)).
  destruct (key_cmp (key a) (key b)); [by left|by left|by right].
Qed.
#[global] Instance key_le_trans : Transitive key_le.
Proof.
  intros a b c. unfold key_le. intros Hab Hbc. destruct (key_cmp (key a) (key b)) eqn:E1; [apply key_cmp_eq in E1 as ->; done| |done].
  destruct (key_cmp (key b) (key c)) eqn:E2; [apply key_cmp_eq in E2 as <-; by rewrite E1| |done].
  by rewrite (key_cmp_trans _ _ _ E1 E2).
Qed.

Lemma sort_by_key_perm l : sort_by_key l ≡ₚ l.
Proof. apply merge_sort_Permutation. Qed.

Lemma repeats_strict l : StronglySorted key_le l → repeats l = false → sorted_keys key l.
Proof.
  unfold sorted_keys. induction l as [|a l IH]; intros Hs Hr; [constructor|].
  apply StronglySorted_inv in Hs as [Hs Hall]. cbn.
  destruct l as [|b l]; [repeat constructor|].
  assert (Hab : key_lt (key a) (key b)).
  { apply Forall_inv in Hall. unfold key_le, key_lt in *. cbn [repeats] in Hr. by destruct (key_cmp (key a) (key b)). }
  assert (Hs' : sorted_keys key (b :: l)).
  { apply IH; [done|]. cbn [repeats] in Hr. by destruct (key_cmp (key a) (key b)). }
  constructor; [done|]. unfold sorted_keys in Hs'. cbn in Hs'. apply StronglySorted_inv in Hs' as [_ Hb].
  constructor; [done|]. eapply Forall_impl; [exact Hb|]. intros k Hk. by etrans.
Qed.

Lemma repeats_nodup l : NoDup (key <$> l) → repeats l = false.
Proof.
  induction l as [|a l IH]; [done|]. cbn. intros [Ha Hn]%NoDup_cons. destruct l as [|b l]; [done|].
  destruct (key_cmp (key a) (key b)) eqn:E; [|by apply IH..].
  apply key_cmp_eq in E. destruct Ha. cbn. rewrite E. by left.
Qed.

(** The two answers of the look after the sort. *)
Lemma sort_by_key_sorted l : repeats (sort_by_key l) = false → sorted_keys key (sort_by_key l).
Proof. intros Hr. apply repeats_strict; [|done]. apply (StronglySorted_merge_sort key_le). Qed.

Lemma sorted_keys_nodup l : sorted_keys key l → NoDup (key <$> l).
Proof.
  intros Hs. apply NoDup_alt. intros i j k Hi Hj.
  apply list_lookup_fmap_Some in Hi as (a&Ea&Ha). apply list_lookup_fmap_Some in Hj as (b&Eb&Hb).
  eapply (sorted_unique key l i j a b Hs Ha Hb). congruence.
Qed.

Lemma sort_by_key_repeats l : repeats (sort_by_key l) = true ↔ ¬ NoDup (key <$> l).
Proof.
  assert (Hp : key <$> sort_by_key l ≡ₚ key <$> l) by (by rewrite sort_by_key_perm). split.
  - intros Hr Hn. rewrite <- Hp in Hn. apply repeats_nodup in Hn. congruence.
  - intros Hn. destruct (repeats (sort_by_key l)) eqn:E; [done|]. destruct Hn. rewrite <- Hp.
    by apply sorted_keys_nodup, sort_by_key_sorted.
Qed.

(** Searching the sorted arrangement. *)
Lemma search_sorted l a :
  sorted_keys key l → a ∈ l → ∃ i, binary_search (λ b, key_cmp (key b) (key a)) l = inl i ∧ l !! i = Some a.
Proof.
  intros Hs Ha. pose proof (search_key key l (key a) Hs) as Hk. apply list_elem_of_lookup in Ha as [j Hj].
  destruct (binary_search _ l) as [i|i].
  - destruct Hk as (b&Hb&E). exists i. split; [done|]. by rewrite (sorted_unique key l i j b a Hs Hb Hj E) in Hb |- *.
  - destruct Hk as (_&Hlo&Hhi). exfalso.
    assert (a ∈ take i l ++ drop i l) as [Hx|Hx]%elem_of_app by (rewrite take_drop; by eapply list_elem_of_lookup_2).
    + rewrite Forall_forall in Hlo. by apply (key_lt_irrefl (key a)), Hlo.
    + rewrite Forall_forall in Hhi. by apply (key_lt_irrefl (key a)), Hhi.
Qed.
End sorting.

(** What a search finds compares equal, whatever the comparison. *)
Lemma search_loop_found {A} (f : A → comparison) l fuel left size i :
  search_loop f l fuel left size = inl i → ∃ a, l !! i = Some a ∧ f a = Eq.
Proof.
  revert left size. induction fuel as [|fuel IH]; intros left size; [by destruct size|].
  destruct size as [|size]; [done|]. cbn [search_loop]. destruct (l !! (left + S size / 2)) as [a|] eqn:Ea; [|done].
  destruct (f a) eqn:Ef; [|apply IH..]. intros [= <-]. by exists a.
Qed.

Lemma binary_search_found {A} (f : A → comparison) l i :
  binary_search f l = inl i → ∃ a, l !! i = Some a ∧ f a = Eq.
Proof. apply search_loop_found. Qed.

Lemma search_loop_ext {A} (f g : A → comparison) l fuel left size :
  (∀ a, f a = g a) → search_loop f l fuel left size = search_loop g l fuel left size.
Proof.
  intros Hfg. revert left size. induction fuel as [|fuel IH]; intros left size; [by destruct size|].
  destruct size; [done|]. cbn [search_loop]. destruct (l !! _) as [a|]; [|done]. rewrite Hfg. destruct (g a); [done|apply IH..].
Qed.

Lemma binary_search_ext {A} (f g : A → comparison) l : (∀ a, f a = g a) → binary_search f l = binary_search g l.
Proof. apply search_loop_ext. Qed.
