(* ===== verification/Nbt.v ===== *)
(** * NBT trees (src/nbt/mod.rs)

    Tags, compounds sorted by UTF-16 key, and the limits and errors of the
    codecs.  Integers are values in range, floats are their bit patterns.  The
    decode scratch [sequence] of a compound entry only breaks ties while a
    compound is sorted, so it appears in [from_entries] and nowhere else. *)

From Stdlib Require Import Sorted.
From stdpp Require Import sorting gmap.
From S2P Require Import Prelude.
From S2P Require Import Sorted.
Local Open Scope Z_scope.

(** UTF-16 code units. *)
Definition NbtString := list Z.

Inductive Tag :=
| End
| Byte (v : Z)
| Short (v : Z)
| Int (v : Z)
| Long (v : Z)
| Float (bits : Z)
| Double (bits : Z)
| ByteArray (v : list Z)
| String_ (v : NbtString)
| List_ (v : list Tag)
| Compound (entries : list (NbtString * Tag))
| IntArray (v : list Z)
| LongArray (v : list Z).

Definition CompoundEntry := (NbtString * Tag)%type.
Definition name (e : CompoundEntry) : NbtString := e.1.
Definition value (e : CompoundEntry) : Tag := e.2.

Inductive Error :=
| Truncated | UnknownTag (id : Z) | NegativeLength (n : Z) | UnexpectedEnd | InvalidModifiedUtf8
| StringTooLong | LengthOverflow | DepthLimit | InvalidDepthLimit | VanillaQuotaExceeded
| AllocationBudgetExceeded | AllocationFailed | OutputLimit | NamedEnd.

Record Limits := {
  vanilla_quota_bytes : Z;
  allocation_bytes : Z;
  max_depth : nat;
  output_bytes : Z;
}.

Definition limits_default : Limits := {|
  vanilla_quota_bytes := 2 * 1024 * 1024;
  allocation_bytes := 16 * 1024 * 1024;
  max_depth := 512;
  output_bytes := 16 * 1024 * 1024;
|}.

Definition limits_validate (l : Limits) : outcome Error () :=
  if (512 <? max_depth l)%nat then Err InvalidDepthLimit else Ok tt.

Definition tag_id (t : Tag) : Z :=
  match t with
  | End => 0 | Byte _ => 1 | Short _ => 2 | Int _ => 3 | Long _ => 4 | Float _ => 5 | Double _ => 6
  | ByteArray _ => 7 | String_ _ => 8 | List_ _ => 9 | Compound _ => 10 | IntArray _ => 11 | LongArray _ => 12
  end.

Definition is_end (t : Tag) : bool := match t with End => true | _ => false end.

Definition is_wrapper (entries : list CompoundEntry) : bool :=
  match entries with [(n, _)] => (length n =? 0)%nat | _ => false end.

(** ** Floats by their bits *)

Definition f32_is_nan (bits : Z) : bool :=
  (Z.land (Z.shiftr bits 23) 255 =? 255) && negb (Z.land bits (2 ^ 23 - 1) =? 0).
Definition f64_is_nan (bits : Z) : bool :=
  (Z.land (Z.shiftr bits 52) 2047 =? 2047) && negb (Z.land bits (2 ^ 52 - 1) =? 0).
(** [value == 0.0] holds for both zeros. *)
Definition f32_is_zero (bits : Z) : bool := (bits =? 0) || (bits =? 2 ^ 31).
Definition f64_is_zero (bits : Z) : bool := (bits =? 0) || (bits =? 2 ^ 63).

(** ** Equality: NaNs are one value, zeros are told apart *)

Fixpoint list_eqb {A} (f : A → A → bool) (a b : list A) : bool :=
  match a, b with
  | [], [] => true
  | x :: a, y :: b => f x y && list_eqb f a b
  | _, _ => false
  end.

Fixpoint tag_eqb (a b : Tag) {struct a} : bool :=
  match a, b with
  | End, End => true
  | Byte a, Byte b | Short a, Short b | Int a, Int b | Long a, Long b => a =? b
  | Float a, Float b => (a =? b) || (f32_is_nan a && f32_is_nan b)
  | Double a, Double b => (a =? b) || (f64_is_nan a && f64_is_nan b)
  | ByteArray a, ByteArray b | String_ a, String_ b | IntArray a, IntArray b | LongArray a, LongArray b =>
      list_eqb Z.eqb a b
  | List_ a, List_ b =>
      (fix go a b := match a, b with
        | [], [] => true
        | x :: a, y :: b => tag_eqb x y && go a b
        | _, _ => false
        end) a b
  | Compound a, Compound b =>
      (fix go (a b : list (NbtString * Tag)) := match a, b with
        | [], [] => true
        | (n, x) :: a, (m, y) :: b => list_eqb Z.eqb n m && tag_eqb x y && go a b
        | _, _ => false
        end) a b
  | _, _ => false
  end.

(** ** Compounds *)

Definition find_key (entries : list CompoundEntry) (key : NbtString) : nat + nat :=
  binary_search (λ e, key_cmp (name e) key) entries.

Definition compound_get (entries : list CompoundEntry) (key : NbtString) : outcome Error (option Tag) :=
  match find_key entries key with
  | inl index => e ← unwrap (entries !! index); Ok (Some (value e))
  | inr _ => Ok None
  end.

(** [if let Some(slot) = compound.get_mut(key) { *slot = new }] *)
Definition compound_get_mut (entries : list CompoundEntry) (key : NbtString) (new : Tag)
    : outcome Error (option (list CompoundEntry)) :=
  match find_key entries key with
  | inl index => e ← unwrap (entries !! index); Ok (Some (<[index := (name e, new)]> entries))
  | inr _ => Ok None
  end.

Definition compound_remove (entries : list CompoundEntry) (key : NbtString)
    : outcome Error (option Tag * list CompoundEntry) :=
  match find_key entries key with
  | inl index => e ← unwrap (entries !! index); Ok (Some (value e), delete index entries)
  | inr _ => Ok (None, entries)
  end.

Section compound.
(** Bytes of a compound entry, and whether [try_reserve(1)] finds room. *)
Context `{Allocator} (entry_size : Z).

Definition compound_insert (entries : list CompoundEntry) (key : NbtString) (v : Tag)
    : outcome Error (option Tag * list CompoundEntry) :=
  match find_key entries key with
  | inl index =>
      e ← unwrap (entries !! index);
      Ok (Some (value e), <[index := (name e, v)]> entries)
  | inr index =>
      _ ← ok_or (reserve_exact entry_size (zlen entries + 1)) AllocationFailed;
      _ ← assert_that (index <=? length entries)%nat;
      Ok (None, take index entries ++ (key, v) :: drop index entries)
  end.
End compound.

(** Entries with the decode order that breaks ties. *)
Definition sequenced := (NbtString * nat * Tag)%type.
Definition seq_key (e : sequenced) : NbtString * Z := (e.1.1, Z.of_nat e.1.2).
Definition seq_le (a b : sequenced) : Prop := key_cmp (seq_key a) (seq_key b) ≠ Gt.
#[global] Instance seq_le_dec a b : Decision (seq_le a b).
Proof. unfold seq_le. destruct (key_cmp _ _); [left; done|left; done|right; by intros []]. Defined.

(** [dedup_by] with the swap: of equal names the first slot gets the last value. *)
Fixpoint dedup_from (kept : CompoundEntry) (l : list sequenced) : list CompoundEntry :=
  match l with
  | [] => [kept]
  | (n, _, v) :: rest =>
      if decide (n = name kept) then dedup_from (name kept, v) rest
      else kept :: dedup_from (n, v) rest
  end.

Definition dedup (l : list sequenced) : list CompoundEntry :=
  match l with [] => [] | (n, _, v) :: rest => dedup_from (n, v) rest end.

Definition number (entries : list CompoundEntry) : list sequenced :=
  imap (λ i e, (name e, i, value e)) entries.

(** [sort_unstable_by] on a total order has one possible result. *)
Definition from_entries (entries : list CompoundEntry) : list CompoundEntry :=
  dedup (merge_sort seq_le (number entries)).

(** ** Iterative release *)

Inductive DropState :=
| Descend (current parents : Tag) (dropped : list Tag)
| Ascend (parents : Tag) (dropped : list Tag)
| Released (dropped : list Tag).

(** One iteration of the loops of [drop_iterative]; [dropped] records the leaves
    released.  [None] is the unreachable branch. *)
Definition drop_step (s : DropState) : option DropState :=
  match s with
  | Descend current parents dropped =>
      match current with
      | List_ children =>
          match last children with
          | Some child => Some (Descend child (List_ (removelast children ++ [parents])) dropped)
          | None => Some (Ascend parents (dropped ++ [current]))
          end
      | Compound entries =>
          match last entries with
          | Some e => Some (Descend (value e) (Compound (removelast entries ++ [([], parents)])) dropped)
          | None => Some (Ascend parents (dropped ++ [current]))
          end
      | leaf => Some (Ascend parents (dropped ++ [leaf]))
      end
  | Ascend parents dropped =>
      match parents with
      | End => Some (Released dropped)
      | List_ children =>
          previous ← last children;
          match last (removelast children) with
          | Some child => Some (Descend child (List_ (removelast (removelast children) ++ [previous])) dropped)
          | None => Some (Ascend previous dropped)
          end
      | Compound entries =>
          previous ← last entries;
          match last (removelast entries) with
          | Some e => Some (Descend (value e)
                        (Compound (removelast (removelast entries) ++ [([], value previous)])) dropped)
          | None => Some (Ascend (value previous) dropped)
          end
      | _ => None
      end
  | Released _ => Some s
  end.

Fixpoint drop_run (fuel : nat) (s : DropState) : outcome False (list Tag) :=
  match s, fuel with
  | Released dropped, _ => Ok dropped
  | _, O => NoFuel
  | _, S fuel' => match drop_step s with Some s' => drop_run fuel' s' | None => Panic end
  end.

Definition drop_iterative (fuel : nat) (t : Tag) : outcome False (list Tag) :=
  drop_run fuel (Descend t End []).

(** ** Induction over trees *)

Section tag_induction.
Context (P : Tag → Prop).
Hypothesis Hleaf : ∀ t, (∀ l, t ≠ List_ l) → (∀ l, t ≠ Compound l) → P t.
Hypothesis Hlist : ∀ l, Forall P l → P (List_ l).
Hypothesis Hcompound : ∀ l, Forall (λ e, P (value e)) l → P (Compound l).

Lemma tag_induction : ∀ t, P t.
Proof.
  fix IH 1. intros [ | | | | | | | | |l|l| | ]; try (apply Hleaf; congruence).
  - apply Hlist. induction l as [|t l IHl]; constructor; [apply IH|exact IHl].
  - apply Hcompound. induction l as [|[n t] l IHl]; constructor; [apply IH|exact IHl].
Qed.
End tag_induction.

(** ** Compounds are maps *)

Definition sorted_entries (l : list CompoundEntry) : Prop := sorted_keys name l.
Definition to_map (l : list CompoundEntry) : gmap NbtString Tag := list_to_map l.

Lemma sorted_NoDup l : sorted_entries l → NoDup l.*1.
Proof.
  intros Hs. apply NoDup_alt. intros i j k Hi Hj.
  apply list_lookup_fmap_Some in Hi as (a&Ha&Ei). apply list_lookup_fmap_Some in Hj as (b&Hb&Ej).
  eapply (sorted_unique name l i j a b Hs Ei Ej). unfold name. congruence.
Qed.

Lemma to_map_elem l k v : sorted_entries l → to_map l !! k = Some v ↔ (k, v) ∈ l.
Proof. intros Hs. unfold to_map. symmetry. apply elem_of_list_to_map. by apply sorted_NoDup. Qed.

Lemma to_map_at l i e : sorted_entries l → l !! i = Some e → to_map l !! name e = Some (value e).
Proof. intros Hs Hi. apply to_map_elem; [done|]. destruct e. by eapply list_elem_of_lookup_2. Qed.

Lemma to_map_absent l i k :
  Forall (λ a, key_lt (name a) k) (take i l) → Forall (λ a, key_lt k (name a)) (drop i l) → to_map l !! k = None.
Proof.
  intros Hlo Hhi. apply not_elem_of_list_to_map. intros Hin.
  rewrite <- (take_drop i l), fmap_app, elem_of_app in Hin. rewrite Forall_forall in Hlo, Hhi.
  destruct Hin as [(e&->&Hin)%list_elem_of_fmap|(e&->&Hin)%list_elem_of_fmap].
  - by apply (key_lt_irrefl (name e)), Hlo.
  - by apply (key_lt_irrefl (name e)), Hhi.
Qed.

(** What a key search says about the map. *)
Lemma find_key_spec l k :
  sorted_entries l →
  match find_key l k with
  | inl i => ∃ e, l !! i = Some e ∧ name e = k ∧ to_map l !! k = Some (value e)
  | inr i => i ≤ length l ∧ to_map l !! k = None ∧
      Forall (λ a, key_lt (name a) k) (take i l) ∧ Forall (λ a, key_lt k (name a)) (drop i l)
  end%nat.
Proof.
  intros Hs. pose proof (search_key name l k Hs) as Hf. unfold find_key.
  destruct (binary_search _ l) as [i|i].
  - destruct Hf as (e&Hi&Hk). exists e. split_and!; [done|done|]. rewrite <- Hk. by apply (to_map_at l i).
  - destruct Hf as (Hi&Hlo&Hhi). split_and!; [done| |done|done]. by apply (to_map_absent l i).
Qed.

Lemma to_map_replace l i e v :
  sorted_entries l → l !! i = Some e → to_map (<[i := (name e, v)]> l) = <[name e := v]> (to_map l).
Proof.
  intros Hs Hi. assert (Hs' : sorted_entries (<[i := (name e, v)]> l)) by (by eapply sorted_replace).
  pose proof (lookup_lt_Some _ _ _ Hi) as Hlt.
  apply map_eq. intros k. apply option_eq. intros w. rewrite to_map_elem by done.
  rewrite list_elem_of_lookup. split.
  - intros [j Hj]. destruct (decide (j = i)) as [->|Hne].
    + rewrite list_lookup_insert_eq in Hj by done. injection Hj as <- <-. by rewrite lookup_insert_eq.
    + rewrite list_lookup_insert_ne in Hj by done. rewrite lookup_insert_ne.
      * apply to_map_elem; [done|]. by eapply list_elem_of_lookup_2.
      * intros <-. apply Hne. symmetry. by eapply (sorted_unique name l i j e (name e, w)).
  - destruct (decide (k = name e)) as [->|Hne].
    + rewrite lookup_insert_eq. intros [= <-]. exists i. by apply list_lookup_insert_eq.
    + rewrite lookup_insert_ne by done. intros Hw. apply to_map_elem in Hw; [|done].
      apply list_elem_of_lookup in Hw as [j Hj]. exists j. rewrite list_lookup_insert_ne; [done|].
      intros ->. assert (Some (k, w) = Some e) as [= <-] by (etrans; [symmetry; exact Hj|exact Hi]). done.
Qed.

Lemma to_map_insert l i k v :
  sorted_entries (take i l ++ (k, v) :: drop i l) → sorted_entries l →
  to_map (take i l ++ (k, v) :: drop i l) = <[k := v]> (to_map l).
Proof.
  intros Hs' Hs. unfold to_map. transitivity (list_to_map ((k, v) :: take i l ++ drop i l) : gmap NbtString Tag).
  - apply list_to_map_proper; [by apply sorted_NoDup|]. symmetry. apply Permutation_middle.
  - by rewrite take_drop.
Qed.

Lemma to_map_delete l i e :
  sorted_entries l → l !! i = Some e → to_map (delete i l) = delete (name e) (to_map l).
Proof.
  intros Hs Hi. assert (Hs' : sorted_entries (delete i l)) by (by apply sorted_delete).
  assert (Hp : l ≡ₚ e :: delete i l) by (by apply delete_Permutation).
  apply map_eq. intros k. destruct (decide (k = name e)) as [->|Hne].
  - rewrite lookup_delete_eq. apply not_elem_of_list_to_map.
    pose proof (sorted_NoDup l Hs) as Hnd. rewrite Hp in Hnd. cbn in Hnd. by apply NoDup_cons in Hnd as [? _].
  - rewrite lookup_delete_ne by done. apply option_eq. intros w. rewrite !to_map_elem by done.
    assert (Hin : (k, w) ∈ l ↔ (k, w) ∈ e :: delete i l) by (split; intros Hx; [by rewrite <- Hp|by rewrite Hp]).
    rewrite Hin, elem_of_cons. split; [tauto|]. intros [<-|]; [done|done].
Qed.

(** ** Building a compound from entries *)

#[global] Instance seq_le_total : Total seq_le.
Proof. intros a b. unfold seq_le. rewrite (key_cmp_antisym (seq_key b)). destruct (key_cmp (seq_key a) (seq_key b)); cbn; auto. Qed.
#[global] Instance seq_le_trans : Transitive seq_le.
Proof.
  intros a b c. unfold seq_le. intros Hab Hbc.
  destruct (key_cmp (seq_key a) (seq_key b)) eqn:E1; [apply key_cmp_eq in E1; by rewrite E1| |done].
  destruct (key_cmp (seq_key b) (seq_key c)) eqn:E2; [apply key_cmp_eq in E2; rewrite <- E2; by rewrite E1| |done].
  by rewrite (key_cmp_trans _ _ _ E1 E2).
Qed.

(** In sorted order names do not decrease, and equal names come in sequence order. *)
Lemma seq_le_name a b : seq_le a b → a.1.1 = b.1.1 ∨ key_lt a.1.1 b.1.1.
Proof.
  unfold seq_le, seq_key, key_lt. cbn.
  change (list_cmp a.1.1 b.1.1) with (key_cmp a.1.1 b.1.1).
  destruct (key_cmp a.1.1 b.1.1) eqn:E; [left; by apply key_cmp_eq in E|by right|done].
Qed.
Lemma seq_le_seq a b : seq_le a b → a.1.1 = b.1.1 → (a.1.2 ≤ b.1.2)%nat.
Proof.
  unfold seq_le, seq_key. cbn. intros H Hn. revert H.
  change (list_cmp a.1.1 b.1.1) with (key_cmp a.1.1 b.1.1).
  rewrite Hn, key_cmp_refl. destruct (Z.compare_spec (Z.of_nat a.1.2) (Z.of_nat b.1.2)); [lia|lia|done].
Qed.

(** Inserting entries one by one into a map. *)
Definition insert_all (l : list sequenced) (m : gmap NbtString Tag) : gmap NbtString Tag :=
  fold_left (λ m e, <[e.1.1 := e.2]> m) l m.

(** Entries of one name come in increasing sequence. *)
Definition increasing (l : list sequenced) : Prop :=
  ∀ i j a b, (i < j)%nat → l !! i = Some a → l !! j = Some b → a.1.1 = b.1.1 → (a.1.2 < b.1.2)%nat.

Definition newest (l : list sequenced) (k : NbtString) (v : Tag) : Prop :=
  ∃ s, (k, s, v) ∈ l ∧ ∀ s' v', (k, s', v') ∈ l → (s' ≤ s)%nat.

Lemma increasing_app l e : increasing (l ++ [e]) → increasing l ∧ ∀ a, a ∈ l → a.1.1 = e.1.1 → (a.1.2 < e.1.2)%nat.
Proof.
  intros Hi. split.
  - intros i j a b Hij Ha Hb. apply (Hi i j); [done|by apply lookup_app_l_Some..].
  - intros a [i Ha]%list_elem_of_lookup. apply (Hi i (length l)).
    + by eapply lookup_lt_Some.
    + by apply lookup_app_l_Some.
    + by apply list_lookup_middle.
Qed.

Lemma insert_all_newest l m k v :
  increasing l →
  insert_all l m !! k = Some v ↔ newest l k v ∨ ((∀ s w, (k, s, w) ∉ l) ∧ m !! k = Some v).
Proof.
  revert v. induction l as [|e l IH] using rev_ind; intros v Hi; cbn.
  - split; [intros Hm; right; split; [intros; apply not_elem_of_nil|done]|].
    intros [(s&Hs&_)|[_ Hm]]; [by apply elem_of_nil in Hs|done].
  - apply increasing_app in Hi as [Hi Hlast]. unfold insert_all. rewrite fold_left_app. cbn.
    fold (insert_all l m). destruct e as [[n s] w]. cbn in *.
    destruct (decide (k = n)) as [->|Hne].
    + rewrite lookup_insert_eq. split.
      * intros [= ->]. left. exists s. split; [set_solver|]. intros s' v' [Hin|Hin%list_elem_of_singleton]%elem_of_app.
        -- specialize (Hlast _ Hin eq_refl). cbn in Hlast. lia.
        -- injection Hin as -> _. lia.
      * intros [(s1&Hs1&Hmax)|[Hno _]]; [|exfalso; by apply (Hno s w); set_solver].
        apply elem_of_app in Hs1 as [Hs1|Hs1%list_elem_of_singleton]; [|by injection Hs1 as _ ->].
        specialize (Hlast _ Hs1 eq_refl). cbn in Hlast. specialize (Hmax s w ltac:(set_solver)). lia.
    + rewrite lookup_insert_ne by done. rewrite IH by done. unfold newest.
      assert (Hin : ∀ s1 v1, (k, s1, v1) ∈ l ++ [(n, s, w)] ↔ (k, s1, v1) ∈ l).
      { intros s1 v1. rewrite elem_of_app, list_elem_of_singleton. split; [intros [?|E]; [done|by injection E as -> _ _]|tauto]. }
      setoid_rewrite Hin. done.
Qed.

Lemma number_increasing es : increasing (number es).
Proof.
  intros i j a b Hij Ha Hb _. unfold number in *. rewrite list_lookup_imap in Ha, Hb.
  destruct (es !! i); [|done]. destruct (es !! j); [|done]. cbn in *. by simplify_eq/=.
Qed.

Lemma sorted_increasing l :
  StronglySorted seq_le l → NoDup (snd ∘ fst <$> l) → increasing l.
Proof.
  intros Hs Hn i j a b Hij Ha Hb Hab.
  assert (Hle : seq_le a b).
  { clear Hn Hab. revert i j Hij Ha Hb. induction Hs as [|x l Hs IH Hall]; intros i j Hij Ha Hb; [done|].
    destruct j as [|j]; [lia|]. destruct i as [|i]; cbn in *; [|by eapply (IH i j); [lia|..]].
    injection Ha as ->. rewrite Forall_forall in Hall. apply Hall. by eapply list_elem_of_lookup_2. }
  pose proof (seq_le_seq a b Hle Hab).
  assert (a.1.2 ≠ b.1.2); [|lia]. intros Heq.
  assert (i = j); [|lia]. apply (NoDup_lookup _ i j (a.1.2) Hn); apply list_lookup_fmap_Some.
  - by exists a.
  - by exists b.
Qed.

Lemma insert_all_commute l m k v :
  (∀ e, e ∈ l → e.1.1 ≠ k) → insert_all l (<[k := v]> m) = <[k := v]> (insert_all l m).
Proof.
  revert m. induction l as [|e l IH]; intros m Hk; [done|]. unfold insert_all in *. cbn.
  rewrite insert_insert_ne by (intros E; symmetry in E; by apply (Hk e ltac:(left))).
  apply IH. intros e' He'. apply Hk. by right.
Qed.

Lemma dedup_from_spec kept l :
  StronglySorted (λ a b : sequenced, a.1.1 = b.1.1 ∨ key_lt a.1.1 b.1.1) l →
  Forall (λ e, name kept = e.1.1 ∨ key_lt (name kept) e.1.1) l →
  sorted_entries (dedup_from kept l) ∧
  Forall (λ e, name kept = name e ∨ key_lt (name kept) (name e)) (dedup_from kept l) ∧
  to_map (dedup_from kept l) = insert_all l {[name kept := value kept]}.
Proof.
  revert kept. induction l as [|[[n s] v] l IH]; intros kept Hs Hk; cbn [dedup_from].
  - split_and!; [repeat constructor|repeat constructor|]. destruct kept. cbn. done.
  - apply StronglySorted_inv in Hs as [Hs Hall]. apply Forall_cons in Hk as [Hn Hk]. cbn in Hn, Hall.
    case_decide as Heq.
    + destruct (IH (name kept, v) Hs Hk) as (H1&H2&H3). split_and!; [done|done|].
      rewrite H3. unfold insert_all. cbn. by rewrite Heq, insert_singleton_eq.
    + destruct Hn as [Hn|Hn]; [by subst|].
      destruct (IH (n, v) Hs Hall) as (H1&H2&H3). cbn in H2.
      assert (Hlt : Forall (λ e, key_lt (name kept) (name e)) (dedup_from (n, v) l)).
      { eapply Forall_impl; [exact H2|]. cbn. intros e [<-|He]; [done|by etrans]. }
      split_and!.
      * unfold sorted_entries, sorted_keys. cbn. constructor; [done|]. by apply Forall_fmap.
      * constructor; [by left|]. eapply Forall_impl; [exact Hlt|]. tauto.
      * unfold to_map in *. cbn [list_to_map]. destruct kept as [kn kv]. cbn in *. rewrite H3.
        unfold insert_all. cbn. fold (insert_all l (<[n:=v]> {[kn := kv]})).
        rewrite <- insert_all_commute.
        -- by rewrite insert_insert_ne by done.
        -- intros e He Hke. rewrite Forall_forall in Hall. specialize (Hall e He). subst kn.
           destruct Hall as [E|Hx]; [by rewrite <- E in Heq|].
           apply (key_lt_irrefl e.1.1). by etrans.
Qed.

Lemma from_entries_spec es :
  sorted_entries (from_entries es) ∧
  ∀ k v, to_map (from_entries es) !! k = Some v ↔ newest (number es) k v.
Proof.
  unfold from_entries. set (l := merge_sort seq_le (number es)).
  assert (Hp : l ≡ₚ number es) by apply merge_sort_Permutation.
  assert (Hs : StronglySorted seq_le l) by (apply Sorted_StronglySorted; [apply _|apply Sorted_merge_sort; apply _]).
  assert (Hnames : StronglySorted (λ a b : sequenced, a.1.1 = b.1.1 ∨ key_lt a.1.1 b.1.1) l).
  { clear Hp. induction Hs as [|x l' Hs IH Hall]; constructor; [done|].
    eapply Forall_impl; [exact Hall|]. intros b. apply seq_le_name. }
  assert (Hinc : increasing l).
  { apply sorted_increasing; [done|]. rewrite Hp. unfold number.
    assert (E : snd ∘ fst <$> imap (λ i e, (name e, i, value e)) es = seq 0 (length es)).
    { apply list_eq. intros i. rewrite list_lookup_fmap, list_lookup_imap.
      destruct (es !! i) as [e|] eqn:Ei; cbn.
      - symmetry. apply lookup_seq. split; [done|]. by eapply lookup_lt_Some.
      - symmetry. apply lookup_seq_ge. by apply lookup_ge_None. }
    rewrite E. apply NoDup_seq. }
  assert (Hmap : sorted_entries (dedup l) ∧ to_map (dedup l) = insert_all l ∅).
  { destruct l as [|[[n s] v] l']; [split; [constructor|done]|]. cbn [dedup].
    apply StronglySorted_inv in Hnames as [Hn Hall].
    destruct (dedup_from_spec (n, v) l' Hn Hall) as (?&_&Hm). split; [done|].
    rewrite Hm. unfold insert_all. cbn. done. }
  destruct Hmap as [Hsorted Hm]. split; [done|]. intros k v. rewrite Hm, insert_all_newest by done.
  rewrite lookup_empty. unfold newest. setoid_rewrite Hp. naive_solver.
Qed.

(** ** Iterative release visits every leaf once *)

(** The leaves of a tree (scalars, arrays, strings and empty containers), last
    child first, which is the order of release. *)
Fixpoint leaves (t : Tag) : list Tag :=
  match t with
  | List_ (c :: l) => concat (rev (leaves <$> (c :: l)))
  | Compound (e :: l) => concat (rev ((λ e, leaves (snd e)) <$> (e :: l)))
  | t => [t]
  end.

(** Number of nodes. *)
Fixpoint nodes (t : Tag) : nat :=
  match t with
  | List_ l => S (sum_list_with nodes l)
  | Compound l => S (sum_list_with (λ e, nodes (snd e)) l)
  | _ => 1
  end.

Definition leaves_of (l : list Tag) : list Tag := concat (rev (leaves <$> l)).

Lemma leaves_of_snoc l c : leaves_of (l ++ [c]) = leaves c ++ leaves_of l.
Proof. unfold leaves_of. by rewrite fmap_app, rev_app_distr. Qed.

(** A chain of saved parents, the leaves still to release after it, and the
    steps it takes. *)
Inductive link : Tag → list Tag → nat → Prop :=
| link_end : link End [] 0
| link_list rest p lp n :
    link p lp n → link (List_ (rest ++ [p])) (leaves_of rest ++ lp) (2 * sum_list_with nodes rest + 1 + n)
| link_compound rest nm p lp n :
    link p lp n → link (Compound (rest ++ [(nm, p)])) (leaves_of rest.*2 ++ lp)
      (2 * sum_list_with nodes rest.*2 + 1 + n).

(** What a state has released and will release, and its step budget. *)
Inductive drop_inv : DropState → list Tag → nat → Prop :=
| inv_descend c p dropped lp n :
    link p lp n → drop_inv (Descend c p dropped) (dropped ++ leaves c ++ lp) (2 * nodes c + n)
| inv_ascend p dropped lp n : link p lp n → drop_inv (Ascend p dropped) (dropped ++ lp) (n + 1)
| inv_released dropped : drop_inv (Released dropped) dropped 0.

Lemma sum_snoc {A} (f : A → nat) l c : sum_list_with f (l ++ [c]) = (sum_list_with f l + f c)%nat.
Proof. rewrite sum_list_with_app. cbn. lia. Qed.

Lemma snoc_cases {A} (l : list A) : l = [] ∨ ∃ init c, l = init ++ [c].
Proof. destruct l as [|x l] using rev_ind; [by left|right; eauto]. Qed.

Lemma leaves_list l c : leaves (List_ (l ++ [c])) = leaves c ++ leaves_of l.
Proof. rewrite <- leaves_of_snoc. by destruct l. Qed.
Lemma leaves_compound l e : leaves (Compound (l ++ [e])) = leaves (value e) ++ leaves_of l.*2.
Proof.
  assert (Hc : ∀ k : list (NbtString * Tag), k ≠ [] → leaves (Compound k) = leaves_of k.*2).
  { intros [|x k]; [done|]. intros _. unfold leaves_of. by rewrite <- list_fmap_compose. }
  rewrite Hc by (by destruct l). rewrite fmap_app. cbn [fmap list_fmap]. by rewrite leaves_of_snoc.
Qed.
Lemma nodes_compound l : nodes (Compound l) = S (sum_list_with nodes l.*2).
Proof. cbn. f_equal. induction l as [|e l IH]; [done|]. cbn. by rewrite IH. Qed.

Lemma last_snoc' {A} (l : list A) x : last (l ++ [x]) = Some x.
Proof. apply last_snoc. Qed.

Lemma drop_step_inv s all n :
  drop_inv s all n → (∃ d, s = Released d) ∨
  ∃ s' n', drop_step s = Some s' ∧ drop_inv s' all n' ∧ (n' < n)%nat.
Proof.
  destruct 1 as [c p dropped lp n Hl|p dropped lp n Hl|dropped]; [right|right|by left; exists dropped].
  - assert (Hleaf : leaves c = [c] → drop_step (Descend c p dropped) = Some (Ascend p (dropped ++ [c])) → nodes c = 1%nat →
      ∃ s' n', drop_step (Descend c p dropped) = Some s' ∧ drop_inv s' (dropped ++ leaves c ++ lp) n' ∧ (n' < 2 * nodes c + n)%nat).
    { intros Hc Hs Hn. eexists _, (n + 1)%nat. split; [exact Hs|]. rewrite Hc. split; [|lia].
      rewrite (assoc_L (++)). by constructor. }
    destruct c as [ | | | | | | | | |l|l| | ]; try (by apply Hleaf).
    + destruct (snoc_cases l) as [->|(init&x&->)]; [by apply Hleaf|]. clear Hleaf.
      cbn [drop_step]. rewrite last_snoc', removelast_last. eexists _, _. split; [done|].
      rewrite leaves_list, <- (assoc_L (++)). split; [apply inv_descend, link_list, Hl|].
      cbn [nodes]. rewrite sum_snoc. lia.
    + destruct (snoc_cases l) as [->|(init&x&->)]; [by apply Hleaf|]. clear Hleaf.
      cbn [drop_step]. rewrite last_snoc', removelast_last. eexists _, _. split; [done|].
      rewrite leaves_compound, <- (assoc_L (++)). split; [apply inv_descend, link_compound, Hl|].
      rewrite nodes_compound, fmap_app, sum_list_with_app. unfold value. cbn. lia.
  - destruct Hl as [|rest p lp n Hl|rest nm p lp n Hl].
    + cbn. eexists _, _. rewrite app_nil_r. split; [done|]. split; [constructor|lia].
    + cbn [drop_step]. rewrite last_snoc', removelast_last. cbn.
      destruct (snoc_cases rest) as [->|(init&x&->)].
      * cbn. eexists _, _. split; [done|]. split; [by constructor|cbn; lia].
      * rewrite last_snoc', removelast_last. eexists _, _. split; [done|].
        rewrite leaves_of_snoc, <- (assoc_L (++)). split; [apply inv_descend, link_list, Hl|].
        rewrite sum_snoc. lia.
    + cbn [drop_step]. rewrite last_snoc', removelast_last. cbn.
      destruct (snoc_cases rest) as [->|(init&x&->)].
      * cbn. eexists _, _. split; [done|]. split; [by constructor|cbn; lia].
      * rewrite last_snoc', removelast_last. eexists _, _. split; [done|].
        rewrite fmap_app. cbn [fmap list_fmap]. rewrite leaves_of_snoc, <- (assoc_L (++)).
        split; [apply inv_descend, link_compound, Hl|]. rewrite sum_snoc. unfold value. lia.
Qed.

Lemma drop_run_spec fuel s all n : drop_inv s all n → (n ≤ fuel)%nat → drop_run fuel s = Ok all.
Proof.
  revert s n. induction fuel as [|fuel IH]; intros s n Hi Hn.
  - destruct (drop_step_inv s all n Hi) as [[d ->]|(s'&n'&_&_&?)]; [|lia]. by inversion Hi.
  - destruct (drop_step_inv s all n Hi) as [[d ->]|(s'&n'&Hs&Hi'&?)]; [by inversion Hi|].
    destruct s; try (by inversion Hi); cbn [drop_run]; rewrite Hs; apply (IH s' n'); done || lia.
Qed.

(** ** Properties *)

(** A compound is a map: on entries sorted by key (which every operation
    keeps) lookup, insertion, replacement through [get_mut] and removal act as
    on the map from keys to tags, returning the old value; insertion alone can
    fail, only for lack of memory and only for a new key; nothing panics. *)
Theorem compound_is_map `{Allocator} size l k v :
  sorted_entries l →
  compound_get l k = Ok (to_map l !! k) ∧
  match compound_insert size l k v with
  | Ok (old, l') => old = to_map l !! k ∧ sorted_entries l' ∧ to_map l' = <[k := v]> (to_map l)
  | Err e => e = AllocationFailed ∧ to_map l !! k = None
  | Panic | NoFuel => False
  end ∧
  match compound_get_mut l k v with
  | Ok (Some l') => is_Some (to_map l !! k) ∧ sorted_entries l' ∧ to_map l' = <[k := v]> (to_map l)
  | Ok None => to_map l !! k = None
  | _ => False
  end ∧
  match compound_remove l k with
  | Ok (old, l') => old = to_map l !! k ∧ sorted_entries l' ∧ to_map l' = delete k (to_map l)
  | _ => False
  end.
Proof.
  intros Hs. unfold compound_get, compound_insert, compound_get_mut, compound_remove.
  pose proof (find_key_spec l k Hs) as Hf. destruct (find_key l k) as [i|i].
  - destruct Hf as (e&Hi&<-&Hm). rewrite Hi. mstep. rewrite Hm. split_and!; try done.
    + by apply (sorted_replace name l i e).
    + by apply to_map_replace.
    + by apply (sorted_replace name l i e).
    + by apply to_map_replace.
    + by apply sorted_delete.
    + by apply to_map_delete.
  - destruct Hf as (Hi&Hm&Hlo&Hhi). rewrite Hm. split; [done|]. split; [|split; [done|]].
    + destruct (reserve_exact _ _); mstep; [|done]. destruct (Nat.leb_spec i (length l)); [|lia]. mstep.
      assert (Hs' : sorted_entries (take i l ++ (k, v) :: drop i l)) by (by apply sorted_insert).
      split_and!; [done|done|by apply to_map_insert].
    + split_and!; [done|done|]. by rewrite delete_id.
Qed.

(** [from_entries] sorts any entries into a compound in which each key has
    the value of its last occurrence, and no other key appears. *)
Theorem from_entries_keeps_last es :
  sorted_entries (from_entries es) ∧
  ∀ k v, to_map (from_entries es) !! k = Some v ↔
    ∃ i, es !! i = Some (k, v) ∧ ∀ j w, es !! j = Some (k, w) → (j ≤ i)%nat.
Proof.
  destruct (from_entries_spec es) as [Hs Hm]. split; [done|]. intros k v. rewrite Hm.
  assert (Hin : ∀ s w, (k, s, w) ∈ number es ↔ es !! s = Some (k, w)).
  { intros s w. unfold number. rewrite list_elem_of_lookup. split.
    - intros [i Hi]. rewrite list_lookup_imap in Hi. destruct (es !! i) as [[a b]|] eqn:E; [|done]. cbn in Hi.
      by injection Hi as -> -> ->.
    - intros Hs'. exists s. apply list_lookup_imap_Some. by exists (k, w). }
  unfold newest. setoid_rewrite Hin. done.
Qed.

(** [drop_iterative] releases every leaf of any tree exactly once, last
    child first, in at most two steps per node, without recursion and without
    reaching its unreachable branch. *)
Theorem drop_iterative_complete t fuel :
  (2 * nodes t ≤ fuel)%nat → drop_iterative fuel t = Ok (leaves t).
Proof.
  intros Hf. unfold drop_iterative. apply (drop_run_spec fuel _ _ (2 * nodes t + 0)); [|lia].
  rewrite <- (app_nil_r (leaves t)). apply (inv_descend t End [] [] 0). constructor.
Qed.

(** ** The properties at concrete trees *)

Lemma compound_is_map_witness :
  compound_insert 48 [([97], Int 1); ([99], Int 3)] [98] (Byte 2)
    = Ok (None, [([97], Int 1); ([98], Byte 2); ([99], Int 3)]) ∧
  to_map [([97], Int 1); ([98], Byte 2); ([99], Int 3)] = <[[98] := Byte 2]> (to_map [([97], Int 1); ([99], Int 3)]).
Proof.
  assert (Hs : sorted_entries [([97], Int 1); ([99], Int 3)]) by (repeat constructor).
  destruct (compound_is_map 48 _ [98] (Byte 2) Hs) as (_&Hi&_). split; [reflexivity|]. apply Hi.
Defined.

Lemma drop_iterative_complete_witness :
  drop_iterative 12 (List_ [Byte 1; Compound [([97], Byte 2); ([98], List_ [])]; Byte 3])
    = Ok [Byte 3; List_ []; Byte 2; Byte 1].
Proof. apply drop_iterative_complete. cbn. lia. Defined.
