(* ===== verification/NbtNumeric.v ===== *)
(** * Numeric tags as integers (src/nbt/numeric.rs)

    The integer conversions of a numeric tag, floats by their bits: [floor] and
    the saturating [as] casts are computed on the exact dyadic value, so no
    rounding is involved.  The conversions to floats are not modelled. *)

From S2P Require Import Prelude.
From S2P Require Import Nbt.
Local Open Scope Z_scope.

(** A binary format: bits of the exponent and of the mantissa. *)
Record Format := { exp_bits : Z; mant_bits : Z }.
Definition f32_format : Format := {| exp_bits := 8; mant_bits := 23 |}.
Definition f64_format : Format := {| exp_bits := 11; mant_bits := 52 |}.

Section format.
Context (f : Format).

Definition negative (bits : Z) : bool := Z.testbit bits (exp_bits f + mant_bits f).
Definition exponent (bits : Z) : Z := Z.land (Z.shiftr bits (mant_bits f)) (2 ^ exp_bits f - 1).
Definition mantissa (bits : Z) : Z := Z.land bits (2 ^ mant_bits f - 1).

(** A finite value is [significand * 2 ^ scale]. *)
Definition significand (bits : Z) : Z :=
  let m := if exponent bits =? 0 then mantissa bits else mantissa bits + 2 ^ mant_bits f in
  if negative bits then - m else m.
Definition scale (bits : Z) : Z := Z.max 1 (exponent bits) - (2 ^ (exp_bits f - 1) - 1) - mant_bits f.
Definition is_finite (bits : Z) : bool := negb (exponent bits =? 2 ^ exp_bits f - 1).

(** [floor], and the truncation of [as]. *)
Definition floor_of (bits : Z) : Z := Z.shiftl (significand bits) (scale bits).
Definition trunc_of (bits : Z) : Z :=
  if negative bits then - Z.shiftl (- significand bits) (scale bits) else Z.shiftl (significand bits) (scale bits).

(** [as i32], [as i64] of a float: saturating, and zero for NaN. *)
Definition saturate (w : Z) (whole : Z → Z) (bits : Z) : Z :=
  if is_finite bits then Z.max (- 2 ^ (w - 1)) (Z.min (2 ^ (w - 1) - 1) (whole bits))
  else if negb (mantissa bits =? 0) then 0
  else if negative bits then - 2 ^ (w - 1) else 2 ^ (w - 1) - 1.
End format.

Definition as_int (t : Tag) : option Z :=
  match t with
  | Byte v | Short v | Int v => Some v
  | Long v => Some (i_wrap 32 v)
  | Float bits => Some (saturate f32_format 32 (floor_of f32_format) bits)
  | Double bits => Some (saturate f64_format 32 (floor_of f64_format) bits)
  | _ => None
  end.
Definition as_byte (t : Tag) : option Z := i_wrap 8 <$> as_int t.
Definition as_short (t : Tag) : option Z := i_wrap 16 <$> as_int t.
Definition as_long (t : Tag) : option Z :=
  match t with
  | Byte v | Short v | Int v | Long v => Some v
  | Float bits => Some (saturate f32_format 64 (trunc_of f32_format) bits)
  | Double bits => Some (saturate f64_format 64 (floor_of f64_format) bits)
  | _ => None
  end.

(** ** Ranges *)

Lemma saturate_range f w whole bits : 0 < w → in_i w (saturate f w whole bits).
Proof.
  intros Hw. pose proof (pow2_pos (w - 1) ltac:(lia)). unfold saturate, in_i.
  destruct (is_finite f bits); [lia|]. destruct (negb _); [lia|]. destruct (negative f bits); lia.
Qed.

(** 1.5, -1.5, a subnormal, 2^40 and infinity. *)
Example int_of_double : as_int (Double 4609434218613702656) = Some 1.
Proof. vm_compute. reflexivity. Qed.
Example int_of_negative : as_int (Double 13832806255468478464) = Some (-2).
Proof. vm_compute. reflexivity. Qed.
Example long_of_negative_float : as_long (Float 3217031168) = Some (-1).
Proof. vm_compute. reflexivity. Qed.
Example int_of_subnormal : as_int (Double (2 ^ 63 + 1)) = Some (-1).
Proof. vm_compute. reflexivity. Qed.
Example int_of_large : as_int (Double 4787674488178868224) = Some 2147483647.
Proof. vm_compute. reflexivity. Qed.
Example long_of_infinity : as_long (Float 2139095040) = Some (2 ^ 63 - 1) ∧ as_int (Float 2143289344) = Some 0.
Proof. vm_compute. done. Qed.
