(* ===== verification/NbtPredicate.v ===== *)
(** * NBT comparison: definitions (src/nbt/predicate.rs)

    Predicates over trees: a compound expects a subset of the entries, a list
    expects its elements somewhere (or in order, in the strict mode).  The code
    walks both trees with a stack of frames and charges its work, the depth, the
    bytes of the stack and its allocations to budgets.  References to tags carry
    their place in memory, because the code compares addresses first. *)

From S2P Require Import Prelude.
From S2P Require Import Nbt.
Local Open Scope Z_scope.

Record CompareLimits := { compare_depth : Z; work_units : Z; stack_bytes : Z }.

Inductive CompareError := WorkLimit | CompareDepthLimit | StackLimit | CompareAllocationLimit | CompareAllocationFailed.

Record CompareBudget := { budget_limits : CompareLimits; work_remaining : Z }.
Definition compare_budget_new (limits : CompareLimits) : CompareBudget := {| budget_limits := limits; work_remaining := work_units limits |}.

Inductive Mode := PartialLists | StrictLists | Exact.
#[export] Instance mode_eq_dec : EqDecision Mode.
Proof. solve_decision. Defined.

(** [&Tag]: where the tag is (a root and a path in it) and what it is. *)
Definition Place : Type := nat * list nat.
Record Ref := { place : Place; tag : Tag }.
Definition child_ref (p : Place) (index : nat) (t : Tag) : Ref := {| place := (p.1, p.2 ++ [index]); tag := t |}.

Inductive Frame :=
| FCompound (expected_at : Place) (expected : list CompoundEntry) (actual_at : Place) (actual : list CompoundEntry) (next : nat) (mode : Mode)
| FSequence (expected_at : Place) (expected : list Tag) (actual_at : Place) (actual : list Tag) (next : nat)
| FPartialList (expected_at : Place) (expected : list Tag) (actual_at : Place) (actual : list Tag) (expected_index actual_index : nat).

(** ** Charging

    What a call keeps on an error: the work and the allocations left. *)
Record Meter := { work : Z; allocation : Z }.
Definition metered (A : Type) : Type := Meter → outcome False ((A + CompareError) * Meter).
Definition m_ret {A} (a : A) : metered A := λ m, Ok (inl a, m).
Definition m_fail {A} (e : CompareError) : metered A := λ m, Ok (inr e, m).
Definition m_bind {A B} (c : metered A) (f : A → metered B) : metered B := λ m,
  '(r, m) ← c m;
  match r with inl a => f a m | inr e => Ok (inr e, m) end.
Definition m_get {A} (o : option A) : metered A := λ m, a ← unwrap o; Ok (inl a, m).

Declare Scope meter_scope.
Delimit Scope meter_scope with meter.
Notation "'let!' a := c 'in' k" := (m_bind c (λ a, k)) (at level 200, a name, c at level 100, k at level 200) : meter_scope.
Local Open Scope meter_scope.

(** An exhausted counter stays exhausted. *)
Definition charge_work (units : Z) : metered () := λ m,
  match checked_sub (work m) units with
  | Some remaining => Ok (inl tt, {| work := remaining; allocation := allocation m |})
  | None => Ok (inr WorkLimit, {| work := 0; allocation := allocation m |})
  end.

(** ** Strings, keys and primitives *)

Fixpoint zip_order (ls rs : list Z) : metered (option comparison) :=
  match ls, rs with
  | x :: ls, y :: rs =>
      let! _ := charge_work 1 in
      if negb (x =? y) then m_ret (Some (x ?= y)) else zip_order ls rs
  | _, _ => m_ret None
  end.
Definition string_order (ls rs : list Z) : metered comparison :=
  let! o := zip_order ls rs in
  m_ret (match o with Some c => c | None => Nat.compare (length ls) (length rs) end).

(** The binary search of [child], one halving per step of [fuel]. *)
Fixpoint child_loop (fuel : nat) (entries : list CompoundEntry) (at_ : Place) (key : NbtString) (low high : nat) : metered (option Ref) :=
  if (high <=? low)%nat then m_ret None
  else
    match fuel with
    | O => λ _, NoFuel
    | S fuel =>
        let! _ := charge_work 1 in
        let middle := (low + (high - low) / 2)%nat in
        let! e := m_get (entries !! middle) in
        let! order := string_order key (name e) in
        match order with
        | Lt => child_loop fuel entries at_ key low middle
        | Gt => child_loop fuel entries at_ key (middle + 1) high
        | Eq => m_ret (Some (child_ref at_ middle (value e)))
        end
    end.
Definition child (entries : list CompoundEntry) (at_ : Place) (key : NbtString) : metered (option Ref) :=
  child_loop (length entries) entries at_ key 0 (length entries).

Fixpoint zip_equal (ls rs : list Z) : metered bool :=
  match ls, rs with
  | x :: ls, y :: rs =>
      let! _ := charge_work 1 in
      if negb (x =? y) then m_ret false else zip_equal ls rs
  | _, _ => m_ret true
  end.
Definition array_equal (ls rs : list Z) : metered bool :=
  if negb (length ls =? length rs)%nat then m_ret false else zip_equal ls rs.

Definition primitive_equal (expected actual : Tag) : metered bool :=
  match expected, actual with
  | End, End => m_ret true
  | Byte l, Byte r | Short l, Short r | Int l, Int r | Long l, Long r => m_ret (l =? r)
  | Float l, Float r => m_ret ((l =? r) || (f32_is_nan l && f32_is_nan r))
  | Double l, Double r => m_ret ((l =? r) || (f64_is_nan l && f64_is_nan r))
  | String_ l, String_ r => let! o := string_order l r in m_ret (match o with Eq => true | _ => false end)
  | ByteArray l, ByteArray r | IntArray l, IntArray r | LongArray l, LongArray r => array_equal l r
  | _, _ => m_ret false
  end.

(** ** The walk *)

(** [size_of::<Frame>()] *)
Class FrameLayout := { frame_size : Z; frame_size_pos : 0 < frame_size }.

(** [current] is what to compare next, [matched] the last result. *)
Record Walk := { current : option (option Ref * option Ref * Mode); frames : list Frame; capacity : Z; matched : bool }.

Section walk.
Context `{Allocator, FrameLayout} (limits : CompareLimits).

(** The frames with the new one, and the capacity of the stack. *)
Definition push (w : Walk) (f : Frame) : metered (list Frame * Z) :=
  let n := zlen (frames w) in
  if compare_depth limits <=? n then m_fail CompareDepthLimit
  else
    let allowed := stack_bytes limits / frame_size in
    if allowed <=? n then m_fail StackLimit
    else if negb (n =? capacity w) then m_ret (f :: frames w, capacity w)
    else
      let grown := Z.min (Z.max (Z.min (capacity w * 2) usize_max) 4) allowed in
      if grown <=? n then m_fail StackLimit
      else λ m,
        match checked_sub (allocation m) (grown * frame_size) with
        | None => Ok (inr CompareAllocationLimit, m)
        | Some rest =>
            let m := {| work := work m; allocation := rest |} in
            match reserve_exact frame_size grown with
            | None => Ok (inr CompareAllocationFailed, m)
            | Some c => Ok (inl (f :: frames w, c), m)
            end
        end.

(** [push(..)?; current = Some(next)] *)
Definition descend (w : Walk) (f : Frame) (next : option Ref * option Ref * Mode) : metered Walk :=
  let! pushed := push w f in
  m_ret {| current := Some next; frames := pushed.1; capacity := pushed.2; matched := matched w |}.

(** A pair to compare: the walk to continue with, or the result. *)
Definition visit (w : Walk) (expected actual : option Ref) (mode : Mode) : metered (Walk + bool) :=
  let! _ := charge_work 1 in
  match expected, actual with
  | None, _ => m_ret (inr true)
  | Some _, None => m_ret (inr false)
  | Some e, Some a =>
      if bool_decide (place e = place a) then m_ret (inr true)
      else
        match tag e, tag a with
        | Compound es, Compound as_ =>
            if (length as_ <? length es)%nat || (bool_decide (mode = Exact) && negb (length es =? length as_)%nat) then m_ret (inr false)
            else match es with
            | [] => m_ret (inr true)
            | first :: _ =>
                let! v := child as_ (place a) (name first) in
                let! w := descend w (FCompound (place e) es (place a) as_ 1 mode) (Some (child_ref (place e) 0 (value first)), v, mode) in
                m_ret (inl w)
            end
        | List_ es, List_ as_ =>
            match es with
            | [] => m_ret (inr (length as_ =? 0)%nat)
            | e0 :: _ =>
                if (length as_ <? length es)%nat || (negb (bool_decide (mode = PartialLists)) && negb (length es =? length as_)%nat) then m_ret (inr false)
                else
                  let! a0 := m_get (as_ !! 0%nat) in
                  let first m := (Some (child_ref (place e) 0 e0), Some (child_ref (place a) 0 a0), m) in
                  let! w := (if bool_decide (mode = PartialLists)
                             then descend w (FPartialList (place e) es (place a) as_ 0 0) (first mode)
                             else descend w (FSequence (place e) es (place a) as_ 1) (first Exact)) in
                  m_ret (inl w)
            end
        | e, a => let! b := primitive_equal e a in m_ret (inr b)
        end
  end.

(** A result for the frame on top: the walk to continue with, or the answer. *)
Definition resume (w : Walk) : metered (Walk + bool) :=
  match frames w with
  | [] => m_ret (inr (matched w))
  | f :: fs =>
      let w := {| current := None; frames := fs; capacity := capacity w; matched := matched w |} in
      match f with
      | FCompound ep es ap as_ next mode =>
          if matched w && (next <? length es)%nat then
            let! e := m_get (es !! next) in
            let! v := child as_ ap (name e) in
            let! w := descend w (FCompound ep es ap as_ (next + 1) mode) (Some (child_ref ep next (value e)), v, mode) in
            m_ret (inl w)
          else m_ret (inl w)
      | FSequence ep es ap as_ next =>
          if matched w && (next <? length es)%nat then
            let! e := m_get (es !! next) in
            let! a := m_get (as_ !! next) in
            let! w := descend w (FSequence ep es ap as_ (next + 1)) (Some (child_ref ep next e), Some (child_ref ap next a), Exact) in
            m_ret (inl w)
          else m_ret (inl w)
      | FPartialList ep es ap as_ i j =>
          let '(i, j) := if matched w then ((i + 1)%nat, 0%nat) else (i, (j + 1)%nat) in
          if (i <? length es)%nat && (j <? length as_)%nat then
            let! e := m_get (es !! i) in
            let! a := m_get (as_ !! j) in
            let! w := descend w (FPartialList ep es ap as_ i j) (Some (child_ref ep i e), Some (child_ref ap j a), PartialLists) in
            m_ret (inl w)
          else m_ret (inl w)
      end
  end.

(** One turn of the loop. *)
Definition turn (w : Walk) : metered (Walk + bool) :=
  match current w with
  | None => resume w
  | Some (expected, actual, mode) =>
      let! r := visit w expected actual mode in
      match r with
      | inl w => m_ret (inl w)
      | inr b => resume {| current := None; frames := frames w; capacity := capacity w; matched := b |}
      end
  end.

Fixpoint walk (fuel : nat) (w : Walk) : metered bool :=
  match fuel with
  | O => λ _, NoFuel
  | S fuel => let! r := turn w in match r with inl w => walk fuel w | inr b => m_ret b end
  end.
Definition walk_start (expected actual : option Ref) (mode : Mode) : Walk :=
  {| current := Some (expected, actual, mode); frames := []; capacity := 0; matched := true |}.
End walk.

(** ** The calls *)

Section calls.
Context `{Allocator, FrameLayout}.

(** Every turn is paid for: two per unit of work are enough. *)
Definition run (b : CompareBudget) (expected actual : option Ref) (mode : Mode) (allocation_remaining : Z)
    : outcome False ((bool + CompareError) * CompareBudget * Z) :=
  let meter := {| work := work_remaining b; allocation := allocation_remaining |} in
  '(r, m) ← walk (budget_limits b) (Z.to_nat (2 * work_remaining b + 1)) (walk_start expected actual mode) meter;
  Ok (r, {| budget_limits := budget_limits b; work_remaining := work m |}, allocation m).

Definition compare_accounted (b : CompareBudget) (expected actual : option Ref) (partial_lists : bool) (allocation_remaining : Z) :=
  run b expected actual (if partial_lists then PartialLists else StrictLists) allocation_remaining.
Definition compare (b : CompareBudget) (expected actual : option Ref) (partial_lists : bool) :=
  compare_accounted b expected actual partial_lists usize_max.
Definition equal_accounted (b : CompareBudget) (expected actual : Ref) (allocation_remaining : Z) :=
  run b (Some expected) (Some actual) Exact allocation_remaining.
Definition equal (b : CompareBudget) (expected actual : Ref) := equal_accounted b expected actual usize_max.
Definition budget_charge (b : CompareBudget) (units : Z) : (() + CompareError) * CompareBudget :=
  match checked_sub (work_remaining b) units with
  | Some remaining => (inl tt, {| budget_limits := budget_limits b; work_remaining := remaining |})
  | None => (inr WorkLimit, {| budget_limits := budget_limits b; work_remaining := 0 |})
  end.
End calls.

(** ** What a comparison means *)

Definition find_value (entries : list CompoundEntry) (key : NbtString) : option Tag :=
  value <$> List.find (λ e, bool_decide (name e = key)) entries.

Definition primitive_matches (e a : Tag) : bool :=
  match e, a with Compound _, Compound _ | List_ _, List_ _ => false | _, _ => tag_eqb e a end.

(** The expected tree [e] matches [a]. *)
Fixpoint tag_matches (mode : Mode) (e a : Tag) {struct e} : bool :=
  match e, a with
  | Compound es, Compound as_ =>
      (length es <=? length as_)%nat && (negb (bool_decide (mode = Exact)) || (length es =? length as_)%nat) &&
      (fix all es := match es with
        | [] => true
        | (n, x) :: es => match find_value as_ n with Some v => tag_matches mode x v | None => false end && all es
        end) es
  | List_ es, List_ as_ =>
      match es with
      | [] => (length as_ =? 0)%nat
      | _ =>
          if bool_decide (mode = PartialLists) then
            (length es <=? length as_)%nat &&
            (fix all es := match es with [] => true | x :: es => existsb (tag_matches PartialLists x) as_ && all es end) es
          else
            (length es =? length as_)%nat &&
            (fix all es as_ := match es, as_ with x :: es, y :: as_ => tag_matches Exact x y && all es as_ | _, _ => true end) es as_
      end
  | _, _ => primitive_matches e a
  end.
