(* ===== verification/NbtWrite.v ===== *)
(** * Writing and sizing NBT (src/nbt/write.rs, src/nbt/size.rs)

    The writer appends to a vector and keeps it on errors, so its actions
    return their result together with the vector; [write_network] truncates on
    failure as the code does.  The sizer is the iterative traversal with at
    most 512 frames, as a step function run with fuel. *)

From S2P Require Import Prelude.
From S2P Require Import Nbt.
Local Open Scope Z_scope.

(** ** Shared helpers of write.rs *)

Definition unit_len (unit : Z) : Z :=
  if (1 <=? unit) && (unit <=? 127) then 1 else if (0 <=? unit) && (unit <=? 2047) then 2 else 3.

Fixpoint utf8_len_loop (length : Z) (s : NbtString) : outcome Error Z :=
  match s with
  | [] => Ok length
  | unit :: rest =>
      length ← ok_or (checked_add length (unit_len unit)) StringTooLong;
      if 65535 <? length then Err StringTooLong else utf8_len_loop length rest
  end.
Definition modified_utf8_len (s : NbtString) : outcome Error Z := utf8_len_loop 0 s.

Fixpoint element_type_loop (raw_type : Z) (values : list Tag) : outcome Error Z :=
  match values with
  | [] => Ok raw_type
  | v :: rest =>
      if is_end v then Err UnexpectedEnd
      else element_type_loop
        (if raw_type =? 0 then tag_id v else if negb (raw_type =? tag_id v) then 10 else raw_type) rest
  end.
Definition list_element_type (values : list Tag) : outcome Error Z := element_type_loop 0 values.

(** [!matches!(value, Tag::Compound(compound) if !compound.is_wrapper())] *)
Definition wrapped_value (v : Tag) : bool :=
  match v with Compound entries => is_wrapper entries | _ => true end.

(** [i32::try_from(count)] *)
Definition i32_length (count : Z) : outcome Error () :=
  if count <=? 2 ^ 31 - 1 then Ok tt else Err LengthOverflow.

Definition container (limits : Limits) (depth : nat) : outcome Error nat :=
  if (max_depth limits <=? depth)%nat then Err DepthLimit else Ok (S depth).

Definition unit_bytes (unit : Z) : list Z :=
  if (1 <=? unit) && (unit <=? 127) then [u_wrap 8 unit]
  else if (0 <=? unit) && (unit <=? 2047) then
    [Z.lor 0xc0 (u_wrap 8 (Z.shiftr unit 6)); Z.lor 0x80 (u_wrap 8 (Z.land unit 0x3f))]
  else
    [Z.lor 0xe0 (u_wrap 8 (Z.shiftr unit 12)); Z.lor 0x80 (u_wrap 8 (Z.land (Z.shiftr unit 6) 0x3f));
     Z.lor 0x80 (u_wrap 8 (Z.land unit 0x3f))].

Definition f32_to_write (bits : Z) : Z := if f32_is_nan bits then 0x7fc00000 else bits.
Definition f64_to_write (bits : Z) : Z := if f64_is_nan bits then 0x7ff8000000000000 else bits.

(** ** The writer *)

Record Writer := { output : list Z; wcap : Z }.
Definition WM (A : Type) : Type := Writer → outcome Error A * Writer.

Definition wret {A} (a : A) : WM A := λ w, (Ok a, w).
(** A check that does not touch the output. *)
Definition wlift {A} (o : outcome Error A) : WM A := λ w, (o, w).
Definition wbind {A B} (m : WM A) (f : A → WM B) : WM B := λ w,
  match m w with
  | (Ok a, w') => f a w'
  | (Err e, w') => (Err e, w')
  | (Panic, w') => (Panic, w')
  | (NoFuel, w') => (NoFuel, w')
  end.
Declare Scope wm_scope.
Notation "x <- m ; k" := (wbind m (λ x, k)) (at level 100, m at next level, right associativity) : wm_scope.
Notation "m ;; k" := (wbind m (λ _, k)) (at level 100, k at level 200, right associativity) : wm_scope.
Local Open Scope wm_scope.

(** [for a in l { f(a)? }] *)
Definition for_each {A} (f : A → WM ()) : list A → WM () :=
  fix go l := match l with [] => wret tt | a :: rest => f a ;; go rest end.

Definition push (bytes : list Z) : WM () := λ w,
  (Ok tt, {| output := output w ++ bytes; wcap := wcap w |}).

Section writer.
Context `{Allocator} (limits : Limits) (start : nat).

(** [try_reserve] is a no-op when the spare capacity is enough. *)
Definition reserve (bytes : Z) : WM () := λ w,
  match checked_add (zlen (output w) - Z.of_nat start) bytes with
  | None => (Err OutputLimit, w)
  | Some length =>
      if output_bytes limits <? length then (Err OutputLimit, w)
      else if zlen (output w) + bytes <=? wcap w then (Ok tt, w)
      else match reserve_exact 1 (zlen (output w) + bytes) with
           | Some c => (Ok tt, {| output := output w; wcap := c |})
           | None => (Err AllocationFailed, w)
           end
  end.

Definition write_bytes (bytes : list Z) : WM () := reserve (zlen bytes) ;; push bytes.
Definition write_byte (b : Z) : WM () := write_bytes [b].
Definition write_length (count : Z) : WM () :=
  wlift (i32_length count) ;; write_bytes (be_bytes 4 count).

Definition write_string (s : NbtString) : WM () :=
  length <- wlift (modified_utf8_len s) ;
  reserve (length + 2) ;;
  push (be_bytes 2 length) ;;
  push (concat (unit_bytes <$> s)).

Definition write_array (width : nat) (values : list Z) : WM () :=
  write_length (zlen values) ;;
  bytes <- wlift (ok_or (checked_mul (zlen values) (Z.of_nat width)) LengthOverflow) ;
  reserve bytes ;;
  push (concat (be_bytes width <$> values)).

Fixpoint payload (tag : Tag) (depth : nat) {struct tag} : WM () :=
  match tag with
  | End => wret tt
  | Byte v => write_byte (u_wrap 8 v)
  | Short v => write_bytes (be_bytes 2 v)
  | Int v => write_bytes (be_bytes 4 v)
  | Long v => write_bytes (be_bytes 8 v)
  | Float b => write_bytes (be_bytes 4 (f32_to_write b))
  | Double b => write_bytes (be_bytes 8 (f64_to_write b))
  | ByteArray values =>
      write_length (zlen values) ;;
      reserve (zlen values) ;;
      push (u_wrap 8 <$> values)
  | String_ s => write_string s
  | List_ values =>
      child_depth <- wlift (container limits depth) ;
      raw_type <- wlift (list_element_type values) ;
      write_byte raw_type ;;
      write_length (zlen values) ;;
      for_each (λ v,
        if (raw_type =? 10) && wrapped_value v then
          wrapped_depth <- wlift (container limits child_depth) ;
          write_byte (tag_id v) ;;
          write_bytes [0; 0] ;;
          payload v wrapped_depth ;;
          write_byte 0
        else payload v child_depth) values
  | Compound entries =>
      child_depth <- wlift (container limits depth) ;
      for_each (λ e,
        wlift (if is_end (snd e) then Err UnexpectedEnd else Ok tt) ;;
        write_byte (tag_id (snd e)) ;;
        write_string (fst e) ;;
        payload (snd e) child_depth) entries ;;
      write_byte 0
  | IntArray values => write_array 4 values
  | LongArray values => write_array 8 values
  end.

(** The two entry points share the truncation of a failed attempt. *)
Definition finish (r : outcome Error () * Writer) : outcome Error () * Writer :=
  match r with
  | (Ok tt, w) => (Ok tt, w)
  | (e, w) => (e, {| output := take start (output w); wcap := wcap w |})
  end.
End writer.

Section entry.
Context `{Allocator}.

Definition write_network (tag : Tag) (w : Writer) (limits : Limits) : outcome Error () * Writer :=
  match limits_validate limits with
  | Ok _ =>
      let start := length (output w) in
      finish start ((write_byte limits start (tag_id tag) ;; payload limits start tag 0) w)
  | Err e => (Err e, w)
  | Panic => (Panic, w)
  | NoFuel => (NoFuel, w)
  end.

Record NamedTag := { root_name : NbtString; root_tag : Tag }.

Definition write_named (t : NamedTag) (w : Writer) (limits : Limits) : outcome Error () * Writer :=
  match limits_validate limits with
  | Ok _ =>
      let start := length (output w) in
      finish start
        ((wlift (if is_end (root_tag t) && negb (length (root_name t) =? 0)%nat then Err NamedEnd else Ok tt) ;;
          write_byte limits start (tag_id (root_tag t)) ;;
          (if is_end (root_tag t) then wret tt else write_string limits start (root_name t)) ;;
          payload limits start (root_tag t) 0) w)
  | Err e => (Err e, w)
  | Panic => (Panic, w)
  | NoFuel => (NoFuel, w)
  end.
End entry.

(** ** The sizer *)

Section size.
Context (limits : Limits).

Definition size_add (n bytes : Z) : outcome Error Z :=
  bytes ← ok_or (checked_add bytes n) OutputLimit;
  if output_bytes limits <? bytes then Err OutputLimit else Ok bytes.

Definition size_length (count bytes : Z) : outcome Error Z :=
  _ ← i32_length count; size_add 4 bytes.

Definition size_string (s : NbtString) (bytes : Z) : outcome Error Z :=
  length ← modified_utf8_len s;
  n ← ok_or (checked_add length 2) LengthOverflow;
  size_add n bytes.

Definition size_array (width : Z) (values : list Z) (bytes : Z) : outcome Error Z :=
  bytes ← size_length (zlen values) bytes;
  n ← ok_or (checked_mul (zlen values) width) LengthOverflow;
  size_add n bytes.

Inductive Frame :=
| FCompound (remaining : list CompoundEntry) (child_depth : nat)
| FList (remaining : list Tag) (child_depth : nat) (raw_type : Z) (close_wrapper : bool).

(** [Visit] has a current tag; [Unwind] is the inner [while]. *)
Inductive SizeState :=
| Visit (tag : Tag) (depth : nat) (frames : list Frame) (bytes : Z)
| Unwind (frames : list Frame) (bytes : Z)
| Sized (bytes : Z).

(** [frames[frame_count] = frame; frame_count += 1] on 512 slots. *)
Definition push_frame (f : Frame) (frames : list Frame) : outcome Error (list Frame) :=
  if (length frames <? 512)%nat then Ok (f :: frames) else Panic.

Definition visit (tag : Tag) (depth : nat) (frames : list Frame) (bytes : Z) : outcome Error (list Frame * Z) :=
  match tag with
  | End => Ok (frames, bytes)
  | Byte _ => bytes ← size_add 1 bytes; Ok (frames, bytes)
  | Short _ => bytes ← size_add 2 bytes; Ok (frames, bytes)
  | Int _ | Float _ => bytes ← size_add 4 bytes; Ok (frames, bytes)
  | Long _ | Double _ => bytes ← size_add 8 bytes; Ok (frames, bytes)
  | ByteArray values =>
      bytes ← size_length (zlen values) bytes; bytes ← size_add (zlen values) bytes; Ok (frames, bytes)
  | IntArray values => bytes ← size_array 4 values bytes; Ok (frames, bytes)
  | LongArray values => bytes ← size_array 8 values bytes; Ok (frames, bytes)
  | String_ s => bytes ← size_string s bytes; Ok (frames, bytes)
  | List_ values =>
      child_depth ← container limits depth;
      raw_type ← list_element_type values;
      bytes ← size_add 1 bytes;
      bytes ← size_length (zlen values) bytes;
      frames ← push_frame (FList values child_depth raw_type false) frames;
      Ok (frames, bytes)
  | Compound entries =>
      child_depth ← container limits depth;
      frames ← push_frame (FCompound entries child_depth) frames;
      Ok (frames, bytes)
  end.

Definition unwind (frames : list Frame) (bytes : Z) : outcome Error SizeState :=
  match frames with
  | [] => Ok (Sized bytes)
  | FCompound remaining child_depth :: below =>
      match remaining with
      | e :: tail =>
          if is_end (value e) then Err UnexpectedEnd
          else
            bytes ← size_add 1 bytes;
            bytes ← size_string (name e) bytes;
            Ok (Visit (value e) child_depth (FCompound tail child_depth :: below) bytes)
      | [] => bytes ← size_add 1 bytes; Ok (Unwind below bytes)
      end
  | FList remaining child_depth raw_type close_wrapper :: below =>
      bytes ← (if close_wrapper then size_add 1 bytes else Ok bytes);
      match remaining with
      | v :: tail =>
          if (raw_type =? 10) && wrapped_value v then
            wrapped_depth ← container limits child_depth;
            bytes ← size_add 1 bytes;
            bytes ← size_add 2 bytes;
            Ok (Visit v wrapped_depth (FList tail child_depth raw_type true :: below) bytes)
          else Ok (Visit v child_depth (FList tail child_depth raw_type false :: below) bytes)
      | [] => Ok (Unwind below bytes)
      end
  end.

Definition size_step (s : SizeState) : outcome Error SizeState :=
  match s with
  | Visit tag depth frames bytes => '(frames, bytes) ← visit tag depth frames bytes; Ok (Unwind frames bytes)
  | Unwind frames bytes => unwind frames bytes
  | Sized _ => Ok s
  end.

Fixpoint size_run (fuel : nat) (s : SizeState) : outcome Error Z :=
  match s, fuel with
  | Sized bytes, _ => Ok bytes
  | _, O => NoFuel
  | _, S fuel' => s' ← size_step s; size_run fuel' s'
  end.
End size.

Definition network_encoded_len (fuel : nat) (tag : Tag) (limits : Limits) : outcome Error Z :=
  _ ← limits_validate limits;
  bytes ← size_add limits 1 0;
  size_run limits fuel (Visit tag 0 [] bytes).

(** ** The encoding and its length as functions *)

Definition string_bytes (s : NbtString) : list Z := concat (unit_bytes <$> s).
Definition name_bytes (s : NbtString) : list Z := be_bytes 2 (zlen (string_bytes s)) ++ string_bytes s.
Definition raw_type_of (values : list Tag) : Z :=
  match list_element_type values with Ok r => r | _ => 0 end.

Fixpoint enc (t : Tag) : list Z :=
  match t with
  | End => []
  | Byte v => [u_wrap 8 v]
  | Short v => be_bytes 2 v
  | Int v => be_bytes 4 v
  | Long v => be_bytes 8 v
  | Float b => be_bytes 4 (f32_to_write b)
  | Double b => be_bytes 8 (f64_to_write b)
  | ByteArray values => be_bytes 4 (zlen values) ++ (u_wrap 8 <$> values)
  | String_ s => name_bytes s
  | List_ values =>
      raw_type_of values :: be_bytes 4 (zlen values) ++
      concat ((λ v, if (raw_type_of values =? 10) && wrapped_value v
                    then tag_id v :: 0 :: 0 :: enc v ++ [0] else enc v) <$> values)
  | Compound entries =>
      concat ((λ e, tag_id (snd e) :: name_bytes (fst e) ++ enc (snd e)) <$> entries) ++ [0]
  | IntArray values => be_bytes 4 (zlen values) ++ concat (be_bytes 4 <$> values)
  | LongArray values => be_bytes 4 (zlen values) ++ concat (be_bytes 8 <$> values)
  end.

Definition size_each {A} (f : A → Z → outcome Error Z) : list A → Z → outcome Error Z :=
  fix go l c := match l with [] => Ok c | a :: rest => c ← f a c; go rest c end.

Section spec.
Context (limits : Limits).

(** The recursive reading of both traversals: the byte count after the tag, or
    the first error. *)
Fixpoint size_spec (t : Tag) (depth : nat) (c : Z) {struct t} : outcome Error Z :=
  match t with
  | End => Ok c
  | Byte _ => size_add limits 1 c
  | Short _ => size_add limits 2 c
  | Int _ | Float _ => size_add limits 4 c
  | Long _ | Double _ => size_add limits 8 c
  | ByteArray values => c ← size_length limits (zlen values) c; size_add limits (zlen values) c
  | String_ s => size_string limits s c
  | List_ values =>
      child_depth ← container limits depth;
      raw_type ← list_element_type values;
      c ← size_add limits 1 c;
      c ← size_length limits (zlen values) c;
      size_each (λ v c,
        if (raw_type =? 10) && wrapped_value v then
          wrapped_depth ← container limits child_depth;
          c ← size_add limits 1 c;
          c ← size_add limits 2 c;
          c ← size_spec v wrapped_depth c;
          size_add limits 1 c
        else size_spec v child_depth c) values c
  | Compound entries =>
      child_depth ← container limits depth;
      c ← size_each (λ e c,
        if is_end (snd e) then Err UnexpectedEnd
        else
          c ← size_add limits 1 c;
          c ← size_string limits (fst e) c;
          size_spec (snd e) child_depth c) entries c;
      size_add limits 1 c
  | IntArray values => size_array limits 4 values c
  | LongArray values => size_array limits 8 values c
  end.
End spec.

(** ** Lengths *)

Lemma length_unit_bytes u : zlen (unit_bytes u) = unit_len u.
Proof. unfold unit_bytes, unit_len. by repeat case_match. Qed.

Lemma unit_len_pos u : 1 ≤ unit_len u ≤ 3.
Proof. unfold unit_len. repeat case_match; lia. Qed.

Lemma utf8_len_loop_spec s n :
  0 ≤ n ≤ 65535 →
  utf8_len_loop n s =
    if n + zlen (string_bytes s) <=? 65535 then Ok (n + zlen (string_bytes s)) else Err StringTooLong.
Proof.
  revert n. induction s as [|u s IH]; intros n Hn; cbn [utf8_len_loop].
  - unfold string_bytes, zlen. cbn. rewrite Z.add_0_r. by destruct (Z.leb_spec n 65535); [|lia].
  - pose proof (unit_len_pos u). pose proof (length_unit_bytes u) as Hu.
    unfold checked_add. destruct (Z.leb_spec (n + unit_len u) usize_max) as [_|Hx]; [|unfold usize_max in Hx; lia].
    mstep. assert (Hc : zlen (string_bytes (u :: s)) = unit_len u + zlen (string_bytes s)).
    { unfold string_bytes in *. cbn. unfold zlen in *. rewrite length_app. lia. }
    rewrite Hc. destruct (Z.ltb_spec 65535 (n + unit_len u)).
    + destruct (Z.leb_spec (n + (unit_len u + zlen (string_bytes s))) 65535); [unfold zlen in *; lia|done].
    + rewrite IH by lia. by rewrite Z.add_assoc.
Qed.

Lemma modified_utf8_len_spec s :
  modified_utf8_len s = if zlen (string_bytes s) <=? 65535 then Ok (zlen (string_bytes s)) else Err StringTooLong.
Proof. unfold modified_utf8_len. by rewrite utf8_len_loop_spec by lia. Qed.

Lemma length_concat_be n l : length (concat (be_bytes n <$> l)) = (n * length l)%nat.
Proof. induction l as [|v l IH]; cbn; [lia|]. rewrite length_app, length_be_bytes, IH. lia. Qed.

(** ** What a writer action does *)

Section writes.
Context `{Allocator} (limits : Limits) (start : nat).

(** Action [m] appends [b] when [s] accepts the running count, fails with the
    error of [s] otherwise, only ever appends, and may also run out of memory. *)
Definition writes (m : WM ()) (s : Z → outcome Error Z) (b : list Z) : Prop :=
  ∀ w, (start ≤ length (output w))%nat →
    output w `prefix_of` output (m w).2 ∧
    match s (zlen (output w) - Z.of_nat start) with
    | Ok c => c = zlen (output w) - Z.of_nat start + zlen b ∧
        ((m w).1 = Ok tt ∧ output (m w).2 = output w ++ b ∨
         (m w).1 = Err AllocationFailed ∧ ¬ exact_memory)
    | Err e => (m w).1 = Err e ∨ (m w).1 = Err AllocationFailed ∧ ¬ exact_memory
    | Panic | NoFuel => False
    end.

Lemma writes_ext m s s' b : (∀ c, s c = s' c) → writes m s b → writes m s' b.
Proof. intros Hs Hm w Hw. rewrite <- Hs. by apply Hm. Qed.

Lemma writes_ret : writes (wret tt) Ok [].
Proof. intros w Hw. split; [done|]. split; [unfold zlen; cbn; lia|]. left. cbn. by rewrite app_nil_r. Qed.

Lemma writes_seq m1 m2 s1 s2 b1 b2 :
  writes m1 s1 b1 → writes m2 s2 b2 →
  writes (m1 ;; m2) (λ c, c' ← s1 c; s2 c') (b1 ++ b2).
Proof using Type.
  intros H1 H2 w Hw. destruct (H1 w Hw) as [Hp1 Hr1]. unfold wbind.
  destruct (m1 w) as [r w1]. cbn [fst snd] in *.
  assert (Hw1 : (start ≤ length (output w1))%nat) by (apply prefix_length in Hp1; lia).
  destruct (s1 _) as [c|e| |]; mstep; [| |done|done].
  - destruct Hr1 as [Hc Hr1].
    assert (Hcx : c = zlen (output {| output := output w ++ b1; wcap := wcap w1 |}) - Z.of_nat start).
    { rewrite Hc. cbn. unfold zlen. rewrite length_app. lia. }
    destruct (H2 {| output := output w ++ b1; wcap := wcap w1 |}) as [Hp2 Hr2]; [cbn; rewrite length_app; lia|].
    rewrite <- Hcx in Hr2. destruct Hr1 as [(->&Ho)|[-> Hx]].
    + destruct w1 as [o1 c1]. cbn [output wcap] in *. subst o1. split; [by etrans|].
      destruct (s2 c) as [c2|e| |]; [|done|done|done].
      destruct Hr2 as [Hc2 Hr2]. split; [rewrite Hc2, Hc; unfold zlen; rewrite !length_app; lia|].
      destruct Hr2 as [(?&Ho2)|?]; [left|by right]. split; [done|].
      rewrite Ho2. by rewrite (assoc_L (++)).
    + split; [done|].
      destruct (s2 c) as [c2|e| |]; [|by right|done|done].
      split; [|by right]. destruct Hr2 as [Hc2 _]. rewrite Hc2, Hc. unfold zlen. rewrite !length_app. lia.
  - destruct Hr1 as [->|[-> Hx]]; (split; [done|]); [by left|by right].
Qed.

Lemma writes_lift {A} (o : outcome Error A) (f : A → WM ()) (s : A → Z → outcome Error Z) b :
  o ≠ Panic → o ≠ NoFuel → (∀ a, o = Ok a → writes (f a) (s a) b) →
  writes (wbind (wlift o) f) (λ c, a ← o; s a c) b.
Proof using Type.
  intros Hp Hn Hf. destruct o as [a|e| |]; [by apply Hf| |done|done].
  intros w Hw. cbn. split; [done|by left].
Qed.

Lemma writes_reserve n m b :
  zlen b = n → (∀ w, ∃ c, m w = (Ok tt, {| output := output w ++ b; wcap := c |})) →
  writes (reserve limits start n ;; m) (size_add limits n) b.
Proof using Type.
  intros Hb Hm w Hw. unfold wbind, reserve, size_add.
  destruct (checked_add _ n) as [c|] eqn:Ec; mstep; cbn [fst snd]; [|split; [done|by left]].
  assert (Hc : c = zlen (output w) - Z.of_nat start + zlen b).
  { unfold checked_add in Ec. case_match; [|done]. injection Ec as <-. lia. }
  destruct (output_bytes limits <? c); cbn [fst snd]; [split; [done|by left]|].
  destruct (_ <=? wcap w).
  - destruct (Hm w) as [c' ->]. cbn. split; [by apply prefix_app_r|]. split; [done|by left].
  - destruct (reserve_exact 1 _) as [c'|] eqn:Er; cbn [fst snd].
    + destruct (Hm {| output := output w; wcap := c' |}) as [c2 ->]. cbn.
      split; [by apply prefix_app_r|]. split; [done|by left].
    + split; [done|]. split; [done|]. right. split; [done|]. intros He. by rewrite He in Er.
Qed.

Lemma writes_bytes n b : zlen b = n → writes (write_bytes limits start b) (size_add limits n) b.
Proof using Type.
  intros <-. apply writes_reserve; [done|]. intros w. by exists (wcap w).
Qed.

Lemma writes_length count b :
  b = be_bytes 4 count → writes (write_length limits start count) (size_length limits count) b.
Proof using Type.
  intros ->. unfold write_length, size_length. apply (writes_lift _ (λ _, write_bytes limits start (be_bytes 4 count)) (λ _, size_add limits 4)).
  - unfold i32_length. by case_match.
  - unfold i32_length. by case_match.
  - intros _ _. by apply writes_bytes.
Qed.

Lemma writes_string s : writes (write_string limits start s) (size_string limits s) (name_bytes s).
Proof using Type.
  unfold write_string, size_string. rewrite modified_utf8_len_spec.
  destruct (Z.leb_spec (zlen (string_bytes s)) 65535) as [Hle|].
  - apply (writes_lift (Ok (zlen (string_bytes s))) _
      (λ l c, n ← ok_or (checked_add l 2) LengthOverflow; size_add limits n c)); [done|done|].
    intros l [= <-]. eapply writes_ext.
    + intros c. unfold checked_add. destruct (Z.leb_spec (zlen (string_bytes s) + 2) usize_max) as [_|Hx];
        [|unfold usize_max in Hx; lia]. mstep. done.
    + apply writes_reserve; [unfold name_bytes, zlen; rewrite length_app, length_be_bytes; lia|].
      intros w. exists (wcap w). unfold wbind, push. cbn. unfold name_bytes, string_bytes. by rewrite <- (assoc_L (++)).
  - intros w Hw. cbn. split; [done|by left].
Qed.

Lemma writes_array width values :
  writes (write_array limits start width values) (size_array limits (Z.of_nat width) values)
    (be_bytes 4 (zlen values) ++ concat (be_bytes width <$> values)).
Proof using Type.
  unfold write_array, size_array. apply writes_seq; [by apply writes_length|].
  apply (writes_lift _ _ (λ n, size_add limits n)).
  - unfold checked_mul. by case_match.
  - unfold checked_mul. by case_match.
  - intros n Hn. unfold checked_mul in Hn. case_match; [|done]. injection Hn as <-.
    apply writes_reserve; [unfold zlen; rewrite length_concat_be; lia|].
    intros w. by exists (wcap w).
Qed.

Lemma writes_each {A} (f : A → WM ()) (s : A → Z → outcome Error Z) (b : A → list Z) l :
  Forall (λ a, writes (f a) (s a) (b a)) l → writes (for_each f l) (size_each s l) (concat (b <$> l)).
Proof using Type.
  induction 1 as [|a l Ha _ IH]; [apply writes_ret|]. cbn. by apply writes_seq.
Qed.

Lemma container_total depth : container limits depth ≠ Panic ∧ container limits depth ≠ NoFuel.
Proof using Type. unfold container. by case_match. Qed.

Lemma element_type_total raw values : element_type_loop raw values ≠ Panic ∧ element_type_loop raw values ≠ NoFuel.
Proof.
  revert raw. induction values as [|v values IH]; intros raw; [done|]. cbn. by destruct (is_end v).
Qed.

(** The writer follows the specification on every tree. *)
Lemma writes_payload t depth : writes (payload limits start t depth) (size_spec limits t depth) (enc t).
Proof using Type.
  revert depth. induction t as [t Hl Hc|l IH|l IH] using tag_induction; intros depth.
  - destruct t; try (by apply writes_bytes); try (by destruct (Hl v)); try (by destruct (Hc entries)).
    + apply writes_ret.
    + cbn [payload size_spec enc]. apply writes_seq; [by apply writes_length|].
      apply writes_reserve; [unfold zlen; by rewrite length_fmap|]. intros w. by exists (wcap w).
    + apply writes_string.
    + apply (writes_array 4).
    + apply (writes_array 8).
  - cbn [payload size_spec enc]. apply (writes_lift (container limits depth)); [apply container_total..|].
    intros child _. apply (writes_lift (list_element_type l)); [apply element_type_total..|].
    intros raw Hraw. unfold raw_type_of. rewrite Hraw.
    change (raw :: be_bytes 4 (zlen l) ++ ?x) with ([raw] ++ be_bytes 4 (zlen l) ++ x).
    apply writes_seq; [by apply writes_bytes|]. apply writes_seq; [by apply writes_length|].
    apply writes_each. eapply Forall_impl; [exact IH|]. cbn. intros v Hv.
    destruct ((raw =? 10) && wrapped_value v); [|apply Hv].
    apply (writes_lift (container limits child)); [apply container_total..|]. intros wrapped _.
    change (tag_id v :: 0 :: 0 :: enc v ++ [0]) with ([tag_id v] ++ [0; 0] ++ enc v ++ [0]).
    apply writes_seq; [by apply writes_bytes|]. apply writes_seq; [by apply writes_bytes|].
    apply writes_seq; [apply Hv|by apply writes_bytes].
  - cbn [payload size_spec enc]. apply (writes_lift (container limits depth)); [apply container_total..|].
    intros child _. apply writes_seq; [|by apply writes_bytes].
    apply writes_each. eapply Forall_impl; [exact IH|]. cbn. intros [n v] Hv. cbn in *.
    destruct (is_end v) eqn:Ee.
    + intros w Hw. cbn. split; [done|by left].
    + apply (writes_seq (wlift (Ok tt)) _ Ok _ [] (tag_id v :: name_bytes n ++ enc v)); [apply writes_ret|].
      change (tag_id v :: ?x) with ([tag_id v] ++ x).
      apply writes_seq; [by apply writes_bytes|]. apply writes_seq; [apply writes_string|apply Hv].
Qed.
End writes.

(** ** The machine computes the specification *)

Section machine.
Context (limits : Limits).

Definition entry_spec (child_depth : nat) (e : CompoundEntry) (c : Z) : outcome Error Z :=
  if is_end (value e) then Err UnexpectedEnd
  else
    c ← size_add limits 1 c;
    c ← size_string limits (name e) c;
    size_spec limits (value e) child_depth c.

Definition child_spec (child_depth : nat) (raw_type : Z) (v : Tag) (c : Z) : outcome Error Z :=
  if (raw_type =? 10) && wrapped_value v then
    wrapped_depth ← container limits child_depth;
    c ← size_add limits 1 c;
    c ← size_add limits 2 c;
    c ← size_spec limits v wrapped_depth c;
    size_add limits 1 c
  else size_spec limits v child_depth c.

(** What is left to count for a stack of frames. *)
Fixpoint frames_spec (frames : list Frame) (c : Z) : outcome Error Z :=
  match frames with
  | [] => Ok c
  | FCompound remaining child_depth :: below =>
      c ← size_each (entry_spec child_depth) remaining c;
      c ← size_add limits 1 c;
      frames_spec below c
  | FList remaining child_depth raw_type close_wrapper :: below =>
      c ← (if close_wrapper then size_add limits 1 c else Ok c);
      c ← size_each (child_spec child_depth raw_type) remaining c;
      frames_spec below c
  end.

Definition state_spec (s : SizeState) : outcome Error Z :=
  match s with
  | Visit tag depth frames bytes => c ← size_spec limits tag depth bytes; frames_spec frames c
  | Unwind frames bytes => frames_spec frames bytes
  | Sized bytes => Ok bytes
  end.

Definition frame_depth (f : Frame) : nat :=
  match f with FCompound _ d => d | FList _ d _ _ => d end.
Fixpoint frames_ok (frames : list Frame) : Prop :=
  match frames with
  | [] => True
  | f :: below => (S (length below) ≤ frame_depth f ≤ max_depth limits)%nat ∧ frames_ok below
  end.
Definition state_ok (s : SizeState) : Prop :=
  match s with
  | Visit _ depth frames _ => (length frames ≤ depth)%nat ∧ frames_ok frames
  | Unwind frames _ => frames_ok frames
  | Sized _ => True
  end.

Definition frame_nodes (f : Frame) : nat :=
  match f with
  | FCompound remaining _ => sum_list_with (λ e, nodes (snd e)) remaining
  | FList remaining _ _ _ => sum_list_with nodes remaining
  end.
Definition frames_measure (frames : list Frame) : nat := sum_list_with (λ f, S (3 * frame_nodes f)) frames.
Definition state_measure (s : SizeState) : nat :=
  match s with
  | Visit tag _ frames _ => 3 * nodes tag + frames_measure frames
  | Unwind frames _ => S (frames_measure frames)
  | Sized _ => 0
  end.

Lemma bind_assoc {A B C} (m : outcome Error A) (f : A → outcome Error B) (g : B → outcome Error C) :
  ((m ≫= f) ≫= g) = (m ≫= λ a, f a ≫= g).
Proof. by destruct m. Qed.

(** One step keeps the invariant and the final result and gets closer to it. *)
Definition progress (s : SizeState) (r : outcome Error SizeState) : Prop :=
  match r with
  | Ok s' => state_ok s' ∧ (state_measure s' < state_measure s)%nat ∧ state_spec s = state_spec s'
  | Err e => state_spec s = Err e
  | Panic | NoFuel => False
  end.

Definition total {A} (o : outcome Error A) : Prop :=
  match o with Panic | NoFuel => False | _ => True end.

Lemma total_bind {A B} (m : outcome Error A) (f : A → outcome Error B) :
  total m → (∀ a, total (f a)) → total (m ≫= f).
Proof. destruct m; cbn; auto. Qed.

Lemma total_ok_or {A} (o : option A) e : total (ok_or o e).
Proof. by destruct o. Qed.
Lemma total_add n c : total (size_add limits n c).
Proof. apply total_bind; [apply total_ok_or|]. intros. by case_match. Qed.
Lemma total_i32 n : total (i32_length n).
Proof. unfold i32_length. by case_match. Qed.
Lemma total_container d : total (container limits d).
Proof. unfold container. by case_match. Qed.
Lemma total_utf8 s : total (modified_utf8_len s).
Proof. rewrite modified_utf8_len_spec. by case_match. Qed.
Lemma total_element_type l : total (list_element_type l).
Proof. unfold list_element_type. destruct (element_type_total 0 l). by destruct (element_type_loop 0 l). Qed.

Lemma total_length n c : total (size_length limits n c).
Proof. apply total_bind; auto using total_i32, total_add. Qed.
Lemma total_string s c : total (size_string limits s c).
Proof. apply total_bind; [apply total_utf8|]. intros. apply total_bind; auto using @total_ok_or, total_add. Qed.
Lemma total_array width l c : total (size_array limits width l c).
Proof. apply total_bind; [apply total_length|]. intros. apply total_bind; auto using @total_ok_or, total_add. Qed.

Lemma leaf_visit t depth frames c :
  (∀ l, t ≠ List_ l) → (∀ l, t ≠ Compound l) →
  visit limits t depth frames c = (c ← size_spec limits t depth c; Ok (frames, c)) ∧
  total (size_spec limits t depth c).
Proof.
  intros Hl Hc. destruct t; try (by destruct (Hl v)); try (by destruct (Hc entries));
    cbn [visit size_spec]; (split; [by rewrite ?bind_assoc|]);
    repeat first [ done | apply total_add | apply total_length | apply total_string | apply total_array
                 | apply total_bind; [|intros ?] ].
Qed.

(** Runs the next check, which both sides make. *)
Ltac both o tot := let E := fresh "E" in
  pose proof (tot : total o) as E; destruct o as [?|?| |] eqn:?; cbn in E; mstep; [|try done|done|done]; clear E.

Lemma measure_cons f fs : frames_measure (f :: fs) = (S (3 * frame_nodes f) + frames_measure fs)%nat.
Proof. done. Qed.
Lemma nodes_list l : nodes (List_ l) = S (sum_list_with nodes l).
Proof. done. Qed.
Lemma nodes_entries (l : list CompoundEntry) : nodes (Compound l) = S (sum_list_with (λ e, nodes (snd e)) l).
Proof. done. Qed.
Lemma sum_cons {A} (f : A → nat) a l : sum_list_with f (a :: l) = (f a + sum_list_with f l)%nat.
Proof. done. Qed.
Ltac measure := unfold state_measure, frame_nodes, value in *;
  rewrite ?nodes_list, ?nodes_entries, ?measure_cons; unfold frame_nodes; rewrite ?sum_cons;
  cbn [sum_list_with]; lia.

Lemma push_frame_ok f frames depth :
  (max_depth limits ≤ 512)%nat → (length frames ≤ depth)%nat → (depth < max_depth limits)%nat →
  push_frame f frames = Ok (f :: frames).
Proof. intros. unfold push_frame. by destruct (Nat.ltb_spec (length frames) 512); [|lia]. Qed.

Lemma container_ok depth child : container limits depth = Ok child → child = S depth ∧ (depth < max_depth limits)%nat.
Proof. unfold container. destruct (Nat.leb_spec (max_depth limits) depth); [done|]. by intros [= <-]. Qed.

Lemma visit_progress t depth frames c :
  (max_depth limits ≤ 512)%nat → state_ok (Visit t depth frames c) →
  progress (Visit t depth frames c) (size_step limits (Visit t depth frames c)).
Proof.
  intros Hmax [Hd Hf]. unfold progress. cbn [size_step state_spec].
  destruct t as [ | | | | | | | | |l|l| | ]; try (
    match goal with |- context [visit limits ?t _ _ _] =>
      destruct (leaf_visit t depth frames c ltac:(done) ltac:(done)) as [-> Ht] end;
    destruct (size_spec limits _ depth c) as [c'|e| |]; mstep; try done;
    split; [done|]; split; [cbn; lia|done]).
  - cbn [visit size_spec]. both (container limits depth) (total_container depth).
    apply container_ok in Heqo as [-> Hlt]. both (list_element_type l) (total_element_type l).
    both (size_add limits 1 c) (total_add 1 c).
    match goal with |- context [size_length limits (zlen l) ?c] =>
      both (size_length limits (zlen l) c) (total_length (zlen l) c) end.
    rewrite (push_frame_ok _ _ depth) by done. mstep.
    split; [split; [|done]; cbn; lia|]. split; [measure|done].
  - cbn [visit size_spec]. both (container limits depth) (total_container depth).
    apply container_ok in Heqo as [-> Hlt]. rewrite (push_frame_ok _ _ depth) by done. mstep.
    split; [split; [|done]; cbn; lia|]. split; [measure|].
    by rewrite bind_assoc.
Qed.

Lemma entry_spec_eq child e c :
  entry_spec child e c =
    if is_end (value e) then Err UnexpectedEnd
    else c ← size_add limits 1 c; c ← size_string limits (name e) c; size_spec limits (value e) child c.
Proof. done. Qed.
Lemma child_spec_eq child raw v c :
  child_spec child raw v c =
    if (raw =? 10) && wrapped_value v then
      wrapped_depth ← container limits child;
      c ← size_add limits 1 c;
      c ← size_add limits 2 c;
      c ← size_spec limits v wrapped_depth c;
      size_add limits 1 c
    else size_spec limits v child c.
Proof. done. Qed.

Lemma unwind_progress frames c :
  frames_ok frames → progress (Unwind frames c) (size_step limits (Unwind frames c)).
Proof.
  intros Hf. unfold progress. cbn [size_step state_spec].
  destruct frames as [|[[|e tail] child|remaining child raw close] below]; [by split; [|split; [cbn; lia|]]|..];
    cbn [frames_ok frame_depth] in Hf; cbn [unwind frames_spec size_each]; mstep.
  - both (size_add limits 1 c) (total_add 1 c).
    split; [by destruct Hf|]. split; [measure|done].
  - rewrite (entry_spec_eq child e c). destruct (is_end (value e)); [done|]. mstep.
    both (size_add limits 1 c) (total_add 1 c).
    match goal with |- context [size_string limits (name e) ?c] =>
      both (size_string limits (name e) c) (total_string (name e) c) end.
    split; [cbn; naive_solver lia|]. split; [measure|].
    cbn [state_spec frames_spec]. by rewrite ?bind_assoc.
  - assert (Hclose : total (if close then size_add limits 1 c else Ok c)) by (destruct close; [apply total_add|done]).
    destruct (if close then _ else _) as [c1|?| |]; mstep; try done.
    destruct remaining as [|v tail]; cbn [size_each]; mstep.
    { split; [by destruct Hf|]. split; [measure|done]. }
    rewrite (child_spec_eq child raw v c1). destruct ((raw =? 10) && wrapped_value v); mstep.
    + both (container limits child) (total_container child).
      apply container_ok in Heqo as [-> Hlt].
      both (size_add limits 1 c1) (total_add 1 c1).
      match goal with |- context [size_add limits 2 ?c] => both (size_add limits 2 c) (total_add 2 c) end.
      split; [cbn; naive_solver lia|]. split; [measure|].
      cbn [state_spec frames_spec]. by rewrite ?bind_assoc.
    + split; [cbn; naive_solver lia|]. split; [measure|].
      cbn [state_spec frames_spec]. mstep. by rewrite ?bind_assoc.
Qed.

Lemma nodes_pos t : (0 < nodes t)%nat.
Proof. destruct t; cbn; lia. Qed.

Lemma size_run_spec fuel s :
  (max_depth limits ≤ 512)%nat → state_ok s → (state_measure s ≤ fuel)%nat →
  size_run limits fuel s = state_spec s.
Proof.
  intros Hmax. revert s. induction fuel as [|fuel IH]; intros s Hs Hf.
  - destruct s as [t| |]; [|cbn in Hf; lia|done]. unfold state_measure in Hf. pose proof (nodes_pos t). lia.
  - assert (Hp : (∃ c, s = Sized c) ∨ progress s (size_step limits s)).
    { destruct s; [right; by apply visit_progress|right; by apply unwind_progress|left; eauto]. }
    destruct Hp as [[c ->]|Hp]; [done|].
    replace (size_run limits (S fuel) s) with
      (match s with Sized b => Ok b | _ => s' ← size_step limits s; size_run limits fuel s' end) by (by destruct s).
    unfold progress in Hp. destruct (size_step limits s) as [s'|e| |]; [| |done|done];
      [|rewrite Hp; by destruct s].
    destruct Hp as (Hs'&Hm&->). destruct s; [| |cbn in Hm; lia]; mstep; (apply IH; [done|lia]).
Qed.
End machine.

(** ** The entry points *)

(** The count both entry points of the network form agree on. *)
Definition network_size (limits : Limits) (t : Tag) : outcome Error Z :=
  _ ← limits_validate limits;
  c ← size_add limits 1 0;
  size_spec limits t 0 c.

Lemma limits_depth limits u : limits_validate limits = Ok u → (max_depth limits ≤ 512)%nat.
Proof. unfold limits_validate. destruct (Nat.ltb_spec 512 (max_depth limits)); [done|lia]. Qed.

Lemma sizer_network_size fuel t limits :
  (3 * nodes t ≤ fuel)%nat → network_encoded_len fuel t limits = network_size limits t.
Proof.
  intros Hf. unfold network_encoded_len, network_size.
  destruct (limits_validate limits) as [u|e| |] eqn:E; [|done|done|done]. apply limits_depth in E. mstep.
  destruct (size_add limits 1 0) as [c|e| |]; [|done|done|done]. mstep.
  rewrite size_run_spec; [|done|split; cbn; [lia|done]|unfold state_measure, frames_measure; cbn [sum_list_with]; lia].
  cbn [state_spec frames_spec]. by destruct (size_spec limits t 0 c).
Qed.

Section entry_points.
Context `{Allocator}.

(** A writer action behind an entry point: what [writes] promises, with the
    truncation on failure. *)
Lemma finish_writes m s b w :
  writes (length (output w)) m s b →
  match s 0 with
  | Ok n => n = zlen b ∧
      (∃ c, finish (length (output w)) (m w) = (Ok tt, {| output := output w ++ b; wcap := c |})) ∨
      n = zlen b ∧ ¬ exact_memory ∧
      ∃ c, finish (length (output w)) (m w) = (Err AllocationFailed, {| output := output w; wcap := c |})
  | Err e =>
      ∃ e' c, finish (length (output w)) (m w) = (Err e', {| output := output w; wcap := c |}) ∧
        (e' = e ∨ e' = AllocationFailed ∧ ¬ exact_memory)
  | Panic | NoFuel => False
  end.
Proof.
  intros Hm. destruct (Hm w ltac:(done)) as [[k Hk] Hr]. rewrite Z.sub_diag in Hr.
  assert (Hfail : ∀ e, (m w).1 = Err e →
    ∃ c, finish (length (output w)) (m w) = (Err e, {| output := output w; wcap := c |})).
  { intros e He. exists (wcap (m w).2). destruct (m w) as [r w']. cbn in *. subst r. cbn.
    by rewrite Hk, take_app_length. }
  destruct (s 0) as [n|e| |]; [|destruct Hr as [He|[He ?]]; destruct (Hfail _ He) as [c Hc]; eauto 10|done|done].
  destruct Hr as [Hn [[H1 H2]|[H1 Hx]]]; [left|right; split; [done|]; split; [done|by apply Hfail]].
  split; [lia|]. exists (wcap (m w).2). destruct (m w) as [r w']. cbn in *. subst r. cbn. rewrite <- H2. by destruct w'.
Qed.

Definition named_size (limits : Limits) (t : NamedTag) : outcome Error Z :=
  _ ← limits_validate limits;
  if is_end (root_tag t) then
    if (length (root_name t) =? 0)%nat then size_add limits 1 0 else Err NamedEnd
  else
    c ← size_add limits 1 0;
    c ← size_string limits (root_name t) c;
    size_spec limits (root_tag t) 0 c.

Definition enc_named (t : NamedTag) : list Z :=
  if is_end (root_tag t) then [0] else tag_id (root_tag t) :: name_bytes (root_name t) ++ enc (root_tag t).

Lemma writes_err start e b : writes start (wlift (Err e)) (λ _, Err e) b.
Proof. intros w Hw. split; [done|by left]. Qed.

Lemma writes_named_root limits start t :
  writes start
    (wlift (if is_end (root_tag t) && negb (length (root_name t) =? 0)%nat then Err NamedEnd else Ok tt) ;;
     write_byte limits start (tag_id (root_tag t)) ;;
     (if is_end (root_tag t) then wret tt else write_string limits start (root_name t)) ;;
     payload limits start (root_tag t) 0)
    (λ c, if is_end (root_tag t) then
            if (length (root_name t) =? 0)%nat then size_add limits 1 c else Err NamedEnd
          else c ← size_add limits 1 c; c ← size_string limits (root_name t) c; size_spec limits (root_tag t) 0 c)
    (enc_named t).
Proof.
  unfold enc_named. destruct (is_end (root_tag t)) eqn:Ee; cbn [andb].
  - destruct (root_tag t); try done. destruct (length (root_name t) =? 0)%nat; cbn [negb].
    + apply (writes_ext start _ (λ c, c ← size_add limits 1 c; Ok c)).
      { intros c. by destruct (size_add limits 1 c). }
      apply (writes_seq _ (write_byte limits start 0) _ (size_add limits 1) Ok [0] []); [by apply writes_bytes|].
      apply (writes_seq _ (wret tt) _ Ok Ok [] []); apply writes_ret.
    + intros w Hw. split; [done|by left].
  - apply (writes_seq _ (wlift (Ok tt)) _ Ok _ [] (tag_id (root_tag t) :: name_bytes (root_name t) ++ enc (root_tag t)));
      [apply writes_ret|].
    apply (writes_seq _ (write_byte limits start (tag_id (root_tag t))) _ (size_add limits 1) _
      [tag_id (root_tag t)] (name_bytes (root_name t) ++ enc (root_tag t))); [by apply writes_bytes|].
    apply writes_seq; [apply writes_string|apply writes_payload].
Qed.
End entry_points.

(** ** Properties *)

(** C39. The sizer and the network writer agree on every tree: with three steps
    per node the iterative sizer, with its 512 frames, never panics or runs
    out of steps; when it answers [n], the writer appends exactly [n] bytes,
    the encoding of the tag; when it fails, the writer fails with the same
    error.  A failed write leaves the output as it was, and running out of
    memory is the only other failure. *)
Theorem writer_agrees_with_sizer `{Allocator} t limits fuel w :
  (3 * nodes t ≤ fuel)%nat →
  match network_encoded_len fuel t limits with
  | Ok n => n = zlen (tag_id t :: enc t) ∧
      ((∃ c, write_network t w limits = (Ok tt, {| output := output w ++ tag_id t :: enc t; wcap := c |})) ∨
       ¬ exact_memory ∧ ∃ c, write_network t w limits = (Err AllocationFailed, {| output := output w; wcap := c |}))
  | Err e =>
      ∃ e' c, write_network t w limits = (Err e', {| output := output w; wcap := c |}) ∧
        (e' = e ∨ e' = AllocationFailed ∧ ¬ exact_memory)
  | Panic | NoFuel => False
  end.
Proof.
  intros Hf. rewrite (sizer_network_size fuel t limits Hf). unfold network_size, write_network.
  destruct (limits_validate limits) as [u|e| |] eqn:E; mstep; [|exists e, (wcap w); destruct w; by auto| |];
    [|unfold limits_validate in E; by case_match..].
  pose proof (finish_writes _ _ _ w (writes_seq (length (output w)) _ _ _ _ _ _
    (writes_bytes limits (length (output w)) 1 [tag_id t] eq_refl) (writes_payload limits (length (output w)) t 0))) as Hw.
  cbv beta in Hw. match goal with |- match ?x with _ => _ end => destruct x as [n|e| |] end; [naive_solver|exact Hw|done|done].
Qed.

(** The named form writes the root's type, its name and its payload (one
    byte for an End root, which must have no name), or nothing: on any error
    the output is as it was. *)
Theorem write_named_spec `{Allocator} t limits w :
  match named_size limits t with
  | Ok n => n = zlen (enc_named t) ∧
      ((∃ c, write_named t w limits = (Ok tt, {| output := output w ++ enc_named t; wcap := c |})) ∨
       ¬ exact_memory ∧ ∃ c, write_named t w limits = (Err AllocationFailed, {| output := output w; wcap := c |}))
  | Err e =>
      ∃ e' c, write_named t w limits = (Err e', {| output := output w; wcap := c |}) ∧
        (e' = e ∨ e' = AllocationFailed ∧ ¬ exact_memory)
  | Panic | NoFuel => False
  end.
Proof.
  unfold named_size, write_named.
  destruct (limits_validate limits) as [u|e| |] eqn:E; mstep; [|exists e, (wcap w); destruct w; by auto| |];
    [|unfold limits_validate in E; by case_match..].
  pose proof (finish_writes _ _ _ w (writes_named_root limits (length (output w)) t)) as Hw. cbv beta in Hw.
  match goal with |- match ?x with _ => _ end => destruct x as [n|e| |] end; [naive_solver|exact Hw|done|done].
Qed.

(** ** The properties at concrete trees *)

Lemma writer_agrees_with_sizer_witness :
  let t := Compound [([97], Int 5); ([98], List_ [Byte 1; String_ [99]])] in
  let limits := {| max_depth := 8; vanilla_quota_bytes := 1000; allocation_bytes := 1000; output_bytes := 1000 |} in
  network_encoded_len 18 t limits = Ok 31 ∧
  (exists c, write_network t {| output := [7]; wcap := 1 |} limits =
    (Ok tt, {| output := [7] ++ tag_id t :: enc t; wcap := c |})).
Proof.
  intros t limits. split; [reflexivity|].
  pose proof (writer_agrees_with_sizer t limits 18 {| output := [7]; wcap := 1 |} ltac:(cbn; lia)) as Hw.
  vm_compute in Hw |- *. destruct Hw as [_ [Hw|[Hx _]]]; [exact Hw|]. destruct (Hx (fun _ _ => eq_refl)).
Defined.
