(* ===== verification/NbtRead.v ===== *)
(** * Reading NBT (src/nbt/read.rs)

    The reader's cursor, read quota and allocation account are explicit state;
    a failed read drops the state, as the entry points only store the cursor on
    success.  Recursion is bounded by the depth limit and the loop of a compound
    by the bytes left, and both bounds are proved to be enough.  The sizes of
    the decoded tag and compound entry depend on the target and are parameters. *)

From Stdlib Require Import Sorted.
From stdpp Require Import sorting gmap.
From S2P Require Import Prelude.
From S2P Require Import Sorted.
From S2P Require Import Nbt.
From S2P Require Import NbtWrite.
Local Open Scope Z_scope.

(** ** Modified UTF-8

    A position in the bytes is the suffix that starts there. *)

Fixpoint utf8_continue (count : nat) (unit : Z) (bytes : list Z) : outcome Error (Z * list Z) :=
  match count with
  | O => Ok (unit, bytes)
  | S count' =>
      next ← ok_or (head bytes) InvalidModifiedUtf8;
      if negb (Z.land next 0xc0 =? 0x80) then Err InvalidModifiedUtf8
      else utf8_continue count' (Z.lor (u_wrap 16 (Z.shiftl unit 6)) (Z.land next 0x3f)) (tail bytes)
  end.

Definition modified_utf8_unit (bytes : list Z) : outcome Error (Z * list Z) :=
  first ← unwrap (head bytes);
  if first <? 0x80 then Ok (first, tail bytes)
  else
    width ← (if (0xc0 <=? first) && (first <=? 0xdf) then Ok 2%nat
             else if (0xe0 <=? first) && (first <=? 0xef) then Ok 3%nat
             else Err InvalidModifiedUtf8);
    utf8_continue (width - 1) (Z.land first (if (width =? 2)%nat then 0x1f else 0x0f)) (tail bytes).

Fixpoint utf8_count_loop (fuel : nat) (count : Z) (bytes : list Z) : outcome Error Z :=
  match bytes, fuel with
  | [], _ => Ok count
  | _, O => NoFuel
  | _, S fuel' => '(_, rest) ← modified_utf8_unit bytes; utf8_count_loop fuel' (count + 1) rest
  end.
Definition modified_utf8_count (bytes : list Z) : outcome Error Z := utf8_count_loop (length bytes) 0 bytes.

(** The second pass of [string], which pushes the units. *)
Fixpoint utf8_decode_loop (fuel : nat) (result : list Z) (bytes : list Z) : outcome Error (list Z) :=
  match bytes, fuel with
  | [], _ => Ok result
  | _, O => NoFuel
  | _, S fuel' => '(unit, rest) ← modified_utf8_unit bytes; utf8_decode_loop fuel' (result ++ [unit]) rest
  end.

(** ** The reader *)

Record Reader := { input : list Z; quota : Z; allocation_ : Z }.
Definition RM (A : Type) : Type := Reader → outcome Error (A * Reader).

Definition rret {A} (a : A) : RM A := λ r, Ok (a, r).
Definition rlift {A} (o : outcome Error A) : RM A := λ r, a ← o; Ok (a, r).
Definition rbind {A B} (m : RM A) (f : A → RM B) : RM B := λ r, '(a, r) ← m r; f a r.
Declare Scope rm_scope.
Notation "x <- m ; k" := (rbind m (λ x, k)) (at level 100, m at next level, right associativity) : rm_scope.
Notation "m ;; k" := (rbind m (λ _, k)) (at level 100, k at level 200, right associativity) : rm_scope.
Local Open Scope rm_scope.

Definition available : RM Z := λ r, Ok (zlen (input r), r).

(** [self.input.get(..count)] *)
Definition rtake (count : Z) : RM (list Z) := λ r,
  if zlen (input r) <? count then Err Truncated
  else Ok (take (Z.to_nat count) (input r),
           {| input := drop (Z.to_nat count) (input r); quota := quota r; allocation_ := allocation_ r |}).

Definition byte : RM Z := bytes <- rtake 1; rlift (unwrap (head bytes)).
Definition short : RM Z := bytes <- rtake 2; rret (i_wrap 16 (be_value bytes)).
Definition int : RM Z := bytes <- rtake 4; rret (i_wrap 32 (be_value bytes)).
Definition long : RM Z := bytes <- rtake 8; rret (i_wrap 64 (be_value bytes)).

Definition count : RM Z := n <- int; rlift (if n <? 0 then Err (NegativeLength n) else Ok n).

Section reader.
Context `{Allocator} (tag_size entry_size : Z) (limits : Limits).

Definition account (bytes : Z) : RM () := λ r,
  q ← ok_or (checked_add (quota r) bytes) VanillaQuotaExceeded;
  if vanilla_quota_bytes limits <? q then Err VanillaQuotaExceeded
  else Ok (tt, {| input := input r; quota := q; allocation_ := allocation_ r |}).

Definition allocation (bytes : Z) : RM () := λ r,
  a ← ok_or (checked_add (allocation_ r) bytes) AllocationBudgetExceeded;
  if allocation_bytes limits <? a then Err AllocationBudgetExceeded
  else Ok (tt, {| input := input r; quota := quota r; allocation_ := a |}).

Definition check_id (id : Z) : outcome Error () := if 12 <? id then Err (UnknownTag id) else Ok tt.

(** [Vec::try_reserve_exact], answering the capacity. *)
Definition try_reserve (size n : Z) : RM Z := rlift (ok_or (reserve_exact size n) AllocationFailed).

Definition string (account_units : bool) : RM NbtString :=
  length <- short;
  bytes <- rtake (u_wrap 16 length);
  units <- rlift (modified_utf8_count bytes);
  (if account_units then account (units * 2) else rret tt) ;;
  allocation (units * 2) ;;
  try_reserve 2 units ;;
  rlift (utf8_decode_loop (List.length bytes) [] bytes).

Definition array_length (width : Z) : RM Z :=
  account 24 ;;
  n <- count;
  bytes <- rlift (ok_or (checked_mul n width) LengthOverflow);
  account bytes ;;
  left <- available;
  rlift (ensure (negb (left <? bytes)) Truncated) ;;
  allocation bytes ;;
  rret n.

Definition byte_array : RM Tag :=
  n <- array_length 1;
  bytes <- rtake n;
  try_reserve 1 n ;;
  rret (ByteArray (i_wrap 8 <$> bytes)).

(** [for _ in 0..count { values.push(read()?) }] *)
Fixpoint repeat_read {A} (n : nat) (values : list A) (m : RM A) : RM (list A) :=
  match n with
  | O => rret values
  | S n' => v <- m; repeat_read n' (values ++ [v]) m
  end.

Definition int_array : RM Tag :=
  n <- array_length 4;
  try_reserve 4 n ;;
  values <- repeat_read (Z.to_nat n) [] int;
  rret (IntArray values).

Definition long_array : RM Tag :=
  n <- array_length 8;
  try_reserve 8 n ;;
  values <- repeat_read (Z.to_nat n) [] long;
  rret (LongArray values).

Definition f32_read (bits : Z) : Z := if f32_is_zero bits then 0 else bits.
Definition f64_read (bits : Z) : Z := if f64_is_zero bits then 0 else bits.

Definition minimum_width (id : Z) : Z :=
  if (id =? 2) || (id =? 8) then 2
  else if (id =? 3) || (id =? 5) || (id =? 7) || (id =? 11) || (id =? 12) then 4
  else if (id =? 4) || (id =? 6) then 8
  else if id =? 9 then 5
  else 1.

(** A list element is taken out of its wrapper; [pop().unwrap()]. *)
Definition unwrap_element (v : Tag) : RM Tag :=
  match v with
  | Compound entries => if is_wrapper entries then rlift (snd <$> unwrap (last entries)) else rret v
  | _ => rret v
  end.

(** [payload] is the method itself, which [list] and [compound] call. *)
Section containers.
Context (payload : Z → nat → RM Tag).

Definition list_ (depth : nat) : RM Tag :=
  child_depth <- rlift (container limits depth);
  account 36 ;;
  id <- byte;
  n <- count;
  (if negb (n =? 0) then
     rlift (if id =? 0 then Err UnexpectedEnd else Ok tt) ;; rlift (check_id id)
   else rret tt) ;;
  quota_bytes <- rlift (ok_or (checked_mul n 4) LengthOverflow);
  account quota_bytes ;;
  minimum_bytes <- rlift (ok_or (checked_mul n (minimum_width id)) LengthOverflow);
  left <- available;
  rlift (ensure (negb (left <? minimum_bytes)) Truncated) ;;
  bytes <- rlift (ok_or (checked_mul n tag_size) LengthOverflow);
  allocation bytes ;;
  try_reserve tag_size n ;;
  values <- repeat_read (Z.to_nat n) [] (v <- payload id child_depth; unwrap_element v);
  rret (List_ values).

(** The growth of the entries vector: the capacity after making room. *)
Definition grow (len capacity : Z) : RM Z :=
  if len =? capacity then
    new <- rlift (ok_or (checked_mul (Z.max len 4) 2) LengthOverflow);
    bytes <- rlift (ok_or (checked_mul new entry_size) LengthOverflow);
    allocation bytes ;;
    try_reserve entry_size new
  else rret capacity.

Fixpoint compound_loop (fuel : nat) (child_depth : nat) (entries : list CompoundEntry) (capacity : Z)
    : RM (list CompoundEntry) :=
  match fuel with
  | O => rlift NoFuel
  | S fuel' =>
      id <- byte;
      if id =? 0 then rret entries
      else
        rlift (check_id id) ;;
        account 28 ;;
        name <- string true;
        value <- payload id child_depth;
        capacity <- grow (zlen entries) capacity;
        compound_loop fuel' child_depth (entries ++ [(name, value)]) capacity
  end.

Definition compound (depth : nat) : RM Tag :=
  child_depth <- rlift (container limits depth);
  account 48 ;;
  left <- available;
  entries <- compound_loop (S (Z.to_nat left)) child_depth [] 0;
  let entries := from_entries entries in
  bytes <- rlift (ok_or (checked_mul (zlen entries) 36) LengthOverflow);
  account bytes ;;
  rret (Compound entries).
End containers.

(** The bound on the recursion is the depth still allowed. *)
Fixpoint read_payload (fuel : nat) (id : Z) (depth : nat) : RM Tag :=
  match fuel with
  | O => rlift NoFuel
  | S fuel' =>
      if id =? 0 then rlift (Err UnexpectedEnd)
      else if id =? 1 then account 9 ;; v <- byte; rret (Byte (i_wrap 8 v))
      else if id =? 2 then account 10 ;; v <- short; rret (Short v)
      else if id =? 3 then account 12 ;; v <- int; rret (Int v)
      else if id =? 4 then account 16 ;; v <- long; rret (Long v)
      else if id =? 5 then account 12 ;; v <- int; rret (Float (f32_read (u_wrap 32 v)))
      else if id =? 6 then account 16 ;; v <- long; rret (Double (f64_read (u_wrap 64 v)))
      else if id =? 7 then byte_array
      else if id =? 8 then account 36 ;; s <- string true; rret (String_ s)
      else if id =? 9 then list_ (read_payload fuel') depth
      else if id =? 10 then compound (read_payload fuel') depth
      else if id =? 11 then int_array
      else if id =? 12 then long_array
      else rlift (Err (UnknownTag id))
  end.
Definition depth_fuel : nat := S (max_depth limits).

Definition new_reader (input : list Z) : Reader := {| input := input; quota := 0; allocation_ := 0 |}.

(** The tag, the bytes accounted, and the input after it. *)
Definition read_network_accounted (input_ : list Z) : outcome Error (Tag * Z * list Z) :=
  _ ← limits_validate limits;
  '(tag, r) ← (id <- byte; if id =? 0 then rret End else read_payload depth_fuel id 0) (new_reader input_);
  Ok (tag, allocation_ r, input r).

Definition read_network (input_ : list Z) : outcome Error (Tag * list Z) :=
  '(tag, _, rest) ← read_network_accounted input_; Ok (tag, rest).

Definition read_named (input_ : list Z) : outcome Error (NamedTag * list Z) :=
  _ ← limits_validate limits;
  '(t, r) ←
    (id <- byte;
     if id =? 0 then rret {| root_name := []; root_tag := End |}
     else
       rlift (check_id id) ;;
       name <- string false;
       tag <- read_payload depth_fuel id 0;
       rret {| root_name := name; root_tag := tag |}) (new_reader input_);
  Ok (t, input r).
End reader.

(** ** Well-formed trees *)

Definition each {A} (P : A → Prop) (l : list A) : Prop := foldr (λ a acc, P a ∧ acc) True l.

Lemma each_Forall {A} (P : A → Prop) l : each P l ↔ Forall P l.
Proof. unfold each. induction l as [|a l IH]; cbn; [by split; [constructor|]|]. rewrite IH. split; [by intros []; constructor|by inversion 1]. Qed.

(** Values in range, compounds sorted by key, and no End below the root. *)
Fixpoint tag_wf (t : Tag) : Prop :=
  match t with
  | End => True
  | Byte v => in_i 8 v
  | Short v => in_i 16 v
  | Int v => in_i 32 v
  | Long v => in_i 64 v
  | Float b => in_u 32 b
  | Double b => in_u 64 b
  | ByteArray l => Forall (in_i 8) l
  | String_ s => Forall (in_u 16) s
  | IntArray l => Forall (in_i 32) l
  | LongArray l => Forall (in_i 64) l
  | List_ l => each (λ v, is_end v = false ∧ tag_wf v) l
  | Compound l => sorted_entries l ∧ each (λ e, is_end (snd e) = false ∧ Forall (in_u 16) (fst e) ∧ tag_wf (snd e)) l
  end.

(** Containers on the longest path. *)
Fixpoint tag_depth (t : Tag) : nat :=
  match t with
  | List_ l => S (foldr (λ v n, Nat.max (tag_depth v) n) O l)
  | Compound l => S (foldr (λ e n, Nat.max (tag_depth (snd e)) n) O l)
  | _ => O
  end.

Definition deep {A} (f : A → nat) (l : list A) : nat := foldr (λ v n, Nat.max (f v) n) O l.

Lemma deep_le {A} (f : A → nat) l d : (deep f l ≤ d ↔ Forall (λ a, f a ≤ d) l)%nat.
Proof.
  unfold deep. induction l as [|a l IH]; cbn; [split; [constructor|lia]|].
  rewrite Forall_cons, <- IH. lia.
Qed.

Lemma list_wf l : tag_wf (List_ l) ↔ Forall (λ v, is_end v = false ∧ tag_wf v) l.
Proof. apply each_Forall. Qed.
Lemma compound_wf l :
  tag_wf (Compound l) ↔
  sorted_entries l ∧ Forall (λ e, is_end (snd e) = false ∧ Forall (in_u 16) (fst e) ∧ tag_wf (snd e)) l.
Proof. cbn [tag_wf]. by rewrite each_Forall. Qed.

Lemma from_entries_incl es e : e ∈ from_entries es → e ∈ es.
Proof.
  destruct e as [k v]. destruct (from_entries_spec es) as [Hs Hm]. intros He.
  apply (to_map_elem _ _ _ Hs), Hm in He as [s [Hn _]]. unfold number in Hn.
  apply list_elem_of_lookup in Hn as [i Hi]. rewrite list_lookup_imap in Hi.
  destruct (es !! i) as [[k' v']|] eqn:E; [|done]. cbn in Hi. injection Hi as -> -> ->.
  by eapply list_elem_of_lookup_2.
Qed.

Lemma Forall_incl {A} (P : A → Prop) l l' : (∀ a, a ∈ l' → a ∈ l) → Forall P l → Forall P l'.
Proof. rewrite !Forall_forall. auto. Qed.

(** ** Safety of a read *)

Section safe.
Context `{Allocator} (tag_size entry_size : Z) (limits : Limits).

Definition reader_ok (r : Reader) : Prop :=
  bytes_ok (input r) ∧ (0 ≤ allocation_ r ≤ Z.max 0 (allocation_bytes limits)).

(** From [r], a result after at least [k] bytes that satisfies [Q], or a typed
    error. *)
Definition safe {A} (r : Reader) (k : nat) (Q : A → Prop) (o : outcome Error (A * Reader)) : Prop :=
  match o with
  | Ok (a, r') => Q a ∧ reader_ok r' ∧ input r' `suffix_of` input r ∧ (k + length (input r') ≤ length (input r))%nat
  | Err _ => True
  | Panic | NoFuel => False
  end.

Lemma safe_weaken {A} r k k' (Q Q' : A → Prop) o :
  safe r k Q o → (k' ≤ k)%nat → (∀ a, Q a → Q' a) → safe r k' Q' o.
Proof. destruct o as [[a r']| | |]; cbn; try done. intros (?&?&?&?) Hk HQ. split_and!; [auto|done|done|lia]. Qed.

Lemma safe_bind {A B} r k1 k2 (Q1 : A → Prop) (Q : B → Prop) (m : RM A) (f : A → RM B) :
  safe r k1 Q1 (m r) →
  (∀ a r', Q1 a → reader_ok r' → (k1 + length (input r') ≤ length (input r))%nat → safe r' k2 Q (f a r')) →
  safe r (k1 + k2) Q (rbind m f r).
Proof.
  unfold rbind. destruct (m r) as [[a r']| | |]; cbn; try done. intros (HQ&Hr&Hs&Hl) Hf.
  specialize (Hf a r' HQ Hr Hl). destruct (f a r') as [[b r'']| | |]; try done. cbn in *.
  destruct Hf as (?&?&?&?). split_and!; [done|done|by etrans|lia].
Qed.

Lemma safe_bind0 {A B} r k (Q1 : A → Prop) (Q : B → Prop) (m : RM A) (f : A → RM B) :
  safe r 0 Q1 (m r) →
  (∀ a r', Q1 a → reader_ok r' → (length (input r') ≤ length (input r))%nat → safe r' k Q (f a r')) →
  safe r k Q (rbind m f r).
Proof. intros. by apply (safe_bind r 0 k Q1). Qed.

Lemma safe_ret {A} r (Q : A → Prop) a : reader_ok r → Q a → safe r 0 Q (rret a r).
Proof. cbn. auto. Qed.

Lemma safe_lift {A} r (Q : A → Prop) o :
  reader_ok r → total o → (∀ a, o = Ok a → Q a) → safe r 0 Q (rlift o r).
Proof. unfold rlift. destruct o; cbn; auto. Qed.

Lemma safe_take r n : reader_ok r → 0 ≤ n → safe r (Z.to_nat n) (λ b, bytes_ok b ∧ zlen b = n) (rtake n r).
Proof.
  intros [Hb Ha] Hn. unfold rtake, zlen. destruct (Z.ltb_spec (Z.of_nat (length (input r))) n); [done|].
  cbn. split; [|split; [|split]].
  - split; [by apply Forall_take|]. rewrite length_take. lia.
  - split; [by apply Forall_drop|done].
  - exists (take (Z.to_nat n) (input r)). by rewrite take_drop.
  - rewrite length_drop. lia.
Qed.

Lemma safe_byte r : reader_ok r → safe r 1 is_byte (byte r).
Proof.
  intros Hr. apply (safe_bind r 1 0 _ _ _ _ (safe_take r 1 Hr ltac:(lia))). intros [|b l] r' [Hb Hl] Hr' _; [done|].
  apply safe_lift; [done|done|]. intros a [= <-]. by inversion Hb.
Qed.

Lemma safe_short r : reader_ok r → safe r 2 (in_i 16) (short r).
Proof.
  intros Hr. apply (safe_bind r 2 0 _ _ _ _ (safe_take r 2 Hr ltac:(lia))). intros b r' _ Hr' _.
  apply safe_ret; [done|by apply i_wrap_range].
Qed.
Lemma safe_int r : reader_ok r → safe r 4 (in_i 32) (int r).
Proof.
  intros Hr. apply (safe_bind r 4 0 _ _ _ _ (safe_take r 4 Hr ltac:(lia))). intros b r' _ Hr' _.
  apply safe_ret; [done|by apply i_wrap_range].
Qed.
Lemma safe_long r : reader_ok r → safe r 8 (in_i 64) (long r).
Proof.
  intros Hr. apply (safe_bind r 8 0 _ _ _ _ (safe_take r 8 Hr ltac:(lia))). intros b r' _ Hr' _.
  apply safe_ret; [done|by apply i_wrap_range].
Qed.

Lemma safe_count r : reader_ok r → safe r 4 (λ n, 0 ≤ n < 2 ^ 31) (count r).
Proof.
  intros Hr. apply (safe_bind r 4 0 _ _ _ _ (safe_int r Hr)). intros n r' Hn Hr' _.
  unfold in_i in Hn. apply safe_lift; [done|by case_match|]. intros a. destruct (Z.ltb_spec n 0); [done|].
  intros [= <-]. lia.
Qed.

Lemma safe_account r n : reader_ok r → safe r 0 (λ _, True) (account limits n r).
Proof.
  intros Hr. unfold account. destruct (checked_add _ _); mstep; [|done]. case_match; [done|]. by cbn.
Qed.

Lemma safe_allocation r n : reader_ok r → 0 ≤ n → safe r 0 (λ _, True) (allocation limits n r).
Proof.
  intros [Hr Ha] Hn. unfold allocation, checked_add. case_match; mstep; [|done].
  destruct (Z.ltb_spec (allocation_bytes limits) (allocation_ r + n)); [done|]. cbn.
  split; [done|]. split; [split; cbn; [done|lia]|]. split; [done|lia].
Qed.

Lemma safe_reserve r size n : reader_ok r → safe r 0 (λ c, n ≤ c) (try_reserve size n r).
Proof.
  intros Hr. apply safe_lift; [done|apply total_ok_or|]. intros c Hc. apply ok_or_ok in Hc.
  by eapply reserve_exact_ge.
Qed.

Lemma safe_repeat {A} (Q : A → Prop) m n vs r :
  reader_ok r → (∀ r, reader_ok r → safe r 0 Q (m r)) → Forall Q vs →
  safe r 0 (λ l, Forall Q l ∧ length l = length vs + n)%nat (repeat_read n vs m r).
Proof.
  intros Hr Hm. revert vs r Hr. induction n as [|n IH]; intros vs r Hr Hvs; cbn [repeat_read].
  - apply safe_ret; [done|]. split; [done|lia].
  - apply (safe_bind0 r 0 Q); [by apply Hm|]. intros v r' Hv Hr' _.
    eapply safe_weaken; [apply (IH (vs ++ [v]) r' Hr')|lia|].
    + apply Forall_app. by repeat constructor.
    + intros l [Hl Hlen]. split; [done|]. rewrite Hlen, length_app. cbn. lia.
Qed.
End safe.

(** ** Decoding modified UTF-8 *)

Lemma lor_range w a b : 0 ≤ w → in_u w a → in_u w b → in_u w (Z.lor a b).
Proof.
  intros Hw Ha Hb. apply in_u_testbit; [done|apply Z.lor_nonneg; unfold in_u in *; lia|].
  intros i Hi. rewrite Z.lor_spec. by rewrite !(testbit_high w).
Qed.

Lemma land_low_range w z m : 0 ≤ w → in_u w m → in_u w (Z.land z m).
Proof.
  intros Hw Hm. apply in_u_testbit; [done|apply Z.land_nonneg; unfold in_u in *; lia|].
  intros i Hi. rewrite Z.land_spec, (testbit_high w m), andb_false_r; done.
Qed.

(** A decoded unit fits 16 bits and consumes at least its first byte. *)
Definition unit_ok (bytes : list Z) (o : outcome Error (Z * list Z)) : Prop :=
  match o with
  | Ok (u, rest) => in_u 16 u ∧ rest `suffix_of` bytes
  | Err e => e = InvalidModifiedUtf8
  | Panic | NoFuel => False
  end.

Lemma utf8_continue_ok n u bytes : in_u 16 u → unit_ok bytes (utf8_continue n u bytes).
Proof.
  revert u bytes. induction n as [|n IH]; intros u bytes Hu; cbn [utf8_continue]; [by cbn|].
  destruct bytes as [|b bytes]; [done|]. cbn [head]. mstep. destruct (negb _); [done|]. cbn [tail].
  assert (Hu' : in_u 16 (Z.lor (u_wrap 16 (Z.shiftl u 6)) (Z.land b 63))).
  { apply lor_range; [done|by apply u_wrap_range|]. apply land_low_range; [done|by split]. }
  specialize (IH _ bytes Hu'). destruct (utf8_continue _ _ _) as [[u' rest]| | |]; cbn in *; try done.
  destruct IH as [? Hs]. split; [done|by apply suffix_cons_r].
Qed.

Lemma utf8_unit_ok b bytes : is_byte b → unit_ok bytes (modified_utf8_unit (b :: bytes)).
Proof.
  intros Hb. unfold modified_utf8_unit. cbn [head tail]. mstep. destruct (Z.ltb_spec b 128).
  - cbn. split; [|done]. unfold is_byte, in_u in *. lia.
  - case_match; [|case_match; [|done]]; mstep; apply utf8_continue_ok;
      apply (land_low_range 16); cbn; unfold in_u; lia.
Qed.

(** Both passes agree: the units decoded are the units counted. *)
Lemma utf8_loops fuel bytes n result :
  bytes_ok bytes → (length bytes ≤ fuel)%nat →
  match utf8_count_loop fuel n bytes with
  | Ok m => ∃ s, utf8_decode_loop fuel result bytes = Ok (result ++ s) ∧ m = n + zlen s ∧ Forall (in_u 16) s
  | Err e => e = InvalidModifiedUtf8
  | Panic | NoFuel => False
  end.
Proof.
  revert bytes n result. induction fuel as [|fuel IH]; intros bytes n result Hb Hf.
  - destruct bytes; [|cbn in Hf; lia]. cbn. exists []. rewrite app_nil_r. cbn. split_and!; [done|unfold zlen; cbn; lia|done].
  - destruct bytes as [|b bytes].
    + cbn. exists []. rewrite app_nil_r. cbn. split_and!; [done|unfold zlen; cbn; lia|done].
    + cbn [utf8_count_loop utf8_decode_loop]. pose proof (Forall_cons_1 _ _ _ Hb) as [Hb1 Hb2].
      pose proof (utf8_unit_ok b bytes Hb1) as Hu.
      destruct (modified_utf8_unit (b :: bytes)) as [[u rest]|e| |]; cbn in Hu; try done. mstep.
      destruct Hu as [Hu [k Hk]].
      assert (Hr : bytes_ok rest) by (rewrite Hk in Hb2; by apply Forall_app in Hb2 as [_ ?]).
      assert (Hl : (length rest ≤ fuel)%nat) by (rewrite Hk in Hf; cbn in Hf; rewrite length_app in Hf; lia).
      specialize (IH rest (n + 1) (result ++ [u]) Hr Hl). destruct (utf8_count_loop fuel (n + 1) rest); try done.
      destruct IH as (s&->&->&Hs). exists (u :: s). rewrite <- (assoc_L (++)). split_and!; [done| |by constructor].
      unfold zlen. cbn [length]. lia.
Qed.

Section safe_payload.
Context `{Allocator} (tag_size entry_size : Z) (limits : Limits).
Hypothesis Hsizes : 0 ≤ tag_size ∧ 0 ≤ entry_size.

(** One bind of a chain; the bytes consumed do not matter. *)
Ltac safe_with L :=
  eapply (safe_bind0 limits);
  [ eapply (safe_weaken limits); [apply L|apply Nat.le_0_l|let Hq := fresh in intros ? Hq; exact Hq]
  | cbv beta; let a := fresh "a" in let r' := fresh "r" in let Hq := fresh "Hq" in let Hr' := fresh "Hr" in
    intros a r' Hq Hr' ? ].

Lemma safe_check {A B} r k (Q : B → Prop) (o : outcome Error A) f :
  reader_ok limits r → total o →
  (∀ a r', o = Ok a → reader_ok limits r' → safe limits r' k Q (f a r')) → safe limits r k Q (rbind (rlift o) f r).
Proof.
  intros Hr Ho Hf. apply (safe_bind0 limits r k (λ a, o = Ok a)); [by apply safe_lift|]. intros a r' Ha Hr' _. by apply Hf.
Qed.

Lemma checked_mul_ok a b (e : Error) c : ok_or (checked_mul a b) e = Ok c → c = a * b.
Proof. unfold checked_mul. case_match; cbn; [by intros [= <-]|done]. Qed.

Lemma safe_string r units : reader_ok limits r → safe limits r 0 (Forall (in_u 16)) (string limits units r).
Proof.
  intros Hr. unfold string. safe_with safe_short; [done|].
  safe_with safe_take; [done|by apply u_wrap_range|]. destruct Hq0 as [Hb _].
  pose proof (utf8_loops (length a0) a0 0 [] Hb (le_n _)) as Hu. unfold modified_utf8_count.
  apply safe_check; [done|destruct (utf8_count_loop _ _ _); try done|]. intros n r3 Hn Hr3. rewrite Hn in Hu.
  destruct Hu as (s&Hs&->&Hs16).
  apply (safe_bind0 limits _ _ (λ _, True)).
  { destruct units; [by apply safe_account|by apply safe_ret]. }
  intros _ r4 _ Hr4 _. safe_with safe_allocation; [done|unfold zlen; lia|].
  safe_with safe_reserve; [done|]. rewrite Hs. by apply safe_ret.
Qed.

Lemma safe_array_length r width : reader_ok limits r → 0 ≤ width → safe limits r 0 (λ n, 0 ≤ n) (array_length limits width r).
Proof.
  intros Hr Hw. unfold array_length. safe_with safe_account; [done|]. safe_with safe_count; [done|].
  apply safe_check; [done|apply total_ok_or|]. intros b r3 ->%checked_mul_ok Hr3.
  safe_with safe_account; [done|]. unfold available, rbind at 1. cbn [mbind outcome_mbind outcome_bind].
  apply safe_check; [done|unfold ensure; by case_match|]. intros _ r5 _ Hr5.
  safe_with safe_allocation; [done|nia|]. apply safe_ret; [done|lia].
Qed.

Lemma safe_numbers r width (Q : Z → Prop) m (mk : list Z → Tag) :
  reader_ok limits r → 0 ≤ width → (∀ r, reader_ok limits r → safe limits r 0 Q (m r)) →
  safe limits r 0 (λ t, ∃ l, t = mk l ∧ Forall Q l)
    ((n <- array_length limits width; try_reserve width n ;;
      values <- repeat_read (Z.to_nat n) [] m; rret (mk values)) r).
Proof.
  intros Hr Hw Hm. safe_with safe_array_length; [done|done|]. safe_with safe_reserve; [done|].
  safe_with (safe_repeat limits Q m); [done|done|done|]. apply safe_ret; [done|]. destruct Hq1. eauto.
Qed.

Definition payload_ok (id : Z) (depth : nat) (t : Tag) : Prop :=
  tag_id t = id ∧ is_end t = false ∧ tag_wf t ∧ (depth + tag_depth t ≤ max_depth limits)%nat.

(** What the containers need of the recursive calls. *)
Definition child_ok (pl : Z → nat → RM Tag) (depth : nat) : Prop :=
  (depth ≤ max_depth limits)%nat →
  ∀ id r, is_byte id → reader_ok limits r → safe limits r 0 (payload_ok id depth) (pl id depth r).

Lemma unwrap_element_safe r depth id v :
  reader_ok limits r → payload_ok id depth v →
  safe limits r 0 (λ v, is_end v = false ∧ tag_wf v ∧ (depth + tag_depth v ≤ max_depth limits)%nat)
    (unwrap_element v r).
Proof.
  intros Hr (Hid&He&Hw&Hd). assert (Hv : safe limits r 0 (λ v, is_end v = false ∧ tag_wf v ∧
    (depth + tag_depth v ≤ max_depth limits)%nat) (rret v r)) by (by apply safe_ret).
  destruct v; try done. cbn [unwrap_element]. destruct (is_wrapper entries) eqn:Ew; [|done].
  destruct entries as [|[n v] [|? ?]]; try done. cbn [last]. apply safe_lift; [done|done|].
  intros ? [= <-]. apply compound_wf in Hw as [_ Hw]. inversion Hw as [|? ? (?&_&?)]; subst. cbn in *.
  split_and!; [done|done|]. lia.
Qed.

Lemma safe_list pl depth r :
  child_ok pl (S depth) → reader_ok limits r → safe limits r 0 (payload_ok 9 depth) (list_ tag_size limits pl depth r).
Proof.
  intros Hpl Hr. unfold list_. apply safe_check; [done|apply total_container|]. intros child r1 [-> Hlt]%container_ok Hr1.
  specialize (Hpl ltac:(lia)). safe_with safe_account; [done|]. safe_with safe_byte; [done|]. safe_with safe_count; [done|].
  eapply (safe_bind0 limits _ _ (λ _, True)).
  { destruct (negb _); [|by apply safe_ret]. apply safe_check; [done|by case_match|]. intros _ r5 _ Hr5.
    apply safe_lift; [done|unfold check_id; by case_match|done]. }
  intros _ r5 _ Hr5 _. apply safe_check; [done|apply total_ok_or|]. intros q r6 _ Hr6.
  safe_with safe_account; [done|]. apply safe_check; [done|apply total_ok_or|]. intros q' r8 _ Hr8.
  unfold available, rbind at 1. cbn [mbind outcome_mbind outcome_bind].
  apply safe_check; [done|unfold ensure; by case_match|]. intros _ r9 _ Hr9.
  apply safe_check; [done|apply total_ok_or|]. intros b r10 ->%checked_mul_ok Hr10.
  safe_with safe_allocation; [done|nia|]. safe_with safe_reserve; [done|].
  safe_with (safe_repeat limits (λ v, is_end v = false ∧ tag_wf v ∧ (S depth + tag_depth v ≤ max_depth limits)%nat));
    [done| |done|].
  - intros r' Hr'. eapply (safe_bind0 limits); [by apply Hpl|]. intros v r'' Hv Hr'' _. by eapply unwrap_element_safe.
  - apply safe_ret; [done|]. destruct Hq5 as [Hl _]. split_and!; [done|done| |].
    + apply list_wf. eapply Forall_impl; [exact Hl|]. naive_solver.
    + cbn. assert (deep tag_depth a5 ≤ max_depth limits - S depth)%nat; [|unfold deep in *; lia].
      apply deep_le. eapply Forall_impl; [exact Hl|]. cbn. intros ? (_&_&?). lia.
Qed.

Lemma safe_grow r len capacity :
  reader_ok limits r → 0 ≤ len → safe limits r 0 (λ _, True) (grow entry_size limits len capacity r).
Proof.
  intros Hr Hl. unfold grow. case_match; [|by apply safe_ret].
  apply safe_check; [done|apply total_ok_or|]. intros new r1 ->%checked_mul_ok Hr1.
  apply safe_check; [done|apply total_ok_or|]. intros b r2 ->%checked_mul_ok Hr2.
  safe_with safe_allocation; [done|nia|]. eapply (safe_weaken limits); [by apply safe_reserve|lia|done].
Qed.

Definition entry_ok (depth : nat) (e : CompoundEntry) : Prop :=
  is_end (snd e) = false ∧ Forall (in_u 16) (fst e) ∧ tag_wf (snd e) ∧ (depth + tag_depth (snd e) ≤ max_depth limits)%nat.

Lemma safe_compound_loop pl depth fuel entries capacity r :
  child_ok pl depth → (depth ≤ max_depth limits)%nat → reader_ok limits r → (length (input r) < fuel)%nat →
  Forall (entry_ok depth) entries →
  safe limits r 0 (Forall (entry_ok depth)) (compound_loop entry_size limits pl fuel depth entries capacity r).
Proof.
  intros Hpl Hd. specialize (Hpl Hd). revert entries capacity r.
  induction fuel as [|fuel IH]; intros entries capacity r Hr Hf He; [lia|]. cbn [compound_loop].
  eapply (safe_weaken limits) with (k := 1%nat); [|lia|done].
  apply (safe_bind limits r 1 0 _ _ _ _ (safe_byte limits r Hr)). intros id r1 Hid Hr1 Hl1.
  destruct (id =? 0); [by apply safe_ret|].
  eapply (safe_bind0 limits _ _ (λ _, True)); [apply safe_lift; [done|unfold check_id; by case_match|done]|]. intros _ r2 _ Hr2 ?.
  safe_with safe_account; [done|]. safe_with safe_string; [done|].
  eapply (safe_bind0 limits); [by apply Hpl|]. intros v r5 (Hvid&Hend&Hwf&Hdv) Hr5 ?.
  eapply (safe_bind0 limits); [apply safe_grow; [done|unfold zlen; lia]|]. intros c r6 _ Hr6 ?.
  apply IH; [done|lia|]. apply Forall_app. by repeat constructor.
Qed.

Lemma safe_compound pl depth r :
  child_ok pl (S depth) → reader_ok limits r →
  safe limits r 0 (payload_ok 10 depth) (compound entry_size limits pl depth r).
Proof.
  intros Hpl Hr. unfold compound. apply safe_check; [done|apply total_container|]. intros child r1 [-> Hlt]%container_ok Hr1.
  safe_with safe_account; [done|]. unfold available, rbind at 1. cbn [mbind outcome_mbind outcome_bind].
  eapply (safe_bind0 limits); [apply (safe_compound_loop pl (S depth)); [done|lia|done| |constructor]|].
  { unfold zlen. lia. }
  intros es r3 Hes Hr3 _. apply safe_check; [done|apply total_ok_or|]. intros b r4 _ Hr4.
  safe_with safe_account; [done|]. apply safe_ret; [done|].
  apply (Forall_incl _ _ _ (from_entries_incl es)) in Hes. destruct (from_entries_spec es) as [Hs _].
  split_and!; [done|done| |].
  - apply compound_wf. split; [done|]. eapply Forall_impl; [exact Hes|]. unfold entry_ok. naive_solver.
  - cbn. assert (deep (λ e, tag_depth (snd e)) (from_entries es) ≤ max_depth limits - S depth)%nat; [|unfold deep in *; lia].
    apply deep_le. eapply Forall_impl; [exact Hes|]. cbn. intros ? (_&_&_&?). lia.
Qed.
Lemma safe_payload fuel : ∀ depth, (max_depth limits < fuel + depth)%nat →
  child_ok (read_payload tag_size entry_size limits fuel) depth.
Proof.
  induction fuel as [|fuel IH]; intros depth Hf Hd id r Hid Hr; [lia|].
  specialize (IH (S depth) ltac:(lia)). cbn [read_payload].
  repeat match goal with |- context [if (id =? ?n) then _ else _] => destruct (Z.eqb_spec id n) as [->|?] end; try done.
  - safe_with safe_account; [done|]. safe_with safe_byte; [done|]. apply safe_ret; [done|].
    split_and!; [done|done|by apply i_wrap_range|cbn; lia].
  - safe_with safe_account; [done|]. safe_with safe_short; [done|]. apply safe_ret; [done|]. split_and!; [done|done|done|cbn; lia].
  - safe_with safe_account; [done|]. safe_with safe_int; [done|]. apply safe_ret; [done|]. split_and!; [done|done|done|cbn; lia].
  - safe_with safe_account; [done|]. safe_with safe_long; [done|]. apply safe_ret; [done|]. split_and!; [done|done|done|cbn; lia].
  - safe_with safe_account; [done|]. safe_with safe_int; [done|]. apply safe_ret; [done|].
    split_and!; [done|done| |cbn; lia]. cbn [tag_wf]. unfold f32_read. case_match; [by split|by apply u_wrap_range].
  - safe_with safe_account; [done|]. safe_with safe_long; [done|]. apply safe_ret; [done|].
    split_and!; [done|done| |cbn; lia]. cbn [tag_wf]. unfold f64_read. case_match; [by split|by apply u_wrap_range].
  - unfold byte_array. safe_with safe_array_length; [done|done|]. safe_with safe_take; [done|done|].
    safe_with safe_reserve; [done|]. apply safe_ret; [done|]. split_and!; [done|done| |cbn; lia].
    cbn [tag_wf]. apply Forall_fmap, Forall_true. intros. by apply i_wrap_range.
  - safe_with safe_account; [done|]. safe_with safe_string; [done|]. apply safe_ret; [done|]. split_and!; [done|done|done|cbn; lia].
  - by apply safe_list.
  - by apply safe_compound.
  - eapply (safe_weaken limits); [apply (safe_numbers r 4 (in_i 32) int IntArray Hr ltac:(lia)); intros r' Hr'; eapply (safe_weaken limits); [by apply safe_int|lia|done]|lia|].
    intros ? (l&->&Hl). split_and!; [done|done|done|cbn; lia].
  - eapply (safe_weaken limits); [apply (safe_numbers r 8 (in_i 64) long LongArray Hr ltac:(lia)); intros r' Hr'; eapply (safe_weaken limits); [by apply safe_long|lia|done]|lia|].
    intros ? (l&->&Hl). split_and!; [done|done|done|cbn; lia].
Qed.

Lemma new_reader_ok bytes : bytes_ok bytes → reader_ok limits (new_reader bytes).
Proof. intros. split; [done|cbn; lia]. Qed.

(** What every successful read promises of its tag and its rest. *)
Definition read_ok (bytes : list Z) (t : Tag) (rest : list Z) : Prop :=
  tag_wf t ∧ (tag_depth t ≤ max_depth limits)%nat ∧ rest `suffix_of` bytes ∧ bytes_ok rest ∧
  (length rest < length bytes)%nat.

Lemma read_network_safe bytes :
  bytes_ok bytes →
  match read_network_accounted tag_size entry_size limits bytes with
  | Ok (t, used, rest) => read_ok bytes t rest ∧ 0 ≤ used ≤ Z.max 0 (allocation_bytes limits)
  | Err _ => True
  | Panic | NoFuel => False
  end.
Proof.
  intros Hb. unfold read_network_accounted. unfold limits_validate. destruct (512 <? max_depth limits)%nat; mstep; [done|].
  assert (Hs : safe limits (new_reader bytes) 1 (λ t, tag_wf t ∧ (tag_depth t ≤ max_depth limits)%nat)
    ((id <- byte; if id =? 0 then rret End else read_payload tag_size entry_size limits (depth_fuel limits) id 0) (new_reader bytes))).
  { apply (safe_bind limits _ 1 0 _ _ _ _ (safe_byte limits _ (new_reader_ok _ Hb))). intros id r Hid Hr _.
    case_match; [apply safe_ret; [done|]; split; [done|cbn; lia]|].
    eapply (safe_weaken limits); [apply (safe_payload (depth_fuel limits) 0); [unfold depth_fuel; lia|lia|done|done]|lia|].
    intros t (_&_&?&?). done. }
  destruct (rbind byte _ _) as [[t r]|e| |]; cbn in Hs |- *; try done.
  unfold read_ok, reader_ok in *. naive_solver lia.
Qed.

Lemma read_named_safe bytes :
  bytes_ok bytes →
  match read_named tag_size entry_size limits bytes with
  | Ok (t, rest) => read_ok bytes (root_tag t) rest ∧ Forall (in_u 16) (root_name t) ∧
      (is_end (root_tag t) = true → root_name t = [])
  | Err _ => True
  | Panic | NoFuel => False
  end.
Proof.
  intros Hb. unfold read_named. unfold limits_validate. destruct (512 <? max_depth limits)%nat; mstep; [done|].
  match goal with |- context [rbind byte ?f (new_reader bytes)] => assert (Hs : safe limits (new_reader bytes) 1
    (λ t, tag_wf (root_tag t) ∧ (tag_depth (root_tag t) ≤ max_depth limits)%nat ∧ Forall (in_u 16) (root_name t) ∧
      (is_end (root_tag t) = true → root_name t = [])) (rbind byte f (new_reader bytes))) end.
  { apply (safe_bind limits _ 1 0 _ _ _ _ (safe_byte limits _ (new_reader_ok _ Hb))). intros id r Hid Hr _.
    case_match; [apply safe_ret; [done|]; split_and!; [done|cbn; lia|done|done]|].
    eapply (safe_bind0 limits _ _ (λ _, True)); [apply safe_lift; [done|unfold check_id; by case_match|done]|]. intros _ r2 _ Hr2 _.
    safe_with safe_string; [done|].
    eapply (safe_bind0 limits); [apply (safe_payload (depth_fuel limits) 0); [unfold depth_fuel; lia|lia|done|done]|].
    intros t r4 (_&He&?&?) Hr4 _. apply safe_ret; [done|]. cbn. rewrite He. done. }
  destruct (rbind byte _ _) as [[t r]|e| |]; cbn in Hs |- *; try done.
  unfold read_ok, reader_ok in *. naive_solver lia.
Qed.
End safe_payload.

(** ** What a round trip yields and costs *)

(** Decoding canonicalises floats and nothing else: element wrappers disappear
    again. *)
Fixpoint canon (t : Tag) : Tag :=
  match t with
  | Float b => Float (f32_read (f32_to_write b))
  | Double b => Double (f64_read (f64_to_write b))
  | List_ l => List_ (canon <$> l)
  | Compound l => Compound ((λ e, (fst e, canon (snd e))) <$> l)
  | t => t
  end.

Section cost.
Context (tag_size entry_size : Z).

Definition total_of {A} (f : A → Z) (l : list A) : Z := foldr (λ a n, f a + n) 0 l.

(** An element that is written inside a wrapper compound. *)
Definition wrapped_in (l : list Tag) (v : Tag) : bool := (raw_type_of l =? 10) && wrapped_value v.

(** The read quota a tag consumes. *)
Fixpoint quota_cost (t : Tag) : Z :=
  match t with
  | End => 0
  | Byte _ => 9 | Short _ => 10 | Int _ | Float _ => 12 | Long _ | Double _ => 16
  | ByteArray l => 24 + zlen l
  | IntArray l => 24 + zlen l * 4
  | LongArray l => 24 + zlen l * 8
  | String_ s => 36 + zlen s * 2
  | List_ l => 36 + zlen l * 4 + total_of (λ v, if wrapped_in l v then 48 + 28 + quota_cost v + 36 else quota_cost v) l
  | Compound l => 48 + total_of (λ e, 28 + zlen (fst e) * 2 + quota_cost (snd e)) l + zlen l * 36
  end.

(** The bytes charged when entry number [len] does not fit [capacity]. *)
Definition grow_cost (len capacity : Z) : Z := if len =? capacity then Z.max len 4 * 2 * entry_size else 0.
Definition grown (len capacity : Z) : Z := if len =? capacity then Z.max len 4 * 2 else capacity.

Definition entries_cost {A} (f : A → Z) : Z → Z → list A → Z :=
  fix go len capacity l :=
    match l with
    | [] => 0
    | e :: l => f e + grow_cost len capacity + go (len + 1) (grown len capacity) l
    end.

(** The backing bytes a tag is charged for, on an exact allocator. *)
Fixpoint alloc_cost (t : Tag) : Z :=
  match t with
  | ByteArray l => zlen l
  | IntArray l => zlen l * 4
  | LongArray l => zlen l * 8
  | String_ s => zlen s * 2
  | List_ l => zlen l * tag_size + total_of (λ v, if wrapped_in l v then alloc_cost v + 8 * entry_size else alloc_cost v) l
  | Compound l => entries_cost (λ e, zlen (fst e) * 2 + alloc_cost (snd e)) 0 0 l
  | _ => 0
  end.
End cost.

(** ** Reading what was written *)

Section reads.
Context `{Allocator} (tag_size entry_size : Z) (limits : Limits).
Hypothesis Hexact : exact_memory.
Hypothesis Hsizes : 0 ≤ tag_size ∧ 0 ≤ entry_size.
Hypothesis Hquota : vanilla_quota_bytes limits ≤ usize_max.
Hypothesis Halloc : allocation_bytes limits ≤ usize_max.

Definition over_budget (e : Error) : Prop :=
  e = VanillaQuotaExceeded ∨ e = AllocationBudgetExceeded ∨ e = LengthOverflow.
Definition fits (r : Reader) (q k : Z) : bool :=
  (quota r + q <=? vanilla_quota_bytes limits) && (allocation_ r + k <=? allocation_bytes limits).
Definition within (r : Reader) : Prop :=
  0 ≤ quota r ≤ vanilla_quota_bytes limits ∧ 0 ≤ allocation_ r ≤ allocation_bytes limits.

(** On bytes [b], action [m] answers [a] at quota [q] and allocation [k] if they
    fit the budgets and fails for a budget otherwise. *)
Definition reads {A} (m : RM A) (b : list Z) (a : A) (q k : Z) : Prop :=
  0 ≤ q ∧ 0 ≤ k ∧ ∀ r rest, input r = b ++ rest → within r →
    if fits r q k then m r = Ok (a, {| input := rest; quota := quota r + q; allocation_ := allocation_ r + k |})
    else ∃ e, m r = Err e ∧ over_budget e.

Lemma reads_bind {A B} (m : RM A) (f : A → RM B) b1 b2 a c q1 q2 k1 k2 :
  reads m b1 a q1 k1 → reads (f a) b2 c q2 k2 → reads (rbind m f) (b1 ++ b2) c (q1 + q2) (k1 + k2).
Proof using Type.
  intros (Hq1&Hk1&H1) (Hq2&Hk2&H2). split; [lia|]. split; [lia|]. intros r rest Hi [Hw1 Hw2].
  rewrite <- (assoc_L (++)) in Hi. specialize (H1 r _ Hi (conj Hw1 Hw2)). unfold rbind. unfold fits in *.
  destruct (Z.leb_spec (quota r + q1) (vanilla_quota_bytes limits)), (Z.leb_spec (allocation_ r + k1) (allocation_bytes limits));
    cbn [andb] in H1.
  - rewrite H1. mstep. specialize (H2 {| input := b2 ++ rest; quota := quota r + q1; allocation_ := allocation_ r + k1 |} rest eq_refl).
    cbn in H2. rewrite !Z.add_assoc. apply H2. unfold within. cbn. lia.
  - destruct H1 as (e&->&?). mstep. destruct (Z.leb_spec (allocation_ r + (k1 + k2)) (allocation_bytes limits)); [lia|].
    rewrite andb_false_r. eauto.
  - destruct H1 as (e&->&?). mstep. destruct (Z.leb_spec (quota r + (q1 + q2)) (vanilla_quota_bytes limits)); [lia|]. cbn [andb]. eauto.
  - destruct H1 as (e&->&?). mstep. destruct (Z.leb_spec (quota r + (q1 + q2)) (vanilla_quota_bytes limits)); [lia|]. cbn [andb]. eauto.
Qed.

Lemma reads_eq {A} (m : RM A) b a q k b' q' k' :
  reads m b a q k → b = b' → q = q' → k = k' → reads m b' a q' k'.
Proof using Type. by intros ? -> -> ->. Qed.

Lemma fits_zero r : within r → fits r 0 0 = true.
Proof using Type. intros [? ?]. unfold fits. rewrite !Z.add_0_r. apply andb_true_iff. rewrite !Z.leb_le. lia. Qed.

(** An action that only looks at its bytes. *)
Lemma reads_pure {A} (m : RM A) b a :
  (∀ r rest, input r = b ++ rest → m r = Ok (a, {| input := rest; quota := quota r; allocation_ := allocation_ r |})) →
  reads m b a 0 0.
Proof using Type.
  intros Hm. split; [done|]. split; [done|]. intros r rest Hi Hw. rewrite fits_zero by done. rewrite !Z.add_0_r. by apply Hm.
Qed.

Lemma reads_ret {A} (a : A) : reads (rret a) [] a 0 0.
Proof using Type. apply reads_pure. intros [] rest Hi. cbn in *. by subst. Qed.

Lemma reads_lift {A B} (o : outcome Error A) a (f : A → RM B) b c q k :
  o = Ok a → reads (f a) b c q k → reads (rbind (rlift o) f) b c q k.
Proof using Type. intros -> Hf. unfold rbind, rlift. mstep. exact Hf. Qed.

Lemma reads_take b n : zlen b = n → reads (rtake n) b b 0 0.
Proof using Type.
  intros <-. apply reads_pure. intros r rest Hi. unfold rtake, zlen. rewrite Hi, length_app, Nat2Z.id.
  destruct (Z.ltb_spec (Z.of_nat (length b + length rest)) (Z.of_nat (length b))); [lia|].
  by rewrite take_app_length, drop_app_length.
Qed.

Lemma reads_after {A B} (m : RM A) (f : A → RM B) b a c :
  reads m b a 0 0 → reads (f a) [] c 0 0 → reads (rbind m f) b c 0 0.
Proof using Type. intros. rewrite <- (app_nil_r b). by apply (reads_bind m f b [] a c 0 0 0 0). Qed.

Lemma reads_byte v : reads byte [v] v 0 0.
Proof using Type.
  apply (reads_after _ _ _ [v]); [by apply reads_take|]. cbn [head unwrap].
  apply reads_pure. intros [] rest Hi. cbn in *. by subst.
Qed.

Lemma be_signed n w v : w = 8 * Z.of_nat n → 0 < w → in_i w v → i_wrap w (be_value (be_bytes n v)) = v.
Proof using Type. intros -> Hw Hv. rewrite be_value_be_bytes. by apply i_wrap_u_wrap. Qed.
Lemma be_unsigned n w v : w = 8 * Z.of_nat n → 0 < w → in_u w v → u_wrap w (i_wrap w (be_value (be_bytes n v))) = v.
Proof using Type. intros -> Hw Hv. rewrite be_value_be_bytes, u_wrap_i_wrap, !u_wrap_id; try done. by apply u_wrap_range; lia. Qed.

Lemma reads_be {A} n (f : list Z → A) v :
  reads (bytes <- rtake (Z.of_nat n); rret (f bytes)) (be_bytes n v) (f (be_bytes n v)) 0 0.
Proof using Type. apply (reads_after _ _ _ (be_bytes n v)); [apply reads_take; unfold zlen; by rewrite length_be_bytes|apply reads_ret]. Qed.

Lemma reads_int v : in_i 32 v → reads int (be_bytes 4 v) v 0 0.
Proof using Type. intros Hv. pose proof (reads_be 4 (λ b, i_wrap 32 (be_value b)) v) as Hr. cbv beta in Hr. by rewrite (be_signed 4 32) in Hr. Qed.
Lemma reads_long v : in_i 64 v → reads long (be_bytes 8 v) v 0 0.
Proof using Type. intros Hv. pose proof (reads_be 8 (λ b, i_wrap 64 (be_value b)) v) as Hr. cbv beta in Hr. by rewrite (be_signed 8 64) in Hr. Qed.
Lemma reads_short v : in_i 16 v → reads short (be_bytes 2 v) v 0 0.
Proof using Type. intros Hv. pose proof (reads_be 2 (λ b, i_wrap 16 (be_value b)) v) as Hr. cbv beta in Hr. by rewrite (be_signed 2 16) in Hr. Qed.

Lemma reads_count n : 0 ≤ n ≤ 2 ^ 31 - 1 → reads count (be_bytes 4 n) n 0 0.
Proof using Type.
  intros Hn. apply (reads_after _ _ _ n); [apply reads_int; unfold in_i; lia|].
  destruct (Z.ltb_spec n 0); [lia|]. apply reads_pure. intros [] rest Hi. cbn in *. by subst.
Qed.

Lemma reads_account n : 0 ≤ n → reads (account limits n) [] tt n 0.
Proof using Hquota.
  intros Hn. split; [done|]. split; [done|]. intros r rest Hi [Hq Ha]. unfold account, checked_add, fits.
  rewrite Z.add_0_r. destruct (Z.leb_spec (allocation_ r) (allocation_bytes limits)); [|lia]. rewrite andb_true_r.
  destruct (Z.leb_spec (quota r + n) usize_max); mstep.
  - destruct (Z.leb_spec (quota r + n) (vanilla_quota_bytes limits)), (Z.ltb_spec (vanilla_quota_bytes limits) (quota r + n)); try lia.
    + cbn in Hi. by rewrite Hi.
    + exists VanillaQuotaExceeded. split; [done|by left].
  - destruct (Z.leb_spec (quota r + n) (vanilla_quota_bytes limits)); [lia|]. exists VanillaQuotaExceeded. split; [done|by left].
Qed.

Lemma reads_allocation n : 0 ≤ n → reads (allocation limits n) [] tt 0 n.
Proof using Halloc.
  intros Hn. split; [done|]. split; [done|]. intros r rest Hi [Hq Ha]. unfold allocation, checked_add, fits.
  rewrite Z.add_0_r. destruct (Z.leb_spec (quota r) (vanilla_quota_bytes limits)); [|lia]. cbn [andb].
  destruct (Z.leb_spec (allocation_ r + n) usize_max); mstep.
  - destruct (Z.leb_spec (allocation_ r + n) (allocation_bytes limits)), (Z.ltb_spec (allocation_bytes limits) (allocation_ r + n)); try lia.
    + cbn in Hi. by rewrite Hi.
    + exists AllocationBudgetExceeded. split; [done|by right; left].
  - destruct (Z.leb_spec (allocation_ r + n) (allocation_bytes limits)); [lia|].
    exists AllocationBudgetExceeded. split; [done|by right; left].
Qed.

Lemma reads_reserve {B} size n (f : Z → RM B) b c q k :
  reads (f n) b c q k → reads (rbind (try_reserve size n) f) b c q k.
Proof using Hexact. apply reads_lift. by rewrite Hexact. Qed.

Lemma reads_available {B} (f : Z → RM B) b c q k :
  (∀ n, zlen b ≤ n → reads (f n) b c q k) → reads (rbind available f) b c q k.
Proof using Type.
  intros Hf. destruct (Hf (zlen b) ltac:(lia)) as (Hq&Hk&_). split; [done|]. split; [done|].
  intros r rest Hi Hw. unfold rbind, available. mstep.
  apply (Hf (zlen (input r))); [rewrite Hi; unfold zlen; rewrite length_app; lia|done|done].
Qed.

(** A length computation that overflows has also left the budgets. *)
Lemma reads_mul {B} x y (f : Z → RM B) b c q k :
  usize_max < x * y → usize_max < q ∨ usize_max < k → 0 ≤ q → 0 ≤ k →
  reads (rbind (rlift (ok_or (checked_mul x y) LengthOverflow)) f) b c q k.
Proof using Hquota Halloc.
  intros Hxy Hqk Hq Hk. split; [done|]. split; [done|]. intros r rest Hi [Hwq Hwa].
  unfold rbind, rlift, checked_mul, fits. destruct (Z.leb_spec (x * y) usize_max); [lia|]. mstep.
  destruct (Z.leb_spec (quota r + q) (vanilla_quota_bytes limits)), (Z.leb_spec (allocation_ r + k) (allocation_bytes limits));
    cbn [andb]; try lia; exists LengthOverflow; (split; [done|by right; right]).
Qed.
End reads.

(** ** Modified UTF-8 round trip *)

Definition below (n : nat) (P : Z → bool) : bool := forallb (λ i, P (Z.of_nat i)) (seq 0 n).
Lemma below_spec n P : below n P = true → ∀ x, 0 ≤ x < Z.of_nat n → P x = true.
Proof.
  intros Hb x Hx. unfold below in Hb. rewrite forallb_forall in Hb.
  rewrite <- (Z2Nat.id x) by lia. apply Hb. rewrite in_seq. lia.
Qed.

Lemma lead2 x : 0 ≤ x < 32 → let f := Z.lor 0xc0 x in 0xc0 ≤ f ≤ 0xdf ∧ Z.land f 0x1f = x.
Proof.
  intros Hx. pose proof (below_spec 32 (λ x, let f := Z.lor 0xc0 x in (0xc0 <=? f) && (f <=? 0xdf) && (Z.land f 0x1f =? x))
    eq_refl x Hx) as Hb. cbv beta zeta in *. rewrite !andb_true_iff, !Z.leb_le, Z.eqb_eq in Hb. tauto.
Qed.
Lemma lead3 x : 0 ≤ x < 16 → let f := Z.lor 0xe0 x in 0xe0 ≤ f ≤ 0xef ∧ Z.land f 0x0f = x.
Proof.
  intros Hx. pose proof (below_spec 16 (λ x, let f := Z.lor 0xe0 x in (0xe0 <=? f) && (f <=? 0xef) && (Z.land f 0x0f =? x))
    eq_refl x Hx) as Hb. cbv beta zeta in *. rewrite !andb_true_iff, !Z.leb_le, Z.eqb_eq in Hb. tauto.
Qed.
Lemma follow y : 0 ≤ y < 64 → let n := Z.lor 0x80 y in Z.land n 0xc0 = 0x80 ∧ Z.land n 0x3f = y.
Proof.
  intros Hx. pose proof (below_spec 64 (λ y, let n := Z.lor 0x80 y in (Z.land n 0xc0 =? 0x80) && (Z.land n 0x3f =? y))
    eq_refl y Hx) as Hb. cbv beta zeta in *. rewrite !andb_true_iff, !Z.eqb_eq in Hb. tauto.
Qed.

Lemma land_63 z : 0 ≤ Z.land z 0x3f < 64.
Proof. change 0x3f with (2 ^ 6 - 1). rewrite (land_ones_mod z 6) by done. apply Z.mod_pos_bound. done. Qed.

Lemma continue_step n u y rest :
  0 ≤ y < 64 → utf8_continue (S n) u (Z.lor 0x80 y :: rest) = utf8_continue n (Z.lor (u_wrap 16 (Z.shiftl u 6)) y) rest.
Proof.
  intros Hy. destruct (follow y Hy) as [H1 H2]. cbn [utf8_continue head tail]. mstep. rewrite H1. cbn [Z.eqb negb].
  by rewrite H2.
Qed.

Lemma shift_range z n k : 0 ≤ n → 0 ≤ k → 0 ≤ z < 2 ^ (n + k) → 0 ≤ Z.shiftr z n < 2 ^ k.
Proof.
  intros Hn Hk Hz. rewrite Z.shiftr_div_pow2 by done. rewrite Z.pow_add_r in Hz by done. pose proof (pow2_pos n Hn).
  split; [apply Z.div_pos; lia|]. apply Z.div_lt_upper_bound; lia.
Qed.

Lemma unit_two u rest :
  0 ≤ u ≤ 2047 →
  modified_utf8_unit ([Z.lor 0xc0 (u_wrap 8 (Z.shiftr u 6)); Z.lor 0x80 (u_wrap 8 (Z.land u 0x3f))] ++ rest) = Ok (u, rest).
Proof.
  intros Hu. pose proof (shift_range u 6 5 ltac:(lia) ltac:(lia) ltac:(lia)) as Hx. change (2 ^ 5) with 32 in Hx.
  pose proof (land_63 u) as Hy. rewrite !(u_wrap_id 8) by (unfold in_u; lia).
  destruct (lead2 _ Hx) as [Hf1 Hf2]. cbv zeta in Hf1, Hf2.
  unfold modified_utf8_unit. cbn [app head tail]. mstep.
  destruct (Z.ltb_spec (Z.lor 192 (Z.shiftr u 6)) 128); [lia|].
  destruct (Z.leb_spec 192 (Z.lor 192 (Z.shiftr u 6))), (Z.leb_spec (Z.lor 192 (Z.shiftr u 6)) 223); try lia.
  cbn [andb]. mstep. cbn [Nat.sub Nat.eqb]. rewrite Hf2, continue_step by done. cbn [utf8_continue].
  do 2 f_equal. change 0x3f with (2 ^ 6 - 1). bitwise;
    match goal with Hb : Z.testbit u ?i = true |- _ => rewrite (testbit_high 16 u) in Hb by (unfold in_u; lia) end; done.
Qed.

Lemma unit_three u rest :
  0 ≤ u < 2 ^ 16 →
  modified_utf8_unit ([Z.lor 0xe0 (u_wrap 8 (Z.shiftr u 12)); Z.lor 0x80 (u_wrap 8 (Z.land (Z.shiftr u 6) 0x3f));
     Z.lor 0x80 (u_wrap 8 (Z.land u 0x3f))] ++ rest) = Ok (u, rest).
Proof.
  intros Hu. pose proof (shift_range u 12 4 ltac:(lia) ltac:(lia) ltac:(lia)) as Hx. change (2 ^ 4) with 16 in Hx.
  pose proof (land_63 u) as Hy. pose proof (land_63 (Z.shiftr u 6)) as Hz. rewrite !(u_wrap_id 8) by (unfold in_u; lia).
  destruct (lead3 _ Hx) as [Hf1 Hf2]. cbv zeta in Hf1, Hf2.
  unfold modified_utf8_unit. cbn [app head tail]. mstep.
  destruct (Z.ltb_spec (Z.lor 224 (Z.shiftr u 12)) 128); [lia|].
  destruct (Z.leb_spec (Z.lor 224 (Z.shiftr u 12)) 223); [lia|]. rewrite andb_false_r.
  destruct (Z.leb_spec 224 (Z.lor 224 (Z.shiftr u 12))), (Z.leb_spec (Z.lor 224 (Z.shiftr u 12)) 239); try lia.
  cbn [andb]. mstep. cbn [Nat.sub Nat.eqb]. rewrite Hf2, !continue_step by done. cbn [utf8_continue].
  do 2 f_equal. change 0x3f with (2 ^ 6 - 1). bitwise;
    match goal with Hb : Z.testbit u ?i = true |- _ => rewrite (testbit_high 16 u) in Hb by (unfold in_u; lia) end; done.
Qed.

Lemma unit_roundtrip u rest : in_u 16 u → modified_utf8_unit (unit_bytes u ++ rest) = Ok (u, rest).
Proof.
  unfold in_u. intros Hu. unfold unit_bytes.
  destruct (Z.leb_spec 1 u), (Z.leb_spec u 127); cbn [andb].
  { unfold modified_utf8_unit. cbn [app head tail]. mstep. rewrite u_wrap_id by (unfold in_u; lia).
    by destruct (Z.ltb_spec u 128); [|lia]. }
  all: destruct (Z.leb_spec 0 u), (Z.leb_spec u 2047); try lia; cbn [andb];
    first [by apply unit_two; lia|apply unit_three; lia].
Qed.

Lemma string_decode s result fuel n :
  Forall (in_u 16) s → (length s ≤ fuel)%nat →
  utf8_decode_loop fuel result (string_bytes s) = Ok (result ++ s) ∧
  utf8_count_loop fuel n (string_bytes s) = Ok (n + zlen s).
Proof.
  intros Hs. revert result n fuel. induction Hs as [|u s Hu Hs IH]; intros result n fuel Hf.
  - cbn. rewrite app_nil_r. unfold zlen. cbn. rewrite Z.add_0_r. by destruct fuel.
  - destruct fuel as [|fuel]; [cbn in Hf; lia|].
    assert (Hne : ∃ b bs, unit_bytes u ++ string_bytes s = b :: bs).
    { unfold unit_bytes. repeat case_match; cbn; eauto. }
    unfold string_bytes. cbn [fmap list_fmap concat]. fold (string_bytes s). destruct Hne as (b&bs&Hb).
    pose proof (unit_roundtrip u (string_bytes s) Hu) as Hr. rewrite Hb in Hr |- *.
    cbn [utf8_decode_loop utf8_count_loop]. rewrite Hr. mstep.
    destruct (IH (result ++ [u]) (n + 1) fuel ltac:(cbn in Hf; lia)) as [-> ->].
    rewrite <- (assoc_L (++)). split; [done|]. f_equal. unfold zlen. cbn [length]. lia.
Qed.

Lemma length_string_bytes s : (length s ≤ length (string_bytes s))%nat.
Proof.
  unfold string_bytes. induction s as [|u s IH]; cbn; [lia|]. rewrite length_app.
  pose proof (length_unit_bytes u). pose proof (unit_len_pos u). unfold zlen in *. lia.
Qed.

(** ** Sorted compounds are rebuilt as they were *)

Lemma sorted_ext l1 l2 :
  sorted_entries l1 → sorted_entries l2 → (∀ e : CompoundEntry, e ∈ l1 ↔ e ∈ l2) → l1 = l2.
Proof.
  unfold sorted_entries, sorted_keys. revert l2. induction l1 as [|a l1 IH]; intros [|b l2] H1 H2 He; cbn in H1, H2.
  - done.
  - exfalso. by eapply not_elem_of_nil, (He b); left.
  - exfalso. by eapply not_elem_of_nil, (He a); left.
  - apply StronglySorted_inv in H1 as [H1 Ha]. apply StronglySorted_inv in H2 as [H2 Hb]. rewrite Forall_fmap, Forall_forall in Ha, Hb. cbn in Ha, Hb.
    assert (a = b) as ->.
    { pose proof (proj1 (He a) ltac:(by left)) as Hab. pose proof (proj2 (He b) ltac:(by left)) as Hba.
      apply elem_of_cons in Hab as [|Hab]; [done|]. apply elem_of_cons in Hba as [|Hba]; [done|].
      destruct (key_lt_irrefl (name a)). etrans; [by apply Ha|by apply Hb]. }
    f_equal. apply IH; [done|done|]. intros e. split; intros Hx.
    + pose proof (proj1 (He e) ltac:(by right)) as Hy. apply elem_of_cons in Hy as [->|]; [|done].
      by destruct (key_lt_irrefl (name b)); apply Ha.
    + pose proof (proj2 (He e) ltac:(by right)) as Hy. apply elem_of_cons in Hy as [->|]; [|done].
      by destruct (key_lt_irrefl (name b)); apply Hb.
Qed.

Lemma from_entries_sorted l : sorted_entries l → from_entries l = l.
Proof.
  intros Hs. destruct (from_entries_spec l) as [Hs' Hm]. apply sorted_ext; [done|done|]. intros [k v].
  rewrite <- (to_map_elem _ k v Hs'), Hm. rewrite <- (to_map_elem _ k v Hs).
  assert (Hin : ∀ s w, (k, s, w) ∈ number l ↔ l !! s = Some (k, w)).
  { intros s w. unfold number. rewrite list_elem_of_lookup. split.
    - intros [i Hi]. rewrite list_lookup_imap in Hi. destruct (l !! i) as [[a b]|] eqn:E; [|done]. cbn in Hi.
      by injection Hi as -> -> ->.
    - intros Hs1. exists s. apply list_lookup_imap_Some. by exists (k, w). }
  rewrite (to_map_elem _ k v Hs). unfold newest. setoid_rewrite Hin. split.
  - intros (s&Hv&_). by eapply list_elem_of_lookup_2.
  - intros [s Hv]%list_elem_of_lookup. exists s. split; [done|]. intros s' w Hw.
    by rewrite (sorted_unique name l s' s (k, w) (k, v) Hs Hw Hv eq_refl).
Qed.

Lemma sorted_canon l : sorted_entries l → sorted_entries ((λ e, (fst e, canon (snd e))) <$> l).
Proof. unfold sorted_entries, sorted_keys. by rewrite <- list_fmap_compose. Qed.

Section reads_payload.
Context `{Allocator} (tag_size entry_size : Z) (limits : Limits).
Hypothesis Hexact : exact_memory.
Hypothesis Hsizes : 0 ≤ tag_size ∧ 0 ≤ entry_size.
Hypothesis Hquota : vanilla_quota_bytes limits ≤ usize_max.
Hypothesis Halloc : allocation_bytes limits ≤ usize_max.

Notation reads := (reads limits).

(** One bind of a chain: the split of the bytes and of the costs is left to
    [reads_eq]. *)
Ltac next L := eapply reads_eq; [eapply reads_bind; [apply L|]|..].

Lemma reads_account_then {B} n (f : () → RM B) b c q k :
  0 ≤ n → reads (f tt) b c q k → reads (rbind (account limits n) f) b c (n + q) k.
Proof using Hquota.
  intros Hn Hf. apply (reads_eq limits _ ([] ++ b) c (n + q) (0 + k)); [|done..].
  eapply reads_bind; [by apply reads_account|done].
Qed.
Lemma reads_allocation_then {B} n (f : () → RM B) b c q k :
  0 ≤ n → reads (f tt) b c q k → reads (rbind (allocation limits n) f) b c q (n + k).
Proof using Halloc.
  intros Hn Hf. apply (reads_eq limits _ ([] ++ b) c (0 + q) (n + k)); [|done..].
  eapply reads_bind; [by apply reads_allocation|done].
Qed.
Lemma reads_free {A B} (m : RM A) (f : A → RM B) b1 b2 a c q k :
  reads m b1 a 0 0 → reads (f a) b2 c q k → reads (rbind m f) (b1 ++ b2) c q k.
Proof using Type. apply (reads_bind limits m f b1 b2 a c 0 q 0 k). Qed.

Lemma reads_string s units :
  Forall (in_u 16) s → zlen (string_bytes s) ≤ 65535 →
  reads (string limits units) (name_bytes s) s (if units then zlen s * 2 else 0) (zlen s * 2).
Proof using Hexact Hquota Halloc.
  intros Hs Hl. unfold string, name_bytes. unfold short.
  pose proof (reads_be limits 2 (λ b, i_wrap 16 (be_value b)) (zlen (string_bytes s))) as Hshort.
  eapply reads_free; [exact Hshort|]. rewrite (be_unsigned 2 16) by (done || (unfold in_u, zlen in *; lia)).
  apply (reads_eq limits _ (string_bytes s ++ []) s ((if units then zlen s * 2 else 0) + 0) (zlen s * 2 + 0));
    [|by rewrite app_nil_r|by rewrite Z.add_0_r..].
  eapply reads_free; [by apply reads_take|].
  pose proof (length_string_bytes s). destruct (string_decode s [] (length (string_bytes s)) 0 Hs ltac:(lia)) as [Hd Hc].
  eapply reads_lift; [exact Hc|]. rewrite Hd, Z.add_0_l. cbn [app].
  assert (Hend : reads (λ r, Ok (s, r)) [] s 0 0) by apply (reads_ret limits s).
  assert (Hl2 : 0 ≤ zlen s * 2) by (unfold zlen; lia).
  destruct units.
  - apply reads_account_then; [done|]. apply reads_allocation_then; [done|]. by apply reads_reserve.
  - apply (reads_free (rret tt) _ [] [] tt); [apply reads_ret|].
    apply reads_allocation_then; [done|]. by apply reads_reserve.
Qed.

(** The length prefix of an array: it costs its bytes, and the bytes must be there. *)
Lemma reads_array {B} n width (f : Z → RM B) b c q k :
  0 ≤ n ≤ 2 ^ 31 - 1 → 0 < width ≤ 8 → zlen b = n * width → reads (f n) b c q k →
  reads (rbind (array_length limits width) f) (be_bytes 4 n ++ b) c (24 + n * width + q) (n * width + k).
Proof using Hquota Halloc.
  intros Hn Hw Hb Hf.
  assert (Hmul : checked_mul n width = Some (n * width)).
  { unfold checked_mul, usize_max. destruct (Z.leb_spec (n * width) (2 ^ 64 - 1)); [done|nia]. }
  assert (Hlen : ∀ left, zlen b ≤ left → ensure (negb (left <? n * width)) Truncated = Ok (E := Error) tt).
  { intros left Hl. destruct (Z.ltb_spec left (n * width)); [lia|done]. }
  split; [destruct Hf; nia|]. split; [destruct Hf as (?&?&?); nia|]. intros r rest Hi Hwi.
  (* the checks of [array_length] in the order of the code, then the continuation *)
  assert (Hall : reads
    (account limits 24 ;; n <- count; bytes <- rlift (ok_or (checked_mul n width) LengthOverflow);
     account limits bytes ;; left <- available; rlift (ensure (negb (left <? bytes)) Truncated) ;;
     allocation limits bytes ;; f n) (be_bytes 4 n ++ b) c (24 + (n * width + q)) (n * width + k)).
  { apply reads_account_then; [lia|]. eapply reads_free; [by apply reads_count|].
    eapply reads_lift; [by rewrite Hmul|]. apply reads_account_then; [nia|]. apply reads_available. intros left Hl.
    eapply reads_lift; [by apply Hlen|]. by apply reads_allocation_then; [nia|]. }
  destruct Hall as (_&_&Hall). specialize (Hall r rest Hi Hwi). rewrite Z.add_assoc in Hall.
  replace (rbind (array_length limits width) f r) with
    ((account limits 24 ;; n <- count; bytes <- rlift (ok_or (checked_mul n width) LengthOverflow);
     account limits bytes ;; left <- available; rlift (ensure (negb (left <? bytes)) Truncated) ;;
     allocation limits bytes ;; f n) r); [done|].
  unfold array_length, rbind.
  repeat (match goal with |- context [?m ≫= _] =>
    lazymatch m with _ ≫= _ => fail | _ => destruct m as [[? ?]| | |] end end; mstep; [|done..]).
  done.
Qed.

Lemma reads_repeat {A X} (m : RM A) (bytes : X → list Z) (dec : X → A) (q k : X → Z) l acc :
  Forall (λ x, reads m (bytes x) (dec x) (q x) (k x)) l →
  reads (repeat_read (length l) acc m) (concat (bytes <$> l)) (acc ++ (dec <$> l)) (total_of q l) (total_of k l).
Proof using Type.
  intros Hl. revert acc. induction Hl as [|x l Hx Hl IH]; intros acc; cbn.
  - rewrite app_nil_r. apply reads_ret.
  - apply (reads_bind limits m _ _ _ (dec x)); [done|].
    replace (acc ++ dec x :: (dec <$> l)) with ((acc ++ [dec x]) ++ (dec <$> l)) by (by rewrite <- (assoc_L (++))).
    apply IH.
Qed.

Lemma total_zero {A} (l : list A) : total_of (λ _, 0) l = 0.
Proof. induction l as [|a l IH]; [done|]. exact IH. Qed.

Lemma reads_then_ret {A B} (m : RM A) (f : A → B) b a q k :
  reads m b a q k → reads (x <- m; rret (f x)) b (f a) q k.
Proof using Type.
  intros Hm. apply (reads_eq limits _ (b ++ []) (f a) (q + 0) (k + 0)); [|by rewrite ?app_nil_r, ?Z.add_0_r..].
  eapply reads_bind; [exact Hm|apply reads_ret].
Qed.

Lemma reads_numbers width (m : RM Z) (mk : list Z → Tag) l :
  (0 < width ≤ 8)%nat → zlen l ≤ 2 ^ 31 - 1 → Forall (λ v, reads m (be_bytes width v) v 0 0) l →
  reads (n <- array_length limits (Z.of_nat width); try_reserve (Z.of_nat width) n ;;
         values <- repeat_read (Z.to_nat n) [] m; rret (mk values))
    (be_bytes 4 (zlen l) ++ concat (be_bytes width <$> l)) (mk l)
    (24 + zlen l * Z.of_nat width) (zlen l * Z.of_nat width).
Proof using Hexact Hquota Halloc.
  intros Hw Hl Hm. eapply reads_eq; [apply (reads_array (zlen l) (Z.of_nat width))|done|apply Z.add_0_r|apply Z.add_0_r].
  - unfold zlen in *. lia.
  - lia.
  - unfold zlen. rewrite length_concat_be. lia.
  - apply reads_reserve; [done|]. apply reads_then_ret. unfold zlen. rewrite Nat2Z.id.
    eapply reads_eq; [|done|apply (total_zero l)|apply (total_zero l)].
    pose proof (reads_repeat m (be_bytes width) id (λ _, 0) (λ _, 0) l []) as Hr. rewrite list_fmap_id in Hr. by apply Hr.
Qed.

(** Containers *)

Lemma reads_grow len capacity :
  0 ≤ len → 1 ≤ entry_size →
  reads (grow entry_size limits len capacity) [] (grown len capacity) 0 (grow_cost entry_size len capacity).
Proof using Hexact Hquota Halloc.
  intros Hlen He. unfold grow, grown, grow_cost. destruct (len =? capacity); [|apply reads_ret].
  destruct (decide (usize_max < Z.max len 4 * 2)) as [Ho|Ho].
  { apply reads_mul; try done; [right|]; nia. }
  apply (reads_lift limits _ (Z.max len 4 * 2)); [unfold checked_mul; by destruct (Z.leb_spec (Z.max len 4 * 2) usize_max); [|lia]|].
  destruct (decide (usize_max < Z.max len 4 * 2 * entry_size)) as [Ho'|Ho'].
  { apply reads_mul; try done; [by right|nia]. }
  eapply reads_lift; [unfold checked_mul; by destruct (Z.leb_spec (Z.max len 4 * 2 * entry_size) usize_max); [|lia]|].
  rewrite <- (Z.add_0_r (_ * entry_size)) at 2. apply reads_allocation_then; [nia|].
  unfold try_reserve. rewrite Hexact. apply (reads_ret limits).
Qed.

Definition entry_bytes (e : CompoundEntry) : list Z := tag_id (snd e) :: name_bytes (fst e) ++ enc (snd e).
Definition entry_canon (e : CompoundEntry) : CompoundEntry := (fst e, canon (snd e)).
Definition entry_quota (e : CompoundEntry) : Z := 28 + zlen (fst e) * 2 + quota_cost (snd e).
Definition entry_alloc (e : CompoundEntry) : Z := zlen (fst e) * 2 + alloc_cost tag_size entry_size (snd e).

Definition entry_reads (pl : Z → nat → RM Tag) (depth : nat) (e : CompoundEntry) : Prop :=
  is_end (snd e) = false ∧ Forall (in_u 16) (fst e) ∧ zlen (string_bytes (fst e)) ≤ 65535 ∧
  reads (pl (tag_id (snd e)) depth) (enc (snd e)) (canon (snd e)) (quota_cost (snd e)) (alloc_cost tag_size entry_size (snd e)).

Lemma tag_id_range t : is_end t = false → 1 ≤ tag_id t ≤ 12.
Proof. destruct t; cbn; (done || lia). Qed.

Lemma reads_compound_loop pl depth l : 1 ≤ entry_size →
  Forall (entry_reads pl depth) l → ∀ fuel acc capacity, (length l < fuel)%nat →
  reads (compound_loop entry_size limits pl fuel depth acc capacity) (concat (entry_bytes <$> l) ++ [0])
    (acc ++ (entry_canon <$> l)) (total_of entry_quota l) (entries_cost entry_size entry_alloc (zlen acc) capacity l).
Proof using Hexact Hquota Halloc.
  intros Hes Hl. induction Hl as [|e l (He&Hn&Hnl&Hv) Hl IH]; intros fuel acc capacity Hf;
    (destruct fuel as [|fuel]; [cbn in Hf; lia|]); cbn [compound_loop].
  - cbn. rewrite app_nil_r. eapply reads_after; [apply reads_byte|]. apply reads_ret.
  - pose proof (tag_id_range _ He) as Hid.
    apply (reads_eq limits _ ([tag_id (snd e)] ++ name_bytes (fst e) ++ enc (snd e) ++ [] ++ concat (entry_bytes <$> l) ++ [0])
      (acc ++ (entry_canon <$> e :: l))
      (28 + (zlen (fst e) * 2 + (quota_cost (snd e) + (0 + total_of entry_quota l))))
      (zlen (fst e) * 2 + (alloc_cost tag_size entry_size (snd e) + (grow_cost entry_size (zlen acc) capacity +
        entries_cost entry_size entry_alloc (zlen acc + 1) (grown (zlen acc) capacity) l)))).
    2: { cbn. unfold entry_bytes at 2. cbn. f_equal. by rewrite <- !(assoc_L (++)). }
    2: { cbn. unfold entry_quota at 2. fold (total_of entry_quota l). lia. }
    2: { cbn [entries_cost]. unfold entry_alloc at 2. lia. }
    eapply reads_free; [apply reads_byte|]. destruct (Z.eqb_spec (tag_id (snd e)) 0); [lia|].
    eapply (reads_lift limits _ tt); [unfold check_id; by destruct (Z.ltb_spec 12 (tag_id (snd e))); [lia|]|].
    apply reads_account_then; [lia|]. eapply (reads_bind limits); [by apply (reads_string (fst e) true)|].
    eapply (reads_bind limits); [exact Hv|]. eapply (reads_bind limits); [apply reads_grow; [unfold zlen; lia|done]|].
    replace (acc ++ (entry_canon <$> e :: l)) with ((acc ++ [(fst e, canon (snd e))]) ++ (entry_canon <$> l))
      by (by rewrite <- (assoc_L (++))).
    replace (zlen acc + 1) with (zlen (acc ++ [(fst e, canon (snd e))])) by (unfold zlen; rewrite length_app; cbn; lia).
    apply IH. cbn in Hf. lia.
Qed.

Lemma total_nonneg {A} (f : A → Z) l : (∀ a, 0 ≤ f a) → 0 ≤ total_of f l.
Proof. intros Hf. induction l as [|a l IH]; cbn; [lia|]. specialize (Hf a). unfold total_of in IH. lia. Qed.

Lemma reads_compound pl depth l : 1 ≤ entry_size → (depth < max_depth limits)%nat →
  Forall (entry_reads pl (S depth)) l → sorted_entries l →
  reads (compound entry_size limits pl depth) (concat (entry_bytes <$> l) ++ [0]) (Compound (entry_canon <$> l))
    (48 + total_of entry_quota l + zlen l * 36) (entries_cost entry_size entry_alloc 0 0 l).
Proof using Hexact Hquota Halloc.
  intros He Hd Hl Hs. unfold compound. eapply reads_lift.
  { unfold container. by destruct (Nat.leb_spec (max_depth limits) depth); [lia|]. }
  rewrite <- Z.add_assoc. apply reads_account_then; [lia|].
  apply reads_available. intros left Hleft.
  assert (Hf : (length l < S (Z.to_nat left))%nat).
  { assert (length l ≤ length (concat (entry_bytes <$> l)))%nat; [|unfold zlen in Hleft; rewrite length_app in Hleft; lia].
    clear. induction l as [|e l IH]; [done|]. cbn. rewrite length_app. lia. }
  pose proof (reads_compound_loop pl (S depth) l He Hl _ [] 0 Hf) as Hloop.
  eapply reads_eq; [eapply (reads_bind limits); [exact Hloop|]|apply app_nil_r|done|apply Z.add_0_r].
  cbn [app]. rewrite from_entries_sorted by (by apply sorted_canon).
  assert (Hlen : zlen (entry_canon <$> l) = zlen l) by (unfold zlen; by rewrite length_fmap). rewrite Hlen.
  assert (Hn : 0 ≤ zlen l) by (unfold zlen; lia).
  destruct (decide (usize_max < zlen l * 36)).
  { apply reads_mul; try done; [by left|lia]. }
  eapply reads_lift; [unfold checked_mul; by destruct (Z.leb_spec (zlen l * 36) usize_max); [|lia]|].
  eapply reads_eq; [apply reads_account_then; [lia|apply reads_ret]|done|apply Z.add_0_r|done].
Qed.

(** Lists *)

Lemma element_type_nonzero raw l r :
  raw ≠ 0 → element_type_loop raw l = Ok r →
  Forall (λ v, is_end v = false) l ∧ (r = 10 ∨ r = raw ∧ Forall (λ v, tag_id v = raw) l).
Proof using Type.
  revert raw. induction l as [|v l IH]; intros raw Hraw; cbn [element_type_loop].
  - intros [= <-]. split; [done|by right].
  - destruct (is_end v) eqn:Ev; [done|]. destruct (Z.eqb_spec raw 0); [done|]. destruct (Z.eqb_spec raw (tag_id v)); cbn [negb].
    + intros Hr. destruct (IH raw Hraw Hr) as [Hl Hc]. split; [by constructor|].
      destruct Hc as [?|[-> Hall]]; [by left|right]. split; [done|by constructor].
    + intros Hr. destruct (IH 10 ltac:(lia) Hr) as [Hl Hc]. split; [by constructor|].
      destruct Hc as [->|[-> _]]; by left.
Qed.

Lemma element_type_spec l r :
  list_element_type l = Ok r →
  Forall (λ v, is_end v = false ∧ (r = 10 ∨ tag_id v = r)) l ∧ 0 ≤ r ≤ 12 ∧ (l ≠ [] → r ≠ 0).
Proof using Type.
  unfold list_element_type. destruct l as [|v l]; cbn [element_type_loop]; [intros [= <-]; split_and!; [constructor|lia|lia|done]|].
  destruct (is_end v) eqn:Ev; [done|]. cbn [Z.eqb]. intros Hr. pose proof (tag_id_range v Ev) as Hid.
  destruct (element_type_nonzero (tag_id v) l r ltac:(lia) Hr) as [Hends Hcase].
  destruct Hcase as [->|[-> Hall]].
  - split_and!; [|lia|lia|done]. constructor; [by auto|]. eapply Forall_impl; [exact Hends|]. auto.
  - split_and!; [|lia|lia|lia]. constructor; [by auto|]. rewrite Forall_forall in *. auto.
Qed.

Lemma enc_minimum v : is_end v = false → minimum_width (tag_id v) ≤ zlen (enc v).
Proof using Type.
  unfold zlen. destruct v; try done; intros _; cbn [enc tag_id]; cbn [minimum_width Z.eqb orb Pos.eqb];
    unfold name_bytes; rewrite ?length_app; cbn [length]; rewrite ?length_app, ?length_be_bytes; lia.
Qed.

Lemma canon_is_end v : is_end (canon v) = is_end v.
Proof using Type. by destruct v. Qed.

Lemma is_wrapper_canon l : is_wrapper (entry_canon <$> l) = is_wrapper l.
Proof using Type. by destruct l as [|[n v] [|? ?]]. Qed.

Lemma unwrap_plain v q : q = rret (canon v) → wrapped_value v = false ∨ tag_id v ≠ 10 → unwrap_element (canon v) = q.
Proof using Type.
  intros -> Hv. destruct v; try done. destruct Hv as [Hw|Hx]; [|done]. cbn [wrapped_value] in Hw.
  cbn [canon unwrap_element]. change ((λ e, (e.1, canon e.2)) <$> entries) with (entry_canon <$> entries).
  by rewrite is_wrapper_canon, Hw.
Qed.

(** One element of a list of type [raw], in its wrapper when it needs one. *)
Lemma reads_element pl raw depth v q k :
  1 ≤ entry_size → is_end v = false → raw = 10 ∨ tag_id v = raw →
  (wrapped_value v = true → raw = 10 → (depth < max_depth limits)%nat ∧
     pl 10 depth = compound entry_size limits q depth ∧ entry_reads q (S depth) ([], v)) →
  ((raw =? 10) && wrapped_value v = false →
     reads (pl (tag_id v) depth) (enc v) (canon v) (quota_cost v) (alloc_cost tag_size entry_size v)) →
  k = (raw =? 10) && wrapped_value v →
  reads (x <- pl raw depth; unwrap_element x)
    (if k then tag_id v :: 0 :: 0 :: enc v ++ [0] else enc v) (canon v)
    (if k then 48 + 28 + quota_cost v + 36 else quota_cost v)
    (if k then alloc_cost tag_size entry_size v + 8 * entry_size else alloc_cost tag_size entry_size v).
Proof using Hexact Hquota Halloc.
  intros Hes Hend Hraw Hw Hp ->. destruct ((raw =? 10) && wrapped_value v) eqn:Ek.
  - apply andb_true_iff in Ek as [->%Z.eqb_eq Hwv]. destruct (Hw Hwv eq_refl) as (Hd&->&He).
    pose proof (reads_compound q depth [([], v)] Hes Hd ltac:(by constructor) ltac:(repeat constructor)) as Hr.
    eapply reads_eq; [eapply (reads_bind limits); [exact Hr|]|..].
    + cbn. apply reads_ret.
    + unfold entry_bytes. cbn. by rewrite !app_nil_r.
    + unfold entry_quota, zlen. cbn. lia.
    + unfold entry_alloc, zlen. cbn [entries_cost]. unfold grow_cost, zlen. cbn. lia.
  - specialize (Hp eq_refl). assert (Hid : tag_id v = raw).
    { destruct Hraw as [->|]; [|done]. destruct v; done. }
    rewrite Hid in Hp. eapply reads_eq; [eapply (reads_bind limits); [exact Hp|]|by rewrite app_nil_r|apply Z.add_0_r|apply Z.add_0_r].
    rewrite (unwrap_plain v _ eq_refl); [apply reads_ret|].
    destruct (Z.eqb_spec raw 10); [left; by destruct (wrapped_value v)|right; congruence].
Qed.

(** What sizing an element or an entry says of it. *)
Lemma size_each_ok {A} (f : A → Z → outcome Error Z) l c c' :
  size_each f l c = Ok c' → Forall (λ a, ∃ c c', f a c = Ok c') l.
Proof using Type.
  revert c. induction l as [|a l IH]; intros c; [constructor|]. cbn. intros Hc.
  apply outcome_bind_ok in Hc as (c1&H1&H2). constructor; [eauto|by eapply IH].
Qed.

Lemma container_within wl depth child :
  (max_depth wl ≤ max_depth limits)%nat → container wl depth = Ok child → child = S depth ∧ (depth < max_depth limits)%nat.
Proof using Type. intros Hl [-> ?]%container_ok. lia. Qed.

Lemma size_length_ok wl n c c' : size_length wl n c = Ok c' → n ≤ 2 ^ 31 - 1.
Proof using Type.
  unfold size_length, i32_length. destruct (Z.leb_spec n (2 ^ 31 - 1)); [done|]. intros Hc. discriminate Hc.
Qed.

Lemma size_string_ok wl s c c' : size_string wl s c = Ok c' → zlen (string_bytes s) ≤ 65535.
Proof using Type.
  unfold size_string. rewrite modified_utf8_len_spec. by destruct (Z.leb_spec (zlen (string_bytes s)) 65535).
Qed.

Lemma size_array_ok wl w l c c' : size_array wl w l c = Ok c' → zlen l ≤ 2 ^ 31 - 1.
Proof using Type. unfold size_array. intros Hc. apply outcome_bind_ok in Hc as (c1&H1&_). by eapply size_length_ok. Qed.

Lemma f32_write_range b : in_u 32 b → in_u 32 (f32_to_write b).
Proof using Type. intros Hb. unfold f32_to_write. case_match; [by split|done]. Qed.
Lemma f64_write_range b : in_u 64 b → in_u 64 (f64_to_write b).
Proof using Type. intros Hb. unfold f64_to_write. case_match; [by split|done]. Qed.

Notation payload_reads wl t := (∀ depth c c', size_spec wl t depth c = Ok c' → tag_wf t → is_end t = false →
  ∀ fuel, (max_depth limits < fuel + depth)%nat → (depth ≤ max_depth limits)%nat →
  reads (read_payload tag_size entry_size limits fuel (tag_id t) depth) (enc t) (canon t)
    (quota_cost t) (alloc_cost tag_size entry_size t)) (only parsing).

Lemma reads_scalar {A B} n (m : RM A) (f : A → B) b a v :
  0 ≤ n → reads m b a 0 0 → f a = v → reads (account limits n ;; x <- m; rret (f x)) b v n 0.
Proof using Hquota.
  intros Hn Hm <-. eapply reads_eq; [apply reads_account_then; [done|by apply reads_then_ret]|done|apply Z.add_0_r|done].
Qed.

Lemma leaf_reads wl t : (∀ l, t ≠ List_ l) → (∀ l, t ≠ Compound l) → payload_reads wl t.
Proof using Hexact Hquota Halloc.
  intros Hl Hc depth c c' Hs Hw He [|fuel] Hf Hd; [lia|].
  destruct t; try done; try (by destruct (Hl v)); try (by destruct (Hc entries)); clear Hl Hc;
    cbn [read_payload tag_id Z.eqb Pos.eqb enc canon quota_cost alloc_cost]; cbn [tag_wf] in Hw; cbn [size_spec] in Hs.
  - apply (reads_scalar _ _ (λ v, Byte (i_wrap 8 v)) _ (u_wrap 8 v)); [lia|apply reads_byte|]. by rewrite i_wrap_u_wrap.
  - apply (reads_scalar _ _ Short _ v); [lia|by apply reads_short|done].
  - apply (reads_scalar _ _ Int _ v); [lia|by apply reads_int|done].
  - apply (reads_scalar _ _ Long _ v); [lia|by apply reads_long|done].
  - apply (reads_scalar _ _ (λ v, Float (f32_read (u_wrap 32 v))) _ (i_wrap 32 (be_value (be_bytes 4 (f32_to_write bits)))));
      [lia|apply (reads_be limits 4 (λ b, i_wrap 32 (be_value b)))|].
    rewrite (be_unsigned 4 32); [done|done|done|by apply f32_write_range].
  - apply (reads_scalar _ _ (λ v, Double (f64_read (u_wrap 64 v))) _ (i_wrap 64 (be_value (be_bytes 8 (f64_to_write bits)))));
      [lia|apply (reads_be limits 8 (λ b, i_wrap 64 (be_value b)))|].
    rewrite (be_unsigned 8 64); [done|done|done|by apply f64_write_range].
  - apply outcome_bind_ok in Hs as (c1&Hs%size_length_ok&_).
    eapply reads_eq; [apply (reads_array (zlen v) 1 _ (u_wrap 8 <$> v) _ 0 0); [unfold zlen in *; lia|lia|unfold zlen; rewrite length_fmap; lia|]| |lia|lia].
    + rewrite <- (app_nil_r (u_wrap 8 <$> v)) at 1.
      eapply reads_free; [apply reads_take; unfold zlen; by rewrite length_fmap|]. apply reads_reserve; [done|].
      rewrite <- list_fmap_compose. replace (ByteArray v) with (ByteArray (i_wrap 8 ∘ u_wrap 8 <$> v)); [apply reads_ret|].
      f_equal. rewrite <- (list_fmap_id v) at 2. apply list_fmap_ext. intros i x Hx.
      cbn. apply i_wrap_u_wrap; [done|]. by eapply Forall_lookup_1 in Hx.
    + done.
  - apply size_string_ok in Hs. eapply reads_eq; [apply reads_account_then; [lia|by apply reads_then_ret, (reads_string v true)]|done..].
  - apply size_array_ok in Hs. apply (reads_numbers 4 int IntArray); [lia|done|].
    eapply Forall_impl; [exact Hw|]. intros x. apply reads_int.
  - apply size_array_ok in Hs. apply (reads_numbers 8 long LongArray); [lia|done|].
    eapply Forall_impl; [exact Hw|]. intros x. apply reads_long.
Qed.

Lemma compound_reads wl l :
  (max_depth wl ≤ max_depth limits)%nat → 1 ≤ entry_size → Forall (λ e, payload_reads wl (snd e)) l →
  payload_reads wl (Compound l).
Proof using Hexact Hquota Halloc.
  intros Hm He IH depth c c' Hs Hw _ [|fuel] Hf Hd; [lia|].
  cbn [read_payload tag_id Z.eqb Pos.eqb enc canon quota_cost alloc_cost]. cbn [size_spec] in Hs.
  apply outcome_bind_ok in Hs as (child&Hch&Hs). apply (container_within wl) in Hch as [-> Hlt]; [|done].
  apply outcome_bind_ok in Hs as (c1&Hs%size_each_ok&_). apply compound_wf in Hw as [Hsorted Hw].
  apply (reads_compound (read_payload tag_size entry_size limits fuel) depth l); [done|done| |done].
  rewrite Forall_forall in *. intros e Hin. destruct (Hw e Hin) as (Hend&Hn&Hwf). destruct (Hs e Hin) as (d&d'&Hd').
  specialize (IH e Hin). destruct e as [n v]. cbn [fst snd] in *. rewrite Hend in Hd'. apply outcome_bind_ok in Hd' as (d1&_&Hd'). apply outcome_bind_ok in Hd' as (d2&Hstr&Hval).
  split_and!; [done|done|by eapply size_string_ok|]. by apply (IH (S depth) d2 d'); [..|lia|lia].
Qed.

Lemma list_reads wl l :
  (max_depth wl ≤ max_depth limits)%nat → 1 ≤ tag_size → 1 ≤ entry_size → Forall (λ v, payload_reads wl v) l →
  payload_reads wl (List_ l).
Proof using Hexact Hquota Halloc.
  intros Hm Ht He IH depth c c' Hs Hw _ [|fuel] Hf Hd; [lia|].
  cbn [read_payload tag_id Z.eqb Pos.eqb enc canon quota_cost alloc_cost]. cbn [size_spec] in Hs.
  apply outcome_bind_ok in Hs as (child&Hch&Hs). apply (container_within wl) in Hch as [-> Hlt]; [|done].
  apply outcome_bind_ok in Hs as (raw&Hraw&Hs). apply outcome_bind_ok in Hs as (c1&_&Hs).
  apply outcome_bind_ok in Hs as (c2&Hlen%size_length_ok&Hs%size_each_ok). apply list_wf in Hw.
  destruct (element_type_spec l raw Hraw) as (Htypes&Hr&Hne).
  assert (Hrt : raw_type_of l = raw) by (unfold raw_type_of; by rewrite Hraw). rewrite Hrt.
  set (elem := λ v, if (raw =? 10) && wrapped_value v then tag_id v :: 0 :: 0 :: enc v ++ [0] else enc v).
  (* every element reads back *)
  assert (Helems : Forall (λ v, reads (x <- read_payload tag_size entry_size limits fuel raw (S depth); unwrap_element x) (elem v) (canon v)
    (if wrapped_in l v then 48 + 28 + quota_cost v + 36 else quota_cost v)
    (if wrapped_in l v then alloc_cost tag_size entry_size v + 8 * entry_size else alloc_cost tag_size entry_size v)) l).
  { rewrite Forall_forall in *. intros v Hin. destruct (Hw v Hin) as [Hend Hwf]. destruct (Htypes v Hin) as [_ Hid].
    destruct (Hs v Hin) as (d&d'&Hv). unfold wrapped_in. rewrite Hrt. destruct fuel as [|fuel]; [lia|].
    apply (reads_element _ raw (S depth) v (read_payload tag_size entry_size limits fuel)); [done|done|done| | |done].
    - intros Hwv ->. cbn [Z.eqb Pos.eqb andb] in Hv. rewrite Hwv in Hv. cbn [andb] in Hv.
      apply outcome_bind_ok in Hv as (ch&Hch&Hv). apply (container_within wl) in Hch as [-> Hlt2]; [|done].
      apply outcome_bind_ok in Hv as (d1&_&Hv). apply outcome_bind_ok in Hv as (d2&_&Hv). apply outcome_bind_ok in Hv as (d3&Hv&_).
      split; [done|]. split; [done|]. split_and!; [done|constructor|done|].
      by apply (IH v Hin (S (S depth)) d2 d3); [..|lia|lia].
    - intros Hk. rewrite Hk in Hv. by apply (IH v Hin (S depth) d d'); [..|lia|lia]. }
  assert (Hmin : zlen l * minimum_width raw ≤ zlen (concat (elem <$> l))).
  { assert (Hall : Forall (λ v, minimum_width raw ≤ zlen (elem v)) l).
    { rewrite Forall_forall in *. intros v Hin. destruct (Hw v Hin) as [Hend _]. destruct (Htypes v Hin) as [_ Hid]. unfold elem.
      destruct ((raw =? 10) && wrapped_value v) eqn:Ek.
      - apply andb_true_iff in Ek as [->%Z.eqb_eq _]. unfold zlen. cbn. lia.
      - destruct Hid as [->|<-]; [|by apply enc_minimum]. cbn. pose proof (enc_minimum v Hend).
        assert (1 ≤ minimum_width (tag_id v)); [|lia]. unfold minimum_width. repeat case_match; lia. }
    clear -Hall. unfold zlen in *. induction Hall as [|v l Hv Hall IHl]; [done|]. cbn. rewrite length_app. lia. }
  assert (Hn0 : 0 ≤ zlen l) by (unfold zlen; lia).
  unfold list_. eapply reads_lift; [unfold container; by destruct (Nat.leb_spec (max_depth limits) depth); [lia|]|].
  rewrite <- Z.add_assoc. apply reads_account_then; [lia|].
  change (raw :: be_bytes 4 (zlen l) ++ ?x) with ([raw] ++ be_bytes 4 (zlen l) ++ x).
  eapply reads_free; [apply reads_byte|]. eapply reads_free; [apply reads_count; lia|].
  apply (reads_free _ _ [] _ tt).
  { destruct (Z.eqb_spec (zlen l) 0) as [|Hnz]; cbn [negb]; [apply reads_ret|].
    assert (raw ≠ 0) by (apply Hne; intros ->; done).
    eapply (reads_lift limits _ tt); [by destruct (Z.eqb_spec raw 0)|].
    unfold check_id. destruct (Z.ltb_spec 12 raw); [lia|]. apply (reads_ret limits). }
  eapply reads_lift; [unfold checked_mul, usize_max; by destruct (Z.leb_spec (zlen l * 4) (2 ^ 64 - 1)); [|lia]|].
  apply reads_account_then; [lia|].
  assert (Hmw : 1 ≤ minimum_width raw ≤ 8) by (unfold minimum_width; repeat case_match; lia).
  eapply reads_lift; [unfold checked_mul, usize_max; by destruct (Z.leb_spec (zlen l * minimum_width raw) (2 ^ 64 - 1)); [|nia]|].
  apply reads_available. intros left Hleft.
  assert (Hleft' : zlen (concat (elem <$> l)) ≤ left) by exact Hleft.
  eapply reads_lift; [unfold ensure; by destruct (Z.ltb_spec left (zlen l * minimum_width raw)); [lia|]|].
  pose proof (reads_repeat _ elem canon _ _ l [] Helems) as (Hq&Hk&Hrep).
  destruct (decide (usize_max < zlen l * tag_size)).
  { apply reads_mul; try done; [right|]; lia || nia. }
  eapply reads_lift; [unfold checked_mul; by destruct (Z.leb_spec (zlen l * tag_size) usize_max); [|lia]|].
  apply reads_allocation_then; [nia|]. apply reads_reserve; [done|]. apply reads_then_ret.
  unfold zlen. rewrite Nat2Z.id. by split.
Qed.

(** Every tree the writer accepts reads back. *)
Lemma reads_payload wl t :
  (max_depth wl ≤ max_depth limits)%nat → 1 ≤ tag_size → 1 ≤ entry_size → payload_reads wl t.
Proof using Hexact Hquota Halloc.
  intros Hm Ht He. induction t as [t Hl Hc|l IH|l IH] using tag_induction.
  - by apply leaf_reads.
  - by apply list_reads.
  - by apply compound_reads.
Qed.
End reads_payload.

(** ** The entry points *)

Section roundtrip.
Context `{Allocator} (tag_size entry_size : Z) (wl limits : Limits).

Lemma write_network_ok t w w' :
  write_network t w wl = (Ok tt, w') →
  output w' = output w ++ tag_id t :: enc t ∧ ∃ c n, size_spec wl t 0 c = Ok n.
Proof.
  unfold write_network. destruct (limits_validate wl); try done. intros Hw.
  pose proof (finish_writes _ _ _ w (writes_seq (length (output w)) _ _ _ _ _ _
    (writes_bytes wl (length (output w)) 1 [tag_id t] eq_refl) (writes_payload wl (length (output w)) t 0))) as Hf.
  unfold write_byte in Hw. rewrite Hw in Hf. cbv beta in Hf.
  destruct (size_add wl 1 0) as [c|e| |]; mstep in Hf; [|destruct Hf as (?&?&Hx&_); discriminate Hx|done|done].
  destruct (size_spec wl t 0 c) as [n|e| |] eqn:E; [|destruct Hf as (?&?&Hx&_); discriminate Hx|done|done].
  destruct Hf as [[_ [c' Hx]]|(_&_&c'&Hx)]; [|discriminate Hx]. injection Hx as ->. eauto.
Qed.

Lemma write_named_ok t w w' :
  write_named t w wl = (Ok tt, w') →
  output w' = output w ++ enc_named t ∧
  (is_end (root_tag t) = true ∧ root_name t = [] ∨
   is_end (root_tag t) = false ∧ zlen (string_bytes (root_name t)) ≤ 65535 ∧ ∃ c n, size_spec wl (root_tag t) 0 c = Ok n).
Proof.
  unfold write_named. destruct (limits_validate wl); try done. intros Hw.
  pose proof (finish_writes _ _ _ w (writes_named_root wl (length (output w)) t)) as Hf.
  rewrite Hw in Hf. cbv beta in Hf. destruct (is_end (root_tag t)).
  - destruct (Nat.eqb_spec (length (root_name t)) 0) as [Hl|]; [|destruct Hf as (?&?&Hx&_); discriminate Hx].
    destruct (size_add wl 1 0) as [c|e| |]; [|destruct Hf as (?&?&Hx&_); discriminate Hx|done|done].
    destruct Hf as [[_ [c' Hx]]|(_&_&c'&Hx)]; [|discriminate Hx]. injection Hx as ->.
    split; [done|left]. split; [done|by apply nil_length_inv].
  - destruct (size_add wl 1 0) as [c|e| |]; mstep in Hf; [|destruct Hf as (?&?&Hx&_); discriminate Hx|done|done].
    destruct (size_string wl (root_name t) c) as [c1|e| |] eqn:E1; mstep in Hf; [|destruct Hf as (?&?&Hx&_); discriminate Hx|done|done].
    destruct (size_spec wl (root_tag t) 0 c1) as [n|e| |] eqn:E; [|destruct Hf as (?&?&Hx&_); discriminate Hx|done|done].
    destruct Hf as [[_ [c' Hx]]|(_&_&c'&Hx)]; [|discriminate Hx]. injection Hx as ->.
    split; [done|right]. split; [done|]. split; [by eapply size_string_ok|eauto].
Qed.

(** The reader's target and its budgets, as the platform and the configuration fix them. *)
Definition reader_config : Prop :=
  exact_memory ∧ 1 ≤ tag_size ∧ 1 ≤ entry_size ∧
  0 ≤ vanilla_quota_bytes limits ≤ usize_max ∧ 0 ≤ allocation_bytes limits ≤ usize_max ∧
  (max_depth wl ≤ max_depth limits ≤ 512)%nat.

Lemma validate_config : reader_config → limits_validate limits = Ok tt.
Proof. intros (_&_&_&_&_&?). unfold limits_validate. by destruct (Nat.ltb_spec 512 (max_depth limits)); [lia|]. Qed.

Lemma payload_config t fuel c n :
  reader_config → tag_wf t → is_end t = false → size_spec wl t 0 c = Ok n → fuel = depth_fuel limits →
  reads limits (read_payload tag_size entry_size limits fuel (tag_id t) 0) (enc t) (canon t)
    (quota_cost t) (alloc_cost tag_size entry_size t).
Proof.
  intros (Hx&Ht&He&Hq&Ha&Hd) Hwf Hend Hs ->.
  by apply (reads_payload tag_size entry_size limits Hx ltac:(lia) ltac:(lia) wl t ltac:(lia) Ht He 0%nat c n);
    [..|unfold depth_fuel; lia|lia].
Qed.

(** The root as the reader sees it. *)
Lemma root_reads {A} (m : RM A) b a q k rest :
  reader_config → reads limits m b a q k →
  if (q <=? vanilla_quota_bytes limits) && (k <=? allocation_bytes limits)
  then m (new_reader (b ++ rest)) = Ok (a, {| input := rest; quota := q; allocation_ := k |})
  else ∃ e, m (new_reader (b ++ rest)) = Err e ∧ over_budget e.
Proof.
  intros (_&_&_&Hq&Ha&_) (_&_&Hm). apply (Hm (new_reader (b ++ rest)) rest eq_refl). unfold within. cbn. lia.
Qed.
End roundtrip.

(** ** Properties *)

(** C9. Reading is safe on any bytes, under any limits and any allocator: both
    forms return or fail with a typed error, without panic and within the
    recursion and loop bounds.  A tag read is well formed (integers in range,
    compounds sorted with distinct keys, no End inside a container), its
    nesting respects the depth limit and its charged bytes the budget, and
    the input left is a proper suffix. *)
Theorem read_is_safe `{Allocator} tag_size entry_size limits bytes :
  0 ≤ tag_size ∧ 0 ≤ entry_size → bytes_ok bytes →
  match read_network_accounted tag_size entry_size limits bytes with
  | Ok (t, used, rest) => read_ok limits bytes t rest ∧ 0 ≤ used ≤ Z.max 0 (allocation_bytes limits)
  | Err _ => True
  | Panic | NoFuel => False
  end ∧
  match read_named tag_size entry_size limits bytes with
  | Ok (t, rest) => read_ok limits bytes (root_tag t) rest ∧ Forall (in_u 16) (root_name t) ∧
      (is_end (root_tag t) = true → root_name t = [])
  | Err _ => True
  | Panic | NoFuel => False
  end.
Proof. intros Hs Hb. split; [by apply read_network_safe|by apply read_named_safe]. Qed.

(** C14. Network round trip: what [write_network] appends for a well-formed tag,
    followed by anything, reads back as the tag with its floats canonical and
    leaves the rest, using exactly the stated quota and bytes; if and only if
    one of these exceeds its limit the read fails, for that reason. *)
Theorem network_roundtrip `{Allocator} tag_size entry_size wl limits t w w' :
  reader_config tag_size entry_size wl limits → tag_wf t → write_network t w wl = (Ok tt, w') →
  ∃ bytes, output w' = output w ++ bytes ∧ ∀ rest,
    if (quota_cost t <=? vanilla_quota_bytes limits) && (alloc_cost tag_size entry_size t <=? allocation_bytes limits)
    then read_network_accounted tag_size entry_size limits (bytes ++ rest) =
      Ok (canon t, alloc_cost tag_size entry_size t, rest)
    else ∃ e, read_network_accounted tag_size entry_size limits (bytes ++ rest) = Err e ∧ over_budget e.
Proof.
  intros Hc Hwf Hw. destruct (write_network_ok wl t w w' Hw) as [Ho (c&n&Hs)].
  exists (tag_id t :: enc t). split; [done|]. intros rest.
  unfold read_network_accounted. rewrite (validate_config _ _ _ _ Hc). mstep.
  assert (Hr : reads limits (id <- byte; if id =? 0 then rret End else read_payload tag_size entry_size limits (depth_fuel limits) id 0)
    (tag_id t :: enc t) (canon t) (quota_cost t) (alloc_cost tag_size entry_size t)).
  { apply (reads_free limits _ _ [tag_id t] (enc t) (tag_id t)); [apply reads_byte|].
    destruct (is_end t) eqn:Eend; [destruct t; try done; apply (reads_ret limits)|].
    pose proof (tag_id_range t Eend). destruct (Z.eqb_spec (tag_id t) 0); [lia|].
    by apply (payload_config tag_size entry_size wl limits t _ c n). }
  pose proof (root_reads _ _ _ _ _ _ _ _ _ rest Hc Hr) as Hroot. case_match.
  - by rewrite Hroot.
  - destruct Hroot as (e&->&?). eauto.
Qed.

(** Disk round trip: the named form of a well-formed tag reads back with
    its name, whose units are charged as memory but not to the quota. *)
Theorem named_roundtrip `{Allocator} tag_size entry_size wl limits t w w' :
  reader_config tag_size entry_size wl limits → tag_wf (root_tag t) → Forall (in_u 16) (root_name t) →
  write_named t w wl = (Ok tt, w') →
  ∃ bytes, output w' = output w ++ bytes ∧ ∀ rest,
    if (quota_cost (root_tag t) <=? vanilla_quota_bytes limits) &&
       (zlen (root_name t) * 2 + alloc_cost tag_size entry_size (root_tag t) <=? allocation_bytes limits)
    then read_named tag_size entry_size limits (bytes ++ rest) =
      Ok ({| root_name := root_name t; root_tag := canon (root_tag t) |}, rest)
    else ∃ e, read_named tag_size entry_size limits (bytes ++ rest) = Err e ∧ over_budget e.
Proof.
  intros Hc Hwf Hname Hw. destruct (write_named_ok wl t w w' Hw) as [Ho Hcase].
  exists (enc_named t). split; [done|]. intros rest.
  unfold read_named. rewrite (validate_config _ _ _ _ Hc). mstep.
  match goal with |- context [rbind byte ?f] =>
    assert (Hr : reads limits (rbind byte f) (enc_named t) {| root_name := root_name t; root_tag := canon (root_tag t) |}
      (quota_cost (root_tag t)) (zlen (root_name t) * 2 + alloc_cost tag_size entry_size (root_tag t))) end.
  { unfold enc_named. destruct Hcase as [[He Hn]|(He&Hl&c&n&Hs)]; rewrite He.
    - rewrite Hn. destruct (root_tag t); try done. apply (reads_after limits byte _ [0] 0); [apply reads_byte|apply (reads_ret limits)].
    - destruct Hc as (Hx&Ht&Hes&Hq&Ha&Hd). pose proof (tag_id_range _ He) as Hid.
      apply (reads_free limits _ _ [tag_id (root_tag t)] _ (tag_id (root_tag t))); [apply reads_byte|].
      destruct (Z.eqb_spec (tag_id (root_tag t)) 0); [lia|].
      eapply (reads_lift limits _ tt); [unfold check_id; by destruct (Z.ltb_spec 12 (tag_id (root_tag t))); [lia|]|].
      eapply reads_eq; [eapply (reads_bind limits _ _ (name_bytes (root_name t)) (enc (root_tag t)) (root_name t) _
        0 (quota_cost (root_tag t)) (zlen (root_name t) * 2) (alloc_cost tag_size entry_size (root_tag t)))|done..].
      + by apply (reads_string limits Hx ltac:(lia) ltac:(lia) (root_name t) false).
      + apply (reads_then_ret limits _ (λ tag, {| root_name := root_name t; root_tag := tag |})).
        by apply (payload_config tag_size entry_size wl limits (root_tag t) _ c n). }
  pose proof (root_reads _ _ _ _ _ _ _ _ _ rest Hc Hr) as Hroot. case_match.
  - by rewrite Hroot.
  - destruct Hroot as (e&->&?). eauto.
Qed.

(** ** The properties at concrete inputs *)

Definition sample_limits : Limits :=
  {| max_depth := 8; vanilla_quota_bytes := 1000; allocation_bytes := 4000; output_bytes := 1000 |}.
Definition sample_tag : Tag :=
  Compound [([97], Float (2 ^ 31)); ([98], List_ [Byte (-1); String_ [0x4e2d; 0]; Compound [([], Int 7)]])].

Lemma sample_wf : tag_wf sample_tag.
Proof. repeat (split || constructor || done). Qed.

Lemma read_is_safe_witness :
  match read_network_accounted 32 48 sample_limits [10; 1; 0; 1; 97; 255; 9] with
  | Err e => e = Truncated
  | _ => False
  end.
Proof.
  assert (Hb : bytes_ok [10; 1; 0; 1; 97; 255; 9]) by (repeat (apply Forall_cons; split; [by split|]); constructor).
  destruct (read_is_safe 32 48 sample_limits _ ltac:(lia) Hb) as [H _].
  vm_compute in H |- *. reflexivity.
Defined.

Lemma network_roundtrip_witness :
  exists bytes w', write_network sample_tag {| output := [5]; wcap := 1 |} sample_limits = (Ok tt, w') /\
    output w' = [5] ++ bytes /\
    read_network_accounted 32 48 sample_limits (bytes ++ [1; 2]) = Ok (canon sample_tag, alloc_cost 32 48 sample_tag, [1; 2]).
Proof.
  assert (Hc : reader_config 32 48 sample_limits sample_limits) by (split; [apply exact_memory_holds|cbn; unfold usize_max; lia]).
  eexists _, _. split; [vm_compute; reflexivity|].
  destruct (network_roundtrip 32 48 sample_limits sample_limits sample_tag {| output := [5]; wcap := 1 |} _ Hc sample_wf
    ltac:(vm_compute; reflexivity)) as (bytes&Hb&Hr).
  specialize (Hr [1; 2]). cbn in Hb. injection Hb as <-. split; [reflexivity|]. vm_compute in Hr |- *. exact Hr.
Defined.

Lemma named_roundtrip_witness :
  exists bytes w', write_named {| root_name := [98]; root_tag := sample_tag |} {| output := []; wcap := 0 |} sample_limits = (Ok tt, w') /\
    output w' = bytes /\
    read_named 32 48 sample_limits (bytes ++ [3]) = Ok ({| root_name := [98]; root_tag := canon sample_tag |}, [3]).
Proof.
  assert (Hc : reader_config 32 48 sample_limits sample_limits) by (split; [apply exact_memory_holds|cbn; unfold usize_max; lia]).
  eexists _, _. split; [vm_compute; reflexivity|].
  destruct (named_roundtrip 32 48 sample_limits sample_limits {| root_name := [98]; root_tag := sample_tag |} {| output := []; wcap := 0 |} _
    Hc sample_wf ltac:(repeat constructor; done) ltac:(vm_compute; reflexivity)) as (bytes&Hb&Hr).
  specialize (Hr [3]). cbn in Hb. subst bytes. split; [reflexivity|]. vm_compute in Hr |- *. exact Hr.
Defined.
