(* ===== verification/NbtPredicateFacts.v ===== *)
(** * NBT comparison: what the walk computes

    [answer] is the result a walk stands for and [bill] the work it may still
    need, both by the trees on its stack.  A turn keeps the first and pays from
    the second, so a comparison returns [tag_matches] or says which limit is too
    small. *)

From stdpp Require Import list.
From S2P Require Import Prelude.
From S2P Require Import Sorted.
From S2P Require Import Nbt.
From S2P Require Import NbtRead.
From S2P Require Import NbtPredicate.
Local Open Scope Z_scope.
Local Open Scope meter_scope.

(** ** Trees in memory *)

(** Compounds sorted by key, in the whole tree. *)
Fixpoint keys_sorted (t : Tag) : Prop :=
  match t with
  | List_ l => each keys_sorted l
  | Compound l => sorted_entries l ∧ each (λ e, keys_sorted (snd e)) l
  | _ => True
  end.

Fixpoint subtree (t : Tag) (path : list nat) : option Tag :=
  match path with
  | [] => Some t
  | i :: path =>
      match t with
      | List_ l => t ← l !! i; subtree t path
      | Compound l => e ← l !! i; subtree (value e) path
      | _ => None
      end
  end.

(** The trees a program holds, by root. *)
Definition Memory := nat → option Tag.
Definition memory_sorted (roots : Memory) : Prop := ∀ i t, roots i = Some t → keys_sorted t.
Definition points_to (roots : Memory) (r : Ref) : Prop :=
  (t ← roots (place r).1; subtree t (place r).2) = Some (tag r).
Definition opt_points_to (roots : Memory) (o : option Ref) : Prop := ∀ r, o = Some r → points_to roots r.

(** ** The meaning and the price of a walk *)

Definition opt_matches (mode : Mode) (e a : option Tag) : bool :=
  match e, a with None, _ => true | Some _, None => false | Some e, Some a => tag_matches mode e a end.

Definition some_match (x : Tag) (ys : list Tag) : bool := existsb (tag_matches PartialLists x) ys.

(** The result of a frame, given that of its current child. *)
Definition frame_answer (f : Frame) (b : bool) : bool :=
  match f with
  | FCompound _ es _ as_ next mode => b && forallb (λ e, opt_matches mode (Some (value e)) (find_value as_ (name e))) (drop next es)
  | FSequence _ es _ as_ next => b && list_eqb (tag_matches Exact) (drop next es) (drop next as_)
  | FPartialList _ es _ as_ i j =>
      (b || match es !! i with Some x => some_match x (drop (S j) as_) | None => false end) &&
      forallb (λ x, some_match x as_) (drop (S i) es)
  end.

Definition current_answer (w : Walk) : bool :=
  match current w with Some (e, a, mode) => opt_matches mode (tag <$> e) (tag <$> a) | None => matched w end.
Definition answer (w : Walk) : bool := fold_left (λ b f, frame_answer f b) (frames w) (current_answer w).

(** Work of a key search, and of a comparison of strings or arrays. *)
Definition search_bill (entries : list CompoundEntry) (key : NbtString) : nat := length entries * S (length key).

Fixpoint tag_bill (mode : Mode) (e a : Tag) {struct e} : nat :=
  S (match e, a with
     | Compound es, Compound as_ =>
         (fix all es := match es with
           | [] => O
           | (n, x) :: es => search_bill as_ n + match find_value as_ n with Some v => tag_bill mode x v | None => 1 end + all es
           end) es
     | List_ es, List_ as_ =>
         if bool_decide (mode = PartialLists) then
           (fix all es := match es with [] => O | x :: es => sum_list_with (tag_bill PartialLists x) as_ + all es end) es
         else
           (fix all es as_ := match es, as_ with x :: es, y :: as_ => tag_bill Exact x y + all es as_ | _, _ => O end) es as_
     | String_ l, String_ _ | ByteArray l, ByteArray _ | IntArray l, IntArray _ | LongArray l, LongArray _ => length l
     | _, _ => O
     end)%nat.

Definition opt_bill (mode : Mode) (e a : option Tag) : nat :=
  match e, a with Some e, Some a => tag_bill mode e a | _, _ => 1 end.
Definition entry_bill (mode : Mode) (as_ : list CompoundEntry) (e : CompoundEntry) : nat :=
  (search_bill as_ (name e) + opt_bill mode (Some (value e)) (find_value as_ (name e)))%nat.
Fixpoint pair_bill (es as_ : list Tag) : nat :=
  match es, as_ with x :: es, y :: as_ => (tag_bill Exact x y + pair_bill es as_)%nat | _, _ => O end.
Definition some_bill (ys : list Tag) (x : Tag) : nat := sum_list_with (tag_bill PartialLists x) ys.

Definition frame_bill (f : Frame) : nat :=
  match f with
  | FCompound _ es _ as_ next mode => sum_list_with (entry_bill mode as_) (drop next es)
  | FSequence _ es _ as_ next => pair_bill (drop next es) (drop next as_)
  | FPartialList _ es _ as_ i j =>
      match es !! i with Some x => some_bill (drop (S j) as_) x | None => O end + sum_list_with (some_bill as_) (drop (S i) es)
  end.
Definition current_bill (w : Walk) : nat :=
  match current w with Some (e, a, mode) => opt_bill mode (tag <$> e) (tag <$> a) | None => O end.
Definition bill (w : Walk) : nat := (current_bill w + sum_list_with frame_bill (frames w))%nat.

(** ** Equations *)

Lemma compound_matches mode es as_ :
  tag_matches mode (Compound es) (Compound as_) =
  (length es <=? length as_)%nat && (negb (bool_decide (mode = Exact)) || (length es =? length as_)%nat) &&
  forallb (λ e, opt_matches mode (Some (value e)) (find_value as_ (name e))) es.
Proof. cbn [tag_matches]. f_equal. induction es as [|[n x] es IH]; [done|]. cbn [forallb]. by rewrite <- IH. Qed.

Lemma partial_matches es as_ :
  es ≠ [] → tag_matches PartialLists (List_ es) (List_ as_) =
  (length es <=? length as_)%nat && forallb (λ x, some_match x as_) es.
Proof.
  intros Hne. cbn [tag_matches]. destruct es as [|x es]; [done|]. by rewrite bool_decide_eq_true_2 by done.
Qed.

Lemma sequence_matches mode es as_ :
  es ≠ [] → mode ≠ PartialLists → length es = length as_ →
  tag_matches mode (List_ es) (List_ as_) = list_eqb (tag_matches Exact) es as_.
Proof.
  intros Hne Hm Hl. cbn [tag_matches]. destruct es as [|x es]; [done|]. rewrite bool_decide_eq_false_2 by done.
  rewrite Hl, Nat.eqb_refl, andb_true_l. destruct as_ as [|y r]; [done|]. cbn [list_eqb]. f_equal.
  injection Hl as Hl. clear Hne. revert r Hl. induction es as [|z l IH]; intros [|w r] Hl; [done..|].
  cbn [list_eqb]. injection Hl as Hl. by rewrite <- IH.
Qed.

Lemma sequence_lengths mode es as_ :
  es ≠ [] → mode ≠ PartialLists → length es ≠ length as_ → tag_matches mode (List_ es) (List_ as_) = false.
Proof.
  intros Hne Hm Hl. cbn [tag_matches]. destruct es as [|x es]; [done|]. rewrite bool_decide_eq_false_2 by done.
  by rewrite (proj2 (Nat.eqb_neq _ _) Hl).
Qed.

Lemma compound_bill mode es as_ : tag_bill mode (Compound es) (Compound as_) = S (sum_list_with (entry_bill mode as_) es).
Proof.
  cbn [tag_bill]. f_equal. induction es as [|[n x] es IH]; [done|]. cbn [sum_list_with]. rewrite <- IH. unfold entry_bill. cbn [name value fst snd opt_bill].
  by destruct (find_value as_ n).
Qed.
Lemma partial_bill es as_ : tag_bill PartialLists (List_ es) (List_ as_) = S (sum_list_with (some_bill as_) es).
Proof.
  cbn [tag_bill]. by rewrite bool_decide_eq_true_2 by done.
Qed.
Lemma sequence_bill mode es as_ : mode ≠ PartialLists → tag_bill mode (List_ es) (List_ as_) = S (pair_bill es as_).
Proof. intros Hm. cbn [tag_bill]. by rewrite bool_decide_eq_false_2 by done. Qed.
Lemma tag_bill_pos mode e a : (1 ≤ tag_bill mode e a)%nat.
Proof. destruct e; cbn; lia. Qed.

(** ** Search and reflexivity *)

Lemma find_value_at es i e : sorted_entries es → es !! i = Some e → find_value es (name e) = Some (value e).
Proof.
  intros Hs Hi. unfold find_value. destruct (List.find _ es) as [e'|] eqn:Hf.
  - apply List.find_some in Hf as [Hin Hn%bool_decide_eq_true_1]. apply list_elem_of_In, list_elem_of_lookup in Hin as [j Hj].
    rewrite (sorted_unique name es j i e' e Hs Hj Hi Hn) in Hj. naive_solver.
  - eapply List.find_none in Hf; [|apply list_elem_of_In; by eapply list_elem_of_lookup_2].
    by rewrite bool_decide_eq_true_2 in Hf.
Qed.

Lemma find_value_none es k : (∀ e, e ∈ es → name e ≠ k) → find_value es k = None.
Proof.
  intros Hn. unfold find_value. destruct (List.find _ es) as [e'|] eqn:Hf; [|done].
  apply List.find_some in Hf as [Hin Hk%bool_decide_eq_true_1]. by destruct (Hn e'); [apply list_elem_of_In|].
Qed.

Lemma find_value_some es k v : find_value es k = Some v → ∃ e, e ∈ es ∧ name e = k ∧ value e = v.
Proof.
  unfold find_value. destruct (List.find _ es) as [e|] eqn:Hf; [|done]. intros [= <-].
  apply List.find_some in Hf as [Hin Hk%bool_decide_eq_true_1]. exists e. by rewrite list_elem_of_In.
Qed.

Lemma list_eqb_refl {A} (f : A → A → bool) l : Forall (λ x, f x x = true) l → list_eqb f l l = true.
Proof. induction 1 as [|x l Hx _ IH]; [done|]. cbn. by rewrite Hx, IH. Qed.

Lemma keys_sorted_list l : keys_sorted (List_ l) ↔ Forall keys_sorted l.
Proof. apply each_Forall. Qed.
Lemma keys_sorted_compound l : keys_sorted (Compound l) ↔ sorted_entries l ∧ Forall (λ e, keys_sorted (value e)) l.
Proof. cbn [keys_sorted]. by rewrite each_Forall. Qed.

(** The shortcut for one tag behind both references is right. *)
Lemma tag_matches_refl t : keys_sorted t → ∀ mode, tag_matches mode t t = true.
Proof.
  induction t as [t Hl Hc|l IH|l IH] using tag_induction; intros Hs mode.
  - assert (Hz : ∀ l, list_eqb Z.eqb l l = true) by (intros; apply list_eqb_refl, Forall_forall; intros; apply Z.eqb_refl).
    destruct t; try (by destruct (Hl v)); try (by destruct (Hc entries)); cbn; rewrite ?Z.eqb_refl; auto.
  - apply keys_sorted_list in Hs. destruct l as [|x l]; [done|].
    assert (Hm : Forall (λ x, ∀ mode, tag_matches mode x x = true) (x :: l)) by (apply Forall_lookup; intros i y Hy; eapply Forall_lookup_1 in IH; [|exact Hy]; apply IH; by eapply Forall_lookup_1).
    destruct (decide (mode = PartialLists)) as [->|Hp].
    + rewrite partial_matches, Nat.leb_refl by done. apply List.forallb_forall. intros y Hy. apply List.existsb_exists. exists y.
      split; [done|]. rewrite Forall_forall in Hm. by apply Hm, list_elem_of_In.
    + rewrite sequence_matches by done. apply list_eqb_refl. eapply Forall_impl; [exact Hm|]. auto.
  - apply keys_sorted_compound in Hs as [Hs Hall]. rewrite compound_matches, Nat.leb_refl, Nat.eqb_refl, orb_true_r. cbn [andb].
    apply List.forallb_forall. intros e He. apply list_elem_of_In, list_elem_of_lookup in He as [i Hi].
    rewrite (find_value_at l i e Hs Hi). cbn [opt_matches]. eapply Forall_lookup_1 in IH; [|exact Hi]. apply IH. by eapply Forall_lookup_1 in Hall.
Qed.

(** ** References *)

Lemma subtree_app t p q : subtree t (p ++ q) = (t ← subtree t p; subtree t q).
Proof. revert t. induction p as [|i p IH]; intros t; [done|]. destruct t; cbn; try done; destruct (_ !! i); cbn; auto. Qed.

Lemma points_to_sorted roots r : memory_sorted roots → points_to roots r → keys_sorted (tag r).
Proof.
  unfold points_to. intros Hm Hr. destruct (roots (place r).1) as [t|] eqn:Ht; [|done]. cbn in Hr. apply Hm in Ht. revert t Ht Hr.
  induction (place r).2 as [|i p IH]; intros t Ht Hr; [by injection Hr as <-|]. destruct t; try done; cbn in Hr.
  - apply keys_sorted_list in Ht. destruct (v !! i) as [x|] eqn:Hx; [|done]. eapply IH; [|exact Hr]. by eapply Forall_lookup_1.
  - apply keys_sorted_compound in Ht as [_ Ht]. destruct (entries !! i) as [x|] eqn:Hx; [|done]. eapply IH; [|exact Hr]. exact (Forall_lookup_1 _ _ _ _ Ht Hx).
Qed.

Lemma points_to_unique roots r s : points_to roots r → points_to roots s → place r = place s → tag r = tag s.
Proof. unfold points_to. intros Hr Hs E. rewrite E in Hr. congruence. Qed.

Lemma points_to_child roots p t i x :
  points_to roots {| place := p; tag := t |} → subtree t [i] = Some x → points_to roots (child_ref p i x).
Proof.
  unfold points_to, child_ref. cbn [place tag fst snd]. intros Hp Hx. destruct (roots p.1) as [r|]; [|done]. cbn in Hp |- *.
  by rewrite subtree_app, Hp.
Qed.
Lemma points_to_item roots p l i x : points_to roots {| place := p; tag := List_ l |} → l !! i = Some x → points_to roots (child_ref p i x).
Proof. intros Hp Hx. eapply points_to_child; [exact Hp|]. cbn. by rewrite Hx. Qed.
Lemma points_to_entry roots p l i e : points_to roots {| place := p; tag := Compound l |} → l !! i = Some e → points_to roots (child_ref p i (value e)).
Proof. intros Hp Hx. eapply points_to_child; [exact Hp|]. cbn. by rewrite Hx. Qed.
