(* ===== verification/NbtPredicateWalk.v ===== *)
(** * NBT comparison: the bill of every step

    [bills bad price c P]: the metered step [c] neither panics nor runs out of
    fuel, gives no budget back, and either yields a value for which [P] holds
    (of the work spent), or has run out of work with less than [price] to
    spend, or fails with a [bad] error. *)

From stdpp Require Import list.
From S2P Require Import Prelude.
From S2P Require Import Sorted.
From S2P Require Import Nbt.
From S2P Require Import NbtRead.
From S2P Require Import NbtPredicate.
From S2P Require Import NbtPredicateFacts.
Local Open Scope Z_scope.
Local Open Scope meter_scope.

Definition bills {A} (bad : CompareError → Prop) (price : Z) (c : metered A) (P : Z → A → Prop) : Prop :=
  ∀ m, 0 ≤ work m → 0 ≤ allocation m → ∃ r m', c m = Ok (r, m') ∧ 0 ≤ work m' ≤ work m ∧ 0 ≤ allocation m' ≤ allocation m ∧
    match r with
    | inl a => P (work m - work m') a
    | inr WorkLimit => work m' = 0 ∧ work m < price
    | inr e => bad e
    end.

Section rules.
Context (bad : CompareError → Prop).

Lemma bills_ret {A} price (a : A) (P : Z → A → Prop) : P 0 a → bills bad price (m_ret a) P.
Proof. intros HP m Hw Ha. exists (inl a), m. rewrite Z.sub_diag. split_and!; [done|lia..|done]. Qed.

Lemma bills_get {A} price (o : option A) a (P : Z → A → Prop) : o = Some a → P 0 a → bills bad price (m_get o) P.
Proof. intros -> HP m Hw Ha. exists (inl a), m. rewrite Z.sub_diag. split_and!; [done|lia..|done]. Qed.

Lemma bills_fail {A} price e (P : Z → A → Prop) : e ≠ WorkLimit → bad e → bills bad price (m_fail e) P.
Proof. intros Hne Hb m Hw Ha. exists (inr e), m. split_and!; [done|lia..|]. by destruct e. Qed.

Lemma bills_bind {A B} first price (c : metered A) (f : A → metered B) P Q :
  bills bad first c P → first ≤ price →
  (∀ s a, 0 ≤ s → P s a → bills bad (price - s) (f a) (λ s', Q (s + s'))) → bills bad price (m_bind c f) Q.
Proof.
  intros Hc Hle Hf m Hw Ha. destruct (Hc m Hw Ha) as (r&m1&Hr&Hw1&Ha1&HP). unfold m_bind. rewrite Hr. cbn.
  destruct r as [a|e].
  - destruct (Hf (work m - work m1) a ltac:(lia) HP m1 ltac:(lia) ltac:(lia)) as (r&m2&->&Hw2&Ha2&HQ).
    exists r, m2. split_and!; [done|lia..|]. destruct r as [b|[]]; try done.
    + by replace (work m - work m2) with (work m - work m1 + (work m1 - work m2)) by lia.
    + lia.
  - exists (inr e), m1. split_and!; [done|lia..|]. destruct e; try done. lia.
Qed.

Lemma bills_weaken {A} price price' (c : metered A) (P Q : Z → A → Prop) :
  bills bad price c P → price ≤ price' → (∀ s a, 0 ≤ s → P s a → Q s a) → bills bad price' c Q.
Proof.
  intros Hc Hle HPQ m Hw Ha. destruct (Hc m Hw Ha) as (r&m1&Hr&Hw1&Ha1&HP). exists r, m1. split_and!; [done|lia..|].
  destruct r as [a|[]]; try done; [apply HPQ; [lia|done]|lia].
Qed.

Lemma bills_charge : bills bad 1 (charge_work 1) (λ s _, s = 1).
Proof.
  intros m Hw Ha. unfold charge_work, checked_sub. destruct (Z.leb_spec 1 (work m)).
  - eexists (inl tt), _. split_and!; [reflexivity|cbn; lia..].
  - eexists (inr WorkLimit), _. split_and!; [reflexivity|cbn; lia..].
Qed.

(** ** Strings and arrays *)

Lemma bills_zip_order ls rs : bills bad (zlen ls) (zip_order ls rs) (λ s o, s ≤ zlen ls ∧
  match o with Some c => c ≠ Eq ∧ key_cmp ls rs = c | None => key_cmp ls rs = Nat.compare (length ls) (length rs) end).
Proof.
  revert rs. induction ls as [|x ls IH]; intros rs; [apply bills_ret; by destruct rs|].
  destruct rs as [|y rs]; [apply bills_ret; unfold zlen; split; [lia|done]|].
  assert (Hz : zlen (x :: ls) = zlen ls + 1) by (unfold zlen; cbn; lia). assert (0 ≤ zlen ls) by (unfold zlen; lia).
  cbn [zip_order]. rewrite Hz. eapply bills_bind; [apply bills_charge|lia|]. intros s [] _ ->.
  change (key_cmp (x :: ls) (y :: rs)) with (match x ?= y with Eq => key_cmp ls rs | c => c end).
  destruct (Z.eqb_spec x y) as [->|Hne]; cbn [negb].
  - rewrite Z.compare_refl. eapply bills_weaken; [apply IH|lia|]. cbn [length Nat.compare]. intros s o _ [Hs Ho]. split; [lia|done].
  - apply bills_ret. split; [lia|]. destruct (x ?= y) eqn:E; [by apply Z.compare_eq_iff in E|done..].
Qed.

Lemma bills_string_order ls rs : bills bad (zlen ls) (string_order ls rs) (λ s c, s ≤ zlen ls ∧ c = key_cmp ls rs).
Proof.
  eapply bills_bind; [apply bills_zip_order|done|]. intros s o Hs [Hle Ho]. apply bills_ret. rewrite Z.add_0_r. split; [done|].
  by destruct o as [c|]; [destruct Ho|].
Qed.

Lemma bills_zip_equal ls rs : length ls = length rs →
  bills bad (zlen ls) (zip_equal ls rs) (λ s b, s ≤ zlen ls ∧ b = list_eqb Z.eqb ls rs).
Proof.
  revert rs. induction ls as [|x ls IH]; intros [|y rs] Hl; [by apply bills_ret|done..|]. injection Hl as Hl.
  assert (Hz : zlen (x :: ls) = zlen ls + 1) by (unfold zlen; cbn; lia). assert (0 ≤ zlen ls) by (unfold zlen; lia).
  cbn [zip_equal list_eqb]. rewrite Hz. eapply bills_bind; [apply bills_charge|lia|]. intros s [] _ ->.
  destruct (x =? y); cbn [negb andb].
  - eapply bills_weaken; [by apply IH|lia|]. intros s b _ [Hs Hb]. split; [lia|done].
  - apply bills_ret. split; [lia|done].
Qed.

Lemma list_eqb_lengths ls rs : length ls ≠ length rs → list_eqb Z.eqb ls rs = false.
Proof. revert rs. induction ls as [|x ls IH]; intros [|y rs] Hl; [done..|]. cbn in *. rewrite IH by lia. apply andb_false_r. Qed.

Lemma bills_array_equal ls rs : bills bad (zlen ls) (array_equal ls rs) (λ s b, s ≤ zlen ls ∧ b = list_eqb Z.eqb ls rs).
Proof.
  unfold array_equal. destruct (Nat.eqb_spec (length ls) (length rs)) as [Hl|Hl]; cbn [negb]; [by apply bills_zip_equal|].
  apply bills_ret. rewrite list_eqb_lengths by done. split; [unfold zlen; lia|done].
Qed.

Lemma list_eqb_cmp ls rs : list_eqb Z.eqb ls rs = match key_cmp ls rs with Eq => true | _ => false end.
Proof.
  revert rs. induction ls as [|x ls IH]; intros [|y rs]; [done..|]. cbn [list_eqb].
  change (key_cmp (x :: ls) (y :: rs)) with (match x ?= y with Eq => key_cmp ls rs | c => c end).
  rewrite IH. destruct (Z.eqb_spec x y) as [->|Hne]; [by rewrite Z.compare_refl|]. cbn.
  destruct (x ?= y) eqn:E; [by apply Z.compare_eq_iff in E|done..].
Qed.

(** Leaves, and containers of different kinds. *)
Lemma bills_primitive mode e a :
  (∀ es as_, e = Compound es → a ≠ Compound as_) → (∀ es as_, e = List_ es → a ≠ List_ as_) →
  bills bad (Z.of_nat (tag_bill mode e a) - 1) (primitive_equal e a)
    (λ s b, s < Z.of_nat (tag_bill mode e a) ∧ b = tag_matches mode e a).
Proof.
  intros Hc Hl. pose proof (tag_bill_pos mode e a) as Hpos.
  destruct e, a; try (exfalso; by eapply Hc); try (exfalso; by eapply Hl);
    try (apply bills_ret; split; [lia|done]);
    try (cbn [primitive_equal tag_bill tag_matches primitive_matches tag_eqb];
         eapply bills_weaken; [apply bills_array_equal|unfold zlen; lia|intros s b _ [Hs Hb]; unfold zlen in Hs; split; [lia|done]]).
  cbn [primitive_equal tag_bill tag_matches primitive_matches tag_eqb].
  eapply bills_bind; [apply bills_string_order|unfold zlen; lia|]. intros s c _ [Hs ->]. apply bills_ret.
  unfold zlen in Hs. split; [lia|]. by rewrite list_eqb_cmp.
Qed.
End rules.

(** ** Key search *)

Section search.
Context (bad : CompareError → Prop) (roots : Memory) (es : list CompoundEntry) (p : Place) (key : NbtString).
Hypothesis Hsorted : sorted_entries es.
Hypothesis Hp : points_to roots {| place := p; tag := Compound es |}.

Definition found (o : option Ref) : Prop := tag <$> o = find_value es key ∧ opt_points_to roots o.

Lemma bills_child_loop fuel low high :
  (high - low ≤ fuel)%nat → (high ≤ length es)%nat →
  (∀ i e, (i < low)%nat → es !! i = Some e → name e ≠ key) → (∀ i e, (high ≤ i)%nat → es !! i = Some e → name e ≠ key) →
  bills bad (Z.of_nat ((high - low) * S (length key))) (child_loop fuel es p key low high)
    (λ s o, s ≤ Z.of_nat ((high - low) * S (length key)) ∧ found o).
Proof.
  revert low high. induction fuel as [|fuel IH]; intros low high Hf Hlen Hlo Hhi; cbn [child_loop].
  all: destruct (Nat.leb_spec high low) as [Hle|Hlt].
  1, 3: apply bills_ret; split; [lia|]; split; [|done]; symmetry; apply find_value_none; intros e [i Hi]%list_elem_of_lookup;
    destruct (decide (i < low)%nat); [by eapply Hlo|by eapply Hhi; [|exact Hi]; lia].
  { lia. }
  set (middle := (low + (high - low) / 2)%nat).
  assert (Hm : (low ≤ middle < high)%nat) by (subst middle; pose proof (Nat.div_lt (high - low) 2); lia).
  destruct (lookup_lt_ok es middle) as [e He]; [lia|].
  eapply bills_bind; [apply bills_charge|nia|]. intros s1 [] _ ->.
  eapply (bills_bind bad 0); [by apply (bills_get bad 0 _ e (λ s x, s = 0 ∧ x = e))|nia|]. intros s2 x _ [-> ->].
  eapply bills_bind; [apply bills_string_order|unfold zlen; nia|]. intros s3 c Hs3 [Hle3 ->]. unfold zlen in Hle3.
  pose proof (key_cmp_eq (K := list Z) key (name e)) as Heq.
  destruct (key_cmp (K := list Z) key (name e)) eqn:Hc.
  - apply bills_ret. split; [nia|]. split; [by rewrite (proj1 Heq eq_refl), (find_value_at es middle e)|].
    intros r [= <-]. by eapply points_to_entry.
  - eapply bills_weaken; [apply (IH low middle); [lia|lia|done|]|nia|].
    + intros i e' Hi He' Hk. destruct (decide (i = middle)) as [->|Hne].
      * assert (Hee : e' = e) by congruence. rewrite <- Hee, Hk in Hc. by rewrite (key_cmp_refl (K := list Z) key) in Hc.
      * pose proof (sorted_lookup name es middle i e e' Hsorted ltac:(lia) He He') as Hl. rewrite Hk in Hl.
        apply key_lt_irrefl with (a := key). by etrans; [exact Hc|].
    + intros s o _ [Hs Ho]. split; [nia|done].
  - eapply bills_weaken; [apply (IH (middle + 1)%nat high); [lia|lia| |done]|nia|].
    + intros i e' Hi He' Hk. apply key_cmp_gt in Hc. destruct (decide (i = middle)) as [->|Hne].
      * assert (Hee : e' = e) by congruence. rewrite <- Hee, Hk in Hc. by apply key_lt_irrefl in Hc.
      * pose proof (sorted_lookup name es i middle e' e Hsorted ltac:(lia) He' He) as Hl. rewrite Hk in Hl.
        apply key_lt_irrefl with (a := key). by etrans; [exact Hl|].
    + intros s o _ [Hs Ho]. split; [nia|done].
Qed.

Lemma bills_child : bills bad (Z.of_nat (search_bill es key)) (child es p key) (λ s o, s ≤ Z.of_nat (search_bill es key) ∧ found o).
Proof.
  unfold child, search_bill. pose proof (bills_child_loop (length es) 0 (length es)) as Hb. rewrite Nat.sub_0_r in Hb.
  apply Hb; [lia|lia|lia|]. intros i e Hi He. apply lookup_lt_Some in He. lia.
Qed.
End search.

(** ** The walk *)

Section walk.
Context `{Allocator, FrameLayout} (limits : CompareLimits) (roots : Memory) (D : nat).
Hypothesis Hsorted : memory_sorted roots.
Hypothesis Hstack : stack_bytes limits ≤ usize_max.

(** The errors that are left when the expected tree nests [D] deep; when memory
    runs out is a matter of NbtPredicateStack. *)
Definition too_small (e : CompareError) : Prop :=
  match e with
  | WorkLimit => False
  | CompareDepthLimit => compare_depth limits < Z.of_nat D
  | StackLimit => stack_bytes limits / frame_size < Z.of_nat D
  | CompareAllocationLimit => True
  | CompareAllocationFailed => ∃ n, reserve_exact frame_size n = None
  end.

Definition frame_ok (below : nat) (f : Frame) : Prop :=
  match f with
  | FCompound ep es ap as_ _ _ =>
      points_to roots {| place := ep; tag := Compound es |} ∧ points_to roots {| place := ap; tag := Compound as_ |} ∧
      (below + tag_depth (Compound es) ≤ D)%nat
  | FSequence ep es ap as_ _ =>
      points_to roots {| place := ep; tag := List_ es |} ∧ points_to roots {| place := ap; tag := List_ as_ |} ∧
      (below + tag_depth (List_ es) ≤ D)%nat ∧ length es = length as_
  | FPartialList ep es ap as_ _ _ =>
      points_to roots {| place := ep; tag := List_ es |} ∧ points_to roots {| place := ap; tag := List_ as_ |} ∧
      (below + tag_depth (List_ es) ≤ D)%nat ∧ (0 < length as_)%nat
  end.
Fixpoint stack_ok (fs : list Frame) : Prop :=
  match fs with [] => True | f :: fs => frame_ok (length fs) f ∧ stack_ok fs end.
Definition next_ok (below : nat) (next : option Ref * option Ref * Mode) : Prop :=
  opt_points_to roots next.1.1 ∧ opt_points_to roots next.1.2 ∧
  ∀ r, next.1.1 = Some r → (below + tag_depth (tag r) ≤ D)%nat.
Definition walk_ok (w : Walk) : Prop :=
  stack_ok (frames w) ∧ match current w with Some next => next_ok (length (frames w)) next | None => True end.

(** Turns that cost nothing: the pops. *)
Definition steps (w : Walk) : Z := zlen (frames w) + match current w with Some _ => 0 | None => 1 end.

(** What a turn owes to the walk it started from. *)
Definition continues (w : Walk) (s : Z) (w' : Walk) : Prop :=
  walk_ok w' ∧ answer w' = answer w ∧ s + Z.of_nat (bill w') ≤ Z.of_nat (bill w) ∧ steps w' < steps w + 2 * s.
Definition kept (w : Walk) (s : Z) (r : Walk + bool) : Prop :=
  match r with inl w' => continues w s w' | inr b => b = answer w ∧ s ≤ Z.of_nat (bill w) end.

Lemma bills_push w f : (length (frames w) < D)%nat →
  bills too_small 0 (push limits w f) (λ s p, s = 0 ∧ p.1 = f :: frames w).
Proof.
  intros HD. pose proof frame_size_pos as Hpos. unfold push. set (n := zlen (frames w)).
  assert (Hn : 0 ≤ n < Z.of_nat D) by (subst n; unfold zlen; lia).
  destruct (Z.leb_spec (compare_depth limits) n); [apply bills_fail; [done|cbn; lia]|].
  destruct (Z.leb_spec (stack_bytes limits / frame_size) n) as [|Ha]; [apply bills_fail; [done|cbn; lia]|].
  destruct (Z.eqb_spec n (capacity w)) as [Hcap|]; cbn [negb]; [|by apply bills_ret].
  set (grown := Z.min _ _). assert (Hg : n < grown).
  { assert (stack_bytes limits / frame_size ≤ usize_max); [|subst grown; rewrite <- Hcap; lia].
    destruct (Z.le_gt_cases 0 (stack_bytes limits)) as [Hs|Hs].
    - etrans; [apply Z.div_le_upper_bound with (q := stack_bytes limits); nia|done].
    - pose proof (Z.div_lt_upper_bound (stack_bytes limits) frame_size 0 Hpos). lia. }
  destruct (Z.leb_spec grown n); [lia|]. intros m Hw Hm. cbn beta. unfold checked_sub.
  destruct (Z.leb_spec (grown * frame_size) (allocation m)) as [Hle|]; [|exists (inr CompareAllocationLimit), m; split_and!; [done|lia..|done]].
  assert (0 ≤ grown * frame_size) by nia.
  destruct (reserve_exact frame_size grown) as [c|] eqn:Hr.
  - eexists (inl (_, c)), _. split_and!; [reflexivity|cbn; lia..|done].
  - eexists (inr CompareAllocationFailed), _. split_and!; [reflexivity|cbn; lia..|]. by exists grown.
Qed.

Lemma bills_descend w f next : (length (frames w) < D)%nat →
  bills too_small 0 (descend limits w f next) (λ s w', s = 0 ∧ current w' = Some next ∧ frames w' = f :: frames w).
Proof.
  intros HD. eapply bills_bind; [by apply bills_push|done|]. intros s p _ [-> Hp]. by apply bills_ret.
Qed.

(** A frame with a child to compare next. *)
Lemma bills_descend_kept price w w0 s f next :
  0 ≤ price → stack_ok (frames w) → frame_ok (length (frames w)) f → (length (frames w) < D)%nat →
  next_ok (S (length (frames w))) next →
  fold_left (λ b f, frame_answer f b) (frames w) (frame_answer f (opt_matches next.2 (tag <$> next.1.1) (tag <$> next.1.2))) = answer w0 →
  s + Z.of_nat (opt_bill next.2 (tag <$> next.1.1) (tag <$> next.1.2) + frame_bill f + sum_list_with frame_bill (frames w)) ≤ Z.of_nat (bill w0) →
  zlen (frames w) + 1 < steps w0 + 2 * s →
  bills too_small price (let! w := descend limits w f next in m_ret (inl w)) (λ s', kept w0 (s + s')).
Proof.
  intros Hprice Hs Hf HD Hn Ha Hb Hst. eapply bills_bind; [by apply bills_descend|done|].
  intros s' w' _ (->&Hc&Hfr). apply bills_ret. destruct next as [[e a] mode]. cbn [fst snd] in *. cbn [kept].
  unfold continues. split_and!.
  - unfold walk_ok. by rewrite Hc, Hfr.
  - unfold answer at 1, current_answer. by rewrite Hc, Hfr.
  - unfold bill at 1, current_bill. rewrite Hc, Hfr. cbn [sum_list_with]. lia.
  - unfold steps at 1. rewrite Hc, Hfr. unfold zlen in *. cbn [length]. lia.
Qed.

(** The pops of a stack that ends with a result. *)
Lemma kept_pop w c fs f b :
  current w = None → frames w = f :: fs → stack_ok (frames w) → frame_answer f (matched w) = b →
  kept w 0 (inl {| current := None; frames := fs; capacity := c; matched := b |}).
Proof.
  intros Hc Hfr Hs Hb. rewrite Hfr in Hs. destruct Hs as [_ Hs]. cbn [kept]. unfold continues. split_and!.
  - by unfold walk_ok.
  - unfold answer, current_answer. rewrite Hc, Hfr. cbn. by rewrite Hb.
  - unfold bill, current_bill. rewrite Hc, Hfr. cbn [current frames sum_list_with]. lia.
  - unfold steps. rewrite Hc, Hfr. unfold zlen. cbn [current frames length]. lia.
Qed.

Lemma list_drop_cons {A} (l : list A) n x : l !! n = Some x → drop n l = x :: drop (n + 1) l.
Proof. intros Hx. rewrite Nat.add_1_r. by apply drop_S. Qed.

Lemma deep_child {A} (f : A → nat) l i x d : l !! i = Some x → (S (deep f l) ≤ d)%nat → (S (f x) ≤ d)%nat.
Proof.
  intros Hx Hd. destruct d as [|d]; [lia|]. apply le_S_n, deep_le in Hd. eapply Forall_lookup_1 in Hd; [|exact Hx]. cbn in Hd. lia.
Qed.
Lemma entry_depth l i e b : l !! i = Some e → (b + tag_depth (Compound l) ≤ D)%nat → (S b + tag_depth (value e) ≤ D)%nat.
Proof. intros He Hd. pose proof (deep_child (λ e, tag_depth (snd e)) l i e (tag_depth (Compound l)) He (le_n _)). unfold value. lia. Qed.
Lemma item_depth l i x b : l !! i = Some x → (b + tag_depth (List_ l) ≤ D)%nat → (S b + tag_depth x ≤ D)%nat.
Proof. intros Hx Hd. pose proof (deep_child tag_depth l i x (tag_depth (List_ l)) Hx (le_n _)). lia. Qed.

Lemma next_item below ep es i x a mode :
  points_to roots {| place := ep; tag := List_ es |} → es !! i = Some x → (below + tag_depth (List_ es) ≤ D)%nat →
  points_to roots a → next_ok (S below) (Some (child_ref ep i x), Some a, mode).
Proof.
  intros Hp Hx Hd Ha. split_and!; cbn.
  - intros r [= <-]. by eapply points_to_item.
  - by intros r [= <-].
  - intros r [= <-]. by eapply item_depth.
Qed.
Lemma next_entry below ep es i e a mode :
  points_to roots {| place := ep; tag := Compound es |} → es !! i = Some e → (below + tag_depth (Compound es) ≤ D)%nat →
  opt_points_to roots a → next_ok (S below) (Some (child_ref ep i (value e)), a, mode).
Proof.
  intros Hp Hx Hd Ha. split_and!; cbn.
  - intros r [= <-]. by eapply points_to_entry.
  - done.
  - intros r [= <-]. by eapply entry_depth.
Qed.

(** The next entry of a compound, and the frame that waits for it. *)
Lemma bills_compound price w w0 s ep es ap as_ next mode e :
  stack_ok (frames w) → es !! next = Some e →
  points_to roots {| place := ep; tag := Compound es |} → points_to roots {| place := ap; tag := Compound as_ |} →
  (length (frames w) + tag_depth (Compound es) ≤ D)%nat →
  fold_left (λ b f, frame_answer f b) (frames w) (forallb (λ e, opt_matches mode (Some (value e)) (find_value as_ (name e))) (drop next es)) = answer w0 →
  s + Z.of_nat (sum_list_with (entry_bill mode as_) (drop next es) + sum_list_with frame_bill (frames w)) ≤ Z.of_nat (bill w0) →
  Z.of_nat (bill w0) - s ≤ price → zlen (frames w) + 1 < steps w0 + 2 * s →
  bills too_small price
    (let! v := child as_ ap (name e) in
     let! w := descend limits w (FCompound ep es ap as_ (next + 1) mode) (Some (child_ref ep next (value e)), v, mode) in m_ret (inl w))
    (λ s', kept w0 (s + s')).
Proof.
  intros Hs He Hep Hap HD Ha Hb Hprice Hst. rewrite (list_drop_cons es next e He) in Ha, Hb. cbn [forallb sum_list_with] in Ha, Hb.
  change (entry_bill mode as_ e) with (search_bill as_ (name e) + opt_bill mode (Some (value e)) (find_value as_ (name e)))%nat in Hb.
  assert (Hso : sorted_entries as_) by (apply (points_to_sorted _ _ Hsorted) in Hap; by apply keys_sorted_compound in Hap as [? _]).
  eapply bills_bind; [by apply (bills_child _ roots)|lia|]. intros s1 v Hs1 (Hle&Hv&Hpv).
  assert (Hlt : (length (frames w) < D)%nat) by (cbn in HD; lia).
  eapply bills_weaken; [eapply (bills_descend_kept (price - s1) w w0 (s + s1))|done|].
  - lia.
  - done.
  - by split_and!.
  - done.
  - by eapply next_entry.
  - cbn [fst snd fmap option_fmap option_map child_ref tag]. rewrite Hv. cbn [frame_answer]. done.
  - cbn [fst snd fmap option_fmap option_map child_ref tag]. rewrite Hv. cbn [frame_bill]. unfold CompoundEntry in *. lia.
  - lia.
  - intros s' r _. by rewrite Z.add_assoc.
Qed.

(** The same for the items of lists. *)
Lemma bills_item price w w0 s f ep es i x ap as_ j y mode :
  stack_ok (frames w) → frame_ok (length (frames w)) f → es !! i = Some x → as_ !! j = Some y →
  points_to roots {| place := ep; tag := List_ es |} → points_to roots {| place := ap; tag := List_ as_ |} →
  (length (frames w) + tag_depth (List_ es) ≤ D)%nat →
  fold_left (λ b f, frame_answer f b) (frames w) (frame_answer f (tag_matches mode x y)) = answer w0 →
  s + Z.of_nat (tag_bill mode x y + frame_bill f + sum_list_with frame_bill (frames w)) ≤ Z.of_nat (bill w0) →
  0 ≤ price → zlen (frames w) + 1 < steps w0 + 2 * s →
  bills too_small price
    (let! w := descend limits w f (Some (child_ref ep i x), Some (child_ref ap j y), mode) in m_ret (inl w))
    (λ s', kept w0 (s + s')).
Proof.
  intros Hs Hf Hx Hy Hep Hap HD Ha Hb Hprice Hst. apply bills_descend_kept; try done.
  - cbn in HD. lia.
  - eapply next_item; [done..|]. by eapply points_to_item.
Qed.

(** A result for the frame on top. *)
Lemma bills_resume w : current w = None → stack_ok (frames w) → bills too_small (Z.of_nat (bill w)) (resume limits w) (kept w).
Proof.
  intros Hc Hs. unfold resume. destruct (frames w) as [|f fs] eqn:Hfr.
  { apply bills_ret. cbn. unfold answer, current_answer. rewrite Hc, Hfr. split; [done|lia]. }
  assert (Ha : answer w = fold_left (λ b f, frame_answer f b) fs (frame_answer f (matched w))) by (unfold answer, current_answer; by rewrite Hc, Hfr).
  assert (Hb : bill w = (frame_bill f + sum_list_with frame_bill fs)%nat) by (unfold bill, current_bill; by rewrite Hc, Hfr).
  assert (Hst : steps w = zlen fs + 2) by (unfold steps, zlen; rewrite Hc, Hfr; cbn [length]; lia).
  assert (Hpop : ∀ b, frame_answer f (matched w) = b →
    bills too_small (Z.of_nat (bill w)) (m_ret (inl {| current := None; frames := fs; capacity := capacity w; matched := b |})) (kept w)).
  { intros b Hfb. apply bills_ret. eapply kept_pop; [done|done|by rewrite Hfr|done]. }
  cbn [stack_ok] in Hs. destruct Hs as [Hf Hs].
  destruct f as [ep es ap as_ next mode|ep es ap as_ next|ep es ap as_ i j]; cbn [frame_ok] in Hf.
  - destruct Hf as (Hep&Hap&HD). cbn [frame_answer frame_bill] in *.
    destruct (matched w); cbn [andb]; [|by apply Hpop]. destruct (Nat.ltb_spec next (length es)) as [Hlt|Hge].
    + destruct (lookup_lt_ok es next Hlt) as [e He].
      eapply bills_bind; [by apply (bills_get _ 0 _ e (λ s x, s = 0 ∧ x = e))|lia|]. intros s x _ [-> ->].
      apply bills_compound; cbn [frames]; try done; unfold CompoundEntry in *; lia.
    + apply Hpop. rewrite drop_ge by lia. done.
  - destruct Hf as (Hep&Hap&HD&Hl). cbn [frame_answer frame_bill] in *.
    destruct (matched w); cbn [andb]; [|by apply Hpop]. destruct (Nat.ltb_spec next (length es)) as [Hlt|Hge].
    + destruct (lookup_lt_ok es next Hlt) as [x Hx], (lookup_lt_ok as_ next) as [y Hy]; [lia|].
      rewrite (list_drop_cons es next x Hx), (list_drop_cons as_ next y Hy) in Ha, Hb. cbn [list_eqb pair_bill andb] in Ha, Hb.
      eapply bills_bind; [by apply (bills_get _ 0 _ x (λ s z, s = 0 ∧ z = x))|lia|]. intros s z _ [-> ->].
      eapply bills_bind; [by apply (bills_get _ 0 _ y (λ s z, s = 0 ∧ z = y))|lia|]. intros s z _ [-> ->].
      eapply bills_weaken; [eapply (bills_item _ _ w 0); cbn [frames]|done|done].
      * done.
      * by split_and!.
      * done.
      * done.
      * done.
      * done.
      * done.
      * by rewrite Ha.
      * cbn [frame_bill]. lia.
      * lia.
      * lia.
    + apply Hpop. rewrite !drop_ge by lia. done.
  - destruct Hf as (Hep&Hap&HD&Hl).
    cbv zeta. cbn [matched]. set (ij := if matched w then ((i + 1)%nat, 0%nat) else (i, (j + 1)%nat)). destruct ij as [i' j'] eqn:Hij. subst ij.
    assert (Hans : frame_answer (FPartialList ep es ap as_ i j) (matched w) =
      match es !! i' with Some x => some_match x (drop j' as_) && forallb (λ x, some_match x as_) (drop (S i') es) | None => matched w end).
    { destruct (matched w); injection Hij as <- <-; cbn [frame_answer orb andb].
      - rewrite Nat.add_1_r, drop_0. destruct (es !! S i) as [x|] eqn:Hx; [by rewrite (drop_S _ _ _ Hx)|].
        apply lookup_ge_None_1 in Hx. by rewrite drop_ge by lia.
      - rewrite Nat.add_1_r. by destruct (es !! i). }
    assert (Hbill : (match es !! i' with Some x => some_bill (drop j' as_) x + sum_list_with (some_bill as_) (drop (S i') es) | None => 0 end ≤
      frame_bill (FPartialList ep es ap as_ i j))%nat).
    { destruct (matched w); injection Hij as <- <-; cbn [frame_bill].
      - rewrite Nat.add_1_r, drop_0. destruct (es !! S i) as [x|] eqn:Hx; [rewrite (drop_S _ _ _ Hx); cbn [sum_list_with]|]; lia.
      - rewrite Nat.add_1_r. destruct (es !! i); lia. }
    destruct (Nat.ltb_spec i' (length es)) as [Hi|Hi]; cbn [andb].
    2:{ rewrite lookup_ge_None_2 in Hans by lia. by apply Hpop. }
    destruct (lookup_lt_ok es i' Hi) as [x Hx]. rewrite Hx in Hans, Hbill.
    destruct (Nat.ltb_spec j' (length as_)) as [Hj|Hj].
    + destruct (lookup_lt_ok as_ j' Hj) as [y Hy]. rewrite (drop_S _ _ _ Hy) in Hans, Hbill. cbn [some_match existsb some_bill sum_list_with] in Hans, Hbill.
      eapply bills_bind; [by apply (bills_get _ 0 _ x (λ s z, s = 0 ∧ z = x))|lia|]. intros s z _ [-> ->].
      eapply bills_bind; [by apply (bills_get _ 0 _ y (λ s z, s = 0 ∧ z = y))|lia|]. intros s z _ [-> ->].
      eapply bills_weaken; [eapply (bills_item _ _ w 0); cbn [frames]|done|done].
      * done.
      * by split_and!.
      * done.
      * done.
      * done.
      * done.
      * done.
      * cbn [frame_answer]. rewrite Hx, Ha, Hans. done.
      * cbn [frame_bill]. rewrite Hx. unfold some_bill in *. lia.
      * lia.
      * lia.
    + assert (Hm : matched w = false) by (destruct (matched w); [injection Hij as <- <-; lia|done]).
      apply Hpop. rewrite Hans, drop_ge by lia. by rewrite Hm.
Qed.

(** A pair to compare. *)
Definition visited (w : Walk) (s : Z) (r : Walk + bool) : Prop :=
  1 ≤ s ∧ match r with inl w' => continues w s w' | inr b => b = current_answer w ∧ s ≤ Z.of_nat (current_bill w) end.

Lemma visited_kept w s r : 1 ≤ s → (∃ w', r = inl w') → kept w s r → visited w s r.
Proof. intros Hs [w' ->] Hk. by split. Qed.

Lemma visited_ret w price s b : 1 ≤ s → s ≤ Z.of_nat (current_bill w) → b = current_answer w →
  bills too_small price (m_ret (inr b)) (λ s', visited w (s + s')).
Proof. intros. apply bills_ret. rewrite Z.add_0_r. by split. Qed.

(** The same judgement with the knowledge that a step descends. *)
Lemma bills_descends {A} price (c : metered A) (g : A → metered Walk) w s :
  1 ≤ s → bills too_small price (let! v := c in let! w := g v in m_ret (inl w)) (λ s', kept w (s + s')) →
  bills too_small price (let! v := c in let! w := g v in m_ret (inl w)) (λ s', visited w (s + s')).
Proof.
  intros Hs Hb m Hw Ha. destruct (Hb m Hw Ha) as (r&m'&Hr&Hw'&Ha'&HP). exists r, m'. split_and!; [done|lia..|].
  destruct r as [a|e]; [|done]. apply visited_kept; [lia| |done]. unfold m_bind, m_ret in Hr.
  destruct (c m) as [[[v|] m1]| | |]; cbn in Hr; try congruence. destruct (g v m1) as [[[w1|] m2]| | |]; cbn in Hr; try congruence.
  exists w1. congruence.
Qed.

Lemma bills_compound_pair w e es a as_ mode :
  current w = Some (Some e, Some a, mode) → tag e = Compound es → tag a = Compound as_ → walk_ok w →
  bills too_small (Z.of_nat (bill w) - 1)
    (if (length as_ <? length es)%nat || (bool_decide (mode = Exact) && negb (length es =? length as_)%nat) then m_ret (inr false)
     else match es with
     | [] => m_ret (inr true)
     | first :: _ =>
         let! v := child as_ (place a) (name first) in
         let! w := descend limits w (FCompound (place e) es (place a) as_ 1 mode) (Some (child_ref (place e) 0 (value first)), v, mode) in
         m_ret (inl w)
     end) (λ s', visited w (1 + s')).
Proof.
  intros Hc He Ha [Hs Hn]. rewrite Hc in Hn. destruct Hn as (Hpe&Hpa&HD). cbn in Hpe, Hpa, HD.
  specialize (Hpe e eq_refl). specialize (Hpa a eq_refl). specialize (HD e eq_refl).
  destruct e as [pe te], a as [pa ta]. cbn [tag place] in *. subst te ta.
  assert (Hans : current_answer w = tag_matches mode (Compound es) (Compound as_)) by (unfold current_answer; by rewrite Hc).
  assert (Hbill : current_bill w = S (sum_list_with (entry_bill mode as_) es)) by (unfold current_bill; rewrite Hc; apply compound_bill).
  rewrite compound_matches in Hans.
  destruct (Nat.ltb_spec (length as_) (length es)) as [Hlt|Hge]; cbn [orb].
  { apply visited_ret; [lia|lia|]. rewrite Hans, (proj2 (Nat.leb_gt _ _) Hlt). done. }
  rewrite (proj2 (Nat.leb_le _ _) Hge) in Hans. cbn [andb] in Hans.
  destruct (bool_decide (mode = Exact)); cbn [negb orb andb] in *; [destruct (length es =? length as_)%nat; cbn [negb andb] in *|].
  2: by apply visited_ret; [lia|lia|].
  all: destruct es as [|first rest] eqn:Hes; [by apply visited_ret; [lia|lia|]|].
  all: rewrite <- Hes in *; apply bills_descends; [done|]; apply (bills_compound _ w w 1 pe es pa as_ 0 mode first);
    [done|by rewrite Hes|done|done|done|unfold answer; by rewrite Hans|unfold bill; rewrite Hbill; unfold CompoundEntry in *; rewrite drop_0; lia|lia|unfold steps; rewrite Hc; lia].
Qed.

Lemma bills_list_pair w e es a as_ mode :
  current w = Some (Some e, Some a, mode) → tag e = List_ es → tag a = List_ as_ → walk_ok w →
  bills too_small (Z.of_nat (bill w) - 1)
    (match es with
     | [] => m_ret (inr (length as_ =? 0)%nat)
     | e0 :: _ =>
         if (length as_ <? length es)%nat || (negb (bool_decide (mode = PartialLists)) && negb (length es =? length as_)%nat) then m_ret (inr false)
         else
           let! a0 := m_get (as_ !! 0%nat) in
           let first m := (Some (child_ref (place e) 0 e0), Some (child_ref (place a) 0 a0), m) in
           let! w := (if bool_decide (mode = PartialLists)
                      then descend limits w (FPartialList (place e) es (place a) as_ 0 0) (first mode)
                      else descend limits w (FSequence (place e) es (place a) as_ 1) (first Exact)) in
           m_ret (inl w)
     end) (λ s', visited w (1 + s')).
Proof.
  intros Hc He Ha [Hs Hn]. rewrite Hc in Hn. destruct Hn as (Hpe&Hpa&HD). cbn in Hpe, Hpa, HD.
  specialize (Hpe e eq_refl). specialize (Hpa a eq_refl). specialize (HD e eq_refl).
  destruct e as [pe te], a as [pa ta]. cbn [tag place] in *. subst te ta.
  assert (Hans : current_answer w = tag_matches mode (List_ es) (List_ as_)) by (unfold current_answer; by rewrite Hc).
  assert (Hbill : current_bill w = tag_bill mode (List_ es) (List_ as_)) by (unfold current_bill; by rewrite Hc).
  pose proof (tag_bill_pos mode (List_ es) (List_ as_)) as Hpos. assert (Hbpos : (1 ≤ bill w)%nat) by (unfold bill; lia). assert (Hst : steps w = zlen (frames w)) by (unfold steps; rewrite Hc; lia).
  destruct es as [|e0 rest]; [by apply visited_ret; [lia|lia|]|]. set (es := e0 :: rest) in *.
  destruct (Nat.ltb_spec (length as_) (length es)) as [Hlt|Hge]; cbn [orb].
  { apply visited_ret; [lia|lia|]. rewrite Hans. destruct (decide (mode = PartialLists)) as [->|Hp].
    - rewrite partial_matches by done. by rewrite (proj2 (Nat.leb_gt _ _) Hlt).
    - by rewrite sequence_lengths by (done || lia). }
  destruct as_ as [|a0 bs]; [cbn in Hge; lia|].
  destruct (decide (mode = PartialLists)) as [->|Hp].
  - rewrite bool_decide_eq_true_2 by done. cbn [negb andb].
    rewrite partial_matches, (proj2 (Nat.leb_le _ _) Hge) in Hans by done. rewrite partial_bill in Hbill. cbn [forallb sum_list_with andb] in Hans, Hbill.
    eapply bills_descends; [done|]. eapply bills_bind; [by apply (bills_get _ 0 _ a0 (λ s z, s = 0 ∧ z = a0))|lia|]. intros s z _ [-> ->].
    apply (bills_item _ w w 1 _ pe es 0 e0 pa (a0 :: bs) 0 a0); try done.
    + split_and!; try done. cbn. lia.
    + cbn [frame_answer]. unfold answer. rewrite Hans. done.
    + unfold bill. rewrite Hbill. subst es. cbn. unfold some_bill. rewrite !drop_0. lia.
    + lia.
    + lia.
  - rewrite bool_decide_eq_false_2 by done. cbn [negb andb]. destruct (Nat.eqb_spec (length es) (length (a0 :: bs))) as [Hl|Hl]; cbn [negb].
    2: { apply visited_ret; [lia|lia|]. by rewrite Hans, sequence_lengths. }
    rewrite sequence_matches in Hans by done. rewrite sequence_bill in Hbill by done.
    eapply bills_descends; [done|]. eapply bills_bind; [by apply (bills_get _ 0 _ a0 (λ s z, s = 0 ∧ z = a0))|lia|]. intros s z _ [-> ->].
    apply (bills_item _ w w 1 _ pe es 0 e0 pa (a0 :: bs) 0 a0); try done.
    + cbn [frame_answer]. unfold answer. rewrite Hans. done.
    + cbn [frame_bill]. unfold bill. rewrite Hbill. subst es. cbn. rewrite ?drop_0. lia.
    + lia.
    + lia.
Qed.

Lemma bills_visit w e a mode :
  current w = Some (e, a, mode) → walk_ok w → bills too_small (Z.of_nat (bill w)) (visit limits w e a mode) (visited w).
Proof.
  intros Hc Hok. assert (Hpos : (1 ≤ current_bill w)%nat).
  { unfold current_bill. rewrite Hc. destruct e, a; cbn [opt_bill fmap option_fmap option_map]; try lia. apply tag_bill_pos. }
  assert (Hb : Z.of_nat (current_bill w) ≤ Z.of_nat (bill w)) by (unfold bill; lia).
  eapply bills_bind; [apply bills_charge|lia|]. intros s [] _ ->.
  destruct e as [e|]; [|apply visited_ret; [lia|lia|unfold current_answer; by rewrite Hc]].
  destruct a as [a|]; [|apply visited_ret; [lia|lia|unfold current_answer; by rewrite Hc]].
  assert (Hans : current_answer w = tag_matches mode (tag e) (tag a)) by (unfold current_answer; by rewrite Hc).
  assert (Hbill : current_bill w = tag_bill mode (tag e) (tag a)) by (unfold current_bill; by rewrite Hc).
  pose proof Hok as [_ Hn]. rewrite Hc in Hn. destruct Hn as (Hpe&Hpa&_). cbn in Hpe, Hpa.
  case_bool_decide as Hplace.
  { apply visited_ret; [lia|lia|]. rewrite Hans, (points_to_unique roots e a (Hpe e eq_refl) (Hpa a eq_refl) Hplace).
    symmetry. apply tag_matches_refl. apply (points_to_sorted roots); [done|]. by apply Hpa. }
  assert (Hprim : (∀ es as_, tag e = Compound es → tag a ≠ Compound as_) → (∀ es as_, tag e = List_ es → tag a ≠ List_ as_) →
    bills too_small (Z.of_nat (bill w) - 1) (let! b := primitive_equal (tag e) (tag a) in m_ret (inr b)) (λ s', visited w (1 + s'))).
  { intros Hnc Hnl. eapply bills_bind; [by apply (bills_primitive _ mode)|lia|]. intros s b Hs [Hlt ->].
    apply bills_ret. split; [lia|]. split; [done|lia]. }
  destruct (tag e) as [| | | | | | | | |es|es| | ] eqn:He; try (by apply Hprim);
    destruct (tag a) as [| | | | | | | | |as_|as_| | ] eqn:Ha; try (by apply Hprim).
  - by eapply bills_list_pair.
  - by eapply bills_compound_pair.
Qed.

(** One turn of the loop. *)
Lemma bills_turn w : walk_ok w → bills too_small (Z.of_nat (bill w)) (turn limits w) (kept w).
Proof.
  intros Hok. unfold turn. destruct (current w) as [[[e a] mode]|] eqn:Hc; [|apply bills_resume; [done|apply Hok]].
  eapply bills_bind; [by apply bills_visit|done|]. intros s [w'|b] Hs [Hs1 Hr].
  { apply bills_ret. by rewrite Z.add_0_r. }
  destruct Hr as [-> Hle]. set (w1 := {| current := None; frames := frames w; capacity := capacity w; matched := current_answer w |}).
  assert (Hans : answer w1 = answer w) by done.
  assert (Hbill : bill w = (current_bill w + bill w1)%nat) by (unfold bill at 2; by cbn).
  assert (Hst : steps w1 = steps w + 1) by (unfold steps; cbn; rewrite Hc; lia).
  eapply bills_weaken; [apply (bills_resume w1); [done|apply Hok]|lia|]. intros s' [w'|b] Hs' Hk; cbn [kept] in *.
  - destruct Hk as (Hok'&Ha'&Hb'&Hst'). unfold continues. split_and!; [done|congruence|lia|lia].
  - destruct Hk as [-> Hb']. split; [done|lia].
Qed.

(** The loop: two turns per unit of work, and a turn per frame. *)
Lemma bills_walk fuel w m :
  walk_ok w → 0 ≤ work m → 0 ≤ allocation m → 2 * work m + steps w < Z.of_nat fuel →
  ∃ r m', walk limits fuel w m = Ok (r, m') ∧ 0 ≤ work m' ≤ work m ∧ 0 ≤ allocation m' ≤ allocation m ∧
    match r with
    | inl b => b = answer w ∧ work m - work m' ≤ Z.of_nat (bill w)
    | inr WorkLimit => work m' = 0 ∧ work m < Z.of_nat (bill w)
    | inr e => too_small e
    end.
Proof.
  revert w m. induction fuel as [|fuel IH]; intros w m Hok Hw Ha Hf.
  { exfalso. unfold steps, zlen in Hf. destruct (current w); lia. }
  destruct (bills_turn w Hok m Hw Ha) as (r&m1&Hr&Hw1&Ha1&Hk). cbn [walk]. unfold m_bind. rewrite Hr. cbn [outcome_mbind mbind outcome_bind].
  destruct r as [[w'|b]|e].
  - destruct Hk as (Hok'&Hans&Hb&Hst). destruct (IH w' m1 Hok' ltac:(lia) ltac:(lia) ltac:(lia)) as (r&m2&Hr2&Hw2&Ha2&Hk2).
    exists r, m2. split_and!; [done|lia..|]. destruct r as [b|[]]; try done; [|lia]. destruct Hk2 as [-> Hle]. split; [done|lia].
  - destruct Hk as [-> Hb]. eexists (inl _), m1. split_and!; [done|lia..|done|done].
  - eexists (inr e), m1. split_and!; [done|lia..|]. done.
Qed.
End walk.
