(* ===== verification/NbtPredicateStack.v ===== *)
(** * NBT comparison: what the stack costs

    A comparison pays for its stack alone, when the stack outgrows its
    capacity: the allocation spent is the price of the deepest stack of the
    run.  [pays p c P E]: from a run whose deepest stack so far is [p], the step
    [c] spends what [P] says, and refuses memory only when [E] holds and the
    growth for one frame more than [p] cannot be had. *)

From stdpp Require Import list.
From S2P Require Import Prelude.
From S2P Require Import Nbt.
From S2P Require Import NbtRead.
From S2P Require Import NbtPredicate.
From S2P Require Import NbtPredicateFacts.
From S2P Require Import NbtPredicateWalk.
Local Open Scope Z_scope.
Local Open Scope meter_scope.

(** ** Steps that allocate nothing *)

Definition refuses_memory (e : CompareError) : bool :=
  match e with CompareAllocationLimit | CompareAllocationFailed => true | _ => false end.

Definition quiet {A} (c : metered A) : Prop := ∀ m r m', c m = Ok (r, m') →
  allocation m' = allocation m ∧ match r with inl _ => True | inr e => refuses_memory e = false end.

Lemma quiet_ret {A} (a : A) : quiet (m_ret a).
Proof. by intros m r m' [= <- <-]. Qed.
Lemma quiet_get {A} (o : option A) : quiet (m_get o).
Proof. intros m r m'. unfold m_get. destruct o; cbn; [by intros [= <- <-]|done]. Qed.
Lemma quiet_charge n : quiet (charge_work n).
Proof. intros m r m'. unfold charge_work. destruct (checked_sub _ _); by intros [= <- <-]. Qed.
Lemma quiet_bind {A B} (c : metered A) (f : A → metered B) : quiet c → (∀ a, quiet (f a)) → quiet (m_bind c f).
Proof.
  intros Hc Hf m r m'. unfold m_bind. destruct (c m) as [[r1 m1]| | |] eqn:E; cbn; try done.
  apply Hc in E as [E1 E2]. destruct r1 as [a|e]; [|by intros [= <- <-]]. intros [E3 E4]%Hf. split; [congruence|done].
Qed.
Create HintDb quiet.
#[export] Hint Resolve quiet_ret quiet_get quiet_charge quiet_bind : quiet.

Lemma quiet_zip_order ls rs : quiet (zip_order ls rs).
Proof.
  revert rs. induction ls as [|x ls IH]; intros [|y rs]; cbn [zip_order]; auto with quiet.
  apply quiet_bind; [auto with quiet|]. intros _. destruct (negb _); auto with quiet.
Qed.
Lemma quiet_string_order ls rs : quiet (string_order ls rs).
Proof. apply quiet_bind; [apply quiet_zip_order|auto with quiet]. Qed.
Lemma quiet_zip_equal ls rs : quiet (zip_equal ls rs).
Proof.
  revert rs. induction ls as [|x ls IH]; intros [|y rs]; cbn [zip_equal]; auto with quiet.
  apply quiet_bind; [auto with quiet|]. intros _. destruct (negb _); auto with quiet.
Qed.
Lemma quiet_array_equal ls rs : quiet (array_equal ls rs).
Proof. unfold array_equal. destruct (negb _); [auto with quiet|apply quiet_zip_equal]. Qed.
#[export] Hint Resolve quiet_string_order quiet_array_equal : quiet.
Lemma quiet_primitive e a : quiet (primitive_equal e a).
Proof. destruct e, a; cbn [primitive_equal]; auto with quiet. Qed.

Lemma quiet_child_loop fuel entries p key low high : quiet (child_loop fuel entries p key low high).
Proof.
  revert low high. induction fuel as [|fuel IH]; intros low high; cbn [child_loop]; (destruct (_ <=? _)%nat; [auto with quiet|]); [done|].
  apply quiet_bind; [auto with quiet|]. intros _. apply quiet_bind; [auto with quiet|]. intros e.
  apply quiet_bind; [auto with quiet|]. intros []; auto with quiet.
Qed.
Lemma quiet_child entries p key : quiet (child entries p key).
Proof. apply quiet_child_loop. Qed.
#[export] Hint Resolve quiet_primitive quiet_child : quiet.

(** ** The price of a stack *)

Section stack.
Context `{Allocator, FrameLayout} (limits : CompareLimits).

(** The frames a stack of full capacity asks room for: twice as many, four at
    least, and no more than the limit allows. *)
Definition stack_growth (capacity : Z) : Z :=
  Z.min (Z.max (Z.min (capacity * 2) usize_max) 4) (stack_bytes limits / frame_size).

(** Capacity and price of a stack that has held [peak] frames. *)
Fixpoint stack_after (peak : nat) : Z * Z :=
  match peak with
  | O => (0, 0)
  | S n =>
      let '(capacity, price) := stack_after n in
      if Z.of_nat n =? capacity
      then (default (stack_growth capacity) (reserve_exact frame_size (stack_growth capacity)), price + stack_growth capacity * frame_size)
      else (capacity, price)
  end.
Definition stack_price (peak : nat) : Z := (stack_after peak).2.

(** The deepest stack of a run. *)
Fixpoint deepest (fuel : nat) (w : Walk) (m : Meter) : nat :=
  match fuel with
  | O => length (frames w)
  | S fuel =>
      match turn limits w m with
      | Ok (inl (inl w'), m') => Nat.max (length (frames w)) (deepest fuel w' m')
      | _ => length (frames w)
      end
  end.

Definition allowed : Z := stack_bytes limits / frame_size.

Lemma stack_after_S n : stack_after (S n) =
  if Z.of_nat n =? (stack_after n).1
  then (default (stack_growth (stack_after n).1) (reserve_exact frame_size (stack_growth (stack_after n).1)),
        (stack_after n).2 + stack_growth (stack_after n).1 * frame_size)
  else stack_after n.
Proof. cbn [stack_after]. by destruct (stack_after n). Qed.

Lemma reserved_ge g : g ≤ default g (reserve_exact frame_size g).
Proof. destruct (reserve_exact frame_size g) as [c|] eqn:Hc; cbn; [by apply reserve_exact_ge in Hc|lia]. Qed.

Lemma allowed_max : stack_bytes limits ≤ usize_max → allowed ≤ usize_max.
Proof.
  intros Hs. pose proof frame_size_pos. assert (0 < usize_max) by done. unfold allowed.
  destruct (Z.le_gt_cases 0 (stack_bytes limits)) as [?|?]; [|pose proof (Z.div_lt_upper_bound (stack_bytes limits) frame_size 0); lia].
  etrans; [apply Z.div_le_upper_bound with (q := stack_bytes limits); nia|done].
Qed.
Lemma stack_growth_gt n : stack_bytes limits ≤ usize_max → 0 ≤ n < allowed → n < stack_growth n.
Proof. intros Hs%allowed_max Hn. unfold stack_growth, allowed in *. lia. Qed.

(** Doubling: a stack costs at most four times the frames it has room for. *)
Lemma stack_prices n : stack_bytes limits ≤ usize_max → Z.of_nat n ≤ allowed →
  Z.of_nat n ≤ (stack_after n).1 ∧
  0 ≤ stack_price n ≤ 4 * Z.max 1 (Z.of_nat n - 1) * frame_size ∧
  (stack_after n = (0, 0) ∨ 4 ≤ (stack_after n).1 ∧ stack_price n ≤ 2 * (stack_after n).1 * frame_size ∨ allowed ≤ (stack_after n).1).
Proof.
  intros Hs. pose proof frame_size_pos as Hpos. unfold stack_price. induction n as [|n IH]; intros Hn; [cbn; split_and!; [lia..|by left]|].
  destruct IH as (Hc&Hp&Hcase); [lia|]. rewrite stack_after_S. set (c := (stack_after n).1) in *. set (p := (stack_after n).2) in *.
  destruct (Z.eqb_spec (Z.of_nat n) c) as [Hnc|Hnc]; cbn [fst snd].
  2: { fold c p. split_and!; [lia|lia| |done]. etrans; [apply Hp|]. apply Z.mul_le_mono_nonneg_r; lia. }
  pose proof (stack_growth_gt (Z.of_nat n) Hs ltac:(lia)) as Hg. rewrite Hnc in Hg. pose proof (reserved_ge (stack_growth c)) as Hr.
  pose proof (allowed_max Hs) as Hall.
  assert (Hup : stack_growth c ≤ Z.max (2 * c) 4 ∧ (stack_growth c = allowed ∨ Z.max (Z.min (2 * c) usize_max) 4 ≤ stack_growth c)) by (unfold stack_growth, allowed in *; lia).
  destruct Hup as [Hup Hlo]. destruct Hcase as [H00|[[H4 Hp2]|?]]; [| |lia].
  - assert (c = 0 ∧ p = 0) as [Hc0 Hp0] by (subst c p; by rewrite H00). rewrite Hc0, Hp0 in *. cbn in Hup.
    split_and!; [lia|nia|nia|]. right. destruct Hlo as [Hlo|Hlo]; [right; lia|]. left. split; [lia|nia].
  - split_and!; [lia|nia|nia|]. right. destruct Hlo as [Hlo|Hlo]; [right; lia|].
    destruct (Z.le_gt_cases usize_max (2 * c)) as [Hbig|Hsmall]; [right; lia|]. left. split; [lia|nia].
Qed.

(** ** Payments *)

Hypothesis Hstack : stack_bytes limits ≤ usize_max.
Context (granted : Z).

Definition paid (p : nat) (m : Meter) : Prop := allocation m = granted - stack_price p.
(** Memory for [p + 1] frames is refused. *)
Definition refusal (p : nat) (e : CompareError) (m : Meter) : Prop :=
  match e with
  | CompareAllocationLimit => paid p m ∧ granted < stack_price (S p) ∧ Z.of_nat p < allowed
  | CompareAllocationFailed => paid (S p) m ∧ ∃ n, Z.of_nat p < n ≤ allowed ∧ reserve_exact frame_size n = None
  | _ => paid p m
  end.
Definition pays {A} (p : nat) (c : metered A) (P : nat → A → Prop) (E : Prop) : Prop := ∀ m r m', paid p m → c m = Ok (r, m') →
  match r with
  | inl a => ∃ p', paid p' m' ∧ P p' a
  | inr e => refusal p e m' ∧ (refuses_memory e = true → E)
  end.

Lemma pays_ret {A} p (a : A) (P : nat → A → Prop) E : P p a → pays p (m_ret a) P E.
Proof. intros HP m r m' Hm [= <- <-]. by exists p. Qed.
Lemma pays_bind {A B} p (c : metered A) (f : A → metered B) P E : quiet c → (∀ a, pays p (f a) P E) → pays p (m_bind c f) P E.
Proof.
  intros Hc Hf m r m' Hm. unfold m_bind. destruct (c m) as [[[a|e] m1]| | |] eqn:Hr; cbn; try done; apply Hc in Hr as [Ha He].
  - apply Hf. unfold paid in *. congruence.
  - intros [= <- <-]. split; [destruct e; unfold refusal, paid in *; try done; congruence|by rewrite He].
Qed.
Lemma pays_then {A B} p (c : metered A) (f : A → metered B) P Q E :
  pays p c P E → (∀ p' a, P p' a → (∃ b, f a = m_ret b ∧ Q p' b) ∨ p' = p ∧ pays p (f a) Q E) → pays p (m_bind c f) Q E.
Proof.
  intros Hc Hf m r m' Hm. unfold m_bind. destruct (c m) as [[[a|e] m1]| | |] eqn:Hr; cbn; try done; pose proof (Hc _ _ _ Hm Hr) as Hpay.
  - destruct Hpay as (p'&Hp'&HP). destruct (Hf p' a HP) as [(b&->&Hq)|[-> Hf']]; [intros [= <- <-]; by exists p'|exact (Hf' m1 r m' Hp')].
  - by intros [= <- <-].
Qed.
Lemma pays_weaken {A} p (c : metered A) (P Q : nat → A → Prop) (E F : Prop) :
  pays p c P E → (∀ p' a, P p' a → Q p' a) → (E → F) → pays p c Q F.
Proof.
  intros Hc HPQ HEF m r m' Hm Hr. apply (Hc _ _ _ Hm) in Hr. destruct r as [a|e].
  - destruct Hr as (p'&Hp'&HP). exists p'. split; [done|]. by apply HPQ.
  - destruct Hr as [Hr He]. split; [done|]. intros Hm'. by apply HEF, He.
Qed.

(** The stack of [w] in a run whose deepest stack is [p]. *)
Definition held (p : nat) (w : Walk) : Prop :=
  (length (frames w) ≤ p)%nat ∧ capacity w = (stack_after p).1 ∧ Z.of_nat p ≤ allowed.

Lemma pays_push p w f : held p w →
  pays p (push limits w f) (λ p' r, p' = Nat.max p (S (length (frames w))) ∧ r.1 = f :: frames w ∧
    r.2 = (stack_after p').1 ∧ Z.of_nat p' ≤ allowed) (length (frames w) = p).
Proof.
  intros (Hl&Hc&Hp). destruct (stack_prices p Hstack Hp) as (Hcap&_). unfold push, zlen.
  destruct (Z.leb_spec (compare_depth limits) (Z.of_nat (length (frames w)))); [intros m r m' Hm [= <- <-]; by split|].
  destruct (Z.leb_spec (stack_bytes limits / frame_size) (Z.of_nat (length (frames w)))) as [|Ha]; [intros m r m' Hm [= <- <-]; by split|].
  change (stack_bytes limits / frame_size) with allowed in Ha.
  destruct (Z.eqb_spec (Z.of_nat (length (frames w))) (capacity w)) as [Hn|Hn]; cbn [negb].
  2: { intros m r m' Hm [= <- <-]. destruct (decide (length (frames w) = p)) as [Heq|Hne].
       - exists (S p). replace (Nat.max p (S (length (frames w)))) with (S p) by lia. unfold paid, stack_price.
         rewrite stack_after_S. rewrite (proj2 (Z.eqb_neq _ _)) by congruence. split_and!; [done|done|done|done|lia].
       - exists p. replace (Nat.max p (S (length (frames w)))) with p by lia. by split_and!. }
  assert (Heq : length (frames w) = p) by lia.
  change (Z.min (Z.max (Z.min (capacity w * 2) usize_max) 4) (stack_bytes limits / frame_size)) with (stack_growth (capacity w)).
  assert (HS : stack_after (S p) = (default (stack_growth (capacity w)) (reserve_exact frame_size (stack_growth (capacity w))), stack_price p + stack_growth (capacity w) * frame_size)).
  { rewrite stack_after_S, <- Hc. by rewrite (proj2 (Z.eqb_eq _ _)) by congruence. }
  assert (Hpr : stack_price (S p) = stack_price p + stack_growth (capacity w) * frame_size) by (unfold stack_price at 1; by rewrite HS).
  pose proof (stack_growth_gt (Z.of_nat p) Hstack ltac:(lia)) as Hg. rewrite <- Heq, Hn in Hg.
  destruct (Z.leb_spec (stack_growth (capacity w)) (Z.of_nat (length (frames w)))); [lia|].
  intros m r m' Hm. unfold checked_sub. cbn beta. destruct (Z.leb_spec (stack_growth (capacity w) * frame_size) (allocation m)) as [Hle|Hgt].
  - destruct (reserve_exact frame_size (stack_growth (capacity w))) as [c|] eqn:Hr.
    + intros [= <- <-]. exists (S p). replace (Nat.max p (S (length (frames w)))) with (S p) by lia. unfold paid in *. cbn [allocation].
      split_and!; [lia|done|done|by rewrite HS|lia].
    + intros [= <- <-]. split; [|done]. unfold refusal, paid in *. cbn [allocation]. split; [lia|]. exists (stack_growth (capacity w)).
      split; [|done]. split; [lia|]. unfold stack_growth, allowed. lia.
  - intros [= <- <-]. split; [|done]. unfold refusal, paid in *. split_and!; [done|lia..].
Qed.

(** A turn that goes on, and one that ends. *)
Definition goes_on (p p' : nat) (r : Walk + bool) : Prop :=
  match r with inl w => held p' w ∧ p' = Nat.max p (length (frames w)) | inr _ => p' = p end.

Lemma pays_descend p w f next : held p w →
  pays p (let! w := descend limits w f next in m_ret (inl w)) (goes_on p) (length (frames w) = p).
Proof.
  intros Hw. eapply (pays_then _ _ _ (λ p' w', held p' w' ∧ p' = Nat.max p (length (frames w')))).
  - eapply pays_then; [by apply pays_push|]. intros p' r (->&Hf&Hc&Ha). left. eexists. split; [done|].
    unfold held. cbn [frames capacity]. rewrite Hf. cbn [length]. split_and!; [lia|done|done|done].
  - intros p' w' Hw'. left. by eexists.
Qed.

(** After a pop there is room. *)
Lemma pays_resume p w : held p w → pays p (resume limits w) (goes_on p) False.
Proof.
  intros (Hl&Hc&Ha). unfold resume. destruct (frames w) as [|f fs] eqn:Hfr; [by apply pays_ret|]. cbn [length] in Hl.
  set (w1 := {| current := None; frames := fs; capacity := capacity w; matched := matched w |}).
  assert (Hw1 : held p w1) by (unfold held; cbn; split_and!; [lia|done|done]).
  assert (Hret : pays p (m_ret (inl w1)) (goes_on p) False) by (apply pays_ret; cbn; split; [done|lia]).
  assert (Hdes : ∀ f next, pays p (let! w := descend limits w1 f next in m_ret (inl w)) (goes_on p) False).
  { intros. eapply pays_weaken; [by apply pays_descend|done|]. cbn. lia. }
  destruct f as [ep es ap as_ next mode|ep es ap as_ next|ep es ap as_ i j]; cbv zeta; cbn [matched] in *.
  - destruct (_ && _); [|done]. apply pays_bind; [eauto with quiet|]. intros e. apply pays_bind; [eauto with quiet|]. intros v. apply Hdes.
  - destruct (_ && _); [|done]. apply pays_bind; [eauto with quiet|]. intros e. apply pays_bind; [eauto with quiet|]. intros a. apply Hdes.
  - destruct (if matched w then _ else _) as [i' j']. destruct (_ && _); [|done].
    apply pays_bind; [eauto with quiet|]. intros e. apply pays_bind; [eauto with quiet|]. intros a. apply Hdes.
Qed.

Context (roots : Memory) (D : nat).

Lemma pays_visit p w e a mode : held p w → current w = Some (e, a, mode) → walk_ok roots D w →
  pays p (visit limits w e a mode) (goes_on p) (p < D)%nat.
Proof.
  intros Hw Hc [_ Hok]. rewrite Hc in Hok. destruct Hok as (_&_&HD). cbn in HD.
  assert (Hret : ∀ b, pays p (m_ret (inr b)) (goes_on p) (p < D)%nat) by (intros b; by apply pays_ret).
  assert (Hprim : ∀ e a, pays p (let! b := primitive_equal e a in m_ret (inr b)) (goes_on p) (p < D)%nat).
  { intros. apply pays_bind; [eauto with quiet|]. intros b. apply Hret. }
  apply pays_bind; [eauto with quiet|]. intros _. destruct e as [e|], a as [a|]; try apply Hret. specialize (HD e eq_refl).
  case_bool_decide; [apply Hret|].
  assert (Hdes : (0 < tag_depth (tag e))%nat → ∀ f next, pays p (let! w := descend limits w f next in m_ret (inl w)) (goes_on p) (p < D)%nat).
  { intros Hd f next. eapply pays_weaken; [by apply pays_descend|done|]. intros <-. lia. }
  destruct (tag e) as [| | | | | | | | |es|es| | ]; try apply Hprim; destruct (tag a) as [| | | | | | | | |as_|as_| | ]; try apply Hprim.
  - destruct es as [|e0 es]; [apply Hret|]. destruct (_ || _); [apply Hret|]. apply pays_bind; [auto with quiet|]. intros a0.
    case_bool_decide; apply Hdes; cbn; lia.
  - destruct (_ || _); [apply Hret|]. destruct es as [|e0 es]; [apply Hret|]. apply pays_bind; [auto with quiet|]. intros v. apply Hdes. cbn. lia.
Qed.

Lemma pays_turn p w : held p w → walk_ok roots D w → pays p (turn limits w) (goes_on p) (p < D)%nat.
Proof.
  intros Hw Hok. unfold turn. destruct (current w) as [[[e a] mode]|] eqn:Hc; [|eapply pays_weaken; [by apply pays_resume|done|done]].
  eapply pays_then; [by apply pays_visit|]. intros p' [w'|b] Hg; [left; by eexists|]. cbn in Hg. subst p'. right. split; [done|].
  eapply pays_weaken; [apply pays_resume|done|done]. done.
Qed.

Lemma walk_ok_deep w : walk_ok roots D w → (length (frames w) ≤ D)%nat.
Proof.
  intros [Hs _]. destruct (frames w) as [|f fs]; [cbn; lia|]. destruct Hs as [Hf _]. cbn [length].
  destruct f; cbn [frame_ok] in Hf; [destruct Hf as (_&_&Hf)|destruct Hf as (_&_&Hf&_)..]; cbn [tag_depth] in Hf; lia.
Qed.

(** The whole run: paid for by its deepest stack, and refused memory only
    when the next frame is wanted and the tree still nests deeper. *)
Lemma pays_walk fuel p w m r m' :
  memory_sorted roots → held p w → walk_ok roots D w → paid p m → 0 ≤ work m → 0 ≤ allocation m →
  walk limits fuel w m = Ok (r, m') → let q := Nat.max p (deepest fuel w m) in
  match r with inl _ => paid q m' | inr e => refusal q e m' ∧ (refuses_memory e = true → (q < D)%nat) end ∧
  Z.of_nat q ≤ allowed ∧ (q ≤ Nat.max p D)%nat.
Proof.
  intros Hs. revert p w m. induction fuel as [|fuel IH]; intros p w m Hw Hok Hm Hwork Hal; [done|]. cbn [walk deepest]. unfold m_bind.
  destruct (bills_turn limits roots D Hs Hstack w Hok m Hwork Hal) as (r1&m1&Hr1&Hw1&Ha1&Hk). rewrite Hr1. cbn [mbind outcome_mbind outcome_bind].
  pose proof (pays_turn p w Hw Hok m r1 m1 Hm Hr1) as Hpay. pose proof Hw as (Hl&_&Hp). destruct r1 as [[w'|b]|e].
  - destruct Hpay as (p'&Hp'&Hw'&->). intros Hrun. destruct Hk as (Hok'&_).
    destruct (IH _ w' m1 Hw' Hok' Hp' ltac:(lia) ltac:(lia) Hrun) as (Hres&Hq&HqD). pose proof (walk_ok_deep w' Hok').
    replace (Nat.max p (Nat.max (length (frames w)) (deepest fuel w' m1))) with (Nat.max (Nat.max p (length (frames w'))) (deepest fuel w' m1)).
    + split_and!; [exact Hres|lia..].
    + assert (length (frames w') ≤ deepest fuel w' m1)%nat; [|lia]. destruct fuel; cbn [deepest]; [done|].
      destruct (turn limits w' m1) as [[[[]|] ?]| | |]; lia.
  - intros [= <- <-]. rewrite Nat.max_l by done. destruct Hpay as (p'&Hp'&->). split_and!; [done|lia..].
  - intros [= <- <-]. rewrite Nat.max_l by done. split_and!; [apply Hpay|apply Hpay|lia..].
Qed.
End stack.
