(* ===== verification/NbtPredicateMain.v ===== *)
(** * NBT comparison: theorems

    A comparison answers with [tag_matches], or names a limit that is too small
    for the trees; in the exact mode the answer is [Tag::eq]. *)

From stdpp Require Import list sorting.
From S2P Require Import Prelude.
From S2P Require Import Sorted.
From S2P Require Import Nbt.
From S2P Require Import NbtRead.
From S2P Require Import NbtPredicate.
From S2P Require Import NbtPredicateFacts.
From S2P Require Import NbtPredicateWalk.
From S2P Require Import NbtPredicateStack.
Local Open Scope Z_scope.

(** ** Exact comparison is equality *)

Lemma list_tag_eqb l r : tag_eqb (List_ l) (List_ r) = list_eqb tag_eqb l r.
Proof. cbn [tag_eqb]. revert r. induction l as [|x l IH]; intros [|y r]; [done..|]. cbn [list_eqb]. by rewrite <- IH. Qed.

Definition entry_eqb (e a : CompoundEntry) : bool := list_eqb Z.eqb (name e) (name a) && tag_eqb (value e) (value a).
Lemma compound_tag_eqb l r : tag_eqb (Compound l) (Compound r) = list_eqb entry_eqb l r.
Proof. cbn [tag_eqb]. revert r. induction l as [|[n x] l IH]; intros [|[m y] r]; [done..|]. cbn [list_eqb]. by rewrite <- IH. Qed.

Lemma list_eqb_Forall2 {A} (f : A → A → bool) l r : list_eqb f l r = true ↔ Forall2 (λ x y, f x y = true) l r.
Proof.
  revert r. induction l as [|x l IH]; intros [|y r]; cbn; try (split; [done|by inversion 1]).
  rewrite andb_true_iff, IH. split; [intros []; by constructor|by inversion 1].
Qed.
Lemma text_eqb (l r : NbtString) : list_eqb Z.eqb l r = true ↔ l = r.
Proof.
  rewrite list_eqb_Forall2. split.
  - intros Hf. apply list_eq_Forall2. eapply Forall2_impl; [exact Hf|]. cbn. intros. by apply Z.eqb_eq.
  - intros ->. induction r as [|z r IH]; constructor; [apply Z.eqb_refl|done].
Qed.
Lemma list_eqb_ext {A} (f g : A → A → bool) l r : Forall (λ x, ∀ y, y ∈ r → f x y = g x y) l → list_eqb f l r = list_eqb g l r.
Proof.
  intros Hl. revert r Hl. induction l as [|x l IH]; intros [|y r] Hl; [done..|]. apply Forall_cons in Hl as [Hx Hl]. cbn.
  rewrite Hx by (by left). f_equal. apply IH. eapply Forall_impl; [exact Hl|]. cbn. intros z Hz w Hw. apply Hz. by right.
Qed.

(** Sorted compounds of one length, one with the names of the other. *)
Lemma same_names (es as_ : list CompoundEntry) :
  sorted_entries es → sorted_entries as_ → length es = length as_ → (∀ e, e ∈ es → is_Some (find_value as_ (name e))) → es.*1 = as_.*1.
Proof.
  intros Hs Ha Hl Hin. pose proof (sorted_NoDup es Hs) as Hn.
  assert (Hsub : es.*1 ⊆+ as_.*1).
  { apply NoDup_submseteq; [done|]. intros n (e&->&He)%list_elem_of_fmap. destruct (Hin e He) as [v Hv].
    apply find_value_some in Hv as (a&Haa&Hna&_). apply list_elem_of_fmap. by exists a. }
  assert (Hp : es.*1 ≡ₚ as_.*1) by (apply submseteq_length_Permutation; [done|rewrite !length_fmap; apply Nat.eq_le_incl; symmetry; exact Hl]).
  eapply StronglySorted_unique; [|exact Hs|exact Ha|exact Hp].
  intros x y Hxy Hyx. exfalso. apply (key_lt_irrefl x). by etrans.
Qed.

Lemma name_lookup (es : list CompoundEntry) i e : es !! i = Some e → es.*1 !! i = Some (name e).
Proof. intros He. rewrite list_lookup_fmap. unfold CompoundEntry in *. by rewrite He. Qed.
Lemma names_agree (es as_ : list CompoundEntry) i e a :
  es.*1 = as_.*1 → es !! i = Some e → as_ !! i = Some a → name e = name a.
Proof. intros Hn He%name_lookup Ha%name_lookup. rewrite Hn in He. congruence. Qed.
Lemma names_length (es as_ : list CompoundEntry) : es.*1 = as_.*1 → length es = length as_.
Proof. intros Hn%(f_equal length). rewrite !length_fmap in Hn. exact Hn. Qed.

Lemma forallb_by_names (f : Tag → Tag → bool) (es as_ : list CompoundEntry) :
  sorted_entries as_ → es.*1 = as_.*1 →
  forallb (λ e, match find_value as_ (name e) with Some v => f (value e) v | None => false end) es =
  list_eqb (λ e a, f (value e) (value a)) es as_.
Proof.
  intros Hs Hn. apply eq_true_iff_eq. rewrite list_eqb_Forall2, List.forallb_forall.
  assert (Hat : ∀ i e a, es !! i = Some e → as_ !! i = Some a → find_value as_ (name e) = Some (value a)).
  { intros i e a He Ha. assert (name e = name a) as ->; [|by eapply find_value_at].
    by eapply names_agree. }
  pose proof (names_length es as_ Hn) as Hl.
  rewrite Forall2_same_length_lookup. split.
  - intros Hf. split; [done|]. intros i e a He Ha. specialize (Hf e ltac:(apply list_elem_of_In; by eapply list_elem_of_lookup_2)).
    by rewrite (Hat i e a) in Hf.
  - intros [_ Hf] e (i&He)%list_elem_of_In%list_elem_of_lookup.
    destruct (lookup_lt_ok as_ i) as [a Ha]; [rewrite <- Hl; by eapply lookup_lt_Some|]. rewrite (Hat i e a) by done. by eapply Hf.
Qed.

Lemma forallb_ext_in {A} (f g : A → bool) l : Forall (λ x, f x = g x) l → forallb f l = forallb g l.
Proof. induction 1 as [|x l Hx _ IH]; [done|]. cbn. by rewrite Hx, IH. Qed.

Lemma exact_is_eqb e : keys_sorted e → ∀ a, keys_sorted a → tag_matches Exact e a = tag_eqb e a.
Proof.
  induction e as [e Hl Hc|l IH|l IH] using tag_induction; intros He a Ha.
  - by destruct e; try (by destruct (Hl v)); try (by destruct (Hc entries)); destruct a.
  - destruct a as [| | | | | | | | |r| | | ]; try done. destruct l as [|x l]; [by destruct r|]. set (es := x :: l) in *.
    rewrite list_tag_eqb. destruct (decide (length es = length r)) as [Hlen|Hlen].
    + rewrite sequence_matches by done. apply keys_sorted_list in He. apply keys_sorted_list in Ha. rewrite Forall_forall in IH, He, Ha.
      apply list_eqb_ext, Forall_forall. intros z Hz w Hw. apply IH; auto.
    + rewrite sequence_lengths by done. symmetry. apply not_true_iff_false. intros Hf%list_eqb_Forall2%Forall2_length. done.
  - destruct a as [| | | | | | | | | |r| | ]; try done. unfold CompoundEntry in *. rewrite compound_matches, compound_tag_eqb. rewrite bool_decide_eq_true_2 by done. cbn [negb orb].
    apply keys_sorted_compound in He as [Hse He]. apply keys_sorted_compound in Ha as [Hsa Ha]. rewrite Forall_forall in IH, He, Ha.
    destruct (Nat.eqb_spec (length l) (length r)) as [Hlen|Hlen].
    2: { rewrite andb_false_r. symmetry. apply not_true_iff_false. intros Hf%list_eqb_Forall2%Forall2_length. done. }
    rewrite Hlen, Nat.leb_refl. cbn [andb].
    rewrite (forallb_ext_in _ (λ e, match find_value r (name e) with Some v => tag_eqb (value e) v | None => false end)).
    2: { apply Forall_forall. intros e Hin. cbn [opt_matches]. destruct (find_value r (name e)) as [v|] eqn:Hv; [|done].
         apply find_value_some in Hv as (x&Hx&_&<-). apply IH; auto. }
    destruct (decide (l.*1 = r.*1)) as [Hn|Hn].
    + rewrite forallb_by_names by done. apply eq_true_iff_eq. rewrite !list_eqb_Forall2. unfold entry_eqb.
      rewrite !Forall2_same_length_lookup. split; intros [Hf1 Hf2]; (split; [done|]); intros i x y Hx Hy; specialize (Hf2 i x y Hx Hy); cbn in *.
      * apply andb_true_iff. split; [|done]. apply text_eqb. by eapply names_agree.
      * by apply andb_true_iff in Hf2 as [_ ?].
    + transitivity false.
      * apply not_true_iff_false. intros Hf. apply Hn, same_names; [done..|]. intros e Hin. rewrite List.forallb_forall in Hf.
        specialize (Hf e ltac:(by apply list_elem_of_In)). by destruct (find_value r (name e)).
      * symmetry. apply not_true_iff_false. intros Hf%list_eqb_Forall2. apply Hn. apply list_eq_Forall2, Forall2_fmap.
        eapply Forall2_impl; [exact Hf|]. cbn. intros x y [Hxy _]%andb_true_iff. by apply text_eqb.
Qed.

(** ** A run *)

Definition expected_depth (expected : option Ref) : nat := from_option (tag_depth ∘ tag) 0%nat expected.
Definition budget_ok (b : CompareBudget) : Prop := 0 ≤ work_remaining b ∧ 0 ≤ stack_bytes (budget_limits b) ≤ usize_max.

(** The deepest stack of a comparison. *)
Definition run_peak `{Allocator, FrameLayout} (mode : Mode) (b : CompareBudget) (expected actual : option Ref) (remaining : Z) : nat :=
  deepest (budget_limits b) (Z.to_nat (2 * work_remaining b + 1)) (walk_start expected actual mode)
    {| work := work_remaining b; allocation := remaining |}.

(** What a comparison leaves behind, and why it can fail: the allocation spent
    is the price of its deepest stack, whatever the outcome. *)
Definition run_result `{Allocator, FrameLayout} (mode : Mode) (b : CompareBudget) (expected actual : option Ref) (remaining : Z)
    (r : bool + CompareError) (b' : CompareBudget) (remaining' : Z) : Prop :=
  let peak := run_peak mode b expected actual remaining in
  budget_limits b' = budget_limits b ∧ 0 ≤ work_remaining b' ≤ work_remaining b ∧ 0 ≤ remaining' ≤ remaining ∧
  (peak ≤ expected_depth expected)%nat ∧
  remaining' = remaining - stack_price (budget_limits b) (match r with inr CompareAllocationFailed => S peak | _ => peak end) ∧
  stack_price (budget_limits b) peak ≤ 4 * Z.max 1 (Z.of_nat peak - 1) * frame_size ∧
  match r with
  | inl found => found = opt_matches mode (tag <$> expected) (tag <$> actual) ∧
      work_remaining b - work_remaining b' ≤ Z.of_nat (opt_bill mode (tag <$> expected) (tag <$> actual))
  | inr WorkLimit => work_remaining b' = 0 ∧ work_remaining b < Z.of_nat (opt_bill mode (tag <$> expected) (tag <$> actual))
  | inr CompareDepthLimit => compare_depth (budget_limits b) < Z.of_nat (expected_depth expected)
  | inr StackLimit => stack_bytes (budget_limits b) / frame_size < Z.of_nat (expected_depth expected)
  | inr CompareAllocationLimit => (peak < expected_depth expected)%nat ∧
      remaining < stack_price (budget_limits b) (S peak) ≤ 4 * Z.max 1 (Z.of_nat peak) * frame_size
  | inr CompareAllocationFailed => (peak < expected_depth expected)%nat ∧
      ∃ n, Z.of_nat peak < n ≤ stack_bytes (budget_limits b) / frame_size ∧ reserve_exact frame_size n = None
  end.

Lemma run_returns `{Allocator, FrameLayout} roots b expected actual mode remaining :
  memory_sorted roots → opt_points_to roots expected → opt_points_to roots actual → budget_ok b → 0 ≤ remaining →
  ∃ r b' remaining', run b expected actual mode remaining = Ok (r, b', remaining') ∧
    run_result mode b expected actual remaining r b' remaining'.
Proof.
  intros Hm He Ha (Hw&Hs0&Hs) Hr. set (w := walk_start expected actual mode). set (m0 := {| work := work_remaining b; allocation := remaining |}).
  assert (Hok : walk_ok roots (expected_depth expected) w).
  { split; [done|]. cbn. split_and!; [done|done|]. intros r Hre. cbn in Hre. by rewrite Hre. }
  destruct (bills_walk (budget_limits b) roots (expected_depth expected) Hm Hs (Z.to_nat (2 * work_remaining b + 1)) w m0 Hok Hw Hr)
    as (r&m&Hrun&Hw'&Ha'&Hres).
  { unfold steps. cbn. unfold zlen. cbn. lia. }
  assert (Hheld : held (budget_limits b) 0 w) by (split_and!; [done|done|apply Z.div_pos; [done|apply frame_size_pos]]).
  destruct (pays_walk (budget_limits b) Hs remaining roots (expected_depth expected) (Z.to_nat (2 * work_remaining b + 1)) 0 w m0 r m Hm Hheld Hok)
    as (Hpaid&Hal&HD); [by unfold paid; cbn; lia|done|done|done|].
  rewrite Nat.max_0_l in Hpaid, Hal, HD. change (deepest _ _ _ _) with (run_peak mode b expected actual remaining) in Hpaid, Hal, HD.
  unfold run. fold w m0. rewrite Hrun. cbn [mbind outcome_mbind outcome_bind]. eexists r, _, _. split; [done|].
  assert (Hb : bill w = opt_bill mode (tag <$> expected) (tag <$> actual)) by (unfold bill; cbn; lia). rewrite Hb in Hres.
  change (work m0) with (work_remaining b) in *. change (allocation m0) with remaining in *.
  unfold run_result. cbn [budget_limits work_remaining]. set (peak := run_peak mode b expected actual remaining) in *.
  destruct (stack_prices (budget_limits b) peak Hs Hal) as (_&[_ Hprice]&_).
  split_and!; [done|lia..|by destruct r as [|[]]; apply Hpaid|done|].
  destruct r as [found|[]]; try done; unfold refusal in Hpaid.
  - destruct Hpaid as [(_&Hlt&Hpa) HpD]. destruct (stack_prices (budget_limits b) (S peak) Hs ltac:(lia)) as (_&[_ Hle]&_).
    split_and!; [by apply HpD|done|]. by replace (Z.of_nat peak) with (Z.of_nat (S peak) - 1) by lia.
  - destruct Hpaid as [[_ Hn] HpD]. by split; [apply HpD|].
Qed.

(** C22. For references into a memory of well-formed trees, [compare_accounted]
    returns (no index panics, and the fuel of the loop is enough), never hands
    work or allocation back, and answers [tag_matches], the recursive meaning
    of a predicate, within the work that meaning is worth.  It fails only when
    the work is short of that price, when the depth or the stack is below the
    nesting of the expected tree, or when memory for a frame more, in a tree
    that nests deeper, exceeds the allocation or is refused.  Whatever the
    outcome, the allocation spent is exactly the price of the deepest stack of
    the run, at most four frames for each it held; the shortcut for equal
    addresses changes no answer. *)
Theorem compare_decides_matching `{Allocator, FrameLayout} roots b expected actual partial_lists remaining :
  memory_sorted roots → opt_points_to roots expected → opt_points_to roots actual → budget_ok b → 0 ≤ remaining →
  ∃ r b' remaining', compare_accounted b expected actual partial_lists remaining = Ok (r, b', remaining') ∧
    run_result (if partial_lists then PartialLists else StrictLists) b expected actual remaining r b' remaining'.
Proof. intros. by eapply run_returns. Qed.

(** C26. [equal], which walks two trees iteratively, answers what the recursive
    [Tag::eq] answers (one NaN, two zeros).  It fails to answer only when the
    work is below the price of the trees, a limit is below the nesting of the
    first tree, or that nesting is so deep that a stack for it exceeds the
    address space or the allocator refuses it. *)
Theorem equal_is_tag_eq `{Allocator, FrameLayout} roots b expected actual :
  memory_sorted roots → points_to roots expected → points_to roots actual → budget_ok b →
  ∃ r b' remaining', equal b expected actual = Ok (r, b', remaining') ∧
    match r with
    | inl same => same = tag_eqb (tag expected) (tag actual)
    | inr WorkLimit => work_remaining b < Z.of_nat (tag_bill Exact (tag expected) (tag actual))
    | inr CompareDepthLimit => compare_depth (budget_limits b) < Z.of_nat (tag_depth (tag expected))
    | inr StackLimit => stack_bytes (budget_limits b) / frame_size < Z.of_nat (tag_depth (tag expected))
    | inr CompareAllocationLimit => usize_max < 4 * Z.of_nat (tag_depth (tag expected)) * frame_size
    | inr CompareAllocationFailed => (0 < tag_depth (tag expected))%nat ∧
        ∃ n, 0 < n ≤ stack_bytes (budget_limits b) / frame_size ∧ reserve_exact frame_size n = None
    end.
Proof.
  intros Hm He Ha Hb. destruct (run_returns roots b (Some expected) (Some actual) Exact usize_max Hm ltac:(by intros ? [= <-]) ltac:(by intros ? [= <-]) Hb ltac:(done))
    as (r&b'&m&Hr&Hl&Hw&Hal&_&_&_&Hres). exists r, b', m. split; [exact Hr|]. pose proof frame_size_pos as Hpos.
  destruct r as [same|[]]; try done.
  - destruct Hres as [-> _]. apply exact_is_eqb; by eapply points_to_sorted.
  - by destruct Hres.
  - destruct Hres as [Hd [Hlt Hle]]. cbn in Hd. eapply Z.lt_le_trans; [apply (Z.lt_le_trans _ _ _ Hlt Hle)|]. nia.
  - destruct Hres as (Hd&n&Hn&Hrn). cbn in Hd. split; [lia|]. exists n. split; [lia|done].
Qed.


(** ** Witness: an item predicate *)

(** [{Items: [{id: "a"}], n: 2}] against [{Items: [{id: "b"}, {id: "a", n: 1}], n: 2, x: 0.0}]. *)
Definition text (n : Z) : NbtString := [n].
Definition expected_item : Tag := Compound [(text 73, List_ [Compound [(text 105, String_ (text 97))]]); (text 110, Int 2)].
Definition actual_item : Tag :=
  Compound [(text 73, List_ [Compound [(text 105, String_ (text 98))]; Compound [(text 105, String_ (text 97)); (text 110, Int 1)]]);
    (text 110, Int 2); (text 120, Float 0)].
Definition example_memory : Memory := λ i, match i with O => Some expected_item | S O => Some actual_item | _ => None end.
Definition root_ref (i : nat) (t : Tag) : Ref := {| place := (i, []); tag := t |}.
#[local] Instance frame_layout : FrameLayout := {| frame_size := 48; frame_size_pos := eq_refl |}.
Definition example_budget : CompareBudget := compare_budget_new {| compare_depth := usize_max; work_units := 1000000; stack_bytes := 1024 * 1024 |}.

Lemma example_memory_sorted : memory_sorted example_memory.
Proof.
  intros [|[|i]] t [= <-]; cbn; unfold sorted_entries, sorted_keys; cbn; split_and!; try done; repeat (constructor; try done).
Qed.
Lemma example_ref i t : example_memory i = Some t → points_to example_memory (root_ref i t).
Proof. intros Hi. unfold points_to. cbn. by rewrite Hi. Qed.

(** The partial comparison matches, within its price; the strict one does not. *)
Lemma compare_decides_matching_witness :
  (∃ r b' remaining', compare_accounted example_budget (Some (root_ref 0 expected_item)) (Some (root_ref 1 actual_item)) true usize_max = Ok (r, b', remaining') ∧
     run_result PartialLists example_budget (Some (root_ref 0 expected_item)) (Some (root_ref 1 actual_item)) usize_max r b' remaining') ∧
  fst <$> compare example_budget (Some (root_ref 0 expected_item)) (Some (root_ref 1 actual_item)) true =
    Ok (inl true, {| budget_limits := budget_limits example_budget; work_remaining := 999979 |}) ∧
  (λ x, x.1.1) <$> compare example_budget (Some (root_ref 0 expected_item)) (Some (root_ref 1 actual_item)) false = Ok (inl false).
Proof.
  split; [|by vm_compute].
  apply (compare_decides_matching example_memory example_budget (Some (root_ref 0 expected_item)) (Some (root_ref 1 actual_item)) true usize_max).
  - apply example_memory_sorted.
  - intros r [= <-]. by apply example_ref.
  - intros r [= <-]. by apply example_ref.
  - by vm_compute.
  - done.
Defined.

Lemma equal_is_tag_eq_witness :
  (∃ r b' remaining', equal example_budget (root_ref 0 expected_item) (root_ref 1 actual_item) = Ok (r, b', remaining') ∧
    match r with
    | inl same => same = tag_eqb expected_item actual_item
    | inr WorkLimit => work_remaining example_budget < Z.of_nat (tag_bill Exact expected_item actual_item)
    | inr CompareDepthLimit => compare_depth (budget_limits example_budget) < Z.of_nat (tag_depth expected_item)
    | inr StackLimit => stack_bytes (budget_limits example_budget) / frame_size < Z.of_nat (tag_depth expected_item)
    | inr CompareAllocationLimit => usize_max < 4 * Z.of_nat (tag_depth expected_item) * frame_size
    | inr CompareAllocationFailed => (0 < tag_depth expected_item)%nat ∧
        ∃ n, 0 < n ≤ stack_bytes (budget_limits example_budget) / frame_size ∧ reserve_exact frame_size n = None
    end) ∧
  (λ x, x.1.1) <$> equal example_budget (root_ref 0 actual_item) (root_ref 1 actual_item) = Ok (inl true).
Proof.
  split; [|by vm_compute].
  apply (equal_is_tag_eq example_memory example_budget (root_ref 0 expected_item) (root_ref 1 actual_item)).
  - apply example_memory_sorted.
  - by apply example_ref.
  - by apply example_ref.
  - by vm_compute.
Defined.
