(* ===== verification/TickTypes.v ===== *)
(** * Scheduled ticks: data (src/world/ticks.rs)

    Positions, priorities, ticks, limits and errors of the tick owner, and the
    budgeted reservation every table of the owner starts with. *)

From stdpp Require Import countable fin_maps gmap.
From S2P Require Import Prelude.
From S2P Require Import Sorted.
From S2P Require Import View.
Local Open Scope Z_scope.

Inductive TickDomain := DBlock | DFluid.

Record TickPosition := { tx : Z; ty : Z; tz : Z }.

(** [x >> 4], the chunk of a block position. *)
Definition chunk_of (p : TickPosition) : ChunkAddress :=
  {| View.x := Z.shiftr (tx p) 4; View.z := Z.shiftr (tz p) 4 |}.

Inductive TickPriority := ExtremelyHigh | VeryHigh | High | Normal | Low | VeryLow | ExtremelyLow.

(** The discriminants, which derive the order. *)
Definition priority_value (p : TickPriority) : Z :=
  match p with
  | ExtremelyHigh => -3 | VeryHigh => -2 | High => -1 | Normal => 0
  | Low => 1 | VeryLow => 2 | ExtremelyLow => 3
  end.

Definition from_value (v : Z) : TickPriority :=
  if v <=? -3 then ExtremelyHigh
  else if v =? -2 then VeryHigh
  else if v =? -1 then High
  else if v =? 0 then Normal
  else if v =? 1 then Low
  else if v =? 2 then VeryLow
  else ExtremelyLow.

Record ScheduledTick := {
  position : TickPosition;
  type_id : Z;
  trigger_tick : Z;
  priority : TickPriority;
  sub_tick_order : Z;
}.

Record Identity := { id_position : TickPosition; id_type : Z }.

Definition identity (t : ScheduledTick) : Identity := {| id_position := position t; id_type := type_id t |}.
Definition within_tick (t : ScheduledTick) : Z * Z := (priority_value (priority t), sub_tick_order t).

Record SavedTick := { saved_position : TickPosition; saved_type : Z; delay : Z; saved_priority : TickPriority }.
Record TickBounds := { bmin : TickPosition; bmax : TickPosition }.

Inductive TickError :=
| InvalidLimits | AllocationFailed | AllocationBudget | ChunkLimit | QueueFull | AlreadyRegistered
| MissingChunk | PhaseActive | NoActivePhase | UnconsumedTicks | PhaseLimit | InvalidType | InvalidBounds
| ChunkAlreadyPresent | OutputCapacity.

Definition bounds_validate (b : TickBounds) : outcome TickError () :=
  if (tx (bmax b) <? tx (bmin b)) || (ty (bmax b) <? ty (bmin b)) || (tz (bmax b) <? tz (bmin b))
  then Err InvalidBounds else Ok tt.
Definition bounds_contain (b : TickBounds) (p : TickPosition) : bool :=
  (tx (bmin b) <=? tx p) && (tx p <=? tx (bmax b)) && (ty (bmin b) <=? ty p) && (ty p <=? ty (bmax b)) &&
  (tz (bmin b) <=? tz p) && (tz p <=? tz (bmax b)).
Definition bounds_contain_chunk (b : TickBounds) (c : ChunkAddress) : bool :=
  let min := chunk_of (bmin b) in
  let max := chunk_of (bmax b) in
  (View.x min <=? View.x c) && (View.x c <=? View.x max) && (View.z min <=? View.z c) && (View.z c <=? View.z max).

Record ReadyChunk := { ready_index : nat; ready_priority : TickPriority; ready_sub_order : Z }.

#[export] Instance domain_eq_dec : EqDecision TickDomain.
Proof. solve_decision. Defined.
#[export] Instance position_eq_dec : EqDecision TickPosition.
Proof. solve_decision. Defined.
#[export] Instance priority_eq_dec : EqDecision TickPriority.
Proof. solve_decision. Defined.
#[export] Instance identity_eq_dec : EqDecision Identity.
Proof. solve_decision. Defined.
#[export] Instance identity_countable : Countable Identity.
Proof.
  apply (inj_countable' (λ i, (tx (id_position i), ty (id_position i), tz (id_position i), id_type i))
    (λ '(x, y, z, t), {| id_position := {| tx := x; ty := y; tz := z |}; id_type := t |})).
  by intros [[] ].
Defined.
#[export] Instance tick_eq_dec : EqDecision ScheduledTick.
Proof. solve_decision. Defined.

(** ** Reservation: the capacity obtained and the budget left *)

Section reserve.
Context `{Allocator}.

Definition reserved_vec (size capacity remaining : Z) : outcome TickError (Z * Z) :=
  requested ← ok_or (checked_mul capacity size) InvalidLimits;
  if remaining <? requested then Err AllocationBudget
  else
    values ← ok_or (reserve_exact size capacity) AllocationFailed;
    actual ← ok_or (checked_mul values size) AllocationBudget;
    if remaining <? actual then Err AllocationBudget
    else Ok (values, remaining - actual).

(** What a reservation yields: at least the capacity asked for, charged in full. *)
Lemma reserved_vec_ok size capacity remaining c r :
  reserved_vec size capacity remaining = Ok (c, r) →
  capacity ≤ c ∧ r = remaining - c * size ∧ 0 ≤ r.
Proof.
  unfold reserved_vec. intros Hr. apply outcome_bind_ok in Hr as (q&_&Hr). destruct (Z.ltb_spec remaining q); [done|].
  apply outcome_bind_ok in Hr as (v&Hv%ok_or_ok&Hr). apply outcome_bind_ok in Hr as (a&Ha%ok_or_ok&Hr).
  unfold checked_mul in Ha. destruct (v * size <=? usize_max); [|done]. injection Ha as <-.
  destruct (Z.ltb_spec remaining (v * size)); [done|]. injection Hr as <- <-.
  apply reserve_exact_ge in Hv. lia.
Qed.

Lemma reserved_vec_total size capacity remaining :
  reserved_vec size capacity remaining ≠ Panic ∧ reserved_vec size capacity remaining ≠ NoFuel.
Proof.
  unfold reserved_vec. destruct (checked_mul capacity size) as [q|]; mstep; [|done].
  destruct (remaining <? q); [done|]. destruct (reserve_exact _ _) as [c|]; mstep; [|done].
  destruct (checked_mul c size) as [a|]; mstep; [|done]. by destruct (remaining <? a).
Qed.
End reserve.

(** Runs the reservations of a constructor, none of which panics. *)
Ltac reservations :=
  repeat match goal with |- context [reserved_vec ?s ?c ?r] =>
    pose proof (reserved_vec_total s c r); destruct (reserved_vec s c r) as [[? ?]| | |]; mstep; try tauto end.

(** ** Finite maps held as lists of pairs *)

Section pairs.
Context {K V : Type} `{Countable K}.
Implicit Types (l rest : list (K * V)) (m : gmap K V).

Lemma pairs_lookup l m k v : l ≡ₚ map_to_list m → (k, v) ∈ l ↔ m !! k = Some v.
Proof. intros ->. apply elem_of_map_to_list. Qed.

(** Dropping, changing and adding one key. *)
Lemma pairs_drop l rest m k v : l ≡ₚ (k, v) :: rest → l ≡ₚ map_to_list m → rest ≡ₚ map_to_list (delete k m).
Proof.
  intros Hp Hm. assert (m !! k = Some v) as Hk by (apply (pairs_lookup l m k v Hm); rewrite Hp; by left).
  rewrite Hp, <- (map_to_list_delete m k v Hk) in Hm. by apply Permutation_cons_inv in Hm.
Qed.

Lemma pairs_change l rest m k v v' :
  l ≡ₚ (k, v) :: rest → l ≡ₚ map_to_list m → (k, v') :: rest ≡ₚ map_to_list (<[k := v']> m).
Proof.
  intros Hp Hm. rewrite (pairs_drop l rest m k v Hp Hm), <- insert_delete_eq. symmetry.
  apply map_to_list_insert, lookup_delete_eq.
Qed.

Lemma pairs_add l m k v : l ≡ₚ map_to_list m → m !! k = None → (k, v) :: l ≡ₚ map_to_list (<[k := v]> m).
Proof. intros Hm Hk. by rewrite map_to_list_insert, Hm. Qed.
End pairs.
