(* ===== verification/TickHeap.v ===== *)
(** * Tick queues as binary heaps (src/world/ticks/heap.rs)

    The array heap with its swap callback, the revisit tables that follow the
    swaps, and the removal pass that visits every entry once although heap
    repair moves entries across its cursor.  The callback is a state
    transformer; the predicate of the pass is one too, since the code lets it
    update the owner. *)

From Stdlib Require Import ZifyNat.
From stdpp Require Import list.
From S2P Require Import Prelude.
From S2P Require Import TickTypes.
Local Open Scope nat_scope.

Ltac Zify.zify_post_hook ::= Z.to_euclidean_division_equations.

(** Lexicographic [<] on the derived orders. *)
Definition tick_precedes (a b : ScheduledTick) : bool :=
  (trigger_tick a <? trigger_tick b)%Z ||
  (trigger_tick a =? trigger_tick b)%Z &&
    ((priority_value (priority a) <? priority_value (priority b))%Z ||
     (priority_value (priority a) =? priority_value (priority b))%Z && (sub_tick_order a <? sub_tick_order b)%Z).

Definition ready_precedes (a b : ReadyChunk) : bool :=
  (priority_value (ready_priority a) <? priority_value (ready_priority b))%Z ||
  (priority_value (ready_priority a) =? priority_value (ready_priority b))%Z &&
    (ready_sub_order a <? ready_sub_order b)%Z.

(** ** The storage helper *)

Section heap.
Context {T S E : Type} (precedes : T → T → bool) (moved : nat → nat → S → outcome E S).

Definition swap (first second : nat) (l : list T) (s : S) : outcome E (list T * S) :=
  a ← unwrap (l !! first);
  b ← unwrap (l !! second);
  s ← moved first second s;
  Ok (<[first := b]> (<[second := a]> l), s).

Fixpoint raise (fuel : nat) (index : nat) (l : list T) (s : S) : outcome E (list T * S * nat) :=
  match fuel with
  | O => NoFuel
  | Datatypes.S fuel' =>
      if index =? 0 then Ok (l, s, index)
      else
        let parent := (index - 1) / 2 in
        a ← unwrap (l !! index);
        b ← unwrap (l !! parent);
        if negb (precedes a b) then Ok (l, s, index)
        else '(l, s) ← swap index parent l s; raise fuel' parent l s
  end.

Fixpoint lower (fuel : nat) (index : nat) (l : list T) (s : S) : outcome E (list T * S * nat) :=
  match fuel with
  | O => NoFuel
  | Datatypes.S fuel' =>
      if index <? length l / 2 then
        let left := index * 2 + 1 in
        let right := left + 1 in
        child ← (if right <? length l then
                   a ← unwrap (l !! right);
                   b ← unwrap (l !! left);
                   Ok (if precedes a b then right else left)
                 else Ok left);
        c ← unwrap (l !! child);
        x ← unwrap (l !! index);
        if negb (precedes c x) then Ok (l, s, index)
        else '(l, s) ← swap index child l s; lower fuel' child l s
      else Ok (l, s, index)
  end.

Definition remove_at (index : nat) (l : list T) (s : S) : outcome E (T * option nat * list T * S) :=
  last_index ← unwrap (if length l =? 0 then None else Some (length l - 1));
  if index =? last_index then
    x ← unwrap (last l);
    Ok (x, None, removelast l, s)
  else
    '(l, s) ← swap index last_index l s;
    removed ← unwrap (last l);
    '(l, s, destination) ← lower (Datatypes.S (length l)) index (removelast l) s;
    '(l, s, destination) ←
      (if destination =? index then raise (Datatypes.S index) index l s else Ok (l, s, destination));
    Ok (removed, Some destination, l, s).
End heap.

Record Heap (T : Type) := { values : list T; limit : Z; capacity : Z }.
Arguments values {T} h.
Arguments limit {T} h.
Arguments capacity {T} h.

Section heap_owner.
Context `{Allocator} {T : Type} (precedes : T → T → bool).

Definition heap_new (size cap remaining : Z) : outcome TickError (Heap T * Z) :=
  '(c, remaining) ← reserved_vec size cap remaining;
  Ok ({| values := []; limit := cap; capacity := c |}, remaining).

(** The callback [|_, _| {}]. *)
Definition unmoved {E} (_ _ : nat) (_ : ()) : outcome E () := Ok tt.

Definition heap_push {E} (h : Heap T) (v : T) : outcome E (Heap T) :=
  _ ← assert_that (zlen (values h) <? limit h)%Z;
  let l := values h ++ [v] in
  '(l, _, _) ← raise precedes unmoved (length l) (length l - 1) l tt;
  Ok {| values := l; limit := limit h; capacity := capacity h |}.

Definition heap_pop {E} (h : Heap T) : outcome E (option T * Heap T) :=
  match values h with
  | [] => Ok (None, h)
  | _ =>
      '(x, _, l, _) ← remove_at precedes unmoved 0 (values h) tt;
      Ok (Some x, {| values := l; limit := limit h; capacity := capacity h |})
  end.

Definition heap_peek (h : Heap T) : option T := head (values h).
Definition heap_bytes (size : Z) (h : Heap T) : Z := (capacity h * size)%Z.
End heap_owner.

(** ** The revisit tables *)

Record Revisits := { positions : list nat; tickets : list (option nat) }.

(** [usize::MAX] marks a position without a ticket. *)
Definition revisits_reset (r : Revisits) : Revisits :=
  {| positions := []; tickets := replicate (length (tickets r)) None |}.

(** [cap] is the capacity of [positions]. *)
Definition defer {E} (cap : Z) (position : nat) (r : Revisits) : outcome E Revisits :=
  ticket ← unwrap (tickets r !! position);
  _ ← assert_that (if ticket is None then true else false);
  _ ← assert_that (zlen (positions r) <? cap)%Z;
  Ok {| positions := positions r ++ [position];
        tickets := <[position := Some (length (positions r))]> (tickets r) |}.

Definition follow {E} (position : nat) (r : Revisits) : outcome E Revisits :=
  ticket ← unwrap (tickets r !! position);
  match ticket with
  | None => Ok r
  | Some t =>
      _ ← unwrap (positions r !! t);
      Ok {| positions := <[t := position]> (positions r); tickets := tickets r |}
  end.

Definition swapped {E} (first second : nat) (r : Revisits) : outcome E Revisits :=
  a ← unwrap (tickets r !! first);
  b ← unwrap (tickets r !! second);
  r ← follow first {| positions := positions r; tickets := <[first := b]> (<[second := a]> (tickets r)) |};
  follow second r.

Definition take_ticket {E} (ticket : nat) (r : Revisits) : outcome E (nat * Revisits) :=
  position ← unwrap (positions r !! ticket);
  _ ← unwrap (tickets r !! position);
  Ok (position, {| positions := positions r; tickets := <[position := None]> (tickets r) |}).

(** ** The removal pass *)

Section remove_if.
Context {T P E : Type} (precedes : T → T → bool) (predicate : T → P → outcome E (bool * P)).
Context (cap : Z).

(** One iteration of the cursor loop: the next cursor. *)
Definition scan_step (cursor : nat) (l : list T) (r : Revisits) (p : P)
    : outcome E (nat * list T * Revisits * P) :=
  v ← unwrap (l !! cursor);
  '(drop_it, p) ← predicate v p;
  if negb (drop_it : bool) then Ok (S cursor, l, r, p)
  else
    '(_, destination, l, r) ← remove_at precedes swapped cursor l r;
    match destination return outcome E (nat * list T * Revisits * P) with
    | Some d =>
        if d <? cursor then r ← defer cap d r; Ok (S cursor, l, r, p)
        else Ok (cursor, l, r, p)
    | None => Ok (cursor, l, r, p)
    end.

Fixpoint scan_loop (fuel cursor : nat) (l : list T) (r : Revisits) (p : P)
    : outcome E (list T * Revisits * P) :=
  if cursor <? length l then
    match fuel with
    | O => NoFuel
    | S fuel' =>
        '(cursor, l, r, p) ← scan_step cursor l r p;
        scan_loop fuel' cursor l r p
    end
  else Ok (l, r, p).

(** The deferred visits, [count] of them from [ticket] on. *)
Fixpoint revisit_loop (count ticket : nat) (l : list T) (r : Revisits) (p : P)
    : outcome E (list T * Revisits * P) :=
  match count with
  | O => Ok (l, r, p)
  | S count' =>
      '(position, r) ← take_ticket ticket r;
      v ← unwrap (l !! position);
      '(drop_it, p) ← predicate v p;
      if (drop_it : bool) then
        '(_, _, l, r) ← remove_at precedes swapped position l r;
        revisit_loop count' (S ticket) l r p
      else revisit_loop count' (S ticket) l r p
  end.

Definition remove_if (l : list T) (r : Revisits) (p : P) : outcome E (nat * list T * Revisits * P) :=
  let original_len := length l in
  '(l, r, p) ← scan_loop original_len 0 l (revisits_reset r) p;
  '(l, r, p) ← revisit_loop (length (positions r)) 0 l r p;
  Ok (original_len - length l, l, revisits_reset r, p).
End remove_if.

(** ** The two queues *)

Record ScheduledHeap := { heap : Heap ScheduledTick; revisits : Revisits; positions_cap : Z; tickets_cap : Z }.

Section queues.
Context `{Allocator} (tick_size ready_size usize_size : Z).

Definition revisits_new (cap remaining : Z) : outcome TickError (Revisits * Z * Z * Z) :=
  '(pc, remaining) ← reserved_vec usize_size cap remaining;
  '(tc, remaining) ← reserved_vec usize_size cap remaining;
  Ok ({| positions := []; tickets := replicate (Z.to_nat cap) None |}, pc, tc, remaining).

Definition scheduled_new (cap remaining : Z) : outcome TickError (ScheduledHeap * Z) :=
  '(h, budget) ← heap_new tick_size cap remaining;
  '(r, pc, tc, budget) ← revisits_new cap budget;
  Ok ({| heap := h; revisits := r; positions_cap := pc; tickets_cap := tc |}, budget).

Definition with_heap (q : ScheduledHeap) (h : Heap ScheduledTick) : ScheduledHeap :=
  {| heap := h; revisits := revisits q; positions_cap := positions_cap q; tickets_cap := tickets_cap q |}.

Definition scheduled_len (q : ScheduledHeap) : nat := length (values (heap q)).
Definition scheduled_peek (q : ScheduledHeap) : option ScheduledTick := heap_peek (heap q).
Definition scheduled_push {E} (q : ScheduledHeap) (t : ScheduledTick) : outcome E ScheduledHeap :=
  h ← heap_push tick_precedes (heap q) t; Ok (with_heap q h).
Definition scheduled_pop {E} (q : ScheduledHeap) : outcome E (option ScheduledTick * ScheduledHeap) :=
  '(x, h) ← heap_pop tick_precedes (heap q); Ok (x, with_heap q h).
Definition scheduled_bytes (q : ScheduledHeap) : Z :=
  (heap_bytes tick_size (heap q) + (positions_cap q + tickets_cap q) * usize_size)%Z.

Definition scheduled_remove_if {P E} (predicate : ScheduledTick → P → outcome E (bool * P)) (q : ScheduledHeap) (p : P)
    : outcome E (nat * ScheduledHeap * P) :=
  '(n, l, r, p) ← remove_if tick_precedes predicate (positions_cap q) (values (heap q)) (revisits q) p;
  Ok (n, {| heap := {| values := l; limit := limit (heap q); capacity := capacity (heap q) |};
            revisits := r; positions_cap := positions_cap q; tickets_cap := tickets_cap q |}, p).

Definition ready_new (cap remaining : Z) : outcome TickError (Heap ReadyChunk * Z) := heap_new ready_size cap remaining.
Definition ready_push {E} (h : Heap ReadyChunk) (c : ReadyChunk) : outcome E (Heap ReadyChunk) :=
  heap_push ready_precedes h c.
Definition ready_pop {E} (h : Heap ReadyChunk) : outcome E (option ReadyChunk * Heap ReadyChunk) :=
  heap_pop ready_precedes h.
Definition ready_clear (h : Heap ReadyChunk) : Heap ReadyChunk :=
  {| values := []; limit := limit h; capacity := capacity h |}.
End queues.

(** ** Theory of the array heap

    Everything is proved for entries [A] that carry more than the code looks
    at ([f] projects), with a relation between the callback's state and the
    entries that follows swaps: the queues take it trivial, the removal pass
    takes entries with their tickets. *)

Definition parent (j : nat) : nat := (j - 1) / 2.

Section swap_list.
Context {A : Type}.
Implicit Types z : list A.

(** [z] with the entries of two positions exchanged. *)
Definition exchange (i j : nat) (a b : A) z : list A := <[i := b]> (<[j := a]> z).

Lemma exchange_perm i j a b z : i ≠ j → z !! i = Some a → z !! j = Some b → exchange i j a b z ≡ₚ z.
Proof.
  intros Hne Ha Hb. unfold exchange. symmetry. apply Permutation_inj. split.
  { by rewrite !length_insert. }
  exists (λ k, if decide (k = i) then j else if decide (k = j) then i else k). split.
  - intros k1 k2. repeat case_decide; naive_solver.
  - intros k. pose proof (lookup_lt_Some _ _ _ Ha). pose proof (lookup_lt_Some _ _ _ Hb).
    repeat case_decide; subst.
    + rewrite list_lookup_insert_ne, list_lookup_insert_eq by lia. done.
    + rewrite list_lookup_insert_eq; [done|by rewrite length_insert].
    + by rewrite !list_lookup_insert_ne by done.
Qed.

Lemma exchange_lookup i j a b z k :
  i ≠ j → z !! i = Some a → z !! j = Some b →
  exchange i j a b z !! k = if decide (k = i) then Some b else if decide (k = j) then Some a else z !! k.
Proof.
  intros Hne Ha Hb. unfold exchange. pose proof (lookup_lt_Some _ _ _ Ha). pose proof (lookup_lt_Some _ _ _ Hb).
  repeat case_decide; subst.
  - rewrite list_lookup_insert_eq; [done|by rewrite length_insert].
  - rewrite list_lookup_insert_ne, list_lookup_insert_eq by (done || lia). done.
  - by rewrite !list_lookup_insert_ne by done.
Qed.

Lemma length_exchange i j a b z : length (exchange i j a b z) = length z.
Proof. unfold exchange. by rewrite !length_insert. Qed.
End swap_list.

Lemma parent_lt j : 0 < j → parent j < j.
Proof. unfold parent. lia. Qed.
Lemma parent_child i j : 0 < j → parent j = i ↔ j = 2 * i + 1 ∨ j = 2 * i + 2.
Proof. unfold parent. lia. Qed.

Section theory.
Context {T S A E : Type} (precedes : T → T → bool) (moved : nat → nat → S → outcome E S).
Context (f : A → T) (rel : S → list A → Prop) (plain : A → Prop).

(** [a] may stand above [b]. *)
Definition le (a b : A) : Prop := precedes (f b) (f a) = false.
Hypothesis le_trans : ∀ a b c, le a b → le b c → le a c.
Hypothesis le_total : ∀ a b, precedes (f a) (f b) = true → le a b.
Hypothesis moved_ok : ∀ s z i j a b,
  rel s z → z !! i = Some a → z !! j = Some b → i ≠ j → ∃ s', moved i j s = Ok s' ∧ rel s' (exchange i j a b z).
Hypothesis rel_pop : ∀ s z a, rel s (z ++ [a]) → plain a → rel s z.

Definition ordered_at (z : list A) (j : nat) : Prop :=
  0 < j → ∀ a p, z !! j = Some a → z !! parent j = Some p → le p a.
Definition heap_ok (z : list A) : Prop := ∀ j, ordered_at z j.

(** Ordered everywhere but around the entry at [i], whose children are above
    nothing that its parent should be above. *)
Definition hole_ok (z : list A) (i : nat) : Prop :=
  (∀ j, j ≠ i → (0 < j → parent j ≠ i) → ordered_at z j) ∧
  (0 < i → ∀ j a p, 0 < j → parent j = i → z !! j = Some a → z !! parent i = Some p → le p a).
Definition children_ok (z : list A) (i : nat) : Prop := ∀ j, 0 < j → parent j = i → ordered_at z j.

Lemma heap_hole z i : heap_ok z → hole_ok z i.
Proof using le_trans.
  intros Hz. split; [intros j _ _; apply Hz|]. intros Hi j a p Hj Hp Ha Hpp.
  destruct (z !! i) as [b|] eqn:Eb.
  - apply (le_trans p b a); [by apply (Hz i Hi)|]. apply (Hz j Hj a b Ha). by rewrite Hp.
  - apply lookup_ge_None in Eb. apply lookup_lt_Some in Ha. pose proof (parent_lt j Hj). lia.
Qed.

Lemma swap_spec z s i j a b :
  rel s z → z !! i = Some a → z !! j = Some b → i ≠ j →
  ∃ s', swap moved i j (f <$> z) s = Ok (f <$> exchange i j a b z, s') ∧ rel s' (exchange i j a b z).
Proof using moved_ok.
  intros Hr Ha Hb Hne. unfold swap. rewrite !list_lookup_fmap, Ha, Hb. mstep. cbn [fmap option_fmap option_map unwrap].
  mstep. destruct (moved_ok s z i j a b Hr Ha Hb Hne) as (s'&->&Hr'). mstep. exists s'. split; [|done].
  unfold exchange. by rewrite !list_fmap_insert.
Qed.

(** Moving an entry up past a larger parent. *)
Lemma raise_step_ok z i a p :
  0 < i → z !! i = Some a → z !! parent i = Some p → precedes (f a) (f p) = true →
  hole_ok z i → children_ok z i →
  hole_ok (exchange i (parent i) a p z) (parent i) ∧ children_ok (exchange i (parent i) a p z) (parent i).
Proof using le_trans le_total.
  intros Hi Ha Hp Hlt [Hord Hgrand] Hch. pose proof (parent_lt i Hi) as Hpi.
  assert (Hne : i ≠ parent i) by lia. pose proof (le_total a p Hlt) as Hap.
  assert (Hl := λ k, exchange_lookup i (parent i) a p z k Hne Ha Hp).
  (* the other children of the parent stay above nothing smaller than [p] *)
  assert (Hsib : ∀ j c, 0 < j → j ≠ i → parent j = parent i → z !! j = Some c → le p c).
  { intros j c Hj Hji Hjp Hc. apply (Hord j Hji); [|done|done|by rewrite Hjp].
    intros _ Epi. rewrite Epi in Hjp. lia. }
  repeat split.
  - intros j Hjn Hjc Hj c q Hc Hq. specialize (Hjc Hj). rewrite Hl in Hc, Hq. pose proof (parent_lt j Hj).
    destruct (decide (j = i)) as [->|]; [done|]. rewrite decide_False in Hc by done.
    destruct (decide (parent j = i)) as [Hji|].
    + injection Hq as <-. by apply (Hgrand Hi j c p).
    + rewrite decide_False in Hq by done. by apply (Hord j).
  - intros Hp0 j c g Hj Hjp Hc Hg. rewrite Hl in Hc, Hg. pose proof (parent_lt (parent i) Hp0).
    rewrite !decide_False in Hg by lia.
    assert (Hgp : le g p) by (apply (Hord (parent i)); [lia|lia|done|done|done]).
    destruct (decide (j = i)) as [->|]; [by injection Hc as <-|].
    rewrite decide_False in Hc by (pose proof (parent_lt j Hj); lia). apply (le_trans g p c); [done|]. by apply (Hsib j).
  - intros j Hj Hjp _ c q Hc Hq. rewrite Hl in Hc, Hq. rewrite Hjp, decide_False, decide_True in Hq by (done || lia).
    injection Hq as <-. destruct (decide (j = i)) as [->|]; [by injection Hc as <-|].
    rewrite decide_False in Hc by (pose proof (parent_lt j Hj); lia). apply (le_trans a p c); [done|]. by apply (Hsib j).
Qed.

Lemma hole_closed z i :
  hole_ok z i → children_ok z i → ordered_at z i → heap_ok z.
Proof using Type.
  intros [Hord _] Hch Hi j. destruct (decide (j = i)) as [->|Hne]; [done|].
  intros Hj. destruct (decide (parent j = i)) as [Hp|Hp]; [by apply (Hch j Hj Hp)|by apply (Hord j)].
Qed.

Lemma raise_spec fuel : ∀ z s i x,
  i < fuel → rel s z → z !! i = Some x → hole_ok z i → children_ok z i →
  ∃ z' s' d, raise precedes moved fuel i (f <$> z) s = Ok (f <$> z', s', d) ∧ rel s' z' ∧ z' ≡ₚ z ∧ heap_ok z' ∧
    d ≤ i ∧ z' !! d = Some x ∧ (∀ j, i < j → z' !! j = z !! j) ∧ (d = i → z' = z).
Proof using le_trans le_total moved_ok.
  induction fuel as [|fuel IH]; intros z s i x Hf Hr Hx Hh Hc; [lia|]. cbn [raise].
  destruct (Nat.eqb_spec i 0) as [->|Hi].
  { exists z, s, 0. split_and!; try done. by apply (hole_closed z 0); [..|intros ?; lia]. }
  assert (Hpi := parent_lt i ltac:(lia)). fold (parent i).
  destruct (lookup_lt_is_Some_2 z (parent i)) as [p Hp]; [apply lookup_lt_Some in Hx; lia|].
  rewrite !list_lookup_fmap, Hx, Hp. cbn [fmap option_fmap option_map unwrap]. mstep.
  destruct (precedes (f x) (f p)) eqn:Elt; cbn [negb].
  - destruct (swap_spec z s i (parent i) x p Hr Hx Hp ltac:(lia)) as (s1&->&Hr1). mstep.
    destruct (raise_step_ok z i x p ltac:(lia) Hx Hp Elt Hh Hc) as [Hh1 Hc1].
    assert (Hx1 : exchange i (parent i) x p z !! parent i = Some x).
    { rewrite exchange_lookup, decide_False, decide_True by (done || lia). done. }
    destruct (IH _ s1 (parent i) x ltac:(lia) Hr1 Hx1 Hh1 Hc1) as (z'&s'&d&->&Hr'&Hperm&Hok&Hd&Hxd&Hrest&_).
    exists z', s', d. split_and!; try done; [by rewrite Hperm, exchange_perm by (done || lia)|lia| |lia].
    intros j Hj. rewrite Hrest by lia. rewrite exchange_lookup, !decide_False by (done || lia). done.
  - exists z, s, i. split_and!; try done. apply (hole_closed z i Hh Hc). intros _ a q Ha Hq. by simplify_eq.
Qed.

Lemma le_refl v : le v v.
Proof using le_total.
  destruct (precedes (f v) (f v)) eqn:Ev; [|done]. by apply le_total.
Qed.

(** Moving an entry down past its smallest child. *)
Lemma lower_step_ok z i c x v :
  0 < c → parent c = i → z !! i = Some x → z !! c = Some v → precedes (f v) (f x) = true →
  (∀ j a, 0 < j → parent j = i → z !! j = Some a → le v a) →
  hole_ok z i → hole_ok (exchange i c x v z) c ∧ ordered_at (exchange i c x v z) c.
Proof using le_total.
  intros Hc Hci Hx Hv Hlt Hmin [Hord Hgrand]. pose proof (parent_lt c Hc) as Hic.
  assert (Hne : i ≠ c) by lia. assert (Hl := λ k, exchange_lookup i c x v z k Hne Hx Hv).
  repeat split.
  - intros j Hjc Hjp Hj a q Ha Hq. specialize (Hjp Hj). rewrite Hl in Ha, Hq. pose proof (parent_lt j Hj).
    rewrite (decide_False (P := parent j = c)) in Hq by done. rewrite (decide_False (P := j = c)) in Ha by done.
    destruct (decide (j = i)) as [->|Hji].
    + rewrite decide_False in Hq by lia. injection Ha as <-. by apply (Hgrand Hj c v q).
    + destruct (decide (parent j = i)) as [Hpi|Hpi]; [injection Hq as <-; by apply (Hmin j)|by apply (Hord j)].
  - intros _ j a q Hj Hjc Ha Hq. rewrite Hl in Ha, Hq. pose proof (parent_lt j Hj).
    rewrite !decide_False in Ha by lia. rewrite Hci, decide_True in Hq by done. injection Hq as <-.
    apply (Hord j); [lia|lia|done|done|by rewrite Hjc].
  - intros _ a q Ha Hq. rewrite Hl in Ha, Hq. rewrite Hci, decide_True in Hq by done. injection Hq as <-.
    rewrite decide_False, decide_True in Ha by (done || lia). injection Ha as <-. by apply le_total.
Qed.

Lemma lower_spec fuel : ∀ z s i x,
  length z < i + fuel → rel s z → z !! i = Some x → hole_ok z i →
  ∃ z' s' d, lower precedes moved fuel i (f <$> z) s = Ok (f <$> z', s', d) ∧ rel s' z' ∧ z' ≡ₚ z ∧
    hole_ok z' d ∧ children_ok z' d ∧ i ≤ d ∧ z' !! d = Some x ∧ (∀ j, j < i → z' !! j = z !! j) ∧
    (d = i ∧ z' = z ∨ i < d ∧ ordered_at z' d).
Proof using le_trans le_total moved_ok.
  induction fuel as [|fuel IH]; intros z s i x Hf Hr Hx Hh; [apply lookup_lt_Some in Hx; lia|]. cbn [lower].
  rewrite length_fmap. pose proof (lookup_lt_Some _ _ _ Hx) as Hi.
  destruct (Nat.ltb_spec i (length z / 2)) as [Hlt|Hge].
  2: { exists z, s, i. split_and!; try done; [|by left].
       intros j Hj Hji _ a p Ha Hp. apply lookup_lt_Some in Ha. apply parent_child in Hji; lia. }
  assert (Hc : ∃ c v, 0 < c ∧ parent c = i ∧ z !! c = Some v ∧
    (if i * 2 + 1 + 1 <? length z then
       a ← unwrap ((f <$> z) !! (i * 2 + 1 + 1)); b ← unwrap ((f <$> z) !! (i * 2 + 1));
       Ok (if precedes a b then i * 2 + 1 + 1 else i * 2 + 1)
     else Ok (i * 2 + 1)) = Ok (E := E) c ∧
    ∀ j a, 0 < j → parent j = i → z !! j = Some a → le v a).
  { destruct (lookup_lt_is_Some_2 z (i * 2 + 1)) as [b Hb]; [lia|].
    destruct (Nat.ltb_spec (i * 2 + 1 + 1) (length z)) as [Hr2|Hr2].
    - destruct (lookup_lt_is_Some_2 z (i * 2 + 1 + 1)) as [a Ha]; [lia|].
      rewrite !list_lookup_fmap, Ha, Hb. cbn [fmap option_fmap option_map unwrap]. mstep.
      destruct (precedes (f a) (f b)) eqn:Eab; [exists (i * 2 + 1 + 1), a|exists (i * 2 + 1), b];
        (split_and!; [lia|apply parent_child; lia|done|done|]); intros j v Hj Hji Hv;
        (apply parent_child in Hji as [Hji|Hji]; [replace j with (i * 2 + 1) in Hv by lia
          |replace j with (i * 2 + 1 + 1) in Hv by lia|done]); simplify_eq; first [exact Eab|by apply le_total|apply le_refl].
    - exists (i * 2 + 1), b. split_and!; [lia|apply parent_child; lia|done|done|]. intros j v Hj Hji Hv.
      pose proof (lookup_lt_Some _ _ _ Hv). apply parent_child in Hji as [Hji|Hji]; [|lia|done].
      replace j with (i * 2 + 1) in Hv by lia. simplify_eq. apply le_refl. }
  destruct Hc as (c&v&Hc0&Hci&Hv&->&Hmin). mstep. rewrite !list_lookup_fmap, Hv, Hx.
  cbn [fmap option_fmap option_map unwrap]. mstep. pose proof (parent_lt c Hc0).
  destruct (precedes (f v) (f x)) eqn:Elt; cbn [negb].
  - destruct (swap_spec z s i c x v Hr Hx Hv ltac:(lia)) as (s1&->&Hr1). mstep.
    destruct (lower_step_ok z i c x v Hc0 Hci Hx Hv Elt Hmin Hh) as [Hh1 Ho1].
    assert (Hx1 : exchange i c x v z !! c = Some x).
    { rewrite exchange_lookup, decide_False, decide_True by (done || lia). done. }
    destruct (IH (exchange i c x v z) s1 c x ltac:(rewrite length_exchange; lia) Hr1 Hx1 Hh1) as (z'&s'&d&->&Hr'&Hperm&Hh'&Hc'&Hd&Hxd&Hrest&Hlast).
    exists z', s', d. split_and!; try done; [by rewrite Hperm, exchange_perm by (done || lia)|lia| |].
    + intros j Hj. rewrite Hrest by lia. rewrite exchange_lookup, !decide_False by (done || lia). done.
    + right. destruct Hlast as [[-> ->]|[? ?]]; (split; [lia|done]).
  - exists z, s, i. split_and!; try done; [|by left].
    intros j Hj Hji _ a p Ha Hp. rewrite Hji, Hx in Hp. injection Hp as <-. apply (le_trans x v a); [done|]. by apply (Hmin j).
Qed.

(** Removal: the entry at [index] leaves, and the former last entry is reported
    where it lands. *)
Lemma remove_at_spec z s index x :
  heap_ok z → rel s z → z !! index = Some x → plain x →
  ∃ z' s' o, remove_at precedes moved index (f <$> z) s = Ok (f x, o, f <$> z', s') ∧
    rel s' z' ∧ x :: z' ≡ₚ z ∧ heap_ok z' ∧
    match o with
    | None => z = z' ++ [x] ∧ index = length z'
    | Some d => ∃ y, index < length z' ∧ z !! length z' = Some y ∧ z' !! d = Some y ∧
        (∀ j, j < index → index ≤ d → z' !! j = z !! j) ∧
        (∀ j, index < j → j < length z' → d < index → z' !! j = z !! j)
    end.
Proof using le_trans le_total moved_ok rel_pop.
  intros Hok Hr Hx Hpl. pose proof (lookup_lt_Some _ _ _ Hx) as Hi. unfold remove_at.
  rewrite length_fmap. destruct (Nat.eqb_spec (length z) 0); [lia|]. cbn [unwrap]. mstep.
  destruct z as [|y z0 _] using rev_ind; [cbn in Hi; lia|].
  rewrite length_app in *. cbn [length] in *. rewrite fmap_app. cbn [fmap list_fmap].
  destruct (Nat.eqb_spec index (length z0 + 1 - 1)) as [->|Hne].
  - replace (length z0 + 1 - 1) with (length z0) in * by lia. rewrite last_snoc, removelast_last. mstep.
    rewrite lookup_app_r, Nat.sub_diag in Hx by lia. injection Hx as <-.
    exists z0, s, None. split; [done|]. split; [by eapply rel_pop|]. split; [by rewrite Permutation_cons_append|].
    split; [|done]. intros j Hj a p Ha Hp.
    apply (Hok j Hj); rewrite lookup_app_l by (by eapply lookup_lt_Some); done.
  - rewrite lookup_app_l in Hx by lia.
    assert (Hlast : (z0 ++ [y]) !! (length z0 + 1 - 1) = Some y).
    { rewrite lookup_app_r by lia. by replace (length z0 + 1 - 1 - length z0) with 0 by lia. }
    assert (Hx' : (z0 ++ [y]) !! index = Some x) by (by rewrite lookup_app_l by lia).
    destruct (swap_spec (z0 ++ [y]) s index (length z0 + 1 - 1) x y Hr Hx' Hlast Hne) as (s1&Hsw&Hr1).
    rewrite fmap_app in Hsw. cbn [fmap list_fmap] in Hsw. rewrite Hsw. mstep.
    assert (Hex : exchange index (length z0 + 1 - 1) x y (z0 ++ [y]) = <[index := y]> z0 ++ [x]).
    { unfold exchange. rewrite insert_app_r_alt by lia. replace (length z0 + 1 - 1 - length z0) with 0 by lia. cbn.
      by rewrite insert_app_l by lia. }
    rewrite Hex in *. rewrite fmap_app. cbn [fmap list_fmap]. rewrite last_snoc, removelast_last. cbn [unwrap]. mstep.
    apply rel_pop in Hr1; [|done]. set (z1 := <[index := y]> z0) in *.
    assert (Hlen1 : length z1 = length z0) by (unfold z1; by rewrite length_insert).
    assert (Hy1 : z1 !! index = Some y) by (unfold z1; apply list_lookup_insert_eq; lia).
    assert (Hz1 : ∀ j, j ≠ index → j < length z0 → z1 !! j = (z0 ++ [y]) !! j).
    { intros j Hj Hlt. unfold z1. rewrite list_lookup_insert_ne by done. by rewrite lookup_app_l by done. }
    assert (Hperm1 : x :: z1 ≡ₚ z0 ++ [y]).
    { rewrite <- (exchange_perm index (length z0 + 1 - 1) x y (z0 ++ [y])) by done. rewrite Hex.
      by rewrite Permutation_cons_append. }
    assert (Hh1 : hole_ok z1 index).
    { destruct (heap_hole _ index Hok) as [Hord Hgrand]. split.
      - intros j Hj Hjp H0 a p Ha Hp. pose proof (lookup_lt_Some _ _ _ Ha). pose proof (parent_lt j H0).
        rewrite Hz1 in Ha, Hp by (auto || lia). by apply (Hord j).
      - intros H0 j a p Hj Hjp Ha Hp. pose proof (lookup_lt_Some _ _ _ Ha). pose proof (parent_lt j Hj). pose proof (parent_lt index H0).
        rewrite Hz1 in Ha, Hp by lia. by apply (Hgrand H0 j). }
    rewrite length_app, length_fmap. cbn [length].
    destruct (lower_spec (Datatypes.S (length z1 + 1)) z1 s1 index y ltac:(lia) Hr1 Hy1 Hh1)
      as (z2&s2&d&Hlow&Hr2&Hperm2&Hh2&Hc2&Hd&Hyd&Hrest2&Hcase). rewrite Hlow. mstep.
    assert (Hlen2 : length z2 = length z0) by (by rewrite Hperm2).
    destruct Hcase as [[-> ->]|[Hlt Hord2]].
    + rewrite Nat.eqb_refl. destruct (raise_spec (Datatypes.S index) z1 s2 index y ltac:(lia) Hr2 Hy1 Hh2 Hc2)
        as (z3&s3&d3&->&Hr3&Hperm3&Hok3&Hd3&Hyd3&Hrest3&Hsame). mstep.
      assert (Hlen3 : length z3 = length z0) by (by rewrite Hperm3).
      exists z3, s3, (Some d3). split; [done|]. split; [done|]. split; [by rewrite Hperm3|]. split; [done|].
      exists y. rewrite Hlen3. split_and!; [lia|by replace (length z0) with (length z0 + 1 - 1) by lia|done| |].
      * intros j Hj Hjd. rewrite (Hsame ltac:(lia)). apply Hz1; lia.
      * intros j Hj Hjl _. rewrite Hrest3 by done. apply Hz1; lia.
    + destruct (Nat.eqb_spec d index); [lia|]. mstep. exists z2, s2, (Some d). split; [done|]. split; [done|].
      split; [by rewrite Hperm2|]. split; [by apply (hole_closed z2 d)|].
      exists y. rewrite Hlen2. split_and!; [lia|by replace (length z0) with (length z0 + 1 - 1) by lia|done| |lia].
      intros j Hj _. rewrite Hrest2 by done. apply Hz1; lia.
Qed.
End theory.

(** ** The orders *)

Class Order {T} (precedes : T → T → bool) : Prop := {
  order_trans a b c : precedes b a = false → precedes c b = false → precedes c a = false;
  order_total a b : precedes a b = true → precedes b a = false
}.

Section lexicographic.
Local Open Scope Z_scope.

Lemma tick_precedes_iff a b :
  tick_precedes a b = true ↔
    trigger_tick a < trigger_tick b ∨ trigger_tick a = trigger_tick b ∧
      (priority_value (priority a) < priority_value (priority b) ∨
       priority_value (priority a) = priority_value (priority b) ∧ sub_tick_order a < sub_tick_order b).
Proof. unfold tick_precedes. rewrite !orb_true_iff, !andb_true_iff, !orb_true_iff, !andb_true_iff, !Z.ltb_lt, !Z.eqb_eq. done. Qed.

Lemma ready_precedes_iff a b :
  ready_precedes a b = true ↔
    priority_value (ready_priority a) < priority_value (ready_priority b) ∨
    priority_value (ready_priority a) = priority_value (ready_priority b) ∧ ready_sub_order a < ready_sub_order b.
Proof. unfold ready_precedes. rewrite !orb_true_iff, !andb_true_iff, !Z.ltb_lt, !Z.eqb_eq. done. Qed.

#[export] Instance tick_order : Order tick_precedes.
Proof.
  split.
  - intros a b c. rewrite <- !not_true_iff_false, !tick_precedes_iff. lia.
  - intros a b. rewrite <- !not_true_iff_false, !tick_precedes_iff. lia.
Qed.
#[export] Instance ready_order : Order ready_precedes.
Proof.
  split.
  - intros a b c. rewrite <- !not_true_iff_false, !ready_precedes_iff. lia.
  - intros a b. rewrite <- !not_true_iff_false, !ready_precedes_iff. lia.
Qed.
End lexicographic.

(** ** Heaps without bookkeeping *)

Section plain_heap.
Context {T : Type} (precedes : T → T → bool) `{!Order precedes}.

Definition above (a b : T) : Prop := precedes b a = false.
Definition heap_ordered (l : list T) : Prop := heap_ok precedes id l.

Lemma above_trans a b c : above a b → above b c → above a c.
Proof using All. unfold above. intros. by apply (order_trans a b c). Qed.
Lemma above_refl a : above a a.
Proof using All. unfold above. destruct (precedes a a) eqn:Ea; [|done]. pose proof (order_total a a Ea); congruence. Qed.

Lemma heap_root l m : heap_ordered l → l !! 0 = Some m → Forall (above m) l.
Proof using All.
  intros Hl Hm. apply Forall_lookup. intros j. induction (Nat.lt_wf_0 j) as [j _ IH]. intros a Ha.
  destruct (decide (j = 0)) as [->|Hj]; [simplify_eq; apply above_refl|].
  pose proof (parent_lt j ltac:(lia)) as Hp.
  destruct (lookup_lt_is_Some_2 l (parent j)) as [p Hpl]; [apply lookup_lt_Some in Ha; lia|].
  apply (above_trans m p a); [by apply (IH _ Hp)|by apply (Hl j ltac:(lia))].
Qed.

Lemma heap_tail_free l v : heap_ordered l → hole_ok precedes id (l ++ [v]) (length l) ∧ children_ok precedes id (l ++ [v]) (length l).
Proof using Type.
  intros Hl. split; [split|].
  - intros j Hj _ H0 a p Ha Hp. pose proof (lookup_lt_Some _ _ _ Ha) as Hlt. rewrite length_app in Hlt. cbn in Hlt.
    pose proof (parent_lt j H0). rewrite lookup_app_l in Ha, Hp by lia. by apply (Hl j).
  - intros _ j a p H0 Hjp Ha _. apply lookup_lt_Some in Ha. rewrite length_app in Ha. cbn in Ha. pose proof (parent_lt j H0). lia.
  - intros j H0 Hjp _ a p Ha _. apply lookup_lt_Some in Ha. rewrite length_app in Ha. cbn in Ha. pose proof (parent_lt j H0). lia.
Qed.

Lemma push_spec {E} l v :
  heap_ordered l →
  ∃ l' d, raise precedes (unmoved (E := E)) (length (l ++ [v])) (length (l ++ [v]) - 1) (l ++ [v]) tt = Ok (l', tt, d) ∧
    l' ≡ₚ v :: l ∧ heap_ordered l'.
Proof using All.
  intros Hl. destruct (heap_tail_free l v Hl) as [Hh Hc]. rewrite length_app. cbn [length].
  replace (length l + 1 - 1) with (length l) by lia.
  assert (Hv : (l ++ [v]) !! length l = Some v) by (by rewrite lookup_app_r, Nat.sub_diag by lia).
  destruct (raise_spec precedes (unmoved (E := E)) id (λ _ _, True) above_trans (λ a b, order_total a b)
    ltac:(intros [] z i j a b _ _ _ _; by exists tt) (length l + 1) (l ++ [v]) tt (length l) v ltac:(lia) I Hv Hh Hc)
    as (z'&[]&d&Hr&_&Hp&Hok&_). rewrite !list_fmap_id in Hr.
  exists z', d. split; [exact Hr|]. split; [|done]. rewrite Hp. symmetry. apply Permutation_cons_append.
Qed.

Lemma pop_spec {E} l x :
  heap_ordered l → l !! 0 = Some x →
  ∃ l' o, remove_at precedes (unmoved (E := E)) 0 l tt = Ok (x, o, l', tt) ∧ x :: l' ≡ₚ l ∧ heap_ordered l'.
Proof using All.
  intros Hl Hx.
  destruct (remove_at_spec precedes (unmoved (E := E)) id (λ _ _, True) (λ _, True) above_trans (λ a b, order_total a b)
    ltac:(intros [] z i j a b _ _ _ _; by exists tt) ltac:(done) l tt 0 x Hl I Hx I) as (z'&[]&o&Hr&_&Hp&Hok&_).
  rewrite !list_fmap_id in Hr. eauto.
Qed.
End plain_heap.

(** ** The revisit tables follow the swaps *)

Section tickets.
Context {T : Type}.
Implicit Types z : list (T * option nat).

Record tracks (r : Revisits) z : Prop := {
  tr_len : length z ≤ length (tickets r);
  tr_here : ∀ j a, z !! j = Some a → tickets r !! j = Some a.2;
  tr_free : ∀ j, length z ≤ j → j < length (tickets r) → tickets r !! j = Some None;
  tr_back : ∀ j a k, z !! j = Some a → a.2 = Some k → positions r !! k = Some j
}.

Lemma swapped_tracks {E} r z i j a b :
  tracks r z → z !! i = Some a → z !! j = Some b → i ≠ j →
  ∃ r', swapped (E := E) i j r = Ok r' ∧ tracks r' (exchange i j a b z) ∧
    length (positions r') = length (positions r) ∧ length (tickets r') = length (tickets r).
Proof.
  intros [Hlen Hhere Hfree Hback] Ha Hb Hne. unfold swapped.
  rewrite (Hhere i a Ha), (Hhere j b Hb). mstep.
  pose proof (lookup_lt_Some _ _ _ Ha). pose proof (lookup_lt_Some _ _ _ Hb).
  set (t' := <[i := b.2]> (<[j := a.2]> (tickets r))).
  assert (Hti : t' !! i = Some b.2) by (unfold t'; rewrite list_lookup_insert_eq; [done|rewrite length_insert; lia]).
  assert (Htj : t' !! j = Some a.2) by (unfold t'; rewrite list_lookup_insert_ne, list_lookup_insert_eq by (done || lia); done).
  assert (Htm : ∀ m, m ≠ i → m ≠ j → t' !! m = tickets r !! m) by (intros m ??; unfold t'; by rewrite !list_lookup_insert_ne by done).
  assert (Hlt' : length t' = length (tickets r)) by (unfold t'; by rewrite !length_insert).
  (* whatever the positions become, they are right for the live tickets *)
  assert (Hdone : ∀ p', length p' = length (positions r) →
    (∀ k, b.2 = Some k → p' !! k = Some i) → (∀ k, a.2 = Some k → p' !! k = Some j) →
    (∀ k, b.2 ≠ Some k → a.2 ≠ Some k → p' !! k = positions r !! k) →
    tracks {| positions := p'; tickets := t' |} (exchange i j a b z)).
  { intros p' Hp Hbk Hak Hrest. split; cbn.
    - unfold t'. rewrite length_exchange, !length_insert. done.
    - intros m e. rewrite exchange_lookup by done. repeat case_decide; subst; [by intros [= <-]..|]. rewrite Htm by done. apply Hhere.
    - intros m. rewrite length_exchange. unfold t'. rewrite !length_insert. intros ??. rewrite Htm by lia. by apply Hfree.
    - intros m e k. rewrite exchange_lookup by done. repeat case_decide; subst; intros He Hk; [simplify_eq; auto..|].
      rewrite Hrest; [by eapply Hback|intros Hx..].
      + pose proof (Hback _ _ _ He Hk). pose proof (Hback _ _ _ Hb Hx). congruence.
      + pose proof (Hback _ _ _ He Hk). pose proof (Hback _ _ _ Ha Hx). congruence. }
  assert (Hbp : ∀ k, b.2 = Some k → positions r !! k = Some j) by (intros; by eapply Hback).
  assert (Hap : ∀ k, a.2 = Some k → positions r !! k = Some i) by (intros; by eapply Hback).
  unfold follow. cbn [tickets positions]. rewrite Hti. mstep. destruct (b.2) as [kb|] eqn:Eb.
  - rewrite (Hbp kb eq_refl). mstep. cbn [tickets positions]. rewrite Htj. mstep.
    pose proof (lookup_lt_Some _ _ _ (Hbp kb eq_refl)). destruct (a.2) as [ka|] eqn:Ea.
    + assert (kb ≠ ka) by (intros ->; pose proof (Hap ka eq_refl); pose proof (Hbp ka eq_refl); congruence).
      pose proof (lookup_lt_Some _ _ _ (Hap ka eq_refl)).
      rewrite list_lookup_insert_ne, (Hap ka eq_refl) by done. mstep. eexists. split; [done|]. split; [|split; [cbn; by rewrite ?length_insert|done]].
      apply Hdone; [by rewrite !length_insert|intros k [= <-]..|intros k ? ?].
      * rewrite list_lookup_insert_ne, list_lookup_insert_eq by (done || lia). done.
      * rewrite list_lookup_insert_eq; [done|rewrite length_insert; lia].
      * rewrite !list_lookup_insert_ne by congruence. done.
    + eexists. split; [done|]. split; [|split; [cbn; by rewrite ?length_insert|done]].
      apply Hdone; [by rewrite !length_insert|intros k [= <-]; by rewrite list_lookup_insert_eq|done|].
      intros k ? _. by rewrite list_lookup_insert_ne by congruence.
  - mstep. cbn [tickets positions]. rewrite Htj. mstep. destruct (a.2) as [ka|] eqn:Ea.
    + rewrite (Hap ka eq_refl). mstep. pose proof (lookup_lt_Some _ _ _ (Hap ka eq_refl)).
      eexists. split; [done|]. split; [|split; [cbn; by rewrite ?length_insert|done]].
      apply Hdone; [by rewrite !length_insert|done|intros k [= <-]; by rewrite list_lookup_insert_eq|].
      intros k _ ?. by rewrite list_lookup_insert_ne by congruence.
    + eexists. split; [done|]. split; [|done]. by apply Hdone.
Qed.

Definition untracked (a : T * option nat) : Prop := a.2 = None.
#[global] Instance untracked_dec a : Decision (untracked a).
Proof. unfold untracked. apply _. Defined.

Lemma tracks_pop r z a : tracks r (z ++ [a]) → untracked a → tracks r z.
Proof.
  intros [Hlen Hhere Hfree Hback] Ha. rewrite length_app in *. cbn in *. split.
  - lia.
  - intros j e He. apply Hhere. by apply lookup_app_l_Some.
  - intros j Hj Hlt. destruct (decide (j = length z)) as [->|]; [|apply Hfree; lia].
    rewrite (Hhere (length z) a); [by rewrite Ha|]. by rewrite lookup_app_r, Nat.sub_diag by lia.
  - intros j e k He. apply Hback. by apply lookup_app_l_Some.
Qed.

(** The live tickets. *)
Definition live z : list nat := omap snd z.

Lemma live_elem z k : k ∈ live z ↔ ∃ j a, z !! j = Some a ∧ a.2 = Some k.
Proof.
  unfold live. rewrite list_elem_of_omap. split.
  - intros (a&Ha&Hk). apply list_elem_of_lookup in Ha as [j Hj]. eauto.
  - intros (j&a&Hj&Hk). exists a. split; [by eapply list_elem_of_lookup_2|done].
Qed.

Lemma tracks_reset l r : length l ≤ length (tickets r) → tracks (revisits_reset r) ((λ v, (v, None)) <$> l).
Proof.
  intros Hl. split; cbn.
  - by rewrite length_fmap, length_replicate.
  - intros j a Ha. apply list_lookup_fmap_Some in Ha as (v&->&Hv). apply lookup_lt_Some in Hv. apply lookup_replicate_2. lia.
  - intros j _ Hj. rewrite length_replicate in Hj. by apply lookup_replicate_2.
  - intros j a k Ha Hk. apply list_lookup_fmap_Some in Ha as (v&->&_). done.
Qed.

Lemma perm_insert {A} (l : list A) i a b : l !! i = Some a → a :: <[i := b]> l ≡ₚ b :: l.
Proof.
  intros Ha. pose proof (lookup_lt_Some _ _ _ Ha). rewrite insert_take_drop by done.
  transitivity (a :: b :: take i l ++ drop (S i) l).
  { constructor. symmetry. apply Permutation_middle. }
  rewrite Permutation_swap. constructor. rewrite Permutation_middle. by rewrite (take_drop_middle l i a Ha).
Qed.
End tickets.

(** ** The removal pass visits every entry once *)

Section pass.
Context {T P E : Type} (precedes : T → T → bool) `{!Order precedes}.
Context (predicate : T → P → outcome E (bool * P)) (cap : Z) (room : nat) (good : P → Prop).
Hypothesis predicate_ok : ∀ v p, good p → ∃ b p', predicate v p = Ok (b, p') ∧ good p'.
Implicit Types z : list (T * option nat).

(** A run of calls of the predicate, with its answers. *)
Inductive calls : P → list (T * bool) → P → Prop :=
| calls_nil p : calls p [] p
| calls_cons p v b p1 log p2 : predicate v p = Ok (b, p1) → calls p1 log p2 → calls p ((v, b) :: log) p2.

Lemma calls_snoc p log p1 v b p2 : calls p log p1 → predicate v p1 = Ok (b, p2) → calls p (log ++ [(v, b)]) p2.
Proof using Type. induction 1; cbn; [by repeat econstructor|]. intros. econstructor; [done|auto]. Qed.

Definition removed (log : list (T * bool)) : list T := fst <$> filter (λ e, e.2 = true) log.
Definition kept (log : list (T * bool)) : list T := fst <$> filter (λ e, e.2 = false) log.

Lemma removed_snoc log v b : removed (log ++ [(v, b)]) = removed log ++ (if b then [v] else []).
Proof using Type. unfold removed. rewrite filter_app, fmap_app. by destruct b. Qed.
Lemma kept_snoc log v b : kept (log ++ [(v, b)]) = kept log ++ (if b then [] else [v]).
Proof using Type. unfold kept. rewrite filter_app, fmap_app. by destruct b. Qed.
Lemma log_split log : log.*1 ≡ₚ removed log ++ kept log.
Proof using Type.
  unfold removed, kept. induction log as [|[v b] log IH]; [done|]. rewrite fmap_cons, !filter_cons. cbn [fst snd].
  destruct b; [rewrite decide_True, decide_False by done|rewrite decide_False, decide_True by done];
    rewrite fmap_cons, IH; [done|apply Permutation_middle].
Qed.

Definition seen z : list T := fst <$> filter untracked z.

Lemma seen_perm z z' : z ≡ₚ z' → seen z ≡ₚ seen z'.
Proof using Type. intros Hz. unfold seen. by rewrite Hz. Qed.
Lemma live_perm z z' : z ≡ₚ z' → live z ≡ₚ live z'.
Proof using Type. intros Hz. unfold live. by rewrite Hz. Qed.
Lemma seen_cons a z : seen (a :: z) = (if decide (untracked a) then [a.1] else []) ++ seen z.
Proof using Type. unfold seen. rewrite filter_cons. by case_decide. Qed.
Lemma live_cons a z : live (a :: z) = option_list a.2 ++ live z.
Proof using Type. unfold live. cbn. by destruct (a.2). Qed.

(** What holds throughout: [t] is the next ticket, [m] the number of deferred
    visits, [pre] the entries already visited or deferred. *)
Record state_inv (l0 : list T) (p0 : P) (t m : nat) (pre z : list (T * option nat)) (r : Revisits) (p : P) (log : list (T * bool)) : Prop := {
  si_calls : calls p0 log p;
  si_good : good p;
  si_tracks : tracks r z ∧ length (tickets r) = room;
  si_heap : heap_ok precedes fst z;
  si_live : live z ≡ₚ seq t m;
  si_kept : kept log ≡ₚ seen pre;
  si_all : removed log ++ z.*1 ≡ₚ l0;
  si_room : length z ≤ length l0 ∧ (Z.of_nat (length l0) ≤ cap)%Z
}.

Lemma heap_ok_fst z z' : z.*1 = z'.*1 → heap_ok precedes fst z → heap_ok precedes fst z'.
Proof using Type.
  intros Hz Hok j Hj a p Ha Hp.
  assert (Ha' : z.*1 !! j = Some a.1) by (rewrite Hz; by rewrite list_lookup_fmap, Ha).
  assert (Hp' : z.*1 !! parent j = Some p.1) by (rewrite Hz; by rewrite list_lookup_fmap, Hp).
  apply list_lookup_fmap_Some in Ha' as (a'&Ea&Ha'). apply list_lookup_fmap_Some in Hp' as (p'&Ep&Hp').
  pose proof (Hok j Hj a' p' Ha' Hp') as Hle. unfold le in *. by rewrite Ea, Ep.
Qed.

Lemma remove_tracked z r index x :
  heap_ok precedes fst z → tracks r z → z !! index = Some x → untracked x →
  ∃ z' r' o, remove_at precedes swapped index (z.*1) r = Ok (E := E) (x.1, o, z'.*1, r') ∧
    tracks r' z' ∧ length (positions r') = length (positions r) ∧ length (tickets r') = length (tickets r) ∧ x :: z' ≡ₚ z ∧ heap_ok precedes fst z' ∧
    match o with
    | None => z = z' ++ [x] ∧ index = length z'
    | Some d => ∃ y, index < length z' ∧ z !! length z' = Some y ∧ z' !! d = Some y ∧
        (∀ j, j < index → index ≤ d → z' !! j = z !! j) ∧
        (∀ j, index < j → j < length z' → d < index → z' !! j = z !! j)
    end.
Proof using All.
  intros Hok Hr Hx Hpl.
  destruct (remove_at_spec precedes (swapped (E := E)) fst (λ s z, tracks s z ∧ length (positions s) = length (positions r) ∧
      length (tickets s) = length (tickets r)) untracked)
    with (z := z) (s := r) (index := index) (x := x) as (z'&r'&o&He&(Ht&Hl&Hlt)&Hp&Hh&Ho); try done.
  - intros a b c. unfold le. intros H1 H2. by apply (order_trans a.1 b.1 c.1).
  - intros a b. apply order_total.
  - intros s z' i j a b (Hs&Hl&Hlt) Ha Hb Hne.
    destruct (swapped_tracks (E := E) s z' i j a b Hs Ha Hb Hne) as (s'&Hs'&Ht'&Hl'&Hlt').
    exists s'. split; [done|]. split; [done|]. split; congruence.
  - intros s z' a (Hs&Hl) Ha. split; [by eapply tracks_pop|done].
  - exists z', r', o. by split_and!.
Qed.

(** *** The deferred visits *)

Lemma take_ticket_spec z r t m :
  tracks r z → live z ≡ₚ seq t (S m) →
  ∃ j v, take_ticket (E := E) t r = Ok (j, {| positions := positions r; tickets := <[j := None]> (tickets r) |}) ∧
    z !! j = Some (v, Some t) ∧ tracks {| positions := positions r; tickets := <[j := None]> (tickets r) |} (<[j := (v, None)]> z) ∧
    live (<[j := (v, None)]> z) ≡ₚ seq (S t) m.
Proof using Type.
  intros [Hlen Hhere Hfree Hback] Hlive.
  assert (Ht : t ∈ live z) by (rewrite Hlive; cbn; left).
  apply live_elem in Ht as (j&[v o]&Hj&Ho). cbn in Ho. subst o. exists j, v. pose proof (lookup_lt_Some _ _ _ Hj).
  unfold take_ticket. rewrite (Hback j _ t Hj eq_refl). mstep. rewrite (Hhere j _ Hj). mstep.
  split; [done|]. split; [done|]. split.
  - split; cbn.
    + by rewrite !length_insert.
    + intros i a. destruct (decide (i = j)) as [->|Hne].
      * rewrite list_lookup_insert_eq by done. intros [= <-]. apply list_lookup_insert_eq. lia.
      * rewrite !list_lookup_insert_ne by done. apply Hhere.
    + intros i. rewrite !length_insert. intros ??. rewrite list_lookup_insert_ne by lia. by apply Hfree.
    + intros i a k. destruct (decide (i = j)) as [->|Hne].
      * rewrite list_lookup_insert_eq by done. by intros [= <-].
      * rewrite list_lookup_insert_ne by done. apply Hback.
  - pose proof (perm_insert z j (v, Some t) (v, None) Hj) as Hp. apply live_perm in Hp. rewrite !live_cons in Hp. cbn in Hp.
    rewrite Hlive in Hp. cbn in Hp. by apply Permutation_cons_inv in Hp.
Qed.

Lemma revisit_spec m : ∀ l0 p0 t z r p log,
  state_inv l0 p0 t m z z r p log →
  ∃ z' r' p' log', revisit_loop precedes predicate m t (z.*1) r p = Ok (z'.*1, r', p') ∧
    state_inv l0 p0 (t + m) 0 z' z' r' p' log'.
Proof using All.
  induction m as [|m IH]; intros l0 p0 t z r p log [Hcalls Hgood [Htr Hnt] Hheap Hlive Hkept Hall Hroom]; cbn [revisit_loop].
  { exists z, r, p, log. split; [done|]. rewrite Nat.add_0_r. by split. }
  destruct (take_ticket_spec z r t m Htr Hlive) as (j&v&->&Hj&Htr1&Hlive1). mstep.
  set (z1 := <[j := (v, None)]> z) in *. pose proof (lookup_lt_Some _ _ _ Hj) as Hjlt.
  assert (Hfst : z1.*1 = z.*1).
  { unfold z1. rewrite list_fmap_insert. apply list_insert_id. by rewrite list_lookup_fmap, Hj. }
  assert (Hv : z.*1 !! j = Some v) by (by rewrite list_lookup_fmap, Hj). rewrite Hv. mstep.
  assert (Hj1 : z1 !! j = Some (v, None)) by (by apply list_lookup_insert_eq).
  assert (Hheap1 : heap_ok precedes fst z1) by (by apply (heap_ok_fst z)).
  assert (Hseen1 : seen z1 ≡ₚ v :: seen z).
  { pose proof (perm_insert z j (v, Some t) (v, None) Hj) as Hp. apply seen_perm in Hp. by rewrite !seen_cons in Hp. }
  destruct (predicate_ok v p Hgood) as (b&p1&Hpred&Hgood1). rewrite Hpred. mstep.
  destruct b.
  - destruct (remove_tracked z1 _ j (v, None) Hheap1 Htr1 Hj1 eq_refl) as (z2&r2&o&Hrem&Htr2&_&Hnt2&Hp2&Hheap2&_). cbn in Hnt2. rewrite length_insert in Hnt2.
    rewrite Hfst in Hrem. rewrite Hrem. mstep.
    destruct (IH l0 p0 (S t) z2 r2 p1 (log ++ [(v, true)])) as (z'&r'&p'&log'&->&Hinv).
    + split; try done.
      * by eapply calls_snoc.
      * split; [done|congruence].
      * apply live_perm in Hp2. rewrite live_cons in Hp2. by rewrite Hp2.
      * rewrite kept_snoc, app_nil_r, Hkept. apply seen_perm in Hp2. rewrite seen_cons in Hp2. cbn in Hp2.
        rewrite Hseen1 in Hp2. symmetry. by apply Permutation_cons_inv in Hp2.
      * rewrite removed_snoc, <- Hall, <- Hfst, <- (fmap_Permutation fst _ _ Hp2). cbn. by rewrite <- (assoc_L (++)).
      * apply Permutation_length in Hp2. unfold z1 in Hp2. rewrite length_insert in Hp2. cbn in Hp2. lia.
    + exists z', r', p', log'. split; [done|]. by replace (t + S m) with (S t + m) by lia.
  - assert (Hinv1 : state_inv l0 p0 (S t) m z1 z1 {| positions := positions r; tickets := <[j:=None]> (tickets r) |}
      p1 (log ++ [(v, false)])).
    { split; try done.
      - by eapply calls_snoc.
      - split; [done|]. cbn. by rewrite length_insert.
      - rewrite kept_snoc, Hkept, Hseen1. symmetry. apply Permutation_cons_append.
      - by rewrite removed_snoc, app_nil_r, Hfst.
      - unfold z1. by rewrite length_insert. }
    destruct (IH _ _ _ _ _ _ _ Hinv1) as (z'&r'&p'&log'&Hrun&Hinv). rewrite Hfst in Hrun. rewrite Hrun.
    exists z', r', p', log'. split; [done|]. by replace (t + S m) with (S t + m) by lia.
Qed.

(** *** The cursor loop *)

Record scan_inv (l0 : list T) (p0 : P) (c : nat) (z : list (T * option nat)) (r : Revisits) (p : P) (log : list (T * bool)) : Prop := {
  sc_state : state_inv l0 p0 0 (length (positions r)) (take c z) z r p log;
  sc_fresh : Forall untracked (drop c z);
  sc_cursor : c ≤ length z
}.

Lemma seen_fresh z : Forall untracked z → seen z = z.*1.
Proof using Type. induction 1 as [|a z Ha Hz IH]; [done|]. rewrite seen_cons, decide_True, IH by done. done. Qed.

Lemma seen_app z1 z2 : seen (z1 ++ z2) = seen z1 ++ seen z2.
Proof using Type. unfold seen. by rewrite filter_app, fmap_app. Qed.

(** An entry that jumps before the cursor: the prefix gains it, the rest keeps
    everything else. *)
Lemma jump_prefix z z' c x y :
  x :: z' ≡ₚ z → z !! c = Some x → z !! length z' = Some y → c < length z' →
  (∀ j, c < j → j < length z' → z' !! j = z !! j) →
  take (S c) z' ≡ₚ y :: take c z ∧ drop (S c) z' ++ [y] = drop (S c) z.
Proof using Type.
  intros Hp Hx Hy Hc Hrest. assert (Hlen : length z = S (length z')) by (by rewrite <- Hp).
  assert (Hdrop : drop (S c) z' ++ [y] = drop (S c) z).
  { apply list_eq. intros i. destruct (decide (i < length (drop (S c) z'))) as [Hi|Hi].
    - rewrite lookup_app_l by done. rewrite !lookup_drop. rewrite length_drop in Hi. apply Hrest; lia.
    - rewrite lookup_app_r by lia. rewrite length_drop in *.
      destruct (decide (i = length z' - S c)) as [->|Hne].
      + rewrite Nat.sub_diag, lookup_drop. by replace (S c + (length z' - S c)) with (length z') by lia.
      + rewrite (lookup_ge_None_2 (drop _ _)) by (rewrite length_drop; lia).
        apply lookup_ge_None_2. cbn. lia. }
  split; [|done]. apply (Permutation_app_inv_r (drop (S c) z')). rewrite take_drop.
  apply (Permutation_cons_inv (a := x)). rewrite Hp.
  rewrite <- (take_drop_middle z c x Hx) at 1. rewrite <- Hdrop.
  rewrite <- Permutation_middle. constructor. rewrite (assoc_L (++)). cbn. symmetry. apply Permutation_cons_append.
Qed.

Lemma live_length z a : a ∈ z → untracked a → length (live z) < length z.
Proof using Type.
  intros Ha Hu. apply list_elem_of_lookup in Ha as [i Hi].
  assert (Hle : ∀ z, length (live z) ≤ length z).
  { clear. intros z. induction z as [|a z IH]; [done|]. rewrite live_cons, length_app. cbn. destruct (a.2); cbn; lia. }
  rewrite <- (take_drop_middle z i a Hi). unfold live in *. rewrite omap_app, !length_app. cbn. rewrite Hu.
  pose proof (Hle (take i z)). pose proof (Hle (drop (S i) z)). lia.
Qed.

(** Deferring the entry that jumped to [d]. *)
Lemma defer_spec z r d w :
  tracks r z → z !! d = Some (w, None) → live z ≡ₚ seq 0 (length (positions r)) → (Z.of_nat (length z) ≤ cap)%Z →
  ∃ r', defer (E := E) cap d r = Ok r' ∧ length (positions r') = S (length (positions r)) ∧ length (tickets r') = length (tickets r) ∧
    tracks r' (<[d := (w, Some (length (positions r)))]> z) ∧
    live (<[d := (w, Some (length (positions r)))]> z) ≡ₚ seq 0 (S (length (positions r))).
Proof using Type.
  intros [Hlen Hhere Hfree Hback] Hd Hlive Hcap. pose proof (lookup_lt_Some _ _ _ Hd) as Hdlt.
  assert (Hroom : length (positions r) < length z).
  { pose proof (live_length z (w, None)) as Hll. apply Permutation_length in Hlive. rewrite length_seq in Hlive.
    rewrite <- Hlive. apply Hll; [by eapply list_elem_of_lookup_2|done]. }
  unfold defer. rewrite (Hhere d _ Hd). mstep. destruct (Z.ltb_spec (zlen (positions r)) cap); [|unfold zlen in *; lia]. mstep.
  eexists. split; [done|]. cbn [positions tickets]. rewrite length_app. cbn [length]. split; [lia|]. split; [by rewrite length_insert|]. split.
  - split; cbn.
    + by rewrite !length_insert.
    + intros j a. destruct (decide (j = d)) as [->|Hne].
      * rewrite list_lookup_insert_eq by done. intros [= <-]. apply list_lookup_insert_eq. lia.
      * rewrite !list_lookup_insert_ne by done. apply Hhere.
    + intros j. rewrite !length_insert. intros ??. rewrite list_lookup_insert_ne by lia. by apply Hfree.
    + intros j a k. destruct (decide (j = d)) as [->|Hne].
      * rewrite list_lookup_insert_eq by done. intros [= <-] [= <-]. by rewrite lookup_app_r, Nat.sub_diag by lia.
      * rewrite list_lookup_insert_ne by done. intros Ha Hk. apply lookup_app_l_Some. by eapply Hback.
  - pose proof (perm_insert z d (w, None) (w, Some (length (positions r))) Hd) as Hp. apply live_perm in Hp.
    rewrite !live_cons in Hp. cbn in Hp. rewrite Hp, Hlive, seq_S. apply Permutation_cons_append.
Qed.

Lemma removed_cons_perm log v z z2 l0 :
  (v, None) :: z2 ≡ₚ z → removed log ++ z.*1 ≡ₚ l0 → removed (log ++ [(v, true)]) ++ z2.*1 ≡ₚ l0.
Proof using Type.
  intros Hp Hall. rewrite removed_snoc, <- Hall, <- (fmap_Permutation fst _ _ Hp). cbn. by rewrite <- (assoc_L (++)).
Qed.

Lemma scan_step_spec l0 p0 c z r p log :
  scan_inv l0 p0 c z r p log → c < length z →
  ∃ c' z' r' p' log', scan_step precedes predicate cap c (z.*1) r p = Ok (c', z'.*1, r', p') ∧
    scan_inv l0 p0 c' z' r' p' log' ∧ length z' - c' < length z - c.
Proof using All.
  intros [[Hcalls Hgood [Htr Hnt] Hheap Hlive Hkept Hall Hroom] Hfresh Hcz] Hc.
  destruct (lookup_lt_is_Some_2 z c Hc) as [[v o] Hx].
  assert (o = None) as ->.
  { rewrite <- (Nat.add_0_r c), <- lookup_drop in Hx. apply (Forall_lookup_1 _ _ _ _ Hfresh Hx). }
  unfold scan_step. rewrite list_lookup_fmap, Hx. cbn [fmap option_fmap option_map fst]. mstep.
  destruct (predicate_ok v p Hgood) as (b&p1&Hpred&Hgood1). rewrite Hpred. mstep. destruct b; cbn [negb].
  2: { exists (S c), z, r, p1, (log ++ [(v, false)]). split; [done|]. split; [|lia].
    split; [|by rewrite <- Nat.add_1_r, <- drop_drop; apply Forall_drop|lia].
    split; try done; [by eapply calls_snoc| |by rewrite removed_snoc, app_nil_r].
    rewrite kept_snoc, (take_S_r z c (v, None)) by done. rewrite seen_app, Hkept. done. }
  destruct (remove_tracked z r c (v, None) Hheap Htr Hx eq_refl) as (z2&r2&o&->&Htr2&Hpos2&Hnt2&Hp2&Hheap2&Ho). mstep.
  assert (Hlen2 : length z = S (length z2)) by (by rewrite <- Hp2).
  assert (Hlive2 : live z2 ≡ₚ seq 0 (length (positions r2))).
  { rewrite Hpos2. apply live_perm in Hp2. rewrite live_cons in Hp2. by rewrite Hp2. }
  assert (Hcalls2 : calls p0 (log ++ [(v, true)]) p1) by (by eapply calls_snoc).
  assert (Hall2 := removed_cons_perm log v z z2 l0 Hp2 Hall).
  assert (Hkept2 : kept (log ++ [(v, true)]) = kept log) by (by rewrite kept_snoc, app_nil_r).
  (* the prefix before the cursor did not change *)
  assert (Hsame : take c z2 = take c z → c ≤ length z2 → ∃ c' z' r' p' log',
    Ok (c, z2.*1, r2, p1) = Ok (E := E) (c', z'.*1, r', p') ∧ scan_inv l0 p0 c' z' r' p' log' ∧ length z' - c' < length z - c).
  { intros Htake Hcl. exists c, z2, r2, p1, (log ++ [(v, true)]). split; [done|]. split; [|lia]. split; [|  |lia].
    - split; try done; [split; [done|congruence]|by rewrite Hkept2, Hkept, Htake|lia].
    - assert (Hd : (v, None) :: drop c z2 ≡ₚ drop c z).
      { apply (Permutation_app_inv_l (take c z)). rewrite take_drop, <- Permutation_middle.
        by rewrite <- Htake, take_drop. }
      rewrite <- Hd in Hfresh. by apply Forall_cons in Hfresh as [_ ?]. }
  destruct o as [d|].
  2: { destruct Ho as [-> ->]. apply Hsame; [|done]. rewrite take_app_length. by rewrite take_ge. }
  destruct Ho as ([w k]&Hc2&Hy&Hd&Hle&Hgt). destruct (Nat.ltb_spec d c) as [Hdc|Hdc].
  2: { apply Hsame; [|lia]. apply list_eq. intros j. destruct (decide (j < c)).
    - rewrite !lookup_take_lt by done. by apply Hle.
    - by rewrite !lookup_take_ge by lia. }
  destruct (jump_prefix z z2 c (v, None) (w, k) Hp2 Hx Hy Hc2 (λ j H1 H2, Hgt j H1 H2 Hdc)) as [Hpre Hdrop].
  rewrite (drop_S z (v, None) c Hx), <- Hdrop in Hfresh. apply Forall_cons in Hfresh as [_ Hfresh].
  apply Forall_app in Hfresh as [Hfresh Hyu]. apply Forall_cons in Hyu as [Hyu _]. unfold untracked in Hyu. cbn in Hyu. subst k.
  destruct (defer_spec z2 r2 d w Htr2 Hd Hlive2 ltac:(lia)) as (r3&->&Hpos3&Hnt3&Htr3&Hlive3). mstep.
  set (z3 := <[d := (w, Some (length (positions r2)))]> z2) in *.
  assert (Hfst : z3.*1 = z2.*1).
  { unfold z3. rewrite list_fmap_insert. apply list_insert_id. by rewrite list_lookup_fmap, Hd. }
  exists (S c), z3, r3, p1, (log ++ [(v, true)]). rewrite Hfst. split; [done|].
  split; [|unfold z3; rewrite length_insert; lia]. split; [|unfold z3; by rewrite drop_insert_lt by lia|unfold z3; rewrite length_insert; lia].
  split; try done.
  - split; [done|congruence].
  - by apply (heap_ok_fst z2).
  - by rewrite Hpos3.
  - rewrite Hkept2, Hkept. assert (Hd' : take (S c) z2 !! d = Some (w, None)) by (by rewrite lookup_take_lt by lia).
    pose proof (perm_insert _ _ _ (w, Some (length (positions r2))) Hd') as Hp. apply seen_perm in Hp, Hpre.
    rewrite !seen_cons in Hp. rewrite seen_cons in Hpre. cbn in Hp, Hpre. rewrite Hpre in Hp.
    unfold z3. rewrite take_insert_lt by lia. symmetry. by apply Permutation_cons_inv in Hp.
  - by rewrite Hfst.
  - unfold z3. rewrite length_insert. lia.
Qed.

Lemma scan_loop_spec fuel : ∀ l0 p0 c z r p log,
  scan_inv l0 p0 c z r p log → length z - c ≤ fuel →
  ∃ z' r' p' log', scan_loop precedes predicate cap fuel c (z.*1) r p = Ok (z'.*1, r', p') ∧
    state_inv l0 p0 0 (length (positions r')) z' z' r' p' log'.
Proof using All.
  induction fuel as [|fuel IH]; intros l0 p0 c z r p log Hinv Hf; cbn [scan_loop]; rewrite length_fmap;
    destruct (Nat.ltb_spec c (length z)) as [Hc|Hc].
  1: lia.
  2: { destruct (scan_step_spec l0 p0 c z r p log Hinv Hc) as (c'&z'&r'&p'&log'&->&Hinv'&Hm). mstep.
       by apply (IH l0 p0 c' z' r' p' log'); [|lia]. }
  all: exists z, r, p, log; split; [done|]; destruct Hinv as [Hinv _ Hcz];
    assert (c = length z) as -> by lia; by rewrite firstn_all in Hinv.
Qed.

(** The pass as a whole: the calls are one per entry, in some order; the
    entries answered [true] leave and the others stay, as a heap. *)
Lemma remove_if_spec l r p :
  heap_ordered precedes l → good p → length l ≤ length (tickets r) → length (tickets r) = room → (Z.of_nat (length l) ≤ cap)%Z →
  ∃ n l' r' p' log, remove_if precedes predicate cap l r p = Ok (n, l', r', p') ∧
    calls p log p' ∧ good p' ∧ log.*1 ≡ₚ l ∧ l' ≡ₚ kept log ∧ heap_ordered precedes l' ∧ n = length (removed log) ∧
    length (tickets r') = room.
Proof using All.
  intros Hl Hp Hlen Hnt Hcap. unfold remove_if.
  set (z0 := (λ v, (v, None)) <$> l : list (T * option nat)).
  assert (Hz0 : z0.*1 = l) by (unfold z0; rewrite <- list_fmap_compose; apply list_fmap_id).
  assert (Hinv : scan_inv l p 0 z0 (revisits_reset r) p []).
  { split; [|by apply Forall_fmap, Forall_true|lia]. split; try done.
    - constructor.
    - split; [by apply tracks_reset|]. cbn. by rewrite length_replicate.
    - intros j Hj a q Ha Hq. apply (Hl j Hj a.1 q.1); by rewrite <- Hz0, list_lookup_fmap, ?Ha, ?Hq.
    - cbn. unfold live, z0. clear. induction l as [|v l IH]; [done|]. exact IH.
    - cbn. by rewrite Hz0.
    - unfold z0. rewrite length_fmap. done. }
  destruct (scan_loop_spec (length l) l p 0 z0 (revisits_reset r) p [] Hinv) as (z1&r1&p1&log1&Hscan&Hinv1).
  { unfold z0. rewrite length_fmap. lia. }
  rewrite Hz0 in Hscan. rewrite Hscan. mstep.
  destruct (revisit_spec _ _ _ _ _ _ _ _ Hinv1) as (z2&r2&p2&log2&->&[Hc Hg [Ht Hnt2] Hh Hlive Hk Ha Hr]). mstep.
  assert (Hall : Forall untracked z2).
  { apply Forall_forall. intros [v o] Hin. destruct o as [k|]; [|done]. exfalso.
    assert (k ∈ live z2) as Hkin by (apply list_elem_of_omap; by exists (v, Some k)).
    cbn [seq] in Hlive. apply Permutation_nil_r in Hlive. rewrite Hlive in Hkin. by apply not_elem_of_nil in Hkin. }
  rewrite (seen_fresh z2 Hall) in Hk.
  exists (length l - length (z2.*1)), (z2.*1), (revisits_reset r2), p2, log2. split; [done|].
  split; [done|]. split; [done|]. split; [by rewrite log_split, Hk, Ha|]. split; [done|].
  split. { intros j Hj a q Haj Hq. apply list_lookup_fmap_Some in Haj as (a'&->&Haj). apply list_lookup_fmap_Some in Hq as (q'&->&Hq).
    by apply (Hh j Hj a' q'). }
  split. { apply Permutation_length in Ha. rewrite length_app in Ha. lia. }
  cbn. by rewrite length_replicate.
Qed.
End pass.

(** ** What the owner relies on *)

(** The contract of a bounded priority queue over a multiset of items. *)
Record priority_queue {Q T : Type} (wf : Q → Prop) (items : Q → list T) (bound : Q → Z) (above : T → T → Prop)
    (push : Q → T → outcome False Q) (pop : Q → outcome False (option T * Q)) (peek : Q → option T) : Prop := {
  pq_push q v : wf q → if (zlen (items q) <? bound q)%Z
    then ∃ q', push q v = Ok q' ∧ wf q' ∧ bound q' = bound q ∧ items q' ≡ₚ v :: items q
    else push q v = Panic;
  pq_peek q : wf q → match peek q with
    | Some m => m ∈ items q ∧ Forall (above m) (items q)
    | None => items q = []
    end;
  pq_pop q : wf q → ∃ q', pop q = Ok (peek q, q') ∧ wf q' ∧ bound q' = bound q ∧
    option_list (peek q) ++ items q' ≡ₚ items q
}.

Section heap_contract.
Context {T : Type} (precedes : T → T → bool) `{!Order precedes}.

Definition heap_wf (h : Heap T) : Prop := heap_ordered precedes (values h) ∧ (zlen (values h) ≤ limit h)%Z.

Lemma heap_push_spec h v :
  heap_wf h → (zlen (values h) < limit h)%Z →
  ∃ h', heap_push (E := False) precedes h v = Ok h' ∧ heap_wf h' ∧ limit h' = limit h ∧ capacity h' = capacity h ∧
    values h' ≡ₚ v :: values h.
Proof using All.
  intros [Ho Hl] Hroom. unfold heap_push. destruct (Z.ltb_spec (zlen (values h)) (limit h)); [|lia]. mstep.
  destruct (push_spec precedes (E := False) (values h) v Ho) as (l'&d&->&Hp&Ho'). mstep.
  eexists. split; [done|]. split; [|done]. split; [done|]. cbn. unfold zlen in *. rewrite Hp. cbn. lia.
Qed.

Lemma heap_pop_spec h :
  heap_wf h →
  ∃ h', heap_pop (E := False) precedes h = Ok (heap_peek h, h') ∧ heap_wf h' ∧ limit h' = limit h ∧ capacity h' = capacity h ∧
    option_list (heap_peek h) ++ values h' ≡ₚ values h.
Proof using All.
  intros [Ho Hl]. unfold heap_pop, heap_peek. destruct (values h) as [|x l] eqn:El.
  { exists h. split; [done|]. split; [split; rewrite El; done|]. by rewrite El. }
  destruct (pop_spec precedes (E := False) (x :: l) x Ho eq_refl) as (l'&o&->&Hp&Ho'). mstep.
  eexists. split; [done|]. split; [|by cbn]. split; [done|]. cbn. unfold zlen in *.
  apply Permutation_length in Hp. cbn in Hp, Hl. lia.
Qed.

Lemma heap_is_queue :
  priority_queue heap_wf values limit (above precedes) (heap_push precedes) (heap_pop precedes) heap_peek.
Proof using All.
  split.
  - intros h v Hw. destruct (Z.ltb_spec (zlen (values h)) (limit h)) as [Hr|Hr].
    + destruct (heap_push_spec h v Hw Hr) as (h'&?&?&?&_&?). eauto.
    + unfold heap_push. by destruct (Z.ltb_spec (zlen (values h)) (limit h)); [lia|].
  - intros h [Ho _]. unfold heap_peek. destruct (values h) as [|x l] eqn:El; [done|]. cbn. split; [by left|].
    by apply (heap_root precedes (x :: l)).
  - intros h Hw. destruct (heap_pop_spec h Hw) as (h'&?&?&?&_&?). eauto.
Qed.

Lemma heap_new_spec `{Allocator} size cap remaining h r :
  (0 ≤ cap)%Z → heap_new size cap remaining = Ok (h, r) →
  heap_wf h ∧ values h = [] ∧ limit h = cap ∧ (cap ≤ capacity h)%Z ∧ r = (remaining - heap_bytes size h)%Z ∧ (0 ≤ r)%Z.
Proof using Type.
  intros Hc. unfold heap_new. intros Hn. apply outcome_bind_ok in Hn as ([c r']&(?&?&?)%reserved_vec_ok&[= <- <-]).
  unfold heap_wf, heap_bytes, zlen. cbn. split; [split; [by intros j ? ? ? Hx|lia]|]. split_and!; lia || done.
Qed.
End heap_contract.

(** A well-formed tick queue: ordered, within its limit, its revisit tables as
    large as the limit. *)
Definition scheduled_wf (q : ScheduledHeap) : Prop :=
  heap_wf tick_precedes (heap q) ∧ length (tickets (revisits q)) = Z.to_nat (limit (heap q)) ∧
  (limit (heap q) ≤ positions_cap q)%Z.
Definition scheduled_items (q : ScheduledHeap) : list ScheduledTick := values (heap q).
Definition scheduled_limit (q : ScheduledHeap) : Z := limit (heap q).

Lemma with_heap_wf q h :
  scheduled_wf q → heap_wf tick_precedes h → limit h = limit (heap q) → scheduled_wf (with_heap q h).
Proof. intros (_&Ht&Hc) Hw Hl. split; [done|]. cbn. by rewrite Hl. Qed.

Lemma scheduled_is_queue :
  priority_queue scheduled_wf scheduled_items scheduled_limit (above tick_precedes) scheduled_push scheduled_pop scheduled_peek.
Proof.
  split.
  - intros q v Hw. unfold scheduled_items, scheduled_limit, scheduled_push.
    pose proof (pq_push _ _ _ _ _ _ _ (heap_is_queue tick_precedes) (heap q) v (proj1 Hw)) as Hp.
    destruct (_ <? _)%Z; [|by rewrite Hp].
    destruct Hp as (h'&->&Hw'&Hl&Hi). mstep. exists (with_heap q h'). split; [done|]. split; [by apply with_heap_wf|done].
  - intros q (Hw&_). apply (pq_peek _ _ _ _ _ _ _ (heap_is_queue tick_precedes) (heap q) Hw).
  - intros q Hw. unfold scheduled_items, scheduled_limit, scheduled_pop, scheduled_peek.
    destruct (pq_pop _ _ _ _ _ _ _ (heap_is_queue tick_precedes) (heap q) (proj1 Hw)) as (h'&->&Hw'&Hl&Hi). mstep.
    exists (with_heap q h'). split; [done|]. split; [by apply with_heap_wf|done].
Qed.

(** Building a queue charges exactly what it reports. *)
Lemma scheduled_new_spec `{Allocator} tick_size usize_size cap remaining q r :
  (0 ≤ cap)%Z → scheduled_new tick_size usize_size cap remaining = Ok (q, r) →
  scheduled_wf q ∧ scheduled_items q = [] ∧ scheduled_limit q = cap ∧
  r = (remaining - scheduled_bytes tick_size usize_size q)%Z ∧ (0 ≤ r)%Z.
Proof.
  intros Hc. unfold scheduled_new, revisits_new. intros Hn.
  apply outcome_bind_ok in Hn as ([h b]&Hh&Hn). apply heap_new_spec with (precedes := tick_precedes) in Hh as (Hw&Hv&Hl&Hcap&->&Hb); [|done].
  apply outcome_bind_ok in Hn as ([[[rv pc] tc] b']&Hr&[= <- <-]).
  apply outcome_bind_ok in Hr as ([c1 r1]&(?&?&?)%reserved_vec_ok&Hr).
  apply outcome_bind_ok in Hr as ([c2 r2]&(?&?&?)%reserved_vec_ok&[= <- <- <- <-]).
  split; [split; [done|]; cbn; rewrite length_replicate, Hl; lia|].
  unfold scheduled_items, scheduled_limit, scheduled_bytes. cbn. split_and!; done || lia.
Qed.

(** Construction fails only with a typed error. *)
Lemma scheduled_new_total `{Allocator} tick_size usize_size cap remaining :
  scheduled_new tick_size usize_size cap remaining ≠ Panic ∧ scheduled_new tick_size usize_size cap remaining ≠ NoFuel.
Proof. unfold scheduled_new, heap_new, revisits_new. by reservations. Qed.

(** ** Properties *)

(** C38. Both tick queues are bounded priority queues: on an ordered heap within
    its limit, push adds the tick (and asserts when full), peek is an entry
    that none precedes, and pop removes that entry; order and limit are kept,
    and every sift ends.  A new queue is empty, has the limit asked for and
    charges exactly the bytes it later reports. *)
Theorem tick_queues_are_priority_queues :
  priority_queue scheduled_wf scheduled_items scheduled_limit (above tick_precedes) scheduled_push scheduled_pop scheduled_peek ∧
  priority_queue (heap_wf ready_precedes) values limit (above ready_precedes) ready_push ready_pop heap_peek ∧
  ∀ `{Allocator} tick_size usize_size cap remaining, (0 ≤ cap)%Z →
    match scheduled_new tick_size usize_size cap remaining with
    | Ok (q, r) => scheduled_wf q ∧ scheduled_items q = [] ∧ scheduled_limit q = cap ∧
        r = (remaining - scheduled_bytes tick_size usize_size q)%Z ∧ (0 ≤ r)%Z
    | Err _ => True
    | Panic | NoFuel => False
    end.
Proof.
  split; [exact scheduled_is_queue|]. split; [exact (heap_is_queue ready_precedes)|].
  intros Ha tick_size usize_size cap remaining Hc.
  destruct (scheduled_new_total tick_size usize_size cap remaining) as [Hp Hf].
  destruct (scheduled_new _ _ _ _) as [[q r]| | |] eqn:En; [by apply scheduled_new_spec in En|done..].
Qed.

(** The removal pass over a scheduled heap. *)
Lemma scheduled_remove_spec {P : Type} (predicate : ScheduledTick → P → outcome False (bool * P)) (good : P → Prop) q p :
  (∀ v p, good p → ∃ b p', predicate v p = Ok (b, p') ∧ good p') → scheduled_wf q → good p →
  ∃ n q' p' log, scheduled_remove_if predicate q p = Ok (n, q', p') ∧
    calls predicate p log p' ∧ log.*1 ≡ₚ scheduled_items q ∧
    scheduled_items q' ≡ₚ kept log ∧ n = length (removed log) ∧
    scheduled_wf q' ∧ scheduled_limit q' = scheduled_limit q ∧ good p'.
Proof.
  intros Hpred ((Hord&Hlim)&Ht&Hcap) Hp. unfold scheduled_remove_if, scheduled_items, scheduled_limit.
  destruct (remove_if_spec tick_precedes predicate (positions_cap q) (length (tickets (revisits q))) good Hpred
    (values (heap q)) (revisits q) p Hord Hp) as (n&l'&r'&p'&log&->&Hc&Hg&Hperm&Hkept&Hord'&Hn&Hlen);
    [unfold zlen in *; lia|done|unfold zlen in *; lia|]. mstep.
  eexists n, _, p', log. split; [done|]. split_and!; try done. cbn.
  unfold zlen in *. apply Permutation_length in Hkept, Hperm. rewrite length_fmap in Hperm.
  split; [split; [done|]|split; [cbn; congruence|done]]. cbn. unfold zlen.
  assert (length (kept log) ≤ length log); [|lia]. unfold kept. rewrite length_fmap. apply length_filter.
Qed.

(** The removal pass calls its predicate exactly once for every queued tick,
    although repairing the heap moves unvisited ticks before the cursor and
    visited ones after it: the ticks answered [true] leave, the others stay in
    an ordered heap, the count is exact, and no index or assertion fails. *)
Theorem removal_pass_visits_once {P : Type} (predicate : ScheduledTick → P → outcome False (bool * P)) (good : P → Prop) q p :
  (∀ v p, good p → ∃ b p', predicate v p = Ok (b, p') ∧ good p') → scheduled_wf q → good p →
  ∃ n q' p' log, scheduled_remove_if predicate q p = Ok (n, q', p') ∧
    calls predicate p log p' ∧ log.*1 ≡ₚ scheduled_items q ∧
    scheduled_items q' ≡ₚ kept log ∧ n = length (removed log) ∧
    scheduled_wf q' ∧ scheduled_limit q' = scheduled_limit q ∧ good p'.
Proof. apply scheduled_remove_spec. Qed.

(** ** The pass on a concrete queue *)

Definition sample_tick (n : Z) : ScheduledTick :=
  {| position := {| tx := n; ty := 0; tz := 0 |}; type_id := 0; trigger_tick := n; priority := Normal; sub_tick_order := 0 |}.
Definition sample_queue (l : list Z) : ScheduledHeap :=
  {| heap := {| values := sample_tick <$> l; limit := 16; capacity := 16 |};
     revisits := {| positions := []; tickets := replicate 16 None |}; positions_cap := 16; tickets_cap := 16 |}.

(** Twelve ticks, of which five leave; each is visited once. *)
Lemma removal_pass_visits_once_witness :
  let odd := fun (t : ScheduledTick) (seen : nat) => Ok (Z.odd (trigger_tick t) || (trigger_tick t =? 40)%Z, S seen) : outcome False (bool * nat) in
  let q := sample_queue [1; 10; 2; 40; 20; 3; 4; 50; 60; 30; 21; 5]%Z in
  exists q', scheduled_remove_if odd q 0 = Ok (5, q', 12).
Proof.
  intros odd q.
  assert (Hw : scheduled_wf q).
  { split; [|split; [reflexivity|vm_compute; discriminate]]. split; [|vm_compute; discriminate]. intros j Hj a b Ha Hb. pose proof (lookup_lt_Some _ _ _ Ha) as Hl.
    cbn in Hl. do 12 (destruct j as [|j]; [cbn in Ha, Hb; vm_compute in Hb; simplify_eq; first [lia|reflexivity]|]). lia. }
  destruct (removal_pass_visits_once odd (fun _ => True) q 0 ltac:(intros v p _; eexists _, _; split; [reflexivity|exact I]) Hw I)
    as (n&q'&p'&log&Hr&_).
  exists q'. vm_compute in Hr |- *. injection Hr as _ <- _. reflexivity.
Defined.
