(* ===== verification/TickTables.v ===== *)
(** * Identity tables of the tick owner (src/world/ticks.rs, src/world/ticks/remaining.rs)

    [Identities] is a set with open addressing whose removal re-inserts the
    cluster behind the hole; [RemainingCounts] is a multiset kept as a dense
    vector with an open-addressed index over it, whose removal shifts the
    cluster back and then fills the hole in the vector with its last entry.
    Both hash with [RandomState]: the hash is a field, and every result is
    proved for all of them. *)

From stdpp Require Import list fin_sets fin_maps gmap.
From S2P Require Import Prelude.
From S2P Require Import Probe.
From S2P Require Import TickTypes.
Local Open Scope nat_scope.

(** ** The identity set *)

Record Identities := {
  id_slots : list (option Identity);
  id_count : nat;
  id_capacity : Z;
  id_hash : Identity → nat;
}.

Section identities.
Context `{Allocator} (slot_size : Z).

Definition ids_new (hash : Identity → nat) (cap remaining : Z) : outcome TickError (Identities * Z) :=
  slots ← ok_or (double ← checked_mul cap 2; next_power_of_two double) InvalidLimits;
  '(c, remaining) ← reserved_vec slot_size slots remaining;
  Ok ({| id_slots := replicate (Z.to_nat slots) None; id_count := 0; id_capacity := c; id_hash := hash |}, remaining).

Definition ids_bytes (s : Identities) : Z := (id_capacity s * slot_size)%Z.
End identities.

Definition with_slots (s : Identities) (slots : list (option Identity)) (count : nat) : Identities :=
  {| id_slots := slots; id_count := count; id_capacity := id_capacity s; id_hash := id_hash s |}.

Definition ids_mask (s : Identities) : nat := length (id_slots s) - 1.
Definition ids_index (s : Identities) (value : Identity) : nat := Nat.land (id_hash s value) (ids_mask s).

Definition contains_body (s : Identities) (value : Identity) (index : nat) : outcome False (option bool) :=
  slot ← unwrap (id_slots s !! index);
  match slot with
  | Some found => if decide (found = value) then Ok (Some true) else Ok None
  | None => Ok (Some false)
  end.
Definition ids_contains (s : Identities) (value : Identity) : outcome False bool :=
  probe_loop (length (id_slots s)) (contains_body s value) (ids_mask s) (ids_index s value).

(** The probe of [insert]: where to put the value, unless it is there. *)
Definition insert_body (s : Identities) (value : Identity) (index : nat) : outcome False (option (option nat)) :=
  slot ← unwrap (id_slots s !! index);
  match slot with
  | Some existing => if decide (existing = value) then Ok (Some None) else Ok None
  | None => Ok (Some (Some index))
  end.
Definition ids_insert (s : Identities) (value : Identity) : outcome False Identities :=
  target ← probe_loop (length (id_slots s)) (insert_body s value) (ids_mask s) (ids_index s value);
  match target with
  | None => Ok s
  | Some index => Ok (with_slots s (<[index := Some value]> (id_slots s)) (id_count s + 1))
  end.

(** The probe of [remove]: where the value is, if anywhere. *)
Definition remove_body (s : Identities) (value : Identity) (index : nat) : outcome False (option (option nat)) :=
  slot ← unwrap (id_slots s !! index);
  if decide (slot = Some value) then Ok (Some (Some index))
  else match slot with None => Ok (Some None) | Some _ => Ok None end.

(** [self.count -= 1], which panics below zero. *)
Definition ids_decrement (s : Identities) : outcome False nat :=
  _ ← assert_that (0 <? id_count s); Ok (id_count s - 1).

(** Each entry of the cluster behind the hole is taken out and inserted again. *)
Fixpoint reinsert_loop (fuel : nat) (s : Identities) (index : nat) : outcome False Identities :=
  match fuel with
  | O => NoFuel
  | S fuel' =>
      slot ← unwrap (id_slots s !! index);
      match slot with
      | None => Ok s
      | Some displaced =>
          count ← ids_decrement s;
          s ← ids_insert (with_slots s (<[index := None]> (id_slots s)) count) displaced;
          reinsert_loop fuel' s (Nat.land (index + 1) (ids_mask s))
      end
  end.

Definition ids_remove (s : Identities) (value : Identity) : outcome False Identities :=
  found ← probe_loop (length (id_slots s)) (remove_body s value) (ids_mask s) (ids_index s value);
  match found with
  | None => Ok s
  | Some index =>
      count ← ids_decrement s;
      let s := with_slots s (<[index := None]> (id_slots s)) count in
      reinsert_loop (S (length (id_slots s))) s (Nat.land (index + 1) (ids_mask s))
  end.

Definition ids_clear (s : Identities) : Identities :=
  if id_count s =? 0 then s else with_slots s (replicate (length (id_slots s)) None) 0.

(** ** The remaining counts *)

Record CountEntry := { ce_identity : Identity; ce_count : Z }.

(** [usize::MAX] in [lookup] marks an empty bucket. *)
Record RemainingCounts := {
  rc_entries : list CountEntry;
  rc_lookup : list (option nat);
  rc_hash : Identity → nat;
  rc_limit : Z;
  rc_entries_cap : Z;
  rc_lookup_cap : Z;
}.

Section counts.
Context `{Allocator} (entry_size usize_size : Z).

Definition rc_new (hash : Identity → nat) (cap remaining : Z) : outcome TickError (RemainingCounts * Z) :=
  if (cap =? 0)%Z then Err InvalidLimits
  else
    slots ← ok_or (power ← next_power_of_two cap; checked_mul power 2) InvalidLimits;
    requested ← ok_or (entries ← checked_mul cap entry_size;
                       lookup ← checked_mul slots usize_size;
                       checked_add entries lookup) InvalidLimits;
    if (remaining <? requested)%Z then Err AllocationBudget
    else
      '(ec, budget) ← reserved_vec entry_size cap remaining;
      '(lc, budget) ← reserved_vec usize_size slots budget;
      Ok ({| rc_entries := []; rc_lookup := replicate (Z.to_nat slots) None; rc_hash := hash; rc_limit := cap;
             rc_entries_cap := ec; rc_lookup_cap := lc |}, budget).
End counts.

Definition with_counts (s : RemainingCounts) (entries : list CountEntry) (lookup : list (option nat)) : RemainingCounts :=
  {| rc_entries := entries; rc_lookup := lookup; rc_hash := rc_hash s; rc_limit := rc_limit s;
     rc_entries_cap := rc_entries_cap s; rc_lookup_cap := rc_lookup_cap s |}.

Definition rc_mask (s : RemainingCounts) : nat := length (rc_lookup s) - 1.
Definition rc_bucket (s : RemainingCounts) (i : Identity) : nat := Nat.land (rc_hash s i) (rc_mask s).

(** [Ok(bucket)] holds the identity, [Err(bucket)] is where it would go. *)
Definition find_body (s : RemainingCounts) (i : Identity) (bucket : nat) : outcome False (option (nat + nat)) :=
  slot ← unwrap (rc_lookup s !! bucket);
  match slot with
  | None => Ok (Some (inr bucket))
  | Some index =>
      entry ← unwrap (rc_entries s !! index);
      if decide (ce_identity entry = i) then Ok (Some (inl bucket)) else Ok None
  end.
Definition rc_find (s : RemainingCounts) (i : Identity) : outcome False (nat + nat) :=
  probe_loop (length (rc_lookup s)) (find_body s i) (rc_mask s) (rc_bucket s i).

(** [self.lookup[bucket]] where it is used as an index. *)
Definition rc_index (s : RemainingCounts) (bucket : nat) : outcome False nat :=
  slot ← unwrap (rc_lookup s !! bucket); unwrap slot.

Definition rc_add (s : RemainingCounts) (i : Identity) : outcome False RemainingCounts :=
  found ← rc_find s i;
  match found with
  | inl bucket =>
      index ← rc_index s bucket;
      entry ← unwrap (rc_entries s !! index);
      count ← unwrap (checked_add (ce_count entry) 1);
      Ok (with_counts s (<[index := {| ce_identity := ce_identity entry; ce_count := count |}]> (rc_entries s)) (rc_lookup s))
  | inr bucket =>
      _ ← assert_that (zlen (rc_entries s) <? rc_limit s)%Z;
      Ok (with_counts s (rc_entries s ++ [{| ce_identity := i; ce_count := 1 |}])
            (<[bucket := Some (length (rc_entries s))]> (rc_lookup s)))
  end.

(** The backward shift over [lookup], with the dense entries unchanged. *)
Fixpoint repair_loop (fuel : nat) (s : RemainingCounts) (hole scan : nat) : outcome False RemainingCounts :=
  match fuel with
  | O => NoFuel
  | S fuel' =>
      slot ← unwrap (rc_lookup s !! scan);
      match slot with
      | None => Ok s
      | Some index =>
          entry ← unwrap (rc_entries s !! index);
          let home := rc_bucket s (ce_identity entry) in
          let n := length (rc_lookup s) in
          let next := Nat.land (scan + 1) (rc_mask s) in
          if dist n home hole <? dist n home scan
          then repair_loop fuel' (with_counts s (rc_entries s) (<[scan := None]> (<[hole := Some index]> (rc_lookup s)))) scan next
          else repair_loop fuel' s hole next
      end
  end.

(** [Vec::swap_remove] on the dense entries, which needs the index in range. *)
Definition swap_remove (l : list CountEntry) (index : nat) : outcome False (list CountEntry) :=
  _ ← unwrap (l !! index);
  last_entry ← unwrap (last l);
  Ok (removelast (<[index := last_entry]> l)).

Definition rc_remove (s : RemainingCounts) (i : Identity) : outcome False RemainingCounts :=
  found ← rc_find s i;
  match found with
  | inr _ => Ok s
  | inl bucket =>
      index ← rc_index s bucket;
      entry ← unwrap (rc_entries s !! index);
      if (1 <? ce_count entry)%Z then
        Ok (with_counts s
              (<[index := {| ce_identity := ce_identity entry; ce_count := ce_count entry - 1 |}]> (rc_entries s)) (rc_lookup s))
      else
        let s := with_counts s (rc_entries s) (<[bucket := None]> (rc_lookup s)) in
        s ← repair_loop (S (length (rc_lookup s))) s bucket (Nat.land (bucket + 1) (rc_mask s));
        let last_index := length (rc_entries s) - 1 in
        moved ← (if index =? last_index then Ok None
                 else
                   e ← unwrap (rc_entries s !! last_index);
                   b ← rc_find s (ce_identity e);
                   match b with inl bucket => Ok (Some bucket) | inr _ => Panic end);
        entries ← swap_remove (rc_entries s) index;
        Ok (with_counts s entries
              match moved with Some bucket => <[bucket := Some index]> (rc_lookup s) | None => rc_lookup s end)
  end.

Definition rc_identities (s : RemainingCounts) : list Identity := ce_identity <$> rc_entries s.

Definition rc_clear (s : RemainingCounts) : RemainingCounts :=
  match rc_entries s with
  | [] => s
  | _ => with_counts s [] (replicate (length (rc_lookup s)) None)
  end.

(** ** The identity set implements sets *)

Section identities_theory.
Implicit Types (s : Identities) (v : Identity).

Definition ids_home (h : Identity → nat) (n : nat) v : nat := Nat.land (h v) (n - 1).

Lemma ids_home_lt h p v : ids_home h (2 ^ p) v < 2 ^ p.
Proof. by apply (land_mask (2 ^ p) p). Qed.

(** The probe of a value that the table lacks, up to the slot it would take. *)
Lemma ids_insert_at s p v q :
  length (id_slots s) = 2 ^ p →
  probe_ends id (2 ^ p) (ids_home (id_hash s) (2 ^ p)) (id_slots s) v q → id_slots s !! q = Some None →
  ids_insert s v = Ok (with_slots s (<[q := Some v]> (id_slots s)) (id_count s + 1)).
Proof.
  intros Hl Hends Hq. unfold ids_insert, ids_mask, ids_index, ids_mask. rewrite Hl.
  rewrite (probe_loop_ends id (2 ^ p) (ids_home (id_hash s) (2 ^ p)) (ids_home_lt _ _) p (2 ^ p) _ (id_slots s) v q (Some q));
    [done|done|done|done| |].
  - intros r w Hr Hw. unfold insert_body. rewrite Hr. mstep. by rewrite decide_False.
  - unfold insert_body. by rewrite Hq.
Qed.

(** The state of the loop behind a removed entry. *)
Lemma reinsert_loop_spec fuel s p e start idx :
  length (id_slots s) = 2 ^ p → id_count s = length (entries (id_slots s)) →
  reinsert_inv id (2 ^ p) (ids_home (id_hash s) (2 ^ p)) (id_slots s) e start idx →
  (if decide (idx = e) then 1 else 2 ^ p - dist (2 ^ p) e idx + 1) ≤ fuel →
  ∃ s', reinsert_loop fuel s idx = Ok s' ∧ length (id_slots s') = 2 ^ p ∧ id_hash s' = id_hash s ∧
    table_ok id (2 ^ p) (ids_home (id_hash s) (2 ^ p)) (id_slots s') ∧
    entries (id_slots s') ≡ₚ entries (id_slots s) ∧ id_count s' = id_count s.
Proof.
  revert s idx. induction fuel as [|fuel IH]; intros s idx Hl Hc Hi Hf.
  { case_decide; lia. }
  pose proof (ri_e _ _ _ _ _ _ _ Hi) as (He&Hte). pose proof (ri_idx _ _ _ _ _ _ _ Hi) as (Hix&Hpos).
  cbn [reinsert_loop]. destruct (lookup_total (2 ^ p) (id_slots s) idx Hl Hix) as [[d Hd]|Hn].
  2: { rewrite Hn. mstep. exists s. split; [done|]. split; [done|]. split; [done|]. split; [|done].
       by eapply reinsert_stop; [apply ids_home_lt|..]. }
  rewrite Hd. mstep. pose proof (entries_clear _ _ _ Hd) as Hclear.
  assert (id_count s = S (length (entries (<[idx := None]> (id_slots s))))) as Hcnt.
  { rewrite Hc. by apply Permutation_length in Hclear. }
  unfold ids_decrement. destruct (Nat.ltb_spec 0 (id_count s)); [|lia]. mstep.
  destruct (reinsert_step id (2 ^ p) _ (ids_home_lt _ _) _ _ _ _ _ Hi Hd) as (f&Hends&Hf1&Hl1&Hi').
  rewrite (ids_insert_at (with_slots s (<[idx := None]> (id_slots s)) (id_count s - 1)) p d f Hl1 Hends Hf1). mstep.
  set (s1 := with_slots _ _ _). assert (ids_mask s = 2 ^ p - 1) as Hm by (unfold ids_mask; by rewrite Hl).
  assert (ids_mask s1 = 2 ^ p - 1) as -> by (unfold ids_mask, s1; cbn; by rewrite !length_insert, Hl).
  rewrite (land_step (2 ^ p) p idx eq_refl Hix).
  assert (idx ≠ e) as Hie by congruence. rewrite decide_False in Hf by done.
  pose proof (entries_fill _ _ d Hf1) as Hfill.
  destruct (IH s1 (step (2 ^ p) idx)) as (s'&->&Hl'&Hh'&Hok'&Hp'&Hc').
  - unfold s1. cbn. by rewrite !length_insert.
  - unfold s1. cbn. rewrite Hfill. cbn. lia.
  - done.
  - destruct (step_after (2 ^ p) idx e Hix He Hie) as [?|?]; repeat case_decide; ring_lia.
  - exists s'. split; [done|]. split_and!; try done.
    + rewrite Hp'. unfold s1. cbn. by rewrite Hfill, Hclear.
    + rewrite Hc'. unfold s1. cbn. lia.
Qed.

(** [s] stands for the set [X], with an empty slot to stop every probe. *)
Record ids_rep s (X : gset Identity) : Prop := {
  ir_slots : ∃ p, length (id_slots s) = 2 ^ p;
  ir_table : table_ok id (length (id_slots s)) (ids_home (id_hash s) (length (id_slots s))) (id_slots s);
  ir_entries : entries (id_slots s) ≡ₚ elements X;
  ir_count : id_count s = size X;
  ir_room : size X < length (id_slots s);
}.

Lemma ir_mem s X v : ids_rep s X → v ∈ entries (id_slots s) ↔ v ∈ X.
Proof. intros Hs. by rewrite (ir_entries s X Hs), elem_of_elements. Qed.

Lemma ir_empty s X : ids_rep s X → ∃ e, e < length (id_slots s) ∧ id_slots s !! e = Some None.
Proof. intros Hs. apply table_has_empty. rewrite (ir_entries s X Hs). apply (ir_room s X Hs). Qed.

(** Where the probe for a value ends: at its slot, or at an empty one. *)
Lemma ids_probe s X v :
  ids_rep s X →
  ∃ p q, length (id_slots s) = 2 ^ p ∧ probe_ends id (2 ^ p) (ids_home (id_hash s) (2 ^ p)) (id_slots s) v q ∧
    id_slots s !! q = Some (if decide (v ∈ X) then Some v else None).
Proof.
  intros Hs. destruct (ir_slots s X Hs) as [p Hl]. destruct (ir_empty s X Hs) as (e&He&Hte).
  pose proof (ir_table s X Hs) as Ht. rewrite Hl in *.
  destruct (probe_ends_exists id (2 ^ p) _ (ids_home_lt _ _) _ v e Ht He Hte)
    as [(q&w&Hends&Hq&Hw)|(q&Hends&Hq&Habs)]; exists p, q; (split; [done|]); (split; [done|]).
  - cbn in Hw. subst w. rewrite decide_True; [done|]. apply (ir_mem s X v Hs), elem_of_entries. by exists q.
  - rewrite decide_False; [done|]. intros Hin%(ir_mem s X v Hs). by apply (Habs v Hin).
Qed.

(** The probe loops of the three operations, all stopped at that slot. *)
Lemma ids_loop {R} s p v q (body : nat → outcome False (option R)) r :
  length (id_slots s) = 2 ^ p → probe_ends id (2 ^ p) (ids_home (id_hash s) (2 ^ p)) (id_slots s) v q →
  (∀ q w, id_slots s !! q = Some (Some w) → w ≠ v → body q = Ok None) → body q = Ok (Some r) →
  probe_loop (length (id_slots s)) body (ids_mask s) (ids_index s v) = Ok r.
Proof.
  intros Hl Hends Hskip Hstop. unfold ids_index, ids_mask. rewrite Hl.
  by apply (probe_loop_ends id (2 ^ p) (ids_home (id_hash s) (2 ^ p)) (ids_home_lt _ _) p (2 ^ p) body (id_slots s) v q r).
Qed.

Lemma ids_contains_spec s X v : ids_rep s X → ids_contains s v = Ok (bool_decide (v ∈ X)).
Proof.
  intros Hs. destruct (ids_probe s X v Hs) as (p&q&Hl&Hends&Hq). unfold ids_contains.
  apply (ids_loop s p v q); [done|done| |].
  - intros r w Hr Hw. unfold contains_body. rewrite Hr. mstep. by rewrite decide_False.
  - unfold contains_body. rewrite Hq. mstep. case_decide as Hin.
    + rewrite decide_True by done. by rewrite bool_decide_eq_true_2.
    + by rewrite bool_decide_eq_false_2.
Qed.

Lemma ids_insert_spec s X v :
  ids_rep s X → v ∈ X ∨ S (size X) < length (id_slots s) →
  ∃ s', ids_insert s v = Ok s' ∧ ids_rep s' ({[v]} ∪ X) ∧ length (id_slots s') = length (id_slots s) ∧
    id_capacity s' = id_capacity s.
Proof.
  intros Hs Hroom. destruct (ids_probe s X v Hs) as (p&q&Hl&Hends&Hq). case_decide as Hin.
  { exists s. assert ({[v]} ∪ X = X) as -> by set_solver. split; [|done]. unfold ids_insert.
    rewrite (ids_loop s p v q _ None); [done..| |].
    - intros r w Hr Hw. unfold insert_body. rewrite Hr. mstep. by rewrite decide_False.
    - unfold insert_body. rewrite Hq. mstep. by rewrite decide_True. }
  destruct Hroom as [?|Hroom]; [done|]. rewrite (ids_insert_at s p v q Hl Hends Hq). eexists. split; [done|].
  pose proof (ir_table s X Hs) as Ht. rewrite Hl in Ht.
  destruct (table_ok_insert id (2 ^ p) _ _ v q Ht Hends Hq) as [Hok He].
  { intros w Hw%(ir_mem s X w Hs) Hwv. cbn in Hwv. by subst w. }
  split; [|split; [|done]]; cbn; rewrite ?length_insert; [|done].
  split; cbn; rewrite ?length_insert, ?Hl; [by exists p|done| | |].
  - by rewrite He, elements_union_singleton, (ir_entries s X Hs).
  - rewrite (ir_count s X Hs), size_union, size_singleton by set_solver. lia.
  - rewrite size_union, size_singleton by set_solver. lia.
Qed.

Lemma ids_remove_spec s X v :
  ids_rep s X →
  ∃ s', ids_remove s v = Ok s' ∧ ids_rep s' (X ∖ {[v]}) ∧ length (id_slots s') = length (id_slots s).
Proof.
  intros Hs. destruct (ids_probe s X v Hs) as (p&q&Hl&Hends&Hq). unfold ids_remove.
  rewrite (ids_loop s p v q _ (if decide (v ∈ X) then Some q else None)); [|done|done| |].
  2: { intros r w Hr Hw. unfold remove_body. rewrite Hr. mstep. by rewrite decide_False by congruence. }
  2: { unfold remove_body. rewrite Hq. mstep. case_decide; [by rewrite decide_True|by rewrite decide_False]. }
  mstep. case_decide as Hin.
  2: { exists s. split; [done|]. by assert (X ∖ {[v]} = X) as -> by set_solver. }
  assert (elements X ≡ₚ v :: elements (X ∖ {[v]})) as HX.
  { rewrite (union_difference_singleton_L v X Hin) at 1. by rewrite elements_union_singleton by set_solver. }
  assert (size X = S (size (X ∖ {[v]}))) as Hsz.
  { unfold size, set_size. cbn. by rewrite HX. }
  pose proof (ir_count s X Hs) as Hcount. unfold ids_decrement. destruct (Nat.ltb_spec 0 (id_count s)); [|lia]. mstep.
  destruct (ir_empty s X Hs) as (e&He&Hte). pose proof (ir_table s X Hs) as Ht. rewrite Hl in Ht, He.
  set (s1 := with_slots s _ _). pose proof (entries_clear _ _ _ Hq) as Hclear. rewrite (ir_entries s X Hs), HX in Hclear.
  apply Permutation_cons_inv in Hclear. pose proof (reinsert_start _ _ _ (ids_home_lt _ _) _ q v e Ht Hq He Hte) as Hi.
  assert (length (id_slots s1) = 2 ^ p) as Hl1 by (unfold s1; cbn; by rewrite length_insert).
  assert (ids_mask s1 = 2 ^ p - 1) as -> by (unfold ids_mask; by rewrite Hl1).
  pose proof (lookup_lt_Some _ _ _ Hq) as Hql. rewrite Hl in Hql. rewrite (land_step (2 ^ p) p q eq_refl Hql).
  destruct (reinsert_loop_spec (S (length (id_slots s1))) s1 p e q (step (2 ^ p) q) Hl1) as (s'&->&Hl'&Hh&Hok&Hp&Hc); [|done| |].
  - unfold s1. cbn. rewrite <- Hclear. rewrite Hcount, Hsz. unfold size, set_size. cbn. lia.
  - rewrite Hl1. case_decide; ring_lia.
  - exists s'. split; [done|]. split; [|congruence]. split; rewrite ?Hl', ?Hh; [by exists p|done| | |].
    + by rewrite Hp, Hclear.
    + rewrite Hc. unfold s1. cbn. lia.
    + pose proof (ir_room s X Hs). lia.
Qed.

(** A table of empty slots stands for the empty set. *)
Lemma ids_blank_rep s p :
  id_slots s = replicate (2 ^ p) None → id_count s = 0 → ids_rep s ∅.
Proof.
  intros Hs Hc. split; rewrite ?Hs, ?length_replicate; [by exists p|apply table_ok_empty|..].
  - by rewrite entries_blank, elements_empty.
  - by rewrite size_empty.
  - rewrite size_empty. pose proof (Nat.pow_nonzero 2 p). lia.
Qed.

Lemma ids_clear_spec s X :
  ids_rep s X → ids_rep (ids_clear s) ∅ ∧ length (id_slots (ids_clear s)) = length (id_slots s).
Proof.
  intros Hs. unfold ids_clear. destruct (Nat.eqb_spec (id_count s) 0) as [Hz|].
  - rewrite (ir_count s X Hs) in Hz. by apply size_empty_inv, leibniz_equiv in Hz as ->.
  - destruct (ir_slots s X Hs) as [p Hl]. rewrite Hl. split; [by apply (ids_blank_rep _ p)|].
    cbn. by rewrite length_replicate.
Qed.
End identities_theory.

(** ** The remaining counts implement multisets *)

(** Replacing one entry of a list, up to order. *)
Lemma insert_perm {A} (l : list A) k e e' :
  l !! k = Some e → ∃ rest, l ≡ₚ e :: rest ∧ <[k := e']> l ≡ₚ e' :: rest.
Proof.
  intros Hk. exists (take k l ++ drop (S k) l). split.
  - rewrite <- (take_drop_middle l k e Hk) at 1. symmetry. apply Permutation_middle.
  - rewrite (insert_app_split l k e' e Hk). symmetry. apply Permutation_middle.
Qed.

(** [swap_remove] drops one entry and moves the last one to its place. *)
Lemma swap_remove_spec l index e :
  l !! index = Some e →
  ∃ l', swap_remove l index = Ok l' ∧ l ≡ₚ e :: l' ∧ length l = S (length l') ∧
    (∀ v, v < length l' → v ≠ index → l' !! v = l !! v) ∧
    (index < length l' → l' !! index = l !! length l').
Proof.
  intros He. pose proof (lookup_lt_Some _ _ _ He) as Hlt. destruct l as [|z l0 _] using rev_ind; [done|].
  rewrite length_app in Hlt. cbn in Hlt. exists (if decide (index = length l0) then l0 else <[index := z]> l0).
  unfold swap_remove. rewrite He. mstep. rewrite last_snoc. mstep. rewrite length_app. cbn. case_decide as Hi.
  - subst index. rewrite list_lookup_middle in He by done. injection He as ->.
    rewrite list_insert_id by (by rewrite list_lookup_middle). rewrite removelast_last. split; [done|].
    split; [by rewrite Permutation_app_comm|]. split; [lia|]. split; [|lia].
    intros v Hv _. by rewrite lookup_app_l.
  - rewrite insert_app_l by lia. rewrite removelast_last. split; [done|]. rewrite lookup_app_l in He by lia.
    destruct (insert_perm l0 index e z He) as (rest&Hp&Hp'). split; [|rewrite !length_insert; split; [lia|]; split].
    + rewrite Permutation_app_comm. cbn. rewrite Hp', Hp. apply perm_swap.
    + intros v Hv Hne. rewrite list_lookup_insert_ne by done. by rewrite lookup_app_l.
    + intros _. by rewrite list_lookup_insert_eq, list_lookup_middle by lia.
Qed.

Definition no_identity : Identity := {| id_position := {| tx := 0; ty := 0; tz := 0 |}; id_type := 0 |}.
Definition ident_at (l : list CountEntry) (k : nat) : Identity :=
  match l !! k with Some e => ce_identity e | None => no_identity end.
Definition pair_of (e : CountEntry) : Identity * Z := (ce_identity e, ce_count e).

Section counts_theory.
Implicit Types (s : RemainingCounts) (i : Identity) (M : gmap Identity Z).

(** The index is a table over the dense entries [l], of which it may lack some. *)
Record rc_table s p : Prop := {
  rt_slots : length (rc_lookup s) = 2 ^ p;
  rt_table : table_ok (ident_at (rc_entries s)) (2 ^ p) (ids_home (rc_hash s) (2 ^ p)) (rc_lookup s);
  rt_valid q k : rc_lookup s !! q = Some (Some k) → k < length (rc_entries s);
  rt_empty : ∃ e, e < 2 ^ p ∧ rc_lookup s !! e = Some None;
}.

Lemma rc_mask_eq s p : rc_table s p → rc_mask s = 2 ^ p - 1.
Proof. intros Ht. unfold rc_mask. by rewrite (rt_slots s p Ht). Qed.

Lemma ident_at_lookup s k e : rc_entries s !! k = Some e → ident_at (rc_entries s) k = ce_identity e.
Proof. intros He. unfold ident_at. by rewrite He. Qed.

(** Looking an identity up. *)
Lemma rc_find_spec s p i :
  rc_table s p →
  ∃ q, probe_ends (ident_at (rc_entries s)) (2 ^ p) (ids_home (rc_hash s) (2 ^ p)) (rc_lookup s) i q ∧
    ((rc_find s i = Ok (inl q) ∧ ∃ k e, rc_lookup s !! q = Some (Some k) ∧ rc_entries s !! k = Some e ∧ ce_identity e = i) ∨
     (rc_find s i = Ok (inr q) ∧ rc_lookup s !! q = Some None ∧
      ∀ k, k ∈ entries (rc_lookup s) → ident_at (rc_entries s) k ≠ i)).
Proof.
  intros Ht. destruct (rt_empty s p Ht) as (e0&He0&Hempty). pose proof (rt_slots s p Ht) as Hl.
  assert (Hloop : ∀ q r, probe_ends (ident_at (rc_entries s)) (2 ^ p) (ids_home (rc_hash s) (2 ^ p)) (rc_lookup s) i q →
    find_body s i q = Ok (Some r) → rc_find s i = Ok r).
  { intros q r Hends Hstop. unfold rc_find, rc_bucket. rewrite (rc_mask_eq s p Ht), Hl.
    apply (probe_loop_ends (ident_at (rc_entries s)) (2 ^ p) (ids_home (rc_hash s) (2 ^ p)) (ids_home_lt _ _) p (2 ^ p) _ (rc_lookup s) i q r eq_refl); [done|done| |done].
    intros r' k Hr Hk. unfold find_body. rewrite Hr. mstep.
    destruct (lookup_lt_ok _ _ (rt_valid s p Ht _ _ Hr)) as [e He]. rewrite He. mstep.
    rewrite decide_False; [done|]. by rewrite <- (ident_at_lookup s k e He). }
  destruct (probe_ends_exists _ (2 ^ p) _ (ids_home_lt _ _) _ i e0 (rt_table s p Ht) He0 Hempty)
    as [(q&k&Hends&Hq&Hk)|(q&Hends&Hq&Habs)]; exists q; (split; [done|]).
  - left. destruct (lookup_lt_ok _ _ (rt_valid s p Ht _ _ Hq)) as [e He]. rewrite (ident_at_lookup s k e He) in Hk.
    split; [|by exists k, e]. apply (Hloop q); [done|]. unfold find_body. rewrite Hq. mstep. rewrite He. mstep. by rewrite decide_True.
  - right. split; [|done]. apply (Hloop q); [done|]. unfold find_body. by rewrite Hq.
Qed.

(** The repair loop is the backward shift of the theory. *)
Lemma repair_loop_shift fuel s p hole scan t' :
  length (rc_lookup s) = 2 ^ p → scan < 2 ^ p →
  (∀ q k, rc_lookup s !! q = Some (Some k) → k < length (rc_entries s)) →
  shift (ident_at (rc_entries s)) (2 ^ p) (ids_home (rc_hash s) (2 ^ p)) fuel (rc_lookup s) hole scan = Some t' →
  repair_loop fuel s hole scan = Ok (with_counts s (rc_entries s) t').
Proof.
  revert s hole scan. induction fuel as [|fuel IH]; intros s hole scan Hl Hscan Hv; [done|].
  cbn [shift repair_loop]. destruct (lookup_lt_ok (rc_lookup s) scan ltac:(lia)) as [[k|] Hk]; rewrite Hk; mstep.
  2: { intros [= <-]. by destruct s. }
  destruct (lookup_lt_ok _ _ (Hv _ _ Hk)) as [e He]. rewrite He. mstep. rewrite (ident_at_lookup s k e He).
  unfold rc_bucket, rc_mask. rewrite Hl. rewrite (land_step (2 ^ p) p scan eq_refl Hscan).
  change (Nat.land (rc_hash s (ce_identity e)) (2 ^ p - 1)) with (ids_home (rc_hash s) (2 ^ p) (ce_identity e)).
  pose proof (step_spec (2 ^ p) scan Hscan) as [Hst _].
  destruct (_ <? _); [|by apply IH]. intros Hs.
  apply (IH (with_counts s (rc_entries s) (<[scan := None]> (<[hole := Some k]> (rc_lookup s))))); [|done| |exact Hs].
  - cbn. by rewrite !length_insert.
  - cbn. intros q k' [(_&[=]&_)|(_&[(_&[= <-]&_)|(_&Hq)]%list_lookup_insert_Some)]%list_lookup_insert_Some; [by eapply Hv|by eapply Hv].
Qed.
End counts_theory.

Section counts_rep.
Implicit Types (s : RemainingCounts) (i : Identity) (M : gmap Identity Z).

(** [s] counts like [M]; the table keeps an empty bucket at its limit. *)
Record rc_rep s M : Prop := {
  rr_table : ∃ p, rc_table s p;
  rr_index : entries (rc_lookup s) ≡ₚ seq 0 (length (rc_entries s));
  rr_pairs : pair_of <$> rc_entries s ≡ₚ map_to_list M;
  rr_positive : map_Forall (λ _ c, 1 ≤ c)%Z M;
  rr_room : (zlen (rc_entries s) ≤ rc_limit s < zlen (rc_lookup s))%Z;
}.

Lemma rr_size s M : rc_rep s M → length (rc_entries s) = size M.
Proof.
  intros Hr. pose proof (Permutation_length (rr_pairs s M Hr)) as Hp.
  by rewrite length_fmap, length_map_to_list in Hp.
Qed.

Lemma rr_hit s M k e : rc_rep s M → rc_entries s !! k = Some e → M !! ce_identity e = Some (ce_count e).
Proof.
  intros Hr He. apply elem_of_map_to_list. rewrite <- (rr_pairs s M Hr).
  apply list_elem_of_fmap. exists e. split; [done|]. by eapply list_elem_of_lookup_2.
Qed.

Lemma rr_miss s M i :
  rc_rep s M → (∀ k, k ∈ entries (rc_lookup s) → ident_at (rc_entries s) k ≠ i) → M !! i = None.
Proof.
  intros Hr Habs. destruct (M !! i) as [c|] eqn:Hc; [exfalso|done].
  apply elem_of_map_to_list in Hc. rewrite <- (rr_pairs s M Hr) in Hc.
  apply list_elem_of_fmap in Hc as (e&[= -> ->]&He). apply list_elem_of_lookup in He as [k Hk].
  apply (Habs k); [|by apply ident_at_lookup]. rewrite (rr_index s M Hr). apply elem_of_seq.
  apply lookup_lt_Some in Hk. lia.
Qed.

(** Changing the count of one identity in place. *)
Lemma rr_update s M k e c :
  rc_rep s M → rc_entries s !! k = Some e → (1 ≤ c)%Z →
  rc_rep (with_counts s (<[k := {| ce_identity := ce_identity e; ce_count := c |}]> (rc_entries s)) (rc_lookup s))
    (<[ce_identity e := c]> M).
Proof.
  intros Hr He Hc. destruct (rr_table s M Hr) as [p Ht]. pose proof (lookup_lt_Some _ _ _ He).
  split; cbn [rc_entries rc_lookup rc_limit rc_hash with_counts].
  - exists p. destruct Ht as [Hl Ht Hv Hempty]. split; cbn; [done| |by rewrite length_insert|done].
    refine (table_ok_ext _ _ _ _ _ _ Ht). intros q k' Hq. unfold ident_at.
    destruct (decide (k' = k)) as [->|Hne]; [|by rewrite list_lookup_insert_ne by done].
    by rewrite list_lookup_insert_eq, He by done.
  - rewrite length_insert. apply (rr_index s M Hr).
  - destruct (insert_perm (rc_entries s) k e {| ce_identity := ce_identity e; ce_count := c |} He) as (rest&Hp&Hp').
    rewrite Hp'. apply (pairs_change (pair_of <$> rc_entries s) _ M _ (ce_count e)); [by rewrite Hp|apply (rr_pairs s M Hr)].
  - apply map_Forall_insert_2; [done|apply (rr_positive s M Hr)].
  - unfold zlen. rewrite length_insert. apply (rr_room s M Hr).
Qed.

(** The effect of one [add] and one [remove] on the multiset. *)
Definition count_up i M : gmap Identity Z := <[i := (default 0 (M !! i) + 1)%Z]> M.
Definition count_down i M : gmap Identity Z :=
  match M !! i with
  | None => M
  | Some c => if (1 <? c)%Z then <[i := (c - 1)%Z]> M else delete i M
  end.

Lemma rc_add_spec s M i :
  rc_rep s M → (default 0 (M !! i) < usize_max)%Z →
  if decide (M !! i = None ∧ Z.of_nat (size M) = rc_limit s) then rc_add s i = Panic
  else ∃ s', rc_add s i = Ok s' ∧ rc_rep s' (count_up i M) ∧ rc_limit s' = rc_limit s.
Proof.
  intros Hr Hmax. destruct (rr_table s M Hr) as [p Ht]. unfold rc_add, count_up.
  destruct (rc_find_spec s p i Ht) as (q&Hends&[(->&k&e&Hq&He&Hi)|(->&Hq&Habs)]); mstep.
  - pose proof (rr_hit s M k e Hr He) as HM. rewrite Hi in HM. rewrite HM in *. cbn in Hmax |- *.
    rewrite decide_False by (by intros []). unfold rc_index. rewrite Hq. mstep. rewrite He. mstep.
    unfold checked_add. destruct (Z.leb_spec (ce_count e + 1) usize_max); [|lia]. mstep. eexists. split; [done|]. split; [|done].
    rewrite <- Hi. apply (rr_update s M k e); [done|done|]. pose proof (rr_positive s M Hr _ _ HM). cbn in *. lia.
  - pose proof (rr_miss s M i Hr Habs) as HM. rewrite HM. cbn [default]. pose proof (rr_room s M Hr) as Hroom.
    pose proof (rr_size s M Hr) as Hsize. unfold zlen in *. case_decide as Hfull.
    { destruct (Z.ltb_spec (Z.of_nat (length (rc_entries s))) (rc_limit s)); [lia|done]. }
    destruct (Z.ltb_spec (Z.of_nat (length (rc_entries s))) (rc_limit s)); [mstep|exfalso; apply Hfull; split; [done|lia]].
    eexists. split; [done|]. split; [|done]. set (l' := rc_entries s ++ _). pose proof Ht as [Hl Htab Hv Hempty].
    assert (Hkey : ∀ q k, rc_lookup s !! q = Some (Some k) → ident_at (rc_entries s) k = ident_at l' k).
    { intros r k Hk. unfold ident_at, l'. by rewrite lookup_app_l by (by eapply Hv). }
    assert (Hkn : ident_at l' (length (rc_entries s)) = i) by (unfold ident_at, l'; by rewrite list_lookup_middle).
    pose proof (table_ok_ext _ (ident_at l') _ _ _ Hkey Htab) as Htab'.
    destruct (table_ok_insert (ident_at l') (2 ^ p) _ (rc_lookup s) (length (rc_entries s)) q Htab') as [Htab2 Hent].
    { destruct Hends as (?&_&Hpath). rewrite Hkn. split; [done|]. split; [by left|].
      intros r Hr' Hd. destruct (Hpath r Hr' Hd) as (k&Hk&Hne). exists k. split; [done|]. by rewrite <- (Hkey r k). }
    { done. }
    { intros k Hk. rewrite Hkn. pose proof Hk as [r Hr']%elem_of_entries. rewrite <- (Hkey r k) by done. by apply Habs. }
    assert (Hperm : entries (<[q:=Some (length (rc_entries s))]> (rc_lookup s)) ≡ₚ seq 0 (length l')).
    { rewrite Hent, (rr_index s M Hr). unfold l'. rewrite length_app. cbn. rewrite Nat.add_1_r, seq_S. apply Permutation_cons_append. }
    split; cbn [rc_entries rc_lookup rc_limit rc_hash with_counts].
    + exists p. split; cbn; [by rewrite length_insert|done| |].
      * intros r k Hk. assert (k ∈ seq 0 (length l')) as Hin; [|apply elem_of_seq in Hin; lia].
        rewrite <- Hperm. apply elem_of_entries. by exists r.
      * destruct (table_has_empty (<[q:=Some (length (rc_entries s))]> (rc_lookup s))) as (e&He&?).
        { rewrite Hperm, length_seq, length_insert. unfold l'. rewrite length_app. cbn. lia. }
        exists e. rewrite length_insert in He. by rewrite <- Hl.
    + done.
    + unfold l'. rewrite fmap_app, Permutation_app_comm. apply pairs_add; [apply (rr_pairs s M Hr)|done].
    + apply map_Forall_insert_2; [lia|apply (rr_positive s M Hr)].
    + unfold zlen, l'. rewrite length_app, length_insert. cbn. lia.
Qed.

(** The table of an index whose entry at [index] is gone, once the last dense
    entry has moved there. *)
Lemma rc_moved s1 p l' index e :
  rc_table s1 p → rc_entries s1 !! index = Some e → swap_remove (rc_entries s1) index = Ok l' →
  index :: entries (rc_lookup s1) ≡ₚ seq 0 (length (rc_entries s1)) →
  ∃ moved, (if index =? length (rc_entries s1) - 1 then Ok None
            else e ← unwrap (rc_entries s1 !! (length (rc_entries s1) - 1));
                 b ← rc_find s1 (ce_identity e);
                 match b with inl bucket => Ok (Some bucket) | inr _ => Panic end) = Ok moved ∧
    let s2 := with_counts s1 l' match moved with Some bucket => <[bucket := Some index]> (rc_lookup s1) | None => rc_lookup s1 end in
    rc_table s2 p ∧ entries (rc_lookup s2) ≡ₚ seq 0 (length l') ∧ length (rc_lookup s2) = length (rc_lookup s1).
Proof.
  intros Ht He Hsr Hperm. destruct (swap_remove_spec _ _ _ He) as (l2&Hsr2&_&Hlen&Hsame&Hlast).
  rewrite Hsr in Hsr2. injection Hsr2 as <-. pose proof Ht as [Hl Htab Hv (e0&He0&Hempty)].
  pose proof (lookup_lt_Some _ _ _ He) as Hlt.
  assert (Hin : ∀ q k, rc_lookup s1 !! q = Some (Some k) → k < length (rc_entries s1) ∧ k ≠ index).
  { intros q k Hq. split; [by eapply Hv|]. intros ->.
    assert (NoDup (index :: entries (rc_lookup s1))) as Hnd by (rewrite Hperm; apply NoDup_seq).
    apply NoDup_cons in Hnd as [Hnd _]. apply Hnd, elem_of_entries. by exists q. }
  rewrite Hlen in Hperm, Hin, Hlt |- *. rewrite seq_S in Hperm. cbn in Hperm.
  replace (S (length l') - 1) with (length l') by lia.
  destruct (Nat.eqb_spec index (length l')) as [->|Hne].
  - exists None. split; [done|]. cbn [rc_entries rc_lookup with_counts]. split; [|split; [|done]].
    + split; cbn; [done| | |by exists e0].
      * refine (table_ok_ext _ _ _ _ _ _ Htab). intros q k Hq. unfold ident_at. destruct (Hin q k Hq).
        by rewrite Hsame by lia.
      * intros q k Hq. destruct (Hin q k Hq). lia.
    + apply (Permutation_cons_inv (a := length l')). rewrite Hperm. symmetry. apply Permutation_cons_append.
  - destruct (lookup_lt_ok (rc_entries s1) (length l') ltac:(lia)) as [z Hz]. rewrite Hz. mstep.
    destruct (rc_find_spec s1 p (ce_identity z) Ht) as (q&_&[(->&k&y&Hq&Hy&Hyz)|(_&_&Habs)]); mstep.
    2: { exfalso. apply (Habs (length l')); [|by apply ident_at_lookup].
         assert (length l' ∈ index :: entries (rc_lookup s1)) as [?|?]%elem_of_cons; [|congruence|done].
         rewrite Hperm. apply elem_of_app. right. by left. }
    assert (length l' ∈ index :: entries (rc_lookup s1)) as [?|[q' Hq']%elem_of_entries]%elem_of_cons; [|congruence|].
    { rewrite Hperm. apply elem_of_app. right. by left. }
    assert (q' = q) as ->.
    { apply (ok_unique _ _ _ _ Htab q' q _ _ Hq' Hq). rewrite (ident_at_lookup _ _ _ Hz), (ident_at_lookup _ _ _ Hy). done. }
    rewrite Hq in Hq'. injection Hq' as ->. rewrite Hz in Hy. injection Hy as <-.
    exists (Some q). split; [done|]. cbn [rc_entries rc_lookup with_counts]. split; [|split; [|by rewrite length_insert]].
    + assert (q ≠ e0) by congruence. split; cbn; [by rewrite length_insert| | |].
      * apply (table_ok_rename _ _ _ _ _ q (length l') index Htab Hq).
        -- unfold ident_at. by rewrite Hlast, Hz by lia.
        -- intros r k Hr Hk. unfold ident_at. destruct (Hin r k Hk). rewrite Hsame; [done| |done].
           assert (k ≠ length l'); [|lia]. intros ->. apply Hr.
           by apply (ok_unique _ _ _ _ Htab r q _ _ Hk Hq).
      * intros r k [(_&[= <-]&_)|(Hr&Hk)]%list_lookup_insert_Some; [lia|]. destruct (Hin r k Hk).
        assert (k ≠ length l'); [|lia]. intros ->. apply Hr. by apply (ok_unique _ _ _ _ Htab q r _ _ Hq Hk).
      * exists e0. by rewrite list_lookup_insert_ne.
    + pose proof (entries_clear _ _ _ Hq) as Hc.
      rewrite <- (list_insert_insert_eq (rc_lookup s1) q (Some index) None).
      rewrite entries_fill by (rewrite list_lookup_insert_eq; [done|by eapply lookup_lt_Some]).
      apply (Permutation_cons_inv (a := length l')). rewrite perm_swap, <- Hc, Hperm.
      symmetry. apply Permutation_cons_append.
Qed.

Lemma rc_remove_spec s M i :
  rc_rep s M → ∃ s', rc_remove s i = Ok s' ∧ rc_rep s' (count_down i M) ∧ rc_limit s' = rc_limit s.
Proof.
  intros Hr. destruct (rr_table s M Hr) as [p Ht]. unfold rc_remove, count_down.
  destruct (rc_find_spec s p i Ht) as (q&_&[(->&k&e&Hq&He&Hi)|(->&Hq&Habs)]); mstep.
  2: { rewrite (rr_miss s M i Hr Habs). by exists s. }
  pose proof (rr_hit s M k e Hr He) as HM. rewrite <- Hi, HM. unfold rc_index. rewrite Hq. mstep. rewrite He. mstep.
  destruct (Z.ltb_spec 1 (ce_count e)) as [Hc|Hc].
  { eexists. split; [done|]. split; [|done]. by apply (rr_update s M k e); [| |lia]. }
  destruct (rt_empty s p Ht) as (e0&He0&Hempty). pose proof (rt_slots s p Ht) as Hl.
  destruct (shift_remove _ _ _ (ids_home_lt _ _) _ q k e0 (rt_table s p Ht) Hq He0 Hempty) as (t'&Hshift&Hok&Hperm&He0').
  pose proof (lookup_lt_Some _ _ _ Hq) as Hqlt.
  set (s1 := with_counts s (rc_entries s) (<[q:=None]> (rc_lookup s))).
  assert (length (rc_lookup s1) = 2 ^ p) as Hl1 by (unfold s1; cbn; by rewrite length_insert).
  assert (rc_mask s1 = 2 ^ p - 1) as -> by (unfold rc_mask; by rewrite Hl1). rewrite Hl1.
  rewrite (land_step (2 ^ p) p q eq_refl) by lia.
  assert (Hv1 : ∀ q k, rc_lookup s1 !! q = Some (Some k) → k < length (rc_entries s1)).
  { unfold s1. cbn. intros r k' [(_&[=]&_)|(_&Hk')]%list_lookup_insert_Some. by eapply (rt_valid s p Ht). }
  pose proof (step_spec (2 ^ p) q ltac:(lia)) as [Hst _].
  rewrite (repair_loop_shift _ s1 p q _ t' Hl1 Hst Hv1 Hshift). mstep.
  set (s2 := with_counts s1 (rc_entries s1) t').
  assert (Ht2 : rc_table s2 p).
  { split; cbn; [by apply (ok_length _ _ _ _ Hok)|done| |by exists e0].
    intros r k' Hk'. assert (k' ∈ entries (rc_lookup s)) as [r' ?]%elem_of_entries; [|by eapply (rt_valid s p Ht)].
    rewrite Hperm. right. apply elem_of_entries. by exists r. }
  change (rc_entries s2) with (rc_entries s). rewrite (rr_index s M Hr) in Hperm.
  destruct (swap_remove_spec _ _ _ He) as (l'&Hsr&Hlp&Hlen&_).
  destruct (rc_moved s2 p l' k e Ht2 He Hsr) as (moved&Hmoved&Ht3&Hperm3&Hlen3); [by symmetry|].
  change (rc_entries s2) with (rc_entries s) in Hmoved.
  set (m := if k =? _ then _ else _) in Hmoved |- *. rewrite Hmoved. mstep. rewrite Hsr. mstep.
  eexists. split; [done|]. split; [|done]. pose proof (rr_room s M Hr) as Hroom. split.
  - by exists p.
  - done.
  - apply (pairs_drop (pair_of <$> rc_entries s) _ M _ (ce_count e)); [by rewrite Hlp|apply (rr_pairs s M Hr)].
  - apply map_Forall_delete, (rr_positive s M Hr).
  - unfold zlen in *. rewrite Hlen3. cbn [rc_entries rc_limit with_counts] in *.
    change (rc_lookup s2) with t'. rewrite (ok_length _ _ _ _ Hok). cbn. lia.
Qed.

Lemma rc_blank_rep s p :
  rc_lookup s = replicate (2 ^ p) None → rc_entries s = [] → (0 ≤ rc_limit s < Z.of_nat (2 ^ p))%Z → rc_rep s ∅.
Proof.
  intros Hs He Hlim. split; rewrite ?Hs, ?He; unfold zlen; rewrite ?length_replicate; [|by rewrite entries_blank|..].
  - exists p. pose proof (Nat.pow_nonzero 2 p). split; rewrite ?Hs, ?He, ?length_replicate; [done|apply table_ok_empty| |].
    + intros q k [Hk _]%lookup_replicate. done.
    + exists 0. split; [lia|]. apply lookup_replicate. split; [done|lia].
  - by rewrite map_to_list_empty.
  - apply map_Forall_empty.
  - cbn. lia.
Qed.

Lemma rc_clear_spec s M : rc_rep s M → rc_rep (rc_clear s) ∅ ∧ rc_limit (rc_clear s) = rc_limit s.
Proof.
  intros Hr. unfold rc_clear. destruct (rc_entries s) as [|e l] eqn:He.
  - pose proof (rr_pairs s M Hr) as Hp. rewrite He in Hp. cbn in Hp. apply Permutation_nil_l in Hp.
    symmetry in Hp. by apply map_to_list_empty_iff in Hp as ->.
  - destruct (rr_table s M Hr) as [p Ht]. pose proof (rr_room s M Hr) as Hroom. unfold zlen in Hroom.
    rewrite (rt_slots s p Ht) in *. split; [|done]. apply (rc_blank_rep _ p); [done|done|]. cbn. lia.
Qed.
End counts_rep.

(** ** What the owner relies on *)

(** The contract of a set with [slots] places, one of which stays empty. *)
Record bounded_set {Q T : Type} `{Countable T} (rep : Q → gset T → Prop) (slots : Q → nat)
    (contains : Q → T → outcome False bool) (insert remove : Q → T → outcome False Q) (clear : Q → Q) : Prop := {
  bs_contains q X v : rep q X → contains q v = Ok (bool_decide (v ∈ X));
  bs_insert q X v : rep q X → v ∈ X ∨ S (size X) < slots q →
    ∃ q', insert q v = Ok q' ∧ rep q' ({[v]} ∪ X) ∧ slots q' = slots q;
  bs_remove q X v : rep q X → ∃ q', remove q v = Ok q' ∧ rep q' (X ∖ {[v]}) ∧ slots q' = slots q;
  bs_clear q X : rep q X → rep (clear q) ∅ ∧ slots (clear q) = slots q;
}.

(** The contract of a multiset of at most [limit] distinct items. *)
Record bounded_counts {Q T : Type} `{Countable T} (rep : Q → gmap T Z → Prop) (limit : Q → Z)
    (add remove : Q → T → outcome False Q) (items : Q → list T) (clear : Q → Q) : Prop := {
  bc_add q M v : rep q M → (default 0 (M !! v) < usize_max)%Z →
    if decide (M !! v = None ∧ Z.of_nat (size M) = limit q) then add q v = Panic
    else ∃ q', add q v = Ok q' ∧ rep q' (<[v := (default 0 (M !! v) + 1)%Z]> M) ∧ limit q' = limit q;
  bc_remove q M v : rep q M → ∃ q', remove q v = Ok q' ∧ limit q' = limit q ∧
    rep q' (match M !! v with
            | None => M
            | Some c => if (1 <? c)%Z then <[v := (c - 1)%Z]> M else delete v M
            end);
  bc_items q M : rep q M → items q ≡ₚ (map_to_list M).*1;
  bc_clear q M : rep q M → rep (clear q) ∅ ∧ limit (clear q) = limit q;
}.

Definition ids_slots (s : Identities) : nat := length (id_slots s).

Lemma identities_are_set : bounded_set ids_rep ids_slots ids_contains ids_insert ids_remove ids_clear.
Proof.
  split.
  - apply ids_contains_spec.
  - intros s X v Hs Hroom. destruct (ids_insert_spec s X v Hs Hroom) as (s'&?&?&?&_). by exists s'.
  - intros s X v Hs. apply (ids_remove_spec s X v Hs).
  - apply ids_clear_spec.
Qed.

Lemma remaining_are_counts : bounded_counts rc_rep rc_limit rc_add rc_remove rc_identities rc_clear.
Proof.
  split.
  - apply rc_add_spec.
  - intros s M v Hr. destruct (rc_remove_spec s M v Hr) as (s'&?&?&?). by exists s'.
  - intros s M Hr. rewrite <- (rr_pairs s M Hr), <- list_fmap_compose. done.
  - apply rc_clear_spec.
Qed.

Section constructors.
Context `{Allocator}.

Lemma ids_new_spec size hash cap remaining s r :
  (0 ≤ cap)%Z → ids_new size hash cap remaining = Ok (s, r) →
  ids_rep s ∅ ∧ (2 * cap ≤ zlen (id_slots s))%Z ∧ r = (remaining - ids_bytes size s)%Z ∧ (0 ≤ r)%Z.
Proof.
  intros Hc Hn. unfold ids_new in Hn. apply outcome_bind_ok in Hn as (slots&Hslots%ok_or_ok&Hn).
  apply outcome_bind_ok in Hn as ([c r']&(Hcap&->&Hpos)%reserved_vec_ok&[= <- <-]).
  apply bind_Some in Hslots as (double&Hd&Hslots). unfold checked_mul in Hd. case_match; [|done]. injection Hd as <-.
  apply next_power_spec in Hslots as (Hge&_&k&->); [|lia]. split_and!; [|..|done|done].
  - apply (ids_blank_rep _ k); cbn; by rewrite ?to_nat_pow2.
  - cbn [id_slots]. unfold zlen. rewrite length_replicate, to_nat_pow2, Nat2Z.inj_pow. lia.
Qed.

Lemma rc_new_spec size usize hash cap remaining s r :
  (0 ≤ cap)%Z → rc_new size usize hash cap remaining = Ok (s, r) →
  rc_rep s ∅ ∧ rc_limit s = cap ∧
  r = (remaining - rc_entries_cap s * size - rc_lookup_cap s * usize)%Z ∧ (0 ≤ r)%Z.
Proof.
  intros Hc Hn. unfold rc_new in Hn. destruct (Z.eqb_spec cap 0) as [|Hne]; [done|].
  apply outcome_bind_ok in Hn as (slots&Hslots%ok_or_ok&Hn). apply outcome_bind_ok in Hn as (rq&_&Hn).
  destruct (_ <? _)%Z; [done|].
  apply outcome_bind_ok in Hn as ([ec b]&(_&->&_)%reserved_vec_ok&Hn).
  apply outcome_bind_ok in Hn as ([lc b]&(_&->&Hpos)%reserved_vec_ok&[= <- <-]).
  apply bind_Some in Hslots as (power&Hp&Hslots). unfold checked_mul in Hslots. case_match; [|done]. injection Hslots as <-.
  apply next_power_spec in Hp as (Hge&_&k&->); [|lia]. split_and!; [|done|cbn; lia|done].
  assert (Z.to_nat (2 ^ Z.of_nat k * 2) = 2 ^ S k) as Hs.
  { rewrite <- to_nat_pow2, Nat2Z.inj_succ, Z.pow_succ_r by lia. f_equal. lia. }
  apply (rc_blank_rep _ (S k)); cbn [rc_lookup rc_entries rc_limit]; [by rewrite Hs|done|].
  replace (Z.of_nat (2 ^ S k)) with (2 * 2 ^ Z.of_nat k)%Z; [lia|].
  rewrite Nat.pow_succ_r', Nat2Z.inj_mul, Nat2Z.inj_pow. lia.
Qed.

(** Construction fails only with a typed error. *)
Lemma ids_new_total size hash cap remaining :
  ids_new size hash cap remaining ≠ Panic ∧ ids_new size hash cap remaining ≠ NoFuel.
Proof.
  unfold ids_new. match goal with |- context [ok_or ?o] => destruct o as [slots|] end; mstep; [|done]. by reservations.
Qed.
Lemma rc_new_total size usize hash cap remaining :
  rc_new size usize hash cap remaining ≠ Panic ∧ rc_new size usize hash cap remaining ≠ NoFuel.
Proof.
  unfold rc_new. destruct (cap =? 0)%Z; [done|].
  match goal with |- context [ok_or ?o] => destruct o as [slots|] end; mstep; [|done].
  match goal with |- context [ok_or ?o] => destruct o as [rq|] end; mstep; [|done].
  destruct (_ <? _)%Z; [done|]. by reservations.
Qed.
End constructors.

(** ** Properties *)

(** C37. The identity set implements a mathematical set for every hash: a fresh
    one is empty with room for twice the capacity and charges the bytes it
    reports; contains, insert, remove (by re-inserting the cluster) and clear
    act as membership, union, difference and the empty set.  No index is out
    of range, the count never underflows and every probe ends. *)
Theorem identity_table_is_a_set :
  bounded_set ids_rep ids_slots ids_contains ids_insert ids_remove ids_clear ∧
  ∀ `{Allocator} size hash cap remaining s r, (0 ≤ cap)%Z → ids_new size hash cap remaining = Ok (s, r) →
    ids_rep s ∅ ∧ (2 * cap ≤ zlen (id_slots s))%Z ∧ r = (remaining - ids_bytes size s)%Z ∧ (0 ≤ r)%Z.
Proof. split; [exact identities_are_set|]. intros Ha size hash cap remaining s r. apply ids_new_spec. Qed.

(** The remaining counts implement a multiset for every hash: add counts up
    (and asserts exactly at the limit of distinct identities), remove counts
    down, drops the identity at its last tick and ignores absent ones, the
    dense iteration yields each counted identity once, and clear empties; the
    backward shift and the dense move keep the index exact. *)
Theorem remaining_counts_are_a_multiset :
  bounded_counts rc_rep rc_limit rc_add rc_remove rc_identities rc_clear ∧
  ∀ `{Allocator} size usize hash cap remaining s r, (0 ≤ cap)%Z → rc_new size usize hash cap remaining = Ok (s, r) →
    rc_rep s ∅ ∧ rc_limit s = cap ∧
    r = (remaining - rc_entries_cap s * size - rc_lookup_cap s * usize)%Z ∧ (0 ≤ r)%Z.
Proof. split; [exact remaining_are_counts|]. intros Ha size usize hash cap remaining s r. apply rc_new_spec. Qed.

(** ** Colliding identities *)

Definition sample_identity (n : Z) : Identity := {| id_position := {| tx := n; ty := 0; tz := 0 |}; id_type := 0 |}.

(** Every hash is the last slot: one cluster that wraps around. *)
Example identities_example :
  match ids_new (H := exact_allocator) 24 (λ _, 7) 3 1000 with
  | Ok (s, r) =>
      s ← ids_insert s (sample_identity 1); s ← ids_insert s (sample_identity 2); s ← ids_insert s (sample_identity 3);
      s ← ids_remove s (sample_identity 1); a ← ids_contains s (sample_identity 1); b ← ids_contains s (sample_identity 3);
      Ok (id_slots s, r, a, b)
  | _ => NoFuel
  end = Ok ([Some (sample_identity 3); None; None; None; None; None; None; Some (sample_identity 2)], 808%Z, false, true).
Proof. vm_compute. reflexivity. Qed.

Example counts_example :
  match rc_new (H := exact_allocator) 24 8 (λ _, 7) 4 1000 with
  | Ok (s, r) =>
      s ← rc_add s (sample_identity 1); s ← rc_add s (sample_identity 2); s ← rc_add s (sample_identity 3);
      s ← rc_add s (sample_identity 2); s ← rc_remove s (sample_identity 1); s ← rc_remove s (sample_identity 2);
      Ok (pair_of <$> rc_entries s, rc_lookup s, r)
  | _ => NoFuel
  end = Ok ([(sample_identity 3, 1%Z); (sample_identity 2, 1%Z)], [Some 0; None; None; None; None; None; None; Some 1], 840%Z).
Proof. vm_compute. reflexivity. Qed.
