(* ===== verification/TickIndex.v ===== *)
(** * The scheduling index (src/world/ticks/order_index.rs)

    A bounded open-addressed map from packed chunk keys to the time of the
    chunk's first tick, whose traversal order is observable.  Removal shifts the
    cluster back; a scan runs down the buckets and, when a removal during the
    scan carries an unvisited entry across slot zero to behind the cursor,
    remembers it in [wrapped] and visits it at the end.  The table grows and
    shrinks by re-hashing between two preallocated arrays. *)

From stdpp Require Import list fin_maps gmap.
From S2P Require Import Prelude.
From S2P Require Import Probe.
From S2P Require Import TickTypes.
Local Open Scope nat_scope.

Definition INITIAL_CAPACITY : Z := 32.
Definition MAX_CAPACITY : Z := 2 ^ 30.

(** A zero key marks an empty bucket; the key zero itself is kept aside. *)
Record Slot := { slot_key : Z; slot_time : Z }.
Definition empty_slot : Slot := {| slot_key := 0; slot_time := 0 |}.

Inductive Current := CZero | CBucket (index : nat) | CWrapped (key : Z).

Record Scan := {
  remaining : nat;
  before : nat;
  zero_pending : bool;
  wrapped_next : nat;
  current : option Current;
}.

Record SchedulingIndex := {
  slots : list Slot;
  rehash_scratch : list Slot;
  wrapped : list Z;
  logical : nat;
  max_keys : nat;
  len : nat;
  zero : option Z;
  scan : option Scan;
  allocated : Z * Z * Z;
}.

Definition max_fill (cap : Z) : Z := (cap / 4 * 3)%Z.

Definition mix (key : Z) : Z :=
  let product := u_wrap 64 (u_wrap 64 key * 0x9e3779b97f4a7c15) in
  let high_folded := Z.lxor product (Z.shiftr product 32) in
  Z.lxor high_folded (Z.shiftr high_folded 16).

(** [mix(key) as usize & mask] *)
Definition home (cap : nat) (key : Z) : nat := Z.to_nat (Z.land (mix key) (Z.of_nat cap - 1)).
Definition next_slot (cap i : nat) : nat := Nat.land (i + 1) (cap - 1).

(** ** Construction *)

Fixpoint physical_for (fuel : nat) (keys physical : Z) : outcome TickError Z :=
  if (max_fill physical <? keys)%Z then
    match fuel with
    | O => NoFuel
    | S fuel' => physical_for fuel' keys (physical * 2)
    end
  else Ok physical.

Section construction.
Context `{Allocator} (slot_size : Z).

Definition index_new (keys allocation_limit : Z) : outcome TickError SchedulingIndex :=
  if (max_fill MAX_CAPACITY <? keys)%Z then Err InvalidLimits
  else
    physical ← physical_for 25 keys INITIAL_CAPACITY;
    requested ← ok_or (tables ← checked_mul physical (slot_size * 2);
                       wrapped ← checked_mul keys 8;
                       checked_add tables wrapped) InvalidLimits;
    if (allocation_limit <? requested)%Z then Err AllocationBudget
    else
      '(a, remaining) ← reserved_vec slot_size physical allocation_limit;
      '(b, remaining) ← reserved_vec slot_size physical remaining;
      '(c, _) ← reserved_vec 8 keys remaining;
      Ok {| slots := replicate (Z.to_nat physical) empty_slot;
            rehash_scratch := replicate (Z.to_nat physical) empty_slot;
            wrapped := [];
            logical := Z.to_nat INITIAL_CAPACITY;
            max_keys := Z.to_nat keys;
            len := 0;
            zero := None;
            scan := None;
            allocated := (a, b, c) |}.

Definition index_bytes (s : SchedulingIndex) : Z :=
  let '(a, b, c) := allocated s in ((a + b) * slot_size + c * 8)%Z.
End construction.

(** ** Buckets *)

Definition with_table (s : SchedulingIndex) (l : list Slot) (w : list Z) : SchedulingIndex :=
  {| slots := l; rehash_scratch := rehash_scratch s; wrapped := w; logical := logical s; max_keys := max_keys s;
     len := len s; zero := zero s; scan := scan s; allocated := allocated s |}.
Definition with_zero (s : SchedulingIndex) (z : option Z) : SchedulingIndex :=
  {| slots := slots s; rehash_scratch := rehash_scratch s; wrapped := wrapped s; logical := logical s; max_keys := max_keys s;
     len := len s; zero := z; scan := scan s; allocated := allocated s |}.
Definition with_len (s : SchedulingIndex) (n : nat) : SchedulingIndex :=
  {| slots := slots s; rehash_scratch := rehash_scratch s; wrapped := wrapped s; logical := logical s; max_keys := max_keys s;
     len := n; zero := zero s; scan := scan s; allocated := allocated s |}.
Definition with_scan (s : SchedulingIndex) (c : option Scan) (w : list Z) : SchedulingIndex :=
  {| slots := slots s; rehash_scratch := rehash_scratch s; wrapped := w; logical := logical s; max_keys := max_keys s;
     len := len s; zero := zero s; scan := c; allocated := allocated s |}.

(** [self.len -= 1], which panics below zero. *)
Definition decrement_len (s : SchedulingIndex) : outcome False SchedulingIndex :=
  _ ← assert_that (0 <? len s); Ok (with_len s (len s - 1)).

Definition bucket_body (s : SchedulingIndex) (key : Z) (index : nat) : outcome False (option nat) :=
  slot ← unwrap (slots s !! index);
  if negb (slot_key slot =? 0)%Z && negb (slot_key slot =? key)%Z then Ok None else Ok (Some index).
Definition find_bucket (s : SchedulingIndex) (key : Z) : outcome False nat :=
  probe_loop (logical s) (bucket_body s key) (logical s - 1) (home (logical s) key).

(** The shift of [close_hole]: entries, wrapped keys and the final hole.  The
    hole keeps its old content until the end. *)
Fixpoint close_loop (fuel cap keys : nat) (preserve : bool) (l : list Slot) (w : list Z) (hole candidate : nat)
    : outcome False (list Slot * list Z * nat) :=
  match fuel with
  | O => NoFuel
  | S fuel' =>
      entry ← unwrap (l !! candidate);
      if (slot_key entry =? 0)%Z then Ok (l, w, hole)
      else
        let h := home cap (slot_key entry) in
        if dist cap h hole <? dist cap h candidate then
          w ← (if preserve && (candidate <? hole)
               then _ ← assert_that (length w <? keys); Ok (w ++ [slot_key entry]) else Ok w);
          _ ← unwrap (l !! hole);
          close_loop fuel' cap keys preserve (<[hole := entry]> l) w candidate (next_slot cap candidate)
        else close_loop fuel' cap keys preserve l w hole (next_slot cap candidate)
  end.

Definition close_hole (s : SchedulingIndex) (hole : nat) (preserve_scan : bool) : outcome False SchedulingIndex :=
  '(l, w, hole) ← close_loop (S (logical s)) (logical s) (max_keys s) preserve_scan
                    (slots s) (wrapped s) hole (next_slot (logical s) hole);
  _ ← unwrap (l !! hole);
  Ok (with_table s (<[hole := empty_slot]> l) w).

(** [while self.rehash_scratch[index].key != 0] *)
Definition free_body (l : list Slot) (index : nat) : outcome False (option nat) :=
  slot ← unwrap (l !! index);
  if (slot_key slot =? 0)%Z then Ok (Some index) else Ok None.

Fixpoint rehash_loop (cap : nat) (from : list Slot) (into : list Slot) : outcome False (list Slot) :=
  match from with
  | [] => Ok into
  | entry :: rest =>
      if (slot_key entry =? 0)%Z then rehash_loop cap rest into
      else
        index ← probe_loop cap (free_body into) (cap - 1) (home cap (slot_key entry));
        rehash_loop cap rest (<[index := entry]> into)
  end.

Definition rehash (s : SchedulingIndex) (cap : nat) : outcome False SchedulingIndex :=
  _ ← assert_that (cap <=? length (rehash_scratch s));
  let blank := replicate cap empty_slot ++ drop cap (rehash_scratch s) in
  _ ← assert_that (logical s <=? length (slots s));
  filled ← rehash_loop cap (rev (take (logical s) (slots s))) blank;
  Ok {| slots := filled; rehash_scratch := slots s; wrapped := wrapped s; logical := cap; max_keys := max_keys s;
        len := len s; zero := zero s; scan := scan s; allocated := allocated s |}.

(** ** Map operations *)

Definition get (s : SchedulingIndex) (key : Z) : outcome False (option Z) :=
  if (key =? 0)%Z then Ok (zero s)
  else
    index ← find_bucket s key;
    slot ← unwrap (slots s !! index);
    Ok (if (slot_key slot =? key)%Z then Some (slot_time slot) else None).

(** The second half of [put]: a key that is not there yet. *)
Definition put_new (s : SchedulingIndex) (index : option nat) (key time : Z) : outcome TickError SchedulingIndex :=
  _ ← assert_that (if scan s is None then true else false);
  if len s =? max_keys s then Err ChunkLimit
  else
    let s := match index with
             | Some index => with_table s (<[index := {| slot_key := key; slot_time := time |}]> (slots s)) (wrapped s)
             | None => with_zero s (Some time)
             end in
    let s := with_len s (len s + 1) in
    if (max_fill (Z.of_nat (logical s)) <? Z.of_nat (len s))%Z then lift (rehash s (logical s * 2)) else Ok s.

Definition put (s : SchedulingIndex) (key time : Z) : outcome TickError SchedulingIndex :=
  if (key =? 0)%Z then
    match zero s with
    | Some _ => Ok (with_zero s (Some time))
    | None => put_new s None key time
    end
  else
    index ← lift (find_bucket s key);
    slot ← unwrap (slots s !! index);
    if (slot_key slot =? key)%Z
    then Ok (with_table s (<[index := {| slot_key := key; slot_time := time |}]> (slots s)) (wrapped s))
    else put_new s (Some index) key time.

(** The end of [remove_key]: one entry less, and perhaps half the table. *)
Definition shrink (s : SchedulingIndex) : outcome False SchedulingIndex :=
  s ← decrement_len s;
  if (INITIAL_CAPACITY <? Z.of_nat (logical s))%Z && (Z.of_nat (len s) <? max_fill (Z.of_nat (logical s)) / 4)%Z
  then rehash s (logical s / 2)
  else Ok s.

Definition remove_key (s : SchedulingIndex) (key : Z) : outcome False (option Z * SchedulingIndex) :=
  if (key =? 0)%Z then
    match zero s with
    | None => Ok (None, s)
    | Some time => s ← shrink (with_zero s None); Ok (Some time, s)
    end
  else
    index ← find_bucket s key;
    slot ← unwrap (slots s !! index);
    if (slot_key slot =? 0)%Z then Ok (None, s)
    else
      s ← close_hole s index false;
      s ← shrink s;
      Ok (Some (slot_time slot), s).

Definition remove (s : SchedulingIndex) (key : Z) : outcome False (option Z * SchedulingIndex) :=
  _ ← assert_that (if scan s is None then true else false);
  remove_key s key.

(** ** Scans *)

Definition begin_scan (s : SchedulingIndex) : outcome False SchedulingIndex :=
  _ ← assert_that (if scan s is None then true else false);
  Ok (with_scan s (Some {| remaining := len s; before := logical s;
                           zero_pending := match zero s with Some _ => true | None => false end;
                           wrapped_next := 0; current := None |}) []).

(** [while scan.before > 0]: the next used bucket below the cursor. *)
Fixpoint bucket_below (l : list Slot) (before : nat) : outcome False (option (nat * Slot)) :=
  match before with
  | O => Ok None
  | S b =>
      entry ← unwrap (l !! b);
      if negb (slot_key entry =? 0)%Z then Ok (Some (b, entry)) else bucket_below l b
  end.

Definition next_entry (s : SchedulingIndex) : outcome False (option (Z * Z) * SchedulingIndex) :=
  c ← unwrap (scan s);
  if remaining c =? 0 then Ok (None, s)
  else
    let left := remaining c - 1 in
    if (zero_pending c : bool) then
      time ← unwrap (zero s);
      Ok (Some (0%Z, time),
          with_scan s (Some {| remaining := left; before := before c; zero_pending := false;
                               wrapped_next := wrapped_next c; current := Some CZero |}) (wrapped s))
    else
      found ← bucket_below (slots s) (before c);
      match found with
      | Some (b, entry) =>
          Ok (Some (slot_key entry, slot_time entry),
              with_scan s (Some {| remaining := left; before := b; zero_pending := false;
                                   wrapped_next := wrapped_next c; current := Some (CBucket b) |}) (wrapped s))
      | None =>
          key ← unwrap (wrapped s !! wrapped_next c);
          let s := with_scan s (Some {| remaining := left; before := 0; zero_pending := false;
                                        wrapped_next := wrapped_next c + 1; current := Some (CWrapped key) |}) (wrapped s) in
          time ← get s key;
          time ← unwrap time;
          Ok (Some (key, time), s)
      end.

Definition remove_current (s : SchedulingIndex) : outcome False SchedulingIndex :=
  c ← unwrap (scan s);
  current ← unwrap (current c);
  let s := with_scan s (Some {| remaining := remaining c; before := before c; zero_pending := zero_pending c;
                                wrapped_next := wrapped_next c; current := None |}) (wrapped s) in
  match current with
  | CZero => decrement_len (with_zero s None)
  | CBucket index => s ← close_hole s index true; decrement_len s
  | CWrapped key => '(_, s) ← remove_key s key; Ok s
  end.

Definition finish_scan (s : SchedulingIndex) : outcome False SchedulingIndex :=
  _ ← unwrap (scan s);
  Ok (with_scan s None []).

(** ** The buckets as a table *)

Definition slot_view (x : Slot) : option Slot := if (slot_key x =? 0)%Z then None else Some x.
Definition table_view (cap : nat) (l : list Slot) : list (option Slot) := slot_view <$> take cap l.
Definition tab (s : SchedulingIndex) : list (option Slot) := table_view (logical s) (slots s).

(** The entries below a bucket: what a descending scan has still to visit. *)
Definition low (b : nat) (t : list (option Slot)) : list Slot := entries (take b t).

Section buckets.
Implicit Types (l : list Slot) (t : list (option Slot)) (x v : Slot).

Lemma home_lt p k : home (2 ^ p) k < 2 ^ p.
Proof.
  unfold home. assert (Z.of_nat (2 ^ p) = 2 ^ Z.of_nat p)%Z as -> by apply Nat2Z.inj_pow.
  rewrite land_ones_mod by lia. pose proof (Z.mod_pos_bound (mix k) (2 ^ Z.of_nat p) ltac:(lia)) as Hb.
  rewrite <- (to_nat_pow2 p). lia.
Qed.

Lemma next_slot_step p i : i < 2 ^ p → next_slot (2 ^ p) i = step (2 ^ p) i.
Proof. apply (land_step (2 ^ p) p i eq_refl). Qed.

Lemma slot_view_some x v : slot_view x = Some v ↔ x = v ∧ slot_key v ≠ 0%Z.
Proof. unfold slot_view. destruct (Z.eqb_spec (slot_key x) 0); naive_solver. Qed.
Lemma slot_view_none x : slot_view x = None ↔ slot_key x = 0%Z.
Proof. unfold slot_view. destruct (Z.eqb_spec (slot_key x) 0); naive_solver. Qed.

Lemma view_length cap l : cap ≤ length l → length (table_view cap l) = cap.
Proof. intros. unfold table_view. rewrite length_fmap, length_take. lia. Qed.
Lemma view_insert cap l i x : table_view cap (<[i := x]> l) = <[i := slot_view x]> (table_view cap l).
Proof.
  unfold table_view. destruct (decide (i < cap)).
  - by rewrite take_insert_lt, list_fmap_insert by done.
  - rewrite take_insert_ge by lia. rewrite list_insert_ge; [done|]. rewrite length_fmap, length_take. lia.
Qed.
Lemma slots_view_entry cap l i : i < cap → table_view cap l !! i = slot_view <$> l !! i.
Proof. intros. unfold table_view. by rewrite list_lookup_fmap, lookup_take_lt. Qed.

Lemma view_lookup_some cap l i v :
  i < cap → table_view cap l !! i = Some (Some v) → l !! i = Some v ∧ slot_key v ≠ 0%Z.
Proof.
  intros Hi. rewrite slots_view_entry by done. destruct (l !! i) as [x|]; [|done]. cbn. intros [= Hx].
  apply slot_view_some in Hx as [-> ?]. done.
Qed.
Lemma view_lookup_none cap l i :
  i < cap → table_view cap l !! i = Some None → ∃ x, l !! i = Some x ∧ slot_key x = 0%Z.
Proof.
  intros Hi. rewrite slots_view_entry by done. destruct (l !! i) as [x|]; [|done]. cbn. intros [= Hx].
  exists x. split; [done|by apply slot_view_none].
Qed.

Lemma view_keys cap l v : v ∈ entries (table_view cap l) → slot_key v ≠ 0%Z.
Proof.
  intros [q Hq]%elem_of_entries. unfold table_view in Hq. apply list_lookup_fmap_Some in Hq as (x&Hx&_).
  symmetry in Hx. by apply slot_view_some in Hx as [-> ?].
Qed.

(** How one write moves entries across a position. *)
Lemma low_write_ge b t i o : b ≤ i → low b (<[i := o]> t) = low b t.
Proof. intros. unfold low. by rewrite take_insert_ge. Qed.
Lemma low_fill b t i v : i < b → t !! i = Some None → low b (<[i := Some v]> t) ≡ₚ v :: low b t.
Proof. intros Hi Ht. unfold low. rewrite take_insert_lt by done. apply entries_fill. by rewrite lookup_take_lt. Qed.
Lemma low_clear b t i v : i < b → t !! i = Some (Some v) → low b t ≡ₚ v :: low b (<[i := None]> t).
Proof. intros Hi Ht. unfold low. rewrite take_insert_lt by done. apply entries_clear. by rewrite lookup_take_lt. Qed.
Lemma low_all b t : length t ≤ b → low b t = entries t.
Proof. intros. unfold low. by rewrite take_ge. Qed.

(** The shift moves entries away from the empty slot [e]: across the cursor [b]
    only downwards from below it, through slot zero. *)
Lemma shift_side n e b hole candidate :
  e < n → b < n → hole < n → candidate < n → b ≠ e →
  dist n e b ≤ dist n e hole → dist n e hole < dist n e candidate →
  (b ≤ candidate → b ≤ hole ∧ hole < candidate) ∧ (candidate < b → hole < b → hole < candidate) ∧
  dist n e b ≤ dist n e candidate.
Proof.
  intros. unfold dist in *.
  destruct (Nat.leb_spec e b), (Nat.leb_spec e hole), (Nat.leb_spec e candidate); lia.
Qed.

Lemma low_move b t i j v :
  t !! i = Some None → t !! j = Some (Some v) → i ≠ j → (b ≤ j → b ≤ i) →
  let t' := <[j := None]> (<[i := Some v]> t) in
  low b t ≡ₚ low b t' ++ (if (j <? b) && (b <=? i) then [v] else []).
Proof.
  intros Hi Hj Hne Hside t'. assert (<[i := Some v]> t !! j = Some (Some v)) as Hj' by (by rewrite list_lookup_insert_ne by done).
  unfold t'. destruct (Nat.ltb_spec j b) as [Hjb|Hjb]; cbn [andb].
  - pose proof (low_clear b _ j v Hjb Hj') as Hc. destruct (Nat.leb_spec b i) as [Hib|Hib].
    + rewrite low_write_ge in Hc by done. by rewrite Hc, Permutation_app_comm.
    + rewrite low_fill in Hc by done. apply Permutation_cons_inv in Hc. by rewrite app_nil_r.
  - rewrite !low_write_ge by auto. by rewrite app_nil_r.
Qed.

(** The shift loop: the table theory for the entries, and for each entry
    that moved across [b] its key in [wrapped]. *)
Lemma close_loop_spec fuel p keys preserve l w b e hole candidate :
  2 ^ p ≤ length l →
  shift_inv slot_key (2 ^ p) (home (2 ^ p)) (<[hole := None]> (table_view (2 ^ p) l)) e hole candidate →
  b < 2 ^ p → b ≠ e → dist (2 ^ p) e b ≤ dist (2 ^ p) e hole →
  (preserve = true → length w + length (low b (<[hole := None]> (table_view (2 ^ p) l))) ≤ keys) →
  shift_fuel (2 ^ p) e candidate ≤ fuel →
  ∃ l' hole' W, close_loop fuel (2 ^ p) keys preserve l w hole candidate =
      Ok (l', if (preserve : bool) then w ++ (slot_key <$> W) else w, hole') ∧
    hole' < 2 ^ p ∧ length l' = length l ∧
    let t := <[hole := None]> (table_view (2 ^ p) l) in
    let t' := <[hole' := None]> (table_view (2 ^ p) l') in
    table_ok slot_key (2 ^ p) (home (2 ^ p)) t' ∧ entries t' ≡ₚ entries t ∧ low b t ≡ₚ low b t' ++ W.
Proof.
  revert l w hole candidate. induction fuel as [|fuel IH]; intros l w hole cand Hl Hi Hb Hbe Hbh Hkeys Hf.
  { unfold shift_fuel in Hf. case_decide; lia. }
  pose proof (si_e _ _ _ _ _ _ _ Hi) as (He&Hte&Hne). pose proof (si_hole _ _ _ _ _ _ _ Hi) as (Hh&Hth).
  pose proof (si_scan _ _ _ _ _ _ _ Hi) as (Hsc&Hpos).
  assert (cand ≠ hole) as Hch by (intros ->; destruct Hpos; [lia|done]).
  assert (Hcl : (<[hole := None]> (table_view (2 ^ p) l)) !! cand = slot_view <$> l !! cand).
  { by rewrite list_lookup_insert_ne, slots_view_entry. }
  destruct (lookup_lt_ok l cand ltac:(lia)) as [v Hv]. rewrite Hv in Hcl. cbn [fmap option_fmap option_map] in Hcl.
  cbn [close_loop]. rewrite Hv. mstep. unfold slot_view in Hcl. destruct (Z.eqb_spec (slot_key v) 0) as [Hz|Hz].
  { exists l, hole, []. split; [destruct preserve; [by rewrite app_nil_r|done]|]. split; [done|]. split; [done|]. cbn.
    split; [|by rewrite app_nil_r]. by eapply shift_stop; [apply home_lt|..]. }
  rewrite next_slot_step by done.
  assert (Hf' : shift_fuel (2 ^ p) e (step (2 ^ p) cand) ≤ fuel).
  { unfold shift_fuel in *. assert (cand ≠ e) by congruence. repeat case_decide; ring_lia. }
  destruct (Nat.ltb_spec (dist (2 ^ p) (home (2 ^ p) (slot_key v)) hole) (dist (2 ^ p) (home (2 ^ p) (slot_key v)) cand)) as [Hd|Hd].
  2: { apply (IH l w hole (step (2 ^ p) cand)); [done| |done..]. by apply (shift_step_stay _ _ _ (home_lt p) _ _ _ _ v Hi Hcl). }
  destruct Hpos as [Hpos| ->]; [|congruence].
  destruct (shift_side (2 ^ p) e b hole cand He Hb Hh Hsc Hbe Hbh Hpos) as (Hge&Hlt&Hb').
  pose proof (shift_step_move _ _ _ (home_lt p) _ _ _ _ v Hi Hcl Hd) as Hi'.
  set (t := <[hole := None]> (table_view (2 ^ p) l)) in *.
  assert (Ht1 : <[cand := None]> (table_view (2 ^ p) (<[hole := v]> l)) = <[cand := None]> (<[hole := Some v]> t)).
  { unfold t. rewrite view_insert, list_insert_insert_eq. do 2 f_equal. by apply slot_view_some. }
  assert (Hmove : low b t ≡ₚ low b (<[cand := None]> (<[hole := Some v]> t)) ++ (if (cand <? b) && (b <=? hole) then [v] else [])).
  { apply low_move; [done|done|done|]. intros Hc. by apply Hge. }
  assert (Hcross : (cand <? b) && (b <=? hole) = (cand <? hole)).
  { destruct (Nat.ltb_spec cand b), (Nat.leb_spec b hole), (Nat.ltb_spec cand hole); cbn; lia. }
  rewrite Hcross in Hmove. set (moved := if cand <? hole then [v] else []) in Hmove.
  destruct (lookup_lt_ok l hole ltac:(lia)) as [old Hold]. rewrite Hold.
  destruct (IH (<[hole := v]> l) (if preserve then w ++ (slot_key <$> moved) else w) cand (step (2 ^ p) cand))
    as (l'&hole'&W&Hrun&Hh'&Hl'&Hok&Hent&Hlow); rewrite ?length_insert, ?Ht1; try done.
  { intros ->. specialize (Hkeys eq_refl). apply Permutation_length in Hmove.
    rewrite length_app in Hmove. rewrite length_app, length_fmap. lia. }
  exists l', hole', (moved ++ W). rewrite Ht1 in Hent, Hlow. rewrite length_insert in Hl'.
  split; [|split; [done|split; [done|split; [done|split]]]].
  - destruct preserve; cbn [andb] in *; mstep.
    + rewrite fmap_app, app_assoc, <- Hrun. unfold moved in *. destruct (cand <? hole); mstep; [|by rewrite app_nil_r].
      specialize (Hkeys eq_refl). apply Permutation_length in Hmove. rewrite length_app in Hmove. cbn in Hmove.
      destruct (Nat.ltb_spec (length w) keys); [done|lia].
    + by rewrite <- Hrun.
  - rewrite Hent. apply (Permutation_cons_inv (a := v)).
    rewrite <- (entries_clear (<[hole := Some v]> t) cand v) by (by rewrite list_lookup_insert_ne by congruence).
    by apply entries_fill.
  - rewrite Hmove, Hlow, <- app_assoc. f_equiv. apply Permutation_app_comm.
Qed.
End buckets.

(** ** Well-formed indices *)

Section wellformed.
Implicit Types (s : SchedulingIndex) (v : Slot).

(** The two tables have the same power-of-two size and room for every key. *)
Record physical_ok s : Prop := {
  ph_power : ∃ m, length (slots s) = 2 ^ m;
  ph_scratch : length (rehash_scratch s) = length (slots s);
  ph_room : (Z.of_nat (max_keys s) ≤ max_fill (Z.of_nat (length (slots s))))%Z;
}.

(** The logical table of [2 ^ p] buckets, one of them empty. *)
Record idx_ok s p : Prop := {
  io_logical : logical s = 2 ^ p;
  io_fits : 2 ^ p ≤ length (slots s);
  io_table : table_ok slot_key (2 ^ p) (home (2 ^ p)) (tab s);
  io_empty : length (entries (tab s)) < 2 ^ p;
}.

Lemma tab_eq s p : idx_ok s p → tab s = table_view (2 ^ p) (slots s).
Proof. intros Hs. unfold tab. by rewrite (io_logical s p Hs). Qed.

Lemma idx_has_empty s p : idx_ok s p → ∃ e, e < 2 ^ p ∧ tab s !! e = Some None.
Proof.
  intros Hs. rewrite <- (ok_length _ _ _ _ (io_table s p Hs)). apply table_has_empty.
  rewrite (ok_length _ _ _ _ (io_table s p Hs)). apply (io_empty s p Hs).
Qed.

(** Where the probe for a key ends. *)
Lemma find_bucket_spec s p k :
  idx_ok s p → k ≠ 0%Z →
  ∃ q, find_bucket s k = Ok q ∧ probe_ends slot_key (2 ^ p) (home (2 ^ p)) (tab s) k q ∧ q < 2 ^ p ∧
    ((∃ v, slots s !! q = Some v ∧ slot_key v = k ∧ tab s !! q = Some (Some v)) ∨
     (∃ x, slots s !! q = Some x ∧ slot_key x = 0%Z ∧ tab s !! q = Some None ∧
        ∀ v, v ∈ entries (tab s) → slot_key v ≠ k)).
Proof.
  intros Hs Hk. destruct (idx_has_empty s p Hs) as (e&He&Hte). pose proof (io_table s p Hs) as Ht.
  assert (Hloop : ∀ q, probe_ends slot_key (2 ^ p) (home (2 ^ p)) (tab s) k q →
    bucket_body s k q = Ok (Some q) → find_bucket s k = Ok q).
  { intros q Hends Hstop. unfold find_bucket. rewrite (io_logical s p Hs).
    apply (probe_loop_ends slot_key (2 ^ p) (home (2 ^ p)) (home_lt p) p (2 ^ p) _ (tab s) k q q); [done|done|done| |done].
    intros r w Hr Hw. pose proof (lookup_lt_Some _ _ _ Hr) as Hrl. rewrite (ok_length _ _ _ _ Ht) in Hrl.
    rewrite (tab_eq s p Hs) in Hr. apply view_lookup_some in Hr as [Hr Hnz]; [|done].
    unfold bucket_body. rewrite Hr. mstep.
    by destruct (Z.eqb_spec (slot_key w) 0), (Z.eqb_spec (slot_key w) k). }
  destruct (probe_ends_exists slot_key (2 ^ p) _ (home_lt p) (tab s) k e Ht He Hte)
    as [(q&v&Hends&Hq&Hv)|(q&Hends&Hq&Habs)]; exists q; pose proof Hends as (Hql&_);
    pose proof Hq as Hq'; rewrite (tab_eq s p Hs) in Hq'.
  - apply view_lookup_some in Hq' as [Hsl Hnz]; [|done].
    split; [apply Hloop; [done|]; unfold bucket_body; rewrite Hsl; mstep; rewrite Hv, Z.eqb_refl; by rewrite andb_false_r|].
    split; [done|]. split; [done|]. left. by exists v.
  - apply view_lookup_none in Hq' as (x&Hx&Hz); [|done].
    split; [apply Hloop; [done|]; unfold bucket_body; by rewrite Hx; mstep; rewrite Hz|].
    split; [done|]. split; [done|]. right. by exists x.
Qed.

(** Closing the hole at a used bucket removes its entry. *)
Lemma close_hole_spec s p i v preserve :
  idx_ok s p → tab s !! i = Some (Some v) →
  (preserve = true → length (wrapped s) + length (low i (tab s)) ≤ max_keys s) →
  ∃ l W, close_hole s i preserve =
      Ok (with_table s l (if (preserve : bool) then wrapped s ++ (slot_key <$> W) else wrapped s)) ∧
    length l = length (slots s) ∧
    let t' := table_view (2 ^ p) l in
    table_ok slot_key (2 ^ p) (home (2 ^ p)) t' ∧ entries (tab s) ≡ₚ v :: entries t' ∧ low i (tab s) ≡ₚ low i t' ++ W.
Proof.
  intros Hs Hi Hkeys. destruct (idx_has_empty s p Hs) as (e&He&Hte). pose proof (io_table s p Hs) as Ht.
  pose proof (lookup_bound _ _ _ _ _ _ Ht Hi) as Hil. unfold close_hole. rewrite (io_logical s p Hs).
  rewrite next_slot_step by done. pose proof (io_fits s p Hs) as Hfits.
  pose proof (shift_inv_start _ _ _ (home_lt p) (tab s) i v e Ht Hi He Hte) as Hinv.
  assert (i ≠ e) as Hie by congruence. rewrite <- (low_write_ge i (tab s) i None) in Hkeys |- * by done.
  pose proof (entries_clear _ _ _ Hi) as Hclear. rewrite (tab_eq s p Hs) in Hinv, Hkeys, Hclear |- *.
  destruct (close_loop_spec (S (2 ^ p)) p (max_keys s) preserve (slots s) (wrapped s) i e i (step (2 ^ p) i))
    as (l'&hole'&W&->&Hh'&Hl'&Hok&Hent&Hlow); try done.
  { unfold shift_fuel. case_decide; ring_lia. }
  mstep. destruct (lookup_lt_ok l' hole' ltac:(lia)) as [old Hold]. rewrite Hold. mstep.
  exists (<[hole' := empty_slot]> l'), W. split; [done|]. rewrite length_insert. split; [done|]. cbn zeta.
  rewrite view_insert. change (slot_view empty_slot) with (@None Slot). split; [done|]. by rewrite Hclear, <- Hent.
Qed.

(** Inserting the entries of a list into a blank table, one probe each. *)
Lemma rehash_loop_spec p from into :
  2 ^ p ≤ length into → table_ok slot_key (2 ^ p) (home (2 ^ p)) (table_view (2 ^ p) into) →
  NoDup (slot_key <$> entries (table_view (2 ^ p) into) ++ omap slot_view from) →
  length (entries (table_view (2 ^ p) into)) + length (omap slot_view from) < 2 ^ p →
  ∃ l, rehash_loop (2 ^ p) from into = Ok l ∧ length l = length into ∧
    table_ok slot_key (2 ^ p) (home (2 ^ p)) (table_view (2 ^ p) l) ∧
    entries (table_view (2 ^ p) l) ≡ₚ omap slot_view from ++ entries (table_view (2 ^ p) into).
Proof.
  revert into. induction from as [|v from IH]; intros into Hl Ht Hnd Hroom; cbn [rehash_loop].
  { by exists into. }
  cbn [omap list_omap] in Hnd, Hroom |- *. unfold slot_view in Hnd, Hroom |- * at 1. fold slot_view in Hnd, Hroom |- *.
  destruct (Z.eqb_spec (slot_key v) 0) as [Hz|Hz]; [by apply IH|].
  cbn [length] in Hroom. set (t := table_view (2 ^ p) into) in *.
  destruct (table_has_empty t) as (e&He&Hte). { rewrite (ok_length _ _ _ _ Ht). lia. }
  rewrite (ok_length _ _ _ _ Ht) in He.
  rewrite <- Permutation_middle, fmap_cons in Hnd. apply NoDup_cons in Hnd as [Hnew Hnd].
  destruct (probe_ends_exists slot_key (2 ^ p) _ (home_lt p) t (slot_key v) e Ht He Hte)
    as [(q&w&_&Hq&Hw)|(q&Hends&Hq&Habs)].
  { exfalso. apply Hnew. rewrite <- Hw. apply list_elem_of_fmap_2, elem_of_app. left. apply elem_of_entries. by exists q. }
  rewrite (probe_loop_ends slot_key (2 ^ p) (home (2 ^ p)) (home_lt p) p (2 ^ p) _ t (slot_key v) q q); [|done|done|done| |].
  2: { intros r w Hr _. pose proof (lookup_lt_Some _ _ _ Hr) as Hrl. rewrite (ok_length _ _ _ _ Ht) in Hrl.
       apply view_lookup_some in Hr as [Hr Hnz]; [|done]. unfold free_body. rewrite Hr. mstep. by destruct (Z.eqb_spec (slot_key w) 0). }
  2: { destruct Hends as (Hql&_). apply view_lookup_none in Hq as (x&Hx&Hxz); [|done]. unfold free_body. rewrite Hx. mstep. by rewrite Hxz. }
  mstep. assert (slot_view v = Some v) as Hv by (by apply slot_view_some).
  destruct (table_ok_insert slot_key (2 ^ p) _ t v q Ht Hends Hq Habs) as [Ht' Hent].
  destruct (IH (<[q := v]> into)) as (l&->&Hlen&Hok&Hperm); rewrite ?view_insert, ?Hv; fold t; [by rewrite length_insert|done| | |].
  - rewrite Hent. cbn. by apply NoDup_cons.
  - rewrite Hent. cbn. lia.
  - exists l. rewrite view_insert, Hv in Hperm. fold t in Hperm. rewrite length_insert in Hlen. split; [done|]. split; [done|]. split; [done|].
    rewrite Hperm, Hent. symmetry. apply Permutation_middle.
Qed.

Lemma table_view_blank p l : table_view (2 ^ p) (replicate (2 ^ p) empty_slot ++ l) = replicate (2 ^ p) None.
Proof.
  unfold table_view. rewrite take_app_le by (by rewrite length_replicate).
  rewrite take_ge by (by rewrite length_replicate). by rewrite fmap_replicate.
Qed.

Lemma entries_rev cap l : omap slot_view (rev (take cap l)) ≡ₚ entries (table_view cap l).
Proof.
  rewrite <- Permutation_rev. unfold entries, table_view. induction (take cap l) as [|v k IH]; [done|].
  cbn. destruct (slot_view v); cbn; by rewrite IH.
Qed.

(** Re-hashing into a table of another size keeps the entries. *)
Lemma rehash_spec s p p' :
  physical_ok s → logical s = 2 ^ p → 2 ^ p ≤ length (slots s) →
  table_ok slot_key (2 ^ p) (home (2 ^ p)) (tab s) →
  2 ^ p' ≤ length (slots s) → length (entries (tab s)) < 2 ^ p' →
  ∃ s', rehash s (2 ^ p') = Ok s' ∧ idx_ok s' p' ∧ physical_ok s' ∧ entries (tab s') ≡ₚ entries (tab s) ∧
    (max_keys s' = max_keys s ∧ len s' = len s ∧ zero s' = zero s ∧ scan s' = scan s ∧ wrapped s' = wrapped s).
Proof.
  intros [Hpow Hscratch Hroom] Hlog Hfits Ht Hfits' Hent. unfold rehash. rewrite Hscratch, Hlog.
  destruct (Nat.leb_spec (2 ^ p') (length (slots s))); [|lia]. mstep.
  destruct (Nat.leb_spec (2 ^ p) (length (slots s))); [|lia]. mstep.
  set (blank := replicate (2 ^ p') empty_slot ++ drop (2 ^ p') (rehash_scratch s)).
  assert (length blank = length (slots s)) as Hbl.
  { unfold blank. rewrite length_app, length_replicate, length_drop. lia. }
  pose proof (table_view_blank p' (drop (2 ^ p') (rehash_scratch s))) as Hblank. fold blank in Hblank.
  pose proof (entries_nodup _ _ _ _ Ht) as Hnd. unfold tab in Hnd, Hent, Ht. rewrite Hlog in Hnd, Hent, Ht.
  destruct (rehash_loop_spec p' (rev (take (2 ^ p) (slots s))) blank) as (l&->&Hlen&Hok&Hperm).
  - lia.
  - rewrite Hblank. apply table_ok_empty.
  - rewrite Hblank, entries_blank. cbn [app]. by rewrite entries_rev.
  - rewrite Hblank, entries_blank. cbn [length]. by rewrite entries_rev.
  - mstep. rewrite Hblank, entries_blank, app_nil_r, entries_rev in Hperm.
    assert (tab s = table_view (2 ^ p) (slots s)) as Htab by (unfold tab; by rewrite Hlog).
    eexists. split; [done|]. split; [|split; [|split; [|done]]].
    + split; cbn; [done|lia|done|]. unfold tab. cbn [logical slots]. by rewrite Hperm.
    + split; cbn; rewrite ?Hlen, ?Hbl; [done|lia|done].
    + unfold tab at 1. cbn [logical slots]. by rewrite Hperm, Htab.
Qed.
End wellformed.

(** ** The map an index stands for *)

Definition slot_pair (v : Slot) : Z * Z := (slot_key v, slot_time v).

Section represents.
Implicit Types (s : SchedulingIndex) (v : Slot) (M : gmap Z Z).

(** The buckets and the zero entry hold [M]. *)
Record idx_core s M : Prop := {
  ic_physical : physical_ok s;
  ic_ok : ∃ p, 5 ≤ p ∧ idx_ok s p;
  ic_pairs : slot_pair <$> entries (tab s) ≡ₚ map_to_list (delete 0%Z M);
  ic_zero : zero s = M !! 0%Z;
}.

(** Between operations: the length is right, within the limit, and the table
    at most three quarters full. *)
Record idx_rep s M : Prop := {
  ix_core : idx_core s M;
  ix_len : len s = size M;
  ix_max : len s ≤ max_keys s;
  ix_fill : (Z.of_nat (len s) ≤ max_fill (Z.of_nat (logical s)))%Z;
}.

Lemma max_fill_power p : 5 ≤ p →
  ∃ u, (1 ≤ u ∧ Z.of_nat (2 ^ p) = 32 * u ∧ max_fill (Z.of_nat (2 ^ p)) = 24 * u ∧ max_fill (Z.of_nat (2 ^ p)) / 4 = 6 * u)%Z.
Proof.
  intros Hp. exists (2 ^ Z.of_nat (p - 5))%Z. assert (Z.of_nat (2 ^ p) = 32 * 2 ^ Z.of_nat (p - 5))%Z as Heq.
  { rewrite Nat2Z.inj_pow. change 32%Z with (2 ^ 5)%Z. rewrite <- Z.pow_add_r by lia. f_equal. lia. }
  unfold max_fill. rewrite Heq. set (u := (2 ^ Z.of_nat (p - 5))%Z). assert (1 ≤ u)%Z by (unfold u; lia).
  replace (32 * u)%Z with (8 * u * 4)%Z by lia. rewrite Z.div_mul by lia.
  replace (8 * u * 3)%Z with (6 * u * 4)%Z by lia. rewrite Z.div_mul by lia. lia.
Qed.

Lemma core_size s M : idx_core s M → length (entries (tab s)) ≤ size M.
Proof.
  intros Hc. pose proof (Permutation_length (ic_pairs s M Hc)) as Hl. rewrite length_fmap, length_map_to_list in Hl.
  rewrite Hl, map_size_delete. destruct (M !! 0%Z); unfold id; lia.
Qed.

Lemma core_hit s M v : idx_core s M → v ∈ entries (tab s) → M !! slot_key v = Some (slot_time v) ∧ slot_key v ≠ 0%Z.
Proof.
  intros Hc Hv. pose proof (view_keys _ _ _ Hv) as Hnz. split; [|done].
  assert (delete 0%Z M !! slot_key v = Some (slot_time v)) as Hd; [|by rewrite lookup_delete_ne in Hd by done].
  apply elem_of_map_to_list. rewrite <- (ic_pairs s M Hc). by apply (list_elem_of_fmap_2 slot_pair).
Qed.

Lemma core_miss s M k : idx_core s M → k ≠ 0%Z → (∀ v, v ∈ entries (tab s) → slot_key v ≠ k) → M !! k = None.
Proof.
  intros Hc Hk Habs. destruct (M !! k) as [t|] eqn:Hm; [exfalso|done].
  assert ((k, t) ∈ slot_pair <$> entries (tab s)) as Hin.
  { rewrite (ic_pairs s M Hc). apply elem_of_map_to_list. by rewrite lookup_delete_ne. }
  apply list_elem_of_fmap in Hin as (v&[= -> ->]&Hv). by apply (Habs v).
Qed.

Lemma core_zero s M z : idx_core s M →
  idx_core (with_zero s z) (match z with Some t => <[0%Z := t]> M | None => delete 0%Z M end).
Proof.
  intros [Hp (p&Hp5&Hok) Hpairs Hz]. split; [by destruct Hp| |..].
  - exists p. split; [done|]. by destruct Hok.
  - change (tab (with_zero s z)) with (tab s). rewrite Hpairs. destruct z; [by rewrite delete_insert_eq|].
    by rewrite delete_delete_eq.
  - destruct z; cbn; [by rewrite lookup_insert_eq|by rewrite lookup_delete_eq].
Qed.

Lemma core_len s M n : idx_core s M → idx_core (with_len s n) M.
Proof. intros [Hp (p&Hp5&Hok) Hpairs Hz]. split; [by destruct Hp| |done|done]. exists p. split; [done|by destruct Hok]. Qed.
Lemma core_scan s M c w : idx_core s M → idx_core (with_scan s c w) M.
Proof. intros [Hp (p&Hp5&Hok) Hpairs Hz]. split; [by destruct Hp| |done|done]. exists p. split; [done|by destruct Hok]. Qed.

(** A write into the logical table, given what it does to the entries. *)
Lemma core_table s M p l w M' :
  idx_core s M → 5 ≤ p → idx_ok s p → length l = length (slots s) →
  table_ok slot_key (2 ^ p) (home (2 ^ p)) (table_view (2 ^ p) l) → length (entries (table_view (2 ^ p) l)) < 2 ^ p →
  slot_pair <$> entries (table_view (2 ^ p) l) ≡ₚ map_to_list (delete 0%Z M') → M' !! 0%Z = M !! 0%Z →
  idx_core (with_table s l w) M'.
Proof.
  intros [[Hpow Hscr Hroom] _ _ Hz] Hp Hok Hl Ht Hent Hpairs Hz'.
  assert (tab (with_table s l w) = table_view (2 ^ p) l) as Htab.
  { unfold tab. cbn. by rewrite (io_logical s p Hok). }
  split; rewrite ?Htab; [|exists p; split; [done|]|done|cbn; congruence].
  - split; cbn; rewrite ?Hl; done.
  - destruct Hok. split; rewrite ?Htab; cbn; [done|by rewrite Hl|done|done].
Qed.

(** Looking a key up: its bucket, or the free one where it would go. *)
Lemma core_find s M k :
  idx_core s M → k ≠ 0%Z →
  ∃ p q x, 5 ≤ p ∧ idx_ok s p ∧ find_bucket s k = Ok q ∧ slots s !! q = Some x ∧ q < 2 ^ p ∧
    match M !! k with
    | Some t => slot_key x = k ∧ slot_time x = t ∧ tab s !! q = Some (Some x)
    | None => slot_key x = 0%Z ∧ tab s !! q = Some None ∧ probe_ends slot_key (2 ^ p) (home (2 ^ p)) (tab s) k q ∧
              ∀ v, v ∈ entries (tab s) → slot_key v ≠ k
    end.
Proof.
  intros Hc Hk. destruct (ic_ok s M Hc) as (p&Hp&Hok).
  destruct (find_bucket_spec s p k Hok Hk) as (q&Hf&Hends&Hq&[(v&Hv&Hvk&Htab)|(x&Hx&Hz&Htab&Habs)]).
  - assert (v ∈ entries (tab s)) as Hin by (apply elem_of_entries; by exists q).
    apply (core_hit s M v Hc) in Hin as [Hm _]. rewrite Hvk in Hm. exists p, q, v. rewrite Hm. by split_and!.
  - exists p, q, x. rewrite (core_miss s M k Hc Hk Habs). by split_and!.
Qed.

Lemma index_get_spec s M k : idx_core s M → get s k = Ok (M !! k).
Proof.
  intros Hc. unfold get. destruct (Z.eqb_spec k 0) as [->|Hk]; [by rewrite (ic_zero s M Hc)|].
  destruct (core_find s M k Hc Hk) as (p&q&x&_&_&->&Hx&_&Hm). mstep. rewrite Hx. mstep.
  destruct (M !! k) as [t|].
  - destruct Hm as (->&->&_). by rewrite Z.eqb_refl.
  - destruct Hm as (->&_). destruct (Z.eqb_spec 0 k); [congruence|done].
Qed.

(** Giving a present key another time moves nothing. *)
Lemma put_update s M k old t :
  idx_core s M → M !! k = Some old →
  ∃ s', put s k t = Ok s' ∧ idx_core s' (<[k := t]> M) ∧ slot_key <$> slots s' = slot_key <$> slots s ∧
    logical s' = logical s ∧ max_keys s' = max_keys s ∧ len s' = len s ∧ scan s' = scan s ∧ wrapped s' = wrapped s.
Proof.
  intros Hc Hm. unfold put. destruct (Z.eqb_spec k 0) as [->|Hk].
  { rewrite (ic_zero s M Hc), Hm. eexists. split; [done|]. split; [by apply (core_zero s M (Some t))|done]. }
  destruct (core_find s M k Hc Hk) as (p&q&x&Hp&Hok&->&Hx&Hq&Hmatch). rewrite Hm in Hmatch. destruct Hmatch as (Hxk&Hxt&Htab).
  unfold lift. mstep. rewrite Hx. mstep. rewrite Hxk, Z.eqb_refl. eexists. split; [done|].
  set (y := {| slot_key := k; slot_time := t |}). assert (slot_view y = Some y) as Hy by (by apply slot_view_some).
  pose proof (io_table s p Hok) as Ht. rewrite (tab_eq s p Hok) in Htab, Ht.
  set (tb := table_view (2 ^ p) (slots s)) in *. pose proof (entries_clear _ _ _ Htab) as Hclear.
  assert (entries (<[q := Some y]> tb) ≡ₚ y :: entries (<[q := None]> tb)) as Hfill.
  { rewrite <- (list_insert_insert_eq tb q (Some y) None). apply entries_fill.
    rewrite list_lookup_insert_eq; [done|by eapply lookup_lt_Some]. }
  split; [|split; [|done]].
  - apply (core_table s M p); rewrite ?view_insert, ?Hy; fold tb; [done|done|done|by rewrite length_insert|..].
    + by apply (table_ok_rename slot_key slot_key _ _ tb q x y Ht Htab).
    + rewrite Hfill. cbn. pose proof (io_empty s p Hok) as Hemp. rewrite (tab_eq s p Hok) in Hemp. fold tb in Hemp.
      rewrite Hclear in Hemp. exact Hemp.
    + rewrite Hfill, fmap_cons. rewrite delete_insert_ne by done.
      apply (pairs_change (slot_pair <$> entries tb) _ _ k old); [rewrite Hclear; cbn; by rewrite <- Hxk, <- Hxt|].
      unfold tb. rewrite <- (tab_eq s p Hok). apply (ic_pairs s M Hc).
    + by rewrite lookup_insert_ne.
  - cbn. rewrite list_fmap_insert. apply list_insert_id. rewrite list_lookup_fmap, Hx. cbn. by rewrite Hxk.
Qed.
End represents.

(** ** Insertion and removal *)

Section operations.
Implicit Types (s : SchedulingIndex) (v : Slot) (M : gmap Z Z).

(** What every operation on the map leaves alone. *)
Definition same_owner s s' : Prop :=
  max_keys s' = max_keys s ∧ scan s' = scan s ∧ wrapped s' = wrapped s.

Lemma rehash_core s M p' :
  idx_core s M → 5 ≤ p' → 2 ^ p' ≤ length (slots s) → length (entries (tab s)) < 2 ^ p' →
  ∃ s', rehash s (2 ^ p') = Ok s' ∧ idx_core s' M ∧ logical s' = 2 ^ p' ∧ len s' = len s ∧ same_owner s s'.
Proof.
  intros Hc Hp' Hfits Hent. destruct (ic_ok s M Hc) as (p&Hp&Hok).
  destruct (rehash_spec s p p' (ic_physical s M Hc) (io_logical s p Hok) (io_fits s p Hok) (io_table s p Hok) Hfits Hent)
    as (s'&Hr&Hok'&Hph&Hperm&Hm&Hl&Hz&Hs&Hw).
  exists s'. split; [done|]. split; [|by split; [apply (io_logical s' p' Hok')|]].
  split; [done|by exists p'|by rewrite Hperm; apply (ic_pairs s M Hc)|by rewrite Hz; apply (ic_zero s M Hc)].
Qed.

(** One more key: at most the table doubles. *)
Lemma grow_spec s M :
  idx_core s M → size M = S (len s) → size M ≤ max_keys s → (Z.of_nat (len s) ≤ max_fill (Z.of_nat (logical s)))%Z →
  let s1 := with_len s (len s + 1) in
  ∃ s', (if (max_fill (Z.of_nat (logical s1)) <? Z.of_nat (len s1))%Z
         then lift (E := TickError) (rehash s1 (logical s1 * 2)) else Ok s1) = Ok s' ∧ idx_rep s' M ∧ same_owner s s'.
Proof.
  intros Hc Hsz Hmax Hfill s1. pose proof (core_len s M (len s + 1) Hc) as Hc1. fold s1 in Hc1.
  destruct (ic_ok s1 M Hc1) as (p&Hp&Hok). destruct (max_fill_power p Hp) as (u&Hu&Hpow&Hmf&_).
  pose proof (io_logical s1 p Hok) as Hlog. change (logical s1) with (logical s) in *.
  destruct (Z.ltb_spec (max_fill (Z.of_nat (logical s))) (Z.of_nat (len s1))) as [Hover|Hunder].
  2: { exists s1. split; [done|]. split; [|done]. split; [done|cbn; lia|cbn; lia|done]. }
  rewrite Hlog in *. destruct (ic_physical s1 M Hc1) as [[m Hm] _ Hroom].
  assert (p < m) as Hpm.
  { destruct (decide (p < m)) as [|Hge]; [done|exfalso]. assert (2 ^ m ≤ 2 ^ p) as Hle by (apply Nat.pow_le_mono_r; lia).
    rewrite Hm in Hroom. cbn in Hover, Hroom.
    assert (max_fill (Z.of_nat (2 ^ m)) ≤ max_fill (Z.of_nat (2 ^ p)))%Z; [|lia].
    unfold max_fill. apply Z.mul_le_mono_nonneg_r; [lia|]. apply Z.div_le_mono; lia. }
  destruct (rehash_core s1 M (S p) Hc1) as (s'&Hr&Hc'&Hl'&Hn'&Hsame); [lia|..].
  - rewrite Hm. apply Nat.pow_le_mono_r; lia.
  - pose proof (io_empty s1 p Hok). rewrite Nat.pow_succ_r'. lia.
  - replace (2 ^ p * 2) with (2 ^ S p) by (rewrite Nat.pow_succ_r'; lia). rewrite Hr. exists s'. split; [done|]. split; [|done].
    destruct Hsame as (Hm'&_). split; [done|rewrite Hn'; cbn; lia|rewrite Hn', Hm'; cbn; lia|].
    rewrite Hl', Hn'. destruct (max_fill_power (S p) ltac:(lia)) as (u'&Hu'&Hpow'&Hmf'&_).
    rewrite Nat.pow_succ_r' in Hpow'. cbn [len s1 with_len]. lia.
Qed.

Lemma put_insert s M k t :
  idx_rep s M → M !! k = None → scan s = None →
  if decide (size M = max_keys s) then put s k t = Err ChunkLimit
  else ∃ s', put s k t = Ok s' ∧ idx_rep s' (<[k := t]> M) ∧ same_owner s s'.
Proof.
  intros [Hc Hlen Hmax Hfill] Hm Hscan.
  assert (Hnew : ∀ index s1, s1 = match index with
      | Some index => with_table s (<[index := {| slot_key := k; slot_time := t |}]> (slots s)) (wrapped s)
      | None => with_zero s (Some t) end →
    (size M ≠ max_keys s → idx_core s1 (<[k := t]> M)) →
    if decide (size M = max_keys s) then put_new s index k t = Err ChunkLimit
    else ∃ s', put_new s index k t = Ok s' ∧ idx_rep s' (<[k := t]> M) ∧ same_owner s s').
  { intros index s1 Hs1 Hcore. unfold put_new. rewrite Hscan. mstep. rewrite Hlen. case_decide as Hfull.
    { by rewrite (proj2 (Nat.eqb_eq _ _) Hfull). }
    rewrite (proj2 (Nat.eqb_neq _ _) Hfull). rewrite <- Hs1.
    assert (len s1 = len s ∧ max_keys s1 = max_keys s ∧ logical s1 = logical s ∧ scan s1 = scan s ∧ wrapped s1 = wrapped s)
      as (Hl1&Hm1&Hlg1&Hsc1&Hw1) by (by destruct index; subst s1).
    destruct (grow_spec s1 (<[k := t]> M)) as (s'&Hr&Hrep&Hsame).
    - by apply Hcore.
    - rewrite map_size_insert_None by done. congruence.
    - rewrite map_size_insert_None by done. lia.
    - by rewrite Hl1, Hlg1.
    - cbv zeta in Hr |- *. rewrite Hr. exists s'. split; [done|]. split; [done|].
      unfold same_owner in *. by rewrite Hm1, Hsc1, Hw1 in Hsame. }
  unfold put. destruct (Z.eqb_spec k 0) as [->|Hk].
  { rewrite (ic_zero s M Hc), Hm. apply (Hnew None _ eq_refl). intros _. by apply (core_zero s M (Some t)). }
  destruct (core_find s M k Hc Hk) as (p&q&x&Hp&Hok&->&Hx&Hq&Hmatch). rewrite Hm in Hmatch.
  destruct Hmatch as (Hxk&Htab&Hends&Habs). unfold lift. mstep. rewrite Hx. mstep. rewrite Hxk.
  destruct (Z.eqb_spec 0 k); [congruence|]. apply (Hnew (Some q) _ eq_refl). intros Hroom.
  set (y := {| slot_key := k; slot_time := t |}). assert (slot_view y = Some y) as Hy by (by apply slot_view_some).
  destruct (table_ok_insert slot_key (2 ^ p) (home (2 ^ p)) (tab s) y q (io_table s p Hok) Hends Htab Habs) as [Ht' Hent].
  rewrite (tab_eq s p Hok) in Ht', Hent. apply (core_table s M p); rewrite ?view_insert, ?Hy; [done|done|done|by rewrite length_insert|done|..].
  - rewrite Hent. cbn. rewrite <- (tab_eq s p Hok). pose proof (core_size s M Hc).
    destruct (max_fill_power p Hp) as (u&Hu&Hpow&Hmf&_). rewrite (io_logical s p Hok), Hmf in Hfill. lia.
  - rewrite Hent, fmap_cons, delete_insert_ne by done. rewrite <- (tab_eq s p Hok).
    apply pairs_add; [apply (ic_pairs s M Hc)|]. by rewrite lookup_delete_ne.
  - by rewrite lookup_insert_ne.
Qed.

(** One key less: perhaps the table halves. *)
Lemma shrink_spec s M :
  idx_core s M → len s = S (size M) → len s ≤ max_keys s → (Z.of_nat (len s) ≤ max_fill (Z.of_nat (logical s)))%Z →
  ∃ s', shrink s = Ok s' ∧ idx_rep s' M ∧ same_owner s s'.
Proof.
  intros Hc Hlen Hmax Hfill. unfold shrink, decrement_len. destruct (Nat.ltb_spec 0 (len s)); [|lia]. mstep.
  set (s1 := with_len s (len s - 1)). pose proof (core_len s M (len s - 1) Hc) as Hc1. fold s1 in Hc1.
  destruct (ic_ok s1 M Hc1) as (p&Hp&Hok). destruct (max_fill_power p Hp) as (u&Hu&Hpow&Hmf&Hq).
  pose proof (io_logical s1 p Hok) as Hlog. change (logical s1) with (logical s) in *. rewrite Hlog in *.
  destruct (Z.ltb_spec INITIAL_CAPACITY (Z.of_nat (2 ^ p))) as [Hbig|Hsmall]; cbn [andb].
  2: { exists s1. split; [done|]. split; [|done]. split; [done|cbn; lia|cbn; lia|]. change (logical s1) with (logical s). rewrite Hlog. cbn [len s1 with_len]. lia. }
  destruct (Z.ltb_spec (Z.of_nat (len s1)) (max_fill (Z.of_nat (2 ^ p)) / 4)) as [Hlow|Hhigh]; cbn [andb].
  2: { exists s1. split; [done|]. split; [|done]. split; [done|cbn; lia|cbn; lia|]. change (logical s1) with (logical s). rewrite Hlog. cbn [len s1 with_len]. lia. }
  rewrite Hq in Hlow. unfold INITIAL_CAPACITY in Hbig. destruct p as [|p]; [lia|].
  assert (5 ≤ p) as Hp'. { destruct (decide (5 ≤ p)); [done|]. assert (p = 4) as -> by lia. cbn in Hbig. lia. }
  destruct (max_fill_power p Hp') as (u'&Hu'&Hpow'&Hmf'&_). rewrite Nat.pow_succ_r' in *.
  replace (2 * 2 ^ p / 2) with (2 ^ p) by (rewrite Nat.mul_comm, Nat.div_mul; lia).
  pose proof (core_size s1 M Hc1) as Hsize. pose proof (io_fits s1 _ Hok) as Hfits. rewrite Nat.pow_succ_r' in Hfits.
  destruct (rehash_core s1 M p Hc1 Hp') as (s'&Hr&Hc'&Hl'&Hn'&Hsame); [lia|cbn in *; lia|].
  exists s'. split; [done|]. split; [|done]. destruct Hsame as (Hm'&_).
  split; [done|rewrite Hn'; cbn; lia|rewrite Hn', Hm'; cbn; lia|rewrite Hl', Hn', Hmf'; cbn in *; lia].
Qed.

(** Taking a bucket's entry out of the table. *)
Lemma close_core s M p i v preserve :
  idx_core s M → 5 ≤ p → idx_ok s p → tab s !! i = Some (Some v) →
  (preserve = true → length (wrapped s) + length (low i (tab s)) ≤ max_keys s) →
  ∃ s' W, close_hole s i preserve = Ok s' ∧ idx_core s' (delete (slot_key v) M) ∧
    logical s' = logical s ∧ len s' = len s ∧ max_keys s' = max_keys s ∧ scan s' = scan s ∧
    wrapped s' = (if (preserve : bool) then wrapped s ++ (slot_key <$> W) else wrapped s) ∧
    low i (tab s) ≡ₚ low i (tab s') ++ W.
Proof.
  intros Hc Hp Hok Hi Hkeys. destruct (close_hole_spec s p i v preserve Hok Hi Hkeys) as (l&W&->&Hl&Ht&Hent&Hlow).
  eexists _, W. split; [done|]. assert (v ∈ entries (tab s)) as Hv by (apply elem_of_entries; by exists i).
  destruct (core_hit s M v Hc Hv) as [Hm Hnz].
  split; [|split; [done|split; [done|split; [done|split; [done|split; [done|]]]]]].
  - apply (core_table s M p); try done.
    + pose proof (io_empty s p Hok) as Hemp. rewrite Hent in Hemp. cbn in Hemp. lia.
    + rewrite delete_delete. destruct (decide (0%Z = slot_key v)); [congruence|].
      apply (pairs_drop (slot_pair <$> entries (tab s)) _ _ _ (slot_time v)); [by rewrite Hent|apply (ic_pairs s M Hc)].
    + by rewrite lookup_delete_ne.
  - unfold tab at 2. cbn [with_table logical slots]. by rewrite (io_logical s p Hok).
Qed.

Lemma remove_key_spec s M k :
  idx_rep s M → ∃ s', remove_key s k = Ok (M !! k, s') ∧ idx_rep s' (delete k M) ∧ same_owner s s'.
Proof.
  intros Hr. pose proof Hr as [Hc Hlen Hmax Hfill]. unfold remove_key.
  destruct (Z.eqb_spec k 0) as [->|Hk].
  { rewrite (ic_zero s M Hc). destruct (M !! 0%Z) as [t|] eqn:Hm.
    2: { exists s. split; [done|]. by rewrite delete_id. }
    assert (size M = S (size (delete 0%Z M))) as Hsz.
    { rewrite map_size_delete_Some by done. assert (size M ≠ 0); [|lia]. intros He%map_size_empty_inv. by rewrite He in Hm. }
    destruct (shrink_spec (with_zero s None) (delete 0%Z M)) as (s'&->&Hrep&Hsame); cbn; try lia; [|by exists s'].
    by apply (core_zero s M None). }
  destruct (core_find s M k Hc Hk) as (p&q&x&Hp&Hok&->&Hx&Hq&Hmatch). mstep. rewrite Hx. mstep.
  destruct (M !! k) as [t|] eqn:Hm.
  2: { destruct Hmatch as (->&_). mstep. exists s. split; [done|]. by rewrite delete_id. }
  destruct Hmatch as (Hxk&Hxt&Htab). destruct (Z.eqb_spec (slot_key x) 0); [congruence|].
  destruct (close_core s M p q x false Hc Hp Hok Htab) as (s1&W&->&Hc1&Hlg&Hl&Hmk&Hsc&Hw&_); [done|]. mstep. rewrite Hxk in Hc1.
  assert (size M = S (size (delete k M))) as Hsz.
  { rewrite map_size_delete_Some by done. assert (size M ≠ 0); [|lia]. intros He%map_size_empty_inv. by rewrite He in Hm. }
  destruct (shrink_spec s1 (delete k M) Hc1) as (s'&->&Hrep&Hsame); [lia|lia|by rewrite Hlg, Hl|]. mstep.
  exists s'. rewrite Hxt. split; [done|]. split; [done|]. unfold same_owner in *. by rewrite Hmk, Hsc, Hw in Hsame.
Qed.

Lemma remove_spec s M k :
  idx_rep s M → scan s = None → ∃ s', remove s k = Ok (M !! k, s') ∧ idx_rep s' (delete k M) ∧ same_owner s s'.
Proof. intros Hr Hs. unfold remove. rewrite Hs. mstep. by apply remove_key_spec. Qed.
End operations.

(** ** Scans *)

Section scans.
Implicit Types (s : SchedulingIndex) (v : Slot) (M : gmap Z Z) (pending : list Z).

Lemma low_S b (t : list (option Slot)) o : t !! b = Some o → low (S b) t = low b t ++ option_list o.
Proof.
  intros Hb. unfold low, entries. rewrite (take_S_r t b o Hb), omap_app. done.
Qed.

(** The next used bucket below [b]. *)
Lemma bucket_below_spec s p b :
  idx_ok s p → b ≤ 2 ^ p →
  (bucket_below (slots s) b = Ok None ∧ low b (tab s) = []) ∨
  (∃ b' v, bucket_below (slots s) b = Ok (Some (b', v)) ∧ b' < b ∧ tab s !! b' = Some (Some v) ∧ low b (tab s) = low b' (tab s) ++ [v]).
Proof.
  intros Hok. pose proof (io_fits s p Hok) as Hfits. induction b as [|b IH]; intros Hb; [by left|]. cbn [bucket_below].
  destruct (lookup_lt_ok (slots s) b ltac:(lia)) as [v Hv]. rewrite Hv. mstep.
  assert (tab s !! b = Some (slot_view v)) as Htb by (rewrite (tab_eq s p Hok), slots_view_entry, Hv by lia; done).
  rewrite (low_S b _ _ Htb). unfold slot_view in *. destruct (Z.eqb_spec (slot_key v) 0) as [Hz|Hz]; cbn [negb option_list].
  - rewrite app_nil_r. destruct (IH ltac:(lia)) as [?|(b'&w&?&?&?&?)]; [by left|right]. exists b', w. split_and!; auto.
  - right. exists b, v. split_and!; auto.
Qed.

(** The keys a scan has still to yield: the zero entry, the used buckets below
    the cursor, and the wrapped keys not yet visited. *)
Definition unvisited s (c : Scan) : list Z :=
  (if zero_pending c then [0%Z] else []) ++ (slot_key <$> low (before c) (tab s)) ++ drop (wrapped_next c) (wrapped s).

(** The entry yielded last, as the cursor remembers it. *)
Definition current_key s (c : Scan) (k : option Z) : Prop :=
  match current c with
  | None => k = None
  | Some CZero => k = Some 0%Z ∧ zero_pending c = false
  | Some (CBucket b) => b = before c ∧ ∃ v, tab s !! b = Some (Some v) ∧ k = Some (slot_key v)
  | Some (CWrapped key) => k = Some key ∧ before c = 0
  end.

Record cursor_ok s pending (k : option Z) (c : Scan) : Prop := {
  co_scan : scan s = Some c;
  co_remaining : remaining c = length pending;
  co_unvisited : pending ≡ₚ unvisited s c;
  co_phase : wrapped_next c ≤ length (wrapped s);
  co_before : before c ≤ logical s;
  co_wrapped : length (wrapped s) + length (low (before c) (tab s)) ≤ max_keys s;
  co_current : current_key s c k;
}.

(** A scan over [M] that has yet to visit [pending], standing at [k]. *)
Record scanning s M pending (k : option Z) : Prop := {
  sg_rep : idx_rep s M;
  sg_nodup : NoDup (option_list k ++ pending);
  sg_keys : ∀ x, x ∈ option_list k ++ pending → is_Some (M !! x);
  sg_cursor : ∃ c, cursor_ok s pending k c;
}.

Lemma idx_rep_scan s M c w : idx_rep s M → idx_rep (with_scan s c w) M.
Proof. intros [Hc Hl Hm Hf]. split; [by apply core_scan|done..]. Qed.

Lemma rep_keys s M : idx_core s M →
  (map_to_list M).*1 ≡ₚ (if zero s then [0%Z] else []) ++ (slot_key <$> entries (tab s)).
Proof.
  intros Hc. assert (slot_key <$> entries (tab s) ≡ₚ (map_to_list (delete 0%Z M)).*1) as ->.
  { rewrite <- (ic_pairs s M Hc), <- list_fmap_compose. done. }
  rewrite (ic_zero s M Hc). destruct (M !! 0%Z) as [t|] eqn:Hz.
  - rewrite <- (map_to_list_delete M 0%Z t Hz). done.
  - by rewrite delete_id.
Qed.

Lemma scan_begin s M :
  idx_rep s M → scan s = None →
  ∃ s', begin_scan s = Ok s' ∧ scanning s' M (map_to_list M).*1 None ∧ max_keys s' = max_keys s.
Proof.
  intros Hr Hs. unfold begin_scan. rewrite Hs. mstep. eexists. split; [done|]. split; [|done].
  destruct (ic_ok s M (ix_core s M Hr)) as (p&_&Hok). pose proof (ok_length _ _ _ _ (io_table s p Hok)) as Htl.
  assert (low (logical s) (tab s) = entries (tab s)) as Hall by (apply low_all; rewrite Htl, (io_logical s p Hok); done).
  split; [by apply idx_rep_scan|apply NoDup_fst_map_to_list| |].
  - intros x [[y t] [-> Hin]]%list_elem_of_fmap. apply elem_of_map_to_list in Hin. cbn. by rewrite Hin.
  - eexists. split; [done|..]; cbn [remaining before zero_pending wrapped_next current wrapped max_keys with_scan logical].
    + rewrite length_fmap, length_map_to_list. apply (ix_len s M Hr).
    + unfold unvisited. cbn [before zero_pending wrapped_next wrapped with_scan]. change (tab (with_scan _ _ _)) with (tab s).
      rewrite Hall, drop_nil, app_nil_r. rewrite (rep_keys s M (ix_core s M Hr)). by destruct (zero s).
    + done.
    + done.
    + change (tab (with_scan _ _ _)) with (tab s). rewrite Hall. cbn. pose proof (core_size s M (ix_core s M Hr)).
      pose proof (ix_len s M Hr). pose proof (ix_max s M Hr). lia.
    + done.
Qed.

(** A step of the cursor that yields [k]. *)
Lemma scanning_advance s M pending k0 k rest c' :
  scanning s M pending k0 → pending ≡ₚ k :: rest → cursor_ok (with_scan s (Some c') (wrapped s)) rest (Some k) c' →
  ∃ pending', pending ≡ₚ k :: pending' ∧ is_Some (M !! k) ∧
    scanning (with_scan s (Some c') (wrapped s)) M pending' (Some k).
Proof.
  intros [Hr Hnd Hkeys _] Hp Hc. exists rest. split; [done|].
  assert (Hin : ∀ x, x ∈ k :: rest → is_Some (M !! x)).
  { intros x Hx. apply Hkeys, elem_of_app. right. by rewrite Hp. }
  split; [apply Hin; by left|]. split; [by apply idx_rep_scan| |done|by exists c'].
  apply NoDup_app in Hnd as (_&_&Hnd). by rewrite Hp in Hnd.
Qed.

Lemma scan_next s M pending k0 :
  scanning s M pending k0 →
  if decide (pending = []) then next_entry s = Ok (None, s)
  else ∃ k t s' pending', next_entry s = Ok (Some (k, t), s') ∧ M !! k = Some t ∧ pending ≡ₚ k :: pending' ∧
    scanning s' M pending' (Some k) ∧ max_keys s' = max_keys s.
Proof.
  intros Hg. destruct (sg_cursor _ _ _ _ Hg) as [c [Hs Hrem Hunv Hph Hbef Hwr Hcur]].
  pose proof (ix_core s M (sg_rep _ _ _ _ Hg)) as Hcore. destruct (ic_ok s M Hcore) as (p&_&Hok).
  unfold next_entry. rewrite Hs. mstep. rewrite Hrem. case_decide as Hemp; [by subst pending|].
  destruct (Nat.eqb_spec (length pending) 0) as [Hz|Hz]; [by apply nil_length_inv in Hz|].
  unfold unvisited in Hunv. destruct (zero_pending c) eqn:Hzp.
  { set (c' := {| remaining := _; before := _; zero_pending := _; wrapped_next := _; current := _ |}).
    destruct (scanning_advance s M pending k0 0%Z ((slot_key <$> low (before c) (tab s)) ++ drop (wrapped_next c) (wrapped s)) c' Hg Hunv)
      as (pending'&Hp&[t Ht]&Hg').
    { split; try done. cbn. apply Permutation_length in Hunv. cbn in Hunv. lia. }
    rewrite (ic_zero s M Hcore), Ht. mstep. by exists 0%Z, t, (with_scan s (Some c') (wrapped s)), pending'. }
  cbn [app] in Hunv. destruct (bucket_below_spec s p (before c) Hok) as [[-> Hlow]|(b&v&->&Hb&Htb&Hlow)].
  { by rewrite <- (io_logical s p Hok). }
  - mstep. rewrite Hlow in Hunv. cbn [fmap list_fmap app] in Hunv.
    destruct (wrapped s !! wrapped_next c) as [k|] eqn:Hk.
    2: { apply lookup_ge_None in Hk. rewrite drop_ge in Hunv by done. by apply Permutation_nil_r in Hunv. }
    mstep. rewrite (drop_S _ k _ Hk) in Hunv. cbv zeta.
    set (c' := {| remaining := _; before := _; zero_pending := _; wrapped_next := _; current := _ |}).
    destruct (scanning_advance s M pending k0 k (drop (S (wrapped_next c)) (wrapped s)) c' Hg Hunv) as (pending'&Hp&[t Ht]&Hg').
    { apply Permutation_length in Hunv. apply lookup_lt_Some in Hk. cbn [length] in Hunv.
      split; cbn [c' remaining before zero_pending wrapped_next current wrapped max_keys with_scan logical];
        [done|lia| |lia|lia| |done].
      - unfold unvisited. cbn. by rewrite Nat.add_1_r.
      - unfold low. rewrite take_0. cbn. lia. }
    rewrite (index_get_spec _ M k (ix_core _ _ (sg_rep _ _ _ _ Hg'))), Ht. mstep. by exists k, t, (with_scan s (Some c') (wrapped s)), pending'.
  - mstep. set (c' := {| remaining := _; before := _; zero_pending := _; wrapped_next := _; current := _ |}).
    assert (Hperm : pending ≡ₚ slot_key v :: (slot_key <$> low b (tab s)) ++ drop (wrapped_next c) (wrapped s)).
    { rewrite Hunv, Hlow, fmap_app, <- app_assoc. symmetry. apply Permutation_middle. }
    destruct (scanning_advance s M pending k0 (slot_key v) ((slot_key <$> low b (tab s)) ++ drop (wrapped_next c) (wrapped s)) c' Hg Hperm)
      as (pending'&Hp&[t Ht]&Hg').
    { apply Permutation_length in Hperm. cbn [length] in Hperm. rewrite Hlow, length_app in Hwr.
      split; cbn [c' remaining before zero_pending wrapped_next current wrapped max_keys with_scan logical]; [done|lia|done|done|lia| |].
      - change (tab (with_scan _ _ _)) with (tab s). lia.
      - split; [done|]. by exists v. }
    assert (v ∈ entries (tab s)) as Hv by (apply elem_of_entries; by exists b).
    destruct (core_hit s M v Hcore Hv) as [Hm _]. by exists (slot_key v), (slot_time v), (with_scan s (Some c') (wrapped s)), pending'.
Qed.

(** The entry at the cursor may be given another time. *)
Lemma scan_update s M pending k t :
  scanning s M pending (Some k) →
  ∃ s', put s k t = Ok s' ∧ scanning s' (<[k := t]> M) pending (Some k) ∧ max_keys s' = max_keys s.
Proof.
  intros [Hr Hnd Hkeys [c [Hs Hrem Hunv Hph Hbef Hwr Hcur]]]. destruct (Hkeys k ltac:(by left)) as [old Hold].
  destruct (put_update s M k old t (ix_core s M Hr) Hold) as (s'&Hput&Hc'&Hk&Hl&Hm&Hlen&Hs'&Hw). exists s'.
  assert (Hkeyview : ∀ b, slot_key <$> low b (tab s') = slot_key <$> low b (tab s)).
  { intros b. assert (Hgen : ∀ l, slot_key <$> low b (table_view (logical s) l) =
      omap (λ k, if (k =? 0)%Z then None else Some k) (take b (take (logical s) (slot_key <$> l)))).
    { intros l. unfold low, table_view, entries. rewrite <- fmap_take. rewrite <- !fmap_take. generalize (take b (take (logical s) l)). clear.
      intros l. induction l as [|x l IH]; [done|]. cbn. unfold slot_view at 1. destruct (slot_key x =? 0)%Z; cbn; by rewrite IH. }
    unfold tab. rewrite Hl, !Hgen, Hk. done. }
  assert (Hlen' : ∀ b, length (low b (tab s')) = length (low b (tab s))).
  { intros b. rewrite <- (length_fmap slot_key), Hkeyview. apply length_fmap. }
  split; [done|]. split; [|done]. split; [|done| |].
  - split; [done| |by rewrite Hlen, Hm; apply (ix_max s M Hr)|by rewrite Hl, Hlen; apply (ix_fill s M Hr)].
    rewrite Hlen, map_size_insert_Some by done. apply (ix_len s M Hr).
  - intros x Hx. rewrite lookup_insert_is_Some'. right. by apply Hkeys.
  - exists c. split; rewrite ?Hs', ?Hl, ?Hm, ?Hw, ?Hlen'; try done.
    + unfold unvisited. by rewrite Hkeyview, Hw.
    + unfold current_key in *. destruct (current c) as [[|b|]|]; try done. destruct Hcur as (->&v&Hv&[= ->]). split; [done|].
      destruct (ic_ok s M (ix_core s M Hr)) as (p&_&Hok). destruct (ic_ok s' _ Hc') as (p'&_&Hok').
      pose proof (lookup_bound _ _ _ _ _ _ (io_table s p Hok) Hv) as Hb.
      assert (2 ^ p' = 2 ^ p) as Hpp by (rewrite <- (io_logical s' p' Hok'), <- (io_logical s p Hok); done).
      rewrite (tab_eq s p Hok) in Hv. apply view_lookup_some in Hv as [Hv Hnz]; [|done].
      assert (slot_key <$> slots s' !! before c = Some (slot_key v)) as Hx by (rewrite <- list_lookup_fmap, Hk, list_lookup_fmap, Hv; done).
      destruct (slots s' !! before c) as [v'|] eqn:Hv'; [|done]. cbn in Hx. injection Hx as Hx. exists v'. rewrite Hx. split; [|done].
      rewrite (tab_eq s' p' Hok'), Hpp, slots_view_entry, Hv' by done. cbn. f_equal. apply slot_view_some. split; [done|congruence].
Qed.

Definition settled (c : Scan) : Scan :=
  {| remaining := remaining c; before := before c; zero_pending := zero_pending c; wrapped_next := wrapped_next c; current := None |}.

(** Dropping the entry at the cursor, given what became of the table. *)
Lemma scanning_drop s s' M pending k c :
  scanning s M pending (Some k) → cursor_ok s pending (Some k) c → idx_rep s' (delete k M) → scan s' = Some (settled c) →
  max_keys s' = max_keys s → before c ≤ logical s' →
  (∃ W, wrapped s' = wrapped s ++ (slot_key <$> W) ∧ low (before c) (tab s) ≡ₚ low (before c) (tab s') ++ W) →
  scanning s' (delete k M) pending None.
Proof.
  intros [Hr Hnd Hkeys _] [Hs Hrem Hunv Hph Hbef Hwr Hcur] Hr' Hs' Hm' Hb' (W&Hw&Hlow). cbn in Hnd, Hkeys.
  apply NoDup_cons in Hnd as [Hk Hnd]. split; [done|done| |].
  - intros x Hx. cbn in Hx. rewrite lookup_delete_ne by (intros ->; done). apply Hkeys. by right.
  - exists (settled c). split; cbn [settled remaining before zero_pending wrapped_next]; [done|done| |..].
    + rewrite Hunv. unfold unvisited. cbn [settled before zero_pending wrapped_next].
      rewrite Hw, drop_app_le by done. rewrite Hlow, fmap_app, <- app_assoc.
      apply Permutation_app_head, Permutation_app_head, Permutation_app_comm.
    + rewrite Hw, length_app. lia.
    + done.
    + apply Permutation_length in Hlow. rewrite length_app in Hlow. rewrite Hw, length_app, length_fmap, Hm'. lia.
    + done.
Qed.

Lemma map_size_delete_present M k : is_Some (M !! k) → size M = S (size (delete k M)).
Proof.
  intros [t Hm]. rewrite map_size_delete_Some by done. assert (size M ≠ 0); [|lia].
  intros He%map_size_empty_inv. by rewrite He in Hm.
Qed.

Lemma scan_remove s M pending k :
  scanning s M pending (Some k) →
  ∃ s', remove_current s = Ok s' ∧ scanning s' (delete k M) pending None ∧ max_keys s' = max_keys s.
Proof.
  intros Hg. pose proof Hg as [Hr _ Hkeys [c Hc]]. pose proof Hc as [Hs Hrem Hunv Hph Hbef Hwr Hcur].
  pose proof (map_size_delete_present M k (Hkeys k ltac:(by left))) as Hsz.
  unfold remove_current. rewrite Hs. mstep. unfold current_key in Hcur.
  set (s1 := with_scan s (Some _) (wrapped s)). pose proof (idx_rep_scan s M (Some (settled c)) (wrapped s) Hr) as Hr1.
  change (with_scan s (Some (settled c)) (wrapped s)) with s1 in Hr1.
  destruct (current c) as [[|b|key]|]; [..|done]; mstep.
  - destruct Hcur as [[= ->] Hzp]. unfold decrement_len. cbn [len with_zero]. pose proof (ix_len s M Hr) as Hlen.
    destruct (Nat.ltb_spec 0 (len s1)); [mstep|cbn in *; lia]. eexists. split; [done|]. split; [|done].
    pose proof (ix_max s M Hr). pose proof (ix_fill s M Hr).
    apply (scanning_drop s _ M pending 0%Z c Hg Hc); [|done|done|done|exists []; by rewrite !app_nil_r].
    split; [apply core_len, (core_zero s1 M None), Hr1|cbn; lia|cbn; lia|cbn; lia].
  - destruct Hcur as (->&v&Hv&[= ->]). destruct (ic_ok s1 M (ix_core s1 M Hr1)) as (p&Hp&Hok).
    destruct (close_core s1 M p (before c) v true (ix_core s1 M Hr1) Hp Hok Hv ltac:(done))
      as (s2&W&->&Hc2&Hlg&Hl2&Hm2&Hs2&Hw2&Hlow). mstep.
    pose proof (ix_len s M Hr) as Hlen. pose proof (ix_max s M Hr). pose proof (ix_fill s M Hr).
    unfold decrement_len. cbn in Hl2, Hlg, Hm2. destruct (Nat.ltb_spec 0 (len s2)); [mstep|lia].
    eexists. split; [done|]. split; [|done].
    apply (scanning_drop s _ M pending (slot_key v) c Hg Hc); [|done|done|by rewrite <- Hlg in Hbef|exists W; by split].
    split; [by apply core_len|cbn; lia|cbn; lia|cbn; rewrite Hlg; lia].
  - destruct Hcur as [[= ->] Hb0]. destruct (remove_key_spec s1 M key Hr1) as (s2&->&Hr2&Hm2&Hs2&Hw2). mstep.
    exists s2. split; [done|]. split; [|done].
    apply (scanning_drop s _ M pending key c Hg Hc Hr2); [done|done|rewrite Hb0; lia|].
    exists []. rewrite Hb0. unfold low. rewrite !take_0, app_nil_r. by split.
Qed.

Lemma scan_finish s M pending k :
  scanning s M pending k →
  ∃ s', finish_scan s = Ok s' ∧ idx_rep s' M ∧ scan s' = None ∧ max_keys s' = max_keys s.
Proof.
  intros [Hr _ _ [c [Hs _ _ _ _ _ _]]]. unfold finish_scan. rewrite Hs. mstep. eexists. split; [done|].
  split; [by apply idx_rep_scan|done].
Qed.
End scans.

(** ** What the owner relies on *)

(** The contract of a bounded map with an observable traversal: [rep] outside a
    scan, [during] a scan with the keys still to come and the one yielded last. *)
Record scanned_map {Q : Type} (rep : Q → gmap Z Z → Prop) (during : Q → gmap Z Z → list Z → option Z → Prop) (bound : Q → nat)
    (get : Q → Z → outcome False (option Z)) (put : Q → Z → Z → outcome TickError Q)
    (remove : Q → Z → outcome False (option Z * Q)) (begin_scan finish_scan remove_current : Q → outcome False Q)
    (next_entry : Q → outcome False (option (Z * Z) * Q)) : Prop := {
  sm_get q M k : rep q M → get q k = Ok (M !! k);
  sm_put q M k t : rep q M →
    if decide (M !! k = None ∧ size M = bound q) then put q k t = Err ChunkLimit
    else ∃ q', put q k t = Ok q' ∧ rep q' (<[k := t]> M) ∧ bound q' = bound q;
  sm_remove q M k : rep q M → ∃ q', remove q k = Ok (M !! k, q') ∧ rep q' (delete k M) ∧ bound q' = bound q;
  sm_size q M : rep q M → size M ≤ bound q;
  sm_begin q M : rep q M → ∃ q', begin_scan q = Ok q' ∧ during q' M (map_to_list M).*1 None ∧ bound q' = bound q;
  sm_next q M pending k0 : during q M pending k0 →
    if decide (pending = []) then next_entry q = Ok (None, q)
    else ∃ k t q' pending', next_entry q = Ok (Some (k, t), q') ∧ M !! k = Some t ∧ pending ≡ₚ k :: pending' ∧
      during q' M pending' (Some k) ∧ bound q' = bound q;
  sm_update q M pending k t : during q M pending (Some k) →
    ∃ q', put q k t = Ok q' ∧ during q' (<[k := t]> M) pending (Some k) ∧ bound q' = bound q;
  sm_drop q M pending k : during q M pending (Some k) →
    ∃ q', remove_current q = Ok q' ∧ during q' (delete k M) pending None ∧ bound q' = bound q;
  sm_finish q M pending k : during q M pending k → ∃ q', finish_scan q = Ok q' ∧ rep q' M ∧ bound q' = bound q;
}.

Definition index_rep (s : SchedulingIndex) (M : gmap Z Z) : Prop := idx_rep s M ∧ scan s = None.

Lemma index_is_scanned_map :
  scanned_map index_rep scanning max_keys get put remove begin_scan finish_scan remove_current next_entry.
Proof.
  split.
  - intros s M k [Hr _]. apply index_get_spec, (ix_core s M Hr).
  - intros s M k t [Hr Hs]. destruct (M !! k) as [old|] eqn:Hm.
    + rewrite decide_False by (by intros []). destruct (put_update s M k old t (ix_core s M Hr) Hm) as (s'&?&Hc&_&Hl&Hmk&Hn&Hsc&_).
      exists s'. split; [done|]. split; [|done]. split; [|congruence]. split; [done|..].
      * rewrite Hn, map_size_insert_Some by done. apply (ix_len s M Hr).
      * rewrite Hn, Hmk. apply (ix_max s M Hr).
      * rewrite Hn, Hl. apply (ix_fill s M Hr).
    + pose proof (put_insert s M k t Hr Hm Hs) as Hp. destruct (decide (size M = max_keys s)) as [He|Hne].
      * by rewrite decide_True.
      * rewrite decide_False by (by intros []). destruct Hp as (s'&?&?&Hmk&Hsc&_). exists s'. split; [done|]. split; [|done]. split; [done|congruence].
  - intros s M k [Hr Hs]. destruct (remove_spec s M k Hr Hs) as (s'&?&?&Hmk&Hsc&_). exists s'. split; [done|]. split; [|done]. split; [done|congruence].
  - intros s M [Hr _]. rewrite <- (ix_len s M Hr). apply (ix_max s M Hr).
  - intros s M [Hr Hs]. by apply scan_begin.
  - apply scan_next.
  - intros s M pending k t. apply scan_update.
  - intros s M pending k. apply scan_remove.
  - intros s M pending k Hg. destruct (scan_finish s M pending k Hg) as (s'&?&?&?&?). by exists s'.
Qed.

(** ** Construction *)

Lemma max_fill_mono a b : (a ≤ b → max_fill a ≤ max_fill b)%Z.
Proof. intros. unfold max_fill. apply Z.mul_le_mono_nonneg_r; [lia|]. apply Z.div_le_mono; lia. Qed.

(** The capacity loop ends within its fuel, at a power of two with room. *)
Lemma physical_for_spec fuel p keys :
  5 ≤ p → (keys ≤ max_fill (2 ^ Z.of_nat (p + fuel)))%Z →
  ∃ m, physical_for fuel keys (2 ^ Z.of_nat p) = Ok (2 ^ Z.of_nat m)%Z ∧ 5 ≤ m ∧ (keys ≤ max_fill (2 ^ Z.of_nat m))%Z.
Proof.
  revert p. induction fuel as [|fuel IH]; intros p Hp Hk; cbn [physical_for];
    destruct (Z.ltb_spec (max_fill (2 ^ Z.of_nat p)) keys) as [Hlt|Hge]; try by exists p.
  - rewrite Nat.add_0_r in Hk. lia.
  - replace (2 ^ Z.of_nat p * 2)%Z with (2 ^ Z.of_nat (S p))%Z by (rewrite Nat2Z.inj_succ, Z.pow_succ_r; lia).
    apply IH; [lia|]. by replace (S p + fuel) with (p + S fuel) by lia.
Qed.

Section construction_spec.
Context `{Allocator}.

Lemma index_blank m keys a :
  5 ≤ m → (Z.of_nat keys ≤ max_fill (Z.of_nat (2 ^ m)))%Z →
  index_rep {| slots := replicate (2 ^ m) empty_slot; rehash_scratch := replicate (2 ^ m) empty_slot; wrapped := [];
               logical := 2 ^ 5; max_keys := keys; len := 0; zero := None; scan := None; allocated := a |} ∅.
Proof.
  intros Hm Hk. assert (2 ^ 5 ≤ 2 ^ m) as Hle by (apply Nat.pow_le_mono_r; lia).
  assert (Htab : table_view (2 ^ 5) (replicate (2 ^ m) empty_slot) = replicate (2 ^ 5) None).
  { replace (2 ^ m) with (2 ^ 5 + (2 ^ m - 2 ^ 5)) by lia. rewrite replicate_add. apply table_view_blank. }
  split; [|done]. split; [|by rewrite map_size_empty|cbn; lia|vm_compute; done]. split.
  - split; cbn [slots rehash_scratch max_keys]; rewrite ?length_replicate; [by exists m|done|done].
  - exists 5. split; [lia|]. split; [done|by cbn [slots]; rewrite length_replicate|..]; unfold tab; cbn [logical slots]; rewrite Htab.
    + apply table_ok_empty.
    + rewrite entries_blank. cbn. lia.
  - unfold tab. cbn [logical slots]. rewrite Htab, entries_blank. by rewrite delete_empty, map_to_list_empty.
  - done.
Qed.

Lemma index_new_spec slot_size keys limit s :
  (0 ≤ keys)%Z → index_new slot_size keys limit = Ok s →
  index_rep s ∅ ∧ max_keys s = Z.to_nat keys ∧ (index_bytes slot_size s ≤ limit)%Z.
Proof.
  intros Hk Hn. unfold index_new in Hn. destruct (Z.ltb_spec (max_fill MAX_CAPACITY) keys) as [|Hmax]; [done|].
  destruct (physical_for_spec 25 5 keys ltac:(lia) Hmax) as (m&Hph&Hm&Hroom). change INITIAL_CAPACITY with (2 ^ Z.of_nat 5)%Z in Hn.
  rewrite Hph in Hn. mstep in Hn. apply outcome_bind_ok in Hn as (rq&_&Hn). destruct (_ <? _)%Z; [done|].
  apply outcome_bind_ok in Hn as ([a r1]&(_&->&_)%reserved_vec_ok&Hn).
  apply outcome_bind_ok in Hn as ([b r2]&(_&->&_)%reserved_vec_ok&Hn).
  apply outcome_bind_ok in Hn as ([c r3]&(_&->&Hpos)%reserved_vec_ok&Hn). injection Hn as <-.
  rewrite !to_nat_pow2. split; [|split; [done|unfold index_bytes; cbn [allocated]; lia]].
  apply index_blank; [done|]. rewrite Z2Nat.id by lia. by rewrite Nat2Z.inj_pow.
Qed.

(** Construction fails only with a typed error. *)
Lemma index_new_total slot_size keys limit :
  index_new slot_size keys limit ≠ Panic ∧ index_new slot_size keys limit ≠ NoFuel.
Proof.
  unfold index_new. destruct (Z.ltb_spec (max_fill MAX_CAPACITY) keys) as [|Hmax]; [done|].
  destruct (physical_for_spec 25 5 keys ltac:(lia) Hmax) as (m&Hph&_). change INITIAL_CAPACITY with (2 ^ Z.of_nat 5)%Z.
  rewrite Hph. mstep. match goal with |- context [ok_or ?o] => destruct o as [rq|] end; mstep; [|done]. destruct (_ <? _)%Z; [done|].
  by reservations.
Qed.
End construction_spec.

(** ** A client of the scan *)

(** What the owner may do with the entry just yielded. *)
Inductive visit := Keep | Update (time : Z) | Drop.

Fixpoint drive (fuel : nat) (decision : Z → Z → visit) (s : SchedulingIndex) : outcome TickError (list (Z * Z) * SchedulingIndex) :=
  match fuel with
  | O => NoFuel
  | S fuel' =>
      '(entry, s) ← lift (next_entry s);
      match entry return outcome TickError (list (Z * Z) * SchedulingIndex) with
      | None => Ok ([], s)
      | Some (k, t) =>
          s ← (match decision k t with
               | Keep => Ok s
               | Update t' => put s k t'
               | Drop => lift (remove_current s)
               end);
          '(log, s) ← drive fuel' decision s;
          Ok ((k, t) :: log, s)
      end
  end.

Definition scan_all (decision : Z → Z → visit) (s : SchedulingIndex) : outcome TickError (list (Z * Z) * SchedulingIndex) :=
  s ← lift (begin_scan s);
  '(log, s) ← drive (S (len s)) decision s;
  s ← lift (finish_scan s);
  Ok (log, s).

(** What the decision leaves of an entry. *)
Definition leaves (decision : Z → Z → visit) (k t : Z) : option Z :=
  match decision k t with Keep => Some t | Update t' => Some t' | Drop => None end.

Section client.
Implicit Types (M : gmap Z Z) (pending : list Z).

Lemma lift_ok {E A} (m : outcome False A) a : m = Ok a → lift (E := E) m = Ok a.
Proof. by intros ->. Qed.

Lemma visit_step decision s M pending k t :
  scanning s M pending (Some k) → M !! k = Some t →
  ∃ s', (match decision k t with Keep => Ok s | Update t' => put s k t' | Drop => lift (E := TickError) (remove_current s) end) = Ok s' ∧
    max_keys s' = max_keys s ∧ ∃ k', scanning s' (partial_alter (λ _, leaves decision k t) k M) pending k'.
Proof.
  intros Hg Hm. unfold leaves. destruct (decision k t) as [|t'|].
  - exists s. split; [done|]. split; [done|]. exists (Some k). pose proof (insert_id M k t Hm) as Hid. unfold insert, map_insert in Hid. by rewrite Hid.
  - destruct (scan_update s M pending k t' Hg) as (s'&?&?&?). exists s'. split; [done|]. split; [done|]. by exists (Some k).
  - destruct (scan_remove s M pending k Hg) as (s'&Hr&?&?). exists s'. split; [by apply lift_ok|]. split; [done|]. by exists None.
Qed.

Lemma drive_spec decision fuel : ∀ s M pending k0,
  scanning s M pending k0 → length pending < fuel →
  ∃ log s' k', drive fuel decision s = Ok (log, s') ∧ log.*1 ≡ₚ pending ∧
    (∀ k t, (k, t) ∈ log → M !! k = Some t) ∧ max_keys s' = max_keys s ∧
    ∃ M', scanning s' M' [] k' ∧ ∀ k, M' !! k = if decide (k ∈ pending) then M !! k ≫= leaves decision k else M !! k.
Proof.
  induction fuel as [|fuel IH]; intros s M pending k0 Hg Hf; [lia|]. cbn [drive].
  pose proof (scan_next s M pending k0 Hg) as Hn. case_decide as Hp.
  - subst pending. rewrite Hn. unfold lift. mstep. exists [], s, k0. split; [done|]. split; [done|].
    split; [by intros k t Hk%elem_of_nil|]. split; [done|]. exists M. split; [done|]. intros k. by rewrite decide_False by apply not_elem_of_nil.
  - destruct Hn as (k&t&s1&rest&Hn&Hm&Hperm&Hg1&Hmk1). rewrite Hn. unfold lift. mstep.
    pose proof (sg_nodup _ _ _ _ Hg1) as Hnd. cbn in Hnd. apply NoDup_cons in Hnd as [Hk Hnd].
    destruct (visit_step decision s1 M rest k t Hg1 Hm) as (s2&Hv&Hmk2&k2&Hg2). unfold lift in Hv. rewrite Hv. mstep.
    destruct (IH s2 _ rest k2 Hg2) as (log&s3&k3&Hd&Hlog&Hval&Hmk3&M'&Hg3&HM').
    { apply Permutation_length in Hperm. cbn in Hperm. lia. }
    rewrite Hd. mstep. exists ((k, t) :: log), s3, k3. split; [done|]. split; [by rewrite fmap_cons, Hlog, Hperm|]. split; [|split].
    + intros k' t' [[= -> ->]|Hin]%elem_of_cons; [done|]. pose proof (Hval _ _ Hin) as Hv'.
      assert (k' ≠ k) as Hne; [|by rewrite lookup_partial_alter_ne in Hv'].
      intros ->. apply Hk. rewrite <- Hlog. by apply (list_elem_of_fmap_2 fst log (k, t')).
    + congruence.
    + exists M'. split; [done|]. intros k'. rewrite HM'. destruct (decide (k' = k)) as [->|Hne].
      * rewrite decide_False by done. rewrite decide_True by (rewrite Hperm; by left). by rewrite lookup_partial_alter_eq, Hm.
      * rewrite lookup_partial_alter_ne by done. destruct (decide (k' ∈ rest)) as [Hin|Hout].
        -- by rewrite decide_True by (rewrite Hperm; by right).
        -- rewrite decide_False; [done|]. rewrite Hperm. by intros [?|?]%elem_of_cons.
Qed.
End client.

(** ** Properties *)

(** C36. The scheduling index implements a bounded map through growth, shrinking
    and removal by shifting: get is lookup, put is insertion or the chunk-limit
    error exactly when a new key meets the limit, remove returns and deletes; no
    assertion, index or probe fails.  A new index is empty with the bound asked
    for and reports no more bytes than the budget, or construction returns a
    typed error. *)
Theorem scheduling_index_is_a_map :
  scanned_map index_rep scanning max_keys get put remove begin_scan finish_scan remove_current next_entry ∧
  ∀ `{Allocator} slot_size keys limit, (0 ≤ keys)%Z →
    match index_new slot_size keys limit with
    | Ok s => index_rep s ∅ ∧ max_keys s = Z.to_nat keys ∧ (index_bytes slot_size s ≤ limit)%Z
    | Err _ => True
    | Panic | NoFuel => False
    end.
Proof.
  split; [exact index_is_scanned_map|]. intros Ha slot_size keys limit Hk.
  destruct (index_new_total slot_size keys limit) as [Hp Hf].
  destruct (index_new _ _ _) as [s| | |] eqn:Hn; [by apply index_new_spec|done..].
Qed.

(** A scan yields every entry of the map exactly once, with its time,
    whatever entries the client updates or removes on the way: entries that a
    removal shifts across slot zero to behind the cursor are neither lost nor
    repeated.  Afterwards the map is the old one with each entry updated,
    removed or kept as decided. *)
Theorem scan_visits_every_key_once decision s M :
  index_rep s M →
  ∃ log s', scan_all decision s = Ok (log, s') ∧ log ≡ₚ map_to_list M ∧
    index_rep s' (map_imap (leaves decision) M) ∧ max_keys s' = max_keys s.
Proof.
  intros [Hr Hs]. unfold scan_all. destruct (scan_begin s M Hr Hs) as (s1&Hb&Hg&Hm1). rewrite (lift_ok _ _ Hb). mstep.
  destruct (drive_spec decision (S (len s1)) s1 M _ None Hg) as (log&s2&k2&Hd&Hlog&Hval&Hm2&M'&Hg2&HM').
  { rewrite length_fmap, length_map_to_list, (ix_len s1 M (sg_rep _ _ _ _ Hg)). lia. }
  rewrite Hd. mstep. destruct (scan_finish s2 M' [] k2 Hg2) as (s3&Hf&Hr3&Hs3&Hm3). rewrite (lift_ok _ _ Hf). mstep.
  assert (Hall : ∀ k t, M !! k = Some t → k ∈ (map_to_list M).*1).
  { intros k t Hk. apply (list_elem_of_fmap_2 fst _ (k, t)). by apply elem_of_map_to_list. }
  exists log, s3. split; [done|]. split; [|split; [split; [|done]|congruence]].
  - apply NoDup_Permutation; [apply (NoDup_fmap_1 fst); rewrite Hlog; apply NoDup_fst_map_to_list|apply NoDup_map_to_list|].
    intros [k t]. rewrite elem_of_map_to_list. split; [apply Hval|]. intros Hkt. pose proof (Hall k t Hkt) as Hin.
    rewrite <- Hlog in Hin. apply list_elem_of_fmap in Hin as ([k' t']&Hk&Hin). cbn in Hk. subst k'.
    pose proof (Hval k t' Hin) as Hkt'. rewrite Hkt in Hkt'. by injection Hkt' as <-.
  - replace (map_imap (leaves decision) M) with M'; [done|]. apply map_eq. intros k. rewrite HM', map_lookup_imap.
    case_decide as Hin; [done|]. destruct (M !! k) as [t|] eqn:Hk; [|done]. by destruct Hin; eapply Hall.
Qed.

(** ** The traversal on concrete keys *)

Fixpoint put_all (s : SchedulingIndex) (l : list Z) (t : Z) : outcome TickError SchedulingIndex :=
  match l with
  | [] => Ok s
  | k :: l => s ← put s k t; put_all s l t
  end.

Lemma put_all_rep l t : ∀ s M s', index_rep s M → put_all s l t = Ok s' → ∃ M', index_rep s' M'.
Proof.
  induction l as [|k l IH]; intros s M s' Hr Hp; cbn [put_all] in Hp; [injection Hp as <-; by exists M|].
  pose proof (sm_put _ _ _ _ _ _ _ _ _ _ index_is_scanned_map s M k t Hr) as Hk.
  case_decide; [by rewrite Hk in Hp|]. destruct Hk as (s1&Hk&Hr1&_). rewrite Hk in Hp. mstep in Hp. by apply (IH s1 _ s' Hr1).
Qed.

Definition sample_index (bound : Z) (keys : list Z) : outcome TickError SchedulingIndex :=
  s ← index_new (H := exact_allocator) 16 bound (2 ^ 20); put_all s keys 10.

(** The order of twenty-five consecutive keys, as the repository's tests record
    it, after one growth of the table. *)
Example observed_growth_order :
  match sample_index 65 (Z.of_nat <$> seq 0 25) with
  | Ok s => match scan_all (λ _ _, Keep) s with Ok (log, _) => (log.*1, logical s) | _ => ([], 0) end
  | _ => ([], 0)
  end = ([0; 15; 10; 12; 3; 18; 17; 13; 2; 21; 20; 22; 5; 14; 16; 9; 6; 24; 19; 1; 11; 7; 8; 4; 23]%Z, 64).
Proof. vm_compute. reflexivity. Qed.

(** Nine colliding keys of which all but three are removed on the way: the order
    differs from that of an undisturbed scan, and every key still comes once. *)
Definition colliding_keys : list Z :=
  [-356482285517; -377957122072; 34359738246; -330712481896; -68719476846; -274877906880;
   515396075429; 47244640138; 30064771133]%Z.
Definition drop_most (k _ : Z) : visit := if (Z.land k 3 =? 0)%Z then Keep else Drop.
Definition visited (s : outcome TickError SchedulingIndex) : outcome TickError (list Z * nat) :=
  s ← s; '(log, s) ← scan_all drop_most s; Ok (log.*1, len s).

Example wrapped_removal_order :
  visited (sample_index 9 colliding_keys) =
    Ok ([-274877906880; -68719476846; 515396075429; 34359738246; -356482285517; -330712481896;
         -377957122072; 47244640138; 30064771133]%Z, 3).
Proof. vm_compute. reflexivity. Qed.

Lemma sample_index_rep bound keys s : (0 <= bound)%Z -> sample_index bound keys = Ok s -> exists M, index_rep s M.
Proof.
  intros Hb Hs. unfold sample_index in Hs. apply outcome_bind_ok in Hs as (s0&H0&Hs).
  destruct (index_new_spec (H := exact_allocator) 16 bound (2 ^ 20) s0 Hb H0) as (Hr&_).
  exact (put_all_rep keys 10 s0 _ s Hr Hs).
Qed.

Lemma scan_visits_every_key_once_witness :
  exists s log s', sample_index 9 colliding_keys = Ok s /\ scan_all drop_most s = Ok (log, s') /\ length log = 9 /\ len s' = 3.
Proof.
  pose proof wrapped_removal_order as Hrun.
  destruct (sample_index 9 colliding_keys) as [s| | |] eqn:Hs; [|discriminate Hrun..].
  destruct (sample_index_rep 9 _ s ltac:(lia) Hs) as [M HM].
  destruct (scan_visits_every_key_once drop_most s M HM) as (log&s'&Hscan&_).
  exists s, log, s'. unfold visited in Hrun. mstep in Hrun. rewrite Hscan in Hrun. mstep in Hrun. injection Hrun as Hlog Hlen.
  split; [reflexivity|]. split; [exact Hscan|]. split; [|exact Hlen]. rewrite <- (length_fmap fst log), Hlog. reflexivity.
Defined.
