(* ===== verification/TickOwner.v ===== *)
(** * The scheduled-tick owner: state and operations (src/world/ticks.rs)

    One owner per world keeps, per chunk and domain, a tick queue, its identity
    set and the saved ticks not yet unpacked, and per domain the scheduling index
    from packed chunk address to the time of the chunk's first tick.  A phase
    selects due ticks, hands them out one by one and ends.  Every operation is a
    state transformer that may return a typed error with the state reached by
    then; a failed [expect], [unwrap], index, subtraction or assertion is a
    panic.  The hash functions that [RandomState] draws are arguments of the
    operations that build tables. *)

From stdpp Require Import list sorting gmap.
From S2P Require Import Prelude.
From S2P Require Import Sorted.
From S2P Require Import View.
From S2P Require Import TickTypes.
From S2P Require Import TickHeap.
From S2P Require Import TickTables.
From S2P Require Import TickIndex.
Local Open Scope Z_scope.

Definition MAX_SCHEDULED_TICKS_PER_PHASE : Z := 65536.
Definition Hash : Type := Identity → nat.

(** [size_of] of the element types the owner allocates. *)
Class TickLayout := {
  tick_size : Z; saved_size : Z; ready_size : Z; idslot_size : Z; count_size : Z; slot_size : Z;
  chunks_size : Z; snapshot_size : Z; usize_size : Z;
  layout_nonneg : Forall (λ s, 0 ≤ s)
    [tick_size; saved_size; ready_size; idslot_size; count_size; slot_size; chunks_size; snapshot_size; usize_size];
}.

(** ** State *)

(** [q_pending] is the saved payload with its capacity. *)
Record ChunkQueue := { q_heap : ScheduledHeap; q_ids : Identities; q_pending : option (list SavedTick * Z) }.

Record ChunkQueues := {
  cq_address : ChunkAddress;
  cq_registered : bool;
  cq_eligible : bool;
  cq_blocks : ChunkQueue;
  cq_fluids : ChunkQueue;
}.

Record SnapshotTick := { st_tick : ScheduledTick; st_sequence : nat; st_admitted : bool }.

Record TickLimits := { max_chunks : Z; queued_per_chunk : Z; selected_per_phase : Z; allocation_bytes : Z }.

Record CopyOutcome := { added : Z; duplicates : Z; missing_containers : Z }.

Inductive ScheduleOutcome := Added | Duplicate | MissingContainer.

(** The selection of the running phase. *)
Record Phase := {
  selected : list ScheduledTick;
  selected_ids : Identities;
  remaining_ids : RemainingCounts;
  cursor : nat;
  active : option TickDomain;
}.

(** The workspace that packing and copying keep, with its capacities. *)
Record Workspace := {
  scratch : list SnapshotTick;
  scratch_cap : Z;
  copy_ids : option Identities;
  copy_capacity : Z;
  copy_counts : list Z;
  copy_counts_cap : Z;
}.

Record Owner := {
  limits : TickLimits;
  block_types : Z;
  fluid_types : Z;
  next_sub_tick : Z;
  chunks : list ChunkQueues;
  ready : Heap ReadyChunk;
  block_index : SchedulingIndex;
  fluid_index : SchedulingIndex;
  phase : Phase;
  workspace : Workspace;
  scratch_limit : Z;
  allocated_bytes : Z;
}.

Definition with_chunks (o : Owner) (cs : list ChunkQueues) : Owner :=
  {| limits := limits o; block_types := block_types o; fluid_types := fluid_types o; next_sub_tick := next_sub_tick o;
     chunks := cs; ready := ready o; block_index := block_index o; fluid_index := fluid_index o; phase := phase o;
     workspace := workspace o; scratch_limit := scratch_limit o; allocated_bytes := allocated_bytes o |}.
Definition with_ready (o : Owner) (h : Heap ReadyChunk) : Owner :=
  {| limits := limits o; block_types := block_types o; fluid_types := fluid_types o; next_sub_tick := next_sub_tick o;
     chunks := chunks o; ready := h; block_index := block_index o; fluid_index := fluid_index o; phase := phase o;
     workspace := workspace o; scratch_limit := scratch_limit o; allocated_bytes := allocated_bytes o |}.
Definition with_phase (o : Owner) (p : Phase) : Owner :=
  {| limits := limits o; block_types := block_types o; fluid_types := fluid_types o; next_sub_tick := next_sub_tick o;
     chunks := chunks o; ready := ready o; block_index := block_index o; fluid_index := fluid_index o; phase := p;
     workspace := workspace o; scratch_limit := scratch_limit o; allocated_bytes := allocated_bytes o |}.
Definition with_workspace (o : Owner) (w : Workspace) : Owner :=
  {| limits := limits o; block_types := block_types o; fluid_types := fluid_types o; next_sub_tick := next_sub_tick o;
     chunks := chunks o; ready := ready o; block_index := block_index o; fluid_index := fluid_index o; phase := phase o;
     workspace := w; scratch_limit := scratch_limit o; allocated_bytes := allocated_bytes o |}.
Definition with_sub_tick (o : Owner) (n : Z) : Owner :=
  {| limits := limits o; block_types := block_types o; fluid_types := fluid_types o; next_sub_tick := n;
     chunks := chunks o; ready := ready o; block_index := block_index o; fluid_index := fluid_index o; phase := phase o;
     workspace := workspace o; scratch_limit := scratch_limit o; allocated_bytes := allocated_bytes o |}.
Definition with_allocated (o : Owner) (n : Z) : Owner :=
  {| limits := limits o; block_types := block_types o; fluid_types := fluid_types o; next_sub_tick := next_sub_tick o;
     chunks := chunks o; ready := ready o; block_index := block_index o; fluid_index := fluid_index o; phase := phase o;
     workspace := workspace o; scratch_limit := scratch_limit o; allocated_bytes := n |}.

(** [timeline_mut]: the index of a domain. *)
Definition timeline (o : Owner) (d : TickDomain) : SchedulingIndex :=
  match d with DBlock => block_index o | DFluid => fluid_index o end.
Definition with_timeline (o : Owner) (d : TickDomain) (i : SchedulingIndex) : Owner :=
  {| limits := limits o; block_types := block_types o; fluid_types := fluid_types o; next_sub_tick := next_sub_tick o;
     chunks := chunks o; ready := ready o;
     block_index := match d with DBlock => i | DFluid => block_index o end;
     fluid_index := match d with DBlock => fluid_index o | DFluid => i end;
     phase := phase o; workspace := workspace o; scratch_limit := scratch_limit o; allocated_bytes := allocated_bytes o |}.

Definition type_count (o : Owner) (d : TickDomain) : Z :=
  match d with DBlock => block_types o | DFluid => fluid_types o end.

(** ** Operations as state transformers *)

(** What a call returns: a value or a typed error, and the state either way. *)
Inductive result (A : Type) := Done (a : A) | Failed (e : TickError).
Arguments Done {A} a.
Arguments Failed {A} e.

Definition op (A : Type) : Type := Owner → outcome False (result A * Owner).

Definition op_ret {A} (a : A) : op A := λ o, Ok (Done a, o).
Definition op_bind {A B} (m : op A) (f : A → op B) : op B := λ o,
  '(r, o) ← m o;
  match r with Done a => f a o | Failed e => Ok (Failed e, o) end.
Declare Scope op_scope.
Delimit Scope op_scope with op.
Notation "'let*' x := m 'in' k" := (op_bind m (λ x, k)) (at level 200, x pattern, m at level 100, k at level 200) : op_scope.
Open Scope op_scope.

Definition get_owner : op Owner := λ o, Ok (Done o, o).
Definition set_owner (f : Owner → Owner) : op () := λ o, Ok (Done tt, f o).
Definition fail {A} (e : TickError) : op A := λ o, Ok (Failed e, o).
(** A computation without errors of its own, and one whose error is returned with [?]. *)
Definition run {A} (m : outcome False A) : op A := λ o, a ← m; Ok (Done a, o).
Definition try {A} (m : outcome TickError A) : op A := λ o,
  match m with Ok a => Ok (Done a, o) | Err e => Ok (Failed e, o) | Panic => Panic | NoFuel => NoFuel end.
(** [result.expect(..)]: an error is a panic. *)
Definition expect {A} (m : outcome TickError A) : op A := λ o,
  match m with Ok a => Ok (Done a, o) | Err _ => Panic | Panic => Panic | NoFuel => NoFuel end.
Definition expect_op {A} (m : op A) : op A := λ o,
  '(r, o) ← m o;
  match r with Done a => Ok (Done a, o) | Failed _ => Panic end.
(** [a - b] on [usize]. *)
Definition usub (a b : Z) : op Z := run (unwrap (checked_sub a b)).

(** ** Chunk queues *)

Definition empty_counts : CopyOutcome := {| added := 0; duplicates := 0; missing_containers := 0 |}.

Section queues.
Context `{Allocator} `{TickLayout}.

Definition queue_new (h : Hash) (cap rest : Z) : outcome TickError (ChunkQueue * Z) :=
  '(heap, rest) ← scheduled_new tick_size usize_size cap rest;
  '(ids, rest) ← ids_new idslot_size h cap rest;
  Ok ({| q_heap := heap; q_ids := ids; q_pending := None |}, rest).

Definition queue_pop (q : ChunkQueue) : outcome False (option ScheduledTick * ChunkQueue) :=
  '(tick, heap) ← scheduled_pop (q_heap q);
  match tick return outcome False (option ScheduledTick * ChunkQueue) with
  | None => Ok (None, {| q_heap := heap; q_ids := q_ids q; q_pending := q_pending q |})
  | Some tick =>
      ids ← ids_remove (q_ids q) (identity tick);
      Ok (Some tick, {| q_heap := heap; q_ids := ids; q_pending := q_pending q |})
  end.

Definition pending_len (q : ChunkQueue) : Z := match q_pending q with Some (l, _) => zlen l | None => 0 end.
Definition queue_bytes (q : ChunkQueue) : Z :=
  scheduled_bytes tick_size usize_size (q_heap q) + ids_bytes idslot_size (q_ids q) +
  match q_pending q with Some (_, cap) => cap * saved_size | None => 0 end.
Definition queue_count (q : ChunkQueue) : Z := Z.of_nat (scheduled_len (q_heap q)) + pending_len q.

Definition queue (c : ChunkQueues) (d : TickDomain) : ChunkQueue :=
  match d with DBlock => cq_blocks c | DFluid => cq_fluids c end.
Definition with_queue (c : ChunkQueues) (d : TickDomain) (q : ChunkQueue) : ChunkQueues :=
  {| cq_address := cq_address c; cq_registered := cq_registered c; cq_eligible := cq_eligible c;
     cq_blocks := match d with DBlock => q | DFluid => cq_blocks c end;
     cq_fluids := match d with DBlock => cq_fluids c | DFluid => q end |}.
Definition with_flags (c : ChunkQueues) (registered eligible : bool) : ChunkQueues :=
  {| cq_address := cq_address c; cq_registered := registered; cq_eligible := eligible;
     cq_blocks := cq_blocks c; cq_fluids := cq_fluids c |}.
Definition chunk_bytes (c : ChunkQueues) : Z := queue_bytes (cq_blocks c) + queue_bytes (cq_fluids c).
Definition queue_peek (c : ChunkQueues) (d : TickDomain) : option ScheduledTick := scheduled_peek (q_heap (queue c d)).

(** ** Addresses *)

Definition packed_chunk (a : ChunkAddress) : Z :=
  i_wrap 64 (Z.lor (Z.shiftl (u_wrap 32 (View.z a)) 32) (u_wrap 32 (View.x a))).
Definition unpacked_chunk (key : Z) : ChunkAddress :=
  {| View.x := i_wrap 32 key; View.z := i_wrap 32 (Z.shiftr (u_wrap 64 key) 32) |}.

(** The derived order of addresses: x, then z. *)
Definition address_key (a : ChunkAddress) : Z * Z := (View.x a, View.z a).
Definition find (cs : list ChunkQueues) (address : ChunkAddress) : nat + nat :=
  binary_search (λ c, key_cmp (address_key (cq_address c)) (address_key address)) cs.

(** [self.chunks[index]] *)
Definition chunk_at (index : nat) : op ChunkQueues := λ o, c ← unwrap (chunks o !! index); Ok (Done c, o).
Definition set_chunk (index : nat) (c : ChunkQueues) : op () := set_owner (λ o, with_chunks o (<[index := c]> (chunks o))).

Definition registered (address : ChunkAddress) : op (option nat) :=
  let* o := get_owner in
  match find (chunks o) address with
  | inr _ => op_ret None
  | inl index => let* c := chunk_at index in op_ret (if cq_registered c then Some index else None)
  end.
(** [self.registered(address)?] *)
Definition registered_or_fail (address : ChunkAddress) : op nat :=
  let* found := registered address in
  match found with Some index => op_ret index | None => fail MissingChunk end.

(** [self.timeline_mut(domain).put(key, time).expect(..)] *)
Definition timeline_put (d : TickDomain) (key time : Z) : op () :=
  let* o := get_owner in
  let* i := expect (TickIndex.put (timeline o d) key time) in
  set_owner (λ o, with_timeline o d i).

Definition update_head (address : ChunkAddress) (d : TickDomain) : op () :=
  let* found := registered address in
  match found with
  | None => op_ret tt
  | Some index =>
      let* c := chunk_at index in
      match queue_peek c d with
      | Some tick => timeline_put d (packed_chunk address) (trigger_tick tick)
      | None => op_ret tt
      end
  end.

(** ** Construction *)

Definition owner_new (h : Hash * Hash) (blocks fluids : Z) (l : TickLimits) : outcome TickError Owner :=
  if (blocks =? 0) || (fluids =? 0) || (max_chunks l =? 0) || (queued_per_chunk l =? 0) ||
     (selected_per_phase l =? 0) || (MAX_SCHEDULED_TICKS_PER_PHASE <? selected_per_phase l)
  then Err InvalidLimits
  else
    '(chunks_cap, rest) ← reserved_vec chunks_size (max_chunks l) (allocation_bytes l);
    '(ready, rest) ← ready_new ready_size (max_chunks l) rest;
    block_index ← index_new slot_size (max_chunks l) rest;
    rest ← unwrap (checked_sub rest (index_bytes slot_size block_index));
    fluid_index ← index_new slot_size (max_chunks l) rest;
    rest ← unwrap (checked_sub rest (index_bytes slot_size fluid_index));
    '(selected_cap, rest) ← reserved_vec tick_size (selected_per_phase l) rest;
    '(ids, rest) ← ids_new idslot_size h.1 (selected_per_phase l) rest;
    '(counts, rest) ← rc_new count_size usize_size h.2 (selected_per_phase l) rest;
    scratch_limit ← ok_or (queued ← checked_mul (max_chunks l) (queued_per_chunk l);
                           checked_add queued (selected_per_phase l)) InvalidLimits;
    allocated ← unwrap (checked_sub (allocation_bytes l) rest);
    Ok {| limits := l; block_types := blocks; fluid_types := fluids; next_sub_tick := 0; chunks := []; ready := ready;
          block_index := block_index; fluid_index := fluid_index;
          phase := {| selected := []; selected_ids := ids; remaining_ids := counts; cursor := 0; active := None |};
          workspace := {| scratch := []; scratch_cap := 0; copy_ids := None; copy_capacity := 0;
                          copy_counts := []; copy_counts_cap := 0 |};
          scratch_limit := scratch_limit; allocated_bytes := allocated |}.

(** ** Chunks coming and going *)

(** The budget that is left, and what remains of it after a call. *)
Definition budget : op Z := let* o := get_owner in usub (allocation_bytes (limits o)) (allocated_bytes o).
Definition charge (rest : Z) : op () :=
  let* o := get_owner in
  let* n := usub (allocation_bytes (limits o)) rest in
  set_owner (λ o, with_allocated o n).
Definition release (bytes : Z) : op () :=
  let* o := get_owner in
  let* n := usub (allocated_bytes o) bytes in
  set_owner (λ o, with_allocated o n).

Definition insert_chunk (index : nat) (c : ChunkQueues) : op () :=
  set_owner (λ o, with_chunks o (take index (chunks o) ++ c :: drop index (chunks o))).

Definition register_chunk (h : Hash * Hash) (address : ChunkAddress) (eligible : bool) : op () :=
  let* o := get_owner in
  let* _ := match find (chunks o) address with
    | inl index =>
        let* c := chunk_at index in
        if cq_registered c then fail AlreadyRegistered
        else set_chunk index (with_flags c true eligible)
    | inr index =>
        if zlen (chunks o) =? max_chunks (limits o) then fail ChunkLimit
        else
          let* rest := budget in
          let* (blocks, rest) := try (queue_new h.1 (queued_per_chunk (limits o)) rest) in
          let* (fluids, rest) := try (queue_new h.2 (queued_per_chunk (limits o)) rest) in
          let* _ := insert_chunk index {| cq_address := address; cq_registered := true; cq_eligible := eligible;
                                          cq_blocks := blocks; cq_fluids := fluids |} in
          charge rest
    end in
  let* _ := update_head address DBlock in
  update_head address DFluid.

(** The saved entries that lie in the chunk. *)
Definition in_chunk (address : ChunkAddress) (t : SavedTick) : bool := bool_decide (chunk_of (saved_position t) = address).
Definition saved_identity (t : SavedTick) : Identity := {| id_position := saved_position t; id_type := saved_type t |}.

Fixpoint insert_all (ids : Identities) (l : list Identity) : outcome False Identities :=
  match l with
  | [] => Ok ids
  | i :: l => ids ← ids_insert ids i; insert_all ids l
  end.

Definition i32_max : Z := 2 ^ 31 - 1.

Definition load_pending_chunk (h : Hash * Hash) (address : ChunkAddress) (blocks fluids : list SavedTick) : op () :=
  let* o := get_owner in
  match find (chunks o) address with
  | inl _ => fail ChunkAlreadyPresent
  | inr index =>
      if zlen (chunks o) =? max_chunks (limits o) then fail ChunkLimit
      else
        let inside_blocks := filter (λ t, in_chunk address t = true) blocks in
        let inside_fluids := filter (λ t, in_chunk address t = true) fluids in
        let block_count := zlen inside_blocks in
        let fluid_count := zlen inside_fluids in
        if (queued_per_chunk (limits o) <? block_count) || (queued_per_chunk (limits o) <? fluid_count) ||
           (i32_max <? block_count) || (i32_max <? fluid_count)
        then fail QueueFull
        else if existsb (λ t, block_types o <=? saved_type t) inside_blocks ||
                existsb (λ t, fluid_types o <=? saved_type t) inside_fluids
        then fail InvalidType
        else
          let* rest := budget in
          let* (block_queue, rest) := try (queue_new h.1 (queued_per_chunk (limits o)) rest) in
          let* (fluid_queue, rest) := try (queue_new h.2 (queued_per_chunk (limits o)) rest) in
          let* (block_cap, rest) := try (reserved_vec saved_size block_count rest) in
          let* (fluid_cap, rest) := try (reserved_vec saved_size fluid_count rest) in
          let* block_ids := run (insert_all (q_ids block_queue) (saved_identity <$> inside_blocks)) in
          let* fluid_ids := run (insert_all (q_ids fluid_queue) (saved_identity <$> inside_fluids)) in
          let* _ := insert_chunk index
            {| cq_address := address; cq_registered := false; cq_eligible := false;
               cq_blocks := {| q_heap := q_heap block_queue; q_ids := block_ids; q_pending := Some (inside_blocks, block_cap) |};
               cq_fluids := {| q_heap := q_heap fluid_queue; q_ids := fluid_ids; q_pending := Some (inside_fluids, fluid_cap) |} |} in
          charge rest
  end.
(** Each saved entry becomes a live tick; a new first tick is indexed. *)
Fixpoint unpack_ticks (index : nat) (address : ChunkAddress) (d : TickDomain) (game_time order : Z) (l : list SavedTick) : op () :=
  match l with
  | [] => op_ret tt
  | saved :: l =>
      let tick := {| position := saved_position saved; type_id := saved_type saved;
                     trigger_tick := i_wrap 64 (game_time + delay saved);
                     priority := saved_priority saved; sub_tick_order := order |} in
      let* c := chunk_at index in
      let* heap := run (scheduled_push (q_heap (queue c d)) tick) in
      let c := with_queue c d {| q_heap := heap; q_ids := q_ids (queue c d); q_pending := q_pending (queue c d) |} in
      let* _ := set_chunk index c in
      let* _ := (if cq_registered c && bool_decide (queue_peek c d = Some tick)
                 then timeline_put d (packed_chunk address) (trigger_tick tick) else op_ret tt) in
      unpack_ticks index address d game_time (order + 1) l
  end.

(** One domain of [unpack_chunk]. *)
Definition unpack_domain (index : nat) (address : ChunkAddress) (game_time : Z) (d : TickDomain) : op () :=
  let* c := chunk_at index in
  let q := queue c d in
  match q_pending q with
  | None => op_ret tt
  | Some (pending, cap) =>
      let* _ := set_chunk index (with_queue c d {| q_heap := q_heap q; q_ids := q_ids q; q_pending := None |}) in
      let* _ := unpack_ticks index address d game_time (- zlen pending) pending in
      release (cap * saved_size)
  end.

Definition unpack_chunk (address : ChunkAddress) (game_time : Z) : op () :=
  let* o := get_owner in
  match find (chunks o) address with
  | inr _ => fail MissingChunk
  | inl index =>
      let* _ := unpack_domain index address game_time DBlock in
      unpack_domain index address game_time DFluid
  end.

Definition set_eligible (address : ChunkAddress) (eligible : bool) : op () :=
  let* index := registered_or_fail address in
  let* c := chunk_at index in
  set_chunk index (with_flags c (cq_registered c) eligible).

(** [self.block_index.remove(key)] and its twin. *)
Definition timeline_remove (d : TickDomain) (key : Z) : op () :=
  let* o := get_owner in
  let* (_, i) := run (TickIndex.remove (timeline o d) key) in
  set_owner (λ o, with_timeline o d i).

Definition detach_chunk (address : ChunkAddress) : op () :=
  let* index := registered_or_fail address in
  let* c := chunk_at index in
  let* _ := set_chunk index (with_flags c false (cq_eligible c)) in
  let* _ := timeline_remove DBlock (packed_chunk address) in
  timeline_remove DFluid (packed_chunk address).

Definition discard_detached_chunk (address : ChunkAddress) : op () :=
  let* o := get_owner in
  match find (chunks o) address with
  | inr _ => fail MissingChunk
  | inl index =>
      let* c := chunk_at index in
      if cq_registered c then fail AlreadyRegistered
      else
        let* _ := release (chunk_bytes c) in
        set_owner (λ o, with_chunks o (delete index (chunks o)))
  end.

(** ** Scheduling *)

Definition schedule_created (d : TickDomain) (index : nat) (tick : ScheduledTick) : op ScheduleOutcome :=
  let* o := get_owner in
  let* c := chunk_at index in
  let q := queue c d in
  let* known := run (ids_contains (q_ids q) (identity tick)) in
  if (known : bool) then op_ret Duplicate
  else if queue_count q =? queued_per_chunk (limits o) then fail QueueFull
  else
    let* ids := run (ids_insert (q_ids q) (identity tick)) in
    let* heap := run (scheduled_push (q_heap q) tick) in
    let c := with_queue c d {| q_heap := heap; q_ids := ids; q_pending := q_pending q |} in
    let* _ := set_chunk index c in
    let* _ := (if bool_decide (queue_peek c d = Some tick)
               then timeline_put d (packed_chunk (cq_address c)) (trigger_tick tick) else op_ret tt) in
    op_ret Added.

Definition schedule (d : TickDomain) (pos : TickPosition) (type game_time delay : Z) (prio : TickPriority) : op ScheduleOutcome :=
  let* o := get_owner in
  if type_count o d <=? type then fail InvalidType
  else
    let order := next_sub_tick o in
    let* _ := set_owner (λ o, with_sub_tick o (i_wrap 64 (next_sub_tick o + 1))) in
    let* found := registered (chunk_of pos) in
    match found with
    | None => op_ret MissingContainer
    | Some index =>
        schedule_created d index
          {| position := pos; type_id := type; trigger_tick := i_wrap 64 (game_time + delay);
             priority := prio; sub_tick_order := order |}
    end.

Definition has_scheduled (d : TickDomain) (pos : TickPosition) (type : Z) : op bool :=
  let* found := registered (chunk_of pos) in
  match found with
  | None => op_ret false
  | Some index =>
      let* c := chunk_at index in
      run (ids_contains (q_ids (queue c d)) {| id_position := pos; id_type := type |})
  end.

Definition queued_count (o : Owner) (d : TickDomain) : Z :=
  fold_right (λ c n, (if cq_registered c then queue_count (queue c d) else 0) + n) 0 (chunks o).

(** ** Phases *)

Definition with_selection (p : Phase) (l : list ScheduledTick) (counts : RemainingCounts) : Phase :=
  {| selected := l; selected_ids := selected_ids p; remaining_ids := counts; cursor := cursor p; active := active p |}.

(** Moves the due, eligible entries of the index to the ready heap. *)
Definition scan_entry (d : TickDomain) (game_time key next_time : Z) : op () :=
  if game_time <? next_time then op_ret tt
  else
    let remove_current :=
      let* o := get_owner in
      let* i := run (TickIndex.remove_current (timeline o d)) in
      set_owner (λ o, with_timeline o d i) in
    let* found := registered (unpacked_chunk key) in
    match found with
    | None => remove_current
    | Some index =>
        let* c := chunk_at index in
        match queue_peek c d with
        | None => remove_current
        | Some tick =>
            if game_time <? trigger_tick tick then timeline_put d key (trigger_tick tick)
            else if cq_eligible c then
              let* _ := remove_current in
              let* o := get_owner in
              let* h := run (ready_push (ready o)
                {| ready_index := index; ready_priority := priority tick; ready_sub_order := sub_tick_order tick |}) in
              set_owner (λ o, with_ready o h)
            else op_ret tt
        end
    end.

Fixpoint scan_timeline (fuel : nat) (d : TickDomain) (game_time : Z) : op () :=
  match fuel with
  | O => λ _, NoFuel
  | S fuel' =>
      let* o := get_owner in
      let* (entry, i) := run (TickIndex.next_entry (timeline o d)) in
      let* _ := set_owner (λ o, with_timeline o d i) in
      match entry with
      | None => op_ret tt
      | Some (key, next_time) =>
          let* _ := scan_entry d game_time key next_time in
          scan_timeline fuel' d game_time
      end
  end.

(** [(a.priority, a.sub_order) > (b.priority, b.sub_order)] *)
Definition order_gt (a b : Z * Z) : bool := (b.1 <? a.1) || ((b.1 =? a.1) && (b.2 <? a.2)).

(** Pops ticks of one chunk while it stays the first. *)
Fixpoint drain_chunk (fuel : nat) (d : TickDomain) (game_time max_ticks : Z) (index : nat) : op () :=
  match fuel with
  | O => λ _, NoFuel
  | S fuel' =>
      let* c := chunk_at index in
      let* (popped, q) := run (queue_pop (queue c d)) in
      let* tick := run (unwrap popped) in
      let* _ := set_chunk index (with_queue c d q) in
      let* o := get_owner in
      let* counts := run (rc_add (remaining_ids (phase o)) (identity tick)) in
      let* _ := set_owner (λ o, with_phase o (with_selection (phase o) (selected (phase o) ++ [tick]) counts)) in
      let* o := get_owner in
      if zlen (selected (phase o)) =? max_ticks then op_ret tt
      else
        match scheduled_peek (q_heap q) with
        | None => op_ret tt
        | Some next =>
            if game_time <? trigger_tick next then op_ret tt
            else if match heap_peek (ready o) with
                    | Some other => order_gt (within_tick next) (priority_value (ready_priority other), ready_sub_order other)
                    | None => false
                    end
            then op_ret tt
            else drain_chunk fuel' d game_time max_ticks index
        end
  end.

(** Where the drained chunk goes: back to the ready heap, or to the index. *)
Definition requeue (d : TickDomain) (game_time max_ticks : Z) (index : nat) : op () :=
  let* c := chunk_at index in
  match queue_peek c d with
  | None => op_ret tt
  | Some tick =>
      let* o := get_owner in
      if (trigger_tick tick <=? game_time) && (zlen (selected (phase o)) <? max_ticks) then
        let* h := run (ready_push (ready o)
          {| ready_index := index; ready_priority := priority tick; ready_sub_order := sub_tick_order tick |}) in
        set_owner (λ o, with_ready o h)
      else timeline_put d (packed_chunk (cq_address c)) (trigger_tick tick)
  end.

Fixpoint collect (fuel : nat) (d : TickDomain) (game_time max_ticks : Z) : op () :=
  match fuel with
  | O => λ _, NoFuel
  | S fuel' =>
      let* o := get_owner in
      if zlen (selected (phase o)) <? max_ticks then
        let* (candidate, h) := run (ready_pop (ready o)) in
        let* _ := set_owner (λ o, with_ready o h) in
        match candidate with
        | None => op_ret tt
        | Some r =>
            let* _ := drain_chunk (S (Z.to_nat max_ticks)) d game_time max_ticks (ready_index r) in
            let* _ := requeue d game_time max_ticks (ready_index r) in
            collect fuel' d game_time max_ticks
        end
      else op_ret tt
  end.

(** The chunks left in the ready heap go back to the index, in array order. *)
Fixpoint reinsert_ready (d : TickDomain) (l : list ReadyChunk) : op () :=
  match l with
  | [] => op_ret tt
  | r :: l =>
      let* c := chunk_at (ready_index r) in
      let* tick := run (unwrap (queue_peek c d)) in
      let* _ := timeline_put d (packed_chunk (cq_address c)) (trigger_tick tick) in
      reinsert_ready d l
  end.

Definition begin_phase (d : TickDomain) (game_time max_ticks : Z) : op Z :=
  let* o := get_owner in
  match active (phase o) with
  | Some _ => fail PhaseActive
  | None =>
      if selected_per_phase (limits o) <? max_ticks then fail PhaseLimit
      else
        let* _ := set_owner (λ o, with_phase o
          {| selected := selected (phase o); selected_ids := selected_ids (phase o); remaining_ids := remaining_ids (phase o);
             cursor := cursor (phase o); active := Some d |}) in
        let* i := run (TickIndex.begin_scan (timeline o d)) in
        let* _ := set_owner (λ o, with_timeline o d i) in
        let* _ := scan_timeline (S (TickIndex.len i)) d game_time in
        let* o := get_owner in
        let* i := run (TickIndex.finish_scan (timeline o d)) in
        let* _ := set_owner (λ o, with_timeline o d i) in
        let* _ := collect (S (Z.to_nat max_ticks)) d game_time max_ticks in
        let* o := get_owner in
        let* _ := reinsert_ready d (TickHeap.values (ready o)) in
        let* _ := set_owner (λ o, with_ready o (ready_clear (ready o))) in
        let* o := get_owner in
        op_ret (zlen (selected (phase o)))
  end.

Definition with_selected_ids (p : Phase) (ids : Identities) : Phase :=
  {| selected := selected p; selected_ids := ids; remaining_ids := remaining_ids p; cursor := cursor p; active := active p |}.

Definition will_tick_this_phase (d : TickDomain) (pos : TickPosition) (type : Z) : op bool :=
  let* o := get_owner in
  if bool_decide (active (phase o) = Some d) then
    let p := phase o in
    let* ids := (if (Nat.eqb (id_count (selected_ids p)) 0) && (Z.of_nat (cursor p) <? zlen (selected p))
                 then run (insert_all (selected_ids p) (rc_identities (remaining_ids p)))
                 else op_ret (selected_ids p)) in
    let* _ := set_owner (λ o, with_phase o (with_selected_ids p ids)) in
    run (ids_contains ids {| id_position := pos; id_type := type |})
  else op_ret false.

Definition next_due : op (option ScheduledTick) :=
  let* o := get_owner in
  let p := phase o in
  match active p with
  | None => fail NoActivePhase
  | Some _ =>
      match selected p !! cursor p with
      | None => op_ret None
      | Some tick =>
          let* counts := run (rc_remove (remaining_ids p) (identity tick)) in
          let* ids := run (ids_remove (selected_ids p) (identity tick)) in
          let* _ := set_owner (λ o, with_phase o
            {| selected := selected p; selected_ids := ids; remaining_ids := counts; cursor := S (cursor p); active := active p |}) in
          op_ret (Some tick)
      end
  end.

Definition finish_phase : op () :=
  let* o := get_owner in
  let p := phase o in
  match active p with
  | None => fail NoActivePhase
  | Some _ =>
      if bool_decide (cursor p = length (selected p)) then
        set_owner (λ o, with_phase o
          {| selected := []; selected_ids := ids_clear (selected_ids p); remaining_ids := rc_clear (remaining_ids p);
             cursor := 0; active := None |})
      else fail UnconsumedTicks
  end.
(** ** Area operations *)

(** The predicate of [clear_area]: a tick in the area leaves the identity set. *)
Definition clear_predicate (b : TickBounds) (tick : ScheduledTick) (ids : Identities) : outcome False (bool * Identities) :=
  if bounds_contain b (position tick) then ids ← ids_remove ids (identity tick); Ok (true, ids)
  else Ok (false, ids).

(** One chunk of [clear_area]: the number of ticks removed. *)
Definition clear_chunk (d : TickDomain) (b : TickBounds) (index : nat) : op Z :=
  let* c := chunk_at index in
  if negb (cq_registered c) || negb (bounds_contain_chunk b (cq_address c)) then op_ret 0
  else
    let q := queue c d in
    let old_head := queue_peek c d in
    let* (n, heap, ids) := run (scheduled_remove_if (clear_predicate b) (q_heap q) (q_ids q)) in
    let c := with_queue c d {| q_heap := heap; q_ids := ids; q_pending := q_pending q |} in
    let* _ := set_chunk index c in
    let new_head := queue_peek c d in
    let* _ := (if bool_decide (old_head = new_head) then op_ret tt
               else match new_head with
                    | Some tick => timeline_put d (packed_chunk (cq_address c)) (trigger_tick tick)
                    | None => timeline_remove d (packed_chunk (cq_address c))
                    end) in
    op_ret (Z.of_nat n).

Fixpoint clear_chunks (d : TickDomain) (b : TickBounds) (l : list nat) : op Z :=
  match l with
  | [] => op_ret 0
  | index :: l => let* n := clear_chunk d b index in let* m := clear_chunks d b l in op_ret (n + m)
  end.

(** [self.selected.retain(..)]: what stays, the cursor, the counts and the
    number removed; [position] counts the entries seen. *)
Fixpoint retain_selected (b : TickBounds) (original_cursor position_ : nat) (l : list ScheduledTick)
    (cursor : nat) (counts : RemainingCounts) : outcome False (list ScheduledTick * nat * RemainingCounts * Z) :=
  match l with
  | [] => Ok ([], cursor, counts, 0)
  | tick :: l =>
      if negb (bounds_contain b (position tick)) then
        '(kept, cursor, counts, n) ← retain_selected b original_cursor (S position_) l cursor counts;
        Ok (tick :: kept, cursor, counts, n)
      else
        '(cursor, counts) ← (if (position_ <? original_cursor)%nat
                             then _ ← assert_that (0 <? cursor)%nat; Ok ((cursor - 1)%nat, counts)
                             else counts ← rc_remove counts (identity tick); Ok (cursor, counts));
        '(kept, cursor, counts, n) ← retain_selected b original_cursor (S position_) l cursor counts;
        Ok (kept, cursor, counts, n + 1)
  end.

Definition clear_area (d : TickDomain) (b : TickBounds) : op Z :=
  let* _ := try (bounds_validate b) in
  let* o := get_owner in
  let* removed := clear_chunks d b (seq 0 (length (chunks o))) in
  let* o := get_owner in
  let p := phase o in
  if bool_decide (active p = Some d) then
    let* (kept, cursor, counts, n) := run (retain_selected b (cursor p) 0 (selected p) (cursor p) (remaining_ids p)) in
    let* _ := set_owner (λ o, with_phase o
      {| selected := kept; selected_ids := selected_ids p; remaining_ids := counts; cursor := cursor; active := active p |}) in
    op_ret (removed + n)
  else op_ret removed.

(** ** The operation workspace *)

(** What a source contributes to a copy: its selection, then its queues. *)
Definition source_selected (o : Owner) (d : TickDomain) : list ScheduledTick :=
  if bool_decide (active (phase o) = Some d) then selected (phase o) else [].
Definition in_area (b : TickBounds) (l : list ScheduledTick) : list ScheduledTick :=
  filter (λ t, bounds_contain b (position t) = true) l.
Definition source_chunks (b : TickBounds) (cs : list ChunkQueues) : list ChunkQueues :=
  filter (λ c, cq_registered c && bounds_contain_chunk b (cq_address c) = true) cs.

Fixpoint sum_counts (l : list Z) : option Z :=
  match l with
  | [] => Some 0
  | n :: l => total ← sum_counts l; checked_add n total
  end.

Definition snapshot_count (cs : list ChunkQueues) (sel : list ScheduledTick) (d : TickDomain) (b : TickBounds) : outcome TickError Z :=
  queued ← ok_or (sum_counts ((λ c, zlen (in_area b (scheduled_items (q_heap (queue c d))))) <$> source_chunks b cs)) AllocationBudget;
  ok_or (checked_add (zlen (in_area b sel)) queued) AllocationBudget.

(** Pushes numbered snapshot entries; [cap] is the capacity of the output. *)
Definition snapshot_all (l : list ScheduledTick) : list SnapshotTick :=
  imap (λ i t, {| st_tick := t; st_sequence := i; st_admitted := false |}) l.

Definition gather_snapshot (cs : list ChunkQueues) (sel : list ScheduledTick) (d : TickDomain) (b : TickBounds) (cap : Z)
    : outcome TickError (list SnapshotTick) :=
  needed ← snapshot_count cs sel d b;
  if cap <? needed then Err AllocationBudget
  else Ok (snapshot_all (in_area b sel ++ (source_chunks b cs ≫= λ c, in_area b (scheduled_items (q_heap (queue c d)))))).

Definition workspace_bytes (w : Workspace) : Z :=
  scratch_cap w * snapshot_size + match copy_ids w with Some ids => ids_bytes idslot_size ids | None => 0 end +
  copy_counts_cap w * usize_size.

Definition release_operation_scratch : op () :=
  let* o := get_owner in
  let* _ := set_owner (λ o, with_workspace o {| scratch := []; scratch_cap := 0; copy_ids := None; copy_capacity := 0;
                                                copy_counts := []; copy_counts_cap := 0 |}) in
  release (workspace_bytes (workspace o)).

(** [Vec::resize(n, 0)] *)
Definition resize (l : list Z) (n : nat) : list Z := take n l ++ replicate (n - length l) 0.

Definition ensure_operation_scratch (h : Hash) (needed : Z) (copying : bool) : op () :=
  let* o := get_owner in
  let w := workspace o in
  if scratch_limit o <? needed then fail AllocationBudget
  else if needed =? 0 then op_ret tt
  else
    let* rest := budget in
    let* (replacement, rest) :=
      (if scratch_cap w <? needed
       then let* (c, rest) := try (reserved_vec snapshot_size needed rest) in op_ret (Some c, rest)
       else op_ret (None, rest)) in
    let* (identities, rest) :=
      (if copying && (copy_capacity w <? needed)
       then let* (ids, rest) := try (ids_new idslot_size h needed rest) in op_ret (Some ids, rest)
       else op_ret (None, rest)) in
    let* (counts, rest) :=
      (if copying && (copy_counts_cap w <? zlen (chunks o))
       then let* (c, rest) := try (reserved_vec usize_size (zlen (chunks o)) rest) in op_ret (Some c, rest)
       else op_ret (None, rest)) in
    let freed :=
      match replacement with Some _ => scratch_cap w * snapshot_size | None => 0 end +
      match identities with
      | Some _ => match copy_ids w with Some ids => ids_bytes idslot_size ids | None => 0 end
      | None => 0
      end +
      match counts with Some _ => copy_counts_cap w * usize_size | None => 0 end in
    let w :=
      {| scratch := match replacement with Some _ => [] | None => scratch w end;
         scratch_cap := match replacement with Some c => c | None => scratch_cap w end;
         copy_ids := match identities with Some ids => Some ids | None => copy_ids w end;
         copy_capacity := match identities with Some _ => needed | None => copy_capacity w end;
         copy_counts := let l := match counts with Some _ => [] | None => copy_counts w end in
                        if copying then resize l (length (chunks o)) else l;
         copy_counts_cap := match counts with Some c => c | None => copy_counts_cap w end |} in
    let* _ := set_owner (λ o, with_workspace o w) in
    let* used := usub (allocation_bytes (limits o)) rest in
    let* n := usub used freed in
    set_owner (λ o, with_allocated o n).

(** ** Packing *)

Definition with_scratch (w : Workspace) (l : list SnapshotTick) : Workspace :=
  {| scratch := l; scratch_cap := scratch_cap w; copy_ids := copy_ids w; copy_capacity := copy_capacity w;
     copy_counts := copy_counts w; copy_counts_cap := copy_counts_cap w |}.

(** The key of the sort: sub-order, then position in the heap array. *)
Definition snapshot_le (a b : SnapshotTick) : Prop :=
  sub_tick_order (st_tick a) < sub_tick_order (st_tick b) ∨
  sub_tick_order (st_tick a) = sub_tick_order (st_tick b) ∧ (st_sequence a ≤ st_sequence b)%nat.
#[export] Instance snapshot_le_dec : RelDecision snapshot_le.
Proof. intros a b. unfold snapshot_le. apply _. Defined.

Definition saved_of (game_time : Z) (t : ScheduledTick) : SavedTick :=
  {| saved_position := position t; saved_type := type_id t;
     delay := i_wrap 32 (i_wrap 64 (trigger_tick t - game_time)); saved_priority := priority t |}.

(** [room] is the spare capacity of the output; the result is what is appended. *)
Definition pack_chunk (h : Hash) (address : ChunkAddress) (d : TickDomain) (game_time room : Z) : op (Z * list SavedTick) :=
  let* o := get_owner in
  match find (chunks o) address with
  | inr _ => fail MissingChunk
  | inl index =>
      let* c := chunk_at index in
      let count := queue_count (queue c d) in
      if room <? count then fail OutputCapacity
      else
        let* _ := ensure_operation_scratch h (Z.of_nat (scheduled_len (q_heap (queue c d)))) false in
        let sorted := merge_sort snapshot_le (snapshot_all (scheduled_items (q_heap (queue c d)))) in
        let output := match q_pending (queue c d) with Some (l, _) => l | None => [] end ++
                      ((λ e, saved_of game_time (st_tick e)) <$> sorted) in
        let* _ := set_owner (λ o, with_workspace o (with_scratch (workspace o) [])) in
        op_ret (count, output)
  end.

(** ** Copying *)

Definition shifted (offset : TickPosition) (minimum maximum : Z) (t : ScheduledTick) : ScheduledTick :=
  {| position := {| tx := i_wrap 32 (tx (position t) + tx offset); ty := i_wrap 32 (ty (position t) + ty offset);
                    tz := i_wrap 32 (tz (position t) + tz offset) |};
     type_id := type_id t; trigger_tick := trigger_tick t; priority := priority t;
     sub_tick_order := i_wrap 64 (i_wrap 64 (i_wrap 64 (sub_tick_order t - minimum) + maximum) + 1) |}.

(** Admission of one snapshot entry: what the entry becomes, the workspace and
    the running outcome, or the error that stops the batch. *)
Definition admit_entry (cs : list ChunkQueues) (l : TickLimits) (types : Z) (d : TickDomain) (tick : ScheduledTick)
    (ids : Identities) (counts : list Z) (out : CopyOutcome)
    : outcome False (result (bool * Identities * list Z * CopyOutcome)) :=
  let missing := Done (false, ids, counts,
    {| added := added out; duplicates := duplicates out; missing_containers := missing_containers out + 1 |}) in
  match find cs (chunk_of (position tick)) with
  | inr _ => Ok missing
  | inl index =>
      c ← unwrap (cs !! index);
      if negb (cq_registered c) then Ok missing
      else if types <=? type_id tick then Ok (Failed InvalidType)
      else
        let q := queue c d in
        queued ← ids_contains (q_ids q) (identity tick);
        copied ← (if (queued : bool) then Ok true else ids_contains ids (identity tick));
        if (copied : bool) then
          Ok (Done (false, ids, counts,
            {| added := added out; duplicates := duplicates out + 1; missing_containers := missing_containers out |}))
        else
          n ← unwrap (counts !! index);
          if queued_per_chunk l <=? queue_count q + n then Ok (Failed QueueFull)
          else
            ids ← ids_insert ids (identity tick);
            Ok (Done (true, ids, <[index := n + 1]> counts,
              {| added := added out + 1; duplicates := duplicates out; missing_containers := missing_containers out |}))
  end.

(** The admission loop: the rewritten entries, whether or not it stops. *)
Fixpoint admit_loop (cs : list ChunkQueues) (l : TickLimits) (types : Z) (d : TickDomain)
    (offset : TickPosition) (minimum maximum : Z) (entries : list SnapshotTick)
    (ids : Identities) (counts : list Z) (out : CopyOutcome)
    : outcome False (list SnapshotTick * Identities * list Z * result CopyOutcome) :=
  match entries with
  | [] => Ok ([], ids, counts, Done out)
  | entry :: rest =>
      let tick := shifted offset minimum maximum (st_tick entry) in
      r ← admit_entry cs l types d tick ids counts out;
      match r return outcome False (list SnapshotTick * Identities * list Z * result CopyOutcome) with
      | Failed e => Ok ({| st_tick := tick; st_sequence := st_sequence entry; st_admitted := st_admitted entry |} :: rest, ids, counts, Failed e)
      | Done (admitted, ids, counts, out) =>
          '(done, ids, counts, r) ← admit_loop cs l types d offset minimum maximum rest ids counts out;
          Ok ({| st_tick := tick; st_sequence := st_sequence entry; st_admitted := st_admitted entry || admitted |} :: done, ids, counts, r)
      end
  end.

Definition with_copy (w : Workspace) (l : list SnapshotTick) (ids : Identities) (counts : list Z) : Workspace :=
  {| scratch := l; scratch_cap := scratch_cap w; copy_ids := Some ids; copy_capacity := copy_capacity w;
     copy_counts := counts; copy_counts_cap := copy_counts_cap w |}.

(** The second loop of [commit_copy]. *)
Fixpoint schedule_admitted (d : TickDomain) (entries : list SnapshotTick) : op () :=
  match entries with
  | [] => op_ret tt
  | entry :: rest =>
      let* _ := (if st_admitted entry then
                   let* index := expect_op (registered_or_fail (chunk_of (position (st_tick entry)))) in
                   let* r := expect_op (schedule_created d index (st_tick entry)) in
                   match r with Added => op_ret tt | _ => run Panic end
                 else op_ret tt) in
      schedule_admitted d rest
  end.

Definition commit_copy (d : TickDomain) (offset : TickPosition) : op CopyOutcome :=
  let* o := get_owner in
  let orders := (λ e, sub_tick_order (st_tick e)) <$> scratch (workspace o) in
  match orders with
  | [] => op_ret empty_counts
  | first :: rest =>
      let minimum := fold_left Z.min rest first in
      let maximum := fold_left Z.max rest first in
      let* ids := run (unwrap (copy_ids (workspace o))) in
      let zeros := (λ _, 0) <$> copy_counts (workspace o) in
      let* (entries, ids, counts, r) := run (admit_loop (chunks o) (limits o) (type_count o d) d offset minimum maximum
                                         (scratch (workspace o)) (ids_clear ids) zeros empty_counts) in
      let* _ := set_owner (λ o, with_workspace o (with_copy (workspace o) entries ids counts)) in
      match r with
      | Failed e => fail e
      | Done out =>
          let* _ := schedule_admitted d entries in
          let* _ := set_owner (λ o, with_workspace o (with_copy (workspace o) [] (ids_clear ids) counts)) in
          op_ret out
      end
  end.

(** The snapshot of [source], which is the owner itself or another one. *)
Definition copy_from (h : Hash) (source : Owner) (d : TickDomain) (b : TickBounds) (offset : TickPosition) : op CopyOutcome :=
  let* needed := try (snapshot_count (chunks source) (source_selected source d) d b) in
  let* _ := ensure_operation_scratch h needed true in
  let* o := get_owner in
  let* _ := set_owner (λ o, with_workspace o (with_scratch (workspace o) [])) in
  let* snapshot := try (gather_snapshot (chunks source) (source_selected source d) d b (scratch_cap (workspace o))) in
  let* _ := set_owner (λ o, with_workspace o (with_scratch (workspace o) snapshot)) in
  commit_copy d offset.

Definition copy_area (h : Hash) (d : TickDomain) (b : TickBounds) (offset : TickPosition) : op CopyOutcome :=
  let* _ := try (bounds_validate b) in
  let* o := get_owner in
  copy_from h o d b offset.

Definition copy_area_from (h : Hash) (source : Owner) (d : TickDomain) (b : TickBounds) (offset : TickPosition) : op CopyOutcome :=
  let* _ := try (bounds_validate b) in
  copy_from h source d b offset.
End queues.
