(* ===== verification/TickOwnerInv.v ===== *)
(** * The scheduled-tick owner: invariant and operations outside phases

    A weakest precondition for the owner's operations, the invariant that ties
    chunk queues, identity sets, the two timelines, the selection and the memory
    account together, and its preservation by every operation but the phase and
    area operations, which have files of their own. *)

From stdpp Require Import list sets fin_maps gmap sorting.
From S2P Require Import Prelude.
From S2P Require Import Sorted.
From S2P Require Import View.
From S2P Require Import TickTypes.
From S2P Require Import TickHeap.
From S2P Require Import TickTables.
From S2P Require Import TickIndex.
From S2P Require Import TickOwner.
Local Open Scope Z_scope.
Local Open Scope op_scope.

(** ** Weakest preconditions *)

(** [m] does not panic from [o], and [Q] holds of what it returns. *)
Definition wp {A} (m : op A) (Q : result A → Owner → Prop) (o : Owner) : Prop :=
  match m o with Ok (r, o') => Q r o' | _ => False end.

Section wp.
Context {A B : Type}.
Implicit Types (m : op A) (o : Owner).

Lemma wp_bind m (f : A → op B) Q o :
  wp m (λ r o', match r with Done a => wp (f a) Q o' | Failed e => Q (Failed e) o' end) o → wp (op_bind m f) Q o.
Proof. unfold wp, op_bind. destruct (m o) as [[[a|e] o']| | |]; done. Qed.

Lemma wp_mono m (Q R : result A → Owner → Prop) o : wp m Q o → (∀ r o', Q r o' → R r o') → wp m R o.
Proof. unfold wp. destruct (m o) as [[r o']| | |]; auto. Qed.

Lemma wp_run (m : outcome False A) a Q o : m = Ok a → Q (Done a) o → wp (run m) Q o.
Proof. intros -> HQ. exact HQ. Qed.
Lemma wp_expect (m : outcome TickError A) a Q o : m = Ok a → Q (Done a) o → wp (expect m) Q o.
Proof. intros -> HQ. exact HQ. Qed.
Lemma wp_expect_op m Q o :
  wp m (λ r o', match r with Done a => Q (Done a) o' | Failed _ => False end) o → wp (expect_op m) Q o.
Proof. unfold wp, expect_op. destruct (m o) as [[[a|e] o']| | |]; done. Qed.

(** A call that may fail: its value satisfies [P], its error is passed on. *)
Lemma wp_try (m : outcome TickError A) (P : A → Prop) Q o :
  m ≠ Panic → m ≠ NoFuel → (∀ a, m = Ok a → P a) → (∀ a, P a → Q (Done a) o) → (∀ e, Q (Failed e) o) → wp (try m) Q o.
Proof. unfold wp, try. destruct m as [a|e| |]; naive_solver. Qed.

Lemma wp_done m Q o r o' : m o = Ok (r, o') → Q r o' → wp m Q o.
Proof. unfold wp. by intros ->. Qed.
Lemma wp_inv m Q o : wp m Q o → ∃ r o', m o = Ok (r, o') ∧ Q r o'.
Proof. unfold wp. destruct (m o) as [[r o']| | |]; naive_solver. Qed.
End wp.

(** One step of an operation whose shape is known. *)
Ltac wp_steps :=
  repeat first
    [ match goal with |- wp (op_bind _ _) _ _ => apply wp_bind end
    | match goal with |- wp (op_ret _) _ _ => unfold wp at 1, op_ret; cbv beta iota end
    | match goal with |- wp get_owner _ _ => unfold wp at 1, get_owner; cbv beta iota end
    | match goal with |- wp (set_owner _) _ _ => unfold wp at 1, set_owner; cbv beta iota end
    | match goal with |- wp (fail _) _ _ => unfold wp at 1, fail; cbv beta iota end ].

Lemma wp_usub a b Q o : b ≤ a → Q (Done (a - b)) o → wp (usub a b) Q o.
Proof.
  intros Hle HQ. unfold usub. apply (wp_run _ (a - b)); [|done]. unfold checked_sub.
  by destruct (Z.leb_spec b a); [|lia].
Qed.

(** ** Addresses and keys *)

Definition address_ok (a : ChunkAddress) : Prop := in_i 32 (View.x a) ∧ in_i 32 (View.z a).

Lemma unpacked_packed a : address_ok a → unpacked_chunk (packed_chunk a) = a.
Proof.
  intros [Hx Hz]. unfold unpacked_chunk, packed_chunk.
  pose proof (u_wrap_range 32 (View.x a) ltac:(lia)) as Hux. pose proof (u_wrap_range 32 (View.z a) ltac:(lia)) as Huz.
  set (ux := u_wrap 32 (View.x a)) in *. set (uz := u_wrap 32 (View.z a)) in *.
  assert (Z.lor (Z.shiftl uz 32) ux = uz * 2 ^ 32 + ux) as ->.
  { rewrite Z.shiftl_mul_pow2 by lia. symmetry. rewrite <- Z.lxor_lor; [apply Z.add_nocarry_lxor|];
      apply Z.bits_inj'; intros i Hi; rewrite Z.land_spec, Z.bits_0;
      (destruct (decide (i < 32)); [by rewrite Z.mul_pow2_bits_low|by rewrite (testbit_high 32 ux i Hux), andb_false_r by lia]). }
  assert (in_u 64 (uz * 2 ^ 32 + ux)) as Hin by (unfold in_u in *; lia).
  rewrite u_wrap_i_wrap, (u_wrap_id 64 _ Hin) by lia.
  assert (i_wrap 32 (i_wrap 64 (uz * 2 ^ 32 + ux)) = View.x a) as ->.
  { rewrite <- (i_wrap_u_wrap 32 (View.x a)) by done. fold ux. unfold i_wrap at 1 3.
    assert (i_wrap 64 (uz * 2 ^ 32 + ux) `mod` 2 ^ 32 = ux `mod` 2 ^ 32) as ->; [|done].
    assert (∃ q, i_wrap 64 (uz * 2 ^ 32 + ux) = ux + q * 2 ^ 32) as [q ->]; [|by rewrite Z.mod_add].
    unfold i_wrap. rewrite Z.mod_small by done. destruct (_ <? _); [exists uz; lia|exists (uz - 2 ^ 32); lia]. }
  rewrite Z.shiftr_div_pow2, Z.div_add_l, Z.div_small by (unfold in_u in *; lia). rewrite Z.add_0_r.
  unfold uz. rewrite i_wrap_u_wrap by done. by destruct a.
Qed.

Lemma packed_inj a b : address_ok a → address_ok b → packed_chunk a = packed_chunk b → a = b.
Proof. intros Ha Hb He. by rewrite <- (unpacked_packed a), <- (unpacked_packed b), He. Qed.

Definition entry_key (c : ChunkQueues) : Z * Z := address_key (cq_address c).
Definition key_of (c : ChunkQueues) : Z := packed_chunk (cq_address c).

Lemma address_key_inj a b : address_key a = address_key b → a = b.
Proof. destruct a, b. unfold address_key. cbn. by intros [= -> ->]. Qed.

(** Looking an address up in the sorted vector. *)
Lemma find_spec cs address :
  sorted_keys entry_key cs →
  match find cs address with
  | inl i => ∃ c, cs !! i = Some c ∧ cq_address c = address
  | inr i => (i ≤ length cs)%nat ∧ (∀ c, c ∈ cs → cq_address c ≠ address) ∧
      ∀ c, cq_address c = address → sorted_keys entry_key (take i cs ++ c :: drop i cs)
  end.
Proof.
  intros Hs. pose proof (search_key entry_key cs (address_key address) Hs) as Hf. unfold find.
  change (λ c, key_cmp (address_key (cq_address c)) (address_key address)) with (λ c, key_cmp (entry_key c) (address_key address)).
  destruct (binary_search _ cs) as [i|i].
  - destruct Hf as (c&Hc&He). exists c. split; [done|]. by apply address_key_inj.
  - destruct Hf as (Hi&Hlo&Hhi). split; [done|]. split.
    + intros c Hin <-. rewrite <- (take_drop i cs) in Hin. apply elem_of_app in Hin as [Hin|Hin].
      * rewrite Forall_forall in Hlo. by apply Hlo, key_lt_irrefl in Hin.
      * rewrite Forall_forall in Hhi. by apply Hhi, key_lt_irrefl in Hin.
    + intros c Hc. unfold entry_key in *. apply sorted_insert; [done| |]; unfold entry_key; by rewrite Hc.
Qed.

(** ** Counting identities *)

Definition counts_of (l : list Identity) : gmap Identity Z := foldr count_up ∅ l.

Definition occurrences (i : Identity) (l : list Identity) : nat := length (filter (λ j, j = i) l).
Definition tally (n : nat) : option Z := match n with O => None | S _ => Some (Z.of_nat n) end.

Lemma occurrences_cons i j l : occurrences i (j :: l) = ((if decide (j = i) then 1 else 0) + occurrences i l)%nat.
Proof. unfold occurrences. rewrite filter_cons. by destruct (decide (j = i)). Qed.
Lemma occurrences_app i l k : occurrences i (l ++ k) = (occurrences i l + occurrences i k)%nat.
Proof. unfold occurrences. by rewrite filter_app, length_app. Qed.
Lemma tally_succ n : tally (1 + n) = Some (default 0 (tally n) + 1).
Proof. destruct n; cbn; f_equal; lia. Qed.

Lemma counts_lookup l i : counts_of l !! i = tally (occurrences i l).
Proof.
  induction l as [|j l IH]; [done|]. cbn [counts_of foldr]. fold (counts_of l). unfold count_up.
  rewrite occurrences_cons. destruct (decide (j = i)) as [->|Hne].
  - by rewrite lookup_insert_eq, IH, tally_succ.
  - by rewrite lookup_insert_ne.
Qed.

Lemma counts_snoc l i : counts_of (l ++ [i]) = count_up i (counts_of l).
Proof.
  apply map_eq. intros j. unfold count_up. rewrite counts_lookup, occurrences_app, occurrences_cons, (Nat.add_comm (occurrences j l)).
  change (occurrences j []) with 0%nat. destruct (decide (i = j)) as [->|Hne].
  - by rewrite lookup_insert_eq, counts_lookup, <- tally_succ, Nat.add_0_r.
  - by rewrite lookup_insert_ne, counts_lookup.
Qed.

Lemma counts_tail i l : count_down i (counts_of (i :: l)) = counts_of l.
Proof.
  cbn [counts_of foldr]. fold (counts_of l). unfold count_down, count_up. rewrite lookup_insert_eq.
  pose proof (counts_lookup l i) as Hl. destruct (occurrences i l) as [|n]; rewrite Hl; cbn [default from_option id tally].
  - cbn. by apply delete_insert_id.
  - destruct (Z.ltb_spec 1 (Z.of_nat (S n) + 1)); [|lia]. rewrite insert_insert_eq. apply insert_id. rewrite Hl. cbn [tally]. f_equal. lia.
Qed.

Lemma counts_size l : (size (counts_of l) ≤ length l)%nat.
Proof.
  induction l as [|i l IH]; [done|]. cbn [counts_of foldr length]. fold (counts_of l). unfold count_up.
  rewrite map_size_insert. destruct (counts_of l !! i); unfold id; lia.
Qed.

Lemma counts_max l i : default 0 (counts_of l !! i) ≤ zlen l.
Proof.
  rewrite counts_lookup. unfold zlen, occurrences. pose proof (length_filter (λ j, j = i) l).
  destruct (length _) in *; cbn [tally default from_option id]; lia.
Qed.

(** ** Chunk queues *)

Section queue_facts.
Context `{Allocator} `{TickLayout}.
Implicit Types (q : ChunkQueue) (t : ScheduledTick).

Lemma layout_ge s : s ∈ [tick_size; saved_size; ready_size; idslot_size; count_size; slot_size; chunks_size; snapshot_size; usize_size] → 0 ≤ s.
Proof. intros Hs. pose proof layout_nonneg as Hl. rewrite Forall_forall in Hl. by apply Hl. Qed.

Definition pending_of q : list SavedTick := match q_pending q with Some (l, _) => l | None => [] end.
Definition items_of q : list ScheduledTick := scheduled_items (q_heap q).
Definition idents_of q : list Identity := (identity <$> items_of q) ++ (saved_identity <$> pending_of q).
Definition queue_with q heap ids : ChunkQueue := {| q_heap := heap; q_ids := ids; q_pending := q_pending q |}.

(** A queue within its limit: the identity set knows only identities that are
    queued or saved, and has room for one per place. *)
Record queue_ok (lim : Z) q : Prop := {
  qo_heap : scheduled_wf (q_heap q);
  qo_limit : scheduled_limit (q_heap q) = lim;
  qo_ids : ∃ X : gset Identity, ids_rep (q_ids q) X ∧ X ⊆ list_to_set (idents_of q);
  qo_slots : 2 * lim ≤ zlen (id_slots (q_ids q));
  qo_count : queue_count q ≤ lim;
  qo_heap_bytes : 0 ≤ scheduled_bytes tick_size usize_size (q_heap q);
  qo_ids_bytes : 0 ≤ ids_bytes idslot_size (q_ids q);
  qo_pending : match q_pending q with Some (_, cap) => 0 ≤ cap | None => True end;
}.

Lemma queue_count_eq q : queue_count q = zlen (idents_of q).
Proof.
  unfold queue_count, pending_len, idents_of, zlen, pending_of, scheduled_len. rewrite length_app, !length_fmap.
  unfold items_of, scheduled_items. destruct (q_pending q) as [[l c]|]; cbn; lia.
Qed.

Lemma queue_bytes_nonneg lim q : queue_ok lim q → 0 ≤ queue_bytes q ∧
  match q_pending q with Some (_, cap) => 0 ≤ cap * saved_size | None => True end.
Proof.
  intros Hq. pose proof (qo_heap_bytes lim q Hq). pose proof (qo_ids_bytes lim q Hq). pose proof (qo_pending lim q Hq).
  pose proof (layout_ge saved_size ltac:(set_solver)). unfold queue_bytes. destruct (q_pending q) as [[l c]|]; nia.
Qed.

(** The identity set is never larger than the queue. *)
Lemma ids_size_le (X : gset Identity) (l : list Identity) : X ⊆ list_to_set l → (size X ≤ length l)%nat.
Proof.
  intros HX. rewrite <- (length_reverse l). unfold size, set_size. cbn. rewrite length_reverse.
  apply submseteq_length, NoDup_submseteq; [apply NoDup_elements|]. intros x Hx. set_solver.
Qed.

(** Capacities are not moved by pushes, pops and insertions. *)
Lemma push_bytes hp t hp' : scheduled_push (E := False) hp t = Ok hp' → scheduled_bytes tick_size usize_size hp' = scheduled_bytes tick_size usize_size hp.
Proof.
  unfold scheduled_push, heap_push. intros Hp. apply outcome_bind_ok in Hp as (h&Hp&[= <-]).
  apply outcome_bind_ok in Hp as (u&_&Hp). apply outcome_bind_ok in Hp as ([[l ?] ?]&_&[= <-]). done.
Qed.
Lemma pop_bytes hp (t : option ScheduledTick) hp' : scheduled_pop (E := False) hp = Ok (t, hp') → scheduled_bytes tick_size usize_size hp' = scheduled_bytes tick_size usize_size hp.
Proof.
  unfold scheduled_pop, heap_pop. intros Hp. apply outcome_bind_ok in Hp as ([x h]&Hp&[= <- <-]).
  destruct (values (heap hp)); [by injection Hp as _ <-|]. apply outcome_bind_ok in Hp as ([[[v o] l'] u]&_&[= _ <-]). done.
Qed.
Lemma remove_if_bytes {P} pred hp (p : P) n hp' p' :
  scheduled_remove_if (E := False) pred hp p = Ok (n, hp', p') → scheduled_bytes tick_size usize_size hp' = scheduled_bytes tick_size usize_size hp.
Proof. unfold scheduled_remove_if. intros Hp. apply outcome_bind_ok in Hp as ([[[m l] r] p1]&_&[= _ <- _]). done. Qed.
Lemma insert_capacity s i s' : ids_insert s i = Ok s' → id_capacity s' = id_capacity s.
Proof.
  unfold ids_insert. intros Hi. apply outcome_bind_ok in Hi as ([j|]&_&Hi); injection Hi as <-; done.
Qed.
Lemma reinsert_capacity fuel : ∀ s i s', reinsert_loop fuel s i = Ok s' → id_capacity s' = id_capacity s.
Proof.
  induction fuel as [|fuel IH]; intros s i s' Hr; cbn [reinsert_loop] in Hr; [done|].
  apply outcome_bind_ok in Hr as ([d|]&_&Hr); [|by injection Hr as <-].
  apply outcome_bind_ok in Hr as (c&_&Hr). apply outcome_bind_ok in Hr as (s1&Hs1&Hr).
  apply insert_capacity in Hs1. apply IH in Hr. by rewrite Hr, Hs1.
Qed.
Lemma remove_capacity s i s' : ids_remove s i = Ok s' → id_capacity s' = id_capacity s.
Proof.
  unfold ids_remove. intros Hr. apply outcome_bind_ok in Hr as ([j|]&_&Hr); [|by injection Hr as <-].
  apply outcome_bind_ok in Hr as (c&_&Hr). cbv zeta in Hr. apply reinsert_capacity in Hr. by rewrite Hr.
Qed.

(** The first trigger time of a queue. *)
Definition head_time (hp : ScheduledHeap) : option Z := trigger_tick <$> scheduled_peek hp.

Lemma incomparable_time a b : tick_precedes a b = false → tick_precedes b a = false → trigger_tick a = trigger_tick b.
Proof. unfold tick_precedes. destruct (Z.ltb_spec (trigger_tick a) (trigger_tick b)), (Z.ltb_spec (trigger_tick b) (trigger_tick a)); try done. lia. Qed.

(** A pushed tick is the new head, or the first trigger time stays. *)
Lemma push_head hp t :
  scheduled_wf hp → zlen (scheduled_items hp) < scheduled_limit hp →
  ∃ hp', scheduled_push (E := False) hp t = Ok hp' ∧ scheduled_wf hp' ∧ scheduled_limit hp' = scheduled_limit hp ∧
    scheduled_items hp' ≡ₚ t :: scheduled_items hp ∧
    (scheduled_peek hp' = Some t ∨ scheduled_peek hp' ≠ Some t ∧ head_time hp' = head_time hp).
Proof.
  intros Hw Hr. pose proof (pq_push _ _ _ _ _ _ _ scheduled_is_queue hp t Hw) as Hp.
  destruct (Z.ltb_spec (zlen (scheduled_items hp)) (scheduled_limit hp)); [|lia].
  destruct Hp as (hp'&Hpush&Hw'&Hl'&Hperm). exists hp'. split_and!; try done.
  destruct (decide (scheduled_peek hp' = Some t)) as [|Hne]; [by left|right]. split; [done|].
  pose proof (pq_peek _ _ _ _ _ _ _ scheduled_is_queue hp' Hw') as Hpk'.
  pose proof (pq_peek _ _ _ _ _ _ _ scheduled_is_queue hp Hw) as Hpk. unfold head_time.
  destruct (scheduled_peek hp') as [m'|]; [|rewrite Hpk' in Hperm; by apply Permutation_nil_cons in Hperm].
  destruct Hpk' as [Hm' Hall']. rewrite Hperm in Hm', Hall'. apply elem_of_cons in Hm' as [->|Hm']; [done|].
  destruct (scheduled_peek hp) as [m|]; [|rewrite Hpk in Hm'; by apply elem_of_nil in Hm'].
  destruct Hpk as [Hm Hall]. cbn. f_equal. rewrite Forall_forall in Hall. rewrite Forall_forall in Hall'.
  apply incomparable_time; [by apply Hall|]. apply Hall'. by right.
Qed.

(** Two queues with the same items have the same first trigger time. *)
Lemma head_time_perm hp hp' :
  scheduled_wf hp → scheduled_wf hp' → scheduled_items hp ≡ₚ scheduled_items hp' → head_time hp = head_time hp'.
Proof.
  intros Hw Hw' Hp. pose proof (pq_peek _ _ _ _ _ _ _ scheduled_is_queue hp Hw) as Hm.
  pose proof (pq_peek _ _ _ _ _ _ _ scheduled_is_queue hp' Hw') as Hm'. unfold head_time.
  destruct (scheduled_peek hp) as [m|], (scheduled_peek hp') as [m'|]; cbn; [f_equal|exfalso..|done].
  - destruct Hm as [Hin Hall], Hm' as [Hin' Hall']. rewrite <- Hp in Hin', Hall'. rewrite Forall_forall in Hall. rewrite Forall_forall in Hall'.
    apply incomparable_time; [by apply Hall'|by apply Hall].
  - destruct Hm as [Hin _]. rewrite Hp, Hm' in Hin. by apply elem_of_nil in Hin.
  - destruct Hm' as [Hin _]. rewrite <- Hp, Hm in Hin. by apply elem_of_nil in Hin.
Qed.

(** ** Building, pushing and popping *)

Lemma reserved_cap size cap rest c r : 0 ≤ size → 0 ≤ cap → reserved_vec size cap rest = Ok (c, r) → 0 ≤ c * size ∧ cap ≤ c.
Proof. intros Hs Hc Hr. apply reserved_vec_ok in Hr as (?&_&_). nia. Qed.

Lemma ids_new_ok h cap rest ids r :
  0 ≤ cap → ids_new idslot_size h cap rest = Ok (ids, r) →
  ids_rep ids ∅ ∧ 2 * cap ≤ zlen (id_slots ids) ∧ r = rest - ids_bytes idslot_size ids ∧ 0 ≤ r ∧ 0 ≤ ids_bytes idslot_size ids.
Proof.
  intros Hc Hn. destruct (ids_new_spec _ _ _ _ _ _ Hc Hn) as (Hr&Hs&Hb&Hp). split_and!; try done.
  unfold ids_new in Hn. apply outcome_bind_ok in Hn as (slots&Hsl%ok_or_ok&Hn). apply outcome_bind_ok in Hn as ([c r1]&Hv&[= <- <-]).
  apply bind_Some in Hsl as (dbl&Hd&Hsl). unfold checked_mul in Hd. case_match; [|done]. injection Hd as <-.
  apply next_power_spec in Hsl as (Hge&Hge1&_); [|lia].
  pose proof (layout_ge idslot_size ltac:(set_solver)) as Hsz. apply reserved_cap in Hv as [Hnn _]; [exact Hnn|done|lia].
Qed.

Lemma queue_new_ok h cap rest q r :
  0 ≤ cap → queue_new h cap rest = Ok (q, r) →
  queue_ok cap q ∧ items_of q = [] ∧ q_pending q = None ∧ ids_rep (q_ids q) ∅ ∧ r = rest - queue_bytes q ∧ 0 ≤ r.
Proof.
  intros Hc Hn. unfold queue_new in Hn. apply outcome_bind_ok in Hn as ([hp r1]&Hh&Hn). apply outcome_bind_ok in Hn as ([ids r2]&Hi&[= <- <-]).
  destruct (scheduled_new_spec _ _ _ _ _ _ Hc Hh) as (Hw&Hit&Hl&->&_).
  destruct (ids_new_ok _ _ _ _ _ Hc Hi) as (Hr&Hs&->&Hpos&Hib).
  assert (0 ≤ scheduled_bytes tick_size usize_size hp) as Hhb.
  { pose proof (layout_ge tick_size ltac:(set_solver)). pose proof (layout_ge usize_size ltac:(set_solver)).
    unfold scheduled_new, heap_new, revisits_new in Hh. apply outcome_bind_ok in Hh as ([h1 b]&Hh1&Hh).
    apply outcome_bind_ok in Hh1 as ([c1 r1]&Hv1&[= <- <-]). apply outcome_bind_ok in Hh as ([[[rv pc] tc] b']&Hr3&[= <- _]).
    apply outcome_bind_ok in Hr3 as ([c2 r2]&Hv2&Hr3). apply outcome_bind_ok in Hr3 as ([c3 r3]&Hv3&[= <- <- <- <-]).
    apply reserved_cap in Hv1 as [? _]; [|done..]. apply reserved_cap in Hv2 as [? _]; [|done..]. apply reserved_cap in Hv3 as [? _]; [|done..].
    unfold scheduled_bytes, TickHeap.heap_bytes. cbn. lia. }
  split; [split; cbn; try done|].
  - exists ∅. split; [done|]. set_solver.
  - rewrite queue_count_eq. unfold idents_of, items_of, pending_of. cbn. by rewrite Hit.
  - split; [done|]. split; [done|]. split; [done|]. unfold queue_bytes. cbn. lia.
Qed.

(** Pushing one more tick, its identity known or being added. *)
Lemma queue_push_ok lim q t ids :
  queue_ok lim q → queue_count q < lim → (ids = q_ids q ∨ ids_insert (q_ids q) (identity t) = Ok ids) →
  ∃ hp, scheduled_push (E := False) (q_heap q) t = Ok hp ∧ queue_ok lim (queue_with q hp ids) ∧
    items_of (queue_with q hp ids) ≡ₚ t :: items_of q ∧ queue_bytes (queue_with q hp ids) = queue_bytes q ∧
    (scheduled_peek hp = Some t ∨ scheduled_peek hp ≠ Some t ∧ head_time hp = head_time (q_heap q)).
Proof.
  intros Hq Hroom Hids. pose proof (qo_limit lim q Hq) as Hl.
  assert (zlen (items_of q) ≤ queue_count q) as Hle.
  { rewrite queue_count_eq. unfold idents_of, zlen. rewrite length_app, length_fmap. lia. }
  destruct (push_head (q_heap q) t (qo_heap lim q Hq)) as (hp&Hp&Hw&Hlim&Hperm&Hhead); [unfold items_of in Hle; lia|].
  pose proof (push_bytes _ _ _ Hp) as Hb. destruct (qo_ids lim q Hq) as (X&HX&Hsub).
  assert (id_capacity ids = id_capacity (q_ids q) ∧ (∃ Y : gset Identity, ids_rep ids Y ∧ Y ⊆ {[identity t]} ∪ X) ∧ length (id_slots ids) = length (id_slots (q_ids q)))
    as (Hcap&(Y&HY&HYs)&Hlen).
  { destruct Hids as [->|Hins]; [split; [done|]; split; [exists X; split; [done|set_solver]|done]|].
    split; [by apply insert_capacity in Hins|].
    destruct (ids_insert_spec (q_ids q) X (identity t) HX) as (ids'&Hins'&HY&Hlen&_).
    - right. pose proof (ids_size_le X _ Hsub) as Hsz. rewrite queue_count_eq in Hroom. unfold zlen in Hroom.
      pose proof (qo_slots lim q Hq). unfold zlen in *. lia.
    - rewrite Hins in Hins'. injection Hins' as <-. split; [|done]. by exists ({[identity t]} ∪ X). }
  exists hp. split; [done|]. split; [split; cbn [q_heap q_ids q_pending queue_with]; [done|by rewrite Hlim| | | |by rewrite Hb; apply (qo_heap_bytes lim q Hq)| |apply (qo_pending lim q Hq)]|].
  - exists Y. split; [done|]. unfold idents_of, items_of. cbn. intros i Hi%HYs. rewrite Hperm. cbn. set_solver.
  - unfold zlen. rewrite Hlen. apply (qo_slots lim q Hq).
  - unfold queue_count, scheduled_len. unfold scheduled_items in Hperm. cbn. apply Permutation_length in Hperm. rewrite Hperm.
    cbn. unfold queue_count, scheduled_len in Hroom. unfold pending_len in *. cbn. lia.
  - unfold ids_bytes. rewrite Hcap. apply (qo_ids_bytes lim q Hq).
  - split; [done|]. split; [|done]. unfold queue_bytes, ids_bytes. cbn. by rewrite Hb, Hcap.
Qed.

(** Popping takes the head out of the queue and its identity out of the set. *)
Lemma queue_pop_ok lim q t :
  queue_ok lim q → scheduled_peek (q_heap q) = Some t →
  ∃ q', queue_pop q = Ok (Some t, q') ∧ queue_ok lim q' ∧ items_of q ≡ₚ t :: items_of q' ∧ queue_bytes q' = queue_bytes q ∧
    q_pending q' = q_pending q.
Proof.
  intros Hq Hpk. unfold queue_pop. destruct (pq_pop _ _ _ _ _ _ _ scheduled_is_queue (q_heap q) (qo_heap lim q Hq)) as (hp&Hpop&Hw&Hl&Hperm).
  rewrite Hpop, Hpk. mstep. rewrite Hpk in Hperm. cbn [option_list app] in Hperm. rewrite Hpk in Hpop.
  destruct (qo_ids lim q Hq) as (X&HX&Hsub). destruct (ids_remove_spec (q_ids q) X (identity t) HX) as (ids&Hrm&HY&Hlen). rewrite Hrm. mstep.
  pose proof (pop_bytes _ _ _ Hpop) as Hb. apply remove_capacity in Hrm as Hcap.
  eexists. split; [done|]. split; [split; cbn [q_heap q_ids q_pending]|].
  - done.
  - rewrite Hl. apply (qo_limit lim q Hq).
  - exists (X ∖ {[identity t]}). split; [done|]. unfold idents_of, items_of. cbn. intros i [Hi Hne]%elem_of_difference.
    apply Hsub in Hi. unfold idents_of, items_of in Hi. rewrite <- Hperm in Hi. cbn in Hi. set_solver.
  - unfold zlen. rewrite Hlen. apply (qo_slots lim q Hq).
  - pose proof (qo_count lim q Hq) as Hc. unfold queue_count, scheduled_len, pending_len in *. cbn.
    apply Permutation_length in Hperm. unfold scheduled_items in Hperm. cbn in Hperm. lia.
  - rewrite Hb. apply (qo_heap_bytes lim q Hq).
  - unfold ids_bytes. rewrite Hcap. apply (qo_ids_bytes lim q Hq).
  - apply (qo_pending lim q Hq).
  - split; [by symmetry|]. split; [|done]. unfold queue_bytes, ids_bytes. cbn. by rewrite Hb, Hcap.
Qed.
End queue_facts.

(** ** Chunks and timelines *)

Section timelines.
Context `{Allocator} `{TickLayout}.
Implicit Types (cs : list ChunkQueues) (c : ChunkQueues) (M : gmap Z Z).

Record chunks_ok (l : TickLimits) cs : Prop := {
  ck_sorted : sorted_keys entry_key cs;
  ck_length : zlen cs ≤ max_chunks l;
  ck_address : Forall (λ c, address_ok (cq_address c)) cs;
  ck_queues d : Forall (λ c, queue_ok (queued_per_chunk l) (queue c d)) cs;
}.

(** [M] has, for the chunks [cs], the times [f] and nothing else. *)
Record indexed cs (f : nat → ChunkQueues → option Z) M : Prop := {
  ix_entry i c : cs !! i = Some c → M !! key_of c = f i c;
  ix_only k : is_Some (M !! k) → ∃ i c, cs !! i = Some c ∧ key_of c = k;
}.

(** What a timeline should say of a chunk that is not [away] in the ready heap. *)
Definition due (d : TickDomain) (away : list nat) (i : nat) c : option Z :=
  if cq_registered c && negb (bool_decide (i ∈ away)) then head_time (q_heap (queue c d)) else None.

Lemma chunk_address_ok l cs i c : chunks_ok l cs → cs !! i = Some c → address_ok (cq_address c).
Proof. intros Hk Hc. pose proof (ck_address l cs Hk) as Ha. rewrite Forall_lookup in Ha. by apply (Ha i). Qed.

Lemma chunk_queue_ok l cs i c d : chunks_ok l cs → cs !! i = Some c → queue_ok (queued_per_chunk l) (queue c d).
Proof. intros Hk Hc. pose proof (ck_queues l cs Hk d) as Ha. rewrite Forall_lookup in Ha. by apply (Ha i). Qed.

Lemma key_of_inj l cs i j c c' :
  chunks_ok l cs → cs !! i = Some c → cs !! j = Some c' → key_of c = key_of c' → i = j.
Proof.
  intros Hk Hc Hc' He. apply packed_inj in He; [|by eapply chunk_address_ok..].
  apply (sorted_unique entry_key cs i j c c' (ck_sorted l cs Hk) Hc Hc'). unfold entry_key. by rewrite He.
Qed.

(** Fewer keys than chunks when a chunk has none. *)
Lemma indexed_size cs f M i c :
  indexed cs f M → cs !! i = Some c → M !! key_of c = None → (size M < length cs)%nat.
Proof.
  intros [_ Honly] Hc Hn.
  assert (key_of c :: (map_to_list M).*1 ⊆+ (key_of <$> cs)) as Hsub.
  { apply NoDup_submseteq.
    - constructor; [|apply NoDup_fst_map_to_list]. intros Hin. apply list_elem_of_fmap in Hin as ([k t]&Hk&Hin).
      apply elem_of_map_to_list in Hin. cbn in Hk. subst k. congruence.
    - intros k [->|Hin]%elem_of_cons; [apply list_elem_of_fmap_2; by eapply list_elem_of_lookup_2|].
      apply list_elem_of_fmap in Hin as ([k' t]&->&Hin). apply elem_of_map_to_list in Hin.
      destruct (Honly k' ltac:(by eexists)) as (j&c'&Hc'&<-). cbn. apply (list_elem_of_fmap_2 key_of). by eapply list_elem_of_lookup_2. }
  apply submseteq_length in Hsub. cbn in Hsub. rewrite !length_fmap, length_map_to_list in Hsub. lia.
Qed.

(** Replacing one chunk and, with it, its entry. *)
Lemma indexed_set l cs f g M i c c' :
  chunks_ok l cs → indexed cs f M → cs !! i = Some c → cq_address c' = cq_address c →
  (∀ j cj, j ≠ i → cs !! j = Some cj → g j cj = f j cj) →
  indexed (<[i := c']> cs) g (partial_alter (λ _, g i c') (key_of c) M).
Proof.
  intros Hk [He Ho] Hc Ha Hg. assert (key_of c' = key_of c) as Hkc by (unfold key_of; by rewrite Ha).
  pose proof (lookup_lt_Some _ _ _ Hc) as Hlt. split.
  - intros j cj Hj. destruct (decide (j = i)) as [->|Hne].
    + rewrite list_lookup_insert_eq in Hj by done. injection Hj as <-. by rewrite Hkc, lookup_partial_alter_eq.
    + rewrite list_lookup_insert_ne in Hj by done. rewrite lookup_partial_alter_ne; [rewrite (Hg j cj Hne Hj); by apply He|].
      intros Heq. apply Hne. symmetry. by apply (key_of_inj l cs i j c cj).
  - intros k Hs. destruct (decide (k = key_of c)) as [->|Hne].
    + exists i, c'. by rewrite list_lookup_insert_eq.
    + rewrite lookup_partial_alter_ne in Hs by done. destruct (Ho k Hs) as (j&cj&Hj&<-).
      exists j, cj. split; [|done]. rewrite list_lookup_insert_ne; [done|]. intros ->. rewrite Hc in Hj. by injection Hj as ->.
Qed.

(** The same, for the three things that may happen to the entry. *)
Lemma indexed_put l cs f g M i c c' t :
  chunks_ok l cs → indexed cs f M → cs !! i = Some c → cq_address c' = cq_address c → g i c' = Some t →
  (∀ j cj, j ≠ i → cs !! j = Some cj → g j cj = f j cj) → indexed (<[i := c']> cs) g (<[key_of c := t]> M).
Proof. intros Hk Hi Hc Ha Ht Hg. pose proof (indexed_set l cs f g M i c c' Hk Hi Hc Ha Hg) as Hs. by rewrite Ht in Hs. Qed.
Lemma indexed_delete l cs f g M i c c' :
  chunks_ok l cs → indexed cs f M → cs !! i = Some c → cq_address c' = cq_address c → g i c' = None →
  (∀ j cj, j ≠ i → cs !! j = Some cj → g j cj = f j cj) → indexed (<[i := c']> cs) g (delete (key_of c) M).
Proof. intros Hk Hi Hc Ha Ht Hg. pose proof (indexed_set l cs f g M i c c' Hk Hi Hc Ha Hg) as Hs. by rewrite Ht in Hs. Qed.
Lemma indexed_keep l cs f g M i c c' :
  chunks_ok l cs → indexed cs f M → cs !! i = Some c → cq_address c' = cq_address c → g i c' = f i c →
  (∀ j cj, j ≠ i → cs !! j = Some cj → g j cj = f j cj) → indexed (<[i := c']> cs) g M.
Proof.
  intros Hk Hi Hc Ha Ht Hg. pose proof (indexed_set l cs f g M i c c' Hk Hi Hc Ha Hg) as Hs. rewrite Ht in Hs.
  assert (partial_alter (λ _, f i c) (key_of c) M = M) as <-; [|done].
  apply map_eq. intros k. destruct (decide (k = key_of c)) as [->|Hne].
  - by rewrite lookup_partial_alter_eq, (ix_entry _ _ _ Hi i c Hc).
  - by rewrite lookup_partial_alter_ne.
Qed.

(** A timeline in agreement with the chunks. *)
Definition timeline_ok (l : TickLimits) cs (d : TickDomain) (away : list nat) (s : SchedulingIndex) : Prop :=
  ∃ M, index_rep s M ∧ Z.of_nat (max_keys s) = max_chunks l ∧ indexed cs (due d away) M.

Lemma put_present l cs f M s i c t :
  index_rep s M → Z.of_nat (max_keys s) = max_chunks l → chunks_ok l cs → indexed cs f M → cs !! i = Some c →
  ∃ s', TickIndex.put s (key_of c) t = Ok s' ∧ index_rep s' (<[key_of c := t]> M) ∧ Z.of_nat (max_keys s') = max_chunks l.
Proof.
  intros Hr Hm Hk Hi Hc. pose proof (sm_put _ _ _ _ _ _ _ _ _ _ index_is_scanned_map s M (key_of c) t Hr) as Hp.
  case_decide as Hd.
  - destruct Hd as [Hn Hsz]. pose proof (indexed_size cs f M i c Hi Hc Hn). pose proof (ck_length l cs Hk). unfold zlen in *. lia.
  - destruct Hp as (s'&?&?&?). exists s'. split_and!; [done|done|lia].
Qed.

(** The fields of the other operations that a chunk update leaves alone. *)
Lemma chunks_ok_insert l cs i c c' :
  chunks_ok l cs → cs !! i = Some c → cq_address c' = cq_address c →
  (∀ d, queue_ok (queued_per_chunk l) (queue c' d)) → chunks_ok l (<[i := c']> cs).
Proof.
  intros [Hs Hl Ha Hq] Hc Hac Hq'. split.
  - apply (sorted_replace entry_key cs i c c' Hs Hc). unfold entry_key. by rewrite Hac.
  - unfold zlen. by rewrite length_insert.
  - apply Forall_insert; [done|]. rewrite Hac. rewrite Forall_lookup in Ha. by apply (Ha i).
  - intros d. by apply Forall_insert.
Qed.

Lemma queue_with_queue c d d' q : queue (with_queue c d q) d' = if decide (d = d') then q else queue c d'.
Proof. by destruct d, d'. Qed.
Lemma with_queue_address c d q : cq_address (with_queue c d q) = cq_address c.
Proof. done. Qed.

Lemma chunks_ok_queue l cs i c d q :
  chunks_ok l cs → cs !! i = Some c → queue_ok (queued_per_chunk l) q → chunks_ok l (<[i := with_queue c d q]> cs).
Proof.
  intros Hk Hc Hq. apply (chunks_ok_insert l cs i c _ Hk Hc); [done|]. intros d'. rewrite queue_with_queue.
  case_decide; [done|]. by eapply chunk_queue_ok.
Qed.
Lemma chunks_ok_flags l cs i c r e : chunks_ok l cs → cs !! i = Some c → chunks_ok l (<[i := with_flags c r e]> cs).
Proof. intros Hk Hc. apply (chunks_ok_insert l cs i c _ Hk Hc); [done|]. intros d. by apply (chunk_queue_ok l cs i c d Hk). Qed.

(** Chunks entering and leaving. *)
Lemma chunks_ok_add l cs i c :
  chunks_ok l cs → zlen cs < max_chunks l → sorted_keys entry_key (take i cs ++ c :: drop i cs) → address_ok (cq_address c) →
  (∀ d, queue_ok (queued_per_chunk l) (queue c d)) → (i ≤ length cs)%nat → chunks_ok l (take i cs ++ c :: drop i cs).
Proof.
  intros [Hs Hl Ha Hq] Hroom Hs' Hac Hqc Hi. split; [done| | |].
  - unfold zlen in *. rewrite length_app. cbn. rewrite length_take, length_drop. lia.
  - apply Forall_app. split; [by apply Forall_take|]. constructor; [done|by apply Forall_drop].
  - intros d. apply Forall_app. split; [by apply Forall_take|]. constructor; [done|by apply Forall_drop].
Qed.

Lemma lookup_add cs (i j : nat) c c' :
  (i ≤ length cs)%nat → (take i cs ++ c :: drop i cs) !! j = Some c' → c' = c ∨ ∃ j', cs !! j' = Some c'.
Proof.
  intros Hi Hj. apply list_elem_of_lookup_2 in Hj. apply elem_of_app in Hj as [Hj|[->|Hj]%elem_of_cons]; [right| by left|right].
  - rewrite <- (take_drop i cs). apply list_elem_of_lookup. apply elem_of_app. by left.
  - rewrite <- (take_drop i cs). apply list_elem_of_lookup. apply elem_of_app. by right.
Qed.

Lemma lookup_added cs (i : nat) c : (i ≤ length cs)%nat → ∀ j c', cs !! j = Some c' → ∃ j', (take i cs ++ c :: drop i cs) !! j' = Some c'.
Proof.
  intros Hi j c' Hj. apply list_elem_of_lookup. apply list_elem_of_lookup_2 in Hj. rewrite <- (take_drop i cs) in Hj.
  apply elem_of_app in Hj as [Hj|Hj]; apply elem_of_app; [by left|right; by right].
Qed.

Lemma due_nil d i j c : due d [] i c = due d [] j c.
Proof. done. Qed.

Lemma indexed_add l cs M i c d :
  chunks_ok l cs → indexed cs (due d []) M → (i ≤ length cs)%nat → address_ok (cq_address c) →
  (∀ c', c' ∈ cs → cq_address c' ≠ cq_address c) → due d [] i c = None → indexed (take i cs ++ c :: drop i cs) (due d []) M.
Proof.
  intros Hk [He Ho] Hi Ha Hfresh Hd. split.
  - intros j c' Hj. apply lookup_add in Hj as [->|(j'&Hj')]; [|rewrite (due_nil d j j'); by apply He|done].
    rewrite (due_nil d j i), Hd. destruct (M !! key_of c) as [t|] eqn:Hm; [exfalso|done].
    destruct (Ho (key_of c) ltac:(by eexists)) as (j'&c'&Hj'&Hkey). apply (Hfresh c'); [by eapply list_elem_of_lookup_2|].
    apply packed_inj; [by eapply chunk_address_ok|done|done].
  - intros k Hs. destruct (Ho k Hs) as (j&c'&Hj&<-). destruct (lookup_added cs i c Hi j c' Hj) as [j' Hj']. by exists j', c'.
Qed.

Lemma indexed_remove l cs M i c d :
  chunks_ok l cs → indexed cs (due d []) M → cs !! i = Some c → cq_registered c = false → indexed (delete i cs) (due d []) M.
Proof.
  intros Hk [He Ho] Hc Hr. split.
  - intros j c' Hj. assert (∃ j', cs !! j' = Some c') as [j' Hj'].
    { apply list_elem_of_lookup. apply list_elem_of_lookup_2 in Hj. rewrite delete_take_drop in Hj. rewrite <- (take_drop_middle cs i c Hc).
      apply elem_of_app in Hj as [Hj|Hj]; apply elem_of_app; [by left|right; by right]. }
    rewrite (due_nil d j j'). by apply He.
  - intros k Hs. destruct (Ho k Hs) as (j&c'&Hj&<-).
    assert (j ≠ i) as Hne. { intros ->. rewrite Hc in Hj. injection Hj as <-. rewrite (He i c Hc) in Hs. unfold due in Hs. rewrite Hr in Hs. by destruct Hs. }
    assert (∃ j', delete i cs !! j' = Some c') as [j' Hj']; [|by exists j', c'].
    destruct (decide (j < i)%nat).
    + exists j. by rewrite list_lookup_delete_lt.
    + exists (j - 1)%nat. rewrite list_lookup_delete_ge by lia. by replace (S (j - 1)) with j by lia.
Qed.

Lemma chunks_ok_remove l cs i : chunks_ok l cs → chunks_ok l (delete i cs).
Proof.
  intros [Hs Hl Ha Hq]. split.
  - by apply sorted_delete.
  - unfold zlen in *. assert (length (delete i cs) ≤ length cs)%nat; [|lia]. rewrite delete_take_drop, length_app, length_take, length_drop. lia.
  - rewrite delete_take_drop. apply Forall_app. split; [by apply Forall_take|by apply Forall_drop].
  - intros d. rewrite delete_take_drop. apply Forall_app. split; [by apply Forall_take|by apply Forall_drop].
Qed.
End timelines.

(** ** The owner *)

Section owner.
Context `{Allocator} `{TickLayout} {base : Z}.
Implicit Types (o : Owner) (c : ChunkQueues) (d : TickDomain).

Record limits_ok (l : TickLimits) : Prop := {
  lo_chunks : 0 < max_chunks l;
  lo_queued : 0 < queued_per_chunk l;
  lo_selected : 0 < selected_per_phase l ≤ MAX_SCHEDULED_TICKS_PER_PHASE;
}.

(** The selection: what is still to come is counted exactly; the lazily built
    identity set may be stale but fits. *)
Record phase_ok (l : TickLimits) (p : Phase) : Prop := {
  po_ids : ∃ X : gset Identity, ids_rep (selected_ids p) X ∧ Z.of_nat (size X) ≤ selected_per_phase l;
  po_slots : 2 * selected_per_phase l ≤ zlen (id_slots (selected_ids p));
  po_counts : rc_rep (remaining_ids p) (counts_of (identity <$> drop (cursor p) (selected p)));
  po_limit : rc_limit (remaining_ids p) = selected_per_phase l;
  po_length : zlen (selected p) ≤ selected_per_phase l;
  po_cursor : (cursor p ≤ length (selected p))%nat;
  po_idle : active p = None → selected p = [];
}.

Record workspace_ok (w : Workspace) : Prop := {
  wk_scratch : 0 ≤ scratch_cap w;
  wk_counts : 0 ≤ copy_counts_cap w;
  wk_capacity : 0 ≤ copy_capacity w;
  wk_ids : match copy_ids w with
           | Some ids => (∃ X, ids_rep ids X) ∧ 2 * copy_capacity w ≤ zlen (id_slots ids) ∧ 0 ≤ ids_bytes idslot_size ids
           | None => copy_capacity w = 0
           end;
}.

Record ready_ok (l : TickLimits) (h : Heap ReadyChunk) : Prop := {
  rd_wf : heap_wf ready_precedes h;
  rd_limit : limit h = max_chunks l;
}.

(** The retained memory is what the chunks and the workspace hold, on top of
    the [base] of the tables built once. *)
Definition total_bytes (cs : list ChunkQueues) : Z := foldr (λ c n, chunk_bytes c + n) 0 cs.
Definition memory_ok (o : Owner) : Prop :=
  allocated_bytes o ≤ allocation_bytes (limits o) ∧
  0 ≤ base ∧ allocated_bytes o = base + total_bytes (chunks o) + workspace_bytes (workspace o).

(** Everything but the timelines. *)
Record owner_core o : Prop := {
  oc_limits : limits_ok (limits o);
  oc_chunks : chunks_ok (limits o) (chunks o);
  oc_ready : ready_ok (limits o) (ready o);
  oc_phase : phase_ok (limits o) (phase o);
  oc_workspace : workspace_ok (workspace o);
  oc_memory : memory_ok o;
}.

(** Between calls the ready heap is empty and both timelines know the first
    trigger time of every registered chunk. *)
Record owner_ok o : Prop := {
  ow_core : owner_core o;
  ow_ready : values (ready o) = [];
  ow_timeline d : timeline_ok (limits o) (chunks o) d [] (timeline o d);
}.

Lemma timeline_with o d d' s : timeline (with_timeline o d s) d' = if decide (d = d') then s else timeline o d'.
Proof. by destruct d, d'. Qed.
Lemma with_timeline_id o d : with_timeline o d (timeline o d) = o.
Proof. by destruct o, d. Qed.

Lemma core_timeline o d s : owner_core o → owner_core (with_timeline o d s).
Proof. intros []. by split. Qed.

Lemma total_bytes_app cs cs' : total_bytes (cs ++ cs') = total_bytes cs + total_bytes cs'.
Proof. induction cs as [|c cs IH]; cbn; [done|]. fold (total_bytes (cs ++ cs')) (total_bytes cs). lia. Qed.
Lemma total_bytes_cons c cs : total_bytes (c :: cs) = chunk_bytes c + total_bytes cs.
Proof. done. Qed.
Lemma total_bytes_split cs i c : cs !! i = Some c → total_bytes cs = chunk_bytes c + (total_bytes (take i cs) + total_bytes (drop (S i) cs)).
Proof. intros Hc. rewrite <- (take_drop_middle cs i c Hc) at 1. rewrite total_bytes_app, total_bytes_cons. lia. Qed.
Lemma total_bytes_insert cs i c c' : cs !! i = Some c → total_bytes (<[i := c']> cs) = total_bytes cs - chunk_bytes c + chunk_bytes c'.
Proof.
  intros Hc. rewrite (total_bytes_split cs i c Hc), (insert_app_split cs i c' c Hc), total_bytes_app, total_bytes_cons. lia.
Qed.

Lemma chunk_bytes_nonneg l cs i c : chunks_ok l cs → cs !! i = Some c → 0 ≤ chunk_bytes c.
Proof.
  intros Hk Hc. unfold chunk_bytes.
  pose proof (queue_bytes_nonneg _ _ (chunk_queue_ok l cs i c DBlock Hk Hc)) as [H1 _].
  pose proof (queue_bytes_nonneg _ _ (chunk_queue_ok l cs i c DFluid Hk Hc)) as [H2 _]. cbn in *. lia.
Qed.

Lemma total_bytes_nonneg l cs : chunks_ok l cs → 0 ≤ total_bytes cs.
Proof.
  intros Hk. assert (Forall (λ c, 0 ≤ chunk_bytes c) cs) as Hall.
  { apply Forall_lookup. intros i c Hc. by eapply chunk_bytes_nonneg. }
  induction Hall as [|c cs Hc _ IH]; [done|]. rewrite total_bytes_cons.
  assert (chunks_ok l cs) as Hk'; [|specialize (IH Hk'); lia].
  pose proof (chunks_ok_remove l (c :: cs) 0 Hk) as Hr. done.
Qed.

Lemma workspace_bytes_nonneg w : workspace_ok w → 0 ≤ workspace_bytes w.
Proof.
  intros [Hs Hc _ Hi]. pose proof (layout_ge snapshot_size ltac:(set_solver)). pose proof (layout_ge usize_size ltac:(set_solver)).
  unfold workspace_bytes. destruct (copy_ids w); [destruct Hi as (_&_&?)|]; nia.
Qed.

Lemma allocated_nonneg o : owner_core o → 0 ≤ allocated_bytes o.
Proof.
  intros [_ Hk _ _ Hw [_ (Hb&->)]]. pose proof (total_bytes_nonneg _ _ Hk). pose proof (workspace_bytes_nonneg _ Hw). lia.
Qed.

(** A chunk replaced by one of the same address, bytes and well-formed queues. *)
Lemma core_chunk o i c c' :
  owner_core o → chunks o !! i = Some c → cq_address c' = cq_address c → chunk_bytes c' = chunk_bytes c →
  (∀ d, queue_ok (queued_per_chunk (limits o)) (queue c' d)) → owner_core (with_chunks o (<[i := c']> (chunks o))).
Proof.
  intros [Hl Hk Hr Hp Hw [Hm (Hb&Ha)]] Hc Hac Hbytes Hq. split; try done; cbn.
  - by apply (chunks_ok_insert _ _ i c c' Hk Hc).
  - split; [done|]. cbn [allocated_bytes chunks workspace with_chunks].
    rewrite (total_bytes_insert _ _ c c' Hc). split; [done|lia].
Qed.

Lemma with_queue_bytes c d q : queue_bytes q = queue_bytes (queue c d) → chunk_bytes (with_queue c d q) = chunk_bytes c.
Proof. unfold chunk_bytes. destruct d; cbn; lia. Qed.

Lemma core_queue o i c d q :
  owner_core o → chunks o !! i = Some c → queue_ok (queued_per_chunk (limits o)) q → queue_bytes q = queue_bytes (queue c d) →
  owner_core (with_chunks o (<[i := with_queue c d q]> (chunks o))).
Proof.
  intros Ho Hc Hq Hb. apply (core_chunk o i c); [done|done|done|by apply with_queue_bytes|]. intros d'. rewrite queue_with_queue.
  case_decide; [done|]. by apply (chunk_queue_ok _ _ i c d' (oc_chunks o Ho)).
Qed.

(** ** Elementary steps *)

Lemma wp_chunk_at i c Q o : chunks o !! i = Some c → Q (Done c) o → wp (chunk_at i) Q o.
Proof. intros Hc HQ. unfold wp, chunk_at. by rewrite Hc. Qed.

Lemma wp_set_chunk i c (Q : result () → Owner → Prop) o : Q (Done tt) (with_chunks o (<[i := c]> (chunks o))) → wp (set_chunk i c) Q o.
Proof. intros HQ. exact HQ. Qed.
Lemma wp_insert_chunk i c (Q : result () → Owner → Prop) o :
  Q (Done tt) (with_chunks o (take i (chunks o) ++ c :: drop i (chunks o))) → wp (insert_chunk i c) Q o.
Proof. intros HQ. exact HQ. Qed.

(** What looking a registered chunk up yields. *)
Definition registered_at o (a : ChunkAddress) (found : option nat) : Prop :=
  match found with
  | Some i => ∃ c, chunks o !! i = Some c ∧ cq_address c = a ∧ cq_registered c = true
  | None => ∀ c, c ∈ chunks o → cq_address c = a → cq_registered c = false
  end.

Lemma registered_spec a Q o :
  chunks_ok (limits o) (chunks o) → (∀ found, registered_at o a found → Q (Done found) o) → wp (registered a) Q o.
Proof.
  intros Hk HQ. unfold registered. wp_steps. pose proof (find_spec (chunks o) a (ck_sorted _ _ Hk)) as Hf.
  destruct (find (chunks o) a) as [i|i].
  - destruct Hf as (c&Hc&Ha). wp_steps. apply (wp_chunk_at i c); [done|]. wp_steps. apply HQ.
    destruct (cq_registered c) eqn:Hr; [by exists c|]. intros c' Hin Ha'. apply list_elem_of_lookup in Hin as [j Hj].
    assert (i = j) as <-; [|rewrite Hc in Hj; injection Hj as <-; done].
    apply (sorted_unique entry_key _ _ _ c c' (ck_sorted _ _ Hk) Hc Hj). unfold entry_key. by rewrite Ha, Ha'.
  - wp_steps. apply HQ. destruct Hf as (_&Hno&_). intros c Hin Ha. by destruct (Hno c Hin).
Qed.

Lemma registered_or_fail_spec a Q o :
  chunks_ok (limits o) (chunks o) →
  (∀ i c, chunks o !! i = Some c → cq_address c = a → cq_registered c = true → Q (Done i) o) →
  (registered_at o a None → Q (Failed MissingChunk) o) → wp (registered_or_fail a) Q o.
Proof.
  intros Hk HS HN. unfold registered_or_fail. wp_steps. apply registered_spec; [done|]. intros [i|] Hr; wp_steps.
  - destruct Hr as (c&Hc&Ha&Hreg). by eapply HS.
  - by apply HN.
Qed.

(** Writing the entry of a known chunk. *)
Lemma timeline_put_spec d i c t f M Q o :
  chunks_ok (limits o) (chunks o) → chunks o !! i = Some c → index_rep (timeline o d) M →
  Z.of_nat (max_keys (timeline o d)) = max_chunks (limits o) → indexed (chunks o) f M →
  (∀ s, index_rep s (<[key_of c := t]> M) → Z.of_nat (max_keys s) = max_chunks (limits o) → Q (Done tt) (with_timeline o d s)) →
  wp (timeline_put d (key_of c) t) Q o.
Proof.
  intros Hk Hc Hr Hm Hi HQ. unfold timeline_put. wp_steps.
  destruct (put_present _ _ f M _ i c t Hr Hm Hk Hi Hc) as (s'&Hp&Hr'&Hm'). apply (wp_expect _ s' _ _ Hp). wp_steps. by apply HQ.
Qed.

Lemma timeline_remove_spec d key M Q o :
  index_rep (timeline o d) M →
  (∀ s, index_rep s (delete key M) → max_keys s = max_keys (timeline o d) → Q (Done tt) (with_timeline o d s)) →
  wp (timeline_remove d key) Q o.
Proof.
  intros Hr HQ. unfold timeline_remove. wp_steps.
  destruct (sm_remove _ _ _ _ _ _ _ _ _ _ index_is_scanned_map _ M key Hr) as (s'&Hrm&Hr'&Hm').
  apply (wp_run _ (M !! key, s') _ _ Hrm). wp_steps. by apply HQ.
Qed.

(** Bringing the entry of one chunk up to date ends its absence. *)
Lemma update_head_spec d i c Q o :
  chunks_ok (limits o) (chunks o) → chunks o !! i = Some c → cq_registered c = true →
  timeline_ok (limits o) (chunks o) d [i] (timeline o d) →
  (∀ s, timeline_ok (limits o) (chunks o) d [] s → Q (Done tt) (with_timeline o d s)) →
  wp (update_head (cq_address c) d) Q o.
Proof.
  intros Hk Hc Hreg (M&Hr&Hm&Hi) HQ. unfold update_head. wp_steps. apply registered_spec; [done|]. intros found Hf.
  destruct found as [j|]; [|rewrite (Hf c) in Hreg; [done|by eapply list_elem_of_lookup_2|done]].
  destruct Hf as (c'&Hc'&Ha'&_). assert (j = i) as ->.
  { apply (key_of_inj _ _ j i c' c Hk Hc' Hc). unfold key_of. by rewrite Ha'. }
  rewrite Hc in Hc'. injection Hc' as <-. wp_steps. apply (wp_chunk_at i c); [done|].
  assert (Hother : ∀ j cj, j ≠ i → chunks o !! j = Some cj → due d [] j cj = due d [i] j cj).
  { intros j cj Hne _. unfold due. rewrite (bool_decide_eq_false_2 (j ∈ [i])) by set_solver.
    by rewrite (bool_decide_eq_false_2 (j ∈ [])) by set_solver. }
  assert (Hnow : due d [] i c = head_time (q_heap (queue c d))).
  { unfold due. rewrite Hreg. by rewrite (bool_decide_eq_false_2 (i ∈ [])) by set_solver. }
  assert (Hwas : due d [i] i c = None).
  { unfold due. rewrite (bool_decide_eq_true_2 (i ∈ [i])) by set_solver. by rewrite andb_false_r. }
  unfold queue_peek, head_time in *. destruct (scheduled_peek (q_heap (queue c d))) as [t|].
  - apply (timeline_put_spec d i c (trigger_tick t) (due d [i]) M); try done. intros s Hs Hms. apply HQ.
    exists (<[key_of c := trigger_tick t]> M). split; [done|]. split; [done|].
    rewrite <- (list_insert_id (chunks o) i c Hc). by apply (indexed_put _ _ (due d [i]) _ M i c c _ Hk Hi Hc).
  - wp_steps. rewrite <- (with_timeline_id o d). apply HQ. exists M. split; [done|]. split; [done|].
    rewrite <- (list_insert_id (chunks o) i c Hc). apply (indexed_keep _ _ (due d [i]) _ M i c c Hk Hi Hc); [done| |done].
    by rewrite Hnow, Hwas.
Qed.

(** Both timelines after a change of chunk [i] that is away from them. *)
Lemma update_heads_spec i c Q o :
  owner_core o → values (ready o) = [] → chunks o !! i = Some c → cq_registered c = true →
  (∀ d, timeline_ok (limits o) (chunks o) d [i] (timeline o d)) →
  (∀ o', owner_ok o' → chunks o' = chunks o → Q (Done tt) o') →
  wp (let* _ := update_head (cq_address c) DBlock in update_head (cq_address c) DFluid) Q o.
Proof.
  intros Ho Hv Hc Hreg Ht HQ. wp_steps. pose proof (oc_chunks o Ho) as Hk.
  apply (update_head_spec DBlock i c); [done|done|done|apply Ht|]. intros s1 Hs1.
  apply (update_head_spec DFluid i c); [done|done|done|apply Ht|]. intros s2 Hs2. apply HQ; [|done].
  split; [by do 2 apply core_timeline|done|]. intros []; done.
Qed.

(** ** Memory *)

Lemma budget_spec Q o : owner_core o → Q (Done (allocation_bytes (limits o) - allocated_bytes o)) o → wp budget Q o.
Proof. intros Ho HQ. unfold budget. wp_steps. apply wp_usub; [|done]. apply (proj1 (oc_memory o Ho)). Qed.

Lemma charge_spec rest Q o :
  rest ≤ allocation_bytes (limits o) → Q (Done tt) (with_allocated o (allocation_bytes (limits o) - rest)) → wp (charge rest) Q o.
Proof. intros Hr HQ. unfold charge. wp_steps. apply wp_usub; [done|]. by wp_steps. Qed.

Lemma release_spec bytes Q o :
  bytes ≤ allocated_bytes o → Q (Done tt) (with_allocated o (allocated_bytes o - bytes)) → wp (release bytes) Q o.
Proof. intros Hr HQ. unfold release. wp_steps. apply wp_usub; [done|]. by wp_steps. Qed.

Lemma queue_new_total h cap rest : queue_new h cap rest ≠ Panic ∧ queue_new h cap rest ≠ NoFuel.
Proof.
  unfold queue_new. destruct (scheduled_new_total tick_size usize_size cap rest) as [Hp Hf].
  destruct (scheduled_new _ _ _ _) as [[hp r]| | |]; mstep; try done.
  destruct (ids_new_total idslot_size h cap r) as [Hp' Hf']. by destruct (ids_new _ _ _ _) as [[ids r']| | |].
Qed.

(** Reserving a chunk queue, or failing. *)
Lemma queue_new_spec h cap rest Q o :
  0 ≤ cap →
  (∀ q, queue_ok cap q → items_of q = [] → q_pending q = None → ids_rep (q_ids q) ∅ → 0 ≤ rest - queue_bytes q →
    Q (Done (q, rest - queue_bytes q)) o) →
  (∀ e, Q (Failed e) o) → wp (try (queue_new h cap rest)) Q o.
Proof.
  intros Hc HS HF. destruct (queue_new_total h cap rest) as [Hp Hf].
  apply (wp_try _ (λ p, queue_new h cap rest = Ok p)); [done|done|by intros a ->| |done].
  intros [q r] Hq. destruct (queue_new_ok h cap rest q r Hc Hq) as (?&?&?&?&->&?). by apply HS.
Qed.

Lemma reserved_spec size cap rest Q o :
  0 ≤ size → 0 ≤ cap → (∀ n, cap ≤ n → 0 ≤ n * size → 0 ≤ rest - n * size → Q (Done (n, rest - n * size)) o) →
  (∀ e, Q (Failed e) o) → wp (try (reserved_vec size cap rest)) Q o.
Proof.
  intros Hs Hc HS HF. destruct (reserved_vec_total size cap rest) as [Hp Hf].
  apply (wp_try _ (λ p, reserved_vec size cap rest = Ok p)); [done|done|by intros a ->| |done].
  intros [n r] Hr. destruct (reserved_cap _ _ _ _ _ Hs Hc Hr). apply reserved_vec_ok in Hr as (?&->&?). by apply HS.
Qed.

(** ** Registration *)

Lemma due_away d i c : cq_registered c = false ∨ items_of (queue c d) = [] → due d [] i c = None.
Proof.
  unfold due, head_time, items_of, scheduled_items, scheduled_peek, heap_peek. intros [->|He]; [done|].
  rewrite He. by destruct (_ && _).
Qed.

(** A chunk without an entry may as well be away. *)
Lemma timeline_away l cs d i s :
  timeline_ok l cs d [] s → (∀ c, cs !! i = Some c → due d [] i c = None) → timeline_ok l cs d [i] s.
Proof.
  intros (M&Hr&Hm&[He Ho]) Hd. exists M. split; [done|]. split; [done|]. split; [|done]. intros j c Hj. rewrite (He j c Hj).
  destruct (decide (j = i)) as [->|Hne].
  - rewrite (Hd c Hj). unfold due. rewrite (bool_decide_eq_true_2 (i ∈ [i])) by set_solver. by rewrite andb_false_r.
  - unfold due. rewrite (bool_decide_eq_false_2 (j ∈ [i])) by set_solver. by rewrite (bool_decide_eq_false_2 (j ∈ [])) by set_solver.
Qed.

Lemma ready_index_irrelevant o cs : owner_core o → chunks_ok (limits o) cs → total_bytes cs = total_bytes (chunks o) →
  owner_core (with_chunks o cs).
Proof.
  intros [Hl Hk Hr Hp Hw [Hm (Hb&Ha)]] Hk' Ht. split; try done. split; [done|]. cbn [allocated_bytes chunks workspace with_chunks]. by rewrite Ht.
Qed.

(** A new chunk of known cost enters. *)
Lemma core_add o i c :
  owner_core o → chunks_ok (limits o) (take i (chunks o) ++ c :: drop i (chunks o)) →
  0 ≤ allocation_bytes (limits o) - allocated_bytes o - chunk_bytes c →
  owner_core (with_allocated (with_chunks o (take i (chunks o) ++ c :: drop i (chunks o))) (allocated_bytes o + chunk_bytes c)).
Proof.
  intros [Hl Hk Hr Hp Hw [Hm (Hb&Ha)]] Hk' Hroom. split; try done. split; [cbn; lia|]. split; [done|].
  cbn [allocated_bytes chunks workspace with_chunks with_allocated]. rewrite total_bytes_app, total_bytes_cons.
  rewrite <- (take_drop i (chunks o)) in Ha at 1. rewrite total_bytes_app in Ha. lia.
Qed.

Lemma timeline_add o i c d :
  owner_ok o → (i ≤ length (chunks o))%nat → address_ok (cq_address c) →
  (∀ c', c' ∈ chunks o → cq_address c' ≠ cq_address c) → cq_registered c = false ∨ items_of (queue c d) = [] →
  timeline_ok (limits o) (take i (chunks o) ++ c :: drop i (chunks o)) d [] (timeline o d).
Proof.
  intros Ho Hi Ha Hf Hd. destruct (ow_timeline o Ho d) as (M&Hr&Hm&HM). exists M. split; [done|]. split; [done|].
  apply (indexed_add (limits o)); [apply (oc_chunks o), Ho|done|done|done|done|by apply due_away].
Qed.

(** Registering: a detached chunk comes back with what it retained, an unknown
    address gets an empty chunk, or the call fails and changes nothing. *)
Definition registers (o : Owner) (a : ChunkAddress) (e : bool) (r : result ()) (o' : Owner) : Prop :=
  match r with
  | Failed _ => o' = o
  | Done _ => ∃ i c, chunks o' !! i = Some (with_flags c true e) ∧ cq_address c = a ∧
      ((chunks o !! i = Some c ∧ cq_registered c = false ∧ chunks o' = <[i := with_flags c true e]> (chunks o)) ∨
       ((∀ c', c' ∈ chunks o → cq_address c' ≠ a) ∧ items_of (cq_blocks c) = [] ∧ items_of (cq_fluids c) = [] ∧
        chunks o' = take i (chunks o) ++ with_flags c true e :: drop i (chunks o)))
  end.

Lemma register_again o i c e :
  owner_ok o → chunks o !! i = Some c → cq_registered c = false →
  wp (let* _ := set_chunk i (with_flags c true e) in
      let* _ := update_head (cq_address c) DBlock in update_head (cq_address c) DFluid)
    (λ r o', owner_ok o' ∧ registers o (cq_address c) e r o') o.
Proof.
  intros Ho Hc Hreg. set (c' := with_flags c true e). pose proof (oc_chunks o (ow_core o Ho)) as Hk.
  change (cq_address c) with (cq_address c'). set (o1 := with_chunks o (<[i := c']> (chunks o))).
  assert (chunks o1 !! i = Some c') as Hc1 by (unfold o1; cbn; rewrite list_lookup_insert_eq; [done|by eapply lookup_lt_Some]).
  apply wp_bind, wp_set_chunk. fold o1. apply (update_heads_spec i c'); [|apply (ow_ready o Ho)|done|done| |].
  - apply (core_chunk o i c c' (ow_core o Ho) Hc); [done|done|]. intros d. by apply (chunk_queue_ok _ _ i c d Hk).
  - intros d. destruct (ow_timeline o Ho d) as (M&Hr&Hm&HM). exists M. split; [by destruct d|]. split; [by destruct d|].
    apply (indexed_keep (limits o) _ (due d []) _ M i c c' Hk HM Hc); [done| |].
    + unfold due. rewrite (bool_decide_eq_true_2 (i ∈ [i])) by set_solver. by rewrite andb_false_r, Hreg.
    + intros j cj Hne _. unfold due. rewrite (bool_decide_eq_false_2 (j ∈ [i])) by set_solver.
      by rewrite (bool_decide_eq_false_2 (j ∈ [])) by set_solver.
  - intros o' Hok Hcs. split; [done|]. exists i, c. rewrite Hcs. split; [done|]. split; [done|]. by left.
Qed.

Lemma register_chunk_spec h a e o :
  owner_ok o → address_ok a → wp (register_chunk h a e) (λ r o', owner_ok o' ∧ registers o a e r o') o.
Proof.
  intros Ho Ha. unfold register_chunk. pose proof (oc_chunks o (ow_core o Ho)) as Hk.
  pose proof (oc_limits o (ow_core o Ho)) as Hl. pose proof (find_spec (chunks o) a (ck_sorted _ _ Hk)) as Hf.
  do 2 (apply wp_bind; unfold wp at 1, get_owner; cbv beta iota). destruct (find (chunks o) a) as [i|i].
  - destruct Hf as (c&Hc&<-). apply wp_bind, (wp_chunk_at i c); [done|]. destruct (cq_registered c) eqn:Hreg.
    + by wp_steps.
    + pose proof (register_again o i c e Ho Hc Hreg) as Hr. unfold wp, op_bind in Hr |- *.
      by destruct (set_chunk i (with_flags c true e) o) as [[[]]| | |].
  - destruct Hf as (Hi&Hno&Hsort). destruct (Z.eqb_spec (zlen (chunks o)) (max_chunks (limits o))) as [|Hroom]; [by wp_steps|].
    assert (zlen (chunks o) < max_chunks (limits o)) as Hroom' by (pose proof (ck_length _ _ Hk); lia).
    apply wp_bind, budget_spec; [apply Ho|]. pose proof (lo_queued _ Hl) as Hq0.
    apply wp_bind, queue_new_spec; [lia| |done]. intros qb Hqb Hib _ _ Hrb. cbv beta iota.
    apply wp_bind, queue_new_spec; [lia| |done]. intros qf Hqf Hif _ _ Hrf. cbv beta iota.
    set (c := {| cq_address := a; cq_registered := true; cq_eligible := e; cq_blocks := qb; cq_fluids := qf |}).
    apply wp_bind, wp_insert_chunk. fold c. set (cs' := take i (chunks o) ++ c :: drop i (chunks o)).
    assert (chunks_ok (limits o) cs') as Hk'.
    { apply chunks_ok_add; [done|done|by apply Hsort|done| |done]. by intros []. }
    pose proof (allocated_nonneg o (ow_core o Ho)). pose proof (queue_bytes_nonneg _ _ Hqb) as [? _].
    pose proof (queue_bytes_nonneg _ _ Hqf) as [? _]. apply charge_spec; [cbn [limits with_chunks]; lia|]. cbn [limits with_chunks].
    replace (allocation_bytes (limits o) - (allocation_bytes (limits o) - allocated_bytes o - queue_bytes qb - queue_bytes qf))
      with (allocated_bytes o + chunk_bytes c) by (unfold chunk_bytes; cbn; lia).
    set (o1 := with_allocated _ _). assert (owner_core o1) as Hc1.
    { apply core_add; [apply Ho|done|unfold chunk_bytes; cbn; lia]. }
    assert (chunks o1 !! i = Some c) as Hlook by (cbn; unfold cs'; by rewrite list_lookup_middle by (rewrite length_take; lia)).
    change a with (cq_address c). apply (update_heads_spec i c); [done|apply (ow_ready o Ho)|done|done| |].
    + intros d. apply timeline_away; [apply (timeline_add o i c d Ho Hi Ha Hno); right; by destruct d|].
      intros c' Hc'. rewrite Hlook in Hc'. injection Hc' as <-. apply due_away. right. by destruct d.
    + intros o' Hok Hcs. split; [done|]. exists i, c. rewrite Hcs. split; [done|]. split; [done|]. by right.
Qed.
End owner.
Arguments owner_core {_} base o.
Arguments owner_ok {_} base o.
