(* ===== verification/TickOwnerOps.v ===== *)
(** * The scheduled-tick owner: loading, unpacking, scheduling and packing

    Preservation of the owner's invariant by the operations outside phases and
    areas, each with what it does: saved ticks enter detached chunks and become
    live ones in order, scheduling consumes a sub-order and deduplicates, and
    packing is a sorted copy that changes nothing but the workspace. *)

From stdpp Require Import list sets fin_maps gmap sorting.
From S2P Require Import Prelude.
From S2P Require Import Sorted.
From S2P Require Import View.
From S2P Require Import TickTypes.
From S2P Require Import TickHeap.
From S2P Require Import TickTables.
From S2P Require Import TickIndex.
From S2P Require Import TickOwner.
From S2P Require Import TickOwnerInv.
Local Open Scope Z_scope.
Local Open Scope op_scope.

Section ops.
Context `{Allocator} `{TickLayout} {base : Z}.
Notation owner_core := (owner_core base).
Notation owner_ok := (owner_ok base).
Implicit Types (o : Owner) (c : ChunkQueues) (d : TickDomain).

(** Inserting a batch of identities into a set with room for all of them. *)
Lemma insert_all_spec ids X l :
  ids_rep ids X → (size X + length l < length (id_slots ids))%nat →
  ∃ ids', insert_all ids l = Ok ids' ∧ ids_rep ids' (list_to_set l ∪ X) ∧ length (id_slots ids') = length (id_slots ids) ∧
    id_capacity ids' = id_capacity ids.
Proof.
  revert ids X. induction l as [|i l IH]; intros ids X Hr Hroom; cbn [insert_all length] in *.
  { exists ids. split; [done|]. split; [|done]. by assert (list_to_set [] ∪ X = X) as -> by set_solver. }
  destruct (ids_insert_spec ids X i Hr) as (ids1&->&Hr1&Hl1&Hc1); [right; lia|]. mstep.
  destruct (IH ids1 ({[i]} ∪ X) Hr1) as (ids2&->&Hr2&Hl2&Hc2).
  { rewrite Hl1. assert (size ({[i]} ∪ X) ≤ S (size X))%nat; [|lia]. rewrite size_union_alt, size_singleton.
    assert (size (X ∖ {[i]}) ≤ size X)%nat; [|lia]. apply subseteq_size. set_solver. }
  exists ids2. split; [done|]. split; [|split; [lia|congruence]].
  by assert (list_to_set (i :: l) ∪ X = list_to_set l ∪ ({[i]} ∪ X)) as -> by set_solver.
Qed.

(** Identities inserted only while they are new need no spare room beyond the
    distinct ones. *)
Lemma insert_all_within ids X l (n : nat) :
  ids_rep ids X → (size (list_to_set l ∪ X) ≤ n)%nat → (n < length (id_slots ids))%nat →
  ∃ ids', insert_all ids l = Ok ids' ∧ ids_rep ids' (list_to_set l ∪ X) ∧ length (id_slots ids') = length (id_slots ids).
Proof.
  revert ids X. induction l as [|i l IH]; intros ids X Hr Hsz Hroom; cbn [insert_all] in *.
  { exists ids. split; [done|]. split; [|done]. by assert (list_to_set [] ∪ X = X) as -> by set_solver. }
  assert (list_to_set (i :: l) ∪ X = list_to_set l ∪ ({[i]} ∪ X)) as Heq by set_solver. rewrite Heq in *.
  destruct (ids_insert_spec ids X i Hr) as (ids1&->&Hr1&Hl1&Hc1).
  { destruct (decide (i ∈ X)); [by left|right]. assert (size ({[i]} ∪ X) ≤ n)%nat as Hn.
    { etrans; [|exact Hsz]. apply subseteq_size. set_solver. }
    rewrite size_union, size_singleton in Hn by set_solver. lia. }
  mstep. destruct (IH ids1 ({[i]} ∪ X) Hr1 Hsz ltac:(lia)) as (ids2&->&Hr2&Hl2). exists ids2. split_and!; [done|done|lia].
Qed.

(** ** Loading saved ticks *)

Lemma pending_queue_ok lim q l cap ids :
  queue_ok lim q → items_of q = [] → q_pending q = None → ids_rep (q_ids q) ∅ → zlen l ≤ lim → 0 ≤ cap → 0 < lim →
  insert_all (q_ids q) (saved_identity <$> l) = Ok ids →
  let q' := {| q_heap := q_heap q; q_ids := ids; q_pending := Some (l, cap) |} in
  queue_ok lim q' ∧ queue_bytes q' = queue_bytes q + cap * saved_size.
Proof.
  intros Hq Hit Hpd Hids Hl Hcap Hlim Hins q'.
  destruct (insert_all_spec (q_ids q) ∅ (saved_identity <$> l) Hids) as (ids'&Hins'&Hr&Hlen&Hc).
  { rewrite size_empty, length_fmap. pose proof (qo_slots lim q Hq). unfold zlen in *. lia. }
  rewrite Hins in Hins'. injection Hins' as <-. split; [split; cbn [q_heap q_ids q_pending q']|].
  - apply (qo_heap lim q Hq).
  - apply (qo_limit lim q Hq).
  - eexists. split; [exact Hr|]. unfold idents_of, items_of, pending_of in *. cbn. rewrite Hit. set_solver.
  - unfold zlen. rewrite Hlen. apply (qo_slots lim q Hq).
  - rewrite queue_count_eq. unfold idents_of, items_of, pending_of in *. cbn. rewrite Hit. unfold zlen in *. cbn. by rewrite length_fmap.
  - apply (qo_heap_bytes lim q Hq).
  - unfold ids_bytes. rewrite Hc. apply (qo_ids_bytes lim q Hq).
  - done.
  - unfold queue_bytes, ids_bytes. cbn. rewrite Hc, Hpd. lia.
Qed.

(** Loading: the saved ticks that lie in the chunk, in order, as a detached
    chunk; or an error and no change. *)
Definition loads o (a : ChunkAddress) (blocks fluids : list SavedTick) (r : result ()) (o' : Owner) : Prop :=
  match r with
  | Failed _ => o' = o
  | Done _ => ∃ i c, chunks o' = take i (chunks o) ++ c :: drop i (chunks o) ∧ cq_address c = a ∧ cq_registered c = false ∧
      (∀ c', c' ∈ chunks o → cq_address c' ≠ a) ∧
      items_of (cq_blocks c) = [] ∧ pending_of (cq_blocks c) = filter (λ t, in_chunk a t = true) blocks ∧
      items_of (cq_fluids c) = [] ∧ pending_of (cq_fluids c) = filter (λ t, in_chunk a t = true) fluids
  end.

Lemma load_pending_chunk_spec h a blocks fluids o :
  owner_ok o → address_ok a →
  wp (load_pending_chunk h a blocks fluids) (λ r o', owner_ok o' ∧ loads o a blocks fluids r o') o.
Proof.
  intros Ho Ha. unfold load_pending_chunk. pose proof (oc_chunks o (ow_core o Ho)) as Hk.
  pose proof (find_spec (chunks o) a (ck_sorted _ _ Hk)) as Hf. apply wp_bind. unfold wp at 1, get_owner. cbv beta iota.
  destruct (find (chunks o) a) as [i|i]; [by wp_steps|]. destruct Hf as (Hi&Hno&Hsort).
  destruct (Z.eqb_spec (zlen (chunks o)) (max_chunks (limits o))) as [|Hroom]; [by wp_steps|].
  assert (zlen (chunks o) < max_chunks (limits o)) as Hroom' by (pose proof (ck_length _ _ Hk); lia).
  set (bl := filter _ blocks). set (fl := filter _ fluids). pose proof (lo_queued _ (oc_limits o (ow_core o Ho))) as Hq0.
  destruct (Z.ltb_spec (queued_per_chunk (limits o)) (zlen bl)); [by wp_steps|].
  destruct (Z.ltb_spec (queued_per_chunk (limits o)) (zlen fl)); [by wp_steps|].
  destruct (i32_max <? zlen bl); [by wp_steps|]. destruct (i32_max <? zlen fl); [by wp_steps|]. cbn [orb].
  destruct (existsb _ bl || existsb _ fl); [by wp_steps|].
  apply wp_bind, (budget_spec (base := base)); [apply Ho|].
  apply wp_bind, queue_new_spec; [lia| |done]. intros qb Hqb Hib Hpb Hrb Hlb. cbv beta iota.
  apply wp_bind, queue_new_spec; [lia| |done]. intros qf Hqf Hif Hpf Hrf Hlf. cbv beta iota.
  pose proof (layout_ge saved_size ltac:(set_solver)) as Hss.
  apply wp_bind, reserved_spec; [done|unfold zlen; lia| |done]. intros bc Hbc Hbc' Hbr. cbv beta iota.
  apply wp_bind, reserved_spec; [done|unfold zlen; lia| |done]. intros fc Hfc Hfc' Hfr. cbv beta iota.
  assert (Hins : ∀ q l, queue_ok (queued_per_chunk (limits o)) q → ids_rep (q_ids q) ∅ → zlen l ≤ queued_per_chunk (limits o) →
    ∃ ids, insert_all (q_ids q) (saved_identity <$> l) = Ok ids).
  { intros q l Hq Hr Hl. destruct (insert_all_spec (q_ids q) ∅ (saved_identity <$> l) Hr) as (ids&?&_); [|by exists ids].
    rewrite size_empty, length_fmap. pose proof (qo_slots _ q Hq). unfold zlen in *. lia. }
  destruct (Hins qb bl Hqb Hrb) as [bids Hb]; [done|]. apply wp_bind, (wp_run _ bids _ _ Hb).
  destruct (Hins qf fl Hqf Hrf) as [fids Hfi]; [done|]. apply wp_bind, (wp_run _ fids _ _ Hfi).
  assert (0 ≤ bc ∧ 0 ≤ fc) as [Hbc0 Hfc0] by (unfold zlen in *; lia).
  destruct (pending_queue_ok _ qb bl bc bids Hqb Hib Hpb Hrb) as [Hqb' Hbb]; [done|done|done|done|].
  destruct (pending_queue_ok _ qf fl fc fids Hqf Hif Hpf Hrf) as [Hqf' Hfb]; [done|done|done|done|].
  set (qb' := {| q_heap := q_heap qb; q_ids := bids; q_pending := Some (bl, bc) |}) in *.
  set (qf' := {| q_heap := q_heap qf; q_ids := fids; q_pending := Some (fl, fc) |}) in *.
  set (c := {| cq_address := a; cq_registered := false; cq_eligible := false; cq_blocks := qb'; cq_fluids := qf' |}).
  apply wp_bind, wp_insert_chunk. fold c. set (cs' := take i (chunks o) ++ c :: drop i (chunks o)).
  assert (chunks_ok (limits o) cs') as Hk'.
  { apply chunks_ok_add; [done|done|by apply Hsort|done| |done]. by intros []. }
  assert (chunk_bytes c = queue_bytes qb + queue_bytes qf + (bc + fc) * saved_size) as Hcb.
  { unfold chunk_bytes. cbn [cq_blocks cq_fluids c]. lia. }
  pose proof (allocated_nonneg o (ow_core o Ho)). pose proof (queue_bytes_nonneg _ _ Hqb) as [? _].
  pose proof (queue_bytes_nonneg _ _ Hqf) as [? _]. apply charge_spec; [cbn [limits with_chunks]; lia|]. cbn [limits with_chunks].
  replace (allocation_bytes (limits o) - _) with (allocated_bytes o + chunk_bytes c) by lia.
  split; [|exists i, c; by split_and!]. split; [apply core_add; [apply Ho|done|lia]|apply (ow_ready o Ho)|].
  intros d. assert (timeline (with_allocated (with_chunks o cs') (allocated_bytes o + chunk_bytes c)) d = timeline o d) as -> by (by destruct d).
  apply (timeline_add o i c d Ho Hi Ha Hno). by left.
Qed.

(** ** Unpacking *)

(** The tick a saved entry becomes. *)
Definition live_tick (game_time order : Z) (saved : SavedTick) : ScheduledTick :=
  {| position := saved_position saved; type_id := saved_type saved;
     trigger_tick := i_wrap 64 (game_time + delay saved); priority := saved_priority saved; sub_tick_order := order |}.
Fixpoint live_ticks (game_time order : Z) (l : list SavedTick) : list ScheduledTick :=
  match l with
  | [] => []
  | saved :: l => live_tick game_time order saved :: live_ticks game_time (order + 1) l
  end.

(** A queue with other saved entries. *)
Definition repend (q : ChunkQueue) (p : option (list SavedTick * Z)) : ChunkQueue :=
  {| q_heap := q_heap q; q_ids := q_ids q; q_pending := p |}.
Definition repend_chunk c d p : ChunkQueues := with_queue c d (repend (queue c d) p).

(** One saved entry becomes a live tick. *)
Lemma queue_unpack_ok lim q saved l cap t :
  queue_ok lim q → q_pending q = Some (saved :: l, cap) → identity t = saved_identity saved →
  ∃ hp, scheduled_push (E := False) (q_heap q) t = Ok hp ∧
    let q' := {| q_heap := hp; q_ids := q_ids q; q_pending := Some (l, cap) |} in
    queue_ok lim q' ∧ items_of q' ≡ₚ t :: items_of q ∧ queue_bytes q' = queue_bytes q ∧
    (scheduled_peek hp = Some t ∨ scheduled_peek hp ≠ Some t ∧ head_time hp = head_time (q_heap q)).
Proof.
  intros Hq Hp Ht. pose proof (qo_count lim q Hq) as Hc. rewrite queue_count_eq in Hc. unfold idents_of, pending_of, zlen in Hc.
  rewrite Hp in Hc. rewrite length_app in Hc. cbn in Hc. rewrite !length_fmap in Hc.
  destruct (push_head (q_heap q) t (qo_heap lim q Hq)) as (hp&Hpush&Hw&Hlim&Hperm&Hhead).
  { rewrite (qo_limit lim q Hq). unfold items_of, zlen in *. lia. }
  exists hp. split; [done|]. cbv zeta. pose proof (push_bytes _ _ _ Hpush) as Hb.
  split; [split; cbn [q_heap q_ids q_pending]|split; [done|split; [|done]]].
  - done.
  - rewrite Hlim. apply (qo_limit lim q Hq).
  - destruct (qo_ids lim q Hq) as (X&HX&Hsub). exists X. split; [done|]. intros i Hi%Hsub.
    unfold idents_of, items_of, pending_of in *. rewrite Hp in Hi. cbn in *. rewrite Hperm. cbn. rewrite Ht. set_solver.
  - apply (qo_slots lim q Hq).
  - rewrite queue_count_eq. unfold idents_of, items_of, pending_of, zlen in *. cbn. rewrite length_app, Hperm. cbn.
    rewrite !length_fmap. lia.
  - rewrite Hb. apply (qo_heap_bytes lim q Hq).
  - apply (qo_ids_bytes lim q Hq).
  - pose proof (qo_pending lim q Hq) as Hpd. by rewrite Hp in Hpd.
  - unfold queue_bytes. cbn. by rewrite Hb, Hp.
Qed.

(** Replacing one chunk by one whose heap says the same or whose entry is put. *)
Lemma owner_chunk o i c c' :
  owner_ok o → chunks o !! i = Some c → cq_address c' = cq_address c → chunk_bytes c' = chunk_bytes c →
  (∀ d, queue_ok (queued_per_chunk (limits o)) (queue c' d)) → (∀ d, due d [] i c' = due d [] i c) →
  owner_ok (with_chunks o (<[i := c']> (chunks o))).
Proof.
  intros Ho Hc Ha Hb Hq Hd. split; [by apply (core_chunk o i c c' (ow_core o Ho) Hc)|apply (ow_ready o Ho)|].
  intros d. destruct (ow_timeline o Ho d) as (M&Hr&Hm&HM). exists M. split; [by destruct d|]. split; [by destruct d|].
  by apply (indexed_keep (limits o) _ (due d []) _ M i c c' (oc_chunks o (ow_core o Ho)) HM Hc).
Qed.

(** The same when the first trigger time of one queue changes and is put. *)
Lemma owner_chunk_put o i c d q t Q :
  owner_ok o → chunks o !! i = Some c → queue_bytes q = queue_bytes (queue c d) → queue_ok (queued_per_chunk (limits o)) q →
  cq_registered c = true → head_time (q_heap q) = Some t →
  (∀ s, owner_ok (with_timeline (with_chunks o (<[i := with_queue c d q]> (chunks o))) d s) → Q (Done tt)
     (with_timeline (with_chunks o (<[i := with_queue c d q]> (chunks o))) d s)) →
  wp (timeline_put d (key_of c) t) Q (with_chunks o (<[i := with_queue c d q]> (chunks o))).
Proof.
  intros Ho Hc Hb Hq Hreg Ht HQ. set (o1 := with_chunks o _). pose proof (oc_chunks o (ow_core o Ho)) as Hk.
  pose proof (core_queue o i c d q (ow_core o Ho) Hc Hq Hb) as Hc1. fold o1 in Hc1.
  assert (chunks o1 !! i = Some (with_queue c d q)) as Hlook by (cbn; rewrite list_lookup_insert_eq; [done|by eapply lookup_lt_Some]).
  assert (Hsame : ∀ d', timeline o1 d' = timeline o d') by (by intros []).
  destruct (ow_timeline o Ho d) as (M&Hr&Hm&HM).
  assert (Hi1 : ∀ d' M', d' ≠ d → indexed (chunks o) (due d' []) M' → indexed (chunks o1) (due d' []) M').
  { intros d' M' Hne HM'. apply (indexed_keep (limits o) _ (due d' []) _ M' i c _ Hk HM' Hc); [done| |done].
    unfold due. rewrite queue_with_queue, decide_False by done. done. }
  change (key_of c) with (key_of (with_queue c d q)).
  set (away := λ j cj, if decide (j = i) then M !! key_of c else due d [] j cj).
  apply (timeline_put_spec d i (with_queue c d q) t away M).
  - apply (oc_chunks o1 Hc1).
  - done.
  - by rewrite Hsame.
  - by rewrite Hsame.
  - apply (indexed_keep (limits o) _ (due d []) _ M i c _ Hk HM Hc); [done| |].
    + unfold away. rewrite decide_True by done. apply (ix_entry _ _ _ HM i c Hc).
    + intros j cj Hne _. unfold away. by rewrite decide_False.
  - intros s Hs Hms. apply HQ. split; [by apply core_timeline|apply (ow_ready o Ho)|].
    intros d'. rewrite timeline_with. destruct (decide (d = d')) as [<-|Hne].
    + exists (<[key_of c := t]> M). split; [done|]. split; [done|].
      apply (indexed_put (limits o) _ (due d []) _ M i c _ t Hk HM Hc); [done| |done].
      unfold due. cbn [cq_registered with_queue]. rewrite Hreg, queue_with_queue, decide_True by done. done.
    + rewrite Hsame. destruct (ow_timeline o Ho d') as (M'&Hr'&Hm'&HM'). exists M'. split; [done|]. split; [done|]. by apply Hi1.
Qed.

(** A put does not look at the chunks. *)
Lemma wp_put_chunks d k t (Q : result () → Owner → Prop) o cs :
  wp (timeline_put d k t) (λ r o', Q r (with_chunks o' cs)) o → wp (timeline_put d k t) Q (with_chunks o cs).
Proof.
  unfold timeline_put, wp, op_bind, get_owner, expect, set_owner. cbn. destruct d; cbn; by destruct (TickIndex.put _ k t).
Qed.

Lemma with_queue_twice c d q q' : with_queue (with_queue c d q) d q' = with_queue c d q'.
Proof. by destruct d. Qed.
Lemma queue_of_with c d q : queue (with_queue c d q) d = q.
Proof. by destruct d. Qed.
Lemma with_queue_same c d : with_queue c d (queue c d) = c.
Proof. by destruct c, d. Qed.
Lemma due_with_queue d d' c i q :
  head_time (q_heap q) = head_time (q_heap (queue c d)) → due d' [] i (with_queue c d q) = due d' [] i c.
Proof. intros Hh. unfold due. rewrite queue_with_queue. cbn [cq_registered with_queue]. case_decide as He; [subst d'; by rewrite Hh|done]. Qed.

(** The loop over the saved entries, seen from an owner that still holds the
    ones to come. *)
Lemma unpack_ticks_spec d i cap game_time l : ∀ o c order,
  chunks o !! i = Some c → q_pending (queue c d) = None →
  owner_ok (with_chunks o (<[i := repend_chunk c d (Some (l, cap))]> (chunks o))) →
  wp (unpack_ticks i (cq_address c) d game_time order l)
    (λ r o', r = Done tt ∧ ∃ q s, o' = with_timeline (with_chunks o (<[i := with_queue c d q]> (chunks o))) d s ∧
       q_pending q = None ∧ items_of q ≡ₚ live_ticks game_time order l ++ items_of (queue c d) ∧
       owner_ok (with_chunks o' (<[i := repend_chunk (with_queue c d q) d (Some ([], cap))]> (chunks o)))) o.
Proof.
  induction l as [|saved l IH]; intros o c order Hc Hp Ho; cbn [unpack_ticks live_ticks].
  { wp_steps. split; [done|]. exists (queue c d), (timeline o d).
    rewrite with_queue_same, list_insert_id by done. split; [by destruct o, d|]. split; [done|]. split; [done|]. exact Ho. }
  fold (live_tick game_time order saved). set (t := live_tick game_time order saved).
  set (cv := repend_chunk c d (Some (saved :: l, cap))) in *. set (ov := with_chunks o (<[i := cv]> (chunks o))) in *.
  pose proof (lookup_lt_Some _ _ _ Hc) as Hlt.
  assert (chunks ov !! i = Some cv) as Hcv by (cbn; by rewrite list_lookup_insert_eq).
  assert (Hqv : queue cv d = repend (queue c d) (Some (saved :: l, cap))) by apply queue_of_with.
  destruct (queue_unpack_ok (queued_per_chunk (limits o)) (queue cv d) saved l cap t) as (hp&Hpush&Hq1&Hitems&Hbytes&Hhead).
  { by apply (chunk_queue_ok (limits ov) (chunks ov) i cv d (oc_chunks _ (ow_core _ Ho))). }
  { by rewrite Hqv. }
  { done. }
  rewrite Hqv in Hpush, Hitems, Hhead. cbn [repend q_heap q_ids] in *.
  set (q1 := {| q_heap := hp; q_ids := q_ids (queue c d); q_pending := q_pending (queue c d) |}).
  set (qv1 := {| q_heap := hp; q_ids := q_ids (queue cv d); q_pending := Some (l, cap) |}) in *.
  apply wp_bind, (wp_chunk_at i c); [done|]. apply wp_bind, (wp_run _ hp _ _ Hpush). fold q1.
  apply wp_bind, wp_set_chunk. set (o1 := with_chunks o (<[i := with_queue c d q1]> (chunks o))).
  assert (Hv1 : repend_chunk (with_queue c d q1) d (Some (l, cap)) = with_queue cv d qv1).
  { unfold repend_chunk. rewrite queue_of_with. unfold cv, repend_chunk. rewrite !with_queue_twice. unfold qv1. by rewrite Hqv. }
  assert (Hnext : ∀ s, owner_ok (with_timeline (with_chunks ov (<[i := with_queue cv d qv1]> (chunks ov))) d s) →
    wp (unpack_ticks i (cq_address c) d game_time (order + 1) l) (λ r o', r = Done tt ∧ ∃ q s,
       o' = with_timeline (with_chunks o (<[i := with_queue c d q]> (chunks o))) d s ∧
       q_pending q = None ∧ items_of q ≡ₚ (t :: live_ticks game_time (order + 1) l) ++ items_of (queue c d) ∧
       owner_ok (with_chunks o' (<[i := repend_chunk (with_queue c d q) d (Some ([], cap))]> (chunks o)))) (with_timeline o1 d s)).
  { intros s Hs. change (cq_address c) with (cq_address (with_queue c d q1)).
    eapply wp_mono; [apply (IH (with_timeline o1 d s) (with_queue c d q1))|].
    - cbn. by rewrite list_lookup_insert_eq.
    - by rewrite queue_of_with.
    - rewrite Hv1. cbn [chunks with_timeline o1 with_chunks]. rewrite list_insert_insert_eq.
      cbn [chunks ov with_chunks] in Hs. rewrite list_insert_insert_eq in Hs. by destruct d.
    - intros r o' (->&q&s'&->&Hqp&Hqi&Hok). split; [done|]. exists q, s'.
      cbn [chunks with_timeline o1 with_chunks] in *. rewrite !list_insert_insert_eq, with_queue_twice in *.
      split; [by destruct d|]. split; [done|]. split; [|exact Hok].
      rewrite Hqi, queue_of_with. unfold items_of at 1, q1. cbn [q_heap]. unfold items_of at 1, qv1 in Hitems. cbn [q_heap] in Hitems.
      rewrite Hitems. unfold items_of, repend. cbn [q_heap app]. by rewrite Permutation_middle. }
  cbv zeta. cbn [cq_registered with_queue]. unfold queue_peek. rewrite queue_of_with. cbn [q_heap q1].
  destruct (cq_registered c && bool_decide (scheduled_peek hp = Some t)) eqn:Hcond.
  - apply andb_true_iff in Hcond as [Hreg Hpk%bool_decide_eq_true]. apply wp_bind.
    replace o1 with (with_chunks (with_chunks ov (<[i := with_queue cv d qv1]> (chunks ov))) (chunks o1)) by done.
    apply wp_put_chunks. change (packed_chunk (cq_address c)) with (key_of cv).
    apply (owner_chunk_put ov i cv d qv1 (trigger_tick t)); [done|done|done|done|done| |].
    + cbn. unfold head_time. by rewrite Hpk.
    + intros s Hs. replace (with_chunks _ _) with (with_timeline o1 d s) by (by destruct d). by apply Hnext.
  - apply wp_bind. wp_steps. replace o1 with (with_timeline o1 d (timeline o1 d)) by (by destruct d).
    apply Hnext. replace (with_timeline _ d _) with (with_chunks ov (<[i := with_queue cv d qv1]> (chunks ov))) by (by destruct d).
    apply (owner_chunk ov i cv); [done|done|done|by apply with_queue_bytes| |].
    + intros d'. rewrite queue_with_queue. destruct (decide (d = d')); [exact Hq1|].
      by apply (chunk_queue_ok (limits ov) (chunks ov) i cv d' (oc_chunks _ (ow_core _ Ho))).
    + intros d'. apply andb_false_iff in Hcond as [Hreg|Hpk%bool_decide_eq_false].
      * unfold due. cbn [cq_registered with_queue cv repend_chunk]. by rewrite Hreg.
      * apply due_with_queue. rewrite Hqv. cbn [q_heap qv1 repend]. by destruct Hhead as [|[_ ?]].
Qed.

(** Memory that leaves with a part of one chunk. *)
Lemma owner_release o i c cv n :
  chunks o !! i = Some c → owner_ok (with_chunks o (<[i := cv]> (chunks o))) → cq_address cv = cq_address c →
  chunk_bytes cv = chunk_bytes c + n → 0 ≤ n → (∀ d, queue_ok (queued_per_chunk (limits o)) (queue c d)) →
  (∀ d, due d [] i c = due d [] i cv) →
  n ≤ allocated_bytes o ∧ owner_ok (with_allocated o (allocated_bytes o - n)).
Proof.
  intros Hc Ho Ha Hb Hn Hq Hd. set (ov := with_chunks o _) in Ho. pose proof (lookup_lt_Some _ _ _ Hc) as Hlt.
  assert (chunks ov !! i = Some cv) as Hcv by (cbn; by rewrite list_lookup_insert_eq).
  assert (Hback : chunks o = <[i := c]> (chunks ov)) by (cbn; rewrite list_insert_insert_eq; symmetry; by apply list_insert_id).
  destruct Ho as [[Hl Hk Hr Hp Hw [Hm (Hbase&Hsum)]] Hrd Htl].
  assert (chunks_ok (limits o) (chunks o)) as Hko by (rewrite Hback; by apply (chunks_ok_insert _ _ i cv)).
  assert (total_bytes (chunks ov) = total_bytes (chunks o) + n) as Ht.
  { unfold ov. cbn [chunks with_chunks]. rewrite (total_bytes_insert _ i c cv Hc). lia. }
  cbn [allocated_bytes ov with_chunks workspace chunks] in *. pose proof (total_bytes_nonneg _ _ Hko). pose proof (workspace_bytes_nonneg _ Hw).
  split; [lia|]. split; [|done|].
  - split; try done. split; cbn [allocated_bytes with_allocated limits chunks workspace ov with_chunks] in *; [lia|]. split; [done|lia].
  - intros d. destruct (Htl d) as (M&HrM&Hms&HM). exists M. split; [by destruct d|]. split; [by destruct d|].
    cbn [chunks with_allocated limits]. rewrite Hback.
    apply (indexed_keep (limits ov) _ (due d []) _ M i cv c Hk HM Hcv); [done|by rewrite Hd|done].
Qed.

Lemma unpack_domain_spec d i game_time o c :
  owner_ok o → chunks o !! i = Some c →
  wp (unpack_domain i (cq_address c) game_time d)
    (λ r o', r = Done tt ∧ owner_ok o' ∧ ∃ q, chunks o' = <[i := with_queue c d q]> (chunks o) ∧ q_pending q = None ∧
       let l := pending_of (queue c d) in items_of q ≡ₚ live_ticks game_time (- zlen l) l ++ items_of (queue c d)) o.
Proof.
  intros Ho Hc. unfold unpack_domain. apply wp_bind, (wp_chunk_at i c); [done|]. cbv zeta. unfold pending_of.
  pose proof (oc_chunks o (ow_core o Ho)) as Hk. pose proof (chunk_queue_ok _ _ i c d Hk Hc) as Hq.
  destruct (q_pending (queue c d)) as [[l cap]|] eqn:Hp.
  2: { wp_steps. split; [done|]. split; [done|]. exists (queue c d). by rewrite with_queue_same, list_insert_id. }
  apply wp_bind, wp_set_chunk. set (q0 := {| q_heap := _; q_ids := _; q_pending := None |}). set (c0 := with_queue c d q0).
  set (o0 := with_chunks o _). pose proof (lookup_lt_Some _ _ _ Hc) as Hlt.
  assert (chunks o0 !! i = Some c0) as Hc0 by (cbn; by rewrite list_lookup_insert_eq).
  assert (Hsame : repend_chunk c0 d (Some (l, cap)) = c).
  { unfold repend_chunk, c0. rewrite queue_of_with, with_queue_twice. unfold repend, q0. cbn [q_heap q_ids]. rewrite <- Hp.
    replace {| q_heap := _; q_ids := _; q_pending := _ |} with (queue c d) by (by destruct (queue c d)). apply with_queue_same. }
  apply wp_bind. change (cq_address c) with (cq_address c0). eapply wp_mono.
  { apply (unpack_ticks_spec d i cap game_time l o0 c0 (- zlen l) Hc0); [by unfold c0; rewrite queue_of_with|].
    rewrite Hsame. cbn [chunks o0 with_chunks]. rewrite list_insert_insert_eq, (list_insert_id (chunks o) i c Hc). replace (with_chunks o0 (chunks o)) with o by (by destruct o). exact Ho. }
  intros r o' (->&q&s&->&Hqp&Hqi&Hok). set (o2 := with_timeline _ d s) in *. set (c2 := with_queue c d q).
  assert (Hc2 : with_queue c0 d q = c2) by apply with_queue_twice. rewrite Hc2 in *.
  assert (Hcs : chunks o2 = <[i := c2]> (chunks o)).
  { unfold o2. cbn [chunks with_timeline with_chunks o0]. by rewrite list_insert_insert_eq, Hc2. }
  assert (chunks o2 !! i = Some c2) as Hlook by (rewrite Hcs; by rewrite list_lookup_insert_eq).
  pose proof (layout_ge saved_size ltac:(set_solver)) as Hss. pose proof (qo_pending _ _ Hq) as Hcap. rewrite Hp in Hcap.
  assert (Heq : <[i := repend_chunk c2 d (Some ([], cap))]> (chunks o0) = <[i := repend_chunk c2 d (Some ([], cap))]> (chunks o2)).
  { rewrite Hcs. cbn [chunks o0 with_chunks]. by rewrite !list_insert_insert_eq. }
  rewrite Heq in Hok. destruct (owner_release o2 i c2 (repend_chunk c2 d (Some ([], cap))) (cap * saved_size)) as [Hle Hfin];
    [done|done|done| |nia| | |].
  - unfold chunk_bytes, repend_chunk, c2, repend. destruct d; cbn [with_queue queue cq_blocks cq_fluids]; unfold queue_bytes; cbn; rewrite Hqp; lia.
  - intros d'. pose proof (chunk_queue_ok _ _ i (repend_chunk c2 d (Some ([], cap))) d' (oc_chunks _ (ow_core _ Hok))) as Hqk.
    cbn [limits with_chunks chunks] in Hqk. rewrite list_lookup_insert_eq in Hqk by (rewrite Hcs, length_insert; done).
    specialize (Hqk eq_refl). unfold repend_chunk in Hqk. rewrite queue_with_queue in Hqk. unfold c2. rewrite queue_with_queue.
    destruct (decide (d = d')) as [<-|Hne]; [|unfold c2 in Hqk; rewrite queue_with_queue, decide_False in Hqk by done; exact Hqk].
    unfold c2 in Hqk. rewrite queue_of_with in Hqk. destruct Hqk as [H1 H2 H3 H4 H5 H6 H7 H8]. split; try done.
    + unfold idents_of, pending_of in *. by rewrite Hqp.
    + unfold queue_count, pending_len in *. by rewrite Hqp.
    + by rewrite Hqp.
  - intros d'. unfold repend_chunk. symmetry. by apply due_with_queue.
  - apply release_spec; [done|]. split; [done|]. split; [done|]. exists q. split; [exact Hcs|]. split; [done|].
    rewrite Hqi. unfold c0. rewrite queue_of_with. done.
Qed.

(** Unpacking: every saved tick of both queues becomes live, in saved order and
    ahead of all scheduled ones; a second unpacking changes nothing. *)
Definition unpacks o (a : ChunkAddress) (game_time : Z) (r : result ()) o' : Prop :=
  match r with
  | Failed e => e = MissingChunk ∧ o' = o ∧ ∀ c, c ∈ chunks o → cq_address c ≠ a
  | Done _ => ∃ i c c', chunks o !! i = Some c ∧ cq_address c = a ∧ chunks o' = <[i := c']> (chunks o) ∧ cq_address c' = a ∧
      cq_registered c' = cq_registered c ∧ cq_eligible c' = cq_eligible c ∧ ∀ d, q_pending (queue c' d) = None ∧
        let l := pending_of (queue c d) in items_of (queue c' d) ≡ₚ live_ticks game_time (- zlen l) l ++ items_of (queue c d)
  end.

Lemma unpack_chunk_spec a game_time o :
  owner_ok o → wp (unpack_chunk a game_time) (λ r o', owner_ok o' ∧ unpacks o a game_time r o') o.
Proof.
  intros Ho. unfold unpack_chunk. apply wp_bind. unfold wp at 1, get_owner. cbv beta iota.
  pose proof (find_spec (chunks o) a (ck_sorted _ _ (oc_chunks o (ow_core o Ho)))) as Hf.
  destruct (find (chunks o) a) as [i|i].
  2: { wp_steps. split; [done|]. split; [done|]. split; [done|]. apply Hf. }
  destruct Hf as (c&Hc&<-). apply wp_bind. eapply wp_mono; [by apply (unpack_domain_spec DBlock i game_time o c)|].
  intros r o1 (->&Ho1&q1&Hcs1&Hp1&Hi1). set (c1 := with_queue c DBlock q1) in *. pose proof (lookup_lt_Some _ _ _ Hc) as Hlt.
  change (cq_address c) with (cq_address c1) at 1. eapply wp_mono; [apply (unpack_domain_spec DFluid i game_time o1 c1 Ho1)|].
  { by rewrite Hcs1, list_lookup_insert_eq. }
  intros r o2 (->&Ho2&q2&Hcs2&Hp2&Hi2). split; [done|]. exists i, c, (with_queue c1 DFluid q2). split; [done|]. split; [done|].
  split; [rewrite Hcs2, Hcs1; apply list_insert_insert_eq|]. split; [done|]. split; [done|]. split; [done|]. by intros [].
Qed.

(** ** Eligibility, detaching and discarding *)

(** What a call on a registered chunk does: an error and no change, or [k]. *)
Definition on_registered {A} o (a : ChunkAddress) (k : nat → ChunkQueues → A → Owner → Prop) (r : result A) o' : Prop :=
  match r with
  | Failed e => e = MissingChunk ∧ o' = o ∧ registered_at o a None
  | Done x => ∃ i c, chunks o !! i = Some c ∧ cq_address c = a ∧ cq_registered c = true ∧ k i c x o'
  end.

Definition sets_eligible o a e : result () → Owner → Prop :=
  on_registered o a (λ i c _ o', o' = with_chunks o (<[i := with_flags c true e]> (chunks o))).

Lemma set_eligible_spec a e o :
  owner_ok o → wp (set_eligible a e) (λ r o', owner_ok o' ∧ sets_eligible o a e r o') o.
Proof.
  intros Ho. pose proof (oc_chunks o (ow_core o Ho)) as Hk. unfold set_eligible. apply wp_bind, registered_or_fail_spec; [done| |done].
  intros i c Hc Ha Hr. apply wp_bind, (wp_chunk_at i c); [done|]. apply wp_set_chunk. rewrite Hr. split.
  - apply (owner_chunk o i c); [done|done|done|done| |].
    + intros d. by apply (chunk_queue_ok _ _ i c d Hk).
    + intros d. unfold due. cbn [cq_registered with_flags]. by rewrite Hr.
  - by exists i, c.
Qed.

Definition detaches o a : result () → Owner → Prop :=
  on_registered o a (λ i c _ o', chunks o' = <[i := with_flags c false (cq_eligible c)]> (chunks o)).

Lemma detach_chunk_spec a o :
  owner_ok o → wp (detach_chunk a) (λ r o', owner_ok o' ∧ detaches o a r o') o.
Proof.
  intros Ho. pose proof (oc_chunks o (ow_core o Ho)) as Hk. unfold detach_chunk. apply wp_bind, registered_or_fail_spec; [done| |done].
  intros i c Hc Ha Hr. apply wp_bind, (wp_chunk_at i c); [done|]. apply wp_bind, wp_set_chunk.
  set (c' := with_flags c false (cq_eligible c)). set (o1 := with_chunks o _).
  assert (owner_core o1) as Hc1.
  { apply (core_chunk o i c c' (ow_core o Ho) Hc); [done|done|]. intros d. by apply (chunk_queue_ok _ _ i c d Hk). }
  assert (Htl : ∀ d M, index_rep (timeline o d) M → Z.of_nat (max_keys (timeline o d)) = max_chunks (limits o) →
    indexed (chunks o) (due d []) M → ∀ s, index_rep s (delete (key_of c) M) → max_keys s = max_keys (timeline o d) →
    timeline_ok (limits o) (chunks o1) d [] s).
  { intros d M Hi Hm HM s Hs Hms. exists (delete (key_of c) M). split; [done|]. split; [by rewrite Hms|].
    by apply (indexed_delete (limits o) _ (due d []) _ M i c c' Hk HM Hc). }
  destruct (ow_timeline o Ho DBlock) as (Mb&Hib&Hmb&HMb), (ow_timeline o Ho DFluid) as (Mf&Hif&Hmf&HMf). rewrite <- Ha.
  apply wp_bind, (timeline_remove_spec DBlock (key_of c) Mb); [done|]. intros sb Hsb Hmsb.
  apply (timeline_remove_spec DFluid (key_of c) Mf); [done|]. intros sf Hsf Hmsf.
  split; [|by exists i, c]. split; [by do 2 apply core_timeline|apply (ow_ready o Ho)|].
  intros []; cbn [timeline with_timeline block_index fluid_index].
  - by apply (Htl DBlock Mb Hib Hmb HMb).
  - by apply (Htl DFluid Mf Hif Hmf HMf).
Qed.

(** Discarding gives back exactly the memory the detached chunk retained. *)
Definition discards o (a : ChunkAddress) (r : result ()) o' : Prop :=
  match r with
  | Failed _ => o' = o
  | Done _ => ∃ i c, chunks o !! i = Some c ∧ cq_address c = a ∧ cq_registered c = false ∧
      chunks o' = delete i (chunks o) ∧ allocated_bytes o' = allocated_bytes o - chunk_bytes c
  end.

Lemma total_bytes_delete cs i c : cs !! i = Some c → total_bytes (delete i cs) = total_bytes cs - chunk_bytes c.
Proof. intros Hc. rewrite (total_bytes_split cs i c Hc), delete_take_drop, total_bytes_app. lia. Qed.

Lemma discard_detached_chunk_spec a o :
  owner_ok o → wp (discard_detached_chunk a) (λ r o', owner_ok o' ∧ discards o a r o') o.
Proof.
  intros Ho. unfold discard_detached_chunk. apply wp_bind. unfold wp at 1, get_owner. cbv beta iota.
  pose proof (oc_chunks o (ow_core o Ho)) as Hk. pose proof (find_spec (chunks o) a (ck_sorted _ _ Hk)) as Hf.
  destruct (find (chunks o) a) as [i|i]; [|by wp_steps]. destruct Hf as (c&Hc&Ha).
  apply wp_bind, (wp_chunk_at i c); [done|]. destruct (cq_registered c) eqn:Hr; [by wp_steps|].
  destruct (ow_core o Ho) as [Hl _ Hrd Hp Hw [Hm (Hb&Hsum)]]. pose proof (total_bytes_delete _ _ _ Hc) as Hdel.
  pose proof (total_bytes_nonneg _ _ (chunks_ok_remove _ _ i Hk)). pose proof (workspace_bytes_nonneg _ Hw).
  pose proof (chunk_bytes_nonneg _ _ _ _ Hk Hc). apply wp_bind, release_spec; [lia|]. wp_steps. split.
  - split; [|apply (ow_ready o Ho)|].
    + split; [done|by apply chunks_ok_remove|done|done|done|]. split; cbn [allocated_bytes limits chunks workspace with_chunks with_allocated]; [lia|].
      split; [done|lia].
    + intros d. destruct (ow_timeline o Ho d) as (M&Hi&Hms&HM). exists M. split; [by destruct d|]. split; [by destruct d|].
      by apply (indexed_remove (limits o) _ M i c d Hk HM Hc).
  - by exists i, c.
Qed.

(** ** Scheduling *)

(** What creating a tick in a registered chunk does: the identity set decides,
    then the limit; only an added tick changes anything. *)
Definition creates o (i : nat) c d (t : ScheduledTick) (r : result ScheduleOutcome) o' : Prop :=
  ∃ X : gset Identity, ids_rep (q_ids (queue c d)) X ∧
    match r with
    | Done Duplicate => identity t ∈ X ∧ o' = o
    | Failed QueueFull => identity t ∉ X ∧ queue_count (queue c d) = queued_per_chunk (limits o) ∧ o' = o
    | Done Added => identity t ∉ X ∧ queue_count (queue c d) < queued_per_chunk (limits o) ∧
        ∃ q s, o' = with_timeline (with_chunks o (<[i := with_queue c d q]> (chunks o))) d s ∧
          ids_rep (q_ids q) ({[identity t]} ∪ X) ∧ items_of q ≡ₚ t :: items_of (queue c d) ∧ q_pending q = q_pending (queue c d)
    | _ => False
    end.

Lemma schedule_created_spec o i c d t :
  owner_ok o → chunks o !! i = Some c → cq_registered c = true →
  wp (schedule_created d i t) (λ r o', owner_ok o' ∧ creates o i c d t r o') o.
Proof.
  intros Ho Hc Hreg. unfold schedule_created. apply wp_bind. unfold wp at 1, get_owner. cbv beta iota.
  apply wp_bind, (wp_chunk_at i c); [done|]. pose proof (oc_chunks o (ow_core o Ho)) as Hk.
  pose proof (chunk_queue_ok _ _ i c d Hk Hc) as Hq. destruct (qo_ids _ _ Hq) as (X&HX&Hsub). cbv zeta.
  apply wp_bind, (wp_run _ _ _ _ (ids_contains_spec _ X (identity t) HX)). case_bool_decide as Hin.
  { wp_steps. split; [done|]. by exists X. }
  destruct (Z.eqb_spec (queue_count (queue c d)) (queued_per_chunk (limits o))) as [Hfull|Hroom].
  { wp_steps. split; [done|]. by exists X. }
  pose proof (qo_count _ _ Hq) as Hcount. assert (queue_count (queue c d) < queued_per_chunk (limits o)) as Hlt by lia.
  destruct (ids_insert_spec (q_ids (queue c d)) X (identity t) HX) as (ids&Hins&HY&_).
  { right. pose proof (ids_size_le X _ Hsub) as Hsz. pose proof (qo_slots _ _ Hq). rewrite queue_count_eq in Hlt. unfold zlen in *. lia. }
  apply wp_bind, (wp_run _ ids _ _ Hins).
  destruct (queue_push_ok _ _ t ids Hq Hlt (or_intror Hins)) as (hp&Hpush&Hq'&Hitems&Hbytes&Hhead).
  apply wp_bind, (wp_run _ hp _ _ Hpush). apply wp_bind, wp_set_chunk. fold (queue_with (queue c d) hp ids). set (q := queue_with (queue c d) hp ids) in *.
  assert (Hdone : ∀ s, owner_ok (with_timeline (with_chunks o (<[i := with_queue c d q]> (chunks o))) d s) →
    owner_ok (with_timeline (with_chunks o (<[i := with_queue c d q]> (chunks o))) d s) ∧
    creates o i c d t (Done Added) (with_timeline (with_chunks o (<[i := with_queue c d q]> (chunks o))) d s)).
  { intros s Hs. split; [done|]. exists X. split; [done|]. split; [done|]. split; [done|]. by exists q, s. }
  unfold queue_peek. rewrite queue_of_with. cbn [q_heap q queue_with]. apply wp_bind. case_bool_decide as Hpk.
  - change (packed_chunk (cq_address (with_queue c d q))) with (key_of c).
    apply (owner_chunk_put o i c d q (trigger_tick t)); [done|done|done|done|done|unfold head_time; cbn; by rewrite Hpk|].
    intros s Hs. wp_steps. by apply Hdone.
  - wp_steps. rewrite <- (with_timeline_id (with_chunks o (<[i := with_queue c d q]> (chunks o))) d). apply Hdone. rewrite with_timeline_id.
    apply (owner_chunk o i c); [done|done|done|by apply with_queue_bytes| |].
    + intros d'. rewrite queue_with_queue. destruct (decide (d = d')); [exact Hq'|by apply (chunk_queue_ok _ _ i c d' Hk)].
    + intros d'. apply due_with_queue. by destruct Hhead as [|[_ ?]].
Qed.

Lemma owner_sub_tick o n : owner_ok o → owner_ok (with_sub_tick o n).
Proof. by intros [[] ? ?]. Qed.

(** What scheduling does.  Only an unknown type leaves the order unused. *)
Definition schedules o d pos type game_time delay prio (r : result ScheduleOutcome) o' : Prop :=
  let o1 := with_sub_tick o (i_wrap 64 (next_sub_tick o + 1)) in
  if type_count o d <=? type then r = Failed InvalidType ∧ o' = o
  else
    (r = Done MissingContainer ∧ o' = o1 ∧ registered_at o (chunk_of pos) None) ∨
    ∃ i c, chunks o !! i = Some c ∧ cq_address c = chunk_of pos ∧ cq_registered c = true ∧
      creates o1 i c d {| position := pos; type_id := type; trigger_tick := i_wrap 64 (game_time + delay);
                          priority := prio; sub_tick_order := next_sub_tick o |} r o'.

Lemma schedule_spec d pos type game_time delay prio o :
  owner_ok o → wp (schedule d pos type game_time delay prio) (λ r o', owner_ok o' ∧ schedules o d pos type game_time delay prio r o') o.
Proof.
  intros Ho. unfold schedule, schedules. apply wp_bind. unfold wp at 1, get_owner. cbv beta iota.
  destruct (type_count o d <=? type); [by wp_steps|]. apply wp_bind. unfold wp at 1, set_owner. cbv beta iota.
  set (o1 := with_sub_tick o _). assert (owner_ok o1) as Ho1 by by apply owner_sub_tick.
  apply wp_bind, registered_spec; [apply (oc_chunks o (ow_core o Ho))|]. intros [i|] Hr.
  - destruct Hr as (c&Hc&Ha&Hreg). eapply wp_mono; [by apply (schedule_created_spec o1 i c)|]. intros r o' [Hok Hcr].
    split; [done|]. right. by exists i, c.
  - wp_steps. split; [done|]. by left.
Qed.

(** What asking for a scheduled tick answers. *)
Definition answers_scheduled o d (pos : TickPosition) (type : Z) (r : result bool) : Prop :=
  (r = Done false ∧ registered_at o (chunk_of pos) None) ∨
  ∃ i c (X : gset Identity), chunks o !! i = Some c ∧ cq_address c = chunk_of pos ∧ cq_registered c = true ∧ ids_rep (q_ids (queue c d)) X ∧
    r = Done (bool_decide ({| id_position := pos; id_type := type |} ∈ X)).

Lemma has_scheduled_spec d pos type o :
  owner_ok o → wp (has_scheduled d pos type) (λ r o', o' = o ∧ answers_scheduled o d pos type r) o.
Proof.
  intros Ho. unfold has_scheduled. pose proof (oc_chunks o (ow_core o Ho)) as Hk. apply wp_bind, registered_spec; [done|]. intros [i|] Hr.
  - destruct Hr as (c&Hc&Ha&Hreg). apply wp_bind, (wp_chunk_at i c); [done|].
    destruct (qo_ids _ _ (chunk_queue_ok _ _ i c d Hk Hc)) as (X&HX&_).
    apply (wp_run _ _ _ _ (ids_contains_spec _ X _ HX)). split; [done|]. right. by exists i, c, X.
  - wp_steps. split; [done|]. by left.
Qed.
End ops.
