(* ===== verification/TickPhase.v ===== *)
(** * The scheduled-tick owner: the phase

    A phase collects the due ticks of one domain into a selection, hands them
    out in order and ends.  This file states which ticks are selected and in
    which order, as an abstract merge over the chunks, and shows that
    [begin_phase] computes it through the timelines and the ready heap; and what
    the consumers of the selection see of it. *)

From stdpp Require Import list sets fin_maps gmap sorting.
From S2P Require Import Prelude.
From S2P Require Import Sorted.
From S2P Require Import View.
From S2P Require Import TickTypes.
From S2P Require Import TickHeap.
From S2P Require Import TickTables.
From S2P Require Import TickIndex.
From S2P Require Import TickOwner.
From S2P Require Import TickOwnerInv.
From S2P Require Import TickOwnerOps.
Local Open Scope Z_scope.
Local Open Scope op_scope.

Section consume.
Context `{Allocator} `{TickLayout} {base : Z}.
Notation owner_core := (owner_core base).
Notation owner_ok := (owner_ok base).
Implicit Types (o : Owner) (p : Phase).

Lemma core_phase o p : owner_core o → phase_ok (limits o) p → owner_core (with_phase o p).
Proof. intros [] Hp. by split. Qed.
Lemma owner_phase o p : owner_ok o → phase_ok (limits o) p → owner_ok (with_phase o p).
Proof. intros [Hc Hr Ht] Hp. split; [by apply core_phase|done|]. intros d. pose proof (Ht d). by destruct d. Qed.

(** What remains to be handed out. *)
Definition remaining p : list ScheduledTick := drop (cursor p) (selected p).

(** Asking whether a tick is still to come in this phase.  The set behind the
    answer is built from the remaining ticks when it is empty, and only then. *)
Definition answers_will_tick o d (pos : TickPosition) (type : Z) (r : result bool) o' : Prop :=
  let p := phase o in
  if decide (active p = Some d) then
    ∃ (X Y : gset Identity) ids, ids_rep (selected_ids p) X ∧ ids_rep ids Y ∧
      Y = (if decide (X = ∅) then list_to_set (identity <$> remaining p) else X) ∧
      o' = with_phase o (with_selected_ids p ids) ∧ r = Done (bool_decide ({| id_position := pos; id_type := type |} ∈ Y))
  else r = Done false ∧ o' = o.

Lemma counts_domain l : dom (counts_of l) = (list_to_set l : gset Identity).
Proof.
  induction l as [|i l IH]; [unfold counts_of; cbn [foldr list_to_set]; by rewrite dom_empty_L|]. cbn [counts_of foldr list_to_set]. fold (counts_of l).
  unfold count_up. by rewrite dom_insert_L, IH.
Qed.

(** The identities still counted are those still to come. *)
Lemma counted_identities s l : rc_rep s (counts_of l) → (list_to_set (rc_identities s) : gset Identity) = list_to_set l.
Proof.
  intros Hr. rewrite <- (counts_domain l). apply set_eq. intros i. rewrite elem_of_list_to_set.
  rewrite (bc_items _ _ _ _ _ _ remaining_are_counts s _ Hr), elem_of_dom. split.
  - intros Hin. apply list_elem_of_fmap in Hin as ([j n]&->&Hin). apply elem_of_map_to_list in Hin. by exists n.
  - intros [n Hn]. apply list_elem_of_fmap. exists (i, n). split; [done|]. by apply elem_of_map_to_list.
Qed.

Lemma will_tick_spec d pos type o :
  owner_ok o → wp (will_tick_this_phase d pos type) (λ r o', owner_ok o' ∧ answers_will_tick o d pos type r o') o.
Proof.
  intros Ho. unfold will_tick_this_phase, answers_will_tick. apply wp_bind. unfold wp at 1, get_owner. cbv beta iota zeta.
  set (p := phase o). pose proof (oc_phase o (ow_core o Ho)) as Hp. fold p in Hp.
  destruct (decide (active p = Some d)) as [Ha|Ha]; [rewrite (bool_decide_eq_true_2 _ Ha)|rewrite (bool_decide_eq_false_2 _ Ha); by wp_steps].
  destruct (po_ids _ _ Hp) as (X&HX&HXs).
  set (Y := if decide (X = ∅) then list_to_set (identity <$> remaining p) else X : gset Identity).
  assert (Hsz : (size (list_to_set (identity <$> remaining p) : gset Identity) ≤ Z.to_nat (selected_per_phase (limits o)))%nat).
  { pose proof (ids_size_le (list_to_set (identity <$> remaining p)) _ (reflexivity _)) as Hs. rewrite length_fmap in Hs.
    assert (length (remaining p) ≤ length (selected p))%nat by (unfold remaining; rewrite length_drop; lia).
    pose proof (po_length _ _ Hp). unfold zlen in *. lia. }
  assert (Hfinish : ∀ ids, ids_rep ids Y → length (id_slots ids) = length (id_slots (selected_ids p)) →
    wp (let* _ := set_owner (λ o, with_phase o (with_selected_ids p ids)) in
        run (ids_contains ids {| id_position := pos; id_type := type |}))
      (λ r o', owner_ok o' ∧ ∃ (X Y : gset Identity) ids, ids_rep (selected_ids p) X ∧ ids_rep ids Y ∧
         Y = (if decide (X = ∅) then list_to_set (identity <$> remaining p) else X) ∧
         o' = with_phase o (with_selected_ids p ids) ∧ r = Done (bool_decide ({| id_position := pos; id_type := type |} ∈ Y))) o).
  { intros ids HY Hlen. apply wp_bind. unfold wp at 1, set_owner. cbv beta iota. apply (wp_run _ _ _ _ (ids_contains_spec _ Y _ HY)). split.
    - apply owner_phase; [done|]. destruct Hp as [H1 H2 H3 H4 H5 H6 H7]. split; cbn [selected_ids selected remaining_ids cursor active with_selected_ids]; try done.
      + exists Y. split; [done|]. unfold Y. case_decide; [lia|done].
      + unfold zlen in *. by rewrite Hlen.
    - by exists X, Y, ids. }
  apply wp_bind. assert (id_count (selected_ids p) = size X) as Hcnt by apply (ir_count _ _ HX). rewrite Hcnt.
  destruct (Nat.eqb_spec (size X) 0) as [Hz|Hnz]; cbn [andb].
  - apply size_empty_inv, leibniz_equiv in Hz as ->. 
    assert (Y = list_to_set (identity <$> remaining p)) as HYe by (unfold Y; by rewrite decide_True).
    destruct (Z.ltb_spec (Z.of_nat (cursor p)) (zlen (selected p))) as [Hlt|Hge].
    + destruct (insert_all_within (selected_ids p) ∅ (rc_identities (remaining_ids p)) (Z.to_nat (selected_per_phase (limits o))) HX)
        as (ids&Hins&Hids&Hlen).
      { rewrite union_empty_r_L, (counted_identities _ _ (po_counts _ _ Hp)). exact Hsz. }
      { pose proof (po_slots _ _ Hp). pose proof (lo_selected _ (oc_limits o (ow_core o Ho))). unfold zlen in *. lia. }
      rewrite union_empty_r_L, (counted_identities _ _ (po_counts _ _ Hp)) in Hids. apply (wp_run _ ids _ _ Hins). apply Hfinish; [by rewrite HYe|done].
    + wp_steps. apply Hfinish; [|done]. assert (remaining p = []) as Hr by (unfold remaining; apply drop_ge; unfold zlen in *; lia).
      by rewrite HYe, Hr.
  - wp_steps. apply Hfinish; [|done]. unfold Y. rewrite decide_False; [done|]. intros ->. by rewrite size_empty in Hnz.
Qed.

(** Handing out the next tick. *)
Definition hands_out o (r : result (option ScheduledTick)) o' : Prop :=
  let p := phase o in
  match active p with
  | None => r = Failed NoActivePhase ∧ o' = o
  | Some _ => r = Done (head (remaining p)) ∧
      match remaining p with
      | [] => o' = o
      | t :: _ => ∃ (X : gset Identity) ids counts, ids_rep (selected_ids p) X ∧ ids_rep ids (X ∖ {[identity t]}) ∧
          o' = with_phase o {| selected := selected p; selected_ids := ids; remaining_ids := counts; cursor := S (cursor p); active := active p |}
      end
  end.

Lemma next_due_spec o : owner_ok o → wp next_due (λ r o', owner_ok o' ∧ hands_out o r o') o.
Proof.
  intros Ho. unfold next_due, hands_out. apply wp_bind. unfold wp at 1, get_owner. cbv beta iota zeta. set (p := phase o).
  pose proof (oc_phase o (ow_core o Ho)) as Hp. fold p in Hp. destruct (active p) as [d|] eqn:Ha; [|by wp_steps].
  assert (remaining p = match selected p !! cursor p with Some t => t :: drop (S (cursor p)) (selected p) | None => [] end) as Hrem.
  { unfold remaining. destruct (selected p !! cursor p) as [t|] eqn:Ht; [by apply drop_S|by apply drop_ge, lookup_ge_None]. }
  rewrite Hrem. destruct (selected p !! cursor p) as [t|] eqn:Ht; [|by wp_steps].
  destruct Hp as [(X&HX&HXs) Hslots Hcounts Hlimit Hlen Hcur Hidle]. fold (remaining p) in Hcounts. rewrite Hrem in Hcounts. cbn [fmap list_fmap] in Hcounts.
  destruct (rc_remove_spec _ _ (identity t) Hcounts) as (counts&Hrc&Hcounts'&Hl'). rewrite counts_tail in Hcounts'.
  destruct (ids_remove_spec _ X (identity t) HX) as (ids&Hids&HY&Hlen').
  apply wp_bind, (wp_run _ counts _ _ Hrc). apply wp_bind, (wp_run _ ids _ _ Hids). wp_steps. split.
  - apply owner_phase; [done|]. split; cbn [selected_ids selected remaining_ids cursor active].
    + exists (X ∖ {[identity t]}). split; [done|]. assert (size (X ∖ {[identity t]}) ≤ size X)%nat; [|lia]. apply subseteq_size. set_solver.
    + unfold zlen in *. by rewrite Hlen'.
    + done.
    + by rewrite Hl'.
    + done.
    + apply lookup_lt_Some in Ht. lia.
    + done.
  - split; [done|]. by exists X, ids, counts.
Qed.

(** Ending the phase. *)
Definition finishes o (r : result ()) o' : Prop :=
  let p := phase o in
  match active p with
  | None => r = Failed NoActivePhase ∧ o' = o
  | Some _ => if decide (remaining p = []) then
        r = Done tt ∧ active (phase o') = None ∧ selected (phase o') = [] ∧ chunks o' = chunks o
      else r = Failed UnconsumedTicks ∧ o' = o
  end.

Lemma finish_phase_spec o : owner_ok o → wp finish_phase (λ r o', owner_ok o' ∧ finishes o r o') o.
Proof.
  intros Ho. unfold finish_phase, finishes. apply wp_bind. unfold wp at 1, get_owner. cbv beta iota zeta. set (p := phase o).
  pose proof (oc_phase o (ow_core o Ho)) as Hp. fold p in Hp. destruct (active p) as [d|] eqn:Ha; [|by wp_steps].
  destruct Hp as [(X&HX&HXs) Hslots Hcounts Hlimit Hlen Hcur Hidle].
  assert (remaining p = [] ↔ cursor p = length (selected p)) as Hiff.
  { unfold remaining. split; [intros He; apply (f_equal length) in He; rewrite length_drop in He; cbn in He; lia|intros ->; by apply drop_ge]. }
  destruct (decide (remaining p = [])) as [Hrem|Hrem]; rewrite Hiff in Hrem;
    [rewrite (bool_decide_eq_true_2 _ Hrem)|rewrite (bool_decide_eq_false_2 _ Hrem); by wp_steps].
  wp_steps. split; [|done]. destruct (ids_clear_spec _ _ HX) as [Hids Hl]. destruct (rc_clear_spec _ _ Hcounts) as [Hrc Hrl].
  apply owner_phase; [done|]. split; cbn [selected_ids selected remaining_ids cursor active]; try done.
  - exists ∅. rewrite size_empty. split; [done|]. pose proof (lo_selected _ (oc_limits o (ow_core o Ho))). lia.
  - unfold zlen in *. by rewrite Hl.
  - by rewrite Hrl.
  - pose proof (lo_selected _ (oc_limits o (ow_core o Ho))). unfold zlen. cbn. lia.
Qed.
End consume.

(** ** Which ticks a phase selects *)

Section merge.
Context `{Allocator} `{TickLayout} {base : Z}.
Notation owner_core := (owner_core base).
Notation owner_ok := (owner_ok base).
Variables (d : TickDomain) (now : Z).
Implicit Types (o : Owner) (c : ChunkQueues) (t : ScheduledTick).

(** The tick that a registered, eligible chunk offers: its first, once due. *)
Definition available c : option ScheduledTick :=
  if cq_registered c && cq_eligible c then
    t ← queue_peek c d; if trigger_tick t <=? now then Some t else None
  else None.

(** The selection as a merge: each tick is the first of an available chunk, and
    no other available chunk offers one of a lower priority value and order. *)
Inductive merges : list ChunkQueues → list ScheduledTick → list ChunkQueues → Prop :=
  | merges_done cs : merges cs [] cs
  | merges_pop cs i c t q l cs' :
      cs !! i = Some c → available c = Some t →
      (∀ j cj tj, cs !! j = Some cj → available cj = Some tj → order_gt (within_tick t) (within_tick tj) = false) →
      queue_pop (queue c d) = Ok (Some t, q) → merges (<[i := with_queue c d q]> cs) l cs' → merges cs (t :: l) cs'.

Lemma merges_app cs l cs' l' cs'' : merges cs l cs' → merges cs' l' cs'' → merges cs (l ++ l') cs''.
Proof. induction 1; [done|]. intros Hm. cbn. eapply merges_pop; eauto. Qed.

Lemma available_spec c t :
  available c = Some t ↔ cq_registered c = true ∧ cq_eligible c = true ∧ queue_peek c d = Some t ∧ trigger_tick t ≤ now.
Proof.
  unfold available. destruct (cq_registered c), (cq_eligible c); cbn [andb]; try (split; [done|by intros (?&?&_)]).
  destruct (queue_peek c d) as [t'|]; cbn [mbind option_bind]; [|split; [done|by intros (_&_&?&_)]].
  destruct (Z.leb_spec (trigger_tick t') now); split; [intros [= <-]; done|by intros (_&_&[= ->]&_)|done|intros (_&_&[= ->]&?); lia].
Qed.

(** ** The ready heap *)

Definition ready_of (i : nat) t : ReadyChunk :=
  {| ready_index := i; ready_priority := priority t; ready_sub_order := sub_tick_order t |}.
Definition indices o : list nat := ready_index <$> values (ready o).

(** The ready heap lists available chunks, each once, under its first tick. *)
Record listed o : Prop := {
  ls_nodup : NoDup (indices o);
  ls_entry r : r ∈ values (ready o) → ∃ c t, chunks o !! ready_index r = Some c ∧ available c = Some t ∧ r = ready_of (ready_index r) t;
}.

Lemma listed_ext o o' : ready o' = ready o → chunks o' = chunks o → listed o → listed o'.
Proof. intros Hr Hc [Hn He]. split; unfold indices; by rewrite Hr, ?Hc. Qed.

(** While ticks are being selected: the chunks in the ready heap and the one
    being drained are away from the timeline. *)
Record merging o (cur : list nat) : Prop := {
  mg_core : owner_core o;
  mg_listed : listed o;
  mg_apart i : i ∈ cur → i ∉ indices o;
  mg_here : timeline_ok (limits o) (chunks o) d (cur ++ indices o) (timeline o d);
  mg_there d' : d' ≠ d → timeline_ok (limits o) (chunks o) d' [] (timeline o d');
  mg_active : active (phase o) = Some d;
  mg_cursor : cursor (phase o) = 0%nat;
}.
Definition complete o (cur : list nat) : Prop :=
  ∀ i c t, chunks o !! i = Some c → available c = Some t → i ∈ cur ++ indices o.

Lemma due_ext d' a a' i c : (i ∈ a ↔ i ∈ a') → due d' a i c = due d' a' i c.
Proof. intros He. unfold due. by rewrite (bool_decide_ext (i ∈ a) (i ∈ a') He). Qed.
Lemma timeline_ext l cs d' a a' s : (∀ i, i ∈ a ↔ i ∈ a') → timeline_ok l cs d' a s → timeline_ok l cs d' a' s.
Proof.
  intros He (M&Hr&Hm&[Hen Hon]). exists M. split; [done|]. split; [done|]. split; [|done].
  intros i c Hc. rewrite (Hen i c Hc). by apply due_ext.
Qed.

Lemma core_ready o h : owner_core o → ready_ok (limits o) h → owner_core (with_ready o h).
Proof. intros [] Hr. by split. Qed.

(** A chunk apart from the ready heap leaves room in it. *)
Lemma ready_room o i :
  owner_core o → listed o → i ∉ indices o → (i < length (chunks o))%nat → zlen (values (ready o)) < limit (ready o).
Proof.
  intros Ho [Hnd He] Hi Hlt. rewrite (rd_limit _ _ (oc_ready o Ho)).
  assert (i :: indices o ⊆+ seq 0 (length (chunks o))) as Hsub.
  { apply NoDup_submseteq; [by constructor|]. intros j [->|Hj]%elem_of_cons; [apply elem_of_seq; lia|].
    unfold indices in Hj. apply list_elem_of_fmap in Hj as (r&->&Hr). destruct (He r Hr) as (c&t&Hc&_).
    apply lookup_lt_Some in Hc. apply elem_of_seq. lia. }
  apply submseteq_length in Hsub. unfold indices in Hsub. cbn in Hsub. rewrite length_fmap, length_seq in Hsub.
  pose proof (ck_length _ _ (oc_chunks o Ho)). unfold zlen in *. lia.
Qed.

Lemma push_ready o i c t :
  owner_core o → listed o → i ∉ indices o → chunks o !! i = Some c → available c = Some t →
  ∃ h, ready_push (E := False) (ready o) (ready_of i t) = Ok h ∧ owner_core (with_ready o h) ∧ listed (with_ready o h) ∧
    ∀ j, j ∈ indices (with_ready o h) ↔ j ∈ i :: indices o.
Proof.
  intros Ho Hl Hi Hc Ha. pose proof (ready_room o i Ho Hl Hi ltac:(by eapply lookup_lt_Some)) as Hroom.
  pose proof (rd_wf _ _ (oc_ready o Ho)) as Hw. pose proof (pq_push _ _ _ _ _ _ _ (heap_is_queue ready_precedes) (ready o) (ready_of i t) Hw) as Hp.
  destruct (Z.ltb_spec (zlen (values (ready o))) (limit (ready o))); [|lia]. destruct Hp as (h&Hpush&Hw'&Hlim&Hperm).
  assert (indices (with_ready o h) ≡ₚ i :: indices o) as Hperm'.
  { unfold indices. cbn [ready with_ready]. by rewrite Hperm. }
  exists h. split; [exact Hpush|]. split.
  { apply core_ready; [done|]. split; [done|]. by rewrite Hlim, (rd_limit _ _ (oc_ready o Ho)). }
  split; [split|].
  - rewrite Hperm'. constructor; [done|apply Hl].
  - cbn [ready with_ready chunks]. intros r Hr. rewrite Hperm in Hr. apply elem_of_cons in Hr as [->|Hr]; [by exists c, t|by apply Hl].
  - intros j. by rewrite Hperm'.
Qed.

(** ** Draining one chunk *)

Lemma merging_incl o cur cur' : (∀ i, i ∈ cur ↔ i ∈ cur') → merging o cur → merging o cur'.
Proof.
  intros He []. split; try done.
  - intros i Hi. apply mg_apart0. by apply He.
  - eapply timeline_ext; [|done]. intros i. rewrite !elem_of_app. by rewrite He.
Qed.

(** No ready chunk goes before the tick. *)
Definition first o i t : Prop := ∀ r, r ∈ values (ready o) → ready_precedes r (ready_of i t) = false.

Lemma order_gt_ready i j a b : order_gt (within_tick a) (within_tick b) = ready_precedes (ready_of j b) (ready_of i a).
Proof. reflexivity. Qed.
Lemma order_gt_refl a : order_gt a a = false.
Proof. unfold order_gt. rewrite !Z.ltb_irrefl. by destruct (_ =? _). Qed.

Lemma first_min o i c t :
  listed o → complete o [i] → chunks o !! i = Some c → available c = Some t → first o i t →
  ∀ j cj tj, chunks o !! j = Some cj → available cj = Some tj → order_gt (within_tick t) (within_tick tj) = false.
Proof.
  intros Hl Hcm Hc Ha Hf j cj tj Hj Haj. destruct (decide (j = i)) as [->|Hne].
  { rewrite Hc in Hj. injection Hj as <-. rewrite Ha in Haj. injection Haj as <-. apply order_gt_refl. }
  pose proof (Hcm j cj tj Hj Haj) as Hin. apply elem_of_app in Hin as [Hin|Hin]; [set_solver|].
  unfold indices in Hin. apply list_elem_of_fmap in Hin as (r&->&Hr). destruct (ls_entry o Hl r Hr) as (c'&t'&Hc'&Ha'&Hreq).
  rewrite Hj in Hc'. injection Hc' as <-. rewrite Haj in Ha'. injection Ha' as <-.
  rewrite (order_gt_ready i (ready_index r)), <- Hreq. by apply Hf.
Qed.

(** The popped tick joins the selection. *)
Lemma phase_select l p t counts :
  phase_ok l p → cursor p = 0%nat → active p = Some d → zlen (selected p) < selected_per_phase l →
  rc_rep counts (counts_of (identity <$> (selected p ++ [t]))) → rc_limit counts = rc_limit (remaining_ids p) →
  phase_ok l (with_selection p (selected p ++ [t]) counts).
Proof.
  intros [] Hc Ha Hlt Hr Hl. split; cbn [selected_ids selected remaining_ids cursor active with_selection]; try done.
  - by rewrite Hc.
  - by rewrite Hl.
  - unfold zlen in *. rewrite length_app. cbn. lia.
  - lia.
  - by rewrite Ha.
Qed.

Lemma count_selected l p t :
  phase_ok l p → cursor p = 0%nat → zlen (selected p) < selected_per_phase l → selected_per_phase l ≤ MAX_SCHEDULED_TICKS_PER_PHASE →
  ∃ counts, rc_add (remaining_ids p) (identity t) = Ok counts ∧ rc_rep counts (counts_of (identity <$> (selected p ++ [t]))) ∧
    rc_limit counts = rc_limit (remaining_ids p).
Proof.
  intros [_ _ Hcounts Hlim Hlen _ _] Hc Hlt Hmax. rewrite Hc in Hcounts. change (drop 0 (selected p)) with (selected p) in Hcounts.
  pose proof (counts_max (identity <$> selected p) (identity t)) as Hcm. pose proof (counts_size (identity <$> selected p)) as Hcs.
  rewrite length_fmap in Hcs. unfold zlen in *. rewrite length_fmap in Hcm.
  assert (65536 < usize_max) as Hum by done. unfold MAX_SCHEDULED_TICKS_PER_PHASE in Hmax.
  pose proof (rc_add_spec _ _ (identity t) Hcounts ltac:(lia)) as Hadd. rewrite decide_False in Hadd by (intros [_ Hs]; lia).
  destruct Hadd as (counts&?&Hr&?). exists counts. split; [done|]. split; [|done]. rewrite fmap_app. cbn [fmap list_fmap]. by rewrite counts_snoc.
Qed.

(** A chunk that is away changes without notice. *)
Lemma merging_chunk o cur i c q :
  merging o cur → i ∈ cur → chunks o !! i = Some c → queue_ok (queued_per_chunk (limits o)) q → queue_bytes q = queue_bytes (queue c d) →
  merging (with_chunks o (<[i := with_queue c d q]> (chunks o))) cur.
Proof.
  intros [Hco Hls Hap Hh Hth Hac Hcu] Hi Hc Hq Hb. pose proof (oc_chunks o Hco) as Hk. split; try done.
  - by apply core_queue.
  - split; [apply Hls|]. intros r Hr. destruct (ls_entry o Hls r Hr) as (c'&t'&Hc'&?&?). exists c', t'. split; [|done].
    cbn [chunks with_chunks]. rewrite list_lookup_insert_ne; [done|]. intros ->. apply (Hap (ready_index r) Hi).
    unfold indices. apply list_elem_of_fmap. by exists r.
  - destruct Hh as (M&Hr&Hm&HM). exists M. split; [by destruct d|]. split; [by destruct d|].
    apply (indexed_keep (limits o) _ (due d (cur ++ indices o)) _ M i c _ Hk HM Hc); [done| |done].
    unfold due. assert (i ∈ cur ++ indices o) as Hin by (apply elem_of_app; by left).
    change (indices (with_chunks o (<[i:=with_queue c d q]> (chunks o)))) with (indices o).
    by rewrite !(bool_decide_eq_true_2 (i ∈ _) Hin), !andb_false_r.
  - intros d' Hne. destruct (Hth d' Hne) as (M&Hr&Hm&HM). exists M. split; [by destruct d'|]. split; [by destruct d'|].
    apply (indexed_keep (limits o) _ (due d' []) _ M i c _ Hk HM Hc); [done| |done].
    unfold due. by rewrite queue_with_queue, decide_False.
Qed.

Lemma merging_phase o cur p :
  merging o cur → phase_ok (limits o) p → active p = Some d → cursor p = 0%nat → merging (with_phase o p) cur.
Proof.
  intros [] Hp Ha Hc. split; try done.
  - by apply core_phase.
  - split; [apply mg_listed0|by apply (ls_entry o)].
Qed.

(** What draining chunk [i] leaves behind. *)
Definition drained o i (maximum : Z) (r : result ()) o' : Prop :=
  r = Done tt ∧ merging o' [i] ∧ complete o' [i] ∧ limits o' = limits o ∧ ready o' = ready o ∧
  (∃ c', chunks o' !! i = Some c' ∧ cq_registered c' = true ∧ cq_eligible c' = true) ∧
  ∃ l, l ≠ [] ∧ selected (phase o') = selected (phase o) ++ l ∧ zlen (selected (phase o')) ≤ maximum ∧ merges (chunks o) l (chunks o').

Lemma drain_spec maximum i : ∀ fuel o c t,
  merging o [i] → complete o [i] → chunks o !! i = Some c → available c = Some t → first o i t →
  zlen (selected (phase o)) < maximum ≤ selected_per_phase (limits o) → maximum - zlen (selected (phase o)) < Z.of_nat fuel →
  wp (drain_chunk fuel d now maximum i) (drained o i maximum) o.
Proof.
  induction fuel as [|fuel IH]; intros o c t Hm Hcm Hc Ha Hf Hmax Hfuel; [unfold zlen in *; lia|]. cbn [drain_chunk].
  pose proof (oc_chunks o (mg_core o _ Hm)) as Hk. pose proof (chunk_queue_ok _ _ i c d Hk Hc) as Hq.
  pose proof (proj1 (available_spec c t) Ha) as (Hreg&Hel&Hpk&_). unfold queue_peek in Hpk.
  destruct (queue_pop_ok _ _ t Hq Hpk) as (q&Hpop&Hq'&Hitems&Hbytes&_).
  pose proof (first_min o i c t (mg_listed o _ Hm) Hcm Hc Ha Hf) as Hmin.
  apply wp_bind, (wp_chunk_at i c); [done|]. apply wp_bind, (wp_run _ (Some t, q) _ _ Hpop). cbv beta iota.
  apply wp_bind, (wp_run _ t); [done|]. apply wp_bind, wp_set_chunk. set (c1 := with_queue c d q). set (o1 := with_chunks o _).
  assert (merging o1 [i]) as Hm1 by (apply merging_chunk; [done|set_solver|done..]).
  pose proof (oc_limits o (mg_core o _ Hm)) as Hlim. pose proof (oc_phase o (mg_core o _ Hm)) as Hp.
  destruct (count_selected _ _ t Hp (mg_cursor o _ Hm)) as (counts&Hadd&Hcr&Hcl); [lia|apply (lo_selected _ Hlim)|].
  apply wp_bind. unfold wp at 1, get_owner. cbv beta iota. apply wp_bind, (wp_run _ counts _ _ Hadd).
  apply wp_bind. unfold wp at 1, set_owner. cbv beta iota. cbn [phase o1 with_chunks].
  set (o2 := with_phase o1 _). assert (merging o2 [i]) as Hm2.
  { apply merging_phase; [done| |apply (mg_active o _ Hm)|apply (mg_cursor o _ Hm)].
    apply phase_select; [done|apply (mg_cursor o _ Hm)|apply (mg_active o _ Hm)|cbn [limits o1 with_chunks]; lia|done|done]. }
  assert (chunks o2 !! i = Some c1) as Hc2 by (cbn; rewrite list_lookup_insert_eq; [done|by eapply lookup_lt_Some]).
  assert (complete o2 [i]) as Hcm2.
  { intros j cj tj Hj Haj. destruct (decide (j = i)) as [->|Hne]; [set_solver|]. cbn in Hj. rewrite list_lookup_insert_ne in Hj by done. by apply (Hcm j cj tj). }
  assert (merges (chunks o) [t] (chunks o2)) as Hone by (apply (merges_pop _ i c t q [] _ Hc Ha Hmin Hpop); apply merges_done).
  assert (zlen (selected (phase o2)) = zlen (selected (phase o)) + 1) as Hlen2 by (cbn; unfold zlen; rewrite length_app; cbn; lia).
  assert (Hstop : drained o i maximum (Done tt) o2).
  { split; [done|]. split; [done|]. split; [done|]. split; [done|]. split; [done|]. split; [by exists c1|].
    exists [t]. split; [done|]. split; [done|]. split; [lia|done]. }
  apply wp_bind. unfold wp at 1, get_owner. cbv beta iota. destruct (Z.eqb_spec (zlen (selected (phase o2))) maximum) as [|Hnfull]; [exact Hstop|].
  destruct (scheduled_peek (q_heap q)) as [next|] eqn:Hnext; [|exact Hstop].
  destruct (Z.ltb_spec now (trigger_tick next)) as [|Hdue]; [exact Hstop|].
  assert (available c1 = Some next) as Ha2.
  { apply available_spec. split; [done|]. split; [done|]. split; [|lia]. unfold queue_peek, c1. by rewrite queue_of_with. }
  assert (first o2 i next → wp (drain_chunk fuel d now maximum i) (drained o i maximum) o2) as Hgo.
  { intros Hf2. eapply wp_mono; [apply (IH o2 c1 next Hm2 Hcm2 Hc2 Ha2 Hf2); [cbn [limits o2 o1 with_phase with_chunks]; lia|lia]|].
    intros r o' (->&?&?&?&?&?&l&Hl&Hsel&Hle&Hmg). split; [done|]. split; [done|]. split; [done|]. split; [done|]. split; [done|]. split; [done|].
    exists ([t] ++ l). split; [done|]. split; [rewrite Hsel; cbn [selected phase o2 with_phase with_selection]; by rewrite <- app_assoc|].
    split; [done|]. by eapply merges_app. }
  pose proof (pq_peek _ _ _ _ _ _ _ (heap_is_queue ready_precedes) (ready o2) (rd_wf _ _ (oc_ready o2 (mg_core o2 _ Hm2)))) as Hpeek.
  destruct (heap_peek (ready o2)) as [other|].
  - change (order_gt (within_tick next) _) with (ready_precedes other (ready_of i next)).
    destruct (ready_precedes other (ready_of i next)) eqn:Hother; [exact Hstop|]. apply Hgo. intros r Hr.
    destruct Hpeek as [_ Hall]. rewrite Forall_forall in Hall. exact (above_trans ready_precedes _ _ _ Hother (Hall r Hr)).
  - apply Hgo. intros r Hr. rewrite Hpeek in Hr. by apply elem_of_nil in Hr.
Qed.

(** ** Requeueing and collecting *)

Lemma merging_ready o cur h :
  merging o cur → owner_core (with_ready o h) → listed (with_ready o h) → (∀ i, i ∈ cur → i ∉ indices (with_ready o h)) →
  (∀ i, i ∈ cur ++ indices (with_ready o h) ↔ i ∈ cur ++ indices o) → merging (with_ready o h) cur.
Proof.
  intros [] Hc Hl Ha He. split; try done.
  - cbn [limits chunks with_ready]. replace (timeline (with_ready o h) d) with (timeline o d) by (by destruct d).
    eapply timeline_ext; [|done]. intros i. by rewrite He.
Qed.

(** A chunk with nothing due, or out of the selection, goes back to its timeline. *)
Lemma requeue_put o i c t (Q : result () → Owner → Prop) :
  merging o [i] → chunks o !! i = Some c → cq_registered c = true → queue_peek c d = Some t →
  (∀ s, merging (with_timeline o d s) [] → Q (Done tt) (with_timeline o d s)) →
  wp (timeline_put d (key_of c) (trigger_tick t)) Q o.
Proof.
  intros [Hco Hls Hap Hh Hth Hac Hcu] Hc Hreg Hpk HQ. destruct Hh as (M&Hr&Hm&HM). pose proof (oc_chunks o Hco) as Hk.
  apply (timeline_put_spec d i c _ (due d ([i] ++ indices o)) M); try done. intros s Hs Hms. apply HQ. split; try done.
  - by apply core_timeline.
  - by apply (listed_ext o).
  - intros j Hj. by apply elem_of_nil in Hj.
  - exists (<[key_of c := trigger_tick t]> M). rewrite timeline_with, decide_True by done. split; [done|]. split; [done|].
    rewrite <- (list_insert_id (chunks o) i c Hc) at 1.
    apply (indexed_put (limits o) _ (due d ([i] ++ indices o)) _ M i c c _ Hk HM Hc); [done| |].
    + unfold due, head_time. unfold queue_peek in Hpk. rewrite Hreg, Hpk. rewrite bool_decide_eq_false_2; [done|]. apply Hap. set_solver.
    + intros j cj Hne _. apply due_ext. cbn [app]. rewrite elem_of_cons. change (indices (with_timeline o d s)) with (indices o). naive_solver.
  - intros d' Hne. rewrite timeline_with, decide_False by done. by apply Hth.
Qed.

Definition requeued o (maximum : Z) (r : result ()) o' : Prop :=
  r = Done tt ∧ merging o' [] ∧ (zlen (selected (phase o)) < maximum → complete o' []) ∧ chunks o' = chunks o ∧ phase o' = phase o ∧
  limits o' = limits o.

Lemma requeue_spec maximum i o c :
  merging o [i] → complete o [i] → chunks o !! i = Some c → cq_registered c = true → cq_eligible c = true →
  wp (requeue d now maximum i) (requeued o maximum) o.
Proof.
  intros Hm Hcm Hc Hreg Hel. unfold requeue. apply wp_bind, (wp_chunk_at i c); [done|].
  assert (Hrest : available c = None → ∀ j cj tj, chunks o !! j = Some cj → available cj = Some tj → j ∈ indices o).
  { intros Hn j cj tj Hj Haj. pose proof (Hcm j cj tj Hj Haj) as Hin. cbn [app] in Hin. apply elem_of_cons in Hin as [->|Hin]; [|done].
    rewrite Hc in Hj. injection Hj as <-. congruence. }
  destruct (queue_peek c d) as [t|] eqn:Hpk.
  - apply wp_bind. unfold wp at 1, get_owner. cbv beta iota.
    destruct (Z.leb_spec (trigger_tick t) now) as [Hdue|Hlate]; [destruct (Z.ltb_spec (zlen (selected (phase o))) maximum) as [Hroom|Hfull]|]; cbn [andb].
    + assert (available c = Some t) as Ha by (by apply available_spec).
      destruct (push_ready o i c t (mg_core o _ Hm) (mg_listed o _ Hm)) as (h&Hpush&Hco&Hls&Hin); [apply (mg_apart o _ Hm); set_solver|done|done|].
      apply wp_bind, (wp_run _ h _ _ Hpush). unfold wp, set_owner. cbv beta iota. split; [done|]. split; [|split; [|done]].
      * destruct Hm as [? ? ? Hh Hth Hac Hcu]. split; try done.
        -- intros j Hj. by apply elem_of_nil in Hj.
        -- cbn [limits chunks with_ready]. replace (timeline (with_ready o h) d) with (timeline o d) by (by destruct d).
           eapply timeline_ext; [|exact Hh]. intros j. cbn [app]. by rewrite Hin.
      * intros _ j cj tj Hj Haj. cbn [app]. rewrite Hin. by apply (Hcm j cj tj).
    + change (packed_chunk (cq_address c)) with (key_of c). apply (requeue_put o i c t); try done. intros s Hs.
      split; [done|]. split; [done|]. split; [lia|done].
    + change (packed_chunk (cq_address c)) with (key_of c). apply (requeue_put o i c t); try done. intros s Hs.
      split; [done|]. split; [done|]. split; [|done]. intros _. intros j cj tj Hj Haj. apply (Hrest ltac:(unfold available; rewrite Hreg, Hel, Hpk; cbn; by destruct (Z.leb_spec (trigger_tick t) now); [lia|]) j cj tj Hj Haj).
  - unfold wp, op_ret. split; [done|]. destruct Hm as [Hco Hls Hap Hh Hth Hac Hcu]. split; [split; try done|].
    + intros j Hj. by apply elem_of_nil in Hj.
    + destruct Hh as (M&Hr&Hm&HM). exists M. split; [done|]. split; [done|].
      rewrite <- (list_insert_id (chunks o) i c Hc) at 1.
      apply (indexed_keep (limits o) _ (due d ([i] ++ indices o)) _ M i c c (oc_chunks o Hco) HM Hc); [done| |].
      * unfold due, head_time. unfold queue_peek in Hpk. rewrite Hpk. cbn. by destruct (_ && _), (_ && _).
      * intros j cj Hne _. apply due_ext. cbn [app]. rewrite elem_of_cons. naive_solver.
    + split; [|done]. intros _. intros j cj tj Hj Haj. apply (Hrest ltac:(unfold available; by rewrite Hreg, Hel, Hpk) j cj tj Hj Haj).
Qed.

(** What collecting computes. *)
Definition collected o (maximum : Z) (r : result ()) o' : Prop :=
  r = Done tt ∧ merging o' [] ∧ limits o' = limits o ∧ ∃ l, selected (phase o') = selected (phase o) ++ l ∧
    zlen (selected (phase o')) ≤ maximum ∧ merges (chunks o) l (chunks o') ∧
    (zlen (selected (phase o')) = maximum ∨ ∀ c, c ∈ chunks o' → available c = None).

Lemma pop_ready o :
  merging o [] → ∃ h, ready_pop (E := False) (ready o) = Ok (heap_peek (ready o), h) ∧
    match heap_peek (ready o) with
    | None => values (ready o) = [] ∧ merging (with_ready o h) []
    | Some r => r ∈ values (ready o) ∧ (∀ r', r' ∈ values (ready o) → ready_precedes r' r = false) ∧ merging (with_ready o h) [ready_index r] ∧ values h ⊆ values (ready o) ∧
        ∀ j, j ∈ indices o ↔ j ∈ ready_index r :: indices (with_ready o h)
    end.
Proof.
  intros Hm. pose proof (rd_wf _ _ (oc_ready o (mg_core o _ Hm))) as Hw.
  destruct (pq_pop _ _ _ _ _ _ _ (heap_is_queue ready_precedes) (ready o) Hw) as (h&Hpop&Hw'&Hlim&Hperm).
  pose proof (pq_peek _ _ _ _ _ _ _ (heap_is_queue ready_precedes) (ready o) Hw) as Hpk. exists h. split; [exact Hpop|].
  assert (owner_core (with_ready o h)) as Hco.
  { apply core_ready; [apply Hm|]. split; [done|]. by rewrite Hlim, (rd_limit _ _ (oc_ready o (mg_core o _ Hm))). }
  destruct (mg_listed o _ Hm) as [Hnd He]. destruct (heap_peek (ready o)) as [r|]; cbn [option_list app] in Hperm.
  - assert (Hix : ready_index r :: indices (with_ready o h) ≡ₚ indices o) by (unfold indices; cbn [ready with_ready]; by rewrite <- Hperm).
    destruct Hpk as [Hin Hall]. rewrite Forall_forall in Hall. split; [done|]. split; [exact Hall|].
    assert (Hnd' : NoDup (ready_index r :: indices (with_ready o h))) by by rewrite Hix. apply NoDup_cons in Hnd' as [Hr Hnd'].
    split; [|split; [intros r' Hr'; rewrite <- Hperm; by right|intros j; by rewrite Hix]]. assert (listed (with_ready o h)) as Hls.
    { split; [done|]. intros r' Hr'. apply (He r'). rewrite <- Hperm. by right. }
    destruct Hm as [? ? ? Hh Hth ? ?]. split; try done.
    + intros i ->%list_elem_of_singleton. done.
    + cbn [limits chunks with_ready]. replace (timeline (with_ready o h) d) with (timeline o d) by (by destruct d).
      eapply timeline_ext; [|exact Hh]. intros j. cbn [app]. by rewrite Hix.
  - split; [done|]. rewrite Hpk in Hperm. apply Permutation_nil_r in Hperm. change (values h = []) in Hperm.
    assert (indices (with_ready o h) = indices o) as Hix by (unfold indices; cbn [ready with_ready]; by rewrite Hperm, Hpk).
    apply merging_ready; [done|done| |intros i Hi; by apply elem_of_nil in Hi|intros i; by rewrite Hix].
    split; [by rewrite Hix|]. cbn [ready with_ready chunks]. rewrite Hperm. intros r Hr. by apply elem_of_nil in Hr.
Qed.

Lemma collect_phase_spec maximum : ∀ fuel o,
  merging o [] → (zlen (selected (phase o)) < maximum → complete o []) → zlen (selected (phase o)) ≤ maximum ≤ selected_per_phase (limits o) →
  maximum - zlen (selected (phase o)) < Z.of_nat fuel → wp (collect fuel d now maximum) (collected o maximum) o.
Proof.
  induction fuel as [|fuel IH]; intros o Hm Hcm Hmax Hfuel; [unfold zlen in *; lia|]. cbn [collect].
  apply wp_bind. unfold wp at 1, get_owner. cbv beta iota. destruct (Z.ltb_spec (zlen (selected (phase o))) maximum) as [Hlt|Hge].
  2: { unfold wp, op_ret. split; [done|]. split; [done|]. split; [done|]. exists []. rewrite app_nil_r. split; [done|]. split; [lia|].
       split; [apply merges_done|]. left. lia. }
  destruct (pop_ready o Hm) as (h&Hpop&Hpk). apply wp_bind, (wp_run _ (heap_peek (ready o), h) _ _ Hpop). cbv beta iota.
  apply wp_bind. unfold wp at 1, set_owner. cbv beta iota. destruct (heap_peek (ready o)) as [r|].
  2: { destruct Hpk as [Hnil Hm']. unfold wp, op_ret. split; [done|]. split; [done|]. split; [done|]. exists []. rewrite app_nil_r. split; [done|].
       split; [cbn [phase with_ready]; lia|]. split; [apply merges_done|]. right. cbn [chunks with_ready]. intros c Hin.
       destruct (available c) as [t|] eqn:Ha; [|done]. apply list_elem_of_lookup in Hin as [i Hi].
       pose proof (Hcm Hlt i c t Hi Ha) as Hbad. unfold indices in Hbad. rewrite Hnil in Hbad. by apply elem_of_nil in Hbad. }
  destruct Hpk as (Hin&Hmin&Hm1&Hsub&Hix). set (o1 := with_ready o h) in *. set (i := ready_index r) in *.
  destruct (ls_entry o (mg_listed o _ Hm) r Hin) as (c&t&Hc&Ha&Hr). fold i in Hc, Hr.
  assert (complete o1 [i]) as Hcm1.
  { intros j cj tj Hj Haj. cbn [app]. rewrite <- Hix. by apply (Hcm Hlt j cj tj). }
  assert (first o1 i t) as Hf by (intros r' Hr'; rewrite <- Hr; by apply Hmin, Hsub).
  apply wp_bind. eapply wp_mono; [apply (drain_spec maximum i _ o1 c t Hm1 Hcm1 Hc Ha Hf); [cbn [limits phase o1 with_ready]; lia|unfold zlen in *; cbn [phase o1 with_ready]; lia]|].
  intros r1 o2 (->&Hm2&Hcm2&Hl2&Hr2&(c2&Hc2&Hreg2&Hel2)&l&Hne&Hsel&Hle&Hmg).
  apply wp_bind. eapply wp_mono; [by apply (requeue_spec maximum i o2 c2 Hm2 Hcm2 Hc2)|].
  intros r3 o3 (->&Hm3&Hcm3&Hcs3&Hp3&Hl3).
  assert (zlen l > 0) as Hpos by (destruct l; [done|unfold zlen; cbn; lia]).
  assert (zlen (selected (phase o2)) = zlen (selected (phase o)) + zlen l) as Hlen2.
  { rewrite Hsel. unfold zlen. rewrite length_app. cbn [phase o1 with_ready]. lia. }
  cbn [limits o1 with_ready] in Hl2. eapply wp_mono; [apply (IH o3 Hm3)|].
  - rewrite Hp3. exact Hcm3.
  - rewrite Hp3, Hl3, Hl2. lia.
  - rewrite Hp3. lia.
  - intros r4 o4 (->&Hm4&Hl4&l4&Hsel4&Hle4&Hmg4&Hend). split; [done|]. split; [done|]. split; [congruence|].
    exists (l ++ l4). split; [rewrite Hsel4, Hp3, Hsel; cbn [phase o1 with_ready]; by rewrite app_assoc|]. split; [done|]. split; [|done].
    eapply merges_app; [exact Hmg|]. by rewrite <- Hcs3.
Qed.

(** ** Scanning the timeline *)

(** During the scan: [pending] keys are still to come, and those [todo] include
    the keys of all available chunks not yet in the ready heap. *)
Record scans o (M : gmap Z Z) (pending todo : list Z) (key : option Z) : Prop := {
  sn_core : owner_core o;
  sn_listed : listed o;
  sn_index : scanning (timeline o d) M pending key;
  sn_bound : Z.of_nat (max_keys (timeline o d)) = max_chunks (limits o);
  sn_chunks : indexed (chunks o) (due d (indices o)) M;
  sn_there d' : d' ≠ d → timeline_ok (limits o) (chunks o) d' [] (timeline o d');
  sn_active : active (phase o) = Some d;
  sn_todo i c t : chunks o !! i = Some c → available c = Some t → i ∉ indices o → key_of c ∈ todo;
}.

Lemma scans_timeline o M pending todo key s pending' todo' key' :
  scans o M pending todo key → scanning s M pending' key' → max_keys s = max_keys (timeline o d) → todo ⊆ todo' →
  scans (with_timeline o d s) M pending' todo' key'.
Proof.
  intros [] Hs Hm Hp. split; try done.
  - by apply core_timeline.
  - by apply (listed_ext o).
  - by rewrite timeline_with, decide_True.
  - by rewrite timeline_with, decide_True, Hm.
  - intros d' Hne. rewrite timeline_with, decide_False by done. by apply sn_there0.
  - intros i c t Hc Ha Hi. apply Hp. by apply (sn_todo0 i c t).
Qed.

(** The entry of a chunk that offers nothing is passed over. *)
Lemma scans_skip o M pending i c key :
  scans o M pending (key_of c :: pending) key → chunks o !! i = Some c → available c = None → scans o M pending pending key.
Proof.
  intros [] Hc Hn. split; try done. intros j cj tj Hj Ha Hin. pose proof (sn_todo0 j cj tj Hj Ha Hin) as Hk.
  apply elem_of_cons in Hk as [Hk|Hk]; [|done]. assert (j = i) as ->; [|congruence].
  by apply (key_of_inj (limits o) (chunks o) j i cj c (oc_chunks o sn_core0)).
Qed.

(** What a scan leaves alone. *)
Definition kept o o' : Prop := chunks o' = chunks o ∧ phase o' = phase o ∧ limits o' = limits o.
Definition scanned o (pending : list Z) (r : result ()) o' : Prop :=
  r = Done tt ∧ kept o o' ∧ ∃ M' key', scans o' M' pending pending key'.

(** A due, eligible chunk moves from the timeline to the ready heap. *)
Lemma scan_move o M pending i c t :
  scans o M pending (key_of c :: pending) (Some (key_of c)) → chunks o !! i = Some c → available c = Some t → i ∉ indices o →
  wp (let* _ := (let* o := get_owner in
                 let* s := run (TickIndex.remove_current (timeline o d)) in set_owner (λ o, with_timeline o d s)) in
      let* o := get_owner in
      let* h := run (ready_push (ready o) {| ready_index := i; ready_priority := priority t; ready_sub_order := sub_tick_order t |}) in
      set_owner (λ o, with_ready o h)) (scanned o pending) o.
Proof.
  intros [Hco Hls Hix Hb HM Hth Hac Htodo] Hc Ha Hi. do 2 apply wp_bind. unfold wp at 1, get_owner. cbv beta iota.
  destruct (sm_drop _ _ _ _ _ _ _ _ _ _ index_is_scanned_map _ _ _ _ Hix) as (s&Hrm&Hs&Hm).
  apply wp_bind, (wp_run _ s _ _ Hrm). unfold wp at 1, set_owner. cbv beta iota. set (o1 := with_timeline o d s).
  apply wp_bind. unfold wp at 1, get_owner. cbv beta iota. assert (owner_core o1) as Hco1 by by apply core_timeline.
  destruct (push_ready o1 i c t Hco1 ltac:(by apply (listed_ext o)) Hi Hc Ha) as (h&Hpush&Hco2&Hls2&Hin).
  apply wp_bind, (wp_run _ h _ _ Hpush). unfold wp, set_owner. cbv beta iota. split; [done|]. split; [done|].
  exists (delete (key_of c) M), None. change (indices o1) with (indices o) in Hin. pose proof (oc_chunks o Hco) as Hk.
  assert (Htl : ∀ d', timeline (with_ready o1 h) d' = if decide (d = d') then s else timeline o d') by (intros d'; apply timeline_with).
  split; try done.
  - by rewrite Htl, decide_True.
  - by rewrite Htl, decide_True, Hm.
  - cbn [chunks with_ready with_timeline o1]. rewrite <- (list_insert_id (chunks o) i c Hc) at 1.
    apply (indexed_delete (limits o) _ (due d (indices o)) _ M i c c Hk HM Hc); [done| |].
    + unfold due. rewrite (bool_decide_eq_true_2 (i ∈ _)) by (apply Hin; set_solver). by rewrite andb_false_r.
    + intros j cj Hne _. apply due_ext. rewrite Hin, elem_of_cons. naive_solver.
  - intros d' Hne. rewrite Htl, decide_False by done. by apply Hth.
  - intros j cj tj Hj Haj Hnin. rewrite Hin, not_elem_of_cons in Hnin. destruct Hnin as [Hji Hnin].
    pose proof (Htodo j cj tj Hj Haj Hnin) as Hkin. apply elem_of_cons in Hkin as [Hkey|Hkin]; [|done].
    destruct Hji. by apply (key_of_inj (limits o) (chunks o) j i cj c Hk).
Qed.

Lemma scan_entry_spec o M pending k time :
  scans o M pending (k :: pending) (Some k) → M !! k = Some time → wp (scan_entry d now k time) (scanned o pending) o.
Proof.
  intros Hs HMk. pose proof (oc_chunks o (sn_core _ _ _ _ _ Hs)) as Hk.
  destruct (ix_only _ _ _ (sn_chunks _ _ _ _ _ Hs) k ltac:(by eexists)) as (i&c&Hc&<-).
  pose proof (ix_entry _ _ _ (sn_chunks _ _ _ _ _ Hs) i c Hc) as Hdue. rewrite HMk in Hdue. unfold due in Hdue.
  destruct (cq_registered c) eqn:Hreg; [|done]. case_bool_decide as Hi; [done|]. cbn [andb negb] in Hdue.
  unfold head_time in Hdue. destruct (scheduled_peek (q_heap (queue c d))) as [t|] eqn:Hpk; [|done]. injection Hdue as ->.
  assert (Hskip : available c = None → scanned o pending (Done tt) o).
  { intros Hn. split; [done|]. split; [done|]. exists M, (Some (key_of c)). by apply (scans_skip o M pending i c). }
  unfold scan_entry. destruct (Z.ltb_spec now (trigger_tick t)) as [Hlate|Hnow].
  { unfold wp, op_ret. apply Hskip. unfold available. rewrite Hreg. destruct (cq_eligible c); [|done]. cbn [andb]. unfold queue_peek.
    rewrite Hpk. cbn. destruct (Z.leb_spec (trigger_tick t) now); [lia|done]. }
  unfold key_of at 1. rewrite (unpacked_packed _ (chunk_address_ok _ _ i c Hk Hc)).
  apply wp_bind, registered_spec; [done|]. intros [j|] Hr.
  2: { by rewrite (Hr c ltac:(by eapply list_elem_of_lookup_2) eq_refl) in Hreg. }
  destruct Hr as (c'&Hc'&Ha'&_). assert (j = i) as ->.
  { apply (key_of_inj (limits o) (chunks o) j i c' c Hk Hc' Hc). unfold key_of. by rewrite Ha'. }
  rewrite Hc in Hc'. injection Hc' as <-. apply wp_bind, (wp_chunk_at i c); [done|]. unfold queue_peek. rewrite Hpk.
  destruct (Z.ltb_spec now (trigger_tick t)); [lia|]. destruct (cq_eligible c) eqn:Hel.
  - apply (scan_move o M pending i c t Hs Hc); [by apply available_spec|done].
  - unfold wp, op_ret. apply Hskip. unfold available. by rewrite Hreg, Hel.
Qed.

Lemma scan_spec : ∀ fuel o M pending key,
  scans o M pending pending key → (length pending < fuel)%nat → wp (scan_timeline fuel d now) (scanned o []) o.
Proof.
  induction fuel as [|fuel IH]; intros o M pending key Hs Hfuel; [lia|]. cbn [scan_timeline].
  pose proof (sm_next _ _ _ _ _ _ _ _ _ _ index_is_scanned_map _ _ _ _ (sn_index _ _ _ _ _ Hs)) as Hnext.
  apply wp_bind. unfold wp at 1, get_owner. cbv beta iota. destruct (decide (pending = [])) as [->|Hnil].
  - apply wp_bind, (wp_run _ _ _ _ Hnext). cbv beta iota. apply wp_bind. unfold wp at 1, set_owner. cbv beta iota.
    unfold wp, op_ret. rewrite with_timeline_id. split; [done|]. split; [done|]. by exists M, key.
  - destruct Hnext as (k&t&s&pending'&Hnext&HMk&Hperm&Hs'&Hm'). apply wp_bind, (wp_run _ _ _ _ Hnext). cbv beta iota.
    apply wp_bind. unfold wp at 1, set_owner. cbv beta iota.
    assert (scans (with_timeline o d s) M pending' (k :: pending') (Some k)) as Hs1.
    { apply (scans_timeline o M pending pending key); [done..|]. by rewrite Hperm. }
    apply wp_bind. eapply wp_mono; [by apply (scan_entry_spec _ M pending' k t)|]. intros r o' (->&(Hcs&Hp&Hl)&M'&key'&Hs2).
    eapply wp_mono; [apply (IH o' M' pending' key' Hs2)|].
    { apply Permutation_length in Hperm. cbn in Hperm. lia. }
    intros r o2 (->&(Hcs2&Hp2&Hl2)&Hend). split; [done|]. split; [|done].
    split; [by rewrite Hcs2, Hcs|split; [by rewrite Hp2, Hp|by rewrite Hl2, Hl]].
Qed.

(** ** The whole phase *)

(** The chunks left over go back to the timeline. *)
Lemma reinsert_spec : ∀ l o,
  owner_core o → NoDup (ready_index <$> l) →
  (∀ r, r ∈ l → ∃ c t, chunks o !! ready_index r = Some c ∧ available c = Some t) →
  timeline_ok (limits o) (chunks o) d (ready_index <$> l) (timeline o d) →
  wp (reinsert_ready d l) (λ r o', r = Done tt ∧ ∃ s, o' = with_timeline o d s ∧ timeline_ok (limits o) (chunks o) d [] s) o.
Proof.
  induction l as [|r l IH]; intros o Hco Hnd Hall Ht; cbn [reinsert_ready].
  { unfold wp, op_ret. split; [done|]. exists (timeline o d). by rewrite with_timeline_id. }
  pose proof (oc_chunks o Hco) as Hk. cbn [fmap list_fmap] in *. apply NoDup_cons in Hnd as [Hnin Hnd].
  destruct (Hall r ltac:(set_solver)) as (c&t&Hc&Ha). apply available_spec in Ha as (Hreg&_&Hpk&_).
  apply wp_bind, (wp_chunk_at (ready_index r) c); [done|]. apply wp_bind, (wp_run _ t); [by rewrite Hpk|].
  change (packed_chunk (cq_address c)) with (key_of c). destruct Ht as (M&Hr&Hm&HM).
  apply wp_bind, (timeline_put_spec d (ready_index r) c _ (due d (ready_index r :: (ready_index <$> l))) M); [done..|]. intros s Hs Hms.
  eapply wp_mono; [apply (IH (with_timeline o d s))|].
  - by apply core_timeline.
  - done.
  - intros r' Hr'. apply (Hall r'). set_solver.
  - exists (<[key_of c := trigger_tick t]> M). rewrite timeline_with, decide_True by done. split; [done|]. split; [done|].
    cbn [chunks with_timeline]. rewrite <- (list_insert_id (chunks o) (ready_index r) c Hc) at 1.
    apply (indexed_put (limits o) _ (due d (ready_index r :: (ready_index <$> l))) _ M (ready_index r) c c _ Hk HM Hc); [done| |].
    + unfold due, head_time. unfold queue_peek in Hpk. by rewrite Hreg, Hpk, bool_decide_eq_false_2.
    + intros j cj Hne _. apply due_ext. rewrite elem_of_cons. naive_solver.
  - intros r' o' (->&s'&->&Ht'). split; [done|]. exists s'. split; [by destruct d|done].
Qed.

(** What beginning a phase does. *)
Definition begun o (maximum : Z) (r : result Z) o' : Prop :=
  let l := selected (phase o') in
  r = Done (zlen l) ∧ active (phase o') = Some d ∧ cursor (phase o') = 0%nat ∧ zlen l ≤ maximum ∧ merges (chunks o) l (chunks o') ∧
  (zlen l = maximum ∨ ∀ c, c ∈ chunks o' → available c = None).
Definition begins o (maximum : Z) (r : result Z) o' : Prop :=
  match active (phase o) with
  | Some _ => r = Failed PhaseActive ∧ o' = o
  | None => if selected_per_phase (limits o) <? maximum then r = Failed PhaseLimit ∧ o' = o else begun o maximum r o'
  end.

Lemma begin_phase_spec o maximum :
  owner_ok o → 0 ≤ maximum → wp (begin_phase d now maximum) (λ r o', owner_ok o' ∧ begins o maximum r o') o.
Proof.
  intros Ho Hpos. unfold begin_phase, begins. apply wp_bind. unfold wp at 1, get_owner. cbv beta iota.
  pose proof (oc_phase o (ow_core o Ho)) as Hp. destruct (active (phase o)) as [d0|] eqn:Hact.
  { by unfold wp, fail. }
  destruct (Z.ltb_spec (selected_per_phase (limits o)) maximum) as [Hbig|Hfits].
  { by unfold wp, fail. }
  apply wp_bind. unfold wp at 1, set_owner. cbv beta iota. set (o1 := with_phase o _).
  pose proof (po_idle _ _ Hp Hact) as Hsel.
  assert (cursor (phase o) = 0%nat) as Hcur by (pose proof (po_cursor _ _ Hp) as Hc; rewrite Hsel in Hc; cbn in Hc; lia).
  assert (owner_ok o1) as Ho1. { apply owner_phase; [done|]. destruct Hp. by split. }
  destruct (ow_timeline o1 Ho1 d) as (M&Hix&Hb&HM).
  destruct (sm_begin _ _ _ _ _ _ _ _ _ _ index_is_scanned_map _ M Hix) as (s&Hbegin&Hs&Hms).
  apply wp_bind, (wp_run _ s _ _ Hbegin).
  apply wp_bind. unfold wp at 1, set_owner. cbv beta iota. set (o2 := with_timeline o1 d s).
  assert (indices o2 = []) as Hnil by (unfold indices; change (ready o2) with (ready o); by rewrite (ow_ready o Ho)).
  assert (scans o2 M (map_to_list M).*1 (map_to_list M).*1 None) as Hs2.
  { split; try done.
    - apply core_timeline, Ho1.
    - split; [rewrite Hnil; constructor|]. intros r Hr. change (ready o2) with (ready o) in Hr. rewrite (ow_ready o Ho) in Hr. by apply elem_of_nil in Hr.
    - unfold o2. by rewrite timeline_with, decide_True.
    - unfold o2. rewrite timeline_with, decide_True by done. by rewrite Hms.
    - by rewrite Hnil.
    - intros d' Hne. unfold o2. rewrite timeline_with, decide_False by done. apply (ow_timeline o1 Ho1 d').
    - intros i c t Hc Ha _. apply available_spec in Ha as (Hreg&_&Hpk&_).
      pose proof (ix_entry _ _ _ HM i c Hc) as He. unfold due, head_time in He. unfold queue_peek in Hpk. rewrite Hreg, Hpk in He. cbn in He.
      apply (list_elem_of_fmap_2 fst _ (key_of c, trigger_tick t)). by apply elem_of_map_to_list. }
  apply wp_bind. eapply wp_mono; [apply (scan_spec _ o2 M _ None Hs2)|].
  { pose proof (ix_len _ _ (sg_rep _ _ _ _ Hs)) as Hlen. rewrite length_fmap, length_map_to_list. lia. }
  intros r o3 (->&(Hcs3&Hp3&Hl3)&M3&k3&Hs3). apply wp_bind. unfold wp at 1, get_owner. cbv beta iota.
  destruct (sm_finish _ _ _ _ _ _ _ _ _ _ index_is_scanned_map _ _ _ _ (sn_index _ _ _ _ _ Hs3)) as (s4&Hfin&Hs4&Hms4).
  apply wp_bind, (wp_run _ s4 _ _ Hfin). apply wp_bind. unfold wp at 1, set_owner. cbv beta iota. set (o4 := with_timeline o3 d s4).
  assert (merging o4 []) as Hm4.
  { destruct Hs3 as [Hco3 Hls3 Hix3 Hb3 HM3 Hth3 Hac3 _]. split; try done.
    - by apply core_timeline.
    - by apply (listed_ext o3).
    - intros i Hi. by apply elem_of_nil in Hi.
    - exists M3. unfold o4. rewrite timeline_with, decide_True by done. split; [done|]. split; [by rewrite Hms4|done].
    - intros d' Hne. unfold o4. rewrite timeline_with, decide_False by done. by apply Hth3.
    - cbn. by rewrite Hp3. }
  assert (phase o4 = phase o1) as Hp4 by exact Hp3. assert (chunks o4 = chunks o) as Hcs4 by exact Hcs3.
  assert (limits o4 = limits o) as Hl4 by exact Hl3.
  apply wp_bind. eapply wp_mono; [apply (collect_phase_spec maximum _ o4 Hm4)|].
  - intros _ i c t Hc Ha. cbn [app]. destruct (decide (i ∈ indices o3)); [done|].
    pose proof (sn_todo _ _ _ _ _ Hs3 i c t Hc Ha ltac:(done)) as Hbad. by apply elem_of_nil in Hbad.
  - rewrite Hp4, Hl4. cbn [phase o1 with_phase selected]. rewrite Hsel. unfold zlen. cbn. lia.
  - rewrite Hp4. cbn [phase o1 with_phase selected]. rewrite Hsel. unfold zlen. cbn. lia.
  - intros r o5 (->&Hm5&Hl5&l&Hsel5&Hle5&Hmg&Hend). rewrite Hp4 in Hsel5. cbn [phase o1 with_phase selected] in Hsel5. rewrite Hsel in Hsel5. cbn [app] in Hsel5.
    apply wp_bind. unfold wp at 1, get_owner. cbv beta iota. destruct Hm5 as [Hco5 [Hnd5 He5] Hap5 Hh5 Hth5 Hac5 Hcu5].
    apply wp_bind. eapply wp_mono; [apply (reinsert_spec _ o5 Hco5 Hnd5)|].
    + intros r Hr. destruct (He5 r Hr) as (c&t&?&?&_). by exists c, t.
    + exact Hh5.
    + intros r o6 (->&s6&->&Ht6). do 2 (apply wp_bind; unfold wp at 1, set_owner, get_owner; cbv beta iota).
      unfold wp, op_ret. rewrite Hcs4 in Hmg. subst l. split; [|done]. split.
      * apply core_ready; [by apply core_timeline|]. split; [split; [|unfold zlen; cbn]|].
        -- by intros j ? ? ? Hx.
        -- pose proof (lo_chunks _ (oc_limits _ Hco5)). rewrite (rd_limit _ _ (oc_ready _ Hco5)). lia.
        -- apply (rd_limit _ _ (oc_ready _ Hco5)).
      * done.
      * intros d'. replace (timeline _ d') with (if decide (d = d') then s6 else timeline o5 d') by (by destruct d, d').
        destruct (decide (d = d')) as [<-|Hne]; [exact Ht6|]. by apply Hth5.
Qed.
End merge.
