(* ===== verification/TickWork.v ===== *)
(** * The scheduled-tick owner: packing, copying and clearing areas

    The workspace that packing and copying keep between calls, what packing
    writes, that a copy is admitted as a batch before any queue changes, and what
    clearing an area removes. *)

From stdpp Require Import list sets fin_maps gmap sorting.
From S2P Require Import Prelude.
From S2P Require Import Sorted.
From S2P Require Import View.
From S2P Require Import TickTypes.
From S2P Require Import TickHeap.
From S2P Require Import TickTables.
From S2P Require Import TickIndex.
From S2P Require Import TickOwner.
From S2P Require Import TickOwnerInv.
From S2P Require Import TickOwnerOps.
From S2P Require Import TickPhase.
Local Open Scope Z_scope.
Local Open Scope op_scope.

(** One optional reservation. *)
Section reservations.
Context `{Allocator} `{TickLayout}.

Definition cost_of (size : Z) (m : option Z) : Z := match m with Some n => n * size | None => 0 end.

Lemma maybe_reserved (b : bool) size cap rest (Q : result (option Z * Z) → Owner → Prop) o :
  0 ≤ size → 0 ≤ cap → 0 ≤ rest →
  (∀ m, (if b then ∃ n, m = Some n ∧ cap ≤ n else m = None) → 0 ≤ cost_of size m → 0 ≤ rest - cost_of size m →
    Q (Done (m, rest - cost_of size m)) o) →
  (∀ e, Q (Failed e) o) →
  wp (if b then let* (c, rest) := try (reserved_vec size cap rest) in op_ret (Some c, rest) else op_ret (None, rest)) Q o.
Proof.
  intros Hs Hc Hr HS HF. destruct b.
  - apply wp_bind, reserved_spec; [done|done| |done]. intros n Hn Hn0 Hrest. cbv beta iota. unfold wp, op_ret.
    apply (HS (Some n)); [by exists n|done|done].
  - unfold wp, op_ret. specialize (HS None eq_refl). cbn [cost_of] in HS. rewrite Z.sub_0_r in HS. by apply HS.
Qed.

Definition ids_cost (m : option Identities) : Z := match m with Some ids => ids_bytes idslot_size ids | None => 0 end.

Lemma maybe_ids (b : bool) h cap rest (Q : result (option Identities * Z) → Owner → Prop) o :
  0 ≤ cap → 0 ≤ rest →
  (∀ m, (if b then ∃ ids, m = Some ids ∧ ids_rep ids ∅ ∧ 2 * cap ≤ zlen (id_slots ids) else m = None) → 0 ≤ ids_cost m → 0 ≤ rest - ids_cost m →
    Q (Done (m, rest - ids_cost m)) o) →
  (∀ e, Q (Failed e) o) →
  wp (if b then let* (ids, rest) := try (ids_new idslot_size h cap rest) in op_ret (Some ids, rest) else op_ret (None, rest)) Q o.
Proof.
  intros Hc Hr HS HF. destruct b.
  - apply wp_bind. destruct (ids_new_total idslot_size h cap rest) as [Hp Hf].
    apply (wp_try _ (λ p, ids_new idslot_size h cap rest = Ok p)); [done|done|by intros a ->| |done].
    intros [ids r] Hn. destruct (ids_new_ok h cap rest ids r Hc Hn) as (?&?&->&?&?). cbv beta iota. unfold wp, op_ret.
    apply (HS (Some ids)); [by exists ids|done|done].
  - unfold wp, op_ret. specialize (HS None eq_refl). cbn [ids_cost] in HS. rewrite Z.sub_0_r in HS. by apply HS.
Qed.
End reservations.

Section work.
Context `{Allocator} `{TickLayout} {base : Z}.
Notation owner_core := (owner_core base).
Notation owner_ok := (owner_ok base).
Implicit Types (o : Owner) (c : ChunkQueues) (d : TickDomain) (w : Workspace).

(** ** The workspace *)

Lemma owner_workspace o w n :
  owner_ok o → workspace_ok w → 0 ≤ n ≤ allocation_bytes (limits o) →
  n = allocated_bytes o - workspace_bytes (workspace o) + workspace_bytes w → owner_ok (with_allocated (with_workspace o w) n).
Proof.
  intros [[Hl Hk Hr Hp Hw [Hm (Hb&Hsum)]] Hrd Ht] Hw' Hn He. split; [split; try done|done|].
  - split; cbn [allocated_bytes limits chunks workspace with_allocated with_workspace]; [lia|]. split; [done|lia].
  - intros d. pose proof (Ht d). by destruct d.
Qed.

Lemma owner_rework o w :
  owner_ok o → workspace_ok w → workspace_bytes w = workspace_bytes (workspace o) → owner_ok (with_workspace o w).
Proof.
  intros Ho Hw He. replace (with_workspace o w) with (with_allocated (with_workspace o w) (allocated_bytes o)) by (by destruct o).
  apply owner_workspace; [done|done| |lia]. split; [apply (allocated_nonneg (base := base)), Ho|apply (oc_memory (base := base) o), Ho].
Qed.

Definition empty_workspace : Workspace :=
  {| scratch := []; scratch_cap := 0; copy_ids := None; copy_capacity := 0; copy_counts := []; copy_counts_cap := 0 |}.

(** Releasing gives back exactly the workspace's memory. *)
Lemma release_operation_scratch_spec o :
  owner_ok o →
  wp release_operation_scratch (λ r o', owner_ok o' ∧ r = Done tt ∧
    o' = with_allocated (with_workspace o empty_workspace) (allocated_bytes o - workspace_bytes (workspace o))) o.
Proof.
  intros Ho. unfold release_operation_scratch. apply wp_bind. unfold wp at 1, get_owner. cbv beta iota.
  apply wp_bind. unfold wp at 1, set_owner. cbv beta iota. fold empty_workspace.
  pose proof (oc_memory o (ow_core o Ho)) as [Hm (Hb&Hsum)]. pose proof (total_bytes_nonneg _ _ (oc_chunks o (ow_core o Ho))).
  pose proof (workspace_bytes_nonneg _ (oc_workspace o (ow_core o Ho))).
  apply release_spec; [cbn [allocated_bytes with_workspace]; lia|]. split; [|done].
  cbn [allocated_bytes with_workspace]. apply owner_workspace; [done| |lia|change (workspace_bytes empty_workspace) with (0 * snapshot_size + 0 + 0 * usize_size); lia]. by split.
Qed.

(** A workspace that is ready for a batch of [needed] entries. *)
Definition ready_for o (needed : Z) (copying : bool) : Prop :=
  let w := workspace o in
  needed ≤ scratch_cap w ∧
  (copying = true → needed ≤ copy_capacity w ∧ is_Some (copy_ids w) ∧ length (copy_counts w) = length (chunks o)).

Lemma resize_length l n : length (resize l n) = n.
Proof. unfold resize. rewrite length_app, length_take, length_replicate. lia. Qed.

(** Making room: the workspace grows where it must, its memory is accounted for,
    and a refusal leaves everything as it was. *)
Definition makes_room o (needed : Z) (copying : bool) (r : result ()) o' : Prop :=
  match r with
  | Failed _ => o' = o
  | Done _ => (needed = 0 ∧ o' = o) ∨ (ready_for o' needed copying ∧ ∃ w n, o' = with_allocated (with_workspace o w) n)
  end.

Lemma ensure_operation_scratch_spec h needed copying o :
  owner_ok o → 0 ≤ needed → wp (ensure_operation_scratch h needed copying) (λ r o', owner_ok o' ∧ makes_room o needed copying r o') o.
Proof.
  intros Ho Hn. unfold ensure_operation_scratch. apply wp_bind. unfold wp at 1, get_owner. cbv beta iota. cbv zeta.
  pose proof (oc_memory o (ow_core o Ho)) as [Hm (Hb&Hsum)]. pose proof (total_bytes_nonneg _ _ (oc_chunks o (ow_core o Ho))).
  pose proof (oc_workspace o (ow_core o Ho)) as Hw. set (w := workspace o) in *.
  destruct (scratch_limit o <? needed); [by unfold wp, fail|]. destruct (Z.eqb_spec needed 0) as [->|Hnz]; [unfold wp, op_ret; split; [done|by left]|].
  apply wp_bind, (budget_spec (base := base)); [apply Ho|].
  pose proof (layout_ge snapshot_size ltac:(set_solver)) as Hss. pose proof (layout_ge usize_size ltac:(set_solver)) as Hus.
  apply wp_bind, maybe_reserved; [done|done|lia| |done]. intros rep Hrep Hrc Hrr. cbv beta iota.
  apply wp_bind, maybe_ids; [done|done| |done]. intros ids Hids Hic Hir. cbv beta iota.
  apply wp_bind, maybe_reserved; [done|unfold zlen; lia|done| |done]. intros cnt Hcnt Hcc Hcr. cbv beta iota.
  apply wp_bind. unfold wp at 1, set_owner. cbv beta iota. set (w' := {| scratch := _ |}).
  set (freed := _ + _ + _). fold (cost_of snapshot_size rep) in *.
  assert (Hfree : 0 ≤ freed ∧ workspace_bytes w' = workspace_bytes w - freed + cost_of snapshot_size rep + ids_cost ids + cost_of usize_size cnt).
  { unfold freed, workspace_bytes, w'. cbn [scratch_cap copy_ids copy_counts_cap]. destruct Hw as [Hw1 Hw2 Hw3 Hw4].
    destruct rep, ids, cnt, (copy_ids w); cbn [cost_of ids_cost] in *; (split; [nia|lia]). }
  assert (workspace_ok w') as Hw'.
  { destruct Hw as [Hw1 Hw2 Hw3 Hw4]. split; cbn [scratch_cap copy_counts_cap copy_capacity copy_ids w'].
    - revert Hrep. destruct (scratch_cap w <? needed); [intros (n&->&?); lia|by intros ->].
    - revert Hcnt. destruct (copying && (copy_counts_cap w <? _)); [intros (n&->&?); unfold zlen in *; lia|by intros ->].
    - by destruct ids.
    - revert Hids. destruct (copying && (copy_capacity w <? needed)); [|by intros ->]. intros (i&->&Hi&Hs). cbn [ids_cost] in Hic.
      split; [by exists ∅|done]. }
  pose proof (workspace_bytes_nonneg _ Hw). pose proof (workspace_bytes_nonneg _ Hw'). destruct Hfree as [Hf Hwb].
  apply wp_bind, wp_usub; [lia|]. apply wp_bind, wp_usub; [|]; cycle 1.
  - unfold wp, set_owner. split.
    + apply owner_workspace; [done|done|lia|]. fold w. lia.
    + right. split; [|by eexists _, _]. unfold ready_for. cbn [workspace with_allocated with_workspace chunks scratch_cap copy_capacity copy_ids copy_counts w'].
      split.
      * revert Hrep. destruct (Z.ltb_spec (scratch_cap w) needed); [by intros (n&->&?)|by intros ->].
      * intros ->. cbn [andb] in *. rewrite resize_length. destruct Hw as [_ _ _ Hw4].
        revert Hids. destruct (Z.ltb_spec (copy_capacity w) needed) as [|Hge]; [by intros (i&->&_)|]. intros ->. split; [done|]. split; [|done].
        destruct (copy_ids w); [done|]. lia.
  - lia.
Qed.

(** ** Packing *)

#[local] Instance snapshot_total : Total snapshot_le.
Proof. intros a b. unfold snapshot_le. lia. Qed.

(** What packing writes: the saved entries as they are, then the live ones by
    sub-order, equal sub-orders in the order of the heap array. *)
Definition packs o (a : ChunkAddress) d (game_time room : Z) (r : result (Z * list SavedTick)) o' : Prop :=
  match r with
  | Failed _ => o' = o
  | Done (n, out) => (∃ w m, o' = with_allocated (with_workspace o w) m) ∧ n = zlen out ∧ n ≤ room ∧
      ∃ i c sorted, chunks o !! i = Some c ∧ cq_address c = a ∧
        sorted ≡ₚ snapshot_all (items_of (queue c d)) ∧ Sorted.Sorted snapshot_le sorted ∧
        out = pending_of (queue c d) ++ ((λ e, saved_of game_time (st_tick e)) <$> sorted)
  end.

Lemma owner_scratch o l : owner_ok o → owner_ok (with_workspace o (with_scratch (workspace o) l)).
Proof. intros Ho. apply owner_rework; [done| |done]. destruct (oc_workspace o (ow_core o Ho)). by split. Qed.

Lemma pack_chunk_spec h a d game_time room o :
  owner_ok o → wp (pack_chunk h a d game_time room) (λ r o', owner_ok o' ∧ packs o a d game_time room r o') o.
Proof.
  intros Ho. unfold pack_chunk. apply wp_bind. unfold wp at 1, get_owner. cbv beta iota.
  pose proof (find_spec (chunks o) a (ck_sorted _ _ (oc_chunks o (ow_core o Ho)))) as Hf.
  destruct (find (chunks o) a) as [i|i]; [|by unfold wp, fail].
  destruct Hf as (c&Hc&Ha). apply wp_bind, (wp_chunk_at i c); [done|]. cbv zeta.
  destruct (Z.ltb_spec room (queue_count (queue c d))) as [|Hroom]; [by unfold wp, fail|].
  apply wp_bind. eapply wp_mono; [apply (ensure_operation_scratch_spec h _ false o Ho); lia|].
  intros r o1 [Ho1 Hr]. destruct r as [[]|e].
  2: { by cbn in Hr. }
  assert (∃ w n, o1 = with_allocated (with_workspace o w) n) as (w&n&Heq).
  { destruct Hr as [[_ ->]|(_&w&n&->)]; [exists (workspace o), (allocated_bytes o); by destruct o|by exists w, n]. }
  apply wp_bind. unfold wp at 1, set_owner. cbv beta iota. unfold wp, op_ret. split; [by apply owner_scratch|].
  split; [exists (with_scratch (workspace o1) []), n; by rewrite Heq|].
  set (sorted := merge_sort snapshot_le (snapshot_all (scheduled_items (q_heap (queue c d))))).
  assert (Hperm : sorted ≡ₚ snapshot_all (items_of (queue c d))) by apply merge_sort_Permutation.
  split; [|split; [exact Hroom|]].
  - rewrite queue_count_eq. unfold idents_of, pending_of, zlen. rewrite !length_app, !length_fmap, Hperm.
    unfold snapshot_all. rewrite length_imap. by destruct (q_pending (queue c d)) as [[]|]; cbn; lia.
  - exists i, c, sorted. split; [done|]. split; [done|]. split; [done|]. split; [apply Sorted_merge_sort; apply _|done].
Qed.

(** ** Copying: what one tick after another would do *)

(** The reference: the shifted ticks are created one by one. *)
Definition copy_one d (t : ScheduledTick) (out : CopyOutcome) : op CopyOutcome :=
  let* found := registered (chunk_of (position t)) in
  match found with
  | None => op_ret {| added := added out; duplicates := duplicates out; missing_containers := missing_containers out + 1 |}
  | Some index =>
      let* o := get_owner in
      if type_count o d <=? type_id t then fail InvalidType
      else
        let* r := schedule_created d index t in
        match r with
        | Added => op_ret {| added := added out + 1; duplicates := duplicates out; missing_containers := missing_containers out |}
        | _ => op_ret {| added := added out; duplicates := duplicates out + 1; missing_containers := missing_containers out |}
        end
  end.
Fixpoint copy_each d (l : list ScheduledTick) (out : CopyOutcome) : op CopyOutcome :=
  match l with
  | [] => op_ret out
  | t :: l => let* out := copy_one d t out in copy_each d l out
  end.

Lemma ids_rep_unique s (X Y : gset Identity) : ids_rep s X → ids_rep s Y → X = Y.
Proof. intros HX HY. apply set_eq. intros i. by rewrite <- (ir_mem s X i HX), <- (ir_mem s Y i HY). Qed.

(** Between the original chunks and those after the entries admitted so far. *)
Record admitting o0 o d (ids : Identities) (counts : list Z) (C : gset Identity) : Prop := {
  ad_ok : owner_ok o;
  ad_limits : limits o = limits o0;
  ad_types : type_count o d = type_count o0 d;
  ad_ids : ids_rep ids C;
  ad_length : length (chunks o) = length (chunks o0);
  ad_counts : length counts = length (chunks o0);
  ad_chunk i c c' : chunks o0 !! i = Some c → chunks o !! i = Some c' →
    cq_address c' = cq_address c ∧ cq_registered c' = cq_registered c ∧
    counts !! i = Some (queue_count (queue c' d) - queue_count (queue c d)) ∧
    ∀ X X' : gset Identity, ids_rep (q_ids (queue c d)) X → ids_rep (q_ids (queue c' d)) X' →
      ∀ id, id ∈ X' ↔ id ∈ X ∨ id ∈ C ∧ chunk_of (id_position id) = cq_address c;
}.

(** Both sides find the same chunk. *)
Lemma admitting_find o0 o d ids counts C a :
  owner_ok o0 → admitting o0 o d ids counts C →
  match find (chunks o0) a with
  | inr _ => registered_at o a None
  | inl i => ∃ c c', chunks o0 !! i = Some c ∧ chunks o !! i = Some c' ∧ cq_address c = a ∧
      registered_at o a (if cq_registered c then Some i else None)
  end.
Proof.
  intros Ho0 [Ho _ _ _ Hlen _ Had]. pose proof (find_spec (chunks o0) a (ck_sorted _ _ (oc_chunks o0 (ow_core o0 Ho0)))) as Hf.
  pose proof (oc_chunks o (ow_core o Ho)) as Hk. destruct (find (chunks o0) a) as [i|i].
  - destruct Hf as (c&Hc&Ha). destruct (lookup_lt_is_Some_2 (chunks o) i) as [c' Hc'].
    { rewrite Hlen. by eapply lookup_lt_Some. }
    destruct (Had i c c' Hc Hc') as (Hadr&Hreg&_). exists c, c'. split; [done|]. split; [done|]. split; [done|].
    destruct (cq_registered c) eqn:Hr; [exists c'; split_and!; [done|congruence|done]|]. intros c2 Hin Ha2.
    apply list_elem_of_lookup in Hin as [j Hj]. assert (j = i) as ->; [|congruence].
    apply (key_of_inj _ _ j i c2 c' Hk Hj Hc'). unfold key_of. congruence.
  - destruct Hf as (_&Hno&_). intros c' Hin Ha. apply list_elem_of_lookup in Hin as [j Hj].
    destruct (lookup_lt_is_Some_2 (chunks o0) j) as [c Hc]; [rewrite <- Hlen; by eapply lookup_lt_Some|].
    destruct (Had j c c' Hc Hj) as (Hadr&_). destruct (Hno c); [by eapply list_elem_of_lookup_2|congruence].
Qed.

(** Two owners find the same chunk at most once. *)
Lemma registered_at_unique o a f g : owner_ok o → registered_at o a f → registered_at o a g → f = g.
Proof.
  intros Ho Hf Hg. pose proof (oc_chunks o (ow_core o Ho)) as Hk. destruct f as [i|], g as [j|]; try done.
  - destruct Hf as (c&Hc&Ha&_), Hg as (c'&Hc'&Ha'&_). f_equal. apply (key_of_inj _ _ i j c c' Hk Hc Hc'). unfold key_of. congruence.
  - destruct Hf as (c&Hc&Ha&Hr). rewrite (Hg c) in Hr; [done|by eapply list_elem_of_lookup_2|done].
  - destruct Hg as (c&Hc&Ha&Hr). rewrite (Hf c) in Hr; [done|by eapply list_elem_of_lookup_2|done].
Qed.
Lemma wp_registered_at a f Q o : owner_ok o → registered_at o a f → Q (Done f) o → wp (registered a) Q o.
Proof.
  intros Ho Hf HQ. apply registered_spec; [apply (oc_chunks o (ow_core o Ho))|]. intros g Hg.
  by rewrite (registered_at_unique o a g f).
Qed.

(** One entry of the second loop. *)
Definition commit_one d (t : ScheduledTick) : op () :=
  let* index := expect_op (registered_or_fail (chunk_of (position t))) in
  let* r := expect_op (schedule_created d index t) in
  match r with Added => op_ret tt | _ => run Panic end.

Lemma wp_commit_one d t i o o' :
  owner_ok o → registered_at o (chunk_of (position t)) (Some i) → schedule_created d i t o = Ok (Done Added, o') →
  wp (commit_one d t) (λ r o2, r = Done tt ∧ o2 = o') o.
Proof.
  intros Ho Hr Hs. unfold commit_one. apply wp_bind, wp_expect_op. unfold registered_or_fail. apply wp_bind.
  apply (wp_registered_at _ _ _ _ Ho Hr). unfold wp at 1, op_ret. apply wp_bind, wp_expect_op. unfold wp at 1. rewrite Hs. by unfold wp, op_ret.
Qed.

(** The added entry is what tells the two owners apart. *)
Lemma admitting_added o0 o d ids counts C i c c' t q s ids' X' :
  owner_ok o0 → admitting o0 o d ids counts C → chunks o0 !! i = Some c → chunks o !! i = Some c' →
  cq_address c = chunk_of (position t) → ids_rep ids' ({[identity t]} ∪ C) →
  owner_ok (with_timeline (with_chunks o (<[i := with_queue c' d q]> (chunks o))) d s) →
  ids_rep (q_ids (queue c' d)) X' → ids_rep (q_ids q) ({[identity t]} ∪ X') →
  items_of q ≡ₚ t :: items_of (queue c' d) → q_pending q = q_pending (queue c' d) →
  admitting o0 (with_timeline (with_chunks o (<[i := with_queue c' d q]> (chunks o))) d s) d ids'
    (<[i := queue_count (queue c' d) - queue_count (queue c d) + 1]> counts) ({[identity t]} ∪ C).
Proof.
  intros Ho0 Had Hc Hc' Ha Hids Hok HX' Hq Hitems Hpd. pose proof (lookup_lt_Some _ _ _ Hc') as Hlt.
  assert (queue_count q = queue_count (queue c' d) + 1) as Hcount.
  { rewrite !queue_count_eq. unfold idents_of, pending_of, zlen. rewrite !length_app, Hitems, Hpd, !length_fmap. cbn [length]. lia. }
  destruct Had as [Ho Hl Hty Hi Hlen Hcl Hch]. split; try done.
  - cbn [chunks with_timeline with_chunks]. by rewrite length_insert.
  - by rewrite length_insert.
  - intros j cj cj' Hj Hj'. cbn [chunks with_timeline with_chunks] in Hj'. destruct (decide (j = i)) as [->|Hne].
    + rewrite list_lookup_insert_eq in Hj' by done. injection Hj' as <-. rewrite Hc in Hj. injection Hj as <-.
      destruct (Hch i c c' Hc Hc') as (Hadr&Hreg&Hcnt&Hmem). split; [done|]. split; [done|]. rewrite queue_of_with. split.
      * rewrite list_lookup_insert_eq by (rewrite Hcl, <- Hlen; done). f_equal. lia.
      * intros X Y HX HY id. rewrite (ids_rep_unique _ _ _ HY Hq), elem_of_union, (Hmem X X' HX HX' id), elem_of_union, elem_of_singleton.
        assert (id = identity t → chunk_of (id_position id) = cq_address c) by (intros ->; by rewrite Ha). naive_solver.
    + rewrite list_lookup_insert_ne in Hj' by done. destruct (Hch j cj cj' Hj Hj') as (Hadr&Hreg&Hcnt&Hmem).
      split; [done|]. split; [done|]. split; [by rewrite list_lookup_insert_ne|]. intros X Y HX HY id. rewrite (Hmem X Y HX HY id), elem_of_union, elem_of_singleton.
      assert (id = identity t → chunk_of (id_position id) ≠ cq_address cj); [|naive_solver]. intros -> Heq. apply Hne.
      apply (key_of_inj _ _ j i cj c (oc_chunks o0 (ow_core o0 Ho0)) Hj Hc). unfold key_of. rewrite Ha, <- Heq. done.
Qed.

(** Admission of one entry decides what creating its tick would do. *)
Definition admits_one o0 o d t (ids : Identities) (C : gset Identity) out (r : result (bool * Identities * list Z * CopyOutcome)) : Prop :=
  match r with
  | Failed e => wp (copy_one d t out) (λ r' _, r' = Failed e) o
  | Done (admitted, ids', counts', out') => ∃ o' C', admitting o0 o' d ids' counts' C' ∧ (size C' ≤ S (size C))%nat ∧
      length (id_slots ids') = length (id_slots ids) ∧ id_capacity ids' = id_capacity ids ∧ workspace o' = workspace o ∧
      wp (copy_one d t out) (λ r' o2, r' = Done out' ∧ o2 = o') o ∧
      if (admitted : bool) then wp (commit_one d t) (λ r' o2, r' = Done tt ∧ o2 = o') o else o' = o
  end.

Lemma admit_entry_spec o0 o d ids counts C t out :
  owner_ok o0 → admitting o0 o d ids counts C → (S (size C) < length (id_slots ids))%nat →
  ∃ r, admit_entry (chunks o0) (limits o0) (type_count o0 d) d t ids counts out = Ok r ∧ admits_one o0 o d t ids C out r.
Proof.
  intros Ho0 Had Hroom. pose proof (ad_ok _ _ _ _ _ _ Had) as Ho. unfold admit_entry.
  pose proof (admitting_find o0 o d ids counts C (chunk_of (position t)) Ho0 Had) as Hf.
  assert (Hmiss : registered_at o (chunk_of (position t)) None → admits_one o0 o d t ids C out (Done (false, ids, counts,
    {| added := added out; duplicates := duplicates out; missing_containers := missing_containers out + 1 |}))).
  { intros Hr. exists o, C. split; [done|]. split; [lia|]. do 3 (split; [done|]). split; [|done].
    unfold copy_one. apply wp_bind, (wp_registered_at _ _ _ _ Ho Hr). by unfold wp, op_ret. }
  destruct (find (chunks o0) (chunk_of (position t))) as [i|i]; [|by eexists; split; [done|apply Hmiss]].
  destruct Hf as (c&c'&Hc&Hc'&Ha&Hr). rewrite Hc. mstep. destruct (cq_registered c) eqn:Hreg; cbn [negb]; [|by eexists; split; [done|apply Hmiss]].
  assert (Hstep : ∀ Q, wp (let* o := get_owner in if type_count o d <=? type_id t then fail InvalidType
      else let* r := schedule_created d i t in
        match r with
        | Added => op_ret {| added := added out + 1; duplicates := duplicates out; missing_containers := missing_containers out |}
        | _ => op_ret {| added := added out; duplicates := duplicates out + 1; missing_containers := missing_containers out |}
        end) Q o → wp (copy_one d t out) Q o).
  { intros Q HQ. unfold copy_one. by apply wp_bind, (wp_registered_at _ _ _ _ Ho Hr). }
  destruct (type_count o0 d <=? type_id t) eqn:Hty.
  { eexists. split; [done|]. apply Hstep. apply wp_bind. unfold wp at 1, get_owner. by rewrite (ad_types _ _ _ _ _ _ Had), Hty. }
  destruct (ad_chunk _ _ _ _ _ _ Had i c c' Hc Hc') as (Hadr&Hreg'&Hcnt&Hmem). rewrite Hreg in Hreg'.
  destruct (wp_inv _ _ _ (schedule_created_spec o i c' d t Ho Hc' Hreg')) as (r&o'&Hs&Hok&(X'&HX'&Hcr)).
  pose proof (chunk_queue_ok _ _ i c d (oc_chunks o0 (ow_core o0 Ho0)) Hc) as Hq. destruct (qo_ids _ _ Hq) as (X&HX&_).
  rewrite (ids_contains_spec _ X (identity t) HX). mstep. pose proof (Hmem X X' HX HX' (identity t)) as Hid.
  assert (Hcp : identity t ∈ X' ↔ identity t ∈ X ∨ identity t ∈ C) by (cbn [id_position identity] in Hid; naive_solver).
  assert (Hcopied : (if bool_decide (identity t ∈ X) then Ok true else ids_contains ids (identity t)) = Ok (E := False) (bool_decide (identity t ∈ X'))).
  { rewrite (ids_contains_spec _ C _ (ad_ids _ _ _ _ _ _ Had)). rewrite (bool_decide_ext _ _ Hcp). destruct (decide (identity t ∈ X)).
    - rewrite !bool_decide_eq_true_2; [done|by left|done].
    - rewrite (bool_decide_eq_false_2 (identity t ∈ X)) by done. f_equal. apply bool_decide_ext. naive_solver. }
  rewrite Hcopied. mstep. assert (Hcopy : ∀ Q,
      wp (match r with
          | Done Added => op_ret {| added := added out + 1; duplicates := duplicates out; missing_containers := missing_containers out |}
          | Done _ => op_ret {| added := added out; duplicates := duplicates out + 1; missing_containers := missing_containers out |}
          | Failed e => fail e end) Q o' → wp (copy_one d t out) Q o).
  { intros Q HQ. apply Hstep. apply wp_bind. unfold wp at 1, get_owner. cbv beta iota. rewrite (ad_types _ _ _ _ _ _ Had), Hty.
    apply wp_bind. unfold wp at 1. rewrite Hs. by destruct r as [[]|]. }
  destruct r as [[]|e]; cbn [creates] in Hcr.
  - destruct Hcr as (Hnin&Hlt&q&s&->&Hq'&Hitems&Hpd). rewrite bool_decide_eq_false_2 by done. rewrite Hcnt. mstep.
    destruct (Z.leb_spec (queued_per_chunk (limits o0)) (queue_count (queue c d) + (queue_count (queue c' d) - queue_count (queue c d)))) as [Hbad|_].
    { rewrite (ad_limits _ _ _ _ _ _ Had) in Hlt. lia. }
    destruct (ids_insert_spec ids C (identity t) (ad_ids _ _ _ _ _ _ Had)) as (ids'&Hins&Hids'&Hslots&Hcap); [by right|]. rewrite Hins. mstep.
    eexists. split; [done|]. eexists _, ({[identity t]} ∪ C). split; [by eapply admitting_added|]. split.
    { assert (identity t ∉ C) by naive_solver. rewrite size_union, size_singleton by set_solver. lia. }
    do 3 (split; [done|]). split; [apply Hcopy; by unfold wp, op_ret|]. eapply wp_commit_one; [done|exact Hr|exact Hs].
  - destruct Hcr as [Hin ->]. rewrite bool_decide_eq_true_2 by done. eexists. split; [done|]. exists o, C. split; [done|]. split; [lia|]. do 3 (split; [done|]).
    split; [|done]. apply Hcopy. by unfold wp, op_ret.
  - done.
  - destruct e; try done. destruct Hcr as (Hnin&Hfull&->). rewrite bool_decide_eq_false_2 by done. rewrite Hcnt. mstep.
    destruct (Z.leb_spec (queued_per_chunk (limits o0)) (queue_count (queue c d) + (queue_count (queue c' d) - queue_count (queue c d)))) as [_|Hbad].
    2: { rewrite (ad_limits _ _ _ _ _ _ Had) in Hfull. lia. }
    eexists. split; [done|]. apply Hcopy. by unfold wp, fail.
Qed.

(** The admission loop decides what creating all ticks in turn would do, and the
    scheduling loop then does it. *)
Definition admitted_batch o d (l : list ScheduledTick) out (done : list SnapshotTick) (r : result CopyOutcome) : Prop :=
  match r with
  | Failed e => wp (copy_each d l out) (λ r' _, r' = Failed e) o
  | Done out' => ∃ o', owner_ok o' ∧ workspace o' = workspace o ∧ wp (copy_each d l out) (λ r' o2, r' = Done out' ∧ o2 = o') o ∧
      wp (schedule_admitted d done) (λ r' o2, r' = Done tt ∧ o2 = o') o
  end.

Lemma admit_loop_spec o0 d offset minimum maximum : ∀ entries o ids counts C out,
  owner_ok o0 → admitting o0 o d ids counts C → (size C + length entries < length (id_slots ids))%nat →
  Forall (λ e, st_admitted e = false) entries →
  ∃ done ids' counts' r, admit_loop (chunks o0) (limits o0) (type_count o0 d) d offset minimum maximum entries ids counts out =
      Ok (done, ids', counts', r) ∧ (∃ C', ids_rep ids' C') ∧ length (id_slots ids') = length (id_slots ids) ∧ id_capacity ids' = id_capacity ids ∧
    admitted_batch o d ((λ e, shifted offset minimum maximum (st_tick e)) <$> entries) out done r.
Proof.
  induction entries as [|e entries IH]; intros o ids counts C out Ho0 Had Hroom Hno; cbn [admit_loop].
  { eexists [], ids, counts, (Done out). split; [done|]. split; [exists C; apply Had|]. split; [done|]. split; [done|].
    exists o. split; [apply Had|]. split; [done|]. by unfold wp, op_ret. }
  apply Forall_cons in Hno as [He Hno]. cbn [length fmap list_fmap] in *. set (t := shifted offset minimum maximum (st_tick e)).
  destruct (admit_entry_spec o0 o d ids counts C t out Ho0 Had ltac:(lia)) as (r&Hae&Hr). rewrite Hae. mstep.
  destruct r as [[[[admitted ids1] counts1] out1]|err].
  - destruct Hr as (o1&C1&Had1&Hsz&Hsl&Hcap&Hws&Hcopy&Hcommit).
    destruct (IH o1 ids1 counts1 C1 out1 Ho0 Had1 ltac:(lia) Hno) as (done&ids'&counts'&r&Hl&HC&Hsl'&Hcap'&Hbatch). rewrite Hl. mstep.
    eexists _, ids', counts', r. split; [done|]. split; [done|]. split; [lia|]. split; [congruence|].
    destruct r as [out'|err]; cbn [admitted_batch copy_each] in *.
    + destruct Hbatch as (o'&Hok&Hws'&Hcopy'&Hsched). exists o'. split; [done|]. split; [congruence|]. split.
      * apply wp_bind. eapply wp_mono; [exact Hcopy|]. by intros r2 o2 [-> ->].
      * cbn [schedule_admitted st_admitted st_tick]. rewrite He. cbn [orb]. apply wp_bind. destruct admitted.
        -- eapply wp_mono; [exact Hcommit|]. by intros r2 o2 [-> ->].
        -- unfold wp at 1, op_ret. subst o1. exact Hsched.
    + apply wp_bind. eapply wp_mono; [exact Hcopy|]. by intros r2 o2 [-> ->].
  - eexists _, ids, counts, (Failed err). split; [done|]. split; [exists C; apply Had|]. split; [done|]. split; [done|].
    cbn [admitted_batch copy_each admits_one] in *. apply wp_bind. eapply wp_mono; [exact Hr|]. by intros r2 o2 ->.
Qed.

(** ** The whole copy *)

Definition copied_ticks offset (l : list ScheduledTick) : list ScheduledTick :=
  match sub_tick_order <$> l with
  | [] => []
  | first :: rest => shifted offset (fold_left Z.min rest first) (fold_left Z.max rest first) <$> l
  end.

(** A batch does what creating its ticks one by one does, or nothing but use
    the workspace. *)
Definition commits o d (l : list ScheduledTick) (r : result CopyOutcome) o' : Prop :=
  match r with
  | Failed e => (∃ o2, copy_each d l empty_counts o = Ok (Failed e, o2)) ∧ ∃ w, o' = with_workspace o w
  | Done out => ∃ w o2 w', copy_each d l empty_counts (with_workspace o w) = Ok (Done out, o2) ∧ o' = with_workspace o2 w'
  end.

Lemma with_workspace_id o : with_workspace o (workspace o) = o.
Proof. by destruct o. Qed.

Lemma snapshot_ticks (f : ScheduledTick → ScheduledTick) l : (λ e, f (st_tick e)) <$> snapshot_all l = f <$> l.
Proof. unfold snapshot_all. rewrite fmap_imap. apply list_eq. intros i. rewrite list_lookup_imap, list_lookup_fmap. by destruct (l !! i). Qed.

(** Nothing is admitted yet. *)
Lemma admitting_start o w d ids (counts : list Z) :
  owner_ok o → workspace_ok w → workspace_bytes w = workspace_bytes (workspace o) → ids_rep ids ∅ → length counts = length (chunks o) →
  admitting o (with_workspace o w) d ids ((λ _, 0) <$> counts) ∅.
Proof.
  intros Ho Hw Hb Hids Hl. split; try done.
  - by apply owner_rework.
  - by rewrite length_fmap.
  - intros i c c' Hc Hc'. cbn [chunks with_workspace] in Hc'. rewrite Hc in Hc'. injection Hc' as <-. split; [done|]. split; [done|]. split.
    + rewrite list_lookup_fmap. destruct (lookup_lt_is_Some_2 counts i) as [n ->]; [rewrite Hl; by eapply lookup_lt_Some|]. cbn. f_equal. lia.
    + intros X X' HX HX' id. rewrite (ids_rep_unique _ _ _ HX HX'). set_solver.
Qed.

Lemma workspace_copy w l ids ids' X n :
  workspace_ok w → copy_ids w = Some ids → ids_rep ids' X → length (id_slots ids') = length (id_slots ids) → id_capacity ids' = id_capacity ids →
  workspace_ok (with_copy w l ids' n) ∧ workspace_bytes (with_copy w l ids' n) = workspace_bytes w.
Proof.
  intros [H1 H2 H3 H4] Hi HX Hs Hc. rewrite Hi in H4. destruct H4 as (_&Hslots&Hbytes). split.
  - split; cbn [scratch_cap copy_counts_cap copy_capacity copy_ids with_copy]; try done. split; [by exists X|].
    unfold zlen, ids_bytes in *. by rewrite Hs, Hc.
  - unfold workspace_bytes. cbn [scratch_cap copy_counts_cap copy_ids with_copy]. rewrite Hi. unfold ids_bytes. by rewrite Hc.
Qed.

Lemma clear_capacity s : id_capacity (ids_clear s) = id_capacity s.
Proof. unfold ids_clear. by destruct (_ =? 0)%nat. Qed.

Lemma commit_copy_spec o d offset l :
  owner_ok o → scratch (workspace o) = snapshot_all l → (l ≠ [] → ready_for o (zlen l) true) →
  wp (commit_copy d offset) (λ r o', owner_ok o' ∧ commits o d (copied_ticks offset l) r o') o.
Proof.
  intros Ho Hsc Hrf. unfold commit_copy. apply wp_bind. unfold wp at 1, get_owner. cbv beta iota zeta. rewrite Hsc.
  assert (((λ e, sub_tick_order (st_tick e)) <$> snapshot_all l) = sub_tick_order <$> l) as ->.
  { rewrite <- (list_fmap_id l) at 2. rewrite <- (snapshot_ticks id l), <- list_fmap_compose. done. }
  unfold copied_ticks. destruct (sub_tick_order <$> l) as [|first rest] eqn:Horders.
  { unfold wp, op_ret. split; [done|]. exists (workspace o), o, (workspace o). by rewrite with_workspace_id. }
  set (mn := fold_left Z.min rest first). set (mx := fold_left Z.max rest first).
  assert (l ≠ []) as Hne by (by intros ->). destruct (Hrf Hne) as [_ Hrc]. destruct (Hrc eq_refl) as (Hcap&[ids0 Hids0]&Hcl).
  pose proof (oc_workspace o (ow_core o Ho)) as Hw. pose proof (wk_ids _ Hw) as Hwi. rewrite Hids0 in Hwi. destruct Hwi as ((X0&HX0)&Hslots&_).
  destruct (ids_clear_spec _ _ HX0) as [Hclr Hclen]. apply wp_bind, (wp_run _ ids0); [by rewrite Hids0|].
  assert (Hnone : Forall (λ e, st_admitted e = false) (snapshot_all l)).
  { apply Forall_lookup. intros i e He. unfold snapshot_all in He. rewrite list_lookup_imap in He. by destruct (l !! i); cbn in He; [injection He as <-|]. }
  assert (Hroom : (size (∅ : gset Identity) + length (snapshot_all l) < length (id_slots (ids_clear ids0)))%nat).
  { rewrite size_empty. unfold snapshot_all. rewrite length_imap, Hclen. assert (0 < zlen l) by (destruct l; [done|unfold zlen; cbn; lia]). unfold zlen in *. lia. }
  assert (Hrun : ∀ w, workspace_ok w → workspace_bytes w = workspace_bytes (workspace o) →
    ∃ done ids' counts' r, admit_loop (chunks o) (limits o) (type_count o d) d offset mn mx (snapshot_all l) (ids_clear ids0)
        ((λ _, 0) <$> copy_counts (workspace o)) empty_counts = Ok (done, ids', counts', r) ∧ (∃ C', ids_rep ids' C') ∧
      length (id_slots ids') = length (id_slots (ids_clear ids0)) ∧ id_capacity ids' = id_capacity (ids_clear ids0) ∧
      admitted_batch (with_workspace o w) d (shifted offset mn mx <$> l) empty_counts done r).
  { intros w Hwok Hwb. pose proof (admit_loop_spec o d offset mn mx (snapshot_all l) (with_workspace o w) _ _ ∅ empty_counts Ho
      (admitting_start o w d _ _ Ho Hwok Hwb Hclr Hcl) Hroom Hnone) as Ha. by rewrite snapshot_ticks in Ha. }
  destruct (Hrun _ Hw eq_refl) as (done&ids'&counts'&r&Hl&[C' HC']&Hsl&Hcp&Hb0). apply wp_bind, (wp_run _ _ _ _ Hl). cbv beta iota.
  rewrite clear_capacity in Hcp. rewrite Hclen in Hsl.
  destruct (workspace_copy (workspace o) done ids0 ids' C' counts' Hw Hids0 HC' Hsl Hcp) as [Hwok Hwb].
  apply wp_bind. unfold wp at 1, set_owner. cbv beta iota. set (w1 := with_copy (workspace o) done ids' counts') in *.
  pose proof (owner_rework o w1 Ho Hwok Hwb) as Ho1. destruct r as [out|e].
  - destruct (Hrun _ Hwok Hwb) as (done2&ids2&counts2&r2&Hl2&_&_&_&Hb). rewrite Hl in Hl2. injection Hl2 as <- <- <- <-.
    destruct Hb as (o2&Ho2&Hws2&Hcopy&Hsched). apply wp_bind. eapply wp_mono; [exact Hsched|]. intros r o3 [-> ->].
    apply wp_bind. unfold wp at 1, set_owner. cbv beta iota. unfold wp, op_ret. cbn [workspace with_workspace] in Hws2. rewrite Hws2.
    destruct (ids_clear_spec _ _ HC') as [Hclr' Hclen'].
    destruct (workspace_copy w1 [] ids' (ids_clear ids') ∅ counts' Hwok eq_refl Hclr' Hclen' (clear_capacity _)) as [Hwok3 Hwb3].
    split; [apply owner_rework; [done|done|by rewrite Hws2]|].
    destruct (wp_inv _ _ _ Hcopy) as (r&o3&Hrun3&->&->). by eexists w1, o2, _.
  - unfold wp, fail. split; [done|]. rewrite with_workspace_id in Hb0. cbn [admitted_batch] in Hb0.
    destruct (wp_inv _ _ _ Hb0) as (r&o2&Hrun2&->). split; [by exists o2|by exists w1].
Qed.

(** What a copy takes from its source: the selection, then the queues. *)
Definition snapshot_of (source : Owner) d (b : TickBounds) : list ScheduledTick :=
  in_area b (source_selected source d) ++ (source_chunks b (chunks source) ≫= λ c, in_area b (scheduled_items (q_heap (queue c d)))).

Lemma sum_counts_spec {A} (f : A → list ScheduledTick) l n :
  sum_counts ((λ x, zlen (f x)) <$> l) = Some n → n = zlen (l ≫= f).
Proof.
  revert n. induction l as [|x l IH]; intros n Hn; cbn [fmap list_fmap sum_counts] in Hn; [by injection Hn as <-|].
  apply bind_Some in Hn as (m&Hm&Hn). apply IH in Hm. unfold checked_add in Hn. case_match; [|done]. injection Hn as <-.
  change ((x :: l) ≫= f) with (f x ++ (l ≫= f)). unfold zlen in *. rewrite length_app. lia.
Qed.

Lemma snapshot_count_spec source d b :
  match snapshot_count (chunks source) (source_selected source d) d b with
  | Ok n => n = zlen (snapshot_of source d b) | Err _ => True | _ => False
  end.
Proof.
  unfold snapshot_count, snapshot_of. destruct (sum_counts _) as [n|] eqn:Hs; mstep; [|done].
  apply (sum_counts_spec (λ c, in_area b (scheduled_items (q_heap (queue c d))))) in Hs.
  unfold checked_add. destruct (_ <=? _); mstep; [|done]. unfold zlen in *. rewrite length_app. lia.
Qed.

(** A copy: nothing happens to the queues, the timelines and the phase on error,
    which is that of the bounds, of the workspace or of creating the shifted
    snapshot tick by tick; on success this is what happens. *)
Definition copies h o (source : Owner) d b offset (r : result CopyOutcome) o' : Prop :=
  match r with
  | Failed e => (∃ w n, o' = with_allocated (with_workspace o w) n) ∧
      (bounds_validate b = Err e ∨ snapshot_count (chunks source) (source_selected source d) d b = Err e ∨
       ensure_operation_scratch h (zlen (snapshot_of source d b)) true o = Ok (Failed e, o) ∨
       ∃ w n o2, copy_each d (copied_ticks offset (snapshot_of source d b)) empty_counts (with_allocated (with_workspace o w) n) = Ok (Failed e, o2))
  | Done out => ∃ w n o2 w', o' = with_workspace o2 w' ∧
      copy_each d (copied_ticks offset (snapshot_of source d b)) empty_counts (with_allocated (with_workspace o w) n) = Ok (Done out, o2)
  end.

Lemma with_all_id o : with_allocated (with_workspace o (workspace o)) (allocated_bytes o) = o.
Proof. by destruct o. Qed.

Lemma copy_from_spec h source d b offset o :
  owner_ok o → wp (copy_from h source d b offset) (λ r o', owner_ok o' ∧ copies h o source d b offset r o') o.
Proof.
  intros Ho. unfold copy_from. pose proof (snapshot_count_spec source d b) as Hcount. set (l := snapshot_of source d b) in *.
  assert (Hsame : owner_ok o ∧ ∃ w n, o = with_allocated (with_workspace o w) n).
  { split; [done|]. exists (workspace o), (allocated_bytes o). by rewrite with_all_id. }
  apply wp_bind. unfold wp at 1, try. destruct (snapshot_count (chunks source) (source_selected source d) d b) as [needed|e| |] eqn:Hc; [| |done|done].
  2: { split; [done|]. split; [by destruct Hsame|]. right. by left. }
  subst needed. destruct (wp_inv _ _ _ (ensure_operation_scratch_spec h (zlen l) true o Ho ltac:(unfold zlen; lia))) as (r&o1&Hens&Ho1&Hr).
  apply wp_bind. unfold wp at 1. rewrite Hens. destruct r as [[]|e].
  2: { cbn in Hr. subst o1. split; [done|]. split; [by destruct Hsame|]. right. right. by left. }
  assert (∃ w n, o1 = with_allocated (with_workspace o w) n) as (w&n&Heq).
  { destruct Hr as [[_ ->]|(_&w&n&->)]; [by destruct Hsame|by exists w, n]. }
  assert (zlen l ≤ scratch_cap (workspace o1)) as Hcap.
  { destruct Hr as [[Hz ->]|([Hcap _]&_)]; [rewrite Hz; apply (oc_workspace o (ow_core o Ho))|exact Hcap]. }
  apply wp_bind. unfold wp at 1, get_owner. cbv beta iota. apply wp_bind. unfold wp at 1, set_owner. cbv beta iota.
  apply wp_bind. unfold wp at 1, try, gather_snapshot. rewrite Hc. mstep.
  destruct (Z.ltb_spec (scratch_cap (workspace o1)) (zlen l)) as [|_]; [lia|]. fold (snapshot_of source d b). fold l.
  apply wp_bind. unfold wp at 1, set_owner. cbv beta iota. set (o2 := with_workspace (with_workspace o1 _) _).
  assert (Ho2 : owner_ok o2) by (by do 2 apply owner_scratch).
  eapply wp_mono; [apply (commit_copy_spec o2 d offset l Ho2); [done|]|].
  { intros Hne. destruct Hr as [[Hz _]|(Hrf&_)]; [destruct l; [done|unfold zlen in Hz; cbn in Hz; lia]|exact Hrf]. }
  assert (Ho2w : ∀ w', with_workspace o2 w' = with_allocated (with_workspace o w') n) by (intros w'; unfold o2; by rewrite Heq).
  intros r o3 [Hok Hcm]. split; [done|]. destruct r as [out|e]; cbn [commits copies] in *.
  - destruct Hcm as (w1&o4&w2&Hrun&->). exists w1, n, o4, w2. split; [done|]. by rewrite <- Ho2w.
  - destruct Hcm as ((o4&Hrun)&w1&->). split; [exists w1, n; apply Ho2w|]. do 3 right.
    exists (workspace o2), n, o4. by rewrite <- Ho2w, with_workspace_id.
Qed.

Lemma validated {A} b (m : op A) (Q : result A → Owner → Prop) o :
  (∀ e, bounds_validate b = Err e → Q (Failed e) o) → wp m Q o → wp (let* _ := try (bounds_validate b) in m) Q o.
Proof. intros HF Hm. unfold bounds_validate in *. apply wp_bind. unfold wp at 1, try. destruct (_ || _); [by apply HF|done]. Qed.

Lemma copy_area_spec h d b offset o :
  owner_ok o → wp (copy_area h d b offset) (λ r o', owner_ok o' ∧ copies h o o d b offset r o') o.
Proof.
  intros Ho. apply validated.
  - intros e He. split; [done|]. split; [|by left]. exists (workspace o), (allocated_bytes o). by rewrite with_all_id.
  - apply wp_bind. unfold wp at 1, get_owner. by apply copy_from_spec.
Qed.
Lemma copy_area_from_spec h source d b offset o :
  owner_ok o → wp (copy_area_from h source d b offset) (λ r o', owner_ok o' ∧ copies h o source d b offset r o') o.
Proof.
  intros Ho. apply validated; [|by apply copy_from_spec].
  intros e He. split; [done|]. split; [|by left]. exists (workspace o), (allocated_bytes o). by rewrite with_all_id.
Qed.
End work.
