(* ===== verification/TickArea.v ===== *)
(** * The scheduled-tick owner: clearing an area

    What [clear_area] removes from the queues, the identity sets and the running
    selection, and that the timelines and the cursor follow. *)

From stdpp Require Import list sets fin_maps gmap sorting.
From S2P Require Import Prelude.
From S2P Require Import Sorted.
From S2P Require Import View.
From S2P Require Import TickTypes.
From S2P Require Import TickHeap.
From S2P Require Import TickTables.
From S2P Require Import TickIndex.
From S2P Require Import TickOwner.
From S2P Require Import TickOwnerInv.
From S2P Require Import TickOwnerOps.
From S2P Require Import TickPhase.
From S2P Require Import TickWork.
Local Open Scope Z_scope.
Local Open Scope op_scope.

Section area.
Context `{Allocator} `{TickLayout} {base : Z}.
Notation owner_core := (owner_core base).
Notation owner_ok := (owner_ok base).
Variable b : TickBounds.
Implicit Types (o : Owner) (c : ChunkQueues) (d : TickDomain) (t : ScheduledTick) (q : ChunkQueue).

(** The ticks that stay. *)
Definition outside (l : list ScheduledTick) : list ScheduledTick := filter (λ t, bounds_contain b (position t) = false) l.

Lemma outside_cons t l : outside (t :: l) = (if bounds_contain b (position t) then [] else [t]) ++ outside l.
Proof. unfold outside. rewrite filter_cons. by destruct (bounds_contain b (position t)). Qed.
Lemma in_area_cons t l : in_area b (t :: l) = (if bounds_contain b (position t) then [t] else []) ++ in_area b l.
Proof. unfold in_area. rewrite filter_cons. by destruct (bounds_contain b (position t)). Qed.
Lemma area_lengths l : zlen l = zlen (in_area b l) + zlen (outside l).
Proof.
  unfold zlen. induction l as [|t l IH]; [done|]. rewrite in_area_cons, outside_cons, !length_app. cbn [length].
  destruct (bounds_contain b (position t)); cbn [length]; lia.
Qed.

(** ** One queue *)

(** The predicate answers by position and takes the identities along. *)
Lemma clear_calls ids log ids' : ∀ X : gset Identity,
  calls (clear_predicate b) ids log ids' → ids_rep ids X →
  TickHeap.kept log = outside log.*1 ∧ TickHeap.removed log = in_area b log.*1 ∧
  ids_rep ids' (X ∖ list_to_set (identity <$> in_area b log.*1)) ∧ length (id_slots ids') = length (id_slots ids) ∧ id_capacity ids' = id_capacity ids.
Proof.
  intros X Hc. revert X. induction Hc as [ids|ids v answer ids1 log ids2 Hv Hc IH]; intros X HX.
  { split; [done|]. split; [done|]. split; [|done]. cbn. by rewrite difference_empty_L. }
  cbn [fmap list_fmap fst]. rewrite outside_cons, in_area_cons. unfold clear_predicate in Hv. unfold TickHeap.kept, TickHeap.removed in *.
  rewrite !filter_cons. cbn [snd]. destruct (bounds_contain b (position v)).
  - destruct (ids_remove_spec ids X (identity v) HX) as (ids3&Hrm&HX3&Hl3). pose proof (remove_capacity _ _ _ Hrm) as Hcap.
    rewrite Hrm in Hv. mstep in Hv. injection Hv as <- <-. destruct (IH _ HX3) as (Hk&Hr&HX2&Hl2&Hc2).
    rewrite decide_False, decide_True by done. cbn [fmap list_fmap fst app] in *. split; [done|]. split; [by rewrite Hr|]. split; [|split; congruence].
    cbn [list_to_set]. by rewrite <- difference_difference_l_L.
  - injection Hv as <- <-. destruct (IH _ HX) as (Hk&Hr&HX2&Hl2&Hc2). rewrite decide_True, decide_False by done.
    cbn [fmap list_fmap fst app] in *. split; [by rewrite Hk|]. done.
Qed.

#[local] Instance outside_perm : Proper ((≡ₚ) ==> (≡ₚ)) outside.
Proof. unfold outside. solve_proper. Qed.
#[local] Instance in_area_perm : Proper ((≡ₚ) ==> (≡ₚ)) (in_area b).
Proof. unfold in_area. solve_proper. Qed.

(** The identities of the removed ticks leave the set of a queue, and no others. *)
Definition forgets q q' : Prop := ∀ X : gset Identity,
  ids_rep (q_ids q) X → ids_rep (q_ids q') (X ∖ list_to_set (identity <$> in_area b (items_of q))).

Lemma queue_clear_ok lim q :
  queue_ok lim q →
  ∃ n hp ids, scheduled_remove_if (clear_predicate b) (q_heap q) (q_ids q) = Ok (n, hp, ids) ∧
    let q' := queue_with q hp ids in
    queue_ok lim q' ∧ items_of q' ≡ₚ outside (items_of q) ∧ forgets q q' ∧
    Z.of_nat n = zlen (in_area b (items_of q)) ∧ queue_bytes q' = queue_bytes q.
Proof.
  intros Hq. destruct (qo_ids _ _ Hq) as (X&HX&Hsub).
  destruct (scheduled_remove_spec (clear_predicate b) (λ ids, ∃ X : gset Identity, ids_rep ids X) (q_heap q) (q_ids q))
    as (n&hp&ids&log&Hrun&Hcalls&Hlog&Hitems&Hn&Hw&Hlim&_); [|apply (qo_heap _ _ Hq)|by exists X|].
  { intros v ids (Y&HY). unfold clear_predicate. destruct (bounds_contain b (position v)); [|by eexists _, _; split; [done|exists Y]].
    destruct (ids_remove_spec ids Y (identity v) HY) as (ids'&->&HY'&_). mstep. eexists _, _. split; [done|]. by eexists. }
  destruct (clear_calls _ _ _ X Hcalls HX) as (Hkept&Hrem&HX'&Hslots&Hcap). rewrite Hkept, Hlog in Hitems. rewrite Hrem in Hn.
  apply (f_equal Z.of_nat) in Hn. exists n, hp, ids. split; [done|]. cbv zeta. fold (items_of q) in Hlog, Hitems.
  pose proof (remove_if_bytes _ _ _ _ _ _ Hrun) as Hb. assert (Hperm : in_area b log.*1 ≡ₚ in_area b (items_of q)) by by rewrite Hlog.
  split; [|split; [exact Hitems|split; [|split; [by rewrite Hn, Hperm|]]]].
  - split; cbn [q_heap q_ids q_pending queue_with]; try done.
    + by rewrite Hlim, (qo_limit _ _ Hq).
    + eexists. split; [exact HX'|]. intros id [Hid Hnid]%elem_of_difference. apply Hsub in Hid.
      unfold idents_of in *. rewrite elem_of_list_to_set in *. apply elem_of_app in Hid as [Hid|Hid]; apply elem_of_app; [left|by right].
      apply list_elem_of_fmap in Hid as (t&->&Ht). change (items_of (queue_with q hp ids)) with (scheduled_items hp). rewrite Hitems.
      apply list_elem_of_fmap. exists t. split; [done|]. apply list_elem_of_filter. split; [|done].
      destruct (bounds_contain b (position t)) eqn:Hin; [|done]. destruct Hnid. rewrite Hperm. apply list_elem_of_fmap. exists t.
      split; [done|]. by apply list_elem_of_filter.
    + unfold zlen in *. rewrite Hslots. apply (qo_slots _ _ Hq).
    + pose proof (qo_count _ _ Hq) as Hcount. rewrite queue_count_eq in *. unfold idents_of, zlen in *. rewrite length_app, length_fmap in *.
      change (items_of (queue_with q hp ids)) with (scheduled_items hp). rewrite Hitems.
      pose proof (area_lengths (items_of q)) as Hl. unfold zlen in Hl. change (pending_of (queue_with q hp ids)) with (pending_of q). lia.
    + rewrite Hb. apply (qo_heap_bytes _ _ Hq).
    + unfold ids_bytes. rewrite Hcap. apply (qo_ids_bytes _ _ Hq).
    + apply (qo_pending _ _ Hq).
  - intros Y HY. cbn [q_ids queue_with]. destruct (clear_calls _ _ _ Y Hcalls HY) as (_&_&HY'&_).
    by assert (list_to_set (identity <$> in_area b log.*1) = list_to_set (C := gset Identity) (identity <$> in_area b (items_of q))) as <- by by rewrite Hperm.
  - unfold queue_bytes. cbn [q_heap q_ids q_pending queue_with]. unfold ids_bytes. by rewrite Hb, Hcap.
Qed.

(** ** The chunks *)

(** The entry of a queue that has run empty leaves its timeline. *)
Lemma owner_chunk_remove o i c d q (Q : result () → Owner → Prop) :
  owner_ok o → chunks o !! i = Some c → queue_bytes q = queue_bytes (queue c d) → queue_ok (queued_per_chunk (limits o)) q →
  head_time (q_heap q) = None →
  (∀ s, owner_ok (with_timeline (with_chunks o (<[i := with_queue c d q]> (chunks o))) d s) → Q (Done tt)
     (with_timeline (with_chunks o (<[i := with_queue c d q]> (chunks o))) d s)) →
  wp (timeline_remove d (key_of c)) Q (with_chunks o (<[i := with_queue c d q]> (chunks o))).
Proof.
  intros Ho Hc Hb Hq Ht HQ. set (o1 := with_chunks o _). pose proof (oc_chunks o (ow_core o Ho)) as Hk.
  pose proof (core_queue o i c d q (ow_core o Ho) Hc Hq Hb) as Hc1. fold o1 in Hc1.
  destruct (ow_timeline o Ho d) as (M&Hr&Hm&HM). assert (Hsame : ∀ d', timeline o1 d' = timeline o d') by (by intros []).
  apply (timeline_remove_spec d (key_of c) M); [by rewrite Hsame|]. intros s Hs Hms. apply HQ. split; [by apply core_timeline|apply (ow_ready o Ho)|].
  intros d'. rewrite timeline_with. destruct (decide (d = d')) as [<-|Hne].
  - exists (delete (key_of c) M). split; [done|]. split; [by rewrite Hms, Hsame|].
    apply (indexed_delete (limits o) _ (due d []) _ M i c _ Hk HM Hc); [done| |done].
    unfold due. rewrite queue_with_queue, decide_True by done. rewrite Ht. by destruct (_ && _).
  - rewrite Hsame. destruct (ow_timeline o Ho d') as (M'&Hr'&Hm'&HM'). exists M'. split; [done|]. split; [done|].
    apply (indexed_keep (limits o) _ (due d' []) _ M' i c _ Hk HM' Hc); [done| |done].
    unfold due. by rewrite queue_with_queue, decide_False.
Qed.

(** Whether the area touches a chunk, and what clearing leaves of it. *)
Definition touched c : bool := cq_registered c && bounds_contain_chunk b (cq_address c).
Definition cleared d c c' : Prop :=
  if touched c then ∃ q, c' = with_queue c d q ∧ items_of q ≡ₚ outside (items_of (queue c d)) ∧ forgets (queue c d) q ∧ q_pending q = q_pending (queue c d)
  else c' = c.
Definition area_count d c : Z := if touched c then zlen (in_area b (items_of (queue c d))) else 0.

(** Clearing one chunk leaves every other one and the rest of the owner. *)
Definition clears_chunk o d i c (r : result Z) o' : Prop :=
  r = Done (area_count d c) ∧ ∃ c' s, cleared d c c' ∧ o' = with_timeline (with_chunks o (<[i := c']> (chunks o))) d s.

Lemma clear_chunk_spec o d i c :
  owner_ok o → chunks o !! i = Some c → wp (clear_chunk d b i) (λ r o', owner_ok o' ∧ clears_chunk o d i c r o') o.
Proof.
  intros Ho Hc. unfold clear_chunk. apply wp_bind, (wp_chunk_at i c); [done|]. pose proof (oc_chunks o (ow_core o Ho)) as Hk.
  destruct (touched c) eqn:Ht; unfold touched in Ht.
  2: { assert (negb (cq_registered c) || negb (bounds_contain_chunk b (cq_address c)) = true) as ->.
       { rewrite <- negb_andb. by rewrite Ht. }
       unfold wp, op_ret. split; [done|]. split; [unfold area_count, touched; by rewrite Ht|]. exists c, (timeline o d).
       split; [unfold cleared, touched; by rewrite Ht|]. rewrite list_insert_id by done. by destruct o, d. }
  pose proof Ht as [Hreg Hin]%andb_true_iff. rewrite Hreg, Hin. cbn [negb orb]. cbv zeta.
  pose proof (chunk_queue_ok _ _ i c d Hk Hc) as Hq. destruct (queue_clear_ok _ _ Hq) as (n&hp&ids&Hrun&Hq'&Hitems&Hids&Hn&Hb).
  apply wp_bind, (wp_run _ _ _ _ Hrun). cbv beta iota. apply wp_bind, wp_set_chunk. fold (queue_with (queue c d) hp ids).
  set (q := queue_with (queue c d) hp ids) in *. unfold queue_peek. rewrite queue_of_with.
  assert (Hdone : ∀ s, owner_ok (with_timeline (with_chunks o (<[i := with_queue c d q]> (chunks o))) d s) →
    wp (op_ret (Z.of_nat n)) (λ r o', owner_ok o' ∧ clears_chunk o d i c r o') (with_timeline (with_chunks o (<[i := with_queue c d q]> (chunks o))) d s)).
  { intros s Hs. unfold wp, op_ret. split; [done|]. split; [unfold area_count, touched; by rewrite Ht, Hn|].
    exists (with_queue c d q), s. split; [|done]. unfold cleared, touched. rewrite Ht. by exists q. }
  apply wp_bind. case_bool_decide as Hhead.
  - unfold wp at 1, op_ret. rewrite <- (with_timeline_id (with_chunks o _) d). apply Hdone. rewrite with_timeline_id.
    apply (owner_chunk o i c); [done|done|done|by apply with_queue_bytes| |].
    + intros d'. rewrite queue_with_queue. destruct (decide (d = d')); [exact Hq'|by apply (chunk_queue_ok _ _ i c d' Hk)].
    + intros d'. apply due_with_queue. unfold head_time. by rewrite Hhead.
  - change (packed_chunk (cq_address (with_queue c d q))) with (key_of c).
    destruct (scheduled_peek (q_heap q)) as [t|] eqn:Hpk.
    + apply (owner_chunk_put (base := base) o i c d q (trigger_tick t)); try done. unfold head_time. by rewrite Hpk.
    + apply owner_chunk_remove; try done. unfold head_time. by rewrite Hpk.
Qed.

(** All the listed chunks, each once. *)
Definition clears_chunks o d (l : list nat) (r : result Z) o' : Prop :=
  r = Done (foldr (λ i n, from_option (area_count d) 0 (chunks o !! i) + n) 0 l) ∧ length (chunks o') = length (chunks o) ∧
  (∃ cs s, o' = with_timeline (with_chunks o cs) d s) ∧
  ∀ i c, chunks o !! i = Some c → ∃ c', chunks o' !! i = Some c' ∧ if decide (i ∈ l) then cleared d c c' else c' = c.

Lemma clear_chunks_spec d : ∀ l o, owner_ok o → NoDup l → (∀ i, i ∈ l → (i < length (chunks o))%nat) →
  wp (clear_chunks d b l) (λ r o', owner_ok o' ∧ clears_chunks o d l r o') o.
Proof.
  induction l as [|i l IH]; intros o Ho Hnd Hlt; cbn [clear_chunks].
  { unfold wp, op_ret. split; [done|]. split; [done|]. split; [done|].
    split; [exists (chunks o), (timeline o d); by destruct o, d|]. intros i c Hc. exists c. split; [done|]. by rewrite decide_False by set_solver. }
  apply NoDup_cons in Hnd as [Hnin Hnd]. destruct (lookup_lt_is_Some_2 (chunks o) i) as [c Hc]; [apply Hlt; set_solver|].
  apply wp_bind. eapply wp_mono; [by apply (clear_chunk_spec o d i c)|]. intros r o1 [Ho1 (->&c'&s&Hcl&Heq)].
  assert (Hcs : chunks o1 = <[i := c']> (chunks o)) by by rewrite Heq.
  apply wp_bind. eapply wp_mono; [apply (IH o1 Ho1 Hnd)|].
  { intros j Hj. rewrite Hcs, length_insert. apply Hlt. set_solver. }
  intros r o2 [Ho2 (->&Hlen&(cs&s2&Hfr)&Hall)]. unfold wp, op_ret. split; [done|]. split; [|split; [|split]].
  - cbn [foldr]. rewrite Hc. cbn [from_option]. do 2 f_equal. rewrite Hcs. clear -Hnin. induction l as [|j l IHl]; [done|]. cbn [foldr].
    rewrite list_lookup_insert_ne by set_solver. rewrite IHl by set_solver. done.
  - by rewrite Hlen, Hcs, length_insert.
  - exists cs, s2. rewrite Hfr, Heq. by destruct o, d.
  - intros j cj Hj. destruct (decide (j = i)) as [->|Hji].
    + rewrite Hc in Hj. injection Hj as <-. destruct (Hall i c') as (c2&Hc2&Hcase).
      { rewrite Hcs. apply list_lookup_insert_eq. by eapply lookup_lt_Some. }
      rewrite decide_False in Hcase by done. subst c2. exists c'. split; [done|]. by rewrite decide_True by set_solver.
    + destruct (Hall j cj) as (c2&Hc2&Hcase); [by rewrite Hcs, list_lookup_insert_ne|]. exists c2. split; [done|].
      destruct (decide (j ∈ l)); [rewrite decide_True by set_solver|rewrite decide_False by set_solver]; done.
Qed.

(** ** The selection *)

Lemma counts_perm l l' : l ≡ₚ l' → counts_of l = counts_of l'.
Proof. intros Hp. apply map_eq. intros i. rewrite !counts_lookup. unfold occurrences. by rewrite Hp. Qed.

(** Behind the cursor, removed ticks only move it. *)
Lemma retain_before original l1 l2 : ∀ pos cursor counts,
  (pos + length l1 = original)%nat → (length l1 ≤ cursor)%nat →
  retain_selected b original pos (l1 ++ l2) cursor counts =
    ('(kept, cur, counts, n) ← retain_selected b original original l2 (cursor - length (in_area b l1))%nat counts;
     Ok (outside l1 ++ kept, cur, counts, n + zlen (in_area b l1))).
Proof.
  induction l1 as [|t l1 IH]; intros pos cursor counts Hpos Hcur; cbn [app length] in *.
  { replace original with pos by lia. cbn. rewrite Nat.sub_0_r. destruct (retain_selected _ _ _ _ _ _) as [[[[kept cur] cs] n]| | |]; cbn; try done. by rewrite Z.add_0_r. }
  rewrite outside_cons, in_area_cons. cbn [retain_selected]. destruct (bounds_contain b (position t)); cbn [negb app].
  - destruct (Nat.ltb_spec pos original); [|lia]. destruct (Nat.ltb_spec 0 cursor); [|lia]. cbn [assert_that]. mstep.
    rewrite IH by lia. cbn [length]. replace (cursor - 1 - length (in_area b l1))%nat with (cursor - S (length (in_area b l1)))%nat by lia.
    destruct (retain_selected _ _ _ _ _ _) as [[[[kept cur] cs] n]| | |]; mstep; try done. unfold zlen. cbn [length].
    by replace (n + Z.of_nat (length (in_area b l1)) + 1) with (n + Z.of_nat (S (length (in_area b l1)))) by lia.
  - rewrite IH by lia. by destruct (retain_selected _ _ _ _ _ _) as [[[[kept cur] cs] n]| | |].
Qed.

(** Ahead of the cursor, removed ticks are no longer counted. *)
Lemma retain_after original : ∀ l pos cursor counts K,
  (original ≤ pos)%nat → rc_rep counts (counts_of (K ++ (identity <$> l))) →
  ∃ counts', retain_selected b original pos l cursor counts = Ok (outside l, cursor, counts', zlen (in_area b l)) ∧
    rc_rep counts' (counts_of (K ++ (identity <$> outside l))) ∧ rc_limit counts' = rc_limit counts.
Proof.
  induction l as [|t l IH]; intros pos cursor counts K Hpos Hr; cbn [retain_selected]; [by exists counts|].
  rewrite outside_cons, in_area_cons. cbn [fmap list_fmap] in Hr. destruct (bounds_contain b (position t)); cbn [negb app].
  - destruct (Nat.ltb_spec pos original); [lia|]. rewrite (counts_perm _ (identity t :: K ++ (identity <$> l))) in Hr by by rewrite Permutation_middle.
    destruct (rc_remove_spec _ _ (identity t) Hr) as (c1&Hrm&Hr1&Hl1). rewrite counts_tail in Hr1. rewrite Hrm. mstep.
    destruct (IH (S pos) cursor c1 K ltac:(lia) Hr1) as (c2&Hrun&Hr2&Hl2). rewrite Hrun. mstep. exists c2. split; [|split; [done|congruence]].
    unfold zlen. cbn [length]. do 2 f_equal. lia.
  - destruct (IH (S pos) cursor counts (K ++ [identity t]) ltac:(lia)) as (c2&Hrun&Hr2&Hl2); [by rewrite <- app_assoc|].
    rewrite Hrun. mstep. exists c2. split; [done|]. split; [|done]. cbn [fmap list_fmap]. by rewrite <- app_assoc in Hr2.
Qed.

(** The whole selection: what was handed out and what is to come. *)
Lemma retain_spec l p :
  phase_ok l p →
  ∃ counts, retain_selected b (cursor p) 0 (selected p) (cursor p) (remaining_ids p) =
      Ok (outside (selected p), length (outside (take (cursor p) (selected p))), counts, zlen (in_area b (selected p))) ∧
    let p' := {| selected := outside (selected p); selected_ids := selected_ids p; remaining_ids := counts;
                 cursor := length (outside (take (cursor p) (selected p))); active := active p |} in
    phase_ok l p' ∧ remaining p' = outside (remaining p).
Proof.
  intros Hp. pose proof (po_cursor _ _ Hp) as Hcur. set (done := take (cursor p) (selected p)). set (todo := drop (cursor p) (selected p)).
  assert (Hsplit : selected p = done ++ todo) by (symmetry; apply take_drop).
  assert (Hlen : length done = cursor p) by (unfold done; rewrite length_take; lia).
  assert (Hout : outside (selected p) = outside done ++ outside todo) by (rewrite Hsplit; apply filter_app).
  assert (Hin : in_area b (selected p) = in_area b done ++ in_area b todo) by (rewrite Hsplit; apply filter_app).
  pose proof (area_lengths done) as Hl. unfold zlen in Hl. rewrite Hlen in Hl.
  destruct (retain_after (cursor p) todo (cursor p) (length (outside done)) (remaining_ids p) [] (le_n _) (po_counts _ _ Hp)) as (counts&Hrun&Hr&Hlim).
  exists counts. split.
  - rewrite Hsplit at 1. rewrite retain_before by lia. replace (cursor p - length (in_area b done))%nat with (length (outside done)) by lia.
    rewrite Hrun. mstep. rewrite Hout, Hin. unfold zlen. rewrite length_app. do 2 f_equal. lia.
  - cbv zeta. set (p' := {| selected := _ |}). assert (Hrem : remaining p' = outside todo).
    { unfold remaining. cbn [cursor selected p']. rewrite Hout. by rewrite drop_app_length. }
    split; [|exact Hrem]. destruct Hp as [H1 H2 H3 H4 H5 H6 H7]. split; cbn [selected_ids remaining_ids cursor selected active p']; try assumption.
    + change (rc_rep counts (counts_of (identity <$> remaining p'))). rewrite Hrem. exact Hr.
    + by rewrite Hlim.
    + pose proof (area_lengths (selected p)). unfold zlen in *. lia.
    + rewrite Hout, length_app. lia.
    + intros Ha. by rewrite (H7 Ha).
Qed.

(** What clearing an area does.  Nothing but the chunks, the timeline of the
    domain and the phase change; both timelines know the first trigger time of
    every registered chunk, and of nothing else. *)
Definition cleared_phase (p p' : Phase) : Prop :=
  active p' = active p ∧ selected_ids p' = selected_ids p ∧ selected p' = outside (selected p) ∧
  cursor p' = length (outside (take (cursor p) (selected p))) ∧ remaining p' = outside (remaining p) ∧
  rc_rep (remaining_ids p') (counts_of (identity <$> outside (remaining p))).
Definition clears o d (r : result Z) o' : Prop :=
  match r with
  | Failed e => e = InvalidBounds ∧ bounds_validate b = Err InvalidBounds ∧ o' = o
  | Done n =>
      Forall2 (cleared d) (chunks o) (chunks o') ∧
      (∃ cs s p, o' = with_phase (with_timeline (with_chunks o cs) d s) p) ∧
      (∀ d', timeline_ok (limits o) (chunks o') d' [] (timeline o' d')) ∧
      if decide (active (phase o) = Some d)
      then n = zlen (source_chunks b (chunks o) ≫= λ c, in_area b (items_of (queue c d))) + zlen (in_area b (selected (phase o))) ∧
        cleared_phase (phase o) (phase o')
      else n = zlen (source_chunks b (chunks o) ≫= λ c, in_area b (items_of (queue c d))) ∧ phase o' = phase o
  end.

Lemma source_chunks_cons c cs : source_chunks b (c :: cs) = (if touched c then [c] else []) ++ source_chunks b cs.
Proof. unfold source_chunks, touched. rewrite filter_cons. by destruct (cq_registered c && bounds_contain_chunk b (cq_address c)). Qed.

Lemma area_total d cs :
  foldr (λ i n, from_option (area_count d) 0 (cs !! i) + n) 0 (seq 0 (length cs)) = zlen (source_chunks b cs ≫= λ c, in_area b (items_of (queue c d))).
Proof.
  induction cs as [|c cs IH]; [done|]. cbn [length seq foldr]. rewrite <- fmap_S_seq, source_chunks_cons, bind_app. unfold zlen at 1.
  rewrite length_app, Nat2Z.inj_add. fold (zlen (source_chunks b cs ≫= λ c, in_area b (items_of (queue c d)))). rewrite <- IH. clear IH. f_equal.
  - cbn [lookup list_lookup from_option]. unfold area_count. destruct (touched c); [|done]. cbn [mbind list_bind]. by rewrite app_nil_r.
  - generalize (seq 0 (length cs)). intros l. induction l as [|i l IHl]; [done|]. cbn [fmap list_fmap foldr]. by rewrite IHl.
Qed.

Lemma clear_area_spec d o : owner_ok o → wp (clear_area d b) (λ r o', owner_ok o' ∧ clears o d r o') o.
Proof.
  intros Ho. unfold clear_area. apply wp_bind. unfold wp at 1, try. destruct (bounds_validate b) as [[]|e| |] eqn:Hv.
  2: { assert (e = InvalidBounds) as -> by (revert Hv; unfold bounds_validate; destruct (_ || _); by intros [= <-]). by split. }
  2-3: unfold bounds_validate in Hv; by destruct (_ || _).
  apply wp_bind. unfold wp at 1, get_owner. cbv beta iota.
  apply wp_bind. eapply wp_mono; [apply (clear_chunks_spec d (seq 0 (length (chunks o))) o Ho)|].
  { apply NoDup_seq. } { intros i Hi. apply elem_of_seq in Hi. lia. }
  intros r o1 [Ho1 (->&Hlen&(cs&s&Hfr)&Hall)]. rewrite area_total. set (n := zlen (_ ≫= _)).
  assert (Hp : phase o1 = phase o) by (rewrite Hfr; by destruct d). assert (Hl : limits o1 = limits o) by (rewrite Hfr; by destruct d).
  assert (Hf : Forall2 (cleared d) (chunks o) (chunks o1)).
  { apply Forall2_same_length_lookup. split; [done|]. intros i c c' Hc Hc'. destruct (Hall i c Hc) as (c2&Hc2&Hcase).
    rewrite decide_True in Hcase by (apply elem_of_seq; apply lookup_lt_Some in Hc; lia). congruence. }
  assert (Htl : ∀ d', timeline_ok (limits o) (chunks o1) d' [] (timeline o1 d')) by (intros d'; rewrite <- Hl; apply (ow_timeline o1 Ho1)).
  apply wp_bind. unfold wp at 1, get_owner. cbv beta iota zeta. rewrite Hp. destruct (decide (active (phase o) = Some d)) as [Ha|Ha].
  - rewrite (bool_decide_eq_true_2 _ Ha). destruct (retain_spec _ _ (oc_phase o (ow_core o Ho))) as (counts&Hrun&Hpok&Hrem).
    apply wp_bind, (wp_run _ _ _ _ Hrun). cbv beta iota. apply wp_bind. unfold wp at 1, set_owner. cbv beta iota. unfold wp, op_ret.
    split; [apply owner_phase; [done|by rewrite Hl]|]. split; [exact Hf|]. rewrite decide_True by done.
    split; [exists cs, s; eexists; by rewrite Hfr|]. split; [intros d'; specialize (Htl d'); by destruct d'|]. split; [done|].
    split_and!; try done. pose proof (po_counts _ _ Hpok) as Hcounts. cbn [remaining_ids] in Hcounts. rewrite <- Hrem. exact Hcounts.
  - rewrite (bool_decide_eq_false_2 _ Ha). unfold wp, op_ret. split; [done|]. split; [exact Hf|]. rewrite decide_False by done.
    split; [exists cs, s, (phase o); rewrite Hfr; by destruct o, d|]. by split.
Qed.
End area.
