(* ===== verification/TickCalls.v ===== *)
(** * The scheduled-tick owner: all its calls

    A fresh owner satisfies the invariant, every call preserves it and returns;
    so every owner that any sequence of calls can reach does.  The theorems about
    scheduling, phases, copies and areas are stated for reachable owners. *)

From stdpp Require Import list sets fin_maps gmap sorting.
From S2P Require Import Prelude.
From S2P Require Import Sorted.
From S2P Require Import View.
From S2P Require Import TickTypes.
From S2P Require Import TickHeap.
From S2P Require Import TickTables.
From S2P Require Import TickIndex.
From S2P Require Import TickOwner.
From S2P Require Import TickOwnerInv.
From S2P Require Import TickOwnerOps.
From S2P Require Import TickPhase.
From S2P Require Import TickWork.
From S2P Require Import TickArea.
Local Open Scope Z_scope.
Local Open Scope op_scope.

Section calls.
Context `{Allocator} `{TickLayout}.
Implicit Types (o : Owner) (c : ChunkQueues) (d : TickDomain).

(** ** A fresh owner *)

(** The limits are machine words. *)
Definition limits_words (l : TickLimits) : Prop :=
  0 ≤ max_chunks l ∧ 0 ≤ queued_per_chunk l ∧ 0 ≤ selected_per_phase l ∧ 0 ≤ allocation_bytes l.

Lemma index_bytes_nonneg keys rest s : 0 ≤ keys → index_new slot_size keys rest = Ok s → 0 ≤ index_bytes slot_size s.
Proof.
  intros Hk Hn. pose proof (layout_ge slot_size ltac:(set_solver)) as Hss. unfold index_new in Hn.
  destruct (Z.ltb_spec (max_fill MAX_CAPACITY) keys) as [|Hmax]; [done|].
  destruct (physical_for_spec 25 5 keys ltac:(lia) Hmax) as (m&Hph&_). change INITIAL_CAPACITY with (2 ^ Z.of_nat 5)%Z in Hn.
  rewrite Hph in Hn. mstep in Hn. apply outcome_bind_ok in Hn as (rq&_&Hn). destruct (_ <? _)%Z; [done|].
  apply outcome_bind_ok in Hn as ([a r1]&(Ha&->&_)%reserved_vec_ok&Hn).
  apply outcome_bind_ok in Hn as ([b r2]&(Hb&->&_)%reserved_vec_ok&Hn).
  apply outcome_bind_ok in Hn as ([c r3]&(Hc&->&_)%reserved_vec_ok&Hn). injection Hn as <-. unfold index_bytes. cbn [allocated]. nia.
Qed.

Lemma index_step keys rest :
  0 ≤ keys →
  match index_new slot_size keys rest with
  | Ok s => index_rep s ∅ ∧ Z.of_nat (max_keys s) = keys ∧ ∃ rest', unwrap (checked_sub rest (index_bytes slot_size s)) = Ok (E := TickError) rest' ∧ rest' ≤ rest
  | Err _ => True
  | _ => False
  end.
Proof.
  intros Hk. destruct (index_new_total slot_size keys rest) as [Hp Hf].
  destruct (index_new slot_size keys rest) as [s| | |] eqn:Hn; [|done..].
  pose proof (index_bytes_nonneg _ _ _ Hk Hn). apply index_new_spec in Hn as (Hr&Hm&Hb); [|done]. split; [done|]. split; [lia|].
  exists (rest - index_bytes slot_size s). unfold checked_sub. destruct (Z.leb_spec (index_bytes slot_size s) rest); [|lia]. split; [done|lia].
Qed.

Lemma reserved_step size cap rest :
  0 ≤ size → 0 ≤ cap → match reserved_vec size cap rest with Ok (_, r) => r ≤ rest | Err _ => True | _ => False end.
Proof.
  intros Hs Hc. destruct (reserved_vec_total size cap rest) as [Hp Hf]. destruct (reserved_vec size cap rest) as [[n r]| | |] eqn:Hn; [|done..].
  apply reserved_vec_ok in Hn as (?&->&?). nia.
Qed.

Lemma ready_step cap rest :
  0 ≤ cap →
  match ready_new ready_size cap rest with
  | Ok (h, r) => heap_wf ready_precedes h ∧ values h = [] ∧ limit h = cap ∧ r ≤ rest
  | Err _ => True
  | _ => False
  end.
Proof.
  intros Hc. pose proof (layout_ge ready_size ltac:(set_solver)) as Hs. pose proof (reserved_step ready_size cap rest Hs Hc) as Hr.
  destruct (ready_new ready_size cap rest) as [[h r]| | |] eqn:Hn; unfold ready_new in Hn.
  - destruct (heap_new_spec ready_precedes _ _ _ _ _ Hc Hn) as (?&?&?&_). split; [done|]. split; [done|]. split; [done|].
    unfold heap_new in Hn. destruct (reserved_vec ready_size cap rest) as [[n r']| | |]; [|done..]. mstep in Hn. by injection Hn as _ <-.
  - done.
  - unfold heap_new in Hn. by destruct (reserved_vec ready_size cap rest) as [[]| | |].
  - unfold heap_new in Hn. by destruct (reserved_vec ready_size cap rest) as [[]| | |].
Qed.

Lemma counts_step h cap rest :
  0 ≤ cap →
  match rc_new count_size usize_size h cap rest with
  | Ok (s, r) => rc_rep s ∅ ∧ rc_limit s = cap ∧ 0 ≤ r ≤ rest
  | Err _ => True
  | _ => False
  end.
Proof.
  intros Hc. pose proof (layout_ge count_size ltac:(set_solver)) as Hs. pose proof (layout_ge usize_size ltac:(set_solver)) as Hu.
  destruct (rc_new_total count_size usize_size h cap rest) as [Hp Hf].
  destruct (rc_new count_size usize_size h cap rest) as [[s r]| | |] eqn:Hn; [|done..].
  destruct (rc_new_spec _ _ _ _ _ _ _ Hc Hn) as (Hr&Hl&He&Hpos). split; [done|]. split; [done|].
  assert (0 ≤ rc_entries_cap s ∧ 0 ≤ rc_lookup_cap s) as [? ?]; [|nia].
  unfold rc_new in Hn. destruct (cap =? 0); [done|]. apply outcome_bind_ok in Hn as (slots&Hslots%ok_or_ok&Hn).
  apply outcome_bind_ok in Hn as (rq&_&Hn). destruct (_ <? _); [done|].
  apply outcome_bind_ok in Hn as ([a r1]&(Ha&_)%reserved_vec_ok&Hn). apply outcome_bind_ok in Hn as ([b r2]&(Hb&_)%reserved_vec_ok&Hn).
  injection Hn as <- <-. cbn [rc_entries_cap rc_lookup_cap].
  apply bind_Some in Hslots as (power&Hpow&Hslots). unfold checked_mul in Hslots. case_match; [|done]. injection Hslots as <-.
  apply next_power_spec in Hpow as (_&_&k&->); [|lia]. lia.
Qed.

(** A new owner is empty, and its memory is what its tables cost. *)
Definition fresh (l : TickLimits) o : Prop :=
  owner_ok (allocated_bytes o) o ∧ limits o = l ∧ chunks o = [] ∧ active (phase o) = None ∧ selected (phase o) = [] ∧ next_sub_tick o = 0.

Lemma fresh_timeline l d s :
  index_rep s ∅ → Z.of_nat (max_keys s) = max_chunks l → timeline_ok l [] d [] s.
Proof. intros Hs Hm. exists ∅. split; [done|]. split; [done|]. split; [done|]. intros k [? Hk]. by rewrite lookup_empty in Hk. Qed.

Lemma owner_new_spec h blocks fluids l :
  limits_words l → match owner_new h blocks fluids l with Ok o => fresh l o | Err _ => True | _ => False end.
Proof.
  intros (Hc&Hq&Hs&Ha). unfold owner_new. destruct (_ || _) eqn:Hcheck; [done|]. rewrite !orb_false_iff, !Z.eqb_neq, Z.ltb_ge in Hcheck.
  destruct Hcheck as (((((Hb0&Hf0)&Hc0)&Hq0)&Hs0)&Hs1).
  pose proof (reserved_step chunks_size (max_chunks l) (allocation_bytes l) (layout_ge chunks_size ltac:(set_solver)) Hc) as K1.
  destruct (reserved_vec chunks_size _ _) as [[cc r1]|e| |]; mstep; [|done..].
  pose proof (ready_step (max_chunks l) r1 Hc) as K2. destruct (ready_new _ _ _) as [[rd r2]|e| |]; mstep; [|done..]. destruct K2 as (Hw&Hv&Hl&K2).
  pose proof (index_step (max_chunks l) r2 Hc) as K3. destruct (index_new _ _ _) as [ib|e| |]; mstep; [|done..]. destruct K3 as (Hib&Hmb&r3&->&K3). mstep.
  pose proof (index_step (max_chunks l) r3 Hc) as K4. destruct (index_new _ _ _) as [jf|e| |]; mstep; [|done..]. destruct K4 as (Hif&Hmf&r4&->&K4). mstep.
  pose proof (reserved_step tick_size (selected_per_phase l) r4 (layout_ge tick_size ltac:(set_solver)) Hs) as K5.
  destruct (reserved_vec tick_size _ _) as [[sc r5]|e| |]; mstep; [|done..].
  destruct (ids_new_total idslot_size h.1 (selected_per_phase l) r5) as [Hp6 Hf6].
  destruct (ids_new idslot_size h.1 (selected_per_phase l) r5) as [[ids r6]|e| |] eqn:Hids; mstep; [|done..].
  apply ids_new_ok in Hids as (Hids&Hslots&->&_&K6); [|done].
  pose proof (counts_step h.2 (selected_per_phase l) (r5 - ids_bytes idslot_size ids) Hs) as K7.
  destruct (rc_new _ _ _ _ _) as [[counts r7]|e| |]; mstep; [|done..]. destruct K7 as (Hrc&Hrl&K7).
  destruct (ok_or _ _) as [slimit|e| |] eqn:Hsl; mstep; [|done|by destruct (queued ← _; _)..].
  unfold checked_sub. destruct (Z.leb_spec r7 (allocation_bytes l)); [|lia]. mstep. split; [|done].
  split; cbn [ready chunks limits values]; [split; cbn [limits chunks ready phase workspace allocated_bytes]|done|].
  - split; lia.
  - split; [constructor|unfold zlen; cbn; lia|constructor|by intros d; constructor].
  - by split.
  - split; cbn [selected_ids remaining_ids selected cursor active]; try done.
    exists ∅. rewrite size_empty. split; [done|lia].
  - by split.
  - split; cbn [allocated_bytes limits chunks workspace]; [lia|]. split; [lia|]. unfold workspace_bytes. cbn. lia.
  - intros []; by apply fresh_timeline.
Qed.

(** ** Calls and the owners they reach *)

Inductive call :=
  | RegisterChunk (h : Hash * Hash) (a : ChunkAddress) (eligible : bool)
  | LoadPendingChunk (h : Hash * Hash) (a : ChunkAddress) (blocks fluids : list SavedTick)
  | UnpackChunk (a : ChunkAddress) (game_time : Z)
  | PackChunk (h : Hash) (a : ChunkAddress) (d : TickDomain) (game_time room : Z)
  | SetEligible (a : ChunkAddress) (eligible : bool)
  | DetachChunk (a : ChunkAddress)
  | DiscardDetachedChunk (a : ChunkAddress)
  | Schedule (d : TickDomain) (pos : TickPosition) (type game_time delay : Z) (prio : TickPriority)
  | HasScheduled (d : TickDomain) (pos : TickPosition) (type : Z)
  | BeginPhase (d : TickDomain) (game_time max_ticks : Z)
  | WillTickThisPhase (d : TickDomain) (pos : TickPosition) (type : Z)
  | NextDue
  | FinishPhase
  | ClearArea (d : TickDomain) (b : TickBounds)
  | CopyArea (h : Hash) (d : TickDomain) (b : TickBounds) (offset : TickPosition)
  | CopyAreaFrom (h : Hash) (source : Owner) (d : TickDomain) (b : TickBounds) (offset : TickPosition)
  | ReleaseOperationScratch.

Definition void {A} (m : op A) : op () := let* _ := m in op_ret tt.
Definition perform (k : call) : op () :=
  match k with
  | RegisterChunk h a e => register_chunk h a e
  | LoadPendingChunk h a blocks fluids => load_pending_chunk h a blocks fluids
  | UnpackChunk a t => unpack_chunk a t
  | PackChunk h a d t room => void (pack_chunk h a d t room)
  | SetEligible a e => set_eligible a e
  | DetachChunk a => detach_chunk a
  | DiscardDetachedChunk a => discard_detached_chunk a
  | Schedule d pos type t delay prio => void (schedule d pos type t delay prio)
  | HasScheduled d pos type => void (has_scheduled d pos type)
  | BeginPhase d t n => void (begin_phase d t n)
  | WillTickThisPhase d pos type => void (will_tick_this_phase d pos type)
  | NextDue => void next_due
  | FinishPhase => finish_phase
  | ClearArea d b => void (clear_area d b)
  | CopyArea h d b offset => void (copy_area h d b offset)
  | CopyAreaFrom h source d b offset => void (copy_area_from h source d b offset)
  | ReleaseOperationScratch => release_operation_scratch
  end.

(** Coordinates of new chunks are 32-bit, counts are not negative. *)
Definition call_ok (k : call) : Prop :=
  match k with
  | RegisterChunk _ a _ | LoadPendingChunk _ a _ _ => address_ok a
  | BeginPhase _ _ n => 0 ≤ n
  | _ => True
  end.

(** The owners of a run: a new one, and what calls make of it, whatever they
    answer. *)
Inductive reachable : Owner → Prop :=
  | reachable_new h blocks fluids l o : limits_words l → owner_new h blocks fluids l = Ok o → reachable o
  | reachable_call o k r o' : reachable o → call_ok k → perform k o = Ok (r, o') → reachable o'.

Lemma wp_void {A} (m : op A) (P : Owner → Prop) (R : result A → Owner → Prop) o :
  wp m (λ r o', P o' ∧ R r o') o → wp (void m) (λ _ o', P o') o.
Proof. intros Hm. unfold void. apply wp_bind. eapply wp_mono; [exact Hm|]. by intros [] o' [HP _]. Qed.

Lemma wp_keeps {A} (m : op A) (P : Owner → Prop) (R : result A → Owner → Prop) o :
  wp m (λ r o', P o' ∧ R r o') o → wp m (λ _ o', P o') o.
Proof. intros Hm. eapply wp_mono; [exact Hm|]. by intros r o' [HP _]. Qed.

(** Every call keeps the invariant. *)
Lemma perform_spec base k o : owner_ok base o → call_ok k → wp (perform k) (λ _ o', owner_ok base o') o.
Proof.
  intros Ho Hk. destruct k; cbn [perform call_ok] in *.
  - eapply wp_keeps. by apply register_chunk_spec.
  - eapply wp_keeps. by apply load_pending_chunk_spec.
  - eapply wp_keeps. by apply unpack_chunk_spec.
  - eapply wp_void. by apply pack_chunk_spec.
  - eapply wp_keeps. by apply set_eligible_spec.
  - eapply wp_keeps. by apply detach_chunk_spec.
  - eapply wp_keeps. by apply discard_detached_chunk_spec.
  - eapply wp_void. by apply schedule_spec.
  - apply (wp_void _ _ (λ _ _, True)). eapply wp_mono; [by eapply has_scheduled_spec|]. by intros r o' [-> _].
  - eapply wp_void. by apply begin_phase_spec.
  - eapply wp_void. by apply will_tick_spec.
  - eapply wp_void. by apply next_due_spec.
  - eapply wp_keeps. by apply finish_phase_spec.
  - eapply wp_void. by apply clear_area_spec.
  - eapply wp_void. by apply copy_area_spec.
  - eapply wp_void. by apply copy_area_from_spec.
  - eapply wp_keeps. by apply release_operation_scratch_spec.
Qed.

Lemma reachable_ok o : reachable o → ∃ base, owner_ok base o.
Proof.
  induction 1 as [h blocks fluids l o Hl Hnew|o k r o' _ [base Ho] Hk Hp].
  - pose proof (owner_new_spec h blocks fluids l Hl) as Hf. rewrite Hnew in Hf. exists (allocated_bytes o). apply Hf.
  - exists base. pose proof (perform_spec base k o Ho Hk) as Hw. unfold wp in Hw. by rewrite Hp in Hw.
Qed.

(** ** Properties *)

(** C3. Whatever sequence of calls an owner has been through, every further call
    returns, with a value or a typed error: no index, assertion, subtraction or
    [expect] fails and no loop runs on.  The owner it leaves is well-formed:
    chunks sorted by address and within their limits, identity sets within the
    queued identities, both timelines in step with the first ticks of exactly
    the registered chunks, the selection counted, and the retained memory the
    sum of what is held and within its budget. *)
Theorem owner_calls_return o k :
  reachable o → call_ok k → ∃ r o', perform k o = Ok (r, o') ∧ reachable o' ∧ ∃ base, owner_ok base o ∧ owner_ok base o'.
Proof.
  intros Hr Hk. destruct (reachable_ok o Hr) as [base Ho]. destruct (wp_inv _ _ _ (perform_spec base k o Ho Hk)) as (r&o'&Hp&Ho').
  exists r, o'. split; [done|]. split; [by eapply reachable_call|]. by exists base.
Qed.

(** What the calls on whole chunks do. *)
Definition chunk_effect (k : call) o (r : result ()) o' : Prop :=
  match k with
  | RegisterChunk _ a e => registers o a e r o'
  | LoadPendingChunk _ a blocks fluids => loads o a blocks fluids r o'
  | UnpackChunk a t => unpacks o a t r o'
  | SetEligible a e => sets_eligible o a e r o'
  | DetachChunk a => detaches o a r o'
  | DiscardDetachedChunk a => discards o a r o'
  | _ => True
  end.

(** C35. The life of a chunk: registering restores a detached chunk with all it
    retained or adds an empty one; loading stores exactly the saved ticks that
    lie in the chunk, in order, in a detached chunk; unpacking turns each saved
    tick, duplicates included, into a live one with sub-orders -N..-1 and the
    second time does nothing; detaching keeps both queues; discarding returns
    exactly the chunk's memory; and a call that fails changes nothing. *)
Theorem chunk_lifecycle o k :
  reachable o → call_ok k → ∃ r o', perform k o = Ok (r, o') ∧ chunk_effect k o r o'.
Proof.
  intros Hr Hk. destruct (reachable_ok o Hr) as [base Ho].
  assert (Hgoal : wp (perform k) (λ r o', owner_ok base o' ∧ chunk_effect k o r o') o).
  { destruct k; try (eapply wp_mono; [by apply (perform_spec base)|done]); cbn [perform chunk_effect call_ok] in *.
    - by apply register_chunk_spec.
    - by apply load_pending_chunk_spec.
    - by apply unpack_chunk_spec.
    - by apply set_eligible_spec.
    - by apply detach_chunk_spec.
    - by apply discard_detached_chunk_spec. }
  destruct (wp_inv _ _ _ Hgoal) as (r&o'&Hp&_&He). by exists r, o'.
Qed.

(** ** Scheduling *)

Lemma answers_known base o d pos type r :
  owner_ok base o → answers_scheduled o d pos type r →
  ∃ known, r = Done known ∧ ∀ i c X, chunks o !! i = Some c → cq_address c = chunk_of pos → cq_registered c = true →
    ids_rep (q_ids (queue c d)) X → known = bool_decide ({| id_position := pos; id_type := type |} ∈ X).
Proof.
  intros Ho [[-> Hn]|(i&c&X&Hc&Ha&Hreg&HX&->)]; eexists; (split; [done|]); intros j cj Y Hj Haj Hregj HY.
  - by rewrite (Hn cj ltac:(by eapply list_elem_of_lookup_2) Haj) in Hregj.
  - assert (j = i) as ->.
    { apply (key_of_inj _ _ j i cj c (oc_chunks o (ow_core o Ho)) Hj Hc). unfold key_of. congruence. }
    rewrite Hc in Hj. injection Hj as <-. by rewrite (ids_rep_unique _ _ _ HX HY).
Qed.

(** C29. Scheduling: an unknown type is refused; otherwise a sub-order is consumed,
    and the tick is dropped as a duplicate exactly when [has_scheduled] knew its
    position and type, reported as missing its container when no registered
    chunk covers it, refused when the queue is at its limit, and else queued
    with the wrapped trigger time and the consumed order, after which
    [has_scheduled] knows it. *)
Theorem scheduling_admits_by_identity o d pos type game_time delay prio :
  reachable o →
  ∃ known r o', has_scheduled d pos type o = Ok (Done known, o) ∧ schedule d pos type game_time delay prio o = Ok (r, o') ∧
    schedules o d pos type game_time delay prio r o' ∧
    (r = Done Duplicate ↔ known = true ∧ type < type_count o d) ∧
    (r = Done Added → has_scheduled d pos type o' = Ok (Done true, o')).
Proof.
  intros Hr. destruct (reachable_ok o Hr) as [base Ho].
  destruct (wp_inv _ _ _ (has_scheduled_spec d pos type o Ho)) as (rk&o0&Hhas&->&Hans).
  destruct (answers_known base o d pos type rk Ho Hans) as (known&->&Hknown).
  destruct (wp_inv _ _ _ (schedule_spec d pos type game_time delay prio o Ho)) as (r&o'&Hs&Ho'&Hsch).
  exists known, r, o'. split; [done|]. split; [done|]. split; [done|]. unfold schedules in Hsch.
  destruct (Z.leb_spec (type_count o d) type) as [Hbig|Hsmall].
  { destruct Hsch as [-> _]. split; [|done]. split; [done|lia]. }
  destruct Hsch as [(->&->&Hn)|(i&c&Hc&Ha&Hreg&X&HX&Hcr)].
  - split; [|done]. split; [done|]. intros [-> _]. destruct Hans as [[? _]|(i&c&X&Hc&Ha&Hreg&_)]; [done|].
    by rewrite (Hn c ltac:(by eapply list_elem_of_lookup_2) Ha) in Hreg.
  - pose proof (Hknown i c X Hc Ha Hreg HX) as Hk. destruct r as [[]|e]; cbn [creates] in Hcr.
    + destruct Hcr as (Hnin&Hlt&q&s&Heq&Hq&_). split; [split; [done|intros [-> _]; symmetry in Hk; by apply bool_decide_eq_true in Hk]|]. intros _.
      destruct (wp_inv _ _ _ (has_scheduled_spec d pos type o' Ho')) as (rk'&o1&Hhas'&->&Hans'). rewrite Hhas'.
      destruct (answers_known base o' d pos type rk' Ho' Hans') as (known'&->&Hknown').
      rewrite (Hknown' i (with_queue c d q) ({[{| id_position := pos; id_type := type |}]} ∪ X)).
      * rewrite bool_decide_eq_true_2 by set_solver. done.
      * rewrite Heq. cbn [chunks with_timeline with_chunks with_sub_tick]. rewrite list_lookup_insert_eq; [done|by eapply lookup_lt_Some].
      * exact Ha.
      * exact Hreg.
      * rewrite queue_of_with. exact Hq.
    + destruct Hcr as [Hin _]. split; [|done]. split; [|done]. intros _. split; [|done]. rewrite Hk. by apply bool_decide_eq_true_2.
    + done.
    + split; [|done]. split; [done|]. intros [-> _]. symmetry in Hk. apply bool_decide_eq_true in Hk. destruct e; try done. by destruct Hcr as [Hnin _].
Qed.

(** ** Phases *)

(** The consumer's loop over a phase. *)
Fixpoint take_all (fuel : nat) : op (list ScheduledTick) :=
  match fuel with
  | O => λ _, NoFuel
  | S fuel' =>
      let* tick := next_due in
      match tick with
      | None => op_ret []
      | Some tick => let* rest := take_all fuel' in op_ret (tick :: rest)
      end
  end.

Lemma take_all_spec base d : ∀ fuel o,
  owner_ok base o → active (phase o) = Some d → (length (remaining (phase o)) < fuel)%nat →
  wp (take_all fuel) (λ r o', r = Done (remaining (phase o)) ∧ owner_ok base o' ∧ remaining (phase o') = [] ∧
    active (phase o') = Some d ∧ chunks o' = chunks o) o.
Proof.
  induction fuel as [|fuel IH]; intros o Ho Ha Hf; [lia|]. cbn [take_all]. apply wp_bind. eapply wp_mono; [by apply (next_due_spec (base := base))|].
  intros r o1 [Ho1 Hout]. unfold hands_out in Hout. rewrite Ha in Hout. destruct Hout as [-> Hout].
  destruct (remaining (phase o)) as [|t l] eqn:Hrem; cbn [head].
  { subst o1. unfold wp, op_ret. by rewrite Hrem. }
  destruct Hout as (X&ids&counts&_&_&Heq). assert (remaining (phase o1) = l) as Hrem1.
  { rewrite Heq. unfold remaining in *. cbn [phase with_phase cursor selected]. rewrite <- Nat.add_1_r, <- drop_drop, Hrem. done. }
  apply wp_bind. eapply wp_mono; [apply (IH o1 Ho1)|].
  - by rewrite Heq.
  - rewrite Hrem1. cbn [length] in Hf. lia.
  - intros r o2 (->&Ho2&Hr2&Ha2&Hc2). unfold wp, op_ret. rewrite Hrem1. split; [done|]. split; [done|]. split; [done|]. split; [done|].
    by rewrite Hc2, Heq.
Qed.

(** C6. A phase: beginning one collects, as a merge over the registered and
    eligible chunks, ticks that are due, each the first of its chunk and of the
    lowest priority value and sub-order among the chunks' first due ticks, until
    the limit is reached or no eligible chunk has a due tick left, through the
    timeline scan and the ready heap; then exactly these are handed out, in this
    order, and the phase can end. *)
Theorem phase_selects_and_hands_out o d game_time max_ticks :
  reachable o → 0 ≤ max_ticks →
  ∃ r o', begin_phase d game_time max_ticks o = Ok (r, o') ∧ begins d game_time o max_ticks r o' ∧
    (∀ n, r = Done n → ∃ o2 o3, take_all (S (Z.to_nat n)) o' = Ok (Done (selected (phase o')), o2) ∧
       finish_phase o2 = Ok (Done tt, o3) ∧ chunks o3 = chunks o' ∧ active (phase o3) = None).
Proof.
  intros Hr Hmax. destruct (reachable_ok o Hr) as [base Ho].
  destruct (wp_inv _ _ _ (begin_phase_spec d game_time o max_ticks Ho Hmax)) as (r&o'&Hb&Ho'&Hbegins).
  exists r, o'. split; [done|]. split; [done|]. intros n ->. unfold begins in Hbegins.
  destruct (active (phase o)) as [d0|]; [by destruct Hbegins|]. destruct (_ <? _); [by destruct Hbegins|].
  destruct Hbegins as ([= ->]&Ha&Hcur&_). assert (remaining (phase o') = selected (phase o')) as Hrem by (unfold remaining; by rewrite Hcur).
  destruct (wp_inv _ _ _ (take_all_spec base d (S (Z.to_nat (zlen (selected (phase o'))))) o' Ho' Ha ltac:(rewrite Hrem; unfold zlen; lia)))
    as (r&o2&Ht&->&Ho2&Hr2&Ha2&Hc2).
  destruct (wp_inv _ _ _ (finish_phase_spec (base := base) o2 Ho2)) as (r3&o3&Hfin&_&Hf). unfold finishes in Hf. rewrite Ha2 in Hf.
  rewrite decide_True in Hf by done. destruct Hf as (->&Ha3&_&Hc3). exists o2, o3. rewrite <- Hrem at 2. split; [done|]. split; [done|]. split; [congruence|done].
Qed.

(** ** Saving *)

(** The ticks in a given order, with consecutive sub-orders. *)
Fixpoint renumbered (order : Z) (l : list ScheduledTick) : list ScheduledTick :=
  match l with
  | [] => []
  | t :: l => {| position := position t; type_id := type_id t; trigger_tick := trigger_tick t; priority := priority t; sub_tick_order := order |}
                :: renumbered (order + 1) l
  end.

(** The delay of the tick fits the saved 32 bits. *)
Definition delay_fits (game_time : Z) (t : ScheduledTick) : Prop :=
  in_i 64 (trigger_tick t) ∧ in_i 32 (trigger_tick t - game_time).

Lemma i_wrap_signed w z : 0 < w → in_i w z → i_wrap w z = z.
Proof.
  intros Hw Hz. rewrite <- (i_wrap_u_wrap w z Hw Hz) at 2. unfold i_wrap, u_wrap. by rewrite Z.mod_mod by (pose proof (Z.pow_pos_nonneg 2 w); lia).
Qed.

Lemma live_saved game_time : ∀ l order,
  Forall (delay_fits game_time) l → live_ticks game_time order (saved_of game_time <$> l) = renumbered order l.
Proof.
  induction l as [|t l IH]; intros order Hf; [done|]. apply Forall_cons in Hf as [[Ht Hd] Hf]. cbn [fmap list_fmap live_ticks renumbered].
  f_equal; [|by apply IH]. unfold live_tick, saved_of. cbn [saved_position saved_type delay saved_priority].
  assert (in_i 64 (trigger_tick t - game_time)) as Hd64 by (unfold in_i in *; lia).
  rewrite (i_wrap_signed 64 (trigger_tick t - game_time)), (i_wrap_signed 32 (trigger_tick t - game_time)) by done.
  replace (game_time + (trigger_tick t - game_time)) with (trigger_tick t) by lia. by rewrite i_wrap_signed.
Qed.

(** Packing sorts by sub-order. *)
Lemma packed_order o a d game_time room n saved o' :
  packs o a d game_time room (Done (n, saved)) o' →
  ∃ c l, c ∈ chunks o ∧ cq_address c = a ∧ l ≡ₚ items_of (queue c d) ∧
    Sorted.Sorted (λ x y, sub_tick_order x ≤ sub_tick_order y) l ∧ saved = pending_of (queue c d) ++ (saved_of game_time <$> l).
Proof.
  intros (_&_&_&i&c&sorted&Hc&Ha&Hperm&Hs&->). exists c, (st_tick <$> sorted). split; [by eapply list_elem_of_lookup_2|]. split; [done|]. split; [|split].
  - rewrite Hperm. rewrite (snapshot_ticks id). by rewrite list_fmap_id.
  - clear Hperm. induction Hs as [|e l Hs IH Hhd]; [constructor|]. constructor; [done|]. destruct Hhd as [|e' l He]; constructor. unfold snapshot_le in He. lia.
  - by rewrite <- list_fmap_compose.
Qed.

Lemma filter_all {A} (P : A → Prop) `{!∀ x, Decision (P x)} (l : list A) : Forall P l → filter P l = l.
Proof. induction 1 as [|x l Hx _ IH]; [done|]. by rewrite filter_cons, decide_True, IH. Qed.

Definition of_domain (d d' : TickDomain) (l : list SavedTick) : list SavedTick := if decide (d = d') then l else [].

(** C33. Saving and loading a chunk's ticks: what [pack_chunk] writes for a chunk
    with nothing pending, loaded into another owner and unpacked at the same game
    time, are the same ticks with the same trigger times, provided their delays
    fit 32 bits; their sub-orders become -N..-1 in the order of the old ones. *)
Theorem packed_ticks_roundtrip h a d game_time room o n saved o1 h2 o2 o3 :
  reachable o → reachable o2 → address_ok a → pack_chunk h a d game_time room o = Ok (Done (n, saved), o1) →
  (∀ c, c ∈ chunks o → cq_address c = a → q_pending (queue c d) = None ∧
     Forall (λ t, delay_fits game_time t ∧ chunk_of (position t) = a) (items_of (queue c d))) →
  load_pending_chunk h2 a (of_domain d DBlock saved) (of_domain d DFluid saved) o2 = Ok (Done tt, o3) →
  ∃ c l c4 o4, c ∈ chunks o ∧ cq_address c = a ∧ l ≡ₚ items_of (queue c d) ∧
    Sorted.Sorted (λ x y, sub_tick_order x ≤ sub_tick_order y) l ∧
    unpack_chunk a game_time o3 = Ok (Done tt, o4) ∧ c4 ∈ chunks o4 ∧ cq_address c4 = a ∧
    items_of (queue c4 d) ≡ₚ renumbered (- zlen l) l.
Proof.
  intros Hr Hr2 Hadr Hpack Hsrc Hload. destruct (reachable_ok o Hr) as [base Ho]. destruct (reachable_ok o2 Hr2) as [base2 Ho2].
  pose proof (pack_chunk_spec h a d game_time room o Ho) as Hp. unfold wp in Hp. rewrite Hpack in Hp. destruct Hp as [_ Hp].
  destruct (packed_order _ _ _ _ _ _ _ _ Hp) as (c&l&Hc&Ha&Hperm&Hsorted&Hsaved). destruct (Hsrc c Hc Ha) as [Hpend Hall].
  unfold pending_of in Hsaved. rewrite Hpend in Hsaved. cbn [app] in Hsaved. rewrite <- Hperm in Hall.
  pose proof (load_pending_chunk_spec h2 a (of_domain d DBlock saved) (of_domain d DFluid saved) o2 Ho2 Hadr) as Hl. unfold wp in Hl. rewrite Hload in Hl.
  destruct Hl as [Ho3 (i&c3&Hcs3&Ha3&_&Hfresh&Hib&Hpb&Hif&Hpf)].
  assert (Hkeep : filter (λ t, in_chunk a t = true) saved = saved).
  { apply filter_all. rewrite Hsaved. apply Forall_fmap. eapply Forall_impl; [exact Hall|]. intros t [_ Ht]. cbn. unfold in_chunk. by apply bool_decide_eq_true. }
  assert (Hq3 : items_of (queue c3 d) = [] ∧ pending_of (queue c3 d) = saved).
  { destruct d; cbn [queue]; unfold of_domain in *; [rewrite decide_True in Hpb by done|rewrite decide_True in Hpf by done]; (split; [done|congruence]). }
  destruct Hq3 as [Hi3 Hp3]. destruct (wp_inv _ _ _ (unpack_chunk_spec a game_time o3 Ho3)) as (r&o4&Hun&_&Hu).
  assert (c3 ∈ chunks o3) as Hin3 by (rewrite Hcs3; set_solver).
  destruct r as [[]|e]; cbn [unpacks] in Hu; [|by destruct Hu as (_&_&Hno); destruct (Hno c3 Hin3)].
  destruct Hu as (j&cj&c4&Hj&Haj&Hcs4&Ha4&_&_&Hq4). assert (cj = c3) as ->.
  { apply list_elem_of_lookup in Hin3 as [k Hk]. assert (k = j) as ->; [|congruence].
    apply (key_of_inj _ _ k j c3 cj (oc_chunks o3 (ow_core o3 Ho3)) Hk Hj). unfold key_of. congruence. }
  destruct (Hq4 d) as [_ Hitems]. rewrite Hi3, Hp3, app_nil_r in Hitems. exists c, l, c4, o4. do 5 (split; [done|]).
  split; [rewrite Hcs4; apply list_elem_of_lookup; exists j; apply list_lookup_insert_eq; by eapply lookup_lt_Some|]. split; [done|].
  rewrite Hitems, Hsaved. unfold zlen. rewrite length_fmap. rewrite live_saved; [done|]. eapply Forall_impl; [exact Hall|]. by intros t [? _].
Qed.

(** ** Areas *)

(** C8. Copying: the snapshot of the area, shifted, is admitted as a batch.  On
    success the queues are what creating its ticks one after another makes of
    them, with the same counts of added, duplicate and misplaced ticks; on any
    error, those of the one-by-one copy included, only the workspace changes.
    So for another owner as the source and for the owner itself. *)
Theorem copy_area_is_sequential h source d b offset o :
  reachable o →
  ∃ r o', copy_area_from h source d b offset o = Ok (r, o') ∧ copies h o source d b offset r o' ∧
    ∃ r2 o2, copy_area h d b offset o = Ok (r2, o2) ∧ copies h o o d b offset r2 o2.
Proof.
  intros Hr. destruct (reachable_ok o Hr) as [base Ho].
  destruct (wp_inv _ _ _ (copy_area_from_spec h source d b offset o Ho)) as (r&o'&Hc&_&Hcp).
  destruct (wp_inv _ _ _ (copy_area_spec h d b offset o Ho)) as (r2&o2&Hc2&_&Hcp2).
  exists r, o'. split; [done|]. split; [done|]. by exists r2, o2.
Qed.

(** C34. Clearing an area removes exactly the live ticks of the touched registered
    chunks and of the running selection that lie in the area: their identities
    leave the identity sets of their queues and no others do, both timelines
    know the first trigger time that every registered chunk has left, the
    counts of the selection and its cursor follow.  Pending saved ticks and the
    rest of the owner stay, the call returns the number of removed ticks, and
    bounds that are not in order change nothing. *)
Theorem clear_area_is_exact d b o :
  reachable o → ∃ r o', clear_area d b o = Ok (r, o') ∧ clears b o d r o'.
Proof.
  intros Hr. destruct (reachable_ok o Hr) as [base Ho]. destruct (wp_inv _ _ _ (clear_area_spec b d o Ho)) as (r&o'&Hc&_&Hcl). by exists r, o'.
Qed.
End calls.

(** ** A small owner *)

#[export] Instance sample_layout : TickLayout | 100.
Proof.
  refine {| tick_size := 40; saved_size := 24; ready_size := 24; idslot_size := 20; count_size := 24; slot_size := 24;
            chunks_size := 400; snapshot_size := 56; usize_size := 8 |}.
  by repeat constructor.
Defined.

Definition sample_limits : TickLimits := {| max_chunks := 4; queued_per_chunk := 4; selected_per_phase := 8; allocation_bytes := 1000000 |}.
Definition no_hash : Hash := λ _, 0%nat.
Definition at_ (x y z : Z) : TickPosition := {| tx := x; ty := y; tz := z |}.
Definition address (x z : Z) : ChunkAddress := {| View.x := x; View.z := z |}.
Definition saved (x y z type wait : Z) (p : TickPriority) : SavedTick :=
  {| saved_position := at_ x y z; saved_type := type; delay := wait; saved_priority := p |}.

Fixpoint run_calls (l : list call) (o : Owner) : outcome False Owner :=
  match l with
  | [] => Ok o
  | k :: l => '(_, o) ← perform k o; run_calls l o
  end.

Lemma run_reachable l : ∀ o o', reachable o → Forall call_ok l → run_calls l o = Ok o' → reachable o'.
Proof.
  induction l as [|k l IH]; intros o o' Hr Hk Hrun; cbn [run_calls] in Hrun; [by injection Hrun as <-|].
  apply Forall_cons in Hk as [Hk Hl]. apply outcome_bind_ok in Hrun as ([r o1]&Hp&Hrun). by apply (IH o1); [eapply reachable_call| |].
Qed.

(** Two registered chunks with ticks of both domains, one of them negative, and a
    detached one with saved ticks. *)
Definition sample_calls : list call :=
  [ RegisterChunk (no_hash, no_hash) (address 0 0) true; RegisterChunk (no_hash, no_hash) (address (-1) 0) true;
    LoadPendingChunk (no_hash, no_hash) (address 5 5) [saved 80 1 80 1 3 High; saved 0 0 0 1 1 High] [saved 81 2 83 0 (-1) Low];
    Schedule DBlock (at_ 3 70 4) 1 100 5 Normal; Schedule DBlock (at_ 4 70 4) 1 100 2 Low; Schedule DBlock (at_ (-3) 70 4) 1 100 5 High;
    Schedule DBlock (at_ 3 70 4) 1 100 9 High; Schedule DFluid (at_ 3 70 4) 0 100 1 Normal ].
Definition sample_run : outcome False Owner :=
  match owner_new (no_hash, no_hash) 4 2 sample_limits with Ok o => run_calls sample_calls o | _ => Panic end.
Definition empty_run : outcome False Owner :=
  match owner_new (no_hash, no_hash) 4 2 sample_limits with Ok o => Ok o | _ => Panic end.

Definition value_of {A} (m : outcome False A) : match m with Ok _ => A | _ => () end :=
  match m with Ok a => a | _ => tt end.
Definition empty_owner : Owner := Eval vm_compute in value_of empty_run.
Definition sample_owner : Owner := Eval vm_compute in value_of sample_run.

Lemma empty_reachable : reachable empty_owner.
Proof. apply (reachable_new (no_hash, no_hash) 4 2 sample_limits); [by unfold limits_words|vm_compute; reflexivity]. Qed.
Lemma sample_reachable : reachable sample_owner.
Proof.
  apply (run_reachable sample_calls empty_owner); [exact empty_reachable| |vm_compute; reflexivity].
  repeat constructor; unfold call_ok, address_ok, in_i; cbn; lia.
Qed.

Lemma owner_calls_return_witness :
  reachable sample_owner ∧ ∃ r o', perform (BeginPhase DBlock 104 8) sample_owner = Ok (r, o') ∧ reachable o' ∧
    ∃ base, owner_ok base sample_owner ∧ owner_ok base o'.
Proof. split; [exact sample_reachable|]. apply (owner_calls_return sample_owner (BeginPhase DBlock 104 8)); [exact sample_reachable|cbn; lia]. Defined.

Lemma chunk_lifecycle_witness :
  reachable sample_owner ∧ ∃ r o', perform (UnpackChunk (address 5 5) 100) sample_owner = Ok (r, o') ∧
    chunk_effect (UnpackChunk (address 5 5) 100) sample_owner r o'.
Proof. split; [exact sample_reachable|]. apply (chunk_lifecycle sample_owner (UnpackChunk (address 5 5) 100)); [exact sample_reachable|done]. Defined.

Lemma scheduling_admits_by_identity_witness :
  reachable sample_owner ∧
  ∃ known r o', has_scheduled DBlock (at_ 3 70 4) 1 sample_owner = Ok (Done known, sample_owner) ∧
    schedule DBlock (at_ 3 70 4) 1 100 7 High sample_owner = Ok (r, o') ∧
    schedules sample_owner DBlock (at_ 3 70 4) 1 100 7 High r o' ∧
    (r = Done Duplicate ↔ known = true ∧ 1 < type_count sample_owner DBlock) ∧
    (r = Done Added → has_scheduled DBlock (at_ 3 70 4) 1 o' = Ok (Done true, o')).
Proof. split; [exact sample_reachable|]. apply scheduling_admits_by_identity. exact sample_reachable. Defined.

Lemma phase_selects_and_hands_out_witness :
  reachable sample_owner ∧
  ∃ r o', begin_phase DBlock 105 8 sample_owner = Ok (r, o') ∧ begins DBlock 105 sample_owner 8 r o' ∧
    (∀ n, r = Done n → ∃ o2 o3, take_all (S (Z.to_nat n)) o' = Ok (Done (selected (phase o')), o2) ∧
       finish_phase o2 = Ok (Done tt, o3) ∧ chunks o3 = chunks o' ∧ active (phase o3) = None).
Proof. split; [exact sample_reachable|]. apply phase_selects_and_hands_out; [exact sample_reachable|lia]. Defined.

(** The selection of that phase: the high-priority tick of the other chunk comes
    before the normal one, the low one that was due first goes first in its
    own chunk. *)
Example sample_selection :
  match begin_phase DBlock 105 8 sample_owner with
  | Ok (Done n, o') => Some (n, (λ t, (tx (position t), priority t)) <$> selected (phase o'))
  | _ => None
  end = Some (3, [(-3, High); (4, Low); (3, Normal)]).
Proof. vm_compute. reflexivity. Qed.

Lemma copy_area_is_sequential_witness :
  let b := {| bmin := at_ 0 0 0; bmax := at_ 15 255 15 |} in
  reachable sample_owner ∧
  ∃ r o', copy_area_from no_hash sample_owner DBlock b (at_ 1 0 0) sample_owner = Ok (r, o') ∧
    copies no_hash sample_owner sample_owner DBlock b (at_ 1 0 0) r o' ∧
    ∃ r2 o2, copy_area no_hash DBlock b (at_ 1 0 0) sample_owner = Ok (r2, o2) ∧ copies no_hash sample_owner sample_owner DBlock b (at_ 1 0 0) r2 o2.
Proof. split; [exact sample_reachable|]. apply copy_area_is_sequential. exact sample_reachable. Defined.

(** One of the two copies lands on a tick that is already queued. *)
Example sample_copy :
  match copy_area no_hash DBlock {| bmin := at_ 0 0 0; bmax := at_ 15 255 15 |} (at_ 1 0 0) sample_owner with
  | Ok (Done out, o') => Some (added out, duplicates out, missing_containers out)
  | _ => None
  end = Some (1, 1, 0).
Proof. vm_compute. reflexivity. Qed.

Lemma clear_area_is_exact_witness :
  let b := {| bmin := at_ 0 0 0; bmax := at_ 3 255 15 |} in
  reachable sample_owner ∧ ∃ r o', clear_area DBlock b sample_owner = Ok (r, o') ∧ clears b sample_owner DBlock r o'.
Proof. split; [exact sample_reachable|]. apply clear_area_is_exact. exact sample_reachable. Defined.

(** The ticks of one chunk, saved and loaded by an empty owner. *)
Definition pack_run : outcome False (result (Z * list SavedTick) * Owner) := pack_chunk no_hash (address 0 0) DBlock 100 8 sample_owner.
Definition pack_result := Eval vm_compute in value_of pack_run.
Definition pack_saved : list SavedTick := match pack_result.1 with Done (_, l) => l | _ => [] end.
Definition load_run := load_pending_chunk (no_hash, no_hash) (address 0 0) (of_domain DBlock DBlock pack_saved) (of_domain DBlock DFluid pack_saved) empty_owner.
Definition load_result := Eval vm_compute in value_of load_run.

Example pack_sample : pack_run = Ok (Done (2, pack_saved), pack_result.2).
Proof. vm_compute. reflexivity. Qed.
Example load_sample : load_run = Ok (Done tt, load_result.2).
Proof. vm_compute. reflexivity. Qed.
Lemma sample_fits c :
  c ∈ chunks sample_owner → cq_address c = address 0 0 → q_pending (queue c DBlock) = None ∧
    Forall (λ t, delay_fits 100 t ∧ chunk_of (position t) = address 0 0) (items_of (queue c DBlock)).
Proof.
  intros Hc. repeat (apply elem_of_cons in Hc as [->|Hc]; [|]); [by intros|..|by apply elem_of_nil in Hc].
  - intros _. split; [done|]. repeat constructor; vm_compute; done.
  - by intros.
Qed.

Lemma packed_ticks_roundtrip_witness :
  (reachable sample_owner ∧ reachable empty_owner ∧ pack_run = Ok (Done (2, pack_saved), pack_result.2) ∧ load_run = Ok (Done tt, load_result.2)) ∧
  ∃ c l c4 o4, c ∈ chunks sample_owner ∧ cq_address c = address 0 0 ∧ l ≡ₚ items_of (queue c DBlock) ∧
    Sorted.Sorted (λ x y, sub_tick_order x ≤ sub_tick_order y) l ∧
    unpack_chunk (address 0 0) 100 load_result.2 = Ok (Done tt, o4) ∧ c4 ∈ chunks o4 ∧ cq_address c4 = address 0 0 ∧
    items_of (queue c4 DBlock) ≡ₚ renumbered (- zlen l) l.
Proof.
  split; [split; [exact sample_reachable|split; [exact empty_reachable|split; [exact pack_sample|exact load_sample]]]|].
  apply (packed_ticks_roundtrip no_hash (address 0 0) DBlock 100 8 sample_owner 2 pack_saved pack_result.2 (no_hash, no_hash) empty_owner load_result.2).
  - exact sample_reachable.
  - exact empty_reachable.
  - unfold address_ok, in_i. cbn. lia.
  - exact pack_sample.
  - exact sample_fits.
  - exact load_sample.
Defined.
