(* ===== verification/LightTypes.v ===== *)
(** * Lighting: positions and directions (src/world/lighting/mod.rs)

    Block and section positions with their 32-bit arithmetic, the six
    directions, and the facts about steps that light propagation relies on. *)

From stdpp Require Import countable.
From S2P Require Import Prelude.
From S2P Require Import View.
Local Open Scope Z_scope.

Record LightBlock := { lb_x : Z; lb_y : Z; lb_z : Z }.
Record LightSection := { ls_x : Z; ls_y : Z; ls_z : Z }.

#[export] Instance light_block_eq_dec : EqDecision LightBlock.
Proof. solve_decision. Defined.
#[export] Instance light_section_eq_dec : EqDecision LightSection.
Proof. solve_decision. Defined.
#[export] Instance light_block_countable : Countable LightBlock.
Proof.
  apply (inj_countable' (λ b, (lb_x b, lb_y b, lb_z b)) (λ '(x, y, z), {| lb_x := x; lb_y := y; lb_z := z |})).
  by intros [].
Defined.
#[export] Instance light_section_countable : Countable LightSection.
Proof.
  apply (inj_countable' (λ b, (ls_x b, ls_y b, ls_z b)) (λ '(x, y, z), {| ls_x := x; ls_y := y; ls_z := z |})).
  by intros [].
Defined.

(** [>> 4] on each axis. *)
Definition block_section (b : LightBlock) : LightSection :=
  {| ls_x := Z.shiftr (lb_x b) 4; ls_y := Z.shiftr (lb_y b) 4; ls_z := Z.shiftr (lb_z b) 4 |}.
Definition section_column (s : LightSection) : ChunkAddress := {| View.x := ls_x s; View.z := ls_z s |}.
Definition block_column (b : LightBlock) : ChunkAddress := section_column (block_section b).

(** [wrapping_add] on each axis. *)
Definition block_offset (b : LightBlock) (x y z : Z) : LightBlock :=
  {| lb_x := i_wrap 32 (lb_x b + x); lb_y := i_wrap 32 (lb_y b + y); lb_z := i_wrap 32 (lb_z b + z) |}.
Definition section_offset (s : LightSection) (x y z : Z) : LightSection :=
  {| ls_x := i_wrap 32 (ls_x s + x); ls_y := i_wrap 32 (ls_y s + y); ls_z := i_wrap 32 (ls_z s + z) |}.

Definition local_index (b : LightBlock) : Z :=
  Z.lor (Z.lor (Z.shiftl (Z.land (lb_y b) 15) 8) (Z.shiftl (Z.land (lb_z b) 15) 4)) (Z.land (lb_x b) 15).

Inductive LightKind := KBlock | KSky.
#[export] Instance light_kind_eq_dec : EqDecision LightKind.
Proof. solve_decision. Defined.

Inductive LightDirection := Down | Up | North | South | West | East.
#[export] Instance light_direction_eq_dec : EqDecision LightDirection.
Proof. solve_decision. Defined.

(** [LightDirection::ALL], in the order of the discriminants. *)
Definition all_directions : list LightDirection := [Down; Up; North; South; West; East].
(** [direction as usize] *)
Definition direction_index (d : LightDirection) : Z :=
  match d with Down => 0 | Up => 1 | North => 2 | South => 3 | West => 4 | East => 5 end.

Definition opposite (d : LightDirection) : LightDirection :=
  match d with
  | Down => Up | Up => Down | North => South | South => North | West => East | East => West
  end.

Definition vector (d : LightDirection) : Z * Z * Z :=
  match d with
  | Down => (0, -1, 0) | Up => (0, 1, 0) | North => (0, 0, -1)
  | South => (0, 0, 1) | West => (-1, 0, 0) | East => (1, 0, 0)
  end.

Definition dir_step (d : LightDirection) (pos : LightBlock) : LightBlock :=
  let '(x, y, z) := vector d in block_offset pos x y z.

(** ** Facts *)

(** Coordinates that are [i32] values. *)
Definition block_i32 (b : LightBlock) : Prop := in_i 32 (lb_x b) ∧ in_i 32 (lb_y b) ∧ in_i 32 (lb_z b).

Lemma block_offset_i32 b x y z : block_i32 (block_offset b x y z).
Proof. split_and!; by apply i_wrap_range. Qed.

Lemma dir_step_i32 d b : block_i32 (dir_step d b).
Proof. unfold dir_step. destruct (vector d) as [[]]. apply block_offset_i32. Qed.

Lemma opposite_involutive d : opposite (opposite d) = d.
Proof. by destruct d. Qed.

Lemma elem_of_all_directions d : d ∈ all_directions.
Proof. apply list_elem_of_In. destruct d; cbn; tauto. Qed.

Lemma all_directions_nodup : NoDup all_directions.
Proof. by apply (bool_decide_unpack _). Qed.

(** Wrapped values are equal when they are congruent. *)
Lemma i_wrap_congr w a b : u_wrap w a = u_wrap w b → i_wrap w a = i_wrap w b.
Proof. unfold u_wrap, i_wrap. by intros ->. Qed.

Lemma i_wrap_idem w z : 0 < w → in_i w z → i_wrap w z = z.
Proof.
  intros Hw Hz. rewrite <- (i_wrap_u_wrap w z Hw Hz) at 2. apply i_wrap_congr.
  unfold u_wrap. by rewrite Z.mod_mod by (pose proof (pow2_pos w); lia).
Qed.

(** Adding and taking back one step, with wrap-around. *)
Lemma i_wrap_back w z k : 0 < w → in_i w z → i_wrap w (i_wrap w (z + k) + - k) = z.
Proof.
  intros Hw Hz. rewrite <- (i_wrap_idem w z) at 2 by done. apply i_wrap_congr. unfold u_wrap.
  rewrite Zplus_mod. change (i_wrap w (z + k) `mod` 2 ^ w) with (u_wrap w (i_wrap w (z + k))).
  rewrite u_wrap_i_wrap by done. unfold u_wrap. rewrite <- Zplus_mod. f_equal. lia.
Qed.

(** Stepping there and back. *)
Lemma dir_step_opposite d b : block_i32 b → dir_step (opposite d) (dir_step d b) = b.
Proof.
  intros (Hx&Hy&Hz). destruct b as [bx by_ bz]. cbn [lb_x lb_y lb_z] in *.
  destruct d; unfold dir_step, block_offset; cbn [vector opposite lb_x lb_y lb_z];
    rewrite ?Z.add_0_r, ?(i_wrap_idem 32 bx), ?(i_wrap_idem 32 by_), ?(i_wrap_idem 32 bz) by done;
    f_equal;
    match goal with
    | |- i_wrap 32 (i_wrap 32 (?v + 1) + -1) = ?v => by apply (i_wrap_back 32 v 1)
    | |- i_wrap 32 (i_wrap 32 (?v + -1) + 1) = ?v => by apply (i_wrap_back 32 v (-1))
    end.
Qed.

Lemma i_wrap_inj_add w z k k' :
  0 < w → i_wrap w (z + k) = i_wrap w (z + k') → Z.abs (k - k') < 2 ^ w → k = k'.
Proof.
  intros Hw E Hk. pose proof (pow2_pos w ltac:(lia)).
  assert (Hm : (z + k) `mod` 2 ^ w = (z + k') `mod` 2 ^ w).
  { change (u_wrap w (z + k) = u_wrap w (z + k')).
    rewrite <- (u_wrap_i_wrap w (z + k)), <- (u_wrap_i_wrap w (z + k')) by done. by rewrite E. }
  pose proof (Z.div_mod (z + k) (2 ^ w) ltac:(lia)). pose proof (Z.div_mod (z + k') (2 ^ w) ltac:(lia)).
  rewrite Hm in *.
  assert (k - k' = 2 ^ w * ((z + k) `div` 2 ^ w - (z + k') `div` 2 ^ w)) as Hkd by lia.
  set (c := (z + k) `div` 2 ^ w - (z + k') `div` 2 ^ w) in *.
  destruct (Z.lt_trichotomy c 0) as [?|[?|?]]; nia.
Qed.

(** Different directions lead to different neighbours, none to the block itself. *)
Lemma dir_step_inj d d' b : dir_step d b = dir_step d' b → d = d'.
Proof.
  unfold dir_step, block_offset. intros E.
  assert (vector d = vector d') as Hv.
  { destruct (vector d) as [[x y] z] eqn:Ed, (vector d') as [[x' y'] z'] eqn:Ed'.
    assert (Hr : ∀ d x y z, vector d = (x, y, z) → -1 ≤ x ≤ 1 ∧ -1 ≤ y ≤ 1 ∧ -1 ≤ z ≤ 1)
      by (intros []; cbn; intros ??? [= <- <- <-]; lia).
    pose proof (Hr _ _ _ _ Ed). pose proof (Hr _ _ _ _ Ed'). change (2 ^ 32) with 4294967296 in *.
    injection E as Ex Ey Ez.
    apply i_wrap_inj_add in Ex, Ey, Ez; [|change (2 ^ 32) with 4294967296; lia..]. congruence. }
  destruct d, d'; cbn in Hv; congruence.
Qed.

Lemma dir_step_ne d b : block_i32 b → dir_step d b ≠ b.
Proof.
  intros Hb E. pose proof (dir_step_opposite d b Hb) as Ho. rewrite E in Ho.
  pose proof (dir_step_inj (opposite d) d b ltac:(congruence)). by destruct d.
Qed.
