(* ===== verification/LightTable.v ===== *)
(** * Lighting tables of the registry (src/world/storage/registry/lighting.rs)

    The binary table that gives every block state its light material and every
    ordered pair of faces its occlusion bit: parsing with its validation, and
    the two lookups.  After a successful parse the lookups that the lighting
    engine makes with [expect] are defined. *)

From Stdlib Require Import String.
From S2P Require Import Prelude.
Local Open Scope Z_scope.

Definition EMPTY_FACE : Z := 0.
Definition FULL_FACE : Z := 1.
Definition HEADER_BYTES : Z := 16.
Definition MATERIAL_BYTES : Z := 16.
(** [ARLITE3\0] *)
Definition MAGIC : list Z := [65; 82; 76; 73; 84; 69; 51; 0].

Inductive TableError := Invalid (why : string) | Limit (what : string).

Record LightMaterial := {
  emission : Z;
  dampening : Z;
  can_occlude : bool;
  use_shape_for_light_occlusion : bool;
  faces : list Z;
}.

Definition empty_shape (m : LightMaterial) : bool := negb (can_occlude m) || negb (use_shape_for_light_occlusion m).

Record Lighting := { materials : list LightMaterial; face_count : Z; pairs : list Z }.

(** [u16::from_le_bytes], [u32::from_le_bytes] *)
Definition le_value (l : list Z) : Z := be_value (rev l).
(** [bytes[a..b]] *)
Definition slice (bytes : list Z) (a b : Z) : list Z := take (Z.to_nat (b - a)) (drop (Z.to_nat a) bytes).

Definition material (t : Lighting) (id : Z) : option LightMaterial := materials t !! Z.to_nat id.

Definition face_occludes (t : Lighting) (first second : Z) : outcome False (option bool) :=
  if (face_count t <=? first) || (face_count t <=? second) then Ok None
  else
    let bit := first * face_count t + second in
    byte ← unwrap (pairs t !! Z.to_nat (bit / 8));
    Ok (Some (negb (Z.land byte (u_wrap 8 (Z.shiftl 1 (bit mod 8))) =? 0))).

Section parse.
Context `{Allocator}.

(** The six face ids of a material, each below the face count. *)
Fixpoint parse_faces (face_count : Z) (encoded : list Z) (index n : nat) : outcome TableError (list Z) :=
  match n with
  | O => Ok []
  | S n' =>
      let face := le_value (slice encoded (4 + Z.of_nat index * 2) (6 + Z.of_nat index * 2)) in
      if face_count <=? face then Err (Invalid "lighting material references unknown face")
      else rest ← parse_faces face_count encoded (S index) n'; Ok (face :: rest)
  end.

Definition parse_material (face_count : Z) (encoded : list Z) : outcome TableError LightMaterial :=
  e0 ← unwrap (encoded !! 0%nat); e1 ← unwrap (encoded !! 1%nat);
  e2 ← unwrap (encoded !! 2%nat); e3 ← unwrap (encoded !! 3%nat);
  if (15 <? e0) || (15 <? e1) || (3 <? e2) || negb (e3 =? 0)
  then Err (Invalid "invalid lighting scalar/flags/reserved byte")
  else
    faces ← parse_faces face_count encoded 0 6;
    if (Z.land e2 1 =? 0) && negb (bool_decide (faces = replicate 6 EMPTY_FACE))
    then Err (Invalid "non-occluding state has nonempty cached face")
    else Ok {| emission := e0; dampening := e1; can_occlude := negb (Z.land e2 1 =? 0);
               use_shape_for_light_occlusion := negb (Z.land e2 2 =? 0); faces := faces |}.

(** [for encoded in bytes.chunks_exact(MATERIAL_BYTES)], [n] whole chunks. *)
Fixpoint parse_materials (face_count : Z) (bytes : list Z) (n : nat) : outcome TableError (list LightMaterial) :=
  match n with
  | O => Ok []
  | S n' =>
      m ← parse_material face_count (take 16 bytes);
      rest ← parse_materials face_count (drop 16 bytes) n';
      Ok (m :: rest)
  end.

(** [(0..face_count).any(..)]: a full face that some face does not occlude with. *)
Fixpoint full_face_fails (t : Lighting) (id : Z) (n : nat) : outcome False bool :=
  match n with
  | O => Ok false
  | S n' =>
      a ← face_occludes t FULL_FACE (u_wrap 16 id);
      if negb (bool_decide (a = Some true)) then Ok true
      else
        b ← face_occludes t (u_wrap 16 id) FULL_FACE;
        if negb (bool_decide (b = Some true)) then Ok true else full_face_fails t (id + 1) n'
  end.

Definition canonical_fails (t : Lighting) : outcome False bool :=
  e ← face_occludes t EMPTY_FACE EMPTY_FACE;
  if negb (bool_decide (e = Some false)) then Ok true else full_face_fails t 0 (Z.to_nat (face_count t)).

(** The padding bits of the last byte of the pairs are zero. *)
Definition padding_ok (pair_bits : Z) (encoded_pairs : list Z) : outcome TableError () :=
  let padding_bits := pair_bits mod 8 in
  if padding_bits =? 0 then Ok tt
  else
    last_byte ← unwrap (last encoded_pairs);
    ensure (Z.shiftr last_byte padding_bits =? 0) (Invalid "nonzero lighting face-pair padding").

(** The retained allocations fit what the payload paid for. *)
Definition parse_body (bytes : list Z) (states face_count material_end pair_bits pair_bytes : Z)
    : outcome TableError Lighting :=
  materials_cap ← ok_or (reserve_exact 16 states) (Limit "lighting material allocation");
  let encoded := slice bytes HEADER_BYTES material_end in
  materials ← parse_materials face_count encoded (Z.to_nat (zlen encoded / MATERIAL_BYTES));
  let encoded_pairs := drop (Z.to_nat material_end) bytes in
  _ ← padding_ok pair_bits encoded_pairs;
  pairs_cap ← ok_or (reserve_exact 1 pair_bytes) (Limit "lighting pair allocation");
  retained ← ok_or (materials_bytes ← checked_mul materials_cap MATERIAL_BYTES; checked_add materials_bytes pairs_cap)
               (Limit "lighting retained capacity");
  _ ← ensure (retained <=? zlen bytes - HEADER_BYTES) (Limit "lighting retained capacity");
  let result := {| materials := materials; face_count := face_count; pairs := encoded_pairs |} in
  fails ← lift (canonical_fails result);
  _ ← ensure (negb fails) (Invalid "invalid canonical empty/full face-pair results");
  Ok result.

Definition parse (bytes : list Z) (state_count face_limit : Z) : outcome TableError Lighting :=
  _ ← ensure (bool_decide (take 8 bytes = MAGIC) && (HEADER_BYTES <=? zlen bytes)) (Invalid "invalid lighting magic/header");
  let states := le_value (slice bytes 8 12) in
  let face_count := le_value (slice bytes 12 16) in
  _ ← ensure ((states =? state_count) && (2 <=? face_count) && (face_count <=? 65536))
        (Invalid "invalid lighting state/face counts");
  _ ← ensure (face_count <=? face_limit) (Limit "lighting face count");
  material_end ← ok_or (n ← checked_mul states MATERIAL_BYTES; checked_add n HEADER_BYTES) (Limit "lighting materials");
  pair_bits ← ok_or (checked_mul face_count face_count) (Limit "lighting face pairs");
  let pair_bytes := div_ceil pair_bits 8 in
  _ ← ensure (bool_decide (checked_add material_end pair_bytes = Some (zlen bytes)))
        (Invalid "lighting payload length differs from its counts");
  parse_body bytes states face_count material_end pair_bits pair_bytes.
End parse.

(** ** What a parsed table guarantees *)

Record material_ok (faces_ : Z) (m : LightMaterial) : Prop := {
  mo_emission : 0 ≤ emission m ≤ 15;
  mo_dampening : 0 ≤ dampening m ≤ 15;
  mo_faces : length (faces m) = 6%nat ∧ Forall (λ f, 0 ≤ f < faces_) (faces m);
  mo_plain : can_occlude m = false → faces m = replicate 6 EMPTY_FACE;
}.

Record lighting_ok (t : Lighting) : Prop := {
  lo_count : 2 ≤ face_count t ≤ 65536;
  lo_materials : Forall (material_ok (face_count t)) (materials t);
  lo_pairs : zlen (pairs t) = div_ceil (face_count t * face_count t) 8;
}.

Lemma le_value_range l : bytes_ok l → in_u (8 * zlen l) (le_value l).
Proof. intros Hb. unfold le_value. replace (zlen l) with (zlen (rev l)) by (unfold zlen; by rewrite length_rev).
  apply be_value_range. by apply Forall_rev. Qed.

Lemma slice_bytes_ok bytes a b : bytes_ok bytes → bytes_ok (slice bytes a b).
Proof. intros. by apply Forall_take, Forall_drop. Qed.

(** Faces in range are never a panic, and always defined. *)
Lemma face_occludes_total t a b :
  lighting_ok t → 0 ≤ a < face_count t → 0 ≤ b < face_count t → ∃ r, face_occludes t a b = Ok (Some r).
Proof.
  intros [[Hlo Hhi] _ Hp] Ha Hb. unfold face_occludes.
  destruct (Z.leb_spec (face_count t) a), (Z.leb_spec (face_count t) b); [lia..|]. cbn [orb].
  destruct (lookup_lt_ok (pairs t) (Z.to_nat ((a * face_count t + b) / 8))) as [v ->].
  - apply Nat2Z.inj_lt. change (Z.of_nat (length (pairs t))) with (zlen (pairs t)). rewrite Hp.
    rewrite Z2Nat.id by (apply Z.div_pos; nia). unfold div_ceil.
    assert (a * face_count t + b + 1 ≤ face_count t * face_count t) by nia.
    apply Z.lt_le_trans with ((a * face_count t + b + 8) / 8).
    + replace (a * face_count t + b + 8) with (a * face_count t + b + 1 * 8) by lia. rewrite Z.div_add by lia. lia.
    + apply Z.div_le_mono; lia.
  - mstep. eauto.
Qed.

Lemma face_occludes_outside t a b :
  face_count t ≤ a ∨ face_count t ≤ b → face_occludes t a b = Ok None.
Proof.
  intros Hab. unfold face_occludes.
  destruct (Z.leb_spec (face_count t) a), (Z.leb_spec (face_count t) b); cbn [orb]; [done..|lia].
Qed.

Lemma full_face_fails_total t id n :
  lighting_ok t → 0 ≤ id → id + Z.of_nat n ≤ face_count t → ∃ r, full_face_fails t id n = Ok r ∧
    (r = false → ∀ k, id ≤ k < id + Z.of_nat n →
       face_occludes t FULL_FACE k = Ok (Some true) ∧ face_occludes t k FULL_FACE = Ok (Some true)).
Proof.
  intros Ht. revert id. induction n as [|n IH]; intros id Hid Hn.
  { exists false. split; [done|]. intros _ k. lia. }
  cbn [full_face_fails]. pose proof (lo_count t Ht). rewrite u_wrap_id by (unfold in_u; lia).
  destruct (face_occludes_total t FULL_FACE id Ht) as [a Ha]; [unfold FULL_FACE; lia..|]. rewrite Ha. mstep.
  destruct a; cbn; [|exists true; by split].
  destruct (face_occludes_total t id FULL_FACE Ht) as [b Hb]; [unfold FULL_FACE; lia..|]. rewrite Hb. mstep.
  destruct b; cbn; [|exists true; by split].
  destruct (IH (id + 1)) as (r&->&Hr); [lia..|]. exists r. split; [done|]. intros Hf k Hk.
  destruct (decide (k = id)) as [->|]; [done|]. apply Hr; [done|lia].
Qed.

Definition canonical (t : Lighting) : Prop :=
  face_occludes t EMPTY_FACE EMPTY_FACE = Ok (Some false) ∧
  ∀ k, 0 ≤ k < face_count t →
    face_occludes t FULL_FACE k = Ok (Some true) ∧ face_occludes t k FULL_FACE = Ok (Some true).

Lemma canonical_fails_total t :
  lighting_ok t → ∃ r, canonical_fails t = Ok r ∧ (r = false → canonical t).
Proof.
  intros Ht. pose proof (lo_count t Ht). unfold canonical_fails.
  destruct (face_occludes_total t EMPTY_FACE EMPTY_FACE Ht) as [e He]; [unfold EMPTY_FACE; lia..|]. rewrite He. mstep.
  destruct e; cbn [bool_decide]; [exists true; by split|].
  destruct (full_face_fails_total t 0 (Z.to_nat (face_count t)) Ht) as (r&Hr&Hall); [lia..|].
  rewrite bool_decide_eq_true_2 by done. cbn [negb]. rewrite Hr. exists r. split; [done|]. intros Hf. split; [done|].
  intros k Hk. apply Hall; [done|lia].
Qed.

Lemma parse_faces_spec fc encoded index n :
  bytes_ok encoded →
  (∃ e, parse_faces fc encoded index n = Err e) ∨
  (∃ l, parse_faces fc encoded index n = Ok l ∧ length l = n ∧ Forall (λ f, 0 ≤ f < fc) l).
Proof.
  intros Hb. revert index. induction n as [|n IH]; intros index; cbn [parse_faces].
  { right. exists []. by split_and!. }
  destruct (Z.leb_spec fc (le_value (slice encoded (4 + Z.of_nat index * 2) (6 + Z.of_nat index * 2)))); [left; eauto|].
  destruct (IH (S index)) as [[e ->]|(l&->&Hl&Hf)]; mstep; [left; eauto|right].
  eexists. split; [done|]. split; [cbn; lia|]. constructor; [|done].
  pose proof (le_value_range _ (slice_bytes_ok encoded (4 + Z.of_nat index * 2) (6 + Z.of_nat index * 2) Hb)) as [? _].
  lia.
Qed.

Lemma parse_material_spec fc encoded :
  bytes_ok encoded → length encoded = 16%nat →
  (∃ e, parse_material fc encoded = Err e) ∨ (∃ m, parse_material fc encoded = Ok m ∧ material_ok fc m).
Proof.
  intros Hb Hl. unfold parse_material.
  assert (Hget : ∀ i, (i < 16)%nat → ∃ v, encoded !! i = Some v ∧ 0 ≤ v < 256).
  { intros i Hi. destruct (lookup_lt_ok encoded i ltac:(lia)) as [v Hv]. exists v. split; [done|].
    by apply (Forall_lookup_1 _ _ _ _ Hb) in Hv as []. }
  destruct (Hget 0%nat) as (e0&E0&?); [lia|]. destruct (Hget 1%nat) as (e1&E1&?); [lia|].
  destruct (Hget 2%nat) as (e2&E2&?); [lia|]. destruct (Hget 3%nat) as (e3&E3&?); [lia|].
  rewrite E0. mstep. rewrite E1. mstep. rewrite E2. mstep. rewrite E3. mstep. destruct (Z.ltb_spec 15 e0), (Z.ltb_spec 15 e1), (Z.ltb_spec 3 e2), (Z.eqb_spec e3 0) as [Ez|Ez]; cbn [orb negb]; eauto.
  destruct (parse_faces_spec fc encoded 0 6 Hb) as [[e ->]|(l&->&Hlen&Hf)]; mstep; [eauto|].
  destruct (Z.eqb_spec (Z.land e2 1) 0), (decide (l = replicate 6 EMPTY_FACE)) as [El|El]; cbn [andb];
    rewrite ?(bool_decide_eq_true_2 _ El), ?(bool_decide_eq_false_2 _ El); cbn [negb]; eauto;
    right; (eexists; split; [done|]); split; cbn; auto; try lia; try done.
Qed.

Lemma parse_materials_spec fc n bytes :
  bytes_ok bytes → length bytes = (16 * n)%nat →
  (∃ e, parse_materials fc bytes n = Err e) ∨
  (∃ l, parse_materials fc bytes n = Ok l ∧ length l = n ∧ Forall (material_ok fc) l).
Proof.
  revert bytes. induction n as [|n IH]; intros bytes Hb Hl; cbn [parse_materials].
  { right. exists []. by split_and!. }
  destruct (parse_material_spec fc (take 16 bytes)) as [[e ->]|(m&->&Hm)]; mstep; [by apply Forall_take| |eauto|].
  { rewrite length_take. lia. }
  destruct (IH (drop 16 bytes)) as [[e ->]|(l&->&Hll&Hf)]; mstep; [by apply Forall_drop| |eauto|].
  { rewrite length_drop. lia. }
  right. eexists. split; [done|]. split; [cbn; lia|by constructor].
Qed.

Lemma material_end_cases (st : Z) (e : TableError) :
  let r := ok_or (n ← checked_mul st MATERIAL_BYTES; checked_add n HEADER_BYTES) e in
  r = Ok (st * MATERIAL_BYTES + HEADER_BYTES) ∨ r = Err e.
Proof.
  cbv zeta. unfold checked_mul, checked_add. destruct (_ <=? usize_max); [|by right].
  simpl. destruct (_ <=? usize_max); [by left|by right].
Qed.

Section parse_proofs.
Context `{Allocator}.

Lemma parse_body_spec bytes states fc pair_bits :
  bytes_ok bytes → 0 ≤ states → 2 ≤ fc ≤ 65536 → pair_bits = fc * fc →
  zlen bytes = 16 + states * 16 + div_ceil pair_bits 8 →
  let r := parse_body bytes states fc (states * 16 + 16) pair_bits (div_ceil pair_bits 8) in
  (∃ e, r = Err e) ∨ (∃ t, r = Ok t ∧ lighting_ok t ∧ canonical t ∧ face_count t = fc ∧ zlen (materials t) = states).
Proof.
  intros Hb Hs Hfc Hbits Hlen. cbv zeta. unfold parse_body, HEADER_BYTES, MATERIAL_BYTES.
  assert (0 < div_ceil pair_bits 8).
  { unfold div_ceil. apply Z.div_str_pos. nia. }
  assert (Hlenn : length bytes = Z.to_nat (16 + states * 16 + div_ceil pair_bits 8)) by (unfold zlen in Hlen; lia).
  destruct (reserve_exact 16 states) as [mc|]; mstep; [|eauto].
  assert (Hsl : length (slice bytes 16 (states * 16 + 16)) = (16 * Z.to_nat states)%nat).
  { unfold slice. rewrite length_take, length_drop. lia. }
  assert (Z.to_nat (zlen (slice bytes 16 (states * 16 + 16)) / 16) = Z.to_nat states) as ->.
  { unfold zlen. rewrite Hsl, Nat2Z.inj_mul, Z2Nat.id by done. f_equal. rewrite Z.mul_comm. by apply Z.div_mul. }
  destruct (parse_materials_spec fc (Z.to_nat states) (slice bytes 16 (states * 16 + 16)))
    as [[e ->]|(ms&->&Hms&Hok)]; [by apply slice_bytes_ok|done|mstep; eauto|mstep].
  set (ps := drop (Z.to_nat (states * 16 + 16)) bytes).
  assert (Hps : zlen ps = div_ceil pair_bits 8) by (unfold ps, zlen; rewrite length_drop; lia).
  assert (padding_ok pair_bits ps = Ok tt ∨ ∃ e, padding_ok pair_bits ps = Err e) as [->|[e ->]]; [|mstep|mstep; eauto].
  { unfold padding_ok. destruct (pair_bits mod 8 =? 0); [by left|].
    destruct (last ps) as [b|] eqn:Elast; [|apply last_None in Elast; rewrite Elast in Hps; unfold zlen in Hps; cbn in Hps; lia].
    mstep. destruct (_ =? 0); cbn; eauto. }
  destruct (reserve_exact 1 _) as [pc|]; mstep; [|eauto].
  destruct (ok_or _ _) as [retained|e| |] eqn:Eret; mstep; [|eauto|by destruct (checked_mul mc 16) as [?|]; cbn in Eret; [destruct (checked_add _ _)|]..].
  destruct (retained <=? zlen bytes - 16); mstep; [|eauto].
  set (t := {| materials := ms; face_count := fc; pairs := ps |}).
  assert (Ht : lighting_ok t) by (split; cbn; [done|done|by rewrite Hps, Hbits]).
  destruct (canonical_fails_total t Ht) as (r&->&Hr). unfold lift. mstep. destruct r; mstep; [cbn; eauto|].
  right. exists t. split; [done|]. split; [done|]. split; [by apply Hr|]. split; [done|]. unfold zlen. cbn. lia.
Qed.

Lemma parse_cases bytes states limit :
  bytes_ok bytes →
  (∃ e, parse bytes states limit = Err e) ∨
  (∃ t, parse bytes states limit = Ok t ∧ lighting_ok t ∧ canonical t ∧ face_count t ≤ limit ∧ zlen (materials t) = states).
Proof.
  intros Hb. unfold parse.
  destruct (bool_decide (take 8 bytes = MAGIC) && (HEADER_BYTES <=? zlen bytes)); mstep; [|eauto].
  set (st := le_value (slice bytes 8 12)). set (fc := le_value (slice bytes 12 16)).
  assert (0 ≤ st) by (apply (le_value_range _ (slice_bytes_ok bytes 8 12 Hb))).
  destruct (Z.eqb_spec st states) as [Es|], (Z.leb_spec 2 fc), (Z.leb_spec fc 65536); cbn [andb]; mstep; eauto.
  destruct (Z.leb_spec fc limit); mstep; [|eauto].
  destruct (material_end_cases st (Limit "lighting materials")) as [->| ->]; mstep; [|eauto].
  destruct (checked_mul fc fc) as [pb|] eqn:Epb; mstep; [|eauto].
  assert (pb = fc * fc) as -> by (unfold checked_mul in Epb; destruct (_ <=? usize_max) in Epb; congruence).
  destruct (decide (checked_add (st * MATERIAL_BYTES + HEADER_BYTES) (div_ceil (fc * fc) 8) = Some (zlen bytes))) as [E|E];
    [rewrite bool_decide_eq_true_2 by done|rewrite bool_decide_eq_false_2 by done; eauto]; mstep.
  assert (zlen bytes = 16 + st * 16 + div_ceil (fc * fc) 8).
  { unfold checked_add, MATERIAL_BYTES, HEADER_BYTES in E. destruct (_ <=? usize_max) in E; [|done]. injection E. lia. }
  destruct (parse_body_spec bytes st fc (fc * fc)) as [Herr|(t&Ht&Hok&Hc&Hfc&Hm)]; [done..|by left|right].
  exists t. split; [exact Ht|]. split; [done|]. split; [done|]. split; lia.
Qed.

(** Parsing a lighting table never panics, and an accepted table has one valid
    material per block state and a defined occlusion bit for every pair of known
    faces, with the canonical empty and full faces; unknown faces answer [None]. *)
Theorem light_table_sound (bytes : list Z) (states limit : Z) :
  bytes_ok bytes →
  (∃ e, parse bytes states limit = Err e) ∨
  (∃ t, parse bytes states limit = Ok t ∧ canonical t ∧ face_count t ≤ limit ∧
     (∀ id, 0 ≤ id → (id < states ↔ ∃ m, material t id = Some m)) ∧
     (∀ id m, material t id = Some m → material_ok (face_count t) m) ∧
     (∀ a b, 0 ≤ a → 0 ≤ b →
        (a < face_count t ∧ b < face_count t ∧ ∃ r, face_occludes t a b = Ok (Some r)) ∨
        ((face_count t ≤ a ∨ face_count t ≤ b) ∧ face_occludes t a b = Ok None))).
Proof.
  intros Hb. destruct (parse_cases bytes states limit Hb) as [Herr|(t&Ht&Hok&Hc&Hfc&Hm)]; [by left|right].
  exists t. split; [exact Ht|]. split; [done|]. split; [lia|]. split; [|split].
  - intros id Hid. unfold material. change (∃ m, materials t !! Z.to_nat id = Some m) with (is_Some (materials t !! Z.to_nat id)).
    rewrite lookup_lt_is_Some. unfold zlen in Hm. lia.
  - intros id m Hmat. by apply (Forall_lookup_1 _ _ _ _ (lo_materials t Hok)) in Hmat.
  - intros a b Ha Hb'. destruct (decide (a < face_count t ∧ b < face_count t)) as [[??]|Hn].
    + left. split_and!; [done..|]. by apply face_occludes_total.
    + right. split; [lia|]. apply face_occludes_outside. lia.
Qed.
End parse_proofs.

(** The air-only table: one material, two faces. *)
Definition air_material : LightMaterial :=
  {| emission := 0; dampening := 0; can_occlude := false; use_shape_for_light_occlusion := false; faces := replicate 6 EMPTY_FACE |}.
Definition air_bytes : list Z :=
  MAGIC ++ [1; 0; 0; 0; 2; 0; 0; 0] ++ replicate 16 0 ++ [14].

Example parse_air : parse air_bytes 1 2 = Ok {| materials := [air_material]; face_count := 2; pairs := [14] |}.
Proof. vm_compute. reflexivity. Qed.
Example parse_bad_padding : parse (MAGIC ++ [1; 0; 0; 0; 2; 0; 0; 0] ++ replicate 16 0 ++ [30]) 1 2
  = Err (Invalid "nonzero lighting face-pair padding").
Proof. vm_compute. reflexivity. Qed.

Lemma light_table_sound_witness :
  (∃ e, parse air_bytes 1 2 = Err e) ∨
  (∃ t, parse air_bytes 1 2 = Ok t ∧ canonical t ∧ face_count t ≤ 2 ∧
     (∀ id, 0 ≤ id → (id < 1 ↔ ∃ m, material t id = Some m)) ∧
     (∀ id m, material t id = Some m → material_ok (face_count t) m) ∧
     (∀ a b, 0 ≤ a → 0 ≤ b →
        (a < face_count t ∧ b < face_count t ∧ ∃ r, face_occludes t a b = Ok (Some r)) ∨
        ((face_count t ≤ a ∨ face_count t ≤ b) ∧ face_occludes t a b = Ok None))).
Proof.
  apply (light_table_sound air_bytes 1 2).
  unfold air_bytes, MAGIC, bytes_ok, is_byte, in_u. cbn. repeat constructor; lia.
Defined.
