(* ===== verification/ChunkRegistry.v ===== *)
(** * The registry snapshot: definitions (src/world/storage/registry.rs)

    The block states, biomes and block-entity types that palettes refer to: the
    validation that builds a snapshot from the decoded tables, and the lookups.
    Strings are their UTF-8 bytes.  Reading, hashing and JSON decoding of the
    files come before [load_tables] and are not modelled. *)

From Stdlib Require Import String.
From S2P Require Import Prelude.
From S2P Require Import Container.
From S2P Require Import Sorted.
From S2P Require Import Sorting.
From S2P Require Import Nbt.
From S2P Require Import LightTable.
Local Open Scope Z_scope.

(** ** Decoded tables *)

Definition text := list Z.

Record Property := { p_name : text; p_values : list text; p_default_index : nat }.
Record Block := {
  b_id : text;
  heightmap_tags : Z;
  default_state : Z;
  b_properties : list Property;
  states : list Z;
}.
Record Blocks := { bs_state_count : Z; bs_state_flags : list Z; bs_blocks : list Block }.
Record NamedId := { n_id : text; protocol_id : Z }.

Record RegistryLoadLimits := {
  limit_blocks : Z; limit_states : Z; limit_biomes : Z; limit_block_entity_types : Z; limit_light_faces : Z;
}.

Record StateFlags := { is_air : bool; has_fluid : bool }.
Record ResolvedId := { id : Z; used_fallback : bool }.

Record ChunkRegistrySnapshot := {
  rg_blocks : list Block;
  rg_state_flags : list Z;
  rg_biomes : list NamedId;
  rg_block_entity_types : list NamedId;
  rg_lighting : Lighting;
  rg_blocks_domain : Container.Registry;
  rg_biomes_domain : Container.Registry;
  rg_air : Z;
  rg_plains : Z;
  rg_manifest_sha256 : list Z;
  rg_configuration_sha256 : list Z;
}.

(** ** Names *)

Definition ascii_lowercase (b : Z) : bool := (97 <=? b) && (b <=? 122).
Definition ascii_digit (b : Z) : bool := (48 <=? b) && (b <=? 57).
(** [_], and [-] and [.] *)
Definition name_byte (b : Z) : bool := ascii_lowercase b || ascii_digit b || (b =? 95).
Definition namespace_byte (b : Z) : bool := name_byte b || (b =? 45) || (b =? 46).
Definition path_byte (b : Z) : bool := namespace_byte b || (b =? 47).

Definition property_name (value : text) : bool :=
  negb (zlen value =? 0) && (zlen value <=? 32767) && forallb name_byte value.

(** [split_once(':')] *)
Fixpoint split_colon (value : text) : option (text * text) :=
  match value with
  | [] => None
  | b :: rest => if b =? 58 then Some ([], rest) else '(front, back) ← split_colon rest; Some (b :: front, back)
  end.

Definition identifier (value : text) : bool :=
  match split_colon value with
  | None => false
  | Some (namespace, path) =>
      negb (zlen namespace =? 0) && negb (zlen path =? 0) && (zlen value <=? 32767) &&
      forallb namespace_byte namespace && forallb path_byte path
  end.

(** [minecraft:] and the three names the code asks for. *)
Definition DEFAULT_PREFIX : text := [109; 105; 110; 101; 99; 114; 97; 102; 116; 58].
Definition air_name : text := DEFAULT_PREFIX ++ [97; 105; 114].
Definition plains_name : text := DEFAULT_PREFIX ++ [112; 108; 97; 105; 110; 115].
Definition bedrock_name : text := DEFAULT_PREFIX ++ [98; 101; 100; 114; 111; 99; 107].

(** [ordinal * len + index] in [usize]: an overflow is a panic. *)
Definition ordinal_step {E} (ordinal len index : Z) : outcome E Z :=
  scaled ← unwrap (checked_mul ordinal len); unwrap (checked_add scaled index).

Section load.
Context `{Allocator}.

(** [size_of::<&str>()] *)
Definition str_size : Z := 16.

(** The values of a property: [cap] is the capacity of the reused scratch. *)
Definition check_values (values : list text) (cap : Z) : outcome TableError Z :=
  cap ← (if zlen values <=? cap then Ok cap
         else ok_or (reserve_exact str_size (zlen values)) (Limit "property validation allocation"));
  _ ← ensure (forallb property_name values) (Invalid "invalid/duplicate property value");
  _ ← ensure (negb (repeats (λ v : text, v) (sort_by_key (λ v : text, v) values))) (Invalid "duplicate property value");
  Ok cap.

(** [previous.is_some_and(|name| name >= property.name)] *)
Definition not_after (previous : option text) (next : text) : bool :=
  match previous with Some name => match key_cmp name next with Lt => false | _ => true end | None => false end.

Fixpoint check_properties (limits : RegistryLoadLimits) (props : list Property) (previous : option text)
    (combinations default_ordinal cap : Z) : outcome TableError (Z * Z * Z) :=
  match props with
  | [] => Ok (combinations, default_ordinal, cap)
  | p :: props =>
      _ ← ensure (negb (negb (property_name (p_name p)) || not_after previous (p_name p) || (zlen (p_values p) <? 2) ||
                        (length (p_values p) <=? p_default_index p)%nat))
            (Invalid "invalid property name/order/default/domain");
      cap ← check_values (p_values p) cap;
      combinations ← ok_or (n ← checked_mul combinations (zlen (p_values p)); if n <=? limit_states limits then Some n else None)
                       (Limit "property product");
      default_ordinal ← ordinal_step default_ordinal (zlen (p_values p)) (Z.of_nat (p_default_index p));
      check_properties limits props (Some (p_name p)) combinations default_ordinal cap
  end.

(** [for &id in &block.states]: [seen] and the flags of every state. *)
Fixpoint mark_states (tags : Z) (ids : list Z) (seen : list bool) (flags : list Z) : outcome TableError (list bool * list Z) :=
  match ids with
  | [] => Ok (seen, flags)
  | id :: ids =>
      slot ← ok_or (seen !! Z.to_nat id) (Invalid "state ID outside global domain");
      _ ← ensure (negb slot) (Invalid "duplicate global state ID");
      f ← unwrap (flags !! Z.to_nat id);
      mark_states tags ids (<[Z.to_nat id := true]> seen) (<[Z.to_nat id := Z.lor f (Z.shiftl tags 2)]> flags)
  end.

Definition check_block (limits : RegistryLoadLimits) (b : Block) (seen : list bool) (flags : list Z) (cap : Z)
    : outcome TableError (list bool * list Z * Z) :=
  _ ← ensure (identifier (b_id b) && (heightmap_tags b <=? 3)) (Invalid "invalid block identifier or heightmap tags");
  '(combinations, default_ordinal, cap) ← check_properties limits (b_properties b) None 1 0 cap;
  _ ← ensure ((combinations =? zlen (states b)) && bool_decide (states b !! Z.to_nat default_ordinal = Some (default_state b)))
        (Invalid "incomplete property product or wrong default state");
  '(seen, flags) ← mark_states (heightmap_tags b) (states b) seen flags;
  Ok (seen, flags, cap).

Fixpoint check_blocks (limits : RegistryLoadLimits) (blocks : list Block) (seen : list bool) (flags : list Z) (cap : Z)
    : outcome TableError (list bool * list Z) :=
  match blocks with
  | [] => Ok (seen, flags)
  | b :: blocks =>
      '(seen, flags, cap) ← check_block limits b seen flags cap;
      check_blocks limits blocks seen flags cap
  end.

(** Protocol ids are the positions in the file; then the ids are sorted. *)
Fixpoint named_ids_ok (index : Z) (values : list NamedId) : bool :=
  match values with
  | [] => true
  | v :: values => identifier (n_id v) && (protocol_id v =? index) && named_ids_ok (index + 1) values
  end.
Definition validate_named_ids (values : list NamedId) : outcome TableError (list NamedId) :=
  _ ← ensure (named_ids_ok 0 values) (Invalid "invalid registry identifier or ordered ID");
  let values := sort_by_key n_id values in
  _ ← ensure (negb (repeats n_id values)) (Invalid "duplicate registry identifier");
  Ok values.

(** [Registry::new(..).map_err(|_| invalid(..))] *)
Definition domain (count : Z) (why : string) : outcome TableError Container.Registry :=
  map_err (λ _, Invalid why) (registry_new count).

Definition count_limits_ok (limits : RegistryLoadLimits) (data : Blocks) (biomes block_entity_types : list NamedId) : bool :=
  negb ((zlen (bs_blocks data) =? 0) || (limit_blocks limits <? zlen (bs_blocks data)) ||
        (limit_states limits <? bs_state_count data) ||
        (zlen biomes =? 0) || (limit_biomes limits <? zlen biomes) ||
        (zlen block_entity_types =? 0) || (limit_block_entity_types limits <? zlen block_entity_types) ||
        (2 ^ 31 - 1 <? zlen block_entity_types)).

(** [data.state_flags[id]] panics outside. *)
Definition air_state (blocks : list Block) (flags : list Z) : outcome TableError Z :=
  air_block ← ok_or (snd <$> list_find (λ b, b_id b = air_name) blocks) (Invalid "missing air block");
  let air := default_state air_block in
  if negb (zlen (b_properties air_block) =? 0) then Err (Invalid "invalid air state")
  else
    f ← unwrap (flags !! Z.to_nat air);
    _ ← ensure (Z.land f 3 =? 1) (Invalid "invalid air state");
    Ok air.

(** The validation of [ChunkRegistrySnapshot::load] after decoding; [counts] is
    the block and state count of the export metadata, [lighting] the bytes of
    the lighting table, and the digests are those expected. *)
Definition load_tables (limits : RegistryLoadLimits) (data : Blocks) (biomes block_entity_types : list NamedId)
    (counts : Z * Z) (lighting manifest configuration : list Z) : outcome TableError ChunkRegistrySnapshot :=
  _ ← ensure ((counts.1 =? zlen (bs_blocks data)) && (counts.2 =? bs_state_count data))
        (Invalid "export metadata differs from registry data");
  _ ← ensure (count_limits_ok limits data biomes block_entity_types) (Limit "registry entry counts");
  blocks_domain ← domain (bs_state_count data) "invalid state count";
  _ ← ensure (zlen biomes <=? 2 ^ 32 - 1) (Invalid "biome count overflow");
  biomes_domain ← domain (zlen biomes) "invalid biome count";
  _ ← ensure (negb (negb (zlen (bs_state_flags data) =? bs_state_count data) ||
                    existsb (λ flags, 3 <? flags) (bs_state_flags data))) (Invalid "invalid state flags");
  _ ← ok_or (reserve_exact 1 (bs_state_count data)) (Limit "state validation allocation");
  '(seen, flags) ← check_blocks limits (bs_blocks data) (replicate (Z.to_nat (bs_state_count data)) false) (bs_state_flags data) 0;
  _ ← ensure (negb (existsb negb seen)) (Invalid "missing global state ID");
  let blocks := sort_by_key b_id (bs_blocks data) in
  _ ← ensure (negb (repeats b_id blocks)) (Invalid "duplicate block identifier");
  biomes ← validate_named_ids biomes;
  block_entity_types ← validate_named_ids block_entity_types;
  air ← air_state blocks flags;
  plains ← ok_or (snd <$> list_find (λ b, n_id b = plains_name) biomes) (Invalid "missing plains biome");
  lighting ← parse lighting (bs_state_count data) (limit_light_faces limits);
  Ok {| rg_blocks := blocks; rg_state_flags := flags; rg_biomes := biomes; rg_block_entity_types := block_entity_types;
        rg_lighting := lighting; rg_blocks_domain := blocks_domain; rg_biomes_domain := biomes_domain; rg_air := air;
        rg_plains := protocol_id plains; rg_manifest_sha256 := manifest; rg_configuration_sha256 := configuration |}.
End load.

(** ** Lookups *)

Section lookups.
Implicit Types r : ChunkRegistrySnapshot.

Definition bedrock_id r : outcome False (option Z) :=
  match binary_search (λ b, key_cmp (b_id b) bedrock_name) (rg_blocks r) with
  | inl index => b ← unwrap (rg_blocks r !! index); Ok (Some (default_state b))
  | inr _ => Ok None
  end.

Definition light_material r (id : Z) : option LightMaterial := material (rg_lighting r) id.

Definition state_flags r (id : Z) : option StateFlags :=
  flags ← rg_state_flags r !! Z.to_nat id;
  Some {| is_air := negb (Z.land flags 1 =? 0); has_fluid := negb (Z.land flags 2 =? 0) |}.

(** Predicate bits in the order of the heightmap types. *)
Definition heightmap_mask r (id : Z) : option Z :=
  flags ← rg_state_flags r !! Z.to_nat id;
  let surface := if Z.land flags 1 =? 0 then 3 else 0 in
  let floor := if negb (Z.land flags 4 =? 0) then 12 else 0 in
  let motion := if negb (Z.land flags 6 =? 0) then 16 else 0 in
  let no_leaves := if negb (Z.land flags 10 =? 0) then 32 else 0 in
  Some (Z.lor (Z.lor (Z.lor surface floor) motion) no_leaves).

(** The prefix and the units of an identifier as it is written. *)
Fixpoint colon_position (units : list Z) : option nat :=
  match units with [] => None | u :: units => if u =? 58 then Some O else S <$> colon_position units end.
Definition identifier_units (input : NbtString) : list Z * list Z :=
  match colon_position input with
  | None => (DEFAULT_PREFIX, input)
  | Some O => (DEFAULT_PREFIX, drop 1 input)
  | Some _ => ([], input)
  end.
Definition compare_identifier (stored : text) (prefix units : list Z) : comparison := list_cmp stored (prefix ++ units).
Definition compare_ascii (ascii : text) (units : list Z) : comparison := list_cmp ascii units.

Definition field (compound : list CompoundEntry) (name : text) : outcome False (option Tag) :=
  match binary_search (λ e, CompOpp (compare_ascii name (Nbt.name e))) compound with
  | inl index => e ← unwrap (compound !! index); Ok (Some (Nbt.value e))
  | inr _ => Ok None
  end.

Definition block_entity_type_id r (name : NbtString) : outcome False (option Z) :=
  let '(prefix, units) := identifier_units name in
  match binary_search (λ e, compare_identifier (n_id e) prefix units) (rg_block_entity_types r) with
  | inl index => e ← unwrap (rg_block_entity_types r !! index); Ok (Some (protocol_id e))
  | inr _ => Ok None
  end.

(** The value of a property: its index and whether it was recovered. *)
Definition property_index (properties : list CompoundEntry) (p : Property) : outcome False (nat * bool) :=
  value ← field properties (p_name p);
  match value with
  | None => Ok (p_default_index p, false)
  | Some (String_ value) =>
      Ok (match list_find (λ name, compare_ascii name value = Eq) (p_values p) with
          | Some (index, _) => (index, false)
          | None => (p_default_index p, true)
          end)
  | Some _ => Ok (p_default_index p, true)
  end.

Fixpoint resolve_properties (properties : list CompoundEntry) (props : list Property) (ordinal : Z) (used : bool)
    : outcome False (Z * bool) :=
  match props with
  | [] => Ok (ordinal, used)
  | p :: props =>
      '(index, fallback) ← property_index properties p;
      ordinal ← ordinal_step ordinal (zlen (p_values p)) (Z.of_nat index);
      resolve_properties properties props ordinal (used || fallback)
  end.

Definition unknown_block r : ResolvedId := {| id := rg_air r; used_fallback := true |}.

(** A known block with the properties it is written with. *)
Definition resolve_block (b : Block) (properties : option Tag) : outcome False ResolvedId :=
  if (length (b_properties b) =? 0)%nat then Ok {| id := default_state b; used_fallback := false |}
  else
    match properties with
    | None => Ok {| id := default_state b; used_fallback := false |}
    | Some (Compound properties) =>
        '(ordinal, used) ← resolve_properties properties (b_properties b) 0 false;
        state ← unwrap (states b !! Z.to_nat ordinal);
        Ok {| id := state; used_fallback := used |}
    | Some _ => Ok {| id := default_state b; used_fallback := true |}
    end.

Definition resolve_name r (name : NbtString) (properties : option Tag) : outcome False ResolvedId :=
  let '(prefix, units) := identifier_units name in
  match binary_search (λ b, compare_identifier (b_id b) prefix units) (rg_blocks r) with
  | inr _ => Ok (unknown_block r)
  | inl index => b ← unwrap (rg_blocks r !! index); resolve_block b properties
  end.

(** ["id"] and ["properties"] *)
Definition id_key : text := [105; 100].
Definition properties_key : text := [112; 114; 111; 112; 101; 114; 116; 105; 101; 115].

Definition block_state r (value : Tag) : outcome False ResolvedId :=
  match value with
  | String_ name => resolve_name r name None
  | Compound compound =>
      name ← field compound id_key;
      match name with
      | Some (String_ name) => properties ← field compound properties_key; resolve_name r name properties
      | _ => Ok (unknown_block r)
      end
  | _ => Ok (unknown_block r)
  end.

Definition biome r (value : Tag) : outcome False ResolvedId :=
  match value with
  | String_ name =>
      let '(prefix, units) := identifier_units name in
      match binary_search (λ b, compare_identifier (n_id b) prefix units) (rg_biomes r) with
      | inl index => b ← unwrap (rg_biomes r !! index); Ok {| id := protocol_id b; used_fallback := false |}
      | inr _ => Ok {| id := rg_plains r; used_fallback := true |}
      end
  | _ => Ok {| id := rg_plains r; used_fallback := true |}
  end.
End lookups.
