(* ===== verification/RegistryFacts.v ===== *)
(** * The registry snapshot: what loading guarantees and what lookups answer

    Tables that pass [load_tables] describe one property product per block and
    give every state id of the domain to exactly one block.  On such a snapshot
    every palette entry resolves to a state, and the form a state is saved in
    resolves to that state. *)

From Stdlib Require Import String Sorted.
From stdpp Require Import sets.
From S2P Require Import Prelude.
From S2P Require Import Container.
From S2P Require Import Sorted.
From S2P Require Import Sorting.
From S2P Require Import Nbt.
From S2P Require Import LightTable.
From S2P Require Import ChunkRegistry.
Local Open Scope Z_scope.

(** ** Mixed radix *)

(** How many ways there are to choose a value for each property. *)
Fixpoint product (props : list Property) : Z :=
  match props with [] => 1 | p :: props => zlen (p_values p) * product props end.

(** The position of a choice, the last property varying fastest. *)
Fixpoint ordinal_from (acc : Z) (props : list Property) (sel : list nat) : Z :=
  match props, sel with
  | p :: props, i :: sel => ordinal_from (acc * zlen (p_values p) + Z.of_nat i) props sel
  | _, _ => acc
  end.

Definition choice (props : list Property) (sel : list nat) : Prop :=
  Forall2 (λ p i, (i < length (p_values p))%nat) props sel.

Lemma ordinal_shift acc props sel :
  choice props sel → ordinal_from acc props sel = acc * product props + ordinal_from 0 props sel.
Proof.
  intros Hc. revert acc. induction Hc as [|p i props sel Hi Hc IH]; intros acc; cbn [ordinal_from product]; [lia|].
  rewrite (IH (acc * _ + _)), (IH (0 * _ + _)). lia.
Qed.

Lemma ordinal_bound props sel : choice props sel → 0 ≤ ordinal_from 0 props sel < product props.
Proof.
  intros Hc. induction Hc as [|p i props sel Hi Hc IH]; cbn [ordinal_from product]; [lia|].
  rewrite ordinal_shift by done. unfold zlen in *. nia.
Qed.

(** Every position is the position of a choice. *)
Lemma ordinal_onto props n : 0 ≤ n < product props → ∃ sel, choice props sel ∧ ordinal_from 0 props sel = n.
Proof.
  revert n. induction props as [|p props IH]; intros n Hn; cbn [product] in Hn.
  { exists []. split; [constructor|]. cbn. lia. }
  assert (0 < product props) as Hp by (destruct (Z.le_gt_cases (product props) 0); [unfold zlen in *; nia|done]).
  destruct (IH (n mod product props)) as (sel&Hc&Ho); [apply Z.mod_pos_bound; lia|].
  assert (0 ≤ n / product props < zlen (p_values p)) by (split; [apply Z.div_pos; lia|apply Z.div_lt_upper_bound; lia]).
  exists (Z.to_nat (n / product props) :: sel). split; [constructor; [unfold zlen in *; lia|done]|].
  cbn [ordinal_from]. rewrite ordinal_shift, Ho by done. rewrite Z2Nat.id by lia.
  pose proof (Z.div_mod n (product props) ltac:(lia)). lia.
Qed.

(** ** Well-formed blocks and snapshots *)

Record property_ok (p : Property) : Prop := {
  pk_name : property_name (p_name p) = true;
  pk_values : Forall (λ v, property_name v = true) (p_values p) ∧ NoDup (p_values p) ∧ (2 ≤ length (p_values p))%nat;
  pk_default : (p_default_index p < length (p_values p))%nat;
}.

Record block_ok (b : Block) : Prop := {
  bk_id : identifier (b_id b) = true;
  bk_properties : Forall property_ok (b_properties b);
  bk_names : sorted_keys p_name (b_properties b);
  bk_states : zlen (states b) = product (b_properties b) ∧ zlen (states b) ≤ usize_max;
  bk_default : states b !! Z.to_nat (ordinal_from 0 (b_properties b) (p_default_index <$> b_properties b)) = Some (default_state b);
}.

Definition count r : Z := state_count (rg_blocks_domain r).

Record named_ok (l : list NamedId) : Prop := {
  nk_sorted : sorted_keys n_id l;
  nk_ids : protocol_id <$> l ≡ₚ seqZ 0 (zlen l);
  nk_names : Forall (λ v, identifier (n_id v) = true) l;
}.

Record registry_ok (r : ChunkRegistrySnapshot) : Prop := {
  rk_count : Container.registry_ok (rg_blocks_domain r) ∧ zlen (rg_state_flags r) = count r;
  rk_sorted : sorted_keys b_id (rg_blocks r);
  rk_blocks : Forall block_ok (rg_blocks r);
  rk_states : rg_blocks r ≫= states ≡ₚ seqZ 0 (count r);
  rk_air : ∃ b f, b ∈ rg_blocks r ∧ b_id b = air_name ∧ default_state b = rg_air r ∧
             rg_state_flags r !! Z.to_nat (rg_air r) = Some f ∧ Z.land f 3 = 1;
  rk_biomes : named_ok (rg_biomes r) ∧ (Container.registry_ok (rg_biomes_domain r) ∧ state_count (rg_biomes_domain r) = zlen (rg_biomes r)) ∧
              0 ≤ rg_plains r < zlen (rg_biomes r);
  rk_entities : named_ok (rg_block_entity_types r);
  rk_lighting : lighting_ok (rg_lighting r) ∧ zlen (materials (rg_lighting r)) = count r;
}.

(** ** Loading *)

(** Numbers within the types of the decoded tables. *)
Record tables_typed (limits : RegistryLoadLimits) (data : Blocks) : Prop := {
  tt_limit : limit_states limits ≤ usize_max;
  tt_count : 0 ≤ bs_state_count data;
  tt_flags : Forall is_byte (bs_state_flags data);
  tt_blocks : Forall (λ b, 0 ≤ heightmap_tags b ∧ Forall (λ id, 0 ≤ id) (states b)) (bs_blocks data);
}.

Lemma checked_mul_some a b : a * b ≤ usize_max → checked_mul a b = Some (a * b).
Proof. intros. unfold checked_mul. by destruct (Z.leb_spec (a * b) usize_max); [|lia]. Qed.
Lemma checked_add_some a b : a + b ≤ usize_max → checked_add a b = Some (a + b).
Proof. intros. unfold checked_add. by destruct (Z.leb_spec (a + b) usize_max); [|lia]. Qed.

Lemma ordinal_step_ok {E} ordinal len index m :
  0 ≤ ordinal < m → 0 ≤ index < len → m * len ≤ usize_max →
  ordinal_step (E := E) ordinal len index = Ok (ordinal * len + index).
Proof.
  intros Ho Hi Hm. unfold ordinal_step. rewrite checked_mul_some by nia. mstep. by rewrite checked_add_some by nia.
Qed.

Section load.
Context `{Allocator}.

Lemma check_values_cases values cap :
  (∃ e, check_values values cap = Err e) ∨
  (∃ cap', check_values values cap = Ok cap' ∧ Forall (λ v, property_name v = true) values ∧ NoDup values).
Proof.
  unfold check_values. destruct (if zlen values <=? cap then _ else _) as [cap'|e| |] eqn:Ec;
    [mstep|mstep; eauto|unfold ok_or in Ec; by repeat case_match..].
  destruct (forallb property_name values) eqn:Ef; mstep; [|eauto].
  destruct (repeats _ _) eqn:Er; mstep; [eauto|]. right. exists cap'. split; [done|]. split.
  - apply Forall_forall. intros v Hv. rewrite forallb_forall in Ef. by apply Ef, list_elem_of_In.
  - apply dec_stable. intros Hn. rewrite <- (list_fmap_id values) in Hn.
    apply (sort_by_key_repeats (λ v : text, v)) in Hn. congruence.
Qed.

Lemma check_properties_cases limits props previous m o cap :
  limit_states limits ≤ usize_max → 0 ≤ o < m → m ≤ usize_max →
  (∃ e, check_properties limits props previous m o cap = Err e) ∨
  (∃ cap', check_properties limits props previous m o cap =
             Ok (m * product props, ordinal_from o props (p_default_index <$> props), cap') ∧
     m * product props ≤ usize_max ∧ Forall property_ok props ∧ sorted_keys p_name props ∧
     (∀ name p, previous = Some name → p ∈ props → key_lt name (p_name p))).
Proof.
  intros Hl. revert previous m o cap. induction props as [|p props IH]; intros previous m o cap Ho Hm.
  { right. exists cap. cbn. rewrite Z.mul_1_r. split_and!; [done..|constructor|by intros ?? _ ?%not_elem_of_nil]. }
  cbn [check_properties].
  destruct (property_name (p_name p)) eqn:En; cbn [negb orb]; mstep; [|eauto].
  destruct (not_after previous (p_name p)) eqn:Ea; cbn [orb]; mstep; [eauto|].
  destruct (Z.ltb_spec (zlen (p_values p)) 2) as [|Hlen]; cbn [orb]; mstep; [eauto|].
  destruct (Nat.leb_spec (length (p_values p)) (p_default_index p)) as [|Hd]; mstep; [eauto|].
  destruct (check_values_cases (p_values p) cap) as [[e ->]|(c&->&Hv&Hn)]; mstep; [eauto|].
  destruct (ok_or _ _) as [m'|e| |] eqn:Em; mstep; [|eauto|unfold ok_or in Em; by repeat case_match..].
  assert (m' = m * zlen (p_values p) ∧ m' ≤ limit_states limits) as [-> Hm'].
  { unfold checked_mul in Em. destruct (_ <=? usize_max) in Em; cbn in Em; [|done]. destruct (Z.leb_spec (m * zlen (p_values p)) (limit_states limits)); [|done].
    injection Em as <-. done. }
  rewrite (ordinal_step_ok _ _ _ m) by (unfold zlen in *; lia). mstep.
  destruct (IH (Some (p_name p)) (m * zlen (p_values p)) (o * zlen (p_values p) + Z.of_nat (p_default_index p)) c) as [[e ->]|(c'&->&Hu&Hok&Hs&Hnx)];
    [unfold zlen in *; nia|lia|eauto|].
  right. exists c'. cbn [product ordinal_from fmap list_fmap]. rewrite Z.mul_assoc. split; [done|]. split; [done|].
  split; [constructor; [split; [done|split_and!; [done..|unfold zlen in *; lia]|done]|done]|].
  assert (Hlt : ∀ q, q ∈ props → key_lt (p_name p) (p_name q)) by (intros q; by apply Hnx).
  split.
  - unfold sorted_keys in *. cbn. constructor; [done|]. apply Forall_forall. intros k (q&->&Hq)%list_elem_of_fmap. by apply Hlt.
  - intros name q -> Hq. assert (Hp : key_lt name (p_name p)) by (unfold not_after in Ea; unfold key_lt; by destruct (key_cmp _ _)).
    apply elem_of_cons in Hq as [->|Hq]; [done|]. etrans; [exact Hp|by apply Hlt].
Qed.
End load.

(** What marking the states of a block does. *)
Record marked (tags : Z) (ids : list Z) (seen seen' : list bool) (flags flags' : list Z) : Prop := {
  mk_nodup : NoDup ids;
  mk_fresh i : i ∈ ids → seen !! Z.to_nat i = Some false;
  mk_seen j : seen' !! j = (λ b, b || bool_decide (Z.of_nat j ∈ ids)) <$> seen !! j;
  mk_flags j : flags' !! j = (λ f, if bool_decide (Z.of_nat j ∈ ids) then Z.lor f (Z.shiftl tags 2) else f) <$> flags !! j;
}.

Lemma length_none {A B} (l : list A) (l' : list B) : (∀ j, l' !! j = None ↔ l !! j = None) → length l' = length l.
Proof.
  intros Hn. pose proof (Hn (length l)) as H1. pose proof (Hn (length l')) as H2. rewrite !lookup_ge_None in H1, H2. lia.
Qed.

Lemma lookup_length {A B} (l : list A) (l' : list B) (f : nat → A → B) : (∀ j, l' !! j = f j <$> l !! j) → length l' = length l.
Proof. intros Hf. apply length_none. intros j. rewrite Hf. destruct (l !! j); by split. Qed.

Lemma mark_states_cases tags ids seen flags :
  length seen = length flags → Forall (λ i, 0 ≤ i) ids →
  (∃ e, mark_states tags ids seen flags = Err e) ∨
  (∃ seen' flags', mark_states tags ids seen flags = Ok (seen', flags') ∧ marked tags ids seen seen' flags flags').
Proof.
  revert seen flags. induction ids as [|i ids IH]; intros seen flags Hlen Hi.
  { right. exists seen, flags. split; [done|]. split; [constructor|by intros ? ?%not_elem_of_nil|..].
    - intros j. rewrite bool_decide_eq_false_2 by apply not_elem_of_nil. destruct (seen !! j) as [[]|]; done.
    - intros j. rewrite bool_decide_eq_false_2 by apply not_elem_of_nil. by destruct (flags !! j). }
  apply Forall_cons in Hi as [Hi His]. cbn [mark_states].
  destruct (seen !! Z.to_nat i) as [[]|] eqn:Es; mstep; [eauto| |eauto].
  destruct (lookup_lt_ok flags (Z.to_nat i)) as [f Hf]; [rewrite <- Hlen; by eapply lookup_lt_Some|]. rewrite Hf. mstep.
  destruct (IH (<[Z.to_nat i := true]> seen) (<[Z.to_nat i := Z.lor f (Z.shiftl tags 2)]> flags)) as [[e ->]|(seen'&flags'&->&[Hn Hfr Hs Hfl])];
    [by rewrite !length_insert|done|eauto|].
  right. exists seen', flags'. split; [done|].
  assert (Hni : i ∉ ids).
  { intros Hx. apply Hfr in Hx. rewrite list_lookup_insert_eq in Hx by (by eapply lookup_lt_Some). done. }
  assert (Hj : ∀ j, Z.of_nat j = i ↔ Z.to_nat i = j) by lia.
  split.
  - by constructor.
  - intros k [->|Hk]%elem_of_cons; [done|]. specialize (Hfr k Hk). destruct (decide (Z.to_nat i = Z.to_nat k)) as [E|E].
    + rewrite E, list_lookup_insert_eq in Hfr; [done|]. rewrite <- E. by eapply lookup_lt_Some.
    + by rewrite list_lookup_insert_ne in Hfr.
  - intros j. rewrite Hs. destruct (decide (Z.to_nat i = j)) as [<-|E].
    + rewrite list_lookup_insert_eq, Es by (by eapply lookup_lt_Some). cbn. rewrite bool_decide_eq_true_2; [done|]. rewrite Z2Nat.id by done. by left.
    + rewrite list_lookup_insert_ne by done. destruct (seen !! j); [|done]. cbn.
      do 2 f_equal. apply bool_decide_ext. rewrite elem_of_cons. naive_solver.
  - intros j. rewrite Hfl. destruct (decide (Z.to_nat i = j)) as [<-|E].
    + rewrite list_lookup_insert_eq, Hf by (by eapply lookup_lt_Some). cbn. rewrite Z2Nat.id by done.
      rewrite bool_decide_eq_false_2 by done. by rewrite bool_decide_eq_true_2 by (by left).
    + rewrite list_lookup_insert_ne by done. destruct (flags !! j); [|done]. cbn. f_equal.
      rewrite (bool_decide_ext (Z.of_nat j ∈ i :: ids) (Z.of_nat j ∈ ids)); [done|]. rewrite elem_of_cons. naive_solver.
Qed.

Section blocks.
Context `{Allocator}.

Lemma check_block_cases limits b seen flags cap :
  limit_states limits ≤ usize_max → length seen = length flags → Forall (λ i, 0 ≤ i) (states b) →
  (∃ e, check_block limits b seen flags cap = Err e) ∨
  (∃ seen' flags' cap', check_block limits b seen flags cap = Ok (seen', flags', cap') ∧ block_ok b ∧
     heightmap_tags b ≤ 3 ∧ marked (heightmap_tags b) (states b) seen seen' flags flags').
Proof.
  intros Hl Hlen Hi. unfold check_block.
  destruct (identifier (b_id b)) eqn:Eid; cbn [andb]; mstep; [|eauto].
  destruct (Z.leb_spec (heightmap_tags b) 3); mstep; [|eauto].
  destruct (check_properties_cases limits (b_properties b) None 1 0 cap Hl) as [[e ->]|(c&->&Hu&Hok&Hs&_)]; [lia|by vm_compute|mstep; eauto|mstep].
  rewrite Z.mul_1_l in *. destruct (Z.eqb_spec (product (b_properties b)) (zlen (states b))) as [Ez|]; cbn [andb]; mstep; [|eauto].
  destruct (decide (states b !! Z.to_nat (ordinal_from 0 (b_properties b) (p_default_index <$> b_properties b)) = Some (default_state b))) as [Ed|Ed];
    [rewrite bool_decide_eq_true_2 by done|rewrite bool_decide_eq_false_2 by done; eauto]; mstep.
  destruct (mark_states_cases (heightmap_tags b) (states b) seen flags Hlen Hi) as [[e ->]|(s&f&->&Hm)]; mstep; [eauto|].
  right. exists s, f, c. split; [done|]. split; [|done]. split; [done..|split; [done|lia]|done].
Qed.

(** What checking all blocks does. *)
Record all_marked (blocks : list Block) (seen seen' : list bool) (flags flags' : list Z) : Prop := {
  am_ok : Forall (λ b, block_ok b ∧ heightmap_tags b ≤ 3) blocks;
  am_nodup : NoDup (blocks ≫= states);
  am_fresh i : i ∈ blocks ≫= states → seen !! Z.to_nat i = Some false;
  am_seen j : seen' !! j = (λ s, s || bool_decide (Z.of_nat j ∈ blocks ≫= states)) <$> seen !! j;
  am_other j : Z.of_nat j ∉ blocks ≫= states → flags' !! j = flags !! j;
  am_flags b j : b ∈ blocks → Z.of_nat j ∈ states b →
    flags' !! j = (λ f, Z.lor f (Z.shiftl (heightmap_tags b) 2)) <$> flags !! j;
}.

Lemma marked_length tags ids seen seen' flags flags' :
  marked tags ids seen seen' flags flags' → length seen = length flags → length seen' = length flags'.
Proof. intros [_ _ Hs Hf] Hl. by rewrite (lookup_length _ _ (λ j b, b || bool_decide (Z.of_nat j ∈ ids)) Hs),
  (lookup_length _ _ (λ j f, if bool_decide (Z.of_nat j ∈ ids) then Z.lor f (Z.shiftl tags 2) else f) Hf). Qed.

Lemma check_blocks_cases limits blocks seen flags cap :
  limit_states limits ≤ usize_max → length seen = length flags → Forall (λ b, Forall (λ i, 0 ≤ i) (states b)) blocks →
  (∃ e, check_blocks limits blocks seen flags cap = Err e) ∨
  (∃ seen' flags', check_blocks limits blocks seen flags cap = Ok (seen', flags') ∧ all_marked blocks seen seen' flags flags').
Proof.
  intros Hl. revert seen flags cap. induction blocks as [|b blocks IH]; intros seen flags cap Hlen Hi.
  { right. exists seen, flags. split; [done|]. split; cbn; [constructor..|by intros ? ?%not_elem_of_nil| |done|by intros ?? ?%not_elem_of_nil].
    intros j. rewrite bool_decide_eq_false_2 by apply not_elem_of_nil. by destruct (seen !! j) as [[]|]. }
  apply Forall_cons in Hi as [Hi His]. cbn [check_blocks].
  destruct (check_block_cases limits b seen flags cap Hl Hlen Hi) as [[e ->]|(s1&f1&c1&->&Hb&Ht&Hm)]; mstep; [eauto|].
  destruct (IH s1 f1 c1 (marked_length _ _ _ _ _ _ Hm Hlen) His) as [[e ->]|(s2&f2&->&[Hok Hn Hfr Hs Hot Hfl])]; [eauto|].
  right. exists s2, f2. split; [done|]. destruct Hm as [Hn1 Hfr1 Hs1 Hfl1]. rewrite ?bind_cons in *.
  assert (Hdis : ∀ i, i ∈ states b → i ∈ blocks ≫= states → False).
  { intros i H1 H2. apply Hfr in H2. rewrite Hs1, (Hfr1 i H1) in H2. cbn in H2.
    rewrite Forall_forall in Hi. rewrite Z2Nat.id, bool_decide_eq_true_2 in H2 by (done || by apply Hi). done. }
  split.
  - by constructor.
  - rewrite bind_cons. apply NoDup_app. split_and!; [done|by intros i H1 H2; apply (Hdis i)|done].
  - intros i. rewrite bind_cons. intros [Hx|Hx]%elem_of_app; [by apply Hfr1|]. specialize (Hfr i Hx). rewrite Hs1 in Hfr.
    destruct (seen !! Z.to_nat i) as [[]|]; done.
  - intros j. rewrite bind_cons, Hs, Hs1. destruct (seen !! j) as [v|]; [|done]. cbn. f_equal. rewrite <- orb_assoc. f_equal.
    rewrite (bool_decide_ext (Z.of_nat j ∈ states b ++ (blocks ≫= states)) (Z.of_nat j ∈ states b ∨ Z.of_nat j ∈ blocks ≫= states)) by apply elem_of_app.
    by rewrite bool_decide_or.
  - intros j. rewrite bind_cons, elem_of_app. intros Hj. rewrite Hot, Hfl1 by tauto. rewrite bool_decide_eq_false_2 by tauto. by destruct (flags !! j).
  - intros b' j [->|Hb']%elem_of_cons Hj.
    + rewrite Hot by (intros Hx; by apply (Hdis (Z.of_nat j))). rewrite Hfl1. by rewrite bool_decide_eq_true_2 by done.
    + rewrite (Hfl b' j Hb' Hj), Hfl1. rewrite bool_decide_eq_false_2; [by destruct (flags !! j)|].
      intros Hx. apply (Hdis (Z.of_nat j) Hx). apply list_elem_of_bind. by exists b'.
Qed.

Lemma named_ids_spec index l :
  named_ids_ok index l = true → protocol_id <$> l = seqZ index (zlen l) ∧ Forall (λ v, identifier (n_id v) = true) l.
Proof.
  revert index. induction l as [|v l IH]; intros index; [done|]. cbn [named_ids_ok].
  intros [[Hv Hp%Z.eqb_eq]%andb_prop Hl]%andb_prop. apply IH in Hl as [Hl Hf]. split; [|by constructor].
  unfold zlen in *. cbn [length fmap list_fmap]. rewrite seqZ_cons by lia. rewrite Hl. f_equal; [done|].
  replace (Z.succ index) with (index + 1) by lia. f_equal. lia.
Qed.

Lemma validate_named_cases l :
  (∃ e, validate_named_ids l = Err e) ∨
  (∃ l', validate_named_ids l = Ok l' ∧ named_ok l' ∧ l' ≡ₚ l).
Proof.
  unfold validate_named_ids. destruct (named_ids_ok 0 l) eqn:En; mstep; [|eauto].
  apply named_ids_spec in En as [En Hid]. destruct (repeats n_id (sort_by_key n_id l)) eqn:Er; mstep; [eauto|].
  right. eexists. split; [done|]. pose proof (sort_by_key_perm n_id l) as Hp. split; [|done].
  split; [by apply sort_by_key_sorted| |by rewrite Hp]. assert (zlen (sort_by_key n_id l) = zlen l) as -> by (unfold zlen; by rewrite Hp). by rewrite Hp, En.
Qed.
End blocks.

(** What a snapshot keeps of the tables it was built from. *)
Record built_from (data : Blocks) (biomes entities : list NamedId) (r : ChunkRegistrySnapshot) : Prop := {
  bf_count : count r = bs_state_count data;
  bf_blocks : rg_blocks r ≡ₚ bs_blocks data;
  bf_biomes : rg_biomes r ≡ₚ biomes;
  bf_entities : rg_block_entity_types r ≡ₚ entities;
  bf_flags b id f : b ∈ bs_blocks data → id ∈ states b → bs_state_flags data !! Z.to_nat id = Some f →
    rg_state_flags r !! Z.to_nat id = Some (Z.lor f (Z.shiftl (heightmap_tags b) 2));
  bf_tags : Forall (λ b, 0 ≤ heightmap_tags b ≤ 3) (bs_blocks data) ∧ Forall (λ f, 0 ≤ f ≤ 3) (bs_state_flags data);
}.

Lemma registry_new_cases n why :
  (∃ e, domain n why = Err e) ∨ (∃ r, domain n why = Ok r ∧ state_count r = n ∧ (0 ≤ n → Container.registry_ok r)).
Proof.
  unfold domain, registry_new. destruct (Z.eqb_spec n 0); cbn; [eauto|]. destruct (Z.ltb_spec (Z.shiftl 1 31) n) as [|Hn]; cbn; [eauto|].
  right. eexists. split; [done|]. split; [done|]. intros. unfold Container.registry_ok. cbn. change (Z.shiftl 1 31) with (2 ^ 31) in Hn. lia.
Qed.

(** Every slot marked: the states are all the ids of the domain. *)
Lemma states_complete (blocks : list Block) (n : nat) seen' flags flags' :
  Forall (λ b, Forall (λ i, 0 ≤ i) (states b)) blocks → all_marked blocks (replicate n false) seen' flags flags' →
  existsb negb seen' = false → blocks ≫= states ≡ₚ seqZ 0 (Z.of_nat n).
Proof.
  intros Hty [_ Hn Hfr Hs _ _] Hall. apply NoDup_Permutation; [done|apply NoDup_seqZ|]. intros i. rewrite elem_of_seqZ. split.
  - intros Hi. pose proof (Hfr i Hi) as Hl. apply lookup_replicate in Hl as [_ Hlt].
    apply list_elem_of_bind in Hi as (b&Hi&Hb). rewrite Forall_forall in Hty. specialize (Hty b Hb). rewrite Forall_forall in Hty. specialize (Hty i Hi). cbn in Hty. lia.
  - intros Hi. specialize (Hs (Z.to_nat i)). rewrite lookup_replicate_2 in Hs by lia. cbn in Hs. rewrite Z2Nat.id in Hs by lia.
    destruct (decide (i ∈ blocks ≫= states)) as [|Hni]; [done|]. rewrite bool_decide_eq_false_2 in Hs by done.
    rewrite (proj2 (existsb_exists negb seen')) in Hall; [done|]. exists false. split; [|done]. apply list_elem_of_In. by eapply list_elem_of_lookup_2.
Qed.

Lemma air_state_cases blocks flags :
  (∀ b, b ∈ blocks → ∃ f, flags !! Z.to_nat (default_state b) = Some f) →
  (∃ e, air_state blocks flags = Err e) ∨
  (∃ b f, air_state blocks flags = Ok (default_state b) ∧ b ∈ blocks ∧ b_id b = air_name ∧
     flags !! Z.to_nat (default_state b) = Some f ∧ Z.land f 3 = 1).
Proof.
  intros Hf. unfold air_state. destruct (list_find _ blocks) as [[i b]|] eqn:Eb; cbn; mstep; [|eauto].
  apply list_find_Some in Eb as (Hi&Hid&_). apply list_elem_of_lookup_2 in Hi.
  destruct (Z.eqb_spec (zlen (b_properties b)) 0); cbn [negb]; [|eauto]. destruct (Hf b Hi) as [f Hbf]. rewrite Hbf. mstep.
  destruct (Z.eqb_spec (Z.land f 3) 1); mstep; [|eauto]. right. exists b, f. by split_and!.
Qed.

Lemma marked_flags_length blocks seen seen' flags flags' :
  all_marked blocks seen seen' flags flags' → length flags' = length flags.
Proof.
  intros [_ _ _ _ Hot Hfl]. apply length_none. intros j. destruct (decide (Z.of_nat j ∈ blocks ≫= states)) as [Hj|Hj].
  - apply list_elem_of_bind in Hj as (b&Hj&Hb). rewrite (Hfl b j Hb Hj). destruct (flags !! j); by split.
  - by rewrite Hot.
Qed.

Lemma default_in_states b : block_ok b → default_state b ∈ states b.
Proof. intros Hb. by eapply list_elem_of_lookup_2, bk_default. Qed.

Lemma existsb_false {A} (f : A → bool) l : existsb f l = false → Forall (λ a, f a = false) l.
Proof.
  induction l as [|a l IH]; cbn; [constructor|]. intros [Ha Hl]%orb_false_elim. constructor; auto.
Qed.

Lemma load_cases `{Allocator} limits data biomes entities counts lighting manifest configuration :
  tables_typed limits data → bytes_ok lighting →
  (∃ e, load_tables limits data biomes entities counts lighting manifest configuration = Err e) ∨
  (∃ r, load_tables limits data biomes entities counts lighting manifest configuration = Ok r ∧ registry_ok r ∧
     built_from data biomes entities r ∧ rg_manifest_sha256 r = manifest ∧ rg_configuration_sha256 r = configuration).
Proof.
  intros [Hlim Hcount Hbytes Htyped] Hlb. unfold load_tables.
  destruct (_ && _); mstep; [|eauto]. destruct (count_limits_ok _ _ _ _); mstep; [|eauto].
  destruct (registry_new_cases (bs_state_count data) "invalid state count") as [[e ->]|(bd&->&Hbd&Hbdok)]; mstep; [eauto|].
  destruct (zlen biomes <=? 2 ^ 32 - 1); mstep; [|eauto].
  destruct (registry_new_cases (zlen biomes) "invalid biome count") as [[e ->]|(md&->&Hmd&Hmdok)]; mstep; [eauto|].
  destruct (Z.eqb_spec (zlen (bs_state_flags data)) (bs_state_count data)) as [Hfl|]; cbn [negb orb]; mstep; [|eauto].
  destruct (existsb _ (bs_state_flags data)) eqn:Efl; cbn [negb]; mstep; [eauto|].
  destruct (reserve_exact 1 _); mstep; [|eauto].
  assert (Hids : Forall (λ b, Forall (λ i, 0 ≤ i) (states b)) (bs_blocks data)) by (eapply Forall_impl; [exact Htyped|naive_solver]).
  destruct (check_blocks_cases limits (bs_blocks data) (replicate (Z.to_nat (bs_state_count data)) false) (bs_state_flags data) 0 Hlim)
    as [[e ->]|(seen&flags&->&Ham)]; [rewrite length_replicate; unfold zlen in *; lia|done|mstep; eauto|mstep].
  destruct (existsb negb seen) eqn:Eseen; mstep; [eauto|].
  pose proof (states_complete _ _ _ _ _ Hids Ham Eseen) as Hstates. rewrite Z2Nat.id in Hstates by done.
  destruct (repeats b_id _) eqn:Erep; mstep; [eauto|]. pose proof (sort_by_key_perm b_id (bs_blocks data)) as Hperm.
  destruct (validate_named_cases biomes) as [[e ->]|(bs&->&Hbs&Hbp)]; mstep; [eauto|].
  destruct (validate_named_cases entities) as [[e ->]|(es&->&Hes&Hep)]; mstep; [eauto|].
  pose proof Ham as [Hok Hn _ _ _ Hflags].
  assert (Hblock : ∀ b, b ∈ bs_blocks data → block_ok b ∧ heightmap_tags b ≤ 3) by (by apply Forall_forall).
  assert (Hdata : ∀ id, id ∈ bs_blocks data ≫= states → ∃ f, bs_state_flags data !! Z.to_nat id = Some f).
  { intros i Hi. rewrite Hstates, elem_of_seqZ in Hi. apply lookup_lt_ok. unfold zlen in *. lia. }
  assert (Hkept : ∀ b id f, b ∈ bs_blocks data → id ∈ states b → bs_state_flags data !! Z.to_nat id = Some f →
            flags !! Z.to_nat id = Some (Z.lor f (Z.shiftl (heightmap_tags b) 2))).
  { intros b i f Hb Hi Hf. assert (0 ≤ i) by (rewrite Forall_forall in Hids; specialize (Hids b Hb); rewrite Forall_forall in Hids; by apply Hids).
    rewrite (Hflags b (Z.to_nat i) Hb) by (by rewrite Z2Nat.id). by rewrite Hf. }
  assert (Hlen : length flags = length (bs_state_flags data)) by (by eapply marked_flags_length).
  destruct (air_state_cases (sort_by_key b_id (bs_blocks data)) flags) as [[e ->]|(ab&af&->&Hab&Hid&Haf&Hbits)]; [|mstep; eauto|mstep].
  { intros b Hb. rewrite Hperm in Hb. assert (Hi : default_state b ∈ states b) by (by apply default_in_states, Hblock).
    destruct (Hdata (default_state b)) as [f Hf]; [apply list_elem_of_bind; eauto|]. eexists. by apply (Hkept b). }
  destruct (list_find _ bs) as [[i pl]|] eqn:Epl; cbn [fmap option_fmap option_map snd]; mstep; [|eauto].
  destruct (parse_cases lighting (bs_state_count data) (limit_light_faces limits) Hlb) as [[e ->]|(t&->&Ht&_&_&Htm)]; mstep; [eauto|].
  right. eexists. split; [reflexivity|]. split; [|split; [|done]].
  - assert (Hpl : pl ∈ bs) by (apply list_find_Some in Epl as (Hi&_); by eapply list_elem_of_lookup_2).
    assert (Hpid : 0 ≤ protocol_id pl < zlen bs).
    { apply (elem_of_seqZ 0 (zlen bs)). rewrite <- (nk_ids bs Hbs). apply list_elem_of_fmap. eauto. }
    split; unfold count; cbn [rg_blocks rg_state_flags rg_biomes rg_block_entity_types rg_lighting rg_blocks_domain rg_biomes_domain rg_air rg_plains].
    + split; [by apply Hbdok|]. unfold zlen in *. lia.
    + by apply sort_by_key_sorted.
    + rewrite Hperm. eapply Forall_impl; [exact Hok|naive_solver].
    + rewrite Hperm, Hbd. done.
    + exists ab, af. by split_and!.
    + split_and!; [done|apply Hmdok; unfold zlen; lia| |lia..]. rewrite Hmd. unfold zlen. by rewrite Hbp.
    + done.
    + split; [done|]. lia.
  - split; unfold count; cbn [rg_blocks rg_state_flags rg_biomes rg_block_entity_types rg_blocks_domain]; [done..|].
    split; apply Forall_forall.
    + intros b Hb. rewrite Forall_forall in Htyped. destruct (Htyped b Hb). by destruct (Hblock b Hb).
    + intros f Hf. apply existsb_false in Efl. rewrite Forall_forall in Efl. rewrite Forall_forall in Hbytes.
      specialize (Efl f Hf). destruct (Hbytes f Hf). cbn in Efl. apply Z.ltb_ge in Efl. lia.
Qed.

(** ** Resolving palette entries *)

Lemma field_total c k : ∃ v, field c k = Ok v.
Proof.
  unfold field. destruct (binary_search _ c) as [i|i] eqn:E; [|eauto].
  apply binary_search_found in E as (a&->&_). mstep. eauto.
Qed.

(** The entry of a sorted compound is found under its name. *)
Lemma field_found c k v : sorted_entries c → (k, v) ∈ c → field c k = Ok (Some v).
Proof.
  intros Hs Hin. unfold field. destruct (search_sorted Nbt.name c (k, v) Hs Hin) as (i&Hi&Hl).
  erewrite binary_search_ext, Hi, Hl; [by mstep|]. intros e. symmetry. exact (key_cmp_antisym (Nbt.name e) k).
Qed.

Lemma split_colon_position s a b : split_colon s = Some (a, b) → colon_position s = Some (length a).
Proof.
  revert a. induction s as [|u s IH]; intros a; [done|]. cbn. destruct (u =? 58); [by intros [= <- <-]|].
  destruct (split_colon s) as [[a' b']|]; [|done]. cbn. intros [= <- <-]. by rewrite (IH a' eq_refl).
Qed.

Lemma identifier_units_of s : identifier s = true → identifier_units s = ([], s).
Proof.
  unfold identifier, identifier_units. destruct (split_colon s) as [[a b]|] eqn:E; [|done].
  intros Hn. rewrite (split_colon_position s a b E). destruct a as [|u a]; [done|]. done.
Qed.

(** A name without a colon means the one with the default namespace. *)
Lemma identifier_units_default s : colon_position s = None → identifier_units s = (DEFAULT_PREFIX, s) ∧
  identifier_units (DEFAULT_PREFIX ++ s) = ([], DEFAULT_PREFIX ++ s).
Proof. intros E. unfold identifier_units. by rewrite E. Qed.

Lemma compare_ascii_eq a b : compare_ascii a b = Eq ↔ a = b.
Proof. exact (key_cmp_eq (K := list Z) a b). Qed.
Lemma compare_identifier_eq a prefix units : compare_identifier a prefix units = Eq ↔ a = prefix ++ units.
Proof. exact (key_cmp_eq (K := list Z) a (prefix ++ units)). Qed.

Lemma list_find_value (values : list text) i v :
  NoDup values → values !! i = Some v → list_find (λ name, compare_ascii name v = Eq) values = Some (i, v).
Proof.
  intros Hn Hi. pose proof (λ w, compare_ascii_eq w v) as Heq.
  apply list_find_Some. split_and!; [done|by apply Heq|]. intros j w Hj Hlt Hw. apply Heq in Hw as ->.
  pose proof (NoDup_lookup _ _ _ _ Hn Hi Hj). lia.
Qed.

Lemma property_index_cases c p : property_ok p → ∃ i used, property_index c p = Ok (i, used) ∧ (i < length (p_values p))%nat.
Proof.
  intros [_ _ Hd]. unfold property_index. destruct (field_total c (p_name p)) as [v ->]. mstep.
  destruct v as [[]|]; eauto. destruct (list_find _ _) as [[i w]|] eqn:E; eauto.
  apply list_find_Some in E as (Hi&_). apply lookup_lt_Some in Hi. eauto.
Qed.

(** The properties of a chosen state, in the form they are saved in. *)
Definition property_entry (p : Property) (i : nat) : CompoundEntry := (p_name p, String_ (nth i (p_values p) [])).
Definition block_form (b : Block) (sel : list nat) : Tag :=
  Compound [(id_key, String_ (b_id b)); (properties_key, Compound (zip_with property_entry (b_properties b) sel))].

Lemma property_index_found c p i :
  property_ok p → (i < length (p_values p))%nat → sorted_entries c → property_entry p i ∈ c → property_index c p = Ok (i, false).
Proof.
  intros [_ (_&Hn&_) _] Hi Hs Hin. unfold property_index. rewrite (field_found c _ _ Hs Hin). mstep.
  rewrite (list_find_value (p_values p) i (nth i (p_values p) [])); [done..|].
  destruct (lookup_lt_ok (p_values p) i Hi) as [v Hv]. rewrite nth_lookup. by rewrite Hv.
Qed.

Lemma product_pos props : Forall property_ok props → 1 ≤ product props.
Proof.
  induction 1 as [|p props [_ (_&_&Hl) _] _ IH]; cbn [product]; [lia|]. unfold zlen. nia.
Qed.

Lemma radix_bounds acc m i len p u :
  0 ≤ acc < m → 0 ≤ i < len → 1 ≤ p → m * (len * p) ≤ u → m * len ≤ u ∧ 0 ≤ acc * len + i < m * len ∧ m * len * p ≤ u.
Proof. intros Ha Hi Hp Hu. assert (0 ≤ m * len) by nia. split_and!; nia. Qed.

Lemma resolve_properties_cases c props acc used m :
  Forall property_ok props → 0 ≤ acc < m → m * product props ≤ usize_max →
  ∃ sel used', resolve_properties c props acc used = Ok (ordinal_from acc props sel, used') ∧ choice props sel.
Proof.
  intros Hok. revert acc used m. induction Hok as [|p props Hp Hok IH]; intros acc used m Ha Hm.
  { exists [], used. split; [done|constructor]. }
  pose proof (product_pos props Hok). cbn [resolve_properties product] in *.
  destruct (property_index_cases c p Hp) as (i&u&->&Hi). mstep.
  destruct (radix_bounds acc m (Z.of_nat i) (zlen (p_values p)) (product props) usize_max) as (?&?&?); [done|unfold zlen; lia|done..|].
  rewrite (ordinal_step_ok _ _ _ m) by (done || unfold zlen; lia). mstep.
  destruct (IH (acc * zlen (p_values p) + Z.of_nat i) (used || u) (m * zlen (p_values p))) as (sel&u'&->&Hc); [done..|].
  exists (i :: sel), u'. split; [done|]. by constructor.
Qed.

Lemma resolve_properties_found c props sel acc used m :
  Forall property_ok props → choice props sel → 0 ≤ acc < m → m * product props ≤ usize_max → sorted_entries c →
  (∀ e, e ∈ zip_with property_entry props sel → e ∈ c) →
  resolve_properties c props acc used = Ok (ordinal_from acc props sel, used).
Proof.
  intros Hok Hc. revert acc m. induction Hc as [|p i props sel Hi Hc IH]; intros acc m Ha Hm Hs Hin; [done|].
  apply Forall_cons in Hok as [Hp Hok]. pose proof (product_pos props Hok). cbn [resolve_properties product zip_with] in *.
  rewrite (property_index_found c p i) by (try done; apply Hin; by left). mstep.
  destruct (radix_bounds acc m (Z.of_nat i) (zlen (p_values p)) (product props) usize_max) as (?&?&?); [done|unfold zlen; lia|done..|].
  rewrite (ordinal_step_ok _ _ _ m) by (done || unfold zlen; lia). mstep. rewrite orb_false_r.
  apply (IH Hok _ (m * zlen (p_values p))); [done..|]. intros e He. apply Hin. by right.
Qed.

Lemma zip_entries_sorted props sel :
  sorted_keys p_name props → choice props sel → sorted_entries (zip_with property_entry props sel).
Proof.
  unfold sorted_entries, sorted_keys. intros Hs Hc.
  replace (Nbt.name <$> zip_with property_entry props sel) with (p_name <$> props); [done|].
  induction Hc as [|p i props sel Hi Hc IH]; [done|]. cbn in *. apply StronglySorted_inv in Hs as [Hs _]. f_equal. by apply IH.
Qed.

(** The position of a choice among the states of its block: the last property
    varies fastest. *)
Fixpoint place_of (props : list Property) (sel : list nat) : Z :=
  match props, sel with
  | p :: props, i :: sel => Z.of_nat i * product props + place_of props sel
  | _, _ => 0
  end.
Lemma ordinal_place props sel : choice props sel → ordinal_from 0 props sel = place_of props sel.
Proof.
  intros Hc. induction Hc as [|p i props sel Hi Hc IH]; [done|]. cbn [ordinal_from place_of]. rewrite ordinal_shift by done. by rewrite IH.
Qed.

(** What a saved property means: the value it names, the default when it is
    absent, and the default, recovered, when it is anything else. *)
Inductive property_reads (c : list CompoundEntry) (p : Property) : nat → bool → Prop :=
| reads_value i v : (p_name p, String_ v) ∈ c → p_values p !! i = Some v → property_reads c p i false
| reads_default : (∀ t, (p_name p, t) ∉ c) → property_reads c p (p_default_index p) false
| reads_recovered t : (p_name p, t) ∈ c → (∀ v, t = String_ v → v ∉ p_values p) → property_reads c p (p_default_index p) true.

Lemma field_in c k v : field c k = Ok (Some v) → (k, v) ∈ c.
Proof.
  unfold field. destruct (binary_search _ c) as [i|i] eqn:E; [|done]. apply binary_search_found in E as (e&Hi&He). rewrite Hi. mstep.
  intros [= <-]. assert (k = Nbt.name e) as ->.
  { apply compare_ascii_eq. cbn beta in He. destruct (compare_ascii k (Nbt.name e)); [done|by cbn in He..]. }
  apply list_elem_of_lookup_2 in Hi. by destruct e.
Qed.

Lemma property_index_reads c p : property_ok p → sorted_entries c →
  ∃ i used, property_index c p = Ok (i, used) ∧ property_reads c p i used ∧ (i < length (p_values p))%nat.
Proof.
  intros [_ _ Hd] Hs. unfold property_index. destruct (field_total c (p_name p)) as [o Ho]. rewrite Ho. mstep. destruct o as [t|].
  - apply field_in in Ho.
    assert (Hrec : (∀ v, t = String_ v → v ∉ p_values p) → property_reads c p (p_default_index p) true) by (intros; by eapply reads_recovered).
    destruct t; try (eexists _, _; split; [reflexivity|]; split; [by apply Hrec|done]).
    destruct (list_find _ _) as [[i w]|] eqn:E; (eexists _, _; split; [reflexivity|]).
    + apply list_find_Some in E as (Hi&Hw&_). apply compare_ascii_eq in Hw as ->. split; [by eapply reads_value|by eapply lookup_lt_Some].
    + split; [|done]. apply Hrec. intros w Hw Hin; injection Hw as ->. apply list_find_None in E. rewrite Forall_forall in E. apply (E w Hin). by apply compare_ascii_eq.
  - eexists _, _. split; [reflexivity|]. split; [|done]. apply reads_default. intros t Hin. by rewrite (field_found c _ _ Hs Hin) in Ho.
Qed.

Lemma resolve_properties_reads c props acc used m :
  Forall property_ok props → 0 ≤ acc < m → m * product props ≤ usize_max → sorted_entries c →
  ∃ sel us, resolve_properties c props acc used = Ok (ordinal_from acc props sel, used || existsb Datatypes.id us) ∧
    choice props sel ∧ Forall3 (property_reads c) props sel us.
Proof.
  intros Hok. revert acc used m. induction Hok as [|p props Hp Hok IH]; intros acc used m Ha Hm Hs.
  { exists [], []. rewrite orb_false_r. split_and!; [done|constructor|constructor]. }
  pose proof (product_pos props Hok). cbn [resolve_properties product] in *.
  destruct (property_index_reads c p Hp Hs) as (i&u&->&Hu&Hi). mstep.
  destruct (radix_bounds acc m (Z.of_nat i) (zlen (p_values p)) (product props) usize_max) as (?&?&?); [done|unfold zlen; lia|done..|].
  rewrite (ordinal_step_ok _ _ _ m) by (done || unfold zlen; lia). mstep.
  destruct (IH (acc * zlen (p_values p) + Z.of_nat i) (used || u) (m * zlen (p_values p))) as (sel&us&->&Hc&Hus); [done..|].
  exists (i :: sel), (u :: us). cbn [existsb ordinal_from]. rewrite orb_assoc. split_and!; [done|by constructor|by constructor].
Qed.

Section snapshot.
Context (r : ChunkRegistrySnapshot).
Hypothesis Hr : registry_ok r.

Lemma found_in_range b i : b ∈ rg_blocks r → i ∈ states b → 0 ≤ i < count r.
Proof.
  intros Hb Hi. apply (elem_of_seqZ 0 (count r)). rewrite <- (rk_states r Hr). apply list_elem_of_bind. eauto.
Qed.

Lemma block_at b : b ∈ rg_blocks r → block_ok b.
Proof. pose proof (rk_blocks r Hr) as Hf. rewrite Forall_forall in Hf. apply Hf. Qed.

Lemma air_in_range : 0 ≤ rg_air r < count r.
Proof. destruct (rk_air r Hr) as (b&f&Hb&_&<-&_). apply (found_in_range b); [done|]. by apply default_in_states, block_at. Qed.

Lemma resolve_block_cases b props : b ∈ rg_blocks r → ∃ res, resolve_block b props = Ok res ∧ id res ∈ states b.
Proof.
  intros Hb. pose proof (block_at b Hb) as Hok. pose proof (default_in_states b Hok). unfold resolve_block.
  destruct (length (b_properties b) =? 0)%nat; [eauto|]. destruct props as [[]|]; eauto.
  destruct (resolve_properties_cases entries (b_properties b) 0 false 1) as (sel&u&->&Hc); [apply Hok|lia|destruct (bk_states b Hok); lia|]. mstep.
  pose proof (ordinal_bound _ _ Hc). destruct (bk_states b Hok) as [Hst _].
  destruct (lookup_lt_ok (states b) (Z.to_nat (ordinal_from 0 (b_properties b) sel))) as [s Hs]; [unfold zlen in Hst; lia|].
  rewrite Hs. mstep. eexists. split; [done|]. by eapply list_elem_of_lookup_2.
Qed.

Lemma resolve_name_cases name props : ∃ res, resolve_name r name props = Ok res ∧ 0 ≤ id res < count r.
Proof.
  unfold resolve_name. destruct (identifier_units name) as [prefix units].
  destruct (binary_search _ _) as [i|i] eqn:E; [|eexists; split; [done|apply air_in_range]].
  apply binary_search_found in E as (b&Hi&_). rewrite Hi. mstep. apply list_elem_of_lookup_2 in Hi.
  destruct (resolve_block_cases b props Hi) as (res&->&Hres). exists res. split; [done|]. by apply (found_in_range b).
Qed.

Lemma block_state_cases t : ∃ res, block_state r t = Ok res ∧ 0 ≤ id res < count r.
Proof.
  assert (Hair : ∃ res, Ok (unknown_block r) = Ok (E := False) res ∧ 0 ≤ id res < count r) by (eexists; split; [done|apply air_in_range]).
  destruct t; try exact Hair; cbn [block_state]; [apply resolve_name_cases|].
  destruct (field_total entries id_key) as [v ->]. mstep. destruct v as [[]|]; try exact Hair.
  destruct (field_total entries properties_key) as [p ->]. mstep. apply resolve_name_cases.
Qed.

(** A block is found under its name. *)
Lemma name_resolves b props : b ∈ rg_blocks r → resolve_name r (b_id b) props = resolve_block b props.
Proof.
  intros Hb. unfold resolve_name. rewrite (identifier_units_of (b_id b) (bk_id b (block_at b Hb))).
  destruct (search_sorted b_id (rg_blocks r) b (rk_sorted r Hr) Hb) as (k&Hk&Hl).
  rewrite (binary_search_ext _ (λ c, key_cmp (b_id c) (b_id b))) by done. rewrite Hk, Hl. by mstep.
Qed.
Definition full_name (name : NbtString) : text := (identifier_units name).1 ++ (identifier_units name).2.
Lemma name_unknown name props : (∀ b, b ∈ rg_blocks r → b_id b ≠ full_name name) → resolve_name r name props = Ok (unknown_block r).
Proof.
  intros Hno. unfold resolve_name, full_name in *. destruct (identifier_units name) as [prefix units]. cbn [fst snd] in Hno.
  destruct (binary_search _ _) as [i|i] eqn:E; [|done]. apply binary_search_found in E as (b&Hi&Hb).
  destruct (Hno b); [by eapply list_elem_of_lookup_2|]. by apply compare_identifier_eq.
Qed.
Definition saved_block (name : NbtString) (properties : list CompoundEntry) : Tag :=
  Compound [(id_key, String_ name); (properties_key, Compound properties)].
Lemma saved_block_state name properties : block_state r (saved_block name properties) = resolve_name r name (Some (Compound properties)).
Proof.
  cbn [saved_block block_state].
  assert (Hs : sorted_entries [(id_key, String_ name); (properties_key, Compound properties)]).
  { unfold sorted_entries, sorted_keys. cbn. repeat constructor. }
  rewrite (field_found _ id_key (String_ name) Hs) by (by left). mstep.
  rewrite (field_found _ properties_key _ Hs) by (right; by left). by mstep.
Qed.

(** A block saved with any properties. *)
Lemma saved_block_reads b c : b ∈ rg_blocks r → sorted_entries c →
  ∃ sel us i, Forall3 (property_reads c) (b_properties b) sel us ∧ choice (b_properties b) sel ∧
    states b !! Z.to_nat (place_of (b_properties b) sel) = Some i ∧
    block_state r (saved_block (b_id b) c) = Ok {| id := i; used_fallback := existsb Datatypes.id us |}.
Proof.
  intros Hb Hs. pose proof (block_at b Hb) as Hok. destruct (bk_states b Hok) as [Hst Hmax].
  destruct (resolve_properties_reads c (b_properties b) 0 false 1) as (sel&us&Hrp&Hc&Hus); [apply Hok|lia|lia|done|].
  pose proof (ordinal_bound _ _ Hc) as Hbound.
  destruct (lookup_lt_ok (states b) (Z.to_nat (ordinal_from 0 (b_properties b) sel))) as [s Hl]; [unfold zlen in Hst; lia|].
  exists sel, us, s. rewrite <- ordinal_place by done. split_and!; [done..|].
  rewrite saved_block_state, name_resolves by done. unfold resolve_block.
  destruct (b_properties b) as [|p props] eqn:Ep; cbn [length Nat.eqb].
  - pose proof (bk_default b Hok) as Hd. rewrite Ep in Hd. inversion Hus; subst. cbn in Hd, Hl. by simplify_eq.
  - rewrite Hrp. mstep. rewrite Hl. by mstep.
Qed.

(** The saved form of a choice of values. *)
Lemma block_form_resolves b sel :
  b ∈ rg_blocks r → choice (b_properties b) sel →
  ∃ i, states b !! Z.to_nat (place_of (b_properties b) sel) = Some i ∧ block_state r (block_form b sel) = Ok {| id := i; used_fallback := false |}.
Proof.
  intros Hb Hc. pose proof (block_at b Hb) as Hok. destruct (bk_states b Hok) as [Hst Hmax]. pose proof (ordinal_bound _ _ Hc) as Hbound.
  destruct (lookup_lt_ok (states b) (Z.to_nat (ordinal_from 0 (b_properties b) sel))) as [i Hi]; [unfold zlen in Hst; lia|].
  exists i. rewrite <- ordinal_place by done. split; [done|].
  change (block_form b sel) with (saved_block (b_id b) (zip_with property_entry (b_properties b) sel)).
  rewrite saved_block_state, name_resolves by done. unfold resolve_block.
  destruct (b_properties b) as [|p props] eqn:Ep; cbn [length Nat.eqb].
  - pose proof (bk_default b Hok) as Hd. rewrite Ep in Hd. inversion Hc; subst. cbn in Hd, Hi. by simplify_eq.
  - rewrite <- Ep in *. rewrite (resolve_properties_found _ (b_properties b) sel 0 false 1); [|apply Hok|done|lia|lia| |done].
    + mstep. rewrite Hi. by mstep.
    + apply zip_entries_sorted; [apply Hok|done].
Qed.

Lemma biome_cases t : ∃ res, biome r t = Ok res ∧ 0 ≤ id res < zlen (rg_biomes r).
Proof.
  destruct (rk_biomes r Hr) as ([_ Hids _]&_&Hpl). destruct t; cbn [biome]; eauto.
  destruct (identifier_units v) as [prefix units]. destruct (binary_search _ _) as [i|i] eqn:E; [|eauto].
  apply binary_search_found in E as (b&Hi&_). rewrite Hi. mstep. apply list_elem_of_lookup_2 in Hi.
  eexists. split; [done|]. cbn. apply (elem_of_seqZ 0 (zlen (rg_biomes r))). rewrite <- Hids. apply list_elem_of_fmap. eauto.
Qed.

Lemma biome_found b : b ∈ rg_biomes r → biome r (String_ (n_id b)) = Ok {| id := protocol_id b; used_fallback := false |}.
Proof.
  intros Hb. destruct (rk_biomes r Hr) as ([Hs _ Hn]&_&_). rewrite Forall_forall in Hn. cbn [biome].
  rewrite (identifier_units_of (n_id b)) by (by apply Hn). destruct (search_sorted n_id (rg_biomes r) b Hs Hb) as (k&Hk&Hl).
  rewrite (binary_search_ext _ (λ c, key_cmp (n_id c) (n_id b))) by done. rewrite Hk, Hl. by mstep.
Qed.
Lemma biome_unknown t : (∀ name b, t = String_ name → b ∈ rg_biomes r → n_id b ≠ full_name name) →
  biome r t = Ok {| id := rg_plains r; used_fallback := true |}.
Proof.
  intros Hno. destruct t; try done. cbn [biome]. specialize (Hno v). unfold full_name in Hno. destruct (identifier_units v) as [prefix units].
  cbn [fst snd] in Hno. destruct (binary_search _ _) as [i|i] eqn:E; [|done]. apply binary_search_found in E as (b&Hi&Hb).
  destruct (Hno b); [done|by eapply list_elem_of_lookup_2|]. by apply compare_identifier_eq.
Qed.
End snapshot.

(** ** Properties *)

(** C24. Loading the registry never panics, and what it accepts is a registry:
    each block has one state per combination of its property values, the blocks'
    states are all the state ids of the domain, each exactly once, names are
    sorted and unique, every state has a light material, air is an air state, and
    the flags of a state are those of the table with its block's tags. *)
Theorem registry_load_sound `{Allocator} limits data biomes entities counts lighting manifest configuration :
  tables_typed limits data → bytes_ok lighting →
  (∃ e, load_tables limits data biomes entities counts lighting manifest configuration = Err e) ∨
  (∃ r, load_tables limits data biomes entities counts lighting manifest configuration = Ok r ∧ registry_ok r ∧
     built_from data biomes entities r ∧ rg_manifest_sha256 r = manifest ∧ rg_configuration_sha256 r = configuration).
Proof. apply load_cases. Qed.

(** C23. Palette entries resolve.  On a loaded registry every tag resolves to a
    state of the domain.  A block's name with one value per property resolves,
    without recovery, to the state at the mixed-radix position of the values, the
    last property fastest, and every state of the domain is reached in this way.
    With any other properties, a property that is absent takes its default, and
    one that is not a value of it takes its default and is reported as recovered;
    a name alone is the block's default state, and a name that no block has is
    air, recovered.  A biome's name resolves to its protocol id, each id of the
    domain is that of a biome, and any other tag is plains, recovered.  A name
    without a namespace is one of [minecraft:]. *)
Theorem palette_entries_resolve r :
  registry_ok r →
  (∀ t, ∃ res, block_state r t = Ok res ∧ 0 ≤ id res < count r) ∧
  (∀ b sel, b ∈ rg_blocks r → choice (b_properties b) sel →
     ∃ i, states b !! Z.to_nat (place_of (b_properties b) sel) = Some i ∧
       block_state r (block_form b sel) = Ok {| id := i; used_fallback := false |}) ∧
  (∀ i, 0 ≤ i < count r → ∃ b sel, b ∈ rg_blocks r ∧ choice (b_properties b) sel ∧
     states b !! Z.to_nat (place_of (b_properties b) sel) = Some i ∧
     block_state r (block_form b sel) = Ok {| id := i; used_fallback := false |}) ∧
  (∀ b c, b ∈ rg_blocks r → sorted_entries c →
     ∃ sel us i, Forall3 (property_reads c) (b_properties b) sel us ∧ choice (b_properties b) sel ∧
       states b !! Z.to_nat (place_of (b_properties b) sel) = Some i ∧
       block_state r (saved_block (b_id b) c) = Ok {| id := i; used_fallback := existsb Datatypes.id us |}) ∧
  (∀ b, b ∈ rg_blocks r → block_state r (String_ (b_id b)) = Ok {| id := default_state b; used_fallback := false |}) ∧
  (∀ name, (∀ b, b ∈ rg_blocks r → b_id b ≠ full_name name) → ∀ c,
     block_state r (String_ name) = Ok (unknown_block r) ∧ block_state r (saved_block name c) = Ok (unknown_block r)) ∧
  (∀ t, ∃ res, biome r t = Ok res ∧ 0 ≤ id res < zlen (rg_biomes r)) ∧
  (∀ b, b ∈ rg_biomes r → biome r (String_ (n_id b)) = Ok {| id := protocol_id b; used_fallback := false |}) ∧
  (∀ i, 0 ≤ i < zlen (rg_biomes r) → ∃ b, b ∈ rg_biomes r ∧ protocol_id b = i) ∧
  (∀ t, (∀ name b, t = String_ name → b ∈ rg_biomes r → n_id b ≠ full_name name) →
     biome r t = Ok {| id := rg_plains r; used_fallback := true |}) ∧
  (∀ name, colon_position name = None → block_state r (String_ name) = block_state r (String_ (DEFAULT_PREFIX ++ name))).
Proof.
  intros Hr. split_and!.
  - intros t. by apply block_state_cases.
  - intros b sel Hb Hc. by apply block_form_resolves.
  - intros i Hi. apply (elem_of_seqZ 0 (count r)) in Hi. rewrite <- (rk_states r Hr) in Hi. apply list_elem_of_bind in Hi as (b&Hi&Hb).
    destruct (bk_states b (block_at r Hr b Hb)) as [Hst _]. apply list_elem_of_lookup in Hi as [n Hn].
    destruct (ordinal_onto (b_properties b) (Z.of_nat n)) as (sel&Hc&Ho).
    { rewrite <- Hst. apply lookup_lt_Some in Hn. unfold zlen. lia. }
    destruct (block_form_resolves r Hr b sel Hb Hc) as (i'&Hi'&Hs). rewrite <- ordinal_place, Ho, Nat2Z.id in Hi' by done.
    simplify_eq. exists b, sel. rewrite <- ordinal_place, Ho, Nat2Z.id by done. by split_and!.
  - intros b c Hb Hs. by apply saved_block_reads.
  - intros b Hb. cbn [block_state]. rewrite name_resolves by done. unfold resolve_block. by destruct (_ =? _)%nat.
  - intros name Hno c. rewrite saved_block_state by done. split; by apply name_unknown.
  - intros t. by apply biome_cases.
  - intros b Hb. by apply biome_found.
  - intros i Hi. destruct (rk_biomes r Hr) as ([_ Hids _]&_&_). apply (elem_of_seqZ 0 (zlen (rg_biomes r))) in Hi. rewrite <- Hids in Hi.
    apply list_elem_of_fmap in Hi as (b&->&Hb). by exists b.
  - intros t Hno. by apply biome_unknown.
  - intros name Hn. destruct (identifier_units_default name Hn) as [E1 E2]. cbn [block_state]. unfold resolve_name. by rewrite E1, E2.
Qed.

(** ** A small registry: air, bedrock and a lamp with two properties *)

Definition lamp_name : text := DEFAULT_PREFIX ++ [108; 97; 109; 112].
Definition facing : Property := {| p_name := [102]; p_values := [[110]; [115]; [117; 112]]; p_default_index := 1 |}.
Definition lit : Property := {| p_name := [108; 105; 116]; p_values := [[48]; [49]]; p_default_index := 0 |}.
Definition small_blocks : Blocks := {|
  bs_state_count := 8;
  bs_state_flags := [1; 0; 0; 0; 0; 0; 0; 0];
  bs_blocks := [
    {| b_id := lamp_name; heightmap_tags := 3; default_state := 3; b_properties := [facing; lit]; states := [7; 2; 3; 4; 5; 6] |};
    {| b_id := air_name; heightmap_tags := 0; default_state := 0; b_properties := []; states := [0] |};
    {| b_id := bedrock_name; heightmap_tags := 3; default_state := 1; b_properties := []; states := [1] |}];
|}.
Definition small_biomes : list NamedId := [{| n_id := plains_name; protocol_id := 0 |}].
Definition small_entities : list NamedId := [{| n_id := lamp_name; protocol_id := 0 |}].
Definition small_limits : RegistryLoadLimits :=
  {| limit_blocks := 16; limit_states := 16; limit_biomes := 16; limit_block_entity_types := 16; limit_light_faces := 16 |}.
(** Air is clear, bedrock is opaque, and the lit lamps (the odd ordinals) shine. *)
Definition small_lighting : list Z :=
  MAGIC ++ [8; 0; 0; 0; 2; 0; 0; 0] ++
  replicate 16 0 ++ ([0; 15; 1; 0] ++ concat (replicate 6 [1; 0])) ++
  ([15; 0] ++ replicate 14 0) ++ replicate 16 0 ++ ([15; 0] ++ replicate 14 0) ++ replicate 16 0 ++ ([15; 0] ++ replicate 14 0) ++ replicate 16 0 ++
  [14].

Definition small_registry : ChunkRegistrySnapshot.
Proof.
  let r := eval vm_compute in (load_tables small_limits small_blocks small_biomes small_entities (3, 8) small_lighting [1] [2]) in
  match r with Ok ?s => exact s end.
Defined.

Lemma small_loaded : load_tables small_limits small_blocks small_biomes small_entities (3, 8) small_lighting [1] [2] = Ok small_registry.
Proof. vm_compute. reflexivity. Qed.

Lemma small_typed : tables_typed small_limits small_blocks ∧ bytes_ok small_lighting.
Proof.
  split; [split; [by vm_compute..| |]|].
  - unfold is_byte, in_u. repeat constructor; lia.
  - by apply (bool_decide_unpack (Forall (λ b, 0 ≤ heightmap_tags b ∧ Forall (λ i, 0 ≤ i) (states b)) (bs_blocks small_blocks))); vm_compute.
  - by apply (bool_decide_unpack (Forall (λ b, 0 ≤ b < 256) small_lighting)); vm_compute.
Qed.

Lemma small_ok : registry_ok small_registry.
Proof.
  destruct small_typed as [Ht Hl].
  destruct (load_cases small_limits small_blocks small_biomes small_entities (3, 8) small_lighting [1] [2] Ht Hl) as [[e He]|(r&E&Hr&_)];
    [by rewrite small_loaded in He|]. rewrite small_loaded in E. injection E as <-. done.
Qed.

(** [lamp{facing: up, lit: 1}] is state 6, and an unlit unknown facing falls back to [s]. *)
Example lamp_up : block_state small_registry (Compound
  [(id_key, String_ lamp_name); (properties_key, Compound [(p_name facing, String_ [117; 112]); (p_name lit, String_ [49])])])
  = Ok {| id := 6; used_fallback := false |}.
Proof. vm_compute. reflexivity. Qed.
Example lamp_odd : block_state small_registry (Compound
  [(id_key, String_ lamp_name); (properties_key, Compound [(p_name facing, Byte 1)])])
  = Ok {| id := 3; used_fallback := true |}.
Proof. vm_compute. reflexivity. Qed.

Lemma registry_load_sound_witness :
  load_tables small_limits small_blocks small_biomes small_entities (3, 8) small_lighting [1] [2] = Ok small_registry ∧
  ((∃ e, load_tables small_limits small_blocks small_biomes small_entities (3, 8) small_lighting [1] [2] = Err e) ∨
   (∃ r, load_tables small_limits small_blocks small_biomes small_entities (3, 8) small_lighting [1] [2] = Ok r ∧ registry_ok r ∧
      built_from small_blocks small_biomes small_entities r ∧ rg_manifest_sha256 r = [1] ∧ rg_configuration_sha256 r = [2])).
Proof.
  split; [exact small_loaded|].
  exact (registry_load_sound small_limits small_blocks small_biomes small_entities (3, 8) small_lighting [1] [2]
    (proj1 small_typed) (proj2 small_typed)).
Defined.

(** [lamp{facing: up, lit: 0}] is the fifth of the lamp's states. *)
Lemma palette_entries_resolve_witness : ∃ b i, rg_blocks small_registry !! 2%nat = Some b ∧
  states b !! Z.to_nat (place_of (b_properties b) [2; 0]%nat) = Some i ∧ i = 5 ∧
  block_state small_registry (block_form b [2; 0]%nat) = Ok {| id := i; used_fallback := false |}.
Proof.
  destruct (palette_entries_resolve small_registry small_ok) as (_&Hall&_).
  assert (Hb : ∃ b, rg_blocks small_registry !! 2%nat = Some b ∧ choice (b_properties b) [2; 0]%nat ∧ states b !! 4%nat = Some 5 ∧ place_of (b_properties b) [2; 0]%nat = 4).
  { eexists. split; [reflexivity|]. split; [|by vm_compute]. repeat constructor. }
  destruct Hb as (b&Hb&Hc&H5&H4). destruct (Hall b [2; 0]%nat (list_elem_of_lookup_2 _ _ _ Hb) Hc) as (i&Hi&Hs).
  exists b, i. split_and!; [done|done| |done]. rewrite H4 in Hi. change (Z.to_nat 4) with 4%nat in Hi. by rewrite H5 in Hi; injection Hi.
Defined.
