(* ===== verification/ChunkDraft.v ===== *)
(** * Stored chunks: definitions (src/world/storage/chunk.rs)

    The draft of a chunk decoded from its disk NBT: dimension height, status,
    the palettes of every section with their block counts, and the stored light
    rows, under a byte budget. *)

From Stdlib Require Import String Ascii.
From S2P Require Import Prelude.
From S2P Require Import Container.
From S2P Require Import SectionNet.
From S2P Require Import Nbt.
From S2P Require Import NbtNumeric.
From S2P Require Import NbtRead.
From S2P Require Import ChunkRegistry.
Local Open Scope Z_scope.

Definition DATA_VERSION : Z := 5018.

(** The bytes of a string literal. *)
Definition text_of (s : String.string) : text := (λ a, Z.of_N (N_of_ascii a)) <$> list_ascii_of_string s.

(** ** Data *)

Inductive ChunkDecodeError :=
| Truncated | RootType | NbtError (e : Nbt.Error) | NeedsUpgrade (version : Z) | UnsupportedDataVersion (version : Z)
| MissingLevelData | InvalidHeight | MissingPalette | EmptyPalette | InvalidPalette | MissingPackedData
| PackedLength (expected actual : Z) | PaletteIndex (id : Z) | LightLength (len : Z) | AllocationLimit | AllocationFailed
| SectionError (e : Packed.Error).

Record DimensionHeight := { min_section : Z; max_section : Z }.
#[export] Instance dimension_height_eq_dec : EqDecision DimensionHeight.
Proof. solve_decision. Defined.

(** [i32 % 16] has the sign of the dividend, like [Z.rem]. *)
Definition height_new (min_y height : Z) : outcome ChunkDecodeError DimensionHeight :=
  if (height =? 0) || negb (Z.rem min_y 16 =? 0) || negb (height mod 16 =? 0) then Err InvalidHeight
  else
    let min_section := min_y / 16 in
    let max_section := min_section + height / 16 - 1 in
    if (min_section <? -128) || (127 <? max_section) then Err InvalidHeight
    else Ok {| min_section := i_wrap 8 min_section; max_section := i_wrap 8 max_section |}.
Definition height_contains (h : DimensionHeight) (y : Z) : bool := (min_section h <=? y) && (y <=? max_section h).

Inductive ChunkStatus :=
| Empty | StructureStarts | StructureReferences | Biomes | Terrain | Features | InitializeLight | Light | Spawn | Full.
#[export] Instance chunk_status_eq_dec : EqDecision ChunkStatus.
Proof. solve_decision. Defined.

Definition status_name (s : ChunkStatus) : text :=
  text_of match s with
  | Empty => "minecraft:empty"
  | StructureStarts => "minecraft:structure_starts"
  | StructureReferences => "minecraft:structure_references"
  | Biomes => "minecraft:biomes"
  | Terrain => "minecraft:terrain"
  | Features => "minecraft:features"
  | InitializeLight => "minecraft:initialize_light"
  | Light => "minecraft:light"
  | Spawn => "minecraft:spawn"
  | Full => "minecraft:full"
  end.
Definition statuses : list ChunkStatus :=
  [Empty; StructureStarts; StructureReferences; Biomes; Terrain; Features; InitializeLight; Light; Spawn; Full].

Record DecodeWarnings := { unknown_status : bool; fallback_palette_entries : Z }.

Record StoredSection := {
  ss_y : Z;
  ss_section : option Section_;
  ss_block_light : option (list Z);
  ss_sky_light : option (list Z);
}.

Record StoredChunkDraft := {
  position : Z * Z;
  data_version : Z;
  status : ChunkStatus;
  last_update : Z;
  inhabited_time : Z;
  light_correct : bool;
  warnings : DecodeWarnings;
  sections : list StoredSection;
  root : list CompoundEntry;
  retained_bytes : Z;
}.

(** ** Fields *)

Definition text_equals (units : list Z) (ascii : text) : bool := bool_decide (units = ascii).
(** The linear lookup of this file, unlike the registry's. *)
Definition find_field (compound : list CompoundEntry) (name : String.string) : option Tag :=
  '(_, e) ← list_find (λ e, text_equals (Nbt.name e) (text_of name)) compound; Some (Nbt.value e).
Definition int_field (compound : list CompoundEntry) (name : String.string) (convert : Tag → option Z) (missing : Z) : Z :=
  default missing (tag ← find_field compound name; convert tag).

Definition status_matches (units : list Z) (value : ChunkStatus) : bool :=
  let bare := drop 10 (status_name value) in
  text_equals units (status_name value) || text_equals units bare ||
  (bool_decide (units !! 0%nat = Some 58) && text_equals (drop 1 units) bare).

(** ** Collections *)

Inductive Collection := Tags (values : list Tag) | Bytes (values : list Z) | Ints (values : list Z) | Longs (values : list Z).
Definition collection_new (t : Tag) : option Collection :=
  match t with
  | List_ values => Some (Tags values)
  | ByteArray values => Some (Bytes values)
  | IntArray values => Some (Ints values)
  | LongArray values => Some (Longs values)
  | _ => None
  end.
Definition collection_len (c : Collection) : nat :=
  match c with Tags l => length l | Bytes l | Ints l | Longs l => length l end.
Definition collection_long (c : Collection) (index : nat) : option Z :=
  match c with
  | Bytes l | Ints l | Longs l => l !! index
  | Tags l =>
      value ← l !! index;
      match value with
      | Float bits => Some (saturate f32_format 64 (trunc_of f32_format) bits)
      | Double bits => Some (saturate f64_format 64 (trunc_of f64_format) bits)
      | value => as_long value
      end
  end.

(** ** Decoding under a budget *)

Record DecodeBudget := { remaining : Z; retained : Z }.

(** [size_of::<StoredSection>()] *)
Class ChunkLayout := { row_size : Z; row_size_pos : 0 ≤ row_size }.

Definition charge (b : DecodeBudget) (bytes : Z) : outcome ChunkDecodeError DecodeBudget :=
  rest ← ok_or (checked_sub (remaining b) bytes) AllocationLimit;
  Ok {| remaining := rest; retained := retained b |}.
Definition retain (b : DecodeBudget) (bytes : Z) : DecodeBudget :=
  {| remaining := remaining b; retained := retained b + bytes |}.

Section decode.
Context `{Allocator, ChunkLayout}.

(** On an empty vector; answers its capacity. *)
Definition reserve_temporary (b : DecodeBudget) (size count : Z) : outcome ChunkDecodeError (Z * DecodeBudget) :=
  bytes ← ok_or (checked_mul count size) AllocationLimit;
  b ← charge b bytes;
  capacity ← ok_or (reserve_exact size count) AllocationFailed;
  let actual := capacity * size in
  b ← (if bytes <? actual then charge b (actual - bytes) else Ok b);
  Ok (capacity, b).
Definition reserve (b : DecodeBudget) (size count : Z) : outcome ChunkDecodeError DecodeBudget :=
  '(capacity, b) ← reserve_temporary b size count;
  Ok (retain b (capacity * size)).

Definition light (value : option Tag) (b : DecodeBudget) : outcome ChunkDecodeError (option (list Z) * DecodeBudget) :=
  match value with
  | Some (ByteArray bytes) =>
      if negb (zlen bytes =? 2048) then Err (LightLength (zlen bytes))
      else b ← reserve b 1 2048; Ok (Some (u_wrap 8 <$> bytes), b)
  | _ => Ok (None, b)
  end.

(** The registry and default of a kind of palette. *)
Definition palette_domain (r : ChunkRegistrySnapshot) (k : ContainerKind) : Container.Registry * Z :=
  match k with
  | Container.Blocks => (rg_blocks_domain r, rg_air r)
  | Container.Biomes => (rg_biomes_domain r, rg_plains r)
  end.

Definition resolve_entry (r : ChunkRegistrySnapshot) (k : ContainerKind) (t : Tag) : outcome False ResolvedId :=
  match k with Container.Blocks => block_state r t | Container.Biomes => biome r t end.

Definition warn (w : DecodeWarnings) (fallback : bool) : DecodeWarnings :=
  {| unknown_status := unknown_status w;
     fallback_palette_entries := Z.min usize_max (fallback_palette_entries w + (if fallback then 1 else 0)) |}.

Fixpoint resolve_entries (r : ChunkRegistrySnapshot) (k : ContainerKind) (entries : list Tag) (w : DecodeWarnings)
    : outcome ChunkDecodeError (list Z * DecodeWarnings) :=
  match entries with
  | [] => Ok ([], w)
  | t :: entries =>
      resolved ← lift (resolve_entry r k t);
      '(ids, w) ← resolve_entries r k entries (warn w (used_fallback resolved));
      Ok (id resolved :: ids, w)
  end.

(** Primitive arrays are palettes of defaults. *)
Definition resolve_palette (r : ChunkRegistrySnapshot) (k : ContainerKind) (palette : Collection) (w : DecodeWarnings)
    : outcome ChunkDecodeError (list Z * DecodeWarnings) :=
  match palette with
  | Tags entries => resolve_entries r k entries w
  | other => Ok (replicate (collection_len other) (snd (palette_domain r k)), Nat.iter (collection_len other) (λ w, warn w true) w)
  end.

(** [words.long(index / per_word).unwrap() as u64 >> (index % per_word * bits) & mask] *)
Definition slot_at (words : Collection) (bits index : nat) : outcome ChunkDecodeError Z :=
  let per_word := (64 / bits)%nat in
  word ← unwrap (collection_long words (index / per_word));
  Ok (u_wrap 32 (Z.land (Z.shiftr (u_wrap 64 word) (Z.of_nat (index mod per_word * bits))) (2 ^ Z.of_nat bits - 1))).

Fixpoint unpack_ids (words : Collection) (ids : list Z) (bits index n : nat) : outcome ChunkDecodeError (list Z) :=
  match n with
  | O => Ok []
  | S n' =>
      slot ← slot_at words bits index;
      v ← ok_or (ids !! Z.to_nat slot) (PaletteIndex slot);
      rest ← unpack_ids words ids bits (S index) n';
      Ok (v :: rest)
  end.

Definition stored_bits (k : ContainerKind) (ids : list Z) : nat :=
  Nat.max (Z.to_nat (bit_len (zlen ids - 1))) (match k with Container.Blocks => 4 | Container.Biomes => 1 end)%nat.

Definition packed_words (k : ContainerKind) (container : list CompoundEntry) (ids : list Z) (bits : nat)
    : outcome ChunkDecodeError (list Z) :=
  data ← ok_or (tag ← find_field container "data"; collection_new tag) MissingPackedData;
  _ ← ensure (forallb (λ index, bool_decide (is_Some (collection_long data index))) (seq 0 (collection_len data))) MissingPackedData;
  let per_word := (64 / bits)%nat in
  let expected := div_ceil (Z.of_nat (kind_len k)) (Z.of_nat per_word) in
  _ ← ensure (Z.of_nat (collection_len data) =? expected) (PackedLength expected (Z.of_nat (collection_len data)));
  unpack_ids data ids bits 0 (kind_len k).

Definition palette (value : option Tag) (k : ContainerKind) (r : ChunkRegistrySnapshot) (b : DecodeBudget) (w : DecodeWarnings)
    : outcome ChunkDecodeError (PalettedContainer * DecodeBudget * DecodeWarnings) :=
  let '(registry, missing) := palette_domain r k in
  match value with
  | Some (Compound container) =>
      palette ← ok_or (tag ← find_field container "palette"; collection_new tag) MissingPalette;
      if (collection_len palette =? 0)%nat then Err EmptyPalette
      else
        '(_, b) ← reserve_temporary b 4 (Z.of_nat (collection_len palette));
        '(ids, w) ← resolve_palette r k palette w;
        match ids with
        | [only] => c ← map_err SectionError (single k registry only); Ok (c, b, w)
        | _ =>
            let bits := stored_bits k ids in
            if (31 <? bits)%nat then Err InvalidPalette
            else
              dense ← packed_words k container ids bits;
              output ← map_err SectionError (from_dense k registry dense (remaining b));
              b ← charge b (heap_bytes output);
              Ok (output, retain b (heap_bytes output), w)
        end
  | _ => c ← map_err SectionError (single k registry missing); Ok (c, b, w)
  end.

(** ** Sections *)

(** The counting loop over [n] blocks from [index]. *)
Fixpoint count_blocks (r : ChunkRegistrySnapshot) (blocks : PalettedContainer) (index n : nat) (non_empty fluids : Z)
    : outcome ChunkDecodeError (Z * Z) :=
  match n with
  | O => Ok (non_empty, fluids)
  | S n' =>
      v ← map_err SectionError (get blocks index);
      flags ← ok_or (state_flags r v) (PaletteIndex v);
      if is_air flags then count_blocks r blocks (S index) n' non_empty fluids
      else count_blocks r blocks (S index) n' (non_empty + 1) (fluids + (if has_fluid flags then 1 else 0))
  end.

Definition decode_section (entry : list CompoundEntry) (r : ChunkRegistrySnapshot) (b : DecodeBudget) (w : DecodeWarnings)
    : outcome ChunkDecodeError (Section_ * DecodeBudget * DecodeWarnings) :=
  '(blocks, b, w) ← palette (find_field entry "block_states") Container.Blocks r b w;
  '(biomes, b, w) ← palette (find_field entry "biomes") Container.Biomes r b w;
  '(non_empty, fluids) ← count_blocks r blocks 0 4096 0 0;
  Ok ({| counts := {| non_empty_blocks := non_empty; fluid_blocks := fluids |}; blocks := blocks; biomes := biomes |}, b, w).

Definition decode_row (entry : list CompoundEntry) (r : ChunkRegistrySnapshot) (height : DimensionHeight) (b : DecodeBudget)
    (w : DecodeWarnings) : outcome ChunkDecodeError (StoredSection * DecodeBudget * DecodeWarnings) :=
  let y := int_field entry "Y" as_byte 0 in
  '(section, b, w) ← (if height_contains height y
                      then '(s, b, w) ← decode_section entry r b w; Ok (Some s, b, w)
                      else Ok (None, b, w));
  '(block_light, b) ← light (find_field entry "BlockLight") b;
  '(sky_light, b) ← light (find_field entry "SkyLight") b;
  Ok ({| ss_y := y; ss_section := section; ss_block_light := block_light; ss_sky_light := sky_light |}, b, w).

Fixpoint decode_rows (entries : list Tag) (r : ChunkRegistrySnapshot) (height : DimensionHeight) (b : DecodeBudget)
    (w : DecodeWarnings) : outcome ChunkDecodeError (list StoredSection * DecodeBudget * DecodeWarnings) :=
  match entries with
  | [] => Ok ([], b, w)
  | Compound entry :: entries =>
      '(row, b, w) ← decode_row entry r height b w;
      '(rows, b, w) ← decode_rows entries r height b w;
      Ok (row :: rows, b, w)
  | _ :: entries => decode_rows entries r height b w
  end.

Definition is_compound (t : Tag) : bool := match t with Compound _ => true | _ => false end.

Definition decode_sections (root : list CompoundEntry) (r : ChunkRegistrySnapshot) (height : DimensionHeight) (b : DecodeBudget)
    (w : DecodeWarnings) : outcome ChunkDecodeError (list StoredSection * DecodeBudget * DecodeWarnings) :=
  match find_field root "sections" with
  | Some (List_ entries) =>
      b ← reserve b row_size (zlen (filter (λ t, is_compound t = true) entries));
      decode_rows entries r height b w
  | _ => Ok ([], b, w)
  end.

Definition parse_current_chunk (root : list CompoundEntry) (nbt_allocated : Z) (r : ChunkRegistrySnapshot)
    (height : DimensionHeight) (decoded_bytes : Z) : outcome ChunkDecodeError StoredChunkDraft :=
  let version := int_field root "DataVersion" as_int (-1) in
  if version <? DATA_VERSION then Err (NeedsUpgrade version)
  else if DATA_VERSION <? version then Err (UnsupportedDataVersion version)
  else
    match find_field root "Status" with
    | Some (String_ units) =>
        let found := snd <$> list_find (λ value, status_matches units value = true) statuses in
        let w := {| unknown_status := negb (bool_decide (is_Some found)); fallback_palette_entries := 0 |} in
        '(rows, b, w) ← decode_sections root r height {| remaining := decoded_bytes; retained := 0 |} w;
        total ← ok_or (checked_add nbt_allocated (retained b)) AllocationLimit;
        Ok {| position := (int_field root "xPos" as_int 0, int_field root "zPos" as_int 0);
              data_version := version; status := default Empty found;
              last_update := int_field root "LastUpdate" as_long 0;
              inhabited_time := int_field root "InhabitedTime" as_long 0;
              light_correct := negb (int_field root "isLightOn" as_byte 0 =? 0);
              warnings := w; sections := rows; root := root; retained_bytes := total |}
    | _ => Err MissingLevelData
    end.

(** The root name is cut out of the buffer, then the root is read. *)
Definition decode_current_chunk (tag_size entry_size : Z) (bytes : list Z) (r : ChunkRegistrySnapshot) (height : DimensionHeight)
    (nbt_limits : Limits) (decoded_bytes : Z) : outcome ChunkDecodeError StoredChunkDraft :=
  first ← ok_or (bytes !! 0%nat) Truncated;
  if negb (first =? 10) then Err RootType
  else
    n0 ← ok_or (bytes !! 1%nat) Truncated;
    n1 ← ok_or (bytes !! 2%nat) Truncated;
    let skip := 3 + be_value [n0; n1] in
    if zlen bytes <? skip then Err Truncated
    else
      let bytes := take 1 bytes ++ drop (Z.to_nat skip) bytes in
      '(tag, allocated, _) ← map_err NbtError (read_network_accounted tag_size entry_size nbt_limits bytes);
      match tag with
      | Compound root => parse_current_chunk root allocated r height decoded_bytes
      | _ => Panic
      end.
End decode.
