(* ===== verification/ChunkFacts.v ===== *)
(** * Stored chunks: what decoding guarantees

    Whatever bytes a region file holds, decoding returns a draft or a typed
    error, and the sections of a draft are valid: their containers stand for
    blocks and biomes of the registry, their counts are exact, and the typed
    data stays within its byte budget. *)

From Stdlib Require Import String.
From stdpp Require Import sets.
From S2P Require Import Prelude.
From S2P Require Import Outcomes.
From S2P Require Import Container.
From S2P Require Import SectionNet.
From S2P Require Import Nbt.
From S2P Require Import NbtNumeric.
From S2P Require Import NbtWrite.
From S2P Require Import NbtRead.
From S2P Require Import LightTable.
From S2P Require Import ChunkRegistry.
From S2P Require Import RegistryFacts.
From S2P Require Import ChunkDraft.
Local Open Scope Z_scope.

(** ** Valid sections *)

Definition non_air (r : ChunkRegistrySnapshot) (v : Z) : bool :=
  match state_flags r v with Some f => negb (is_air f) | None => false end.
Definition wet (r : ChunkRegistrySnapshot) (v : Z) : bool :=
  match state_flags r v with Some f => negb (is_air f) && has_fluid f | None => false end.
Definition tally (p : Z → bool) (l : list Z) : Z := zlen (filter (λ v, p v = true) l).

(** A section of the registry, with its counts. *)
Record section_valid (r : ChunkRegistrySnapshot) (s : Section_) : Prop := {
  va_blocks : inv (blocks s) ∧ kind (blocks s) = Container.Blocks ∧ registry (blocks s) = rg_blocks_domain r;
  va_biomes : inv (biomes s) ∧ kind (biomes s) = Container.Biomes ∧ registry (biomes s) = rg_biomes_domain r;
  va_non_empty : non_empty_blocks (counts s) = tally (non_air r) (contents (blocks s));
  va_fluids : fluid_blocks (counts s) = tally (wet r) (contents (blocks s));
}.

Lemma tally_nil p : tally p [] = 0.
Proof. done. Qed.
Lemma tally_cons p v l : tally p (v :: l) = (if p v then 1 else 0) + tally p l.
Proof. unfold tally, zlen. rewrite filter_cons. destruct (p v); [rewrite decide_True by done|rewrite decide_False by done]; cbn [length]; lia. Qed.
Lemma tally_app p l1 l2 : tally p (l1 ++ l2) = tally p l1 + tally p l2.
Proof. unfold tally, zlen. rewrite filter_app, length_app. lia. Qed.
Lemma tally_range p l : 0 ≤ tally p l ≤ zlen l.
Proof. unfold tally, zlen. pose proof (length_filter (λ v, p v = true) l). lia. Qed.
Lemma tally_mono (p q : Z → bool) l : (∀ v, p v = true → q v = true) → tally p l ≤ tally q l.
Proof.
  intros Hpq. induction l as [|v l IH]; [done|]. rewrite !tally_cons. specialize (Hpq v).
  destruct (p v), (q v); lia.
Qed.
Lemma tally_zero p l : tally p l = 0 ↔ ∀ v, v ∈ l → p v = false.
Proof.
  induction l as [|v l IH]; [split; [by intros _ v ?%not_elem_of_nil|done]|]. rewrite tally_cons. pose proof (tally_range p l).
  split.
  - intros Hz w [->|Hw]%elem_of_cons; [destruct (p v); [lia|done]|]. apply IH; [destruct (p v); lia|done].
  - intros Hall. rewrite (Hall v) by (by left). apply IH. intros w Hw. apply Hall. by right.
Qed.

(** Valid sections are what the section codec calls a section. *)
Lemma section_valid_ok r s : section_valid r s → section_ok s.
Proof.
  intros [[Hb [Hk Hr]] [Hm [Hkm Hrm]] Hn Hf]. split; [|done..]. rewrite Hn, Hf.
  pose proof (tally_mono (wet r) (non_air r) (contents (blocks s))) as Hmono.
  pose proof (tally_range (non_air r) (contents (blocks s))). pose proof (tally_range (wet r) (contents (blocks s))).
  assert (zlen (contents (blocks s)) = 4096) by (unfold zlen; by rewrite (length_contents _ Hb), Hk, kind_len_blocks).
  specialize (Hmono ltac:(unfold wet, non_air; intros v; destruct (state_flags r v); [by intros [? _]%andb_prop|done])). lia.
Qed.

Section decode.
Context `{Allocator, ChunkLayout} (r : ChunkRegistrySnapshot).
Hypothesis Hr : registry_ok r.

Definition budget_ok (total : Z) (b : DecodeBudget) : Prop := 0 ≤ remaining b ∧ remaining b + retained b ≤ total.

Lemma charge_ok total b bytes :
  budget_ok total b → yields (charge b bytes) (λ b', 0 ≤ remaining b' ∧ remaining b' = remaining b - bytes ∧ retained b' = retained b).
Proof.
  intros [Hb1 Hb2]. unfold charge, checked_sub. destruct (Z.leb_spec bytes (remaining b)); cbn; [|done]. by split_and!; [lia|..].
Qed.

Lemma reserve_temporary_ok total b size n :
  0 ≤ size → 0 ≤ n → budget_ok total b →
  yields (reserve_temporary b size n) (λ '(cap, b'), 0 ≤ remaining b' ∧ n ≤ cap ∧ remaining b' + cap * size ≤ remaining b ∧ retained b' = retained b).
Proof.
  intros Hs Hn Hb. unfold reserve_temporary. ystep. intros bytes Hbytes.
  assert (bytes = n * size) as -> by (unfold checked_mul in Hbytes; by destruct (_ <=? usize_max); simplify_eq).
  ystep; [by apply (charge_ok total)|]. intros b1 (Hb1&E1&R1). ystep. intros cap Hcap. apply reserve_exact_ge in Hcap.
  assert (n * size ≤ cap * size) by nia. ystep.
  { instantiate (1 := λ b2, 0 ≤ remaining b2 ∧ remaining b2 + cap * size = remaining b ∧ retained b2 = retained b).
    destruct (Z.ltb_spec (n * size) (cap * size)).
    - eapply yields_weaken; [apply (charge_ok (remaining b1 + retained b1)); by split; [|lia]|]. cbv beta. intros b2 (?&?&?). split_and!; [done|lia|congruence].
    - apply yields_ok. split_and!; [done|lia|done]. }
  intros b2 (?&?&?). ystep. split_and!; [done..|lia|done].
Qed.

Lemma reserve_ok total b size n :
  0 ≤ size → 0 ≤ n → budget_ok total b → yields (reserve b size n) (budget_ok total).
Proof.
  intros Hs Hn Hb. unfold reserve. ystep; [by apply (reserve_temporary_ok total)|]. intros [cap b1] (?&?&?&E).
  ystep. destruct Hb. split; cbn; [done|]. rewrite E. lia.
Qed.

(** A light row is 2048 bytes. *)
Definition light_row (row : option (list Z)) : Prop := ∀ l, row = Some l → zlen l = 2048 ∧ bytes_ok l.

Lemma light_ok total value b :
  budget_ok total b → yields (light value b) (λ '(row, b'), light_row row ∧ budget_ok total b').
Proof.
  intros Hb. unfold light. destruct value as [[]|]; try (apply yields_ok; by split).
  destruct (Z.eqb_spec (zlen v) 2048) as [Hl|]; cbn [negb]; [|exact I].
  ystep; [apply (reserve_ok total); [lia..|done]|]. intros b1 Hb1. ystep. split; [|done].
  intros l [= <-]. split; [unfold zlen in *; by rewrite length_fmap|]. apply Forall_fmap, Forall_forall. intros x _. by apply u_wrap_range.
Qed.

Lemma domain_ok k : Container.registry_ok (fst (palette_domain r k)) ∧ valid (fst (palette_domain r k)) (snd (palette_domain r k)).
Proof.
  destruct k; cbn.
  - split; [apply (rk_count r Hr)|]. by apply air_in_range.
  - destruct (rk_biomes r Hr) as (_&[Hd Hc]&Hp). split; [done|]. unfold valid. by rewrite Hc.
Qed.

Lemma resolve_entry_cases k t : ∃ res, resolve_entry r k t = Ok res ∧ valid (fst (palette_domain r k)) (id res).
Proof.
  destruct k; cbn.
  - by apply block_state_cases.
  - destruct (biome_cases r Hr t) as (res&Hres&Hid). exists res. split; [done|].
    destruct (rk_biomes r Hr) as (_&[_ Hc]&_). unfold valid. by rewrite Hc.
Qed.

(** What each entry resolves to. *)
Definition resolved (k : ContainerKind) (palette : Collection) (i : nat) (v : Z) : Prop :=
  match palette with
  | Tags entries => ∃ t res, entries !! i = Some t ∧ resolve_entry r k t = Ok res ∧ v = id res
  | other => (i < collection_len other)%nat ∧ v = snd (palette_domain r k)
  end.

Lemma resolve_entries_ok k entries w :
  yields (resolve_entries r k entries w) (λ '(ids, _), length ids = length entries ∧
    ∀ i v, ids !! i = Some v → resolved k (Tags entries) i v ∧ valid (fst (palette_domain r k)) v).
Proof.
  revert w. induction entries as [|t entries IH]; intros w; cbn [resolve_entries]; [by split|].
  destruct (resolve_entry_cases k t) as (res&Hres&Hv). rewrite Hres. unfold lift. mstep.
  ystep; [apply IH|]. intros [ids w'] [Hl Hids]. ystep. split; [cbn; lia|].
  intros [|i] v; cbn; [intros [= <-]; split; [by exists t, res|done]|apply Hids].
Qed.

Lemma resolve_palette_ok k palette w :
  yields (resolve_palette r k palette w) (λ '(ids, _), length ids = collection_len palette ∧
    ∀ i v, ids !! i = Some v → resolved k palette i v ∧ valid (fst (palette_domain r k)) v).
Proof.
  destruct palette as [entries|l|l|l]; [apply resolve_entries_ok|..];
    (cbn [resolve_palette]; apply yields_ok; split; [apply length_replicate|]; intros i v [-> Hi]%lookup_replicate; split; [by split|apply domain_ok]).
Qed.

(** The slots are readable once every word is a number. *)
Lemma unpack_ids_ok words ids bits index n :
  (∀ i, (index ≤ i < index + n)%nat → is_Some (collection_long words (i / (64 / bits)))) →
  yields (unpack_ids words ids bits index n) (λ dense, length dense = n ∧
    ∀ i v, dense !! i = Some v → ∃ slot, slot_at words bits (index + i) = Ok slot ∧ ids !! Z.to_nat slot = Some v).
Proof.
  revert index. induction n as [|n IH]; intros index Hw; cbn [unpack_ids]; [by split|].
  destruct (Hw index ltac:(lia)) as [word Hword].
  ystep; [unfold slot_at; rewrite Hword; mstep; by apply (yields_ok (λ s, slot_at words bits index = Ok s)); unfold slot_at; rewrite Hword|].
  intros slot Hslot. ystep. intros v Hv. ystep; [apply (IH (S index)); intros i Hi; apply Hw; lia|].
  intros rest [Hl Hrest]. ystep. split; [cbn; lia|]. intros [|i] w; cbn.
  - intros [= <-]. rewrite Nat.add_0_r. exists slot. by split.
  - intros Hi. destruct (Hrest i w Hi) as (s&Hs&?). exists s. by rewrite Nat.add_succ_r.
Qed.

(** A container that palettes build. *)
Definition container_valid (k : ContainerKind) (c : PalettedContainer) : Prop :=
  inv c ∧ kind c = k ∧ registry c = fst (palette_domain r k).

Lemma single_ok k v :
  valid (fst (palette_domain r k)) v →
  yields (single k (fst (palette_domain r k)) v) (λ c, container_valid k c ∧ contents c = replicate (kind_len k) v).
Proof.
  intros Hv. unfold single. rewrite (proj2 (validate_ok _ v ltac:(apply Hv)) Hv). mstep. ystep.
  split; [|done]. split; [split; [apply domain_ok|done]|done].
Qed.

Lemma packed_words_ok k container ids bits :
  (1 ≤ bits ≤ 31)%nat →
  yields (packed_words k container ids bits) (λ dense, length dense = kind_len k ∧
    ∃ words, (tag ← find_field container "data"; collection_new tag) = Some words ∧
      ∀ i v, dense !! i = Some v → ∃ slot, slot_at words bits i = Ok slot ∧ ids !! Z.to_nat slot = Some v).
Proof.
  intros Hbits. unfold packed_words. ystep. intros words Hwords. ystep. intros Hall. ystep. intros Hlen%Z.eqb_eq.
  eapply yields_weaken; [apply unpack_ids_ok|]; [|intros dense [Hl Hd]; split; [done|]; exists words; by split].
  intros i Hi. rewrite forallb_forall in Hall. specialize (Hall (i / (64 / bits))%nat).
  apply bool_decide_eq_true in Hall; [done|]. apply in_seq.
  assert (Hpw : (1 ≤ 64 / bits)%nat) by (apply Nat.div_le_lower_bound; lia).
  assert ((i / (64 / bits) < collection_len words)%nat); [|lia]. apply Nat.Div0.div_lt_upper_bound.
  apply Nat2Z.inj_lt. rewrite Nat2Z.inj_mul, Hlen. unfold div_ceil.
  pose proof (Z.div_mod (Z.of_nat (kind_len k) + Z.of_nat (64 / bits) - 1) (Z.of_nat (64 / bits)) ltac:(lia)) as Hdm.
  pose proof (Z.mod_pos_bound (Z.of_nat (kind_len k) + Z.of_nat (64 / bits) - 1) (Z.of_nat (64 / bits)) ltac:(lia)). lia.
Qed.

(** The width of the entries of a palette of [n]: the least that numbers them
    all, and no less than the kind's own. *)
Definition entry_width (k : ContainerKind) (n bits : nat) : Prop :=
  let least := match k with Container.Blocks => 4 | Container.Biomes => 1 end%nat in
  (least ≤ bits)%nat ∧ Z.of_nat n ≤ 2 ^ Z.of_nat bits ∧ (bits = least ∨ 2 ^ (Z.of_nat bits - 1) < Z.of_nat n).

Lemma stored_bits_width k ids : (2 ≤ length ids)%nat → entry_width k (length ids) (stored_bits k ids).
Proof.
  intros Hl. unfold entry_width, stored_bits. set (least := match k with Container.Blocks => _ | _ => _ end).
  pose proof (bit_len_nonneg (zlen ids - 1)). pose proof (bit_len_spec (zlen ids - 1) ltac:(unfold zlen; lia)) as Hs.
  change (Z.of_nat (length ids)) with (zlen ids). split; [lia|]. rewrite Nat2Z.inj_max, Z2Nat.id by lia.
  destruct (Z.max_spec (bit_len (zlen ids - 1)) (Z.of_nat least)) as [[Hm ->]|[Hm ->]].
  - pose proof (Z.pow_lt_mono_r 2 (bit_len (zlen ids - 1)) (Z.of_nat least)). split; [lia|left; lia].
  - split; [lia|]. right. destruct (Z.lt_ge_cases (2 ^ (bit_len (zlen ids - 1) - 1)) (zlen ids)) as [|Hge]; [done|].
    assert (1 ≤ bit_len (zlen ids - 1)) by (pose proof (bit_len_gt (zlen ids - 1) 0); unfold zlen in *; lia).
    pose proof (bit_len_le (zlen ids - 1) (bit_len (zlen ids - 1) - 1)). lia.
Qed.

(** The [i]th entry of words that hold as many whole entries of [bits] bits
    each as fit, lowest first. *)
Definition stored_slot (words : Collection) (bits i : nat) (slot : Z) : Prop :=
  let per_word := (64 / bits)%nat in
  ∃ word, collection_long words (i / per_word) = Some word ∧
    slot = word mod 2 ^ 64 / 2 ^ Z.of_nat (i mod per_word * bits) mod 2 ^ Z.of_nat bits.

Lemma slot_at_stored words bits i slot : (bits ≤ 31)%nat → slot_at words bits i = Ok slot → stored_slot words bits i slot.
Proof.
  intros Hb. unfold slot_at, stored_slot. destruct (collection_long words _) as [word|]; [|done]. mstep. intros [= <-].
  exists word. split; [done|]. rewrite land_ones_mod, Z.shiftr_div_pow2 by lia. unfold u_wrap at 2.
  pose proof (Z.mod_pos_bound (word mod 2 ^ 64 / 2 ^ Z.of_nat (i mod (64 / bits) * bits)) (2 ^ Z.of_nat bits) ltac:(apply pow2_pos; lia)).
  pose proof (Z.pow_le_mono_r 2 (Z.of_nat bits) 31). apply u_wrap_id. unfold in_u. lia.
Qed.

(** What a stored palette and its words stand for. *)
Definition palette_contents (k : ContainerKind) (value : option Tag) (l : list Z) : Prop :=
  match value with
  | Some (Compound container) =>
      ∃ palette, (tag ← find_field container "palette"; collection_new tag) = Some palette ∧
        if (collection_len palette =? 1)%nat then ∃ v, resolved k palette 0 v ∧ l = replicate (kind_len k) v
        else ∃ words bits, (tag ← find_field container "data"; collection_new tag) = Some words ∧ entry_width k (collection_len palette) bits ∧
               ∀ i v, l !! i = Some v → ∃ slot, stored_slot words bits i slot ∧ resolved k palette (Z.to_nat slot) v
  | _ => l = replicate (kind_len k) (snd (palette_domain r k))
  end.

Lemma palette_ok k value total b w :
  budget_ok total b →
  yields (palette value k r b w) (λ '(c, b', _), container_valid k c ∧ budget_ok total b' ∧ palette_contents k value (contents c)).
Proof.
  intros Hb. pose proof (domain_ok k) as [Hdom Hmiss]. unfold palette.
  destruct (palette_domain r k) as [reg missing] eqn:Edom. cbn [fst snd] in *.
  assert (Hdef : yields (c ← map_err SectionError (single k reg missing); Ok (c, b, w))
            (λ '(c, b', _), container_valid k c ∧ budget_ok total b' ∧ contents c = replicate (kind_len k) (snd (palette_domain r k)))).
  { ystep; [apply yields_map_err; pose proof (single_ok k missing) as Hs; rewrite Edom in Hs; by apply Hs|].
    intros c [Hc Hcc]. ystep. rewrite Edom. by split_and!. }
  destruct value as [[]|]; try exact Hdef. clear Hdef.
  ystep. intros pal Hpal. destruct (Nat.eqb_spec (collection_len pal) 0) as [|Hne]; [exact I|].
  ystep; [apply (reserve_temporary_ok total); [lia..|done]|]. intros [cap b1] (Hb1&Hcap&Hb2&Hret).
  assert (Hbok : budget_ok total b1) by (destruct Hb; split; [done|rewrite Hret; lia]).
  ystep; [apply resolve_palette_ok|]. intros [ids w1] [Hl Hids].
  destruct ids as [|only [|second rest]]; [cbn in Hl; lia| |].
  - destruct (Hids 0%nat only eq_refl) as [Hres Hv]. rewrite Edom in Hv.
    ystep; [apply yields_map_err; pose proof (single_ok k only) as Hs; rewrite Edom in Hs; by apply Hs|].
    intros c [Hc Hcc]. ystep. split_and!; [done..|]. cbn [palette_contents]. exists pal. split; [done|]. rewrite <- Hl. cbn. by exists only.
  - remember (only :: second :: rest) as ids eqn:Ei.
    destruct (Nat.ltb_spec 31 (stored_bits k ids)); [exact I|].
    assert (1 ≤ stored_bits k ids)%nat by (unfold stored_bits; destruct k; lia).
    ystep; [by apply packed_words_ok|]. intros dense (Hdl&words&Hwords&Hd).
    assert (Hdv : ∀ i v, dense !! i = Some v → valid reg v).
    { intros i v Hi. destruct (Hd i v Hi) as (slot&_&Hslot). apply Hids in Hslot as [_ Hslot]. by rewrite Edom in Hslot. }
    pose proof (build_spec k reg dense None (remaining b1) Hdom) as Hbuild.
    ystep.
    { apply yields_map_err. instantiate (1 := λ c, container_valid k c ∧ contents c = dense).
      unfold from_dense, build_result in *.
      specialize (Hbuild ltac:(apply Forall_lookup; intros i v Hi; apply (Hdv i v Hi)) ltac:(apply Hbok) I).
      destruct (build k reg dense None (remaining b1)); try done. destruct Hbuild as (_&Hinv&Hk&Hreg&Hc&_). split; [|done]. split_and!; [done..|]. by rewrite Edom. }
    intros c [Hc Hcc]. ystep; [by apply (charge_ok total)|]. intros b2 (?&E2&R2). ystep. split; [done|]. split.
    + destruct Hbok as [? ?]. split; cbn; [done|]. rewrite E2, R2. lia.
    + cbn [palette_contents]. exists pal. split; [done|]. destruct (Nat.eqb_spec (collection_len pal) 1) as [E|_]; [rewrite <- Hl, Ei in E; done|].
      exists words, (stored_bits k ids). split; [done|]. split; [rewrite <- Hl; apply stored_bits_width; rewrite Ei; cbn; lia|].
      intros i v Hi. rewrite Hcc in Hi. destruct (Hd i v Hi) as (slot&Hs&Hv). exists slot. split; [apply slot_at_stored; [lia|done]|]. by apply Hids in Hv as [? _].
Qed.

(** Every valid id has flags. *)
Lemma flags_defined v : valid (rg_blocks_domain r) v → ∃ f, state_flags r v = Some f.
Proof.
  intros [Hlo Hhi]. destruct (rk_count r Hr) as [_ Hl]. unfold count in Hl. unfold state_flags.
  destruct (lookup_lt_ok (rg_state_flags r) (Z.to_nat v)) as [f Hf]; [unfold zlen in Hl; lia|]. rewrite Hf. cbn. eauto.
Qed.

Lemma count_blocks_ok c index n a w :
  inv c → registry c = rg_blocks_domain r → (index + n ≤ length (contents c))%nat →
  yields (count_blocks r c index n a w) (λ '(a', w'), a' = a + tally (non_air r) (take n (drop index (contents c))) ∧
    w' = w + tally (wet r) (take n (drop index (contents c)))).
Proof.
  intros Hinv Hreg. revert index a w. induction n as [|n IH]; intros index a w Hn; cbn [count_blocks].
  { apply yields_ok. rewrite take_0, !tally_nil. lia. }
  destruct (lookup_lt_ok (contents c) index ltac:(lia)) as [v Hv]. rewrite (container_get_spec c index Hinv), Hv. mstep.
  assert (Hval : valid (rg_blocks_domain r) v) by (rewrite <- Hreg; pose proof (contents_valid c Hinv) as Hf; rewrite Forall_lookup in Hf; by eapply Hf).
  destruct (flags_defined v Hval) as [f Hf]. rewrite Hf. mstep.
  rewrite (drop_S _ v index) by done. rewrite firstn_cons, !tally_cons. unfold non_air at 1, wet at 1. rewrite Hf.
  destruct (is_air f); cbn [negb andb].
  - eapply yields_weaken; [apply IH; lia|]. intros [a' w'] [-> ->]. lia.
  - eapply yields_weaken; [apply IH; lia|]. intros [a' w'] [-> ->]. destruct (has_fluid f); lia.
Qed.

Lemma decode_section_ok total entry b w :
  budget_ok total b →
  yields (decode_section entry r b w) (λ '(s, b', _), section_valid r s ∧ budget_ok total b' ∧
    palette_contents Container.Blocks (find_field entry "block_states") (contents (blocks s)) ∧
    palette_contents Container.Biomes (find_field entry "biomes") (contents (biomes s))).
Proof.
  intros Hb. unfold decode_section. ystep; [by apply palette_ok|]. intros [[bl b1] w1] (Hbl&Hb1&Hbc).
  ystep; [by apply palette_ok|]. intros [[bi b2] w2] (Hbi&Hb2&Hic). destruct Hbl as (Hinv&Hk&Hreg), Hbi as (Hinv'&Hk'&Hreg').
  assert (Hlen : length (contents bl) = 4096%nat) by (by rewrite (length_contents _ Hinv), Hk, kind_len_blocks).
  ystep; [apply count_blocks_ok; [done|done|lia]|]. intros [a f] [-> ->]. rewrite drop_0, take_ge by lia.
  ystep. split; [|by split_and!]. by split; cbn.
Qed.

(** The row of an entry: its section is there exactly within the height, and
    stands for the entry's palettes. *)
Record row_of (h : DimensionHeight) (entry : list CompoundEntry) (row : StoredSection) : Prop := {
  ro_y : ss_y row = int_field entry "Y" as_byte 0 ∧ in_i 8 (ss_y row);
  ro_section : match ss_section row with
               | Some s => section_valid r s ∧ height_contains h (ss_y row) = true ∧
                   palette_contents Container.Blocks (find_field entry "block_states") (contents (blocks s)) ∧
                   palette_contents Container.Biomes (find_field entry "biomes") (contents (biomes s))
               | None => height_contains h (ss_y row) = false
               end;
  ro_light : light_row (ss_block_light row) ∧ light_row (ss_sky_light row);
}.

Lemma byte_field_range entry name : in_i 8 (int_field entry name as_byte 0).
Proof.
  unfold int_field. destruct (tag ← find_field entry name; as_byte tag) as [v|] eqn:E; cbn; [|by unfold in_i].
  destruct (find_field entry name) as [t|]; cbn in E; [|done]. unfold as_byte in E. destruct (as_int t); cbn in E; [|done].
  injection E as <-. by apply i_wrap_range.
Qed.

Lemma decode_row_ok total h entry b w :
  budget_ok total b → yields (decode_row entry r h b w) (λ '(row, b', _), row_of h entry row ∧ budget_ok total b').
Proof.
  intros Hb. unfold decode_row. set (y := int_field entry "Y" as_byte 0).
  ystep.
  { instantiate (1 := λ '(section, b', _), budget_ok total b' ∧ match section with
      | Some s => section_valid r s ∧ height_contains h y = true ∧
          palette_contents Container.Blocks (find_field entry "block_states") (contents (blocks s)) ∧
          palette_contents Container.Biomes (find_field entry "biomes") (contents (biomes s))
      | None => height_contains h y = false end).
    destruct (height_contains h y); [|apply yields_ok; by split].
    ystep; [by apply decode_section_ok|]. intros [[s b1] w1] (?&?&?&?). by ystep. }
  intros [[section b1] w1] [Hb1 Hs]. ystep; [by apply (light_ok total)|]. intros [bl b2] [Hbl Hb2].
  ystep; [by apply (light_ok total)|]. intros [sl b3] [Hsl Hb3]. ystep. split; [|done]. split; [split; [done|apply byte_field_range]|done..].
Qed.

Definition compounds (entries : list Tag) : list (list CompoundEntry) :=
  omap (λ t, match t with Compound e => Some e | _ => None end) entries.

Lemma decode_rows_ok total h entries b w :
  budget_ok total b → yields (decode_rows entries r h b w) (λ '(rows, b', _), Forall2 (row_of h) (compounds entries) rows ∧ budget_ok total b').
Proof.
  revert b w. induction entries as [|t entries IH]; intros b w Hb; cbn [decode_rows]; [by split|].
  destruct t; try (by apply IH). ystep; [by apply (decode_row_ok total)|]. intros [[row b1] w1] [Hrow Hb1].
  ystep; [by apply IH|]. intros [[rows b2] w2] [Hrows Hb2]. ystep. split; [by constructor|done].
Qed.

(** The compounds of the list of sections. *)
Definition section_entries (root : list CompoundEntry) : list (list CompoundEntry) :=
  match find_field root "sections" with Some (List_ entries) => compounds entries | _ => [] end.

(** A decoded draft. *)
Record draft_ok (h : DimensionHeight) (nbt_allocated decoded_bytes : Z) (d : StoredChunkDraft) : Prop := {
  do_version : data_version d = DATA_VERSION;
  do_rows : Forall2 (row_of h) (section_entries (root d)) (sections d);
  do_bytes : retained_bytes d ≤ nbt_allocated + decoded_bytes ∧ retained_bytes d ≤ usize_max;
  do_status : ∃ units, find_field (root d) "Status" = Some (String_ units) ∧
    (status_matches units (status d) = true ∨ (status d = Empty ∧ ∀ s, status_matches units s = false));
}.

Lemma decode_sections_ok total root h b w :
  budget_ok total b → yields (decode_sections root r h b w) (λ '(rows, b', _), Forall2 (row_of h) (section_entries root) rows ∧ budget_ok total b').
Proof.
  intros Hb. unfold decode_sections, section_entries. destruct (find_field root "sections") as [[]|]; try (by apply yields_ok; split).
  ystep; [apply (reserve_ok total); [apply row_size_pos|unfold zlen; lia|done]|]. intros b1 Hb1. by apply decode_rows_ok.
Qed.

Lemma elem_of_statuses s : s ∈ statuses.
Proof. apply list_elem_of_In. destruct s; cbn; tauto. Qed.

Lemma status_found units :
  let s := default Empty (snd <$> list_find (λ value, status_matches units value = true) statuses) in
  status_matches units s = true ∨ (s = Empty ∧ ∀ s', status_matches units s' = false).
Proof.
  destruct (list_find _ statuses) as [[i s]|] eqn:E; cbn; [apply list_find_Some in E as (_&?&_); by left|right].
  split; [done|]. intros s'. apply list_find_None in E. rewrite Forall_forall in E. apply not_true_is_false, E, elem_of_statuses.
Qed.

Lemma parse_chunk_ok root allocated h decoded :
  0 ≤ decoded → yields (parse_current_chunk root allocated r h decoded) (draft_ok h allocated decoded).
Proof.
  intros Hd. unfold parse_current_chunk.
  destruct (Z.ltb_spec (int_field root "DataVersion" as_int (-1)) DATA_VERSION); [exact I|].
  destruct (Z.ltb_spec DATA_VERSION (int_field root "DataVersion" as_int (-1))); [exact I|].
  destruct (find_field root "Status") as [[]|] eqn:Est; try exact I.
  ystep; [apply (decode_sections_ok decoded); split; cbn; lia|]. intros [[rows b] w] [Hrows [Hb1 Hb2]].
  ystep. intros total Ht. assert (total = allocated + retained b ∧ total ≤ usize_max) as [-> ?].
  { unfold checked_add in Ht. destruct (Z.leb_spec (allocated + retained b) usize_max); [|done]. by simplify_eq. }
  ystep. split; cbn [data_version sections retained_bytes ChunkDraft.root status]; [lia|done|lia|].
  eexists. split; [exact Est|]. apply status_found.
Qed.

(** A root that starts with the id of compounds is one. *)
Lemma read_compound_root tag_size entry_size limits bytes t used rest :
  read_network_accounted tag_size entry_size limits (10 :: bytes) = Ok (t, used, rest) → ∃ l, t = Compound l.
Proof.
  unfold read_network_accounted. destruct (limits_validate limits); mstep; [|done..].
  assert (Hbyte : byte (new_reader (10 :: bytes)) = Ok (10, {| input := drop (Z.to_nat 1) (10 :: bytes); quota := 0; allocation_ := 0 |})).
  { unfold byte, rbind, rtake. cbn [input new_reader]. destruct (Z.ltb_spec (zlen (10 :: bytes)) 1) as [Hl|]; [unfold zlen in Hl; cbn [length] in Hl; lia|].
    done. }
  unfold rbind at 1. rewrite Hbyte. mstep. cbn [Z.eqb Pos.eqb depth_fuel read_payload]. unfold compound. intros He.
  apply outcome_bind_ok in He as ([t' r']&He&Hret). injection Hret as -> _ _.
  repeat match type of He with
  | rbind _ _ _ = Ok _ => apply outcome_bind_ok in He as ([? ?]&_&He)
  | rret _ _ = Ok _ => injection He as <- <-
  end. eauto.
Qed.
End decode.

(** ** Property *)

(** C16. Decoding a stored chunk is safe on any bytes: it returns a draft or a
    typed error, without panic, within its budgets.  A draft has the supported
    version and the named status, and one row per section entry; a row within the
    height has a section whose containers hold block states and biomes of the
    registry, the ones the palettes and packed words of the entry name, and whose
    two counts are the number of its non-air and of its fluid blocks; stored light
    is 2048 bytes. *)
Theorem chunk_decode_sound `{Allocator, ChunkLayout} tag_size entry_size bytes r height limits decoded :
  registry_ok r → 0 ≤ tag_size ∧ 0 ≤ entry_size → bytes_ok bytes → 0 ≤ decoded →
  match decode_current_chunk tag_size entry_size bytes r height limits decoded with
  | Ok d => draft_ok r height (Z.max 0 (allocation_bytes limits)) decoded d
  | Err _ => True
  | Panic | NoFuel => False
  end.
Proof.
  intros Hr Hsz Hb Hd. change (yields (decode_current_chunk tag_size entry_size bytes r height limits decoded)
    (draft_ok r height (Z.max 0 (allocation_bytes limits)) decoded)).
  unfold decode_current_chunk. destruct bytes as [|b0 bytes]; [exact I|]. cbn [lookup list_lookup]. ystep. intros _ [= <-].
  destruct (Z.eqb_spec b0 10) as [->|]; cbn [negb]; [|exact I].
  ystep. intros n0 _. ystep. intros n1 _. destruct (Z.ltb_spec (zlen (10 :: bytes)) (3 + be_value [n0; n1])); [exact I|].
  set (rest := drop _ _). change (take 1 (10 :: bytes) ++ rest) with (10 :: rest).
  assert (Hrest : bytes_ok (10 :: rest)).
  { apply Forall_cons in Hb as [Hb0 Hb]. constructor; [done|]. apply Forall_drop. by constructor. }
  pose proof (read_network_safe tag_size entry_size limits Hsz (10 :: rest) Hrest) as Hsafe.
  destruct (read_network_accounted tag_size entry_size limits (10 :: rest)) as [[[t used] left]|e| |] eqn:E; try done.
  mstep. destruct (read_compound_root _ _ _ _ _ _ _ E) as [l ->].
  eapply yields_weaken; [by apply parse_chunk_ok|]. intros d [Hv Hrows [Hb1 Hb2] Hst]. split; [done..| |done]. destruct Hsafe. lia.
Qed.

(** ** A stored chunk of lamps *)

Definition lamp_entry : Tag :=
  Compound [(id_key, String_ [108; 97; 109; 112]); (properties_key, Compound [(p_name facing, String_ [117; 112]); (p_name lit, String_ [49])])].
Definition lamp_root : Tag := Compound [
  (text_of "DataVersion", Int 5018);
  (text_of "Status", String_ (text_of "light"));
  (text_of "sections", List_ [
    Compound [(text_of "Y", Byte 1);
              (text_of "block_states", Compound [(text_of "palette", List_ [lamp_entry])])];
    Compound [(text_of "BlockLight", ByteArray (replicate 2048 (-1))); (text_of "Y", Byte (-5))]])].
Definition lamp_bytes : list Z := 10 :: 0 :: 0 :: enc lamp_root.
Definition lamp_height : DimensionHeight := {| min_section := -4; max_section := 3 |}.
Definition lamp_limits : Limits :=
  {| vanilla_quota_bytes := 2 ^ 21; allocation_bytes := 2 ^ 24; max_depth := 16; output_bytes := 0 |}.
#[export] Instance lamp_layout : ChunkLayout := {| row_size := 96; row_size_pos := ltac:(lia) |}.

Definition lamp_draft : StoredChunkDraft.
Proof.
  let d := eval vm_compute in (decode_current_chunk 32 48 lamp_bytes small_registry lamp_height lamp_limits 65536) in
  match d with Ok ?s => exact s end.
Defined.

Lemma chunk_decode_sound_witness :
  decode_current_chunk 32 48 lamp_bytes small_registry lamp_height lamp_limits 65536 = Ok lamp_draft ∧
  draft_ok small_registry lamp_height (Z.max 0 (2 ^ 24)) 65536 lamp_draft.
Proof.
  assert (Hd : decode_current_chunk 32 48 lamp_bytes small_registry lamp_height lamp_limits 65536 = Ok lamp_draft) by (vm_compute; reflexivity).
  split; [exact Hd|].
  assert (Hb : bytes_ok lamp_bytes) by (by apply (bool_decide_unpack (Forall (λ b, 0 ≤ b < 256) lamp_bytes)); vm_compute).
  assert (Hs : 0 ≤ 32 ∧ 0 ≤ 48) by lia. assert (Hl : 0 ≤ 65536) by lia.
  pose proof (chunk_decode_sound 32 48 lamp_bytes small_registry lamp_height lamp_limits 65536 small_ok Hs Hb Hl) as Hw.
  rewrite Hd in Hw. exact Hw.
Defined.

(** Both rows, and the lamps of the first. *)
Example lamp_rows : ((λ row, (ss_y row, (λ s, (non_empty_blocks (counts s), get (blocks s) 7)) <$> ss_section row, length <$> ss_block_light row)) <$> sections lamp_draft)
  = [(1, Some (4096, Ok 6), None); (-5, None, Some 2048%nat)] ∧ status lamp_draft = Light.
Proof. vm_compute. done. Qed.
