(* ===== verification/LightSource.v ===== *)
(** * Light sources of a world: definitions (src/world/lighting/source.rs)

    The immutable input of the light engines: a sorted set of chunks whose
    sections are shared with resident chunks or were handed over by a producer,
    the state of every block, and the iterator over a chunk's emitting blocks.
    The owner of the resident chunks (src/world/loading.rs) is an interface;
    the identity of an [Arc] is a number, and a new one is an argument. *)

From S2P Require Import Prelude.
From S2P Require Import View.
From S2P Require Import Container.
From S2P Require Import SectionNet.
From S2P Require Import Sorted.
From S2P Require Import Sorting.
From S2P Require Import LightTypes.
From S2P Require Import LightTable.
From S2P Require Import ChunkRegistry.
From S2P Require Import ChunkDraft.
Local Open Scope Z_scope.

Inductive LightError :=
| MissingChunk | MissingStoredLight | InvalidColumn | ContextMismatch | InvalidState | InvalidFace | InvalidLimits
| LightAllocationFailed | LightAllocationLimit | MissingLightMetadata | MissingBedrock | LightInvalidCoordinate
| DuplicateChunk | StaleSource.

Record SourceLimits := { max_chunks : Z; metadata_limit : Z; owned_section_limit : Z }.

(** A [Vec] whose capacity is charged. *)
Record LightingChunk := { lc_address : ChunkAddress; lc_sections : list (option Section_); lc_capacity : Z }.

(** [ResidentChunk] (src/runtime/storage.rs), as far as it is read. *)
Record ResidentChunk := { draft : StoredChunkDraft; resident_registries : ChunkRegistrySnapshot }.

Record SavedLight := { sl_status : ChunkStatus; sl_light_correct : bool; sl_rows : list StoredSection }.

Inductive Data :=
| Resident (resident : ResidentChunk) (indices : list Z)
| Owned (sections : list (option Section_)).
Record Chunk := { c_address : ChunkAddress; c_data : Data }.

Record LightingSource := {
  ls_registry : ChunkRegistrySnapshot;
  ls_height : DimensionHeight;
  ls_chunks : list Chunk;
  ls_air : Z;
  ls_bedrock : Z;
  ls_stamp : nat;
  ls_owner_revision : option nat;
  ls_metadata_bytes : Z;
  ls_owned_section_bytes : Z;
}.

(** [size_of] of the vectors' elements. *)
Class SourceLayout := {
  chunk_size : Z; input_size : Z; section_size : Z;
  source_layout_nonneg : 0 ≤ chunk_size ∧ 0 ≤ input_size ∧ 0 ≤ section_size;
}.

(** What the source asks of [ChunkLoadingOwner]. *)
Class ChunkOwner (O : Type) := {
  source_registry : O → ChunkRegistrySnapshot;
  owner_height : O → DimensionHeight;
  snapshot_data : O → ChunkAddress → option ResidentChunk;
  source_revision : O → nat;
}.

(** The derived order of [ChunkAddress]. *)
Definition address_key (a : ChunkAddress) : Z * Z := (View.x a, View.z a).
Definition chunk_key (c : Chunk) : Z * Z := address_key (c_address c).

Definition section_count (h : DimensionHeight) : Z := max_section h - min_section h + 1.

Definition validate_address (a : ChunkAddress) : outcome LightError () :=
  let inside v := (-2097061 <=? v) && (v <=? 2097061) in
  ensure (inside (View.x a) && inside (View.z a)) LightInvalidCoordinate.

Definition validate_source (r : ChunkRegistrySnapshot) (h : DimensionHeight) : outcome LightError Z :=
  if (min_section h * 16 <? -2032) || (2032 <? (max_section h + 1) * 16) then Err InvalidLimits
  else
    found ← lift (bedrock_id r);
    bedrock ← ok_or found MissingBedrock;
    _ ← ensure (negb (negb (bool_decide (is_Some (light_material r (rg_air r)))) ||
                      negb (bool_decide (is_Some (light_material r bedrock))))) MissingLightMetadata;
    Ok bedrock.

Definition sort_unique (chunks : list Chunk) : outcome LightError (list Chunk) :=
  let chunks := sort_by_key chunk_key chunks in
  if repeats chunk_key chunks then Err DuplicateChunk else Ok chunks.

Section construction.
Context `{Allocator, SourceLayout}.

(** The budget left. *)
Definition reserve_vec (size count remaining : Z) : outcome LightError Z :=
  requested ← ok_or (checked_mul count size) LightAllocationLimit;
  if remaining <? requested then Err LightAllocationLimit
  else
    capacity ← ok_or (reserve_exact size count) LightAllocationFailed;
    bytes ← ok_or (checked_mul capacity size) LightAllocationLimit;
    ok_or (checked_sub remaining bytes) LightAllocationLimit.

(** ** From resident chunks *)

(** The row of each section: the last one within the height that has terrain. *)
Fixpoint index_rows (h : DimensionHeight) (rows : list StoredSection) (index : Z) (indices : list Z) : outcome LightError (list Z) :=
  match rows with
  | [] => Ok indices
  | row :: rows =>
      indices ← (if height_contains h (ss_y row) && bool_decide (is_Some (ss_section row))
                 then _ ← unwrap (indices !! Z.to_nat (ss_y row - min_section h));
                      Ok (<[Z.to_nat (ss_y row - min_section h) := index]> indices)
                 else Ok indices);
      index_rows h rows (index + 1) indices
  end.

Fixpoint capture {O} `{ChunkOwner O} (owner : O) (h : DimensionHeight) (addresses : list ChunkAddress) (remaining : Z)
    : outcome LightError (list Chunk * Z) :=
  match addresses with
  | [] => Ok ([], remaining)
  | address :: addresses =>
      _ ← validate_address address;
      resident ← ok_or (snapshot_data owner address) MissingChunk;
      remaining ← reserve_vec 8 (section_count h) remaining;
      indices ← index_rows h (sections (draft resident)) 0 (replicate (Z.to_nat (section_count h)) usize_max);
      '(chunks, remaining) ← capture owner h addresses remaining;
      Ok ({| c_address := address; c_data := Resident resident indices |} :: chunks, remaining)
  end.

Definition from_canonical {O} `{ChunkOwner O} (stamp : nat) (owner : O) (addresses : list ChunkAddress) (limits : SourceLimits)
    : outcome LightError LightingSource :=
  let r := source_registry owner in
  let h := owner_height owner in
  bedrock ← validate_source r h;
  if max_chunks limits <? zlen addresses then Err InvalidLimits
  else
    remaining ← reserve_vec chunk_size (zlen addresses) (metadata_limit limits);
    '(chunks, remaining) ← capture owner h addresses remaining;
    chunks ← sort_unique chunks;
    Ok {| ls_registry := r; ls_height := h; ls_chunks := chunks; ls_air := rg_air r; ls_bedrock := bedrock; ls_stamp := stamp;
          ls_owner_revision := Some (source_revision owner); ls_metadata_bytes := metadata_limit limits - remaining;
          ls_owned_section_bytes := 0 |}.

(** ** From sections handed over *)

(** The check of [n] blocks from [index]: the counts of blocks that are not
    air and that have a fluid. *)
Fixpoint check_cells (r : ChunkRegistrySnapshot) (blocks : PalettedContainer) (index n : nat) (non_empty fluids : Z)
    : outcome LightError (Z * Z) :=
  match n with
  | O => Ok (non_empty, fluids)
  | S n' =>
      id ← map_err (λ _, InvalidState) (get blocks index);
      _ ← ensure (bool_decide (is_Some (light_material r id))) InvalidState;
      flags ← ok_or (state_flags r id) InvalidState;
      check_cells r blocks (S index) n' (non_empty + (if is_air flags then 0 else 1)) (fluids + (if has_fluid flags then 1 else 0))
  end.

Fixpoint check_sections (r : ChunkRegistrySnapshot) (limits : SourceLimits) (sections : list (option Section_)) (owned : Z)
    : outcome LightError Z :=
  match sections with
  | [] => Ok owned
  | None :: sections => check_sections r limits sections owned
  | Some s :: sections =>
      _ ← ensure (negb ((4096 <? non_empty_blocks (counts s)) || (4096 <? fluid_blocks (counts s)))) InvalidState;
      owned ← ok_or (v ← checked_add owned (heap_bytes (blocks s)); checked_add v (heap_bytes (biomes s))) LightAllocationLimit;
      _ ← ensure (negb (owned_section_limit limits <? owned)) LightAllocationLimit;
      '(non_empty, fluids) ← check_cells r (blocks s) 0 4096 0 0;
      _ ← ensure ((non_empty =? non_empty_blocks (counts s)) && (fluids =? fluid_blocks (counts s))) InvalidState;
      check_sections r limits sections owned
  end.

Fixpoint adopt (r : ChunkRegistrySnapshot) (limits : SourceLimits) (expected : Z) (input : list LightingChunk) (remaining owned : Z)
    : outcome LightError (list Chunk * Z * Z) :=
  match input with
  | [] => Ok ([], remaining, owned)
  | chunk :: input =>
      _ ← validate_address (lc_address chunk);
      _ ← ensure (zlen (lc_sections chunk) =? expected) InvalidLimits;
      bytes ← ok_or (checked_mul (lc_capacity chunk) section_size) LightAllocationLimit;
      remaining ← ok_or (checked_sub remaining bytes) LightAllocationLimit;
      owned ← check_sections r limits (lc_sections chunk) owned;
      '(chunks, remaining, owned) ← adopt r limits expected input remaining owned;
      Ok ({| c_address := lc_address chunk; c_data := Owned (lc_sections chunk) |} :: chunks, remaining, owned)
  end.

Definition from_sections (stamp : nat) (r : ChunkRegistrySnapshot) (h : DimensionHeight) (input : list LightingChunk)
    (input_capacity : Z) (limits : SourceLimits) : outcome LightError LightingSource :=
  bedrock ← validate_source r h;
  if max_chunks limits <? zlen input then Err InvalidLimits
  else
    input_bytes ← ok_or (checked_mul input_capacity input_size) LightAllocationLimit;
    remaining ← ok_or (checked_sub (metadata_limit limits) input_bytes) LightAllocationLimit;
    remaining ← reserve_vec chunk_size (zlen input) remaining;
    '(chunks, remaining, owned) ← adopt r limits (section_count h) input remaining 0;
    chunks ← sort_unique chunks;
    Ok {| ls_registry := r; ls_height := h; ls_chunks := chunks; ls_air := rg_air r; ls_bedrock := bedrock; ls_stamp := stamp;
          ls_owner_revision := None; ls_metadata_bytes := metadata_limit limits - remaining - input_bytes;
          ls_owned_section_bytes := owned |}.
End construction.

(** ** Reading *)

Section reading.
Implicit Types s : LightingSource.

Definition source_heap_bytes s : Z := ls_metadata_bytes s + ls_owned_section_bytes s.
Definition is_current {O} `{ChunkOwner O} s (owner : O) : bool := bool_decide (ls_owner_revision s = Some (source_revision owner)).

Definition chunk_at s (address : ChunkAddress) : option Chunk :=
  match binary_search (λ c, key_cmp (chunk_key c) (address_key address)) (ls_chunks s) with
  | inl i => ls_chunks s !! i
  | inr _ => None
  end.
Definition has_chunk s (address : ChunkAddress) : bool := bool_decide (is_Some (chunk_at s address)).
Definition chunk_addresses s : list ChunkAddress := c_address <$> ls_chunks s.

Definition saved_light s (address : ChunkAddress) : option SavedLight :=
  chunk ← chunk_at s address;
  match c_data chunk with
  | Resident resident _ =>
      Some {| sl_status := status (draft resident); sl_light_correct := light_correct (draft resident);
              sl_rows := sections (draft resident) |}
  | Owned _ => None
  end.

(** [slice.get(index)] for an index of any size. *)
Definition get_row (rows : list StoredSection) (index : Z) : option StoredSection :=
  if index <? zlen rows then rows !! Z.to_nat index else None.

Definition section_at s (address : ChunkAddress) (y : Z) : outcome False (option Section_) :=
  if negb ((-128 <=? y) && (y <=? 127)) || negb (height_contains (ls_height s) y) then Ok None
  else
    let index := Z.to_nat (y - min_section (ls_height s)) in
    match chunk_at s address with
    | None => Ok None
    | Some chunk =>
        match c_data chunk with
        | Owned sections => unwrap (sections !! index)
        | Resident resident indices =>
            i ← unwrap (indices !! index);
            Ok (row ← get_row (sections (draft resident)) i; ss_section row)
        end
    end.

Definition section_has_only_air s (section : LightSection) : outcome False bool :=
  found ← section_at s (section_column section) (ls_y section);
  Ok (match found with None => true | Some v => non_empty_blocks (counts v) =? 0 end).

(** [.expect("validated immutable section")] *)
Definition expect_cell (blocks : PalettedContainer) (index : Z) : outcome False Z :=
  match get blocks (Z.to_nat index) with Ok v => Ok v | Err _ => Panic | Panic => Panic | NoFuel => NoFuel end.

Definition state_in_chunk s (address : ChunkAddress) (x y z : Z) : outcome False (option Z) :=
  if (16 <=? x) || (16 <=? z) || negb (has_chunk s address) then Ok None
  else
    found ← section_at s address (Z.shiftr y 4);
    match found with
    | None => Ok (Some (ls_air s))
    | Some section =>
        if non_empty_blocks (counts section) =? 0 then Ok (Some (ls_air s))
        else
          v ← expect_cell (blocks section) (Z.lor (Z.lor (Z.shiftl (Z.land y 15) 8) (Z.shiftl z 4)) x);
          Ok (Some v)
    end.

Definition source_state_at s (pos : LightBlock) : outcome False Z :=
  v ← state_in_chunk s (block_column pos) (Z.land (lb_x pos) 15) (lb_y pos) (Z.land (lb_z pos) 15);
  Ok (default (ls_bedrock s) v).

(** ** The iterator over emitting blocks *)

Record EmissionSources := { es_section : Z; es_index : nat }.
Definition emission_start s : EmissionSources := {| es_section := min_section (ls_height s); es_index := 0 |}.

Definition cell_block (address : ChunkAddress) (section : Z) (i : nat) : LightBlock :=
  let i := Z.of_nat i in
  {| lb_x := i_wrap 32 (i_wrap 32 (View.x address * 16) + Z.land i 15); lb_y := section * 16 + Z.shiftr i 8;
     lb_z := i_wrap 32 (i_wrap 32 (View.z address * 16) + Z.land (Z.shiftr i 4) 15) |}.

(** [while self.index < 4096]: the first emitting block among [n] from [index]. *)
Fixpoint next_cell s (blocks : PalettedContainer) (index n : nat) : outcome False (option (nat * Z)) :=
  match n with
  | O => Ok None
  | S n' =>
      v ← expect_cell blocks (Z.of_nat index);
      m ← unwrap (light_material (ls_registry s) v);
      if 0 <? emission m then Ok (Some (index, v)) else next_cell s blocks (S index) n'
  end.

(** [EmissionSources::next], a section per step of [fuel]. *)
Fixpoint emission_next s (address : ChunkAddress) (fuel : nat) (it : EmissionSources)
    : outcome False (option ((LightBlock * Z) * EmissionSources)) :=
  if max_section (ls_height s) <? es_section it then Ok None
  else
    match fuel with
    | O => NoFuel
    | S fuel =>
        let skip := {| es_section := es_section it + 1; es_index := 0 |} in
        found ← section_at s address (es_section it);
        match found with
        | None => emission_next s address fuel skip
        | Some v =>
            if non_empty_blocks (counts v) =? 0 then emission_next s address fuel skip
            else
              cell ← next_cell s (blocks v) (es_index it) (4096 - es_index it);
              match cell with
              | Some (i, id) => Ok (Some ((cell_block address (es_section it) i, id), {| es_section := es_section it; es_index := S i |}))
              | None => emission_next s address fuel skip
              end
        end
    end.

Definition sections_fuel s : nat := Z.to_nat (section_count (ls_height s)).

(** All items, at most [fuel] of them. *)
Fixpoint emission_items s (address : ChunkAddress) (fuel : nat) (it : EmissionSources) : outcome False (list (LightBlock * Z)) :=
  next ← emission_next s address (S (sections_fuel s)) it;
  match next with
  | None => Ok []
  | Some (item, it) =>
      match fuel with
      | O => NoFuel
      | S fuel => items ← emission_items s address fuel it; Ok (item :: items)
      end
  end.
Definition source_emissions s (address : ChunkAddress) : outcome False (list (LightBlock * Z)) :=
  emission_items s address (sections_fuel s * 4096) (emission_start s).
End reading.
