(* ===== verification/LightLayer.v ===== *)
(** * Light layers (src/world/lighting/layer.rs)

    The 4,096 four-bit light values of a section, kept as one integer until a
    write materializes the 2,048-byte buffer.  The abstract value of a layer is
    the function [settled] from coordinates to nibbles, what materialization
    would store; a write is a pointwise update of it. *)

From S2P Require Import Prelude.
Local Open Scope Z_scope.

Definition SIDE : Z := 16.
Definition LAYER_BYTES : Z := 2048.
Definition PLANE_BYTES : nat := 128.

Inductive LayerError :=
| InvalidLength (expected actual : Z)
| CoordinateOutOfBounds (x y z : Z)
| LayerBudgetExceeded
| LayerAllocationFailed.

(** An allocated buffer comes with its capacity. *)
Inductive LayerStorage := Uniform (value : Z) | Allocated (bytes : list Z) (capacity : Z).
Record DataLayer := { storage : LayerStorage }.

Definition layer_uniform (value : Z) : DataLayer := {| storage := Uniform value |}.

Section operations.
Context `{Allocator}.

Definition allocate (allocation_limit : Z) : outcome LayerError (list Z * Z) :=
  if allocation_limit <? LAYER_BYTES then Err LayerBudgetExceeded
  else
    capacity ← ok_or (reserve_exact 1 LAYER_BYTES) LayerAllocationFailed;
    if allocation_limit <? capacity then Err LayerBudgetExceeded
    else Ok (replicate (Z.to_nat LAYER_BYTES) 0, capacity).

Definition from_bytes (bytes : list Z) (allocation_limit : Z) : outcome LayerError DataLayer :=
  if negb (zlen bytes =? LAYER_BYTES) then Err (InvalidLength LAYER_BYTES (zlen bytes))
  else
    '(_, capacity) ← allocate allocation_limit;
    Ok {| storage := Allocated bytes capacity |}.

(** The byte of a value and its shift in it. *)
Definition address (x y z : Z) : outcome LayerError (nat * Z) :=
  if (SIDE <=? x) || (SIDE <=? y) || (SIDE <=? z) then Err (CoordinateOutOfBounds x y z)
  else Ok (Z.to_nat (y * 128 + z * 8 + x / 2), x mod 2 * 4).

Definition layer_get (l : DataLayer) (x y z : Z) : outcome LayerError Z :=
  '(byte, shift) ← address x y z;
  match storage l with
  | Uniform value => Ok value
  | Allocated bytes _ => b ← unwrap (bytes !! byte); Ok (Z.land (Z.shiftr b shift) 15)
  end.

(** [bytes.fill(low_byte | (low_byte << 4))] *)
Definition materialize (l : DataLayer) (allocation_limit : Z) : outcome LayerError DataLayer :=
  match storage l with
  | Uniform value =>
      '(bytes, capacity) ← allocate allocation_limit;
      let low_byte := u_wrap 8 value in
      let fill := Z.lor low_byte (u_wrap 8 (Z.shiftl low_byte 4)) in
      Ok {| storage := Allocated ((λ _, fill) <$> bytes) capacity |}
  | Allocated _ _ => Ok l
  end.

Definition set_nibble (b shift nibble : Z) : Z :=
  Z.lor (Z.land b (u_not 8 (u_wrap 8 (Z.shiftl 15 shift)))) (u_wrap 8 (Z.shiftl nibble shift)).

Definition layer_set (l : DataLayer) (x y z value allocation_limit : Z) : outcome LayerError DataLayer :=
  '(byte, shift) ← address x y z;
  l ← materialize l allocation_limit;
  match storage l with
  | Uniform _ => Panic
  | Allocated bytes capacity =>
      let nibble := Z.land (u_wrap 8 value) 15 in
      b ← unwrap (bytes !! byte);
      Ok {| storage := Allocated (<[byte := set_nibble b shift nibble]> bytes) capacity |}
  end.

Definition layer_fill (l : DataLayer) (value : Z) : DataLayer := layer_uniform value.

Definition layer_bytes (l : DataLayer) : option (list Z) :=
  match storage l with Uniform _ => None | Allocated bytes _ => Some bytes end.

Definition is_filled_with (l : DataLayer) (value : Z) : bool :=
  match storage l with Uniform current => current =? value | Allocated _ _ => false end.
Definition is_empty (l : DataLayer) : bool := is_filled_with l 0.
Definition is_definitely_homogeneous (l : DataLayer) : bool :=
  match storage l with Uniform _ => true | Allocated _ _ => false end.

Definition heap_bytes (l : DataLayer) : Z :=
  match storage l with Uniform _ => 0 | Allocated _ capacity => capacity end.

Definition try_copy (l : DataLayer) (allocation_limit : Z) : outcome LayerError DataLayer :=
  match storage l with
  | Uniform value => Ok (layer_uniform value)
  | Allocated bytes _ => from_bytes bytes allocation_limit
  end.

(** Every plane of the result is the bottom plane of the input. *)
Definition repeat_first_layer (l : DataLayer) (allocation_limit : Z) : outcome LayerError DataLayer :=
  match storage l with
  | Uniform _ => try_copy l allocation_limit
  | Allocated input _ =>
      '(_, capacity) ← allocate allocation_limit;
      let plane := take PLANE_BYTES input in
      Ok {| storage := Allocated (mjoin (replicate 16 plane)) capacity |}
  end.
End operations.

(** ** Abstract value *)

Definition layer_ok (l : DataLayer) : Prop :=
  match storage l with
  | Uniform _ => True
  | Allocated bytes capacity => length bytes = 2048%nat ∧ bytes_ok bytes ∧ LAYER_BYTES ≤ capacity
  end.

Definition local_coords (x y z : Z) : Prop := 0 ≤ x < 16 ∧ 0 ≤ y < 16 ∧ 0 ≤ z < 16.

(** What materialization stores at a coordinate: the low byte of a uniform
    value, its halves overlaid in the odd columns. *)
Definition settled (l : DataLayer) (x y z : Z) : Z :=
  match storage l with
  | Uniform value => if x mod 2 =? 0 then value mod 16 else Z.lor (value mod 16) ((value / 16) mod 16)
  | Allocated bytes _ => Z.land (Z.shiftr (nth (Z.to_nat (y * 128 + z * 8 + x / 2)) bytes 0) (x mod 2 * 4)) 15
  end.

(** Layers that only hold ordinary light levels. *)
Definition light_layer (l : DataLayer) : Prop :=
  layer_ok l ∧ match storage l with Uniform v => 0 ≤ v ≤ 15 | Allocated _ _ => True end.

Lemma address_ok x y z :
  local_coords x y z →
  address x y z = Ok (Z.to_nat (y * 128 + z * 8 + x / 2), x mod 2 * 4) ∧
  (Z.to_nat (y * 128 + z * 8 + x / 2) < 2048)%nat.
Proof.
  intros (?&?&?). unfold address, SIDE. split.
  - destruct (Z.leb_spec 16 x), (Z.leb_spec 16 y), (Z.leb_spec 16 z); (lia || done).
  - pose proof (Z.div_lt_upper_bound x 2 8). pose proof (Z.div_pos x 2). lia.
Qed.

Lemma shift_cases x : 0 ≤ x → x mod 2 = 0 ∨ x mod 2 = 1.
Proof. intros. pose proof (Z.mod_pos_bound x 2). lia. Qed.

(** The byte and shift determine the coordinates. *)
Lemma address_inj x y z x' y' z' :
  local_coords x y z → local_coords x' y' z' →
  y * 128 + z * 8 + x / 2 = y' * 128 + z' * 8 + x' / 2 → x mod 2 = x' mod 2 → (x, y, z) = (x', y', z').
Proof.
  intros (?&?&?) (?&?&?) E M.
  pose proof (Z.div_mod x 2). pose proof (Z.div_mod x' 2).
  pose proof (Z.mod_pos_bound x 2). pose proof (Z.mod_pos_bound x' 2).
  assert (y = y') by lia. assert (z = z') by lia. assert (x = x') by lia. congruence.
Qed.

Lemma layer_get_outside l x y z :
  0 ≤ x → 0 ≤ y → 0 ≤ z → ¬ local_coords x y z → layer_get l x y z = Err (CoordinateOutOfBounds x y z).
Proof.
  intros Hx Hy Hz Hn. unfold layer_get, address, SIDE, local_coords in *.
  destruct (Z.leb_spec 16 x), (Z.leb_spec 16 y), (Z.leb_spec 16 z); cbn [orb]; try done. lia.
Qed.

Lemma layer_get_spec l x y z :
  layer_ok l → local_coords x y z →
  layer_get l x y z = Ok (match storage l with Uniform v => v | Allocated _ _ => settled l x y z end).
Proof.
  intros Hl Hc. unfold layer_get, settled. destruct (address_ok x y z Hc) as [-> Hlt]. mstep.
  unfold layer_ok in Hl. destruct (storage l) as [v|bytes cap]; [done|]. destruct Hl as [Hl _].
  destruct (lookup_lt_ok bytes _ ltac:(rewrite Hl; exact Hlt)) as [b Hb]. rewrite Hb. mstep.
  f_equal. do 2 f_equal. symmetry. rewrite nth_lookup. by rewrite Hb.
Qed.

Lemma light_layer_get l x y z :
  light_layer l → local_coords x y z → layer_get l x y z = Ok (settled l x y z) ∧ 0 ≤ settled l x y z ≤ 15.
Proof.
  intros [Hok Hl] Hc. rewrite layer_get_spec by done. unfold settled.
  destruct (storage l) as [v|bytes cap].
  - rewrite (Z.mod_small v 16), (Z.div_small v 16), Zmod_0_l, Z.lor_0_r by lia. by destruct (_ =? 0).
  - split; [done|]. rewrite (land_ones_mod _ 4) by lia. pose proof (Z.mod_pos_bound (Z.shiftr (nth (Z.to_nat (y * 128 + z * 8 + x / 2)) bytes 0) (x mod 2 * 4)) (2 ^ 4)). lia.
Qed.

(** ** Materialization *)

Lemma allocate_cases `{Allocator} limit :
  (∃ e, allocate limit = Err e) ∨
  (∃ c, allocate limit = Ok (replicate 2048 0, c) ∧ LAYER_BYTES ≤ c ≤ limit).
Proof.
  unfold allocate. destruct (Z.ltb_spec limit LAYER_BYTES); [eauto|].
  destruct (reserve_exact 1 LAYER_BYTES) as [c|] eqn:E; mstep; [|eauto].
  destruct (Z.ltb_spec limit c); [eauto|]. right. exists c. split; [done|].
  apply reserve_exact_ge in E. lia.
Qed.

Lemma allocate_exact `{Allocator} limit :
  exact_memory → LAYER_BYTES ≤ limit → allocate limit = Ok (replicate 2048 0, LAYER_BYTES).
Proof.
  intros He Hl. unfold allocate. destruct (Z.ltb_spec limit LAYER_BYTES); [lia|]. rewrite He. mstep.
  by destruct (Z.ltb_spec limit LAYER_BYTES); [lia|].
Qed.

(** The overlaid byte: nibbles of a materialized uniform value. *)
Lemma fill_byte_nibbles v :
  let b := Z.lor (u_wrap 8 v) (u_wrap 8 (Z.shiftl (u_wrap 8 v) 4)) in
  is_byte b ∧ Z.land (Z.shiftr b 0) 15 = v mod 16 ∧
  Z.land (Z.shiftr b 4) 15 = Z.lor (v mod 16) ((v / 16) mod 16).
Proof.
  intros b. split; [|split].
  - apply in_u_testbit; [lia| |].
    + apply Z.lor_nonneg. split; apply u_wrap_range; lia.
    + intros i Hi. unfold b. rewrite Z.lor_spec, !u_wrap_testbit by lia.
      destruct (Z.ltb_spec i 8); [lia|]. done.
  - rewrite (land_ones_mod _ 4), Z.shiftr_0_r by lia. change 16 with (2 ^ 4). apply Z.bits_inj'. intros i Hi.
    rewrite !mod_pow2_testbit by lia. unfold b. rewrite Z.lor_spec, !u_wrap_testbit, shiftl_testbit by lia.
    bit_case; [|done]. destruct (Z.ltb_spec i 8), (Z.leb_spec 4 i); try lia. cbn. by rewrite orb_false_r.
  - rewrite (land_ones_mod _ 4) by lia. change (v / 16) with (v / 2 ^ 4). change 16 with (2 ^ 4).
    rewrite <- Z.shiftr_div_pow2 by lia. apply Z.bits_inj'. intros i Hi.
    rewrite Z.lor_spec, !mod_pow2_testbit, !Z.shiftr_spec by lia. unfold b.
    rewrite Z.lor_spec, !u_wrap_testbit, shiftl_testbit, u_wrap_testbit by lia.
    bit_case; [|done]. destruct (Z.ltb_spec (i + 4) 8), (Z.leb_spec 4 (i + 4)), (Z.ltb_spec (i + 4 - 4) 8); try lia.
    cbn. replace (i + 4 - 4) with i by lia. apply orb_comm.
Qed.

Lemma nth_replicate_lt {A} n (a d : A) i : (i < n)%nat → nth i (replicate n a) d = a.
Proof. intros. rewrite nth_lookup. by rewrite lookup_replicate_2. Qed.

Lemma fmap_replicate_const {A B} n (a : A) (b : B) : (λ _, b) <$> replicate n a = replicate n b.
Proof. induction n; [done|]. cbn. by f_equal. Qed.

Lemma materialize_spec `{Allocator} l limit :
  layer_ok l →
  (∃ e, materialize l limit = Err e ∧ ∃ v, storage l = Uniform v ∧ allocate limit = Err e) ∨
  (∃ l' bytes c, materialize l limit = Ok l' ∧ storage l' = Allocated bytes c ∧ layer_ok l' ∧
     ∀ x y z, local_coords x y z → settled l' x y z = settled l x y z).
Proof.
  intros Hl. unfold materialize. destruct (storage l) as [v|bytes c] eqn:El.
  - destruct (allocate_cases limit) as [[e He]|(c&Hc&?)].
    + left. exists e. rewrite He. mstep. eauto.
    + right. rewrite Hc. mstep. rewrite fmap_replicate_const. eexists _, _, _. split; [done|]. split; [done|].
      destruct (fill_byte_nibbles v) as (Hb&Hlo&Hhi).
      split; [unfold layer_ok; cbn [storage]; rewrite length_replicate; split_and!; [done|by apply Forall_replicate|lia]|].
      intros x y z Hc'. destruct (address_ok x y z Hc') as [_ Hlt]. unfold settled. rewrite El. cbn [storage].
      rewrite nth_replicate_lt by done. destruct (shift_cases x) as [->| ->]; [apply Hc'|exact Hlo|exact Hhi].
  - right. exists l, bytes, c. by split_and!.
Qed.

(** ** Writes *)

Lemma set_nibble_spec b s n :
  is_byte b → s = 0 ∨ s = 4 → 0 ≤ n < 16 →
  is_byte (set_nibble b s n) ∧ Z.land (Z.shiftr (set_nibble b s n) s) 15 = n ∧
  Z.land (Z.shiftr (set_nibble b s n) (4 - s)) 15 = Z.land (Z.shiftr b (4 - s)) 15.
Proof.
  intros Hb Hs Hn. assert (Hn4 : in_u 4 n) by (unfold in_u; lia).
  assert (Hbit : ∀ i, 0 ≤ i → Z.testbit (set_nibble b s n) i =
    (Z.testbit b i && negb ((s <=? i) && (i <? s + 4))) || ((s <=? i) && (i <? s + 4) && Z.testbit n (i - s))).
  { intros i Hi. unfold set_nibble. change 15 with (2 ^ 4 - 1).
    rewrite Z.lor_spec, Z.land_spec, u_not_testbit, !u_wrap_testbit, !shiftl_testbit by lia.
    destruct (Z.leb_spec s i).
    - rewrite ones_testbit by lia. destruct (Z.ltb_spec i 8) as [|].
      + cbn. destruct (Z.ltb_spec (i - s) 4), (Z.ltb_spec i (s + 4)); try lia; cbn.
        * by rewrite andb_false_r.
        * rewrite (testbit_high 4 n (i - s)) by (done || lia). rewrite andb_true_r. by rewrite !orb_false_r.
      + cbn. rewrite (testbit_high 8 b i) by (done || lia). cbn.
        rewrite (testbit_high 4 n (i - s)) by (done || lia). by rewrite andb_false_r.
    - cbn. destruct (Z.ltb_spec i 8); cbn; [by rewrite andb_true_r, !orb_false_r|].
      rewrite (testbit_high 8 b i) by (done || lia). done. }
  assert (Hnn : 0 ≤ set_nibble b s n).
  { apply Z.lor_nonneg. split; [apply Z.land_nonneg; left; apply Hb|apply u_wrap_range; lia]. }
  split; [|split].
  - apply in_u_testbit; [lia|done|]. intros i Hi. rewrite Hbit by lia.
    rewrite (testbit_high 8 b i) by (done || lia). destruct (Z.ltb_spec i (s + 4)); [lia|]. by rewrite !andb_false_r.
  - change 15 with (2 ^ 4 - 1). rewrite land_ones_mod by lia. apply Z.bits_inj'. intros i Hi.
    rewrite mod_pow2_testbit, Z.shiftr_spec, Hbit by lia. replace (i + s - s) with i by lia.
    destruct (Z.ltb_spec i 4); [|by rewrite (testbit_high 4 n i) by (done || lia)].
    destruct (Z.leb_spec s (i + s)), (Z.ltb_spec (i + s) (s + 4)); try lia. cbn. by rewrite andb_false_r.
  - change 15 with (2 ^ 4 - 1). rewrite !land_ones_mod by lia. apply Z.bits_inj'. intros i Hi.
    rewrite !mod_pow2_testbit, !Z.shiftr_spec, Hbit by lia.
    destruct (Z.ltb_spec i 4); [|done]. cbn.
    destruct (Z.leb_spec s (i + (4 - s))), (Z.ltb_spec (i + (4 - s)) (s + 4)); try lia; cbn;
      by rewrite andb_true_r, orb_false_r.
Qed.

Section writes.
Context `{Allocator}.

(** A write inside the section. *)
Lemma layer_set_inside (l : DataLayer) (x y z value limit : Z) :
  layer_ok l → local_coords x y z →
  (is_definitely_homogeneous l = true ∧ ∃ e, allocate limit = Err e ∧ layer_set l x y z value limit = Err e) ∨
  (∃ l', layer_set l x y z value limit = Ok l' ∧ layer_ok l' ∧ is_definitely_homogeneous l' = false ∧
     ∀ x' y' z', local_coords x' y' z' → layer_get l' x' y' z' =
       Ok (if bool_decide ((x', y', z') = (x, y, z)) then value mod 16 else settled l x' y' z')).
Proof.
  intros Hl Hc. assert (Hx : 0 ≤ x) by apply Hc. unfold layer_set. destruct (address_ok x y z Hc) as [-> Hlt]. mstep.
  destruct (materialize_spec l limit Hl) as [(e&->&v&Hu&He)|(m&bytes&c&->&Hm&Hok&Hset)]; mstep.
  { left. unfold is_definitely_homogeneous. rewrite Hu. eauto. }
  right. rewrite Hm. unfold layer_ok in Hok. rewrite Hm in Hok. destruct Hok as (Hlen&Hb&Hcap).
  destruct (lookup_lt_ok bytes _ ltac:(rewrite Hlen; exact Hlt)) as [b Hbyte]. rewrite Hbyte. mstep.
  eexists. split; [done|]. pose proof (Forall_lookup_1 _ _ _ _ Hb Hbyte) as Hbb.
  assert (Hn : Z.land (u_wrap 8 value) 15 = value mod 16 ∧ 0 ≤ value mod 16 < 16).
  { split; [|apply Z.mod_pos_bound; lia]. rewrite (land_ones_mod _ 4) by lia. change 16 with (2 ^ 4).
    apply Z.bits_inj'. intros i Hi. rewrite !mod_pow2_testbit, u_wrap_testbit by lia.
    destruct (Z.ltb_spec i 4), (Z.ltb_spec i 8); (lia || done). }
  destruct Hn as [-> Hn].
  assert (Hs : x mod 2 * 4 = 0 ∨ x mod 2 * 4 = 4) by (destruct (shift_cases x Hx) as [->| ->]; lia).
  destruct (set_nibble_spec b (x mod 2 * 4) (value mod 16) Hbb Hs Hn) as (Hnb&Hsame&Hother).
  match goal with |- layer_ok ?q ∧ _ => set (l' := q) end.
  assert (Hl' : layer_ok l').
  { unfold l', layer_ok. cbn [storage]. rewrite length_insert. split_and!; [done|by apply Forall_insert|done]. }
  split; [done|]. split; [done|]. intros x' y' z' Hc'. rewrite layer_get_spec by done. unfold l' at 1. cbn [storage].
  f_equal. rewrite <- (Hset x' y' z' Hc'). unfold settled, l'. rewrite Hm. cbn [storage].
  destruct (address_ok x' y' z' Hc') as [_ Hlt'].
  destruct (decide (y' * 128 + z' * 8 + x' / 2 = y * 128 + z * 8 + x / 2)) as [E|E].
  - rewrite E. rewrite (nth_lookup (<[_ := _]> _)), list_lookup_insert_eq by lia. cbn [default id].
    rewrite (nth_lookup bytes), Hbyte. cbn [default id].
    destruct (decide (x' mod 2 = x mod 2)) as [Em|Em].
    + rewrite Em, bool_decide_eq_true_2 by (by apply address_inj). done.
    + rewrite bool_decide_eq_false_2 by congruence.
      assert (x' mod 2 * 4 = 4 - x mod 2 * 4) as ->; [|done].
      pose proof (shift_cases x Hx). pose proof (shift_cases x' ltac:(apply Hc')). lia.
  - rewrite bool_decide_eq_false_2 by congruence. rewrite !nth_lookup, list_lookup_insert_ne; [done|].
    intros E'. apply E. assert (0 ≤ x / 2 ∧ 0 ≤ x' / 2) by (destruct Hc', Hc; split; apply Z.div_pos; lia).
    destruct Hc as (?&?&?), Hc' as (?&?&?). lia.
Qed.

(** A write to a well-formed layer either fails with a typed error, exactly
    outside the section or when a uniform layer cannot be materialized within the
    allowance, or stores the low nibble at its coordinates and materializes what
    the layer held everywhere else; reading it back gives these nibbles. *)
Theorem light_layer_write (l : DataLayer) (x y z value limit : Z) :
  layer_ok l → 0 ≤ x → 0 ≤ y → 0 ≤ z →
  (¬ local_coords x y z ∧ layer_set l x y z value limit = Err (CoordinateOutOfBounds x y z)
     ∧ layer_get l x y z = Err (CoordinateOutOfBounds x y z)) ∨
  (local_coords x y z ∧ is_definitely_homogeneous l = true ∧
     ∃ e, allocate limit = Err e ∧ layer_set l x y z value limit = Err e) ∨
  (local_coords x y z ∧ ∃ l', layer_set l x y z value limit = Ok l' ∧ layer_ok l' ∧ is_definitely_homogeneous l' = false ∧
     ∀ x' y' z', local_coords x' y' z' → layer_get l' x' y' z' =
       Ok (if bool_decide ((x', y', z') = (x, y, z)) then value mod 16 else settled l x' y' z')).
Proof.
  intros Hl Hx Hy Hz.
  destruct (decide (0 ≤ x < 16 ∧ 0 ≤ y < 16 ∧ 0 ≤ z < 16)) as [Hc|Hc]; [right|left].
  - destruct (layer_set_inside l x y z value limit Hl Hc) as [[? ?]|?]; [by left|by right].
  - split; [done|]. split; [|by apply layer_get_outside]. unfold layer_set, address, SIDE.
    destruct (Z.leb_spec 16 x), (Z.leb_spec 16 y), (Z.leb_spec 16 z); cbn [orb]; try done. lia.
Qed.

(** Copies and repetitions. *)
Lemma from_bytes_spec bytes limit :
  bytes_ok bytes →
  (∃ e, from_bytes bytes limit = Err e ∧ (zlen bytes = LAYER_BYTES → allocate limit = Err e)) ∨
  (∃ c, from_bytes bytes limit = Ok {| storage := Allocated bytes c |} ∧ layer_ok {| storage := Allocated bytes c |}).
Proof.
  intros Hb. unfold from_bytes. destruct (Z.eqb_spec (zlen bytes) LAYER_BYTES) as [Hl|]; cbn [negb]; [|left; eexists; done].
  destruct (allocate_cases limit) as [[e ->]|(c&->&?)]; mstep; [left; eauto|right]. exists c. split; [done|].
  unfold layer_ok. cbn. unfold zlen, LAYER_BYTES in *. split_and!; [lia|done|lia].
Qed.

Lemma try_copy_spec l limit :
  layer_ok l →
  (∃ e, try_copy l limit = Err e ∧ allocate limit = Err e) ∨
  (∃ l', try_copy l limit = Ok l' ∧ layer_ok l' ∧
     is_definitely_homogeneous l' = is_definitely_homogeneous l ∧ (light_layer l → light_layer l') ∧
     ∀ x y z, layer_get l' x y z = layer_get l x y z).
Proof.
  intros Hl. unfold try_copy. destruct (storage l) as [v|bytes c] eqn:El.
  - right. eexists. split; [done|]. split; [done|]. unfold is_definitely_homogeneous, light_layer, layer_get. rewrite El.
    split; [done|]. split; [|done]. intros [_ ?]. done.
  - unfold layer_ok in Hl. rewrite El in Hl. destruct Hl as (Hlen&Hb&_).
    destruct (from_bytes_spec bytes limit Hb) as [(e&->&He)|(c'&->&Hok)].
    + left. exists e. split; [done|]. apply He. unfold zlen. by rewrite Hlen.
    + right. eexists. split; [done|]. split; [done|]. unfold is_definitely_homogeneous, layer_get. rewrite El.
      split; [done|]. split; [by intros _; split|done].
Qed.

(** The repeated plane: every value is the one of the bottom plane. *)
Lemma nth_repeat_plane (plane : list Z) n k i :
  length plane = 128%nat → (k < n)%nat → (i < 128)%nat → nth (k * 128 + i) (mjoin (replicate n plane)) 0 = nth i plane 0.
Proof.
  intros Hl. revert k. induction n as [|n IH]; intros k Hk Hi; [lia|]. cbn [replicate mjoin list_join].
  destruct k as [|k].
  - by rewrite app_nth1 by lia.
  - rewrite app_nth2 by lia. rewrite Hl. replace (S k * 128 + i - 128)%nat with (k * 128 + i)%nat by lia.
    apply IH; lia.
Qed.

Lemma repeat_first_layer_spec l limit :
  layer_ok l →
  (∃ e, repeat_first_layer l limit = Err e ∧ allocate limit = Err e) ∨
  (∃ l', repeat_first_layer l limit = Ok l' ∧ layer_ok l' ∧ (light_layer l → light_layer l') ∧
     ∀ x y z, local_coords x y z → layer_get l' x y z = layer_get l x 0 z).
Proof.
  intros Hl. unfold repeat_first_layer. destruct (storage l) as [v|input c] eqn:El.
  - destruct (try_copy_spec l limit Hl) as [?|(l'&?&?&?&?&Hg)]; [by left|right]. exists l'. split_and!; try done.
    intros x y z Hc. rewrite Hg. unfold layer_get. rewrite El.
    destruct (address_ok x y z Hc) as [-> _]. destruct (address_ok x 0 z) as [-> _]; [unfold local_coords in *; lia|]. done.
  - pose proof Hl as Hl'. unfold layer_ok in Hl'. rewrite El in Hl'. destruct Hl' as (Hlen&Hb&_).
    destruct (allocate_cases limit) as [[e ->]|(c'&->&?)]; mstep; [left; eauto|right].
    eexists. split; [done|]. unfold PLANE_BYTES.
    assert (Hp : length (take 128 input) = 128%nat) by (rewrite length_take; lia).
    match goal with |- layer_ok ?q ∧ _ => set (l' := q) end.
    assert (Hok : layer_ok l').
    { unfold l', layer_ok. cbn [storage]. split_and!; [|repeat apply Forall_app_2; try done; by apply Forall_take|lia].
      cbn [replicate mjoin list_join]. by rewrite !length_app, !Hp. }
    split; [done|]. split; [by intros _; split|]. intros x y z Hc.
    assert (Hc0 : local_coords x 0 z) by (unfold local_coords in *; lia).
    rewrite !layer_get_spec by done. unfold l' at 1. cbn [storage]. rewrite El. unfold settled, l'. rewrite El. cbn [storage].
    do 3 f_equal. destruct Hc as (?&?&?). pose proof (Z.div_lt_upper_bound x 2 8). pose proof (Z.div_pos x 2).
    replace (Z.to_nat (y * 128 + z * 8 + x / 2)) with (Z.to_nat y * 128 + Z.to_nat (z * 8 + x / 2))%nat by lia.
    rewrite nth_repeat_plane by (done || lia). replace (0 * 128 + z * 8 + x / 2) with (z * 8 + x / 2) by lia.
    rewrite !nth_lookup, lookup_take_lt by lia. done.
Qed.
End writes.

(** A uniform 16 materializes as alternating zeros and ones. *)
Example materialize_sixteen :
  match layer_set (layer_uniform 16) 0 0 0 7 2048 with
  | Ok l => ((λ x, layer_get l x 1 0) <$> [0; 1; 2; 3], layer_get l 0 0 0, layer_get l 1 0 0)
  | _ => ([], Ok 0, Ok 0)
  end = ([Ok 0; Ok 1; Ok 0; Ok 1], Ok 7, Ok 1).
Proof. vm_compute. reflexivity. Qed.

Lemma light_layer_write_witness :
  let l := layer_uniform 16 in
  (¬ local_coords 3 2 1 ∧ layer_set l 3 2 1 9 2048 = Err (CoordinateOutOfBounds 3 2 1)
     ∧ layer_get l 3 2 1 = Err (CoordinateOutOfBounds 3 2 1)) ∨
  (local_coords 3 2 1 ∧ is_definitely_homogeneous l = true ∧
     ∃ e, allocate 2048 = Err e ∧ layer_set l 3 2 1 9 2048 = Err e) ∨
  (local_coords 3 2 1 ∧ ∃ l', layer_set l 3 2 1 9 2048 = Ok l' ∧ layer_ok l' ∧ is_definitely_homogeneous l' = false ∧
     ∀ x' y' z', local_coords x' y' z' → layer_get l' x' y' z' =
       Ok (if bool_decide ((x', y', z') = (3, 2, 1)) then 9 mod 16 else settled l x' y' z')).
Proof. apply (light_layer_write (layer_uniform 16) 3 2 1 9 2048); [exact I|lia|lia|lia]. Defined.
