(* ===== verification/LightQueue.v ===== *)
(** * Light work queues (src/world/lighting/queue.rs)

    The bounded ring of propagation entries and the deduplicated batch of
    blocks to check.  The ring implements a first-in first-out list through
    wrapping and growth; the batch implements a list without repetitions with a
    read cursor, for every hash function.  Both charge their memory exactly. *)

From stdpp Require Import list.
From S2P Require Import Prelude.
From S2P Require Import Probe.
From S2P Require Import LightTypes.
Local Open Scope nat_scope.

Inductive QueueError := InvalidCapacity | AllocationLimit | AllocationFailed | Full.

Record Entry := {
  e_pos : LightBlock;
  e_level : Z;
  e_directions : Z;
  e_empty_shape : bool;
  e_from_emission : bool;
}.

Definition zero_block : LightBlock := {| lb_x := 0; lb_y := 0; lb_z := 0 |}.
Definition EMPTY : Entry :=
  {| e_pos := zero_block; e_level := 0; e_directions := 0; e_empty_shape := true; e_from_emission := false |}.

(** [size_of] of the element types. *)
Class QueueLayout := {
  entry_size : Z; block_size : Z; slot_size : Z;
  queue_layout_nonneg : (0 ≤ entry_size ∧ 0 ≤ block_size ∧ 0 ≤ slot_size)%Z;
}.

Record WorkQueue := { wq_entries : list Entry; wq_capacity : Z; wq_start : nat; wq_len : nat }.

Record CheckQueue := {
  cq_positions : list LightBlock;
  cq_positions_cap : Z;
  cq_slots : list (option nat);
  cq_slots_cap : Z;
  cq_hash : LightBlock → nat;
  cq_limit : Z;
  cq_cursor : nat;
}.

(** ** Operations *)

Section operations.
Context `{Allocator, QueueLayout}.

(** The capacity obtained and the budget left. *)
Definition reserve (size capacity remaining : Z) : outcome QueueError (Z * Z) :=
  bytes ← ok_or (checked_mul capacity size) InvalidCapacity;
  if (remaining <? bytes)%Z then Err AllocationLimit
  else
    output ← ok_or (reserve_exact size capacity) AllocationFailed;
    actual ← ok_or (checked_mul output size) AllocationLimit;
    if (remaining <? actual)%Z then Err AllocationLimit else Ok (output, remaining - actual)%Z.

Definition wq_new (capacity remaining : Z) : outcome QueueError (WorkQueue * Z) :=
  if (capacity =? 0)%Z then Err InvalidCapacity
  else
    '(cap, remaining) ← reserve entry_size capacity remaining;
    Ok ({| wq_entries := replicate (Z.to_nat capacity) EMPTY; wq_capacity := cap; wq_start := 0; wq_len := 0 |}, remaining).

Definition wq_is_empty (q : WorkQueue) : bool := wq_len q =? 0.
(** [self.entries.len() - self.len] *)
Definition wq_remaining_capacity (q : WorkQueue) : outcome False nat :=
  _ ← assert_that (wq_len q <=? length (wq_entries q)); Ok (length (wq_entries q) - wq_len q).
Definition wq_heap_bytes (q : WorkQueue) : Z := (wq_capacity q * entry_size)%Z.
Definition wq_peek (q : WorkQueue) : outcome False (option Entry) :=
  if wq_len q =? 0 then Ok None else e ← unwrap (wq_entries q !! wq_start q); Ok (Some e).

(** [(self.start + offset) % self.entries.len()], a panic on an empty ring. *)
Definition wq_slot (q : WorkQueue) (offset : nat) : outcome False nat :=
  _ ← assert_that (0 <? length (wq_entries q)); Ok ((wq_start q + offset) mod length (wq_entries q)).

Definition wq_push (q : WorkQueue) (e : Entry) : outcome QueueError WorkQueue :=
  room ← lift (wq_remaining_capacity q);
  if room =? 0 then Err Full
  else
    tail ← lift (wq_slot q (wq_len q));
    _ ← unwrap (wq_entries q !! tail);
    Ok {| wq_entries := <[tail := e]> (wq_entries q); wq_capacity := wq_capacity q; wq_start := wq_start q; wq_len := wq_len q + 1 |}.

Definition wq_pop (q : WorkQueue) : outcome False (option Entry * WorkQueue) :=
  e ← wq_peek q;
  match e with
  | None => Ok (None, q)
  | Some e =>
      start ← wq_slot q 1;
      _ ← assert_that (0 <? wq_len q);
      Ok (Some e, {| wq_entries := wq_entries q; wq_capacity := wq_capacity q; wq_start := start; wq_len := wq_len q - 1 |})
  end.

(** [for offset in 0..self.len { replacement.entries[offset] = .. }] *)
Fixpoint wq_copy (q : WorkQueue) (target : list Entry) (offset n : nat) : outcome False (list Entry) :=
  match n with
  | O => Ok target
  | S n' =>
      slot ← wq_slot q offset;
      e ← unwrap (wq_entries q !! slot);
      _ ← unwrap (target !! offset);
      wq_copy q (<[offset := e]> target) (S offset) n'
  end.

(** On an error the queue and the budget are unchanged. *)
Definition wq_grow (q : WorkQueue) (capacity remaining : Z) : outcome QueueError (WorkQueue * Z) :=
  if (capacity <=? zlen (wq_entries q))%Z then Ok (q, remaining)
  else
    '(replacement, budget) ← wq_new capacity remaining;
    entries ← lift (wq_copy q (wq_entries replacement) 0 (wq_len q));
    next_budget ← ok_or (checked_add budget (wq_heap_bytes q)) AllocationLimit;
    Ok ({| wq_entries := entries; wq_capacity := wq_capacity replacement; wq_start := wq_start replacement; wq_len := wq_len q |}, next_budget).

Definition cq_new (hash : LightBlock → nat) (capacity remaining : Z) : outcome QueueError (CheckQueue * Z) :=
  if (capacity =? 0)%Z then Err InvalidCapacity
  else
    count ← ok_or (power ← next_power_of_two capacity; checked_mul power 2) InvalidCapacity;
    '(pc, budget) ← reserve block_size capacity remaining;
    '(sc, budget) ← reserve slot_size count budget;
    Ok ({| cq_positions := []; cq_positions_cap := pc; cq_slots := replicate (Z.to_nat count) None; cq_slots_cap := sc;
           cq_hash := hash; cq_limit := capacity; cq_cursor := 0 |}, budget).

Definition cq_mask (c : CheckQueue) : nat := length (cq_slots c) - 1.

(** [Ok(slot)] (left) holds the position, [Err(slot)] (right) is where it would go. *)
Definition slot_body (c : CheckQueue) (pos : LightBlock) (slot : nat) : outcome False (option (nat + nat)) :=
  index ← unwrap (cq_slots c !! slot);
  match index with
  | None => Ok (Some (inr slot))
  | Some index =>
      p ← unwrap (cq_positions c !! index);
      if decide (p = pos) then Ok (Some (inl slot)) else Ok None
  end.
Definition cq_slot (c : CheckQueue) (pos : LightBlock) : outcome False (nat + nat) :=
  probe_loop (length (cq_slots c)) (slot_body c pos) (cq_mask c) (Nat.land (cq_hash c pos) (cq_mask c)).

Definition with_positions (c : CheckQueue) (positions : list LightBlock) (slots : list (option nat)) (cursor : nat) : CheckQueue :=
  {| cq_positions := positions; cq_positions_cap := cq_positions_cap c; cq_slots := slots; cq_slots_cap := cq_slots_cap c;
     cq_hash := cq_hash c; cq_limit := cq_limit c; cq_cursor := cursor |}.

Definition cq_insert (c : CheckQueue) (pos : LightBlock) : outcome QueueError (bool * CheckQueue) :=
  found ← lift (cq_slot c pos);
  match found with
  | inl _ => Ok (false, c)
  | inr slot =>
      if (zlen (cq_positions c) =? cq_limit c)%Z then Err Full
      else
        _ ← unwrap (cq_slots c !! slot);
        Ok (true, with_positions c (cq_positions c ++ [pos]) (<[slot := Some (length (cq_positions c))]> (cq_slots c)) (cq_cursor c))
  end.

Definition cq_peek (c : CheckQueue) : option LightBlock := cq_positions c !! cq_cursor c.
Definition cq_pop (c : CheckQueue) : option LightBlock * CheckQueue :=
  match cq_peek c with
  | None => (None, c)
  | Some pos => (Some pos, with_positions c (cq_positions c) (cq_slots c) (cq_cursor c + 1))
  end.
Definition cq_is_empty (c : CheckQueue) : bool := cq_cursor c =? length (cq_positions c).
Definition cq_heap_bytes (c : CheckQueue) : Z := (cq_positions_cap c * block_size + cq_slots_cap c * slot_size)%Z.
Definition cq_clear (c : CheckQueue) : CheckQueue :=
  match cq_positions c with
  | [] => with_positions c [] (cq_slots c) 0
  | _ => with_positions c [] (replicate (length (cq_slots c)) None) 0
  end.

(** [replacement.insert(pos).expect(..)] for each position. *)
Fixpoint cq_insert_all (c : CheckQueue) (positions : list LightBlock) : outcome False CheckQueue :=
  match positions with
  | [] => Ok c
  | pos :: rest =>
      match cq_insert c pos with
      | Ok (_, c') => cq_insert_all c' rest
      | Err _ => Panic
      | Panic => Panic
      | NoFuel => NoFuel
      end
  end.

Definition cq_grow (hash : LightBlock → nat) (c : CheckQueue) (capacity remaining : Z) : outcome QueueError (CheckQueue * Z) :=
  if (capacity <=? cq_limit c)%Z then Ok (c, remaining)
  else
    '(replacement, budget) ← cq_new hash capacity remaining;
    replacement ← lift (cq_insert_all replacement (cq_positions c));
    next_budget ← ok_or (checked_add budget (cq_heap_bytes c)) AllocationLimit;
    Ok (with_positions replacement (cq_positions replacement) (cq_slots replacement) (cq_cursor c), next_budget).
End operations.

(** ** Reservations *)

Section reservations.
Context `{Allocator}.

Lemma reserve_cases size capacity remaining :
  (∃ e, reserve size capacity remaining = Err e ∧ e ≠ Full) ∨
  (∃ c, reserve size capacity remaining = Ok (c, remaining - c * size)%Z ∧ (capacity ≤ c)%Z ∧ (0 ≤ remaining - c * size)%Z).
Proof.
  unfold reserve. destruct (checked_mul capacity size) as [bytes|]; mstep; [|left; eexists; done].
  destruct (_ <? _)%Z; [left; eexists; done|]. destruct (reserve_exact size capacity) as [c|] eqn:E; mstep; [|left; eexists; done].
  unfold checked_mul. destruct (_ <=? _)%Z; mstep; [|left; eexists; done].
  destruct (Z.ltb_spec remaining (c * size)); [left; eexists; done|right]. exists c.
  apply reserve_exact_ge in E. split; [done|]. lia.
Qed.
End reservations.

(** ** The ring as a list *)

Definition wq_items (q : WorkQueue) : list Entry :=
  (λ i, nth ((wq_start q + i) mod length (wq_entries q)) (wq_entries q) EMPTY) <$> seq 0 (wq_len q).

Record wq_ok (q : WorkQueue) : Prop := {
  wo_start : wq_start q < length (wq_entries q);
  wo_len : wq_len q ≤ length (wq_entries q);
  wo_capacity : (zlen (wq_entries q) ≤ wq_capacity q)%Z;
}.

Definition wq_bound (q : WorkQueue) : nat := length (wq_entries q).

Lemma wq_slot_ok q i : wq_ok q → wq_slot q i = Ok ((wq_start q + i) mod length (wq_entries q)).
Proof.
  intros Hq. pose proof (wo_start q Hq). unfold wq_slot. destruct (Nat.ltb_spec 0 (length (wq_entries q))); [done|lia].
Qed.

Lemma wq_slot_lt q i : wq_ok q → (wq_start q + i) mod length (wq_entries q) < length (wq_entries q).
Proof. intros Hq. pose proof (wo_start q Hq). apply Nat.mod_upper_bound. lia. Qed.

(** Slots of different offsets below the length differ. *)
Lemma ring_inj s n i j : s < n → i < n → j < n → (s + i) mod n = (s + j) mod n → i = j.
Proof.
  intros Hs Hi Hj E.
  assert (Hm : ∀ k, k < n → (s + k) mod n = if s + k <? n then s + k else s + k - n).
  { intros k Hk. destruct (Nat.ltb_spec (s + k) n); [by apply Nat.mod_small|].
    replace (s + k) with (s + k - n + 1 * n) at 1 by lia. rewrite Nat.Div0.mod_add. apply Nat.mod_small. lia. }
  rewrite !Hm in E by done. destruct (Nat.ltb_spec (s + i) n), (Nat.ltb_spec (s + j) n); lia.
Qed.

Lemma wq_remaining_ok q : wq_ok q → wq_remaining_capacity q = Ok (length (wq_entries q) - wq_len q).
Proof. intros Hq. unfold wq_remaining_capacity. by destruct (Nat.leb_spec (wq_len q) (length (wq_entries q))); [|pose proof (wo_len q Hq); lia]. Qed.

Lemma length_wq_items q : length (wq_items q) = wq_len q.
Proof. unfold wq_items. by rewrite length_fmap, length_seq. Qed.

Lemma wq_push_spec q e :
  wq_ok q →
  (wq_len q = wq_bound q ∧ wq_push q e = Err Full) ∨
  (wq_len q < wq_bound q ∧ ∃ q', wq_push q e = Ok q' ∧ wq_ok q' ∧ wq_items q' = wq_items q ++ [e] ∧
     wq_bound q' = wq_bound q ∧ wq_capacity q' = wq_capacity q).
Proof.
  intros Hq. pose proof Hq as [Hs Hl Hc]. unfold wq_push, wq_bound. rewrite wq_remaining_ok by done. unfold lift. mstep.
  destruct (Nat.eqb_spec (length (wq_entries q) - wq_len q) 0); [left; split; [lia|done]|right]. split; [lia|].
  rewrite wq_slot_ok by done. mstep. set (t := (wq_start q + wq_len q) mod length (wq_entries q)).
  assert (Ht : t < length (wq_entries q)) by (apply wq_slot_lt; done).
  destruct (lookup_lt_ok (wq_entries q) t Ht) as [old ->]. mstep. eexists. split; [done|].
  split; [|split; [|split; [by cbn; rewrite length_insert|done]]].
  - split; cbn [wq_entries wq_start wq_len wq_capacity]; unfold zlen; rewrite length_insert; [done|lia|done].
  - unfold wq_items. cbn [wq_entries wq_start wq_len]. rewrite length_insert, Nat.add_1_r, seq_S, fmap_app. cbn [fmap list_fmap].
    rewrite Nat.add_0_l. f_equal.
    + apply list_fmap_ext. intros i j Hj. apply lookup_seq in Hj as [-> Hj]. cbn.
      rewrite !nth_lookup, list_lookup_insert_ne; [done|]. intros E. apply ring_inj in E; lia.
    + f_equal. fold t. rewrite nth_lookup, list_lookup_insert_eq by done. done.
Qed.

Lemma wq_items_cons q :
  wq_ok q → 0 < wq_len q → ∃ e, wq_entries q !! wq_start q = Some e ∧
  wq_items q = e :: wq_items {| wq_entries := wq_entries q; wq_capacity := wq_capacity q;
    wq_start := (wq_start q + 1) mod length (wq_entries q); wq_len := wq_len q - 1 |}.
Proof.
  intros Hq Hl. destruct (lookup_lt_ok (wq_entries q) (wq_start q) (wo_start q Hq)) as [e He]. exists e. split; [done|].
  unfold wq_items. cbn [wq_entries wq_start wq_len]. replace (wq_len q) with (S (wq_len q - 1)) at 1 by lia. cbn [seq fmap list_fmap].
  f_equal.
  - rewrite Nat.add_0_r, Nat.mod_small by apply (wo_start q Hq). by rewrite nth_lookup, He.
  - rewrite <- fmap_S_seq, <- list_fmap_compose. apply list_fmap_ext. intros i j Hj. cbn. f_equal.
    rewrite Nat.Div0.add_mod_idemp_l. f_equal. lia.
Qed.

Lemma wq_peek_spec q : wq_ok q → wq_peek q = Ok (head (wq_items q)).
Proof.
  intros Hq. unfold wq_peek. destruct (Nat.eqb_spec (wq_len q) 0) as [E|E].
  - unfold wq_items. by rewrite E.
  - destruct (wq_items_cons q Hq ltac:(lia)) as (e&->&->). done.
Qed.

Lemma wq_pop_spec q :
  wq_ok q →
  (wq_items q = [] ∧ wq_pop q = Ok (None, q)) ∨
  (∃ e q', wq_items q = e :: wq_items q' ∧ wq_pop q = Ok (Some e, q') ∧ wq_ok q' ∧
     wq_bound q' = wq_bound q ∧ wq_capacity q' = wq_capacity q ∧ wq_peek q = Ok (Some e)).
Proof.
  intros Hq. unfold wq_pop. rewrite wq_peek_spec by done. mstep. destruct (decide (wq_len q = 0)) as [E|E].
  - left. unfold wq_items. by rewrite E.
  - right. destruct (wq_items_cons q Hq ltac:(lia)) as (e&He&Hi). rewrite Hi. cbn [head]. rewrite wq_slot_ok by done. mstep.
    destruct (Nat.ltb_spec 0 (wq_len q)); [|lia]. eexists _, _. split; [done|]. split; [done|].
    destruct Hq as [Hs Hl Hc]. split; [|done]. split; cbn; [apply Nat.mod_upper_bound; lia|lia|done].
Qed.

Section growth.
Context `{Allocator, QueueLayout}.

Lemma wq_new_cases capacity remaining :
  (0 ≤ capacity)%Z →
  (∃ e, wq_new capacity remaining = Err e ∧ e ≠ Full) ∨
  (∃ q, wq_new capacity remaining = Ok (q, remaining - wq_heap_bytes q)%Z ∧ wq_ok q ∧ wq_items q = [] ∧
     wq_entries q = replicate (Z.to_nat capacity) EMPTY ∧ wq_start q = 0 ∧ (0 ≤ remaining - wq_heap_bytes q)%Z).
Proof.
  intros Hc. unfold wq_new. destruct (Z.eqb_spec capacity 0); [left; eexists; done|].
  destruct (reserve_cases entry_size capacity remaining) as [(e&->&?)|(c&->&?&?)]; mstep; [left; eexists; done|right].
  match goal with |- ∃ q, Ok (?w, _) = _ ∧ _ => exists w end. split; [reflexivity|]. split; [split; unfold zlen; cbn [wq_entries wq_start wq_len wq_capacity]; rewrite ?length_replicate; lia|].
  by repeat (split; [done|]).
Qed.

Lemma wq_copy_spec q target off n :
  wq_ok q → off + n ≤ wq_len q → wq_len q ≤ length target →
  wq_copy q target off n = Ok (take off target ++ take n (drop off (wq_items q)) ++ drop (off + n) target).
Proof.
  intros Hq. revert target off. induction n as [|n IH]; intros target off Hn Ht; cbn [wq_copy].
  { rewrite take_0, Nat.add_0_r. cbn. by rewrite take_drop. }
  rewrite wq_slot_ok by done. mstep. set (s := (wq_start q + off) mod _).
  destruct (lookup_lt_ok (wq_entries q) s (wq_slot_lt q off Hq)) as [e He]. rewrite He. mstep.
  destruct (lookup_lt_ok target off ltac:(lia)) as [old Hold]. rewrite Hold. mstep.
  rewrite IH by (rewrite ?length_insert; lia). f_equal.
  assert (Hitem : wq_items q !! off = Some e).
  { unfold wq_items. rewrite list_lookup_fmap, lookup_seq_lt by lia. cbn. f_equal. fold s. by rewrite nth_lookup, He. }
  rewrite (take_S_r (<[off:=e]> target) off e) by (rewrite list_lookup_insert_eq; [done|lia]).
  rewrite take_insert_ge by lia. rewrite (drop_S (wq_items q) e off Hitem). cbn [take].
  rewrite drop_insert_lt by lia. rewrite <- app_assoc. cbn. by replace (S (off + n)) with (off + S n) by lia.
Qed.

Lemma wq_grow_cases q capacity remaining :
  wq_ok q →
  ((capacity ≤ zlen (wq_entries q))%Z ∧ wq_grow q capacity remaining = Ok (q, remaining)) ∨
  ((zlen (wq_entries q) < capacity)%Z ∧
   ((∃ e, wq_grow q capacity remaining = Err e ∧ e ≠ Full) ∨
    (∃ q' r', wq_grow q capacity remaining = Ok (q', r') ∧ wq_ok q' ∧ wq_items q' = wq_items q ∧
       Z.of_nat (wq_bound q') = capacity ∧ (r' + wq_heap_bytes q' = remaining + wq_heap_bytes q)%Z ∧
       (wq_heap_bytes q' ≤ remaining)%Z))).
Proof.
  intros Hq. unfold wq_grow. destruct (Z.leb_spec capacity (zlen (wq_entries q))) as [|Hgt]; [by left|right]. split; [done|].
  pose proof Hq as [Hs Hl Hc]. destruct (wq_new_cases capacity remaining) as [(e&->&?)|(w&->&Hw&_&He&Hst&Hr)]; [unfold zlen in *; lia|mstep; left; eexists; done|mstep].
  assert (Hlen : length (wq_entries w) = Z.to_nat capacity) by (rewrite He; apply length_replicate).
  unfold zlen in *. rewrite wq_copy_spec by (done || lia). unfold lift. mstep.
  unfold checked_add. destruct (_ <=? usize_max)%Z; mstep; [right|left; eexists; done].
  eexists _, _. split; [done|]. cbn [Nat.add]. rewrite take_0, drop_0. cbn [app].
  rewrite (take_ge (wq_items q)) by (rewrite length_wq_items; lia). unfold wq_bound, wq_heap_bytes in *. cbn [wq_entries wq_capacity].
  assert (Hlen' : length (wq_items q ++ drop (wq_len q) (wq_entries w)) = length (wq_entries w)).
  { rewrite length_app, length_wq_items, length_drop. lia. }
  split; [|split; [|rewrite Hlen'; lia]].
  - destruct Hw as [Hs' _ Hc']. split; cbn [wq_entries wq_start wq_len wq_capacity]; unfold zlen in *; rewrite Hlen'; lia.
  - unfold wq_items at 1. cbn [wq_entries wq_start wq_len]. rewrite Hst, Hlen'. apply list_eq. intros i.
    rewrite list_lookup_fmap. destruct (decide (i < wq_len q)) as [Hi|Hi].
    + rewrite lookup_seq_lt by done. cbn. rewrite Nat.mod_small by lia. rewrite nth_lookup.
      destruct (lookup_lt_ok (wq_items q) i ltac:(rewrite length_wq_items; lia)) as [x Hx].
      rewrite lookup_app_l, Hx by (rewrite length_wq_items; lia). done.
    + rewrite lookup_seq_ge by lia. symmetry. apply lookup_ge_None. rewrite length_wq_items. lia.
Qed.
End growth.

(** ** The check batch as a list without repetitions *)

Definition pos_at (l : list LightBlock) (k : nat) : LightBlock := nth k l zero_block.
Definition cq_home (hash : LightBlock → nat) (n : nat) (pos : LightBlock) : nat := Nat.land (hash pos) (n - 1).

(** [cq_table c p]: the slots are a probing table of size [2 ^ p] over the positions. *)
Record cq_table (c : CheckQueue) (p : nat) : Prop := {
  ct_slots : length (cq_slots c) = 2 ^ p;
  ct_table : table_ok (pos_at (cq_positions c)) (2 ^ p) (cq_home (cq_hash c) (2 ^ p)) (cq_slots c);
  ct_index : entries (cq_slots c) ≡ₚ seq 0 (length (cq_positions c));
}.

Record cq_ok (c : CheckQueue) : Prop := {
  co_table : ∃ p, cq_table c p;
  co_room : (zlen (cq_positions c) ≤ cq_limit c < zlen (cq_slots c))%Z;
  co_cursor : cq_cursor c ≤ length (cq_positions c);
}.

Lemma cq_home_lt hash p pos : cq_home hash (2 ^ p) pos < 2 ^ p.
Proof. by apply (land_mask _ p). Qed.

Lemma cq_index_lt c p q k : cq_table c p → cq_slots c !! q = Some (Some k) → k < length (cq_positions c).
Proof.
  intros Ht Hq. assert (k ∈ seq 0 (length (cq_positions c))) as Hin; [|apply elem_of_seq in Hin; lia].
  rewrite <- (ct_index c p Ht). apply elem_of_entries. by exists q.
Qed.

Lemma cq_empty_slot c : cq_ok c → ∃ e, e < length (cq_slots c) ∧ cq_slots c !! e = Some None.
Proof.
  intros Hc. destruct (co_table c Hc) as [p Ht]. apply table_has_empty.
  rewrite (ct_index c p Ht), length_seq. pose proof (co_room c Hc). unfold zlen in *. lia.
Qed.

Lemma cq_nodup c : cq_ok c → NoDup (cq_positions c).
Proof.
  intros Hc. destruct (co_table c Hc) as [p Ht]. pose proof (entries_nodup _ _ _ _ (ct_table c p Ht)) as Hn.
  rewrite (ct_index c p Ht) in Hn. assert (pos_at (cq_positions c) <$> seq 0 (length (cq_positions c)) = cq_positions c) as Hp; [|by rewrite Hp in Hn].
  apply list_eq. intros i. rewrite list_lookup_fmap. destruct (decide (i < length (cq_positions c))) as [Hi|Hi].
  - rewrite lookup_seq_lt by done. cbn. unfold pos_at. rewrite nth_lookup.
    by destruct (lookup_lt_ok _ _ Hi) as [x ->].
  - rewrite lookup_seq_ge by lia. symmetry. apply lookup_ge_None. lia.
Qed.

Lemma cq_slot_spec c pos :
  cq_ok c → ∃ p q, cq_table c p ∧
  probe_ends (pos_at (cq_positions c)) (2 ^ p) (cq_home (cq_hash c) (2 ^ p)) (cq_slots c) pos q ∧
  ((cq_slot c pos = Ok (inl q) ∧ pos ∈ cq_positions c) ∨
   (cq_slot c pos = Ok (inr q) ∧ cq_slots c !! q = Some None ∧ pos ∉ cq_positions c ∧
    ∀ k, k ∈ entries (cq_slots c) → pos_at (cq_positions c) k ≠ pos)).
Proof.
  intros Hc. destruct (co_table c Hc) as [p Ht], (cq_empty_slot c Hc) as (e0&He0&Hempty). pose proof (ct_slots c p Ht) as Hl.
  assert (Hloop : ∀ q r, probe_ends (pos_at (cq_positions c)) (2 ^ p) (cq_home (cq_hash c) (2 ^ p)) (cq_slots c) pos q →
    slot_body c pos q = Ok (Some r) → cq_slot c pos = Ok r).
  { intros q r Hends Hstop. unfold cq_slot, cq_mask. rewrite Hl.
    apply (probe_loop_ends (pos_at (cq_positions c)) (2 ^ p) (cq_home (cq_hash c) (2 ^ p)) (cq_home_lt _ _) p (2 ^ p) _ (cq_slots c) pos q r eq_refl);
      [done|done| |done].
    intros r' k Hr Hk. unfold slot_body. rewrite Hr. mstep.
    destruct (lookup_lt_ok _ _ (cq_index_lt c p _ _ Ht Hr)) as [x Hx]. rewrite Hx. mstep.
    rewrite decide_False; [done|]. unfold pos_at in Hk. by rewrite nth_lookup, Hx in Hk. }
  rewrite Hl in He0.
  destruct (probe_ends_exists _ (2 ^ p) _ (cq_home_lt _ _) _ pos e0 (ct_table c p Ht) He0 Hempty)
    as [(q&k&Hends&Hq&Hk)|(q&Hends&Hq&Habs)]; exists p, q; (split; [done|]); (split; [done|]).
  - left. destruct (lookup_lt_ok _ _ (cq_index_lt c p _ _ Ht Hq)) as [x Hx].
    unfold pos_at in Hk. rewrite nth_lookup, Hx in Hk. cbn in Hk. subst x. split; [|by eapply list_elem_of_lookup_2].
    apply (Hloop q); [done|]. unfold slot_body. rewrite Hq. mstep. rewrite Hx. mstep. by rewrite decide_True.
  - right. split; [|split; [done|split; [|done]]].
    + apply (Hloop q); [done|]. unfold slot_body. by rewrite Hq.
    + intros Hin. apply list_elem_of_lookup in Hin as [k Hk]. apply (Habs k).
      * rewrite (ct_index c p Ht). apply elem_of_seq. apply lookup_lt_Some in Hk. lia.
      * unfold pos_at. by rewrite nth_lookup, Hk.
Qed.

Lemma cq_insert_spec c pos :
  cq_ok c →
  (pos ∈ cq_positions c ∧ cq_insert c pos = Ok (false, c)) ∨
  (pos ∉ cq_positions c ∧ zlen (cq_positions c) = cq_limit c ∧ cq_insert c pos = Err Full) ∨
  (pos ∉ cq_positions c ∧ (zlen (cq_positions c) < cq_limit c)%Z ∧ ∃ c', cq_insert c pos = Ok (true, c') ∧ cq_ok c' ∧
     cq_positions c' = cq_positions c ++ [pos] ∧ cq_cursor c' = cq_cursor c ∧ cq_limit c' = cq_limit c ∧
     cq_positions_cap c' = cq_positions_cap c ∧ cq_slots_cap c' = cq_slots_cap c).
Proof.
  intros Hc. pose proof (co_room c Hc) as Hroom. unfold cq_insert.
  destruct (cq_slot_spec c pos Hc) as (p&q&Ht&Hends&[(->&Hin)|(->&Hq&Hnew&Habs)]); unfold lift; mstep; [by left|right].
  destruct (Z.eqb_spec (zlen (cq_positions c)) (cq_limit c)); [by left|right]. rewrite Hq. mstep. split; [done|]. split; [lia|].
  eexists. split; [done|]. split; [|done]. pose proof Ht as [Hl Htab Hidx]. set (l' := cq_positions c ++ [pos]).
  assert (Hkey : ∀ q k, cq_slots c !! q = Some (Some k) → pos_at (cq_positions c) k = pos_at l' k).
  { intros r k Hk. pose proof (cq_index_lt c p r k Ht Hk). unfold pos_at, l'. by rewrite app_nth1. }
  assert (Hkn : pos_at l' (length (cq_positions c)) = pos).
  { unfold pos_at, l'. by rewrite app_nth2, Nat.sub_diag by lia. }
  pose proof (table_ok_ext _ (pos_at l') _ _ _ Hkey Htab) as Htab'.
  destruct (table_ok_insert (pos_at l') (2 ^ p) _ (cq_slots c) (length (cq_positions c)) q Htab') as [Htab2 Hent].
  { destruct Hends as (?&_&Hpath). rewrite Hkn. split; [done|]. split; [by left|].
    intros r Hr' Hd. destruct (Hpath r Hr' Hd) as (k&Hk&Hne). exists k. split; [done|]. by rewrite <- (Hkey r k). }
  { done. }
  { intros k Hk. rewrite Hkn. pose proof Hk as [r Hr']%elem_of_entries. rewrite <- (Hkey r k) by done. by apply Habs. }
  split; cbn [with_positions cq_positions cq_slots cq_limit cq_cursor].
  - exists p. split; cbn [with_positions cq_positions cq_slots cq_hash]; [by rewrite length_insert|done|].
    rewrite Hent, Hidx. unfold l'. rewrite length_app. cbn [length]. rewrite Nat.add_1_r, seq_S. apply Permutation_cons_append.
  - unfold zlen, l' in *. rewrite length_app, length_insert. cbn [length]. lia.
  - unfold l'. rewrite length_app. pose proof (co_cursor c Hc). lia.
Qed.

Lemma cq_blank_ok c p :
  cq_slots c = replicate (2 ^ p) None → cq_positions c = [] → cq_cursor c = 0 → (0 ≤ cq_limit c < Z.of_nat (2 ^ p))%Z → cq_ok c.
Proof.
  intros Hs Hp Hcur Hlim. split; rewrite ?Hs, ?Hp, ?Hcur; unfold zlen; rewrite ?length_replicate; [|done|done].
  exists p. split; rewrite ?Hs, ?Hp, ?length_replicate; [done|apply table_ok_empty|by rewrite entries_blank].
Qed.

Lemma cq_clear_spec c :
  cq_ok c → cq_ok (cq_clear c) ∧ cq_positions (cq_clear c) = [] ∧ cq_limit (cq_clear c) = cq_limit c ∧ cq_cursor (cq_clear c) = 0.
Proof.
  intros Hc. destruct (co_table c Hc) as [p Ht]. pose proof (co_room c Hc) as Hroom. pose proof (ct_slots c p Ht) as Hl.
  unfold cq_clear. destruct (cq_positions c) as [|x l] eqn:E.
  - split; [|done]. split; cbn [with_positions cq_positions cq_slots cq_limit cq_cursor]; [|done|done].
    exists p. destruct Ht as [? Htab Hidx]. rewrite E in *. by split.
  - split; [|done]. apply (cq_blank_ok _ p); cbn; [by rewrite Hl|done|done|].
    unfold zlen in *. rewrite Hl in Hroom. lia.
Qed.

Lemma cq_pop_spec c :
  cq_ok c →
  (drop (cq_cursor c) (cq_positions c) = [] ∧ cq_is_empty c = true ∧ cq_pop c = (None, c) ∧ cq_peek c = None) ∨
  (∃ pos c', drop (cq_cursor c) (cq_positions c) = pos :: drop (cq_cursor c') (cq_positions c') ∧ cq_is_empty c = false ∧
     cq_peek c = Some pos ∧ cq_pop c = (Some pos, c') ∧ cq_ok c' ∧ cq_positions c' = cq_positions c ∧ cq_limit c' = cq_limit c ∧
     cq_positions_cap c' = cq_positions_cap c ∧ cq_slots_cap c' = cq_slots_cap c).
Proof.
  intros Hc. pose proof (co_cursor c Hc) as Hcur. unfold cq_pop, cq_is_empty, cq_peek.
  destruct (Nat.eqb_spec (cq_cursor c) (length (cq_positions c))) as [E|E].
  - left. rewrite E, drop_all, lookup_ge_None_2 by lia. done.
  - right. destruct (lookup_lt_ok (cq_positions c) (cq_cursor c) ltac:(lia)) as [pos Hp]. rewrite Hp.
    eexists _, _. split; [|split; [done|split; [done|split; [reflexivity|split; [|done]]]]].
    + cbn [with_positions cq_cursor cq_positions]. rewrite Nat.add_1_r. by apply drop_S.
    + destruct Hc as [[p Ht] Hroom _]. split; cbn [with_positions cq_positions cq_slots cq_limit cq_cursor]; [|done|lia].
      exists p. by destruct Ht; split.
Qed.

Section check_growth.
Context `{Allocator, QueueLayout}.

Lemma cq_new_cases hash capacity remaining :
  (0 ≤ capacity)%Z →
  (∃ e, cq_new hash capacity remaining = Err e ∧ e ≠ Full) ∨
  (∃ c r, cq_new hash capacity remaining = Ok (c, r) ∧ (r = remaining - cq_heap_bytes c)%Z ∧ (0 ≤ r)%Z ∧ cq_ok c ∧
     cq_positions c = [] ∧ cq_cursor c = 0 ∧ cq_limit c = capacity ∧ (0 < capacity)%Z).
Proof.
  intros Hc. unfold cq_new. destruct (Z.eqb_spec capacity 0); [left; eexists; done|].
  destruct (next_power_of_two capacity) as [power|] eqn:Ep; [|left; eexists; done]. cbn [mbind option_bind].
  destruct (checked_mul power 2) as [count|] eqn:Ec; mstep; [|left; eexists; done].
  assert (count = (power * 2)%Z) as -> by (unfold checked_mul in Ec; destruct (_ <=? _)%Z in Ec; congruence).
  apply next_power_spec in Ep as (Hge&_&k&->); [|lia].
  destruct (reserve_cases block_size capacity remaining) as [(e&->&?)|(pc&->&?&?)]; mstep; [left; eexists; done|].
  destruct (reserve_cases slot_size (2 ^ Z.of_nat k * 2) (remaining - pc * block_size)) as [(e&->&?)|(sc&->&?&?)]; mstep; [left; eexists; done|].
  right. eexists _, _. split; [reflexivity|]. split; [unfold cq_heap_bytes; cbn; lia|]. split; [lia|]. split; [|by repeat (split; [done|]); lia].
  assert (Z.to_nat (2 ^ Z.of_nat k * 2) = 2 ^ S k) as Hs.
  { rewrite <- to_nat_pow2, Nat2Z.inj_succ, Z.pow_succ_r by lia. f_equal. lia. }
  apply (cq_blank_ok _ (S k)); cbn [cq_slots cq_positions cq_limit cq_cursor]; [by rewrite Hs|done|done|].
  replace (Z.of_nat (2 ^ S k)) with (2 * 2 ^ Z.of_nat k)%Z; [lia|].
  rewrite Nat.pow_succ_r', Nat2Z.inj_mul, Nat2Z.inj_pow. lia.
Qed.

Lemma cq_insert_all_spec l c :
  cq_ok c → NoDup (cq_positions c ++ l) → (zlen (cq_positions c) + zlen l ≤ cq_limit c)%Z →
  ∃ c', cq_insert_all c l = Ok c' ∧ cq_ok c' ∧ cq_positions c' = cq_positions c ++ l ∧ cq_limit c' = cq_limit c ∧
        cq_positions_cap c' = cq_positions_cap c ∧ cq_slots_cap c' = cq_slots_cap c.
Proof.
  revert c. induction l as [|x l IH]; intros c Hc Hn Hl; cbn [cq_insert_all].
  { exists c. rewrite app_nil_r. by repeat (split; [done|]). }
  assert (x ∉ cq_positions c).
  { intros Hin. apply NoDup_app in Hn as (_&Hn&_). apply (Hn x Hin). by left. }
  unfold zlen in *. cbn [length] in Hl.
  destruct (cq_insert_spec c x Hc) as [[??]|[(_&?&_)|(_&_&c'&->&Hc'&Hp&_&Hlim&Hpc1&Hsc1)]]; [done|unfold zlen in *; lia|].
  destruct (IH c' Hc') as (c2&->&?&Hp2&?&?&?); [by rewrite Hp, <- app_assoc|unfold zlen; rewrite Hp, length_app, Hlim; cbn; lia|].
  exists c2. split; [done|]. split; [done|]. rewrite Hp2, Hp, <- app_assoc. split; [done|]. split_and!; congruence.
Qed.

Lemma cq_grow_cases hash c capacity remaining :
  cq_ok c →
  ((capacity ≤ cq_limit c)%Z ∧ cq_grow hash c capacity remaining = Ok (c, remaining)) ∨
  ((cq_limit c < capacity)%Z ∧
   ((∃ e, cq_grow hash c capacity remaining = Err e ∧ e ≠ Full) ∨
    (∃ c' r', cq_grow hash c capacity remaining = Ok (c', r') ∧ cq_ok c' ∧ cq_positions c' = cq_positions c ∧
       cq_cursor c' = cq_cursor c ∧ cq_limit c' = capacity ∧ (r' + cq_heap_bytes c' = remaining + cq_heap_bytes c)%Z ∧
       (cq_heap_bytes c' ≤ remaining)%Z))).
Proof.
  intros Hc. pose proof (co_room c Hc) as Hroom. pose proof (co_cursor c Hc) as Hcur.
  unfold cq_grow. destruct (Z.leb_spec capacity (cq_limit c)); [by left|right]. split; [done|].
  destruct (cq_new_cases hash capacity remaining) as [(e&->&?)|(w&r&->&->&Hr&Hw&Hwp&_&Hwl&_)]; [unfold zlen in *; lia|mstep; left; eexists; done|mstep].
  destruct (cq_insert_all_spec (cq_positions c) w Hw) as (w'&->&Hw'&Hp&Hl&Hpc&Hsc).
  { rewrite Hwp. by apply cq_nodup. }
  { rewrite Hwp, Hwl. unfold zlen in *. cbn. lia. }
  unfold lift. mstep. unfold checked_add. destruct (_ <=? usize_max)%Z; mstep; [right|left; eexists; done].
  rewrite Hwp in Hp. cbn in Hp. eexists _, _. split; [reflexivity|]. split.
  - destruct Hw' as [[p Ht] Hroom' _]. split; cbn [with_positions cq_positions cq_slots cq_limit cq_cursor]; [|done|by rewrite Hp].
    exists p. by destruct Ht; split.
  - split; [done|]. split; [done|]. split; [cbn; congruence|]. unfold cq_heap_bytes in *.
    cbn [with_positions cq_positions_cap cq_slots_cap]. rewrite Hpc, Hsc. lia.
Qed.

(** ** Properties *)

(** C12. The work queue is a bounded first-in first-out list: a fresh one is empty,
    pushing appends unless the capacity is reached, peeking and popping yield
    the oldest entry across the wrap-around, and growing keeps the entries and
    their order or fails with the queue and the budget unchanged; construction
    and growth charge exactly the bytes the queue reports.  Nothing panics. *)
Theorem work_queue_is_fifo :
  (∀ capacity remaining, (0 ≤ capacity)%Z →
     (∃ e, wq_new capacity remaining = Err e ∧ e ≠ Full) ∨
     (∃ q, wq_new capacity remaining = Ok (q, remaining - wq_heap_bytes q)%Z ∧ wq_ok q ∧ wq_items q = [] ∧ Z.of_nat (wq_bound q) = capacity)) ∧
  ∀ q, wq_ok q → length (wq_items q) ≤ wq_bound q ∧
    (wq_is_empty q = true ↔ wq_items q = []) ∧ wq_peek q = Ok (head (wq_items q)) ∧
    (∀ e, if length (wq_items q) =? wq_bound q then wq_push q e = Err Full
          else ∃ q', wq_push q e = Ok q' ∧ wq_ok q' ∧ wq_items q' = wq_items q ++ [e] ∧ wq_bound q' = wq_bound q) ∧
    (∃ q', wq_pop q = Ok (head (wq_items q), q') ∧ wq_ok q' ∧ wq_items q' = tail (wq_items q) ∧ wq_bound q' = wq_bound q) ∧
    (∀ capacity remaining,
       (∃ e, wq_grow q capacity remaining = Err e ∧ e ≠ Full) ∨
       (∃ q' r', wq_grow q capacity remaining = Ok (q', r') ∧ wq_ok q' ∧ wq_items q' = wq_items q ∧
          Z.of_nat (wq_bound q') = Z.max (Z.of_nat (wq_bound q)) capacity ∧
          (r' + wq_heap_bytes q' = remaining + wq_heap_bytes q)%Z)).
Proof.
  split.
  - intros capacity remaining Hc. destruct (wq_new_cases capacity remaining Hc) as [?|(q&?&?&?&He&_)]; [by left|right].
    exists q. split_and!; [done..|]. unfold wq_bound. rewrite He, length_replicate. lia.
  - intros q Hq. rewrite length_wq_items. split; [apply (wo_len q Hq)|]. split; [|split; [by apply wq_peek_spec|split; [|split]]].
    + unfold wq_is_empty. rewrite Nat.eqb_eq, <- length_zero_iff_nil, length_wq_items. done.
    + intros e. destruct (wq_push_spec q e Hq) as [[-> ->]|(?&q'&->&?&?&?&_)].
      * by rewrite Nat.eqb_refl.
      * destruct (Nat.eqb_spec (wq_len q) (wq_bound q)); [lia|eauto 10].
    + destruct (wq_pop_spec q Hq) as [[Hi ->]|(e&q'&->&->&?&?&_)]; [exists q; by rewrite Hi|by exists q'].
    + intros capacity remaining. destruct (wq_grow_cases q capacity remaining Hq) as [[? ->]|[? [?|(q'&r'&?&?&?&?&?&_)]]]; [|by left|].
      * right. exists q, remaining. unfold wq_bound. change (zlen (wq_entries q)) with (Z.of_nat (length (wq_entries q))) in *. split_and!; try done; lia.
      * right. exists q', r'. unfold wq_bound in *. unfold zlen in *. split_and!; try done; lia.
Qed.

(** The check batch is a list without repetitions and a cursor, for every
    hash: inserting a block reports it as present, or appends it, or answers
    [Full] at the limit; popping walks the list; clearing empties it; growing
    keeps the list and the cursor under a new hash or fails without a change;
    the memory charged is what the batch reports.  Every probe ends. *)
Theorem check_queue_is_ordered_set :
  (∀ hash capacity remaining, (0 ≤ capacity)%Z →
     (∃ e, cq_new hash capacity remaining = Err e ∧ e ≠ Full) ∨
     (∃ c, cq_new hash capacity remaining = Ok (c, remaining - cq_heap_bytes c)%Z ∧ cq_ok c ∧ cq_positions c = [] ∧
        cq_cursor c = 0 ∧ cq_limit c = capacity)) ∧
  ∀ c, cq_ok c → NoDup (cq_positions c) ∧ (zlen (cq_positions c) ≤ cq_limit c)%Z ∧
    (∀ pos, if decide (pos ∈ cq_positions c) then cq_insert c pos = Ok (false, c)
            else if decide (zlen (cq_positions c) = cq_limit c) then cq_insert c pos = Err Full
            else ∃ c', cq_insert c pos = Ok (true, c') ∧ cq_ok c' ∧ cq_positions c' = cq_positions c ++ [pos] ∧ cq_cursor c' = cq_cursor c) ∧
    (∃ c', cq_pop c = (head (drop (cq_cursor c) (cq_positions c)), c') ∧ cq_ok c' ∧
       drop (cq_cursor c') (cq_positions c') = tail (drop (cq_cursor c) (cq_positions c)) ∧ cq_positions c' = cq_positions c) ∧
    cq_ok (cq_clear c) ∧ cq_positions (cq_clear c) = [] ∧
    (∀ hash capacity remaining,
       (∃ e, cq_grow hash c capacity remaining = Err e ∧ e ≠ Full) ∨
       (∃ c' r', cq_grow hash c capacity remaining = Ok (c', r') ∧ cq_ok c' ∧ cq_positions c' = cq_positions c ∧
          cq_cursor c' = cq_cursor c ∧ cq_limit c' = Z.max (cq_limit c) capacity ∧
          (r' + cq_heap_bytes c' = remaining + cq_heap_bytes c)%Z)).
Proof.
  split.
  - intros hash capacity remaining Hc. destruct (cq_new_cases hash capacity remaining Hc) as [?|(c&r&?&->&_&?&?&?&?&_)]; [by left|right; eauto 10].
  - intros c Hc. split; [by apply cq_nodup|]. split; [apply (co_room c Hc)|]. split; [|split; [|split; [|split]]].
    + intros pos. destruct (cq_insert_spec c pos Hc) as [[??]|[(?&?&?)|(?&?&c'&?&?&?&?&_)]]; repeat case_decide; try done; [lia|eauto 10].
    + destruct (cq_pop_spec c Hc) as [(Hd&_&->&_)|(pos&c'&->&_&_&->&?&?&_)]; [exists c; by rewrite Hd|by exists c'].
    + by apply cq_clear_spec.
    + by apply cq_clear_spec.
    + intros hash capacity remaining. destruct (cq_grow_cases hash c capacity remaining Hc) as [[? ->]|[? [?|(c'&r'&?&?&?&?&?&?&_)]]]; [|by left|].
      * right. exists c, remaining. split_and!; try done; lia.
      * right. exists c', r'. split_and!; try done; lia.
Qed.
End check_growth.

(** ** The wrapped queue of the unit test *)
#[local] Instance test_layout : QueueLayout.
Proof. refine {| entry_size := 16; block_size := 12; slot_size := 8 |}. lia. Defined.

Definition test_entry (x : Z) : Entry :=
  {| e_pos := {| lb_x := x; lb_y := 0; lb_z := 0 |}; e_level := 0; e_directions := 0; e_empty_shape := true; e_from_emission := false |}.

Example wrapped_growth :
  (q ← wq_new 3 4096; let '(q, r) := q in
   q ← wq_push q (test_entry 0); q ← wq_push q (test_entry 1); q ← wq_push q (test_entry 2);
   p ← lift (wq_pop q); p ← lift (wq_pop p.2); q ← wq_push p.2 (test_entry 3); q ← wq_push q (test_entry 4);
   g ← wq_grow q 6 r;
   Ok (wq_items g.1, g.2))
  = Ok ([test_entry 2; test_entry 3; test_entry 4], 4096 - 96)%Z.
Proof. vm_compute. reflexivity. Qed.

(** The properties have no hypothesis on the machine: this is their instance at
    the sizes of the unit tests. *)
Lemma work_queue_is_fifo_witness :
  ∃ q, wq_new 3 4096 = Ok (q, 4096 - wq_heap_bytes q)%Z ∧ wq_ok q ∧ wq_items q = [] ∧ Z.of_nat (wq_bound q) = 3%Z.
Proof.
  destruct (proj1 work_queue_is_fifo 3%Z 4096%Z ltac:(lia)) as [(e&He&_)|Hq]; [discriminate He|exact Hq].
Defined.
Lemma check_queue_is_ordered_set_witness :
  ∃ c, cq_new (λ b, Z.to_nat (lb_x b)) 2 4096 = Ok (c, 4096 - cq_heap_bytes c)%Z ∧ cq_ok c ∧ cq_positions c = [] ∧
    cq_cursor c = 0 ∧ cq_limit c = 2%Z.
Proof.
  destruct (proj1 check_queue_is_ordered_set (λ b, Z.to_nat (lb_x b)) 2%Z 4096%Z ltac:(lia)) as [(e&He&_)|Hc]; [discriminate He|exact Hc].
Defined.
