(* ===== verification/LightStore.v ===== *)
(** * What the light engines need from storage and from the world

    The block-light engine (src/world/lighting/block.rs) works on two other
    components: the section storage (src/world/lighting/storage.rs), which it
    reads and writes level by level, and an immutable source of block states
    (src/world/lighting/source.rs) with the registry's light materials.  This
    file has the two interfaces, with the laws the engine relies on. *)

From S2P Require Import Prelude.
From S2P Require Import View.
From S2P Require Import LightTypes.
From S2P Require Import LightTable.
From S2P Require Import LightLayer.
Local Open Scope Z_scope.

(** ** Calls that keep their state on an error

    A Rust method on [&mut self] that returns a [Result] leaves a state behind
    in both cases. *)
Inductive reply (E A : Type) := Done (a : A) | Failed (e : E).
Arguments Done {E A} a.
Arguments Failed {E A} e.

Definition call (S E A : Type) : Type := S → outcome False (reply E A * S).

Definition call_ret {S E A} (a : A) : call S E A := λ s, Ok (Done a, s).
Definition call_fail {S E A} (e : E) : call S E A := λ s, Ok (Failed e, s).
(** [m?] *)
Definition call_bind {S E A B} (m : call S E A) (f : A → call S E B) : call S E B := λ s,
  '(r, s) ← m s;
  match r with Done a => f a s | Failed e => Ok (Failed e, s) end.

Declare Scope call_scope.
Delimit Scope call_scope with call.
Notation "'let+' a := m 'in' k" := (call_bind m (λ a, k)) (at level 200, a name, m at level 100, k at level 200) : call_scope.

(** A reading of the state that may fail. *)
Definition query {S E A} (f : S → outcome E A) : call S E A := λ s,
  match f s with
  | Ok a => Ok (Done a, s)
  | Err e => Ok (Failed e, s)
  | Panic => Panic
  | NoFuel => NoFuel
  end.
Definition update {S E} (f : S → outcome False S) : call S E () := λ s, s ← f s; Ok (Done tt, s).
(** What is dropped when the call returns early. *)
Definition on_failure {S E A} (m : call S E A) (f : S → S) : call S E A := λ s,
  '(r, s) ← m s;
  match r with Done a => Ok (Done a, s) | Failed e => Ok (Failed e, f s) end.

Inductive StorageError :=
| Budget | MetadataLimit | SectionLimit | ColumnLimit | NotificationLimit | StorageAllocationFailed
| InvalidCoordinate | MissingLayer | InvalidLightValue | Layer (e : LayerError).

(** ** Section storage *)
Class LightStore (S : Type) := {
  kind : S → LightKind;
  store_stamp : S → nat;
  stored_level : S → LightBlock → option Z;
  light_enabled : S → ChunkAddress → bool;
  storing_light : S → LightSection → bool;
  has_inconsistencies : S → bool;
  set_enabled : ChunkAddress → bool → call S StorageError ();
  prepare_writes : list LightBlock → call S StorageError ();
  set_stored_level : LightBlock → Z → call S StorageError ();
  process_inconsistencies : call S StorageError ();
  publish_visible : call S StorageError ();
}.

(** Two states that the engine cannot tell apart. *)
Record same_view {S} `{LightStore S} (s s' : S) : Prop := {
  sv_kind : kind s' = kind s;
  sv_stamp : store_stamp s' = store_stamp s;
  sv_level p : stored_level s' p = stored_level s p;
  sv_enabled c : light_enabled s' c = light_enabled s c;
  sv_inconsistent : has_inconsistencies s' = has_inconsistencies s;
}.

(** A state that differs from another by one level. *)
Record level_written {S} `{LightStore S} (p : LightBlock) (v : Z) (s s' : S) : Prop := {
  lw_kind : kind s' = kind s;
  lw_stamp : store_stamp s' = store_stamp s;
  lw_level q : stored_level s' q = if decide (q = p) then Some v else stored_level s q;
  lw_enabled c : light_enabled s' c = light_enabled s c;
  lw_inconsistent : has_inconsistencies s' = has_inconsistencies s;
}.

(** [store_ok] is the storage's own invariant, [prepared s l] its promise that
    the levels at [l] can be written.  Every call preserves the invariant. *)
Class LightStoreLaws (S : Type) `{LightStore S} := {
  store_ok : S → Prop;
  prepared : S → list LightBlock → Prop;
  stored_level_range s p l : store_ok s → stored_level s p = Some l → 0 ≤ l ≤ 15;
  storing_light_spec s p : store_ok s → block_i32 p → storing_light s (block_section p) = true ↔ is_Some (stored_level s p);
  set_enabled_spec s c b : store_ok s →
    ∃ s', store_ok s' ∧
      ((∃ e, set_enabled c b s = Ok (Failed e, s') ∧ same_view s s') ∨
       (set_enabled c b s = Ok (Done tt, s') ∧ kind s' = kind s ∧ store_stamp s' = store_stamp s ∧
        has_inconsistencies s' = has_inconsistencies s ∧
        (∀ p, stored_level s' p = stored_level s p) ∧
        ∀ c', light_enabled s' c' = if decide (c' = c) then b else light_enabled s c'));
  prepare_writes_spec s l : store_ok s →
    ∃ s', store_ok s' ∧ same_view s s' ∧
      ((∃ e, prepare_writes l s = Ok (Failed e, s')) ∨ (prepare_writes l s = Ok (Done tt, s') ∧ prepared s' l));
  set_stored_level_spec s l p v : store_ok s → prepared s l → p ∈ l → is_Some (stored_level s p) → 0 ≤ v ≤ 15 →
    ∃ s', set_stored_level p v s = Ok (Done tt, s') ∧ store_ok s' ∧ prepared s' l ∧ level_written p v s s';
  process_inconsistencies_spec s : store_ok s →
    ∃ s', process_inconsistencies s = Ok (Done tt, s') ∧ store_ok s' ∧ kind s' = kind s ∧ store_stamp s' = store_stamp s ∧
      (has_inconsistencies s = false → same_view s s');
  publish_visible_spec s : store_ok s →
    ∃ r s', publish_visible s = Ok (r, s') ∧ store_ok s' ∧ same_view s s';
}.

Lemma same_view_refl {S} `{LightStore S} (s : S) : same_view s s.
Proof. by split. Qed.
Lemma same_view_trans {S} `{LightStore S} (s1 s2 s3 : S) : same_view s1 s2 → same_view s2 s3 → same_view s1 s3.
Proof. intros [] []. split; intros; congruence. Qed.

(** ** The world's blocks *)
Class LightInput (I : Type) := {
  registry : I → Lighting;
  state_at : I → LightBlock → Z;
  emission_sources : I → ChunkAddress → list (LightBlock * Z);
  source_stamp : I → nat;
}.

(** An admitted source: every state has a material of the registry, and the
    emission sources of a chunk are exactly its emitting blocks. *)
Record source_ok {I} `{LightInput I} (i : I) : Prop := {
  so_registry : lighting_ok (registry i);
  so_state p : 0 ≤ state_at i p ∧ is_Some (material (registry i) (state_at i p));
  so_emission c p st : (p, st) ∈ emission_sources i c →
    block_i32 p ∧ block_column p = c ∧ state_at i p = st ∧ ∃ m, material (registry i) st = Some m ∧ 0 < emission m;
  so_complete c p m : block_i32 p → block_column p = c → material (registry i) (state_at i p) = Some m → 0 < emission m →
    (p, state_at i p) ∈ emission_sources i c;
}.
