(* ===== verification/LightSourceFacts.v ===== *)
(** * Light sources: what the engines may rely on

    A source built from resident chunks or from sections handed over is valid:
    every section it serves has states with light materials and an exact count
    of non-air blocks.  A valid source answers every read, and implements the
    interface [LightInput] of the light engines with its contract. *)

From Stdlib Require Import Sorted.
From stdpp Require Import sets.
From S2P Require Import Prelude.
From S2P Require Import Outcomes.
From S2P Require Import View.
From S2P Require Import Container.
From S2P Require Import SectionNet.
From S2P Require Import Sorted.
From S2P Require Import Sorting.
From S2P Require Import LightTypes.
From S2P Require Import LightTable.
From S2P Require Import ChunkRegistry.
From S2P Require Import RegistryFacts.
From S2P Require Import ChunkDraft.
From S2P Require Import ChunkFacts.
From S2P Require Import LightSource.
Local Open Scope Z_scope.

(** ** Valid sources *)

Definition height_ok (h : DimensionHeight) : Prop := -128 ≤ min_section h ≤ max_section h ∧ max_section h ≤ 127.

(** A section the source can serve. *)
Record cells_ok (r : ChunkRegistrySnapshot) (v : Section_) : Prop := {
  ce_inv : inv (blocks v);
  ce_length : length (contents (blocks v)) = 4096%nat;
  ce_states : Forall (λ id, 0 ≤ id < count r) (contents (blocks v));
  ce_count : non_empty_blocks (counts v) = tally (non_air r) (contents (blocks v));
}.

Definition address_ok (a : ChunkAddress) : Prop := -2097061 ≤ View.x a ≤ 2097061 ∧ -2097061 ≤ View.z a ≤ 2097061.

Definition data_ok (r : ChunkRegistrySnapshot) (h : DimensionHeight) (d : Data) : Prop :=
  match d with
  | Owned sections => zlen sections = section_count h ∧ ∀ v, Some v ∈ sections → cells_ok r v
  | Resident resident indices => zlen indices = section_count h ∧
      ∀ row v, row ∈ sections (draft resident) → ss_section row = Some v → cells_ok r v
  end.

Record source_valid (s : LightingSource) : Prop := {
  sv_registry : registry_ok (ls_registry s);
  sv_height : height_ok (ls_height s);
  sv_air : ls_air s = rg_air (ls_registry s);
  sv_bedrock : 0 ≤ ls_bedrock s < count (ls_registry s);
  sv_sorted : sorted_keys chunk_key (ls_chunks s);
  sv_chunks : Forall (λ c, address_ok (c_address c) ∧ data_ok (ls_registry s) (ls_height s) (c_data c)) (ls_chunks s);
}.

Lemma source_key_inj a b : address_key a = address_key b → a = b.
Proof. destruct a, b. by intros [= -> ->]. Qed.

(** Materials are defined on the states of the domain. *)
Lemma material_defined r v : registry_ok r → 0 ≤ v < count r → ∃ m, light_material r v = Some m.
Proof.
  intros Hr Hv. destruct (rk_lighting r Hr) as [_ Hl]. unfold light_material, material. apply lookup_lt_ok. unfold zlen in Hl. lia.
Qed.

Lemma material_range r v m : registry_ok r → 0 ≤ v → light_material r v = Some m → v < count r.
Proof.
  intros Hr Hv Hm. destruct (rk_lighting r Hr) as [_ Hl]. unfold light_material, material in Hm. apply lookup_lt_Some in Hm. unfold zlen in Hl. lia.
Qed.

(** ** Geometry of a section *)

Lemma lor_shiftl a b k : 0 ≤ k → 0 ≤ b < 2 ^ k → Z.lor (Z.shiftl a k) b = a * 2 ^ k + b.
Proof.
  intros Hk Hb. rewrite Z.shiftl_mul_pow2 by done. symmetry. rewrite <- Z.lxor_lor; [apply Z.add_nocarry_lxor|];
    (apply Z.bits_inj'; intros i Hi; rewrite Z.land_spec, Z.bits_0;
     destruct (decide (i < k)); [by rewrite Z.mul_pow2_bits_low|by rewrite (testbit_high k b i Hb), andb_false_r by lia]).
Qed.

Lemma land_15 a : Z.land a 15 = a mod 16.
Proof. exact (land_ones_mod a 4 ltac:(lia)). Qed.

Lemma cell_index_spec x y z : 0 ≤ x < 16 → 0 ≤ z < 16 →
  Z.lor (Z.lor (Z.shiftl (y mod 16) 8) (Z.shiftl z 4)) x = (y mod 16 * 16 + z) * 16 + x.
Proof.
  intros Hx Hz. pose proof (Z.mod_pos_bound y 16 ltac:(lia)).
  assert (Z.lor (Z.shiftl (y mod 16) 8) (Z.shiftl z 4) = Z.shiftl (y mod 16 * 16 + z) 4) as ->.
  { change 8 with (4 + 4). rewrite <- Z.shiftl_shiftl, <- Z.shiftl_lor by lia. by rewrite (lor_shiftl _ _ 4) by lia. }
  by rewrite lor_shiftl by lia.
Qed.

Lemma shiftr_16 a : Z.shiftr a 4 = a / 16.
Proof. by rewrite Z.shiftr_div_pow2. Qed.

(** Where the cells of a chunk are. *)
Lemma cell_block_spec a sec i : address_ok a → (i < 4096)%nat → -128 ≤ sec ≤ 127 →
  let p := cell_block a sec i in
  block_i32 p ∧ block_column p = a ∧ Z.shiftr (lb_y p) 4 = sec ∧
  Z.lor (Z.lor (Z.shiftl (Z.land (lb_y p) 15) 8) (Z.shiftl (Z.land (lb_z p) 15) 4)) (Z.land (lb_x p) 15) = Z.of_nat i.
Proof.
  intros [Hx Hz] Hi Hsec. unfold cell_block. rewrite !land_15, shiftr_16. rewrite (Z.shiftr_div_pow2 _ 8) by lia. change (2 ^ 8) with 256.
  set (n := Z.of_nat i). assert (Hn : 0 ≤ n < 4096) by lia.
  assert (Hw : ∀ v k, -2097061 ≤ v ≤ 2097061 → 0 ≤ k < 16 → i_wrap 32 (i_wrap 32 (v * 16) + k) = v * 16 + k).
  { intros v k Hv Hk. rewrite (i_wrap_idem 32 (v * 16)), (i_wrap_idem 32 (v * 16 + k)); unfold in_i; change (2 ^ (32 - 1)) with 2147483648; lia. }
  pose proof (Z.mod_pos_bound n 16 ltac:(lia)). pose proof (Z.mod_pos_bound (n / 16) 16 ltac:(lia)).
  pose proof (Z.div_mod n 16 ltac:(lia)). pose proof (Z.div_mod (n / 16) 16 ltac:(lia)).
  assert (n / 16 / 16 = n / 256) as Hd by (by rewrite Z.div_div). rewrite Hd in *.
  assert (0 ≤ n / 256 < 16) by (split; [apply Z.div_pos; lia|apply Z.div_lt_upper_bound; lia]).
  rewrite !Hw by done. cbn [lb_x lb_y lb_z]. split; [|split; [|split]].
  - unfold block_i32, in_i. cbn [lb_x lb_y lb_z]. change (2 ^ (32 - 1)) with 2147483648. lia.
  - unfold block_column, block_section, section_column. cbn. rewrite !shiftr_16, !Z.div_add_l, (Z.div_small (n mod 16)), (Z.div_small (n / 16 mod 16)), !Z.add_0_r by lia. by destruct a.
  - rewrite shiftr_16, Z.div_add_l, (Z.div_small (n / 256)) by lia. lia.
  - rewrite cell_index_spec by (apply Z.mod_pos_bound; lia).
    assert (Hm : ∀ b c, 0 ≤ c < 16 → (b * 16 + c) mod 16 = c) by (intros b c Hc; rewrite Z.add_comm, Z.mod_add, Z.mod_small; lia).
    rewrite !Hm by done. lia.
Qed.

(** Every block of a column is a cell of its section. *)
Lemma block_cell p : block_i32 p → address_ok (block_column p) →
  ∃ i, (i < 4096)%nat ∧ p = cell_block (block_column p) (Z.shiftr (lb_y p) 4) i ∧
    Z.lor (Z.lor (Z.shiftl (Z.land (lb_y p) 15) 8) (Z.shiftl (Z.land (lb_z p) 15) 4)) (Z.land (lb_x p) 15) = Z.of_nat i.
Proof.
  destruct p as [px py pz]. intros (Hx&Hy&Hz) Ha. cbn [lb_x lb_y lb_z] in *.
  pose proof (Z.mod_pos_bound px 16 ltac:(lia)). pose proof (Z.mod_pos_bound py 16 ltac:(lia)). pose proof (Z.mod_pos_bound pz 16 ltac:(lia)).
  exists (Z.to_nat ((py mod 16 * 16 + pz mod 16) * 16 + px mod 16)). split; [lia|].
  rewrite !land_15, cell_index_spec by done. split; [|lia].
  unfold cell_block, block_column, block_section, section_column. cbn [lb_x lb_y lb_z View.x View.z ls_x ls_y ls_z].
  rewrite !Z2Nat.id by lia. rewrite !land_15, !shiftr_16. rewrite (Z.shiftr_div_pow2 _ 8) by lia. change (2 ^ 8) with 256.
  destruct Ha as [Hax Haz]. unfold block_column, block_section, section_column in Hax, Haz. cbn in Hax, Haz. rewrite shiftr_16 in Hax, Haz.
  pose proof (Z.div_mod px 16 ltac:(lia)). pose proof (Z.div_mod py 16 ltac:(lia)). pose proof (Z.div_mod pz 16 ltac:(lia)).
  set (n := (py mod 16 * 16 + pz mod 16) * 16 + px mod 16).
  assert (n mod 16 = px mod 16) as -> by (unfold n; rewrite Z.add_comm, Z.mod_add, Z.mod_mod by lia; done).
  assert (n / 16 = py mod 16 * 16 + pz mod 16) as E by (unfold n; rewrite Z.div_add_l, (Z.div_small (px mod 16)) by lia; lia).
  assert (n / 256 = py mod 16) as -> by (change 256 with (16 * 16); rewrite <- Z.div_div, E, Z.div_add_l, (Z.div_small (pz mod 16)) by lia; lia).
  rewrite E. assert ((py mod 16 * 16 + pz mod 16) mod 16 = pz mod 16) as -> by (rewrite Z.add_comm, Z.mod_add, Z.mod_mod by lia; done).
  assert (Hw : ∀ v, in_i 32 v → i_wrap 32 (i_wrap 32 (v / 16 * 16) + v mod 16) = v).
  { intros v Hv. pose proof (Z.div_mod v 16 ltac:(lia)). pose proof (Z.mod_pos_bound v 16 ltac:(lia)). unfold in_i in Hv. change (2 ^ (32 - 1)) with 2147483648 in Hv.
    rewrite (i_wrap_idem 32 (v / 16 * 16)), i_wrap_idem; unfold in_i; change (2 ^ (32 - 1)) with 2147483648; lia. }
  rewrite !Hw by done. f_equal. lia.
Qed.

Section valid.
Context (s : LightingSource).
Hypothesis Hs : source_valid s.
Let r := ls_registry s.
Let h := ls_height s.

Lemma chunk_at_some a c : chunk_at s a = Some c ↔ c ∈ ls_chunks s ∧ c_address c = a.
Proof.
  pose proof (search_key chunk_key (ls_chunks s) (address_key a) (sv_sorted s Hs)) as Hk. unfold chunk_at.
  destruct (binary_search _ _) as [i|i] eqn:E.
  - destruct Hk as (c'&Hc'&Ha). rewrite Hc'. apply source_key_inj in Ha. split.
    + intros [= <-]. split; [by eapply list_elem_of_lookup_2|done].
    + intros [Hin Hca]. apply list_elem_of_lookup in Hin as [j Hj].
      assert (i = j) as -> by (eapply (sorted_unique chunk_key _ i j c' c (sv_sorted s Hs) Hc' Hj); unfold chunk_key; congruence). congruence.
  - split; [done|]. intros [Hin <-]. exfalso.
    destruct (search_sorted chunk_key _ c (sv_sorted s Hs) Hin) as (j&Hj&_). unfold chunk_key at 2 in Hj. congruence.
Qed.

Lemma chunk_at_ok a c : chunk_at s a = Some c → address_ok a ∧ data_ok r h (c_data c).
Proof.
  intros [Hin <-]%chunk_at_some. pose proof (sv_chunks s Hs) as Hf. rewrite Forall_forall in Hf. by apply Hf.
Qed.

(** Every read of a section answers, and what it finds can be served. *)
Lemma section_at_ok a y : ∃ v, section_at s a y = Ok v ∧
  ∀ sec, v = Some sec → cells_ok r sec ∧ height_contains h y = true ∧ is_Some (chunk_at s a).
Proof.
  unfold section_at. fold h. destruct (negb _) eqn:Ey; cbn [orb]; [by eexists|].
  destruct (height_contains h y) eqn:Eh; cbn [negb]; [|by eexists].
  destruct (chunk_at s a) as [c|] eqn:Ec; [|by eexists]. destruct (chunk_at_ok a c Ec) as [_ Hd].
  assert (Hi : (Z.to_nat (y - min_section h) < Z.to_nat (section_count h))%nat).
  { unfold height_contains in Eh. apply andb_prop in Eh as [?%Z.leb_le ?%Z.leb_le]. unfold section_count. lia. }
  destruct (c_data c) as [resident indices|secs]; destruct Hd as [Hl Hd].
  - destruct (lookup_lt_ok indices (Z.to_nat (y - min_section h))) as [i Hidx]; [unfold zlen in Hl; lia|]. rewrite Hidx. mstep.
    eexists. split; [reflexivity|]. intros sec Hsec. unfold get_row in Hsec. destruct (i <? zlen _); [|done].
    destruct (sections (draft resident) !! Z.to_nat i) as [row|] eqn:Er; [|done]. cbn in Hsec.
    split; [|done]. eapply Hd; [by eapply list_elem_of_lookup_2|done].
  - destruct (lookup_lt_ok secs (Z.to_nat (y - min_section h))) as [v Hv]; [unfold zlen in Hl; lia|]. rewrite Hv. mstep.
    eexists. split; [done|]. intros sec ->. split; [|done]. apply Hd. by eapply list_elem_of_lookup_2.
Qed.

Lemma expect_cell_ok v i : cells_ok r v → 0 ≤ i < 4096 → ∃ id, expect_cell (blocks v) i = Ok id ∧
  contents (blocks v) !! Z.to_nat i = Some id ∧ 0 ≤ id < count r.
Proof.
  intros [Hinv Hl Hst _] Hi. destruct (lookup_lt_ok (contents (blocks v)) (Z.to_nat i)) as [id Hid]; [lia|].
  exists id. unfold expect_cell. rewrite (container_get_spec _ _ Hinv), Hid. split; [done|]. split; [done|].
  rewrite Forall_lookup in Hst. by apply (Hst _ _ Hid).
Qed.

(** The block at a position of a section, as the source reports it. *)
Definition cell_of (v : option Section_) (i : nat) : Z :=
  match v with
  | Some v => if non_empty_blocks (counts v) =? 0 then ls_air s else default (ls_air s) (contents (blocks v) !! i)
  | None => ls_air s
  end.

Lemma cell_range v i : (∀ sec, v = Some sec → cells_ok r sec) → 0 ≤ cell_of v i < count r.
Proof.
  intros Hv. assert (Hair : 0 ≤ ls_air s < count r) by (rewrite (sv_air s Hs); apply air_in_range, Hs).
  destruct v as [v|]; [|done]. cbn. destruct (_ =? 0); [done|]. destruct (contents (blocks v) !! i) as [id|] eqn:E; [|done].
  destruct (Hv v eq_refl) as [_ _ Hst _]. rewrite Forall_lookup in Hst. by eapply Hst.
Qed.


(** What the source finds at a section. *)
Definition found (a : ChunkAddress) (y : Z) : option Section_ := match section_at s a y with Ok v => v | _ => None end.

Lemma section_at_found a y : section_at s a y = Ok (found a y) ∧
  ∀ sec, found a y = Some sec → cells_ok r sec ∧ height_contains h y = true ∧ is_Some (chunk_at s a).
Proof. unfold found. destruct (section_at_ok a y) as (v&->&Hv). by split. Qed.

Lemma state_in_chunk_ok a x y z :
  0 ≤ x < 16 → 0 ≤ z < 16 →
  state_in_chunk s a x y z =
    Ok (if has_chunk s a then Some (cell_of (found a (Z.shiftr y 4)) (Z.to_nat ((y mod 16 * 16 + z) * 16 + x))) else None).
Proof.
  intros Hx Hz. unfold state_in_chunk. destruct (Z.leb_spec 16 x), (Z.leb_spec 16 z); [lia..|]. cbn [orb].
  destruct (has_chunk s a); cbn [negb]; [|done]. destruct (section_at_found a (Z.shiftr y 4)) as [-> Hv]. mstep.
  destruct (found a (Z.shiftr y 4)) as [v|]; [|done]. cbn [cell_of]. destruct (_ =? 0); [done|].
  destruct (Hv v eq_refl) as [Hok _]. pose proof (Z.mod_pos_bound y 16 ltac:(lia)).
  rewrite land_15, cell_index_spec by done.
  destruct (expect_cell_ok v ((y mod 16 * 16 + z) * 16 + x) Hok) as (id&->&Hid&_); [lia|]. mstep. by rewrite Hid.
Qed.

(** The index of a block in its section. *)
Definition block_index (p : LightBlock) : nat := Z.to_nat ((lb_y p mod 16 * 16 + lb_z p mod 16) * 16 + lb_x p mod 16).

Definition state_of (p : LightBlock) : Z :=
  if has_chunk s (block_column p) then cell_of (found (block_column p) (Z.shiftr (lb_y p) 4)) (block_index p) else ls_bedrock s.

Lemma source_state_ok p : source_state_at s p = Ok (state_of p).
Proof.
  unfold source_state_at, state_of, block_index. rewrite !land_15.
  rewrite state_in_chunk_ok by (apply Z.mod_pos_bound; lia). mstep. by destruct (has_chunk _ _).
Qed.

Lemma state_of_range p : 0 ≤ state_of p < count r.
Proof.
  unfold state_of. destruct (has_chunk _ _); [|apply (sv_bedrock s Hs)]. apply cell_range.
  intros sec Hsec. by destruct (proj2 (section_at_found _ _) sec Hsec).
Qed.

(** ** Emitting blocks *)

Definition emits (id : Z) : bool := match light_material r id with Some m => 0 <? emission m | None => false end.

Definition cell_item (a : ChunkAddress) (sec : Z) (v : Section_) (i : nat) : option (LightBlock * Z) :=
  id ← contents (blocks v) !! i; if emits id then Some (cell_block a sec i, id) else None.
(** The emitting blocks of a section from a cell on. *)
Definition row_items (a : ChunkAddress) (sec : Z) (from : nat) : list (LightBlock * Z) :=
  match found a sec with
  | Some v => if non_empty_blocks (counts v) =? 0 then [] else omap (cell_item a sec v) (seq from (4096 - from))
  | None => []
  end.
Fixpoint rows_items (a : ChunkAddress) (sec : Z) (n : nat) : list (LightBlock * Z) :=
  match n with O => [] | S n => row_items a sec 0 ++ rows_items a (sec + 1) n end.
(** What an iterator has still to give. *)
Definition rest_items (a : ChunkAddress) (it : EmissionSources) : list (LightBlock * Z) :=
  row_items a (es_section it) (es_index it) ++ rows_items a (es_section it + 1) (Z.to_nat (max_section h - es_section it)).

Lemma next_cell_ok v index n :
  cells_ok r v → (index + n = 4096)%nat →
  (next_cell s (blocks v) index n = Ok None ∧ ∀ a sec, omap (cell_item a sec v) (seq index n) = []) ∨
  (∃ i id, next_cell s (blocks v) index n = Ok (Some (i, id)) ∧ (index ≤ i < 4096)%nat ∧
     ∀ a sec, omap (cell_item a sec v) (seq index n) = (cell_block a sec i, id) :: omap (cell_item a sec v) (seq (S i) (4096 - S i))).
Proof.
  intros Hok. revert index. induction n as [|n IH]; intros index Hn; [by left|]. cbn [next_cell seq].
  destruct (expect_cell_ok v (Z.of_nat index) Hok) as (id&->&Hid&Hrange); [lia|]. rewrite Nat2Z.id in Hid. mstep.
  destruct (material_defined r id (sv_registry s Hs) Hrange) as [m Hm]. fold r. rewrite Hm. mstep.
  assert (He : emits id = (0 <? emission m)) by (unfold emits; by rewrite Hm). destruct (0 <? emission m) eqn:Em.
  - right. exists index, id. split; [done|]. split; [lia|]. intros a sec. cbn [omap list_omap]. unfold cell_item at 1. rewrite Hid. cbn [mbind option_bind].
    rewrite He. assert (n = 4096 - S index)%nat as -> by lia. reflexivity.
  - destruct (IH (S index) ltac:(lia)) as [[-> Hnil]|(i&id'&->&Hi&Hcons)].
    + left. split; [done|]. intros a sec. cbn [omap list_omap]. unfold cell_item at 1. rewrite Hid. cbn [mbind option_bind]. rewrite He. apply Hnil.
    + right. exists i, id'. split; [done|]. split; [lia|]. intros a sec. cbn [omap list_omap]. unfold cell_item at 1. rewrite Hid. cbn [mbind option_bind]. rewrite He. apply Hcons.
Qed.

Lemma row_outside a sec from : height_contains h sec = false → row_items a sec from = [].
Proof.
  intros Hc. unfold row_items. destruct (section_at_found a sec) as [_ Hv]. destruct (found a sec) as [v|]; [|done].
  destruct (Hv v eq_refl) as (_&Hc'&_). congruence.
Qed.

Lemma rest_skip a it : es_section it ≤ max_section h → row_items a (es_section it) (es_index it) = [] →
  rest_items a it = rest_items a {| es_section := es_section it + 1; es_index := 0 |}.
Proof.
  intros Hm Hrow. unfold rest_items. rewrite Hrow. cbn [es_section es_index app].
  destruct (Z.to_nat (max_section h - es_section it)) as [|n] eqn:En.
  - replace (Z.to_nat (max_section h - (es_section it + 1))) with O by lia. cbn [rows_items]. rewrite app_nil_r, row_outside; [done|].
    unfold height_contains. apply andb_false_intro2. apply Z.leb_gt. lia.
  - replace (Z.to_nat (max_section h - (es_section it + 1))) with n by lia. done.
Qed.

Lemma emission_next_ok a fuel it :
  (es_index it ≤ 4096)%nat → (Z.to_nat (max_section h + 1 - es_section it) ≤ fuel)%nat →
  (emission_next s a fuel it = Ok None ∧ rest_items a it = []) ∨
  (∃ item it', emission_next s a fuel it = Ok (Some (item, it')) ∧ rest_items a it = item :: rest_items a it' ∧
     (es_index it' ≤ 4096)%nat ∧ es_section it ≤ es_section it').
Proof.
  revert it. induction fuel as [|fuel IH]; intros it Hi Hf.
  all: cbn [emission_next]; fold h; destruct (Z.ltb_spec (max_section h) (es_section it)) as [Hlt|Hle]; [|lia || idtac].
  1,2: left; split; [done|]; unfold rest_items; replace (Z.to_nat (max_section h - es_section it)) with O by lia; cbn [rows_items];
    rewrite app_nil_r; apply row_outside; unfold height_contains; apply andb_false_intro2, Z.leb_gt; lia.
  set (skip := {| es_section := es_section it + 1; es_index := 0 |}).
  assert (Hskip : row_items a (es_section it) (es_index it) = [] →
    (emission_next s a fuel skip = Ok None ∧ rest_items a it = []) ∨
    (∃ item it', emission_next s a fuel skip = Ok (Some (item, it')) ∧ rest_items a it = item :: rest_items a it' ∧
       (es_index it' ≤ 4096)%nat ∧ es_section it ≤ es_section it')).
  { intros Hrow. rewrite (rest_skip a it Hle Hrow). fold skip. destruct (IH skip) as [Hn|(item&it'&?&?&?&Hge)]; [cbn; lia|cbn; lia|by left|].
    right. exists item, it'. split_and!; [done..|]. cbn in Hge. lia. }
  destruct (section_at_found a (es_section it)) as [-> Hv]. mstep. unfold row_items in Hskip at 1.
  destruct (found a (es_section it)) as [v|] eqn:Ef; [|by apply Hskip]. destruct (Hv v eq_refl) as (Hok&_&_).
  destruct (non_empty_blocks (counts v) =? 0) eqn:En; [by apply Hskip|].
  destruct (next_cell_ok v (es_index it) (4096 - es_index it) Hok) as [[-> Hnil]|(i&id&->&Hir&Hcons)]; [lia| |]; mstep.
  - apply Hskip, Hnil.
  - right. eexists _, _. split; [done|]. cbn [es_index es_section]. split; [|lia].
    unfold rest_items, row_items. cbn [es_index es_section]. rewrite Ef, En, Hcons. done.
Qed.

Lemma emission_items_ok a fuel it :
  (es_index it ≤ 4096)%nat → min_section h ≤ es_section it → (length (rest_items a it) ≤ fuel)%nat →
  emission_items s a fuel it = Ok (rest_items a it).
Proof.
  intros Hi Hlo. revert it Hi Hlo. induction fuel as [|fuel IH]; intros it Hi Hlo Hl.
  all: cbn [emission_items];
    destruct (emission_next_ok a (S (sections_fuel s)) it Hi) as [[-> Hnil]|(item&it'&->&Hcons&Hi'&Hge)];
    [unfold sections_fuel, section_count; fold h; lia|mstep; by rewrite Hnil|mstep].
  - rewrite Hcons in Hl. cbn in Hl. lia.
  - rewrite IH; [mstep; by rewrite Hcons|done|lia|]. rewrite Hcons in Hl. cbn [length] in Hl. lia.
Qed.

Lemma omap_length {A B} (f : A → option B) l : (length (omap f l) ≤ length l)%nat.
Proof. induction l as [|x l IH]; cbn; [lia|]. destruct (f x); cbn; lia. Qed.

Lemma rows_length a sec n : (length (rows_items a sec n) ≤ n * 4096)%nat.
Proof.
  revert sec. induction n as [|n IH]; intros sec; cbn [rows_items]; [cbn; lia|]. rewrite length_app. specialize (IH (sec + 1)).
  assert (length (row_items a sec 0) ≤ 4096)%nat; [|lia]. unfold row_items. destruct (found a sec) as [v|]; [|cbn [length]; lia].
  destruct (_ =? 0); [cbn [length]; lia|]. etrans; [apply omap_length|]. rewrite length_seq. lia.
Qed.

Lemma rest_start a : rest_items a (emission_start s) = rows_items a (min_section h) (sections_fuel s).
Proof.
  unfold rest_items, emission_start, sections_fuel, section_count. cbn [es_section es_index].
  pose proof (sv_height s Hs) as Hh. change (height_ok h) in Hh. destruct Hh as [[? ?] ?]. change (ls_height s) with h.
  replace (Z.to_nat (max_section h - min_section h + 1)) with (S (Z.to_nat (max_section h - min_section h))) by lia. done.
Qed.

Lemma source_emissions_ok a : source_emissions s a = Ok (rows_items a (min_section h) (sections_fuel s)).
Proof.
  unfold source_emissions. rewrite emission_items_ok; rewrite ?rest_start; [done|cbn; lia|done|]. apply rows_length.
Qed.

Lemma elem_of_rows_items a sec n p st :
  (p, st) ∈ rows_items a sec n ↔ ∃ k v i, sec ≤ k < sec + Z.of_nat n ∧ found a k = Some v ∧ non_empty_blocks (counts v) ≠ 0 ∧
    contents (blocks v) !! i = Some st ∧ (i < 4096)%nat ∧ emits st = true ∧ p = cell_block a k i.
Proof.
  revert sec. induction n as [|n IH]; intros sec; cbn [rows_items].
  { split; [by intros ?%not_elem_of_nil|]. intros (k&v&i&?&_). lia. }
  rewrite elem_of_app, IH. split.
  - intros [Hrow|(k&v&i&?&Hrest)]; [|exists k, v, i; split; [lia|done]].
    unfold row_items in Hrow. destruct (found a sec) as [v|] eqn:Ef; [|by apply not_elem_of_nil in Hrow].
    destruct (Z.eqb_spec (non_empty_blocks (counts v)) 0); [by apply not_elem_of_nil in Hrow|].
    apply list_elem_of_omap in Hrow as (i&Hi&Hc). apply elem_of_seq in Hi. unfold cell_item in Hc.
    destruct (contents (blocks v) !! i) as [id|] eqn:Eid; [|done]. cbn [mbind option_bind] in Hc. destruct (emits id) eqn:Ee; [|done].
    injection Hc as <- <-. exists sec, v, i. split_and!; [lia..|done|done|done|lia|done|done].
  - intros (k&v&i&Hk&Hf&Hn&Hid&Hi&He&->). destruct (decide (k = sec)) as [->|]; [left|right; exists k, v, i; split; [lia|done]].
    unfold row_items. rewrite Hf. destruct (Z.eqb_spec (non_empty_blocks (counts v)) 0); [done|].
    apply list_elem_of_omap. exists i. split; [apply elem_of_seq; lia|]. unfold cell_item. rewrite Hid. cbn [mbind option_bind]. by rewrite He.
Qed.
End valid.

(** ** Building a source *)

(** Terrain stored for a section: the last row that has some. *)
Fixpoint stored_section (rows : list StoredSection) (y : Z) : option Section_ :=
  match rows with
  | [] => None
  | row :: rows =>
      match stored_section rows y with
      | Some v => Some v
      | None => if ss_y row =? y then ss_section row else None
      end
  end.
Fixpoint stored_index (rows : list StoredSection) (i y : Z) : option Z :=
  match rows with
  | [] => None
  | row :: rows =>
      match stored_index rows (i + 1) y with
      | Some j => Some j
      | None => if (ss_y row =? y) && bool_decide (is_Some (ss_section row)) then Some i else None
      end
  end.

Lemma stored_index_spec rows i y :
  match stored_index rows i y with
  | Some j => ∃ k row, j = i + Z.of_nat k ∧ rows !! k = Some row ∧ ss_section row = stored_section rows y ∧ is_Some (stored_section rows y)
  | None => stored_section rows y = None
  end.
Proof.
  revert i. induction rows as [|row rows IH]; intros i; [done|]. cbn [stored_index stored_section]. specialize (IH (i + 1)).
  destruct (stored_index rows (i + 1) y) as [j|].
  - destruct IH as (k&row'&->&Hk&Hr&[v Hv]). exists (S k), row'. rewrite Hv in *. split_and!; [lia|done|done|by eexists].
  - rewrite IH. destruct (ss_y row =? y); cbn [andb]; [|done]. destruct (ss_section row) as [v|] eqn:Ev; cbn; [|done].
    exists O, row. split_and!; [lia|done|done|by eexists].
Qed.

Lemma height_index h y : height_contains h y = true → (Z.to_nat (y - min_section h) < Z.to_nat (section_count h))%nat ∧ min_section h ≤ y.
Proof. unfold height_contains, section_count. intros [?%Z.leb_le ?%Z.leb_le]%andb_prop. lia. Qed.

Lemma index_rows_ok h rows i indices :
  length indices = Z.to_nat (section_count h) →
  ∃ indices', index_rows h rows i indices = Ok indices' ∧ length indices' = length indices ∧
    ∀ y, height_contains h y = true → indices' !! Z.to_nat (y - min_section h) =
      match stored_index rows i y with Some j => Some j | None => indices !! Z.to_nat (y - min_section h) end.
Proof.
  revert i indices. induction rows as [|row rows IH]; intros i indices Hl; cbn [index_rows stored_index]; [by exists indices|].
  destruct (height_contains h (ss_y row) && bool_decide (is_Some (ss_section row))) eqn:Ec.
  - apply andb_prop in Ec as [Hc Hsome]. destruct (height_index h _ Hc) as [Hlt Hmin].
    destruct (lookup_lt_ok indices (Z.to_nat (ss_y row - min_section h)) ltac:(lia)) as [old ->]. mstep.
    destruct (IH (i + 1) (<[Z.to_nat (ss_y row - min_section h) := i]> indices)) as (idx&->&Hlen&Hidx); [by rewrite length_insert|].
    exists idx. split; [done|]. rewrite length_insert in Hlen. split; [done|]. intros y Hy. rewrite (Hidx y Hy).
    destruct (stored_index rows (i + 1) y); [done|]. destruct (height_index h y Hy) as [_ Hmin'].
    destruct (Z.eqb_spec (ss_y row) y) as [<-|Hne]; cbn [andb].
    + rewrite Hsome, list_lookup_insert_eq by lia. done.
    + rewrite list_lookup_insert_ne by lia. done.
  - mstep. destruct (IH (i + 1) indices Hl) as (idx&->&Hlen&Hidx). exists idx. split; [done|]. split; [done|]. intros y Hy. rewrite (Hidx y Hy).
    destruct (stored_index rows (i + 1) y); [done|]. destruct (Z.eqb_spec (ss_y row) y) as [Ey|]; cbn [andb]; [|done].
    rewrite Ey, Hy in Ec. cbn [andb] in Ec. by rewrite Ec.
Qed.

(** The owner's promise about its resident chunks. *)
Record owner_ok {O} `{ChunkOwner O} (owner : O) : Prop := {
  ow_registry : registry_ok (source_registry owner);
  ow_height : height_ok (owner_height owner);
  ow_sections a res row v : snapshot_data owner a = Some res → row ∈ sections (draft res) → ss_section row = Some v →
    section_valid (source_registry owner) v;
  ow_rows a res : snapshot_data owner a = Some res → zlen (sections (draft res)) ≤ usize_max;
}.

Lemma valid_cells r v : section_valid r v → cells_ok r v.
Proof.
  intros [(Hinv&Hk&Hreg) _ Hn _]. split; [done|by rewrite length_contents, Hk, kind_len_blocks| |done].
  eapply Forall_impl; [by apply contents_valid|]. intros id. by rewrite Hreg.
Qed.

Section building.
Context `{Allocator, SourceLayout}.

Lemma reserve_vec_ok size n remaining :
  yields (reserve_vec size n remaining) (λ rest, 0 ≤ remaining → 0 ≤ n → 0 ≤ size → rest ≤ remaining).
Proof.
  unfold reserve_vec. ystep. intros req _. destruct (remaining <? req); [exact I|]. ystep. intros cap Hcap%reserve_exact_ge. ystep. intros bytes Hb.
  eapply yields_weaken; [apply yields_ok_or|]. cbv beta. intros rest Hrest ? ? ?. unfold checked_mul in Hb. destruct (_ <=? usize_max); [|done].
  unfold checked_sub in Hrest. destruct (_ <=? _); [|done]. simplify_eq. nia.
Qed.

Lemma validate_source_ok r h : registry_ok r → yields (validate_source r h) (λ bedrock, 0 ≤ bedrock < count r).
Proof.
  intros Hr. unfold validate_source. destruct (_ || _); [exact I|].
  assert (∃ found, bedrock_id r = Ok found ∧ ∀ b, found = Some b → 0 ≤ b < count r) as (found&->&Hf).
  { unfold bedrock_id. destruct (binary_search _ _) as [i|i] eqn:E; [|by exists None].
    apply binary_search_found in E as (b&Hb&_). rewrite Hb. mstep. eexists. split; [done|]. intros ? [= <-].
    apply list_elem_of_lookup_2 in Hb. apply (found_in_range r Hr b _ Hb), default_in_states. by apply (block_at r Hr). }
  unfold lift. mstep. ystep. intros bedrock ->. ystep. intros _. ystep. by apply Hf.
Qed.

Lemma sort_unique_ok chunks : yields (sort_unique chunks) (λ l, sorted_keys chunk_key l ∧ l ≡ₚ chunks).
Proof.
  unfold sort_unique. destruct (repeats _ _) eqn:E; [exact I|]. split; [by apply sort_by_key_sorted|apply sort_by_key_perm].
Qed.

Lemma validate_address_ok a : yields (validate_address a) (λ _, address_ok a).
Proof.
  unfold validate_address. eapply yields_weaken; [apply yields_ensure|]. cbv beta. intros _ Hc.
  apply andb_prop in Hc as [[?%Z.leb_le ?%Z.leb_le]%andb_prop [?%Z.leb_le ?%Z.leb_le]%andb_prop]. by split.
Qed.

(** *** Sections handed over *)

Lemma check_cells_ok r c index n a w :
  inv c → yields (check_cells r c index n a w) (λ '(a', _), (n = 0 ∨ index + n ≤ length (contents c))%nat ∧
    Forall (λ id, is_Some (light_material r id)) (take n (drop index (contents c))) ∧
    a' = a + tally (non_air r) (take n (drop index (contents c)))).
Proof.
  intros Hinv. revert index a w. induction n as [|n IH]; intros index a w; cbn [check_cells].
  { apply yields_ok. rewrite take_0, tally_nil. split_and!; [by left|constructor|lia]. }
  rewrite (container_get_spec c index Hinv). destruct (contents c !! index) as [v|] eqn:Ev; mstep; [|exact I].
  ystep. intros Hm%bool_decide_eq_true. ystep. intros f Hf. eapply yields_weaken; [apply IH|]. intros [a' w'] (Hl&Hall&->).
  rewrite (drop_S _ v index) by done. rewrite firstn_cons, tally_cons. apply lookup_lt_Some in Ev.
  split; [right; lia|]. split; [by constructor|]. unfold non_air at 2. rewrite Hf. destruct (is_air f); cbn [negb]; lia.
Qed.

Lemma check_sections_ok r limits secs owned :
  registry_ok r → (∀ v, Some v ∈ secs → inv (blocks v)) →
  yields (check_sections r limits secs owned) (λ _, ∀ v, Some v ∈ secs → cells_ok r v).
Proof.
  intros Hr. revert owned. induction secs as [|[v|] secs IH]; intros owned Hty; cbn [check_sections].
  - intros v Hv. by apply not_elem_of_nil in Hv.
  - ystep. intros _. ystep. intros owned' _. ystep. intros _.
    assert (Hinv : inv (blocks v)) by (apply Hty; by left).
    ystep; [by apply check_cells_ok|]. intros [a w] ([?|Hl]&Hall&->); [done|]. ystep. intros [Ha%Z.eqb_eq _]%andb_prop.
    eapply yields_weaken; [apply IH; intros; apply Hty; by right|]. cbv beta. intros _ Hrest v' [[= ->]|Hv']%elem_of_cons; [|by apply Hrest].
    pose proof (length_contents _ Hinv) as Hlen.
    assert (length (contents (blocks v)) = 4096%nat) as Hfull.
    { rewrite Hlen in *. destruct (kind (blocks v)); rewrite ?kind_len_blocks, ?kind_len_biomes in *; [done|lia]. }
    rewrite drop_0, take_ge in Hall, Ha by lia. split; [done|done| |lia].
    apply Forall_lookup. intros i id Hi. pose proof (contents_valid _ Hinv) as Hv. rewrite Forall_lookup in Hv. destruct (Hv i id Hi).
    rewrite Forall_lookup in Hall. destruct (Hall i id Hi) as [m Hm]. split; [done|]. by eapply material_range.
  - eapply yields_weaken; [apply IH; intros; apply Hty; by right|]. cbv beta. intros _ Hrest v [?|Hv]%elem_of_cons; [done|by apply Hrest].
Qed.

Definition owned_chunk (c : LightingChunk) : Chunk := {| c_address := lc_address c; c_data := Owned (lc_sections c) |}.

Lemma adopt_ok r limits h input remaining owned :
  registry_ok r → (∀ c v, c ∈ input → Some v ∈ lc_sections c → inv (blocks v)) →
  yields (adopt r limits (section_count h) input remaining owned) (λ '(chunks, _, _), chunks = owned_chunk <$> input ∧
    Forall (λ c, address_ok (c_address c) ∧ data_ok r h (c_data c)) chunks).
Proof.
  intros Hr. revert remaining owned. induction input as [|c input IH]; intros remaining owned Hty; cbn [adopt]; [by split|].
  ystep; [apply validate_address_ok|]. intros [] Ha; cbv beta in Ha. ystep. intros Hlen%Z.eqb_eq. ystep. intros bytes _. ystep. intros rest _.
  ystep; [apply check_sections_ok; [done|]; intros v; apply (Hty c v); by left|]. intros owned' Hok.
  ystep; [apply IH; intros c' v Hc'; apply (Hty c' v); by right|]. intros [[chunks rest'] owned''] [-> Hall]. ystep.
  split; [done|]. by constructor.
Qed.

(** The source of sections handed over serves exactly these. *)
Record serves_input (s : LightingSource) (input : list LightingChunk) : Prop := {
  se_chunks a : has_chunk s a = true ↔ a ∈ lc_address <$> input;
  se_sections c y : c ∈ input → height_contains (ls_height s) y = true →
    lc_sections c !! Z.to_nat (y - min_section (ls_height s)) = Some (found s (lc_address c) y);
}.

Lemma has_chunk_some s a : source_valid s → has_chunk s a = true ↔ a ∈ c_address <$> ls_chunks s.
Proof.
  intros Hs. unfold has_chunk. rewrite bool_decide_eq_true. split.
  - intros [c [Hc <-]%(chunk_at_some s Hs)]. apply list_elem_of_fmap. eauto.
  - intros (c&->&Hc)%list_elem_of_fmap. exists c. by apply (chunk_at_some s Hs).
Qed.

Lemma height_byte h y : height_ok h → height_contains h y = true → (-128 <=? y) && (y <=? 127) = true.
Proof. intros [[? ?] ?] [?%Z.leb_le ?%Z.leb_le]%andb_prop. apply andb_true_intro. split; apply Z.leb_le; lia. Qed.

Lemma found_owned s a y sections :
  source_valid s → chunk_at s a = Some {| c_address := a; c_data := Owned sections |} → height_contains (ls_height s) y = true →
  sections !! Z.to_nat (y - min_section (ls_height s)) = Some (found s a y).
Proof.
  intros Hs Hc Hy. destruct (section_at_found s Hs a y) as [Hat _]. unfold section_at in Hat.
  rewrite (height_byte _ y (sv_height s Hs) Hy), Hy, Hc in Hat. cbn [negb orb c_data] in Hat. by apply unwrap_ok in Hat.
Qed.

Lemma from_sections_ok stamp r h input cap limits :
  registry_ok r → height_ok h → (∀ c v, c ∈ input → Some v ∈ lc_sections c → inv (blocks v)) →
  yields (from_sections stamp r h input cap limits) (λ s, source_valid s ∧ ls_registry s = r ∧ ls_height s = h ∧ ls_stamp s = stamp ∧ serves_input s input).
Proof.
  intros Hr Hh Hty. unfold from_sections. ystep; [by apply validate_source_ok|]. intros bedrock Hbed. cbv beta in Hbed.
  destruct (_ <? _); [exact I|]. ystep. intros ib _. ystep. intros rest _. ystep; [apply reserve_vec_ok|]. intros rest' _.
  ystep; [by apply (adopt_ok r limits h)|]. intros [[chunks rest''] owned] [Hch Hall].
  ystep; [apply sort_unique_ok|]. intros sorted [Hsort Hperm]. ystep. cbv beta in *.
  match goal with |- source_valid ?s ∧ _ => set (src := s) end.
  assert (Hv : source_valid src) by (split; cbn; [done..|by rewrite Hperm]).
  split; [done|]. do 3 (split; [done|]). split.
  - intros a. rewrite (has_chunk_some src a Hv). cbn. rewrite Hperm, Hch, <- list_fmap_compose. done.
  - intros c y Hc Hy. apply (found_owned src); [done| |done]. apply (chunk_at_some src Hv). split; [|done]. cbn. rewrite Hperm, Hch.
    apply (list_elem_of_fmap_2 owned_chunk). done.
Qed.

(** *** Resident chunks *)

Section canonical.
Context {O : Type} `{ChunkOwner O} (owner : O).
Hypothesis Hown : owner_ok owner.
Let h := owner_height owner.

Definition captured (c : Chunk) : Prop :=
  ∃ res indices, snapshot_data owner (c_address c) = Some res ∧ c_data c = Resident res indices ∧
    zlen indices = section_count h ∧
    ∀ y, height_contains h y = true → indices !! Z.to_nat (y - min_section h) = Some (default usize_max (stored_index (sections (draft res)) 0 y)).

Lemma capture_ok addresses remaining :
  yields (capture owner h addresses remaining) (λ '(chunks, _), c_address <$> chunks = addresses ∧
    Forall (λ c, address_ok (c_address c) ∧ captured c) chunks).
Proof.
  revert remaining. induction addresses as [|a addresses IH]; intros remaining; cbn [capture]; [by split|].
  ystep; [apply validate_address_ok|]. intros [] Ha. cbv beta in Ha. ystep. intros res Hres. ystep; [apply reserve_vec_ok|]. intros rest _.
  destruct (index_rows_ok h (sections (draft res)) 0 (replicate (Z.to_nat (section_count h)) usize_max)) as (idx&->&Hl&Hidx);
    [by rewrite length_replicate|]. mstep.
  ystep; [apply IH|]. intros [chunks rest'] [<- Hall]. ystep. split; [done|]. constructor; [|done]. split; [done|].
  exists res, idx. split; [done|]. split; [done|]. rewrite length_replicate in Hl. split.
  - pose proof (ow_height owner Hown) as Hh. change (height_ok h) in Hh. destruct Hh as [[? ?] ?]. unfold zlen, section_count in *. lia.
  - intros y Hy. rewrite (Hidx y Hy). destruct (stored_index _ 0 y); [done|]. cbn. apply lookup_replicate_2. by apply height_index.
Qed.

(** The source of resident chunks serves the stored terrain. *)
Record serves_residents (s : LightingSource) (addresses : list ChunkAddress) : Prop := {
  sr_chunks a : has_chunk s a = true ↔ a ∈ addresses;
  sr_sections a : a ∈ addresses → ∃ res, snapshot_data owner a = Some res ∧
    ∀ y, height_contains (ls_height s) y = true → found s a y = stored_section (sections (draft res)) y;
  sr_current : is_current s owner = true;
}.

Lemma captured_data c : captured c → data_ok (source_registry owner) h (c_data c).
Proof.
  intros (res&idx&Hres&->&Hl&_). split; [done|]. intros row v Hrow Hv. apply valid_cells. by eapply (ow_sections owner Hown).
Qed.

Lemma found_captured s c y :
  source_valid s → ls_height s = h → c ∈ ls_chunks s → captured c → height_contains h y = true →
  ∃ res, snapshot_data owner (c_address c) = Some res ∧ found s (c_address c) y = stored_section (sections (draft res)) y.
Proof.
  intros Hs Hh Hc (res&idx&Hres&Hd&Hl&Hidx) Hy. exists res. split; [done|].
  destruct (section_at_found s Hs (c_address c) y) as [Hat _]. unfold section_at in Hat.
  rewrite (proj2 (chunk_at_some s Hs (c_address c) c) (conj Hc eq_refl)) in Hat. pose proof (sv_height s Hs) as Hok. rewrite Hh in Hat, Hok.
  rewrite (height_byte _ y Hok Hy), Hy, Hd, (Hidx y Hy) in Hat. cbn [negb orb] in Hat. mstep in Hat. injection Hat as <-.
  pose proof (stored_index_spec (sections (draft res)) 0 y) as Hspec. pose proof (ow_rows owner Hown _ _ Hres) as Hrows.
  destruct (stored_index (sections (draft res)) 0 y) as [j|]; cbn [default].
  - destruct Hspec as (k&row&->&Hk&Hrow&_). unfold get_row, Datatypes.id. pose proof (lookup_lt_Some _ _ _ Hk).
    destruct (Z.ltb_spec (0 + Z.of_nat k) (zlen (sections (draft res)))) as [_|Hge]; [|unfold zlen in Hge; lia].
    replace (Z.to_nat (0 + Z.of_nat k)) with k by lia. by rewrite Hk.
  - rewrite Hspec. unfold get_row. by destruct (Z.ltb_spec usize_max (zlen (sections (draft res)))); [lia|].
Qed.

Lemma from_canonical_ok stamp addresses limits :
  yields (from_canonical stamp owner addresses limits) (λ s, source_valid s ∧ ls_registry s = source_registry owner ∧
    ls_height s = h ∧ ls_stamp s = stamp ∧ serves_residents s addresses).
Proof.
  pose proof (ow_registry owner Hown) as Hr. pose proof (ow_height owner Hown) as Hh.
  unfold from_canonical. ystep; [by apply validate_source_ok|]. intros bedrock Hbed. cbv beta in Hbed.
  destruct (_ <? _); [exact I|]. ystep; [apply reserve_vec_ok|]. intros rest _. ystep; [apply capture_ok|]. intros [chunks rest'] [Hch Hall].
  ystep; [apply sort_unique_ok|]. intros sorted [Hsort Hperm]. ystep. cbv beta in *.
  match goal with |- source_valid ?s ∧ _ => set (src := s) end.
  assert (Hv : source_valid src).
  { split; cbn; [done..|]. rewrite Hperm. eapply Forall_impl; [exact Hall|]. intros c [? ?]. split; [done|by apply captured_data]. }
  assert (Haddr : ∀ a, has_chunk src a = true ↔ a ∈ addresses) by (intros a; rewrite (has_chunk_some src a Hv); cbn; by rewrite Hperm, Hch).
  split; [done|]. do 3 (split; [done|]). split; [done| |by apply bool_decide_eq_true].
  intros a Ha. apply Haddr in Ha. unfold has_chunk in Ha. apply bool_decide_eq_true in Ha as [c [Hc <-]%(chunk_at_some src Hv)].
  assert (Hcap : captured c) by (cbn in Hc; rewrite Hperm in Hc; rewrite Forall_forall in Hall; by apply Hall).
  pose proof Hcap as (res&_&Hres&_). exists res. split; [done|]. intros y Hy.
  destruct (found_captured src c y Hv eq_refl Hc Hcap Hy) as (res'&Hres'&->). congruence.
Qed.
End canonical.
End building.
