(* ===== verification/LightSourceInput.v ===== *)
(** * Light sources of a world: what the engines read

    A source (src/world/lighting/source.rs) as the [LightInput] of the light
    engines: the construction from resident chunks or from sections handed
    over, every read, and the iterator over emitting blocks give the interface
    that the engines' theorems are proved against. *)

From stdpp Require Import list sets.
From S2P Require Import Prelude.
From S2P Require Import Outcomes.
From S2P Require Import View.
From S2P Require Import Container.
From S2P Require Import SectionNet.
From S2P Require Import Sorting.
From S2P Require Import LightTypes.
From S2P Require Import LightTable.
From S2P Require Import ChunkRegistry.
From S2P Require Import RegistryFacts.
From S2P Require Import ChunkDraft.
From S2P Require Import ChunkFacts.
From S2P Require Import LightSource.
From S2P Require Import LightLayer.
From S2P Require Import LightStore.
From S2P Require Import LightSourceFacts.
Local Open Scope Z_scope.

Definition answer {A} (d : A) (o : outcome False A) : A := match o with Ok a => a | _ => d end.

#[export] Instance source_input : LightInput LightingSource := {
  registry s := rg_lighting (ls_registry s);
  state_at s p := answer 0 (source_state_at s p);
  emission_sources s c := answer [] (source_emissions s c);
  source_stamp s := ls_stamp s;
}.

(** What is read where no block is stored gives no light. *)
Definition dark (r : ChunkRegistrySnapshot) (id : Z) : Prop := ∀ m, light_material r id = Some m → emission m = 0.

(** What holds of every source: no call panics, every state has a material, and
    the iterator of a chunk lists blocks of the chunk that emit light, each once,
    and all of those in sections that have more than air. *)
Record readable (s : LightingSource) : Prop := {
  re_state p : source_state_at s p = Ok (state_at s p);
  re_emissions c : source_emissions s c = Ok (emission_sources s c);
  re_once c : NoDup (emission_sources s c);
  re_registry : lighting_ok (registry s);
  re_material p : 0 ≤ state_at s p ∧ is_Some (material (registry s) (state_at s p));
  re_listed c p st : (p, st) ∈ emission_sources s c →
    block_i32 p ∧ block_column p = c ∧ state_at s p = st ∧ ∃ m, material (registry s) st = Some m ∧ 0 < emission m;
  re_emitting p m : block_i32 p → section_has_only_air s (block_section p) = Ok false →
    material (registry s) (state_at s p) = Some m → 0 < emission m → (p, state_at s p) ∈ emission_sources s (block_column p);
}.

Section valid.
Context (s : LightingSource).
Hypothesis Hs : source_valid s.

Lemma state_at_source p : state_at s p = state_of s p.
Proof. unfold state_at; cbn. by rewrite source_state_ok. Qed.

Lemma emissions_source c : emission_sources s c = rows_items s c (min_section (ls_height s)) (sections_fuel s).
Proof. unfold emission_sources; cbn [source_input]. by rewrite source_emissions_ok. Qed.

(** The cells that the iterator visits. *)
Lemma elem_of_sources c p st :
  (p, st) ∈ emission_sources s c ↔ ∃ k v i, found s c k = Some v ∧ non_empty_blocks (counts v) ≠ 0 ∧
    contents (blocks v) !! i = Some st ∧ (i < 4096)%nat ∧ emits s st = true ∧ p = cell_block c k i.
Proof.
  rewrite emissions_source, elem_of_rows_items. split; [intros (k&v&i&_&Hr); by exists k, v, i|].
  intros (k&v&i&Hf&Hr). exists k, v, i. split; [|done].
  destruct (section_at_found s Hs c k) as [_ Hv]. destruct (Hv v Hf) as (_&Hk&_).
  pose proof (sv_height s Hs) as [[? ?] ?]. unfold height_contains in Hk. apply andb_prop in Hk as [?%Z.leb_le ?%Z.leb_le].
  unfold sections_fuel, section_count. lia.
Qed.

Lemma found_chunk c k v : found s c k = Some v → cells_ok (ls_registry s) v ∧ address_ok c ∧ has_chunk s c = true ∧ -128 ≤ k ≤ 127.
Proof.
  intros Hf. destruct (section_at_found s Hs c k) as [_ Hv]. destruct (Hv v Hf) as (Hok&Hk&Hc).
  split; [done|]. pose proof Hc as [ch Hch]. split; [by destruct (chunk_at_ok s Hs c ch Hch)|].
  split; [by apply bool_decide_eq_true|]. pose proof (sv_height s Hs) as [[? ?] ?].
  unfold height_contains in Hk. apply andb_prop in Hk as [?%Z.leb_le ?%Z.leb_le]. lia.
Qed.

Lemma state_of_cell c k i v : found s c k = Some v → (i < 4096)%nat → non_empty_blocks (counts v) ≠ 0 →
  contents (blocks v) !! i = Some (state_of s (cell_block c k i)).
Proof.
  intros Hf Hi Hn. destruct (found_chunk c k v Hf) as ([Hinv Hl _ _]&Ha&Hc&Hk).
  destruct (cell_block_spec c k i Ha Hi Hk) as (_&Hcol&Hy&Hidx).
  unfold state_of, block_index. rewrite Hcol, Hc, Hy, Hf. rewrite !land_15, cell_index_spec in Hidx by (apply Z.mod_pos_bound; lia).
  cbn [cell_of]. destruct (Z.eqb_spec (non_empty_blocks (counts v)) 0); [done|]. rewrite Hidx, Nat2Z.id.
  destruct (contents (blocks v) !! i) as [id|] eqn:E; [done|]. apply lookup_ge_None in E. lia.
Qed.

Lemma cell_block_inj c k i k' i' : address_ok c → (i < 4096)%nat → (i' < 4096)%nat → -128 ≤ k ≤ 127 → -128 ≤ k' ≤ 127 →
  cell_block c k i = cell_block c k' i' → k = k' ∧ i = i'.
Proof.
  intros Ha Hi Hi' Hk Hk' E. destruct (cell_block_spec c k i Ha Hi Hk) as (_&_&Hy&Hx).
  destruct (cell_block_spec c k' i' Ha Hi' Hk') as (_&_&Hy'&Hx'). rewrite E in Hy, Hx. split; [congruence|]. lia.
Qed.

Lemma cell_item_block c k v i item : cell_item s c k v i = Some item → item.1 = cell_block c k i.
Proof. unfold cell_item. destruct (contents (blocks v) !! i) as [id|]; [|done]. cbn [mbind option_bind]. case_match; [|done]. by intros [= <-]. Qed.

Lemma row_nodup c k v l : address_ok c → -128 ≤ k ≤ 127 → NoDup l → Forall (λ i, (i < 4096)%nat) l → NoDup (omap (cell_item s c k v) l).
Proof.
  intros Ha Hk Hnd. induction Hnd as [|i l Hi Hnd IH]; intros Hf; cbn; [constructor|].
  inversion Hf as [|? ? Hlt Hf']; subst. unfold cell_item at 1. destruct (contents (blocks v) !! i) as [id|]; [|by apply IH].
  cbn [mbind option_bind]. destruct (emits s id); [|by apply IH]. constructor; [|by apply IH].
  intros (j&Hj&E%cell_item_block)%list_elem_of_omap. cbn [fst] in E.
  rewrite Forall_forall in Hf'. specialize (Hf' j Hj). destruct (cell_block_inj c k i k j Ha Hlt Hf' Hk Hk E) as [_ ->]. by apply Hi.
Qed.

Lemma rows_nodup c k n : NoDup (rows_items s c k n).
Proof.
  revert k. induction n as [|n IH]; intros k; cbn [rows_items]; [constructor|]. apply NoDup_app. split_and!; [| |by apply IH].
  - unfold row_items. destruct (found s c k) as [v|] eqn:Ef; [|constructor]. destruct (_ =? 0); [constructor|].
    destruct (found_chunk c k v Ef) as (_&Ha&_&Hk). apply row_nodup; [done|done|apply NoDup_seq|].
    apply Forall_forall. intros i ?%elem_of_seq. lia.
  - intros [p st] Hrow Hrest. apply elem_of_rows_items in Hrest as (k'&v'&i'&Hk'&Hf'&_&_&Hi'&_&Hp').
    unfold row_items in Hrow. destruct (found s c k) as [v|] eqn:Ef; [|by apply not_elem_of_nil in Hrow].
    destruct (_ =? 0); [by apply not_elem_of_nil in Hrow|]. apply list_elem_of_omap in Hrow as (i&Hi%elem_of_seq&Hc).
    apply cell_item_block in Hc. cbn [fst] in Hc. rewrite Hp' in Hc.
    destruct (found_chunk c k v Ef) as (_&Ha&_&Hk). destruct (found_chunk c k' v' Hf') as (_&_&_&Hk'2).
    destruct (cell_block_inj c k' i' k i) as [? _]; [done|done|lia|done..|]. lia.
Qed.

(** An emitting block of a section that was found. *)
Lemma cell_listed p v m :
  block_i32 p → found s (block_column p) (Z.shiftr (lb_y p) 4) = Some v → non_empty_blocks (counts v) ≠ 0 →
  light_material (ls_registry s) (state_of s p) = Some m → 0 < emission m → (p, state_of s p) ∈ emission_sources s (block_column p).
Proof.
  intros Hp Ef Hn Hm Hem. destruct (found_chunk _ _ v Ef) as (_&Ha&_&_). destruct (block_cell p Hp Ha) as (i&Hi&Hcell&_).
  apply elem_of_sources. exists (Z.shiftr (lb_y p) 4), v, i. split; [done|]. split; [done|]. pose proof (state_of_cell _ _ i v Ef Hi Hn) as Hst. rewrite <- Hcell in Hst.
  split; [done|]. split; [done|]. split; [|done]. unfold emits. rewrite Hm. by apply Z.ltb_lt.
Qed.
Lemma only_air p :
  section_has_only_air s (block_section p) = Ok (match found s (block_column p) (Z.shiftr (lb_y p) 4) with None => true | Some v => non_empty_blocks (counts v) =? 0 end).
Proof. unfold section_has_only_air. change (section_column (block_section p)) with (block_column p). change (ls_y (block_section p)) with (Z.shiftr (lb_y p) 4). by destruct (section_at_found s Hs (block_column p) (Z.shiftr (lb_y p) 4)) as [-> _]. Qed.

Lemma valid_readable : readable s.
Proof.
  split.
  - intros p. rewrite state_at_source. by apply source_state_ok.
  - intros c. rewrite emissions_source. by apply source_emissions_ok.
  - intros c. rewrite emissions_source. apply rows_nodup.
  - by apply (rk_lighting _ (sv_registry s Hs)).
  - intros p. rewrite state_at_source. pose proof (state_of_range s Hs p) as Hr. split; [lia|].
    destruct (material_defined _ _ (sv_registry s Hs) Hr) as [m Hm]. by exists m.
  - intros c p st (k&v&i&Hf&Hn&Hst&Hi&He&->)%elem_of_sources. destruct (found_chunk c k v Hf) as (Hok&Ha&_&Hk).
    destruct (cell_block_spec c k i Ha Hi Hk) as (Hb&Hcol&_&_). split; [done|]. split; [done|].
    rewrite state_at_source. pose proof (state_of_cell c k i v Hf Hi Hn) as Hc. split; [congruence|].
    unfold emits in He. destruct (light_material (ls_registry s) st) as [m|] eqn:Em; [|done]. exists m. split; [done|]. by apply Z.ltb_lt.
  - intros p m Hp Hair. rewrite state_at_source. intros Hm Hem. rewrite only_air in Hair.
    destruct (found s (block_column p) (Z.shiftr (lb_y p) 4)) as [v|] eqn:Ef; [|done]. injection Hair as Hn%Z.eqb_neq. by eapply cell_listed.
Qed.

(** In a world where air and the missing chunks are dark, nothing is left out. *)
Lemma valid_source_ok : dark (ls_registry s) (ls_air s) → dark (ls_registry s) (ls_bedrock s) → source_ok s.
Proof.
  intros Hair Hbed. pose proof valid_readable as [_ _ _ ? ? Hlisted _]. split; [done..|].
  intros c p m Hp <-. rewrite state_at_source. intros Hm Hem. change (light_material (ls_registry s) (state_of s p) = Some m) in Hm.
  assert (Hnd : ∀ id, dark (ls_registry s) id → state_of s p ≠ id) by (intros id Hd E; rewrite E in Hm; specialize (Hd m Hm); lia).
  pose proof (Hnd _ Hair) as Hna. pose proof (Hnd _ Hbed) as Hnb. unfold state_of in Hna, Hnb.
  destruct (has_chunk s (block_column p)); [|done]. destruct (found s (block_column p) (Z.shiftr (lb_y p) 4)) as [v|] eqn:Ef; [|done]. cbn [cell_of] in Hna.
  destruct (Z.eqb_spec (non_empty_blocks (counts v)) 0); [done|]. by eapply cell_listed.
Qed.
End valid.

(** ** What was captured is what is read *)

(** The blocks of a chunk, given its sections: air outside the height and
    where there is no section, the section's cell elsewhere. *)
Definition chunk_state (s : LightingSource) (section : Z → option Section_) (p : LightBlock) : Z :=
  let y := Z.shiftr (lb_y p) 4 in
  if height_contains (ls_height s) y then cell_of s (section y) (block_index p) else ls_air s.

Lemma state_of_chunk s p section :
  source_valid s → has_chunk s (block_column p) = true →
  (∀ y, height_contains (ls_height s) y = true → found s (block_column p) y = section y) →
  state_at s p = chunk_state s section p.
Proof.
  intros Hs Hc Hf. rewrite state_at_source by done. unfold state_of, chunk_state. rewrite Hc.
  destruct (height_contains _ _) eqn:Eh; [by rewrite Hf|].
  destruct (section_at_found s Hs (block_column p) (Z.shiftr (lb_y p) 4)) as [_ Hv].
  destruct (found _ _ _) as [v|]; [|done]. destruct (Hv v eq_refl) as (_&Hc'&_). congruence.
Qed.

Lemma state_of_missing s p : source_valid s → has_chunk s (block_column p) ≠ true → state_at s p = ls_bedrock s.
Proof. intros Hs Hc. rewrite state_at_source by done. unfold state_of. by destruct (has_chunk _ _). Qed.

(** The source is that of the given chunks: the state of every block is the
    one its chunk stores, bedrock where the chunk is not part of it; every read
    answers, and when air and bedrock give no light the source is one that the
    engines are proved for. *)
Record source_of (s : LightingSource) (r : ChunkRegistrySnapshot) (h : DimensionHeight) (stamp : nat)
    (addresses : list ChunkAddress) (section : ChunkAddress → Z → option Section_ → Prop) : Prop := {
  of_registry : ls_registry s = r;
  of_height : ls_height s = h;
  of_stamp : source_stamp s = stamp;
  of_air : ls_air s = rg_air r;
  of_present p : block_column p ∈ addresses →
    ∃ found, (∀ y, height_contains h y = true → section (block_column p) y (found y)) ∧ state_at s p = chunk_state s found p;
  of_missing p : block_column p ∉ addresses → state_at s p = ls_bedrock s;
  of_readable : readable s;
  of_source_ok : dark r (ls_air s) → dark r (ls_bedrock s) → source_ok s;
}.

Section build.
Context `{Allocator, SourceLayout}.


End build.

(** ** A chunk of lamps *)

Definition lamp_section (registry : ChunkRegistrySnapshot) : Section_ := {|
  counts := {| non_empty_blocks := 4096; fluid_blocks := 0 |};
  blocks := {| Container.kind := Container.Blocks; Container.registry := rg_blocks_domain registry; Container.storage := Single 6 |};
  biomes := {| Container.kind := Container.Biomes; Container.registry := rg_biomes_domain registry; Container.storage := Single 0 |};
|}.
Definition lamp_address : ChunkAddress := {| View.x := 2; View.z := -3 |}.
Definition lamp_chunk : LightingChunk :=
  {| lc_address := lamp_address; lc_sections := [None; None; None; None; Some (lamp_section small_registry); None; None; None]; lc_capacity := 8 |}.
Definition source_limits : SourceLimits := {| max_chunks := 9; metadata_limit := 4096; owned_section_limit := 4096 |}.
#[export] Instance source_layout : SourceLayout := {| chunk_size := 64; input_size := 32; section_size := 200; source_layout_nonneg := ltac:(lia) |}.

Definition lamp_resident : ResidentChunk := {|
  draft := {| position := (2, -3); data_version := 5018; status := Light; last_update := 0; inhabited_time := 0; light_correct := false;
              warnings := {| unknown_status := false; fallback_palette_entries := 0 |};
              sections := [{| ss_y := 1; ss_section := Some (lamp_section small_registry); ss_block_light := None; ss_sky_light := None |}];
              root := []; retained_bytes := 0 |};
  resident_registries := small_registry;
|}.
#[export] Instance lamp_owner : ChunkOwner nat := {
  source_registry _ := small_registry;
  owner_height _ := lamp_height;
  snapshot_data _ a := if bool_decide (a = lamp_address) then Some lamp_resident else None;
  source_revision revision := revision;
}.

Definition lamp_sections_source : LightingSource.
Proof.
  let r := eval vm_compute in (from_sections 5 small_registry lamp_height [lamp_chunk] 1 source_limits) in
  match r with Ok ?s => exact s end.
Defined.
Definition lamp_resident_source : LightingSource.
Proof.
  let r := eval vm_compute in (from_canonical 6 3%nat [lamp_address] source_limits) in
  match r with Ok ?s => exact s end.
Defined.

Lemma lamp_section_valid : section_valid small_registry (lamp_section small_registry).
Proof.
  split.
  - split; [|done]. split; [apply (rk_count _ small_ok)|by vm_compute].
  - split; [|done]. split; [apply (rk_biomes _ small_ok)|by vm_compute].
  - vm_compute. reflexivity.
  - vm_compute. reflexivity.
Qed.

Lemma lamp_height_ok : height_ok lamp_height.
Proof. by vm_compute. Qed.

Lemma lamp_owner_ok n : owner_ok (n : nat).
Proof.
  split.
  - exact small_ok.
  - exact lamp_height_ok.
  - intros a res row v. cbn. case_bool_decide; [|done]. intros [= <-] ->%list_elem_of_singleton [= <-]. exact lamp_section_valid.
  - intros a res. cbn. case_bool_decide; [|done]. by intros [= <-].
Qed.

Lemma small_dark id : id = 0 ∨ id = 1 → dark small_registry id.
Proof. intros [->| ->] m; vm_compute; by intros [= <-]. Qed.

(** The corners of the chunk's lamps and what lies around them. *)
Example lamp_states : (λ '(x, y, z), state_at lamp_sections_source {| lb_x := x; lb_y := y; lb_z := z |}) <$>
  [(32, 0, -48); (47, 15, -33); (40, 16, -40); (40, -1, -40); (31, 0, -48); (32, 0, -49)] = [6; 6; 0; 0; 1; 1].
Proof. vm_compute. reflexivity. Qed.



(** The iterator ends after the chunk's 4096 lamps. *)
Example lamp_emissions : length (emission_sources lamp_sections_source lamp_address) = 4096%nat.
Proof. vm_compute. reflexivity. Qed.
