(* ===== verification/Edges.v ===== *)
(** * The highest row of a column

    The edge above the highest row of a column where a predicate holds: what
    heightmaps and sky-light sources keep for each column of a chunk. *)

From S2P Require Import Prelude.
Local Open Scope Z_scope.

(** [e] is the highest blocked edge of a column whose edge above row [y] is
    blocked when [b y], [lo] if none is. *)
Definition top_edge (b : Z → bool) (lo hi e : Z) : Prop :=
  (∃ y, lo ≤ y ≤ hi ∧ b y = true ∧ e = y + 1 ∧ ∀ y', y < y' ≤ hi → b y' = false) ∨ (e = lo ∧ ∀ y', lo ≤ y' ≤ hi → b y' = false).

Lemma top_edge_unique b lo hi e e' : top_edge b lo hi e → top_edge b lo hi e' → e = e'.
Proof.
  intros [(y&Hy&Hb&->&Hno)|[-> Hno]] [(y'&Hy'&Hb'&->&Hno')|[-> Hno']]; try done.
  - destruct (Z.lt_trichotomy y y') as [|[->|]]; [rewrite Hno in Hb' by lia|done|rewrite Hno' in Hb by lia]; done.
  - by rewrite Hno' in Hb by lia.
  - by rewrite Hno in Hb' by lia.
Qed.

Lemma top_edge_found b lo hi y : lo ≤ y ≤ hi → b y = true → (∀ y', y < y' ≤ hi → b y' = false) → top_edge b lo hi (y + 1).
Proof. intros. left. by exists y. Qed.

(** Above its edge a column is open. *)
Lemma top_edge_open b lo hi e y : top_edge b lo hi e → lo ≤ y ≤ hi → e ≤ y → b y = false.
Proof. intros [(y'&Hy'&Hb&->&Hno)|[-> Hno]] Hy He; apply Hno; lia. Qed.

Lemma top_edge_blocked b lo hi e : top_edge b lo hi e → lo < e → lo ≤ e - 1 ≤ hi ∧ b (e - 1) = true.
Proof. intros [(y'&Hy'&Hb&->&Hno)|[-> Hno]] Hy; [|lia]. by replace (y' + 1 - 1) with y' by lia. Qed.

Lemma top_edge_range b lo hi e : top_edge b lo hi e → lo ≤ hi + 1 → lo ≤ e ≤ hi + 1.
Proof. intros [(y'&Hy'&Hb&->&Hno)|[-> Hno]] ?; lia. Qed.

(** Only the rows above the edge and the edge itself matter. *)
Lemma top_edge_ext b b' lo hi e : top_edge b lo hi e → (∀ y, e - 1 ≤ y ≤ hi → lo ≤ y → b' y = b y) → top_edge b' lo hi e.
Proof.
  intros [(y&Hy&Hb&->&Hno)|[-> Hno]] Hext; [left; exists y|right]; split_and?; try done; try lia.
  - rewrite Hext; [done|lia..].
  - intros y' Hy'. rewrite Hext by lia. by apply Hno.
  - intros y' Hy'. rewrite Hext by lia. by apply Hno.
Qed.

(** From the edges below a row to those of the whole column. *)
Lemma top_edge_below b lo hi y e : lo ≤ y ≤ hi + 1 → top_edge b lo (y - 1) e → (∀ y', y ≤ y' ≤ hi → b y' = false) → top_edge b lo hi e.
Proof.
  intros Hy [(y0&Hy0&Hb&->&Hno)|[-> Hno]] Hup; [left; exists y0|right]; split_and?; try done; try lia.
  - intros y' Hy'. destruct (Z.lt_ge_cases y' y); [apply Hno|apply Hup]; lia.
  - intros y' Hy'. destruct (Z.lt_ge_cases y' y); [apply Hno|apply Hup]; lia.
Qed.
