(* ===== verification/SkySources.v ===== *)
(** * Sky-light sources of a chunk: definitions (src/world/lighting/sources.rs)

    For each of the 256 columns of a chunk the height below which the sky is
    blocked: computed from a snapshot of the world by one pass over the
    sections with the set of unresolved columns in four words, and kept up to
    date when a block changes. *)

From S2P Require Import Prelude.
From S2P Require Import View.
From S2P Require Import LightTypes.
From S2P Require Import LightTable.
From S2P Require Import ChunkRegistry.
From S2P Require Import ChunkDraft.
From S2P Require Import LightSource.
Local Open Scope Z_scope.

Definition NEGATIVE_INFINITY : Z := - 2 ^ 31.
Definition COLUMNS : nat := 256.

Inductive SourcesError :=
| SourcesMissingChunk | SourcesInvalidCoordinate | SourcesContextMismatch | InvalidMaterial (state : Z) | SourcesInvalidFace.

Record SkySources := { sky_chunk : ChunkAddress; sky_min_y : Z; sky_max_y : Z; sky_registry : list Z; edges : list Z }.
Definition with_edges (k : SkySources) (e : list Z) : SkySources :=
  {| sky_chunk := sky_chunk k; sky_min_y := sky_min_y k; sky_max_y := sky_max_y k; sky_registry := sky_registry k; edges := e |}.

(** The side of a material that looks at its neighbour. *)
Definition side_face (m : LightMaterial) (side : nat) : outcome SourcesError Z :=
  if empty_shape m then Ok EMPTY_FACE else unwrap (faces m !! side).

Definition blocked (r : ChunkRegistrySnapshot) (above below : Z) : outcome SourcesError bool :=
  bottom ← ok_or (light_material r below) (InvalidMaterial below);
  if negb (dampening bottom =? 0) then Ok true
  else
    top ← ok_or (light_material r above) (InvalidMaterial above);
    top_face ← side_face top 0;
    bottom_face ← side_face bottom 1;
    occludes ← lift (face_occludes (rg_lighting r) top_face bottom_face);
    ok_or occludes SourcesInvalidFace.

(** ** Initialisation *)

(** [u64::trailing_zeros], looked for in [n] bits from [bit]. *)
Fixpoint trailing_zeros (n : nat) (bit w : Z) : Z :=
  match n with
  | O => bit
  | S n => if Z.testbit w bit then bit else trailing_zeros n (bit + 1) w
  end.

Section initialize.
Context (s : LightingSource) (chunk : ChunkAddress).

(** [while columns != 0]: one word of unresolved columns at height [y]. *)
Fixpoint visit_columns (y : Z) (word_index : Z) (fuel : nat) (columns word : Z) (edges above : list Z)
    : outcome SourcesError (Z * list Z * list Z) :=
  if columns =? 0 then Ok (word, edges, above)
  else
    match fuel with
    | O => NoFuel
    | S fuel =>
        let bit := trailing_zeros 64 0 columns in
        let index := word_index * 64 + bit in
        let columns := Z.land columns (columns - 1) in
        found ← lift (state_in_chunk s chunk (Z.land index 15) y (Z.shiftr index 4));
        state ← ok_or found SourcesMissingChunk;
        a ← unwrap (above !! Z.to_nat index);
        b ← blocked (ls_registry s) a state;
        if (b : bool) then
          _ ← unwrap (edges !! Z.to_nat index);
          visit_columns y word_index fuel columns (Z.land word (u_not 64 (Z.shiftl 1 bit))) (<[Z.to_nat index := y + 1]> edges) above
        else visit_columns y word_index fuel columns word edges (<[Z.to_nat index := state]> above)
    end.

Fixpoint visit_words (y : Z) (word_index : Z) (words : list Z) (edges above : list Z) : outcome SourcesError (list Z * list Z * list Z) :=
  match words with
  | [] => Ok ([], edges, above)
  | word :: words =>
      '(word, edges, above) ← visit_columns y word_index 64 word word edges above;
      '(words, edges, above) ← visit_words y (word_index + 1) words edges above;
      Ok (word :: words, edges, above)
  end.

(** The [n] rows of a section from [y] down. *)
Fixpoint visit_rows (n : nat) (y : Z) (words edges above : list Z) : outcome SourcesError (list Z * list Z * list Z) :=
  match n with
  | O => Ok (words, edges, above)
  | S n =>
      '(words, edges, above) ← visit_words y 0 words edges above;
      visit_rows n (y - 1) words edges above
  end.

(** The [n] sections from [section_y] down. *)
Fixpoint visit_sections (n : nat) (section_y : Z) (words edges above : list Z) : outcome SourcesError (list Z) :=
  match n with
  | O => Ok edges
  | S n =>
      if forallb (λ word, word =? 0) words then Ok edges
      else
        air ← lift (section_has_only_air s {| ls_x := View.x chunk; ls_y := section_y; ls_z := View.z chunk |});
        if (air : bool) then visit_sections n (section_y - 1) words edges (replicate COLUMNS (rg_air (ls_registry s)))
        else
          '(words, edges, above) ← visit_rows 16 (section_y * 16 + 15) words edges above;
          visit_sections n (section_y - 1) words edges above
  end.

Definition initialize : outcome SourcesError SkySources :=
  if negb (has_chunk s chunk) then Err SourcesMissingChunk
  else
    let min_section := min_section (ls_height s) in
    let max_section := max_section (ls_height s) in
    let min_y := min_section * 16 in
    edges ← visit_sections (Z.to_nat (max_section - min_section + 1)) max_section (replicate 4 (2 ^ 64 - 1))
              (replicate COLUMNS (min_y - 1)) (replicate COLUMNS (rg_air (ls_registry s)));
    Ok {| sky_chunk := chunk; sky_min_y := min_y; sky_max_y := (max_section + 1) * 16 - 1;
          sky_registry := rg_manifest_sha256 (ls_registry s); edges := edges |}.
End initialize.

(** ** A changed block *)

Section update.
Context (k : SkySources) (s : LightingSource).

Definition sky_state (x y z : Z) : outcome SourcesError Z :=
  if negb ((sky_min_y k <=? y) && (y <=? sky_max_y k)) then Ok (rg_air (ls_registry s))
  else found ← lift (state_in_chunk s (sky_chunk k) x y z); ok_or found SourcesMissingChunk.

(** [while y >= self.min_y], a row per step of [fuel]. *)
Fixpoint scan_below (fuel : nat) (x y z state : Z) : outcome SourcesError Z :=
  if y <? sky_min_y k then Ok (sky_min_y k - 1)
  else
    match fuel with
    | O => NoFuel
    | S fuel =>
        lower ← sky_state x (y - 1) z;
        b ← blocked (ls_registry s) state lower;
        if (b : bool) then Ok y else scan_below fuel x (y - 1) z lower
    end.

(** The two edges of the changed block. *)
Fixpoint check_edges (candidates : list Z) (x z old above : Z) : outcome SourcesError (option Z) :=
  match candidates with
  | [] => Ok None
  | edge :: candidates =>
      below ← sky_state x (edge - 1) z;
      occluded ← blocked (ls_registry s) above below;
      if occluded && (old <? edge) then Ok (Some edge)
      else if negb occluded && (edge =? old) then
        value ← scan_below (Z.to_nat (edge - sky_min_y k)) x (edge - 1) z below; Ok (Some value)
      else check_edges candidates x z old below
  end.

Definition update (pos : LightBlock) : outcome SourcesError (bool * SkySources) :=
  if negb (min_section (ls_height s) * 16 =? sky_min_y k) || negb ((max_section (ls_height s) + 1) * 16 - 1 =? sky_max_y k) ||
     negb (bool_decide (rg_manifest_sha256 (ls_registry s) = sky_registry k)) then Err SourcesContextMismatch
  else if negb (lb_x pos / 16 =? View.x (sky_chunk k)) || negb (lb_z pos / 16 =? View.z (sky_chunk k)) ||
          negb ((sky_min_y k <=? lb_y pos) && (lb_y pos <=? sky_max_y k)) then Err SourcesInvalidCoordinate
  else if negb (has_chunk s (sky_chunk k)) then Err SourcesMissingChunk
  else
    let x := lb_x pos mod 16 in
    let z := lb_z pos mod 16 in
    let index := Z.to_nat (z * 16 + x) in
    old ← unwrap (edges k !! index);
    if lb_y pos + 1 <? old then Ok (false, k)
    else
      above ← sky_state x (lb_y pos + 1) z;
      replacement ← check_edges [lb_y pos + 1; lb_y pos] x z old above;
      match replacement with
      | Some value => Ok (true, with_edges k (<[index := value]> (edges k)))
      | None => Ok (false, k)
      end.
End update.

(** ** Reading *)

Definition public_edge (k : SkySources) (edge : Z) : Z := if edge =? sky_min_y k - 1 then NEGATIVE_INFINITY else edge.

Definition lowest_source_y (k : SkySources) (x z : Z) : outcome SourcesError Z :=
  if (16 <=? x) || (16 <=? z) then Err SourcesInvalidCoordinate
  else e ← unwrap (edges k !! Z.to_nat (z * 16 + x)); Ok (public_edge k e).

(** [*self.edges.iter().max().unwrap()] *)
Definition highest_lowest_source_y (k : SkySources) : outcome SourcesError Z :=
  match edges k with
  | [] => Panic
  | e :: es => Ok (public_edge k (foldr Z.max e es))
  end.
