(* ===== verification/SkySourcesFacts.v ===== *)
(** * Sky-light sources of a chunk: proofs

    What initialisation computes, and that the update after a block change
    gives the sources that initialisation gives on the changed world. *)

From S2P Require Import Prelude.
From S2P Require Import Outcomes.
From S2P Require Import View.
From S2P Require Import Container.
From S2P Require Import SectionNet.
From S2P Require Import LightTypes.
From S2P Require Import LightTable.
From S2P Require Import ChunkRegistry.
From S2P Require Import RegistryFacts.
From S2P Require Import ChunkDraft.
From S2P Require Import LightSource.
From S2P Require Import LightSourceFacts.
From S2P Require Import SkySources.
From S2P Require Import Edges.
Local Open Scope Z_scope.

(** ** The lowest set bit *)

Lemma pow2_split_bits a b k j : 0 ≤ k → 0 ≤ b < 2 ^ k → 0 ≤ j → Z.testbit (a * 2 ^ k + b) j = if j <? k then Z.testbit b j else Z.testbit a (j - k).
Proof.
  intros Hk Hb Hj. rewrite <- lor_shiftl, Z.lor_spec, shiftl_testbit by done. destruct (Z.ltb_spec j k).
  - by destruct (Z.leb_spec k j); [lia|].
  - destruct (Z.leb_spec k j); [|lia]. cbn [andb]. rewrite (testbit_high k b j Hb) by done. by rewrite orb_false_r.
Qed.

Lemma clear_lowest c t : 0 ≤ t → 0 ≤ c → Z.testbit c t = true → (∀ j, 0 ≤ j < t → Z.testbit c j = false) →
  ∀ j, 0 ≤ j → Z.testbit (Z.land c (c - 1)) j = Z.testbit c j && negb (j =? t).
Proof.
  intros Ht Hc Hbit Hlow j Hj.
  assert (c = c / 2 ^ (t + 1) * 2 ^ (t + 1) + 2 ^ t) as Hsplit.
  { apply Z.bits_inj'. intros i Hi. pose proof (Z.pow_lt_mono_r 2 t (t + 1) ltac:(lia) ltac:(lia) ltac:(lia)). pose proof (pow2_pos t Ht).
    rewrite pow2_split_bits by lia. destruct (Z.ltb_spec i (t + 1)); [|rewrite Z.div_pow2_bits by lia; f_equal; lia].
    rewrite pow2_testbit by lia. destruct (Z.eqb_spec t i) as [<-|]; [done|]. apply Hlow. lia. }
  set (q := c / 2 ^ (t + 1)) in *. pose proof (pow2_pos t Ht).
  assert (2 ^ (t + 1) = 2 * 2 ^ t) as E by (by rewrite Z.pow_add_r, Z.mul_comm by lia).
  assert (c - 1 = q * 2 ^ (t + 1) + (2 ^ t - 1)) as -> by lia.
  rewrite Z.land_spec. rewrite (pow2_split_bits q (2 ^ t - 1)) by lia. rewrite ones_testbit by lia.
  destruct (Z.ltb_spec j (t + 1)); [|destruct (Z.eqb_spec j t); [lia|]; rewrite andb_true_r].
  - destruct (Z.ltb_spec j t), (Z.eqb_spec j t); try lia; first [by rewrite Hlow by lia|by rewrite andb_false_r].
  - rewrite Hsplit at 1. rewrite pow2_split_bits by lia. destruct (Z.ltb_spec j (t + 1)); [lia|]. rewrite andb_diag.
    rewrite Hsplit at 1. rewrite pow2_split_bits by lia. by destruct (Z.ltb_spec j (t + 1)); [lia|].
Qed.

Lemma trailing_zeros_spec n bit w : 0 ≤ bit → (∃ j, bit ≤ j < bit + Z.of_nat n ∧ Z.testbit w j = true) →
  let t := trailing_zeros n bit w in bit ≤ t < bit + Z.of_nat n ∧ Z.testbit w t = true ∧ ∀ j, bit ≤ j < t → Z.testbit w j = false.
Proof.
  revert bit. induction n as [|n IH]; intros bit Hb (j&Hj&Hw); [lia|]. cbn [trailing_zeros].
  destruct (Z.testbit w bit) eqn:E; [split; [lia|]; split; [done|]; intros; lia|].
  assert (j ≠ bit) by congruence. destruct (IH (bit + 1)) as (?&?&Hl); [lia|by exists j; split; [lia|]|].
  split; [lia|]. split; [done|]. intros i Hi. destruct (decide (i = bit)) as [->|]; [done|]. apply Hl. lia.
Qed.

Lemma nonzero_bit w : in_u 64 w → w ≠ 0 → ∃ j, 0 ≤ j < 0 + Z.of_nat 64 ∧ Z.testbit w j = true.
Proof.
  intros Hw Hn. exists (Z.log2 w). assert (0 < w) by (unfold in_u in Hw; lia). split; [|by apply Z.bit_log2].
  split; [apply Z.log2_nonneg|]. apply Z.log2_lt_pow2; [lia|]. apply Hw.
Qed.

(** Clearing a bit of a word, as the loop does it in both words. *)
Lemma clear_bit w t : in_u 64 w → 0 ≤ t →
  let w' := Z.land w (u_not 64 (Z.shiftl 1 t)) in in_u 64 w' ∧ ∀ j, 0 ≤ j → Z.testbit w' j = Z.testbit w j && negb (j =? t).
Proof.
  intros Hw Ht w'. assert (Hbit : ∀ j, 0 ≤ j → Z.testbit w' j = Z.testbit w j && negb (j =? t)).
  { intros j Hj. unfold w'. rewrite Z.land_spec, u_not_testbit, shiftl_testbit by lia. destruct (Z.ltb_spec j 64); [|by rewrite (testbit_high 64 w j Hw) by lia].
    f_equal. destruct (Z.eqb_spec j t) as [->|]; [by rewrite Z.leb_refl, Z.sub_diag|]. destruct (Z.leb_spec t j); [|done].
    cbn [andb]. change 1 with (2 ^ 0) at 1. rewrite pow2_testbit by lia. by destruct (Z.eqb_spec 0 (j - t)); [lia|]. }
  split; [|done]. apply in_u_testbit; [lia|apply Z.land_nonneg; left; destruct Hw; lia|]. intros i Hi. by rewrite Hbit, (testbit_high 64 w i Hw Hi) by lia.
Qed.

Lemma next_columns c fuel : in_u 64 c → c ≠ 0 → (∀ j, 0 ≤ j < 64 - Z.of_nat (S fuel) → Z.testbit c j = false) →
  let t := trailing_zeros 64 0 c in let c' := Z.land c (c - 1) in
  0 ≤ t < 64 ∧ Z.testbit c t = true ∧ in_u 64 c' ∧ (∀ j, 0 ≤ j → Z.testbit c' j = Z.testbit c j && negb (j =? t)) ∧
  ∀ j, 0 ≤ j < 64 - Z.of_nat fuel → Z.testbit c' j = false.
Proof.
  intros Hc Hne Hlow t c'. destruct (trailing_zeros_spec 64 0 c ltac:(lia) (nonzero_bit c Hc Hne)) as (Ht&Hbit&Hz). fold t in Ht, Hbit, Hz.
  pose proof (clear_lowest c t ltac:(lia) ltac:(destruct Hc; lia) Hbit Hz) as Hclear. split; [lia|]. split; [done|]. split; [|split; [done|]].
  - apply in_u_testbit; [lia|apply Z.land_nonneg; left; destruct Hc; lia|]. intros i Hi. unfold c'. by rewrite Z.land_spec, (testbit_high 64 c i Hc Hi).
  - intros j Hj. unfold c'. rewrite Hclear by lia. destruct (Z.eqb_spec j t) as [->|]; [by rewrite andb_false_r|]. rewrite andb_true_r.
    destruct (Z.lt_ge_cases j t); [apply Hz; lia|]. apply Hlow. specialize (Hlow t). destruct (Z.lt_ge_cases t (64 - Z.of_nat (S fuel))); [rewrite Hlow in Hbit by lia; done|lia].
Qed.

Lemma sub_bits c c' w w' t : (∀ j, 0 ≤ j → Z.testbit c' j = Z.testbit c j && negb (j =? t)) → (∀ j, Z.testbit c j = true → Z.testbit w j = true) →
  (∀ j, 0 ≤ j → j ≠ t → Z.testbit w' j = Z.testbit w j) → ∀ j, Z.testbit c' j = true → Z.testbit w' j = true.
Proof.
  intros Hc Hsub Hw j Hj. destruct (Z.lt_ge_cases j 0); [by rewrite Z.testbit_neg_r in Hj|]. rewrite Hc in Hj by done.
  apply andb_prop in Hj as [? Hjt]. destruct (Z.eqb_spec j t); [done|]. rewrite Hw by done. by apply Hsub.
Qed.

Lemma word_index_of k t : 0 ≤ t < 64 → 0 ≤ k → Z.of_nat (Z.to_nat (k * 64 + t)) / 64 = k.
Proof. intros Ht Hk. rewrite Z2Nat.id by lia. symmetry. apply (Z.div_unique _ 64 k t); lia. Qed.

(** ** Blocked edges *)

Definition closed (r : ChunkRegistrySnapshot) (above below : Z) : bool := match blocked r above below with Ok b => b | _ => false end.

Lemma side_face_ok r m v i : registry_ok r → light_material r v = Some m → (i < 6)%nat →
  ∃ f, side_face m i = Ok f ∧ 0 ≤ f < face_count (rg_lighting r).
Proof.
  intros Hr Hm Hi. destruct (rk_lighting r Hr) as [[Hlo Hmat _] _]. rewrite Forall_lookup in Hmat.
  destruct (Hmat _ _ Hm) as [_ _ [Hl Hf] _]. unfold side_face. destruct (empty_shape m).
  - exists EMPTY_FACE. unfold EMPTY_FACE. split; [done|lia].
  - destruct (lookup_lt_ok (faces m) i) as [f Ef]; [lia|]. rewrite Ef. exists f. split; [done|]. rewrite Forall_lookup in Hf. by apply (Hf i).
Qed.

Lemma blocked_ok r above below : registry_ok r → 0 ≤ above < count r → 0 ≤ below < count r → blocked r above below = Ok (closed r above below).
Proof.
  intros Hr Ha Hb. enough (∃ b, blocked r above below = Ok b) as [b E] by (unfold closed; by rewrite E).
  destruct (material_defined r below Hr Hb) as [mb Hmb], (material_defined r above Hr Ha) as [ma Hma].
  unfold blocked. rewrite Hmb, Hma. mstep. destruct (negb _); [by eexists|]. mstep.
  destruct (side_face_ok r ma above 0 Hr Hma) as (f&->&Hf); [lia|]. mstep.
  destruct (side_face_ok r mb below 1 Hr Hmb) as (g&->&Hg); [lia|]. mstep.
  destruct (rk_lighting r Hr) as [Hl _]. destruct (face_occludes_total (rg_lighting r) f g Hl Hf Hg) as [b ->].
  unfold lift. mstep. by eexists.
Qed.

Section source.
Context (s : LightingSource) (a : ChunkAddress).
Hypothesis Hs : source_valid s.
Hypothesis Ha : has_chunk s a = true.
Let r := ls_registry s.
Let min_y := min_section (ls_height s) * 16.
Let max_y := (max_section (ls_height s) + 1) * 16 - 1.

Definition is_state (v : Z) : Prop := 0 ≤ v < count (ls_registry s).

(** The state at height [y] of column [i]; air outside the build height. *)
Definition cell_state (i : nat) (y : Z) : Z :=
  cell_of s (found s a (Z.shiftr y 4)) (Z.to_nat ((y mod 16 * 16 + Z.of_nat i / 16) * 16 + Z.of_nat i mod 16)).
Definition col_state (i : nat) (y : Z) : Z :=
  if (min_section (ls_height s) * 16 <=? y) && (y <=? (max_section (ls_height s) + 1) * 16 - 1) then cell_state i y else ls_air s.

Lemma air_state : is_state (ls_air s).
Proof. unfold is_state. rewrite (sv_air s Hs). apply air_in_range, Hs. Qed.

Lemma cell_state_range i y : is_state (cell_state i y).
Proof. apply cell_range; [done|]. intros sec Hsec. by destruct (proj2 (section_at_found s Hs a _) sec Hsec). Qed.

Lemma col_state_range i y : is_state (col_state i y).
Proof. unfold col_state. destruct (_ && _); [apply cell_state_range|apply air_state]. Qed.

Lemma read_column i y : (i < 256)%nat → state_in_chunk s a (Z.of_nat i mod 16) y (Z.of_nat i / 16) = Ok (Some (cell_state i y)).
Proof.
  intros Hi. rewrite state_in_chunk_ok; [by rewrite Ha|done|apply Z.mod_pos_bound; lia|].
  split; [apply Z.div_pos; lia|apply Z.div_lt_upper_bound; lia].
Qed.

(** ** Rows *)

Notation column := (bool * option Z * option Z)%type (only parsing).

(** One row for one column: unresolved, block above, edge. *)
Definition col_step (y : Z) (i : nat) (c : column) : column :=
  match c with
  | (true, Some b, e) =>
      if closed (ls_registry s) b (cell_state i y) then (false, Some b, Some (y + 1)) else (true, Some (cell_state i y), e)
  | _ => c
  end.

Record arrays_ok (edges above : list Z) : Prop := {
  ar_edges : length edges = 256%nat;
  ar_above : length above = 256%nat;
  ar_states : Forall is_state above;
}.

Lemma insert_states i v l : Forall is_state l → is_state v → Forall is_state (<[i := v]> l).
Proof. intros Hl Hv. by apply Forall_insert. Qed.

Lemma visit_columns_ok y k fuel columns word edges above :
  0 ≤ k < 4 → in_u 64 columns → in_u 64 word → arrays_ok edges above →
  (∀ j, 0 ≤ j < 64 - Z.of_nat fuel → Z.testbit columns j = false) →
  (∀ j, Z.testbit columns j = true → Z.testbit word j = true) →
  let col w es ab j := (Z.testbit w j, ab !! Z.to_nat (k * 64 + j), es !! Z.to_nat (k * 64 + j)) in
  ∃ word' edges' above', visit_columns s a y k fuel columns word edges above = Ok (word', edges', above') ∧ in_u 64 word' ∧ arrays_ok edges' above' ∧
    (∀ j, 0 ≤ j < 64 → col word' edges' above' j =
       if Z.testbit columns j then col_step y (Z.to_nat (k * 64 + j)) (col word edges above j) else col word edges above j) ∧
    ∀ i : nat, Z.of_nat i / 64 ≠ k → edges' !! i = edges !! i ∧ above' !! i = above !! i.
Proof.
  intros Hk. revert columns word edges above. induction fuel as [|fuel IH]; intros columns word edges above Hc Hw Har Hlow Hsub; cbv zeta; cbn [visit_columns].
  all: destruct (Z.eqb_spec columns 0) as [->|Hne];
    [exists word, edges, above; split; [done|]; split; [done|]; split; [done|]; split; [intros j _; by rewrite Z.bits_0|done]|].
  { destruct (nonzero_bit columns Hc Hne) as (j&Hj&Hb). rewrite Hlow in Hb by lia. done. }
  destruct (next_columns columns fuel Hc Hne Hlow) as (Ht&Hbit&Hc'&Hclear&Hlow').
  set (t := trailing_zeros 64 0 columns) in *. set (idx := k * 64 + t). assert (Hidx : 0 ≤ idx < 256) by lia.
  assert (Hout' : ∀ i : nat, Z.of_nat i / 64 ≠ k → Z.to_nat idx ≠ i) by (intros i Hi <-; apply Hi, word_index_of; lia).
  destruct Har as [Hle Hla Hst].
  rewrite land_15, shiftr_16. pose proof (read_column (Z.to_nat idx) y ltac:(lia)) as Hread. rewrite Z2Nat.id in Hread by lia. rewrite Hread.
  unfold lift. cbn [map_err]. mstep. destruct (lookup_lt_ok above (Z.to_nat idx)) as [b Eb]; [lia|]. rewrite Eb. mstep.
  rewrite (blocked_ok r b); [|apply Hs|by eapply (Forall_lookup_1 _ _ _ _ Hst)|apply cell_state_range]. mstep.
  destruct (closed r b (cell_state (Z.to_nat idx) y)) eqn:Ecl.
  - destruct (lookup_lt_ok edges (Z.to_nat idx)) as [e Ee]; [lia|]. rewrite Ee. mstep. destruct (clear_bit word t Hw ltac:(lia)) as [Hw1 Hwbit].
    assert (Har1 : arrays_ok (<[Z.to_nat idx := y + 1]> edges) above) by (split; [by rewrite length_insert|done..]).
    destruct (IH _ _ _ _ Hc' Hw1 Har1 Hlow') as (w'&es'&ab'&->&Hw'&Har'&Hcol&Hout).
    { apply (sub_bits columns _ word _ t); [done|done|]. intros j Hj Hjt. rewrite Hwbit by done. by destruct (Z.eqb_spec j t); [|rewrite andb_true_r]. }
    exists w', es', ab'. split; [done|]. split; [done|]. split; [done|]. split.
    + intros j Hj. rewrite Hcol, Hclear by lia. rewrite Hwbit by lia. destruct (Z.eqb_spec j t) as [->|Hjt].
      * rewrite !andb_false_r, Hbit, (Hsub t Hbit). fold idx. rewrite Eb. cbn [col_step]. fold r. by rewrite Ecl, list_lookup_insert_eq by lia.
      * rewrite !andb_true_r. by rewrite list_lookup_insert_ne by lia.
    + intros i Hi. destruct (Hout i Hi) as [-> ->]. by rewrite list_lookup_insert_ne by auto.
  - assert (Har1 : arrays_ok edges (<[Z.to_nat idx := cell_state (Z.to_nat idx) y]> above)).
    { split; [done|by rewrite length_insert|apply insert_states; [done|apply cell_state_range]]. }
    destruct (IH _ _ _ _ Hc' Hw Har1 Hlow') as (w'&es'&ab'&->&Hw'&Har'&Hcol&Hout); [by apply (sub_bits columns _ word _ t)|].
    exists w', es', ab'. split; [done|]. split; [done|]. split; [done|]. split.
    + intros j Hj. rewrite Hcol, Hclear by lia. destruct (Z.eqb_spec j t) as [->|Hjt].
      * rewrite andb_false_r, Hbit, (Hsub t Hbit). fold idx. rewrite Eb. cbn [col_step]. fold r. by rewrite Ecl, list_lookup_insert_eq by lia.
      * rewrite andb_true_r. by rewrite list_lookup_insert_ne by lia.
    + intros i Hi. destruct (Hout i Hi) as [-> ->]. by rewrite list_lookup_insert_ne by auto.
Qed.

Lemma word_of (i : nat) : Z.of_nat i / 64 = Z.of_nat (i / 64).
Proof. by rewrite (Nat2Z.inj_div i 64). Qed.

(** Column [i] in the arrays, [k] words before the first of [words]. *)
Definition column_of (k : nat) (words edges above : list Z) (i : nat) : column :=
  (Z.testbit (nth (i / 64 - k) words 0) (Z.of_nat (i mod 64)), above !! i, edges !! i).

Lemma visit_words_ok y k words edges above :
  (k + length words = 4)%nat → Forall (in_u 64) words → arrays_ok edges above →
  ∃ words' edges' above', visit_words s a y (Z.of_nat k) words edges above = Ok (words', edges', above') ∧
    length words' = length words ∧ Forall (in_u 64) words' ∧ arrays_ok edges' above' ∧
    ∀ i, (i < 256)%nat → if (k <=? i / 64)%nat then column_of k words' edges' above' i = col_step y i (column_of k words edges above i)
                         else edges' !! i = edges !! i ∧ above' !! i = above !! i.
Proof.
  revert k edges above. induction words as [|w words IH]; intros k edges above Hk Hw Har; cbn [visit_words].
  { exists [], edges, above. split_and!; [done|done|done|done|]. intros i Hi. cbn [length] in Hk.
    destruct (Nat.leb_spec k (i / 64)); [|done]. assert (i / 64 < 4)%nat by (apply Nat.Div0.div_lt_upper_bound; lia). lia. }
  apply Forall_cons in Hw as [Hw Hws]. cbn [length] in Hk.
  destruct (visit_columns_ok y (Z.of_nat k) 64 w w edges above) as (w'&es1&ab1&->&Hw'&Har1&Hcol&Hout); [lia|done|done|done|lia|done|]. mstep.
  destruct (IH (S k) es1 ab1) as (ws'&es2&ab2&E&Hl&Hws'&Har2&Hrest); [lia|done|done|].
  replace (Z.of_nat (S k)) with (Z.of_nat k + 1) in E by lia. rewrite E. mstep. exists (w' :: ws'), es2, ab2.
  split; [done|]. split; [by cbn; lia|]. split; [by constructor|]. split; [done|]. intros i Hi. specialize (Hrest i Hi).
  destruct (Nat.leb_spec (S k) (i / 64)).
  - destruct (Nat.leb_spec k (i / 64)); [|lia]. destruct (Hout i) as [E1 E2]; [rewrite word_of; lia|].
    unfold column_of in *. replace (i / 64 - k)%nat with (S (i / 64 - S k)) by lia. cbn [nth]. rewrite Hrest, E1, E2. done.
  - destruct Hrest as [E1 E2]. destruct (Nat.leb_spec k (i / 64)).
    + assert (i / 64 = k)%nat as Ei by lia. pose proof (Nat.div_mod_eq i 64) as Hdm. pose proof (Nat.mod_upper_bound i 64 ltac:(lia)).
      specialize (Hcol (Z.of_nat (i mod 64)) ltac:(lia)). unfold column_of. rewrite Ei, Nat.sub_diag. cbn [nth].
      replace (Z.to_nat (Z.of_nat k * 64 + Z.of_nat (i mod 64))) with i in Hcol by lia. rewrite E1, E2, Hcol. cbn [col_step].
      by destruct (Z.testbit w _).
    + rewrite E1, E2. apply Hout. rewrite word_of. lia.
Qed.

(** ** Sections *)

(** The highest blocked edge of a column among the [n] rows from [y] down,
    where [seen] tells which rows are looked at; below all rows if there is none. *)
Fixpoint edge_below (seen : Z → bool) (i : nat) (n : nat) (y : Z) : Z :=
  match n with
  | O => min_section (ls_height s) * 16 - 1
  | S n => if seen y && closed (ls_registry s) (col_state i (y + 1)) (col_state i y) then y + 1 else edge_below seen i n (y - 1)
  end.

(** Sections with only air are passed over. *)
Definition looked_at (y : Z) : bool :=
  match found s a (Z.shiftr y 4) with None => false | Some v => negb (non_empty_blocks (counts v) =? 0) end.
Definition rows_count : nat := Z.to_nat (section_count (ls_height s) * 16).
Definition first_edge (i : nat) : Z := edge_below looked_at i rows_count max_y.

Record rows_inv (n : nat) (y : Z) (words edges above : list Z) : Prop := {
  ri_words : length words = 4%nat ∧ Forall (in_u 64) words;
  ri_arrays : arrays_ok edges above;
  ri_columns i : (i < 256)%nat →
    match column_of 0 words edges above i with
    | (true, b, e) => b = Some (col_state i (y + 1)) ∧ e = Some (min_y - 1) ∧ first_edge i = edge_below looked_at i n y
    | (false, _, e) => e = Some (first_edge i)
    end;
}.

Lemma visit_rows_ok n m y words edges above :
  rows_inv (n + m) y words edges above → min_y ≤ y - Z.of_nat n + 1 → y ≤ max_y →
  (∀ y', y - Z.of_nat n < y' ≤ y → looked_at y' = true) →
  ∃ words' edges' above', visit_rows s a n y words edges above = Ok (words', edges', above') ∧
    rows_inv m (y - Z.of_nat n) words' edges' above'.
Proof.
  revert y words edges above. induction n as [|n IH]; intros y words edges above [[Hl Hw] Har Hcols] Hlo Hhi Hlook; cbn [visit_rows].
  { exists words, edges, above. split; [done|]. replace (y - Z.of_nat 0) with y by lia. by split. }
  destruct (visit_words_ok y 0 words edges above) as (ws&es&ab&E&Hl'&Hw'&Har'&Hstep); [by rewrite Hl|done|done|].
  change (Z.of_nat 0) with 0 in E. rewrite E. mstep.
  destruct (IH (y - 1) ws es ab) as (ws2&es2&ab2&->&Hinv).
  - split; [by rewrite Hl', Hl|done|]. intros i Hi. specialize (Hcols i Hi). specialize (Hstep i Hi). cbn [Nat.leb] in Hstep. rewrite Hstep.
    destruct (column_of 0 words edges above i) as [[[|] b] e]; [|done]. destruct Hcols as (->&->&Hfull). cbn [col_step].
    assert (cell_state i y = col_state i y) as ->.
    { unfold col_state. fold min_y max_y. by destruct (Z.leb_spec min_y y), (Z.leb_spec y max_y); [|lia..]. }
    cbn [Nat.add edge_below] in Hfull. rewrite Hlook in Hfull by lia. cbn [andb] in Hfull.
    destruct (closed _ _ _); [by rewrite Hfull|]. split; [by replace (y - 1 + 1) with y by lia|]. done.
  - lia.
  - lia.
  - intros y' Hy'. apply Hlook. lia.
  - exists ws2, es2, ab2. split; [done|]. by replace (y - Z.of_nat (S n)) with (y - 1 - Z.of_nat n) by lia.
Qed.

Lemma no_words_left words edges above n y : rows_inv n y words edges above → forallb (λ w, w =? 0) words = true →
  length edges = 256%nat ∧ ∀ i, (i < 256)%nat → edges !! i = Some (first_edge i).
Proof.
  intros [_ Har Hcols] Hz. split; [apply Har|]. intros i Hi. specialize (Hcols i Hi). unfold column_of in Hcols.
  assert (nth (i / 64 - 0) words 0 = 0) as E.
  { rewrite forallb_forall in Hz. destruct (nth_in_or_default (i / 64 - 0) words 0) as [Hin|]; [|done]. apply Hz in Hin. by apply Z.eqb_eq. }
  by rewrite E, Z.bits_0 in Hcols.
Qed.

Lemma rows_done words edges above y : rows_inv 0 y words edges above → length edges = 256%nat ∧ ∀ i, (i < 256)%nat → edges !! i = Some (first_edge i).
Proof.
  intros [_ Har Hcols]. split; [apply Har|]. intros i Hi. specialize (Hcols i Hi). unfold column_of in Hcols.
  destruct (Z.testbit _ _); [|done]. by destruct Hcols as (_&->&->).
Qed.

Lemma section_air sec : section_has_only_air s {| ls_x := View.x a; ls_y := sec; ls_z := View.z a |} =
  Ok (match found s a sec with None => true | Some v => non_empty_blocks (counts v) =? 0 end).
Proof.
  unfold section_has_only_air, section_column. cbn [ls_x ls_y ls_z]. replace {| View.x := View.x a; View.z := View.z a |} with a by by destruct a.
  by destruct (section_at_found s Hs a sec) as [-> _].
Qed.

Lemma skip_rows i n m y : (∀ y', y - Z.of_nat n < y' ≤ y → looked_at y' = false) →
  edge_below looked_at i (n + m) y = edge_below looked_at i m (y - Z.of_nat n).
Proof.
  revert y. induction n as [|n IH]; intros y Hno; [by replace (y - Z.of_nat 0) with y by lia|].
  cbn [Nat.add edge_below]. rewrite Hno by lia. cbn [andb]. rewrite IH by (intros; apply Hno; lia). f_equal. lia.
Qed.

Lemma visit_sections_ok n sec words edges above :
  rows_inv (n * 16) (sec * 16 + 15) words edges above → sec - Z.of_nat n + 1 = min_section (ls_height s) → sec ≤ max_section (ls_height s) →
  ∃ edges', visit_sections s a n sec words edges above = Ok edges' ∧ length edges' = 256%nat ∧ ∀ i, (i < 256)%nat → edges' !! i = Some (first_edge i).
Proof.
  revert sec words edges above. induction n as [|n IH]; intros sec words edges above Hinv Hlo Hhi; cbn [visit_sections].
  { exists edges. split; [done|]. by eapply rows_done. }
  destruct (forallb _ words) eqn:Ez; [exists edges; split; [done|]; by eapply no_words_left|].
  rewrite section_air. unfold lift. cbn [map_err]. mstep.
  assert (Hrows : ∀ y', sec * 16 + 15 - Z.of_nat 16 < y' ≤ sec * 16 + 15 → Z.shiftr y' 4 = sec).
  { intros y' Hy'. rewrite shiftr_16. symmetry. apply (Z.div_unique _ 16 sec (y' - sec * 16)); lia. }
  destruct (match found s a sec with None => true | _ => _ end) eqn:Eair.
  - apply IH; [|lia..]. destruct Hinv as [Hw [Hle Hla Hst] Hcols]. split; [done| |].
    + split; [done|by rewrite length_replicate|]. apply Forall_replicate. change (rg_air (ls_registry s)) with (rg_air (ls_registry s)).
      rewrite <- (sv_air s Hs). apply air_state.
    + intros i Hi. specialize (Hcols i Hi). unfold column_of in *. destruct (Z.testbit _ _); [|done]. destruct Hcols as (_&->&Hfull).
      split; [|split; [done|]].
      * rewrite lookup_replicate_2 by (unfold COLUMNS; lia). f_equal. rewrite <- (sv_air s Hs). unfold col_state, cell_state.
        destruct (_ && _); [|done]. rewrite (Hrows (_ + 1)) by lia. unfold cell_of. destruct (found s a sec); [by rewrite Eair|done].
      * rewrite Hfull. change (S n * 16)%nat with (16 + n * 16)%nat. rewrite skip_rows; [f_equal; lia|]. intros y' Hy'. unfold looked_at. rewrite (Hrows y' Hy').
        destruct (found s a sec); [by rewrite Eair|done].
  - change (S n * 16)%nat with (16 + n * 16)%nat in Hinv. destruct (visit_rows_ok 16 (n * 16) _ _ _ _ Hinv) as (ws&es&ab&->&Hinv').
    + unfold min_y. lia.
    + unfold max_y. lia.
    + intros y' Hy'. unfold looked_at. rewrite (Hrows y' Hy'). destruct (found s a sec); [by rewrite Eair|done].
    + mstep. apply IH; [|lia..]. by replace ((sec - 1) * 16 + 15) with (sec * 16 + 15 - Z.of_nat 16) by lia.
Qed.

Definition sources_of (edges : list Z) : SkySources :=
  {| sky_chunk := a; sky_min_y := min_y; sky_max_y := max_y; sky_registry := rg_manifest_sha256 (ls_registry s); edges := edges |}.

Lemma initialize_ok : ∃ es, initialize s a = Ok (sources_of es) ∧ length es = 256%nat ∧ ∀ i, (i < 256)%nat → es !! i = Some (first_edge i).
Proof.
  pose proof (sv_height s Hs) as [[? ?] ?]. unfold initialize. rewrite Ha. cbn [negb].
  set (n := Z.to_nat (max_section (ls_height s) - min_section (ls_height s) + 1)).
  assert (Hn : (rows_count = n * 16)%nat) by (unfold rows_count, section_count, n; lia).
  destruct (visit_sections_ok n (max_section (ls_height s)) (replicate 4 (2 ^ 64 - 1)) (replicate COLUMNS (min_section (ls_height s) * 16 - 1))
    (replicate COLUMNS (rg_air (ls_registry s)))) as (es&->&Hl&Hes); [|lia..|].
  - split.
    + split; [done|]. apply Forall_replicate. by vm_compute.
    + split; [by rewrite length_replicate..|]. apply Forall_replicate. rewrite <- (sv_air s Hs). apply air_state.
    + intros i Hi. unfold column_of. assert (nth (i / 64 - 0) (replicate 4 (2 ^ 64 - 1)) 0 = 2 ^ 64 - 1) as ->.
      { rewrite nth_lookup, lookup_replicate_2; [done|]. rewrite Nat.sub_0_r. apply Nat.Div0.div_lt_upper_bound. lia. }
      pose proof (Nat.mod_upper_bound i 64 ltac:(lia)). rewrite ones_testbit by lia. destruct (Z.ltb_spec (Z.of_nat (i mod 64)) 64); [|lia].
      rewrite !lookup_replicate_2 by (unfold COLUMNS; lia). split; [|split; [done|]].
      * f_equal. rewrite <- (sv_air s Hs). unfold col_state. destruct (Z.leb_spec (max_section (ls_height s) * 16 + 15 + 1) ((max_section (ls_height s) + 1) * 16 - 1)); [lia|].
        by rewrite andb_false_r.
      * unfold first_edge. rewrite Hn. f_equal. unfold max_y. lia.
  - mstep. by exists es.
Qed.

Lemma initialize_edges k : initialize s a = Ok k → k = sources_of (edges k) ∧ ∀ i, (i < 256)%nat → edges k !! i = Some (first_edge i).
Proof. destruct initialize_ok as (es&->&_&Hes). by intros [= <-]. Qed.
End source.

(** ** Rows of a source *)

(** Where the sky is stopped between row [y + 1] and row [y] of a column. *)
Definition stops (s : LightingSource) (a : ChunkAddress) (i : nat) (y : Z) : bool :=
  closed (ls_registry s) (col_state s a i (y + 1)) (col_state s a i y).
Definition lowest_row (s : LightingSource) : Z := min_section (ls_height s) * 16 - 1.
Definition highest_row (s : LightingSource) : Z := (max_section (ls_height s) + 1) * 16 - 1.

(** No edge is lost in the rows that initialisation passes over. *)
Definition seamless (s : LightingSource) (a : ChunkAddress) : Prop :=
  ∀ i y, (i < 256)%nat → lowest_row s ≤ y ≤ highest_row s → looked_at s a y = false → stops s a i y = false.

Lemma edge_below_top s a seen i n y :
  y - Z.of_nat n = lowest_row s → seen (lowest_row s) = false →
  top_edge (λ y, seen y && stops s a i y) (lowest_row s) y (edge_below s a seen i n y).
Proof.
  intros Hn Hlo. revert y Hn. induction n as [|n IH]; intros y Hn; cbn [edge_below].
  { right. split; [done|]. intros y' Hy'. replace y' with (lowest_row s) by lia. by rewrite Hlo. }
  fold (stops s a i y). destruct (seen y && stops s a i y) eqn:E; [left; exists y; split_and!; [lia|lia|done|done|lia]|].
  apply (top_edge_below _ _ _ y); [lia|apply IH; lia|]. intros y' Hy'. replace y' with y by lia. done.
Qed.

Section rows.
Context (s : LightingSource) (a : ChunkAddress).
Hypothesis Hs : source_valid s.
Hypothesis Ha : has_chunk s a = true.

Lemma below_height y : y < min_section (ls_height s) * 16 → looked_at s a y = false.
Proof.
  intros Hy. unfold looked_at. destruct (section_at_found s Hs a (Z.shiftr y 4)) as [_ Hv].
  destruct (found _ _ _) as [v|]; [|done]. destruct (Hv v eq_refl) as (_&Hc&_). unfold height_contains in Hc.
  apply andb_prop in Hc as [Hc%Z.leb_le _]. rewrite shiftr_16 in Hc. pose proof (Z.mul_div_le y 16). lia.
Qed.

(** What initialisation computes. *)
Lemma first_edge_top i : top_edge (λ y, looked_at s a y && stops s a i y) (lowest_row s) (highest_row s) (first_edge s a i).
Proof.
  unfold first_edge. apply edge_below_top; [|apply below_height; unfold lowest_row; lia].
  pose proof (sv_height s Hs) as [[? ?] ?]. unfold rows_count, section_count, lowest_row. lia.
Qed.

Lemma first_edge_seamless i : (i < 256)%nat → seamless s a → top_edge (stops s a i) (lowest_row s) (highest_row s) (first_edge s a i).
Proof.
  intros Hi Hsm. eapply top_edge_ext; [apply first_edge_top|]. intros y Hy Hlo. cbv beta.
  destruct (looked_at s a y) eqn:El; [done|]. cbn [andb]. apply Hsm; [done|lia|done].
Qed.

Lemma stops_ok i y : blocked (ls_registry s) (col_state s a i (y + 1)) (col_state s a i y) = Ok (stops s a i y).
Proof. apply blocked_ok; [apply Hs|by apply col_state_range..]. Qed.

Lemma read_sky k i y : (i < 256)%nat → sky_chunk k = a → sky_min_y k = lowest_row s + 1 → sky_max_y k = highest_row s →
  sky_state k s (Z.of_nat i mod 16) y (Z.of_nat i / 16) = Ok (col_state s a i y).
Proof.
  intros Hi Hc Hmin Hmax. unfold sky_state, col_state. rewrite Hmin, Hmax. unfold lowest_row, highest_row. rewrite Z.sub_add.
  destruct (_ && _); cbn [negb]; [|by rewrite (sv_air s Hs)]. rewrite Hc, (read_column s a Hs Ha) by done. done.
Qed.

Lemma scan_below_ok k i fuel y :
  (i < 256)%nat → sky_chunk k = a → sky_min_y k = lowest_row s + 1 → sky_max_y k = highest_row s →
  lowest_row s ≤ y → (Z.to_nat (y - lowest_row s) ≤ fuel)%nat →
  ∃ e, scan_below k s fuel (Z.of_nat i mod 16) y (Z.of_nat i / 16) (col_state s a i y) = Ok e ∧ top_edge (stops s a i) (lowest_row s) (y - 1) e.
Proof.
  intros Hi Hc Hmin Hmax. revert y. induction fuel as [|fuel IH]; intros y Hlo Hf; cbn [scan_below]; rewrite Hmin.
  all: destruct (Z.ltb_spec y (lowest_row s + 1)); [exists (lowest_row s); split; [f_equal; lia|]; right; split; [done|lia]|]. 1: lia.
  rewrite read_sky by done. mstep. pose proof (stops_ok i (y - 1)) as Hst. rewrite Z.sub_add in Hst. rewrite Hst. mstep.
  destruct (stops s a i (y - 1)) eqn:Es; [exists y; split; [done|]; left; exists (y - 1); split_and!; [lia|lia|done|lia|lia]|].
  destruct (IH (y - 1)) as (e&->&He); [lia..|]. exists e. split; [done|]. apply (top_edge_below _ _ _ (y - 1)); [lia|done|].
  intros y' Hy'. by replace y' with (y - 1) by lia.
Qed.

(** The two edges of a changed block, when the edges above it are open and the
    edge was [old] before. *)
Lemma check_edges_ok k i py old b :
  (i < 256)%nat → sky_chunk k = a → sky_min_y k = lowest_row s + 1 → sky_max_y k = highest_row s →
  lowest_row s < py ≤ highest_row s → top_edge b (lowest_row s) (highest_row s) old → old ≤ py + 1 →
  (∀ y, y ≠ py → y ≠ py - 1 → stops s a i y = b y) →
  ∃ o, check_edges k s [py + 1; py] (Z.of_nat i mod 16) (Z.of_nat i / 16) old (col_state s a i (py + 1)) = Ok o ∧
    top_edge (stops s a i) (lowest_row s) (highest_row s) (default old o) ∧ (o = Some old → False).
Proof.
  intros Hi Hc Hmin Hmax Hpy Hold Hle Heq.
  assert (Hup : ∀ y, py < y ≤ highest_row s → stops s a i y = false) by (intros y Hy; rewrite Heq by lia; apply (top_edge_open b (lowest_row s) (highest_row s) old y Hold); lia).
  pose proof (top_edge_range _ _ _ _ Hold ltac:(lia)) as Hrange.
  cbn [check_edges]. replace (py + 1 - 1) with py by lia. rewrite !read_sky by done. mstep. rewrite stops_ok. mstep.
  pose proof (stops_ok i (py - 1)) as Hlow. rewrite Z.sub_add in Hlow.
  destruct (stops s a i py) eqn:E1; cbn [andb negb].
  - destruct (Z.ltb_spec old (py + 1)).
    { exists (Some (py + 1)). split; [done|]. split; [apply top_edge_found; [lia|done|done]|intros [= ?]; lia]. }
    assert (old = py + 1) as -> by lia. mstep. rewrite Hlow. mstep. destruct (Z.ltb_spec (py + 1) py); [lia|]. rewrite andb_false_r.
    destruct (Z.eqb_spec py (py + 1)); [lia|]. rewrite andb_false_r. exists None. split; [done|]. split; [apply top_edge_found; [lia|done|done]|done].
  - destruct (Z.eqb_spec (py + 1) old) as [<-|].
    { destruct (scan_below_ok k i (Z.to_nat (py + 1 - sky_min_y k)) py) as (e&->&He); [done..|lia|lia|]. mstep. exists (Some e). split; [done|].
      split; [apply (top_edge_below _ _ _ py); [lia|done|]|]. { intros y' Hy'. destruct (decide (y' = py)) as [->|]; [done|]. apply Hup. lia. }
      intros [= ->]. pose proof (top_edge_range _ _ _ _ He ltac:(lia)). lia. }
    mstep. rewrite Hlow. mstep. destruct (stops s a i (py - 1)) eqn:E2; cbn [andb negb].
    + destruct (Z.ltb_spec old py).
      { exists (Some py). split; [done|]. split; [|intros [= ?]; lia]. cbn [default]. replace py with (py - 1 + 1) by lia.
        apply top_edge_found; [lia|done|]. intros y' Hy'. destruct (decide (y' = py)) as [->|]; [done|apply Hup; lia]. }
      assert (old = py) as -> by lia. exists None. split; [done|]. split; [|done]. cbn [default]. replace py with (py - 1 + 1) by lia.
      apply top_edge_found; [lia|done|]. intros y' Hy'. destruct (decide (y' = py)) as [->|]; [done|apply Hup; lia].
    + destruct (Z.eqb_spec py old) as [<-|].
      { destruct (scan_below_ok k i (Z.to_nat (py - sky_min_y k)) (py - 1)) as (e&->&He); [done..|lia|lia|]. mstep. exists (Some e). split; [done|].
        split; [apply (top_edge_below _ _ _ (py - 1)); [lia|done|]|]. { intros y' Hy'. destruct (decide (y' = py - 1)) as [->|]; [done|]. destruct (decide (y' = py)) as [->|]; [done|apply Hup; lia]. }
        intros [= ->]. pose proof (top_edge_range _ _ _ _ He ltac:(lia)). lia. }
      exists None. split; [done|]. split; [|done]. cbn [default]. apply (top_edge_ext b); [done|]. intros y Hy Hlo.
      destruct (decide (y = py)) as [->|]; [rewrite E1; symmetry; by apply (top_edge_open b (lowest_row s) (highest_row s) old py Hold); lia|].
      destruct (decide (y = py - 1)) as [->|]; [|by apply Heq]. rewrite E2. symmetry. apply (top_edge_open b (lowest_row s) (highest_row s) old _ Hold); lia.
Qed.
End rows.
