(* ===== verification/SkySourcesUpdate.v ===== *)
(** * Sky-light sources of a chunk: properties

    Initialisation finds the first blocked edge of each column, and the update
    after a block change is the initialisation on the changed world. *)

From stdpp Require Import list sets.
From S2P Require Import Prelude.
From S2P Require Import View.
From S2P Require Import Container.
From S2P Require Import SectionNet.
From S2P Require Import LightTypes.
From S2P Require Import LightTable.
From S2P Require Import ChunkRegistry.
From S2P Require Import RegistryFacts.
From S2P Require Import ChunkDraft.
From S2P Require Import ChunkFacts.
From S2P Require Import LightSource.
From S2P Require Import LightSourceFacts.
From S2P Require Import LightSourceInput.
From S2P Require Import SkySources.
From S2P Require Import Edges.
From S2P Require Import SkySourcesFacts.
Local Open Scope Z_scope.

(** The block of column [i] at height [y]. *)
Definition column_block (a : ChunkAddress) (i : nat) (y : Z) : LightBlock :=
  {| lb_x := View.x a * 16 + Z.of_nat i mod 16; lb_y := y; lb_z := View.z a * 16 + Z.of_nat i / 16 |}.
Definition block_column_index (p : LightBlock) : nat := Z.to_nat (lb_z p mod 16 * 16 + lb_x p mod 16).

Lemma row_range (i : nat) : (i < 256)%nat → 0 ≤ Z.of_nat i mod 16 < 16 ∧ 0 ≤ Z.of_nat i / 16 < 16.
Proof. intros Hi. split; [apply Z.mod_pos_bound; lia|]. split; [apply Z.div_pos; lia|apply Z.div_lt_upper_bound; lia]. Qed.

Lemma mod16_add c m : 0 ≤ m < 16 → (c * 16 + m) mod 16 = m.
Proof. intros Hm. rewrite Z.add_comm, Z_mod_plus_full. by apply Z.mod_small. Qed.

Lemma column_block_column a i y : (i < 256)%nat → block_column (column_block a i y) = a.
Proof.
  intros [? ?]%row_range. unfold block_column, section_column, block_section, column_block. cbn [lb_x lb_z ls_x ls_z]. rewrite !shiftr_16.
  destruct a as [ax az]. cbn [View.x View.z]. f_equal; symmetry.
  - apply (Z.div_unique _ 16 ax (Z.of_nat i mod 16)); lia.
  - apply (Z.div_unique _ 16 az (Z.of_nat i / 16)); lia.
Qed.

Lemma column_block_index a i y : (i < 256)%nat → block_column_index (column_block a i y) = i.
Proof.
  intros Hi. destruct (row_range i Hi). unfold block_column_index, column_block. cbn [lb_x lb_z].
  rewrite !mod16_add by done. pose proof (Z.div_mod (Z.of_nat i) 16). lia.
Qed.

Lemma read_block s a i y : source_valid s → has_chunk s a = true → (i < 256)%nat →
  lowest_row s < y ≤ highest_row s → source_state_at s (column_block a i y) = Ok (col_state s a i y).
Proof.
  intros Hs Ha Hi Hy. rewrite source_state_ok by done. unfold state_of. rewrite column_block_column, Ha by done. unfold lowest_row, highest_row in Hy.
  unfold col_state. destruct (Z.leb_spec (min_section (ls_height s) * 16) y), (Z.leb_spec y ((max_section (ls_height s) + 1) * 16 - 1)); [|lia..].
  cbn [andb]. unfold cell_state. cbn [column_block lb_y]. do 2 f_equal. unfold block_index, column_block. cbn [lb_x lb_y lb_z].
  destruct (row_range i Hi). by rewrite !mod16_add by done.
Qed.

Lemma column_block_eq p : column_block (block_column p) (block_column_index p) (lb_y p) = p.
Proof.
  destruct p as [px py pz]. unfold column_block, block_column_index, block_column, section_column, block_section. cbn [lb_x lb_y lb_z ls_x ls_z View.x View.z].
  rewrite !shiftr_16. pose proof (Z.mod_pos_bound px 16 ltac:(lia)). pose proof (Z.mod_pos_bound pz 16 ltac:(lia)).
  rewrite Z2Nat.id by lia. f_equal; [rewrite mod16_add by lia; pose proof (Z.div_mod px 16); lia|].
  rewrite <- (Z.div_unique (pz mod 16 * 16 + px mod 16) 16 (pz mod 16) (px mod 16)) by lia. pose proof (Z.div_mod pz 16). lia.
Qed.

Lemma block_column_index_lt p : (block_column_index p < 256)%nat.
Proof. unfold block_column_index. pose proof (Z.mod_pos_bound (lb_x p) 16 ltac:(lia)). pose proof (Z.mod_pos_bound (lb_z p) 16 ltac:(lia)). lia. Qed.

(** ** Initialisation *)

(** The edge that the sky reaches in column [i]: the highest row of a section
    that has blocks where the sky is stopped, [lo] when it is nowhere. *)
Definition sky_edge (s : LightingSource) (a : ChunkAddress) (i : nat) (e : Z) : Prop :=
  top_edge (λ y, looked_at s a y && stops s a i y) (lowest_row s) (highest_row s) e.

(** C28. Initialisation on a valid source: it fails exactly for a chunk that the
    source does not have, never panics, and its bit loops end.  It gives for each of
    the 256 columns the highest edge where the sky is blocked between a block and the
    one above it (the lower block dampens light or the facing sides cover each other),
    among the sections that are not only air; [lowest_source_y] reads it, as
    [NEGATIVE_INFINITY] for a column that is open to the bottom, and
    [highest_lowest_source_y] is the highest of them. *)
Theorem sky_sources_initialize s a :
  source_valid s →
  match initialize s a with
  | Ok k => has_chunk s a = true ∧
      (∀ x z, 0 ≤ x < 16 → 0 ≤ z < 16 → ∃ e, sky_edge s a (Z.to_nat (z * 16 + x)) e ∧
         lowest_source_y k x z = Ok (if e =? lowest_row s then NEGATIVE_INFINITY else e)) ∧
      ∃ x z e, 0 ≤ x < 16 ∧ 0 ≤ z < 16 ∧ sky_edge s a (Z.to_nat (z * 16 + x)) e ∧
         highest_lowest_source_y k = Ok (if e =? lowest_row s then NEGATIVE_INFINITY else e) ∧
         ∀ i e', (i < 256)%nat → sky_edge s a i e' → e' ≤ e
  | Err e => e = SourcesMissingChunk ∧ has_chunk s a = false
  | Panic | NoFuel => False
  end.
Proof.
  intros Hs. destruct (has_chunk s a) eqn:Ha; [|unfold initialize; by rewrite Ha].
  destruct (initialize_ok s a Hs Ha) as (es&->&Hl&Hes). split; [done|]. split.
  - intros x z Hx Hz. exists (first_edge s a (Z.to_nat (z * 16 + x))). split; [by apply first_edge_top|].
    unfold lowest_source_y. destruct (Z.leb_spec 16 x), (Z.leb_spec 16 z); [lia..|]. cbn [orb sources_of edges]. rewrite Hes by lia. mstep. done.
  - unfold highest_lowest_source_y. cbn [sources_of edges]. destruct es as [|e0 es]; [done|].
    assert (Hmax : ∃ j, (j < 256)%nat ∧ (e0 :: es) !! j = Some (foldr Z.max e0 es) ∧ ∀ i e, (e0 :: es) !! i = Some e → e ≤ foldr Z.max e0 es).
    { rewrite <- Hl. clear. induction es as [|e es IH]; [exists 0%nat; split; [cbn; lia|]; split; [done|]; intros [|i] e; [by intros [= ->]|done]|].
      destruct IH as (j&Hj&Hjv&Hall). cbn [foldr length] in *. destruct (Z.max_spec e (foldr Z.max e0 es)) as [[? ->]|[? ->]].
      - destruct j as [|j]; [exists 0%nat|exists (S (S j))]; (split; [cbn [length] in *; lia|]; split; [done|]).
        all: intros [|[|i]] v; [apply (Hall 0%nat)|cbn; intros [= <-]; lia|apply (Hall (S i))].
      - exists 1%nat. split; [lia|]. split; [done|]. intros [|[|i]] v; [intros Hv; apply (Hall 0%nat) in Hv; lia|by intros [= ->]|].
        intros Hv. apply (Hall (S i)) in Hv. lia. }
    destruct Hmax as (j&Hj&Hjv&Hall). exists (Z.of_nat j mod 16), (Z.of_nat j / 16), (first_edge s a j).
    pose proof (Z.mod_pos_bound (Z.of_nat j) 16 ltac:(lia)). split; [done|]. split; [split; [apply Z.div_pos; lia|apply Z.div_lt_upper_bound; lia]|].
    replace (Z.to_nat (Z.of_nat j / 16 * 16 + Z.of_nat j mod 16)) with j by (pose proof (Z.div_mod (Z.of_nat j) 16); lia).
    split; [by apply first_edge_top|]. rewrite Hes in Hjv by done. injection Hjv as Hjv. rewrite Hjv. split; [done|].
    intros i e' Hi He'. rewrite (top_edge_unique _ _ _ _ _ He' (first_edge_top s a Hs i)). apply (Hall i). by apply Hes.
Qed.

(** ** A changed block *)

Section changed.
Context (s s' : LightingSource) (a : ChunkAddress) (pos : LightBlock).
Hypothesis Hs : source_valid s.
Hypothesis Hs' : source_valid s'.
Hypothesis Hreg : ls_registry s' = ls_registry s.
Hypothesis Hht : ls_height s' = ls_height s.
Hypothesis Ha : has_chunk s a = true.
Hypothesis Ha' : has_chunk s' a = true.
Hypothesis Hsm : seamless s a.
Hypothesis Hsm' : seamless s' a.
Hypothesis Hpos : block_column pos = a.
Hypothesis Hy : lowest_row s < lb_y pos ≤ highest_row s.
Hypothesis Heq : ∀ p, block_column p = a → p ≠ pos → source_state_at s' p = source_state_at s p.
Let i0 := block_column_index pos.

Lemma same_rows : lowest_row s' = lowest_row s ∧ highest_row s' = highest_row s.
Proof. unfold lowest_row, highest_row. by rewrite Hht. Qed.

Lemma same_column i y : (i < 256)%nat → i ≠ i0 ∨ y ≠ lb_y pos → col_state s' a i y = col_state s a i y.
Proof.
  intros Hi Hne. destruct same_rows as [Hlow Hhigh]. destruct (decide (lowest_row s < y ≤ highest_row s)) as [Hin|Hout].
  - assert (Ok (E := False) (col_state s' a i y) = Ok (col_state s a i y)) as [= ->]; [|done].
    rewrite <- !read_block by (done || by rewrite ?Hlow, ?Hhigh). apply Heq; [by apply column_block_column|]. intros <-.
    unfold i0 in Hne. rewrite column_block_index in Hne by done. by destruct Hne.
  - unfold col_state. rewrite Hht, (sv_air s Hs), (sv_air s' Hs'), Hreg. unfold lowest_row, highest_row in Hout.
    destruct (Z.leb_spec (min_section (ls_height s) * 16) y), (Z.leb_spec y ((max_section (ls_height s) + 1) * 16 - 1)); [lia|done..].
Qed.

Lemma same_stops i y : (i < 256)%nat → i ≠ i0 ∨ (y ≠ lb_y pos ∧ y ≠ lb_y pos - 1) → stops s' a i y = stops s a i y.
Proof. intros Hi Hne. unfold stops. rewrite Hreg, !same_column; [done|done|tauto|done|]. destruct Hne as [?|[? ?]]; [by left|right; lia]. Qed.

Lemma top_of_new i : (i < 256)%nat → top_edge (stops s' a i) (lowest_row s) (highest_row s) (first_edge s' a i).
Proof. intros Hi. destruct same_rows as [<- <-]. by apply first_edge_seamless. Qed.

Lemma same_first i : (i < 256)%nat → i ≠ i0 → first_edge s' a i = first_edge s a i.
Proof.
  intros Hi Hne. apply (top_edge_unique (stops s a i) (lowest_row s) (highest_row s)); [|by apply first_edge_seamless].
  eapply top_edge_ext; [by apply top_of_new|]. intros y _ _. symmetry. apply same_stops; [done|by left].
Qed.

Lemma changed_index : (i0 < 256)%nat ∧ lb_x pos mod 16 = Z.of_nat i0 mod 16 ∧ lb_z pos mod 16 = Z.of_nat i0 / 16.
Proof.
  split; [apply block_column_index_lt|]. unfold i0, block_column_index.
  pose proof (Z.mod_pos_bound (lb_x pos) 16 ltac:(lia)). pose proof (Z.mod_pos_bound (lb_z pos) 16 ltac:(lia)).
  rewrite Z2Nat.id by lia. split; [by rewrite mod16_add by lia|].
  apply (Z.div_unique _ 16 _ (lb_x pos mod 16)); lia.
Qed.

(** The call writes the new edge of its column. *)
Lemma update_column es : es !! i0 = Some (first_edge s a i0) →
  ∃ o, update (sources_of s a es) s' pos = Ok (match o with Some e => (true, sources_of s a (<[i0 := e]> es)) | None => (false, sources_of s a es) end) ∧
    top_edge (stops s' a i0) (lowest_row s) (highest_row s) (default (first_edge s a i0) o) ∧ (o = Some (first_edge s a i0) → False).
Proof.
  intros Hes. destruct changed_index as (Hi0&Hx&Hz). destruct same_rows as [Hlow Hhigh].
  pose proof (first_edge_seamless s a Hs i0 Hi0 Hsm) as Hold. set (old := first_edge s a i0) in *.
  unfold update. cbn [sources_of sky_chunk sky_min_y sky_max_y sky_registry edges]. rewrite Hreg, Hht, !Z.eqb_refl, bool_decide_eq_true_2 by done. cbn [negb orb].
  assert (lb_x pos / 16 = View.x a ∧ lb_z pos / 16 = View.z a) as [Ex Ez].
  { rewrite <- Hpos. unfold block_column, section_column, block_section. cbn [View.x View.z ls_x ls_z]. by rewrite !shiftr_16. }
  rewrite Ex, Ez, !Z.eqb_refl. cbn [negb orb]. pose proof Hy as Hy'. unfold lowest_row, highest_row in Hy'.
  destruct (Z.leb_spec (min_section (ls_height s) * 16) (lb_y pos)), (Z.leb_spec (lb_y pos) ((max_section (ls_height s) + 1) * 16 - 1)); [|lia..].
  cbn [andb negb]. rewrite Ha'. cbn [negb]. change (Z.to_nat (lb_z pos mod 16 * 16 + lb_x pos mod 16)) with i0. rewrite Hes. mstep.
  destruct (Z.ltb_spec (lb_y pos + 1) old) as [Hhi|Hle].
  { exists None. split; [done|]. split; [|done]. cbn [default]. apply (top_edge_ext (stops s a i0)); [exact Hold|]. intros y ? _. apply same_stops; [done|right; lia]. }
  rewrite Hx, Hz. rewrite (read_sky s' a Hs' Ha'); [|done|done|cbn [sources_of sky_min_y]; rewrite Hlow; unfold lowest_row; lia|cbn [sources_of sky_max_y]; by rewrite Hhigh].
  mstep. destruct (check_edges_ok s' a Hs' Ha' (sources_of s a es) i0 (lb_y pos) old (stops s a i0)) as (o&E&Htop&Hne);
    rewrite ?Hlow, ?Hhigh; try done; [cbn [sources_of sky_min_y]; unfold lowest_row; lia| |].
  { intros y ? ?. apply same_stops; [done|by right]. }
  rewrite E. mstep. exists o. rewrite Hlow, Hhigh in Htop. split; [|done]. by destruct o.
Qed.
End changed.

(** C17. The update after a block change is exact where no edge is lost.  Take two
    worlds that differ in one block of the chunk and are both [seamless] there: no
    edge lies against a section with only air, which initialisation passes over
    ([seam_is_lost] shows that the two can differ otherwise).  Then [update], at the
    changed block above the lowest row of the sources, from the sources initialised
    on the first world, returns the sources that initialisation gives on the
    second, with the flag that they changed. *)
Theorem sky_sources_update_exact s s' a pos :
  source_valid s → source_valid s' → ls_registry s' = ls_registry s → ls_height s' = ls_height s →
  has_chunk s a = true → has_chunk s' a = true → seamless s a → seamless s' a →
  block_column pos = a → lowest_row s < lb_y pos ≤ highest_row s →
  (∀ p, block_column p = a → p ≠ pos → source_state_at s' p = source_state_at s p) →
  ∃ k k' changed, initialize s a = Ok k ∧ initialize s' a = Ok k' ∧ update k s' pos = Ok (changed, k') ∧ (changed = false ↔ k' = k).
Proof.
  intros Hs Hs' Hreg Hht Ha Ha' Hsm Hsm' Hpos Hy Heq.
  destruct (initialize_ok s a Hs Ha) as (es&Hinit&Hl&Hes), (initialize_ok s' a Hs' Ha') as (es'&Hinit'&Hl'&Hes').
  destruct (changed_index pos) as [Hi0 _]. set (i0 := block_column_index pos) in *.
  destruct (update_column s s' a pos Hs Hs' Hreg Hht Ha Ha' Hsm Hpos Hy Heq es (Hes i0 Hi0)) as (o&Hup&Htop&Hne). fold i0 in Hup, Htop, Hne.
  assert (es' = <[i0 := default (first_edge s a i0) o]> es) as ->.
  { apply list_eq_same_length with 256%nat; [by rewrite ?length_insert..|]. intros i v w Hi Hv Hw.
    rewrite Hes' in Hv by done. injection Hv as <-. destruct (decide (i = i0)) as [->|Hii].
    - rewrite list_lookup_insert_eq in Hw by lia. injection Hw as <-. eapply top_edge_unique; [by apply (top_of_new s s' a)|done].
    - rewrite list_lookup_insert_ne, Hes in Hw by done. injection Hw as <-. by apply (same_first s s' a pos). }
  assert (Hsrc : ∀ e, sources_of s' a e = sources_of s a e) by (intros e; unfold sources_of; by rewrite Hreg, Hht).
  rewrite Hsrc in Hinit'. destruct o as [e|]; cbn [default] in *; unfold Datatypes.id in *.
  - do 3 eexists. split; [done|]. split; [done|]. split; [done|]. split; [done|]. intros E. exfalso. apply Hne. f_equal.
    assert (edges (sources_of s a (<[i0 := e]> es)) !! i0 = edges (sources_of s a es) !! i0) as El by (by rewrite E).
    cbn [sources_of edges] in El. rewrite list_lookup_insert_eq, Hes in El by lia. by injection El.
  - rewrite (list_insert_id es i0) in Hinit' by (by apply Hes). by do 3 eexists.
Qed.

(** ** A stone in the lamps *)

Definition dug_block : LightBlock := {| lb_x := 33; lb_y := 7; lb_z := -40 |}.
Definition dug_blocks : PalettedContainer.
Proof.
  let r := eval vm_compute in (Container.set (blocks (lamp_section small_registry)) 1921 1 65536) in
  match r with Ok (_, ?c) => exact c end.
Defined.
Definition dug_section : Section_ :=
  {| counts := {| non_empty_blocks := 4096; fluid_blocks := 0 |}; blocks := dug_blocks; biomes := biomes (lamp_section small_registry) |}.
Definition dug_chunk : LightingChunk :=
  {| lc_address := lamp_address; lc_sections := [None; None; None; None; Some dug_section; None; None; None]; lc_capacity := 8 |}.
Definition dug_source : LightingSource.
Proof.
  let r := eval vm_compute in (from_sections 6 small_registry lamp_height [dug_chunk] 1 source_limits) in
  match r with Ok ?s => exact s end.
Defined.

Lemma dug_updated : updated (blocks (lamp_section small_registry)) 1921 1 6 dug_blocks.
Proof.
  pose proof (set_fuel_spec (blocks (lamp_section small_registry)) 1921 1 65536 (proj1 (va_blocks _ _ lamp_section_valid)) ltac:(lia)) as Hset.
  assert (E : Container.set (blocks (lamp_section small_registry)) 1921 1 65536 = Ok (6, dug_blocks)) by (vm_compute; reflexivity).
  unfold Container.set in E. rewrite E in Hset. apply Hset.
Qed.

Lemma one_section_valid stamp v s :
  from_sections stamp small_registry lamp_height [{| lc_address := lamp_address; lc_sections := [None; None; None; None; Some v; None; None; None]; lc_capacity := 8 |}] 1 source_limits = Ok s →
  inv (blocks v) → source_valid s.
Proof.
  intros E Hv. refine (proj1 (Outcomes.yields_is_ok _ _ _ (from_sections_ok stamp small_registry lamp_height _ 1 source_limits small_ok lamp_height_ok _) E)).
  intros c w ->%list_elem_of_singleton Hin. cbn [lc_sections] in Hin. set_unfold. destruct_or!; simplify_eq. done.
Qed.

Lemma lamp_source_valid : source_valid lamp_sections_source.
Proof. apply (one_section_valid 5 (lamp_section small_registry)); [vm_compute; reflexivity|apply lamp_section_valid]. Qed.
Lemma dug_source_valid : source_valid dug_source.
Proof. apply (one_section_valid 6 dug_section); [vm_compute; reflexivity|apply dug_updated]. Qed.

(** The condition, on the states that the code reads. *)
Definition row_state (s : LightingSource) (a : ChunkAddress) (i : nat) (y : Z) : Z :=
  match sky_state (sources_of s a []) s (Z.of_nat i mod 16) y (Z.of_nat i / 16) with Ok v => v | _ => 0 end.
Definition seamless_b (s : LightingSource) (a : ChunkAddress) : bool :=
  forallb (λ y, if looked_at s a y then true else forallb (λ i, negb (closed (ls_registry s) (row_state s a i (y + 1)) (row_state s a i y))) (seq 0 256))
    (seqZ (lowest_row s) (highest_row s - lowest_row s + 1)).
Lemma row_state_ok s a i y : source_valid s → has_chunk s a = true → (i < 256)%nat → row_state s a i y = col_state s a i y.
Proof. intros Hs Ha Hi. unfold row_state. rewrite (read_sky s a Hs Ha) by (done || (cbn [sources_of sky_min_y]; unfold lowest_row; lia)). done. Qed.
Lemma seamless_check s a : source_valid s → has_chunk s a = true → seamless_b s a = true → seamless s a.
Proof.
  unfold seamless_b. rewrite forallb_forall. intros Hs Ha Hall i y Hi Hy Hl. specialize (Hall y).
  rewrite Hl in Hall. rewrite forallb_forall in Hall. unfold stops. rewrite <- !row_state_ok by done. apply negb_true_iff, Hall; [|apply in_seq; lia].
  apply list_elem_of_In, elem_of_seqZ. lia.
Qed.

Lemma dug_found y : y ≠ 0 → found dug_source lamp_address y = found lamp_sections_source lamp_address y.
Proof.
  intros Hy. unfold found, section_at. change (ls_height dug_source) with lamp_height. change (ls_height lamp_sections_source) with lamp_height.
  destruct (_ || _) eqn:E; [done|]. apply orb_false_elim in E as [_ Hc%negb_false_iff].
  assert (y = -4 ∨ y = -3 ∨ y = -2 ∨ y = -1 ∨ y = 1 ∨ y = 2 ∨ y = 3) as Hcase.
  { unfold height_contains, lamp_height in Hc. cbn [min_section max_section] in Hc. apply andb_prop in Hc as [?%Z.leb_le ?%Z.leb_le]. lia. }
  destruct_or!; subst y; vm_compute; reflexivity.
Qed.

Lemma dug_states p : block_column p = lamp_address → p ≠ dug_block → source_state_at dug_source p = source_state_at lamp_sections_source p.
Proof.
  intros Hc Hp. rewrite !source_state_ok by (apply dug_source_valid || apply lamp_source_valid). f_equal. unfold state_of. rewrite Hc.
  assert (has_chunk dug_source lamp_address = true ∧ has_chunk lamp_sections_source lamp_address = true) as [-> ->] by (by vm_compute).
  destruct (decide (Z.shiftr (lb_y p) 4 = 0)) as [Ey|]; [|by rewrite dug_found]. rewrite Ey.
  assert (found dug_source lamp_address 0 = Some dug_section ∧ found lamp_sections_source lamp_address 0 = Some (lamp_section small_registry)) as [-> ->] by (split; vm_compute; reflexivity).
  cbn [cell_of dug_section lamp_section counts non_empty_blocks blocks]. destruct dug_updated as (_&_&->&_).
  rewrite list_lookup_insert_ne; [done|]. intros Hidx. apply Hp. rewrite <- (column_block_eq p), Hc. rewrite shiftr_16 in Ey.
  unfold block_index in Hidx. unfold block_column_index.
  pose proof (Z.mod_pos_bound (lb_x p) 16 ltac:(lia)). pose proof (Z.mod_pos_bound (lb_z p) 16 ltac:(lia)). pose proof (Z.mod_pos_bound (lb_y p) 16 ltac:(lia)).
  pose proof (Z.div_mod (lb_y p) 16 ltac:(lia)). assert (lb_y p = 7 ∧ lb_z p mod 16 = 8 ∧ lb_x p mod 16 = 1) as (->&->&->) by lia. done.
Qed.

(** The stone's column: open before, its top edge after. *)
Example dug_column : (k ← initialize lamp_sections_source lamp_address; lowest_source_y k 1 8) = Ok NEGATIVE_INFINITY ∧
  (k ← initialize dug_source lamp_address; lowest_source_y k 1 8) = Ok 8 ∧ (k ← initialize dug_source lamp_address; highest_lowest_source_y k) = Ok 8.
Proof. split_and!; vm_compute; reflexivity. Qed.

Definition dug_sources : SkySources.
Proof. let r := eval vm_compute in (initialize dug_source lamp_address) in match r with Ok ?k => exact k end. Defined.
Lemma dug_initialized : initialize dug_source lamp_address = Ok dug_sources.
Proof. vm_compute. reflexivity. Qed.

Lemma sky_sources_initialize_witness : initialize dug_source lamp_address = Ok dug_sources ∧
  ∃ e, sky_edge dug_source lamp_address 129 e ∧ lowest_source_y dug_sources 1 8 = Ok (if e =? lowest_row dug_source then NEGATIVE_INFINITY else e).
Proof.
  split; [exact dug_initialized|]. pose proof (sky_sources_initialize dug_source lamp_address dug_source_valid) as Hw.
  rewrite dug_initialized in Hw. destruct Hw as (_&Hw&_). exact (Hw 1 8 ltac:(lia) ltac:(lia)).
Defined.

Lemma sky_sources_update_exact_witness : ∃ k k' changed, initialize lamp_sections_source lamp_address = Ok k ∧
  initialize dug_source lamp_address = Ok k' ∧ update k dug_source dug_block = Ok (changed, k') ∧ (changed = false ↔ k' = k).
Proof.
  apply (sky_sources_update_exact lamp_sections_source dug_source lamp_address dug_block).
  - exact lamp_source_valid.
  - exact dug_source_valid.
  - reflexivity.
  - reflexivity.
  - by vm_compute.
  - by vm_compute.
  - apply seamless_check; [exact lamp_source_valid|by vm_compute|]. vm_compute. reflexivity.
  - apply seamless_check; [exact dug_source_valid|by vm_compute|]. vm_compute. reflexivity.
  - reflexivity.
  - vm_compute. split; [done|discriminate].
  - exact dug_states.
Defined.

(** ** An edge that initialisation passes over

    A registry whose state 2 is a slab: clear, with a closed bottom. *)
Definition slab_lighting : list Z :=
  MAGIC ++ [8; 0; 0; 0; 2; 0; 0; 0] ++
  replicate 16 0 ++ ([0; 15; 1; 0] ++ concat (replicate 6 [1; 0])) ++
  ([0; 0; 3; 0] ++ [1; 0] ++ replicate 10 0) ++ concat (replicate 5 (replicate 16 0)) ++ [14].
Definition slab_registry : ChunkRegistrySnapshot.
Proof.
  let r := eval vm_compute in (load_tables small_limits small_blocks small_biomes small_entities (3, 8) slab_lighting [1] [2]) in
  match r with Ok ?s => exact s end.
Defined.
Definition slab_blocks (slab : bool) : PalettedContainer :=
  let c := {| Container.kind := Container.Blocks; Container.registry := rg_blocks_domain slab_registry; Container.storage := Single 3 |} in
  if slab then match Container.set c 0 2 65536 with Ok (_, c) => c | _ => c end else c.
(** A section of state 3 above a section of air, with the slab at its bottom or without. *)
Definition slab_chunk (slab : bool) : LightingChunk :=
  {| lc_address := lamp_address; lc_capacity := 8;
     lc_sections := [None; None; None; None;
       Some {| counts := {| non_empty_blocks := 4096; fluid_blocks := 0 |}; blocks := slab_blocks slab; biomes := biomes (lamp_section slab_registry) |};
       None; None; None] |}.
Definition slab_source (slab : bool) : outcome LightError LightingSource :=
  from_sections 7 slab_registry lamp_height [slab_chunk slab] 1 source_limits.

(** When the slab is placed, the update finds the blocked edge below it.
    Initialisation on the same world does not: the section under the slab has
    only air and is passed over, so the column counts as open to the bottom. *)
Lemma seam_is_lost :
  match slab_source false, slab_source true with
  | Ok s, Ok s' =>
      (k ← initialize s lamp_address; '(changed, k) ← update k s' {| lb_x := 32; lb_y := 0; lb_z := -48 |}; e ← lowest_source_y k 0 0; Ok (changed, e)) = Ok (true, 0) ∧
      (k ← initialize s' lamp_address; lowest_source_y k 0 0) = Ok NEGATIVE_INFINITY
  | _, _ => False
  end.
Proof. vm_compute. split; reflexivity. Qed.
