(* ===== verification/Heightmap.v ===== *)
(** * Heightmaps: definitions (src/world/heightmap.rs)

    The six column maps of a chunk, packed in words: priming from the sections,
    the update after a block change, restoring stored words, and the set of
    maps that a stored chunk needs, whose missing maps are primed together. *)

From Stdlib Require Import String.
From S2P Require Import Prelude.
From S2P Require Import View.
From S2P Require Import Container.
From S2P Require Import SectionNet.
From S2P Require Import Nbt.
From S2P Require Import ChunkRegistry.
From S2P Require Import ChunkDraft.
From S2P Require Import LightSource.
Local Open Scope Z_scope.

Definition COLUMNS : nat := 256.
Definition MAX_SECTIONS : nat := 256.

Inductive HeightmapKind := WorldSurfaceWg | WorldSurface | OceanFloorWg | OceanFloor | MotionBlocking | MotionBlockingNoLeaves.
Definition ALL : list HeightmapKind := [WorldSurfaceWg; WorldSurface; OceanFloorWg; OceanFloor; MotionBlocking; MotionBlockingNoLeaves].
Definition kind_id (k : HeightmapKind) : Z :=
  match k with WorldSurfaceWg => 0 | WorldSurface => 1 | OceanFloorWg => 2 | OceanFloor => 3 | MotionBlocking => 4 | MotionBlockingNoLeaves => 5 end.
Definition from_id (id : Z) : option HeightmapKind := ALL !! Z.to_nat id.
Definition send_to_client (k : HeightmapKind) : bool :=
  match k with WorldSurface | MotionBlocking | MotionBlockingNoLeaves => true | _ => false end.
Definition keep_after_worldgen (k : HeightmapKind) : bool :=
  negb (match k with WorldSurfaceWg | OceanFloorWg => true | _ => false end).
Definition serialization_key (k : HeightmapKind) : String.string :=
  match k with
  | WorldSurfaceWg => "WORLD_SURFACE_WG"%string | WorldSurface => "WORLD_SURFACE"%string | OceanFloorWg => "OCEAN_FLOOR_WG"%string
  | OceanFloor => "OCEAN_FLOOR"%string | MotionBlocking => "MOTION_BLOCKING"%string | MotionBlockingNoLeaves => "MOTION_BLOCKING_NO_LEAVES"%string
  end.
Definition kind_mask (k : HeightmapKind) : Z := u_wrap 8 (Z.shiftl 1 (kind_id k)).

Definition required_mask (status : ChunkStatus) : Z :=
  match status with Empty | StructureStarts | StructureReferences | Biomes => 5 | _ => 58 end.

Inductive HeightmapError :=
| HmAllocationLimit | HmAllocationFailed | MissingResident | SectionCount | InvalidSection | HmInvalidState (state : Z)
| HmInvalidColumn | InvalidY | HmContextMismatch.

Record Context := { hc_height : DimensionHeight; hc_registry : list Z; hc_configuration : list Z }.
#[export] Instance context_eq_dec : EqDecision Context.
Proof. intros [[a1 a2] b c] [[d1 d2] e f]. unfold Decision. decide equality; [apply list_eq_dec; apply Z.eq_dec..|decide equality; apply Z.eq_dec]. Defined.

(** ** Sources *)

Record HeightmapSource := {
  hs_sections : list (option Section_);
  hs_registries : ChunkRegistrySnapshot;
  hs_context : Context;
  hs_highest : Z;
}.

Definition source_empty (r : ChunkRegistrySnapshot) (h : DimensionHeight) : HeightmapSource := {|
  hs_sections := replicate MAX_SECTIONS None; hs_registries := r;
  hs_context := {| hc_height := h; hc_registry := rg_manifest_sha256 r; hc_configuration := rg_configuration_sha256 r |};
  hs_highest := min_section h |}.

(** [source.sections[index] = Some(section)] *)
Definition put_section (s : HeightmapSource) (index : nat) (v : Section_) (highest : Z) : outcome HeightmapError HeightmapSource :=
  _ ← unwrap (hs_sections s !! index);
  Ok {| hs_sections := <[index := Some v]> (hs_sections s); hs_registries := hs_registries s; hs_context := hs_context s; hs_highest := highest |}.

(** What a canonical source asks of [ChunkLoadingOwner]. *)
Class SectionOwner (O : Type) := {
  resident_at : O → ChunkAddress → option ResidentChunk;
  section_of_chunk : O → ChunkAddress → Z → option Section_;
  so_height : O → DimensionHeight;
}.

Fixpoint canonical_sections {O} `{SectionOwner O} (owner : O) (address : ChunkAddress) (index : nat) (ys : list Z) (s : HeightmapSource)
    : outcome HeightmapError HeightmapSource :=
  match ys with
  | [] => Ok s
  | y :: ys =>
      v ← ok_or (section_of_chunk owner address y) InvalidSection;
      s ← put_section s index v (if negb (non_empty_blocks (counts v) =? 0) then y else hs_highest s);
      canonical_sections owner address (S index) ys s
  end.
Definition source_from_canonical {O} `{SectionOwner O} (owner : O) (address : ChunkAddress) : outcome HeightmapError HeightmapSource :=
  resident ← ok_or (resident_at owner address) MissingResident;
  let h := so_height owner in
  canonical_sections owner address 0 (seqZ (min_section h) (section_count h)) (source_empty (resident_registries resident) h).

(** [n] blocks from [cell]: how many are not air. *)
Fixpoint count_cells (r : ChunkRegistrySnapshot) (c : PalettedContainer) (cell n : nat) (non_empty : Z) : outcome HeightmapError Z :=
  match n with
  | O => Ok non_empty
  | S n =>
      id ← map_err (λ _, InvalidSection) (get c cell);
      flags ← ok_or (state_flags r id) (HmInvalidState id);
      count_cells r c (S cell) n (non_empty + (if is_air flags then 0 else 1))
  end.
Fixpoint add_sections (h : DimensionHeight) (index : nat) (sections : list (option Section_)) (s : HeightmapSource)
    : outcome HeightmapError HeightmapSource :=
  match sections with
  | [] => Ok s
  | None :: sections => add_sections h (S index) sections s
  | Some v :: sections =>
      non_empty ← count_cells (hs_registries s) (blocks v) 0 4096 0;
      _ ← ensure (non_empty =? non_empty_blocks (counts v)) InvalidSection;
      s ← put_section s index v (if negb (non_empty =? 0) then min_section h + Z.of_nat index else hs_highest s);
      add_sections h (S index) sections s
  end.
Definition source_from_sections (r : ChunkRegistrySnapshot) (h : DimensionHeight) (sections : list (option Section_))
    : outcome HeightmapError HeightmapSource :=
  if negb (zlen sections =? section_count h) then Err SectionCount
  else add_sections h 0 sections (source_empty r h).

Definition hs_height (s : HeightmapSource) : DimensionHeight := hc_height (hs_context s).
Definition hs_min_y (s : HeightmapSource) : Z := min_section (hs_height s) * 16.
Definition hs_max_y (s : HeightmapSource) : Z := (max_section (hs_height s) + 1) * 16.

Definition hs_state (s : HeightmapSource) (x y z : Z) : outcome HeightmapError Z :=
  let index := y / 16 - min_section (hs_height s) in
  section ← unwrap (if 0 <=? index then hs_sections s !! Z.to_nat index else None);
  match section with
  | None => Ok (rg_air (hs_registries s))
  | Some v =>
      if non_empty_blocks (counts v) =? 0 then Ok (rg_air (hs_registries s))
      else match get (blocks v) (Z.to_nat (x + 16 * z + 256 * (y mod 16))) with Ok id => Ok id | _ => Panic end
  end.
Definition mask_of (s : HeightmapSource) (state : Z) : outcome HeightmapError Z := unwrap (heightmap_mask (hs_registries s) state).
Definition opaque (s : HeightmapSource) (k : HeightmapKind) (state : Z) : outcome HeightmapError bool :=
  m ← mask_of s state; Ok (negb (Z.land m (kind_mask k) =? 0)).

(** ** Maps *)

Record Heightmap := { hm_kind : HeightmapKind; hm_context : Context; hm_bits : nat; hm_words : list Z; hm_capacity : Z }.
Definition with_words (m : Heightmap) (ws : list Z) : Heightmap :=
  {| hm_kind := hm_kind m; hm_context := hm_context m; hm_bits := hm_bits m; hm_words := ws; hm_capacity := hm_capacity m |}.

Definition column (x z : Z) : outcome HeightmapError nat :=
  if (x <? 16) && (z <? 16) then Ok (Z.to_nat (x + 16 * z)) else Err HmInvalidColumn.
Definition height_bits (h : DimensionHeight) : nat := Z.to_nat (bit_len (section_count h * 16)).
Definition word_total (h : DimensionHeight) : Z := div_ceil (Z.of_nat COLUMNS) (64 / Z.of_nat (height_bits h)).

Section heightmap.
Context `{Allocator}.

Definition heightmap_new (k : HeightmapKind) (s : HeightmapSource) (allocation_limit : Z) : outcome HeightmapError Heightmap :=
  let count := word_total (hs_height s) in
  if allocation_limit <? count * 8 then Err HmAllocationLimit
  else
    capacity ← ok_or (reserve_exact 8 count) HmAllocationFailed;
    if allocation_limit <? capacity * 8 then Err HmAllocationLimit
    else Ok {| hm_kind := k; hm_context := hs_context s; hm_bits := height_bits (hs_height s);
               hm_words := replicate (Z.to_nat count) 0; hm_capacity := capacity |}.
Definition required_bytes (h : DimensionHeight) : Z := word_total h * 8.
Definition hm_heap_bytes (m : Heightmap) : Z := hm_capacity m * 8.

Definition map_position (m : Heightmap) (index : nat) : nat * Z :=
  let per_word := (64 / hm_bits m)%nat in ((index / per_word)%nat, Z.of_nat (index mod per_word * hm_bits m)).
Definition value_mask (m : Heightmap) : Z := Z.shiftl 1 (Z.of_nat (hm_bits m)) - 1.
Definition first_at (m : Heightmap) (index : nat) : outcome HeightmapError Z :=
  let '(word, shift) := map_position m index in
  w ← unwrap (hm_words m !! word);
  Ok (i_wrap 32 (Z.land (Z.shiftr w shift) (value_mask m)) + min_section (hc_height (hm_context m)) * 16).
Definition first_available (m : Heightmap) (x z : Z) : outcome HeightmapError Z := index ← column x z; first_at m index.
Definition highest_taken (m : Heightmap) (x z : Z) : outcome HeightmapError Z := v ← first_available m x z; Ok (v - 1).

Definition set_column (m : Heightmap) (index : nat) (first : Z) : outcome HeightmapError Heightmap :=
  let '(word, shift) := map_position m index in
  let relative := u_wrap 64 (first - min_section (hc_height (hm_context m)) * 16) in
  w ← unwrap (hm_words m !! word);
  Ok (with_words m (<[word := Z.lor (Z.land w (u_not 64 (u_wrap 64 (Z.shiftl (value_mask m) shift)))) (u_wrap 64 (Z.shiftl relative shift))]> (hm_words m))).

Definition check_context (m : Heightmap) (s : HeightmapSource) : outcome HeightmapError () :=
  ensure (bool_decide (hm_context m = hs_context s)) HmContextMismatch.

(** [n] rows of a column from [y] down. *)
Fixpoint prime_column (m : Heightmap) (s : HeightmapSource) (index n : nat) (y : Z) : outcome HeightmapError Heightmap :=
  match n with
  | O => Ok m
  | S n =>
      state ← hs_state s (Z.of_nat index mod 16) y (Z.of_nat index / 16);
      hit ← (if state =? rg_air (hs_registries s) then Ok false else opaque s (hm_kind m) state);
      if (hit : bool) then set_column m index (y + 1) else prime_column m s index n (y - 1)
  end.
Definition top_row (s : HeightmapSource) : Z := hs_highest s * 16 + 15.
Definition row_total (s : HeightmapSource) : nat := Z.to_nat (hs_highest s * 16 + 16 - hs_min_y s).
Fixpoint prime_columns (m : Heightmap) (s : HeightmapSource) (index n : nat) : outcome HeightmapError Heightmap :=
  match n with
  | O => Ok m
  | S n => m ← prime_column m s index (row_total s) (top_row s); prime_columns m s (S index) n
  end.
Definition prime (m : Heightmap) (s : HeightmapSource) : outcome HeightmapError Heightmap :=
  _ ← check_context m s; prime_columns m s 0 COLUMNS.

Inductive RestoreOutcome := Restored | Reprimed.
Definition restore (m : Heightmap) (raw : list Z) (s : HeightmapSource) : outcome HeightmapError (RestoreOutcome * Heightmap) :=
  _ ← check_context m s;
  if (length raw =? length (hm_words m))%nat then Ok (Restored, with_words m raw)
  else m ← prime m s; Ok (Reprimed, m).

(** [(min_y..y).rev().find(..)] over [n] rows from [y] down. *)
Fixpoint find_lower (s : HeightmapSource) (k : HeightmapKind) (x z : Z) (n : nat) (y : Z) : outcome HeightmapError (option Z) :=
  match n with
  | O => Ok None
  | S n =>
      state ← hs_state s x y z;
      hit ← opaque s k state;
      if (hit : bool) then Ok (Some y) else find_lower s k x z n (y - 1)
  end.

Definition update (m : Heightmap) (x y z state : Z) (s : HeightmapSource) : outcome HeightmapError (bool * Heightmap) :=
  _ ← check_context m s;
  index ← column x z;
  _ ← ensure ((hs_min_y s <=? y) && (y <? hs_max_y s)) InvalidY;
  _ ← ensure (bool_decide (is_Some (heightmap_mask (hs_registries s) state))) (HmInvalidState state);
  first ← first_available m x z;
  if y <=? first - 2 then Ok (false, m)
  else
    hit ← opaque s (hm_kind m) state;
    if (hit : bool) then
      if y <? first then Ok (false, m)
      else m ← set_column m index (y + 1); Ok (true, m)
    else if negb (y =? first - 1) then Ok (false, m)
    else
      lower ← find_lower s (hm_kind m) x z (Z.to_nat (y - hs_min_y s)) (y - 1);
      m ← set_column m index (match lower with Some l => l + 1 | None => hs_min_y s end);
      Ok (true, m).

(** ** The maps of a stored chunk *)

Inductive HeightmapOrigin := OriginRestored | OriginReprimed | MissingPrimed.
Record HeightmapSet := { maps : list (option Heightmap); origins : list (option HeightmapOrigin) }.

Definition stored_array (root : list CompoundEntry) (k : HeightmapKind) : option (list Z) :=
  match find_field root "Heightmaps" with
  | Some (Compound value) => match find_field value (serialization_key k) with Some (LongArray values) => Some values | _ => None end
  | _ => None
  end.
Definition selected_mask (root : list CompoundEntry) (status : ChunkStatus) : Z :=
  fold_left (λ selected k, match stored_array root k with Some _ => Z.lor selected (kind_mask k) | None => selected end) ALL (required_mask status).
Definition count_ones (z : Z) : Z := zlen (List.filter (λ i, Z.testbit z i) (seqZ 0 8)).

(** The maps of the selected kinds, and the mask of those to prime. *)
Fixpoint allocate_maps (s : HeightmapSource) (root : list CompoundEntry) (selected : Z) (kinds : list HeightmapKind) (remaining to_prime : Z)
    : outcome HeightmapError (list (option Heightmap) * list (option HeightmapOrigin) * Z) :=
  match kinds with
  | [] => Ok ([], [], to_prime)
  | k :: kinds =>
      if Z.land selected (kind_mask k) =? 0 then
        '(ms, os, to_prime) ← allocate_maps s root selected kinds remaining to_prime;
        Ok (None :: ms, None :: os, to_prime)
      else
        m ← heightmap_new k s remaining;
        remaining ← unwrap (checked_sub remaining (hm_heap_bytes m));
        let '(m, origin, to_prime) :=
          match stored_array root k with
          | Some raw =>
              if (length raw =? length (hm_words m))%nat then (with_words m (u_wrap 64 <$> raw), OriginRestored, to_prime)
              else (m, OriginReprimed, Z.lor to_prime (kind_mask k))
          | None => (m, MissingPrimed, Z.lor to_prime (kind_mask k))
          end in
        '(ms, os, to_prime) ← allocate_maps s root selected kinds remaining to_prime;
        Ok (Some m :: ms, Some origin :: os, to_prime)
  end.

(** [for kind in ALL]: the column of every map whose kind is in [found]. *)
Fixpoint set_found (kinds : list HeightmapKind) (found : Z) (index : nat) (first : Z) (ms : list (option Heightmap))
    : outcome HeightmapError (list (option Heightmap)) :=
  match kinds with
  | [] => Ok ms
  | k :: kinds =>
      ms ← (if Z.land found (kind_mask k) =? 0 then Ok ms
            else
              slot ← unwrap (ms !! Z.to_nat (kind_id k)); m ← unwrap slot;
              m ← set_column m index first; Ok (<[Z.to_nat (kind_id k) := Some m]> ms));
      set_found kinds found index first ms
  end.
Fixpoint prime_together (s : HeightmapSource) (index n : nat) (y unresolved : Z) (ms : list (option Heightmap))
    : outcome HeightmapError (list (option Heightmap)) :=
  match n with
  | O => Ok ms
  | S n =>
      state ← hs_state s (Z.of_nat index mod 16) y (Z.of_nat index / 16);
      if state =? rg_air (hs_registries s) then prime_together s index n (y - 1) unresolved ms
      else
        m ← mask_of s state;
        let found := Z.land m unresolved in
        ms ← set_found ALL found index (y + 1) ms;
        let unresolved := Z.land unresolved (u_not 8 found) in
        if unresolved =? 0 then Ok ms else prime_together s index n (y - 1) unresolved ms
  end.
Fixpoint prime_all (s : HeightmapSource) (to_prime : Z) (index n : nat) (ms : list (option Heightmap)) : outcome HeightmapError (list (option Heightmap)) :=
  match n with
  | O => Ok ms
  | S n =>
      if to_prime =? 0 then Ok ms
      else ms ← prime_together s index (row_total s) (top_row s) to_prime ms; prime_all s to_prime (S index) n ms
  end.

Definition from_stored (s : HeightmapSource) (root : list CompoundEntry) (status : ChunkStatus) (allocation_limit : Z)
    : outcome HeightmapError HeightmapSet :=
  let selected := selected_mask root status in
  if allocation_limit <? required_bytes (hs_height s) * count_ones selected then Err HmAllocationLimit
  else
    '(ms, os, to_prime) ← allocate_maps s root selected ALL allocation_limit 0;
    ms ← prime_all s to_prime 0 COLUMNS ms;
    Ok {| maps := ms; origins := os |}.
Definition set_from_canonical {O} `{SectionOwner O} (owner : O) (address : ChunkAddress) (allocation_limit : Z) : outcome HeightmapError HeightmapSet :=
  source ← source_from_canonical owner address;
  resident ← ok_or (resident_at owner address) MissingResident;
  from_stored source (root (draft resident)) (status (draft resident)) allocation_limit.

Definition get_map (h : HeightmapSet) (k : HeightmapKind) : option Heightmap := m ← maps h !! Z.to_nat (kind_id k); m.
Definition get_origin (h : HeightmapSet) (k : HeightmapKind) : option HeightmapOrigin := o ← origins h !! Z.to_nat (kind_id k); o.
Definition set_heap_bytes (h : HeightmapSet) : Z := foldr Z.add 0 (hm_heap_bytes <$> omap Datatypes.id (maps h)).
End heightmap.
