(* ===== verification/HeightmapFacts.v ===== *)
(** * Heightmaps: proofs

    A map stands for 256 relative heights; priming gives each column the edge
    above its highest matching block, and the update after a block change gives
    the map that priming gives on the changed world. *)

From S2P Require Import Prelude.
From S2P Require Import Outcomes.
From S2P Require Import Packed.
From S2P Require Import View.
From S2P Require Import Container.
From S2P Require Import SectionNet.
From S2P Require Import Nbt.
From S2P Require Import ChunkRegistry.
From S2P Require Import RegistryFacts.
From S2P Require Import ChunkDraft.
From S2P Require Import ChunkFacts.
From S2P Require Import LightSource.
From S2P Require Import LightSourceFacts.
From S2P Require Import Edges.
From S2P Require Import Heightmap.
Local Open Scope Z_scope.

(** ** Packed columns *)

Definition packed_map (m : Heightmap) : packed := Packed (hm_bits m) COLUMNS (hm_words m) (hm_capacity m).
(** Heights above the bottom, per column. *)
Definition heights (m : Heightmap) : list Z := values (packed_map m).
Definition map_height (m : Heightmap) : DimensionHeight := hc_height (hm_context m).
Definition map_floor (m : Heightmap) : Z := min_section (map_height m) * 16.

Record map_ok (m : Heightmap) : Prop := {
  mk_height : height_ok (map_height m);
  mk_bits : hm_bits m = height_bits (map_height m);
  mk_packed : wf (packed_map m);
}.

Lemma height_bits_range h : height_ok h → (5 ≤ height_bits h ≤ 13)%nat ∧ section_count h * 16 < 2 ^ Z.of_nat (height_bits h).
Proof.
  intros [[? ?] ?]. unfold height_bits, section_count.
  set (n := (max_section h - min_section h + 1) * 16). assert (16 ≤ n ≤ 4096) by (unfold n; lia).
  pose proof (bit_len_gt n 4 ltac:(lia) ltac:(lia)). pose proof (bit_len_le n 13 ltac:(lia) ltac:(lia)). pose proof (bit_len_spec n ltac:(lia)).
  rewrite Z2Nat.id by lia. split; [lia|done].
Qed.

Lemma height_dims h : height_ok h → dims_ok (height_bits h) COLUMNS.
Proof. intros Hh. destruct (height_bits_range h Hh). unfold dims_ok, COLUMNS, MAX_LEN. lia. Qed.

Lemma word_total_eq h : word_total h = div_ceil (Z.of_nat COLUMNS) (64 `div` Z.of_nat (height_bits h)).
Proof. done. Qed.

Lemma map_word m i : map_ok m → (i < COLUMNS)%nat →
  ∃ w, hm_words m !! fst (map_position m i) = Some w ∧ in_u 64 w ∧
    heights m !! i = Some (Packed.field (hm_bits m) w (snd (map_position m i))) ∧ 0 ≤ snd (map_position m i).
Proof.
  intros [Hh Hb Hwf] Hi. destruct (wf_word (packed_map m) i Hwf Hi) as (w&Hw&Hnth&Hu). exists w. split; [exact Hw|].
  pose proof (wf_dims _ Hwf) as [Hbits _]. pose proof (used_le _ (len (packed_map m)) (i / per_word (Packed.bits (packed_map m))) Hbits).
  split; [eapply in_u_mono; [|exact Hu]; lia|]. split; [|cbn; lia].
  unfold heights. rewrite values_lookup by done. rewrite Hnth. done.
Qed.

Lemma heights_range m i v : map_ok m → heights m !! i = Some v → in_u (Z.of_nat (hm_bits m)) v.
Proof. intros [_ _ Hwf] Hv. exact (values_range (packed_map m) i v Hwf Hv). Qed.

(** Reading and writing a column. *)
Lemma first_at_ok m i : map_ok m → (i < COLUMNS)%nat →
  ∃ v, heights m !! i = Some v ∧ first_at m i = Ok (v + map_floor m).
Proof.
  intros Hm Hi. destruct (map_word m i Hm Hi) as (w&Hw&_&Hv&_). exists (Packed.field (hm_bits m) w (snd (map_position m i))). split; [done|].
  unfold first_at. destruct (map_position m i) as [word shift]. cbn [fst snd] in *. rewrite Hw. mstep. do 2 f_equal.
  change (Z.land (Z.shiftr w shift) (value_mask m)) with (Packed.field (hm_bits m) w shift).
  apply i_wrap_id; [lia|]. destruct (heights_range m i _ Hm Hv) as [? Hlt]. split; [done|].
  destruct (height_bits_range (map_height m) (mk_height m Hm)). rewrite (mk_bits m Hm) in Hlt.
  pose proof (Z.pow_le_mono_r 2 (Z.of_nat (height_bits (map_height m))) 31). rewrite (mk_bits m Hm). lia.
Qed.

Lemma set_column_ok m i first : map_ok m → (i < COLUMNS)%nat → map_floor m ≤ first ≤ map_floor m + section_count (map_height m) * 16 →
  ∃ m', set_column m i first = Ok m' ∧ map_ok m' ∧ heights m' = <[i := first - map_floor m]> (heights m) ∧ m' = with_words m (hm_words m').
Proof.
  intros Hm Hi Hf. destruct (map_word m i Hm Hi) as (w&Hw&_&_&Hs). pose proof (height_bits_range (map_height m) (mk_height m Hm)) as [Hbr Hlt].
  assert (Hrel : in_u (Z.of_nat (hm_bits m)) (first - map_floor m)) by (rewrite (mk_bits m Hm); unfold in_u; lia).
  pose proof (set_words_spec (packed_map m) i (first - map_floor m) w (mk_packed m Hm) Hi Hrel Hw) as [Hwf Hval].
  unfold set_column. destruct (map_position m i) as [word shift] eqn:Epos. cbn [fst snd] in *. rewrite Hw. mstep.
  injection Epos as <- <-. eexists. split; [reflexivity|].
  assert (Hwrap : u_wrap 64 (first - min_section (hc_height (hm_context m)) * 16) = first - map_floor m).
  { apply u_wrap_id. eapply in_u_mono; [|exact Hrel]. rewrite (mk_bits m Hm). lia. }
  rewrite Hwrap. split; [|split; [exact Hval|done]]. split; [apply Hm|apply Hm|exact Hwf].
Qed.

(** The words are determined by the heights. *)
Lemma map_ext m m' : map_ok m → map_ok m' → m' = with_words m (hm_words m') → heights m' = heights m → m' = m.
Proof.
  intros Hm Hm' Heq Hh. assert (hm_words m' = hm_words m) as E.
  { assert (H64 : Forall (in_u 64) (hm_words m)).
    { apply Forall_lookup. intros k w Hk. pose proof (wf_words _ (mk_packed m Hm) k w Hk) as Hu. eapply in_u_mono; [|exact Hu].
      pose proof (wf_dims _ (mk_packed m Hm)) as [Hbits _]. by pose proof (used_le _ (len (packed_map m)) k Hbits). }
    destruct (packed_from_words_canonical (hm_bits m) COLUMNS (hm_words m) (hm_capacity m) H64) as (_&_&Hc). symmetry.
    pose proof (mk_packed m' Hm') as Hwf. unfold heights in Hh. rewrite Heq in Hwf, Hh.
    apply (Hc (hm_words m') (hm_capacity m)); [apply Hm|exact Hwf|symmetry; exact Hh]. }
  rewrite Heq, E. by destruct m.
Qed.

Lemma length_heights m : length (heights m) = COLUMNS.
Proof. apply (length_values (packed_map m)). Qed.

(** ** Sources *)

Record hsource_ok (s : HeightmapSource) : Prop := {
  hk_registry : registry_ok (hs_registries s);
  hk_height : height_ok (hs_height s);
  hk_length : length (hs_sections s) = MAX_SECTIONS;
  hk_cells i v : hs_sections s !! i = Some (Some v) → cells_ok (hs_registries s) v;
  hk_highest : min_section (hs_height s) ≤ hs_highest s ≤ max_section (hs_height s);
  hk_empty i v : hs_sections s !! i = Some (Some v) → non_empty_blocks (counts v) ≠ 0 → min_section (hs_height s) + Z.of_nat i ≤ hs_highest s;
}.

Section source.
Context (s : HeightmapSource).
Hypothesis Hs : hsource_ok s.

(** The state at height [y] of column [i]. *)
Definition state_value (s : HeightmapSource) (i : nat) (y : Z) : Z :=
  match hs_state s (Z.of_nat i mod 16) y (Z.of_nat i / 16) with Ok v => v | _ => 0 end.

Lemma state_value_ok i y : (i < COLUMNS)%nat → hs_min_y s ≤ y < hs_max_y s →
  hs_state s (Z.of_nat i mod 16) y (Z.of_nat i / 16) = Ok (state_value s i y) ∧ 0 ≤ state_value s i y < count (hs_registries s) ∧
  (top_row s < y → state_value s i y = rg_air (hs_registries s)).
Proof.
  intros Hi Hy. unfold COLUMNS in Hi. pose proof (hk_height s Hs) as [[? ?] ?]. unfold hs_min_y, hs_max_y in Hy.
  assert (Hair : 0 ≤ rg_air (hs_registries s) < count (hs_registries s)) by apply air_in_range, Hs.
  unfold state_value, hs_state. set (idx := y / 16 - min_section (hs_height s)).
  assert (min_section (hs_height s) ≤ y / 16 < max_section (hs_height s) + 1) by (split; [apply Z.div_le_lower_bound; lia|apply Z.div_lt_upper_bound; lia]).
  destruct (Z.leb_spec 0 idx); [|unfold idx in *; lia].
  destruct (lookup_lt_ok (hs_sections s) (Z.to_nat idx)) as [v Ev]; [rewrite (hk_length s Hs); unfold MAX_SECTIONS, idx; lia|]. rewrite Ev. mstep.
  destruct v as [v|]; [|done]. destruct (Z.eqb_spec (non_empty_blocks (counts v)) 0) as [|Hne]; [done|].
  destruct (hk_cells s Hs _ _ Ev) as [Hinv Hl Hst _]. rewrite (container_get_spec _ _ Hinv).
  pose proof (Z.mod_pos_bound y 16 ltac:(lia)). pose proof (Z.mod_pos_bound (Z.of_nat i) 16 ltac:(lia)).
  assert (0 ≤ Z.of_nat i / 16 < 16) by (split; [apply Z.div_pos; lia|apply Z.div_lt_upper_bound; lia]).
  destruct (lookup_lt_ok (contents (blocks v)) (Z.to_nat (Z.of_nat i mod 16 + 16 * (Z.of_nat i / 16) + 256 * (y mod 16)))) as [id Eid]; [lia|].
  rewrite Eid. split; [done|]. split; [rewrite Forall_lookup in Hst; by eapply Hst|]. intros Htop.
  pose proof (hk_empty s Hs _ _ Ev Hne). unfold top_row, idx in *. pose proof (Z.div_mod y 16). lia.
Qed.

Definition opaque_value (s : HeightmapSource) (k : HeightmapKind) (state : Z) : bool :=
  match opaque s k state with Ok b => b | _ => false end.

Lemma mask_ok state : 0 ≤ state < count (hs_registries s) → ∃ m, heightmap_mask (hs_registries s) state = Some m ∧ mask_of s state = Ok m.
Proof.
  intros Hst. destruct (rk_count _ (hk_registry s Hs)) as [_ Hl]. unfold mask_of, heightmap_mask.
  destruct (lookup_lt_ok (rg_state_flags (hs_registries s)) (Z.to_nat state)) as [f Hf]; [unfold zlen, count in *; lia|]. rewrite Hf.
  cbn [mbind option_bind]. eexists. by split.
Qed.

Lemma opaque_ok k state : 0 ≤ state < count (hs_registries s) → opaque s k state = Ok (opaque_value s k state).
Proof. intros Hst. unfold opaque_value. destruct (mask_ok state Hst) as (m&_&E). unfold opaque. by rewrite E. Qed.

(** A block that counts for the map. *)
Definition hit (s : HeightmapSource) (k : HeightmapKind) (i : nat) (y : Z) : bool :=
  negb (state_value s i y =? rg_air (hs_registries s)) && opaque_value s k (state_value s i y).

(** The height of a column, [missing] without a matching block. *)
Fixpoint column_top (s : HeightmapSource) (k : HeightmapKind) (i n : nat) (y : Z) : option Z :=
  match n with
  | O => None
  | S n => if hit s k i y then Some (y + 1) else column_top s k i n (y - 1)
  end.

Lemma prime_column_ok m i n y : map_ok m → map_height m = hs_height s → (i < COLUMNS)%nat →
  hs_min_y s ≤ y - Z.of_nat n + 1 → y < hs_max_y s →
  ∃ m', prime_column m s i n y = Ok m' ∧ map_ok m' ∧ m' = with_words m (hm_words m') ∧
    heights m' = match column_top s (hm_kind m) i n y with Some e => <[i := e - map_floor m]> (heights m) | None => heights m end.
Proof.
  intros Hm Hh Hi. revert y. induction n as [|n IH]; intros y Hlo Hhi; cbn [prime_column column_top].
  { exists m. split_and!; [done|done|by destruct m|done]. }
  destruct (state_value_ok i y Hi) as (->&Hr&_); [lia|]. mstep. unfold hit.
  destruct (Z.eqb_spec (state_value s i y) (rg_air (hs_registries s))); cbn [negb andb]; [mstep; apply IH; lia|].
  rewrite opaque_ok by done. mstep. destruct (opaque_value _ _ _); [|apply IH; lia].
  destruct (set_column_ok m i (y + 1)) as (m'&->&Hm'&Hv&He); [done|done| |by exists m'].
  unfold map_floor. rewrite Hh. unfold hs_min_y, hs_max_y, section_count in *. lia.
Qed.

Lemma prime_columns_ok m i n : map_ok m → map_height m = hs_height s → (i + n ≤ COLUMNS)%nat →
  ∃ m', prime_columns m s i n = Ok m' ∧ map_ok m' ∧ m' = with_words m (hm_words m') ∧
    ∀ j, heights m' !! j = if decide (i ≤ j < i + n)%nat then
        match column_top s (hm_kind m) j (row_total s) (top_row s) with Some e => Some (e - map_floor m) | None => heights m !! j end
      else heights m !! j.
Proof.
  intros Hm Hh. revert m i Hm Hh. induction n as [|n IH]; intros m i Hm Hh Hi; cbn [prime_columns].
  { exists m. split_and!; [done|done|by destruct m|]. intros j. by rewrite decide_False by lia. }
  pose proof (hk_height s Hs) as [[? ?] ?]. pose proof (hk_highest s Hs). unfold COLUMNS in *.
  destruct (prime_column_ok m i (row_total s) (top_row s) Hm Hh) as (m1&->&Hm1&He1&Hv1);
    [unfold COLUMNS; lia|unfold row_total, top_row, hs_min_y; lia|unfold top_row, hs_max_y; lia|]. mstep.
  assert (Hctx : hm_context m1 = hm_context m ∧ hm_kind m1 = hm_kind m) by (rewrite He1; by split). destruct Hctx as [Hctx Hkind].
  destruct (IH m1 (S i) Hm1) as (m2&->&Hm2&He2&Hv2); [unfold map_height; by rewrite Hctx|lia|].
  exists m2. split; [done|]. split; [done|]. split; [rewrite He2, He1; done|]. intros j. rewrite Hv2, Hkind. unfold map_floor, map_height. rewrite Hctx, Hv1.
  destruct (decide (i ≤ j < i + S n)%nat), (decide (S i ≤ j < S i + n)%nat); try lia.
  - destruct (column_top s (hm_kind m) i _ _); [|done]. by rewrite list_lookup_insert_ne by lia.
  - assert (j = i) as -> by lia. destruct (column_top s (hm_kind m) i _ _); [|done]. rewrite list_lookup_insert_eq; [done|]. rewrite length_heights. unfold COLUMNS. lia.
  - destruct (column_top s (hm_kind m) i _ _); [|done]. by rewrite list_lookup_insert_ne by lia.
Qed.
End source.

(** ** Primed maps *)

Lemma column_top_edge s k i n y : y - Z.of_nat n + 1 = hs_min_y s → top_edge (hit s k i) (hs_min_y s) y (default (hs_min_y s) (column_top s k i n y)).
Proof.
  revert y. induction n as [|n IH]; intros y Hn; cbn [column_top]; [right; split; [done|lia]|].
  destruct (hit s k i y) eqn:E; [apply top_edge_found; [lia|done|lia]|].
  apply (top_edge_below _ _ _ y); [lia|apply IH; lia|]. intros y' Hy'. by replace y' with y by lia.
Qed.

(** The height of a column of the map of kind [k]. *)
Definition column_edge (s : HeightmapSource) (k : HeightmapKind) (i : nat) (e : Z) : Prop :=
  top_edge (hit s k i) (hs_min_y s) (hs_max_y s - 1) e.

Lemma column_edge_top s k i : hsource_ok s → (i < COLUMNS)%nat → column_edge s k i (default (hs_min_y s) (column_top s k i (row_total s) (top_row s))).
Proof.
  intros Hs Hi. pose proof (hk_highest s Hs). pose proof (hk_height s Hs) as [[? ?] ?].
  apply (top_edge_below _ _ _ (top_row s + 1)).
  - unfold top_row, hs_min_y, hs_max_y. lia.
  - rewrite Z.add_simpl_r. apply column_top_edge. unfold row_total, top_row, hs_min_y. lia.
  - intros y Hy. unfold hit. destruct (state_value_ok s Hs i y Hi) as (_&_&Htop); [unfold top_row, hs_min_y in *; lia|].
    rewrite Htop by lia. by rewrite Z.eqb_refl.
Qed.

Record primed (s : HeightmapSource) (k : HeightmapKind) (m : Heightmap) : Prop := {
  pr_ok : map_ok m;
  pr_kind : hm_kind m = k;
  pr_context : hm_context m = hs_context s;
  pr_columns i : (i < COLUMNS)%nat → ∃ e, column_edge s k i e ∧ heights m !! i = Some (e - hs_min_y s);
}.

Section new.
Context `{Allocator}.

Lemma heightmap_new_ok k s limit : hsource_ok s →
  match heightmap_new k s limit with
  | Ok m => map_ok m ∧ hm_kind m = k ∧ hm_context m = hs_context s ∧ heights m = replicate COLUMNS 0 ∧ hm_heap_bytes m ≤ limit ∧
      zlen (hm_words m) = word_total (hs_height s)
  | Err e => e = HmAllocationLimit ∨ e = HmAllocationFailed
  | Panic | NoFuel => False
  end.
Proof.
  intros Hs. unfold heightmap_new. destruct (limit <? _); [by left|].
  destruct (reserve_exact 8 _) as [cap|]; [|by right]. mstep. destruct (Z.ltb_spec limit (cap * 8)); [by left|].
  pose proof (height_dims _ (hk_height s Hs)) as Hd. split; [|split; [done|split; [done|split; [|split; [done|]]]]].
  - split; [apply Hs|done|]. unfold packed_map. cbn [hm_bits hm_words hm_capacity]. rewrite word_total_eq. by apply wf_new.
  - unfold heights, packed_map. cbn [hm_bits hm_words hm_capacity]. apply values_zero.
  - cbn [hm_words]. unfold zlen. rewrite length_replicate, Z2Nat.id; [done|]. unfold word_total, div_ceil.
    destruct Hd as [Hb _]. apply Z.div_pos; pose proof (per_word_bounds _ Hb) as [Hp _]; unfold per_word in Hp; unfold COLUMNS;
      change 64 with (Z.of_nat 64); rewrite <- Nat2Z.inj_div; lia.
Qed.
End new.

(** Priming a map: the columns with a matching block get its height, the
    others keep theirs. *)
Lemma prime_ok m s : hsource_ok s → map_ok m → hm_context m = hs_context s →
  ∃ m', prime m s = Ok m' ∧ map_ok m' ∧ m' = with_words m (hm_words m') ∧
    ∀ i, (i < COLUMNS)%nat → heights m' !! i =
      match column_top s (hm_kind m) i (row_total s) (top_row s) with Some e => Some (e - hs_min_y s) | None => heights m !! i end.
Proof.
  intros Hs Hm Hc. unfold prime, check_context. rewrite bool_decide_eq_true_2 by done. cbn [ensure]. mstep.
  destruct (prime_columns_ok s Hs m 0 COLUMNS Hm) as (m'&E&Hm'&He&Hv); [unfold map_height; by rewrite Hc|done|].
  exists m'. split; [done|]. split; [done|]. split; [done|]. intros i Hi. rewrite Hv, decide_True by lia.
  unfold map_floor, map_height. by rewrite Hc.
Qed.

Lemma prime_fresh m s : hsource_ok s → map_ok m → hm_context m = hs_context s → heights m = replicate COLUMNS 0 →
  ∃ m', prime m s = Ok m' ∧ m' = with_words m (hm_words m') ∧ primed s (hm_kind m) m'.
Proof.
  intros Hs Hm Hc H0. destruct (prime_ok m s Hs Hm Hc) as (m'&E&Hm'&He&Hv). exists m'. split; [done|]. split; [done|]. split; [done|by rewrite He|by rewrite He|].
  intros i Hi. eexists. split; [by apply column_edge_top|]. rewrite (Hv i Hi), H0, lookup_replicate_2 by done.
  destruct (column_top _ _ _ _ _); [done|]. cbn. f_equal. lia.
Qed.

(** Two maps primed on the same blocks, from the same map, are equal. *)
Lemma primed_unique s k m m' : primed s k m → primed s k m' → m' = with_words m (hm_words m') → m' = m.
Proof.
  intros [Hm Hk Hc Hv] [Hm' Hk' Hc' Hv'] He. apply map_ext; [done..|].
  apply list_eq_same_length with COLUMNS; [by rewrite length_heights..|]. intros i v w Hi Hv1 Hv2.
  destruct (Hv i Hi) as (e&Hedge&E), (Hv' i Hi) as (e'&Hedge'&E'). rewrite E' in Hv1. rewrite E in Hv2.
  pose proof (top_edge_unique _ _ _ _ _ Hedge Hedge'). congruence.
Qed.

(** ** A changed block *)

Lemma hit_opaque s k i y : opaque_value s k (rg_air (hs_registries s)) = false → hit s k i y = opaque_value s k (state_value s i y).
Proof. intros Ha. unfold hit. destruct (Z.eqb_spec (state_value s i y) (rg_air (hs_registries s))) as [->|]; [by rewrite Ha|done]. Qed.

Lemma find_lower_ok s k i n y : hsource_ok s → opaque_value s k (rg_air (hs_registries s)) = false → (i < COLUMNS)%nat →
  hs_min_y s ≤ y - Z.of_nat n + 1 → y < hs_max_y s →
  find_lower s k (Z.of_nat i mod 16) (Z.of_nat i / 16) n y = Ok (e ← column_top s k i n y; Some (e - 1)).
Proof.
  intros Hs Hair Hi. revert y. induction n as [|n IH]; intros y Hlo Hhi; cbn [find_lower column_top]; [done|].
  destruct (state_value_ok s Hs i y Hi) as (->&Hr&_); [lia|]. mstep. rewrite opaque_ok by done. mstep. rewrite hit_opaque by done.
  destruct (opaque_value s k (state_value s i y)); [cbn; do 2 f_equal; lia|]. apply IH; lia.
Qed.

Section changed.
Context (s : HeightmapSource) (m : Heightmap) (b : Z → bool) (i : nat) (y e : Z).
Let k := hm_kind m.
Hypothesis Hs : hsource_ok s.
Hypothesis Hair : opaque_value s k (rg_air (hs_registries s)) = false.
Hypothesis Hm : map_ok m.
Hypothesis Hc : hm_context m = hs_context s.
Hypothesis Hi : (i < COLUMNS)%nat.
Hypothesis Hy : hs_min_y s ≤ y < hs_max_y s.
Hypothesis Hold : top_edge b (hs_min_y s) (hs_max_y s - 1) e.
Hypothesis He : heights m !! i = Some (e - hs_min_y s).
Hypothesis Hb : ∀ y', y' ≠ y → hit s k i y' = b y'.

Lemma changed_floor : map_floor m = hs_min_y s ∧ map_floor m + section_count (map_height m) * 16 = hs_max_y s.
Proof.
  unfold map_floor, map_height. rewrite Hc. split; [done|]. pose proof (hk_height s Hs) as [[? ?] ?].
  unfold hs_min_y, hs_max_y, section_count, hs_height in *. lia.
Qed.

Lemma rewrite_column e' : column_edge s k i e' →
  ∃ m', set_column m i e' = Ok m' ∧ map_ok m' ∧ m' = with_words m (hm_words m') ∧ heights m' = <[i := e' - hs_min_y s]> (heights m).
Proof.
  intros He'. destruct changed_floor as [Hf Hmax]. pose proof (top_edge_range _ _ _ _ He') as Hr.
  destruct (set_column_ok m i e' Hm Hi) as (m'&E&Hm'&Hv&Hw); [rewrite Hmax, Hf; lia|]. rewrite Hf in Hv. by exists m'.
Qed.

Lemma update_column_ok :
  ∃ changed m' e', update m (Z.of_nat i mod 16) y (Z.of_nat i / 16) (state_value s i y) s = Ok (changed, m') ∧ map_ok m' ∧
    m' = with_words m (hm_words m') ∧ column_edge s k i e' ∧ heights m' = <[i := e' - hs_min_y s]> (heights m) ∧ (changed = false ↔ e' = e).
Proof.
  destruct (state_value_ok s Hs i y Hi Hy) as (_&Hr&_). pose proof (top_edge_range _ _ _ _ Hold) as Hrange.
  assert (Hup : ∀ y', y < y' ≤ hs_max_y s - 1 → e ≤ y' → hit s k i y' = false) by (intros y' Hy' He'; rewrite Hb by lia; apply (top_edge_open _ _ _ _ _ Hold); lia).
  assert (Hcol : column (Z.of_nat i mod 16) (Z.of_nat i / 16) = Ok i).
  { unfold column. unfold COLUMNS in Hi. pose proof (Z.mod_pos_bound (Z.of_nat i) 16 ltac:(lia)). pose proof (Z.div_mod (Z.of_nat i) 16).
    destruct (Z.ltb_spec (Z.of_nat i mod 16) 16), (Z.ltb_spec (Z.of_nat i / 16) 16); [cbn [andb]; f_equal; lia|lia..]. }
  assert (Hkeep : column_edge s k i e → ∃ changed m' e', Ok (E := HeightmapError) (false, m) = Ok (changed, m') ∧ map_ok m' ∧
    m' = with_words m (hm_words m') ∧ column_edge s k i e' ∧ heights m' = <[i := e' - hs_min_y s]> (heights m) ∧ (changed = false ↔ e' = e)).
  { intros Hedge. exists false, m, e. split_and!; [done|done|by destruct m|done|by rewrite list_insert_id|done]. }
  assert (Hwrite : ∀ e', column_edge s k i e' → e' ≠ e → ∃ changed m' e'', (m' ← set_column m i e'; Ok (true, m')) = Ok (changed, m') ∧ map_ok m' ∧
    m' = with_words m (hm_words m') ∧ column_edge s k i e'' ∧ heights m' = <[i := e'' - hs_min_y s]> (heights m) ∧ (changed = false ↔ e'' = e)).
  { intros e' Hedge Hne. destruct (rewrite_column e' Hedge) as (m'&E&?&?&?). rewrite E. mstep. by exists true, m', e'. }
  unfold update, check_context. rewrite (bool_decide_eq_true_2 (hm_context m = hs_context s)) by done. cbn [ensure]. mstep. rewrite Hcol. mstep.
  destruct (Z.leb_spec (hs_min_y s) y), (Z.ltb_spec y (hs_max_y s)); [|lia..]. cbn [andb ensure]. mstep.
  destruct (mask_ok s Hs _ Hr) as (msk&Hmsk&_). rewrite Hmsk. rewrite bool_decide_eq_true_2 by by eexists. cbn [ensure]. mstep.
  unfold first_available. rewrite Hcol. mstep. destruct (first_at_ok m i Hm Hi) as (v&Hv&->). rewrite He in Hv. injection Hv as <-. mstep.
  destruct changed_floor as [Hf _]. rewrite Hf, Z.sub_add. fold k.
  pose proof (hit_opaque s k i y Hair) as Hhit. rewrite opaque_ok by done. cbv zeta.
  destruct (Z.leb_spec y (e - 2)).
  { apply Hkeep. apply (top_edge_ext b); [done|]. intros y' ? _. apply Hb. lia. }
  mstep. rewrite <- Hhit. destruct (hit s k i y) eqn:Eh.
  - destruct (Z.ltb_spec y e).
    + apply Hkeep. replace e with (y + 1) by lia. apply top_edge_found; [lia|done|]. intros y' ?. apply Hup; lia.
    + apply Hwrite; [|lia]. apply top_edge_found; [lia|done|]. intros y' ?. apply Hup; lia.
  - destruct (Z.eqb_spec y (e - 1)) as [Ey|]; cbn [negb].
    + rewrite (find_lower_ok s k i) by (done || lia). mstep.
      assert (Hlow : column_edge s k i (default (hs_min_y s) (column_top s k i (Z.to_nat (y - hs_min_y s)) (y - 1)))).
      { apply (top_edge_below _ _ _ y); [lia|apply column_top_edge; lia|]. intros y' ?. destruct (decide (y' = y)) as [->|]; [done|apply Hup; lia]. }
      pose proof (top_edge_range _ _ _ _ (column_top_edge s k i (Z.to_nat (y - hs_min_y s)) (y - 1) ltac:(lia))) as Hlr.
      destruct (column_top s k i _ _) as [e'|]; cbn [mbind option_bind default] in *; unfold Datatypes.id in *.
      * rewrite Z.sub_add. apply Hwrite; [done|lia].
      * apply Hwrite; [done|lia].
    + apply Hkeep. apply (top_edge_ext b); [done|]. intros y' ? ?. destruct (decide (y' = y)) as [->|]; [|by apply Hb].
      rewrite Eh. symmetry. apply (top_edge_open _ _ _ _ _ Hold); lia.
Qed.
End changed.
