(* ===== verification/HeightmapSets.v ===== *)
(** * Heightmaps: properties

    Priming, the update after a block change, and the maps of a stored chunk:
    which are restored, and that priming the missing ones together is priming
    each of them. *)

From Stdlib Require Import String.
From stdpp Require Import list sets.
From S2P Require Import Prelude.
From S2P Require Import Outcomes.
From S2P Require Import Packed.
From S2P Require Import View.
From S2P Require Import Container.
From S2P Require Import SectionNet.
From S2P Require Import Nbt.
From S2P Require Import ChunkRegistry.
From S2P Require Import RegistryFacts.
From S2P Require Import ChunkDraft.
From S2P Require Import ChunkFacts.
From S2P Require Import LightSource.
From S2P Require Import LightSourceFacts.
From S2P Require Import LightSourceInput.
From S2P Require Import Edges.
From S2P Require Import Heightmap.
From S2P Require Import HeightmapFacts.
Local Open Scope Z_scope.

(** ** Kinds as bits *)

#[export] Instance heightmap_kind_eq_dec : EqDecision HeightmapKind.
Proof. solve_decision. Defined.

Lemma kind_mask_eq k : kind_mask k = 2 ^ kind_id k.
Proof. by destruct k. Qed.
Lemma kind_id_range k : 0 ≤ kind_id k < 6.
Proof. destruct k; cbn; lia. Qed.
Lemma kind_id_inj k k' : kind_id k = kind_id k' → k = k'.
Proof. by destruct k, k'. Qed.
Lemma all_at k : ALL !! Z.to_nat (kind_id k) = Some k.
Proof. by destruct k. Qed.
Lemma all_index j k : ALL !! j = Some k → j = Z.to_nat (kind_id k).
Proof. intros Hj. pose proof (lookup_lt_Some _ _ _ Hj) as Hl. do 6 (destruct j as [|j]; [by injection Hj as <-|]). cbn in Hl. lia. Qed.

Lemma land_kind z k : (Z.land z (kind_mask k) =? 0) = negb (Z.testbit z (kind_id k)).
Proof.
  rewrite kind_mask_eq. pose proof (kind_id_range k). destruct (Z.testbit z (kind_id k)) eqn:E; cbn [negb].
  - apply Z.eqb_neq. intros H0. assert (Z.testbit (Z.land z (2 ^ kind_id k)) (kind_id k) = false) as Hf by (by rewrite H0, Z.bits_0).
    rewrite Z.land_spec, E, pow2_testbit, Z.eqb_refl in Hf by lia. done.
  - apply Z.eqb_eq, Z.bits_inj'. intros j Hj. rewrite Z.land_spec, pow2_testbit, Z.bits_0 by lia.
    destruct (Z.eqb_spec (kind_id k) j) as [<-|]; [by rewrite E|apply andb_false_r].
Qed.

Lemma lor_kind z k k' : Z.testbit (Z.lor z (kind_mask k)) (kind_id k') = Z.testbit z (kind_id k') || bool_decide (k = k').
Proof.
  rewrite kind_mask_eq, Z.lor_spec, pow2_testbit by apply kind_id_range. f_equal.
  destruct (Z.eqb_spec (kind_id k) (kind_id k')) as [E|E]; [by rewrite bool_decide_eq_true_2 by by apply kind_id_inj|rewrite bool_decide_eq_false_2; [done|congruence]].
Qed.

Lemma left_bits u m k : Z.testbit (Z.land u (u_not 8 (Z.land m u))) (kind_id k) = Z.testbit u (kind_id k) && negb (Z.testbit m (kind_id k)).
Proof.
  pose proof (kind_id_range k). rewrite Z.land_spec, u_not_testbit, Z.land_spec by lia. destruct (Z.ltb_spec (kind_id k) 8); [|lia].
  by destruct (Z.testbit u _), (Z.testbit m _).
Qed.

Lemma opaque_bit s k m state : heightmap_mask (hs_registries s) state = Some m → opaque_value s k state = Z.testbit m (kind_id k).
Proof. intros E. unfold opaque_value, opaque, mask_of. rewrite E. mstep. rewrite land_kind. apply negb_involutive. Qed.

(** ** Priming together *)

Section together.
Context (s : HeightmapSource).
Hypothesis Hs : hsource_ok s.

(** A map that can be primed. *)
Definition fits (k : HeightmapKind) (m : Heightmap) : Prop := map_ok m ∧ hm_kind m = k ∧ hm_context m = hs_context s.

Definition slot (ms : list (option Heightmap)) (k : HeightmapKind) : option Heightmap := m ← ms !! Z.to_nat (kind_id k); m.

(** Each kind of a mask is changed by [f], the others stay. *)
Definition each_primed (mask : Z) (f : Heightmap → outcome HeightmapError Heightmap) (ms ms' : list (option Heightmap)) : Prop :=
  length ms' = length ms ∧
  ∀ k, if Z.testbit mask (kind_id k) then ∃ m m', slot ms k = Some m ∧ f m = Ok m' ∧ slot ms' k = Some m' else slot ms' k = slot ms k.

Definition slots_fit (mask : Z) (ms : list (option Heightmap)) : Prop :=
  length ms = 6%nat ∧ ∀ k, Z.testbit mask (kind_id k) = true → ∃ m, slot ms k = Some m ∧ fits k m.

Lemma slot_at ms k m : slot ms k = Some m → ms !! Z.to_nat (kind_id k) = Some (Some m).
Proof. unfold slot. destruct (ms !! Z.to_nat (kind_id k)) as [[]|]; cbn; congruence. Qed.

Lemma slot_insert ms k k' m : length ms = 6%nat → slot (<[Z.to_nat (kind_id k) := Some m]> ms) k' = if decide (k = k') then Some m else slot ms k'.
Proof.
  intros Hl. unfold slot. pose proof (kind_id_range k). pose proof (kind_id_range k'). destruct (decide (k = k')) as [->|Hne].
  - by rewrite list_lookup_insert_eq by lia.
  - rewrite list_lookup_insert_ne; [done|]. intros E. apply Hne, kind_id_inj. lia.
Qed.

Lemma set_found_ok kinds found i first ms :
  NoDup kinds → length ms = 6%nat →
  (∀ k, k ∈ kinds → Z.testbit found (kind_id k) = true → ∃ m m', slot ms k = Some m ∧ set_column m i first = Ok m') →
  ∃ ms', set_found kinds found i first ms = Ok ms' ∧ length ms' = 6%nat ∧
    ∀ k, if bool_decide (k ∈ kinds) && Z.testbit found (kind_id k) then ∃ m m', slot ms k = Some m ∧ set_column m i first = Ok m' ∧ slot ms' k = Some m'
         else slot ms' k = slot ms k.
Proof.
  intros Hnd. revert ms. induction Hnd as [|k kinds Hk Hnd IH]; intros ms Hl Hslots; cbn [set_found].
  { exists ms. split; [done|]. split; [done|]. intros k. by rewrite bool_decide_eq_false_2 by apply not_elem_of_nil. }
  rewrite land_kind. destruct (Z.testbit found (kind_id k)) eqn:Ek; cbn [negb].
  - destruct (Hslots k ltac:(by left) Ek) as (m&m'&Hm&Hset). rewrite (slot_at _ _ _ Hm). mstep. rewrite Hset. mstep.
    destruct (IH (<[Z.to_nat (kind_id k) := Some m']> ms)) as (ms'&E&Hl'&Hms').
    + by rewrite length_insert.
    + intros k' Hk' Hb. rewrite slot_insert by done. rewrite decide_False by (by intros ->). apply Hslots; [by right|done].
    + exists ms'. split; [done|]. split; [done|]. intros k'. specialize (Hms' k'). rewrite slot_insert in Hms' by done.
      destruct (decide (k = k')) as [<-|Hne].
      * rewrite bool_decide_eq_false_2 in Hms' by done. cbn [andb] in Hms'. rewrite bool_decide_eq_true_2 by by left. rewrite Ek. cbn [andb]. by exists m, m'.
      * rewrite (bool_decide_ext (k' ∈ k :: kinds) (k' ∈ kinds)) by (rewrite elem_of_cons; naive_solver). done.
  - mstep. destruct (IH ms Hl) as (ms'&E&Hl'&Hms'); [intros k' ? ?; apply Hslots; [by right|done]|].
    exists ms'. split; [done|]. split; [done|]. intros k'. specialize (Hms' k'). destruct (decide (k' = k)) as [->|Hne].
    + rewrite Ek, andb_false_r in *. done.
    + rewrite (bool_decide_ext (k' ∈ k :: kinds) (k' ∈ kinds)) by (rewrite elem_of_cons; naive_solver). done.
Qed.

Lemma all_nodup : NoDup ALL.
Proof. by apply (bool_decide_unpack (NoDup ALL)); vm_compute. Qed.
Lemma in_all k : k ∈ ALL.
Proof. apply list_elem_of_lookup. eexists. apply all_at. Qed.

(** A column of all the maps at once is that column of each map. *)
Lemma prime_together_ok i n y mask ms :
  slots_fit mask ms → (i < COLUMNS)%nat → hs_min_y s ≤ y - Z.of_nat n + 1 → y < hs_max_y s →
  ∃ ms', prime_together s i n y mask ms = Ok ms' ∧ each_primed mask (λ m, prime_column m s i n y) ms ms'.
Proof.
  revert y mask ms. induction n as [|n IH]; intros y mask ms [Hl Hfit] Hi Hlo Hhi; cbn [prime_together prime_column].
  { exists ms. split; [done|]. split; [done|]. intros k. destruct (Z.testbit mask (kind_id k)) eqn:E; [|done].
    destruct (Hfit k E) as (m&Hm&_). by exists m, m. }
  destruct (state_value_ok s Hs i y Hi) as (->&Hr&_); [lia|]. mstep.
  destruct (Z.eqb_spec (state_value s i y) (rg_air (hs_registries s))) as [|Hne].
  { destruct (IH (y - 1) mask ms) as (ms'&->&Hms'); [done|done|lia|lia|]. by exists ms'. }
  destruct (mask_ok s Hs _ Hr) as (hm&Hhm&->). mstep. destruct (Hs) as [_ Hh _ _ _ _]. pose proof Hh as [[? ?] ?].
  assert (Hset : ∀ k m, fits k m → ∃ m', set_column m i (y + 1) = Ok m' ∧ fits k m').
  { intros k m (Hm&<-&Hc). destruct (set_column_ok m i (y + 1) Hm Hi) as (m'&E&Hm'&_&Hw); [|exists m'; rewrite Hw in *; by split_and!].
    unfold map_floor, map_height. rewrite Hc. unfold hs_min_y, hs_max_y, hs_height, section_count in *. lia. }
  destruct (set_found_ok ALL (Z.land hm mask) i (y + 1) ms all_nodup Hl) as (ms1&->&Hl1&Hms1).
  { intros k _ [_ Hb]%(eq_trans (eq_sym (Z.land_spec _ _ _)))%andb_prop. destruct (Hfit k Hb) as (m&Hm&Hf). destruct (Hset k m Hf) as (m'&E&_). by exists m, m'. }
  mstep.
  assert (Hop : ∀ k m, fits k m → opaque s (hm_kind m) (state_value s i y) = Ok (Z.testbit hm (kind_id k))).
  { intros k m (_&<-&_). rewrite opaque_ok by done. by rewrite (opaque_bit _ _ hm). }
  assert (Hstep : ∀ ms', length ms' = 6%nat → (∀ k, if Z.testbit mask (kind_id k) && negb (Z.testbit hm (kind_id k))
      then ∃ m m', slot ms1 k = Some m ∧ prime_column m s i n (y - 1) = Ok m' ∧ slot ms' k = Some m' else slot ms' k = slot ms1 k) →
    each_primed mask (λ m, hit ← opaque s (hm_kind m) (state_value s i y); if (hit : bool) then set_column m i (y + 1) else prime_column m s i n (y - 1)) ms ms').
  { intros ms' Hl' Hms'. split; [by rewrite Hl', Hl|]. intros k. specialize (Hms' k). specialize (Hms1 k). rewrite bool_decide_eq_true_2, Z.land_spec in Hms1 by apply in_all. cbn [andb] in Hms1.
    destruct (Z.testbit mask (kind_id k)) eqn:Ek; rewrite ?andb_false_r, ?andb_true_r in Hms1; cbn [andb] in Hms'; [|congruence].
    destruct (Hfit k Ek) as (m&Hm&Hf). destruct (Z.testbit hm (kind_id k)) eqn:Eh; cbn [negb] in Hms'.
    - destruct Hms1 as (m0&m'&Hm0&Eset&Hs1). assert (m0 = m) as -> by congruence. exists m, m'. rewrite (Hop k m Hf), Eh. mstep. by rewrite Hms'.
    - destruct Hms' as (m0&m'&Hm0&Ep&Hs1). exists m, m'. rewrite (Hop k m Hf), Eh. mstep. split; [done|]. split; [|done]. congruence. }
  destruct (Z.eqb_spec (Z.land mask (u_not 8 (Z.land hm mask))) 0) as [E0|].
  - exists ms1. split; [done|]. apply Hstep; [done|]. intros k. by rewrite <- left_bits, E0, Z.bits_0.
  - destruct (IH (y - 1) (Z.land mask (u_not 8 (Z.land hm mask))) ms1) as (ms'&->&Hl'&Hms'); [|done|lia|lia|].
    + split; [done|]. intros k Hk. rewrite left_bits in Hk. apply andb_prop in Hk as [Hk Hn]. apply negb_true_iff in Hn.
      specialize (Hms1 k). rewrite Z.land_spec, Hn, andb_false_r in Hms1. rewrite Hms1. by apply Hfit.
    + exists ms'. split; [done|]. apply Hstep; [by rewrite Hl'|]. intros k. specialize (Hms' k). by rewrite left_bits in Hms'.
Qed.

Lemma fits_column k m i n y : fits k m → (i < COLUMNS)%nat → hs_min_y s ≤ y - Z.of_nat n + 1 → y < hs_max_y s →
  ∃ m', prime_column m s i n y = Ok m' ∧ fits k m'.
Proof.
  intros (Hm&<-&Hc) Hi Hlo Hhi. destruct (prime_column_ok s Hs m i n y Hm) as (m'&E&Hm'&Hw&_); [unfold map_height; by rewrite Hc|done..|].
  exists m'. split; [done|]. rewrite Hw in *. by split_and!.
Qed.

Lemma row_bounds : hs_min_y s ≤ top_row s - Z.of_nat (row_total s) + 1 ∧ top_row s < hs_max_y s.
Proof. pose proof (hk_height s Hs) as [[? ?] ?]. pose proof (hk_highest s Hs). unfold row_total, top_row, hs_min_y, hs_max_y. lia. Qed.

(** Priming the maps together is priming each. *)
Lemma prime_all_ok mask i n ms : slots_fit mask ms → (i + n ≤ COLUMNS)%nat →
  ∃ ms', prime_all s mask i n ms = Ok ms' ∧ each_primed mask (λ m, prime_columns m s i n) ms ms'.
Proof.
  revert i ms. induction n as [|n IH]; intros i ms [Hl Hfit] Hi; cbn [prime_all prime_columns].
  { exists ms. split; [done|]. split; [done|]. intros k. destruct (Z.testbit mask (kind_id k)) eqn:E; [|done].
    destruct (Hfit k E) as (m&Hm&_). by exists m, m. }
  destruct (Z.eqb_spec mask 0) as [->|]; [exists ms; split; [done|]; split; [done|]; intros k; by rewrite Z.bits_0|].
  destruct row_bounds as [Hlo Hhi].
  destruct (prime_together_ok i (row_total s) (top_row s) mask ms) as (ms1&->&Hl1&Hms1); [by split|lia|done|done|]. mstep.
  destruct (IH (S i) ms1) as (ms2&->&Hl2&Hms2); [|lia|].
  - split; [by rewrite Hl1|]. intros k Hk. specialize (Hms1 k). rewrite Hk in Hms1. destruct Hms1 as (m&m'&Hm&Ep&Hm1). exists m'. split; [done|].
    destruct (Hfit k Hk) as (m0&Hm0&Hf). assert (m0 = m) as -> by congruence.
    destruct (fits_column k m i (row_total s) (top_row s) Hf) as (m2&E2&Hf2); [lia|done|done|]. congruence.
  - exists ms2. split; [done|]. split; [by rewrite Hl2|]. intros k. specialize (Hms1 k). specialize (Hms2 k).
    destruct (Z.testbit mask (kind_id k)); [|congruence]. destruct Hms1 as (m&m'&Hm&Ep&Hm1), Hms2 as (m1&m2&Hm1'&Ep2&Hm2).
    exists m, m2. split; [done|]. rewrite Ep. mstep. split; [|done]. congruence.
Qed.
End together.

(** ** The maps of a stored chunk *)

(** The kinds that are there: required by the status, or stored. *)
Definition early_status (status : ChunkStatus) : bool := bool_decide (status ∈ [Empty; StructureStarts; StructureReferences; Biomes]).
Definition wanted (root : list CompoundEntry) (status : ChunkStatus) (k : HeightmapKind) : bool :=
  xorb (early_status status) (keep_after_worldgen k) || bool_decide (is_Some (stored_array root k)).

Lemma selected_bits root st k : Z.testbit (selected_mask root st) (kind_id k) = wanted root st k.
Proof.
  unfold selected_mask, wanted, ALL. cbn [fold_left].
  assert (Hor : ∀ z k', Z.testbit (match stored_array root k' with Some _ => Z.lor z (kind_mask k') | None => z end) (kind_id k) =
    Z.testbit z (kind_id k) || (bool_decide (k' = k) && bool_decide (is_Some (stored_array root k')))).
  { intros z k'. destruct (stored_array root k') as [l|].
    - by rewrite lor_kind, (bool_decide_eq_true_2 (is_Some (Some l))), andb_true_r by by eexists.
    - by rewrite (bool_decide_eq_false_2 (is_Some None)), andb_false_r, orb_false_r by by intros [? ?]. }
  rewrite !Hor. rewrite <- !orb_assoc. f_equal; [by destruct st, k|]. destruct k; cbn; rewrite ?orb_false_r; done.
Qed.

Section stored.
Context `{Allocator} (s : HeightmapSource) (root : list CompoundEntry).
Hypothesis Hs : hsource_ok s.

(** What allocation leaves in the slots of a kind: [bit] and [bit'] tell
    whether the map is to be primed, before and after. *)
Definition allocated (selected : Z) (k : HeightmapKind) (m : option Heightmap) (o : option HeightmapOrigin) (bit bit' : bool) : Prop :=
  if Z.testbit selected (kind_id k) then
    ∃ m0, fits s k m0 ∧ heights m0 = replicate COLUMNS 0 ∧ zlen (hm_words m0) = word_total (hs_height s) ∧
      match stored_array root k with
      | Some raw =>
          if zlen raw =? word_total (hs_height s) then m = Some (with_words m0 (u_wrap 64 <$> raw)) ∧ o = Some OriginRestored ∧ bit' = bit
          else m = Some m0 ∧ o = Some OriginReprimed ∧ bit' = true
      | None => m = Some m0 ∧ o = Some MissingPrimed ∧ bit' = true
      end
  else m = None ∧ o = None ∧ bit' = bit.

Lemma allocate_maps_ok selected kinds remaining to_prime :
  NoDup kinds → 0 ≤ remaining →
  match allocate_maps s root selected kinds remaining to_prime with
  | Ok (ms, os, to_prime') => length ms = length kinds ∧ foldr Z.add 0 (hm_heap_bytes <$> omap Datatypes.id ms) ≤ remaining ∧
      (∀ j k, kinds !! j = Some k → ∃ m o, ms !! j = Some m ∧ os !! j = Some o ∧
         allocated selected k m o (Z.testbit to_prime (kind_id k)) (Z.testbit to_prime' (kind_id k))) ∧
      ∀ k, k ∉ kinds → Z.testbit to_prime' (kind_id k) = Z.testbit to_prime (kind_id k)
  | Err e => e = HmAllocationLimit ∨ e = HmAllocationFailed
  | Panic | NoFuel => False
  end.
Proof.
  intros Hnd. revert remaining to_prime. induction Hnd as [|k kinds Hk Hnd IH]; intros remaining to_prime Hrem; cbn [allocate_maps]; [by split_and!|].
  rewrite land_kind. destruct (Z.testbit selected (kind_id k)) eqn:Esel; cbn [negb].
  2:{ specialize (IH remaining to_prime Hrem). destruct (allocate_maps s root selected kinds remaining to_prime) as [[[ms os] tp]|e| |]; mstep; try exact IH.
      destruct IH as (Hl&Hb&Hj&Hk'). split; [by cbn; lia|]. split; [done|]. split.
      - intros [|j] k' Hk''; [injection Hk'' as <-; exists None, None; unfold allocated; rewrite Esel; split_and!; [done..|by rewrite Hk']|by apply Hj].
      - intros k' [_ ?]%not_elem_of_cons. by apply Hk'. }
  pose proof (heightmap_new_ok k s remaining Hs) as Hnew. destruct (heightmap_new k s remaining) as [m0|e| |]; mstep; try exact Hnew.
  destruct Hnew as (Hm0&Hkind&Hctx&Hz&Hbytes&Hwords). unfold checked_sub. destruct (Z.leb_spec (hm_heap_bytes m0) remaining); [|lia]. mstep.
  set (r := match stored_array root k with Some raw => _ | None => _ end).
  assert (Hr : ∃ m o tp, r = (m, o, tp) ∧ hm_heap_bytes m = hm_heap_bytes m0 ∧
    allocated selected k (Some m) (Some o) (Z.testbit to_prime (kind_id k)) (Z.testbit tp (kind_id k)) ∧
    ∀ k', k' ≠ k → Z.testbit tp (kind_id k') = Z.testbit to_prime (kind_id k')).
  { assert (Hlor : ∀ k', k' ≠ k → Z.testbit (Z.lor to_prime (kind_mask k)) (kind_id k') = Z.testbit to_prime (kind_id k'))
      by (intros k' ?; rewrite lor_kind, bool_decide_eq_false_2, orb_false_r; congruence).
    assert (Hset : Z.testbit (Z.lor to_prime (kind_mask k)) (kind_id k) = true) by (rewrite lor_kind, bool_decide_eq_true_2, orb_true_r; done).
    unfold r, allocated. rewrite Esel. destruct (stored_array root k) as [raw|].
    - assert (zlen raw = zlen (hm_words m0) ↔ length raw = length (hm_words m0)) as Hlen by (unfold zlen; lia).
      destruct (Nat.eqb_spec (length raw) (length (hm_words m0))) as [E|E].
      + do 3 eexists. split; [done|]. split; [done|]. split; [|done]. exists m0. destruct (Z.eqb_spec (zlen raw) (word_total (hs_height s))); [by split_and!|].
        exfalso. rewrite <- Hwords in *. tauto.
      + do 3 eexists. split; [done|]. split; [done|]. split; [|done]. exists m0. destruct (Z.eqb_spec (zlen raw) (word_total (hs_height s))); [|by split_and!].
        exfalso. rewrite <- Hwords in *. tauto.
    - do 3 eexists. split; [done|]. split; [done|]. split; [|done]. exists m0. by split_and!. }
  destruct Hr as (m&o&tp&->&Hmb&Hal&Hoth). specialize (IH (remaining - hm_heap_bytes m0) tp ltac:(lia)).
  destruct (allocate_maps s root selected kinds _ tp) as [[[ms os] tp']|e| |]; mstep; try exact IH.
  destruct IH as (Hl&Hb&Hj&Hk'). split; [by cbn; lia|]. split; [cbn; rewrite Hmb; lia|]. split.
  - intros [|j] k' Hk''.
    + injection Hk'' as <-. exists (Some m), (Some o). split; [done|]. split; [done|]. by rewrite (Hk' k Hk).
    + destruct (Hj j k' Hk'') as (m'&o'&?&?&Hal'). exists m', o'. split; [done|]. split; [done|].
      rewrite Hoth in Hal'; [done|]. intros ->. apply Hk. by eapply list_elem_of_lookup_2.
  - intros k' [? ?]%not_elem_of_cons. rewrite Hk' by done. by apply Hoth.
Qed.

(** What a kind's slot holds. *)
Definition stored_map (h : HeightmapSet) (k : HeightmapKind) : Prop :=
  ∃ m, get_map h k = Some m ∧ hm_kind m = k ∧ hm_context m = hs_context s ∧
    match stored_array root k with
    | Some raw =>
        if zlen raw =? word_total (hs_height s) then get_origin h k = Some OriginRestored ∧ hm_words m = u_wrap 64 <$> raw
        else get_origin h k = Some OriginReprimed ∧ primed s k m
    | None => get_origin h k = Some MissingPrimed ∧ primed s k m
    end.

Definition slot_bytes (m : option Heightmap) : Z := match m with Some m => hm_heap_bytes m | None => 0 end.

Lemma bytes_of_slots (ms : list (option Heightmap)) : foldr Z.add 0 (hm_heap_bytes <$> omap Datatypes.id ms) = foldr Z.add 0 (slot_bytes <$> ms).
Proof. induction ms as [|[m|] ms IH]; cbn in *; [done|by rewrite IH|by rewrite IH]. Qed.

Lemma primed_bytes mask ms ms' : slots_fit s mask ms → each_primed mask (λ m, prime_columns m s 0 COLUMNS) ms ms' →
  foldr Z.add 0 (hm_heap_bytes <$> omap Datatypes.id ms') = foldr Z.add 0 (hm_heap_bytes <$> omap Datatypes.id ms).
Proof.
  intros [Hl Hfit] [Hl' Hms']. rewrite !bytes_of_slots. f_equal. apply list_eq_same_length with 6%nat; [by rewrite length_fmap; lia..|].
  intros j v w Hj Hv Hw. rewrite list_lookup_fmap in Hv, Hw.
  destruct (lookup_lt_ok ALL j ltac:(done)) as [k Hk]. rewrite (all_index j k Hk) in *. specialize (Hms' k). unfold slot in Hms'.
  destruct (ms' !! Z.to_nat (kind_id k)) as [x'|]; [|done]. destruct (ms !! Z.to_nat (kind_id k)) as [x|] eqn:Ex; [|done].
  cbn in Hv, Hw. injection Hv as <-. injection Hw as <-. cbn [mbind option_bind] in Hms'.
  destruct (Z.testbit mask (kind_id k)) eqn:Eb; [|by subst]. destruct Hms' as (m&m'&->&Ep&->).
  destruct (Hfit k Eb) as (m0&Hm0&Hf&_&Hc). unfold slot in Hm0. rewrite Ex in Hm0. cbn in Hm0. injection Hm0 as ->.
  destruct (prime_columns_ok s Hs m0 0 COLUMNS Hf) as (m1&E1&_&Hw1&_); [unfold map_height; by rewrite Hc|done|].
  assert (m' = m1) as -> by congruence. cbn. by rewrite Hw1.
Qed.

(** C27. The maps of a stored chunk: the call returns them or reports that memory
    is short, and never panics.  A map is there exactly when the chunk's status
    requires it (the two world-generation kinds before terrain, the four others
    after) or the chunk stores a long array for it.  A stored array of the right length
    is restored word for word; every other map is primed, and priming all of them
    in one pass over the blocks gives each column of each map the edge above its highest
    matching block.  The maps fit in the allowance. *)
Theorem heightmap_set_from_stored st limit :
  0 ≤ limit →
  match from_stored s root st limit with
  | Ok h => set_heap_bytes h ≤ limit ∧
      ∀ k, if wanted root st k then stored_map h k else get_map h k = None ∧ get_origin h k = None
  | Err e => e = HmAllocationLimit ∨ e = HmAllocationFailed
  | Panic | NoFuel => False
  end.
Proof.
  intros Hlim. unfold from_stored. destruct (limit <? _); [by left|].
  pose proof (allocate_maps_ok (selected_mask root st) ALL limit 0 all_nodup Hlim) as Hal.
  destruct (allocate_maps s root (selected_mask root st) ALL limit 0) as [[[ms os] tp]|e| |]; mstep; try exact Hal.
  destruct Hal as (Hl&Hbytes&Hslots&_).
  assert (Hk : ∀ k, ∃ m o, ms !! Z.to_nat (kind_id k) = Some m ∧ os !! Z.to_nat (kind_id k) = Some o ∧ allocated (selected_mask root st) k m o false (Z.testbit tp (kind_id k))).
  { intros k. destruct (Hslots _ k (all_at k)) as (m&o&?&?&Ha). rewrite Z.bits_0 in Ha. by exists m, o. }
  assert (Hfit : slots_fit s tp ms).
  { split; [done|]. intros k Htp. destruct (Hk k) as (m&o&Em&Eo&Ha). unfold allocated in Ha. unfold slot. rewrite Em. cbn.
    destruct (Z.testbit (selected_mask root st) (kind_id k)); [|by destruct Ha as (_&_&?); congruence].
    destruct Ha as (m0&Hf&_&_&Ha). destruct (stored_array root k) as [raw|]; [destruct (zlen raw =? _)|]; destruct Ha as (->&_&?); [congruence|by exists m0..]. }
  destruct (prime_all_ok s Hs tp 0 COLUMNS ms Hfit ltac:(done)) as (ms'&->&Hl'&Hms'). mstep. split.
  - unfold set_heap_bytes. cbn [maps]. by rewrite (primed_bytes tp ms ms').
  - intros k. rewrite <- selected_bits. destruct (Hk k) as (m&o&Em&Eo&Ha). unfold allocated in Ha. specialize (Hms' k). unfold slot in Hms'. rewrite Em in Hms'. cbn [mbind option_bind] in Hms'.
    unfold stored_map, get_map, get_origin. cbn [maps origins]. rewrite Eo. cbn [mbind option_bind].
    destruct (Z.testbit (selected_mask root st) (kind_id k)); [|destruct Ha as (->&->&Htp); rewrite Htp in Hms'; by split].
    destruct Ha as (m0&Hf&Hz&Hw&Ha).
    assert (Hprimed : Z.testbit tp (kind_id k) = true → m = Some m0 → ∃ m', (m ← ms' !! Z.to_nat (kind_id k); m) = Some m' ∧ hm_kind m' = k ∧ hm_context m' = hs_context s ∧ primed s k m').
    { intros Htp ->. rewrite Htp in Hms'. destruct Hms' as (m1&m2&[= <-]&Ep&->). exists m2. split; [done|]. destruct Hf as (Hm0&<-&Hc).
      destruct (prime_fresh m0 s Hs Hm0 Hc Hz) as (m3&E3&_&Hpr). unfold prime, check_context in E3. rewrite bool_decide_eq_true_2 in E3 by done. cbn [ensure] in E3. mstep in E3.
      assert (m3 = m2) as -> by congruence. split; [apply Hpr|]. split; [apply Hpr|done]. }
    destruct (stored_array root k) as [raw|]; [destruct (zlen raw =? _)|].
    + destruct Ha as (->&->&Htp). rewrite Htp in Hms'. exists (with_words m0 (u_wrap 64 <$> raw)). destruct Hf as (_&?&?). by split_and!.
    + destruct Ha as (->&->&Htp). destruct (Hprimed Htp eq_refl) as (m'&?&?&?&?). by exists m'.
    + destruct Ha as (->&->&Htp). destruct (Hprimed Htp eq_refl) as (m'&?&?&?&?). by exists m'.
Qed.
End stored.

(** ** A changed block *)

Lemma column_at x z : 0 ≤ x < 16 → 0 ≤ z < 16 → ∃ i, (i < COLUMNS)%nat ∧ column x z = Ok i ∧ Z.of_nat i mod 16 = x ∧ Z.of_nat i / 16 = z.
Proof.
  intros Hx Hz. exists (Z.to_nat (x + 16 * z)). unfold column, COLUMNS. destruct (Z.ltb_spec x 16), (Z.ltb_spec z 16); [|lia..].
  split; [lia|]. split; [done|]. rewrite Z2Nat.id by lia. rewrite (Z.mul_comm 16), Z_mod_plus_full, Z.mod_small, Z.div_add, Z.div_small by lia. lia.
Qed.

Lemma primed_reads s k m x z : primed s k m → 0 ≤ x < 16 → 0 ≤ z < 16 →
  ∃ i e, column x z = Ok i ∧ column_edge s k i e ∧ first_available m x z = Ok e.
Proof.
  intros [Hm _ Hc Hv] Hx Hz. destruct (column_at x z Hx Hz) as (i&Hi&Hcol&_&_). destruct (Hv i Hi) as (e&He&Hh).
  exists i, e. split; [done|]. split; [done|]. unfold first_available. rewrite Hcol. mstep.
  destruct (first_at_ok m i Hm Hi) as (v&Hv'&->). rewrite Hh in Hv'. injection Hv' as <-. f_equal.
  unfold map_floor, map_height, hs_min_y, hs_height. rewrite Hc. lia.
Qed.

(** C18. The update after a block change is exact where the air state belongs to no
    heightmap ([heightmap_mask] of it is 0, which the code does not check; priming
    passes over literal air, while an update takes the mask of any state).  Then on
    a source that differs in one block from the source a map was primed on,
    [update] returns, word for word, the map that priming gives on the changed
    source, with the flag that it changed; each column of it reads as the edge
    above the highest matching block. *)
Theorem heightmap_update_exact `{Allocator} s s' k limit m0 x y z state :
  hsource_ok s → hsource_ok s' → hs_context s' = hs_context s → hs_registries s' = hs_registries s →
  heightmap_mask (hs_registries s) (rg_air (hs_registries s)) = Some 0 →
  heightmap_new k s limit = Ok m0 →
  0 ≤ x < 16 → 0 ≤ z < 16 → hs_min_y s ≤ y < hs_max_y s → hs_state s' x y z = Ok state →
  (∀ x' y' z', 0 ≤ x' < 16 → 0 ≤ z' < 16 → hs_min_y s ≤ y' < hs_max_y s → (x', y', z') ≠ (x, y, z) → hs_state s' x' y' z' = hs_state s x' y' z') →
  ∃ m m' changed, prime m0 s = Ok m ∧ prime m0 s' = Ok m' ∧ update m x y z state s' = Ok (changed, m') ∧ (changed = false ↔ m' = m) ∧
    ∀ x' z', 0 ≤ x' < 16 → 0 ≤ z' < 16 → ∃ i e, column x' z' = Ok i ∧ column_edge s' k i e ∧ first_available m' x' z' = Ok e.
Proof.
  intros Hs Hs' Hctx Hreg Hair Hnew Hx Hz Hy Hst Hsame.
  pose proof (heightmap_new_ok k s limit Hs) as Hn. rewrite Hnew in Hn. destruct Hn as (Hm0&<-&Hc0&H0&_&_).
  destruct (prime_fresh m0 s Hs Hm0 Hc0 H0) as (m&Em&Hw&Hp), (prime_fresh m0 s' Hs' Hm0 ltac:(congruence) H0) as (m1&Em1&Hw1&Hp1).
  assert (Hlim : hs_min_y s' = hs_min_y s ∧ hs_max_y s' = hs_max_y s) by (unfold hs_min_y, hs_max_y, hs_height; by rewrite Hctx). destruct Hlim as [Emin Emax].
  destruct (column_at x z Hx Hz) as (i&Hi&Hcol&Ex&Ez). destruct (pr_columns _ _ _ Hp i Hi) as (e&He&Hhe).
  assert (Hcm : hm_kind m = hm_kind m0 ∧ hm_context m = hs_context s') by (rewrite Hctx; split; apply Hp). destruct Hcm as [Hkm Hcm].
  assert (Hhit : ∀ j y', (j < COLUMNS)%nat → hs_min_y s ≤ y' < hs_max_y s → j ≠ i ∨ y' ≠ y → hit s' (hm_kind m0) j y' = hit s (hm_kind m0) j y').
  { intros j y' Hj Hy' Hne. unfold hit, opaque_value, opaque, mask_of. rewrite Hreg. unfold state_value.
    assert (0 ≤ Z.of_nat j / 16 < 16) by (unfold COLUMNS in Hj; split; [apply Z.div_pos; lia|apply Z.div_lt_upper_bound; lia]).
    rewrite Hsame; [done|apply Z.mod_pos_bound; lia|done|done|]. intros [= E1 -> E3]. destruct Hne as [Hne|]; [|done]. apply Hne.
    pose proof (Z.div_mod (Z.of_nat j) 16 ltac:(lia)). pose proof (Z.div_mod (Z.of_nat i) 16 ltac:(lia)). lia. }
  assert (Hval : state_value s' i y = state) by (unfold state_value; by rewrite Ex, Ez, Hst).
  assert (Hclear : opaque_value s' (hm_kind m) (rg_air (hs_registries s')) = false) by (rewrite (opaque_bit _ _ 0); [apply Z.bits_0|by rewrite Hreg]).
  destruct (update_column_ok s' m (λ y', if decide (hs_min_y s ≤ y' < hs_max_y s) then hit s (hm_kind m0) i y' else hit s' (hm_kind m0) i y') i y e)
    as (changed&m'&e'&Eup&Hm'&Hw'&He'&Hh'&Hch); try done; rewrite ?Emin, ?Emax, ?Hkm; try done.
  { apply Hp. }
  { apply (top_edge_ext (hit s (hm_kind m0) i)); [exact He|]. intros y' ? ?. by rewrite decide_True by lia. }
  { intros y' Hne. destruct (decide _); [apply Hhit; [done|done|by right]|done]. }
  rewrite Ex, Ez, Hval in Eup. rewrite Emin in Hh'.
  assert (Hp' : primed s' (hm_kind m0) m').
  { split; [done|by rewrite Hw'|by rewrite Hw'|]. intros j Hj. destruct (decide (j = i)) as [->|Hne].
    - exists e'. rewrite Hh', Emin. rewrite Hkm in He'. split; [done|]. by rewrite list_lookup_insert_eq by by rewrite length_heights.
    - destruct (pr_columns _ _ _ Hp j Hj) as (ej&Hej&Hhj). exists ej. rewrite Hh', Emin, list_lookup_insert_ne by done. split; [|done].
      unfold column_edge. rewrite Emin, Emax. apply (top_edge_ext (hit s (hm_kind m0) j)); [exact Hej|]. intros y' ? ?. apply Hhit; [done|lia|by left]. }
  assert (m' = m1) as ->.
  { symmetry. apply (primed_unique s' (hm_kind m0)); [done..|]. rewrite Hw1, Hw', Hw. done. }
  exists m, m1, changed. split; [done|]. split; [done|]. split; [done|]. split; [|intros x' z' ? ?; by apply primed_reads].
  rewrite Hch. split.
  - intros ->. apply map_ext; [apply Hp|done|done|]. by rewrite Hh', list_insert_id.
  - intros E. rewrite E in Hh'. pose proof Hhe as Hi'. rewrite Hh', list_lookup_insert_eq in Hi' by by rewrite length_heights. injection Hi'. lia.
Qed.

(** ** Sources from sections *)

Section source.
Context (r : ChunkRegistrySnapshot) (h : DimensionHeight).
Hypothesis Hr : registry_ok r.
Hypothesis Hh : height_ok h.

Lemma count_cells_ok c cell n non_empty : inv c →
  yields (count_cells r c cell n non_empty) (λ total, (n = 0 ∨ cell + n ≤ length (contents c))%nat ∧
    Forall (λ id, is_Some (state_flags r id)) (take n (drop cell (contents c))) ∧
    total = non_empty + tally (non_air r) (take n (drop cell (contents c)))).
Proof.
  intros Hinv. revert cell non_empty. induction n as [|n IH]; intros cell non_empty; cbn [count_cells].
  { apply yields_ok. rewrite take_0, tally_nil. split_and!; [by left|constructor|lia]. }
  rewrite (container_get_spec c cell Hinv). destruct (contents c !! cell) as [v|] eqn:Ev; mstep; [|exact I].
  ystep. intros f Hf. eapply yields_weaken; [apply IH|]. intros total (Hl&Hall&->).
  rewrite (drop_S _ v cell) by done. rewrite firstn_cons, tally_cons. apply lookup_lt_Some in Ev.
  split; [right; lia|]. split; [constructor; [by eexists|done]|]. unfold non_air at 2. rewrite Hf. destruct (is_air f); cbn [negb]; lia.
Qed.

Lemma flags_range id : is_Some (state_flags r id) → 0 ≤ id → id < count r.
Proof.
  intros [f Hf] Hid. unfold state_flags in Hf. destruct (rg_state_flags r !! Z.to_nat id) as [b|] eqn:E; [|done].
  apply lookup_lt_Some in E. destruct (rk_count r Hr) as [_ Hl]. unfold zlen in Hl. lia.
Qed.

(** A source while its sections are added: those of [added] are there. *)
Record adding (added : list (option Section_)) (s : HeightmapSource) : Prop := {
  ad_registry : hs_registries s = r;
  ad_context : hs_context s = {| hc_height := h; hc_registry := rg_manifest_sha256 r; hc_configuration := rg_configuration_sha256 r |};
  ad_sections : hs_sections s = added ++ replicate (MAX_SECTIONS - length added) None;
  ad_cells v : Some v ∈ added → cells_ok r v;
  ad_highest : min_section h ≤ hs_highest s ≤ min_section h + Z.max 0 (zlen added - 1);
  ad_empty i v : added !! i = Some (Some v) → non_empty_blocks (counts v) ≠ 0 → min_section h + Z.of_nat i ≤ hs_highest s;
}.

Lemma add_sections_ok added sections s : adding added s → zlen added + zlen sections = section_count h →
  (∀ v, Some v ∈ sections → inv (blocks v)) →
  yields (add_sections h (length added) sections s) (adding (added ++ sections)).
Proof.
  revert added s. induction sections as [|[v|] sections IH]; intros added s Had Hlen Hty; cbn [add_sections].
  - rewrite app_nil_r. by apply yields_ok.
  - pose proof Had as [Hreg Hctx Hsec Hcells Hhigh Hemp]. rewrite Hreg.
    ystep; [apply count_cells_ok, Hty; by left|]. intros total ([?|Hl]&Hall&->); [done|]. ystep. intros Ht%Z.eqb_eq.
    assert (Hinv : inv (blocks v)) by (apply Hty; by left). pose proof (length_contents _ Hinv) as Hcl.
    assert (length (contents (blocks v)) = 4096%nat) as Hfull.
    { rewrite Hcl in *. destruct (kind (blocks v)); rewrite ?kind_len_blocks, ?kind_len_biomes in *; [done|lia]. }
    rewrite drop_0, take_ge in Hall, Ht |- * by lia.
    assert (Hlt : (length added < MAX_SECTIONS)%nat) by (destruct Hh as [[? ?] ?]; unfold zlen, section_count in Hlen; cbn [length] in Hlen; unfold MAX_SECTIONS; lia).
    assert (Hput : hs_sections s !! length added = Some None).
    { rewrite Hsec, lookup_app_r, Nat.sub_diag by lia. apply lookup_replicate_2. lia. }
    unfold put_section. rewrite Hput. mstep.
    replace (S (length added)) with (length (added ++ [Some v])) by (rewrite length_app; cbn; lia). rewrite (cons_middle (Some v) added sections), app_assoc.
    apply IH; [|unfold zlen in *; rewrite length_app; cbn [length] in *; lia|intros w Hw; apply Hty; by right].
    assert (Hok : cells_ok r v).
    { split; [done|done| |lia]. apply Forall_lookup. intros j id Hj. rewrite Forall_lookup in Hall. pose proof (contents_valid _ Hinv) as Hv. rewrite Forall_lookup in Hv.
      destruct (Hv j id Hj). split; [done|]. apply flags_range; [by eapply Hall|done]. }
    assert (Hz : zlen (added ++ [Some v]) = zlen added + 1) by (unfold zlen; rewrite length_app; cbn; lia).
    assert (0 ≤ zlen added) by (unfold zlen; lia).
    split; cbn [hs_registries hs_context hs_sections hs_highest]; [done|done| | | |].
    + rewrite Hsec, length_app. cbn [length]. replace (MAX_SECTIONS - length added)%nat with (S (MAX_SECTIONS - (length added + 1))) by lia.
      cbn [replicate]. rewrite insert_app_r_alt, Nat.sub_diag by lia. cbn [insert list_insert]. by rewrite <- app_assoc.
    + intros w [Hw|Hw%list_elem_of_singleton]%elem_of_app; [by apply Hcells|]. by injection Hw as ->.
    + rewrite Hz. destruct (_ =? 0); cbn [negb]; unfold zlen in *; lia.
    + intros j w Hj Hne. destruct (decide (j < length added)%nat).
      * rewrite lookup_app_l in Hj by done. specialize (Hemp j w Hj Hne). destruct (_ =? 0); cbn [negb]; lia.
      * rewrite lookup_app_r in Hj by lia. destruct (j - length added)%nat as [|q] eqn:Ej; [|done]. injection Hj as <-. rewrite <- Ht in Hne.
        destruct (Z.eqb_spec (0 + tally (non_air r) (contents (blocks v))) 0); [lia|]. cbn [negb]. lia.
  - replace (S (length added)) with (length (added ++ [None (A := Section_)])) by (rewrite length_app; cbn; lia). rewrite (cons_middle None added sections), app_assoc.
    assert (Hlt : (length added < MAX_SECTIONS)%nat) by (destruct Hh as [[? ?] ?]; unfold zlen, section_count in Hlen; cbn [length] in Hlen; unfold MAX_SECTIONS; lia).
    apply IH; [|unfold zlen in *; rewrite length_app; cbn [length] in *; lia|intros w Hw; apply Hty; by right].
    destruct Had as [Hreg Hctx Hsec Hcells Hhigh Hemp]. split; [done|done| | | |].
    + rewrite Hsec, length_app. cbn [length]. replace (MAX_SECTIONS - length added)%nat with (S (MAX_SECTIONS - (length added + 1))) by lia.
      cbn [replicate]. by rewrite <- app_assoc.
    + intros w [Hw|Hw%list_elem_of_singleton]%elem_of_app; [by apply Hcells|done].
    + unfold zlen in *. rewrite length_app. cbn [length]. lia.
    + intros j w Hj Hne. destruct (decide (j < length added)%nat).
      * rewrite lookup_app_l in Hj by done. by apply (Hemp j w Hj Hne).
      * rewrite lookup_app_r in Hj by lia. destruct (j - length added)%nat as [|q]; [done|]. by destruct q.
Qed.

(** A source built from sections can be primed on, and holds them. *)
Lemma source_from_sections_ok sections : (∀ v, Some v ∈ sections → inv (blocks v)) →
  yields (source_from_sections r h sections) (λ s, hsource_ok s ∧ hs_registries s = r ∧ hs_height s = h ∧
    hs_context s = {| hc_height := h; hc_registry := rg_manifest_sha256 r; hc_configuration := rg_configuration_sha256 r |} ∧
    hs_sections s = sections ++ replicate (MAX_SECTIONS - length sections) None).
Proof.
  intros Hty. unfold source_from_sections. destruct (Z.eqb_spec (zlen sections) (section_count h)) as [Hlen|]; cbn [negb]; [|exact I].
  eapply yields_weaken; [apply (add_sections_ok [] sections)|]; [|done|done|].
  - split; cbn; [done|done|done|by intros v ?%not_elem_of_nil|lia|by intros []].
  - intros s [Hreg Hctx Hsec Hcells Hhigh Hemp]. cbn [app] in *. destruct Hh as [[? ?] ?].
    assert (Hheight : hs_height s = h) by (unfold hs_height; by rewrite Hctx).
    assert (Hlow : ∀ i v, hs_sections s !! i = Some (Some v) → sections !! i = Some (Some v)).
    { intros i v Hi. rewrite Hsec in Hi. destruct (decide (i < length sections)%nat); [by rewrite lookup_app_l in Hi by done|].
      rewrite lookup_app_r in Hi by lia. by apply lookup_replicate in Hi as [? _]. }
    split; [|done]. split; rewrite ?Hreg, ?Hheight; [done|done| | | |].
    + rewrite Hsec, length_app, length_replicate. unfold zlen, section_count, MAX_SECTIONS in *. lia.
    + intros i v Hi%Hlow. apply Hcells. by eapply list_elem_of_lookup_2.
    + unfold section_count in Hlen. lia.
    + intros i v Hi%Hlow. by apply Hemp.
Qed.
End source.

(** ** A lamp is taken away *)

Definition open_blocks : PalettedContainer.
Proof.
  let r := eval vm_compute in (Container.set (blocks (lamp_section small_registry)) 3969 0 65536) in
  match r with Ok (_, ?c) => exact c end.
Defined.
Definition open_section : Section_ :=
  {| counts := {| non_empty_blocks := 4095; fluid_blocks := 0 |}; blocks := open_blocks; biomes := biomes (lamp_section small_registry) |}.
Definition column_sections (v : Section_) : list (option Section_) := [None; None; None; None; Some v; None; None; None].
Definition full_source : HeightmapSource.
Proof.
  let r := eval vm_compute in (source_from_sections small_registry lamp_height (column_sections (lamp_section small_registry))) in
  match r with Ok ?s => exact s end.
Defined.
Definition open_source : HeightmapSource.
Proof.
  let r := eval vm_compute in (source_from_sections small_registry lamp_height (column_sections open_section)) in
  match r with Ok ?s => exact s end.
Defined.

Lemma open_updated : updated (blocks (lamp_section small_registry)) 3969 0 6 open_blocks.
Proof.
  pose proof (set_fuel_spec (blocks (lamp_section small_registry)) 3969 0 65536 (proj1 (va_blocks _ _ lamp_section_valid)) ltac:(lia)) as Hset.
  assert (E : Container.set (blocks (lamp_section small_registry)) 3969 0 65536 = Ok (6, open_blocks)) by (vm_compute; reflexivity).
  unfold Container.set in E. rewrite E in Hset. apply Hset.
Qed.

Lemma column_source_ok v s : source_from_sections small_registry lamp_height (column_sections v) = Ok s → inv (blocks v) →
  hsource_ok s ∧ hs_sections s = column_sections v ++ replicate 248 None.
Proof.
  intros E Hv. assert (Hty : ∀ w, Some w ∈ column_sections v → inv (blocks w)).
  { intros w Hin. unfold column_sections in Hin. set_unfold. destruct_or!; simplify_eq. done. }
  destruct (yields_is_ok _ _ _ (source_from_sections_ok small_registry lamp_height small_ok lamp_height_ok (column_sections v) Hty) E) as (?&_&_&_&?). by split.
Qed.

Lemma full_source_ok : hsource_ok full_source.
Proof. apply (column_source_ok (lamp_section small_registry)); [vm_compute; reflexivity|apply lamp_section_valid]. Qed.
Lemma open_source_ok : hsource_ok open_source.
Proof. apply (column_source_ok open_section); [vm_compute; reflexivity|apply open_updated]. Qed.

Lemma open_states x y z : 0 ≤ x < 16 → 0 ≤ z < 16 → hs_min_y full_source ≤ y < hs_max_y full_source → (x, y, z) ≠ (1, 15, 8) →
  hs_state open_source x y z = hs_state full_source x y z.
Proof.
  intros Hx Hz Hy Hne. unfold hs_min_y, hs_max_y in Hy. change (hs_height full_source) with lamp_height in Hy. cbn [lamp_height min_section max_section] in Hy.
  unfold hs_state. change (hs_height open_source) with lamp_height. change (hs_height full_source) with lamp_height. cbn [lamp_height min_section].
  change (hs_sections open_source) with (column_sections open_section ++ replicate 248 None).
  change (hs_sections full_source) with (column_sections (lamp_section small_registry) ++ replicate 248 None).
  change (hs_registries open_source) with small_registry. change (hs_registries full_source) with small_registry.
  assert (-4 ≤ y / 16 < 4) by (split; [apply Z.div_le_lower_bound; lia|apply Z.div_lt_upper_bound; lia]).
  destruct (Z.leb_spec 0 (y / 16 - -4)); [|lia]. destruct (decide (y / 16 = 0)) as [Ey|].
  - rewrite Ey. change (Z.to_nat (0 - -4)) with 4%nat. cbn [app column_sections lookup list_lookup]. mstep.
    cbn [open_section lamp_section counts non_empty_blocks blocks]. change (4095 =? 0) with false. change (4096 =? 0) with false. cbv iota.
    pose proof open_updated as (_&Hinv&Hcont&_). rewrite (container_get_spec _ _ Hinv), Hcont.
    rewrite (container_get_spec (blocks (lamp_section small_registry)) _ (proj1 (va_blocks _ _ lamp_section_valid))).
    rewrite list_lookup_insert_ne; [done|]. intros Hidx. apply Hne. pose proof (Z.mod_pos_bound y 16 ltac:(lia)). pose proof (Z.div_mod y 16 ltac:(lia)).
    assert (x = 1 ∧ z = 8 ∧ y = 15) as (->&->&->) by lia. done.
  - assert (y / 16 = -4 ∨ y / 16 = -3 ∨ y / 16 = -2 ∨ y / 16 = -1 ∨ y / 16 = 1 ∨ y / 16 = 2 ∨ y / 16 = 3) as Hcase by lia.
    destruct_or!; rewrite Hcase; reflexivity.
Qed.

Definition surface_map : Heightmap.
Proof. let r := eval vm_compute in (heightmap_new WorldSurface full_source 4096) in match r with Ok ?m => exact m end. Defined.

Example surface_update :
  (m ← prime surface_map full_source; '(changed, m') ← update m 1 15 8 0 open_source; a ← first_available m 1 8; b ← first_available m' 1 8; Ok (changed, a, b)) = Ok (true, 16, 15).
Proof. vm_compute. reflexivity. Qed.

Lemma heightmap_update_exact_witness : ∃ m m' changed, prime surface_map full_source = Ok m ∧ prime surface_map open_source = Ok m' ∧
  update m 1 15 8 0 open_source = Ok (changed, m') ∧ (changed = false ↔ m' = m) ∧
  ∀ x' z', 0 ≤ x' < 16 → 0 ≤ z' < 16 → ∃ i e, column x' z' = Ok i ∧ column_edge open_source WorldSurface i e ∧ first_available m' x' z' = Ok e.
Proof.
  apply (heightmap_update_exact full_source open_source WorldSurface 4096 surface_map 1 15 8 0 full_source_ok open_source_ok).
  - reflexivity.
  - reflexivity.
  - vm_compute. reflexivity.
  - vm_compute. reflexivity.
  - lia.
  - lia.
  - vm_compute. split; [discriminate|reflexivity].
  - vm_compute. reflexivity.
  - exact open_states.
Defined.

(** A chunk with one stored map of the right length and one of a wrong length. *)
Definition stored_root : list CompoundEntry :=
  [(text_of "Heightmaps", Compound [(text_of "OCEAN_FLOOR_WG", LongArray [1; 2]); (text_of "WORLD_SURFACE", LongArray (replicate 32 (-1)))])].
Definition stored_maps : HeightmapSet.
Proof. let r := eval vm_compute in (from_stored full_source stored_root Full 4096) in match r with Ok ?h => exact h end. Defined.
Lemma stored_maps_eq : from_stored full_source stored_root Full 4096 = Ok stored_maps.
Proof. vm_compute. reflexivity. Qed.
Lemma heightmap_set_from_stored_witness : from_stored full_source stored_root Full 4096 = Ok stored_maps ∧ set_heap_bytes stored_maps ≤ 4096 ∧
  get_origin stored_maps WorldSurface = Some OriginRestored ∧ get_origin stored_maps OceanFloorWg = Some OriginReprimed ∧
  get_origin stored_maps MotionBlocking = Some MissingPrimed ∧ get_map stored_maps WorldSurfaceWg = None.
Proof.
  pose proof (heightmap_set_from_stored full_source stored_root full_source_ok Full 4096 ltac:(lia)) as Hw.
  rewrite stored_maps_eq in Hw. split; [exact stored_maps_eq|]. split; [exact (proj1 Hw)|]. vm_compute. split; [reflexivity|]. split; [reflexivity|]. split; reflexivity.
Defined.
