(* ===== verification/LightStorage.v ===== *)
(** * Light section storage: definitions (src/world/lighting/storage.rs)

    Layers live in a heap and are named by identifiers: an [Arc] is an
    identifier, its strong count the number of references from the entries, the
    staged copies and the live snapshot bodies, and a layer whose last
    reference goes is dropped and its reservation refunded.  Snapshot bodies
    held by readers are part of the state, one element per handle, so that
    copy-on-write and the isolation of readers are visible.  The atomic ledgers
    are modelled by their sequential effect. *)

From stdpp Require Import gmap list.
From S2P Require Import Prelude.
From S2P Require Import Sorted.
From S2P Require Import View.
From S2P Require Import LightTypes.
From S2P Require Import LightLayer.
From S2P Require Import LightStore.
Local Open Scope Z_scope.
Local Open Scope call_scope.

Record StorageLimits := {
  max_sections : Z; max_columns : Z; max_notifications : Z; metadata_bytes : Z; layer_bytes_limit : Z
}.

Inductive SectionType := SectionEmpty | LightOnly | LightAndData.
#[export] Instance section_type_eq_dec : EqDecision SectionType.
Proof. solve_decision. Defined.

(** [size_of] of the types whose memory is charged. *)
Class StorageLayout := {
  charged_layer_size : Z; section_entry_size : Z; column_size : Z; light_section_size : Z; staged_size : Z;
  snapshot_layer_size : Z; snapshot_top_size : Z; snapshot_size : Z; data_snapshot_size : Z; ledger_size : Z;
  storage_layout_nonneg : 0 ≤ charged_layer_size ∧ 0 ≤ section_entry_size ∧ 0 ≤ column_size ∧ 0 ≤ light_section_size ∧
    0 ≤ staged_size ∧ 0 ≤ snapshot_layer_size ∧ 0 ≤ snapshot_top_size ∧ 0 ≤ snapshot_size ∧ 0 ≤ data_snapshot_size ∧ 0 ≤ ledger_size;
}.
Definition usize_size : Z := 8.

(** ** Memory ledgers (struct Budget) *)

Record MemoryBudget := { b_limit : Z; b_used : Z; b_peak : Z }.

Definition budget_new (limit : Z) : MemoryBudget := {| b_limit := limit; b_used := 0; b_peak := 0 |}.

(** Sequentially the compare-and-exchange succeeds. *)
Definition budget_add (bytes : Z) : call MemoryBudget StorageError () := λ b,
  match checked_add (b_used b) bytes with
  | Some next =>
      if next <=? b_limit b then Ok (Done tt, {| b_limit := b_limit b; b_used := next; b_peak := Z.max (b_peak b) next |})
      else Ok (Failed Budget, b)
  | None => Ok (Failed Budget, b)
  end.
(** Dropping a lease. *)
Definition budget_sub (bytes : Z) (b : MemoryBudget) : MemoryBudget :=
  {| b_limit := b_limit b; b_used := b_used b - bytes; b_peak := b_peak b |}.

(** [.map_err(|_| error)] *)
Definition recast {S E A} (error : E) (m : call S E A) : call S E A := λ s,
  '(r, s) ← m s; Ok (match r with Done a => Done a | Failed _ => Failed error end, s).

Section vector.
Context `{Allocator}.

(** The capacity and the bytes leased. *)
Definition vector (size count : Z) : call MemoryBudget StorageError (Z * Z) :=
  match checked_mul count size with
  | None => call_fail MetadataLimit
  | Some requested =>
      let+ _ := recast MetadataLimit (budget_add requested) in
      on_failure
        (match reserve_exact size count with
         | None => call_fail StorageAllocationFailed
         | Some capacity =>
             match checked_mul capacity size with
             | None => call_fail MetadataLimit
             | Some actual =>
                 if requested <? actual
                 then let+ _ := recast MetadataLimit (budget_add (actual - requested)) in call_ret (capacity, actual)
                 else call_ret (capacity, requested)
             end
         end)
        (budget_sub requested)
  end.
End vector.

(** ** State *)

Definition LayerId : Type := nat.

Record SectionEntry := {
  en_key : LightSection;
  en_state : Z;
  en_updating : option LayerId;
  en_queued : option LayerId;
  en_remove : bool;
}.
Record Column := { co_key : ChunkAddress; co_enabled : bool; co_retain : bool; co_top : option Z }.

(** A snapshot body; its leases are one amount. *)
Record SnapshotData := {
  sd_id : nat;
  sd_kind : LightKind;
  sd_layers : list (LightSection * LayerId);
  sd_layers_capacity : Z;
  sd_tops : list (ChunkAddress * Z);
  sd_tops_capacity : Z;
  sd_lowest : Z;
  sd_leases : Z;
}.
Record DataSnapshotData := {
  dd_id : nat;
  dd_kind : LightKind;
  dd_layers : list (LightSection * LayerId);
  dd_layers_capacity : Z;
  dd_leases : Z;
}.
#[export] Instance snapshot_data_eq_dec : EqDecision SnapshotData.
Proof. solve_decision. Defined.
#[export] Instance data_snapshot_data_eq_dec : EqDecision DataSnapshotData.
Proof. solve_decision. Defined.

(** [st_readers] and [st_data_readers] have one element per snapshot handle
    held outside; [st_stamp] names the storage. *)
Record Storage := {
  st_stamp : nat;
  st_kind : LightKind;
  st_limits : StorageLimits;
  st_entries : list SectionEntry;
  st_columns : list Column;
  st_notifications : list LightSection;
  st_published : list LightSection;
  st_scratch : list LightSection;
  st_staged : list (LightSection * LayerId);
  st_visible : SnapshotData;
  st_lowest : Z;
  st_changed : bool;
  st_inconsistent : bool;
  st_metadata : MemoryBudget;
  st_layers : MemoryBudget;
  st_heap : gmap LayerId DataLayer;
  st_next_layer : LayerId;
  st_next_body : nat;
  st_readers : list SnapshotData;
  st_data_readers : list DataSnapshotData;
}.

Definition with_entries (s : Storage) (l : list SectionEntry) : Storage :=
  {| st_stamp := st_stamp s; st_kind := st_kind s; st_limits := st_limits s; st_entries := l; st_columns := st_columns s;
     st_notifications := st_notifications s; st_published := st_published s; st_scratch := st_scratch s; st_staged := st_staged s;
     st_visible := st_visible s; st_lowest := st_lowest s; st_changed := st_changed s; st_inconsistent := st_inconsistent s;
     st_metadata := st_metadata s; st_layers := st_layers s; st_heap := st_heap s; st_next_layer := st_next_layer s;
     st_next_body := st_next_body s; st_readers := st_readers s; st_data_readers := st_data_readers s |}.
Definition with_columns (s : Storage) (l : list Column) (lowest : Z) : Storage :=
  {| st_stamp := st_stamp s; st_kind := st_kind s; st_limits := st_limits s; st_entries := st_entries s; st_columns := l;
     st_notifications := st_notifications s; st_published := st_published s; st_scratch := st_scratch s; st_staged := st_staged s;
     st_visible := st_visible s; st_lowest := lowest; st_changed := st_changed s; st_inconsistent := st_inconsistent s;
     st_metadata := st_metadata s; st_layers := st_layers s; st_heap := st_heap s; st_next_layer := st_next_layer s;
     st_next_body := st_next_body s; st_readers := st_readers s; st_data_readers := st_data_readers s |}.
Definition with_lists (s : Storage) (notifications published scratch : list LightSection) : Storage :=
  {| st_stamp := st_stamp s; st_kind := st_kind s; st_limits := st_limits s; st_entries := st_entries s; st_columns := st_columns s;
     st_notifications := notifications; st_published := published; st_scratch := scratch; st_staged := st_staged s;
     st_visible := st_visible s; st_lowest := st_lowest s; st_changed := st_changed s; st_inconsistent := st_inconsistent s;
     st_metadata := st_metadata s; st_layers := st_layers s; st_heap := st_heap s; st_next_layer := st_next_layer s;
     st_next_body := st_next_body s; st_readers := st_readers s; st_data_readers := st_data_readers s |}.
Definition with_scratch (s : Storage) (l : list LightSection) : Storage := with_lists s (st_notifications s) (st_published s) l.
Definition with_staged (s : Storage) (l : list (LightSection * LayerId)) : Storage :=
  {| st_stamp := st_stamp s; st_kind := st_kind s; st_limits := st_limits s; st_entries := st_entries s; st_columns := st_columns s;
     st_notifications := st_notifications s; st_published := st_published s; st_scratch := st_scratch s; st_staged := l;
     st_visible := st_visible s; st_lowest := st_lowest s; st_changed := st_changed s; st_inconsistent := st_inconsistent s;
     st_metadata := st_metadata s; st_layers := st_layers s; st_heap := st_heap s; st_next_layer := st_next_layer s;
     st_next_body := st_next_body s; st_readers := st_readers s; st_data_readers := st_data_readers s |}.
Definition with_flags (s : Storage) (changed inconsistent : bool) : Storage :=
  {| st_stamp := st_stamp s; st_kind := st_kind s; st_limits := st_limits s; st_entries := st_entries s; st_columns := st_columns s;
     st_notifications := st_notifications s; st_published := st_published s; st_scratch := st_scratch s; st_staged := st_staged s;
     st_visible := st_visible s; st_lowest := st_lowest s; st_changed := changed; st_inconsistent := inconsistent;
     st_metadata := st_metadata s; st_layers := st_layers s; st_heap := st_heap s; st_next_layer := st_next_layer s;
     st_next_body := st_next_body s; st_readers := st_readers s; st_data_readers := st_data_readers s |}.
Definition with_memory (s : Storage) (metadata layers : MemoryBudget) (heap : gmap LayerId DataLayer) (next : LayerId) : Storage :=
  {| st_stamp := st_stamp s; st_kind := st_kind s; st_limits := st_limits s; st_entries := st_entries s; st_columns := st_columns s;
     st_notifications := st_notifications s; st_published := st_published s; st_scratch := st_scratch s; st_staged := st_staged s;
     st_visible := st_visible s; st_lowest := st_lowest s; st_changed := st_changed s; st_inconsistent := st_inconsistent s;
     st_metadata := metadata; st_layers := layers; st_heap := heap; st_next_layer := next;
     st_next_body := st_next_body s; st_readers := st_readers s; st_data_readers := st_data_readers s |}.
Definition with_bodies (s : Storage) (visible : SnapshotData) (next : nat) (readers : list SnapshotData) (data : list DataSnapshotData) : Storage :=
  {| st_stamp := st_stamp s; st_kind := st_kind s; st_limits := st_limits s; st_entries := st_entries s; st_columns := st_columns s;
     st_notifications := st_notifications s; st_published := st_published s; st_scratch := st_scratch s; st_staged := st_staged s;
     st_visible := visible; st_lowest := st_lowest s; st_changed := st_changed s; st_inconsistent := st_inconsistent s;
     st_metadata := st_metadata s; st_layers := st_layers s; st_heap := st_heap s; st_next_layer := st_next_layer s;
     st_next_body := next; st_readers := readers; st_data_readers := data |}.

(** ** References *)

Definition entry_refs (e : SectionEntry) : list LayerId := option_list (en_updating e) ++ option_list (en_queued e).
Definition live_bodies (s : Storage) : list SnapshotData := remove_dups (st_visible s :: st_readers s).
Definition live_data_bodies (s : Storage) : list DataSnapshotData := remove_dups (st_data_readers s).
Definition refs (s : Storage) : list LayerId :=
  (st_entries s ≫= entry_refs) ++ (st_staged s).*2 ++
  (live_bodies s ≫= λ b, (sd_layers b).*2) ++ (live_data_bodies s ≫= λ b, (dd_layers b).*2).

Definition occurrences (id : LayerId) (l : list LayerId) : nat := length (filter (λ j, j = id) l).
(** [Arc::strong_count] *)
Definition strong_count (s : Storage) (id : LayerId) : nat := occurrences id (refs s).

Definition value_of (s : Storage) (id : LayerId) : DataLayer := default (layer_uniform 0) (st_heap s !! id).

Section operations.
Context `{Allocator, StorageLayout}.
Implicit Types (s : Storage) (key : LightSection).

Definition LAYER_RESERVATION_BYTES : Z := LAYER_BYTES + charged_layer_size + 2 * usize_size.

(** Layers without a reference are dropped. *)
Definition collect s : Storage :=
  let live := filter (λ p, p.1 ∈ refs s) (st_heap s) in
  let freed := Z.of_nat (size (st_heap s)) - Z.of_nat (size live) in
  with_memory s (st_metadata s) (budget_sub (LAYER_RESERVATION_BYTES * freed) (st_layers s)) live (st_next_layer s).

Definition on_metadata {A} (m : call MemoryBudget StorageError A) : call Storage StorageError A := λ s,
  '(r, b) ← m (st_metadata s); Ok (r, with_memory s b (st_layers s) (st_heap s) (st_next_layer s)).
Definition on_layers {A} (m : call MemoryBudget StorageError A) : call Storage StorageError A := λ s,
  '(r, b) ← m (st_layers s); Ok (r, with_memory s (st_metadata s) b (st_heap s) (st_next_layer s)).
Definition release_metadata (bytes : Z) s : Storage :=
  with_memory s (budget_sub bytes (st_metadata s)) (st_layers s) (st_heap s) (st_next_layer s).
Definition release_layer s : Storage :=
  with_memory s (st_metadata s) (budget_sub LAYER_RESERVATION_BYTES (st_layers s)) (st_heap s) (st_next_layer s).

(** [Arc::new(ChargedLayer { value, _lease })] after the lease. *)
Definition new_arc (value : DataLayer) : call Storage StorageError LayerId := λ s,
  Ok (Done (st_next_layer s), with_memory s (st_metadata s) (st_layers s) (<[st_next_layer s := value]> (st_heap s)) (S (st_next_layer s))).
(** The layer under a lease, which is returned when there is none. *)
Definition leased_layer (value : outcome StorageError DataLayer) : call Storage StorageError LayerId :=
  let+ _ := on_layers (budget_add LAYER_RESERVATION_BYTES) in
  on_failure (let+ value := query (λ _, value) in new_arc value) release_layer.

(** ** Keys and lookups *)

Definition section_of (block : LightBlock) : LightSection :=
  {| ls_x := lb_x block `div` 16; ls_y := lb_y block `div` 16; ls_z := lb_z block `div` 16 |}.
Definition local (v : Z) : Z := v `mod` 16.
Definition sort_key key : Z * Z * Z := (ls_x key, ls_z key, ls_y key).
Definition column_key (c : ChunkAddress) : Z * Z := (View.x c, View.z c).

Definition find_section {A} (key_of : A → LightSection) (l : list A) key : nat + nat :=
  binary_search (λ a, key_cmp (sort_key (key_of a)) (sort_key key)) l.
Definition find_column {A} (key_of : A → ChunkAddress) (l : list A) (c : ChunkAddress) : nat + nat :=
  binary_search (λ a, key_cmp (column_key (key_of a)) (column_key c)) l.
(** The element a search found. *)
Definition found {A} (l : list A) (r : nat + nat) : option A := match r with inl i => l !! i | inr _ => None end.

Definition entry_index s key : nat + nat := find_section en_key (st_entries s) key.
Definition column_index s (c : ChunkAddress) : nat + nat := find_column co_key (st_columns s) c.
Definition entry_at s key : option SectionEntry := found (st_entries s) (entry_index s key).
Definition column_at s (c : ChunkAddress) : option Column := found (st_columns s) (column_index s c).
Definition snapshot_index (values : list (LightSection * LayerId)) key : nat + nat := find_section fst values key.

(** [values.insert(i, a)] *)
Definition vec_insert {A} (i : nat) (a : A) (l : list A) : list A := take i l ++ a :: drop i l.

(** Offsets that stay in [i32], below the top section. *)
Definition offset key (x y z : Z) : outcome StorageError LightSection :=
  x ← ok_or (checked_i32 (ls_x key + x)) InvalidCoordinate;
  y ← ok_or (y ← checked_i32 (ls_y key + y); if y <? i32_max then Some y else None) InvalidCoordinate;
  z ← ok_or (checked_i32 (ls_z key + z)) InvalidCoordinate;
  Ok {| ls_x := x; ls_y := y; ls_z := z |}.

(** [.expect("local coordinates") as u8] *)
Definition nibble (layer : DataLayer) (block : LightBlock) : outcome False Z :=
  match layer_get layer (local (lb_x block)) (local (lb_y block)) (local (lb_z block)) with
  | Ok v => Ok (u_wrap 8 v)
  | _ => Panic
  end.
(** The same column position at the bottom of a section. *)
Definition at_bottom (block : LightBlock) : LightBlock := {| lb_x := lb_x block; lb_y := 0; lb_z := lb_z block |}.

Definition validate_light (layer : DataLayer) : outcome StorageError () :=
  v ← map_err Layer (layer_get layer 0 0 0);
  if negb ((0 <=? v) && (v <=? 15)) then Err InvalidLightValue else Ok tt.

Definition copy_layer (layer : DataLayer) (repeat : bool) : call Storage StorageError LayerId :=
  leased_layer
    (value ← map_err Layer (if repeat then repeat_first_layer layer LAYER_BYTES else try_copy layer LAYER_BYTES);
     _ ← validate_light value; Ok value).

(** ** Snapshots *)

(** A control block of an [Arc] and a ledger behind one. *)
Definition ledger_overhead : Z := ledger_size + 2 * usize_size.
Definition snapshot_backing_bytes (layer_capacity top_capacity : Z) : outcome StorageError Z :=
  ok_or
    (bytes ← checked_add snapshot_size (2 * usize_size); bytes ← checked_add bytes ledger_overhead;
     layers ← checked_mul layer_capacity snapshot_layer_size; bytes ← checked_add bytes layers;
     tops ← checked_mul top_capacity snapshot_top_size; checked_add bytes tops) MetadataLimit.
Definition data_snapshot_backing_bytes (capacity : Z) : outcome StorageError Z :=
  ok_or
    (bytes ← checked_add data_snapshot_size (2 * usize_size); bytes ← checked_add bytes ledger_overhead;
     layers ← checked_mul capacity snapshot_layer_size; checked_add bytes layers) MetadataLimit.
Definition layer_backing_bytes (payload_capacity : Z) : outcome StorageError Z :=
  ok_or (bytes ← checked_add (Z.max payload_capacity LAYER_BYTES) (LAYER_RESERVATION_BYTES - LAYER_BYTES);
         checked_add bytes ledger_overhead) MetadataLimit.
Fixpoint retained_layers (h : LayerId → DataLayer) (layers : list (LightSection * LayerId)) (bytes : Z) : outcome StorageError Z :=
  match layers with
  | [] => Ok bytes
  | (_, id) :: layers =>
      more ← layer_backing_bytes (heap_bytes (h id));
      bytes ← ok_or (checked_add bytes more) MetadataLimit;
      retained_layers h layers bytes
  end.

(** [h] is the value of each layer. *)
Definition snapshot_retained_bytes (h : LayerId → DataLayer) (sn : SnapshotData) : outcome StorageError Z :=
  bytes ← snapshot_backing_bytes (sd_layers_capacity sn) (sd_tops_capacity sn); retained_layers h (sd_layers sn) bytes.
Definition data_snapshot_retained_bytes (h : LayerId → DataLayer) (sn : DataSnapshotData) : outcome StorageError Z :=
  bytes ← data_snapshot_backing_bytes (dd_layers_capacity sn); retained_layers h (dd_layers sn) bytes.

Definition snapshot_layer (h : LayerId → DataLayer) (sn : SnapshotData) key : option DataLayer :=
  match found (sd_layers sn) (snapshot_index (sd_layers sn) key) with Some (_, id) => Some (h id) | None => None end.
Definition snapshot_sections (sn : SnapshotData) : list LightSection := (sd_layers sn).*1.
Definition data_snapshot_layer (h : LayerId → DataLayer) (sn : DataSnapshotData) key : option DataLayer :=
  match found (dd_layers sn) (snapshot_index (dd_layers sn) key) with Some (_, id) => Some (h id) | None => None end.
Definition data_snapshot_sections (sn : DataSnapshotData) : list LightSection := (dd_layers sn).*1.

Definition snapshot_get_level (h : LayerId → DataLayer) (sn : SnapshotData) (block : LightBlock) : outcome False Z :=
  let key := section_of block in
  match sd_kind sn with
  | KBlock => match snapshot_layer h sn key with Some l => nibble l block | None => Ok 0 end
  | KSky =>
      let top := match found (sd_tops sn) (find_column fst (sd_tops sn) (section_column key)) with
                 | Some (_, top) => top
                 | None => sd_lowest sn
                 end in
      if (top =? sd_lowest sn) || (top <=? ls_y key) then Ok 15
      else
        match snapshot_index (sd_layers sn) key with
        | inl i => '(_, id) ← unwrap (sd_layers sn !! i); nibble (h id) block
        | inr i =>
            match sd_layers sn !! i with
            | Some (next, id) =>
                if decide (section_column next = section_column key) then nibble (h id) (at_bottom block) else Ok 15
            | None => Ok 15
            end
        end
  end.

(** ** Reading the storage *)

Definition st_storing_light s key : bool := match entry_at s key with Some e => bool_decide (is_Some (en_updating e)) | None => false end.
Definition layer s key (updating : bool) : option DataLayer :=
  if updating then e ← entry_at s key; id ← en_updating e; Some (value_of s id)
  else snapshot_layer (value_of s) (st_visible s) key.
Definition data_layer_data s key : option DataLayer :=
  match (e ← entry_at s key; en_queued e) with
  | Some id => Some (value_of s id)
  | None => snapshot_layer (value_of s) (st_visible s) key
  end.

Definition entry_state s key : Z := match entry_at s key with Some e => en_state e | None => 0 end.
Definition section_type s key : SectionType :=
  let n := entry_state s key in
  if n =? 0 then SectionEmpty else if negb (Z.land n 32 =? 0) then LightAndData else LightOnly.
Definition neighbor_count s key : Z := Z.land (entry_state s key) 31.
Definition st_light_enabled s (c : ChunkAddress) : bool := match column_at s c with Some col => co_enabled col | None => false end.
Definition top_section_y s (c : ChunkAddress) : Z := default (st_lowest s) (col ← column_at s c; co_top col).
Definition bottom_section_y s : Z := st_lowest s.
Definition has_light_data_at_or_below s (y : Z) : bool := st_lowest s <=? y.
Definition is_above_data s key : bool :=
  let top := top_section_y s (section_column key) in (top =? st_lowest s) || (top <=? ls_y key).

Definition st_stored_level s (block : LightBlock) : outcome False (option Z) :=
  match layer s (section_of block) true with
  | Some l => v ← nibble l block; Ok (Some v)
  | None => Ok None
  end.

Definition next_above_entry s key : option SectionEntry :=
  let start := match entry_index s key with inl i => S i | inr i => i end in
  let fix scan l :=
    match l with
    | [] => None
    | e :: l =>
        if decide (section_column (en_key e) = section_column key)
        then if bool_decide (is_Some (en_updating e)) then Some e else scan l
        else None
    end in
  scan (drop start (st_entries s)).
Definition next_above s key : option DataLayer := e ← next_above_entry s key; id ← en_updating e; Some (value_of s id).

Definition get_level s (block : LightBlock) (updating : bool) : outcome False Z :=
  if negb updating then snapshot_get_level (value_of s) (st_visible s) block
  else
    let key := section_of block in
    match st_kind s with
    | KBlock => v ← st_stored_level s block; Ok (default 0 v)
    | KSky =>
        let top := top_section_y s (section_column key) in
        if (top =? st_lowest s) || (top <=? ls_y key)
        then Ok (if st_light_enabled s (section_column key) then 15 else 0)
        else
          match layer s key true with
          | Some l => nibble l block
          | None => match next_above s key with Some l => nibble l (at_bottom block) | None => Ok 15 end
          end
    end.

Definition affected_sections s : list LightSection := st_notifications s.
Definition st_has_inconsistencies s : bool := st_inconsistent s.
Definition has_updates s : bool := st_changed s || st_inconsistent s || negb (bool_decide (st_notifications s = [])).
Definition published_sections s : list LightSection := st_published s.
Definition clear_published_notifications s : Storage := with_lists s (st_notifications s) [] (st_scratch s).

Record StorageStats := { stat_sections : nat; stat_queued : nat; stat_notifications : nat; stat_metadata_bytes : Z; stat_reserved : Z; stat_peak : Z }.
Definition stats s : StorageStats :=
  {| stat_sections := length (filter (λ e, is_Some (en_updating e)) (st_entries s));
     stat_queued := length (filter (λ e, is_Some (en_queued e)) (st_entries s));
     stat_notifications := length (st_notifications s);
     stat_metadata_bytes := b_used (st_metadata s);
     stat_reserved := b_used (st_layers s);
     stat_peak := b_peak (st_layers s) |}.

(** ** Construction *)

Definition body_bytes : Z := snapshot_size + 2 * usize_size.
Definition storage_new (stamp : nat) (kind : LightKind) (limits : StorageLimits) : outcome StorageError Storage :=
  let build : call MemoryBudget StorageError ((Z * Z) * (Z * Z)) :=
    let+ _ := vector section_entry_size (max_sections limits) in
    let+ _ := vector column_size (max_columns limits) in
    let+ _ := vector light_section_size (max_notifications limits) in
    let+ _ := vector light_section_size (max_notifications limits) in
    let+ _ := vector light_section_size (max_notifications limits) in
    let+ _ := vector staged_size (max_sections limits) in
    let+ layers := vector snapshot_layer_size 0 in
    let+ tops := vector snapshot_top_size 0 in
    let+ _ := recast MetadataLimit (budget_add body_bytes) in
    call_ret (layers, tops) in
  '(r, metadata) ← lift (build (budget_new (metadata_bytes limits)));
  match r with
  | Failed e => Err e
  | Done ((layers_capacity, layers_lease), (tops_capacity, tops_lease)) =>
      Ok {| st_stamp := stamp; st_kind := kind; st_limits := limits; st_entries := []; st_columns := []; st_notifications := [];
            st_published := []; st_scratch := []; st_staged := [];
            st_visible := {| sd_id := 0%nat; sd_kind := kind; sd_layers := []; sd_layers_capacity := layers_capacity; sd_tops := [];
                             sd_tops_capacity := tops_capacity; sd_lowest := i32_max; sd_leases := layers_lease + tops_lease + body_bytes |};
            st_lowest := i32_max; st_changed := false; st_inconsistent := false; st_metadata := metadata;
            st_layers := budget_new (layer_bytes_limit limits); st_heap := ∅; st_next_layer := 0%nat; st_next_body := 1%nat;
            st_readers := []; st_data_readers := [] |}
  end.
End operations.
