(* ===== verification/LightStorageOps.v ===== *)
(** * Light section storage: operations (src/world/lighting/storage.rs)

    Queued data, section status transitions, writes with copy-on-write,
    notifications, the settling of queued and removed sections, and publication.
    A call that fails leaves the state the code leaves: only scratch space and
    layers already copied for a write may differ. *)

From stdpp Require Import gmap list.
From S2P Require Import Prelude.
From S2P Require Import Sorted.
From S2P Require Import View.
From S2P Require Import LightTypes.
From S2P Require Import LightLayer.
From S2P Require Import LightStore.
From S2P Require Import LightStorage.
Local Open Scope Z_scope.
Local Open Scope call_scope.

Record Transition := { tr_key : LightSection; tr_state : Z; tr_initialize : bool; tr_layer : option LayerId }.

(** A write in progress: the entry and whether its queued alias was taken. *)
Record LayerWrite := { lw_index : nat; lw_queued_alias : bool }.

Definition set_updating (e : SectionEntry) (u q : option LayerId) : SectionEntry :=
  {| en_key := en_key e; en_state := en_state e; en_updating := u; en_queued := q; en_remove := en_remove e |}.
Definition set_state (e : SectionEntry) (state : Z) (remove : bool) (u : option LayerId) : SectionEntry :=
  {| en_key := en_key e; en_state := state; en_updating := u; en_queued := en_queued e; en_remove := remove |}.
Definition set_top (c : Column) (top : option Z) : Column :=
  {| co_key := co_key c; co_enabled := co_enabled c; co_retain := co_retain c; co_top := top |}.

(** [remove] of one handle. *)
Definition remove_one {A} `{EqDecision A} (a : A) (l : list A) : list A :=
  match list_find (eq a) l with Some (i, _) => delete i l | None => l end.

Section operations.
Context `{Allocator, StorageLayout}.
Implicit Types (s : Storage) (key : LightSection).

Definition entry_kept (e : SectionEntry) : bool :=
  negb (en_state e =? 0) || bool_decide (is_Some (en_updating e)) || bool_decide (is_Some (en_queued e)) || en_remove e.
Definition prune_entries s : Storage := with_entries s (filter (λ e, entry_kept e = true) (st_entries s)).
Definition column_kept (c : Column) : bool := co_enabled c || co_retain c || bool_decide (is_Some (co_top c)).
Definition prune_columns s : Storage := with_columns s (filter (λ c, column_kept c = true) (st_columns s)) (st_lowest s).

(** The index of the column, which is inserted when it is new. *)
Definition insert_column (key : ChunkAddress) : call Storage StorageError nat := λ s,
  match column_index s key with
  | inl i => Ok (Done i, s)
  | inr i =>
      if zlen (st_columns s) =? max_columns (st_limits s) then Ok (Failed ColumnLimit, s)
      else
        let col := {| co_key := key; co_enabled := false; co_retain := false; co_top := None |} in
        Ok (Done i, with_columns s (vec_insert i col (st_columns s)) (st_lowest s))
  end.
Definition modify_column (i : nat) (f : Column → Column) s : outcome False Storage :=
  col ← unwrap (st_columns s !! i); Ok (with_columns s (<[i := f col]> (st_columns s)) (st_lowest s)).
Definition modify_entry (i : nat) (f : SectionEntry → SectionEntry) s : outcome False Storage :=
  e ← unwrap (st_entries s !! i); Ok (with_entries s (<[i := f e]> (st_entries s))).

Definition set_column_flag (set : Column → Column) (key : ChunkAddress) (value : bool) : call Storage StorageError () := λ s,
  match column_index s key with
  | inl i => update (λ s, s ← modify_column i set s; Ok (prune_columns s)) s
  | inr _ => if value then (let+ i := insert_column key in update (modify_column i set)) s else Ok (Done tt, s)
  end.
Definition st_set_enabled (key : ChunkAddress) (enabled : bool) : call Storage StorageError () :=
  set_column_flag (λ c, {| co_key := co_key c; co_enabled := enabled; co_retain := co_retain c; co_top := co_top c |}) key enabled.
Definition retain_data (key : ChunkAddress) (retain : bool) : call Storage StorageError () :=
  set_column_flag (λ c, {| co_key := co_key c; co_enabled := co_enabled c; co_retain := retain; co_top := co_top c |}) key retain.

(** ** Queued data *)

Definition preflight_entry s key (needed : bool) : outcome StorageError () :=
  if ls_y key =? i32_max then Err InvalidCoordinate
  else
    match entry_index s key with
    | inr _ => if needed && (zlen (st_entries s) =? max_sections (st_limits s)) then Err SectionLimit else Ok tt
    | inl _ => Ok tt
    end.

Definition new_entry key (queued : option LayerId) : SectionEntry :=
  {| en_key := key; en_state := 0; en_updating := None; en_queued := queued; en_remove := false |}.
Definition queue_owned key (value : option LayerId) s : outcome False Storage :=
  let s := if bool_decide (is_Some value) then with_flags s (st_changed s) true else s in
  s ← match entry_index s key with
      | inl i => modify_entry i (λ e, set_updating e (en_updating e) value) s
      | inr i =>
          Ok (if bool_decide (is_Some value) then with_entries s (vec_insert i (new_entry key value) (st_entries s)) else s)
      end;
  Ok (collect (prune_entries s)).

Definition queue_data key (data : option DataLayer) : call Storage StorageError () :=
  let+ _ := query (λ s, preflight_entry s key (bool_decide (is_Some data))) in
  match data with
  | Some data => let+ id := copy_layer data false in update (queue_owned key (Some id))
  | None => update (queue_owned key None)
  end.
Definition queue_bytes key (bytes : option (list Z)) : call Storage StorageError () :=
  let+ _ := query (λ s, preflight_entry s key (bool_decide (is_Some bytes))) in
  match bytes with
  | Some bytes =>
      let+ id := leased_layer (map_err Layer (from_bytes bytes LAYER_BYTES)) in update (queue_owned key (Some id))
  | None => update (queue_owned key None)
  end.

(** ** Notifications *)

Definition reset_scratch s : Storage := with_scratch s (st_notifications s).
Definition stage_notification key : call Storage StorageError () := λ s,
  match find_section id (st_scratch s) key with
  | inl _ => Ok (Done tt, s)
  | inr i =>
      if zlen (st_scratch s) =? max_notifications (st_limits s) then Ok (Failed NotificationLimit, s)
      else Ok (Done tt, with_scratch s (vec_insert i key (st_scratch s)))
  end.
Fixpoint stage_all (l : list LightSection) : call Storage StorageError () :=
  match l with [] => call_ret tt | key :: l => let+ _ := stage_notification key in stage_all l end.

(** The 27 offsets of the cube, in loop order. *)
Definition cube : list (Z * Z * Z) := x ← [-1; 0; 1]; y ← [-1; 0; 1]; z ← [-1; 0; 1]; [(x, y, z)].
(** [self.stage_notification(offset(..)?)?] *)
Fixpoint stage_offsets key (offsets : list (Z * Z * Z)) : call Storage StorageError () :=
  match offsets with
  | [] => call_ret tt
  | (x, y, z) :: offsets =>
      let+ neighbor := query (λ _, offset key x y z) in
      let+ _ := stage_notification neighbor in
      stage_offsets key offsets
  end.
Definition stage_neighbors key : call Storage StorageError () := stage_offsets key cube.

Definition shifted (block : LightBlock) (by_ : Z) : outcome StorageError LightBlock :=
  x ← ok_or (checked_i32 (lb_x block + by_)) InvalidCoordinate;
  y ← ok_or (checked_i32 (lb_y block + by_)) InvalidCoordinate;
  z ← ok_or (checked_i32 (lb_z block + by_)) InvalidCoordinate;
  Ok {| lb_x := x; lb_y := y; lb_z := z |}.
(** [a..=b] *)
Definition inclusive (a b : Z) : list Z := seqZ a (b - a + 1).
Definition block_sections (min max : LightSection) : list LightSection :=
  x ← inclusive (ls_x min) (ls_x max); y ← inclusive (ls_y min) (ls_y max); z ← inclusive (ls_z min) (ls_z max);
  [{| ls_x := x; ls_y := y; ls_z := z |}].
Definition stage_block (block : LightBlock) : call Storage StorageError () :=
  let+ min := query (λ _, shifted block (-1)) in
  let+ max := query (λ _, shifted block 1) in
  stage_all (block_sections (section_of min) (section_of max)).
Fixpoint stage_blocks (blocks : list LightBlock) : call Storage StorageError () :=
  match blocks with [] => call_ret tt | block :: blocks => let+ _ := stage_block block in stage_blocks blocks end.

(** ** Section status *)

Definition transition s key (state : Z) : Transition :=
  let initialize := match entry_at s key with
                    | Some e => (en_state e =? 0) && negb (state =? 0) && negb (en_remove e)
                    | None => negb (state =? 0)
                    end in
  {| tr_key := key; tr_state := state; tr_initialize := initialize; tr_layer := None |}.

Fixpoint neighbor_transitions s key (empty : bool) (offsets : list (Z * Z * Z)) : outcome StorageError (list Transition) :=
  match offsets with
  | [] => Ok []
  | (dx, dy, dz) :: offsets =>
      if (dx =? 0) && (dy =? 0) && (dz =? 0) then neighbor_transitions s key empty offsets
      else
        neighbor ← offset key dx dy dz;
        let state := entry_state s neighbor in
        let support := Z.land state 31 + (if empty then -1 else 1) in
        if negb ((0 <=? support) && (support <=? 26)) then Err InvalidCoordinate
        else
          plan ← neighbor_transitions s key empty offsets;
          Ok (transition s neighbor (Z.lor (Z.land state 32) support) :: plan)
  end.

(** [!32] on [u8] *)
Definition not_data : Z := u_not 8 32.
Definition status_plan s key (empty : bool) : outcome StorageError (list Transition) :=
  let old := entry_state s key in
  plan ← neighbor_transitions s key empty cube;
  Ok (transition s key (if empty then Z.land old not_data else Z.lor old 32) :: plan).

Definition is_new s key : bool := match entry_index s key with inl _ => false | inr _ => true end.
(** Sections and columns the plan would add. *)
Definition new_sections s (plan : list Transition) : Z :=
  zlen (filter (λ p, negb (tr_state p =? 0) && is_new s (tr_key p) = true) plan).
Fixpoint stage_plan (plan : list Transition) (columns : list ChunkAddress) : call Storage StorageError (list ChunkAddress) := λ s,
  match plan with
  | [] => Ok (Done columns, s)
  | step :: plan =>
      if tr_initialize step then
        (let+ _ := stage_neighbors (tr_key step) in
         let col := section_column (tr_key step) in
         let fresh := bool_decide (st_kind s = KSky) && (match column_index s col with inl _ => false | inr _ => true end) &&
                      negb (bool_decide (col ∈ columns)) in
         stage_plan plan (if fresh then columns ++ [col] else columns)) s
      else stage_plan plan columns s
  end.

(** [a.into_iter().chain(b).max()] *)
Definition max_option (a b : option Z) : option Z :=
  match a, b with Some a, Some b => Some (Z.max a b) | Some a, None => Some a | None, b => b end.
(** [min_by_key] on the first components: the first least element. *)
Fixpoint min_by_key {A} (l : list (Z * A)) : option (Z * A) :=
  match l with
  | [] => None
  | (y, a) :: l => match min_by_key l with Some (y', b) => if y' <? y then Some (y', b) else Some (y, a) | None => Some (y, a) end
  end.

Definition create_layer key (plan : list Transition) (lowest : Z) : call Storage StorageError LayerId := λ s,
  match (e ← entry_at s key; en_queued e) with
  | Some queued => Ok (Done queued, s)
  | None =>
      let col := section_column key in
      let in_column p := bool_decide (section_column (tr_key p) = col) in
      let old_top := column ← column_at s col; co_top column in
      let new_top := foldr max_option None ((λ p, Some (ls_y (tr_key p) + 1)) <$>
        filter (λ p, bool_decide (is_Some (tr_layer p)) && in_column p = true) plan) in
      let top := default lowest (max_option old_top new_top) in
      let old := match next_above_entry s key with
                 | Some e => match en_updating e with Some id => [(ls_y (en_key e), id)] | None => [] end
                 | None => []
                 end in
      let new := match min_by_key (omap (λ p, layer ← tr_layer p; Some (ls_y (tr_key p), layer))
                   (filter (λ p, (ls_y key <? ls_y (tr_key p)) && in_column p = true) plan)) with
                 | Some p => [p] | None => [] end in
      match (if bool_decide (st_kind s = KSky) && negb (top =? lowest) && (ls_y key <? top) then min_by_key (old ++ new) else None) with
      | Some (_, above) => copy_layer (value_of s above) true s
      | None =>
          leased_layer (Ok (layer_uniform (if bool_decide (st_kind s = KSky) && st_light_enabled s col then 15 else 0))) s
      end
  end.

(** [plan[..index]] is [done_]. *)
Fixpoint create_layers (done_ todo : list Transition) (lowest : Z) : call Storage StorageError (list Transition) :=
  match todo with
  | [] => call_ret done_
  | step :: todo =>
      if tr_initialize step then
        let+ id := create_layer (tr_key step) done_ lowest in
        create_layers (done_ ++ [{| tr_key := tr_key step; tr_state := tr_state step; tr_initialize := true; tr_layer := Some id |}])
          todo (Z.min lowest (ls_y (tr_key step)))
      else create_layers (done_ ++ [step]) todo lowest
  end.

(** The columns follow a new section of sky light. *)
Definition raise_top key s : outcome False Storage :=
  let s := with_columns s (st_columns s) (Z.min (st_lowest s) (ls_y key)) in
  '(r, s) ← insert_column (section_column key) s;
  match r with
  | Done i => modify_column i (λ c, set_top c (Some (match co_top c with Some top => Z.max top (ls_y key + 1) | None => ls_y key + 1 end))) s
  | Failed _ => Panic
  end.

Definition enter_state (i : nat) (step : Transition) s : outcome False Storage :=
  entry ← unwrap (st_entries s !! i);
  let previous := en_state entry in
  if (previous =? 0) && negb (tr_state step =? 0) then
    if en_remove entry then modify_entry i (λ e, set_state e (tr_state step) false (en_updating e)) s
    else
      s ← modify_entry i (λ e, set_state e (tr_state step) (en_remove e) (tr_layer step)) s;
      let s := with_flags s true true in
      if bool_decide (st_kind s = KSky) then raise_top (tr_key step) s else Ok s
  else if negb (previous =? 0) && (tr_state step =? 0) then
    s ← modify_entry i (λ e, set_state e (tr_state step) true (en_updating e)) s;
    Ok (with_flags s (st_changed s) true)
  else modify_entry i (λ e, set_state e (tr_state step) (en_remove e) (en_updating e)) s.

Definition apply_transition s (step : Transition) : outcome False Storage :=
  match entry_index s (tr_key step) with
  | inl i => enter_state i step s
  | inr i =>
      if negb (tr_state step =? 0)
      then enter_state i step (with_entries s (vec_insert i (new_entry (tr_key step) None) (st_entries s)))
      else Ok s
  end.
Fixpoint apply_plan (plan : list Transition) s : outcome False Storage :=
  match plan with [] => Ok s | step :: plan => s ← apply_transition s step; apply_plan plan s end.

Definition deliver_scratch s : Storage := with_lists s (st_scratch s) (st_published s) (st_scratch s).

(** The locals of a failed call are dropped. *)
Definition update_section_status key (empty : bool) : call Storage StorageError () := λ s,
  if negb (Bool.eqb (negb (Z.land (entry_state s key) 32 =? 0)) empty) then Ok (Done tt, s)
  else
    (let+ plan := query (λ s, status_plan s key empty) in
     let+ _ := query (λ s, ensure (negb (max_sections (st_limits s) <? zlen (st_entries s) + new_sections s plan)) SectionLimit) in
     let+ _ := update (λ s, Ok (reset_scratch s)) in
     let+ columns := stage_plan plan [] in
     let+ _ := query (λ s, ensure (negb (max_columns (st_limits s) <? zlen (st_columns s) + zlen columns)) ColumnLimit) in
     let+ plan := on_failure (create_layers [] plan (st_lowest s)) collect in
     update (λ s, s ← apply_plan plan s; Ok (collect (deliver_scratch s)))) s.

(** ** Settling *)

(** A removed section loses its layers; a retained column keeps the data queued. *)
Definition settle_removed s (e : SectionEntry) : SectionEntry :=
  if en_remove e then
    let retain := match column_at s (section_column (en_key e)) with Some c => co_retain c | None => false end in
    {| en_key := en_key e; en_state := en_state e; en_updating := None;
       en_queued := if retain then match en_queued e with Some q => Some q | None => en_updating e end else None; en_remove := false |}
  else e.
Definition column_top (entries : list SectionEntry) (c : Column) : Column :=
  set_top c
    (match filter (λ e, bool_decide (section_column (en_key e) = co_key c) && bool_decide (is_Some (en_updating e)) = true) (rev entries) with
     | e :: _ => Some (ls_y (en_key e) + 1)
     | [] => None
     end).
(** A queued layer replaces the updating one; an alias is only taken. *)
Definition settle_queued (e : SectionEntry) : SectionEntry :=
  match en_updating e, en_queued e with
  | Some _, Some q => set_updating e (Some q) None
  | _, _ => e
  end.
Definition replaces (e : SectionEntry) : bool :=
  match en_updating e, en_queued e with Some u, Some q => negb (u =? q)%nat | _, _ => false end.

Definition st_process_inconsistencies : call Storage StorageError () := λ s,
  if negb (st_inconsistent s) then Ok (Done tt, s)
  else
    let changed := st_changed s || existsb en_remove (st_entries s) in
    let s := with_entries s (settle_removed s <$> st_entries s) in
    let s := if bool_decide (st_kind s = KSky) then with_columns s (column_top (st_entries s) <$> st_columns s) (st_lowest s) else s in
    let changed := changed || existsb replaces (st_entries s) in
    let s := with_entries s (settle_queued <$> st_entries s) in
    Ok (Done tt, collect (prune_columns (prune_entries (with_flags s changed false)))).

(** ** Writes *)

Definition queued_alias (e : SectionEntry) (id : LayerId) : bool := bool_decide (en_queued e = Some id).

(** A private, materialized copy: [copy_layer] and [Arc::get_mut]. *)
Definition writable_copy (value : DataLayer) : call Storage StorageError LayerId :=
  let+ id := copy_layer value false in
  on_failure
    (let+ value := query (λ s, map_err Layer (materialize (value_of s id) LAYER_BYTES)) in
     let+ _ := update (λ s, Ok (with_memory s (st_metadata s) (st_layers s) (<[id := value]> (st_heap s)) (st_next_layer s))) in
     call_ret id)
    collect.

Fixpoint stage_write_layers (blocks : list LightBlock) : call Storage StorageError () := λ s,
  match blocks with
  | [] => Ok (Done tt, s)
  | block :: blocks =>
      let key := section_of block in
      if bool_decide (key ∈ (st_staged s).*1) then stage_write_layers blocks s
      else
        match (e ← entry_at s key; id ← en_updating e; Some (e, id)) with
        | None => stage_write_layers blocks s
        | Some (e, id) =>
            if zlen (st_staged s) =? max_sections (st_limits s) then Ok (Failed SectionLimit, s)
            else if negb (is_definitely_homogeneous (value_of s id)) && (strong_count s id =? 1 + Nat.b2n (queued_alias e id))%nat
            then stage_write_layers blocks s
            else (let+ copy := writable_copy (value_of s id) in
                  let+ _ := update (λ s, Ok (with_staged s (st_staged s ++ [(key, copy)]))) in
                  stage_write_layers blocks) s
        end
  end.

(** Installing a staged copy. *)
Definition install s (key : LightSection) (copy : LayerId) : outcome False Storage :=
  match entry_index s key with
  | inr _ => Panic
  | inl i =>
      e ← unwrap (st_entries s !! i);
      id ← unwrap (en_updating e);
      s ← modify_entry i (λ e, set_updating e (Some copy) (if queued_alias e id then Some copy else en_queued e)) s;
      Ok (collect (with_flags s true (st_inconsistent s)))
  end.
(** [while let Some((key, layer)) = self.staged.pop()]; the list is in the order
    of the pops, the last staged copy first. *)
Fixpoint install_all (pops : list (LightSection * LayerId)) s : outcome False Storage :=
  match pops with
  | [] => Ok s
  | (key, copy) :: pops => s ← install (with_staged s (rev pops)) key copy; install_all pops s
  end.

Definition st_prepare_writes (blocks : list LightBlock) : call Storage StorageError () :=
  let+ _ := update (λ s, Ok (reset_scratch s)) in
  let+ _ := stage_blocks blocks in
  let+ _ := update (λ s, Ok (collect (with_staged s []))) in
  let+ _ := on_failure (stage_write_layers blocks) (λ s, collect (with_staged s [])) in
  update (λ s, install_all (rev (st_staged s)) s).

Definition layer_to_write key : call Storage StorageError (option LayerWrite) := λ s,
  match entry_index s key with
  | inr _ => Ok (Done None, s)
  | inl index =>
      e ← unwrap (st_entries s !! index);
      match en_updating e with
      | None => Ok (Done None, s)
      | Some current =>
          let alias := queued_alias e current in
          (let+ _ := (if (1 + Nat.b2n alias <? strong_count s current)%nat then
                        let+ copy := copy_layer (value_of s current) false in
                        update (λ s, modify_entry index (λ e, set_updating e (Some copy) (if alias then Some copy else en_queued e)) s)
                      else call_ret tt) in
           let+ _ := update (λ s, if alias then modify_entry index (λ e, set_updating e (en_updating e) None) s else Ok s) in
           let+ _ := update (λ s, Ok (collect (with_flags s true (st_inconsistent s)))) in
           call_ret (Some {| lw_index := index; lw_queued_alias := alias |})) s
      end
  end.

(** [Arc::get_mut(..).expect("visible copies detached")]: the only reference. *)
Definition value_mut (w : LayerWrite) s : outcome False LayerId :=
  e ← unwrap (st_entries s !! lw_index w);
  id ← unwrap (en_updating e);
  _ ← assert_that (strong_count s id =? 1)%nat;
  Ok id.
Definition write_value (w : LayerWrite) (f : DataLayer → outcome StorageError DataLayer) : call Storage StorageError () :=
  let+ id := query (λ s, lift (value_mut w s)) in
  let+ value := query (λ s, f (value_of s id)) in
  update (λ s, Ok (with_memory s (st_metadata s) (st_layers s) (<[id := value]> (st_heap s)) (st_next_layer s))).

Definition layer_write_fill (w : LayerWrite) (value : Z) : call Storage StorageError () :=
  if negb ((0 <=? value) && (value <=? 15)) then call_fail InvalidLightValue
  else write_value w (λ l, Ok (layer_fill l value)).
Definition layer_write_set (w : LayerWrite) (x y z value allocation_limit : Z) : call Storage StorageError () :=
  if negb ((0 <=? value) && (value <=? 15)) then call_fail InvalidLightValue
  else write_value w (λ l, map_err Layer (layer_set l x y z value (Z.min allocation_limit LAYER_BYTES))).
Definition layer_write_materialize (w : LayerWrite) (allocation_limit : Z) : call Storage StorageError () :=
  write_value w (λ l, map_err Layer (materialize l (Z.min allocation_limit LAYER_BYTES))).
(** [Drop for LayerWrite] *)
Definition layer_write_drop (w : LayerWrite) s : outcome False Storage :=
  if lw_queued_alias w
  then e ← unwrap (st_entries s !! lw_index w); id ← unwrap (en_updating e);
       s ← modify_entry (lw_index w) (λ e, set_updating e (en_updating e) (Some id)) s; Ok (collect s)
  else Ok s.

(** A write, and the drop of the handle on every path. *)
Definition with_write (w : LayerWrite) (m : call Storage StorageError ()) : call Storage StorageError () := λ s,
  '(r, s) ← m s; s ← layer_write_drop w s; Ok (r, s).

Definition st_set_stored_level (block : LightBlock) (value : Z) : call Storage StorageError () :=
  if 15 <? value then call_fail InvalidLightValue
  else
    let+ _ := query (λ s, ensure (st_storing_light s (section_of block)) MissingLayer) in
    let+ _ := st_prepare_writes [block] in
    let+ w := layer_to_write (section_of block) in
    match w with
    | None => call_fail MissingLayer
    | Some w =>
        let+ _ := with_write w (layer_write_set w (local (lb_x block)) (local (lb_y block)) (local (lb_z block)) value 0) in
        update (λ s, Ok (deliver_scratch s))
    end.

(** ** Publication and snapshots *)

(** The old body lives on while a reader holds it. *)
Definition replace_visible s (next : SnapshotData) : Storage :=
  let old := st_visible s in
  let s := with_bodies s next (S (st_next_body s)) (st_readers s) (st_data_readers s) in
  if bool_decide (old ∈ live_bodies s) then s else collect (release_metadata (sd_leases old) s).

Definition visible_layers s : list (LightSection * LayerId) :=
  omap (λ e, id ← en_updating e; Some (en_key e, id)) (st_entries s).
Definition visible_tops s : list (ChunkAddress * Z) := omap (λ c, top ← co_top c; Some (co_key c, top)) (st_columns s).

(** [vector(..)?] with the vectors already obtained dropped on a failure. *)
Definition leased_vector {A} (held size count : Z) (k : Z → Z → call Storage StorageError A) : call Storage StorageError A :=
  let+ v := on_failure (on_metadata (vector size count)) (release_metadata held) in k v.1 (held + v.2).

Definition st_publish_visible : call Storage StorageError () :=
  let+ _ := update (λ s, Ok (with_scratch s (st_published s))) in
  let+ _ := (λ s, stage_all (st_notifications s) s) in
  let+ _ := (λ s,
    if st_changed s then
      (leased_vector 0 snapshot_layer_size (zlen (visible_layers s)) (λ layers_capacity held,
        leased_vector held snapshot_top_size (zlen (visible_tops s)) (λ tops_capacity held,
          let+ _ := on_failure (recast MetadataLimit (on_metadata (budget_add body_bytes))) (release_metadata held) in
          update (λ s,
            let next := {| sd_id := st_next_body s; sd_kind := st_kind s; sd_layers := visible_layers s; sd_layers_capacity := layers_capacity;
                           sd_tops := visible_tops s; sd_tops_capacity := tops_capacity; sd_lowest := st_lowest s;
                           sd_leases := held + body_bytes |} in
            Ok (with_flags (replace_visible s next) false (st_inconsistent s)))))) s
    else call_ret tt s) in
  update (λ s, Ok (with_lists s [] (st_scratch s) (st_scratch s))).

(** [self.visible.clone()] and the drop of a handle. *)
Definition snapshot s : SnapshotData * Storage :=
  (st_visible s, with_bodies s (st_visible s) (st_next_body s) (st_visible s :: st_readers s) (st_data_readers s)).
Definition drop_snapshot (sn : SnapshotData) s : Storage :=
  let s := with_bodies s (st_visible s) (st_next_body s) (remove_one sn (st_readers s)) (st_data_readers s) in
  if bool_decide (sn ∈ live_bodies s) then s else collect (release_metadata (sd_leases sn) s).
(** [#[derive(Clone)]]: one more handle on a body that is held. *)
Definition clone_snapshot (sn : SnapshotData) s : Storage :=
  if bool_decide (sn ∈ st_readers s) then with_bodies s (st_visible s) (st_next_body s) (sn :: st_readers s) (st_data_readers s) else s.

(** The iterator [DataSelection]: the next item and the two positions. *)
Fixpoint skip_nonqueued (entries : list SectionEntry) : list SectionEntry :=
  match entries with
  | e :: entries' => if bool_decide (is_Some (en_queued e)) then entries else skip_nonqueued entries'
  | [] => []
  end.
Definition sort_le (a b : LightSection) : bool := match key_cmp (sort_key a) (sort_key b) with Gt => false | _ => true end.
Definition data_next (entries : list SectionEntry) (visible : list (LightSection * LayerId)) :
  outcome False (option ((LightSection * LayerId) * (list SectionEntry * list (LightSection * LayerId)))) :=
  match skip_nonqueued entries, visible with
  | e :: entries, (key, id) :: visible' =>
      if sort_le (en_key e) key
      then q ← unwrap (en_queued e); Ok (Some ((en_key e, q), (entries, if decide (en_key e = key) then visible' else visible)))
      else Ok (Some ((key, id), (e :: entries, visible')))
  | [], (key, id) :: visible' => Ok (Some ((key, id), ([], visible')))
  | e :: entries, [] => q ← unwrap (en_queued e); Ok (Some ((en_key e, q), (entries, [])))
  | [], [] => Ok None
  end.
Fixpoint data_items (fuel : nat) (entries : list SectionEntry) (visible : list (LightSection * LayerId)) : outcome False (list (LightSection * LayerId)) :=
  match fuel with
  | O => NoFuel
  | S fuel =>
      next ← data_next entries visible;
      match next with
      | None => Ok []
      | Some (item, (entries, visible)) => items ← data_items fuel entries visible; Ok (item :: items)
      end
  end.
(** Every step consumes an entry or a visible layer. *)
Definition data_selection s : outcome False (list (LightSection * LayerId)) :=
  data_items (S (length (st_entries s) + length (sd_layers (st_visible s)))) (st_entries s) (sd_layers (st_visible s)).

Definition data_body_bytes : Z := data_snapshot_size + 2 * usize_size.
Definition data_snapshot : call Storage StorageError DataSnapshotData :=
  let+ items := query (λ s, lift (data_selection s)) in
  let+ _ := recast MetadataLimit (on_metadata (budget_add data_body_bytes)) in
  leased_vector data_body_bytes snapshot_layer_size (zlen items) (λ capacity held, λ s,
    let sn := {| dd_id := st_next_body s; dd_kind := st_kind s; dd_layers := items; dd_layers_capacity := capacity; dd_leases := held |} in
    Ok (Done sn, with_bodies s (st_visible s) (S (st_next_body s)) (st_readers s) (sn :: st_data_readers s))).
Definition drop_data_snapshot (sn : DataSnapshotData) s : Storage :=
  let s := with_bodies s (st_visible s) (st_next_body s) (st_readers s) (remove_one sn (st_data_readers s)) in
  if bool_decide (sn ∈ live_data_bodies s) then s else collect (release_metadata (dd_leases sn) s).
Definition clone_data_snapshot (sn : DataSnapshotData) s : Storage :=
  if bool_decide (sn ∈ st_data_readers s) then with_bodies s (st_visible s) (st_next_body s) (st_readers s) (sn :: st_data_readers s) else s.
End operations.
