(* ===== verification/LightStorageInv.v ===== *)
(** * Light section storage: invariant and lookups

    Facts about searches in the sorted vectors, the references of a state, and
    the invariant [storage_ok]: sorted vectors within their limits, a heap that
    has every referenced layer and charges exactly its size, and the relation
    between a section's state and its layers. *)

From Stdlib Require Import Sorted.
From stdpp Require Import gmap list sets sorting.
From S2P Require Import Prelude.
From S2P Require Import Sorted.
From S2P Require Import View.
From S2P Require Import LightTypes.
From S2P Require Import LightLayer.
From S2P Require Import LightStore.
From S2P Require Import LightStorage.
From S2P Require Import LightStorageOps.
Local Open Scope Z_scope.

#[export] Instance sort_key_inj : Inj (=) (=) sort_key.
Proof. intros [] []. unfold sort_key. cbn. congruence. Qed.
#[export] Instance column_key_inj : Inj (=) (=) column_key.
Proof. intros [] []. unfold column_key. cbn. congruence. Qed.

(** ** Searches in vectors sorted by an injective key *)

Section keyed.
Context {A B K : Type} `{KeyOrder K, EqDecision B} (key_of : A → B) (kf : B → K) `{!Inj (=) (=) kf}.

Definition in_order (l : list A) : Prop := sorted_keys (λ a, kf (key_of a)) l.
Definition search (l : list A) (b : B) : nat + nat := binary_search (λ a, key_cmp (kf (key_of a)) (kf b)) l.

Lemma search_spec l b :
  in_order l →
  match search l b with
  | inl i => ∃ a, l !! i = Some a ∧ key_of a = b
  | inr i => (i ≤ length l)%nat ∧ (∀ a, a ∈ l → key_of a ≠ b) ∧ ∀ a, key_of a = b → in_order (vec_insert i a l)
  end.
Proof.
  intros Hl. pose proof (search_key (λ a, kf (key_of a)) l (kf b) Hl) as Hs. unfold search.
  destruct (binary_search _ l) as [i|i].
  - destruct Hs as (a&?&Hk). exists a. split; [done|]. by apply (inj kf).
  - destruct Hs as (?&Hlo&Hhi). split; [done|]. split.
    + intros a Ha Hk. rewrite <- (take_drop i l) in Ha. apply elem_of_app in Ha as [Ha|Ha].
      * rewrite Forall_forall in Hlo. specialize (Hlo a Ha). rewrite Hk in Hlo. by apply key_lt_irrefl in Hlo.
      * rewrite Forall_forall in Hhi. specialize (Hhi a Ha). rewrite Hk in Hhi. by apply key_lt_irrefl in Hhi.
    + intros a <-. by apply sorted_insert.
Qed.

Lemma found_search l b a : in_order l → found l (search l b) = Some a ↔ a ∈ l ∧ key_of a = b.
Proof.
  intros Hl. pose proof (search_spec l b Hl) as Hs. destruct (search l b) as [i|i]; cbn [found].
  - destruct Hs as (a'&Hi&Hk). split.
    + intros Ha. split; [by eapply list_elem_of_lookup_2|]. congruence.
    + intros [[j Hj]%list_elem_of_lookup Ha]. rewrite <- Hj. f_equal. eapply (sorted_unique (λ a, kf (key_of a)) l); [done..|]. congruence.
  - destruct Hs as (_&Hn&_). split; [done|]. intros [Ha Hk]. by apply Hn in Ha.
Qed.

Lemma found_search_None l b : in_order l → found l (search l b) = None ↔ ∀ a, a ∈ l → key_of a ≠ b.
Proof.
  intros Hl. split.
  - intros Hn a Ha Hk. assert (found l (search l b) = Some a) by (by apply found_search). congruence.
  - intros Hn. destruct (found l (search l b)) as [a|] eqn:E; [|done]. apply found_search in E as [Ha Hk]; [|done]. by apply Hn in Ha.
Qed.

Lemma search_found_inl l b i : in_order l → search l b = inl i → ∃ a, l !! i = Some a ∧ key_of a = b ∧ found l (search l b) = Some a.
Proof. intros Hl Hs. pose proof (search_spec l b Hl) as Hspec. rewrite Hs in *. destruct Hspec as (a&?&?). eauto. Qed.

(** A list whose elements are known is searched as its elements say. *)
Lemma found_elements l b (o : option A) :
  in_order l → (∀ a, o = Some a → a ∈ l ∧ key_of a = b) → (o = None → ∀ a, a ∈ l → key_of a ≠ b) → found l (search l b) = o.
Proof.
  intros Hl Hs Hn. destruct o as [a|]; [apply found_search; [done|by apply Hs]|]. apply found_search_None; auto.
Qed.

Lemma elem_of_vec_insert {C} i (a c : C) l : c ∈ vec_insert i a l ↔ c = a ∨ c ∈ l.
Proof.
  unfold vec_insert. rewrite elem_of_app, elem_of_cons. rewrite <- (take_drop i l) at 3. rewrite elem_of_app. tauto.
Qed.

Lemma found_insert l i a b :
  in_order l → in_order (vec_insert i a l) → (∀ a', a' ∈ l → key_of a' ≠ key_of a) →
  found (vec_insert i a l) (search (vec_insert i a l) b) = if decide (key_of a = b) then Some a else found l (search l b).
Proof.
  intros Hl Hl' Hn. apply found_elements; [done| |].
  - intros a' Ha'. rewrite elem_of_vec_insert. case_decide as Hk; [injection Ha' as ->; auto|].
    apply found_search in Ha' as [? ?]; auto.
  - intros Hno a' [->|Ha']%elem_of_vec_insert; case_decide as Hk; try done. by eapply found_search_None in Hno.
Qed.

Lemma in_order_replace l i a a' : in_order l → l !! i = Some a → key_of a' = key_of a → in_order (<[i := a']> l).
Proof. intros Hl Hi Hk. eapply sorted_replace; [done..|]. by rewrite Hk. Qed.

Lemma found_replace l i a a' b :
  in_order l → l !! i = Some a → key_of a' = key_of a →
  found (<[i := a']> l) (search (<[i := a']> l) b) = if decide (key_of a = b) then Some a' else found l (search l b).
Proof.
  intros Hl Hi Hk. pose proof (in_order_replace l i a a' Hl Hi Hk) as Hl'. pose proof (lookup_lt_Some _ _ _ Hi) as Hlt.
  assert (Hin : ∀ c, c ∈ <[i := a']> l → c = a' ∨ c ∈ l).
  { intros c [j Hj]%list_elem_of_lookup. apply list_lookup_insert_Some in Hj as [(_&<-&_)|[_ Hj]]; [by left|right; by eapply list_elem_of_lookup_2]. }
  apply found_elements; [done| |].
  - intros c Hc. case_decide as Hkb.
    + injection Hc as <-. split; [|congruence]. eapply list_elem_of_lookup_2. by apply list_lookup_insert_eq.
    + apply found_search in Hc as [[j Hj]%list_elem_of_lookup ?]; [|done]. split; [|done].
      eapply list_elem_of_lookup_2. rewrite list_lookup_insert_ne; [done|]. intros ->. congruence.
  - case_decide as Hkb; [done|]. intros Hno c Hc Hkc. destruct (Hin c Hc) as [->|Hc']; [congruence|]. by eapply found_search_None in Hno.
Qed.

Lemma in_order_filter (P : A → Prop) `{∀ a, Decision (P a)} l : in_order l → in_order (filter P l).
Proof.
  unfold in_order, sorted_keys. induction l as [|a l IH]; [done|]. rewrite fmap_cons. intros [Hs Hall]%StronglySorted_inv.
  rewrite filter_cons. case_decide; [|by apply IH]. rewrite fmap_cons. constructor; [by apply IH|].
  rewrite Forall_fmap, Forall_forall in *. intros c [_ Hc]%list_elem_of_filter. by apply Hall.
Qed.

Lemma found_filter (P : A → Prop) `{∀ a, Decision (P a)} l b :
  in_order l → found (filter P l) (search (filter P l) b) = a ← found l (search l b); if decide (P a) then Some a else None.
Proof.
  intros Hl. apply found_elements; [by apply in_order_filter| |].
  - intros a Ha. apply bind_Some in Ha as (c&Hc&Ha). case_decide; [|done]. injection Ha as ->.
    apply found_search in Hc as [? ?]; [|done]. by rewrite list_elem_of_filter.
  - intros Hno a [HP Ha]%list_elem_of_filter Hk. assert (Hf : found l (search l b) = Some a) by (by apply found_search).
    rewrite Hf in Hno. cbn in Hno. by rewrite decide_True in Hno.
Qed.

Lemma in_order_fmap (f : A → A) l : (∀ a, key_of (f a) = key_of a) → in_order l → in_order (f <$> l).
Proof.
  intros Hf. unfold in_order, sorted_keys. rewrite <- list_fmap_compose. intros Hl.
  erewrite list_fmap_ext; [exact Hl|]. intros i a _. unfold compose. by rewrite Hf.
Qed.

Lemma found_fmap (f : A → A) l b :
  (∀ a, key_of (f a) = key_of a) → in_order l → found (f <$> l) (search (f <$> l) b) = f <$> found l (search l b).
Proof.
  intros Hf Hl. apply found_elements; [by apply in_order_fmap| |].
  - intros a Ha. apply fmap_Some in Ha as (c&Hc&->). apply found_search in Hc as [? <-]; [|done].
    split; [by apply list_elem_of_fmap_2|done].
  - intros Hno a Ha. apply list_elem_of_fmap in Ha as (c&->&Hc). rewrite Hf. apply fmap_None in Hno. by eapply found_search_None.
Qed.
End keyed.

(** ** The heap *)

Section heap.
Context `{Allocator, StorageLayout}.
Implicit Types (s : Storage) (id : LayerId).

(** References of the snapshot bodies. *)
Definition body_refs s : list LayerId :=
  (live_bodies s ≫= λ b, (sd_layers b).*2) ++ (live_data_bodies s ≫= λ b, (dd_layers b).*2).

Lemma refs_split s : refs s = (st_entries s ≫= entry_refs) ++ (st_staged s).*2 ++ body_refs s.
Proof. done. Qed.

Lemma elem_of_entry_refs e id : id ∈ entry_refs e ↔ en_updating e = Some id ∨ en_queued e = Some id.
Proof. unfold entry_refs. rewrite elem_of_app. destruct (en_updating e), (en_queued e); cbn; set_solver. Qed.

Lemma elem_of_refs s id :
  id ∈ refs s ↔ (∃ e, e ∈ st_entries s ∧ id ∈ entry_refs e) ∨ id ∈ (st_staged s).*2 ∨ id ∈ body_refs s.
Proof. rewrite refs_split, !elem_of_app, list_elem_of_bind. firstorder. Qed.

(** Every reference has its layer, and the ledger charges exactly the layers. *)
Record heap_ok s : Prop := {
  ho_refs id : id ∈ refs s → is_Some (st_heap s !! id);
  ho_layers id v : st_heap s !! id = Some v → (id < st_next_layer s)%nat ∧ light_layer v;
  ho_ledger : b_used (st_layers s) = LAYER_RESERVATION_BYTES * Z.of_nat (size (st_heap s));
  ho_limit : b_limit (st_layers s) = layer_bytes_limit (st_limits s) ∧ b_used (st_layers s) ≤ Z.max 0 (b_limit (st_layers s));
}.
(** No layer is kept without a reference. *)
Definition tight s : Prop := ∀ id, is_Some (st_heap s !! id) → id ∈ refs s.

Lemma heap_ok_sub s s' :
  heap_ok s → st_heap s' = st_heap s → (st_next_layer s' = st_next_layer s ∧ st_layers s' = st_layers s ∧ st_limits s' = st_limits s) →
  (∀ id, id ∈ refs s' → id ∈ refs s) → heap_ok s'.
Proof. intros [Hr Hl Hled Hli] Hh (Hn&Hla&Hlm) Hsub. split; rewrite ?Hh, ?Hn, ?Hla, ?Hlm; auto. Qed.

Lemma reservation_pos : 0 < LAYER_RESERVATION_BYTES.
Proof. unfold LAYER_RESERVATION_BYTES, LAYER_BYTES, usize_size. pose proof storage_layout_nonneg. lia. Qed.

(** A state that differs in the layer memory only. *)
Definition remembers s s' : Prop := ∃ lay h next, s' = with_memory s (st_metadata s) lay h next.

Lemma collected_spec s :
  heap_ok s → heap_ok (collect s) ∧ tight (collect s) ∧ remembers s (collect s) ∧
  ∀ id, id ∈ refs s → st_heap (collect s) !! id = st_heap s !! id.
Proof.
  intros [Hr Hl Hled [Hlim Hle]]. unfold collect. set (live := filter _ (st_heap s)).
  assert (Hlive : ∀ id v, live !! id = Some v ↔ st_heap s !! id = Some v ∧ id ∈ refs s).
  { intros id v. unfold live. rewrite map_lookup_filter_Some. done. }
  assert (Hsub : live ⊆ st_heap s) by apply map_filter_subseteq.
  assert (Hsize : (size live ≤ size (st_heap s))%nat) by (by apply map_subseteq_size).
  pose proof reservation_pos.
  split; [split|split; [|split]]; cbn [with_memory st_heap st_next_layer st_layers b_used b_limit budget_sub st_limits].
  - intros id Hid. destruct (Hr id Hid) as [v Hv]. exists v. apply Hlive. done.
  - intros id v [Hv _]%Hlive. by apply Hl.
  - rewrite Hled. lia.
  - split; [done|]. nia.
  - intros id [v [_ ?]%Hlive]. done.
  - by eexists _, _, _.
  - intros id Hid. destruct (Hr id Hid) as [v Hv]. rewrite Hv. apply Hlive. done.
Qed.

Lemma leased_layer_spec value s :
  heap_ok s → (∀ v, value = Ok v → light_layer v) → ((∃ v, value = Ok v) ∨ ∃ e, value = Err e) →
  ∃ lay, b_limit lay = b_limit (st_layers s) ∧
    ((∃ err, leased_layer value s = Ok (Failed err, with_memory s (st_metadata s) lay (st_heap s) (st_next_layer s)) ∧
        b_used lay = b_used (st_layers s)) ∨
     (∃ v, value = Ok v ∧ st_heap s !! st_next_layer s = None ∧
        leased_layer value s = Ok (Done (st_next_layer s), with_memory s (st_metadata s) lay (<[st_next_layer s := v]> (st_heap s)) (Datatypes.S (st_next_layer s))) ∧
        heap_ok (with_memory s (st_metadata s) lay (<[st_next_layer s := v]> (st_heap s)) (Datatypes.S (st_next_layer s))))).
Proof.
  intros [Hr Hl Hled [Hlim Hle]] Hlight Hval. unfold leased_layer, on_failure, call_bind, query, on_layers, budget_add. pose proof reservation_pos.
  unfold checked_add. destruct (Z.leb_spec (b_used (st_layers s) + LAYER_RESERVATION_BYTES) usize_max) as [Hm|Hm]; mstep.
  2: { exists (st_layers s). split; [done|]. left. eauto. }
  destruct (Z.leb_spec (b_used (st_layers s) + LAYER_RESERVATION_BYTES) (b_limit (st_layers s))) as [Hb|Hb]; mstep.
  2: { exists (st_layers s). split; [done|]. left. eauto. }
  cbn [with_memory st_metadata st_layers st_heap st_next_layer].
  destruct Hval as [[v Hv]|[e He]].
  - rewrite Hv. unfold new_arc. mstep. eexists. split; [|right; exists v; split; [done|]].
    2: { assert (Hfresh : st_heap s !! st_next_layer s = None).
         { destruct (st_heap s !! st_next_layer s) as [w|] eqn:E; [|done]. apply Hl in E as [? _]. lia. }
         split; [done|]. split; [reflexivity|]. split; cbn [with_memory st_heap st_next_layer st_layers b_used b_limit st_limits].
         - intros id Hid. destruct (decide (id = st_next_layer s)) as [->|]; [by rewrite lookup_insert_eq|]. rewrite lookup_insert_ne by done. by apply Hr.
         - intros id w. destruct (decide (id = st_next_layer s)) as [->|]; [rewrite lookup_insert_eq; intros [= <-]; split; [lia|by apply Hlight]|].
           rewrite lookup_insert_ne by done. intros [? ?]%Hl. split; [lia|done].
         - rewrite map_size_insert_None by done. lia.
         - split; [done|lia]. }
    done.
  - rewrite He. mstep. eexists. split; [|left; exists e; split; [reflexivity|]]; cbn; [done|lia].
Qed.
End heap.

(** ** The invariant *)

Section invariant.
Context `{Allocator, StorageLayout}.
Implicit Types (s : Storage) (id : LayerId) (key : LightSection).

(** A section is stored exactly while it has data, neighbours with data, or a
    removal that is not settled yet. *)
Record entry_ok (e : SectionEntry) : Prop := {
  eo_state : 0 ≤ en_state e < 64;
  eo_updating : is_Some (en_updating e) ↔ en_state e ≠ 0 ∨ en_remove e = true;
  eo_remove : en_remove e = true → en_state e = 0;
}.

(** What holds between any two statements. *)
Record base_ok s : Prop := {
  bo_heap : heap_ok s;
  bo_entries : in_order en_key sort_key (st_entries s);
  bo_columns : in_order co_key column_key (st_columns s);
  bo_entry e : e ∈ st_entries s → entry_ok e;
  bo_sections : zlen (st_entries s) ≤ max_sections (st_limits s);
}.
Definition list_ok s (l : list LightSection) : Prop := in_order id sort_key l ∧ zlen l ≤ max_notifications (st_limits s).
(** Snapshots are sorted. *)
Definition body_ok (b : SnapshotData) : Prop := in_order fst sort_key (sd_layers b) ∧ in_order fst column_key (sd_tops b).
Definition bodies_ok s : Prop := ∀ b, b = st_visible s ∨ b ∈ st_readers s → body_ok b.
Record storage_ok s : Prop := {
  sk_base : base_ok s;
  sk_bodies : bodies_ok s;
  sk_tight : tight s;
  sk_staged : st_staged s = [];
  sk_notifications : list_ok s (st_notifications s);
  sk_published : list_ok s (st_published s);
}.

Definition updating_at s key : option LayerId := e ← entry_at s key; en_updating e.
Definition level_of (l : DataLayer) (p : LightBlock) : Z := settled l (local (lb_x p)) (local (lb_y p)) (local (lb_z p)).
Definition level_at s (p : LightBlock) : option Z := id ← updating_at s (section_of p); Some (level_of (value_of s id) p).

Lemma local_ok p : local_coords (local (lb_x p)) (local (lb_y p)) (local (lb_z p)).
Proof. unfold local, local_coords. pose proof (Z.mod_pos_bound (lb_x p) 16). pose proof (Z.mod_pos_bound (lb_y p) 16). pose proof (Z.mod_pos_bound (lb_z p) 16). lia. Qed.

Lemma level_of_range l p : light_layer l → 0 ≤ level_of l p ≤ 15.
Proof. intros Hl. by destruct (light_layer_get l _ _ _ Hl (local_ok p)). Qed.

Lemma nibble_ok l p : light_layer l → nibble l p = Ok (level_of l p).
Proof.
  intros Hl. unfold nibble. destruct (light_layer_get l _ _ _ Hl (local_ok p)) as [-> Hr].
  rewrite u_wrap_id; [done|]. unfold in_u. lia.
Qed.

Lemma entry_at_some s key e : in_order en_key sort_key (st_entries s) → entry_at s key = Some e ↔ e ∈ st_entries s ∧ en_key e = key.
Proof. apply (found_search en_key sort_key). Qed.
Lemma entry_at_index s key e :
  in_order en_key sort_key (st_entries s) → entry_at s key = Some e → ∃ i, entry_index s key = inl i ∧ st_entries s !! i = Some e.
Proof. unfold entry_at. destruct (entry_index s key) as [i|i] eqn:E; cbn [found]; [|done]. eauto. Qed.

Lemma refs_updating s e id : e ∈ st_entries s → en_updating e = Some id → id ∈ refs s.
Proof. intros He Hu. apply elem_of_refs. left. exists e. split; [done|]. apply elem_of_entry_refs. by left. Qed.
Lemma refs_queued s e id : e ∈ st_entries s → en_queued e = Some id → id ∈ refs s.
Proof. intros He Hu. apply elem_of_refs. left. exists e. split; [done|]. apply elem_of_entry_refs. by right. Qed.

Lemma value_light s id : heap_ok s → id ∈ refs s → light_layer (value_of s id).
Proof. intros Hh Hid. destruct (ho_refs s Hh id Hid) as [v Hv]. unfold value_of. rewrite Hv. by eapply ho_layers. Qed.

Lemma updating_at_refs s key id : base_ok s → updating_at s key = Some id → id ∈ refs s.
Proof.
  intros Hb Hu. apply bind_Some in Hu as (e&He&Hu). apply entry_at_some in He as [He _]; [|apply Hb]. by eapply refs_updating.
Qed.

Lemma stored_level_eq s p : base_ok s → st_stored_level s p = Ok (level_at s p).
Proof.
  intros Hb. unfold st_stored_level, layer, level_at, updating_at. destruct (entry_at s (section_of p)) as [e|] eqn:He; [|done].
  cbn [mbind option_bind]. destruct (en_updating e) as [id|] eqn:Hu; [|done]. cbn [mbind option_bind].
  rewrite nibble_ok; [done|]. apply value_light; [apply Hb|]. apply entry_at_some in He as [He _]; [|apply Hb]. by eapply refs_updating.
Qed.

Lemma level_at_range s p l : base_ok s → level_at s p = Some l → 0 ≤ l ≤ 15.
Proof.
  intros Hb Hl. apply bind_Some in Hl as (id&Hu&Hl). injection Hl as <-. apply level_of_range, value_light; [apply Hb|by eapply updating_at_refs].
Qed.

Lemma storing_light_eq s p : st_storing_light s (section_of p) = true ↔ is_Some (level_at s p).
Proof.
  unfold st_storing_light, level_at, updating_at. destruct (entry_at s (section_of p)) as [e|]; cbn; [|split; [done|intros [? ?]; done]].
  destruct (en_updating e); cbn; [split; [by eexists|done]|split; [done|intros [? ?]; done]].
Qed.

Lemma section_of_block p : section_of p = block_section p.
Proof. unfold section_of, block_section. rewrite !Z.shiftr_div_pow2 by lia. done. Qed.

Lemma collect_tight s : tight s → collect s = s.
Proof.
  intros Ht. unfold collect. rewrite map_filter_id; [|intros id v Hv; apply Ht; by exists v].
  rewrite Z.sub_diag, Z.mul_0_r. unfold with_memory, budget_sub. rewrite Z.sub_0_r. destruct s as [? ? ? ? ? ? ? ? ? ? ? ? ? ? lay ? ? ? ? ?]. cbn. by destruct lay.
Qed.

(** ** Copies *)

Definition same_levels (v v' : DataLayer) : Prop := ∀ p, level_of v' p = level_of v p.

Lemma validate_light_ok v : light_layer v → validate_light v = Ok tt.
Proof.
  intros Hv. unfold validate_light. destruct (light_layer_get v 0 0 0 Hv) as [-> Hr]; [unfold local_coords; lia|]. mstep.
  destruct (Z.leb_spec 0 (settled v 0 0 0)), (Z.leb_spec (settled v 0 0 0) 15); (lia || done).
Qed.

Lemma get_settled v v' x y z x' y' z' :
  light_layer v → light_layer v' → local_coords x y z → local_coords x' y' z' → layer_get v' x' y' z' = layer_get v x y z → settled v' x' y' z' = settled v x y z.
Proof. intros Hv Hv' Hc Hc'. destruct (light_layer_get v x y z Hv Hc) as [-> _], (light_layer_get v' x' y' z' Hv' Hc') as [-> _]. by intros [= ->]. Qed.

Lemma copy_layer_spec l (repeat : bool) s :
  heap_ok s → light_layer l →
  ∃ lay, b_limit lay = b_limit (st_layers s) ∧
    ((∃ err, copy_layer l repeat s = Ok (Failed err, with_memory s (st_metadata s) lay (st_heap s) (st_next_layer s)) ∧ b_used lay = b_used (st_layers s)) ∨
     (∃ v, let s' := with_memory s (st_metadata s) lay (<[st_next_layer s := v]> (st_heap s)) (Datatypes.S (st_next_layer s)) in
        st_heap s !! st_next_layer s = None ∧ copy_layer l repeat s = Ok (Done (st_next_layer s), s') ∧ heap_ok s' ∧ light_layer v ∧
        (repeat = false → same_levels l v ∧ is_definitely_homogeneous v = is_definitely_homogeneous l) ∧
        (repeat = true → ∀ p, level_of v p = level_of l (at_bottom p)))).
Proof.
  intros Hh Hl. unfold copy_layer.
  set (value := (value ← map_err Layer (if repeat then _ else _); _ ← validate_light value; Ok value) : outcome StorageError DataLayer).
  assert (Hval : (∃ e, value = Err e) ∨ ∃ v, value = Ok v ∧ light_layer v ∧
    (repeat = false → same_levels l v ∧ is_definitely_homogeneous v = is_definitely_homogeneous l) ∧
    (repeat = true → ∀ p, level_of v p = level_of l (at_bottom p))).
  { unfold value. destruct repeat.
    - destruct (repeat_first_layer_spec l LAYER_BYTES (proj1 Hl)) as [(e&->&_)|(v&->&_&Hv&Hg)]; mstep; [left; eauto|right].
      specialize (Hv Hl). rewrite validate_light_ok by done. mstep. exists v. split; [done|]. split; [done|]. split; [done|]. intros _ p.
      unfold level_of, at_bottom. cbn [lb_x lb_y lb_z]. pose proof (local_ok p). pose proof (local_ok (at_bottom p)).
      apply get_settled; [done..|]. by rewrite Hg.
    - destruct (try_copy_spec l LAYER_BYTES (proj1 Hl)) as [(e&->&_)|(v&->&_&Hhom&Hv&Hg)]; mstep; [left; eauto|right].
      specialize (Hv Hl). rewrite validate_light_ok by done. mstep. exists v. split; [done|]. split; [done|]. split; [|done]. intros _. split; [|done].
      intros p. apply get_settled; [done..|apply local_ok|apply local_ok|apply Hg]. }
  destruct (leased_layer_spec value s Hh) as (lay&Hlim&[(err&Hf&Hu)|(v&Hv&Hfresh&Hd&Hh')]).
  - intros v Hv. destruct Hval as [[e He]|(v'&Hv'&?&_)]; congruence.
  - destruct Hval as [?|(v&?&_)]; eauto.
  - exists lay. split; [done|]. left. eauto.
  - exists lay. split; [done|]. right. exists v. destruct Hval as [[e He]|(v'&Hv'&?&?&?)]; [congruence|].
    assert (v' = v) as -> by congruence. split_and!; done.
Qed.
End invariant.
