(* ===== verification/LightStorageWrites.v ===== *)
(** * Light section storage: writes

    Copy-on-write: a write first admits its notifications, then gives every
    section it touches a private materialized layer, and only then stores
    levels.  The lemmas say when a layer is private ([exclusive]: the strong
    count is what the code tests) and that preparing changes no level. *)

From Stdlib Require Import Sorted.
From stdpp Require Import gmap list sets sorting.
From S2P Require Import Prelude.
From S2P Require Import Sorted.
From S2P Require Import View.
From S2P Require Import LightTypes.
From S2P Require Import LightLayer.
From S2P Require Import LightStore.
From S2P Require Import LightStorage.
From S2P Require Import LightStorageOps.
From S2P Require Import LightStorageInv.
Local Open Scope Z_scope.

(** ** Strong counts *)

Lemma occurs_app id l l' : occurrences id (l ++ l') = (occurrences id l + occurrences id l')%nat.
Proof. unfold occurrences. by rewrite filter_app, length_app. Qed.
Lemma occurrences_zero id l : occurrences id l = 0%nat ↔ id ∉ l.
Proof.
  unfold occurrences. rewrite length_zero_iff_nil. split.
  - intros Hn Hin. assert (Hf : id ∈ filter (λ j, j = id) l) by (by apply list_elem_of_filter). rewrite Hn in Hf. by apply not_elem_of_nil in Hf.
  - intros Hn. destruct (filter _ l) as [|j k] eqn:E; [done|]. assert (Hj : j ∈ filter (λ j, j = id) l) by (rewrite E; by left).
    apply list_elem_of_filter in Hj as [-> ?]. done.
Qed.

Section counts.
Context `{Allocator, StorageLayout}.
Implicit Types (s : Storage) (id : LayerId) (key : LightSection).

(** Nothing but entry [e] refers to the layer. *)
Definition exclusive s (e : SectionEntry) id : Prop :=
  id ∉ body_refs s ∧ id ∉ (st_staged s).*2 ∧ ∀ e', e' ∈ st_entries s → id ∈ entry_refs e' → en_key e' = en_key e.

Lemma entry_occurrences e id : en_updating e = Some id → occurrences id (entry_refs e) = (1 + Nat.b2n (queued_alias e id))%nat.
Proof.
  intros Hu. unfold entry_refs, queued_alias. rewrite Hu, occurs_app.
  assert (Hone : ∀ j : LayerId, occurrences id [j] = Nat.b2n (bool_decide (Some j = Some id))).
  { intros j. unfold occurrences. rewrite filter_cons. case_decide as Hj; [by rewrite Hj, bool_decide_eq_true_2|by rewrite bool_decide_eq_false_2 by congruence]. }
  change (option_list (Some id)) with [id]. rewrite Hone, bool_decide_eq_true_2 by done.
  destruct (en_queued e) as [q|]; [change (option_list (Some q)) with [q]; by rewrite Hone|done].
Qed.

Lemma entries_occurrences l e id :
  in_order en_key sort_key l → e ∈ l →
  (occurrences id (entry_refs e) ≤ occurrences id (l ≫= entry_refs))%nat ∧
  (occurrences id (l ≫= entry_refs) = occurrences id (entry_refs e) ↔ ∀ e', e' ∈ l → id ∈ entry_refs e' → en_key e' = en_key e).
Proof.
  intros Hl (i&Hi)%list_elem_of_lookup. pose proof (take_drop_middle l i e Hi) as Hsplit.
  assert (Hcount : occurrences id (l ≫= entry_refs) =
    (occurrences id (take i l ≫= entry_refs) + (occurrences id (entry_refs e) + occurrences id (drop (S i) l ≫= entry_refs)))%nat).
  { rewrite <- Hsplit at 1. by rewrite bind_app, bind_cons, !occurs_app. }
  rewrite Hcount. split; [lia|]. split.
  - intros Heq e' (j&Hj)%list_elem_of_lookup Hid. destruct (decide (j = i)) as [->|Hn]; [congruence|]. exfalso.
    assert (Hz : occurrences id (take i l ≫= entry_refs) = 0%nat ∧ occurrences id (drop (S i) l ≫= entry_refs) = 0%nat) by lia.
    rewrite !occurrences_zero, !list_elem_of_bind in Hz. destruct Hz as [Hz1 Hz2]. destruct (decide (j < i)%nat).
    + apply Hz1. exists e'. split; [done|]. eapply list_elem_of_lookup_2. rewrite lookup_take_lt by done. done.
    + apply Hz2. exists e'. split; [done|]. apply (list_elem_of_lookup_2 _ (j - S i)). rewrite lookup_drop. by replace (S i + (j - S i))%nat with j by lia.
  - intros Hk. assert (Hother : ∀ j e', l !! j = Some e' → j ≠ i → id ∉ entry_refs e').
    { intros j e' Hj Hn Hid. apply Hn. eapply (sorted_unique (λ a, sort_key (en_key a)) l); [done..|].
      f_equal. apply Hk; [by eapply list_elem_of_lookup_2|done]. }
    assert (occurrences id (take i l ≫= entry_refs) = 0%nat ∧ occurrences id (drop (S i) l ≫= entry_refs) = 0%nat); [|lia].
    rewrite !occurrences_zero, !list_elem_of_bind. split; intros (e'&Hid&(j&Hj)%list_elem_of_lookup).
    + apply lookup_take_Some in Hj as [Hj Hlt]. eapply Hother; [done|lia|done].
    + rewrite lookup_drop in Hj. eapply Hother; [done|lia|done].
Qed.

(** What the code tests on the strong count. *)
Lemma strong_count_exclusive s e id :
  in_order en_key sort_key (st_entries s) → e ∈ st_entries s → en_updating e = Some id →
  (1 + Nat.b2n (queued_alias e id) ≤ strong_count s id)%nat ∧
  (strong_count s id = (1 + Nat.b2n (queued_alias e id))%nat ↔ exclusive s e id).
Proof.
  intros Hl He Hu. destruct (entries_occurrences (st_entries s) e id Hl He) as [Hle Heq].
  unfold strong_count, exclusive. rewrite refs_split, !occurs_app, <- !(occurrences_zero id), <- (entry_occurrences e id Hu).
  split; [lia|]. rewrite <- Heq. lia.
Qed.
End counts.

(** ** Notifications *)

Section notifications.
Context `{Allocator, StorageLayout}.
Implicit Types (s : Storage) (key : LightSection).

Lemma in_order_nodup (l : list LightSection) : in_order id sort_key l → NoDup l.
Proof.
  unfold in_order, sorted_keys. induction l as [|k l IH]; [by constructor|]. rewrite fmap_cons. intros [Hs Hall]%StronglySorted_inv.
  constructor; [|by apply IH]. intros Hk. rewrite Forall_fmap, Forall_forall in Hall. specialize (Hall k Hk). by apply key_lt_irrefl in Hall.
Qed.

(** [l] holds the notifications [keys] over those of [base]. *)
Definition holds (base : list LightSection) (keys : LightSection → Prop) (l : list LightSection) : Prop := ∀ k, k ∈ l ↔ k ∈ base ∨ keys k.
(** A list of at most the limit that has all of them. *)
Definition room s (base : list LightSection) (keys : LightSection → Prop) : Prop :=
  ∃ u, NoDup u ∧ zlen u ≤ max_notifications (st_limits s) ∧ ∀ k, k ∈ base ∨ keys k → k ∈ u.
Definition staging (m : call Storage StorageError ()) (keys : LightSection → Prop) (fits : Prop) s : Prop :=
  list_ok s (st_scratch s) →
  (∃ l, m s = Ok (Done tt, with_scratch s l) ∧ list_ok s l ∧ holds (st_scratch s) keys l ∧ fits) ∨
  (∃ err l, m s = Ok (Failed err, with_scratch s l) ∧ ¬ (fits ∧ room s (st_scratch s) keys)).

Lemma with_scratch_same s : with_scratch s (st_scratch s) = s.
Proof. by destruct s. Qed.

Lemma stage_notification_spec s key : staging (stage_notification key) (λ k, k = key) True s.
Proof.
  intros [Hs Hl]. unfold stage_notification. change (find_section id (st_scratch s) key) with (search id sort_key (st_scratch s) key).
  pose proof (search_spec id sort_key (st_scratch s) key Hs) as Hsp. destruct (search id sort_key (st_scratch s) key) as [i|i].
  - left. exists (st_scratch s). rewrite with_scratch_same. split; [done|]. split; [done|]. split; [|done]. destruct Hsp as (a&Ha&Hk). cbn in Hk. subst a.
    intros k. split; [by left|]. intros [?| ->]; [done|]. by eapply list_elem_of_lookup_2.
  - destruct Hsp as (Hi&Hn&Hins). assert (Hnew : key ∉ st_scratch s) by (intros Hk; by apply (Hn key)).
    destruct (Z.eqb_spec (zlen (st_scratch s)) (max_notifications (st_limits s))) as [Hfull|Hroom].
    + right. exists NotificationLimit, (st_scratch s). rewrite with_scratch_same. split; [done|]. intros (_&u&Hu&Hlen&Hsub).
      assert (Hle : (length (key :: st_scratch s) ≤ length u)%nat).
      { apply submseteq_length, NoDup_submseteq; [constructor; [done|by apply in_order_nodup]|]. intros k [->|Hk]%elem_of_cons; apply Hsub; auto. }
      unfold zlen in *. cbn [length] in Hle. lia.
    + left. eexists. split; [reflexivity|]. split; [split; [by apply Hins|]|].
      * unfold zlen in *. unfold vec_insert. rewrite length_app. cbn [length]. rewrite length_take, length_drop. lia.
      * split; [|done]. intros k. rewrite elem_of_vec_insert. tauto.
Qed.

Lemma room_weaken s base base' (keys keys' : LightSection → Prop) :
  (∀ k, k ∈ base' ∨ keys' k → k ∈ base ∨ keys k) → room s base keys → room s base' keys'.
Proof. intros Hk (u&?&?&Hu). exists u. split; [done|]. split; [done|]. intros k Hk'. by apply Hu, Hk. Qed.

(** Two stagings in a row. *)
Lemma staging_bind m m' (keys keys' : LightSection → Prop) (fits fits' : Prop) s :
  staging m keys fits s → (∀ l, staging m' keys' fits' (with_scratch s l)) →
  staging (call_bind m (λ _, m')) (λ k, keys k ∨ keys' k) (fits ∧ fits') s.
Proof.
  intros Hm Hm' Hok. unfold call_bind. destruct (Hm Hok) as [(l&->&Hl&Hh&Hfit)|(err&l&->&Hn)]; mstep.
  - destruct (Hm' l Hl) as [(l'&->&Hl'&Hh'&Hfit')|(err&l'&->&Hn)]; [left|right].
    + exists l'. split; [done|]. split; [done|]. split; [|done]. intros k. rewrite (Hh' k). cbn [with_scratch with_lists st_scratch]. rewrite (Hh k). tauto.
    + exists err, l'. split; [done|]. intros ([_ Hf]&Hr). apply Hn. split; [done|]. eapply room_weaken; [|exact Hr]. cbn [with_scratch with_lists st_scratch].
      intros k. rewrite (Hh k). tauto.
  - right. exists err, l. split; [done|]. intros ([Hf _]&Hr). apply Hn. split; [done|]. eapply room_weaken; [|exact Hr]. tauto.
Qed.

Lemma staging_ext m (keys keys' : LightSection → Prop) (fits fits' : Prop) s :
  (∀ k, keys k ↔ keys' k) → (fits ↔ fits') → staging m keys fits s → staging m keys' fits' s.
Proof.
  intros Hk Hf Hm Hok. destruct (Hm Hok) as [(l&->&Hl&Hh&Hfit)|(err&l&->&Hn)]; [left|right].
  - exists l. split; [done|]. split; [done|]. split; [|by apply Hf]. intros k. by rewrite <- Hk.
  - exists err, l. split; [done|]. intros [? Hr]. apply Hn. split; [by apply Hf|]. eapply room_weaken; [|exact Hr]. intros k. by rewrite <- Hk.
Qed.

Lemma staging_ret s : staging (call_ret tt) (λ _, False) True s.
Proof. intros Hok. left. exists (st_scratch s). rewrite with_scratch_same. split; [done|]. split; [done|]. split; [|done]. intros k. tauto. Qed.

Lemma stage_all_spec l s : staging (stage_all l) (λ k, k ∈ l) True s.
Proof.
  revert s. induction l as [|key l IH]; intros s; cbn [stage_all].
  - eapply staging_ext; [| |apply staging_ret]; [intros k; rewrite elem_of_nil; tauto|done].
  - eapply staging_ext; [| |apply staging_bind; [apply stage_notification_spec|intros; apply IH]]; [intros k; rewrite elem_of_cons; tauto|tauto].
Qed.

(** The sections of a block and its neighbours. *)
Definition affected (p : LightBlock) : outcome StorageError (list LightSection) :=
  min ← shifted p (-1); max ← shifted p 1; Ok (block_sections (section_of min) (section_of max)).
Definition touches (p : LightBlock) (k : LightSection) : Prop := ∃ l, affected p = Ok l ∧ k ∈ l.

Lemma shifted_total p b : (∃ q, shifted p b = Ok q) ∨ shifted p b = Err InvalidCoordinate.
Proof.
  unfold shifted. destruct (checked_i32 (lb_x p + b)); cbn; [|by right]. destruct (checked_i32 (lb_y p + b)); cbn; [|by right].
  destruct (checked_i32 (lb_z p + b)); cbn; [left; by eexists|by right].
Qed.

Lemma stage_block_spec p s : staging (stage_block p) (touches p) (∃ l, affected p = Ok l) s.
Proof.
  unfold stage_block, affected, staging, touches, call_bind at 1, query. intros Hok.
  destruct (shifted_total p (-1)) as [[min Emin]|Emin]; unfold affected; rewrite Emin; mstep.
  2: { right. exists InvalidCoordinate, (st_scratch s). rewrite with_scratch_same. split; [done|]. by intros [[l ?] _]. }
  unfold call_bind. destruct (shifted_total p 1) as [[max Emax]|Emax]; rewrite Emax; mstep.
  2: { right. exists InvalidCoordinate, (st_scratch s). rewrite with_scratch_same. split; [done|]. by intros [[l ?] _]. }
  destruct (stage_all_spec (block_sections (section_of min) (section_of max)) s Hok) as [(l&->&Hl&Hh&_)|(err&l&->&Hn)]; [left|right].
  - exists l. split; [done|]. split; [done|]. split; [|by eexists]. intros k. rewrite (Hh k). naive_solver.
  - exists err, l. split; [done|]. intros [_ Hr]. apply Hn. split; [done|]. eapply room_weaken; [|exact Hr]. naive_solver.
Qed.

Lemma stage_blocks_spec ps s :
  staging (stage_blocks ps) (λ k, ∃ p, p ∈ ps ∧ touches p k) (∀ p, p ∈ ps → ∃ l, affected p = Ok l) s.
Proof.
  revert s. induction ps as [|p ps IH]; intros s; cbn [stage_blocks].
  - eapply staging_ext; [| |apply staging_ret]; [set_solver|]. split; [|done]. intros _ p Hp. by apply not_elem_of_nil in Hp.
  - eapply staging_ext; [| |apply staging_bind; [apply stage_block_spec|intros; apply IH]]; [set_solver|].
    split; [|by intros Hall; split; [apply Hall; left|intros q Hq; apply Hall; by right]].
    intros [Hp Hps] q [->|Hq]%elem_of_cons; auto.
Qed.
End notifications.

(** ** Private copies *)

Section copies.
Context `{Allocator, StorageLayout}.
Implicit Types (s : Storage) (id : LayerId) (key : LightSection).

(** Only scratch space, staged copies and the layer memory may differ. *)
Record frame s s' : Prop := {
  fr_stamp : st_stamp s' = st_stamp s;
  fr_kind : st_kind s' = st_kind s;
  fr_limits : st_limits s' = st_limits s;
  fr_entries : st_entries s' = st_entries s;
  fr_columns : st_columns s' = st_columns s;
  fr_lowest : st_lowest s' = st_lowest s;
  fr_notifications : st_notifications s' = st_notifications s;
  fr_published : st_published s' = st_published s;
  fr_flags : st_changed s' = st_changed s ∧ st_inconsistent s' = st_inconsistent s;
  fr_metadata : st_metadata s' = st_metadata s;
  fr_bodies : st_visible s' = st_visible s ∧ st_readers s' = st_readers s ∧ st_data_readers s' = st_data_readers s ∧ st_next_body s' = st_next_body s;
  fr_next : (st_next_layer s ≤ st_next_layer s')%nat;
}.
Lemma frame_refl s : frame s s.
Proof. by split. Qed.
Lemma frame_trans s1 s2 s3 : frame s1 s2 → frame s2 s3 → frame s1 s3.
Proof.
  intros [? ? ? ? ? ? ? ? [? ?] ? (?&?&?&?) ?] [? ? ? ? ? ? ? ? [? ?] ? (?&?&?&?) ?].
  split; repeat split; (congruence || etrans; done).
Qed.
Lemma frame_body_refs s s' : frame s s' → body_refs s' = body_refs s.
Proof. intros [? ? ? ? ? ? ? ? ? ? (Hv&Hr&Hd&_) ?]. unfold body_refs, live_bodies, live_data_bodies. by rewrite Hv, Hr, Hd. Qed.
Lemma frame_entry_at s s' key : frame s s' → entry_at s' key = entry_at s key.
Proof. intros Hf. unfold entry_at, entry_index. by rewrite (fr_entries _ _ Hf). Qed.

(** The values of the layers a state refers to. *)
Definition keeps s s' : Prop := ∀ id, id ∈ refs s → st_heap s' !! id = st_heap s !! id.
Lemma keeps_value s s' id : keeps s s' → id ∈ refs s → value_of s' id = value_of s id.
Proof. intros Hk Hid. unfold value_of. by rewrite Hk. Qed.

Lemma collect_frame s : frame s (collect s).
Proof. by split. Qed.

Lemma writable_copy_spec v s :
  heap_ok s → light_layer v →
  (∃ err s', writable_copy v s = Ok (Failed err, s') ∧ frame s s' ∧ st_staged s' = st_staged s ∧ heap_ok s' ∧ keeps s s') ∨
  (∃ lay w, let s' := with_memory s (st_metadata s) lay (<[st_next_layer s := w]> (st_heap s)) (Datatypes.S (st_next_layer s)) in
     writable_copy v s = Ok (Done (st_next_layer s), s') ∧ heap_ok s' ∧ st_heap s !! st_next_layer s = None ∧
     same_levels v w ∧ is_definitely_homogeneous w = false).
Proof.
  intros Hh Hv. remember (writable_copy v s) as r eqn:Er. unfold writable_copy, on_failure, call_bind, query in Er.
  destruct (copy_layer_spec v false s Hh Hv) as (lay&Hlim&[(err&Ec&Hu)|(w&Hnone&Ec&Hh'&Hw&Hsame&_)]); rewrite Ec in Er; mstep in Er; subst r.
  { left. exists err. eexists. split; [done|]. split; [by split|]. split; [done|]. split; [|done].
    destruct Hh as [? ? Hled [? ?]]. split; cbn [with_memory st_heap st_next_layer st_layers st_limits]; [done..|congruence|]. split; congruence. }
  destruct (Hsame eq_refl) as [Hlv _].
  set (s1 := with_memory s (st_metadata s) lay (<[st_next_layer s := w]> (st_heap s)) (Datatypes.S (st_next_layer s))) in *.
  assert (Hval : value_of s1 (st_next_layer s) = w) by (unfold value_of, s1; cbn [with_memory st_heap]; by rewrite lookup_insert_eq).
  rewrite Hval. destruct (materialize_spec w LAYER_BYTES (proj1 Hw)) as [(e&->&_)|(w'&bytes&c&->&Hst&Hok&Hset)]; mstep.
  - left. destruct (collected_spec s1 Hh') as (?&_&_&Hk). exists (Layer e), (collect s1). split; [done|]. split; [apply (frame_trans _ s1); [|apply collect_frame]|].
    { split; try done. cbn. lia. }
    split; [done|]. split; [done|]. intros id Hid. rewrite Hk by done. unfold s1. cbn [with_memory st_heap]. rewrite lookup_insert_ne; [done|].
    intros <-. destruct (ho_refs _ Hh _ Hid). congruence.
  - right. exists lay, w'. split.
    { unfold update, s1, call_ret. cbn [with_memory st_heap st_metadata st_layers st_next_layer]. mstep. unfold with_memory. cbn. by rewrite insert_insert_eq. }
    assert (Hlight : light_layer w') by (split; [done|]; by rewrite Hst).
    split; [|split; [done|split]].
    + destruct Hh' as [Hr Hl Hled Hli]. unfold s1 in *. cbn [with_memory st_heap st_next_layer st_layers st_limits] in *. split; cbn [with_memory st_heap st_next_layer st_layers st_limits].
      * intros id Hid. destruct (decide (id = st_next_layer s)) as [->|]; [by rewrite lookup_insert_eq|]. rewrite lookup_insert_ne by done.
        specialize (Hr id Hid). by rewrite lookup_insert_ne in Hr by done.
      * intros id u. destruct (decide (id = st_next_layer s)) as [->|]; [rewrite lookup_insert_eq; intros [= <-]; split; [lia|done]|].
        rewrite lookup_insert_ne by done. intros Hu. apply (Hl id u). by rewrite lookup_insert_ne.
      * rewrite Hled, !map_size_insert_None by done. done.
      * done.
    + intros p. unfold level_of. rewrite Hset by apply local_ok. apply Hlv.
    + unfold is_definitely_homogeneous. by rewrite Hst.
Qed.

(** Copies staged so far, for the blocks handled. *)
Record stage_inv s0 s (handled : list LightBlock) : Prop := {
  si_frame : frame s0 s;
  si_scratch : st_scratch s = st_scratch s0;
  si_heap : heap_ok s;
  si_ext id v : st_heap s0 !! id = Some v → st_heap s !! id = Some v;
  si_dom id : is_Some (st_heap s !! id) → is_Some (st_heap s0 !! id) ∨ id ∈ (st_staged s).*2;
  si_keys : NoDup (st_staged s).*1;
  si_ids : NoDup (st_staged s).*2;
  si_copy key c : (key, c) ∈ st_staged s → st_heap s0 !! c = None ∧ ∃ e id, entry_at s0 key = Some e ∧ en_updating e = Some id ∧
    same_levels (value_of s0 id) (value_of s c) ∧ is_definitely_homogeneous (value_of s c) = false;
  si_handled p e id : p ∈ handled → entry_at s0 (section_of p) = Some e → en_updating e = Some id →
    section_of p ∈ (st_staged s).*1 ∨ (is_definitely_homogeneous (value_of s0 id) = false ∧ exclusive s0 e id);
}.

Lemma stage_inv_more s0 s handled p :
  stage_inv s0 s handled →
  (∀ e id, entry_at s0 (section_of p) = Some e → en_updating e = Some id →
    section_of p ∈ (st_staged s).*1 ∨ (is_definitely_homogeneous (value_of s0 id) = false ∧ exclusive s0 e id)) →
  stage_inv s0 s (handled ++ [p]).
Proof.
  intros [] Hp. split; [done..|]. intros q e id [Hq|Hq%list_elem_of_singleton]%elem_of_app; [eauto|]. subst q. apply Hp.
Qed.

Lemma stage_exclusive s0 s e id handled :
  base_ok s0 → st_staged s0 = [] → stage_inv s0 s handled → e ∈ st_entries s0 → en_updating e = Some id →
  strong_count s id = (1 + Nat.b2n (queued_alias e id))%nat → exclusive s0 e id.
Proof.
  intros Hb Hst Hi He Hu Hc.
  assert (Hex : exclusive s e id).
  { apply strong_count_exclusive; [rewrite (fr_entries _ _ (si_frame _ _ _ Hi)); apply Hb|by rewrite (fr_entries _ _ (si_frame _ _ _ Hi))|done|done]. }
  destruct Hex as (Hbody&_&Hk). split; [by rewrite <- (frame_body_refs _ _ (si_frame _ _ _ Hi))|]. split; [rewrite Hst; apply not_elem_of_nil|].
  by rewrite <- (fr_entries _ _ (si_frame _ _ _ Hi)).
Qed.

Lemma stage_inv_keeps s0 s handled : heap_ok s0 → stage_inv s0 s handled → keeps s0 s.
Proof. intros Hh Hi id Hid. destruct (ho_refs _ Hh _ Hid) as [v Hv]. rewrite Hv. by apply (si_ext _ _ _ Hi). Qed.

(** The state after a failed staging, which the caller cleans up. *)
Definition stage_failed s0 (r : outcome False (reply StorageError () * Storage)) : Prop :=
  ∃ err s', r = Ok (Failed err, s') ∧ frame s0 s' ∧ heap_ok s' ∧ keeps s0 s'.

Lemma stage_copy_step s0 s handled p e id lay w :
  base_ok s0 → stage_inv s0 s handled → section_of p ∉ (st_staged s).*1 → entry_at s0 (section_of p) = Some e → en_updating e = Some id →
  let s1 := with_memory s (st_metadata s) lay (<[st_next_layer s := w]> (st_heap s)) (Datatypes.S (st_next_layer s)) in
  heap_ok s1 → st_heap s !! st_next_layer s = None → same_levels (value_of s id) w → is_definitely_homogeneous w = false →
  stage_inv s0 (with_staged s1 (st_staged s ++ [(section_of p, st_next_layer s)])) (handled ++ [p]).
Proof.
  intros Hb Hi Hnew He Hu s1 Hh1 Hnone Hsame Hhom. pose proof Hi as [Hfr Hsc Hh Hext Hdom Hk Hids Hcopy Hhandled].
  assert (Hid : id ∈ refs s0) by (eapply refs_updating; [apply (entry_at_some s0 (section_of p)); [apply Hb|done]|done]).
  assert (Hv : value_of s id = value_of s0 id) by (apply keeps_value; [eapply stage_inv_keeps; [apply Hb|done]|done]).
  assert (Hnone0 : st_heap s0 !! st_next_layer s = None).
  { destruct (st_heap s0 !! st_next_layer s) as [v|] eqn:E; [|done]. apply Hext in E. congruence. }
  assert (Hold : ∀ key c, (key, c) ∈ st_staged s → c ≠ st_next_layer s).
  { intros key c Hin ->. destruct (ho_refs _ Hh (st_next_layer s)) as [v Hv']; [|congruence]. apply elem_of_refs. right; left. apply list_elem_of_fmap. by exists (key, st_next_layer s). }
  split.
  - eapply frame_trans; [exact Hfr|]. split; try done. cbn. lia.
  - done.
  - destruct Hh1 as [Hr Hl Hled Hli]. split; [|exact Hl|exact Hled|exact Hli]. intros j Hj. rewrite elem_of_refs in Hj. cbn [with_staged st_staged st_heap st_entries] in *.
    unfold s1. cbn [with_memory st_heap]. destruct (decide (j = st_next_layer s)) as [->|Hne]; [rewrite lookup_insert_eq; eauto|].
    apply Hr. apply elem_of_refs. destruct Hj as [?|[Hj|?]]; [by left|right; left|by right; right].
    rewrite fmap_app in Hj. apply elem_of_app in Hj as [?|Hj]; [done|]. cbn in Hj. apply list_elem_of_singleton in Hj. done.
  - intros j v Hj. cbn [with_staged st_heap]. unfold s1. cbn [with_memory st_heap]. rewrite lookup_insert_ne; [by apply Hext|]. intros <-. congruence.
  - intros j Hj. cbn [with_staged st_heap st_staged] in *. unfold s1 in Hj. cbn [with_memory st_heap] in Hj. rewrite fmap_app, elem_of_app.
    destruct (decide (j = st_next_layer s)) as [->|Hne]; [right; right; by left|]. rewrite lookup_insert_ne in Hj by done. destruct (Hdom j Hj); tauto.
  - cbn [with_staged st_staged]. rewrite fmap_app. apply NoDup_app. split; [done|]. split; [|apply NoDup_singleton].
    intros k Hin Hk'. cbn in Hk'. apply list_elem_of_singleton in Hk' as ->. done.
  - cbn [with_staged st_staged]. rewrite fmap_app. apply NoDup_app. split; [done|]. split; [|apply NoDup_singleton].
    intros c Hin Hc'. cbn in Hc'. apply list_elem_of_singleton in Hc' as ->. apply list_elem_of_fmap in Hin as ([key c]&Heq&Hin). cbn in Heq. by eapply Hold.
  - intros key c Hin. cbn [with_staged st_staged] in Hin. apply elem_of_app in Hin as [Hin|Hin].
    + destruct (Hcopy key c Hin) as (Hc0&e'&id'&?&?&?&?). split; [done|]. exists e', id'.
      assert (Hvc : value_of (with_staged s1 (st_staged s ++ [(section_of p, st_next_layer s)])) c = value_of s c).
      { unfold value_of. cbn [with_staged st_heap]. unfold s1. cbn [with_memory st_heap]. rewrite lookup_insert_ne; [done|]. symmetry. by eapply Hold. }
      rewrite Hvc. done.
    + apply list_elem_of_singleton in Hin. injection Hin as -> ->. split; [done|]. exists e, id.
      assert (Hvc : value_of (with_staged s1 (st_staged s ++ [(section_of p, st_next_layer s)])) (st_next_layer s) = w).
      { unfold value_of. cbn [with_staged st_heap]. unfold s1. cbn [with_memory st_heap]. by rewrite lookup_insert_eq. }
      rewrite Hvc, <- Hv. done.
  - intros q e' id' Hq He' Hu'. cbn [with_staged st_staged]. rewrite fmap_app, elem_of_app.
    apply elem_of_app in Hq as [Hq|Hq%list_elem_of_singleton]; [destruct (Hhandled q e' id' Hq He' Hu'); tauto|]. subst q. left. right. cbn. by left.
Qed.

Lemma stage_write_layers_spec s0 blocks s handled :
  base_ok s0 → st_staged s0 = [] → stage_inv s0 s handled →
  (∃ s', stage_write_layers blocks s = Ok (Done tt, s') ∧ stage_inv s0 s' (handled ++ blocks)) ∨ stage_failed s0 (stage_write_layers blocks s).
Proof.
  intros Hb Hst0. revert s handled. induction blocks as [|p blocks IH]; intros s handled Hi; cbn [stage_write_layers].
  { left. exists s. by rewrite app_nil_r. }
  assert (Hskip : (∀ e id, entry_at s0 (section_of p) = Some e → en_updating e = Some id →
      section_of p ∈ (st_staged s).*1 ∨ (is_definitely_homogeneous (value_of s0 id) = false ∧ exclusive s0 e id)) →
    (∃ s', stage_write_layers blocks s = Ok (Done tt, s') ∧ stage_inv s0 s' (handled ++ p :: blocks)) ∨ stage_failed s0 (stage_write_layers blocks s)).
  { intros Hp. rewrite cons_middle, app_assoc. apply IH. by apply stage_inv_more. }
  pose proof (si_frame _ _ _ Hi) as Hfr. pose proof (stage_inv_keeps _ _ _ (bo_heap _ Hb) Hi) as Hkeep.
  destruct (bool_decide (section_of p ∈ (st_staged s).*1)) eqn:Hin.
  { apply Hskip. intros e id _ _. left. by apply bool_decide_eq_true in Hin. }
  apply bool_decide_eq_false in Hin. rewrite (frame_entry_at _ _ _ Hfr).
  destruct (entry_at s0 (section_of p)) as [e|] eqn:He; cbn [mbind option_bind]; [|apply Hskip; by intros ?? [=]].
  destruct (en_updating e) as [id|] eqn:Hu; cbn [mbind option_bind]; [|apply Hskip; intros ?? [= <-]; congruence].
  assert (Hent : e ∈ st_entries s0) by (apply (entry_at_some s0 (section_of p)); [apply Hb|done]).
  assert (Hid : id ∈ refs s0) by (by eapply refs_updating).
  destruct (_ =? max_sections _).
  { right. exists SectionLimit, s. split; [done|]. split; [done|]. split; [apply Hi|done]. }
  assert (Hv : value_of s id = value_of s0 id) by (by apply keeps_value). rewrite Hv.
  destruct (negb _ && _) eqn:Htest.
  { apply andb_true_iff in Htest as [Hh%negb_true_iff Hc%Nat.eqb_eq]. apply Hskip. intros e' id' [= <-] Hu'. right.
    assert (id' = id) as -> by congruence. split; [done|]. by eapply stage_exclusive. }
  pose proof (writable_copy_spec (value_of s0 id) s (si_heap _ _ _ Hi) (value_light s0 id (bo_heap _ Hb) Hid)) as Hw.
  unfold call_bind at 1 3. unfold stage_failed.
  destruct Hw as [(err&s'&->&Hfr'&_&Hh'&Hk')|(lay&w&->&Hh1&Hnone&Hsame&Hhom)]; mstep.
  - right. exists err, s'. split; [done|]. split; [by eapply frame_trans|]. split; [done|].
    intros j Hj. rewrite Hk'; [by apply Hkeep|]. apply elem_of_refs. rewrite elem_of_refs, Hst0 in Hj.
    rewrite (frame_body_refs _ _ Hfr), (fr_entries _ _ Hfr). destruct Hj as [?|[Hj|?]]; [by left|by apply not_elem_of_nil in Hj|by right; right].
  - unfold call_bind, update. mstep. replace (handled ++ p :: blocks) with ((handled ++ [p]) ++ blocks) by (by rewrite <- app_assoc).
    apply IH. rewrite <- Hv in Hsame. by apply (stage_copy_step s0 s handled p e id lay w).
Qed.

(** ** Installing *)

(** The entries once the copies [m] are installed. *)
Definition install_entry (m : gmap LightSection LayerId) (e : SectionEntry) : SectionEntry :=
  match m !! en_key e, en_updating e with
  | Some c, Some id => set_updating e (Some c) (if queued_alias e id then Some c else en_queued e)
  | _, _ => e
  end.
Lemma install_entry_key m e : en_key (install_entry m e) = en_key e.
Proof. unfold install_entry. by destruct (m !! _), (en_updating e). Qed.
Lemma install_entry_empty (l : list SectionEntry) : install_entry ∅ <$> l = l.
Proof. induction l as [|e l IH]; [done|]. rewrite fmap_cons, IH. done. Qed.

Lemma install_entry_insert l i e m c id :
  in_order en_key sort_key l → l !! i = Some e → m !! en_key e = None → en_updating e = Some id →
  <[i := set_updating e (Some c) (if queued_alias e id then Some c else en_queued e)]> (install_entry m <$> l) = install_entry (<[en_key e := c]> m) <$> l.
Proof.
  intros Hl Hi Hm Hu. apply list_eq. intros j. destruct (decide (j = i)) as [->|Hn].
  - rewrite list_lookup_insert_eq by (rewrite length_fmap; by eapply lookup_lt_Some). rewrite list_lookup_fmap, Hi. cbn [fmap option_fmap option_map].
    unfold install_entry. by rewrite lookup_insert_eq, Hu.
  - rewrite list_lookup_insert_ne by done. rewrite !list_lookup_fmap. destruct (l !! j) as [e'|] eqn:Hj; [|done]. cbn [fmap option_fmap option_map].
    unfold install_entry. rewrite lookup_insert_ne; [done|]. intros Hk. apply Hn. eapply (sorted_unique (λ a, sort_key (en_key a)) l); [done..|]. by rewrite Hk.
Qed.

(** Installation from [s1], with [m] installed and [pops] to go. *)
Record installing s1 s (m : gmap LightSection LayerId) (pops : list (LightSection * LayerId)) : Prop := {
  il_same : st_stamp s = st_stamp s1 ∧ st_kind s = st_kind s1 ∧ st_limits s = st_limits s1 ∧ st_columns s = st_columns s1 ∧
    st_lowest s = st_lowest s1 ∧ st_notifications s = st_notifications s1 ∧ st_published s = st_published s1 ∧
    st_inconsistent s = st_inconsistent s1 ∧ st_metadata s = st_metadata s1 ∧ st_scratch s = st_scratch s1 ∧
    st_visible s = st_visible s1 ∧ st_readers s = st_readers s1 ∧ st_data_readers s = st_data_readers s1 ∧ st_next_body s = st_next_body s1;
  il_entries : st_entries s = install_entry m <$> st_entries s1;
  il_staged : st_staged s = rev pops;
  il_heap : heap_ok s;
  il_tight : tight s;
  il_values id : id ∈ refs s → st_heap s !! id = st_heap s1 !! id;
}.
Lemma il_body_refs s1 s m pops : installing s1 s m pops → body_refs s = body_refs s1.
Proof. intros [(_&_&_&_&_&_&_&_&_&_&Hv&Hr&Hd&_) _ _ _ _ _]. unfold body_refs, live_bodies, live_data_bodies. by rewrite Hv, Hr, Hd. Qed.

Lemma install_spec s1 s m key c pops e id :
  in_order en_key sort_key (st_entries s1) → installing s1 s m ((key, c) :: pops) → m !! key = None → entry_at s1 key = Some e → en_updating e = Some id →
  ∃ s', install (with_staged s (rev pops)) key c = Ok s' ∧ installing s1 s' (<[key := c]> m) pops.
Proof.
  intros Ho Hi Hm He Hu. pose proof (entry_at_index s1 key e Ho He) as (i&Hidx&Hie). pose proof (proj1 (entry_at_some s1 key e Ho) He) as [_ Hkey].
  pose proof Hi as [Hsame Hent Hst Hh Ht Hval].
  assert (Hk : in_order en_key sort_key (st_entries s)) by (rewrite Hent; apply in_order_fmap; [apply install_entry_key|done]).
  assert (Hat : entry_at s key = Some e).
  { unfold entry_at, entry_index. rewrite Hent. change (found (install_entry m <$> st_entries s1) (search en_key sort_key (install_entry m <$> st_entries s1) key) = Some e).
    rewrite found_fmap; [|apply _|apply install_entry_key|done]. change (install_entry m <$> entry_at s1 key = Some e). rewrite He. cbn. f_equal.
    unfold install_entry. by rewrite Hkey, Hm. }
  destruct (entry_at_index s key e Hk Hat) as (i'&Hidx'&Hie').
  assert (i' = i) as ->.
  { rewrite Hent, list_lookup_fmap in Hie'. apply fmap_Some in Hie' as (e0&He0&Heq).
    eapply (sorted_unique (λ a, sort_key (en_key a)) (st_entries s1)); [done..|]. rewrite Heq, install_entry_key. done. }
  unfold install. cbn [with_staged st_entries]. change (entry_index (with_staged s (rev pops)) key) with (entry_index s key). rewrite Hidx', Hie'. mstep. rewrite Hu. mstep.
  unfold modify_entry. cbn [with_staged st_entries]. rewrite Hie'. mstep.
  set (s2 := with_flags (with_entries (with_staged s (rev pops)) _) true _).
  assert (Hent2 : st_entries s2 = install_entry (<[key := c]> m) <$> st_entries s1).
  { unfold s2. cbn [with_flags with_entries st_entries]. rewrite Hent. rewrite <- Hkey. apply install_entry_insert; [done..|by rewrite Hkey|done]. }
  assert (Hsub : ∀ j, j ∈ refs s2 → j ∈ refs s).
  { intros j Hj. apply elem_of_refs in Hj as [(e'&He'&Hj)|[Hj|Hj]]; apply elem_of_refs.
    - unfold s2 in He'. cbn [with_flags with_entries st_entries] in He'. apply list_elem_of_lookup in He' as [x Hx].
      apply list_lookup_insert_Some in Hx as [(_&<-&_)|[_ Hx]]; [|left; exists e'; split; [by eapply list_elem_of_lookup_2|done]].
      apply elem_of_entry_refs in Hj. cbn [set_updating en_updating en_queued] in Hj.
      assert (Hcase : j = c ∨ en_queued e = Some j) by (destruct (queued_alias e id); naive_solver).
      destruct Hcase as [->|Hq]; [right; left; rewrite Hst; apply list_elem_of_fmap; exists (key, c); split; [done|]; cbn [rev]; apply elem_of_app; right; by left|].
      left. exists e. split; [by eapply list_elem_of_lookup_2|]. apply elem_of_entry_refs. by right.
    - right; left. unfold s2 in Hj. cbn [with_flags with_entries with_staged st_staged] in Hj. rewrite Hst. cbn [rev]. rewrite fmap_app, elem_of_app. by left.
    - right; right. exact Hj. }
  assert (Hh2 : heap_ok s2).
  { by apply (heap_ok_sub s). }
  destruct (collected_spec s2 Hh2) as (Hh3&Ht3&_&Hv3).
  eexists. split; [reflexivity|]. split; [done|exact Hent2|done|done|done|].
  intros j Hj. rewrite Hv3 by exact Hj. cbn [st_heap]. apply Hval, Hsub, Hj.
Qed.

Lemma install_all_spec s1 pops s m :
  in_order en_key sort_key (st_entries s1) → installing s1 s m pops → NoDup pops.*1 →
  (∀ key c, (key, c) ∈ pops → m !! key = None ∧ ∃ e id, entry_at s1 key = Some e ∧ en_updating e = Some id) →
  ∃ s' m', install_all pops s = Ok s' ∧ installing s1 s' m' [] ∧ ∀ key c, m' !! key = Some c ↔ (key, c) ∈ pops ∨ m !! key = Some c.
Proof.
  intros Ho. revert s m. induction pops as [|[key c] pops IH]; intros s m Hi Hn Hp; cbn [install_all].
  { exists s, m. split; [done|]. split; [done|]. intros key c. split; [by right|]. intros [Hin|?]; [by apply not_elem_of_nil in Hin|done]. }
  rewrite fmap_cons in Hn. apply NoDup_cons in Hn as [Hk Hn]. destruct (Hp key c) as (Hm&e&id&He&Hu); [by left|].
  destruct (install_spec s1 s m key c pops e id Ho Hi Hm He Hu) as (s2&->&Hi2). mstep.
  destruct (IH s2 (<[key := c]> m) Hi2 Hn) as (s'&m'&->&Hi'&Hm').
  { intros key' c' Hin. destruct (Hp key' c') as [Hnone ?]; [by right|]. split; [|done]. rewrite lookup_insert_ne; [done|]. intros ->.
    apply Hk. apply list_elem_of_fmap. by exists (key', c'). }
  exists s', m'. split; [done|]. split; [done|]. intros key' c'. rewrite Hm', elem_of_cons. destruct (decide (key' = key)) as [->|Hne].
  - rewrite lookup_insert_eq. split; [intros [Hin|[= ->]]; [by left; right|by left; left]|]. intros [[[= ->]|Hin]|Hm2]; [by right|by left|congruence].
  - rewrite lookup_insert_ne by done. split; [intros [?|?]; tauto|]. intros [[[= ? ?]|?]|?]; [congruence|tauto..].
Qed.

(** ** Prepared states *)

Definition private s (ps : list LightBlock) : Prop := ∀ p e id,
  p ∈ ps → entry_at s (section_of p) = Some e → en_updating e = Some id → is_definitely_homogeneous (value_of s id) = false ∧ exclusive s e id.
Definition st_prepared s (ps : list LightBlock) : Prop :=
  room s (st_notifications s) (λ k, ∃ p, p ∈ ps ∧ touches p k) ∧ (∀ p, p ∈ ps → ∃ l, affected p = Ok l) ∧ private s ps.

(** The layers of the snapshots that readers hold, and that they are as they were. *)
Definition held s : list LayerId := (st_readers s ≫= λ b, (sd_layers b).*2) ++ (st_data_readers s ≫= λ b, (dd_layers b).*2).
Record readers_kept s s' : Prop := {
  rk_readers : st_readers s' = st_readers s ∧ st_data_readers s' = st_data_readers s;
  rk_held id : id ∈ held s → st_heap s' !! id = st_heap s !! id;
}.
Lemma readers_kept_trans s1 s2 s3 : readers_kept s1 s2 → readers_kept s2 s3 → readers_kept s1 s3.
Proof.
  intros [[E1 E2] H1] [[E3 E4] H2]. split; [split; congruence|]. intros id Hid. rewrite H2, H1; [done..|]. unfold held. by rewrite E1, E2.
Qed.
Lemma held_bodies s id : id ∈ held s → id ∈ body_refs s.
Proof.
  unfold held, body_refs. rewrite !elem_of_app, !list_elem_of_bind. unfold live_bodies, live_data_bodies.
  intros [(b&?&Hb)|(b&?&Hb)]; [left|right]; exists b; (split; [done|]); apply elem_of_remove_dups; [by right|done].
Qed.
Lemma held_refs s id : id ∈ held s → id ∈ refs s.
Proof. intros Hid. apply elem_of_refs. right; right. by apply held_bodies. Qed.
Lemma kept_readers s s' : st_readers s' = st_readers s → st_data_readers s' = st_data_readers s → keeps s s' → readers_kept s s'.
Proof. intros ? ? Hk. split; [done|]. intros id Hid. by apply Hk, held_refs. Qed.
Lemma held_heap s s' : st_readers s' = st_readers s → st_data_readers s' = st_data_readers s → st_heap s' = st_heap s → readers_kept s s'.
Proof. intros ? ? Hh. split; [done|]. intros id _. by rewrite Hh. Qed.
Lemma collect_held s : heap_ok s → readers_kept s (collect s).
Proof. intros Hh. apply kept_readers; [done..|]. by destruct (collected_spec s Hh) as (_&_&_&Hk). Qed.

(** What the engine and the readers of levels see. *)
Record looks_alike s s' : Prop := {
  la_kind : st_kind s' = st_kind s;
  la_stamp : st_stamp s' = st_stamp s;
  la_level p : level_at s' p = level_at s p;
  la_columns : st_columns s' = st_columns s;
  la_inconsistent : st_inconsistent s' = st_inconsistent s;
  la_state k : entry_state s' k = entry_state s k;
  la_held : readers_kept s s';
}.
Lemma looks_alike_refl s : looks_alike s s.
Proof. by split. Qed.
Lemma looks_alike_trans s1 s2 s3 : looks_alike s1 s2 → looks_alike s2 s3 → looks_alike s1 s3.
Proof. intros [] []. split; intros; (congruence || by eapply readers_kept_trans). Qed.

Lemma frame_base s s' : base_ok s → frame s s' → heap_ok s' → base_ok s'.
Proof.
  intros [_ He Hc Hent Hs] Hf Hh. pose proof Hf as [_ _ Hlim Hen Hco _ _ _ _ _ _ _]. split; [done|by rewrite Hen|by rewrite Hco|by rewrite Hen|by rewrite Hen, Hlim].
Qed.
Lemma frame_alike s s' : base_ok s → frame s s' → keeps s s' → looks_alike s s'.
Proof.
  intros Hb Hf Hk. split; [apply Hf|apply Hf| |apply Hf|apply Hf|intros k; unfold entry_state; by rewrite (frame_entry_at _ _ _ Hf)|apply kept_readers; [apply Hf..|done]]. intros p. unfold level_at, updating_at. rewrite (frame_entry_at _ _ _ Hf).
  destruct (entry_at s (section_of p)) as [e|] eqn:He; [|done]. cbn [mbind option_bind]. destruct (en_updating e) as [id|] eqn:Hu; [|done]. cbn [mbind option_bind].
  rewrite (keeps_value s s'); [done|done|]. eapply refs_updating; [|done]. apply (entry_at_some s (section_of p)); [apply Hb|done].
Qed.
Lemma frame_storage s s' : storage_ok s → frame s s' → heap_ok s' → tight s' → st_staged s' = [] → storage_ok s'.
Proof.
  intros [Hb Hbod _ _ [Hn1 Hn2] [Hp1 Hp2]] Hf Hh Ht Hst. pose proof Hf as [_ _ Hlim _ _ _ Hn Hp _ _ (Hvis&Hrd&_) _].
  split; [by eapply frame_base|unfold bodies_ok; by rewrite Hvis, Hrd|done|done|unfold list_ok; rewrite Hn, Hlim; done|unfold list_ok; rewrite Hp, Hlim; done].
Qed.

Section installed.
Context (s0 s1 sf : Storage) (ps : list LightBlock) (m : gmap LightSection LayerId).
Hypothesis Hok : storage_ok s0.
Hypothesis Hstage : stage_inv s0 s1 ps.
Hypothesis Hinst : installing s1 sf m [].
Hypothesis Hm : ∀ key c, m !! key = Some c ↔ (key, c) ∈ st_staged s1.

Lemma installed_entries : st_entries sf = install_entry m <$> st_entries s0.
Proof. rewrite (il_entries _ _ _ _ Hinst). by rewrite (fr_entries _ _ (si_frame _ _ _ Hstage)). Qed.
Lemma installed_entry_at key : entry_at sf key = install_entry m <$> entry_at s0 key.
Proof.
  unfold entry_at, entry_index. rewrite installed_entries.
  apply (found_fmap en_key sort_key (install_entry m) (st_entries s0) key); [apply install_entry_key|apply Hok].
Qed.

(** A copy is fresh. *)
Lemma copy_fresh key c : m !! key = Some c → c ∉ refs s0.
Proof.
  intros [Hnone _]%Hm%(si_copy _ _ _ Hstage) Hin. destruct (ho_refs _ (bo_heap _ (sk_base _ Hok)) _ Hin). congruence.
Qed.
Lemma copy_key key key' c : m !! key = Some c → m !! key' = Some c → key' = key.
Proof.
  intros (i&Hi)%Hm%list_elem_of_lookup (j&Hj)%Hm%list_elem_of_lookup.
  assert (i = j) as ->; [|congruence]. eapply (NoDup_lookup (st_staged s1).*2); [apply (si_ids _ _ _ Hstage)| |]; rewrite list_lookup_fmap, ?Hi, ?Hj; done.
Qed.

(** References of an entry after installation. *)
Lemma installed_refs e id : id ∈ entry_refs (install_entry m e) → m !! en_key e = Some id ∨ id ∈ entry_refs e.
Proof.
  unfold install_entry. destruct (m !! en_key e) as [c|] eqn:Hc; [|by right]. destruct (en_updating e) as [u|] eqn:Hu; [|by right].
  rewrite !elem_of_entry_refs. cbn [set_updating en_updating en_queued]. destruct (queued_alias e u); naive_solver.
Qed.

Lemma installed_value key e e' id :
  entry_at s0 key = Some e → install_entry m e = e' → en_updating e' = Some id →
  ∃ id0, en_updating e = Some id0 ∧ same_levels (value_of s0 id0) (value_of sf id) ∧
    (m !! key = Some id ∨ (m !! key = None ∧ id = id0 ∧ value_of sf id = value_of s0 id ∧ e' = e)) ∧
    (m !! key = Some id → is_definitely_homogeneous (value_of sf id) = false).
Proof.
  intros He He' Hu. pose proof (proj1 (entry_at_some s0 key e (bo_entries _ (sk_base _ Hok))) He) as [Hin Hkey].
  assert (Hsf : id ∈ refs sf).
  { eapply refs_updating; [|exact Hu]. rewrite installed_entries. apply list_elem_of_fmap. eauto. }
  assert (Hv1 : value_of sf id = value_of s1 id) by (unfold value_of; by rewrite (il_values _ _ _ _ Hinst)).
  unfold install_entry in He'. rewrite Hkey in He'. destruct (m !! key) as [c|] eqn:Hc.
  - destruct (si_copy _ _ _ Hstage key c) as (_&e1&id1&He1&Hu1&Hs&Hh); [by apply Hm|]. assert (e1 = e) as -> by congruence.
    rewrite Hu1 in He'. subst e'. cbn [set_updating en_updating] in Hu. injection Hu as ->. exists id1. rewrite Hv1. split; [done|]. split; [done|]. split; [by left|done].
  - subst e'. exists id. assert (Hid0 : id ∈ refs s0) by (by eapply refs_updating).
    assert (Hv : value_of sf id = value_of s0 id).
    { rewrite Hv1. apply keeps_value; [|done]. eapply stage_inv_keeps; [apply Hok|done]. }
    split; [done|]. split; [by rewrite Hv|]. split; [by right|done].
Qed.

Lemma installed_ok : storage_ok sf ∧ looks_alike s0 sf ∧ private sf ps.
Proof.
  pose proof Hok as [Hb Hbod Ht0 Hst0 Hn Hp]. pose proof (il_same _ _ _ _ Hinst) as (Estamp&Ekind&Elim&Ecol&Elow&Enot&Epub&Einc&_&_&Evis&Erd&_).
  pose proof (si_frame _ _ _ Hstage) as Hfr. pose proof Hfr as [Fstamp Fkind Flim Fent Fcol Flow Fnot Fpub [_ Finc] _ (Fvis&Frd&_) _].
  split; [|split].
  - split; [split| | | | |].
    + apply Hinst.
    + rewrite installed_entries. apply in_order_fmap; [apply install_entry_key|apply Hb].
    + rewrite Ecol, Fcol. apply Hb.
    + intros e He. rewrite installed_entries in He. apply list_elem_of_fmap in He as (e0&->&He0). pose proof (bo_entry _ Hb e0 He0) as Hok0.
      unfold install_entry. destruct (m !! _); [|done]. destruct (en_updating e0) eqn:Hu; [|done]. destruct Hok0 as [? Hupd ?].
      split; [done| |done]. cbn [set_updating en_updating en_state en_remove]. rewrite <- Hupd, Hu. split; eauto.
    + rewrite installed_entries, Elim, Flim. unfold zlen. rewrite length_fmap. apply Hb.
    + unfold bodies_ok. by rewrite Evis, Erd, Fvis, Frd.
    + apply Hinst.
    + apply (il_staged _ _ _ _ Hinst).
    + unfold list_ok. rewrite Enot, Fnot, Elim, Flim. done.
    + unfold list_ok. rewrite Epub, Fpub, Elim, Flim. done.
  - split; [congruence|congruence| |congruence|congruence| |].
    3: { split; [cbn; destruct (il_same _ _ _ _ Hinst) as (_&_&_&_&_&_&_&_&_&_&_&E1&E2&_); destruct Hfr as [_ _ _ _ _ _ _ _ _ _ (_&E3&E4&_) _]; by rewrite E1, E2, E3, E4|]. intros id Hid. rewrite (il_values _ _ _ _ Hinst id).
         - apply (stage_inv_keeps _ _ _ (bo_heap _ Hb) Hstage). by apply held_refs.
         - apply elem_of_refs. right; right. rewrite (il_body_refs _ _ _ _ Hinst), (frame_body_refs _ _ Hfr). by apply held_bodies. }
    2: { intros k. unfold entry_state. rewrite installed_entry_at. destruct (entry_at s0 k) as [e|]; [|done]. cbn [fmap option_fmap option_map].
         unfold install_entry. destruct (m !! _); [|done]. by destruct (en_updating e). }
    intros p. unfold level_at, updating_at. rewrite installed_entry_at.
    destruct (entry_at s0 (section_of p)) as [e|] eqn:He; [|done]. cbn [fmap option_fmap option_map mbind option_bind].
    destruct (en_updating (install_entry m e)) as [id|] eqn:Hu.
    + destruct (installed_value _ e _ id He eq_refl Hu) as (id0&->&Hs&_). cbn [mbind option_bind]. by rewrite Hs.
    + destruct (en_updating e) as [id0|] eqn:Hu0; [|done]. unfold install_entry in Hu. destruct (m !! _); [|congruence]. by rewrite Hu0 in Hu.
  - intros p e' id Hin He' Hu'. rewrite installed_entry_at in He'. apply fmap_Some in He' as (e&He&->).
    pose proof (proj1 (entry_at_some s0 _ e (bo_entries _ Hb)) He) as [Hine Hkey].
    destruct (installed_value _ e _ id He eq_refl Hu') as (id0&Hu0&_&Hcase&Hhom).
    assert (Hother : ∀ e2, e2 ∈ st_entries sf → id ∈ entry_refs e2 → ∃ e3, e3 ∈ st_entries s0 ∧ en_key e2 = en_key e3 ∧ (m !! en_key e3 = Some id ∨ id ∈ entry_refs e3)).
    { intros e2 He2 Hid. rewrite installed_entries in He2. apply list_elem_of_fmap in He2 as (e3&->&He3). exists e3. split; [done|]. split; [apply install_entry_key|by apply installed_refs]. }
    assert (Hstaged : id ∉ (st_staged sf).*2) by (rewrite (il_staged _ _ _ _ Hinst); apply not_elem_of_nil).
    assert (Hbody : body_refs sf = body_refs s0) by (by rewrite (il_body_refs _ _ _ _ Hinst), (frame_body_refs _ _ Hfr)).
    destruct Hcase as [Hc|(Hnone&->&Hv&Heq)].
    + split; [by apply Hhom|]. split; [rewrite Hbody; intros Hb2; apply (copy_fresh _ _ Hc), elem_of_refs; by right; right|]. split; [done|].
      intros e2 He2 Hid. destruct (Hother e2 He2 Hid) as (e3&He3&->&[Hc3|Hid3]); rewrite install_entry_key, Hkey.
      * by apply (copy_key _ _ _ Hc).
      * exfalso. apply (copy_fresh _ _ Hc), elem_of_refs. left. eauto.
    + destruct (si_handled _ _ _ Hstage p e id0 Hin He Hu0) as [Hst|[Hh (Hx1&_&Hx3)]].
      { apply list_elem_of_fmap in Hst as ([k c]&Hk&Hst). cbn in Hk. subst k. apply Hm in Hst. congruence. }
      split; [by rewrite Hv|]. split; [by rewrite Hbody|]. split; [done|].
      intros e2 He2 Hid. destruct (Hother e2 He2 Hid) as (e3&He3&->&[Hc3|Hid3]); rewrite install_entry_key; [|by apply Hx3].
      exfalso. apply (copy_fresh _ _ Hc3). by apply (refs_updating s0 e).
Qed.
End installed.

(** ** Preparing *)

Lemma with_staged_nil s : st_staged s = [] → with_staged s [] = s.
Proof. destruct s. cbn. by intros ->. Qed.

Lemma scratch_frame s l : frame s (with_scratch s l).
Proof. by split. Qed.
Lemma scratch_storage s l : storage_ok s → storage_ok (with_scratch s l).
Proof.
  intros Hok. apply (frame_storage s); [done|apply scratch_frame| |exact (sk_tight _ Hok)|apply Hok].
  apply (heap_ok_sub s); [apply Hok|done..].
Qed.
Lemma scratch_alike s l : storage_ok s → looks_alike s (with_scratch s l).
Proof. intros Hok. apply frame_alike; [apply Hok|apply scratch_frame|done]. Qed.

(** Staging from a sound state. *)
Lemma stage_init s0 : storage_ok s0 → stage_inv s0 s0 [].
Proof.
  intros Hok. split; [apply frame_refl|done|apply Hok|done|by left| | | |]; rewrite ?(sk_staged _ Hok); [constructor|constructor| |].
  - intros key c Hin. by apply not_elem_of_nil in Hin.
  - intros p e id Hin. by apply not_elem_of_nil in Hin.
Qed.

(** What is left after the staged copies of a failed call are dropped. *)
Lemma stage_dropped s0 s1 :
  storage_ok s0 → frame s0 s1 → heap_ok s1 → keeps s0 s1 →
  let s' := collect (with_staged s1 []) in storage_ok s' ∧ looks_alike s0 s' ∧ st_notifications s' = st_notifications s0.
Proof.
  intros Hok Hfr Hh1 Hk1 s'. destruct (collected_spec (with_staged s1 [])) as (Hh2&Ht2&_&Hk2).
  { apply (heap_ok_sub s1); [done..|]. intros id. rewrite !elem_of_refs. intros [?|[Hid|?]]; [by left|by apply not_elem_of_nil in Hid|by right; right]. }
  fold s' in Hh2, Ht2, Hk2. assert (Hfr2 : frame s0 s') by (eapply frame_trans; [exact Hfr|by split]).
  assert (Hkeep : keeps s0 s').
  { intros id Hid. rewrite Hk2; [by apply Hk1|]. apply elem_of_refs. apply elem_of_refs in Hid as [(e&?&?)|[Hid|Hid]].
    - left. exists e. split; [|done]. cbn [with_staged st_entries]. by rewrite (fr_entries _ _ Hfr).
    - rewrite (sk_staged _ Hok) in Hid. by apply not_elem_of_nil in Hid.
    - right; right. change (body_refs (with_staged s1 [])) with (body_refs s1). by rewrite (frame_body_refs _ _ Hfr). }
  split; [by apply (frame_storage s0)|]. split; [apply frame_alike; [apply Hok|done|done]|apply Hfr].
Qed.

Lemma stage_tight s0 s1 ps : storage_ok s0 → stage_inv s0 s1 ps → tight s1.
Proof.
  intros Hok Hi id Hid. pose proof (si_frame _ _ _ Hi) as Hfr. apply elem_of_refs. destruct (si_dom _ _ _ Hi id Hid) as [Hd|Hd]; [|right; by left].
  apply (sk_tight _ Hok), elem_of_refs in Hd as [(e&?&?)|[Hd|Hd]].
  - left. exists e. split; [|done]. by rewrite (fr_entries _ _ Hfr).
  - rewrite (sk_staged _ Hok) in Hd. by apply not_elem_of_nil in Hd.
  - right; right. by rewrite (frame_body_refs _ _ Hfr).
Qed.

Lemma install_staged s0 s1 ps :
  storage_ok s0 → stage_inv s0 s1 ps →
  ∃ sf, install_all (rev (st_staged s1)) s1 = Ok sf ∧ storage_ok sf ∧ looks_alike s0 sf ∧ private sf ps ∧
    st_notifications sf = st_notifications s0 ∧ st_limits sf = st_limits s0 ∧ st_scratch sf = st_scratch s0.
Proof.
  intros Hok Hi. pose proof (si_frame _ _ _ Hi) as Hfr.
  assert (Hinst0 : installing s1 s1 ∅ (rev (st_staged s1))).
  { split; [repeat (split; [done|]); done|by rewrite install_entry_empty|by rewrite rev_involutive|apply Hi|by eapply stage_tight|done]. }
  destruct (install_all_spec s1 (rev (st_staged s1)) s1 ∅) as (sf&m&Esf&Hinst&Hm); [rewrite (fr_entries _ _ Hfr); apply Hok|done| | |].
  - rewrite <- Permutation_rev. apply Hi.
  - intros key c Hin. rewrite <- Permutation_rev in Hin. split; [apply lookup_empty|].
    destruct (si_copy _ _ _ Hi key c Hin) as (_&e&id&He&Hu&_). exists e, id. split; [|done]. by rewrite (frame_entry_at _ _ _ Hfr).
  - assert (Hm' : ∀ key c, m !! key = Some c ↔ (key, c) ∈ st_staged s1).
    { intros key c. rewrite Hm, <- Permutation_rev, lookup_empty. split; [intros [?|?]; done|by left]. }
    destruct (installed_ok s0 s1 sf ps m Hok Hi Hinst Hm') as (?&?&?). exists sf. split; [done|]. do 3 (split; [done|]).
    pose proof (il_same _ _ _ _ Hinst) as (_&_&Hl&_&_&Hn&_&_&_&Hsc&_). rewrite Hl, Hn, Hsc. split_and!; [apply Hfr..|apply Hi].
Qed.

Lemma prepare_ok s ps :
  storage_ok s → ∃ s', storage_ok s' ∧ looks_alike s s' ∧ st_notifications s' = st_notifications s ∧
    ((∃ err, st_prepare_writes ps s = Ok (Failed err, s')) ∨ (st_prepare_writes ps s = Ok (Done tt, s') ∧ st_prepared s' ps ∧
       list_ok s' (st_scratch s') ∧ holds (st_notifications s') (λ k, ∃ p, p ∈ ps ∧ touches p k) (st_scratch s'))).
Proof.
  intros Hok. remember (st_prepare_writes ps s) as r eqn:Er. unfold st_prepare_writes, call_bind, update, on_failure in Er. mstep in Er.
  destruct (stage_blocks_spec ps (reset_scratch s)) as [(l&Est&Hl&Hh&Hfit)|(err&l&Est&_)]; [apply Hok|..]; rewrite Est in Er; mstep in Er.
  2: { subst r. exists (with_scratch s l). split; [by apply scratch_storage|]. split; [by apply scratch_alike|]. split; [done|]. left. by exists err. }
  change (with_scratch (reset_scratch s) l) with (with_scratch s l) in Er. set (s0 := with_scratch s l) in *.
  assert (Hok0 : storage_ok s0) by (by apply scratch_storage).
  rewrite (with_staged_nil s0), (collect_tight s0) in Er by apply Hok0.
  pose proof (scratch_alike s l Hok) as Halike0. fold s0 in Halike0.
  destruct (stage_write_layers_spec s0 ps s0 [] (sk_base _ Hok0) (sk_staged _ Hok0) (stage_init s0 Hok0)) as [(s1&Es1&Hi1)|(err&s1&Es1&Hfr&Hh1&Hk1)]; rewrite Es1 in Er; mstep in Er.
  2: { subst r. destruct (stage_dropped s0 s1 Hok0 Hfr Hh1 Hk1) as (?&?&?). eexists. split; [done|]. split; [by eapply looks_alike_trans|]. split; [done|]. left. by exists err. }
  cbn [app] in Hi1. destruct (install_staged s0 s1 ps Hok0 Hi1) as (sf&Esf&Hokf&Hla&Hpriv&Hn&Hlim&Hsc). rewrite Esf in Er. mstep in Er. subst r. change (st_scratch s0) with l in Hsc.
  exists sf. split; [done|]. split; [by eapply looks_alike_trans|]. split; [done|]. right. split; [done|]. split; [|unfold list_ok; rewrite Hsc, Hlim, Hn; done].
  split; [|split; [exact Hfit|done]].
  exists l. destruct Hl as [Hl1 Hl2]. split; [by apply in_order_nodup|]. split; [by rewrite Hlim|]. intros k Hk. apply Hh. by rewrite Hn in Hk.
Qed.
End copies.
