(* ===== verification/LightStorageLevels.v ===== *)
(** * Light section storage: stored levels

    In a prepared state a level write cannot fail: its notifications are
    admitted, its layer is private and materialized, so it changes exactly the
    one level and leaves the state prepared. *)

From Stdlib Require Import Sorted.
From stdpp Require Import gmap list sets sorting.
From S2P Require Import Prelude.
From S2P Require Import Sorted.
From S2P Require Import View.
From S2P Require Import LightTypes.
From S2P Require Import LightLayer.
From S2P Require Import LightStore.
From S2P Require Import LightStorage.
From S2P Require Import LightStorageOps.
From S2P Require Import LightStorageInv.
From S2P Require Import LightStorageWrites.
Local Open Scope Z_scope.

Section levels.
Context `{Allocator, StorageLayout}.
Implicit Types (s : Storage) (id : LayerId) (key : LightSection).

(** Preparing one of the prepared blocks again only fills the scratch list. *)
Lemma prepare_again s ps p e id :
  storage_ok s → st_prepared s ps → p ∈ ps → entry_at s (section_of p) = Some e → en_updating e = Some id →
  ∃ l, st_prepare_writes [p] s = Ok (Done tt, with_scratch s l) ∧ list_ok s l ∧ holds (st_notifications s) (touches p) l.
Proof.
  intros Hok (Hroom&Hfits&Hpriv) Hp He Hu. destruct (Hpriv p e id Hp He Hu) as [Hhom Hex].
  pose proof (proj1 (entry_at_some s _ e (bo_entries _ (sk_base _ Hok))) He) as [Hin _].
  destruct (stage_blocks_spec [p] (reset_scratch s)) as [(l&Est&Hl&Hh&_)|(err&l&Est&Hn)]; [apply Hok|..].
  2: { exfalso. apply Hn. split; [intros q ->%list_elem_of_singleton; by apply Hfits|]. eapply room_weaken; [|exact Hroom].
       intros k [?|(q&->%list_elem_of_singleton&?)]; [by left|right; eauto]. }
  exists l. split; [|split; [done|]].
  2: { intros k. rewrite (Hh k). split; intros [?|Hk]; [by left|right|by left|right].
       - by destruct Hk as (q&->%list_elem_of_singleton&?).
       - exists p. split; [by left|done]. }
  unfold st_prepare_writes, call_bind, update, on_failure. mstep. rewrite Est. mstep.
  change (with_scratch (reset_scratch s) l) with (with_scratch s l).
  pose proof (scratch_storage s l Hok) as Hok0. rewrite with_staged_nil, collect_tight by apply Hok0.
  assert (Hst : st_staged s = []) by apply Hok.
  cbn [stage_write_layers]. change (st_staged (with_scratch s l)) with (st_staged s). rewrite Hst, bool_decide_eq_false_2 by apply not_elem_of_nil.
  change (entry_at (with_scratch s l) (section_of p)) with (entry_at s (section_of p)). rewrite He. cbn [mbind option_bind]. rewrite Hu. cbn [mbind option_bind].
  change (st_limits (with_scratch s l)) with (st_limits s).
  destruct (Z.eqb_spec (zlen (@nil (LightSection * LayerId))) (max_sections (st_limits s))) as [Hz|_].
  { pose proof (bo_sections _ (sk_base _ Hok)) as Hlen. unfold zlen in *. cbn [length] in Hz. apply list_elem_of_lookup in Hin as [i Hi%lookup_lt_Some]. lia. }
  change (value_of (with_scratch s l) id) with (value_of s id). change (strong_count (with_scratch s l) id) with (strong_count s id). rewrite Hhom. cbn [negb].
  destruct (strong_count_exclusive s e id (bo_entries _ (sk_base _ Hok)) Hin Hu) as [_ [_ Hc]]. rewrite (Hc Hex), Nat.eqb_refl. cbn [andb]. mstep.
  change (st_staged (with_scratch s l)) with (st_staged s). rewrite Hst. done.
Qed.

Lemma set_updating_same e u q : en_updating e = u → en_queued e = q → set_updating e u q = e.
Proof. intros <- <-. by destruct e. Qed.

(** Taking the layer for writing detaches its alias. *)
Lemma layer_to_write_private s key e id :
  storage_ok s → entry_at s key = Some e → en_updating e = Some id → exclusive s e id →
  ∃ i s', entry_index s key = inl i ∧ st_entries s !! i = Some e ∧
    layer_to_write key s = Ok (Done (Some {| lw_index := i; lw_queued_alias := queued_alias e id |}), s') ∧
    s' = with_flags (with_entries s (<[i := set_updating e (Some id) (if queued_alias e id then None else en_queued e)]> (st_entries s))) true (st_inconsistent s) ∧
    tight s'.
Proof.
  intros Hok He Hu Hex. pose proof (bo_entries _ (sk_base _ Hok)) as Ho. destruct (entry_at_index s key e Ho He) as (i&Hidx&Hi).
  pose proof (list_elem_of_lookup_2 _ _ _ Hi) as Hin. exists i. eexists. split; [done|]. split; [done|].
  set (s' := with_flags _ true _). assert (Ht : tight s').
  { intros j Hj. apply elem_of_refs. apply (sk_tight _ Hok), elem_of_refs in Hj as [(e'&He'&Hj)|[Hj|Hj]]; [|by right; left|by right; right].
    left. apply list_elem_of_lookup in He' as [x Hx]. destruct (decide (x = i)) as [->|Hne].
    - assert (e' = e) as -> by congruence. eexists. split; [eapply list_elem_of_lookup_2; cbn; apply list_lookup_insert_eq; by eapply lookup_lt_Some|].
      rewrite elem_of_entry_refs in *. cbn [set_updating en_updating en_queued]. unfold queued_alias. case_bool_decide; naive_solver.
    - exists e'. split; [|done]. eapply (list_elem_of_lookup_2 _ x). cbn. by rewrite list_lookup_insert_ne. }
  split; [|done]. unfold layer_to_write. rewrite Hidx, Hi. mstep. rewrite Hu.
  destruct (strong_count_exclusive s e id Ho Hin Hu) as [_ [_ Hc]]. rewrite (Hc Hex), Nat.ltb_irrefl.
  unfold call_bind, call_ret, update. mstep. unfold modify_entry.
  assert (Hsame : ∀ e' : SectionEntry, e' = set_updating e (Some id) (if queued_alias e id then None else en_queued e) →
    Ok (Done (Some {| lw_index := i; lw_queued_alias := queued_alias e id |}), collect (with_flags (with_entries s (<[i := e']> (st_entries s))) true (st_inconsistent s))) =
    (Ok (Done (Some {| lw_index := i; lw_queued_alias := queued_alias e id |}), s') : outcome False (reply StorageError (option LayerWrite) * Storage))).
  { intros e' ->. fold s'. by rewrite collect_tight. }
  destruct (queued_alias e id) eqn:Ha.
  - rewrite Hi. mstep. change (st_inconsistent (with_entries s _)) with (st_inconsistent s). apply Hsame. by rewrite Hu.
  - mstep. etransitivity; [|apply (Hsame e); symmetry; by apply set_updating_same]. rewrite list_insert_id by done. by destruct s.
Qed.

Lemma block_coords_inj p q : section_of q = section_of p → (local (lb_x q), local (lb_y q), local (lb_z q)) = (local (lb_x p), local (lb_y p), local (lb_z p)) → q = p.
Proof.
  unfold section_of, local. intros [= Hx Hy Hz] [= Hx' Hy' Hz']. destruct p as [px py pz], q as [qx qy qz]. cbn in *.
  pose proof (Z.div_mod px 16). pose proof (Z.div_mod py 16). pose proof (Z.div_mod pz 16).
  pose proof (Z.div_mod qx 16). pose proof (Z.div_mod qy 16). pose proof (Z.div_mod qz 16). f_equal; lia.
Qed.

(** A nibble stored in an allocated layer. *)
Lemma write_level_layer v p value limit :
  light_layer v → is_definitely_homogeneous v = false → 0 ≤ value ≤ 15 →
  ∃ w, layer_set v (local (lb_x p)) (local (lb_y p)) (local (lb_z p)) value limit = Ok w ∧ light_layer w ∧ is_definitely_homogeneous w = false ∧
    ∀ q, section_of q = section_of p → level_of w q = if decide (q = p) then value else level_of v q.
Proof.
  intros [Hv Hl] Hh Hr. destruct (layer_set_inside v _ _ _ value limit Hv (local_ok p)) as [[? _]|(w&->&Hw&Hhw&Hget)]; [congruence|].
  exists w. split; [done|]. assert (Hlw : light_layer w).
  { split; [done|]. unfold is_definitely_homogeneous in Hhw. by destruct (storage w). }
  split; [done|]. split; [done|]. intros q Hq. unfold level_of. destruct (light_layer_get w _ _ _ Hlw (local_ok q)) as [Hg _].
  rewrite Hget in Hg by apply local_ok. injection Hg as <-. case_decide as Hqp.
  - subst q. rewrite bool_decide_eq_true_2 by done. rewrite Z.mod_small by lia. done.
  - rewrite bool_decide_eq_false_2; [done|]. intros Hc. by apply Hqp, block_coords_inj.
Qed.

(** The state after a level was written into a private layer. *)
Definition level_written_state s id (w : DataLayer) (l : list LightSection) : Storage :=
  with_lists (with_memory (with_flags s true (st_inconsistent s)) (st_metadata s) (st_layers s) (<[id := w]> (st_heap s)) (st_next_layer s)) l (st_published s) l.

Lemma written_state_ok s e id w l p value ps :
  storage_ok s → st_prepared s ps → p ∈ ps → entry_at s (section_of p) = Some e → en_updating e = Some id → list_ok s l → holds (st_notifications s) (touches p) l →
  light_layer w → is_definitely_homogeneous w = false →
  (∀ q, section_of q = section_of p → level_of w q = if decide (q = p) then value else level_of (value_of s id) q) →
  let s' := level_written_state s id w l in
  storage_ok s' ∧ st_prepared s' ps ∧ ∀ q, level_at s' q = if decide (q = p) then Some value else level_at s q.
Proof.
  intros Hok (Hroom&Hfits&Hpriv) Hp He Hu Hl Hh Hw Hhw Hlv s'. destruct (Hpriv p e id Hp He Hu) as [Hhom Hex].
  pose proof Hok as [[Hheap Ho Hco Hen Hsec] Hbod Ht Hst Hn Hpub].
  pose proof (proj1 (entry_at_some s _ e Ho) He) as [Hin Hkey].
  assert (Hid : id ∈ refs s) by (by eapply refs_updating). destruct (ho_refs _ Hheap _ Hid) as [v0 Hv0].
  assert (Hval : ∀ j, value_of s' j = if decide (j = id) then w else value_of s j).
  { intros j. unfold value_of, s', level_written_state. cbn [with_lists with_memory with_flags st_heap]. case_decide as Hj; [subst j; by rewrite lookup_insert_eq|by rewrite lookup_insert_ne]. }
  split; [split; [split|..]|split].
  - destruct Hheap as [Hr Hly Hled Hli]. unfold s', level_written_state. split; cbn [with_lists with_memory with_flags st_heap st_next_layer st_layers st_limits].
    + intros j Hj. destruct (decide (j = id)) as [->|]; [by rewrite lookup_insert_eq|]. rewrite lookup_insert_ne by done. by apply Hr.
    + intros j u. destruct (decide (j = id)) as [->|]; [rewrite lookup_insert_eq; intros [= <-]; split; [by apply (Hly id v0)|done]|].
      rewrite lookup_insert_ne by done. apply Hly.
    + rewrite map_size_insert_Some by (by exists v0). done.
    + done.
  - done.
  - done.
  - done.
  - done.
  - done.
  - intros j Hj. apply Ht. unfold s', level_written_state in Hj. cbn [with_lists with_memory with_flags st_heap] in Hj.
    destruct (decide (j = id)) as [->|]; [by exists v0|]. by rewrite lookup_insert_ne in Hj.
  - done.
  - exact Hl.
  - exact Hpub.
  - split; [|split; [done|]].
    + eapply room_weaken; [|exact Hroom]. cbn [st_notifications s' level_written_state with_lists]. intros k [Hk|?]; [|by right].
      apply Hh in Hk as [?|?]; [by left|right; eauto].
    + intros q e' id' Hq He' Hu'. change (entry_at s' (section_of q)) with (entry_at s (section_of q)) in He'.
      destruct (Hpriv q e' id' Hq He' Hu') as [Hh' Hx']. split; [|exact Hx']. rewrite Hval. by case_decide.
  - intros q. unfold level_at. change (updating_at s' (section_of q)) with (updating_at s (section_of q)).
    destruct (decide (section_of q = section_of p)) as [Hs|Hs].
    + rewrite Hs. unfold updating_at. rewrite He. cbn [mbind option_bind]. rewrite Hu. cbn [mbind option_bind]. rewrite Hval, decide_True by done.
      rewrite Hlv by done. by case_decide.
    + rewrite decide_False by congruence. unfold updating_at. destruct (entry_at s (section_of q)) as [e'|] eqn:He'; [|done]. cbn [mbind option_bind].
      destruct (en_updating e') as [id'|] eqn:Hu'; [|done]. cbn [mbind option_bind]. rewrite Hval, decide_False; [done|]. intros ->.
      apply entry_at_some in He' as [Hin' Hkey']; [|done]. destruct Hex as (_&_&Hx). apply Hs. rewrite <- Hkey, <- Hkey'.
      apply Hx; [done|]. apply elem_of_entry_refs. by left.
Qed.

(** The part of the write after the preparation. *)
Definition write_block (block : LightBlock) (value : Z) : call Storage StorageError () :=
  call_bind (layer_to_write (section_of block)) (λ w,
    match w with
    | None => call_fail MissingLayer
    | Some w =>
        call_bind (with_write w (layer_write_set w (local (lb_x block)) (local (lb_y block)) (local (lb_z block)) value 0))
          (λ _, update (λ s, Ok (deliver_scratch s)))
    end).

(** What a written level changes. *)
Record level_set s p (value : Z) s' : Prop := {
  lv_kind : st_kind s' = st_kind s ∧ st_stamp s' = st_stamp s;
  lv_columns : st_columns s' = st_columns s;
  lv_inconsistent : st_inconsistent s' = st_inconsistent s;
  lv_entries : st_entries s' = st_entries s;
  lv_level q : level_at s' q = if decide (q = p) then Some value else level_at s q;
  lv_held : readers_kept s s';
}.

Lemma write_block_ok s ps p value l :
  storage_ok s → st_prepared s ps → p ∈ ps → is_Some (level_at s p) → 0 ≤ value ≤ 15 → list_ok s l → holds (st_notifications s) (touches p) l →
  ∃ s', write_block p value (with_scratch s l) = Ok (Done tt, s') ∧ storage_ok s' ∧ st_prepared s' ps ∧ level_set s p value s'.
Proof.
  intros Hok Hprep Hp Hl Hr Hlok Hh. pose proof Hprep as (_&_&Hpriv). destruct Hl as [l0 Hl0]. apply bind_Some in Hl0 as (id&Hupd&_). pose proof Hupd as Hupd'. apply bind_Some in Hupd' as (e&He&Hu).
  destruct (Hpriv p e id Hp He Hu) as [Hhom Hex].
  assert (Hlight : light_layer (value_of s id)) by (apply value_light; [apply Hok|]; eapply updating_at_refs; [apply Hok|done]).
  remember (write_block p value (with_scratch s l)) as r eqn:Er. unfold write_block in Er.
  pose proof (scratch_storage s l Hok) as Hok1. set (s1 := with_scratch s l) in *.
  destruct (layer_to_write_private s1 (section_of p) e id Hok1 He Hu Hex) as (i&s2&Hidx&Hi&Elw&Hs2&Ht2).
  unfold call_bind at 1 in Er. rewrite Elw in Er. mstep in Er. unfold call_bind, with_write, layer_write_set in Er.
  destruct (Z.leb_spec 0 value), (Z.leb_spec value 15); try lia. cbn [andb negb] in Er.
  set (e2 := set_updating e (Some id) (if queued_alias e id then None else en_queued e)) in *.
  assert (Hlt : (i < length (st_entries s))%nat) by (by eapply lookup_lt_Some).
  assert (Hent2 : st_entries s2 = <[i := e2]> (st_entries s)) by (by subst s2).
  assert (Ho2 : in_order en_key sort_key (st_entries s2)).
  { rewrite Hent2. eapply in_order_replace; [apply Hok|exact Hi|done]. }
  assert (Hcount : strong_count s2 id = 1%nat).
  { assert (Hin2 : e2 ∈ st_entries s2) by (rewrite Hent2; eapply list_elem_of_lookup_2; by apply list_lookup_insert_eq).
    assert (Hna : queued_alias e2 id = false).
    { unfold e2. apply bool_decide_eq_false_2. cbn [set_updating en_queued]. destruct (queued_alias e id) eqn:Ha; [done|]. by apply bool_decide_eq_false in Ha. }
    destruct (strong_count_exclusive s2 e2 id Ho2 Hin2 eq_refl) as [_ [_ Hc]]. rewrite Hna in Hc. apply Hc.
    destruct Hex as (Hx1&Hx2&Hx3). subst s2. split; [exact Hx1|]. split; [exact Hx2|]. intros e' He' Hid.
    cbn [with_flags with_entries st_entries] in He'. apply list_elem_of_lookup in He' as [x Hx]. apply list_lookup_insert_Some in Hx as [(_&<-&_)|[_ Hx]]; [done|].
    apply Hx3; [by eapply list_elem_of_lookup_2|done]. }
  destruct (write_level_layer (value_of s id) p value (Z.min 0 LAYER_BYTES) Hlight Hhom Hr) as (w&Ew&Hw&Hhw&Hlv).
  unfold write_value, call_bind, query, value_mut, update in Er. cbn [lw_index] in Er. rewrite Hent2, list_lookup_insert_eq in Er by done. mstep in Er.
  unfold lift in Er. mstep in Er. change (en_updating e2) with (Some id) in Er. mstep in Er. rewrite Hcount in Er. mstep in Er. cbn [Nat.eqb] in Er. mstep in Er.
  assert (Hval2 : value_of s2 id = value_of s id) by (by subst s2). rewrite Hval2, Ew in Er. mstep in Er.
  set (s3 := with_memory s2 _ _ _ _) in Er.
  assert (Hdrop : layer_write_drop {| lw_index := i; lw_queued_alias := queued_alias e id |} s3 =
    Ok (with_memory (with_flags s1 true (st_inconsistent s)) (st_metadata s) (st_layers s) (<[id := w]> (st_heap s)) (st_next_layer s))).
  { unfold layer_write_drop. cbn [lw_queued_alias lw_index]. destruct (queued_alias e id) eqn:Ha.
    - change (st_entries s3) with (st_entries s2). rewrite Hent2, list_lookup_insert_eq by done. mstep. change (en_updating e2) with (Some id). mstep.
      unfold modify_entry. change (st_entries s3) with (st_entries s2). rewrite Hent2, list_lookup_insert_eq by done. mstep.
      apply bool_decide_eq_true in Ha. rewrite list_insert_insert_eq.
      assert (set_updating e2 (en_updating e2) (Some id) = e) as -> by exact (set_updating_same e (Some id) (Some id) Hu Ha).
      rewrite list_insert_id by done. f_equal. rewrite collect_tight; [subst s2; by destruct s|]. intros j Hj. apply elem_of_refs.
      assert (Hj' : is_Some (st_heap s1 !! j)).
      { subst s2. unfold s3 in Hj. cbn in Hj. destruct (decide (j = id)) as [->|]; [|by rewrite lookup_insert_ne in Hj]. apply (ho_refs _ (bo_heap _ (sk_base _ Hok))). eapply updating_at_refs; [apply Hok|done]. }
      apply (sk_tight _ Hok1), elem_of_refs in Hj' as [?|[?|?]]; [by left|right; left|right; right]; subst s2; done.
    - f_equal. subst s2. unfold s3, e2. rewrite list_insert_id; [by destruct s|]. rewrite Hi. f_equal. symmetry. by apply set_updating_same. }
  rewrite Hdrop in Er. mstep in Er. subst r. eexists. split; [reflexivity|].
  destruct (written_state_ok s e id w l p value ps Hok Hprep Hp He Hu Hlok Hh Hw Hhw Hlv) as (?&?&?).
  change (deliver_scratch _) with (level_written_state s id w l). do 2 (split; [done|]). split; [done..|].
  split; [done|]. intros j Hj. cbn [level_written_state with_lists with_memory st_heap]. rewrite lookup_insert_ne; [done|]. intros <-.
  destruct Hex as [Hx _]. by apply Hx, held_bodies.
Qed.

Lemma set_level_unfold p value s :
  value ≤ 15 → st_storing_light s (section_of p) = true →
  st_set_stored_level p value s = call_bind (st_prepare_writes [p]) (λ _, write_block p value) s.
Proof.
  intros Hv Hs. unfold st_set_stored_level. destruct (Z.ltb_spec 15 value); [lia|]. unfold call_bind at 1, query, ensure. by rewrite Hs.
Qed.

(** A write to a prepared block succeeds. *)
Lemma set_level_ok s ps p value :
  storage_ok s → st_prepared s ps → p ∈ ps → is_Some (level_at s p) → 0 ≤ value ≤ 15 →
  ∃ s', st_set_stored_level p value s = Ok (Done tt, s') ∧ storage_ok s' ∧ st_prepared s' ps ∧ level_set s p value s'.
Proof.
  intros Hok Hprep Hp Hl Hr. rewrite set_level_unfold by (by try apply storing_light_eq; lia || done). pose proof Hl as [l0 Hl0].
  apply bind_Some in Hl0 as (id&Hupd&_). apply bind_Some in Hupd as (e&He&Hu).
  destruct (prepare_again s ps p e id Hok Hprep Hp He Hu) as (l&Eprep&Hlok&Hh). unfold call_bind. rewrite Eprep. mstep. by apply write_block_ok.
Qed.

(** Any write either is refused, which is not seen, or takes place. *)
Lemma set_level_total s p value :
  storage_ok s → 0 ≤ value →
  ∃ r s', st_set_stored_level p value s = Ok (r, s') ∧ storage_ok s' ∧
    match r with Done _ => value ≤ 15 ∧ is_Some (level_at s p) ∧ (∀ q, level_at s' q = if decide (q = p) then Some value else level_at s q) | Failed _ => looks_alike s s' end ∧
    (∀ k, entry_state s' k = entry_state s k) ∧ readers_kept s s'.
Proof.
  intros Hok H0'. pose proof (looks_alike_refl s) as Hself. destruct (decide (value ≤ 15)) as [Hv|Hv].
  2: { unfold st_set_stored_level. destruct (Z.ltb_spec 15 value); [|lia]. eexists _, s. split; [done|]. split; [done|]. split; [done|]. split; [done|apply Hself]. }
  destruct (st_storing_light s (section_of p)) eqn:Hs.
  2: { unfold st_set_stored_level. destruct (Z.ltb_spec 15 value); [lia|]. unfold call_bind at 1, query, ensure. rewrite Hs. eexists _, s. split; [done|]. split; [done|]. split; [done|]. split; [done|apply Hself]. }
  rewrite set_level_unfold by done. destruct (prepare_ok s [p] Hok) as (s1&Hok1&Ha&_&[[err E]|(E&Hprep&Hl&Hh)]); unfold call_bind; rewrite E; mstep.
  { eexists _, s1. split; [done|]. split; [done|]. split; [done|]. split; apply Ha. }
  apply storing_light_eq in Hs. assert (Hs1 : is_Some (level_at s1 p)) by (by rewrite (la_level _ _ Ha)).
  destruct (write_block_ok s1 [p] p value (st_scratch s1)) as (s2&Ew&Hok2&_&Hset); [done|done|by left|done|done|done| |].
  { intros k. rewrite (Hh k). split; intros [?|Hk]; [by left|right|by left|right].
    - by destruct Hk as (q&->%list_elem_of_singleton&?).
    - exists p. split; [by left|done]. }
  rewrite with_scratch_same in Ew. eexists _, s2. split; [exact Ew|]. split; [done|]. split; [split; [done|split; [done|]]|].
  - intros q. rewrite (lv_level _ _ _ _ Hset). case_decide; [done|apply Ha].
  - split; [|eapply readers_kept_trans; [apply Ha|apply Hset]]. intros k. unfold entry_state, entry_at, entry_index. rewrite (lv_entries _ _ _ _ Hset). apply Ha.
Qed.
End levels.
