(* ===== verification/LightStorageSettle.v ===== *)
(** * Light section storage: settling, flags of columns and publication

    Column flags, the settling of queued and removed sections, and the
    publication of the visible map preserve the invariant; publication changes
    nothing that the engines read. *)

From Stdlib Require Import Sorted.
From stdpp Require Import gmap list sets sorting.
From S2P Require Import Prelude.
From S2P Require Import Sorted.
From S2P Require Import View.
From S2P Require Import LightTypes.
From S2P Require Import LightLayer.
From S2P Require Import LightStore.
From S2P Require Import LightStorage.
From S2P Require Import LightStorageOps.
From S2P Require Import LightStorageInv.
From S2P Require Import LightStorageWrites.
Local Open Scope Z_scope.

Section settle.
Context `{Allocator, StorageLayout}.
Implicit Types (s : Storage) (id : LayerId) (key : LightSection).

(** Dropping what is unreferenced ends every call. *)
Lemma collect_ok s :
  base_ok s → bodies_ok s → st_staged s = [] → list_ok s (st_notifications s) → list_ok s (st_published s) → storage_ok (collect s).
Proof.
  intros Hb Hbod Hst Hn Hp. destruct (collected_spec s (bo_heap _ Hb)) as (Hh&Ht&_&_). split; [by apply (frame_base s); [|apply collect_frame|]|done..].
Qed.
Lemma collect_alike s : base_ok s → looks_alike s (collect s).
Proof.
  intros Hb. destruct (collected_spec s (bo_heap _ Hb)) as (_&_&_&Hk). apply frame_alike; [done|apply collect_frame|exact Hk].
Qed.

(** ** Columns *)

Lemma zlen_filter_le {A} (P : A → Prop) `{∀ a, Decision (P a)} l : zlen (filter P l) ≤ zlen l.
Proof. unfold zlen. pose proof (length_filter P l). lia. Qed.
Lemma length_vec_insert {A} i (a : A) l : (i ≤ length l)%nat → zlen (vec_insert i a l) = zlen l + 1.
Proof. intros Hi. unfold zlen, vec_insert. rewrite length_app. cbn [length]. rewrite length_take, length_drop. lia. Qed.

Lemma columns_ok s cols lowest : storage_ok s → in_order co_key column_key cols → storage_ok (with_columns s cols lowest).
Proof.
  intros [[Hh He _ Hen Hs] Hbod Ht Hst Hn Hp] Hc. split; [split; [|done..]|done..]. by apply (heap_ok_sub s).
Qed.

Lemma column_at_some s c col : in_order co_key column_key (st_columns s) → column_at s c = Some col ↔ col ∈ st_columns s ∧ co_key col = c.
Proof. apply (found_search co_key column_key). Qed.

(** A flag of a column: what [light_enabled] and the retain lookup read. *)
Lemma column_flag_spec (set : Column → Column) (key : ChunkAddress) (value : bool) (get : Column → bool) s :
  (∀ c, co_key (set c) = co_key c) → (∀ c, get (set c) = value) → (∀ c, get c = true → column_kept c = true) →
  storage_ok s →
  (set_column_flag set key value s = Ok (Failed ColumnLimit, s)) ∨
  ∃ cols, set_column_flag set key value s = Ok (Done tt, with_columns s cols (st_lowest s)) ∧ in_order co_key column_key cols ∧
    ∀ c, (match found cols (find_column co_key cols c) with Some col => get col | None => false end) =
      if decide (c = key) then value else match column_at s c with Some col => get col | None => false end.
Proof.
  intros Hkey Hget Hkept Hok. pose proof (bo_columns _ (sk_base _ Hok)) as Ho. unfold set_column_flag, column_index, find_column.
  pose proof (search_spec co_key column_key (st_columns s) key Ho) as Hs.
  assert (Hpruned : ∀ cols c, in_order co_key column_key cols →
    match found (filter (λ c, column_kept c = true) cols) (search co_key column_key (filter (λ c, column_kept c = true) cols) c) with Some col => get col | None => false end =
    match found cols (search co_key column_key cols c) with Some col => get col | None => false end).
  { intros cols c Hc. rewrite (found_filter co_key column_key (λ c, column_kept c = true)) by done. destruct (found cols _) as [col|]; [|done]. cbn [mbind option_bind].
    case_decide as Hk; [done|]. destruct (get col) eqn:Hg; [|done]. by apply Hkept in Hg. }
  fold (search co_key column_key (st_columns s) key).
  destruct (search co_key column_key (st_columns s) key) as [i|i] eqn:Es.
  - right. destruct Hs as (col&Hi&Hk). unfold update, modify_column. rewrite Hi. mstep. unfold prune_columns. cbn [with_columns st_columns st_lowest].
    pose proof (in_order_replace co_key column_key _ _ _ (set col) Ho Hi (Hkey col)) as Ho'.
    eexists. split; [reflexivity|]. split; [by apply in_order_filter|]. intros c. fold (search co_key column_key (filter (λ c, column_kept c = true) (<[i := set col]> (st_columns s))) c).
    rewrite Hpruned by done. rewrite (found_replace co_key column_key _ i col) by done. rewrite Hk.
    destruct (decide (key = c)) as [->|]; [by rewrite decide_True, Hget|by rewrite decide_False].
  - destruct Hs as (Hi&Hn&Hins). destruct value.
    + unfold call_bind, insert_column, column_index, find_column. fold (search co_key column_key (st_columns s) key). rewrite Es.
      destruct (_ =? max_columns _); [by left|right]. mstep. unfold update, modify_column. cbn [with_columns st_columns].
      set (col := {| co_key := key; co_enabled := false; co_retain := false; co_top := None |}).
      pose proof (Hins col eq_refl) as Ho1.
      assert (Hlk : vec_insert i col (st_columns s) !! i = Some col).
      { unfold vec_insert. rewrite lookup_app_r by (rewrite length_take; lia). rewrite length_take. by replace (i - i `min` length (st_columns s))%nat with 0%nat by lia. }
      rewrite Hlk. mstep. eexists. split; [reflexivity|].
      pose proof (in_order_replace co_key column_key _ _ _ (set col) Ho1 Hlk (Hkey col)) as Ho2. split; [done|]. intros c.
      fold (search co_key column_key (<[i := set col]> (vec_insert i col (st_columns s))) c). rewrite (found_replace co_key column_key _ i col) by done.
      change (co_key col) with key. destruct (decide (key = c)) as [->|Hne]; [by rewrite decide_True, Hget|]. rewrite decide_False by done.
      rewrite (found_insert co_key column_key) by done. change (co_key col) with key. by rewrite decide_False.
    + right. exists (st_columns s). split; [by destruct s|]. split; [done|]. intros c. change (found (st_columns s) _) with (column_at s c).
      case_decide as Hc; [subst c|done]. destruct (column_at s key) as [col|] eqn:E; [|done]. apply column_at_some in E as [Hin Hk]; [|done]. by apply Hn in Hin.
Qed.

Lemma set_enabled_ok s c b :
  storage_ok s → ∃ s', storage_ok s' ∧
    ((∃ e, st_set_enabled c b s = Ok (Failed e, s') ∧ s' = s) ∨
     (∃ cols, st_set_enabled c b s = Ok (Done tt, s') ∧ s' = with_columns s cols (st_lowest s) ∧
        ∀ c', st_light_enabled s' c' = if decide (c' = c) then b else st_light_enabled s c')).
Proof.
  intros Hok. unfold st_set_enabled. set (set := λ c : Column, _).
  destruct (column_flag_spec set c b co_enabled s) as [E|(cols&E&Ho&Hl)]; [done|done| |done|..]; rewrite ?E.
  - intros col Hc. unfold column_kept. by rewrite Hc.
  - exists s. split; [done|]. left. by exists ColumnLimit.
  - exists (with_columns s cols (st_lowest s)). split; [by apply columns_ok|]. right. exists cols. done.
Qed.

Lemma retain_data_ok s c b :
  storage_ok s → ∃ r s', retain_data c b s = Ok (r, s') ∧ storage_ok s' ∧ ∃ cols, s' = with_columns s cols (st_lowest s).
Proof.
  intros Hok. unfold retain_data. set (set := λ c : Column, _).
  destruct (column_flag_spec set c b co_retain s) as [E|(cols&E&Ho&Hl)]; [done|done| |done|..]; rewrite ?E.
  - intros col Hc. unfold column_kept. rewrite Hc. by rewrite orb_true_r.
  - exists (Failed ColumnLimit), s. split; [done|]. split; [done|]. exists (st_columns s). by destruct s.
  - eexists _, _. split; [done|]. split; [by apply columns_ok|eauto].
Qed.

(** ** Settling *)

Lemma entries_base s l :
  base_ok s → in_order en_key sort_key l → (∀ e, e ∈ l → entry_ok e) → zlen l ≤ max_sections (st_limits s) →
  (∀ e id, e ∈ l → id ∈ entry_refs e → ∃ e', e' ∈ st_entries s ∧ id ∈ entry_refs e') → base_ok (with_entries s l).
Proof.
  intros [Hh _ Hc _ _] Ho Hen Hz Hr. split; [|done..]. apply (heap_ok_sub s); [done..|]. intros id. rewrite !elem_of_refs.
  intros [(e&He&Hid)|[?|?]]; [|by right; left|by right; right]. left. by apply (Hr e).
Qed.

Lemma settle_removed_key s e : en_key (settle_removed s e) = en_key e.
Proof. unfold settle_removed. by destruct (en_remove e). Qed.
Lemma settle_queued_key e : en_key (settle_queued e) = en_key e.
Proof. unfold settle_queued. by destruct (en_updating e), (en_queued e). Qed.
Lemma settle_removed_ok s e : entry_ok e → entry_ok (settle_removed s e) ∧ en_remove (settle_removed s e) = false.
Proof.
  intros [H1 H2 H3]. unfold settle_removed. destruct (en_remove e) eqn:Er; [|split; [split|]; try done; by rewrite Er].
  split; [|done]. split; [done| |done]. cbn [en_updating en_state en_remove]. rewrite (H3 eq_refl). split; [intros [? ?]; done|]. intros [?|?]; done.
Qed.
Lemma settle_queued_ok e : entry_ok e → entry_ok (settle_queued e) ∧ en_remove (settle_queued e) = en_remove e.
Proof.
  intros [H1 H2 H3]. unfold settle_queued. destruct (en_updating e) as [u|] eqn:Eu; [|split; [split|]; try done; by rewrite Eu].
  destruct (en_queued e) as [q|]; [|split; [split|]; try done; by rewrite Eu]. split; [|done]. split; [done| |done].
  cbn [set_updating en_updating en_state en_remove]. rewrite <- H2. split; eauto.
Qed.
Lemma settle_refs s e id : id ∈ entry_refs (settle_queued (settle_removed s e)) → id ∈ entry_refs e.
Proof.
  assert (Hrem : id ∈ entry_refs (settle_removed s e) → id ∈ entry_refs e).
  { unfold settle_removed. destruct (en_remove e); [|done]. rewrite !elem_of_entry_refs. cbn [en_updating en_queued].
    destruct (match column_at s _ with Some c => _ | None => _ end), (en_queued e); naive_solver. }
  intros Hid. apply Hrem. revert Hid. generalize (settle_removed s e). clear. intros e. unfold settle_queued.
  destruct (en_updating e) eqn:Eu, (en_queued e) eqn:Eq; rewrite !elem_of_entry_refs; cbn [set_updating en_updating en_queued]; rewrite ?Eu, ?Eq; naive_solver.
Qed.

(** The entries and columns after settling. *)
Definition settled_entries s : list SectionEntry :=
  filter (λ e, entry_kept e = true) (settle_queued <$> (settle_removed s <$> st_entries s)).
Lemma settled_entries_spec s :
  base_ok s → in_order en_key sort_key (settled_entries s) ∧ zlen (settled_entries s) ≤ max_sections (st_limits s) ∧
  (∀ e, e ∈ settled_entries s → ∃ e0, e0 ∈ st_entries s ∧ e = settle_queued (settle_removed s e0)) ∧
  ∀ e, e ∈ settled_entries s → entry_ok e ∧ en_remove e = false.
Proof.
  intros Hb. assert (Hin : ∀ e, e ∈ settled_entries s → ∃ e0, e0 ∈ st_entries s ∧ e = settle_queued (settle_removed s e0)).
  { intros e [_ (e1&->&(e0&->&He0)%list_elem_of_fmap)%list_elem_of_fmap]%list_elem_of_filter. eauto. }
  split; [|split; [|split; [exact Hin|]]].
  - apply in_order_filter, in_order_fmap; [apply settle_queued_key|]. apply in_order_fmap; [apply settle_removed_key|apply Hb].
  - unfold settled_entries. etrans; [apply zlen_filter_le|]. unfold zlen. rewrite !length_fmap. apply Hb.
  - intros e He. destruct (Hin e He) as (e0&He0&->). destruct (settle_removed_ok s e0 (bo_entry _ Hb e0 He0)) as [Hr1 Hr2].
    destruct (settle_queued_ok _ Hr1) as [? ->]. done.
Qed.

Lemma process_ok s :
  storage_ok s → ∃ s', st_process_inconsistencies s = Ok (Done tt, s') ∧ storage_ok s' ∧
    st_kind s' = st_kind s ∧ st_stamp s' = st_stamp s ∧ st_inconsistent s' = false ∧
    (st_inconsistent s = false → s' = s) ∧
    (st_inconsistent s = true → st_entries s' = settled_entries s) ∧ readers_kept s s'.
Proof.
  intros Hok. unfold st_process_inconsistencies. destruct (st_inconsistent s) eqn:Hinc; cbn [negb].
  2: { exists s. split; [done|]. do 5 (split; [done|]). split; [done|by apply held_heap]. }
  eexists. split; [reflexivity|]. pose proof (sk_base _ Hok) as Hb. destruct (settled_entries_spec s Hb) as (Ho&Hz&Hin&Hent).
  set (s1 := if bool_decide _ then _ else _).
  assert (Hs1 : st_entries s1 = settle_removed s <$> st_entries s ∧ in_order co_key column_key (st_columns s1) ∧
    s1 = with_columns (with_entries s (settle_removed s <$> st_entries s)) (st_columns s1) (st_lowest s)).
  { unfold s1. case_bool_decide; cbn [with_columns with_entries st_entries st_columns st_lowest]; (split; [done|]; split; [|done]).
    - apply in_order_fmap; [done|apply Hb].
    - apply Hb. }
  destruct Hs1 as (Hent1&Hcol1&Hs1).
  set (cols := st_columns s1) in *. clearbody cols s1. subst s1.
  change (prune_columns (prune_entries (with_flags (with_entries (with_columns (with_entries s ?l) cols ?low) ?l') ?changed false)))
    with (with_columns (with_flags (with_entries s (filter (λ e, entry_kept e = true) l')) changed false) (filter (λ c, column_kept c = true) cols) (st_lowest s)).
  change (filter (λ e, entry_kept e = true) _) with (settled_entries s).
  set (s2 := with_columns _ _ _). assert (Hb2 : base_ok s2).
  { destruct (entries_base s (settled_entries s) Hb Ho (λ e He, proj1 (Hent e He)) Hz) as [Hh ? ? ? ?].
    - intros e id He Hid. destruct (Hin e He) as (e0&He0&->). exists e0. split; [done|]. by eapply settle_refs.
    - split; [by apply (heap_ok_sub (with_entries s (settled_entries s)))|done| |done|done]. by apply in_order_filter. }
  split; [by apply collect_ok; [|apply Hok..]|]. do 5 (split; [done|]). eapply readers_kept_trans; [|exact (collect_held s2 (bo_heap _ Hb2))]. by apply held_heap.
Qed.

(** ** Publication *)

Lemma budget_add_total bytes b : ∃ r b', budget_add bytes b = Ok (r, b').
Proof. unfold budget_add. destruct (checked_add _ _); [|by eexists _, _]. destruct (_ <=? _); by eexists _, _. Qed.
Lemma vector_total size count b : ∃ r b', vector size count b = Ok (r, b').
Proof.
  unfold vector. destruct (checked_mul count size) as [requested|]; [|by eexists _, _]. unfold call_bind, recast, on_failure.
  destruct (budget_add_total requested b) as ([[]|e]&b1&->); mstep; [|by eexists _, _].
  destruct (reserve_exact size count) as [capacity|]; [|by eexists _, _]. destruct (checked_mul capacity size) as [actual|]; [|by eexists _, _].
  destruct (_ <? _); [|by eexists _, _]. destruct (budget_add_total (actual - requested) b1) as ([[]|e]&b2&->); by eexists _, _.
Qed.

(** Only the metadata ledger moved. *)
Definition charged s (md : MemoryBudget) : Storage := with_memory s md (st_layers s) (st_heap s) (st_next_layer s).

Lemma leased_vector_spec {A} held size count (k : Z → Z → call Storage StorageError A) s :
  (∃ err md, leased_vector held size count k s = Ok (Failed err, charged s md)) ∨
  ∃ capacity lease md, leased_vector held size count k s = k capacity lease (charged s md).
Proof.
  unfold leased_vector, call_bind, on_failure, on_metadata. destruct (vector_total size count (st_metadata s)) as (r&b&->). mstep.
  destruct r as [[capacity lease]|err]; [right|left].
  - exists capacity, (held + lease), b. done.
  - by eexists err, _.
Qed.

Lemma charged_ok s md : storage_ok s → storage_ok (charged s md).
Proof. intros [[Hh He Hc Hen Hs] Hbod Ht Hst Hn Hp]. split; [split; [|done..]|done..]. by apply (heap_ok_sub s). Qed.
Lemma charged_alike s md : looks_alike s (charged s md).
Proof. by split. Qed.

Lemma visible_layers_in_order s : in_order en_key sort_key (st_entries s) → in_order fst sort_key (visible_layers s).
Proof.
  unfold in_order, sorted_keys, visible_layers. induction (st_entries s) as [|e l IH]; [done|]. rewrite fmap_cons. intros [Hs Hall]%StronglySorted_inv.
  cbn [omap list_omap]. destruct (en_updating e) as [id|]; cbn [mbind option_bind]; [|by apply IH]. rewrite fmap_cons. cbn [fst]. constructor; [by apply IH|].
  rewrite Forall_fmap, Forall_forall in Hall. apply Forall_fmap, Forall_forall. intros [k j] Hj. apply list_elem_of_omap in Hj as (e'&He'&Hj). apply bind_Some in Hj as (j'&_&[= <- <-]). exact (Hall e' He').
Qed.
Lemma visible_tops_in_order s : in_order co_key column_key (st_columns s) → in_order fst column_key (visible_tops s).
Proof.
  unfold in_order, sorted_keys, visible_tops. induction (st_columns s) as [|c l IH]; [done|]. rewrite fmap_cons. intros [Hs Hall]%StronglySorted_inv.
  cbn [omap list_omap]. destruct (co_top c) as [top|]; cbn [mbind option_bind]; [|by apply IH]. rewrite fmap_cons. cbn [fst]. constructor; [by apply IH|].
  rewrite Forall_fmap, Forall_forall in Hall. apply Forall_fmap, Forall_forall. intros [k j] Hj. apply list_elem_of_omap in Hj as (e'&He'&Hj). apply bind_Some in Hj as (j'&_&[= <- <-]). exact (Hall e' He').
Qed.

Lemma elem_of_visible_layers s key id : (key, id) ∈ visible_layers s ↔ ∃ e, e ∈ st_entries s ∧ en_key e = key ∧ en_updating e = Some id.
Proof.
  unfold visible_layers. rewrite list_elem_of_omap. split.
  - intros (e&He&Hb). apply bind_Some in Hb as (id'&?&[= <- <-]). eauto.
  - intros (e&He&<-&Hu). exists e. split; [done|]. by rewrite Hu.
Qed.

Lemma elem_of_body_refs s id :
  id ∈ body_refs s ↔ (∃ b, (b = st_visible s ∨ b ∈ st_readers s) ∧ id ∈ (sd_layers b).*2) ∨ (∃ b, b ∈ st_data_readers s ∧ id ∈ (dd_layers b).*2).
Proof.
  unfold body_refs, live_bodies, live_data_bodies. rewrite elem_of_app, !list_elem_of_bind.
  split; (intros [(b&Hb)|(b&Hb)]; [left|right]; exists b; revert Hb; rewrite elem_of_remove_dups, ?elem_of_cons; tauto).
Qed.

Lemma replace_visible_ok s next :
  storage_ok s → body_ok next → (∀ key id, (key, id) ∈ sd_layers next → (key, id) ∈ visible_layers s) →
  storage_ok (replace_visible s next) ∧ looks_alike s (replace_visible s next).
Proof.
  intros Hok Hnext Hsub. unfold replace_visible. set (s1 := with_bodies s _ _ _ _).
  pose proof Hok as [[Hh He Hc Hen Hs] Hbod Ht Hst Hn Hp].
  assert (Hin : ∀ id, id ∈ (sd_layers next).*2 → id ∈ refs s).
  { intros id ([key id']&->&Hin)%list_elem_of_fmap. apply Hsub, elem_of_visible_layers in Hin as (e&?&_&?). by eapply refs_updating. }
  assert (Hh1 : heap_ok s1).
  { apply (heap_ok_sub s); [done..|]. intros id. rewrite (elem_of_refs s1). intros [?|[?|Hid]]; [apply elem_of_refs; by left|apply elem_of_refs; by right; left|].
    apply elem_of_body_refs in Hid as [(b&[->|Hb]&Hid)|(b&?&Hid)]; [by apply Hin|..]; apply elem_of_refs; right; right; apply elem_of_body_refs.
    - left. exists b. split; [by right|done].
    - right. eauto. }
  assert (Hb1 : base_ok s1) by (by split).
  assert (Hbod1 : bodies_ok s1) by (intros b [->|?]; [done|apply Hbod; by right]).
  assert (Ha1 : looks_alike s s1) by (by split).
  case_bool_decide as Hlive.
  - split; [|done]. split; [done..| |done|done|done]. intros id Hid. apply Ht, elem_of_refs in Hid as [?|[?|Hid]]; apply elem_of_refs; [by left|by right; left|right; right].
    unfold live_bodies in Hlive. rewrite elem_of_remove_dups, elem_of_cons in Hlive.
    apply elem_of_body_refs in Hid as [(b&[->|Hb]&Hid)|(b&?&Hid)]; apply elem_of_body_refs; [left|left|right; eauto].
    + exists (st_visible s). done.
    + exists b. split; [by right|done].
  - assert (Hb2 : base_ok (release_metadata (sd_leases (st_visible s)) s1)).
    { destruct Hb1 as [? ? ? ? ?]. split; [by apply (heap_ok_sub s1)|done..]. }
    split; [by apply collect_ok|]. apply (looks_alike_trans s (release_metadata (sd_leases (st_visible s)) s1)); [by split|by apply collect_alike].
Qed.

Lemma publish_ok s :
  storage_ok s → ∃ r s', st_publish_visible s = Ok (r, s') ∧ storage_ok s' ∧ looks_alike s s' ∧
    (r = Done tt → sd_layers (st_visible s') = (if st_changed s then visible_layers s else sd_layers (st_visible s)) ∧ st_notifications s' = [] ∧ st_changed s' = false).
Proof.
  intros Hok. remember (st_publish_visible s) as r eqn:Er. unfold st_publish_visible, call_bind, update in Er. mstep in Er. cbv beta in Er.
  set (s0 := with_scratch s (st_published s)) in Er. assert (Hok0 : storage_ok s0) by (by apply scratch_storage).
  destruct (stage_all_spec (st_notifications s0) s0) as [(l&Est&Hl&_)|(err&l&Est&_)]; [apply Hok|..]; rewrite Est in Er; mstep in Er; change (with_scratch s0 l) with (with_scratch s l) in Er.
  2: { subst r. eexists _, _. split; [reflexivity|]. split; [by apply scratch_storage|]. split; [by apply scratch_alike|done]. }
  assert (Hok1 : storage_ok (with_scratch s l)) by (by apply scratch_storage). set (s1 := with_scratch s l) in *.
  assert (Ha1 : looks_alike s s1) by (by apply scratch_alike).
  assert (Hlast : ∀ s2 flag inc layers, inc = st_inconsistent s2 → storage_ok s2 → looks_alike s s2 → st_limits s2 = st_limits s → st_scratch s2 = l → (sd_layers (st_visible s2) = layers ∧ flag = false) →
    let s3 := with_lists (with_flags s2 flag inc) [] (st_scratch s2) (st_scratch s2) in
    storage_ok s3 ∧ looks_alike s s3 ∧ (@Done StorageError () tt = Done tt → sd_layers (st_visible s3) = layers ∧ st_notifications s3 = [] ∧ st_changed s3 = false)).
  { intros s2 flag inc layers -> Hok2 Ha2 Hlim Hsc [Hlay Hflag] s3. split; [|split].
    - destruct Hok2 as [[Hh He Hc Hen Hs] Hbod Ht Hst Hn Hp]. split; [split; [|done..]|done|done|done| |].
      + by apply (heap_ok_sub s2).
      + split; [by constructor|]. destruct Hn as [_ Hn]. unfold zlen in *. cbn [length s3 st_limits with_lists with_flags st_notifications] in *. lia.
      + unfold s3, list_ok. cbn [with_lists with_flags st_published st_limits]. rewrite Hsc, Hlim. exact Hl.
    - eapply looks_alike_trans; [exact Ha2|by split].
    - intros _. done. }
  change (st_changed s1) with (st_changed s) in Er. destruct (st_changed s) eqn:Hch.
  2: { unfold call_ret, update in Er. mstep in Er. subst r. eexists _, _. split; [reflexivity|].
       assert (Hsame : with_flags s1 false (st_inconsistent s1) = s1) by (unfold s1; destruct s; cbn in *; by subst).
       pose proof (Hlast s1 false (st_inconsistent s1) (sd_layers (st_visible s)) eq_refl Hok1 Ha1 eq_refl eq_refl (conj eq_refl eq_refl)) as Hl3. cbv zeta in Hl3. rewrite Hsame in Hl3. exact Hl3. }
  match type of Er with _ = (leased_vector ?h ?z ?c ?k ?st ≫= _) => destruct (leased_vector_spec h z c k st) as [(err&md&Elv)|(cap1&lease1&md1&Elv)] end;
    rewrite Elv in Er; clear Elv; mstep in Er; cbv beta in Er.
  { subst r. eexists _, _. split; [reflexivity|]. split; [by apply charged_ok|]. split; [by eapply looks_alike_trans; [|apply charged_alike]|done]. }
  match type of Er with _ = (leased_vector ?h ?z ?c ?k ?st ≫= _) => destruct (leased_vector_spec h z c k st) as [(err&md&Elv)|(cap2&lease2&md2&Elv)] end;
    rewrite Elv in Er; clear Elv; mstep in Er; cbv beta in Er.
  { subst r. eexists _, _. split; [reflexivity|]. split; [by do 2 apply charged_ok|]. split; [by eapply looks_alike_trans; [|apply charged_alike]|done]. }
  change (charged (charged s1 md1) md2) with (charged s1 md2) in Er.
  unfold on_failure, recast, on_metadata in Er. destruct (budget_add_total body_bytes (st_metadata (charged s1 md2))) as (rb&md3&Eb). rewrite Eb in Er. mstep in Er.
  destruct rb as [[]|err]; mstep in Er.
  2: { subst r. eexists _, (charged s1 (budget_sub lease2 md3)). split; [reflexivity|]. split; [by apply charged_ok|].
       split; [by eapply looks_alike_trans; [|apply charged_alike]|done]. }
  mstep in Er. change (with_memory (charged s1 md2) md3 _ _ _) with (charged s1 md3) in Er.
  set (next := {| sd_id := _; sd_kind := _; sd_layers := _; sd_layers_capacity := _; sd_tops := _; sd_tops_capacity := _; sd_lowest := _; sd_leases := _ |}) in Er.
  assert (Hok3 : storage_ok (charged s1 md3)) by (by apply charged_ok).
  destruct (replace_visible_ok (charged s1 md3) next Hok3) as [Hok4 Ha4].
  { split; [apply visible_layers_in_order|apply visible_tops_in_order]; apply Hok. }
  { done. }
  subst r. eexists _, _. split; [reflexivity|]. apply (Hlast (replace_visible (charged s1 md3) next) false); [|done| | | |].
  - unfold replace_visible. by case_bool_decide.
  - eapply looks_alike_trans; [|exact Ha4]. eapply looks_alike_trans; [exact Ha1|apply charged_alike].
  - unfold replace_visible. by case_bool_decide.
  - unfold replace_visible. by case_bool_decide.
  - split; [|done]. unfold replace_visible. by case_bool_decide.
Qed.
End settle.
