(* ===== verification/LightStorageStatus.v ===== *)
(** * Light section storage: section status

    A status transition changes a section and its 26 neighbours at once.  The
    plan is computed and admitted before anything is installed, so that applying
    it cannot fail; the neighbour count of every section stays the number of its
    neighbours with data. *)

From Stdlib Require Import Sorted.
From stdpp Require Import gmap list sets sorting.
From S2P Require Import Prelude.
From S2P Require Import Sorted.
From S2P Require Import View.
From S2P Require Import LightTypes.
From S2P Require Import LightLayer.
From S2P Require Import LightStore.
From S2P Require Import LightStorage.
From S2P Require Import LightStorageOps.
From S2P Require Import LightStorageInv.
From S2P Require Import LightStorageWrites.
From S2P Require Import LightStorageSettle.
Local Open Scope Z_scope.

(** ** States *)

(** A fact about all states, by enumeration. *)
Lemma all_states (P : Z → bool) : forallb P (seqZ 0 64) = true → ∀ x, 0 ≤ x < 64 → P x = true.
Proof. intros Hf x Hx. apply (proj1 (forallb_forall P (seqZ 0 64))); [done|]. apply list_elem_of_In, elem_of_seqZ. lia. Qed.

Definition has_data (state : Z) : bool := negb (Z.land state 32 =? 0).
Definition support (state : Z) : Z := Z.land state 31.

Lemma state_split x : 0 ≤ x < 64 → x = (if has_data x then 32 else 0) + support x ∧ 0 ≤ support x < 32.
Proof.
  intros Hx. pose proof (all_states (λ x, (x =? (if has_data x then 32 else 0) + support x) && (0 <=? support x) && (support x <? 32)) eq_refl x Hx) as Hb.
  rewrite !andb_true_iff, Z.eqb_eq, Z.leb_le, Z.ltb_lt in Hb. tauto.
Qed.
Lemma state_eq x y : 0 ≤ x < 64 → 0 ≤ y < 64 → has_data x = has_data y → support x = support y → x = y.
Proof. intros Hx Hy Hd Hs. destruct (state_split x Hx) as [-> _], (state_split y Hy) as [-> _]. by rewrite Hd, Hs. Qed.
Lemma state_raised x : 0 ≤ x < 64 → 0 ≤ Z.lor x 32 < 64 ∧ has_data (Z.lor x 32) = true ∧ support (Z.lor x 32) = support x.
Proof.
  intros Hx. pose proof (all_states (λ x, (0 <=? Z.lor x 32) && (Z.lor x 32 <? 64) && has_data (Z.lor x 32) && (support (Z.lor x 32) =? support x)) eq_refl x Hx) as Hb.
  rewrite !andb_true_iff, Z.eqb_eq, Z.leb_le, Z.ltb_lt in Hb. tauto.
Qed.
Lemma state_lowered x : 0 ≤ x < 64 → 0 ≤ Z.land x not_data < 64 ∧ has_data (Z.land x not_data) = false ∧ support (Z.land x not_data) = support x.
Proof.
  intros Hx. pose proof (all_states (λ x, (0 <=? Z.land x not_data) && (Z.land x not_data <? 64) && negb (has_data (Z.land x not_data)) && (support (Z.land x not_data) =? support x)) eq_refl x Hx) as Hb.
  rewrite !andb_true_iff, Z.eqb_eq, Z.leb_le, Z.ltb_lt, negb_true_iff in Hb. tauto.
Qed.
Lemma state_supported x n : 0 ≤ x < 64 → 0 ≤ n ≤ 26 →
  0 ≤ Z.lor (Z.land x 32) n < 64 ∧ has_data (Z.lor (Z.land x 32) n) = has_data x ∧ support (Z.lor (Z.land x 32) n) = n.
Proof.
  intros Hx Hn. assert (Hn64 : 0 ≤ n < 64) by lia.
  pose proof (all_states (λ n, (26 <? n) || forallb (λ x, (0 <=? Z.lor (Z.land x 32) n) && (Z.lor (Z.land x 32) n <? 64) &&
    Bool.eqb (has_data (Z.lor (Z.land x 32) n)) (has_data x) && (support (Z.lor (Z.land x 32) n) =? n)) (seqZ 0 64)) eq_refl n Hn64) as Hb.
  apply orb_true_iff in Hb as [Hb%Z.ltb_lt|Hb]; [lia|]. rewrite forallb_forall in Hb.
  specialize (Hb x ltac:(apply list_elem_of_In, elem_of_seqZ; lia)). rewrite !andb_true_iff, Z.eqb_eq, Z.leb_le, Z.ltb_lt, eqb_true_iff in Hb. tauto.
Qed.

(** ** Neighbours *)

Definition neighbor_offsets : list (Z * Z * Z) := filter (λ o, o ≠ (0, 0, 0)) cube.
Definition shift_section (k : LightSection) (o : Z * Z * Z) : LightSection :=
  {| ls_x := ls_x k + o.1.1; ls_y := ls_y k + o.1.2; ls_z := ls_z k + o.2 |}.
Definition neighbors (k : LightSection) : list LightSection := shift_section k <$> neighbor_offsets.

Lemma elem_of_neighbors k n : n ∈ neighbors k ↔ n ≠ k ∧ -1 ≤ ls_x n - ls_x k ≤ 1 ∧ -1 ≤ ls_y n - ls_y k ≤ 1 ∧ -1 ≤ ls_z n - ls_z k ≤ 1.
Proof.
  assert (Hcube : ∀ x y z, (x, y, z) ∈ cube ↔ -1 ≤ x ≤ 1 ∧ -1 ≤ y ≤ 1 ∧ -1 ≤ z ≤ 1).
  { intros x y z. unfold cube. rewrite !list_elem_of_bind.
    assert (H3 : ∀ v, v ∈ [-1; 0; 1] ↔ -1 ≤ v ≤ 1) by (intros v; rewrite !elem_of_cons, elem_of_nil; lia). split.
    - intros (x'&Hx&?). rewrite list_elem_of_bind in Hx. destruct Hx as (y'&Hy&?). rewrite list_elem_of_bind in Hy. destruct Hy as (z'&Hz&?).
      apply list_elem_of_singleton in Hz. injection Hz as -> -> ->. rewrite <- !H3. done.
    - intros (?&?&?). exists x. rewrite H3. split; [|done]. rewrite list_elem_of_bind. exists y. rewrite H3. split; [|done]. rewrite list_elem_of_bind. exists z. rewrite H3. split; [by left|done]. }
  unfold neighbors, neighbor_offsets. rewrite list_elem_of_fmap. split.
  - intros ([[x y] z]&->&[Hne Hc]%list_elem_of_filter). apply Hcube in Hc. unfold shift_section. cbn. split; [|lia].
    intros Heq. apply Hne. destruct k. injection Heq as ? ? ?. cbn in *. repeat f_equal; lia.
  - intros (Hne&?&?&?). exists (ls_x n - ls_x k, ls_y n - ls_y k, ls_z n - ls_z k). split; [destruct n; unfold shift_section; cbn; f_equal; lia|].
    apply list_elem_of_filter. split; [|apply Hcube; lia]. intros [= ? ? ?]. apply Hne. destruct n, k; cbn in *. f_equal; lia.
Qed.
Lemma neighbors_sym k n : n ∈ neighbors k ↔ k ∈ neighbors n.
Proof. rewrite !elem_of_neighbors. split; intros (Hne&?&?&?); (split; [congruence|lia]). Qed.
Lemma neighbors_self k : k ∉ neighbors k.
Proof. rewrite elem_of_neighbors. tauto. Qed.
Lemma neighbors_nodup k : NoDup (neighbors k).
Proof.
  apply NoDup_fmap_2_strong; [|by apply (bool_decide_unpack _)]. intros [[x y] z] [[x' y'] z'] _ _. unfold shift_section. cbn. intros [= ? ? ?]. repeat f_equal; lia.
Qed.
Lemma neighbors_length k : length (neighbors k) = 26%nat.
Proof. unfold neighbors. by rewrite length_fmap. Qed.

(** How many neighbours have data. *)
Definition data_neighbors (data : LightSection → bool) (k : LightSection) : Z := zlen (filter (λ n, data n = true) (neighbors k)).

Lemma data_neighbors_range data k : 0 ≤ data_neighbors data k ≤ 26.
Proof. unfold data_neighbors, zlen. pose proof (length_filter (λ n, data n = true) (neighbors k)). rewrite neighbors_length in *. lia. Qed.

Lemma filter_flip (f g : LightSection → bool) l key :
  NoDup l → (∀ k, k ≠ key → g k = f k) → f key = false → g key = true →
  zlen (filter (λ n, g n = true) l) = zlen (filter (λ n, f n = true) l) + (if bool_decide (key ∈ l) then 1 else 0).
Proof.
  intros Hn Hsame Hf Hg. unfold zlen. induction l as [|k l IH]; [done|]. apply NoDup_cons in Hn as [Hk Hn]. specialize (IH Hn).
  rewrite !filter_cons. destruct (decide (k = key)) as [->|Hne].
  - rewrite Hf, Hg, decide_True, decide_False by done. rewrite bool_decide_eq_true_2 by (by left). rewrite bool_decide_eq_false_2 in IH by done. cbn [length]. lia.
  - rewrite Hsame by done. assert (bool_decide (key ∈ k :: l) = bool_decide (key ∈ l)) as -> by (apply bool_decide_ext; rewrite elem_of_cons; naive_solver).
    destruct (f k); [rewrite decide_True by done|rewrite decide_False by done]; rewrite ?decide_True, ?decide_False by done; cbn [length]; lia.
Qed.

Section status.
Context `{Allocator, StorageLayout}.
Implicit Types (s : Storage) (id : LayerId) (key : LightSection).

(** ** Plans *)

Definition change (empty : bool) : Z := if empty then -1 else 1.
(** The state of every section after the transition. *)
Definition target s key (empty : bool) (k : LightSection) : Z :=
  let old := entry_state s k in
  if decide (k = key) then (if empty then Z.land old not_data else Z.lor old 32)
  else if decide (k ∈ neighbors key) then Z.lor (Z.land old 32) (support old + change empty)
  else old.
Definition plan_keys key : list LightSection := key :: neighbors key.

Lemma offset_cases key o : (offset key o.1.1 o.1.2 o.2 = Ok (shift_section key o)) ∨ offset key o.1.1 o.1.2 o.2 = Err InvalidCoordinate.
Proof.
  destruct o as [[x y] z]. unfold offset, shift_section. cbn [fst snd].
  assert (Hc : ∀ v, checked_i32 v = Some v ∨ checked_i32 v = None) by (intros v; unfold checked_i32; case_match; auto).
  destruct (Hc (ls_x key + x)) as [->| ->]; mstep; [|by right].
  destruct (Hc (ls_y key + y)) as [->| ->]; cbn [mbind option_bind]; mstep; [|by right]. destruct (ls_y key + y <? i32_max); mstep; [|by right].
  destruct (Hc (ls_z key + z)) as [->| ->]; mstep; [by left|by right].
Qed.
Definition inside key : Prop := ∀ o, o ∈ neighbor_offsets → offset key o.1.1 o.1.2 o.2 = Ok (shift_section key o).

Lemma neighbor_transitions_spec s key empty l :
  let new o := Z.lor (Z.land (entry_state s (shift_section key o)) 32) (support (entry_state s (shift_section key o)) + change empty) in
  let supported o := 0 ≤ support (entry_state s (shift_section key o)) + change empty ≤ 26 in
  (neighbor_transitions s key empty l = Ok ((λ o, transition s (shift_section key o) (new o)) <$> filter (λ o, o ≠ (0, 0, 0)) l) ∧
     ∀ o, o ∈ filter (λ o, o ≠ (0, 0, 0)) l → supported o) ∨
  (neighbor_transitions s key empty l = Err InvalidCoordinate ∧
     ¬ ∀ o, o ∈ filter (λ o, o ≠ (0, 0, 0)) l → supported o ∧ offset key o.1.1 o.1.2 o.2 = Ok (shift_section key o)).
Proof.
  intros new supported. induction l as [|o l IH]; cbn [neighbor_transitions].
  { left. split; [done|]. intros o Ho. by apply not_elem_of_nil in Ho. }
  destruct o as [[x y] z]. rewrite filter_cons.
  destruct ((x =? 0) && (y =? 0) && (z =? 0)) eqn:Hz.
  { rewrite !andb_true_iff, !Z.eqb_eq in Hz. destruct Hz as [[-> ->] ->]. by rewrite decide_False by tauto. }
  rewrite decide_True by (intros [= -> -> ->]; done).
  destruct (offset_cases key (x, y, z)) as [E|E]; cbn [fst snd] in E; rewrite E; mstep.
  2: { right. split; [done|]. intros Hall. destruct (Hall (x, y, z)) as [_ E']; [by left|]. cbn [fst snd] in E'. congruence. }
  fold (support (entry_state s (shift_section key (x, y, z)))). fold (change empty).
  destruct (Z.leb_spec 0 (support (entry_state s (shift_section key (x, y, z))) + change empty)) as [H1|H1];
    [destruct (Z.leb_spec (support (entry_state s (shift_section key (x, y, z))) + change empty) 26) as [H2|H2]|]; cbn [andb negb].
  2,3: right; split; [done|]; intros Hall; destruct (Hall (x, y, z)) as [Hs _]; [by left|]; unfold supported in Hs; lia.
  destruct IH as [[-> Hs]|[-> Hn]]; mstep; [left|right].
  - split; [done|]. intros o [->|Ho]%elem_of_cons; [done|by apply Hs].
  - split; [done|]. intros Hall. apply Hn. intros o Ho. apply Hall. by right.
Qed.

Lemma status_plan_spec s key empty :
  (status_plan s key empty = Ok ((λ k, transition s k (target s key empty k)) <$> plan_keys key) ∧
     ∀ k, k ∈ neighbors key → 0 ≤ support (entry_state s k) + change empty ≤ 26) ∨
  (status_plan s key empty = Err InvalidCoordinate ∧ ¬ (inside key ∧ ∀ k, k ∈ neighbors key → 0 ≤ support (entry_state s k) + change empty ≤ 26)).
Proof.
  unfold status_plan. destruct (neighbor_transitions_spec s key empty cube) as [[-> Hs]|[-> Hn]]; mstep; fold neighbor_offsets in *; [left|right].
  - split.
    + f_equal. unfold plan_keys. rewrite fmap_cons. unfold target at 1. rewrite decide_True by done. f_equal. unfold neighbors. rewrite <- list_fmap_compose.
      apply list_fmap_ext. intros i o Ho. unfold compose, target. assert (Hin : shift_section key o ∈ neighbors key) by (apply list_elem_of_fmap_2; by eapply list_elem_of_lookup_2).
      rewrite decide_False, decide_True; [done|done|]. intros Heq. rewrite Heq in Hin. by apply neighbors_self in Hin.
    + intros k (o&->&Ho)%list_elem_of_fmap. by apply Hs.
  - split; [done|]. intros [Hin Hall]. apply Hn. intros o Ho. split; [|by apply Hin]. apply Hall. by apply list_elem_of_fmap_2.
Qed.

Lemma plan_keys_nodup key : NoDup (plan_keys key).
Proof. constructor; [apply neighbors_self|apply neighbors_nodup]. Qed.

(** ** The support invariant *)

Definition data_at s (k : LightSection) : bool := has_data (entry_state s k).
Definition supported_ok s : Prop := ∀ k, support (entry_state s k) = data_neighbors (data_at s) k.

Lemma entry_state_range s k : base_ok s → 0 ≤ entry_state s k < 64.
Proof.
  intros Hb. unfold entry_state. destruct (entry_at s k) as [e|] eqn:He; [|lia]. apply entry_at_some in He as [He _]; [|apply Hb]. apply (bo_entry _ Hb e He).
Qed.

Lemma target_range s key empty k :
  base_ok s → (∀ k, k ∈ neighbors key → 0 ≤ support (entry_state s k) + change empty ≤ 26) → 0 ≤ target s key empty k < 64.
Proof.
  intros Hb Hs. pose proof (entry_state_range s k Hb) as Hr. unfold target. case_decide; [destruct empty; [by apply state_lowered|by apply state_raised]|].
  case_decide; [|done]. by apply state_supported; [|apply Hs].
Qed.

(** The count of a neighbour can follow the change of a section. *)
Lemma flipped_range (data : LightSection → bool) key (empty : bool) k :
  k ∈ neighbors key → data key = empty → 0 ≤ data_neighbors data k + change empty ≤ 26.
Proof.
  intros Hk Hold. pose proof (data_neighbors_range data k) as Hrange. pose proof (proj1 (neighbors_sym key k) Hk) as Hsym. unfold change. destruct empty.
  - assert (1 ≤ data_neighbors data k); [|lia]. unfold data_neighbors, zlen in *.
    destruct (filter (λ n, data n = true) (neighbors k)) as [|x l] eqn:E; [|cbn [length]; lia].
    assert (Hin : key ∈ filter (λ n, data n = true) (neighbors k)) by (by apply list_elem_of_filter). rewrite E in Hin. by apply not_elem_of_nil in Hin.
  - assert (data_neighbors data k < 26); [|lia]. unfold data_neighbors, zlen in *.
    assert (Hlt : (length (filter (λ n, data n = true) (neighbors k)) < length (neighbors k))%nat); [|rewrite neighbors_length in Hlt; lia].
    apply list_elem_of_split in Hsym as (l1&l2&E). rewrite E, filter_app, filter_cons_False, !length_app by congruence.
    cbn [length]. pose proof (length_filter (λ n, data n = true) l1). pose proof (length_filter (λ n, data n = true) l2). lia.
Qed.

(** The requested data bit, with every count following. *)
Lemma target_supported s s' key empty :
  base_ok s → supported_ok s → data_at s key = empty → (∀ k, entry_state s' k = target s key empty k) → supported_ok s'.
Proof.
  intros Hb Hsup Hold Hnew k.
  assert (Hcount : ∀ k, k ∈ neighbors key → 0 ≤ support (entry_state s k) + change empty ≤ 26 ∧ True).
  { intros k' Hk'. split; [|done]. rewrite Hsup. by apply (flipped_range (data_at s) key). }
  assert (Hdata : ∀ n, data_at s' n = if decide (n = key) then negb empty else data_at s n).
  { intros n. unfold data_at at 1. rewrite Hnew. unfold target. pose proof (entry_state_range s n Hb) as Hr. case_decide.
    - destruct empty; [by apply state_lowered|by apply state_raised].
    - case_decide as Hn; [|done]. by apply state_supported; [|apply Hcount]. }
  assert (Hd : data_neighbors (data_at s') k = data_neighbors (data_at s) k + (if bool_decide (key ∈ neighbors k) then change empty else 0)).
  { unfold data_neighbors. destruct empty.
    - rewrite (filter_flip (data_at s') (data_at s) (neighbors k) key (neighbors_nodup k)); [unfold change; case_bool_decide; lia| | |done].
      + intros n Hn. rewrite Hdata. by rewrite decide_False.
      + rewrite Hdata. by rewrite decide_True.
    - rewrite (filter_flip (data_at s) (data_at s') (neighbors k) key (neighbors_nodup k)); [unfold change; case_bool_decide; lia| |done|].
      + intros n Hn. rewrite Hdata. by rewrite decide_False.
      + rewrite Hdata. by rewrite decide_True. }
  rewrite Hd, Hnew, <- Hsup. unfold target. pose proof (entry_state_range s k Hb) as Hr. destruct (decide (k = key)) as [->|Hk].
  - rewrite bool_decide_eq_false_2 by apply neighbors_self. rewrite Z.add_0_r. destruct empty; [by apply state_lowered|by apply state_raised].
  - destruct (decide (k ∈ neighbors key)) as [Hn|Hn].
    + rewrite bool_decide_eq_true_2 by (by apply neighbors_sym). by apply state_supported; [|apply Hcount].
    + rewrite bool_decide_eq_false_2 by (rewrite <- neighbors_sym; done). lia.
Qed.
End status.
