(* ===== verification/LightStorageTransition.v ===== *)
(** * Light section storage: status transitions

    An admitted plan is staged, its layers are created, and applying it cannot
    fail.  A transition that is refused changes nothing that can be observed. *)

From Stdlib Require Import Sorted.
From stdpp Require Import gmap list sets sorting.
From S2P Require Import Prelude.
From S2P Require Import Sorted.
From S2P Require Import View.
From S2P Require Import LightTypes.
From S2P Require Import LightLayer.
From S2P Require Import LightStore.
From S2P Require Import LightStorage.
From S2P Require Import LightStorageOps.
From S2P Require Import LightStorageInv.
From S2P Require Import LightStorageWrites.
From S2P Require Import LightStorageSettle.
From S2P Require Import LightStorageStatus.
Local Open Scope Z_scope.

Section transitions.
Context `{Allocator, StorageLayout}.
Implicit Types (s : Storage) (id : LayerId) (key : LightSection) (t : Transition).

(** ** Staging the notifications of a plan *)

Definition near key (k : LightSection) : Prop := ∃ o, o ∈ cube ∧ offset key o.1.1 o.1.2 o.2 = Ok k.

Lemma stage_offsets_spec key l s :
  staging (stage_offsets key l) (λ k, ∃ o, o ∈ l ∧ offset key o.1.1 o.1.2 o.2 = Ok k) (∀ o, o ∈ l → ∃ k, offset key o.1.1 o.1.2 o.2 = Ok k) s.
Proof.
  revert s. induction l as [|[[x y] z] l IH]; intros s; cbn [stage_offsets].
  - eapply staging_ext; [| |apply staging_ret].
    + intros k. split; [done|]. intros (o&Ho&_). by apply not_elem_of_nil in Ho.
    + split; [|done]. intros _ o Ho. by apply not_elem_of_nil in Ho.
  - intros Hok. unfold call_bind at 1 3, query. destruct (offset_cases key (x, y, z)) as [E|E]; cbn [fst snd] in E; rewrite E; mstep.
    + eapply staging_ext; [| |apply staging_bind; [apply (stage_notification_spec _ (shift_section key (x, y, z)))|intros; apply IH]|done].
      * intros k. split; [intros [->|(o&Ho&?)]; [exists (x, y, z); split; [by left|done]|exists o; split; [by right|done]]|].
        intros (o&[->|Ho]%elem_of_cons&Ek); [left; cbn [fst snd] in Ek; congruence|right; eauto].
      * split; [intros [_ Hall] o [->|Ho]%elem_of_cons; [by eexists|by apply Hall]|]. intros Hall. split; [done|]. intros o Ho. apply Hall. by right.
    + right. exists InvalidCoordinate, (st_scratch s). rewrite with_scratch_same. split; [done|]. intros [Hall _]. destruct (Hall (x, y, z)) as [k Ek]; [by left|]. cbn [fst snd] in Ek. congruence.
Qed.

(** The columns of the plan that sky light has to add. *)
Lemma stage_plan_spec plan cols s :
  in_order co_key column_key (st_columns s) → list_ok s (st_scratch s) → NoDup cols →
  (∃ l cols', stage_plan plan cols s = Ok (Done cols', with_scratch s l) ∧ list_ok s l ∧
     holds (st_scratch s) (λ k, ∃ t, t ∈ plan ∧ tr_initialize t = true ∧ near (tr_key t) k) l ∧ NoDup cols' ∧ cols ⊆ cols' ∧
     (st_kind s = KSky → ∀ t, t ∈ plan → tr_initialize t = true → section_column (tr_key t) ∈ cols' ∨ is_Some (column_at s (section_column (tr_key t))))) ∨
  (∃ err l, stage_plan plan cols s = Ok (Failed err, with_scratch s l)).
Proof.
  revert cols s. induction plan as [|t plan IH]; intros cols s Hord Hok Hn; cbn [stage_plan].
  { left. exists (st_scratch s), cols. rewrite with_scratch_same. split; [done|]. split; [done|]. split; [|split; [done|split; [done|]]].
    - intros k. split; [by left|]. intros [?|(t&Ht&_)]; [done|by apply not_elem_of_nil in Ht].
    - intros _ t Ht. by apply not_elem_of_nil in Ht. }
  destruct (tr_initialize t) eqn:Ht.
  2: { destruct (IH cols s Hord Hok Hn) as [(l&cols'&->&Hl&Hh&Hn'&Hsub&Hcol)|(err&l&->)]; [left|right; by exists err, l].
       exists l, cols'. split; [done|]. split; [done|]. split; [|split; [done|split; [done|]]].
       - intros k. rewrite (Hh k). split; intros [?|(t'&Ht'&Hi&?)]; try (by left); right; exists t'; (split; [|done]).
         + by right.
         + apply elem_of_cons in Ht' as [->|?]; [congruence|done].
       - intros Hk t' [->|Ht']%elem_of_cons Hi; [congruence|by apply Hcol]. }
  unfold call_bind. unfold stage_neighbors. destruct (stage_offsets_spec (tr_key t) cube s Hok) as [(l1&->&Hl1&Hh1&_)|(err&l1&->&_)]; mstep; [|right; by exists err, l1].
  set (fresh := bool_decide _ && _ && _). set (cols1 := if fresh then _ else _).
  change (st_kind (with_scratch s l1)) with (st_kind s) in fresh. change (column_index (with_scratch s l1) (section_column (tr_key t))) with (column_index s (section_column (tr_key t))) in fresh.
  assert (Hcols1 : NoDup cols1 ∧ cols ⊆ cols1 ∧ (st_kind s = KSky → section_column (tr_key t) ∈ cols1 ∨ ∃ i, column_index s (section_column (tr_key t)) = inl i)).
  { unfold cols1. destruct fresh eqn:Hf; unfold fresh in Hf.
    - apply andb_true_iff in Hf as [_ Hf%negb_true_iff%bool_decide_eq_false]. split; [apply NoDup_app; split; [done|split; [|apply NoDup_singleton]]|split].
      + intros c Hc ->%list_elem_of_singleton. done.
      + intros c Hc. apply elem_of_app. by left.
      + intros _. left. apply elem_of_app. right. by left.
    - split; [done|]. split; [done|]. intros Hk. rewrite bool_decide_eq_true_2 in Hf by done. destruct (column_index s (section_column (tr_key t))) as [i|i] eqn:E; [right; by exists i|].
      left. cbn [andb] in Hf. apply negb_false_iff, bool_decide_eq_true in Hf. done. }
  destruct Hcols1 as (Hn1&Hsub1&Hcol1).
  destruct (IH cols1 (with_scratch s l1) Hord Hl1 Hn1) as [(l&cols'&->&Hl&Hh&Hn'&Hsub&Hcol)|(err&l&->)]; [left|right; by exists err, l].
  exists l, cols'. split; [done|]. split; [done|]. split; [|split; [done|split; [by etrans|]]].
  - intros k. rewrite (Hh k). cbn [with_scratch with_lists st_scratch]. rewrite (Hh1 k). fold (near (tr_key t) k). split.
    + intros [[?|?]|(t'&?&?&?)]; [by left|right; exists t; split; [by left|done]|right; exists t'; split; [by right|done]].
    + intros [?|(t'&[->|Ht']%elem_of_cons&?&?)]; [by left; left|by left; right|right; eauto].
  - intros Hk t' [->|Ht']%elem_of_cons Hi; [|by apply Hcol]. destruct (Hcol1 Hk) as [Hin|[i Hi']]; [left; by apply Hsub|right].
    destruct (search_found_inl co_key column_key (st_columns s) _ i Hord Hi') as (c&_&_&Hf). by exists c.
Qed.

(** ** Creating the layers *)

(** Only layers were added to the heap. *)
Record grown s s' : Prop := {
  gr_frame : frame s s';
  gr_lists : st_staged s' = st_staged s ∧ st_scratch s' = st_scratch s;
  gr_heap : heap_ok s';
  gr_ext id v : st_heap s !! id = Some v → st_heap s' !! id = Some v;
}.
Lemma grown_refl s : heap_ok s → grown s s.
Proof. intros Hh. split; [apply frame_refl|done|done|done]. Qed.
Lemma grown_trans s1 s2 s3 : grown s1 s2 → grown s2 s3 → grown s1 s3.
Proof. intros [? [? ?] ? ?] [? [? ?] ? ?]. split; [by eapply frame_trans|split; congruence|done|auto]. Qed.

Lemma next_above_entry_in s key e : next_above_entry s key = Some e → e ∈ st_entries s.
Proof.
  unfold next_above_entry. set (start := match entry_index s key with inl i => Datatypes.S i | inr i => i end). intros Hf.
  assert (Hin : e ∈ drop start (st_entries s)).
  { revert Hf. generalize (drop start (st_entries s)). intros l. induction l as [|e' l IH]; [done|]. case_decide; [|done].
    case_bool_decide; [intros [= ->]; by left|]. intros Hf. right. by apply IH. }
  rewrite <- (take_drop start (st_entries s)). apply elem_of_app. by right.
Qed.
Lemma min_by_key_in {A} (l : list (Z * A)) p : min_by_key l = Some p → p ∈ l.
Proof.
  revert p. induction l as [|[y a] l IH]; intros p; [done|]. cbn [min_by_key]. destruct (min_by_key l) as [[y' b]|]; [|intros [= <-]; by left].
  destruct (y' <? y); intros [= <-]; [right; by apply IH|by left].
Qed.

Lemma heap_light s id : heap_ok s → is_Some (st_heap s !! id) → light_layer (value_of s id).
Proof. intros Hh [v Hv]. unfold value_of. rewrite Hv. by eapply ho_layers. Qed.

(** A layer under a lease, in either case. *)
Lemma grown_alloc s lay v :
  heap_ok (with_memory s (st_metadata s) lay (<[st_next_layer s := v]> (st_heap s)) (Datatypes.S (st_next_layer s))) → st_heap s !! st_next_layer s = None →
  grown s (with_memory s (st_metadata s) lay (<[st_next_layer s := v]> (st_heap s)) (Datatypes.S (st_next_layer s))).
Proof.
  intros Hh Hn. split; [split; try done; cbn; lia|done|done|]. intros id w Hw. cbn [with_memory st_heap]. rewrite lookup_insert_ne; [done|]. intros <-. congruence.
Qed.
Lemma grown_refused s lay :
  heap_ok s → b_limit lay = b_limit (st_layers s) → b_used lay = b_used (st_layers s) → grown s (with_memory s (st_metadata s) lay (st_heap s) (st_next_layer s)).
Proof.
  intros [Hr Hl Hled [Hlim Hle]] Hb Hu. split; [by split|done| |done]. split; cbn [with_memory st_heap st_next_layer st_layers st_limits]; [done..|congruence|]. split; congruence.
Qed.

Lemma create_layer_spec key plan lowest s :
  base_ok s → (∀ t id, t ∈ plan → tr_layer t = Some id → is_Some (st_heap s !! id)) →
  ∃ r s', create_layer key plan lowest s = Ok (r, s') ∧ grown s s' ∧ ∀ id, r = Done id → is_Some (st_heap s' !! id).
Proof.
  intros Hb Hplan. pose proof (bo_heap _ Hb) as Hh. unfold create_layer. destruct (e ← entry_at s key; en_queued e) as [q|] eqn:Hq.
  { eexists _, s. split; [done|]. split; [by apply grown_refl|]. intros id [= <-]. apply bind_Some in Hq as (e&He&Hq).
    apply entry_at_some in He as [He _]; [|apply Hb]. apply (ho_refs _ Hh). by eapply refs_queued. }
  clear Hq. match goal with |- context [match (if ?c then ?m else None) with _ => _ end] => set (best := if c then m else None) end.
  assert (Hbest : ∀ y above, best = Some (y, above) → is_Some (st_heap s !! above)).
  { intros y above. unfold best. destruct (_ && _); [|done]. intros Hin%min_by_key_in. apply elem_of_app in Hin as [Hin|Hin].
    - destruct (next_above_entry s key) as [e|] eqn:He; [|by apply not_elem_of_nil in Hin]. destruct (en_updating e) as [u|] eqn:Hu; [|by apply not_elem_of_nil in Hin].
      apply list_elem_of_singleton in Hin. injection Hin as -> ->. apply (ho_refs _ Hh). eapply refs_updating; [by eapply next_above_entry_in|done].
    - match type of Hin with context [min_by_key ?l] => destruct (min_by_key l) as [p|] eqn:Hp end; [|by apply not_elem_of_nil in Hin]. apply list_elem_of_singleton in Hin as <-. apply min_by_key_in in Hp.
      apply list_elem_of_omap in Hp as (t&[_ Ht]%list_elem_of_filter&Hl). apply bind_Some in Hl as (id&Hl&[= <- <-]). by eapply Hplan. }
  destruct best as [[y above]|].
  - destruct (copy_layer_spec (value_of s above) true s Hh) as (lay&Hlim&[(err&->&Hu)|(v&Hn&->&Hh'&_)]); [apply heap_light; [done|by eapply Hbest]|..].
    + eexists _, _. split; [done|]. split; [by apply grown_refused|done].
    + eexists _, _. split; [done|]. split; [by apply grown_alloc|]. intros id [= <-]. cbn [with_memory st_heap]. by rewrite lookup_insert_eq.
  - match goal with |- context [leased_layer (Ok ?v)] => destruct (leased_layer_spec (Ok v) s Hh) as (lay&Hlim&[(err&->&Hu)|(w&_&Hn&->&Hh')]) end.
    + intros v [= <-]. split; [done|]. cbn. case_match; lia.
    + left. by eexists.
    + eexists _, _. split; [done|]. split; [by apply grown_refused|done].
    + eexists _, _. split; [done|]. split; [by apply grown_alloc|]. intros id [= <-]. cbn [with_memory st_heap]. by rewrite lookup_insert_eq.
Qed.

(** The plan with its layers. *)
Definition filled s t t' : Prop :=
  tr_key t' = tr_key t ∧ tr_state t' = tr_state t ∧ tr_initialize t' = tr_initialize t ∧
  (tr_initialize t = true → ∃ id, tr_layer t' = Some id) ∧ ∀ id, tr_layer t' = Some id → is_Some (st_heap s !! id).

Lemma filled_grown s s' l l' : grown s s' → Forall2 (filled s) l l' → Forall2 (filled s') l l'.
Proof.
  intros Hg Hf. eapply Forall2_impl; [exact Hf|]. intros t t' (?&?&?&?&Hid). split_and!; [done..|]. intros id Hi. destruct (Hid id Hi) as [v Hv]. exists v. by apply (gr_ext _ _ Hg).
Qed.

Lemma create_layers_spec todo done0 done_ lowest s :
  base_ok s → (∀ t, t ∈ todo → tr_layer t = None) → Forall2 (filled s) done0 done_ →
  ∃ r s', create_layers done_ todo lowest s = Ok (r, s') ∧ grown s s' ∧ ∀ plan, r = Done plan → Forall2 (filled s') (done0 ++ todo) plan.
Proof.
  revert s done0 done_ lowest. induction todo as [|t todo IH]; intros s done0 done_ lowest Hb Hnone Hd; cbn [create_layers].
  { eexists _, s. split; [done|]. split; [apply grown_refl, Hb|]. intros plan [= <-]. by rewrite app_nil_r. }
  pose proof (Hnone t ltac:(by left)) as Ht. assert (Hrest : ∀ t', t' ∈ todo → tr_layer t' = None) by (intros; apply Hnone; by right).
  replace (done0 ++ t :: todo) with ((done0 ++ [t]) ++ todo) by (by rewrite <- app_assoc).
  destruct (tr_initialize t) eqn:Hi.
  - unfold call_bind. destruct (create_layer_spec (tr_key t) done_ lowest s Hb) as (r&s1&->&Hg&Hid).
    { intros t' id Ht' Hl. apply list_elem_of_lookup in Ht' as [i Hi']. destruct (Forall2_lookup_r _ _ _ _ _ Hd Hi') as (t0&_&_&_&_&_&Hin). by apply Hin. }
    mstep. destruct r as [id|err]; [|by eexists _, s1].
    destruct (IH s1 (done0 ++ [t]) (done_ ++ [{| tr_key := tr_key t; tr_state := tr_state t; tr_initialize := true; tr_layer := Some id |}]) (Z.min lowest (ls_y (tr_key t)))) as (r&s2&->&Hg2&Hp).
    + eapply frame_base; [done|apply Hg|apply Hg].
    + done.
    + apply Forall2_app; [by eapply filled_grown|]. constructor; [|constructor]. split_and!; [done|done|done|eauto|]. intros id' [= <-]. by apply Hid.
    + exists r, s2. split; [done|]. split; [by eapply grown_trans|done].
  - apply IH; [done|done|]. apply Forall2_app; [done|]. constructor; [|constructor]. split_and!; [done|done|done|congruence|]. intros id. rewrite Ht. done.
Qed.

(** ** Applying the plan *)

(** The entry of a transition, and the entry at its key afterwards. *)
Definition enter (e : SectionEntry) t : SectionEntry :=
  if (en_state e =? 0) && negb (tr_state t =? 0) then
    if en_remove e then set_state e (tr_state t) false (en_updating e) else set_state e (tr_state t) (en_remove e) (tr_layer t)
  else if negb (en_state e =? 0) && (tr_state t =? 0) then set_state e (tr_state t) true (en_updating e)
  else set_state e (tr_state t) (en_remove e) (en_updating e).
Definition entered t (o : option SectionEntry) : option SectionEntry :=
  match o with
  | Some e => Some (enter e t)
  | None => if tr_state t =? 0 then None else Some (enter (new_entry (tr_key t) None) t)
  end.

Lemma enter_key e t : en_key (enter e t) = en_key e.
Proof. unfold enter. destruct (_ && _); [by destruct (en_remove e)|]. by destruct (_ && _). Qed.
Lemma enter_state_eq e t : en_state (enter e t) = tr_state t.
Proof. unfold enter. destruct (_ && _); [by destruct (en_remove e)|]. by destruct (_ && _). Qed.

(** The transition fits the entry it is applied to. *)
Definition fitting s t : Prop :=
  0 ≤ tr_state t < 64 ∧
  tr_initialize t = match entry_at s (tr_key t) with
                    | Some e => (en_state e =? 0) && negb (tr_state t =? 0) && negb (en_remove e)
                    | None => negb (tr_state t =? 0)
                    end ∧
  (tr_initialize t = true → ∃ id, tr_layer t = Some id) ∧ ∀ id, tr_layer t = Some id → is_Some (st_heap s !! id).

Lemma enter_ok e t :
  entry_ok e → 0 ≤ tr_state t < 64 → ((en_state e =? 0) && negb (tr_state t =? 0) && negb (en_remove e) = true → is_Some (tr_layer t)) → entry_ok (enter e t).
Proof.
  intros [H1 H2 H3] Hr Hl. unfold enter. destruct (Z.eqb_spec (en_state e) 0) as [Es|Es], (Z.eqb_spec (tr_state t) 0) as [Et|Et]; cbn [andb negb] in *.
  - split; cbn; [done| |]; [rewrite H2, Es, Et; tauto|done].
  - destruct (en_remove e) eqn:Er; split; cbn; [done| |done|done| |congruence].
    + split; [by left|]. intros _. apply H2. by right.
    + split; [by left|]. intros _. by apply Hl.
  - split; cbn; [done| |done]. split; [by right|]. intros _. apply H2. by left.
  - split; cbn; [done| |]; [|intros Hrem; by apply H3 in Hrem]. rewrite H2. split; intros _; by left.
Qed.

Lemma new_entry_ok key q : entry_ok (new_entry key q).
Proof. split; cbn; [lia| |done]. split; [intros [? ?]; done|]. intros [?|?]; done. Qed.

Lemma heap_ok_entries s l :
  heap_ok s → (∀ e id, e ∈ l → id ∈ entry_refs e → is_Some (st_heap s !! id)) → heap_ok (with_entries s l).
Proof.
  intros [Hr Hl Hled Hli] Hin. split; [|exact Hl|exact Hled|exact Hli]. intros id Hid. apply elem_of_refs in Hid as [(e&He&Hid)|Hid].
  - by eapply Hin.
  - apply Hr, elem_of_refs. by right.
Qed.

Lemma columns_nodup (l : list Column) : in_order co_key column_key l → NoDup (co_key <$> l).
Proof.
  unfold in_order, sorted_keys. induction l as [|c l IH]; [constructor|]. rewrite !fmap_cons. intros [Hs Hall]%StronglySorted_inv.
  constructor; [|by apply IH]. intros (c'&Hc&Hin)%list_elem_of_fmap. rewrite Forall_fmap, Forall_forall in Hall. specialize (Hall c' Hin). cbn in Hall.
  rewrite Hc in Hall. by apply key_lt_irrefl in Hall.
Qed.

(** Columns whose keys come from a list that fits. *)
Definition columns_within s (known : list ChunkAddress) : Prop :=
  in_order co_key column_key (st_columns s) ∧ zlen known ≤ max_columns (st_limits s) ∧ ∀ c, c ∈ st_columns s → co_key c ∈ known.

Lemma raise_top_spec key s known :
  columns_within s known → section_column key ∈ known →
  ∃ cols lowest, raise_top key s = Ok (with_columns s cols lowest) ∧ columns_within (with_columns s cols lowest) known ∧
    ∀ c, st_light_enabled (with_columns s cols lowest) c = st_light_enabled s c.
Proof.
  intros (Ho&Hlen&Hk) Hin. unfold raise_top, insert_column. set (s1 := with_columns s (st_columns s) _).
  change (column_index s1 (section_column key)) with (search co_key column_key (st_columns s) (section_column key)).
  pose proof (search_spec co_key column_key (st_columns s) (section_column key) Ho) as Hs.
  assert (Hset : ∀ cols i c f, in_order co_key column_key cols → cols !! i = Some c → (∀ c, co_key (f c) = co_key c) → (∀ c, c ∈ cols → co_key c ∈ known) →
    in_order co_key column_key (<[i := f c]> cols) ∧ ∀ c', c' ∈ <[i := f c]> cols → co_key c' ∈ known).
  { intros cols i c f Hoc Hi Hf Hkn. split; [by eapply in_order_replace|]. intros c' [j Hj]%list_elem_of_lookup.
    apply list_lookup_insert_Some in Hj as [(_&<-&_)|[_ Hj]]; [rewrite Hf|]; apply Hkn; by eapply list_elem_of_lookup_2. }
  set (f := λ c : Column, set_top c (Some (match co_top c with Some top => Z.max top (ls_y key + 1) | None => ls_y key + 1 end))).
  destruct (search co_key column_key (st_columns s) (section_column key)) as [i|i].
  - mstep. destruct Hs as (c&Hi&Hck). unfold modify_column. cbn [s1 with_columns st_columns]. rewrite Hi. mstep.
    destruct (Hset _ _ _ f Ho Hi (λ _, eq_refl) Hk) as [Ho' Hk']. eexists _, _. split; [reflexivity|]. split; [done|].
    intros c0. unfold st_light_enabled, column_at, column_index. cbn [with_columns st_columns].
    change (found ?l (find_column co_key ?l c0)) with (found l (search co_key column_key l c0)). rewrite (found_replace co_key column_key _ i c) by done.
    case_decide as Hc0; [|done]. subst c0. assert (Hf : found (st_columns s) (search co_key column_key (st_columns s) (co_key c)) = Some c) by (apply (found_search co_key column_key _ _ c Ho); split; [by eapply list_elem_of_lookup_2|done]).
    unfold find_column. fold (search co_key column_key (st_columns s) (co_key c)). by rewrite Hf.
  - destruct Hs as (Hi&Hn&Hins). set (col := {| co_key := section_column key; co_enabled := false; co_retain := false; co_top := None |}).
    change (st_columns s1) with (st_columns s). change (st_limits s1) with (st_limits s).
    destruct (Z.eqb_spec (zlen (st_columns s)) (max_columns (st_limits s))) as [Hfull|_].
    { exfalso. assert (Hle : (length (section_column key :: (co_key <$> st_columns s)) ≤ length known)%nat).
      { apply submseteq_length, NoDup_submseteq; [constructor; [|by apply columns_nodup]|].
        - intros (c&Hc&Hin')%list_elem_of_fmap. symmetry in Hc. by eapply Hn.
        - intros a [->|(c&->&Hin')%list_elem_of_fmap]%elem_of_cons; [done|by apply Hk]. }
      cbn [length] in Hle. rewrite length_fmap in Hle. unfold zlen in *. lia. }
    mstep. unfold modify_column. cbn [with_columns st_columns]. pose proof (Hins col eq_refl) as Ho1.
    assert (Hlk : vec_insert i col (st_columns s) !! i = Some col).
    { unfold vec_insert. rewrite lookup_app_r by (rewrite length_take; lia). rewrite length_take. by replace (i - i `min` length (st_columns s))%nat with 0%nat by lia. }
    rewrite Hlk. mstep. destruct (Hset _ _ _ f Ho1 Hlk (λ _, eq_refl)) as [Ho' Hk'].
    { intros c Hc. apply elem_of_vec_insert in Hc as [->|Hc]; [done|by apply Hk]. }
    eexists _, _. split; [reflexivity|]. split; [done|]. intros c0. unfold st_light_enabled, column_at, column_index. cbn [with_columns st_columns].
    change (found ?l (find_column co_key ?l c0)) with (found l (search co_key column_key l c0)). rewrite (found_replace co_key column_key _ i col) by done.
    case_decide as Hc0.
    + subst c0. cbn [col co_key]. destruct (found (st_columns s) _) as [c|] eqn:Hf; [|done]. apply (found_search co_key column_key) in Hf as [Hin' Hck]; [|done]. by apply Hn in Hin'.
    + rewrite (found_insert co_key column_key) by done. by rewrite decide_False.
Qed.

(** The fields a step may change. *)
Definition entering s (l : list SectionEntry) (cols : list Column) (lowest : Z) (changed inconsistent : bool) : Storage :=
  with_flags (with_columns (with_entries s l) cols lowest) changed inconsistent.

Lemma enter_state_spec s known i e t :
  st_entries s !! i = Some e → columns_within s known →
  (st_kind s = KSky → (en_state e =? 0) && negb (tr_state t =? 0) && negb (en_remove e) = true → section_column (tr_key t) ∈ known) →
  ∃ cols lowest ch inc, enter_state i t s = Ok (entering s (<[i := enter e t]> (st_entries s)) cols lowest ch inc) ∧
    columns_within (with_columns s cols lowest) known ∧ ∀ c, st_light_enabled (with_columns s cols lowest) c = st_light_enabled s c.
Proof.
  intros Hi Hc Hkn. unfold enter_state, modify_entry. rewrite Hi. mstep.
  assert (Hsame : ∀ e', enter e t = e' → ∀ ch inc, ∃ cols lowest ch' inc',
    Ok (E := False) (with_flags (with_entries s (<[i := e']> (st_entries s))) ch inc) = Ok (entering s (<[i := enter e t]> (st_entries s)) cols lowest ch' inc') ∧
    columns_within (with_columns s cols lowest) known ∧ ∀ c, st_light_enabled (with_columns s cols lowest) c = st_light_enabled s c).
  { intros e' <- ch inc. by exists (st_columns s), (st_lowest s), ch, inc. }
  unfold enter in *. destruct ((en_state e =? 0) && negb (tr_state t =? 0)) eqn:E1.
  - destruct (en_remove e) eqn:Er; [by apply (Hsame _ eq_refl (st_changed s) (st_inconsistent s))|].
    case_bool_decide as Hk; [|by apply (Hsame _ eq_refl)].
    destruct (raise_top_spec (tr_key t) (with_flags (with_entries s (<[i := set_state e (tr_state t) false (tr_layer t)]> (st_entries s))) true true) known Hc) as (cols&low&->&?&?).
    { by apply Hkn. }
    exists cols, low, true, true. done.
  - destruct (negb (en_state e =? 0) && (tr_state t =? 0)); [by apply (Hsame _ eq_refl)|by apply (Hsame _ eq_refl (st_changed s) (st_inconsistent s))].
Qed.

(** What one step does to the entries. *)
Lemma apply_transition_spec s known t :
  in_order en_key sort_key (st_entries s) → columns_within s known →
  (st_kind s = KSky → tr_initialize t = true → section_column (tr_key t) ∈ known) → fitting s t →
  ∃ l cols lowest ch inc, apply_transition s t = Ok (entering s l cols lowest ch inc) ∧
    in_order en_key sort_key l ∧
    (∀ k, found l (search en_key sort_key l k) = if decide (tr_key t = k) then entered t (entry_at s k) else entry_at s k) ∧
    zlen l = zlen (st_entries s) + (if negb (tr_state t =? 0) && is_new s (tr_key t) then 1 else 0) ∧
    columns_within (with_columns s cols lowest) known ∧ ∀ c, st_light_enabled (with_columns s cols lowest) c = st_light_enabled s c.
Proof.
  intros Ho Hc Hkn (Hr&Hinit&_&_). unfold apply_transition, is_new, entry_index, find_section. fold (search en_key sort_key (st_entries s) (tr_key t)).
  assert (Hat : ∀ k, entry_at s k = found (st_entries s) (search en_key sort_key (st_entries s) k)) by done.
  pose proof (search_spec en_key sort_key (st_entries s) (tr_key t) Ho) as Hs.
  destruct (search en_key sort_key (st_entries s) (tr_key t)) as [i|i] eqn:Ei.
  - destruct Hs as (e&Hi&Hk). assert (He : entry_at s (tr_key t) = Some e) by (rewrite Hat, Ei; done). rewrite He in Hinit.
    destruct (enter_state_spec s known i e t Hi Hc) as (cols&low&ch&inc&->&Hc'&Hl). { intros ? ?. apply Hkn; [done|]. by rewrite Hinit. }
    exists (<[i := enter e t]> (st_entries s)), cols, low, ch, inc. split; [done|]. split; [by eapply in_order_replace; [| |apply enter_key]|].
    split; [|split; [|done]].
    + intros k. rewrite (found_replace en_key sort_key _ i e) by (try done; apply enter_key). rewrite Hk. case_decide as Hd; [subst k; by rewrite He|done].
    + unfold zlen. rewrite length_insert, andb_false_r. lia.
  - destruct Hs as (Hi&Hn&Hins). assert (He : entry_at s (tr_key t) = None) by (rewrite Hat, Ei; done). rewrite He in Hinit. rewrite andb_true_r.
    destruct (Z.eqb_spec (tr_state t) 0) as [Hz|Hz]; cbn [negb] in *.
    { exists (st_entries s), (st_columns s), (st_lowest s), (st_changed s), (st_inconsistent s). split; [by destruct s|]. split; [done|]. split; [|split; [lia|done]].
      intros k. case_decide as Hd; [|done]. subst k. fold (search en_key sort_key (st_entries s) (tr_key t)). change (entry_at s (tr_key t) = entered t (entry_at s (tr_key t))).
      rewrite He. unfold entered. by rewrite (proj2 (Z.eqb_eq _ _) Hz). }
    set (new := new_entry (tr_key t) None). set (l1 := vec_insert i new (st_entries s)).
    assert (Hl1 : l1 !! i = Some new).
    { unfold l1, vec_insert. rewrite lookup_app_r by (rewrite length_take; lia). rewrite length_take. by replace (i - i `min` length (st_entries s))%nat with 0%nat by lia. }
    pose proof (Hins new eq_refl) as Ho1. fold l1 in Ho1.
    destruct (enter_state_spec (with_entries s l1) known i new t Hl1 Hc) as (cols&low&ch&inc&->&Hc'&Hl). { intros ? ?. by apply Hkn. }
    exists (<[i := enter new t]> l1), cols, low, ch, inc. split; [done|]. split; [by eapply in_order_replace; [| |apply enter_key]|]. split; [|split; [|done]].
    + intros k. rewrite (found_replace en_key sort_key l1 i new) by (try done; apply enter_key). change (en_key new) with (tr_key t). case_decide as Hd.
      * subst k. rewrite He. unfold entered. destruct (Z.eqb_spec (tr_state t) 0); [done|]. done.
      * unfold l1. rewrite (found_insert en_key sort_key) by done. change (en_key new) with (tr_key t). by rewrite decide_False.
    + change (st_entries (with_entries s l1)) with l1. unfold zlen at 1. rewrite length_insert. fold (zlen l1). unfold l1. by apply length_vec_insert.
Qed.
End transitions.
