(* ===== verification/LightStorageApply.v ===== *)
(** * Light section storage: a status update as a whole

    Every admitted plan is applied to the end.  Afterwards each section has the
    state the plan gave it, levels that were stored keep their values, and the
    neighbour counts are right again; a refused update is not seen. *)

From Stdlib Require Import Sorted.
From stdpp Require Import gmap list sets sorting.
From S2P Require Import Prelude.
From S2P Require Import Sorted.
From S2P Require Import View.
From S2P Require Import LightTypes.
From S2P Require Import LightLayer.
From S2P Require Import LightStore.
From S2P Require Import LightStorage.
From S2P Require Import LightStorageOps.
From S2P Require Import LightStorageInv.
From S2P Require Import LightStorageWrites.
From S2P Require Import LightStorageSettle.
From S2P Require Import LightStorageStatus.
From S2P Require Import LightStorageTransition.
Local Open Scope Z_scope.

Section apply.
Context `{Allocator, StorageLayout}.
Implicit Types (s : Storage) (id : LayerId) (key : LightSection) (t : Transition).

(** A state in which the rest of a plan can be applied. *)
Record applying (known : list ChunkAddress) s (plan : list Transition) : Prop := {
  ap_heap : heap_ok s;
  ap_entries : in_order en_key sort_key (st_entries s);
  ap_entry e : e ∈ st_entries s → entry_ok e;
  ap_columns : columns_within s known;
  ap_known t : st_kind s = KSky → t ∈ plan → tr_initialize t = true → section_column (tr_key t) ∈ known;
  ap_fitting t : t ∈ plan → fitting s t;
  ap_keys : NoDup (tr_key <$> plan);
}.

Lemma entered_ok s t e :
  (∀ e, e ∈ st_entries s → entry_ok e) → in_order en_key sort_key (st_entries s) → fitting s t → entered t (entry_at s (tr_key t)) = Some e → entry_ok e.
Proof.
  intros Hent Ho (Hr&Hinit&Hl&_) He. destruct (entry_at s (tr_key t)) as [e0|] eqn:E; cbn [entered] in He.
  - injection He as <-. apply entry_at_some in E as [Hin _]; [|done]. apply enter_ok; [by apply Hent|done|]. rewrite <- Hinit. intros Hi. destruct (Hl Hi) as [? ->]. by eexists.
  - destruct (Z.eqb_spec (tr_state t) 0) as [|Hz]; [done|]. injection He as <-. apply enter_ok; [apply new_entry_ok|done|]. cbn [new_entry en_state en_remove].
    intros _. destruct (Hl Hinit) as [? ->]. by eexists.
Qed.

Lemma enter_refs e t id : id ∈ entry_refs (enter e t) → id ∈ entry_refs e ∨ tr_layer t = Some id.
Proof.
  rewrite !elem_of_entry_refs. unfold enter. destruct (_ && _); [destruct (en_remove e)|destruct (_ && _)]; cbn; tauto.
Qed.
Lemma entered_refs s t e id :
  in_order en_key sort_key (st_entries s) → heap_ok s → fitting s t → entered t (entry_at s (tr_key t)) = Some e → id ∈ entry_refs e → is_Some (st_heap s !! id).
Proof.
  intros Ho Hh (_&_&_&Hl) He Hid. destruct (entry_at s (tr_key t)) as [e0|] eqn:E; cbn [entered] in He.
  - injection He as <-. apply entry_at_some in E as [Hin _]; [|done]. apply enter_refs in Hid as [Hid|Hid]; [|by apply Hl].
    apply (ho_refs _ Hh), elem_of_refs. left. by exists e0.
  - destruct (tr_state t =? 0); [done|]. injection He as <-. apply enter_refs in Hid as [Hid|Hid]; [|by apply Hl].
    rewrite elem_of_entry_refs in Hid. cbn in Hid. by destruct Hid.
Qed.

Lemma is_new_at s k : in_order en_key sort_key (st_entries s) → is_new s k = bool_decide (entry_at s k = None).
Proof.
  intros Ho. unfold is_new, entry_at. destruct (entry_index s k) as [i|i] eqn:E; cbn [found]; [|done].
  pose proof (search_found_inl en_key sort_key _ k i Ho E) as (e&->&_). by rewrite bool_decide_eq_false_2.
Qed.

Lemma new_sections_cons s t plan : new_sections s (t :: plan) = (if negb (tr_state t =? 0) && is_new s (tr_key t) then 1 else 0) + new_sections s plan.
Proof.
  unfold new_sections, zlen. rewrite filter_cons. destruct (negb (tr_state t =? 0) && is_new s (tr_key t)).
  - rewrite decide_True by done. cbn [length]. lia.
  - rewrite decide_False by done. lia.
Qed.
Lemma new_sections_ext s s' plan : (∀ t, t ∈ plan → is_new s' (tr_key t) = is_new s (tr_key t)) → new_sections s' plan = new_sections s plan.
Proof.
  induction plan as [|t plan IH]; intros Hn; [done|]. rewrite !new_sections_cons, IH by (intros; apply Hn; by right). by rewrite Hn by (by left).
Qed.
Lemma new_sections_filled s s1 plan plan' : Forall2 (filled s1) plan plan' → new_sections s plan' = new_sections s plan.
Proof. induction 1 as [|t t' plan plan' (Hk&Hst&_) _ IH]; [done|]. by rewrite !new_sections_cons, IH, Hk, Hst. Qed.

Lemma apply_step known s t plan :
  applying known s (t :: plan) →
  ∃ l cols lowest ch inc, let s' := entering s l cols lowest ch inc in
    apply_transition s t = Ok s' ∧ applying known s' plan ∧
    (∀ k, entry_at s' k = if decide (tr_key t = k) then entered t (entry_at s k) else entry_at s k) ∧
    zlen l + new_sections s' plan = zlen (st_entries s) + new_sections s (t :: plan) ∧ ∀ c, st_light_enabled s' c = st_light_enabled s c.
Proof.
  intros [Hh Ho Hent Hc Hkn Hfit Hnd]. pose proof (Hfit t ltac:(by left)) as Ht. rewrite fmap_cons in Hnd. apply NoDup_cons in Hnd as [Hnew Hnd].
  destruct (apply_transition_spec s known t Ho Hc) as (l&cols&low&ch&inc&Ha&Hol&Hat&Hz&Hc'&Hle); [intros ? ?; apply Hkn; [done|by left|done]|done|].
  exists l, cols, low, ch, inc. cbv zeta. split; [done|].
  assert (Hother : ∀ t', t' ∈ plan → entry_at (entering s l cols low ch inc) (tr_key t') = entry_at s (tr_key t')).
  { intros t' Ht'. change (found l (search en_key sort_key l (tr_key t')) = entry_at s (tr_key t')). rewrite Hat. case_decide as Hd; [|done].
    exfalso. apply Hnew. rewrite Hd. by apply list_elem_of_fmap_2. }
  assert (Hin : ∀ e, e ∈ l → (e ∈ st_entries s) ∨ entered t (entry_at s (tr_key t)) = Some e).
  { intros e He. assert (Hf : found l (search en_key sort_key l (en_key e)) = Some e) by (by apply (found_search en_key sort_key)). rewrite Hat in Hf.
    case_decide as Hd; [right|left; by apply entry_at_some in Hf as [? _]]. by rewrite Hd in *. }
  split; [|split; [exact Hat|split; [|exact Hle]]].
  - split; [|exact Hol| |exact Hc'| | |exact Hnd].
    + assert (Hl : heap_ok (with_entries s l)).
      { apply heap_ok_entries; [done|]. intros e id He Hid. destruct (Hin e He) as [He'|He']; [|by eapply entered_refs].
        apply (ho_refs _ Hh), elem_of_refs. left. by exists e. }
      by apply (heap_ok_sub (with_entries s l)).
    + intros e He. destruct (Hin e He) as [He'|He']; [by apply Hent|by eapply entered_ok].
    + intros t' ? ?. apply Hkn; [done|by right].
    + intros t' Ht'. destruct (Hfit t' ltac:(by right)) as (?&Hi&?&?). split; [done|]. rewrite (Hother t' Ht'). done.
  - rewrite new_sections_cons. rewrite (new_sections_ext s (entering s l cols low ch inc) plan); [destruct (negb (tr_state t =? 0) && is_new s (tr_key t)); lia|]. intros t' Ht'.
    rewrite !is_new_at by done. by rewrite Hother.
Qed.

Lemma apply_plan_spec known plan s :
  applying known s plan →
  ∃ l cols lowest ch inc, let s' := entering s l cols lowest ch inc in
    apply_plan plan s = Ok s' ∧ applying known s' [] ∧
    (∀ k, k ∉ tr_key <$> plan → entry_at s' k = entry_at s k) ∧
    (∀ t, t ∈ plan → entry_at s' (tr_key t) = entered t (entry_at s (tr_key t))) ∧
    zlen l = zlen (st_entries s) + new_sections s plan ∧ ∀ c, st_light_enabled s' c = st_light_enabled s c.
Proof.
  revert s. induction plan as [|t plan IH]; intros s Ha.
  - exists (st_entries s), (st_columns s), (st_lowest s), (st_changed s), (st_inconsistent s). cbv zeta. replace (entering s _ _ _ _ _) with s by (by destruct s).
    split; [done|]. split; [done|]. split; [done|]. split; [intros t Ht; by apply not_elem_of_nil in Ht|]. split; [change (new_sections s []) with 0; lia|done].
  - destruct (apply_step known s t plan Ha) as (l1&cols1&low1&ch1&inc1&Hs&Ha1&Hat&Hz&Hle). cbv zeta in *. cbn [apply_plan]. rewrite Hs. mstep.
    destruct (IH _ Ha1) as (l&cols&low&ch&inc&->&Ha'&Hout&Hin&Hz'&Hle'). exists l, cols, low, ch, inc. cbv zeta in *. split; [done|]. split; [exact Ha'|].
    pose proof (ap_keys _ _ _ Ha) as Hnd. rewrite fmap_cons in Hnd. apply NoDup_cons in Hnd as [Hnew _].
    split; [|split; [|split]].
    + intros k Hk. rewrite fmap_cons, not_elem_of_cons in Hk. destruct Hk as [Hk1 Hk2].
      etrans; [by apply Hout|]. rewrite Hat. by rewrite decide_False.
    + intros t' [->|Ht']%elem_of_cons.
      * etrans; [by apply Hout|]. rewrite Hat. by rewrite decide_True.
      * etrans; [by apply Hin|]. rewrite Hat. rewrite decide_False; [done|]. intros Hd. apply Hnew. rewrite Hd. by apply list_elem_of_fmap_2.
    + change (st_entries (entering s l1 cols1 low1 ch1 inc1)) with l1 in Hz'. lia.
    + intros c. etrans; [apply Hle'|apply Hle].
Qed.

(** ** The update *)

(** The first part of a composite call, done or failed. *)
Lemma call_done {S E A B} (m : call S E A) (f : A → call S E B) x a y : m x = Ok (Done a, y) → call_bind m f x = f a y.
Proof. intros Hm. unfold call_bind. by rewrite Hm. Qed.
Lemma call_failed {S E A B} (m : call S E A) (f : A → call S E B) x e y : m x = Ok (Failed e, y) → call_bind m f x = Ok (Failed e, y).
Proof. intros Hm. unfold call_bind. by rewrite Hm. Qed.
Lemma query_done {S E A} (f : S → outcome E A) x a : f x = Ok a → query f x = Ok (Done a, x).
Proof. intros Hf. unfold query. by rewrite Hf. Qed.
Lemma query_failed {S E A} (f : S → outcome E A) x e : f x = Err e → query f x = Ok (Failed e, x).
Proof. intros Hf. unfold query. by rewrite Hf. Qed.
Lemma on_failure_done {S E A} (m : call S E A) (f : S → S) x a y : m x = Ok (Done a, y) → on_failure m f x = Ok (Done a, y).
Proof. intros Hm. unfold on_failure. by rewrite Hm. Qed.
Lemma on_failure_failed {S E A} (m : call S E A) (f : S → S) x e y : m x = Ok (Failed e, y) → on_failure m f x = Ok (Failed e, f y).
Proof. intros Hm. unfold on_failure. by rewrite Hm. Qed.

(** What is left as it was. *)
Record untouched s s' : Prop := {
  un_alike : looks_alike s s';
  un_entries : st_entries s' = st_entries s;
  un_notifications : st_notifications s' = st_notifications s;
  un_changed : st_changed s' = st_changed s;
}.
Lemma frame_untouched s s' : base_ok s → frame s s' → keeps s s' → untouched s s'.
Proof. intros Hb Hf Hk. split; [by apply frame_alike|apply Hf..]. Qed.

Lemma grown_keeps s s' : heap_ok s → grown s s' → keeps s s'.
Proof. intros Hh Hg id Hid. destruct (ho_refs _ Hh id Hid) as [v Hv]. rewrite Hv. by apply (gr_ext _ _ Hg). Qed.

Definition queued_at s key : option LayerId := e ← entry_at s key; en_queued e.

(** What an applied update has done. *)
Record updated s key (empty : bool) s' : Prop := {
  ud_state k : entry_state s' k = target s key empty k;
  ud_level p : is_Some (level_at s p) → level_at s' p = level_at s p;
  ud_queued k : queued_at s' k = queued_at s k;
  ud_enabled c : st_light_enabled s' c = st_light_enabled s c;
  ud_kind : st_kind s' = st_kind s ∧ st_stamp s' = st_stamp s;
  ud_held : readers_kept s s';
}.

(** A plan with its layers can be applied. *)
Lemma plan_applying s s1 key empty cols plan :
  base_ok s → grown s s1 → (∀ k, k ∈ neighbors key → 0 ≤ support (entry_state s k) + change empty ≤ 26) →
  Forall2 (filled s1) ((λ k, transition s k (target s key empty k)) <$> plan_keys key) plan →
  (st_kind s = KSky → ∀ k, k ∈ plan_keys key → tr_initialize (transition s k (target s key empty k)) = true → section_column k ∈ cols ∨ is_Some (column_at s (section_column k))) →
  zlen (st_columns s) + zlen cols ≤ max_columns (st_limits s) →
  applying ((co_key <$> st_columns s) ++ cols) s1 plan ∧ tr_key <$> plan = plan_keys key ∧ ∀ t, t ∈ plan → tr_state t = target s key empty (tr_key t).
Proof.
  intros Hb Hg Hsup Hplan Hcols Hz. pose proof (gr_frame _ _ Hg) as Hf. pose proof Hf as [_ Hkind Hlim Hen Hco _ _ _ _ _ _ _].
  assert (Hin : ∀ t, t ∈ plan → ∃ k, k ∈ plan_keys key ∧ filled s1 (transition s k (target s key empty k)) t).
  { intros t [i Hi]%list_elem_of_lookup. destruct (Forall2_lookup_r _ _ _ _ _ Hplan Hi) as (t0&Ht0&Hfill). rewrite list_lookup_fmap in Ht0.
    apply fmap_Some in Ht0 as (k&Hk&->). exists k. split; [by eapply list_elem_of_lookup_2|done]. }
  assert (Hkeys : tr_key <$> plan = plan_keys key).
  { apply list_eq. intros i. rewrite list_lookup_fmap. pose proof (proj1 (Forall2_lookup _ _ _) Hplan i) as Hi.
    rewrite list_lookup_fmap in Hi. inversion Hi as [t0 t Hfill Hx Hy|Hx Hy].
    - symmetry in Hx. apply fmap_Some in Hx as (k&->&->). cbn [fmap option_fmap option_map]. by destruct Hfill as [-> _].
    - symmetry in Hx. apply fmap_None in Hx as ->. done. }
  split; [|split; [exact Hkeys|]].
  - split; [apply Hg|by rewrite Hen; apply Hb|rewrite Hen; apply Hb| | | |by rewrite Hkeys; apply plan_keys_nodup].
    + split; [rewrite Hco; apply Hb|]. rewrite Hlim, Hco. split.
      * unfold zlen in *. rewrite length_app, length_fmap. lia.
      * intros c Hc. apply elem_of_app. left. by apply list_elem_of_fmap_2.
    + intros t Hk Ht Hi. destruct (Hin t Ht) as (k&Hk'&Hkey&_&Hinit&_). rewrite Hkey. cbn [transition tr_key]. apply elem_of_app.
      destruct (Hcols ltac:(congruence) k Hk') as [?|[c Hc]]; [congruence|by right|left]. apply column_at_some in Hc as [Hc <-]; [|apply Hb]. by apply list_elem_of_fmap_2.
    + intros t Ht. destruct (Hin t Ht) as (k&Hk'&Hkey&Hst&Hinit&Hl&Hid). split; [rewrite Hst; by apply target_range|].
      rewrite Hkey, Hst, Hinit, (frame_entry_at _ _ _ Hf). split; [done|]. split; [exact Hl|exact Hid].
  - intros t Ht. destruct (Hin t Ht) as (k&Hk'&Hkey&Hst&_). by rewrite Hkey, Hst.
Qed.

(** The entries, levels and queued layers after the plan. *)
Lemma plan_applied s s1 key empty plan s2 :
  base_ok s → grown s s1 → tr_key <$> plan = plan_keys key → (∀ t, t ∈ plan → tr_state t = target s key empty (tr_key t)) →
  (∀ k, k ∉ tr_key <$> plan → entry_at s2 k = entry_at s1 k) → (∀ t, t ∈ plan → entry_at s2 (tr_key t) = entered t (entry_at s1 (tr_key t))) →
  st_heap s2 = st_heap s1 →
  (∀ k, entry_state s2 k = target s key empty k) ∧ (∀ p, is_Some (level_at s p) → level_at s2 p = level_at s p) ∧ ∀ k, queued_at s2 k = queued_at s k.
Proof.
  intros Hb Hg Hkeys Hst Hout Hin Hheap. pose proof (gr_frame _ _ Hg) as Hf.
  assert (Hcase : ∀ k, (k ∉ plan_keys key ∧ entry_at s2 k = entry_at s k) ∨ ∃ t, t ∈ plan ∧ tr_key t = k ∧ entry_at s2 k = entered t (entry_at s k) ∧ tr_state t = target s key empty k).
  { intros k. destruct (decide (k ∈ plan_keys key)) as [Hk|Hk]; [right|left].
    - rewrite <- Hkeys in Hk. apply list_elem_of_fmap in Hk as (t&->&Ht). exists t. split; [done|]. split; [done|]. rewrite Hin, (frame_entry_at _ _ _ Hf) by done. split; [done|by apply Hst].
    - split; [done|]. rewrite Hout by (by rewrite Hkeys). by apply frame_entry_at. }
  split; [|split].
  - intros k. destruct (Hcase k) as [[Hk He]|(t&_&_&He&Ht)].
    + unfold entry_state at 1. rewrite He. unfold target. unfold plan_keys in Hk. apply not_elem_of_cons in Hk as [Hk1 Hk2]. by rewrite !decide_False.
    + unfold entry_state at 1. rewrite He, <- Ht. destruct (entry_at s k); cbn [entered]; [apply enter_state_eq|]. destruct (Z.eqb_spec (tr_state t) 0); [done|apply enter_state_eq].
  - intros p [l Hl]. rewrite Hl. unfold level_at, updating_at in *. apply bind_Some in Hl as (id&Hu&[= Hl]). apply bind_Some in Hu as (e&He&Hu).
    assert (Hvalue : value_of s2 id = value_of s id).
    { unfold value_of. rewrite Hheap. rewrite (grown_keeps s s1 (bo_heap _ Hb) Hg); [done|]. apply entry_at_some in He as [? _]; [|apply Hb]. by eapply refs_updating. }
    destruct (Hcase (section_of p)) as [[_ ->]|(t&_&_&->&_)]; rewrite He; cbn [entered mbind option_bind].
    + rewrite Hu. cbn [mbind option_bind]. by rewrite Hvalue, Hl.
    + assert (en_updating (enter e t) = Some id) as ->; [|cbn [mbind option_bind]; by rewrite Hvalue, Hl].
      apply entry_at_some in He as [Hin' _]; [|apply Hb]. destruct (bo_entry _ Hb e Hin') as [_ Hup _]. unfold enter.
      destruct (Z.eqb_spec (en_state e) 0) as [Hz|Hz]; [|by destruct (tr_state t =? 0)]. destruct (tr_state t =? 0); [done|]. cbn [andb negb].
      destruct (en_remove e) eqn:Er; [done|]. destruct (proj1 Hup) as [?|?]; [by eexists|done|done].
  - intros k. unfold queued_at. destruct (Hcase k) as [[_ ->]|(t&_&_&->&_)]; [done|]. destruct (entry_at s k) as [e|]; cbn [entered mbind option_bind].
    + unfold enter. destruct (_ && _); [by destruct (en_remove e)|]. by destruct (_ && _).
    + destruct (tr_state t =? 0); [done|]. cbn [mbind option_bind]. unfold enter. destruct (_ && _); [done|]. by destruct (_ && _).
Qed.

Lemma create_failed s l s1 :
  storage_ok s → grown (with_scratch s l) s1 → base_ok s1 → storage_ok (collect s1) ∧ untouched s (collect s1).
Proof.
  intros Hok Hg Hb1. pose proof (scratch_storage s l Hok) as Hok0. destruct (collected_spec s1 (gr_heap _ _ Hg)) as (Hh&Ht&_&Hk).
  assert (Hf : frame (with_scratch s l) (collect s1)) by (eapply frame_trans; [apply Hg|apply collect_frame]). split.
  - apply (frame_storage (with_scratch s l)); [done..|]. destruct (gr_lists _ _ Hg) as [Hst _]. change (st_staged s1 = []). rewrite Hst. apply Hok.
  - apply frame_untouched; [apply Hok|eapply frame_trans; [apply scratch_frame|done]|]. intros id Hid.
    pose proof (grown_keeps _ _ (bo_heap _ (sk_base _ Hok0)) Hg id Hid) as Hs1. rewrite Hk; [done|].
    destruct (gr_lists _ _ Hg) as [Hst _]. revert Hid. rewrite !elem_of_refs, Hst, (frame_body_refs _ _ (gr_frame _ _ Hg)), (fr_entries _ _ (gr_frame _ _ Hg)). done.
Qed.

Lemma apply_created s l s1 key empty cols plan :
  storage_ok s → list_ok s l → grown (with_scratch s l) s1 →
  (∀ k, k ∈ neighbors key → 0 ≤ support (entry_state s k) + change empty ≤ 26) →
  Forall2 (filled s1) ((λ k, transition s k (target s key empty k)) <$> plan_keys key) plan →
  (st_kind s = KSky → ∀ k, k ∈ plan_keys key → tr_initialize (transition s k (target s key empty k)) = true → section_column k ∈ cols ∨ is_Some (column_at s (section_column k))) →
  zlen (st_columns s) + zlen cols ≤ max_columns (st_limits s) →
  zlen (st_entries s) + new_sections s ((λ k, transition s k (target s key empty k)) <$> plan_keys key) ≤ max_sections (st_limits s) →
  ∃ s2, apply_plan plan s1 = Ok s2 ∧ storage_ok (collect (deliver_scratch s2)) ∧ updated s key empty (collect (deliver_scratch s2)).
Proof.
  intros Hok Hl Hg Hsup Hplan Hcols Hcol Hsec. pose proof (scratch_storage s l Hok) as Hok0. pose proof (gr_frame _ _ Hg) as Hf.
  assert (Hc : st_limits s1 = st_limits s ∧ st_entries s1 = st_entries s) by (split; apply Hf). destruct Hc as [Hlim Hen].
  destruct (plan_applying (with_scratch s l) s1 key empty cols plan (sk_base _ Hok0) Hg Hsup Hplan Hcols Hcol) as (Ha&Hkeys&Hst).
  destruct (apply_plan_spec _ plan s1 Ha) as (es&cs&low&ch&inc&Hap&Ha'&Hout&Hin&Hz&Hle). cbv zeta in *. set (s2 := entering s1 es cs low ch inc) in *.
  exists s2. split; [done|]. destruct (plan_applied (with_scratch s l) s1 key empty plan s2 (sk_base _ Hok0) Hg Hkeys Hst Hout Hin eq_refl) as (Hstate&Hlevel&Hqueued).
  assert (Hnew : new_sections s1 plan = new_sections s ((λ k, transition s k (target s key empty k)) <$> plan_keys key)).
  { rewrite (new_sections_filled _ _ _ _ Hplan). apply new_sections_ext. intros t _. unfold is_new, entry_index. by rewrite Hen. }
  destruct Ha' as [Hh2 Ho2 He2 (Hco2&_&_) _ _ _].
  assert (Hb2 : base_ok (deliver_scratch s2)).
  { split; [by apply (heap_ok_sub s2)|exact Ho2|exact Hco2|exact He2|]. change (zlen es ≤ max_sections (st_limits s1)). rewrite Hlim, Hz, Hen, Hnew. done. }
  assert (Hlists : st_scratch s1 = l ∧ st_staged s1 = [] ∧ st_published s1 = st_published s).
  { destruct (gr_lists _ _ Hg) as [-> ->]. split; [done|]. split; [apply Hok|apply Hf]. }
  destruct Hlists as (Hsc&Hsta&Hpub). destruct (fr_bodies _ _ Hf) as (Hvis&Hrd&_).
  assert (Hok2 : storage_ok (collect (deliver_scratch s2))).
  { apply collect_ok; [done| |exact Hsta| |].
    - unfold bodies_ok. change (∀ b, b = st_visible s1 ∨ b ∈ st_readers s1 → body_ok b). rewrite Hvis, Hrd. apply Hok.
    - change (list_ok s1 (st_scratch s1)). unfold list_ok. by rewrite Hsc, Hlim.
    - change (list_ok s1 (st_published s1)). unfold list_ok. rewrite Hpub, Hlim. apply Hok. }
  split; [done|]. pose proof (collect_alike _ Hb2) as [Hk1 Hk2 Hk3 Hk4 _ _ Hk7]. split; [exact Hstate| |exact Hqueued| | |].
  - intros p Hp. etrans; [apply Hk3|]. etrans; [|by apply Hlevel]. done.
  - intros c. etrans; [apply Hle|]. unfold st_light_enabled, column_at, column_index. by rewrite (fr_columns _ _ Hf).
  - split; [etrans; [exact Hk1|apply Hf]|etrans; [exact Hk2|apply Hf]].
  - eapply readers_kept_trans; [|exact Hk7]. apply (readers_kept_trans _ (with_scratch s l)); [by apply held_heap|].
    destruct (fr_bodies _ _ Hf) as (_&?&?&_). apply kept_readers; [done|done|exact (grown_keeps _ _ (bo_heap _ (sk_base _ Hok0)) Hg)].
Qed.

Lemma update_status_ok s key empty :
  storage_ok s →
  ∃ r s', update_section_status key empty s = Ok (r, s') ∧ storage_ok s' ∧
    match r with
    | Failed _ => untouched s s'
    | Done _ => if Bool.eqb (data_at s key) empty then updated s key empty s' else s' = s
    end.
Proof.
  intros Hok. pose proof (sk_base _ Hok) as Hb. unfold update_section_status. fold (has_data (entry_state s key)). fold (data_at s key).
  destruct (Bool.eqb (data_at s key) empty); cbn [negb]; [|by eexists _, s].
  assert (Hself : untouched s s) by (apply frame_untouched; [done|apply frame_refl|done]).
  destruct (status_plan_spec s key empty) as [[Hplan Hsup]|[Hplan _]].
  2: { erewrite call_failed; [by eexists _, s|]. apply query_failed. exact Hplan. }
  set (steps := (λ k, transition s k (target s key empty k)) <$> plan_keys key) in *. erewrite call_done; [|apply query_done; exact Hplan].
  destruct (Z.ltb_spec (max_sections (st_limits s)) (zlen (st_entries s) + new_sections s steps)) as [Hsec|Hsec].
  { erewrite call_failed; [by eexists _, s|]. apply query_failed. by rewrite (proj2 (Z.ltb_lt _ _) Hsec). }
  erewrite call_done; [|apply query_done; by rewrite (proj2 (Z.ltb_ge _ _) Hsec)]. erewrite call_done; [|done].
  change (reset_scratch s) with (with_scratch s (st_notifications s)).
  destruct (stage_plan_spec steps [] (with_scratch s (st_notifications s))) as [(l&cols&Hst&Hl&_&_&_&Hcols)|(err&l&Hst)]; [apply Hb|apply Hok|constructor|..].
  2: { erewrite call_failed by done. eexists _, (with_scratch s l). split; [done|]. split; [exact (scratch_storage s l Hok)|]. apply frame_untouched; [done|split; done|done]. }
  erewrite call_done by done. change (with_scratch (with_scratch s (st_notifications s)) l) with (with_scratch s l). set (s0 := with_scratch s l).
  assert (Hok0 : storage_ok s0) by (by apply scratch_storage). assert (Hf0 : frame s s0) by (split; done).
  destruct (Z.ltb_spec (max_columns (st_limits s)) (zlen (st_columns s) + zlen cols)) as [Hcol|Hcol].
  { erewrite call_failed; [eexists _, s0; split; [done|]; split; [done|]; by apply frame_untouched|].
    apply query_failed. unfold s0. cbn [with_scratch with_lists st_limits st_columns]. by rewrite (proj2 (Z.ltb_lt _ _) Hcol). }
  erewrite call_done; [|apply query_done; unfold s0; cbn [with_scratch with_lists st_limits st_columns]; by rewrite (proj2 (Z.ltb_ge _ _) Hcol)].
  destruct (create_layers_spec steps [] [] (st_lowest s) s0 (sk_base _ Hok0)) as (r&s1&Hcr&Hg&Hfill); [|constructor|].
  { intros t (k&->&_)%list_elem_of_fmap. done. }
  destruct r as [plan|err].
  2: { erewrite call_failed by (by apply on_failure_failed). eexists _, _. split; [done|]. apply (create_failed s l); [done..|].
       eapply frame_base; [apply Hok0|apply Hg|apply Hg]. }
  erewrite call_done by (by apply on_failure_done). unfold update.
  destruct (apply_created s l s1 key empty cols plan) as (s2&->&?&?); try done.
  - by apply Hfill.
  - intros Hk k Hkin Hi. destruct (Hcols Hk (transition s k (target s key empty k))) as [?|?]; [exact (list_elem_of_fmap_2 (λ k, transition s k (target s key empty k)) _ _ Hkin)|done|by left|by right].
  - mstep. by eexists _, _.
Qed.
End apply.
