(* ===== verification/LightStorageQueue.v ===== *)
(** * Light section storage: queued data

    Data queued for a section waits beside its updating layer.  Queueing, or
    withdrawing what was queued, changes nothing else; the data readers are
    given is the queued layer over the visible one. *)

From Stdlib Require Import Sorted.
From stdpp Require Import gmap list sets sorting.
From S2P Require Import Prelude.
From S2P Require Import Sorted.
From S2P Require Import View.
From S2P Require Import LightTypes.
From S2P Require Import LightLayer.
From S2P Require Import LightStore.
From S2P Require Import LightStorage.
From S2P Require Import LightStorageOps.
From S2P Require Import LightStorageInv.
From S2P Require Import LightStorageWrites.
From S2P Require Import LightStorageSettle.
From S2P Require Import LightStorageStatus.
From S2P Require Import LightStorageTransition.
From S2P Require Import LightStorageApply.
Local Open Scope Z_scope.

Section queue.
Context `{Allocator, StorageLayout}.
Implicit Types (s : Storage) (id : LayerId) (key : LightSection) (value : option LayerId).

(** ** Entering the layer *)

(** A sound state that may hold a layer without a reference. *)
Record settled_ok s : Prop := {
  so_base : base_ok s;
  so_bodies : bodies_ok s;
  so_staged : st_staged s = [];
  so_notifications : list_ok s (st_notifications s);
  so_published : list_ok s (st_published s);
}.
Lemma storage_settled s : storage_ok s → settled_ok s.
Proof. by intros []. Qed.
Lemma settled_collect s : settled_ok s → storage_ok (collect s).
Proof. intros []. by apply collect_ok. Qed.

(** The entry of a section once [value] is queued for it. *)
Definition queue_entry key value (o : option SectionEntry) : option SectionEntry :=
  match o with
  | Some e => Some (set_updating e (en_updating e) value)
  | None => if bool_decide (is_Some value) then Some (new_entry key value) else None
  end.

Lemma queue_entry_ok key value o e : (∀ e, o = Some e → entry_ok e) → queue_entry key value o = Some e → entry_ok e.
Proof.
  intros Ho. destruct o as [e0|]; cbn [queue_entry].
  - intros [= <-]. destruct (Ho e0 eq_refl). by split.
  - case_bool_decide; [|done]. intros [= <-]. apply new_entry_ok.
Qed.

(** The vector of entries before it is pruned. *)
Lemma queue_entries s key value :
  base_ok s → (is_Some value → is_new s key = true → zlen (st_entries s) ≠ max_sections (st_limits s)) →
  ∃ l inc,
    (let s := if bool_decide (is_Some value) then with_flags s (st_changed s) true else s in
     match entry_index s key with
     | inl i => modify_entry i (λ e, set_updating e (en_updating e) value) s
     | inr i => Ok (if bool_decide (is_Some value) then with_entries s (vec_insert i (new_entry key value) (st_entries s)) else s)
     end) = Ok (with_entries (with_flags s (st_changed s) inc) l) ∧
    in_order en_key sort_key l ∧ zlen l ≤ max_sections (st_limits s) ∧
    ∀ k, found l (search en_key sort_key l k) = if decide (key = k) then queue_entry key value (entry_at s k) else entry_at s k.
Proof.
  intros Hb Hroom. pose proof (bo_entries _ Hb) as Ho. set (inc := if bool_decide (is_Some value) then true else st_inconsistent s).
  assert (Hs : (if bool_decide (is_Some value) then with_flags s (st_changed s) true else s) = with_flags s (st_changed s) inc).
  { unfold inc. case_bool_decide; [done|by destruct s]. }
  cbv zeta. rewrite Hs. clear Hs. clearbody inc. change (entry_index (with_flags s (st_changed s) inc) key) with (search en_key sort_key (st_entries s) key).
  unfold is_new, entry_index, find_section in Hroom. fold (search en_key sort_key (st_entries s) key) in Hroom.
  assert (Hat : entry_at s key = found (st_entries s) (search en_key sort_key (st_entries s) key)) by done.
  pose proof (search_spec en_key sort_key (st_entries s) key Ho) as Hsp. destruct (search en_key sort_key (st_entries s) key) as [i|i] eqn:Ei.
  - destruct Hsp as (e&Hi&Hk). unfold modify_entry. cbn [with_flags st_entries]. rewrite Hi. mstep. eexists _, inc. split; [reflexivity|].
    split; [by eapply in_order_replace|]. split; [unfold zlen; rewrite length_insert; apply Hb|].
    intros k. rewrite (found_replace en_key sort_key _ i e) by done. rewrite Hk. case_decide as Hd; [|done]. subst k. rewrite Hat. cbn [found]. by rewrite Hi.
  - destruct Hsp as (Hi&Hn&Hins). case_bool_decide as Hv.
    + eexists _, inc. split; [reflexivity|]. cbn [with_flags st_entries]. specialize (Hins (new_entry key value) eq_refl). split; [done|]. split.
      * rewrite length_vec_insert by done. specialize (Hroom Hv eq_refl). pose proof (bo_sections _ Hb). lia.
      * intros k. rewrite (found_insert en_key sort_key) by done. cbn [new_entry en_key]. case_decide as Hd; [|done]. subst k. rewrite Hat. cbn [found queue_entry].
        by rewrite bool_decide_eq_true_2.
    + exists (st_entries s), inc. split; [by destruct s|]. split; [done|]. split; [apply Hb|]. intros k. case_decide as Hd; [|done]. subst k.
      change (entry_at s key = queue_entry key value (entry_at s key)). rewrite Hat. cbn [found queue_entry]. by rewrite bool_decide_eq_false_2.
Qed.

(** What a queueing changes. *)
Record queueing s key value s' : Prop := {
  qu_state k : entry_state s' k = entry_state s k;
  qu_level p : level_at s' p = level_at s p;
  qu_queued k : queued_at s' k = if decide (key = k) then value else queued_at s k;
  qu_columns : st_columns s' = st_columns s;
  qu_kind : st_kind s' = st_kind s ∧ st_stamp s' = st_stamp s;
  qu_visible : st_visible s' = st_visible s;
  qu_held : readers_kept s s';
  qu_heap id : id ∈ refs s' → st_heap s' !! id = st_heap s !! id;
}.

Lemma pruned_at l k :
  in_order en_key sort_key l → let o := found l (search en_key sort_key l k) in
  let o' := found (filter (λ e, entry_kept e = true) l) (search en_key sort_key (filter (λ e, entry_kept e = true) l) k) in
  (match o' with Some e => en_state e | None => 0 end = match o with Some e => en_state e | None => 0 end) ∧
  (e ← o'; en_updating e) = (e ← o; en_updating e) ∧ (e ← o'; en_queued e) = (e ← o; en_queued e).
Proof.
  intros Ho o o'. unfold o'. rewrite found_filter by (done || apply _). fold o. destruct o as [e|]; [|done]. cbn [mbind option_bind]. case_decide as Hd; [done|].
  apply not_true_is_false in Hd. unfold entry_kept in Hd. rewrite !orb_false_iff, negb_false_iff, Z.eqb_eq, !bool_decide_eq_false in Hd.
  destruct Hd as (((Hz&Hu)&Hq)&_). rewrite Hz. destruct (en_updating e); [exfalso; apply Hu; by eexists|]. destruct (en_queued e); [exfalso; apply Hq; by eexists|]. done.
Qed.

Lemma queue_owned_ok s key value :
  settled_ok s → (∀ id, value = Some id → is_Some (st_heap s !! id)) → (is_Some value → is_new s key = true → zlen (st_entries s) ≠ max_sections (st_limits s)) →
  ∃ s', queue_owned key value s = Ok s' ∧ storage_ok s' ∧ queueing s key value s'.
Proof.
  intros Hok Hv Hroom. pose proof (so_base _ Hok) as Hb. destruct (queue_entries s key value Hb Hroom) as (l&inc&Hq&Ho&Hz&Hat). cbv zeta in Hq.
  unfold queue_owned. rewrite Hq. mstep. eexists. split; [reflexivity|].
  set (l' := filter (λ e, entry_kept e = true) l). change (prune_entries _) with (with_entries (with_flags s (st_changed s) inc) l'). set (s1 := with_entries _ l').
  assert (Hin : ∀ e, e ∈ l → (e ∈ st_entries s) ∨ queue_entry key value (entry_at s key) = Some e).
  { intros e He. assert (Hf : found l (search en_key sort_key l (en_key e)) = Some e) by (by apply (found_search en_key sort_key)). rewrite Hat in Hf.
    case_decide as Hd; [right|left; apply entry_at_some in Hf as [? _]; [done|apply Hb]]. rewrite <- Hd in Hf. done. }
  assert (Hin' : ∀ e, e ∈ l' → e ∈ l) by (by intros e [_ ?]%list_elem_of_filter).
  assert (Hb1 : base_ok s1).
  { split; [| |apply Hb| |].
    - assert (Hh : heap_ok (with_entries s l')); [|by apply (heap_ok_sub (with_entries s l'))].
      apply heap_ok_entries; [apply Hb|]. intros e id He Hid. destruct (Hin e (Hin' e He)) as [He'|He'].
      + apply (ho_refs _ (bo_heap _ Hb)), elem_of_refs. left. by exists e.
      + apply elem_of_entry_refs in Hid. destruct (entry_at s key) as [e0|] eqn:E; cbn [queue_entry] in He'.
        * injection He' as <-. apply entry_at_some in E as [E _]; [|done || apply Hb]. destruct Hid as [Hid|Hid]; [|by apply Hv].
          apply (ho_refs _ (bo_heap _ Hb)). by eapply refs_updating.
        * case_bool_decide; [|done]. injection He' as <-. destruct Hid as [Hid|Hid]; [done|by apply Hv].
    - by apply in_order_filter.
    - intros e He. destruct (Hin e (Hin' e He)) as [He'|He']; [by apply Hb|]. eapply queue_entry_ok; [|exact He']. intros e0 E. apply entry_at_some in E as [E _]; [by apply Hb|apply Hb].
    - etrans; [apply zlen_filter_le|exact Hz]. }
  assert (Hok1 : settled_ok s1) by (split; [done|apply Hok..]). split; [by apply settled_collect|].
  destruct (collected_spec s1 (bo_heap _ Hb1)) as (_&_&_&Hkeep).
  assert (Hu : ∀ k, updating_at s1 k = updating_at s k).
  { intros k. destruct (pruned_at l k Ho) as (_&E&_). etrans; [exact E|]. rewrite Hat. case_decide; [|done]. unfold updating_at, queue_entry.
    destruct (entry_at s k); [done|]. by case_bool_decide. }
  split; [| | |done..|eapply readers_kept_trans; [|exact (collect_held s1 (bo_heap _ Hb1))]; by apply held_heap|].
  - intros k. destruct (pruned_at l k Ho) as (E&_). etrans; [exact E|]. rewrite Hat. case_decide; [|done]. unfold entry_state, queue_entry.
    destruct (entry_at s k); [done|]. by case_bool_decide.
  - intros p. unfold level_at. change (updating_at (collect s1) (section_of p)) with (updating_at s1 (section_of p)). rewrite Hu.
    destruct (updating_at s (section_of p)) as [id|] eqn:E; [|done]. cbn [mbind option_bind]. unfold value_of. rewrite Hkeep; [done|].
    rewrite <- Hu in E. by eapply updating_at_refs.
  - intros k. destruct (pruned_at l k Ho) as (_&_&E). etrans; [exact E|]. rewrite Hat. unfold queued_at. case_decide as Hd; [|done]. unfold queue_entry.
    destruct (entry_at s k); [done|]. case_bool_decide as Hs; [done|]. destruct value; [exfalso; apply Hs; by eexists|done].
  - intros id Hid. by rewrite Hkeep.
Qed.

(** ** The calls *)

Definition queued_layer s key : option DataLayer := id ← queued_at s key; Some (value_of s id).

(** A section's queued data is replaced and nothing else. *)
Record queued s key (o : option DataLayer) s' : Prop := {
  qd_state k : entry_state s' k = entry_state s k;
  qd_level p : level_at s' p = level_at s p;
  qd_layer k : queued_layer s' k = if decide (key = k) then o else queued_layer s k;
  qd_columns : st_columns s' = st_columns s;
  qd_kind : st_kind s' = st_kind s ∧ st_stamp s' = st_stamp s;
  qd_visible : st_visible s' = st_visible s;
  qd_held : readers_kept s s';
}.

Lemma queued_at_refs s key id : base_ok s → queued_at s key = Some id → id ∈ refs s.
Proof. intros Hb Hq. apply bind_Some in Hq as (e&He&Hq). apply entry_at_some in He as [He _]; [|apply Hb]. by eapply refs_queued. Qed.

Lemma queueing_queued s key value s' : storage_ok s' → queueing s key value s' → queued s key (id ← value; Some (value_of s' id)) s'.
Proof.
  intros Hok [Hst Hlv Hq Hc Hk Hvis Hheld Hheap]. split; [done|done| |done..]. intros k. unfold queued_layer at 1. rewrite Hq. case_decide as Hd; [done|]. unfold queued_layer.
  destruct (queued_at s k) as [id|] eqn:E; [|done]. cbn [mbind option_bind]. unfold value_of. rewrite Hheap; [done|].
  eapply queued_at_refs; [apply Hok|]. rewrite Hq. by rewrite decide_False.
Qed.

(** A layer is leased and queued. *)
Lemma queue_leased s key vo :
  storage_ok s → (is_new s key = true → zlen (st_entries s) ≠ max_sections (st_limits s)) →
  (∃ v, vo = Ok v ∧ light_layer v) ∨ (∃ e, vo = Err e) →
  ∃ r s', call_bind (leased_layer vo) (λ id, update (queue_owned key (Some id))) s = Ok (r, s') ∧ storage_ok s' ∧
    match r with Done _ => ∃ v, vo = Ok v ∧ queued s key (Some v) s' | Failed _ => looks_alike s s' ∧ ∀ k, queued_layer s' k = queued_layer s k end.
Proof.
  intros Hok Hroom Hvo. pose proof (sk_base _ Hok) as Hb. pose proof (bo_heap _ Hb) as Hh.
  destruct (leased_layer_spec vo s Hh) as (lay&Hlim&[(err&E&Hu)|(v&Hv&Hn&E&Hh1)]).
  { intros v Hv. destruct Hvo as [(v'&?&?)|[e ?]]; congruence. }
  { destruct Hvo as [(v&?&_)|?]; eauto. }
  - rewrite (call_failed _ _ _ _ _ E). pose proof (grown_refused s lay Hh Hlim Hu) as Hg. eexists _, _. split; [done|]. split; [|split].
    + apply (frame_storage s); [done|apply Hg|apply Hg|apply Hok|apply Hok].
    + by apply frame_alike; [|apply Hg|apply grown_keeps].
    + done.
  - rewrite (call_done _ _ _ _ _ E). pose proof (grown_alloc s lay v Hh1 Hn) as Hg. set (s1 := with_memory s _ lay _ _) in *.
    assert (Hok1 : settled_ok s1).
    { split; [eapply frame_base; [exact Hb|apply Hg|done]|apply Hok..]. }
    destruct (queue_owned_ok s1 key (Some (st_next_layer s)) Hok1) as (s2&Eq&Hok2&Hqu).
    { intros id [= <-]. unfold s1. cbn [with_memory st_heap]. by rewrite lookup_insert_eq. }
    { intros _. exact Hroom. }
    unfold update. rewrite Eq. mstep. eexists _, s2. split; [done|]. split; [done|]. exists v. split; [done|].
    pose proof (queueing_queued s1 key _ s2 Hok2 Hqu) as Hqd. cbn [mbind option_bind] in Hqd.
    assert (Hval : value_of s2 (st_next_layer s) = v).
    { unfold value_of. rewrite (qu_heap _ _ _ _ Hqu); [unfold s1; cbn [with_memory st_heap]; by rewrite lookup_insert_eq|].
      eapply queued_at_refs; [apply Hok2|]. rewrite (qu_queued _ _ _ _ Hqu). by rewrite decide_True. }
    rewrite Hval in Hqd. pose proof (frame_alike s s1 Hb (gr_frame _ _ Hg) (grown_keeps _ _ Hh Hg)) as Ha.
    destruct Hqd as [H1' H2' H3' H4' [H5' H6'] H7' H8']. split; [done| | |done|done|done|by eapply readers_kept_trans; [apply Ha|]].
    + intros p. by rewrite H2', (la_level _ _ Ha).
    + intros k. rewrite H3'. case_decide as Hd; [done|]. unfold queued_layer. change (queued_at s1 k) with (queued_at s k).
      destruct (queued_at s k) as [id|] eqn:Ek; [|done]. cbn [mbind option_bind]. rewrite (keeps_value s s1); [done|by apply grown_keeps|by eapply queued_at_refs].
Qed.

Lemma validate_light_spec v : layer_ok v → (validate_light v = Ok tt ∧ light_layer v) ∨ ∃ e, validate_light v = Err e.
Proof.
  intros Hv. unfold validate_light. destruct v as [[u|bytes c]]; unfold light_layer, layer_ok in *; cbn [storage] in *.
  - unfold layer_get. cbn [storage]. destruct (address_ok 0 0 0) as [-> _]; [unfold local_coords; lia|]. mstep.
    destruct (Z.leb_spec 0 u), (Z.leb_spec u 15); cbn [andb negb]; [left; done|right; by eexists..].
  - destruct (light_layer_get {| storage := Allocated bytes c |} 0 0 0) as [-> Hr]; [done|unfold local_coords; lia|]. mstep.
    destruct (Z.leb_spec 0 (settled {| storage := Allocated bytes c |} 0 0 0)), (Z.leb_spec (settled {| storage := Allocated bytes c |} 0 0 0) 15); (lia || left; done).
Qed.

Lemma preflight_cases s key needed :
  (∃ e, preflight_entry s key needed = Err e) ∨
  (preflight_entry s key needed = Ok tt ∧ (needed = true → is_new s key = true → zlen (st_entries s) ≠ max_sections (st_limits s))).
Proof.
  unfold preflight_entry, is_new. destruct (ls_y key =? i32_max); [left; by eexists|]. destruct (entry_index s key); [by right|].
  destruct needed; cbn [andb]; [|by right]. destruct (Z.eqb_spec (zlen (st_entries s)) (max_sections (st_limits s))); [left; by eexists|by right].
Qed.

(** The layer a copy of [d] is, to its readers. *)
Definition same_layer (d v : DataLayer) : Prop := ∀ x y z, layer_get v x y z = layer_get d x y z.

Lemma withdraw_ok s key :
  storage_ok s → ∃ s', update (E := StorageError) (queue_owned key None) s = Ok (Done tt, s') ∧ storage_ok s' ∧ queued s key None s'.
Proof.
  intros Hok. destruct (queue_owned_ok s key None) as (s'&E&Hok'&Hqu); [by apply storage_settled|done|by intros [? ?]|].
  unfold update. rewrite E. exists s'. split; [done|]. split; [done|]. exact (queueing_queued _ _ _ _ Hok' Hqu).
Qed.

Lemma queue_data_ok s key data :
  storage_ok s → (∀ d, data = Some d → layer_ok d) →
  ∃ r s', queue_data key data s = Ok (r, s') ∧ storage_ok s' ∧
    match r with
    | Done _ => ∃ o, queued s key o s' ∧ match data with Some d => ∃ v, o = Some v ∧ light_layer v ∧ same_layer d v | None => o = None end
    | Failed _ => looks_alike s s' ∧ ∀ k, queued_layer s' k = queued_layer s k
    end.
Proof.
  intros Hok Hd. unfold queue_data. destruct (preflight_cases s key (bool_decide (is_Some data))) as [[e E]|[E Hroom]].
  { erewrite call_failed; [|apply query_failed, E]. eexists _, s. split; [done|]. split; [done|]. by split; [apply looks_alike_refl|]. }
  erewrite call_done; [|apply query_done, E]. destruct data as [d|].
  2: { destruct (withdraw_ok s key Hok) as (s'&->&Hok'&Hq). eexists _, s'. split; [done|]. split; [done|]. by exists None. }
  set (vo := (value ← map_err Layer (try_copy d LAYER_BYTES); _ ← validate_light value; Ok value) : outcome StorageError DataLayer).
  assert (Hvo : (∃ v, vo = Ok v ∧ light_layer v ∧ same_layer d v) ∨ ∃ e, vo = Err e).
  { unfold vo. destruct (try_copy_spec d LAYER_BYTES (Hd d eq_refl)) as [(e&->&_)|(v&->&Hv&_&_&Hg)]; mstep; [right; by eexists|].
    destruct (validate_light_spec v Hv) as [[-> Hl]|[e ->]]; mstep; [left|right; by eexists]. by exists v. }
  destruct (queue_leased s key vo Hok) as (r&s'&Er&Hok'&Hr).
  { intros Hn. by apply Hroom. }
  { destruct Hvo as [(v&?&?&_)|?]; [left|by right]. by exists v. }
  exists r, s'. split; [exact Er|]. split; [done|]. destruct r; [|done]. destruct Hr as (v&Hv&Hq). exists (Some v). split; [done|]. exists v. split; [done|].
  destruct Hvo as [(v'&?&?&?)|[e ?]]; [|congruence]. assert (v' = v) as -> by congruence. done.
Qed.

Lemma queue_bytes_ok s key bytes :
  storage_ok s → (∀ b, bytes = Some b → bytes_ok b) →
  ∃ r s', queue_bytes key bytes s = Ok (r, s') ∧ storage_ok s' ∧
    match r with
    | Done _ => ∃ o, queued s key o s' ∧ match bytes with Some b => ∃ c, o = Some {| storage := Allocated b c |} | None => o = None end
    | Failed _ => looks_alike s s' ∧ ∀ k, queued_layer s' k = queued_layer s k
    end.
Proof.
  intros Hok Hby. unfold queue_bytes. destruct (preflight_cases s key (bool_decide (is_Some bytes))) as [[e E]|[E Hroom]].
  { erewrite call_failed; [|apply query_failed, E]. eexists _, s. split; [done|]. split; [done|]. by split; [apply looks_alike_refl|]. }
  erewrite call_done; [|apply query_done, E]. destruct bytes as [b|].
  2: { destruct (withdraw_ok s key Hok) as (s'&->&Hok'&Hq). eexists _, s'. split; [done|]. split; [done|]. by exists None. }
  set (vo := map_err Layer (from_bytes b LAYER_BYTES)).
  assert (Hvo : (∃ c, vo = Ok {| storage := Allocated b c |} ∧ light_layer {| storage := Allocated b c |}) ∨ ∃ e, vo = Err e).
  { unfold vo. destruct (from_bytes_spec b LAYER_BYTES (Hby b eq_refl)) as [(e&->&_)|(c&->&Hl)]; mstep; [right; by eexists|left]. by exists c. }
  destruct (queue_leased s key vo Hok) as (r&s'&Er&Hok'&Hr).
  { intros Hn. by apply Hroom. }
  { destruct Hvo as [(c&?&?)|?]; [left|by right]. by eexists. }
  exists r, s'. split; [exact Er|]. split; [done|]. destruct r; [|done]. destruct Hr as (v&Hv&Hq). exists (Some v). split; [done|].
  destruct Hvo as [(c&?&?)|[e ?]]; [|congruence]. exists c. congruence.
Qed.
End queue.
