(* ===== verification/LightStorageSnapshots.v ===== *)
(** * Light section storage: snapshots

    The data handed to readers is, section by section, the queued layer or else
    the visible one.  Taking and dropping snapshots keeps the invariant and the
    layers of every other snapshot. *)

From Stdlib Require Import Sorted.
From stdpp Require Import gmap list sets sorting.
From S2P Require Import Prelude.
From S2P Require Import Sorted.
From S2P Require Import View.
From S2P Require Import LightTypes.
From S2P Require Import LightLayer.
From S2P Require Import LightStore.
From S2P Require Import LightStorage.
From S2P Require Import LightStorageOps.
From S2P Require Import LightStorageInv.
From S2P Require Import LightStorageWrites.
From S2P Require Import LightStorageSettle.
From S2P Require Import LightStorageStatus.
From S2P Require Import LightStorageTransition.
From S2P Require Import LightStorageApply.
From S2P Require Import LightStorageQueue.
Local Open Scope Z_scope.

Lemma in_order_cons {A B K} `{KeyOrder K} (key_of : A → B) (kf : B → K) a l :
  in_order key_of kf (a :: l) ↔ in_order key_of kf l ∧ ∀ b, b ∈ l → key_lt (kf (key_of a)) (kf (key_of b)).
Proof.
  unfold in_order, sorted_keys. rewrite fmap_cons. split.
  - intros [Hs Hall]%StronglySorted_inv. split; [done|]. rewrite Forall_fmap, Forall_forall in Hall. exact Hall.
  - intros [Hs Hall]. constructor; [done|]. by rewrite Forall_fmap, Forall_forall.
Qed.

(** ** The selection *)

(** The layer of a section: what is queued, or else what is visible. *)
Definition chosen (es : list SectionEntry) (vs : list (LightSection * LayerId)) (key : LightSection) (id : LayerId) : Prop :=
  (∃ e, e ∈ es ∧ en_key e = key ∧ en_queued e = Some id) ∨ ((∀ e, e ∈ es → en_key e = key → en_queued e = None) ∧ (key, id) ∈ vs).

Lemma chosen_entry e q es vs key id :
  en_queued e = Some q → (∀ p, p ∈ vs → p.1 ≠ en_key e) → chosen (e :: es) vs key id ↔ (key, id) = (en_key e, q) ∨ chosen es vs key id.
Proof.
  intros Hq Hne. split.
  - intros [(e'&[->|He]%elem_of_cons&<-&Hi)|[Hnone Hin]].
    + left. congruence.
    + right. left. eauto.
    + right. right. split; [|done]. intros e' He. apply Hnone. by right.
  - intros [[= -> ->]|[(e'&?&?&?)|[Hnone Hin]]].
    + left. exists e. split; [by left|done].
    + left. exists e'. split; [by right|done].
    + right. split; [|done]. intros e' [->|He]%elem_of_cons Hk; [|by apply Hnone]. by apply Hne in Hin.
Qed.
Lemma chosen_shadowed e q i es vs key id : en_queued e = Some q → chosen (e :: es) ((en_key e, i) :: vs) key id ↔ chosen (e :: es) vs key id.
Proof.
  intros Hq. unfold chosen. rewrite elem_of_cons. split; (intros [?|[Hnone Hin]]; [by left|right; split; [done|]]); [|by right].
  destruct Hin as [[= -> ->]|?]; [|done]. rewrite (Hnone e) in Hq; [done|by left|done].
Qed.
Lemma chosen_visible k i es vs key id : (∀ e, e ∈ es → en_key e ≠ k) → chosen es ((k, i) :: vs) key id ↔ (key, id) = (k, i) ∨ chosen es vs key id.
Proof.
  intros Hne. unfold chosen. rewrite elem_of_cons. split.
  - intros [?|[? [?|?]]]; [right; by left|by left|right; by right].
  - intros [[= -> ->]|[?|[? ?]]]; [right|by left|right; split; [done|by right]]. split; [|by left]. intros e He Hk. by apply Hne in Hk.
Qed.
Lemma skip_chosen es vs key id : chosen (skip_nonqueued es) vs key id ↔ chosen es vs key id.
Proof.
  induction es as [|e es IH]; [done|]. cbn [skip_nonqueued]. case_bool_decide as Hq; [done|]. rewrite IH. unfold chosen. split.
  - intros [(e'&?&?)|[Hn ?]]; [left; exists e'; split; [by right|done]|right; split; [|done]]. intros e' [->|?]%elem_of_cons ?; [|by apply Hn].
    destruct (en_queued e); [exfalso; apply Hq; by eexists|done].
  - intros [(e'&[->|?]%elem_of_cons&?&Hi)|[Hn ?]]; [exfalso; apply Hq; by eexists|left; eauto|right; split; [|done]]. intros e' ?. apply Hn. by right.
Qed.
Lemma skip_in_order es :
  in_order en_key sort_key es → in_order en_key sort_key (skip_nonqueued es) ∧ (length (skip_nonqueued es) ≤ length es)%nat ∧
  match skip_nonqueued es with [] => True | e :: _ => is_Some (en_queued e) end.
Proof.
  induction es as [|e es IH]; [done|]. intros Ho. cbn [skip_nonqueued]. case_bool_decide; [done|]. apply in_order_cons in Ho as [Ho _].
  destruct (IH Ho) as (?&?&?). split; [done|]. split; [cbn [length]; lia|done].
Qed.

Lemma chosen_key es vs key id : chosen es vs key id → (∃ e, e ∈ es ∧ en_key e = key) ∨ (key, id) ∈ vs.
Proof. intros [(e&?&?&_)|[_ ?]]; [left; eauto|by right]. Qed.

(** One item, and the rest after it. *)
Lemma data_next_spec es vs :
  in_order en_key sort_key es → in_order fst sort_key vs →
  (data_next es vs = Ok None ∧ ∀ key id, ¬ chosen es vs key id) ∨
  ∃ k i es' vs', data_next es vs = Ok (Some ((k, i), (es', vs'))) ∧ in_order en_key sort_key es' ∧ in_order fst sort_key vs' ∧
    (length es' + length vs' < length es + length vs)%nat ∧
    (∀ key id, chosen es vs key id ↔ (key, id) = (k, i) ∨ chosen es' vs' key id) ∧
    ∀ key id, chosen es' vs' key id → key_lt (sort_key k) (sort_key key).
Proof.
  intros He Hv. destruct (skip_in_order es He) as (He'&Hlen&Hhd). unfold data_next.
  assert (Hskip : ∀ key id, chosen es vs key id ↔ chosen (skip_nonqueued es) vs key id) by (intros; by rewrite skip_chosen).
  destruct (skip_nonqueued es) as [|e es1]; cbn [length] in Hlen.
  { destruct vs as [|[k i] vs1]; [left|right].
    - split; [done|]. intros key id Hc. apply Hskip, chosen_key in Hc as [(?&Hc&_)|Hc]; by apply not_elem_of_nil in Hc.
    - apply in_order_cons in Hv as [Hv Hlt]. exists k, i, [], vs1. cbn [length]. split; [done|]. split; [constructor|]. split; [done|]. split; [lia|]. split.
      + intros key id. rewrite Hskip. apply chosen_visible. intros e Hin. by apply not_elem_of_nil in Hin.
      + intros key id [(?&Hc&_)|Hc]%chosen_key; [by apply not_elem_of_nil in Hc|]. by apply (Hlt (key, id)). }
  right. destruct Hhd as [q Hq]. apply in_order_cons in He' as [He1 Hlt1].
  assert (Htake : ∀ vs', in_order fst sort_key vs' → (∀ p, p ∈ vs' → key_lt (sort_key (en_key e)) (sort_key p.1)) → (length vs' ≤ length vs)%nat →
    (∀ key id, chosen (e :: es1) vs key id ↔ chosen (e :: es1) vs' key id) →
    ∃ k i es' vs'', Ok (E := False) (Some ((en_key e, q), (es1, vs'))) = Ok (Some ((k, i), (es', vs''))) ∧ in_order en_key sort_key es' ∧ in_order fst sort_key vs'' ∧
      (length es' + length vs'' < length es + length vs)%nat ∧ (∀ key id, chosen es vs key id ↔ (key, id) = (k, i) ∨ chosen es' vs'' key id) ∧
      ∀ key id, chosen es' vs'' key id → key_lt (sort_key k) (sort_key key)).
  { intros vs' Hv' Hlt Hl Hsame. exists (en_key e), q, es1, vs'. split; [done|]. split; [done|]. split; [done|]. split; [lia|]. split.
    - intros key id. rewrite Hskip, Hsame. apply chosen_entry; [done|]. intros p Hp Heq. specialize (Hlt p Hp). rewrite Heq in Hlt. by apply key_lt_irrefl in Hlt.
    - intros key id [(e'&He''&<-)|Hin]%chosen_key; [by apply Hlt1|by apply (Hlt (key, id))]. }
  destruct vs as [|[k i] vs1].
  { rewrite Hq. mstep. apply Htake; [done| |done|done]. intros p Hp. by apply not_elem_of_nil in Hp. }
  pose proof Hv as Hv0. apply in_order_cons in Hv as [Hv1 Hltv]. cbn [fst] in Hltv. unfold sort_le. destruct (key_cmp (sort_key (en_key e)) (sort_key k)) eqn:Ec.
  - apply key_cmp_eq in Ec. apply (inj sort_key) in Ec as <-. rewrite Hq, decide_True by done. mstep. apply Htake; [done|done|cbn [length]; lia|].
    intros key id. by apply (chosen_shadowed e q).
  - rewrite Hq. mstep. assert (Hne : en_key e ≠ k) by (intros <-; by rewrite key_cmp_refl in Ec). rewrite decide_False by done. apply Htake; [done| |done|done].
    intros p [->|Hp]%elem_of_cons; [exact Ec|]. etrans; [exact Ec|by apply Hltv].
  - apply key_cmp_gt in Ec. assert (Hlt : ∀ e', e' ∈ e :: es1 → key_lt (sort_key k) (sort_key (en_key e'))).
    { intros e' [->|Hin]%elem_of_cons; [done|]. etrans; [exact Ec|by apply Hlt1]. }
    exists k, i, (e :: es1), vs1. cbn [length]. split; [done|]. split; [by apply in_order_cons|]. split; [done|]. split; [lia|]. split.
    + intros key id. rewrite Hskip. apply chosen_visible. intros e' Hin Heq. specialize (Hlt e' Hin). rewrite Heq in Hlt. by apply key_lt_irrefl in Hlt.
    + intros key id [(e'&Hin&<-)|Hin]%chosen_key; [by apply Hlt|by apply (Hltv (key, id))].
Qed.

Lemma data_items_spec fuel es vs :
  in_order en_key sort_key es → in_order fst sort_key vs → (length es + length vs < fuel)%nat →
  ∃ items, data_items fuel es vs = Ok items ∧ in_order fst sort_key items ∧ ∀ key id, (key, id) ∈ items ↔ chosen es vs key id.
Proof.
  revert es vs. induction fuel as [|fuel IH]; intros es vs He Hv Hf; [lia|]. cbn [data_items].
  destruct (data_next_spec es vs He Hv) as [[-> Hnone]|(k&i&es'&vs'&->&He'&Hv'&Hlen&Hch&Hlt)]; mstep.
  - exists []. split; [done|]. split; [constructor|]. intros key id. split; [intros Hin; by apply not_elem_of_nil in Hin|]. intros Hc. by apply Hnone in Hc.
  - destruct (IH es' vs' He' Hv' ltac:(lia)) as (items&->&Ho&Hin). mstep. exists ((k, i) :: items). split; [done|]. split.
    + apply in_order_cons. split; [done|]. intros [key id] Hi. cbn [fst]. by eapply Hlt, Hin.
    + intros key id. by rewrite elem_of_cons, Hin, Hch.
Qed.

Section snapshots.
Context `{Allocator, StorageLayout}.
Implicit Types (s : Storage) (id : LayerId) (key : LightSection).

Lemma chosen_at s vs key id :
  base_ok s → chosen (st_entries s) vs key id ↔ queued_at s key = Some id ∨ (queued_at s key = None ∧ (key, id) ∈ vs).
Proof.
  intros Hb. pose proof (bo_entries _ Hb) as Ho. unfold chosen, queued_at. split.
  - intros [(e&He&Hk&Hq)|[Hnone ?]]; [left|right].
    + assert (entry_at s key = Some e) as -> by (by apply entry_at_some). done.
    + split; [|done]. destruct (entry_at s key) as [e|] eqn:E; [|done]. apply entry_at_some in E as [? ?]; [|done]. by apply Hnone.
  - intros [Hq|[Hq Hin]]; [left|right].
    + apply bind_Some in Hq as (e&He&Hq). apply entry_at_some in He as [? ?]; [|done]. eauto.
    + split; [|done]. intros e He Hk. assert (Hat : entry_at s key = Some e) by (by apply entry_at_some). by rewrite Hat in Hq.
Qed.

Lemma data_selection_spec s :
  storage_ok s → ∃ items, data_selection s = Ok items ∧ in_order fst sort_key items ∧
    ∀ key id, (key, id) ∈ items ↔ queued_at s key = Some id ∨ (queued_at s key = None ∧ (key, id) ∈ sd_layers (st_visible s)).
Proof.
  intros Hok. destruct (data_items_spec (S (length (st_entries s) + length (sd_layers (st_visible s)))) (st_entries s) (sd_layers (st_visible s)))
    as (items&Hi&Ho&Hin); [apply Hok|apply (sk_bodies _ Hok); by left|lia|]. exists items. split; [done|]. split; [done|].
  intros key id. rewrite Hin. apply chosen_at, Hok.
Qed.

(** ** Taking and dropping *)

(** Other readers of bodies that are already there. *)
Lemma with_bodies_settled s next readers data :
  settled_ok s → (∀ b, b ∈ readers → b = st_visible s ∨ b ∈ st_readers s) →
  (∀ d p, d ∈ data → p ∈ dd_layers d → p.2 ∈ refs s) → settled_ok (with_bodies s (st_visible s) next readers data).
Proof.
  intros [[Hh He Hc Hen Hs] Hbod Hst Hn Hp] Hr Hd. split; [split; [|done..]| |done..].
  - apply (heap_ok_sub s); [done..|]. intros id. rewrite elem_of_refs. intros [?|[?|Hid]]; [apply elem_of_refs; by left|apply elem_of_refs; by right; left|].
    apply elem_of_body_refs in Hid as [(b&Hb&Hid)|(d&Hdin&Hid)].
    + apply elem_of_refs. right; right. apply elem_of_body_refs. left. exists b. split; [|done]. destruct Hb as [->|Hb]; [by left|by apply Hr].
    + apply list_elem_of_fmap in Hid as (p&->&Hp'). by eapply Hd.
  - intros b [->|Hb]; [apply Hbod; by left|by apply Hbod, Hr].
Qed.

(** More references keep the state tight. *)
Lemma settled_tight s s' :
  tight s → settled_ok s' → st_heap s' = st_heap s → (∀ id, id ∈ refs s → id ∈ refs s') → storage_ok s'.
Proof. intros Ht [Hb Hbod Hst Hn Hp] Hh Hsub. split; [done|done| |done..]. intros id Hid. rewrite Hh in Hid. by apply Hsub, Ht. Qed.

(** A state that differs in its snapshots alone. *)
Record same_storage s s' : Prop := {
  ss_entries : st_entries s' = st_entries s ∧ st_columns s' = st_columns s;
  ss_kind : st_kind s' = st_kind s ∧ st_stamp s' = st_stamp s ∧ st_inconsistent s' = st_inconsistent s;
  ss_visible : st_visible s' = st_visible s;
  ss_level p : level_at s' p = level_at s p;
  ss_held id : id ∈ held s → id ∈ held s' → st_heap s' !! id = st_heap s !! id;
}.

Lemma snapshot_ok s : storage_ok s → storage_ok (snapshot s).2 ∧ same_storage s (snapshot s).2.
Proof.
  intros Hok. split; [|by split]. apply (settled_tight s); [apply Hok| |done|].
  - apply with_bodies_settled; [by apply storage_settled| |].
    + intros b [->|?]%elem_of_cons; [by left|by right].
    + intros d p Hd Hp. apply elem_of_refs. right; right. apply elem_of_body_refs. right. exists d. split; [done|]. by apply list_elem_of_fmap_2.
  - intros id. rewrite !elem_of_refs. intros [?|[?|Hid]]; [by left|by right; left|right; right]. apply elem_of_body_refs in Hid as [(b&Hb&?)|?]; apply elem_of_body_refs; [left|by right].
    exists b. split; [|done]. destruct Hb as [->|?]; [by left|right; by right].
Qed.

Lemma elem_of_remove_one {A} `{EqDecision A} (a b : A) l : b ∈ remove_one a l → b ∈ l.
Proof.
  unfold remove_one. destruct (list_find (eq a) l) as [[i c]|]; [|done]. rewrite delete_take_drop, elem_of_app, <- Nat.add_1_r, <- drop_drop.
  rewrite <- (take_drop i l) at 3. rewrite elem_of_app. intros [?|Hb]; [by left|right]. destruct (drop i l); [done|by right].
Qed.
Lemma elem_of_remove_other {A} `{EqDecision A} (a b : A) l : b ∈ l → b ≠ a → b ∈ remove_one a l.
Proof.
  intros Hb Hne. unfold remove_one. destruct (list_find (eq a) l) as [[i c]|] eqn:E; [|done]. apply list_find_Some in E as (Hi&<-&_).
  apply list_elem_of_lookup in Hb as [j Hj]. destruct (decide (j < i)%nat).
  - apply (list_elem_of_lookup_2 _ j). by rewrite list_lookup_delete_lt.
  - destruct (decide (j = i)) as [->|]; [congruence|]. apply (list_elem_of_lookup_2 _ (j - 1)). rewrite list_lookup_delete_ge by lia. by replace (S (j - 1)) with j by lia.
Qed.

Lemma dropped_same s s1 : settled_ok s1 → st_heap s1 = st_heap s → st_entries s1 = st_entries s → (∀ p, level_at s1 p = level_at s p) →
  st_columns s1 = st_columns s → st_kind s1 = st_kind s → st_stamp s1 = st_stamp s → st_inconsistent s1 = st_inconsistent s → st_visible s1 = st_visible s →
  same_storage s (collect s1).
Proof.
  intros Hok Hh He Hl Hc Hk Hs Hi Hv. pose proof (collect_alike s1 (so_base _ Hok)) as Ha. split; [done..| |].
  - intros p. by rewrite (la_level _ _ Ha).
  - intros id _ Hid. destruct (la_held _ _ Ha) as [_ Hheld]. rewrite Hheld by done. by rewrite Hh.
Qed.

Lemma clone_snapshot_ok s sn : storage_ok s → storage_ok (clone_snapshot sn s) ∧ same_storage s (clone_snapshot sn s).
Proof.
  intros Hok. unfold clone_snapshot. case_bool_decide as Hin; [|by split]. split; [|by split]. apply (settled_tight s); [apply Hok| |done|].
  - apply with_bodies_settled; [by apply storage_settled| |].
    + intros b [->|?]%elem_of_cons; by right.
    + intros d p Hd Hp. apply elem_of_refs. right; right. apply elem_of_body_refs. right. exists d. split; [done|]. by apply list_elem_of_fmap_2.
  - intros id. rewrite !elem_of_refs. intros [?|[?|Hid]]; [by left|by right; left|right; right]. apply elem_of_body_refs in Hid as [(b&Hb&?)|?]; apply elem_of_body_refs; [left|by right].
    exists b. split; [|done]. destruct Hb as [->|?]; [by left|right; by right].
Qed.
Lemma clone_data_snapshot_ok s sn : storage_ok s → storage_ok (clone_data_snapshot sn s) ∧ same_storage s (clone_data_snapshot sn s).
Proof.
  intros Hok. unfold clone_data_snapshot. case_bool_decide as Hin; [|by split]. split; [|by split]. apply (settled_tight s); [apply Hok| |done|].
  - apply with_bodies_settled; [by apply storage_settled|intros b ?; by right|].
    intros d p Hd Hp. apply elem_of_refs. right; right. apply elem_of_body_refs. right. exists d. split; [|by apply list_elem_of_fmap_2].
    by apply elem_of_cons in Hd as [->|?].
  - intros id. rewrite !elem_of_refs. intros [?|[?|Hid]]; [by left|by right; left|right; right]. apply elem_of_body_refs in Hid as [?|(d&Hd&?)]; apply elem_of_body_refs; [by left|right].
    exists d. split; [by right|done].
Qed.

Lemma drop_snapshot_ok s sn : storage_ok s → storage_ok (drop_snapshot sn s) ∧ same_storage s (drop_snapshot sn s).
Proof.
  intros Hok. unfold drop_snapshot. set (s1 := with_bodies s _ _ _ _).
  assert (Hok1 : settled_ok s1).
  { apply with_bodies_settled; [by apply storage_settled|intros b Hb; right; by eapply elem_of_remove_one|].
    intros d p Hd Hp. apply elem_of_refs. right; right. apply elem_of_body_refs. right. exists d. split; [done|]. by apply list_elem_of_fmap_2. }
  case_bool_decide as Hlive.
  - split; [|by split]. apply (settled_tight s); [apply Hok|done|done|]. unfold live_bodies in Hlive. rewrite elem_of_remove_dups, elem_of_cons in Hlive.
    intros id. rewrite !elem_of_refs. intros [?|[?|Hid]]; [by left|by right; left|right; right]. apply elem_of_body_refs in Hid as [(b&Hb&?)|?]; apply elem_of_body_refs; [left|by right].
    destruct Hb as [->|Hb]; [exists (st_visible s); split; [by left|done]|]. destruct (decide (b = sn)) as [->|Hne]; [by exists sn|].
    exists b. split; [|done]. right. by apply elem_of_remove_other.
  - assert (Hok2 : settled_ok (release_metadata (sd_leases sn) s1)).
    { destruct Hok1 as [[Hh ? ? ? ?] ? ? ? ?]. split; [split; [by apply (heap_ok_sub s1)|done..]|done..]. }
    split; [by apply settled_collect|by apply dropped_same].
Qed.

Lemma drop_data_snapshot_ok s sn : storage_ok s → storage_ok (drop_data_snapshot sn s) ∧ same_storage s (drop_data_snapshot sn s).
Proof.
  intros Hok. unfold drop_data_snapshot. set (s1 := with_bodies s _ _ _ _).
  assert (Hok1 : settled_ok s1).
  { apply with_bodies_settled; [by apply storage_settled|intros b Hb; by right|].
    intros d p Hd Hp. apply elem_of_refs. right; right. apply elem_of_body_refs. right. exists d. split; [by eapply elem_of_remove_one|]. by apply list_elem_of_fmap_2. }
  case_bool_decide as Hlive.
  - split; [|by split]. apply (settled_tight s); [apply Hok|done|done|]. unfold live_data_bodies in Hlive. rewrite elem_of_remove_dups in Hlive.
    intros id. rewrite !elem_of_refs. intros [?|[?|Hid]]; [by left|by right; left|right; right]. apply elem_of_body_refs in Hid as [?|(d&Hd&?)]; apply elem_of_body_refs; [by left|right].
    destruct (decide (d = sn)) as [->|Hne]; [by exists sn|]. exists d. split; [|done]. by apply elem_of_remove_other.
  - assert (Hok2 : settled_ok (release_metadata (dd_leases sn) s1)).
    { destruct Hok1 as [[Hh ? ? ? ?] ? ? ? ?]. split; [split; [by apply (heap_ok_sub s1)|done..]|done..]. }
    split; [by apply settled_collect|by apply dropped_same].
Qed.

Lemma data_snapshot_ok s :
  storage_ok s → ∃ r s', data_snapshot s = Ok (r, s') ∧ storage_ok s' ∧ same_storage s s' ∧ st_readers s' = st_readers s ∧
    match r with Done sn => data_selection s = Ok (dd_layers sn) ∧ st_data_readers s' = sn :: st_data_readers s | Failed _ => st_data_readers s' = st_data_readers s end.
Proof.
  intros Hok. destruct (data_selection_spec s Hok) as (items&Hi&_&Hin). unfold data_snapshot.
  erewrite call_done; [|apply query_done; by rewrite Hi]. unfold call_bind at 1, recast at 1, on_metadata at 1.
  destruct (budget_add_total data_body_bytes (st_metadata s)) as (rb&md&->). mstep. change (with_memory s md _ _ _) with (charged s md).
  pose proof (charged_ok s md Hok) as Hok1. destruct rb as [[]|err]; mstep; [|eexists _, _; split; [done|]; split; [done|]; by split].
  match goal with |- context [leased_vector ?h ?z ?c ?k ?st] => destruct (leased_vector_spec h z c k st) as [(err&md2&->)|(cap&lease&md2&->)] end; mstep.
  { eexists _, _. split; [done|]. split; [by apply charged_ok|]. by split. }
  set (sn := {| dd_id := _ |}). change (charged (charged s md) md2) with (charged s md2). eexists (Done sn), _. split; [reflexivity|].
  pose proof (charged_ok s md2 Hok) as Hok2. split; [|split; [by split|done]].
  apply (settled_tight (charged s md2)); [apply Hok2| |done|].
  - apply with_bodies_settled; [by apply storage_settled|intros b Hb; by right|]. intros d [key id] [->|Hd]%elem_of_cons Hp; cbn [snd].
    + cbn [sn dd_layers] in Hp. apply Hin in Hp as [Hq|[_ Hvis]]; [by eapply (queued_at_refs (charged s md2)); [apply Hok2|]|].
      apply elem_of_refs. right; right. apply elem_of_body_refs. left. exists (st_visible s). split; [by left|]. apply list_elem_of_fmap. by exists (key, id).
    + apply elem_of_refs. right; right. apply elem_of_body_refs. right. exists d. split; [done|]. apply list_elem_of_fmap. by exists (key, id).
  - intros id. rewrite !elem_of_refs. intros [?|[?|Hid]]; [by left|by right; left|right; right]. apply elem_of_body_refs in Hid as [?|(d&Hd&?)]; apply elem_of_body_refs; [by left|right].
    exists d. split; [by right|done].
Qed.
End snapshots.
