(* ===== verification/LightStorageHandle.v ===== *)
(** * Light section storage: write handles

    A user may take a section's layer for writing and fill it, set nibbles or
    materialize it through the handle, in any order, before dropping it.  Taking
    the handle copies a layer that anything else refers to, under a charge of
    its own, and takes the alias of the queue, which the drop restores. *)

From stdpp Require Import gmap list sets.
From S2P Require Import Prelude.
From S2P Require Import Sorted.
From S2P Require Import View.
From S2P Require Import LightTypes.
From S2P Require Import LightLayer.
From S2P Require Import LightStore.
From S2P Require Import LightStorage.
From S2P Require Import LightStorageOps.
From S2P Require Import LightStorageInv.
From S2P Require Import LightStorageWrites.
From S2P Require Import LightStorageLevels.
Local Open Scope Z_scope.
Local Open Scope call_scope.

(** What can be done through a handle; [set] takes coordinates of type [u8]. *)
Inductive LayerOp :=
| OpFill (value : Z)
| OpSet (x y z value allocation_limit : Z)
| OpMaterialize (allocation_limit : Z).
Definition op_args (o : LayerOp) : Prop := match o with OpSet x y z _ _ => 0 ≤ x ∧ 0 ≤ y ∧ 0 ≤ z | _ => True end.

Section handle.
Context `{Allocator, StorageLayout}.
Implicit Types (s : Storage) (id : LayerId) (key : LightSection).

Definition layer_op (w : LayerWrite) (o : LayerOp) : call Storage StorageError () :=
  match o with
  | OpFill value => layer_write_fill w value
  | OpSet x y z value allocation_limit => layer_write_set w x y z value allocation_limit
  | OpMaterialize allocation_limit => layer_write_materialize w allocation_limit
  end.
(** The operations one after the other, whatever each returned. *)
Fixpoint layer_ops (w : LayerWrite) (ops : list LayerOp) : call Storage StorageError () := λ s,
  match ops with
  | [] => Ok (Done tt, s)
  | o :: ops => '(_, s) ← layer_op w o s; layer_ops w ops s
  end.
(** A handle taken, used and dropped. *)
Definition write_through key (ops : list LayerOp) : call Storage StorageError () :=
  let+ w := layer_to_write key in
  match w with Some w => with_write w (layer_ops w ops) | None => call_ret tt end.

(** ** A handle in use *)

(** The entry of the handle is the only reference to its layer. *)
Record writing s (w : LayerWrite) (e : SectionEntry) id : Prop := {
  wr_entry : st_entries s !! lw_index w = Some e;
  wr_layer : en_updating e = Some id;
  wr_alias : en_queued e ≠ Some id;
  wr_exclusive : exclusive s e id;
}.
(** No section changes its type and readers keep what they hold. *)
Definition unseen s s' : Prop := (∀ k, entry_state s' k = entry_state s k) ∧ readers_kept s s'.
Lemma unseen_refl s : unseen s s.
Proof. split; [done|by apply held_heap]. Qed.
Lemma unseen_trans s1 s2 s3 : unseen s1 s2 → unseen s2 s3 → unseen s1 s3.
Proof. intros [H1' ?] [H2' ?]. split; [intros k; by rewrite H2', H1'|by eapply readers_kept_trans]. Qed.

(** The entry [i] refers to other layers, and what lost its last reference goes. *)
Definition redirected s (i : nat) (e : SectionEntry) (changed : bool) : Storage :=
  collect (with_flags (with_entries s (<[i := e]> (st_entries s))) changed (st_inconsistent s)).

Lemma redirected_state s i e e2 changed k :
  in_order en_key sort_key (st_entries s) → st_entries s !! i = Some e → en_key e2 = en_key e → en_state e2 = en_state e →
  entry_state (redirected s i e2 changed) k = entry_state s k.
Proof.
  intros Ho Hi Hk Hs. unfold entry_state, entry_at, entry_index. change (st_entries (redirected s i e2 changed)) with (<[i := e2]> (st_entries s)).
  change (find_section en_key ?l k) with (search en_key sort_key l k). rewrite (found_replace en_key sort_key _ i e e2 k Ho Hi Hk).
  case_decide as Hd; [|done]. destruct (found (st_entries s) _) as [e'|] eqn:Hf.
  - apply (found_search en_key sort_key) in Hf as [Hin Hk']; [|done]. apply list_elem_of_lookup in Hin as [j Hj].
    assert (j = i) as -> by (eapply (sorted_unique (λ a, sort_key (en_key a))); [done..|congruence]). congruence.
  - exfalso. eapply (found_search_None en_key sort_key); [done|exact Hf|by eapply list_elem_of_lookup_2|done].
Qed.

(** [s1] has the state of [s] and perhaps one more layer. *)
Lemma redirect_ok s s1 i e id q changed :
  storage_ok s → frame s s1 → st_staged s1 = [] → heap_ok s1 → keeps s s1 →
  st_entries s !! i = Some e → is_Some (en_updating e) → is_Some (st_heap s1 !! id) → (∀ j, q = Some j → j ∈ entry_refs e ∨ j = id) →
  let s2 := redirected s1 i (set_updating e (Some id) q) changed in storage_ok s2 ∧ unseen s s2.
Proof.
  intros Hok Hf Hst Hh Hk Hi Hu Hid Hq s2. pose proof (sk_base _ Hok) as Hb. pose proof (bo_entries _ Hb) as Ho.
  pose proof (fr_entries _ _ Hf) as Hent. set (e2 := set_updating e (Some id) q) in *.
  set (x := with_flags (with_entries s1 (<[i := e2]> (st_entries s1))) changed (st_inconsistent s1)).
  assert (Hbody : body_refs x = body_refs s) by exact (frame_body_refs _ _ Hf).
  assert (Hrefs : ∀ j, j ∈ refs x → j ∈ refs s ∨ j = id).
  { intros j. rewrite !elem_of_refs, Hbody. intros [(e'&He'&Hj)|[Hj|Hj]]; [|change (st_staged x) with (st_staged s1) in Hj; rewrite Hst in Hj; by apply not_elem_of_nil in Hj|left; by right; right].
    change (st_entries x) with (<[i := e2]> (st_entries s1)) in He'. rewrite Hent in He'.
    apply list_elem_of_lookup in He' as [y Hy]. apply list_lookup_insert_Some in Hy as [(_&<-&_)|[_ Hy]]; [|left; left; exists e'; split; [by eapply list_elem_of_lookup_2|done]].
    apply elem_of_entry_refs in Hj as [[= ->]|Hj]; [by right|]. apply Hq in Hj as [Hj|]; [left; left; exists e; split; [by eapply list_elem_of_lookup_2|done]|by right]. }
  assert (Hx : heap_ok x).
  { destruct Hh as [Hr Hl Hled Hlim]. split; [|exact Hl|exact Hled|exact Hlim]. intros j [Hj| ->]%Hrefs; [|done].
    change (st_heap x) with (st_heap s1). rewrite Hk by done. by apply Hb. }
  destruct (collected_spec x Hx) as (Hc&Ht&_&Hkeep). change (collect x) with s2 in *.
  assert (Hst2 : ∀ k, entry_state s2 k = entry_state s k).
  { intros k. unfold s2. rewrite (redirected_state s1 i e e2); [|by rewrite Hent|by rewrite Hent|done|done]. unfold entry_state. by rewrite (frame_entry_at _ _ _ Hf). }
  destruct (fr_bodies _ _ Hf) as (Hv&Hrd&Hdr&_). pose proof (fr_limits _ _ Hf) as Hlm.
  assert (Hrk : readers_kept s s2).
  { split; [done|]. intros j Hj. rewrite Hkeep; [change (st_heap x) with (st_heap s1); by apply Hk, held_refs|].
    apply elem_of_refs. right; right. rewrite Hbody. by apply held_bodies. }
  split; [|done]. destruct Hok as [_ Hbod _ _ [Hn1 Hn2] [Hp1 Hp2]].
  split; [split; [done| | | |]|..].
  - change (st_entries s2) with (<[i := e2]> (st_entries s1)). rewrite Hent. by eapply in_order_replace.
  - change (st_columns s2) with (st_columns s1). rewrite (fr_columns _ _ Hf). apply Hb.
  - intros e'. change (st_entries s2) with (<[i := e2]> (st_entries s1)). rewrite Hent. intros [y Hy]%list_elem_of_lookup.
    apply list_lookup_insert_Some in Hy as [(_&<-&_)|[_ Hy]]; [|apply (bo_entry _ Hb); by eapply list_elem_of_lookup_2].
    destruct (bo_entry _ Hb e) as [? Hiff ?]; [by eapply list_elem_of_lookup_2|]. split; [done| |done]. cbn [set_updating en_updating en_state en_remove e2].
    split; [intros _; by apply Hiff|by eexists].
  - change (st_entries s2) with (<[i := e2]> (st_entries s1)). change (st_limits s2) with (st_limits s1). unfold zlen. rewrite length_insert, Hent, Hlm. apply Hb.
  - intros b. change (st_visible s2) with (st_visible s1). change (st_readers s2) with (st_readers s1). rewrite Hv, Hrd. apply Hbod.
  - done.
  - done.
  - unfold list_ok. change (st_notifications s2) with (st_notifications s1). change (st_limits s2) with (st_limits s1). by rewrite Hlm, (fr_notifications _ _ Hf).
  - unfold list_ok. change (st_published s2) with (st_published s1). change (st_limits s2) with (st_limits s1). by rewrite Hlm, (fr_published _ _ Hf).
Qed.

(** A reference of no other entry, staged copy or body is the only one. *)
Lemma redirected_writing s1 i e id q changed :
  in_order en_key sort_key (st_entries s1) → st_entries s1 !! i = Some e → q ≠ Some id → st_staged s1 = [] → id ∉ body_refs s1 →
  (∀ e', e' ∈ st_entries s1 → id ∈ entry_refs e' → en_key e' = en_key e) →
  writing (redirected s1 i (set_updating e (Some id) q) changed) {| lw_index := i; lw_queued_alias := queued_alias e id |} (set_updating e (Some id) q) id.
Proof.
  intros Ho Hi Hq Hst Hb He. set (s2 := redirected _ _ _ _). set (e2 := set_updating _ _ _) in *. change (st_entries s2) with (<[i := e2]> (st_entries s1)).
  split; [apply list_lookup_insert_eq; by eapply lookup_lt_Some|done|done|]. split; [exact Hb|]. split.
  - change (st_staged s2) with (st_staged s1). rewrite Hst. apply not_elem_of_nil.
  - intros e' [y Hy]%list_elem_of_lookup. apply list_lookup_insert_Some in Hy as [(_&<-&_)|[_ Hy]]; [done|]. apply He. by eapply list_elem_of_lookup_2.
Qed.

Lemma queued_ref e j : en_queued e = Some j → j ∈ entry_refs e.
Proof. intros Hj. apply elem_of_entry_refs. by right. Qed.
(** A failed copy charges nothing. *)
Lemma refused_copy_ok s lay :
  storage_ok s → b_limit lay = b_limit (st_layers s) → b_used lay = b_used (st_layers s) →
  let s' := with_memory s (st_metadata s) lay (st_heap s) (st_next_layer s) in storage_ok s' ∧ unseen s s'.
Proof.
  intros Hok Hl Hu s'. split; [|split; [done|by apply held_heap]]. apply (frame_storage s); [done|by split| |apply Hok|apply Hok].
  destruct (bo_heap _ (sk_base _ Hok)) as [? ? Hled Hlim]. split; cbn [s' with_memory st_heap st_next_layer st_layers st_limits]; [done..|congruence|]. rewrite Hl, Hu. exact Hlim.
Qed.

Lemma layer_to_write_ok s key :
  storage_ok s →
  ∃ r s', layer_to_write key s = Ok (r, s') ∧ storage_ok s' ∧ unseen s s' ∧
    match r with Done (Some w) => ∃ e id, writing s' w e id | _ => True end.
Proof.
  intros Hok. pose proof (unseen_refl s) as Hself. pose proof (bo_entries _ (sk_base _ Hok)) as Ho. pose proof (sk_staged _ Hok) as Hst.
  unfold layer_to_write. destruct (entry_index s key) as [i|i] eqn:Hidx; [|eexists _, s; done].
  destruct (search_found_inl en_key sort_key (st_entries s) key i Ho Hidx) as (e&Hi&Hkey&_). rewrite Hi. mstep.
  destruct (en_updating e) as [id|] eqn:Hu; [|eexists _, s; done].
  pose proof (list_elem_of_lookup_2 _ _ _ Hi) as Hin. destruct (strong_count_exclusive s e id Ho Hin Hu) as [Hle Hx].
  assert (Hid : id ∈ refs s) by (by eapply refs_updating). set (q := if queued_alias e id then None else en_queued e).
  assert (Hqid : q ≠ Some id). { unfold q, queued_alias. case_bool_decide; congruence. }
  assert (Hq : ∀ j, q = Some j → j ∈ entry_refs e). { intros j Hj. apply queued_ref. unfold q in Hj. by destruct (queued_alias e id). }
  destruct (Nat.ltb_spec (1 + Nat.b2n (queued_alias e id)) (strong_count s id)) as [Hlt|Hge].
  - destruct (copy_layer_spec (value_of s id) false s) as (lay&Hlim&[(err&Ec&Hused)|(v&Hnone&Ec&Hh&Hv&_)]); [apply Hok|apply value_light; [apply Hok|done]|..].
    { unfold call_bind. rewrite Ec. mstep. eexists _, _. split; [done|]. destruct (refused_copy_ok s lay Hok Hlim Hused) as [??]. done. }
    set (n := st_next_layer s) in *. set (s1 := with_memory s (st_metadata s) lay _ _) in *.
    assert (Hfresh : n ∉ refs s). { intros Hn. destruct (ho_refs _ (bo_heap _ (sk_base _ Hok)) n Hn). congruence. }
    assert (Hf : frame s s1) by (split; try done; cbn; lia).
    assert (Hkeep : keeps s s1). { intros j Hj. cbn [s1 with_memory st_heap]. rewrite lookup_insert_ne; [done|]. intros <-. done. }
    destruct (redirect_ok s s1 i e n q true Hok Hf Hst Hh Hkeep Hi) as [Hok2 Hun]; [by rewrite Hu|cbn [s1 with_memory st_heap]; rewrite lookup_insert_eq; by eexists|by left; apply Hq|].
    exists (Done (Some {| lw_index := i; lw_queued_alias := queued_alias e id |})), (redirected s1 i (set_updating e (Some n) q) true).
    split; [|split; [done|split; [done|]]].
    + unfold call_bind, update, modify_entry, call_ret. rewrite Ec. mstep. change (st_entries s1) with (st_entries s). rewrite Hi. mstep.
      unfold redirected, q. destruct (queued_alias e id); mstep; [|done]. cbn [with_entries st_entries].
      rewrite list_lookup_insert_eq by (by eapply lookup_lt_Some). mstep. by rewrite list_insert_insert_eq.
    + exists (set_updating e (Some n) q), n.
      assert (Hne : n ≠ id) by (intros Hn; rewrite Hn in Hfresh; done).
      assert (Hna : ∀ e', e' ∈ st_entries s → n ∉ entry_refs e'). { intros e' He' Hn. apply Hfresh, elem_of_refs. left. eauto. }
      destruct (redirected_writing s1 i e n q true) as [Hw1 Hw2 Hw3 Hw4]; [done|done|intros Hn; by apply (Hna e), Hq|done| | |by split].
      * intros Hn. apply Hfresh, elem_of_refs. right; right. exact Hn.
      * intros e' He' Hn. by apply Hna in Hn.
  - assert (Hex : exclusive s e id) by (apply Hx; lia). destruct Hex as (Hb&_&Hent).
    destruct (redirect_ok s s i e id q true Hok (frame_refl s) Hst) as [Hok2 Hun]; [apply Hok|done|done|by rewrite Hu|by apply (bo_heap _ (sk_base _ Hok))|by left; apply Hq|].
    exists (Done (Some {| lw_index := i; lw_queued_alias := queued_alias e id |})), (redirected s i (set_updating e (Some id) q) true).
    split; [|split; [done|split; [done|]]].
    + unfold call_bind, update, modify_entry, call_ret. mstep. unfold redirected, q. destruct (queued_alias e id) eqn:Ha.
      * rewrite Hi. mstep. by rewrite Hu.
      * mstep. do 4 f_equal. rewrite set_updating_same, list_insert_id by done. by destruct s.
    + eexists _, _. by apply redirected_writing.
Qed.

(** A value written through the handle. *)
Lemma write_value_ok s w e id f :
  storage_ok s → writing s w e id →
  (∀ v, light_layer v → (∃ err, f v = Err err) ∨ ∃ v', f v = Ok v' ∧ light_layer v') →
  ∃ r s', write_value w f s = Ok (r, s') ∧ storage_ok s' ∧ unseen s s' ∧ writing s' w e id.
Proof.
  intros Hok [Hi Hu Ha Hx] Hf. pose proof (bo_entries _ (sk_base _ Hok)) as Ho. pose proof (list_elem_of_lookup_2 _ _ _ Hi) as Hin.
  assert (Hcount : strong_count s id = 1%nat).
  { destruct (strong_count_exclusive s e id Ho Hin Hu) as [_ [_ Hc]]. rewrite (Hc Hx). unfold queued_alias. by rewrite bool_decide_eq_false_2. }
  assert (Hid : id ∈ refs s) by (by eapply refs_updating). pose proof (value_light s id (bo_heap _ (sk_base _ Hok)) Hid) as Hl.
  unfold write_value, call_bind, query, value_mut, lift. rewrite Hi. mstep. rewrite Hu. mstep. rewrite Hcount. mstep. cbn [Nat.eqb]. mstep.
  destruct (Hf _ Hl) as [[err ->]|(v'&->&Hv')]; mstep; [eexists _, s; split; [done|]; split; [done|]; split; [apply unseen_refl|by split]|].
  unfold update. mstep. eexists _, _. split; [done|]. set (s' := with_memory s _ _ _ _).
  assert (Hdom : ∀ j, is_Some (st_heap s' !! j) ↔ is_Some (st_heap s !! j)).
  { intros j. cbn [s' with_memory st_heap]. destruct (decide (j = id)) as [->|]; [|by rewrite lookup_insert_ne]. rewrite lookup_insert_eq. split; intros _; [by apply (bo_heap _ (sk_base _ Hok))|by eexists]. }
  split; [|split; [split; [done|split; [done|]]|by split]].
  - destruct Hok as [[[Hr Hly Hled Hlim] ? ? ? ?] ? Ht ? ? ?]. split; [split; [split|..]|..]; try done.
    + intros j Hj. by apply Hdom, Hr.
    + intros j v. cbn [s' with_memory st_heap]. destruct (decide (j = id)) as [->|]; [|rewrite lookup_insert_ne by done; apply Hly].
      rewrite lookup_insert_eq. intros [= <-]. split; [|done]. destruct (Hr id Hid) as [v0 Hv0]. by apply (Hly id v0).
    + cbn [s' with_memory st_heap st_layers]. rewrite map_size_insert_Some by (by apply Hr). done.
    + intros j Hj. by apply Ht, Hdom.
  - intros j Hj. cbn [s' with_memory st_heap]. rewrite lookup_insert_ne; [done|]. intros <-. destruct Hx as [Hx _]. by apply Hx, held_bodies.
Qed.

Lemma layer_op_ok s w e id o :
  storage_ok s → writing s w e id → op_args o → ∃ r s', layer_op w o s = Ok (r, s') ∧ storage_ok s' ∧ unseen s s' ∧ writing s' w e id.
Proof.
  intros Hok Hw Ho. pose proof (unseen_refl s) as Hself. destruct o as [v|x y z v limit|limit]; cbn [layer_op op_args] in *.
  - unfold layer_write_fill. destruct (Z.leb_spec 0 v), (Z.leb_spec v 15); cbn [andb negb]; try by eexists _, s. apply write_value_ok with (e := e) (id := id); [done..|].
    intros l _. right. eexists. split; [done|]. split; [done|]. cbn. lia.
  - unfold layer_write_set. destruct (Z.leb_spec 0 v), (Z.leb_spec v 15); cbn [andb negb]; try by eexists _, s. apply write_value_ok with (e := e) (id := id); [done..|].
    intros l [Hl Hlight]. destruct (decide (local_coords x y z)) as [Hc|Hc].
    + destruct (layer_set_inside l x y z v (Z.min limit LAYER_BYTES) Hl Hc) as [(_&err&_&->)|(l'&->&Hl'&Hh&_)]; mstep; [left; eauto|right].
      exists l'. split; [done|]. split; [done|]. unfold is_definitely_homogeneous in Hh. by destruct (storage l').
    + left. unfold layer_set, address, SIDE. unfold local_coords in Hc. destruct (Z.leb_spec 16 x), (Z.leb_spec 16 y), (Z.leb_spec 16 z); cbn [orb]; mstep; eauto. lia.
  - apply write_value_ok with (e := e) (id := id); [done..|]. intros l [Hl Hlight].
    destruct (materialize_spec l (Z.min limit LAYER_BYTES) Hl) as [(err&->&_)|(l'&bytes&c&->&Hs&Hl'&_)]; mstep; [left; eauto|right]. exists l'. split; [done|]. split; [done|]. by rewrite Hs.
Qed.

Lemma layer_ops_ok ops s w e id :
  storage_ok s → writing s w e id → Forall op_args ops → ∃ s', layer_ops w ops s = Ok (Done tt, s') ∧ storage_ok s' ∧ unseen s s' ∧ writing s' w e id.
Proof.
  intros Hok Hw Hops. revert s Hok Hw. induction Hops as [|o ops Ho _ IH]; intros s Hok Hw; cbn [layer_ops]; [exists s; split; [done|]; split; [done|]; split; [apply unseen_refl|done]|].
  destruct (layer_op_ok s w e id o Hok Hw Ho) as (r&s1&->&Hok1&Hun&Hw1). mstep. destruct (IH s1 Hok1 Hw1) as (s'&->&?&?&?).
  exists s'. split; [done|]. split; [done|]. split; [by eapply unseen_trans|done].
Qed.

Lemma layer_write_drop_ok s w e id : storage_ok s → writing s w e id → ∃ s', layer_write_drop w s = Ok s' ∧ storage_ok s' ∧ unseen s s'.
Proof.
  intros Hok [Hi Hu Ha Hx]. unfold layer_write_drop. destruct (lw_queued_alias w); [|exists s; split; [done|]; split; [done|apply unseen_refl]].
  rewrite Hi. mstep. rewrite Hu. mstep. unfold modify_entry. rewrite Hi. mstep. eexists. split; [done|]. rewrite Hu.
  assert (Hid : id ∈ refs s) by (eapply refs_updating; [by eapply list_elem_of_lookup_2|done]).
  destruct (redirect_ok s s (lw_index w) e id (Some id) (st_changed s) Hok (frame_refl s) (sk_staged _ Hok)) as [Hok2 Hun]; [apply Hok|done|done|by rewrite Hu|by apply (bo_heap _ (sk_base _ Hok))|intros j [= ->]; by right|].
  unfold redirected in *. by destruct s.
Qed.

(** A handle can be taken, used in any way and dropped. *)
Lemma write_through_ok s key ops :
  storage_ok s → Forall op_args ops → ∃ r s', write_through key ops s = Ok (r, s') ∧ storage_ok s' ∧ unseen s s'.
Proof.
  intros Hok Hops. unfold write_through, call_bind. destruct (layer_to_write_ok s key Hok) as (r&s1&->&Hok1&Hun&Hw). mstep.
  destruct r as [[w|]|err]; mstep; [|by eexists _, s1..]. destruct Hw as (e&id&Hw).
  unfold with_write. destruct (layer_ops_ok ops s1 w e id Hok1 Hw Hops) as (s2&->&Hok2&Hun2&Hw2). mstep.
  destruct (layer_write_drop_ok s2 w e id Hok2 Hw2) as (s3&->&Hok3&Hun3). mstep. eexists _, s3. split; [done|]. split; [done|].
  eapply unseen_trans; [done|]. by eapply unseen_trans.
Qed.
End handle.
