(* ===== verification/LightStorageReach.v ===== *)
(** * Light section storage: every reachable state

    The operations of the storage, in any order and with any outcome, never
    panic and keep the storage sound: no layer leaks, the ledger charges exactly
    the layers, the neighbour counts are right, and a snapshot never changes. *)

From stdpp Require Import gmap list sets.
From S2P Require Import Prelude.
From S2P Require Import Sorted.
From S2P Require Import View.
From S2P Require Import LightTypes.
From S2P Require Import LightLayer.
From S2P Require Import LightStore.
From S2P Require Import LightStorage.
From S2P Require Import LightStorageOps.
From S2P Require Import LightStorageInv.
From S2P Require Import LightStorageWrites.
From S2P Require Import LightStorageLevels.
From S2P Require Import LightStorageSettle.
From S2P Require Import LightStorageStatus.
From S2P Require Import LightStorageTransition.
From S2P Require Import LightStorageApply.
From S2P Require Import LightStorageQueue.
From S2P Require Import LightStorageSnapshots.
From S2P Require Import LightStorageHandle.
Local Open Scope Z_scope.

(** Every public method of the storage that takes it by [&mut self], the
    snapshots it hands out, and the clones and drops of what its users hold.  The
    handle of [layer_to_write] borrows the storage, so that a use of it is one
    call: taken, used for any operations, and dropped. *)
Inductive StorageCall :=
| CallEnable (c : ChunkAddress) (enabled : bool)
| CallRetain (c : ChunkAddress) (retain : bool)
| CallQueue (key : LightSection) (data : option DataLayer)
| CallQueueBytes (key : LightSection) (bytes : option (list Z))
| CallStatus (key : LightSection) (empty : bool)
| CallProcess
| CallPrepare (blocks : list LightBlock)
| CallSet (block : LightBlock) (value : Z)
| CallWrite (key : LightSection) (ops : list LayerOp)
| CallPublish
| CallClear
| CallSnapshot
| CallCloneSnapshot (sn : SnapshotData)
| CallDropSnapshot (sn : SnapshotData)
| CallDataSnapshot
| CallCloneDataSnapshot (sn : DataSnapshotData)
| CallDropDataSnapshot (sn : DataSnapshotData).

(** Arguments that can be values of the Rust types. *)
Definition call_args (c : StorageCall) : Prop :=
  match c with
  | CallQueue _ (Some d) => layer_ok d
  | CallQueueBytes _ (Some b) => bytes_ok b
  | CallSet _ value => 0 ≤ value
  | CallWrite _ ops => Forall op_args ops
  | _ => True
  end.

Section reach.
Context `{Allocator, StorageLayout}.
Implicit Types (s : Storage) (id : LayerId) (key : LightSection).

(** The state after a call, whatever it returned. *)
Definition after {A} (m : call Storage StorageError A) s : outcome False Storage := '(_, s) ← m s; Ok s.
Definition perform (c : StorageCall) s : outcome False Storage :=
  match c with
  | CallEnable c enabled => after (st_set_enabled c enabled) s
  | CallRetain c retain => after (retain_data c retain) s
  | CallQueue key data => after (queue_data key data) s
  | CallQueueBytes key bytes => after (queue_bytes key bytes) s
  | CallStatus key empty => after (update_section_status key empty) s
  | CallProcess => after st_process_inconsistencies s
  | CallPrepare blocks => after (st_prepare_writes blocks) s
  | CallSet block value => after (st_set_stored_level block value) s
  | CallWrite key ops => after (write_through key ops) s
  | CallPublish => after st_publish_visible s
  | CallClear => Ok (clear_published_notifications s)
  | CallSnapshot => Ok (snapshot s).2
  | CallCloneSnapshot sn => Ok (clone_snapshot sn s)
  | CallDropSnapshot sn => Ok (drop_snapshot sn s)
  | CallDataSnapshot => after data_snapshot s
  | CallCloneDataSnapshot sn => Ok (clone_data_snapshot sn s)
  | CallDropDataSnapshot sn => Ok (drop_data_snapshot sn s)
  end.
Fixpoint perform_all (calls : list StorageCall) s : outcome False Storage :=
  match calls with [] => Ok s | c :: calls => s ← perform c s; perform_all calls s end.

(** ** One call *)

Record sound s : Prop := { sd_storage : storage_ok s; sd_supported : supported_ok s }.
(** The snapshots held before and after a call. *)
Definition held_kept s s' : Prop := ∀ id, id ∈ held s → id ∈ held s' → st_heap s' !! id = st_heap s !! id.

Lemma kept_held s s' : readers_kept s s' → held_kept s s'.
Proof. intros [_ Hk] id Hid _. by apply Hk. Qed.

(** Only the drop of a snapshot ends its being held. *)
Record still_held (c : StorageCall) s s' : Prop := {
  sh_snapshot sn : c ≠ CallDropSnapshot sn → sn ∈ st_readers s → sn ∈ st_readers s';
  sh_data sn : c ≠ CallDropDataSnapshot sn → sn ∈ st_data_readers s → sn ∈ st_data_readers s';
}.
Lemma still_held_same c s s' : st_readers s' = st_readers s → st_data_readers s' = st_data_readers s → still_held c s s'.
Proof. intros Hr Hd. split; intros sn _; by rewrite ?Hr, ?Hd. Qed.

Lemma supported_same s s' : (∀ k, entry_state s' k = entry_state s k) → supported_ok s → supported_ok s'.
Proof.
  intros Hst Hs k. rewrite Hst, Hs. unfold data_neighbors. do 2 f_equal. apply list_filter_iff. intros n. unfold data_at. by rewrite Hst.
Qed.

Lemma settled_state s k : base_ok s → match found (settled_entries s) (search en_key sort_key (settled_entries s) k) with Some e => en_state e | None => 0 end = entry_state s k.
Proof.
  intros Hb. pose proof (bo_entries _ Hb) as Ho. unfold settled_entries.
  assert (Ho1 : in_order en_key sort_key (settle_removed s <$> st_entries s)) by (apply in_order_fmap; [apply settle_removed_key|done]).
  assert (Ho2 : in_order en_key sort_key (settle_queued <$> (settle_removed s <$> st_entries s))) by (apply in_order_fmap; [apply settle_queued_key|done]).
  destruct (pruned_at _ k Ho2) as [-> _]. rewrite found_fmap by (apply _ || apply settle_queued_key || done). rewrite found_fmap by (apply _ || apply settle_removed_key || done).
  unfold entry_state, entry_at, entry_index, find_section. fold (search en_key sort_key (st_entries s) k).
  destruct (found (st_entries s) _) as [e|]; [|done]. cbn [fmap option_fmap option_map].
  assert (Hq : ∀ e, en_state (settle_queued e) = en_state e) by (intros e'; unfold settle_queued; by destruct (en_updating e'), (en_queued e')).
  rewrite Hq. unfold settle_removed. by destruct (en_remove e).
Qed.

Lemma perform_sound c s : call_args c → sound s → ∃ s', perform c s = Ok s' ∧ sound s' ∧ held_kept s s' ∧ still_held c s s'.
Proof.
  intros Hargs [Hok Hsup].
  assert (Hfin : ∀ s', storage_ok s' → (∀ k, entry_state s' k = entry_state s k) → readers_kept s s' → ∃ s'', Ok (E := False) s' = Ok s'' ∧ sound s'' ∧ held_kept s s'' ∧ still_held c s s'').
  { intros s' Hok' Hst Hk. exists s'. split; [done|]. split; [split; [done|by eapply supported_same]|]. split; [by apply kept_held|]. apply still_held_same; apply Hk. }
  assert (Hsame : ∀ s', storage_ok s' → same_storage s s' → still_held c s s' → ∃ s'', Ok (E := False) s' = Ok s'' ∧ sound s'' ∧ held_kept s s'' ∧ still_held c s s'').
  { intros s' Hok' Hs Hh. exists s'. split; [done|]. split; [split; [done|]|split; [exact (ss_held _ _ Hs)|done]]. eapply supported_same; [|done]. intros k. unfold entry_state, entry_at, entry_index.
    destruct (ss_entries _ _ Hs) as [-> _]. done. }
  assert (Hcols : ∀ cols low, storage_ok (with_columns s cols low) → ∃ s'', Ok (E := False) (with_columns s cols low) = Ok s'' ∧ sound s'' ∧ held_kept s s'' ∧ still_held c s s'').
  { intros cols low Hok'. apply Hfin; [done|done|by apply held_heap]. }
  destruct c as [c enabled|c retain|key data|key bytes|key empty| |blocks|block value|key ops| | | |sn|sn| |sn|sn]; cbn [perform call_args] in *; unfold after.
  - destruct (set_enabled_ok s c enabled Hok) as (s'&Hok'&[(e&->&->)|(cols&->&->&_)]); mstep; [apply Hfin; [done|done|by apply held_heap]|by apply Hcols].
  - destruct (retain_data_ok s c retain Hok) as (r&s'&->&Hok'&cols&->). mstep. by apply Hcols.
  - destruct (queue_data_ok s key data Hok) as (r&s'&->&Hok'&Hr). { intros d ->. exact Hargs. } mstep. apply Hfin; [done|..]; destruct r; [by destruct Hr as (o&Hq&_); apply Hq|apply Hr..| |apply Hr]; by destruct Hr as (o&Hq&_); apply Hq.
  - destruct (queue_bytes_ok s key bytes Hok) as (r&s'&->&Hok'&Hr). { intros d ->. exact Hargs. } mstep. apply Hfin; [done|..]; destruct r; [by destruct Hr as (o&Hq&_); apply Hq|apply Hr..| |apply Hr]; by destruct Hr as (o&Hq&_); apply Hq.
  - destruct (update_status_ok s key empty Hok) as (r&s'&->&Hok'&Hr). mstep. destruct r.
    + destruct (Bool.eqb (data_at s key) empty) eqn:Heq; [|subst s'; by apply Hfin; [..|apply held_heap]]. apply eqb_prop in Heq.
      exists s'. split; [done|]. split; [split; [done|]|split; [apply kept_held, Hr|apply still_held_same; apply Hr]]. by eapply target_supported; [apply Hok|done|done|apply Hr].
    + apply Hfin; [done|apply Hr..].
  - destruct (process_ok s Hok) as (s'&->&Hok'&_&_&_&Hsame'&Hent&Hk). mstep. apply Hfin; [done| |done]. intros k. destruct (st_inconsistent s); [|by rewrite Hsame'].
    unfold entry_state at 1, entry_at, entry_index. rewrite Hent by done. by apply settled_state, Hok.
  - destruct (prepare_ok s blocks Hok) as (s'&Hok'&Ha&_&[[err ->]|[-> _]]); mstep; (apply Hfin; [done|apply Ha..]).
  - destruct (set_level_total s block value Hok Hargs) as (r&s'&->&Hok'&_&?&?). mstep. by apply Hfin.
  - destruct (write_through_ok s key ops Hok Hargs) as (r&s'&->&Hok'&Hst&Hk). mstep. by apply Hfin.
  - destruct (publish_ok s Hok) as (r&s'&->&Hok'&Ha&_). mstep. apply Hfin; [done|apply Ha..].
  - apply Hfin; [|done|by apply held_heap]. destruct Hok as [[Hh He Hc Hen Hs] Hbod Ht Hst Hn Hp]. split; [split; [|done..]|done..|]; [by apply (heap_ok_sub s)|].
    split; [constructor|]. destruct Hp as [_ Hp]. unfold zlen in *. cbn [clear_published_notifications with_lists st_published st_limits length] in *. lia.
  - destruct (snapshot_ok s Hok). apply Hsame; [done|done|]. split; intros sn _; [by right|done].
  - destruct (clone_snapshot_ok s sn Hok). apply Hsame; [done|done|]. unfold clone_snapshot. case_bool_decide; (split; intros sn' _; [try by right|done]); done.
  - destruct (drop_snapshot_ok s sn Hok). apply Hsame; [done|done|]. split; unfold drop_snapshot; intros sn' Hne Hin; case_bool_decide; try done;
      (apply elem_of_remove_other; [done|congruence]).
  - destruct (data_snapshot_ok s Hok) as (r&s'&->&?&?&Hr&Hd). mstep. apply Hsame; [done|done|]. split; intros sn _; [by rewrite Hr|].
    destruct r; [destruct Hd as [_ ->]; by right|by rewrite Hd].
  - destruct (clone_data_snapshot_ok s sn Hok). apply Hsame; [done|done|]. unfold clone_data_snapshot. case_bool_decide; (split; intros sn' _; [done|try by right]); done.
  - destruct (drop_data_snapshot_ok s sn Hok). apply Hsame; [done|done|]. split; unfold drop_data_snapshot; intros sn' Hne Hin; case_bool_decide; try done;
      (apply elem_of_remove_other; [done|congruence]).
Qed.

(** ** From the start *)

Lemma storage_new_sound stamp kind limits s :
  0 ≤ max_sections limits → 0 ≤ max_notifications limits → storage_new stamp kind limits = Ok s → sound s ∧ st_entries s = [] ∧ st_limits s = limits ∧ st_kind s = kind ∧ st_stamp s = stamp.
Proof.
  intros H1' H2'. unfold storage_new. set (build := call_bind _ _). destruct (lift _) as [[r md]| | |]; cbn [mbind outcome_mbind outcome_bind]; [|done..].
  destruct r as [[[cap1 l1] [cap2 l2]]|e]; [|done]. intros [= <-]. set (s := {| st_stamp := _ |}).
  assert (Hrefs : ∀ id, id ∈ refs s → False). { intros id Hid. by apply not_elem_of_nil in Hid. }
  split; [split|done].
  - split; [split| | |done| |].
    + split; [intros id Hid; by apply Hrefs in Hid|intros id v Hv; cbn [s st_heap] in Hv; by rewrite lookup_empty in Hv| |split; [done|cbn; lia]].
      cbn [s st_heap st_layers]. rewrite map_size_empty. cbn. lia.
    + constructor.
    + constructor.
    + intros e He. by apply not_elem_of_nil in He.
    + done.
    + intros b [->|Hb]; [split; constructor|by apply not_elem_of_nil in Hb].
    + intros id [v Hv]. cbn [s st_heap] in Hv. by rewrite lookup_empty in Hv.
    + split; [constructor|done].
    + split; [constructor|done].
  - intros k. change (entry_state s k) with 0. unfold data_neighbors. unfold zlen.
    induction (neighbors k) as [|n l IH]; [done|]. rewrite filter_cons_False; [exact IH|]. done.
Qed.

Lemma perform_all_sound calls s : Forall call_args calls → sound s → ∃ s', perform_all calls s = Ok s' ∧ sound s'.
Proof.
  intros Hc. revert s. induction Hc as [|c calls Ha _ IH]; intros s Hs; cbn [perform_all]; [by eexists|].
  destruct (perform_sound c s Ha Hs) as (s1&->&Hs1&_). mstep. by apply IH.
Qed.
End reach.
