(* ===== verification/LightStorageFacts.v ===== *)
(** * Light section storage: what it promises

    The properties of the storage as its users meet it. *)

From stdpp Require Import gmap list sets.
From S2P Require Import Prelude.
From S2P Require Import Sorted.
From S2P Require Import View.
From S2P Require Import LightTypes.
From S2P Require Import LightLayer.
From S2P Require Import LightStore.
From S2P Require Import LightStorage.
From S2P Require Import LightStorageOps.
From S2P Require Import LightStorageInv.
From S2P Require Import LightStorageWrites.
From S2P Require Import LightStorageLevels.
From S2P Require Import LightStorageSettle.
From S2P Require Import LightStorageStatus.
From S2P Require Import LightStorageTransition.
From S2P Require Import LightStorageApply.
From S2P Require Import LightStorageQueue.
From S2P Require Import LightStorageSnapshots.
From S2P Require Import LightStorageHandle.
From S2P Require Import LightStorageReach.
Local Open Scope Z_scope.

Section facts.
Context `{Allocator, StorageLayout}.
Implicit Types (s : Storage) (id : LayerId) (key : LightSection).

(** ** Section types *)

Lemma section_type_data s k : section_type s k = LightAndData ↔ data_at s k = true.
Proof.
  unfold section_type, data_at, has_data. destruct (Z.eqb_spec (entry_state s k) 0) as [->|]; [done|]. by destruct (negb _).
Qed.
Lemma section_type_empty s k : section_type s k = SectionEmpty ↔ entry_state s k = 0.
Proof. unfold section_type. destruct (Z.eqb_spec (entry_state s k) 0); [done|]. by destruct (negb _). Qed.

Lemma typed_storing s k : storage_ok s → section_type s k ≠ SectionEmpty → st_storing_light s k = true.
Proof.
  intros Hok. rewrite section_type_empty. unfold entry_state, st_storing_light. destruct (entry_at s k) as [e|] eqn:He; [|done].
  intros Hst. apply entry_at_some in He as [He _]; [|apply Hok]. apply bool_decide_eq_true_2. apply (bo_entry _ (sk_base _ Hok) e He). by left.
Qed.

Lemma sound_counts s k : sound s → neighbor_count s k = data_neighbors (λ n, bool_decide (section_type s n = LightAndData)) k.
Proof.
  intros [_ Hs]. etrans; [apply Hs|]. unfold data_neighbors. do 2 f_equal. apply list_filter_iff. intros n.
  rewrite bool_decide_eq_true. symmetry. apply section_type_data.
Qed.

(** C2. A storage stays sound whatever is done with it.  From a new storage, any
    sequence of calls of its public methods (status updates, queued data, level
    writes, layers taken for writing by [layer_to_write] and filled, set or
    materialized through the handle, settling, publications, snapshots taken,
    cloned and dropped, and every refusal among them) runs without a panic;
    afterwards exactly the referenced layers are alive, the ledger charges one
    reservation for each and stays within its limit, every section knows how many
    of its 26 neighbours have data, and a section with or next to data stores its
    light. *)
Theorem storage_stays_sound stamp kind limits calls s0 :
  0 ≤ max_sections limits → 0 ≤ max_notifications limits → Forall call_args calls → storage_new stamp kind limits = Ok s0 →
  ∃ s, perform_all calls s0 = Ok s ∧ (∀ id, is_Some (st_heap s !! id) ↔ id ∈ refs s) ∧
    b_used (st_layers s) = LAYER_RESERVATION_BYTES * Z.of_nat (size (st_heap s)) ∧ b_used (st_layers s) ≤ Z.max 0 (b_limit (st_layers s)) ∧
    (∀ k, neighbor_count s k = data_neighbors (λ n, bool_decide (section_type s n = LightAndData)) k) ∧
    ∀ k, section_type s k ≠ SectionEmpty → st_storing_light s k = true.
Proof.
  intros Hs Hn Hcalls Hnew. destruct (storage_new_sound stamp kind limits s0 Hs Hn Hnew) as [H0' _].
  destruct (perform_all_sound calls s0 Hcalls H0') as (s&Hp&Hsound). exists s. pose proof (sd_storage _ Hsound) as Hok. pose proof (bo_heap _ (sk_base _ Hok)) as Hh.
  split; [done|]. split; [intros id; split; [apply Hok|apply Hh]|]. split; [apply Hh|]. split; [apply Hh|]. split; intros k; [by apply sound_counts|by apply typed_storing].
Qed.

(** C7. A status update gives a section its data, or takes it away, as a whole:
    it fails and nothing can be observed, or the section has the type asked for,
    its 26 neighbours count one more or one less, every section that has a type
    stores its light, and every level that was stored is what it was. *)
Theorem section_status_update s key empty :
  sound s →
  ∃ r s', update_section_status key empty s = Ok (r, s') ∧ sound s' ∧
    match r with
    | Failed _ => untouched s s'
    | Done _ =>
        (∀ k, section_type s' k = LightAndData ↔ if decide (k = key) then empty = false else section_type s k = LightAndData) ∧
        (∀ k, neighbor_count s' k = data_neighbors (λ n, if decide (n = key) then negb empty else bool_decide (section_type s n = LightAndData)) k) ∧
        (∀ k, section_type s' k ≠ SectionEmpty → st_storing_light s' k = true) ∧
        (∀ p, is_Some (level_at s p) → level_at s' p = level_at s p) ∧
        ∀ c, st_light_enabled s' c = st_light_enabled s c
    end.
Proof.
  intros [Hok Hsup]. destruct (update_status_ok s key empty Hok) as (r&s'&E&Hok'&Hr). exists r, s'. split; [done|].
  destruct r as [u|err].
  2: { split; [split; [done|]|done]. eapply supported_same; [apply Hr|done]. }
  assert (Hfacts : sound s' ∧ (∀ k, data_at s' k = true ↔ if decide (k = key) then empty = false else data_at s k = true) ∧
    (∀ p, is_Some (level_at s p) → level_at s' p = level_at s p) ∧ ∀ c, st_light_enabled s' c = st_light_enabled s c).
  { destruct (Bool.eqb (data_at s key) empty) eqn:Heq.
    - apply eqb_prop in Heq. split; [split; [done|by eapply target_supported; [apply Hok|done|done|apply Hr]]|]. split; [|split; apply Hr].
      intros k. unfold data_at at 1. rewrite (ud_state _ _ _ _ Hr). unfold target. pose proof (entry_state_range s k (sk_base _ Hok)) as Hrange. case_decide as Hk.
      + subst k. destruct empty; [destruct (state_lowered _ Hrange) as (_&->&_)|destruct (state_raised _ Hrange) as (_&->&_)]; split; done.
      + case_decide as Hn; [|done]. assert (Hs : 0 ≤ support (entry_state s k) + change empty ≤ 26); [|by destruct (state_supported _ _ Hrange Hs) as (_&->&_)].
        rewrite Hsup. destruct (flipped_range (data_at s) key empty k) as [? ?]; [done|done|lia].
    - subst s'. split; [by split|]. split; [|done]. intros k. case_decide as Hk; [subst k|done]. destruct (data_at s key), empty; done. }
  destruct Hfacts as (Hsound&Hd&Hl&He). split; [done|]. assert (Htype : ∀ k, section_type s' k = LightAndData ↔ if decide (k = key) then empty = false else section_type s k = LightAndData).
  { intros k. rewrite section_type_data, Hd. case_decide; [done|]. symmetry. apply section_type_data. }
  split; [done|]. split; [|split; [|done]]; intros k; [|by apply typed_storing].
  rewrite sound_counts by done. unfold data_neighbors. do 2 f_equal. apply list_filter_iff. intros n. rewrite bool_decide_eq_true, Htype. case_decide; [by destruct empty|by rewrite bool_decide_eq_true].
Qed.

(** ** Snapshots *)

Lemma snapshot_layer_ext h h' sn key : (∀ p, p ∈ sd_layers sn → h p.2 = h' p.2) → snapshot_layer h sn key = snapshot_layer h' sn key.
Proof.
  intros Hh. unfold snapshot_layer. destruct (snapshot_index (sd_layers sn) key) as [i|i]; cbn [found]; [|done].
  destruct (sd_layers sn !! i) as [[k id]|] eqn:E; [|done]. f_equal. apply (Hh (k, id)). by eapply list_elem_of_lookup_2.
Qed.
Lemma snapshot_get_level_ext h h' sn block : (∀ p, p ∈ sd_layers sn → h p.2 = h' p.2) → snapshot_get_level h sn block = snapshot_get_level h' sn block.
Proof.
  intros Hh. unfold snapshot_get_level. rewrite (snapshot_layer_ext h h') by done. destruct (sd_kind sn); [done|]. destruct (_ || _); [done|].
  assert (Hi : ∀ i k id, sd_layers sn !! i = Some (k, id) → h id = h' id) by (intros i k id E; apply (Hh (k, id)); by eapply list_elem_of_lookup_2).
  destruct (snapshot_index _ _) as [i|i]; destruct (sd_layers sn !! i) as [[k id]|] eqn:E; mstep; [|done| |done]; by rewrite (Hi _ _ _ E).
Qed.

Lemma held_value s s' sn : held_kept s s' → sn ∈ st_readers s → sn ∈ st_readers s' → ∀ p, p ∈ sd_layers sn → value_of s' p.2 = value_of s p.2.
Proof.
  intros Hk Hin Hin' p Hp. unfold value_of. rewrite Hk; [done|..]; apply elem_of_app; left; apply list_elem_of_bind; exists sn; (split; [|done]); by apply list_elem_of_fmap_2.
Qed.

(** C4. A published snapshot never changes.  However the storage is used while
    a reader holds a snapshot, until the reader drops it (levels written, layers
    taken for writing and filled, queued data, publications, clones of the
    snapshot itself), every level read from the snapshot is the level it had when
    it was taken. *)
Theorem snapshots_are_immutable s sn calls :
  sound s → sn ∈ st_readers s → Forall call_args calls → CallDropSnapshot sn ∉ calls →
  ∃ s', perform_all calls s = Ok s' ∧ sn ∈ st_readers s' ∧
    (∀ key, snapshot_layer (value_of s') sn key = snapshot_layer (value_of s) sn key) ∧
    ∀ block, snapshot_get_level (value_of s') sn block = snapshot_get_level (value_of s) sn block.
Proof.
  intros Hs Hin Hcalls. revert s Hs Hin. induction Hcalls as [|c calls Hc _ IH]; intros s Hs Hin Hdrop; cbn [perform_all]; [by exists s|].
  apply not_elem_of_cons in Hdrop as [Hne Hdrop]. destruct (perform_sound c s Hc Hs) as (s1&->&Hs1&Hk&Hheld). mstep.
  pose proof (sh_snapshot _ _ _ Hheld sn (not_eq_sym Hne) Hin) as Hin1. destruct (IH s1 Hs1 Hin1 Hdrop) as (s'&->&Hin'&Hl&Hg).
  exists s'. split; [done|]. split; [done|]. pose proof (held_value s s1 sn Hk Hin Hin1) as Hv. split; intros x; [rewrite Hl|rewrite Hg].
  - by apply snapshot_layer_ext.
  - by apply snapshot_get_level_ext.
Qed.

Lemma found_pair_search (l : list (LightSection * LayerId)) key id :
  in_order fst sort_key l → (key, id) ∈ l → found l (search fst sort_key l key) = Some (key, id).
Proof. intros Ho Hin. by apply (found_search fst sort_key). Qed.
Lemma found_pair_none (l : list (LightSection * LayerId)) key :
  in_order fst sort_key l → (∀ id, (key, id) ∉ l) → found l (search fst sort_key l key) = None.
Proof. intros Ho Hn. apply (found_search_None fst sort_key); [done|]. intros [k id] Hin Hk. cbn in Hk. subst k. by eapply Hn. Qed.

(** C11. A data snapshot reads, for every section, what the storage reads as the
    data of the section: the queued layer where one is queued, and the visible
    layer elsewhere; its sections are exactly those that have data.  The two
    sorted sequences are merged without a panic. *)
Theorem data_snapshot_reads s :
  storage_ok s →
  ∃ r s', data_snapshot s = Ok (r, s') ∧ storage_ok s' ∧
    match r with
    | Failed _ => same_storage s s'
    | Done sn => sn ∈ st_data_readers s' ∧
        (∀ key, data_snapshot_layer (value_of s) sn key = data_layer_data s key) ∧
        ∀ key, key ∈ data_snapshot_sections sn ↔ is_Some (data_layer_data s key)
    end.
Proof.
  intros Hok. destruct (data_snapshot_ok s Hok) as (r&s'&E&Hok'&Hs&_&Hr). exists r, s'. split; [done|]. split; [done|]. destruct r as [sn|err]; [|done].
  destruct Hr as [Hsel Hrd]. split; [rewrite Hrd; by left|]. destruct (data_selection_spec s Hok) as (items&Hi&Ho&Hin). rewrite Hsel in Hi. injection Hi as Hi. rewrite <- Hi in *. clear Hi.
  assert (Hvis : in_order fst sort_key (sd_layers (st_visible s))) by (apply (sk_bodies _ Hok); by left).
  assert (Hread : ∀ key, data_snapshot_layer (value_of s) sn key = data_layer_data s key ∧ (key ∈ data_snapshot_sections sn ↔ is_Some (data_layer_data s key))).
  { intros key. unfold data_snapshot_layer, data_snapshot_sections, data_layer_data, snapshot_layer, snapshot_index, find_section. fold (queued_at s key).
    fold (search fst sort_key (dd_layers sn) key). fold (search fst sort_key (sd_layers (st_visible s)) key).
    assert (Hkey : ∀ id, (key, id) ∈ dd_layers sn → key ∈ (dd_layers sn).*1) by (intros id Hid; apply list_elem_of_fmap; by exists (key, id)).
    destruct (queued_at s key) as [q|] eqn:Hq.
    - assert (Hk : (key, q) ∈ dd_layers sn) by (apply Hin; by left). rewrite (found_pair_search _ key q) by done. split; [done|]. split; [by eexists|]. intros _. by eapply Hkey.
    - destruct (found (sd_layers (st_visible s)) (search fst sort_key (sd_layers (st_visible s)) key)) as [[k id]|] eqn:Hf.
      + apply (found_search fst sort_key) in Hf as [Hf Hk]; [|done]. cbn in Hk. subst k.
        assert (Hk : (key, id) ∈ dd_layers sn) by (apply Hin; by right). rewrite (found_pair_search _ key id) by done. split; [done|]. split; [by eexists|]. intros _. by eapply Hkey.
      + assert (Hnone : ∀ id, (key, id) ∉ dd_layers sn).
        { intros id [Hq'|[_ Hid]]%Hin; [congruence|]. rewrite (found_pair_search _ key id) in Hf; done. }
        rewrite found_pair_none by done. split; [done|]. split; [|by intros [? ?]]. intros ([k id]&->&Hid)%list_elem_of_fmap. by apply Hnone in Hid. }
  split; intros key; apply Hread.
Qed.

(** C13. Bytes queued for a section are read back, nibble by nibble, as the data
    of the section, and the data of every other section, every stored level and
    every snapshot stay as they are; a refused call changes no data. *)
Theorem queued_bytes_read_back s key bytes :
  storage_ok s → bytes_ok bytes →
  ∃ r s', queue_bytes key (Some bytes) s = Ok (r, s') ∧ storage_ok s' ∧ readers_kept s s' ∧ (∀ p, level_at s' p = level_at s p) ∧
    (∀ k, k ≠ key → queued_layer s' k = queued_layer s k) ∧
    match r with
    | Done _ => ∃ l, data_layer_data s' key = Some l ∧ ∀ x y z, local_coords x y z →
        layer_get l x y z = Ok (Z.land (Z.shiftr (nth (Z.to_nat (y * 128 + z * 8 + x / 2)) bytes 0) (x mod 2 * 4)) 15)
    | Failed _ => queued_layer s' key = queued_layer s key
    end.
Proof.
  intros Hok Hb. destruct (queue_bytes_ok s key (Some bytes) Hok) as (r&s'&E&Hok'&Hr); [by intros b [= <-]|]. exists r, s'. split; [done|]. split; [done|].
  destruct r as [u|err].
  - destruct Hr as (o&Hq&c&->). split; [apply Hq|]. split; [apply Hq|]. split; [intros k Hk; rewrite (qd_layer _ _ _ _ Hq); by rewrite decide_False|].
    pose proof (qd_layer _ _ _ _ Hq key) as Hl. rewrite decide_True in Hl by done. apply bind_Some in Hl as (id&Hid&[= Hv]).
    eexists. split; [unfold data_layer_data; fold (queued_at s' key); rewrite Hid; by rewrite Hv|]. intros x y z Hc.
    assert (Hlight : light_layer {| storage := Allocated bytes c |}) by (rewrite <- Hv; apply value_light; [apply Hok'|eapply queued_at_refs; [apply Hok'|done]]).
    by destruct (light_layer_get _ x y z Hlight Hc) as [-> _].
  - destruct Hr as [Ha Hq]. split; [apply Ha|]. split; [apply Ha|]. split; [intros k _; apply Hq|apply Hq].
Qed.
End facts.

(** ** A small storage *)

#[local] Instance test_sizes : StorageLayout.
Proof.
  refine {| charged_layer_size := 40; section_entry_size := 48; column_size := 24; light_section_size := 12; staged_size := 24;
            snapshot_layer_size := 24; snapshot_top_size := 12; snapshot_size := 96; data_snapshot_size := 48; ledger_size := 24 |}. lia.
Defined.
Definition test_limits : StorageLimits := {| max_sections := 64; max_columns := 64; max_notifications := 128; metadata_bytes := 65536; layer_bytes_limit := 1048576 |}.
Definition test_section : LightSection := {| ls_x := 0; ls_y := 0; ls_z := 0 |}.
Definition test_block : LightBlock := {| lb_x := 3; lb_y := 5; lb_z := 7 |}.
Definition test_storage : Storage.
Proof. let r := eval vm_compute in (storage_new 0 KBlock test_limits) in match r with Ok ?s => exact s end. Defined.
Definition test_calls : list StorageCall :=
  [CallEnable {| View.x := 0; View.z := 0 |} true; CallStatus test_section false; CallQueue test_section (Some (layer_uniform 4)); CallProcess;
   CallSet test_block 9; CallPublish; CallSnapshot; CallWrite {| ls_x := 0; ls_y := 1; ls_z := 0 |} [OpFill 3; OpSet 1 2 3 9 2048; OpMaterialize 0; OpSet 16 0 0 5 0];
   CallSet test_block 2; CallSet test_block 16].
(** The storage after these calls, of which the last is refused. *)
Definition test_used : Storage.
Proof. let r := eval vm_compute in (perform_all test_calls test_storage) in match r with Ok ?s => exact s end. Defined.

Example test_levels :
  (level_at test_used test_block, level_at test_used {| lb_x := 0; lb_y := 0; lb_z := 0 |}, level_at test_used {| lb_x := -1; lb_y := 0; lb_z := 0 |},
   level_at test_used {| lb_x := 1; lb_y := 18; lb_z := 3 |}, level_at test_used {| lb_x := 0; lb_y := 18; lb_z := 3 |},
   (λ sn, snapshot_get_level (value_of test_used) sn test_block) <$> st_readers test_used,
   neighbor_count test_used {| ls_x := 1; ls_y := 1; ls_z := -1 |}, size (st_heap test_used))
  = (Some 2, Some 4, Some 0, Some 9, Some 3, [Ok 9], 1, 29%nat).
Proof. vm_compute. reflexivity. Qed.

Lemma test_used_from : perform_all test_calls test_storage = Ok test_used.
Proof. vm_compute. reflexivity. Qed.
Lemma test_calls_args : Forall call_args test_calls.
Proof. repeat constructor; done. Qed.
Lemma test_used_sound : sound test_used.
Proof.
  destruct (storage_new_sound 0 KBlock test_limits test_storage) as [Hs _]; [done..|].
  destruct (perform_all_sound test_calls test_storage test_calls_args Hs) as (s&Hp&Hsound). rewrite test_used_from in Hp. by injection Hp as ->.
Qed.

Lemma storage_stays_sound_witness :
  ∃ s, perform_all test_calls test_storage = Ok s ∧ (∀ id, is_Some (st_heap s !! id) ↔ id ∈ refs s) ∧
    b_used (st_layers s) = LAYER_RESERVATION_BYTES * Z.of_nat (size (st_heap s)) ∧ b_used (st_layers s) ≤ Z.max 0 (b_limit (st_layers s)) ∧
    (∀ k, neighbor_count s k = data_neighbors (λ n, bool_decide (section_type s n = LightAndData)) k) ∧
    ∀ k, section_type s k ≠ SectionEmpty → st_storing_light s k = true.
Proof.
  apply (storage_stays_sound 0 KBlock test_limits test_calls test_storage); [vm_compute; discriminate|vm_compute; discriminate|exact test_calls_args|vm_compute; reflexivity].
Defined.
Lemma section_status_update_witness :
  sound test_used ∧ ∃ r s', update_section_status {| ls_x := 1; ls_y := 0; ls_z := 0 |} false test_used = Ok (r, s') ∧ sound s'.
Proof.
  split; [exact test_used_sound|]. destruct (section_status_update test_used {| ls_x := 1; ls_y := 0; ls_z := 0 |} false test_used_sound) as (r&s'&E&Hs&_).
  exists r, s'. split; [exact E|exact Hs].
Defined.
Definition test_snapshot : SnapshotData := Eval vm_compute in st_visible test_used.
Lemma snapshots_are_immutable_witness :
  ∃ s', perform_all [CallWrite test_section [OpFill 1; OpSet 3 5 7 6 2048]; CallPublish] test_used = Ok s' ∧ test_snapshot ∈ st_readers s' ∧
    (∀ key, snapshot_layer (value_of s') test_snapshot key = snapshot_layer (value_of test_used) test_snapshot key) ∧
    ∀ block, snapshot_get_level (value_of s') test_snapshot block = snapshot_get_level (value_of test_used) test_snapshot block.
Proof.
  apply (snapshots_are_immutable test_used test_snapshot [CallWrite test_section [OpFill 1; OpSet 3 5 7 6 2048]; CallPublish]);
    [exact test_used_sound|left|repeat constructor; done|intros Hin; repeat (apply elem_of_cons in Hin as [Hin|Hin]; [discriminate Hin|]); by apply not_elem_of_nil in Hin].
Defined.
Lemma data_snapshot_reads_witness :
  storage_ok test_used ∧ ∃ r s', data_snapshot test_used = Ok (r, s') ∧ storage_ok s'.
Proof.
  split; [exact (sd_storage _ test_used_sound)|]. destruct (data_snapshot_reads test_used (sd_storage _ test_used_sound)) as (r&s'&E&Hs&_).
  exists r, s'. split; [exact E|exact Hs].
Defined.
Lemma queued_bytes_read_back_witness :
  ∃ r s', queue_bytes test_section (Some (replicate 2048 67)) test_used = Ok (r, s') ∧ storage_ok s'.
Proof.
  destruct (queued_bytes_read_back test_used test_section (replicate 2048 67) (sd_storage _ test_used_sound)) as (r&s'&E&Hs&_).
  - apply Forall_replicate. split; reflexivity || discriminate.
  - exists r, s'. split; [exact E|exact Hs].
Defined.
