(* ===== verification/LightStorageStore.v ===== *)
(** * Light section storage: the interface of the engines

    The storage implements [LightStore] and keeps its laws, so the engine's
    theorems hold for the two components together. *)

From stdpp Require Import gmap list sets.
From S2P Require Import Prelude.
From S2P Require Import View.
From S2P Require Import LightTypes.
From S2P Require Import LightLayer.
From S2P Require Import LightStore.
From S2P Require Import LightStorage.
From S2P Require Import LightStorageOps.
From S2P Require Import LightStorageInv.
From S2P Require Import LightStorageWrites.
From S2P Require Import LightStorageLevels.
From S2P Require Import LightStorageSettle.
Local Open Scope Z_scope.

Section instance.
Context `{Allocator, StorageLayout}.

(** The level read, which is never a panic: [stored_level_eq]. *)
Definition read_level (s : Storage) (p : LightBlock) : option Z := match st_stored_level s p with Ok o => o | _ => None end.

#[export] Instance storage_store : LightStore Storage := {|
  kind := st_kind;
  store_stamp := st_stamp;
  stored_level := read_level;
  light_enabled := st_light_enabled;
  storing_light := st_storing_light;
  has_inconsistencies := st_has_inconsistencies;
  set_enabled := st_set_enabled;
  prepare_writes := st_prepare_writes;
  set_stored_level := st_set_stored_level;
  process_inconsistencies := st_process_inconsistencies;
  publish_visible := st_publish_visible;
|}.

Lemma read_level_at s p : storage_ok s → read_level s p = level_at s p.
Proof. intros Hok. unfold read_level. by rewrite stored_level_eq by apply Hok. Qed.

Lemma alike_view s s' : storage_ok s → storage_ok s' → looks_alike s s' → same_view s s'.
Proof.
  intros Hok Hok' [? ? Hl Hc ?]. split; cbn; [done|done| | |done].
  - intros p. by rewrite !read_level_at, Hl.
  - intros c. unfold st_light_enabled, column_at, column_index. by rewrite Hc.
Qed.

#[export] Instance storage_laws : LightStoreLaws Storage.
Proof.
  refine {| store_ok := storage_ok; prepared := st_prepared |}; cbn.
  - intros s p l Hok. rewrite read_level_at by done. apply level_at_range, Hok.
  - intros s p Hok _. rewrite read_level_at, <- section_of_block by done. apply storing_light_eq.
  - intros s c b Hok. destruct (set_enabled_ok s c b Hok) as (s'&Hok'&[(e&E&->)|(cols&E&->&Hen)]); rewrite E; eexists; (split; [exact Hok'|]); [left; eexists; split; [done|apply same_view_refl]|right].
    do 4 (split; [done|]). split; [|done]. intros p. by rewrite !read_level_at.
  - intros s l Hok. destruct (prepare_ok s l Hok) as (s'&Hok'&Ha&_&Hr). exists s'. split; [done|]. split; [by apply alike_view|]. destruct Hr as [?|(?&?&_)]; [by left|by right].
  - intros s l p v Hok Hp Hin Hl Hv. rewrite read_level_at in Hl by done.
    destruct (set_level_ok s l p v Hok Hp Hin Hl Hv) as (s'&E&Hok'&Hp'&[[? ?] Hcol ? _ Hlv _]). exists s'. do 3 (split; [done|]). split; cbn; [done|done| | |done].
    + intros q. by rewrite !read_level_at.
    + intros c. unfold st_light_enabled, column_at, column_index. by rewrite Hcol.
  - intros s Hok. destruct (process_ok s Hok) as (s'&E&Hok'&?&?&_&Hsame&_&_). exists s'. do 4 (split; [done|]). intros Hf. rewrite Hsame by done. apply same_view_refl.
  - intros s Hok. destruct (publish_ok s Hok) as (r&s'&E&Hok'&Ha&_). exists r, s'. split; [done|]. split; [done|]. by apply alike_view.
Defined.
End instance.
