(* ===== verification/BlockLight.v ===== *)
(** * The block-light engine: definitions (src/world/lighting/block.rs)

    Check batches, decreases and increases are separate phases, followed by the
    storage changes and the publication.  Each work unit computes a plan from
    the current levels, admits its queue entries and its writes, and only then
    consumes the queue entry and applies the plan; an error leaves the work
    queued.  [expect] and [unreachable!] are panics. *)

From S2P Require Import Prelude.
From S2P Require Import View.
From S2P Require Import LightTypes.
From S2P Require Import LightTable.
From S2P Require Import LightQueue.
From S2P Require Import LightStore.
Local Open Scope Z_scope.

(** [0b11_1111] *)
Definition ALL : Z := 63.
(** [1 << direction as u8] *)
Definition mask (d : LightDirection) : Z := Z.shiftl 1 (direction_index d).

Record BlockLightLimits := { checks_limit : Z; decreases_limit : Z; increases_limit : Z; queue_bytes : Z }.

Inductive BlockLightError :=
| Queue (e : QueueError) | Storage (e : StorageError) | RunActive | SourceMismatch | StorageMismatch
| InvalidBlock | WrongLayer.

Record RunProgress := { processed : nat; complete : bool }.

Inductive Phase := Idle | Checks | Decreases | Increases | StorageChanges | Publish.
#[export] Instance phase_eq_dec : EqDecision Phase.
Proof. solve_decision. Defined.

Record BlockLightEngine := {
  checks : CheckQueue;
  decreases : WorkQueue;
  increases : WorkQueue;
  phase : Phase;
  source_seen : option nat;
  storage_seen : option nat;
}.

Definition with_checks (e : BlockLightEngine) (c : CheckQueue) : BlockLightEngine :=
  {| checks := c; decreases := decreases e; increases := increases e; phase := phase e;
     source_seen := source_seen e; storage_seen := storage_seen e |}.
Definition with_decreases (e : BlockLightEngine) (q : WorkQueue) : BlockLightEngine :=
  {| checks := checks e; decreases := q; increases := increases e; phase := phase e;
     source_seen := source_seen e; storage_seen := storage_seen e |}.
Definition with_increases (e : BlockLightEngine) (q : WorkQueue) : BlockLightEngine :=
  {| checks := checks e; decreases := decreases e; increases := q; phase := phase e;
     source_seen := source_seen e; storage_seen := storage_seen e |}.
Definition with_phase (e : BlockLightEngine) (p : Phase) : BlockLightEngine :=
  {| checks := checks e; decreases := decreases e; increases := increases e; phase := p;
     source_seen := source_seen e; storage_seen := storage_seen e |}.
Definition with_stamps (e : BlockLightEngine) (source storage : option nat) : BlockLightEngine :=
  {| checks := checks e; decreases := decreases e; increases := increases e; phase := phase e;
     source_seen := source; storage_seen := storage |}.

(** ** Plans *)

Record Plan := { writes : list (LightBlock * Z); plan_decreases : list Entry; plan_increases : list Entry }.
Definition plan_new : Plan := {| writes := []; plan_decreases := []; plan_increases := [] |}.

(** The arrays of a plan hold seven writes and six entries of each kind. *)
Definition plan_write (plan : Plan) (pos : LightBlock) (level : Z) : outcome False Plan :=
  _ ← assert_that (length (writes plan) <? 7)%nat;
  Ok {| writes := writes plan ++ [(pos, level)]; plan_decreases := plan_decreases plan; plan_increases := plan_increases plan |}.
Definition plan_decrease (plan : Plan) (e : Entry) : outcome False Plan :=
  _ ← assert_that (length (plan_decreases plan) <? 6)%nat;
  Ok {| writes := writes plan; plan_decreases := plan_decreases plan ++ [e]; plan_increases := plan_increases plan |}.
Definition plan_increase (plan : Plan) (e : Entry) : outcome False Plan :=
  _ ← assert_that (length (plan_increases plan) <? 6)%nat;
  Ok {| writes := writes plan; plan_decreases := plan_decreases plan; plan_increases := plan_increases plan ++ [e] |}.

Definition blank_entry (pos : LightBlock) (level directions : Z) : Entry :=
  {| e_pos := pos; e_level := level; e_directions := directions; e_empty_shape := true; e_from_emission := false |}.
(** The function [emission]. *)
Definition emission_entry (pos : LightBlock) (level : Z) (shape : bool) : Entry :=
  {| e_pos := pos; e_level := level; e_directions := ALL; e_empty_shape := shape; e_from_emission := true |}.

(** [saturating_sub] on [u8] *)
Definition saturating_sub (a b : Z) : Z := Z.max 0 (a - b).

Section engine.
Context {S I : Type} `{LightStore S} `{LightInput I}.
Implicit Types (source : I) (storage : S).

(** [source.registry().light_material(source.state_at(pos)).expect(..)] *)
Definition material_at source (pos : LightBlock) : outcome False LightMaterial :=
  unwrap (material (registry source) (state_at source pos)).

Definition emitted_at source storage (pos : LightBlock) (m : LightMaterial) : Z :=
  if light_enabled storage (block_column pos) then emission m else 0.

Definition check_plan source storage (pos : LightBlock) : outcome False Plan :=
  let plan := plan_new in
  match stored_level storage pos with
  | None => Ok plan
  | Some old =>
      m ← material_at source pos;
      let emitted := emitted_at source storage pos m in
      plan ← (if emitted <? old
              then plan ← plan_write plan pos 0; plan_decrease plan (blank_entry pos old ALL)
              else plan_decrease plan (blank_entry pos 1 ALL));
      if negb (emitted =? 0) then plan_increase plan (emission_entry pos emitted (empty_shape m)) else Ok plan
  end.

(** One direction of [decrease_plan]. *)
Definition decrease_visit source storage (entry : Entry) (plan : Plan) (d : LightDirection) : outcome False Plan :=
  if Z.land (e_directions entry) (mask d) =? 0 then Ok plan
  else
    let pos := dir_step d (e_pos entry) in
    match stored_level storage pos with
    | None => Ok plan
    | Some old =>
        if old =? 0 then Ok plan
        else
          let backwards := mask (opposite d) in
          if old <? e_level entry then
            m ← material_at source pos;
            let emitted := emitted_at source storage pos m in
            plan ← plan_write plan pos 0;
            plan ← (if emitted <? old then plan_decrease plan (blank_entry pos old (Z.lxor ALL backwards)) else Ok plan);
            if negb (emitted =? 0) then plan_increase plan (emission_entry pos emitted (empty_shape m)) else Ok plan
          else
            plan_increase plan {| e_pos := pos; e_level := old; e_directions := backwards; e_empty_shape := false; e_from_emission := false |}
    end.

Fixpoint each_direction (visit : Plan → LightDirection → outcome False Plan) (plan : Plan) (ds : list LightDirection) : outcome False Plan :=
  match ds with
  | [] => Ok plan
  | d :: ds => plan ← visit plan d; each_direction visit plan ds
  end.

Definition decrease_plan source storage (entry : Entry) : outcome False Plan :=
  each_direction (decrease_visit source storage entry) plan_new all_directions.

(** [from.faces[direction as usize]] of a block, empty for an empty shape. *)
Definition face_of (m : LightMaterial) (d : LightDirection) : outcome False Z :=
  if empty_shape m then Ok 0 else unwrap (faces m !! Z.to_nat (direction_index d)).

(** One direction of [increase_plan]. *)
Definition increase_visit source storage (entry : Entry) (level : Z) (plan : Plan) (d : LightDirection) : outcome False Plan :=
  if Z.land (e_directions entry) (mask d) =? 0 then Ok plan
  else
    let pos := dir_step d (e_pos entry) in
    match stored_level storage pos with
    | None => Ok plan
    | Some old =>
        if saturating_sub level 1 <=? old then Ok plan
        else
          m ← material_at source pos;
          let new := saturating_sub level (Z.max (dampening m) 1) in
          if new <=? old then Ok plan
          else
            from_face ← (if e_empty_shape entry then Ok 0 else from ← material_at source (e_pos entry); face_of from d);
            to_face ← face_of m (opposite d);
            occludes ← face_occludes (registry source) from_face to_face;
            occludes ← unwrap occludes;
            if (occludes : bool) then Ok plan
            else
              plan ← plan_write plan pos new;
              if 1 <? new
              then plan_increase plan {| e_pos := pos; e_level := new; e_directions := Z.lxor ALL (mask (opposite d));
                                         e_empty_shape := empty_shape m; e_from_emission := false |}
              else Ok plan
    end.

Definition increase_plan source storage (entry : Entry) : outcome False (reply StorageError Plan) :=
  match stored_level storage (e_pos entry) with
  | None => Ok (Failed MissingLayer)
  | Some old =>
      '(plan, level) ← (if e_from_emission entry && (old <? e_level entry)
                        then plan ← plan_write plan_new (e_pos entry) (e_level entry); Ok (plan, e_level entry)
                        else Ok (plan_new, old));
      if negb (level =? e_level entry) then Ok (Done plan)
      else plan ← each_direction (increase_visit source storage entry level) plan all_directions; Ok (Done plan)
  end.

(** ** The engine *)

Context `{Allocator, QueueLayout}.

Definition engine_new (hash : LightBlock → nat) (limits : BlockLightLimits) : outcome BlockLightError BlockLightEngine :=
  '(c, remaining) ← map_err Queue (cq_new hash (checks_limit limits) (queue_bytes limits));
  '(d, remaining) ← map_err Queue (wq_new (decreases_limit limits) remaining);
  '(i, remaining) ← map_err Queue (wq_new (increases_limit limits) remaining);
  Ok {| checks := c; decreases := d; increases := i; phase := Idle; source_seen := None; storage_seen := None |}.

Definition engine_bytes (e : BlockLightEngine) : Z :=
  cq_heap_bytes (checks e) + wq_heap_bytes (decreases e) + wq_heap_bytes (increases e).

Definition has_work (e : BlockLightEngine) : bool :=
  negb (bool_decide (phase e = Idle)) || negb (cq_is_empty (checks e)) || negb (wq_is_empty (decreases e)) ||
  negb (wq_is_empty (increases e)).

Definition require_idle (e : BlockLightEngine) : outcome BlockLightError () := ensure (bool_decide (phase e = Idle)) RunActive.
Definition require_source (e : BlockLightEngine) source : outcome BlockLightError () :=
  match source_seen e with Some stamp => ensure (stamp =? source_stamp source)%nat SourceMismatch | None => Ok tt end.
Definition require_storage (e : BlockLightEngine) storage : outcome BlockLightError () :=
  match storage_seen e with Some stamp => ensure (stamp =? store_stamp storage)%nat StorageMismatch | None => Ok tt end.
Definition require_block storage : outcome BlockLightError () := ensure (bool_decide (kind storage = KBlock)) WrongLayer.

Definition in_horizontal (v : Z) : bool := (-2097061 * 16 <=? v) && (v <=? 2097061 * 16 + 15).

Definition check_block (e : BlockLightEngine) (pos : LightBlock) : outcome BlockLightError (bool * BlockLightEngine) :=
  _ ← require_idle e;
  if negb (in_horizontal (lb_x pos)) || negb (in_horizontal (lb_z pos)) || negb ((-2032 <=? lb_y pos) && (lb_y pos <=? 2031))
  then Err InvalidBlock
  else '(added, c) ← map_err Queue (cq_insert (checks e) pos); Ok (added, with_checks e c).

(** Queues that grew before a later one failed stay grown. *)
Definition grow_queues (hash : LightBlock → nat) (limits : BlockLightLimits) : call BlockLightEngine BlockLightError () := λ e,
  if (checks_limit limits =? 0) || (decreases_limit limits =? 0) || (increases_limit limits =? 0)
  then Ok (Failed (Queue InvalidCapacity), e)
  else
    match checked_sub (queue_bytes limits) (engine_bytes e) with
    | None => Ok (Failed (Queue AllocationLimit), e)
    | Some remaining =>
        match cq_grow hash (checks e) (checks_limit limits) remaining with
        | Err err => Ok (Failed (Queue err), e)
        | Panic => Panic | NoFuel => NoFuel
        | Ok (c, remaining) =>
            let e := with_checks e c in
            match wq_grow (decreases e) (decreases_limit limits) remaining with
            | Err err => Ok (Failed (Queue err), e)
            | Panic => Panic | NoFuel => NoFuel
            | Ok (d, remaining) =>
                let e := with_decreases e d in
                match wq_grow (increases e) (increases_limit limits) remaining with
                | Err err => Ok (Failed (Queue err), e)
                | Panic => Panic | NoFuel => NoFuel
                | Ok (i, _) => Ok (Done tt, with_increases e i)
                end
            end
        end
    end.

(** ** Calls on the engine and the storage *)

Definition on_storage {A} (m : call S StorageError A) : call (BlockLightEngine * S) BlockLightError A := λ '(e, s),
  '(r, s) ← m s;
  Ok (match r with Done a => Done a | Failed err => Failed (Storage err) end, (e, s)).
(** A guard or a reading of the state, which may fail with a typed error. *)
Definition guard {A} (f : BlockLightEngine → S → outcome BlockLightError A) : call (BlockLightEngine * S) BlockLightError A := λ '(e, s),
  match f e s with
  | Ok a => Ok (Done a, (e, s))
  | Err err => Ok (Failed err, (e, s))
  | Panic => Panic
  | NoFuel => NoFuel
  end.
Definition modify (f : BlockLightEngine → outcome False BlockLightEngine) : call (BlockLightEngine * S) BlockLightError () := λ '(e, s),
  e ← f e; Ok (Done tt, (e, s)).

Local Open Scope call_scope.

(** A push that the plan admitted: [.expect(..)]. *)
Definition push_expect (q : WorkQueue) (x : Entry) : outcome False WorkQueue :=
  match wq_push q x with Ok q => Ok q | Err _ => Panic | Panic => Panic | NoFuel => NoFuel end.
Fixpoint push_all (q : WorkQueue) (l : list Entry) : outcome False WorkQueue :=
  match l with [] => Ok q | x :: l => q ← push_expect q x; push_all q l end.

(** [storage.set_stored_level(..).expect(..)] for every write. *)
Fixpoint write_all (l : list (LightBlock * Z)) (s : S) : outcome False S :=
  match l with
  | [] => Ok s
  | (pos, level) :: l =>
      '(r, s) ← set_stored_level pos level s;
      match r with Done _ => write_all l s | Failed _ => Panic end
  end.

Definition prepare (plan : Plan) (decrease_credit increase_credit : nat) : call (BlockLightEngine * S) BlockLightError () :=
  let+ _ := guard (λ e _,
    dr ← lift (wq_remaining_capacity (decreases e));
    ir ← lift (wq_remaining_capacity (increases e));
    ensure (negb ((dr + decrease_credit <? length (plan_decreases plan))%nat || (ir + increase_credit <? length (plan_increases plan))%nat))
      (Queue Full)) in
  on_storage (prepare_writes (writes plan).*1).

Definition apply (plan : Plan) : call (BlockLightEngine * S) BlockLightError () := λ '(e, s),
  s ← write_all (writes plan) s;
  d ← push_all (decreases e) (plan_decreases plan);
  i ← push_all (increases e) (plan_increases plan);
  Ok (Done tt, (with_increases (with_decreases e d) i, s)).

Definition run_check source : call (BlockLightEngine * S) BlockLightError () :=
  let+ plan := guard (λ e s, pos ← unwrap (cq_peek (checks e)); lift (check_plan source s pos)) in
  let+ _ := prepare plan 0 0 in
  let+ _ := modify (λ e, Ok (with_checks e (cq_pop (checks e)).2)) in
  apply plan.

Definition run_decrease source : call (BlockLightEngine * S) BlockLightError () :=
  let+ plan := guard (λ e s, entry ← lift (wq_peek (decreases e)); entry ← unwrap entry; lift (decrease_plan source s entry)) in
  let+ _ := prepare plan 1 0 in
  let+ _ := modify (λ e, '(_, d) ← wq_pop (decreases e); Ok (with_decreases e d)) in
  apply plan.

Definition run_increase source : call (BlockLightEngine * S) BlockLightError () :=
  let+ plan := guard (λ e s,
    entry ← lift (wq_peek (increases e)); entry ← unwrap entry;
    r ← lift (increase_plan source s entry);
    match r with Done plan => Ok plan | Failed err => Err (Storage err) end) in
  let+ _ := prepare plan 0 1 in
  let+ _ := modify (λ e, '(_, i) ← wq_pop (increases e); Ok (with_increases e i)) in
  apply plan.

Fixpoint run_loop source (fuel work_budget done_ : nat) : call (BlockLightEngine * S) BlockLightError RunProgress := λ '(e, s),
  match fuel with
  | O => NoFuel
  | Datatypes.S fuel' =>
      let set_phase p := modify (λ e, Ok (with_phase e p)) in
      let work (m : call (BlockLightEngine * S) BlockLightError ()) :=
        if (done_ =? work_budget)%nat then call_ret {| processed := done_; complete := false |}
        else let+ _ := m in run_loop source fuel' work_budget (done_ + 1) in
      match phase e with
      | Idle => Panic
      | Checks =>
          if cq_is_empty (checks e)
          then (let+ _ := modify (λ e, Ok (with_phase (with_checks e (cq_clear (checks e))) Decreases)) in
                run_loop source fuel' work_budget done_) (e, s)
          else work (run_check source) (e, s)
      | Decreases =>
          if wq_is_empty (decreases e)
          then (let+ _ := set_phase Increases in run_loop source fuel' work_budget done_) (e, s)
          else work (run_decrease source) (e, s)
      | Increases =>
          if wq_is_empty (increases e)
          then (let+ _ := set_phase StorageChanges in run_loop source fuel' work_budget done_) (e, s)
          else work (run_increase source) (e, s)
      | StorageChanges =>
          (let+ _ := on_storage process_inconsistencies in
           let+ _ := set_phase Publish in run_loop source fuel' work_budget done_) (e, s)
      | Publish =>
          (let+ _ := on_storage publish_visible in
           let+ _ := modify (λ e, Ok (with_stamps (with_phase e Idle) None None)) in
           call_ret {| processed := done_; complete := true |}) (e, s)
      end
  end.

(** At most five phase changes and the last iteration are not paid by the budget. *)
Definition run source (work_budget : nat) : call (BlockLightEngine * S) BlockLightError RunProgress :=
  let+ _ := guard (λ _ s, require_block s) in
  let+ _ := guard (λ e _, require_source e source) in
  let+ _ := guard (λ e s, require_storage e s) in
  let+ _ := (λ '(e, s),
    let e := match source_seen e with
             | None => with_stamps e (Some (source_stamp source)) (Some (store_stamp s))
             | Some _ => e
             end in
    Ok (Done tt, (if decide (phase e = Idle) then with_phase e Checks else e, s))) in
  run_loop source (work_budget + 6) work_budget 0.

(** [storing_light] of every source position, in order. *)
Fixpoint sources_stored (l : list (LightBlock * Z)) (s : S) : bool :=
  match l with [] => true | (pos, _) :: l => storing_light s (block_section pos) && sources_stored l s end.

Fixpoint push_sources source (q : WorkQueue) (l : list (LightBlock * Z)) : outcome False WorkQueue :=
  match l with
  | [] => Ok q
  | (pos, state) :: l =>
      m ← unwrap (material (registry source) state);
      q ← push_expect q (emission_entry pos (emission m) (empty_shape m));
      push_sources source q l
  end.

Definition propagate_light_sources source (chunk : ChunkAddress) : call (BlockLightEngine * S) BlockLightError () :=
  let sources := emission_sources source chunk in
  let+ _ := guard (λ e _, require_idle e) in
  let+ _ := guard (λ _ s, require_block s) in
  let+ _ := guard (λ e _, require_source e source) in
  let+ _ := guard (λ e s, require_storage e s) in
  let+ _ := guard (λ e _, room ← lift (wq_remaining_capacity (increases e)); ensure (negb (room <? length sources)%nat) (Queue Full)) in
  let+ _ := guard (λ _ s, ensure (sources_stored sources s) (Storage MissingLayer)) in
  let+ _ := on_storage (set_enabled chunk true) in
  λ '(e, s),
    let e := if (length sources =? 0)%nat then e else with_stamps e (Some (source_stamp source)) (Some (store_stamp s)) in
    q ← push_sources source (increases e) sources;
    Ok (Done tt, (with_increases e q, s)).
End engine.
