(* ===== verification/BlockLightInv.v ===== *)
(** * The block-light engine: the propagation invariant

    The theory of one work unit, on levels as a function and queues as lists.
    [reaches p l] is the reference: light of level [l] arrives at [p] along a
    path of unobstructed steps from an emitting block, each step costing the
    attenuation of the block entered.  The invariant says that every block and
    every edge is settled or has work pending for it; with no work pending the
    stored levels are exactly the brightest light that [reaches] each block. *)

From stdpp Require Import list sets.
From S2P Require Import Prelude.
From S2P Require Import LightTypes.
From S2P Require Import LightQueue.
From S2P Require Import BlockLight.
Local Open Scope Z_scope.

Definition Levels : Type := LightBlock → option Z.

(** [entry.directions & mask(direction) != 0] *)
Definition toward (e : Entry) (d : LightDirection) : bool := negb (Z.land (e_directions e) (mask d) =? 0).

Lemma toward_all pos l s d : toward (emission_entry pos l s) d = true.
Proof. by destruct d. Qed.
Lemma toward_blank_all pos l d : toward (blank_entry pos l ALL) d = true.
Proof. by destruct d. Qed.
Lemma toward_but d d' dirs e : e_directions e = dirs → dirs = Z.lxor ALL (mask (opposite d)) → d' ≠ opposite d → toward e d' = true.
Proof. unfold toward. intros -> ->. by destruct d, d'. Qed.
Lemma toward_only d e : e_directions e = mask d → toward e d = true.
Proof. unfold toward. intros ->. by destruct d. Qed.

(** What a function of the direction contributes over all directions. *)
Definition all_of {A} (f : LightDirection → list A) : list A := mjoin (f <$> all_directions).
Lemma elem_of_all_of {A} (f : LightDirection → list A) x : x ∈ all_of f ↔ ∃ d, x ∈ f d.
Proof.
  unfold all_of. rewrite list_elem_of_join. split.
  - intros (l&Hx&(d&->&_)%list_elem_of_fmap). by exists d.
  - intros [d Hd]. exists (f d). split; [done|]. apply list_elem_of_fmap. exists d. split; [done|apply elem_of_all_directions].
Qed.

Section theory.
(** The emission of a block where its column is enabled, the attenuation of
    entering it, the occlusion of the face in a direction and the empty shapes. *)
Context (E att : LightBlock → Z) (occ : LightBlock → LightDirection → bool) (shape : LightBlock → bool).
Hypothesis E_range : ∀ p, 0 ≤ E p ≤ 15.
Hypothesis att_pos : ∀ p, 1 ≤ att p.

(** ** The reference light *)

Inductive reaches (lv : Levels) : LightBlock → Z → Prop :=
| reach_emit p : is_Some (lv p) → 0 < E p → reaches lv p (E p)
| reach_step p d l : reaches lv p l → is_Some (lv (dir_step d p)) → occ p d = false → 0 < l - att (dir_step d p) →
    reaches lv (dir_step d p) (l - att (dir_step d p)).

(** [l] is the brightest light that reaches [p], or zero when none does. *)
Definition brightest (lv : Levels) (p : LightBlock) (l : Z) : Prop :=
  (l = 0 ∨ reaches lv p l) ∧ ∀ l', reaches lv p l' → l' ≤ l.

(** The reference only depends on which blocks are stored. *)
Lemma reaches_stored lv lv' p l : (∀ p, is_Some (lv p) → is_Some (lv' p)) → reaches lv p l → reaches lv' p l.
Proof. intros Hs. induction 1; constructor; auto. Qed.

(** ** Work units *)

Definition dec_clear (lv : Levels) (e : Entry) (d : LightDirection) : option Z :=
  if toward e d then
    match lv (dir_step d (e_pos e)) with
    | Some old => if negb (old =? 0) && (old <? e_level e) then Some old else None
    | None => None
    end
  else None.
Definition dec_writes lv e d : list (LightBlock * Z) :=
  match dec_clear lv e d with Some _ => [(dir_step d (e_pos e), 0)] | None => [] end.
Definition dec_decs lv e d : list Entry :=
  let pos := dir_step d (e_pos e) in
  match dec_clear lv e d with
  | Some old => if E pos <? old then [blank_entry pos old (Z.lxor ALL (mask (opposite d)))] else []
  | None => []
  end.
Definition back_entry (pos : LightBlock) (old : Z) (d : LightDirection) : Entry :=
  {| e_pos := pos; e_level := old; e_directions := mask (opposite d); e_empty_shape := false; e_from_emission := false |}.
Definition dec_incs lv e d : list Entry :=
  let pos := dir_step d (e_pos e) in
  if toward e d then
    match lv pos with
    | Some old =>
        if old =? 0 then []
        else if old <? e_level e then (if E pos =? 0 then [] else [emission_entry pos (E pos) (shape pos)])
        else [back_entry pos old d]
    | None => []
    end
  else [].

Definition inc_raise (lv : Levels) (e : Entry) (level : Z) (d : LightDirection) : option Z :=
  let pos := dir_step d (e_pos e) in
  if toward e d then
    match lv pos with
    | Some old =>
        if saturating_sub level 1 <=? old then None
        else
          let new := saturating_sub level (att pos) in
          if new <=? old then None else if occ (e_pos e) d then None else Some new
    | None => None
    end
  else None.
Definition inc_writes lv e level d : list (LightBlock * Z) :=
  match inc_raise lv e level d with Some new => [(dir_step d (e_pos e), new)] | None => [] end.
Definition on_entry (pos : LightBlock) (new : Z) (d : LightDirection) : Entry :=
  {| e_pos := pos; e_level := new; e_directions := Z.lxor ALL (mask (opposite d)); e_empty_shape := shape pos; e_from_emission := false |}.
Definition inc_incs lv e level d : list Entry :=
  match inc_raise lv e level d with
  | Some new => if 1 <? new then [on_entry (dir_step d (e_pos e)) new d] else []
  | None => []
  end.

(** The level an increase entry propagates, and the write of its own block. *)
Definition inc_level (e : Entry) (old : Z) : Z := if e_from_emission e && (old <? e_level e) then e_level e else old.
Definition inc_own (e : Entry) (old : Z) : list (LightBlock * Z) :=
  if e_from_emission e && (old <? e_level e) then [(e_pos e, e_level e)] else [].
Definition inc_all_writes lv e old : list (LightBlock * Z) :=
  inc_own e old ++ (if inc_level e old =? e_level e then all_of (inc_writes lv e (inc_level e old)) else []).
Definition inc_all_incs lv e old : list Entry :=
  if inc_level e old =? e_level e then all_of (inc_incs lv e (inc_level e old)) else [].

Definition check_writes (x : LightBlock) (old : Z) : list (LightBlock * Z) := if E x <? old then [(x, 0)] else [].
Definition check_dec (x : LightBlock) (old : Z) : Entry := blank_entry x (if E x <? old then old else 1) ALL.
Definition check_incs (x : LightBlock) : list Entry := if E x =? 0 then [] else [emission_entry x (E x) (shape x)].

(** [lv'] is [lv] after the writes [ws]. *)
Definition written (ws : list (LightBlock * Z)) (lv lv' : Levels) : Prop :=
  ∀ p, (∃ v, (p, v) ∈ ws ∧ lv' p = Some v) ∨ (p ∉ ws.*1 ∧ lv' p = lv p).

(** ** The invariant *)

Section invariant.
Context (lv : Levels) (todo : list LightBlock) (decs incs : list Entry).

Definition pending_emission p : Prop := ∃ e, e ∈ incs ∧ e_pos e = p ∧ e_from_emission e = true.
(** An increase entry will propagate from [p] at its current level. *)
Definition covered p l d : Prop :=
  ∃ e, e ∈ incs ∧ e_pos e = p ∧ toward e d = true ∧ (e_level e = l ∨ e_from_emission e = true ∧ l ≤ e_level e).
(** A decrease entry at [q] will visit the neighbour in direction [d]. *)
Definition pulls q d : Prop := ∃ e, e ∈ decs ∧ e_pos e = q ∧ toward e d = true.
(** The level the block will have at least, once its emission is written. *)
Definition will_have q l v : Prop := v ≤ l ∨ pending_emission q ∧ v ≤ E q.

Definition edge_settled p l d l' : Prop :=
  p ∈ todo ∨ dir_step d p ∈ todo ∨ occ p d = true ∨ will_have (dir_step d p) l' (l - att (dir_step d p)) ∨
  covered p l d ∨ pulls (dir_step d p) (opposite d).

(** A neighbour supports level [l] at [p]. *)
Definition supported p l : Prop :=
  ∃ d l', lv (dir_step d p) = Some l' ∧ occ (dir_step d p) (opposite d) = false ∧ will_have (dir_step d p) l' (l + att p).
(** [p] leans on a block that is about to be cleared. *)
Definition leaning p l : Prop :=
  ∃ d l', dir_step d p ∈ todo ∧ lv (dir_step d p) = Some l' ∧ l < l' ∧ E (dir_step d p) < l'.
(** A decrease entry will clear [p]. *)
Definition doomed p l : Prop :=
  ∃ d e, e ∈ decs ∧ e_pos e = dir_step d p ∧ toward e (opposite d) = true ∧ l < e_level e.

Record light_inv : Prop := {
  li_i32 p l : lv p = Some l → block_i32 p;
  li_range p l : lv p = Some l → 0 ≤ l ≤ 15;
  li_incs e : e ∈ incs → is_Some (lv (e_pos e)) ∧ 1 ≤ e_level e ≤ 15 ∧
    (e_empty_shape e = true → shape (e_pos e) = true) ∧
    (e_from_emission e = true → e_level e = E (e_pos e) ∧ e_directions e = ALL);
  li_decs e : e ∈ decs → is_Some (lv (e_pos e)) ∧ 1 ≤ e_level e ≤ 15 ∧ (1 < e_level e → lv (e_pos e) = Some 0);
  li_emission p l : lv p = Some l → p ∈ todo ∨ will_have p l (E p);
  li_edges p l d l' : lv p = Some l → lv (dir_step d p) = Some l' → edge_settled p l d l';
  li_support p l : lv p = Some l → 0 < l → l ≤ E p ∨ p ∈ todo ∨ supported p l ∨ leaning p l ∨ doomed p l;
}.
End invariant.

(** ** With no work pending the levels are the reference *)

Lemma reaches_level lv p l : reaches lv p l → is_Some (lv p) ∧ 0 < l.
Proof. induction 1; (split; [done|lia]). Qed.

Lemma settled_upper lv p l l' : light_inv lv [] [] [] → lv p = Some l → reaches lv p l' → l' ≤ l.
Proof.
  intros Hi Hl Hr. revert l Hl. induction Hr as [p Hs He|p d l' Hr IH Hs Ho Hpos]; intros l Hl.
  - destruct (li_emission _ _ _ _ Hi p l Hl) as [?|[?|[(e&?&_) _]]]; [set_solver|done|set_solver].
  - destruct (reaches_level _ _ _ Hr) as [[lp Hlp] _]. pose proof (IH lp Hlp).
    destruct (li_edges _ _ _ _ Hi p lp d l Hlp Hl) as [?|[?|[?|[[?|[(e&?&_) _]]|[(e&?&_)|(e&?&_)]]]]];
      [set_solver|set_solver|congruence|lia|set_solver..].
Qed.

Lemma settled_reached lv n p l :
  light_inv lv [] [] [] → lv p = Some l → 0 < l → 16 - l ≤ Z.of_nat n → reaches lv p l.
Proof.
  intros Hi. revert p l. induction n as [|n IH]; intros p l Hl Hpos Hn.
  { pose proof (li_range _ _ _ _ Hi p l Hl). lia. }
  destruct (li_support _ _ _ _ Hi p l Hl Hpos) as [HE|[?|[(d&l'&Hl'&Ho&Hw)|[(d&?&?&_)|(d&e&?&_)]]]]; [|set_solver| |set_solver..].
  - destruct (li_emission _ _ _ _ Hi p l Hl) as [?|[?|[(e&?&_) _]]]; [set_solver| |set_solver].
    assert (l = E p) as -> by lia. constructor; [done|lia].
  - destruct Hw as [Hw|[(e&?&_) _]]; [|set_solver]. pose proof (att_pos p).
    pose proof (li_i32 _ _ _ _ Hi p l Hl) as Hb.
    set (q := dir_step d p) in *. assert (Hq : dir_step (opposite d) q = p) by (by apply dir_step_opposite).
    assert (Hr : reaches lv q l') by (apply IH; [done|lia|lia]).
    pose proof (reach_step lv q (opposite d) l' Hr) as Hstep. rewrite Hq in Hstep.
    specialize (Hstep ltac:(done) Ho ltac:(lia)).
    pose proof (settled_upper lv p l _ Hi Hl Hstep). replace l with (l' - att p) by lia. done.
Qed.

Theorem settled_is_brightest lv p l : light_inv lv [] [] [] → lv p = Some l → brightest lv p l.
Proof.
  intros Hi Hl. pose proof (li_range _ _ _ _ Hi p l Hl). split; [|intros l'; by apply settled_upper].
  destruct (decide (l = 0)) as [|]; [by left|right]. apply (settled_reached lv 16); (done || lia).
Qed.

(** Conversely the brightest light needs no work. *)
Lemma brightest_is_settled lv :
  (∀ p l, lv p = Some l → block_i32 p) → (∀ p l, lv p = Some l → brightest lv p l) → light_inv lv [] [] [].
Proof.
  intros Hb Hall.
  assert (Hmax : ∀ p l, reaches lv p l → l ≤ 15).
  { induction 1 as [|p d l _ IH]; [apply E_range|]. pose proof (att_pos (dir_step d p)). lia. }
  split; [done| |set_solver|set_solver| | |].
  - intros p l Hl. destruct (Hall p l Hl) as [[->|Hr] _]; [lia|]. pose proof (reaches_level _ _ _ Hr). pose proof (Hmax _ _ Hr). lia.
  - intros p l Hl. right; left. pose proof (E_range p). destruct (decide (0 < E p)) as [He|]; [|destruct (Hall p l Hl) as [[->|[_ ?]%reaches_level] _]; lia].
    apply (Hall p l Hl). by constructor.
  - intros p l d l' Hl Hl'. unfold edge_settled. destruct (occ p d) eqn:Ho; [tauto|]. do 3 right; left; left.
    destruct (Hall _ _ Hl') as [Hz Hup]. destruct (decide (0 < l - att (dir_step d p))) as [Hpos|].
    + apply Hup. destruct (Hall p l Hl) as [[->|Hr] _]; [pose proof (att_pos (dir_step d p)); lia|]. by constructor.
    + destruct Hz as [->|[_ ?]%reaches_level]; lia.
  - intros p l Hl Hpos. destruct (Hall p l Hl) as [[->|Hr] _]; [lia|]. inversion Hr as [? _ _|q d l' Hq Hs Ho _ Hp Hl2]; subst; [by left|].
    do 2 right; left. destruct (reaches_level _ _ _ Hq) as [[lq Hlq] _].
    assert (Hback : dir_step (opposite d) (dir_step d q) = q) by (apply dir_step_opposite; by eapply Hb).
    exists (opposite d), lq. rewrite Hback, opposite_involutive. split; [done|]. split; [done|]. left.
    pose proof (proj2 (Hall q lq Hlq) l' Hq). lia.
Qed.

(** ** Monotonicity *)

Lemma pending_mono incs incs' p : incs ⊆ incs' → pending_emission incs p → pending_emission incs' p.
Proof. intros Hs (e&?&?). exists e. split; [by apply Hs|done]. Qed.
Lemma will_have_mono incs incs' q l l' v : incs ⊆ incs' → l ≤ l' → will_have incs q l v → will_have incs' q l' v.
Proof. intros Hs Hl [?|[??]]; [left; lia|right; split; [by eapply pending_mono|done]]. Qed.
Lemma will_have_more incs incs' q l v : incs ⊆ incs' → will_have incs q l v → will_have incs' q l v.
Proof. intros. by eapply will_have_mono; [|reflexivity|]. Qed.
Lemma covered_mono incs incs' p l d : incs ⊆ incs' → covered incs p l d → covered incs' p l d.
Proof. intros Hs (e&?&?). exists e. split; [by apply Hs|done]. Qed.
Lemma pulls_mono decs decs' q d : decs ⊆ decs' → pulls decs q d → pulls decs' q d.
Proof. intros Hs (e&?&?). exists e. split; [by apply Hs|done]. Qed.
Lemma doomed_mono decs decs' p l : decs ⊆ decs' → doomed decs p l → doomed decs' p l.
Proof. intros Hs (d&e&?&?). exists d, e. split; [by apply Hs|done]. Qed.
Lemma sub_app_l {A} (l k : list A) : l ⊆ l ++ k.
Proof. intros x Hx. apply elem_of_app. by left. Qed.

(** Nothing is asked of the edges of a dark block. *)
Lemma dark_edge todo decs incs p d l' : 0 ≤ l' → edge_settled todo decs incs p 0 d l'.
Proof. intros. do 3 right; left; left. pose proof (att_pos (dir_step d p)). lia. Qed.

(** ** One check *)

Lemma check_missing lv x todo decs incs : lv x = None → light_inv lv (x :: todo) decs incs → light_inv lv todo decs incs.
Proof.
  intros Hx Hi. destruct Hi as [Hb Hr Hin Hde Hem Hed Hsu]. split; [done..| | |].
  - intros p l Hl. destruct (Hem p l Hl) as [[->|?]%elem_of_cons|?]; [congruence|by left|by right].
  - intros p l d l' Hl Hl'. destruct (Hed p l d l' Hl Hl') as [[->|?]%elem_of_cons|[[E'|?]%elem_of_cons|?]];
      [congruence|by left|congruence|by right; left|by right; right].
  - intros p l Hl Hpos. destruct (Hsu p l Hl Hpos) as [?|[[->|?]%elem_of_cons|[?|[(d&l'&[E'|?]%elem_of_cons&?&?)|?]]]];
      [by left|congruence|by right; left|by do 2 right; left|congruence| |by do 4 right].
    do 3 right; left. by exists d, l'.
Qed.

Lemma check_written x old lv lv' :
  lv x = Some old → written (check_writes x old) lv lv' →
  lv' x = Some (if E x <? old then 0 else old) ∧ ∀ p, p ≠ x → lv' p = lv p.
Proof.
  intros Hx Hw. unfold check_writes in Hw. split.
  - destruct (Hw x) as [(v&Hin&Hv)|[Hn Hv]]; destruct (E x <? old).
    + apply list_elem_of_singleton in Hin. injection Hin as ->. done.
    + by apply not_elem_of_nil in Hin.
    + cbn in Hn. set_solver.
    + congruence.
  - intros p Hp. destruct (Hw p) as [(v&Hin&Hv)|[Hn Hv]]; [|done]. destruct (E x <? old); set_solver.
Qed.

Lemma check_step lv lv' x old todo decs incs :
  lv x = Some old → written (check_writes x old) lv lv' → light_inv lv (x :: todo) decs incs →
  light_inv lv' todo (decs ++ [check_dec x old]) (incs ++ check_incs x).
Proof.
  intros Hx Hw Hi. destruct (check_written x old lv lv' Hx Hw) as [Hx' Hne]. clear Hw.
  destruct Hi as [Hb Hr Hin Hde Hem Hed Hsu]. pose proof (Hr x old Hx) as Hold. pose proof (E_range x) as HE.
  pose proof (sub_app_l incs (check_incs x)) as Hsi. pose proof (sub_app_l decs [check_dec x old]) as Hsd.
  assert (Hpend : E x ≠ 0 → pending_emission (incs ++ check_incs x) x).
  { intros Hz. exists (emission_entry x (E x) (shape x)). split; [|done]. apply elem_of_app; right. unfold check_incs.
    destruct (Z.eqb_spec (E x) 0); [done|]. by left. }
  assert (Hpull : ∀ d, pulls (decs ++ [check_dec x old]) x d).
  { intros d. exists (check_dec x old). split; [apply elem_of_app; right; by left|]. split; [done|apply toward_blank_all]. }
  assert (Hsome : ∀ p, is_Some (lv p) → is_Some (lv' p)).
  { intros p Hp. destruct (decide (p = x)) as [->|]; [rewrite Hx'; done|by rewrite Hne]. }
  assert (Hz : ∀ p, lv p = Some 0 → lv' p = Some 0).
  { intros p Hp. destruct (decide (p = x)) as [->|]; [|by rewrite Hne]. rewrite Hx'. rewrite Hx in Hp. injection Hp as ->. by case_match. }
  split.
  - intros p l Hl. destruct (decide (p = x)) as [->|Hp]; [by eapply Hb|rewrite Hne in Hl by done; by eapply Hb].
  - intros p l Hl. destruct (decide (p = x)) as [->|Hp]; [rewrite Hx' in Hl; injection Hl as <-; case_match; lia|rewrite Hne in Hl by done; by eapply Hr].
  - intros e [He|He]%elem_of_app.
    + destruct (Hin e He) as (?&?&?&?). split; [by apply Hsome|done].
    + unfold check_incs in He. destruct (Z.eqb_spec (E x) 0); [by apply not_elem_of_nil in He|]. apply list_elem_of_singleton in He as ->.
      cbn. split; [by apply Hsome; rewrite Hx|]. split; [lia|done].
  - intros e [He|He%list_elem_of_singleton]%elem_of_app.
    + destruct (Hde e He) as (?&?&?). split; [by apply Hsome|]. split; [done|]. intros. apply Hz. auto.
    + subst e. cbn. split; [by apply Hsome; rewrite Hx|]. rewrite Hx'. destruct (Z.ltb_spec (E x) old); (split; [lia|]); (done || lia).
  - intros p l Hl. destruct (decide (p = x)) as [->|Hp].
    + right. destruct (decide (E x = 0)) as [E0|E0]; [left|right; split; [auto|done]].
      rewrite Hx' in Hl. injection Hl as <-. case_match; lia.
    + rewrite Hne in Hl by done. destruct (Hem p l Hl) as [[?|?]%elem_of_cons|?]; [done|by left|right; by eapply will_have_more].
  - intros p l d l' Hl Hl'. assert (Hl'0 : 0 ≤ l').
    { destruct (decide (dir_step d p = x)) as [Eq|Hq]; [rewrite Eq, Hx' in Hl'; injection Hl' as <-; case_match; lia|].
      rewrite Hne in Hl' by done. pose proof (Hr _ _ Hl'). lia. }
    destruct (decide (dir_step d p = x)) as [Eq|Hq]; [do 5 right; rewrite Eq; apply Hpull|].
    destruct (decide (p = x)) as [->|Hp].
    { rewrite Hx' in Hl. injection Hl as <-. destruct (Z.ltb_spec (E x) old); [by apply dark_edge|].
      destruct (decide (E x = 0)) as [E0|E0]; [replace old with 0 by lia; by apply dark_edge|].
      do 4 right; left. exists (emission_entry x (E x) (shape x)).
      split; [apply elem_of_app; right; unfold check_incs; destruct (Z.eqb_spec (E x) 0); [done|by left]|].
      split; [done|]. split; [apply toward_all|]. by right. }
    rewrite Hne in Hl, Hl' by done. unfold edge_settled.
    destruct (Hed p l d l' Hl Hl') as [[?|?]%elem_of_cons|[[?|?]%elem_of_cons|[?|[?|[?|?]]]]];
      [done|by left|done|by right; left|by do 2 right; left|do 3 right; left; by eapply will_have_more
      |do 4 right; left; by eapply covered_mono|do 5 right; by eapply pulls_mono].
  - intros p l Hl Hpos. destruct (decide (p = x)) as [->|Hp].
    { left. rewrite Hx' in Hl. injection Hl as <-. destruct (Z.ltb_spec (E x) old); lia. }
    rewrite Hne in Hl by done. destruct (Hsu p l Hl Hpos) as [?|[[?|?]%elem_of_cons|[(d&l'&Hl'&Ho&Hwh)|[(d&l'&Hin'&Hl'&Hlt&Hlean)|?]]]];
      [by left|done|by right; left| | |do 4 right; by eapply doomed_mono].
    + destruct (decide (dir_step d p = x)) as [Eq|Hq].
      * rewrite Eq in *. rewrite Hx in Hl'. injection Hl' as <-. destruct (Z.ltb_spec (E x) old) as [Hlt|Hge].
        -- destruct Hwh as [Hv|[Hv HvE]].
           ++ do 4 right. exists d, (check_dec x old). split; [apply elem_of_app; right; by left|]. split; [done|].
              split; [apply toward_blank_all|]. cbn. destruct (Z.ltb_spec (E x) old); [|lia]. pose proof (att_pos p). lia.
           ++ do 2 right; left. exists d, 0. rewrite Eq. split; [done|]. split; [done|]. right. split; [by eapply pending_mono|done].
        -- do 2 right; left. exists d, old. rewrite Eq. split; [done|]. split; [done|]. by eapply will_have_more.
      * do 2 right; left. exists d, l'. rewrite Hne by done. split; [done|]. split; [done|]. by eapply will_have_more.
    + apply elem_of_cons in Hin' as [Eq|Hin'].
      * rewrite Eq in *. rewrite Hx in Hl'. injection Hl' as <-. do 4 right. exists d, (check_dec x old).
        split; [apply elem_of_app; right; by left|]. split; [done|]. split; [apply toward_blank_all|]. cbn.
        destruct (Z.ltb_spec (E x) old); lia.
      * destruct (decide (dir_step d p = x)) as [Eq|Hq].
        -- rewrite Eq in *. rewrite Hx in Hl'. injection Hl' as <-. do 4 right. exists d, (check_dec x old).
           split; [apply elem_of_app; right; by left|]. split; [done|]. split; [apply toward_blank_all|]. cbn.
           destruct (Z.ltb_spec (E x) old); lia.
        -- do 3 right; left. exists d, l'. rewrite Hne by done. done.
Qed.

(** ** One decrease *)

Section decrease_step.
Context (lv lv' : Levels) (e : Entry) (decs incs : list Entry).
Hypothesis Hinv : light_inv lv [] (e :: decs) incs.
Hypothesis Hwritten : written (all_of (dec_writes lv e)) lv lv'.
Let decs' := decs ++ all_of (dec_decs lv e).
Let incs' := incs ++ all_of (dec_incs lv e).

Lemma dec_clear_some d l :
  dec_clear lv e d = Some l → toward e d = true ∧ lv (dir_step d (e_pos e)) = Some l ∧ 0 < l < e_level e.
Proof.
  unfold dec_clear. destruct (toward e d); [|done]. destruct (lv _) as [old|] eqn:Hl; [|done].
  pose proof (li_range _ _ _ _ Hinv _ _ Hl). destruct (Z.eqb_spec old 0), (Z.ltb_spec old (e_level e)); try done.
  intros [= ->]. cbn. split; [done|]. split; [done|lia].
Qed.

Lemma dec_cases p :
  (∃ d l, p = dir_step d (e_pos e) ∧ dec_clear lv e d = Some l ∧ lv p = Some l ∧ lv' p = Some 0) ∨
  (lv' p = lv p ∧ ∀ d, p = dir_step d (e_pos e) → dec_clear lv e d = None).
Proof.
  destruct (Hwritten p) as [(v&Hin&Hv)|[Hn Hv]].
  - left. apply elem_of_all_of in Hin as [d Hd]. unfold dec_writes in Hd. destruct (dec_clear lv e d) as [l|] eqn:Hc; [|set_solver].
    apply list_elem_of_singleton in Hd. injection Hd as -> ->. exists d, l. split; [done|]. split; [done|]. split; [by apply dec_clear_some|done].
  - right. split; [done|]. intros d ->. destruct (dec_clear lv e d) as [l|] eqn:Hc; [|done]. exfalso. apply Hn.
    apply list_elem_of_fmap. exists (dir_step d (e_pos e), 0). split; [done|]. apply elem_of_all_of. exists d.
    unfold dec_writes. rewrite Hc. by left.
Qed.

(** A block that still has light was not cleared, and the entry's own block has none. *)
Lemma dec_lit p l : lv' p = Some l → 0 < l →
  lv p = Some l ∧ ∀ d, p = dir_step d (e_pos e) → dec_clear lv e d = None.
Proof. intros Hl Hpos. destruct (dec_cases p) as [(d&l'&_&_&_&H0)|[He ?]]; [rewrite H0 in Hl; injection Hl; lia|by rewrite <- He]. Qed.

Lemma dec_dark : 1 < e_level e → lv (e_pos e) = Some 0.
Proof. apply (li_decs _ _ _ _ Hinv e). by left. Qed.

(** The neighbour a cleared block was reached from has no light. *)
Lemma dec_not_back p l d dq :
  lv p = Some l → 0 < l → dec_clear lv e dq ≠ None → dir_step d p = dir_step dq (e_pos e) → opposite d ≠ opposite dq.
Proof.
  intros Hl Hpos Hc Hq Ho. destruct (dec_clear lv e dq) as [lq|] eqn:E0; [|done]. apply dec_clear_some in E0 as (_&_&Hlt).
  assert (p = e_pos e) as ->.
  { rewrite <- (dir_step_opposite d p) by (by eapply li_i32).
    destruct (li_decs _ _ _ _ Hinv e) as ([le Hle]&_); [by left|].
    rewrite <- (dir_step_opposite dq (e_pos e)) by (by eapply li_i32). by rewrite Ho, Hq. }
  rewrite dec_dark in Hl by lia. injection Hl. lia.
Qed.

Lemma dec_pushes d l : dec_clear lv e d = Some l → E (dir_step d (e_pos e)) < l →
  blank_entry (dir_step d (e_pos e)) l (Z.lxor ALL (mask (opposite d))) ∈ decs'.
Proof.
  intros Hc Hlt. apply elem_of_app; right. apply elem_of_all_of. exists d. unfold dec_decs. rewrite Hc.
  destruct (Z.ltb_spec (E (dir_step d (e_pos e))) l); [by left|lia].
Qed.

Lemma dec_emits d l : dec_clear lv e d = Some l → E (dir_step d (e_pos e)) ≠ 0 → pending_emission incs' (dir_step d (e_pos e)).
Proof.
  intros Hc Hz. apply dec_clear_some in Hc as (Ht&Hl&Hlt).
  exists (emission_entry (dir_step d (e_pos e)) (E (dir_step d (e_pos e))) (shape (dir_step d (e_pos e)))). split; [|done].
  apply elem_of_app; right. apply elem_of_all_of. exists d. unfold dec_incs. rewrite Ht, Hl.
  destruct (Z.eqb_spec l 0), (Z.ltb_spec l (e_level e)), (Z.eqb_spec (E (dir_step d (e_pos e))) 0); (lia || done || by left).
Qed.

(** What is left of a promised level, when the block may have been cleared. *)
Lemma dec_will_have q lq v :
  lv q = Some lq → will_have incs q lq v →
  (∃ l', lv' q = Some l' ∧ will_have incs' q l' v) ∨
  (∃ dq, q = dir_step dq (e_pos e) ∧ dec_clear lv e dq = Some lq ∧ E q < lq ∧ v ≤ lq ∧ lv' q = Some 0).
Proof.
  intros Hl Hw. pose proof (sub_app_l incs (all_of (dec_incs lv e))) as Hs.
  destruct (dec_cases q) as [(dq&l0&Hq&Hc&Hl0&H0)|[He _]].
  - rewrite Hl in Hl0. injection Hl0 as <-. destruct Hw as [Hv|[Hp Hv]].
    + destruct (decide (E q < lq)) as [Hlt|Hge]; [right; by exists dq|left]. exists 0. split; [done|]. right.
      pose proof (dec_clear_some _ _ Hc) as (_&_&?). rewrite Hq in *. split; [by apply (dec_emits dq lq); [|lia]|lia].
    + left. exists 0. split; [done|]. right. split; [by eapply pending_mono|done].
  - left. exists lq. rewrite He. split; [done|]. by eapply will_have_more.
Qed.

Lemma dec_visited p l d :
  lv' p = Some l → 0 < l → p = dir_step d (e_pos e) → toward e d = true →
  e_level e ≤ l ∧ covered incs' p l (opposite d).
Proof.
  intros Hl Hpos Hp Ht. destruct (dec_lit p l Hl Hpos) as [Hlp Hn]. specialize (Hn d Hp). unfold dec_clear in Hn. rewrite Ht, <- Hp, Hlp in Hn.
  destruct (Z.eqb_spec l 0); [lia|]. destruct (Z.ltb_spec l (e_level e)); [done|]. split; [done|].
  exists (back_entry p l d). split; [|split; [done|split; [by apply toward_only|by left]]].
  apply elem_of_app; right. apply elem_of_all_of. exists d. unfold dec_incs. rewrite Ht, <- Hp, Hlp.
  destruct (Z.eqb_spec l 0), (Z.ltb_spec l (e_level e)); (lia || by left).
Qed.

Lemma dec_step : light_inv lv' [] decs' incs'.
Proof.
  pose proof (sub_app_l incs (all_of (dec_incs lv e))) as Hsi. fold incs' in Hsi.
  pose proof (sub_app_l decs (all_of (dec_decs lv e))) as Hsd. fold decs' in Hsd.
  assert (Hsome : ∀ p, is_Some (lv p) → is_Some (lv' p)).
  { intros p Hp. destruct (dec_cases p) as [(d&l&_&_&_&->)|[-> _]]; done. }
  assert (Hz : ∀ p, lv p = Some 0 → lv' p = Some 0).
  { intros p Hp. destruct (dec_cases p) as [(d&l&_&_&_&->)|[-> _]]; done. }
  assert (Hr : ∀ p l, lv' p = Some l → block_i32 p ∧ 0 ≤ l ≤ 15).
  { intros p l Hl. destruct (dec_cases p) as [(d&l0&_&_&H1&H0)|[He _]].
    - rewrite H0 in Hl. injection Hl as <-. split; [by eapply li_i32|lia].
    - rewrite He in Hl. split; [by eapply li_i32|by eapply li_range]. }
  split.
  - intros p l Hl. exact (proj1 (Hr p l Hl)).
  - intros p l Hl. exact (proj2 (Hr p l Hl)).
  - intros x [Hx|Hx]%elem_of_app.
    + destruct (li_incs _ _ _ _ Hinv x Hx) as (?&?). split; [by apply Hsome|done].
    + apply elem_of_all_of in Hx as [d Hd]. unfold dec_incs in Hd. destruct (toward e d); [|by apply not_elem_of_nil in Hd].
      destruct (lv (dir_step d (e_pos e))) as [old|] eqn:Hl; [|by apply not_elem_of_nil in Hd]. pose proof (li_range _ _ _ _ Hinv _ _ Hl).
      pose proof (E_range (dir_step d (e_pos e))).
      destruct (Z.eqb_spec old 0); [by apply not_elem_of_nil in Hd|].
      destruct (Z.ltb_spec old (e_level e)); [destruct (Z.eqb_spec (E (dir_step d (e_pos e))) 0); [by apply not_elem_of_nil in Hd|]|];
        apply list_elem_of_singleton in Hd as ->; cbn; (split; [apply Hsome; by rewrite Hl|]); (split; [lia|done]).
  - intros x [Hx|Hx]%elem_of_app.
    + destruct (li_decs _ _ _ _ Hinv x) as (?&?&?); [by right|]. split; [by apply Hsome|]. split; [done|]. auto.
    + apply elem_of_all_of in Hx as [d Hd]. unfold dec_decs in Hd. destruct (dec_clear lv e d) as [l|] eqn:Hc; [|by apply not_elem_of_nil in Hd].
      destruct (_ <? _); [|by apply not_elem_of_nil in Hd]. apply list_elem_of_singleton in Hd as ->. cbn.
      pose proof (dec_clear_some _ _ Hc) as (_&Hl&?). pose proof (li_range _ _ _ _ Hinv _ _ Hl).
      split; [apply Hsome; by rewrite Hl|]. split; [lia|]. intros _.
      destruct (dec_cases (dir_step d (e_pos e))) as [(d'&l'&_&_&_&->)|[_ Hn]]; [done|]. specialize (Hn d eq_refl). congruence.
  - intros p l Hl. right. destruct (dec_cases p) as [(d&l0&Hp&Hc&_&H0)|[He _]].
    + rewrite H0 in Hl. injection Hl as <-. destruct (decide (E p = 0)); [left; lia|right]. split; [|done].
      rewrite Hp in *. by apply (dec_emits d l0).
    + rewrite He in Hl. destruct (li_emission _ _ _ _ Hinv p l Hl) as [?|?]; [set_solver|]. by eapply will_have_more.
  - intros p l d l' Hl Hl'. pose proof (proj2 (Hr _ _ Hl')) as Hl'r. pose proof (proj2 (Hr _ _ Hl)) as Hlr.
    destruct (decide (l = 0)) as [->|]; [apply dark_edge; lia|].
    destruct (dec_lit p l Hl ltac:(lia)) as [Hlp _]. unfold edge_settled.
    assert (is_Some (lv (dir_step d p))) as [lq Hlq].
    { destruct (dec_cases (dir_step d p)) as [(?&?&_&_&->&_)|[<- _]]; [done|by rewrite Hl']. }
    destruct (li_edges _ _ _ _ Hinv p l d lq Hlp Hlq) as [?|[?|[?|[Hw|[?|(x&Hx&Hq&Ht)]]]]]; [set_solver|set_solver|by do 2 right; left| | |].
    + destruct (dec_will_have _ _ _ Hlq Hw) as [(l2&Hl2&?)|(dq&Hq&Hc&Hlt&_&H0)].
      * rewrite Hl' in Hl2. injection Hl2 as <-. by do 3 right; left.
      * do 5 right. rewrite Hq in *. exists (blank_entry (dir_step dq (e_pos e)) lq (Z.lxor ALL (mask (opposite dq)))).
        split; [by apply dec_pushes|]. split; [done|].
        apply (toward_but dq _ (Z.lxor ALL (mask (opposite dq)))); [done|done|].
        apply (dec_not_back p l d dq); [done|lia|by rewrite Hc|done].
    + do 4 right; left. by eapply covered_mono.
    + apply elem_of_cons in Hx as [->|Hx]; [|do 5 right; exists x; by split; [apply Hsd|]].
      do 4 right; left. destruct (dec_visited p l (opposite d) Hl ltac:(lia)) as [_ Hc]; [|done|by rewrite opposite_involutive in Hc].
      rewrite Hq. symmetry. apply dir_step_opposite. by eapply li_i32.
  - intros p l Hl Hpos. destruct (dec_lit p l Hl Hpos) as [Hlp _].
    destruct (li_support _ _ _ _ Hinv p l Hlp Hpos) as [?|[?|[(d&lq&Hlq&Ho&Hw)|[(d&?&?&_)|(d&x&Hx&Hq&Ht&Hlt)]]]];
      [by left|set_solver| |set_solver|].
    + destruct (dec_will_have _ _ _ Hlq Hw) as [(l2&Hl2&?)|(dq&Hq&Hc&Hlt&Hv&H0)].
      * do 2 right; left. by exists d, l2.
      * do 4 right. exists d, (blank_entry (dir_step dq (e_pos e)) lq (Z.lxor ALL (mask (opposite dq)))).
        rewrite Hq in Hlt. split; [by apply dec_pushes|]. split; [done|]. split.
        -- apply (toward_but dq _ (Z.lxor ALL (mask (opposite dq)))); [done|done|].
           apply (dec_not_back p l d dq); [done|lia|by rewrite Hc|done].
        -- cbn. pose proof (att_pos p). lia.
    + apply elem_of_cons in Hx as [->|Hx].
      * destruct (dec_visited p l (opposite d) Hl Hpos) as [? _]; [|done|lia].
        rewrite Hq. symmetry. apply dir_step_opposite. by eapply li_i32.
      * do 4 right. exists d, x. by split; [apply Hsd|].
Qed.
End decrease_step.

(** ** One increase *)

Section increase_step.
Context (lv lv' : Levels) (e : Entry) (incs : list Entry) (old : Z).
Hypothesis Hinv : light_inv lv [] [] (e :: incs).
Hypothesis Hold : lv (e_pos e) = Some old.
Hypothesis Hwritten : written (inc_all_writes lv e old) lv lv'.
Let L := inc_level e old.
Let incs' := incs ++ inc_all_incs lv e old.

Lemma inc_own_spec : (e_from_emission e = true ∧ old < e_level e ∧ L = e_level e ∧ inc_own e old = [(e_pos e, e_level e)]) ∨
  ((e_from_emission e = true → e_level e ≤ old) ∧ L = old ∧ inc_own e old = []).
Proof.
  unfold L, inc_level, inc_own. destruct (e_from_emission e); cbn [andb]; [|by right].
  destruct (Z.ltb_spec old (e_level e)); [by left|by right].
Qed.

Lemma inc_pos_i32 : block_i32 (e_pos e).
Proof. by eapply li_i32. Qed.

Lemma inc_raise_some d new :
  inc_raise lv e L d = Some new → ∃ lq, lv (dir_step d (e_pos e)) = Some lq ∧ 0 ≤ lq < new ∧
    new = L - att (dir_step d (e_pos e)) ∧ occ (e_pos e) d = false ∧ toward e d = true.
Proof.
  unfold inc_raise, saturating_sub. destruct (toward e d); [|done]. destruct (lv (dir_step d (e_pos e))) as [lq|] eqn:Hl; [|done]. pose proof (li_range _ _ _ _ Hinv _ _ Hl).
  destruct (Z.leb_spec (Z.max 0 (L - 1)) lq); [done|]. destruct (Z.leb_spec (Z.max 0 (L - att (dir_step d (e_pos e)))) lq); [done|].
  destruct (occ (e_pos e) d); [done|]. intros [= <-]. exists lq. split_and!; (done || lia).
Qed.

(** Why a neighbour that is visited is not raised. *)
Lemma inc_raise_none d lq :
  inc_raise lv e L d = None → toward e d = true → lv (dir_step d (e_pos e)) = Some lq →
  occ (e_pos e) d = true ∨ L - att (dir_step d (e_pos e)) ≤ lq.
Proof.
  intros Hn Ht Hl. unfold inc_raise, saturating_sub in Hn. rewrite Ht, Hl in Hn. pose proof (att_pos (dir_step d (e_pos e))).
  destruct (Z.leb_spec (Z.max 0 (L - 1)) lq); [right; lia|]. destruct (Z.leb_spec (Z.max 0 (L - att (dir_step d (e_pos e)))) lq); [right; lia|].
  destruct (occ (e_pos e) d); [by left|done].
Qed.

Lemma inc_cases p :
  (p = e_pos e ∧ lv' p = Some L) ∨
  (p ≠ e_pos e ∧ ∃ d new, L = e_level e ∧ p = dir_step d (e_pos e) ∧ inc_raise lv e L d = Some new ∧ lv' p = Some new) ∨
  (p ≠ e_pos e ∧ lv' p = lv p ∧ (L = e_level e → ∀ d, p = dir_step d (e_pos e) → inc_raise lv e L d = None)).
Proof.
  destruct (Hwritten p) as [(v&Hin&Hv)|[Hn Hv]].
  - unfold inc_all_writes in Hin. fold L in Hin. apply elem_of_app in Hin as [Hin|Hin].
    + left. destruct inc_own_spec as [(_&_&->&Ho)|(_&_&Ho)]; rewrite Ho in Hin; [|by apply not_elem_of_nil in Hin].
      apply list_elem_of_singleton in Hin. by injection Hin as -> ->.
    + destruct (Z.eqb_spec L (e_level e)); [|by apply not_elem_of_nil in Hin]. apply elem_of_all_of in Hin as [d Hd].
      unfold inc_writes in Hd. destruct (inc_raise lv e L d) as [new|] eqn:Hr; [|by apply not_elem_of_nil in Hd].
      apply list_elem_of_singleton in Hd. injection Hd as -> ->. right; left. split; [apply dir_step_ne, inc_pos_i32|]. by exists d, new.
  - unfold inc_all_writes in Hn. fold L in Hn. destruct (decide (p = e_pos e)) as [->|Hp].
    + left. split; [done|]. destruct inc_own_spec as [(_&_&_&Ho)|(_&->&_)]; [|congruence].
      exfalso. apply Hn. rewrite Ho. by left.
    + right; right. split; [done|]. split; [done|]. intros HL d ->. destruct (inc_raise lv e L d) as [new|] eqn:Hr; [|done].
      exfalso. apply Hn. rewrite fmap_app. apply elem_of_app; right. destruct (Z.eqb_spec L (e_level e)); [|done].
      apply list_elem_of_fmap. exists (dir_step d (e_pos e), new). split; [done|]. apply elem_of_all_of. exists d.
      unfold inc_writes. rewrite Hr. by left.
Qed.

Lemma inc_own_level : old ≤ L.
Proof. destruct inc_own_spec as [(_&?&->&_)|(_&->&_)]; lia. Qed.

Lemma inc_mono p l : lv p = Some l → ∃ l', lv' p = Some l' ∧ l ≤ l'.
Proof.
  intros Hl. destruct (inc_cases p) as [[-> ->]|[(_&d&new&_&->&Hr&->)|(_&->&_)]]; [| |by exists l].
  - exists L. split; [done|]. rewrite Hold in Hl. injection Hl as <-. apply inc_own_level.
  - exists new. split; [done|]. apply inc_raise_some in Hr as (lq&Hlq&?&_). rewrite Hl in Hlq. injection Hlq as ->. lia.
Qed.

Lemma inc_back p l' : lv' p = Some l' → is_Some (lv p).
Proof.
  intros Hl. destruct (inc_cases p) as [[-> _]|[(_&d&new&_&->&Hr&_)|(_&He&_)]]; [done| |by rewrite <- He].
  by apply inc_raise_some in Hr as (lq&->&_).
Qed.

(** The entry's emission is in the levels once it is consumed. *)
Lemma inc_emission_done : e_from_emission e = true → E (e_pos e) ≤ L.
Proof.
  intros He. destruct (li_incs _ _ _ _ Hinv e) as (_&_&_&Hem); [by left|]. destruct (Hem He) as [<- _].
  destruct inc_own_spec as [(_&_&->&_)|(Hle&->&_)]; [lia|auto].
Qed.

Lemma inc_will_have q lq l' v : lv q = Some lq → lv' q = Some l' → will_have (e :: incs) q lq v → will_have incs' q l' v.
Proof.
  intros Hq Hq' Hw. destruct (inc_mono q lq Hq) as (l2&Hl2&Hle). rewrite Hq' in Hl2. injection Hl2 as <-.
  destruct Hw as [?|[(x&Hx&Hxq&Hem) Hv]]; [left; lia|]. apply elem_of_cons in Hx as [->|Hx].
  - left. pose proof (inc_emission_done Hem). destruct (inc_cases q) as [[_ Hq2]|[[? _]|[? _]]]; [|congruence..].
    rewrite Hq' in Hq2. injection Hq2 as ->. rewrite Hxq in *. lia.
  - right. split; [|done]. exists x. split; [apply elem_of_app; by left|done].
Qed.

Lemma inc_step : light_inv lv' [] [] incs'.
Proof.
  assert (Hent := li_incs _ _ _ _ Hinv e ltac:(by left)). destruct Hent as (_&Hlev&_&Hem).
  assert (HLr : 0 ≤ L ≤ 15).
  { pose proof (li_range _ _ _ _ Hinv _ _ Hold). destruct inc_own_spec as [(_&_&->&_)|(_&->&_)]; lia. }
  assert (Hr : ∀ p l, lv' p = Some l → block_i32 p ∧ 0 ≤ l ≤ 15).
  { intros p l Hl. destruct (inc_cases p) as [[-> H0]|[(_&d&new&_&->&Hn&H0)|(_&He&_)]].
    - rewrite H0 in Hl. injection Hl as <-. split; [apply inc_pos_i32|done].
    - rewrite H0 in Hl. injection Hl as <-. split; [apply dir_step_i32|]. apply inc_raise_some in Hn as (lq&_&?&->&_).
      pose proof (att_pos (dir_step d (e_pos e))). lia.
    - rewrite He in Hl. split; [by eapply li_i32|by eapply li_range]. }
  split.
  - intros p l Hl. exact (proj1 (Hr p l Hl)).
  - intros p l Hl. exact (proj2 (Hr p l Hl)).
  - intros x [Hx|Hx]%elem_of_app.
    + destruct (li_incs _ _ _ _ Hinv x) as ([lx Hlx]&?); [by right|]. split; [|done]. destruct (inc_mono _ _ Hlx) as (l2&->&_). done.
    + unfold inc_all_incs in Hx. fold L in Hx. destruct (Z.eqb_spec L (e_level e)); [|by apply not_elem_of_nil in Hx].
      apply elem_of_all_of in Hx as [d Hd]. unfold inc_incs in Hd. destruct (inc_raise lv e L d) as [new|] eqn:Hn; [|by apply not_elem_of_nil in Hd].
      destruct (Z.ltb_spec 1 new); [|by apply not_elem_of_nil in Hd]. apply list_elem_of_singleton in Hd as ->. cbn.
      apply inc_raise_some in Hn as (lq&Hlq&?&->&_). destruct (inc_mono _ _ Hlq) as (l2&->&_). split; [done|].
      pose proof (att_pos (dir_step d (e_pos e))). split; [lia|done].
  - intros x Hx. by apply not_elem_of_nil in Hx.
  - intros p l Hl. right. destruct (inc_back p l Hl) as [lp Hlp].
    destruct (li_emission _ _ _ _ Hinv p lp Hlp) as [Hx|Hw]; [by apply not_elem_of_nil in Hx|]. by eapply inc_will_have.
  - intros p l d l' Hl Hl'. destruct (inc_back p l Hl) as [lp Hlp], (inc_back _ l' Hl') as [lq Hlq].
    pose proof (proj2 (Hr _ _ Hl')) as Hl'r. unfold edge_settled.
    assert (Hq' : lq ≤ l') by (destruct (inc_mono _ _ Hlq) as (l2&Hl2&?); congruence).
    destruct (inc_cases p) as [[-> Hp']|[(Hne&dp&new&HL&->&Hn&Hp')|(Hne&Hp'&Hnone)]].
    + rewrite Hp' in Hl. injection Hl as <-. destruct (decide (L = e_level e ∧ toward e d = true)) as [[HL Ht]|Hno].
      * destruct (inc_raise lv e L d) as [new|] eqn:Hn.
        -- do 3 right; left; left. destruct (inc_cases (dir_step d (e_pos e))) as [[E0 _]|[(_&d'&new'&_&Ed&Hn'&Hq2)|(_&_&Hnone)]].
           ++ exfalso. by apply (dir_step_ne d (e_pos e) inc_pos_i32).
           ++ apply dir_step_inj in Ed as <-. rewrite Hl' in Hq2. injection Hq2 as ->. apply inc_raise_some in Hn' as (?&_&_&->&_). lia.
           ++ specialize (Hnone HL d eq_refl). congruence.
        -- destruct (inc_raise_none d lq Hn Ht Hlq) as [?|?]; [by do 2 right; left|]. do 3 right; left; left. lia.
      * assert (HLold : L = old).
        { destruct inc_own_spec as [(Hfe&_&HL&_)|(_&?&_)]; [|done]. exfalso. apply Hno. split; [done|].
          destruct (Hem Hfe) as [_ Hd]. unfold toward. rewrite Hd. by destruct d. }
        rewrite Hold in Hlp. injection Hlp as <-. rewrite HLold in *.
        destruct (li_edges _ _ _ _ Hinv _ old d lq Hold Hlq) as [Hx|[Hx|[?|[Hw|[(x&Hx&Hxp&Hxt&Hxl)|(x&Hx&_)]]]]];
          [by apply not_elem_of_nil in Hx|by apply not_elem_of_nil in Hx|by do 2 right; left| | |by apply not_elem_of_nil in Hx].
        -- do 3 right; left. by eapply inc_will_have.
        -- apply elem_of_cons in Hx as [->|Hx].
           ++ exfalso. apply Hno. split; [|done]. destruct Hxl as [?|[Hfe ?]]; [done|].
              destruct inc_own_spec as [(_&?&?&_)|(Hle&_&_)]; [lia|]. specialize (Hle Hfe). lia.
           ++ do 4 right; left. exists x. split; [apply elem_of_app; by left|done].
    + rewrite Hp' in Hl. injection Hl as <-. pose proof (inc_raise_some _ _ Hn) as (l0&_&?&Hnew&_&_).
      pose proof (att_pos (dir_step dp (e_pos e))). pose proof (att_pos (dir_step d (dir_step dp (e_pos e)))).
      destruct (decide (new ≤ 1)); [do 3 right; left; left; lia|].
      destruct (decide (d = opposite dp)) as [->|Hd].
      * do 3 right; left; left. rewrite dir_step_opposite in * by apply inc_pos_i32.
        destruct (inc_cases (e_pos e)) as [[_ Hq2]|[[? _]|[? _]]]; [|done..]. rewrite Hl' in Hq2. injection Hq2 as ->. lia.
      * do 4 right; left. exists (on_entry (dir_step dp (e_pos e)) new dp). split.
        -- apply elem_of_app; right. unfold inc_all_incs. fold L. destruct (Z.eqb_spec L (e_level e)); [|done].
           apply elem_of_all_of. exists dp. unfold inc_incs. rewrite Hn. destruct (Z.ltb_spec 1 new); [by left|lia].
        -- split; [done|]. split; [|by left]. by apply (toward_but dp _ (Z.lxor ALL (mask (opposite dp)))).
    + rewrite Hp' in Hl. rewrite Hl in Hlp. injection Hlp as <-.
      destruct (li_edges _ _ _ _ Hinv p l d lq Hl Hlq) as [Hx|[Hx|[?|[Hw|[(x&Hx&Hxp&Hxt&Hxl)|(x&Hx&_)]]]]];
        [by apply not_elem_of_nil in Hx|by apply not_elem_of_nil in Hx|by do 2 right; left| | |by apply not_elem_of_nil in Hx].
      * do 3 right; left. by eapply inc_will_have.
      * apply elem_of_cons in Hx as [->|Hx]; [congruence|].
        do 4 right; left. exists x. split; [apply elem_of_app; by left|done].
  - intros p l Hl Hpos. destruct (inc_cases p) as [[-> Hp']|[(Hne&dp&new&HL&->&Hn&Hp')|(Hne&Hp'&_)]].
    + rewrite Hp' in Hl. injection Hl as <-. destruct inc_own_spec as [(Hfe&_&HL&_)|(_&HL&_)].
      * left. destruct (Hem Hfe) as [<- _]. lia.
      * rewrite HL in *. destruct (li_support _ _ _ _ Hinv _ old Hold Hpos) as [?|[Hx|[(d&lq&Hlq&Ho&Hw)|[(d&?&Hx&_)|(d&x&Hx&_)]]]];
          [by left|by apply not_elem_of_nil in Hx| |by apply not_elem_of_nil in Hx..].
        do 2 right; left. destruct (inc_mono _ _ Hlq) as (l2&Hl2&_). exists d, l2. split; [done|]. split; [done|]. by eapply inc_will_have.
    + rewrite Hp' in Hl. injection Hl as <-. apply inc_raise_some in Hn as (lq&_&?&Hnew&Ho&_). do 2 right; left.
      exists (opposite dp), L. rewrite dir_step_opposite, opposite_involutive by apply inc_pos_i32.
      destruct (inc_cases (e_pos e)) as [[_ Hq2]|[[? _]|[? _]]]; [|done..]. split; [done|]. split; [done|]. left. lia.
    + rewrite Hp' in Hl. destruct (li_support _ _ _ _ Hinv p l Hl Hpos) as [?|[Hx|[(d&lq&Hlq&Ho&Hw)|[(d&?&Hx&_)|(d&x&Hx&_)]]]];
        [by left|by apply not_elem_of_nil in Hx| |by apply not_elem_of_nil in Hx..].
      do 2 right; left. destruct (inc_mono _ _ Hlq) as (l2&Hl2&_). exists d, l2. split; [done|]. split; [done|]. by eapply inc_will_have.
Qed.
End increase_step.

End theory.
