(* ===== verification/BlockLightPlan.v ===== *)
(** * The block-light engine: plans and work units

    The plans of src/world/lighting/block.rs are the contributions of the
    propagation theory, and admitting and applying a plan performs its writes
    and appends its entries, or fails with the work still queued. *)

From stdpp Require Import list sets.
From S2P Require Import Prelude.
From S2P Require Import View.
From S2P Require Import LightTypes.
From S2P Require Import LightTable.
From S2P Require Import LightQueue.
From S2P Require Import LightStore.
From S2P Require Import BlockLight.
From S2P Require Import BlockLightInv.
Local Open Scope Z_scope.

#[export] Instance block_i32_dec p : Decision (block_i32 p).
Proof. unfold block_i32, in_i. apply _. Defined.

Definition no_material : LightMaterial :=
  {| emission := 0; dampening := 0; can_occlude := false; use_shape_for_light_occlusion := false; faces := [] |}.

(** ** The world seen by the theory *)
Section world.
Context {I : Type} `{LightInput I} (src : I).

Definition mat_at (p : LightBlock) : LightMaterial := default no_material (material (registry src) (state_at src p)).
(** The emission of a block, with the enabled columns [en]. *)
Definition emit_at (en : ChunkAddress → bool) (p : LightBlock) : Z := if en (block_column p) then emission (mat_at p) else 0.
Definition att_at (p : LightBlock) : Z := Z.max (dampening (mat_at p)) 1.
Definition face_at (p : LightBlock) (d : LightDirection) : Z :=
  if empty_shape (mat_at p) then 0 else nth (Z.to_nat (direction_index d)) (faces (mat_at p)) 0.
(** The face pair between a block, taken as [empty] or as it is, and its
    neighbour occludes. *)
Definition occ_as (empty : bool) (p : LightBlock) (d : LightDirection) : bool :=
  match face_occludes (registry src) (if empty then 0 else face_at p d) (face_at (dir_step d p) (opposite d)) with
  | Ok (Some b) => b
  | _ => false
  end.
Definition occ_at (p : LightBlock) (d : LightDirection) : bool := occ_as false p d.
Definition shape_at (p : LightBlock) : bool := empty_shape (mat_at p).

Hypothesis Hsrc : source_ok src.

Lemma mat_at_material p : material (registry src) (state_at src p) = Some (mat_at p).
Proof. unfold mat_at. by destruct (so_state src Hsrc p) as [_ [m ->]]. Qed.
Lemma material_at_ok p : material_at src p = Ok (mat_at p).
Proof. unfold material_at. by rewrite mat_at_material. Qed.
Lemma mat_at_ok p : material_ok (face_count (registry src)) (mat_at p).
Proof.
  pose proof (mat_at_material p) as Hm. unfold material in Hm.
  by apply (Forall_lookup_1 _ _ _ _ (lo_materials _ (so_registry src Hsrc))) in Hm.
Qed.
Lemma emit_at_range en p : 0 ≤ emit_at en p ≤ 15.
Proof. unfold emit_at. pose proof (mo_emission _ _ (mat_at_ok p)). case_match; lia. Qed.
Lemma att_at_pos p : 1 ≤ att_at p.
Proof. unfold att_at. lia. Qed.

Lemma direction_index_lt d : (Z.to_nat (direction_index d) < 6)%nat.
Proof. destruct d; cbn; lia. Qed.
Lemma face_of_ok p d : face_of (mat_at p) d = Ok (face_at p d).
Proof.
  unfold face_of, face_at. destruct (empty_shape (mat_at p)); [done|].
  destruct (mo_faces _ _ (mat_at_ok p)) as [Hl _].
  destruct (lookup_lt_ok (faces (mat_at p)) (Z.to_nat (direction_index d)) ltac:(rewrite Hl; apply direction_index_lt)) as [f Hf].
  by rewrite nth_lookup, Hf.
Qed.
Lemma face_at_range p d : 0 ≤ face_at p d < face_count (registry src).
Proof.
  unfold face_at. pose proof (lo_count _ (so_registry src Hsrc)). destruct (empty_shape (mat_at p)); [lia|].
  destruct (mo_faces _ _ (mat_at_ok p)) as [Hl Hf].
  destruct (lookup_lt_ok (faces (mat_at p)) (Z.to_nat (direction_index d)) ltac:(rewrite Hl; apply direction_index_lt)) as [f Hfl].
  rewrite nth_lookup, Hfl. cbn. by apply (Forall_lookup_1 _ _ _ _ Hf) in Hfl.
Qed.
Lemma occ_as_ok (empty : bool) p d :
  face_occludes (registry src) (if empty then 0 else face_at p d) (face_at (dir_step d p) (opposite d)) = Ok (Some (occ_as empty p d)).
Proof.
  unfold occ_as. destruct (face_occludes_total (registry src) (if empty then 0 else face_at p d) (face_at (dir_step d p) (opposite d)) (so_registry src Hsrc))
    as [b ->]; [|apply face_at_range|done]. pose proof (face_at_range p d). destruct empty; [lia|done].
Qed.
Lemma shape_face p d : shape_at p = true → face_at p d = 0.
Proof. unfold shape_at, face_at. by intros ->. Qed.
(** An entry that says rightly that its block is empty. *)
Lemma occ_as_shape (empty : bool) p d : (empty = true → shape_at p = true) → occ_as empty p d = occ_at p d.
Proof. intros Hs. unfold occ_at, occ_as. destruct empty; [|done]. by rewrite (shape_face p d) by auto. Qed.
End world.

(** ** Plans *)

Definition plan_app (p : Plan) (ws : list (LightBlock * Z)) (ds is_ : list Entry) : Plan :=
  {| writes := writes p ++ ws; plan_decreases := plan_decreases p ++ ds; plan_increases := plan_increases p ++ is_ |}.

Lemma plan_write_ok p pos l : (length (writes p) < 7)%nat → plan_write p pos l = Ok (plan_app p [(pos, l)] [] []).
Proof. intros Hl. unfold plan_write, plan_app. rewrite !app_nil_r. by destruct (Nat.ltb_spec (length (writes p)) 7); [|lia]. Qed.
Lemma plan_decrease_ok p e : (length (plan_decreases p) < 6)%nat → plan_decrease p e = Ok (plan_app p [] [e] []).
Proof. intros Hl. unfold plan_decrease, plan_app. rewrite !app_nil_r. by destruct (Nat.ltb_spec (length (plan_decreases p)) 6); [|lia]. Qed.
Lemma plan_increase_ok p e : (length (plan_increases p) < 6)%nat → plan_increase p e = Ok (plan_app p [] [] [e]).
Proof. intros Hl. unfold plan_increase, plan_app. rewrite !app_nil_r. by destruct (Nat.ltb_spec (length (plan_increases p)) 6); [|lia]. Qed.
Lemma plan_app_app p ws ds is_ ws' ds' is' : plan_app (plan_app p ws ds is_) ws' ds' is' = plan_app p (ws ++ ws') (ds ++ ds') (is_ ++ is').
Proof. unfold plan_app. cbn. by rewrite <- !app_assoc. Qed.
Lemma plan_app_nil p : plan_app p [] [] [] = p.
Proof. destruct p. unfold plan_app. cbn. by rewrite !app_nil_r. Qed.

(** Room for one more contribution of each kind per direction. *)
Definition plan_room (p : Plan) (n : nat) : Prop :=
  (length (writes p) + n ≤ 7 ∧ length (plan_decreases p) + n ≤ 6 ∧ length (plan_increases p) + n ≤ 6)%nat.

Lemma each_direction_spec visit (fw : LightDirection → list (LightBlock * Z)) (fd fi : LightDirection → list Entry) ds plan :
  (∀ plan d, plan_room plan 1 → visit plan d = Ok (plan_app plan (fw d) (fd d) (fi d))) →
  (∀ d, length (fw d) ≤ 1 ∧ length (fd d) ≤ 1 ∧ length (fi d) ≤ 1)%nat →
  plan_room plan (length ds) →
  each_direction visit plan ds = Ok (plan_app plan (mjoin (fw <$> ds)) (mjoin (fd <$> ds)) (mjoin (fi <$> ds))).
Proof.
  intros Hv Hl. revert plan. induction ds as [|d ds IH]; intros plan Hr; cbn [each_direction].
  { cbn. by rewrite plan_app_nil. }
  unfold plan_room in Hr. cbn [length] in Hr. rewrite Hv by (unfold plan_room; lia). mstep.
  rewrite IH; [by rewrite plan_app_app|]. unfold plan_room, plan_app. cbn. rewrite !length_app.
  destruct (Hl d) as (?&?&?). lia.
Qed.

Section plans.
Context {S I : Type} `{LightStoreLaws S} `{LightInput I} (src : I).
Hypothesis Hsrc : source_ok src.
Implicit Types (s : S).

(** The stored levels, at positions that are blocks. *)
Definition levels s : Levels := λ p, if decide (block_i32 p) then stored_level s p else None.
Definition emit s : LightBlock → Z := emit_at src (light_enabled s).

Lemma levels_stored s p : block_i32 p → levels s p = stored_level s p.
Proof. intros Hp. unfold levels. by rewrite decide_True. Qed.
Lemma levels_step s d p : levels s (dir_step d p) = stored_level s (dir_step d p).
Proof. apply levels_stored, dir_step_i32. Qed.
Lemma levels_i32 s p l : levels s p = Some l → block_i32 p.
Proof. unfold levels. by case_decide. Qed.
Lemma levels_range s p l : store_ok s → levels s p = Some l → 0 ≤ l ≤ 15.
Proof. intros Hs Hl. unfold levels in Hl. case_decide; [|done]. by eapply stored_level_range. Qed.

Lemma emitted_ok s p : emitted_at src s p (mat_at src p) = emit s p.
Proof. done. Qed.

Lemma check_plan_spec s x old :
  block_i32 x → levels s x = Some old →
  check_plan src s x = Ok {| writes := check_writes (emit s) x old; plan_decreases := [check_dec (emit s) x old];
                             plan_increases := check_incs (emit s) (shape_at src) x |}.
Proof.
  intros Hx Hl. unfold check_plan. rewrite levels_stored in Hl by done. rewrite Hl, (material_at_ok src Hsrc). mstep.
  rewrite emitted_ok. unfold check_writes, check_dec, check_incs.
  assert (∀ b : bool, (if b then plan ← plan_write plan_new x 0; plan_decrease plan (blank_entry x old ALL)
             else plan_decrease plan_new (blank_entry x 1 ALL)) =
     Ok (plan_app plan_new (if b then [(x, 0)] else []) [blank_entry x (if b then old else 1) ALL] [])) as -> by (by intros []).
  mstep. destruct (emit s x =? 0); done.
Qed.

Lemma decrease_plan_spec s e :
  decrease_plan src s e = Ok {| writes := all_of (dec_writes (levels s) e); plan_decreases := all_of (dec_decs (emit s) (levels s) e);
                                plan_increases := all_of (dec_incs (emit s) (shape_at src) (levels s) e) |}.
Proof.
  unfold decrease_plan.
  rewrite (each_direction_spec _ (dec_writes (levels s) e) (dec_decs (emit s) (levels s) e) (dec_incs (emit s) (shape_at src) (levels s) e)).
  - done.
  - intros plan d (Hpw&Hpd&Hpi). unfold decrease_visit, dec_writes, dec_decs, dec_incs, dec_clear, toward. rewrite !levels_step.
    destruct (Z.land (e_directions e) (mask d) =? 0); cbn [negb]; [by rewrite plan_app_nil|].
    destruct (stored_level s (dir_step d (e_pos e))) as [old|]; [|by rewrite plan_app_nil].
    destruct (Z.eqb_spec old 0); cbn [negb andb]; [by rewrite plan_app_nil|].
    destruct (old <? e_level e); cbn [andb]; [|by rewrite plan_increase_ok by lia].
    rewrite (material_at_ok src Hsrc). mstep. rewrite emitted_ok, plan_write_ok by lia. mstep.
    destruct (emit s (dir_step d (e_pos e)) <? old); mstep.
    + rewrite plan_decrease_ok by (cbn; rewrite length_app; cbn; lia). mstep. rewrite plan_app_app.
      destruct (emit s (dir_step d (e_pos e)) =? 0); cbn [negb]; [done|].
      rewrite plan_increase_ok by (cbn; rewrite length_app; cbn; lia). by rewrite plan_app_app.
    + destruct (emit s (dir_step d (e_pos e)) =? 0); cbn [negb]; [done|].
      rewrite plan_increase_ok by (cbn; rewrite length_app; cbn; lia). by rewrite plan_app_app.
  - intros d. unfold dec_writes, dec_decs, dec_incs. repeat case_match; cbn; lia.
  - unfold plan_room. cbn. lia.
Qed.

Lemma increase_plan_spec s e old :
  block_i32 (e_pos e) → levels s (e_pos e) = Some old →
  let occ := occ_as src (e_empty_shape e) in
  increase_plan src s e =
    Ok (Done {| writes := inc_all_writes (att_at src) occ (levels s) e old; plan_decreases := [];
                plan_increases := inc_all_incs (att_at src) occ (shape_at src) (levels s) e old |}).
Proof.
  intros Hp Hl occ. unfold increase_plan. rewrite levels_stored in Hl by done. rewrite Hl.
  unfold inc_all_writes, inc_all_incs. set (L := inc_level e old).
  assert ((if e_from_emission e && (old <? e_level e)
           then plan ← plan_write plan_new (e_pos e) (e_level e); Ok (plan, e_level e) else Ok (plan_new, old))
          = Ok (plan_app plan_new (inc_own e old) [] [], L)) as ->.
  { unfold inc_own, L, inc_level. by destruct (e_from_emission e && (old <? e_level e)). }
  mstep. destruct (Z.eqb_spec L (e_level e)) as [E|]; cbn [negb].
  2: { unfold plan_app. cbn. by rewrite app_nil_r. }
  rewrite (each_direction_spec _ (inc_writes (att_at src) occ (levels s) e L) (λ _, [])
             (inc_incs (att_at src) occ (shape_at src) (levels s) e L)).
  - mstep. unfold plan_app. cbn. done.
  - intros plan d (Hpw&Hpd&Hpi). unfold increase_visit, inc_writes, inc_incs, inc_raise, toward. rewrite levels_step.
    destruct (Z.land (e_directions e) (mask d) =? 0); cbn [negb]; [by rewrite plan_app_nil|].
    destruct (stored_level s (dir_step d (e_pos e))) as [lq|]; [|by rewrite plan_app_nil].
    destruct (saturating_sub L 1 <=? lq); [by rewrite plan_app_nil|].
    rewrite (material_at_ok src Hsrc (dir_step d (e_pos e))). mstep. fold (att_at src (dir_step d (e_pos e))).
    set (new := saturating_sub L (att_at src (dir_step d (e_pos e)))).
    destruct (new <=? lq); [by rewrite plan_app_nil|].
    assert ((if e_empty_shape e then Ok 0 else from ← material_at src (e_pos e); face_of from d) = Ok (if e_empty_shape e then 0 else face_at src (e_pos e) d)) as ->.
    { destruct (e_empty_shape e); [done|]. rewrite (material_at_ok src Hsrc). mstep. by apply face_of_ok. }
    mstep. rewrite (face_of_ok src Hsrc). mstep. rewrite (occ_as_ok src Hsrc). mstep. fold (occ (e_pos e) d).
    destruct (occ (e_pos e) d); [by rewrite plan_app_nil|].
    rewrite plan_write_ok by lia. mstep. destruct (1 <? new); [|done].
    rewrite plan_increase_ok by (cbn; rewrite length_app; cbn; lia). by rewrite plan_app_app.
  - intros d. unfold inc_writes, inc_incs. repeat case_match; cbn; lia.
  - unfold plan_room, plan_app, inc_own. cbn. repeat case_match; cbn; lia.
Qed.

(** The contributions depend on the occlusion of the entry's own faces only. *)
Lemma inc_plan_ext (occ occ' : LightBlock → LightDirection → bool) lv e old :
  (∀ d, occ (e_pos e) d = occ' (e_pos e) d) →
  inc_all_writes (att_at src) occ lv e old = inc_all_writes (att_at src) occ' lv e old ∧
  inc_all_incs (att_at src) occ (shape_at src) lv e old = inc_all_incs (att_at src) occ' (shape_at src) lv e old.
Proof.
  intros Ho. unfold inc_all_writes, inc_all_incs, all_of, all_directions, inc_writes, inc_incs, inc_raise. cbn [fmap list_fmap mjoin list_join].
  by rewrite !Ho.
Qed.
End plans.
