(* ===== verification/BlockLightMeasure.v ===== *)
(** * The block-light engine: how much work is left

    Over a finite set of stored blocks every work unit uses up potential: a
    decrease either finds nothing to clear or darkens lit blocks, and decreases
    never light any; an increase either writes nothing or raises levels, which
    stop at fifteen. *)

From stdpp Require Import list sets.
From S2P Require Import Prelude.
From S2P Require Import LightTypes.
From S2P Require Import LightQueue.
From S2P Require Import BlockLight.
From S2P Require Import BlockLightInv.
Local Open Scope Z_scope.

Definition lit_weight (o : option Z) : nat := match o with Some l => if 0 <? l then 1 else 0 | None => 0 end.
Definition room_weight (o : option Z) : nat := match o with Some l => Z.to_nat (15 - l) | None => 0 end.
Definition total (g : option Z → nat) (lv : Levels) (dom : list LightBlock) : nat := sum_list_with (λ p, g (lv p)) dom.

(** The units that checks, decreases and increases may still take. *)
Definition decrease_work (dom : list LightBlock) (lv : Levels) (todo decs incs : nat) : nat :=
  9 * todo + 7 * (decs + total lit_weight lv dom) + incs + 15 * length dom.
Definition increase_work (dom : list LightBlock) (lv : Levels) (incs : nat) : nat := incs + total room_weight lv dom.

Lemma total_le g lv lv' dom : (∀ p, p ∈ dom → g (lv' p) ≤ g (lv p))%nat → (total g lv' dom ≤ total g lv dom)%nat.
Proof.
  unfold total. induction dom as [|p dom IH]; intros Hle; cbn; [lia|].
  pose proof (Hle p ltac:(by left)). pose proof (IH (λ q Hq, Hle q (list_elem_of_further _ _ _ Hq))). lia.
Qed.

Lemma total_room_bound lv dom : (∀ p l, lv p = Some l → 0 ≤ l) → (total room_weight lv dom ≤ 15 * length dom)%nat.
Proof.
  intros Hr. unfold total. induction dom as [|p dom IH]; cbn [sum_list_with length]; [lia|].
  assert (room_weight (lv p) ≤ 15)%nat; [|lia]. unfold room_weight. destruct (lv p) as [l|] eqn:E; [apply Hr in E|]; lia.
Qed.

Lemma total_lit_bound lv dom : (total lit_weight lv dom ≤ length dom)%nat.
Proof.
  unfold total. induction dom as [|p dom IH]; cbn [sum_list_with length]; [lia|].
  assert (lit_weight (lv p) ≤ 1)%nat; [|lia]. unfold lit_weight. destruct (lv p) as [l|]; [destruct (0 <? l)|]; lia.
Qed.

Lemma members_counted (ps dom : list LightBlock) :
  NoDup ps → (∀ p, p ∈ ps → p ∈ dom) → (length ps ≤ sum_list_with (λ p, if decide (p ∈ ps) then 1 else 0) dom)%nat.
Proof.
  intros Hn Hsub. assert (Hf : ∀ l, sum_list_with (λ p, if decide (p ∈ ps) then 1 else 0)%nat l = length (filter (λ p, p ∈ ps) l)).
  { induction l as [|p l IH]; [done|]. rewrite filter_cons. cbn [sum_list_with]. rewrite IH. by case_decide. }
  rewrite Hf. apply submseteq_length, NoDup_submseteq; [done|]. intros p Hp. apply list_elem_of_filter. auto.
Qed.

(** Writes to different blocks of [dom] that each use up potential. *)
Lemma total_written g (ps dom : list LightBlock) lv lv' :
  NoDup ps → (∀ p, p ∈ ps → p ∈ dom) →
  (∀ p, p ∈ ps → g (lv' p) + 1 ≤ g (lv p))%nat → (∀ p, p ∉ ps → lv' p = lv p) →
  (total g lv' dom + length ps ≤ total g lv dom)%nat.
Proof.
  intros Hn Hsub Hdec Hsame. pose proof (members_counted ps dom Hn Hsub).
  enough (total g lv' dom + sum_list_with (λ p, if decide (p ∈ ps) then 1 else 0) dom ≤ total g lv dom)%nat by lia.
  unfold total. clear -Hdec Hsame. induction dom as [|p dom IH]; cbn [sum_list_with]; [lia|].
  case_decide as Hp; [specialize (Hdec p Hp); lia|]. rewrite (Hsame p Hp). lia.
Qed.

(** The writes of the six directions are to different blocks. *)
Lemma direction_writes_nodup pos (f : LightDirection → list (LightBlock * Z)) :
  (∀ d, f d = [] ∨ ∃ v, f d = [(dir_step d pos, v)]) → NoDup (all_of f).*1.
Proof.
  intros Hf. unfold all_of. generalize all_directions_nodup. generalize all_directions. intros ds Hn.
  induction Hn as [|d ds Hd Hn IH]; cbn; [constructor|]. rewrite fmap_app. apply NoDup_app. split; [|split; [|done]].
  - destruct (Hf d) as [->|[v ->]]; cbn; [constructor|apply NoDup_singleton].
  - intros q Hq Hin. destruct (Hf d) as [E|[v E]]; rewrite E in Hq; [set_solver|]. apply list_elem_of_singleton in Hq as ->.
    apply list_elem_of_fmap in Hin as ([q v']&Hq&Hin). apply list_elem_of_join in Hin as (l&Hin&Hl).
    apply list_elem_of_fmap in Hl as (d'&->&Hd'). destruct (Hf d') as [E'|[v2 E']]; rewrite E' in Hin; [set_solver|].
    apply list_elem_of_singleton in Hin. injection Hin as -> ->. cbn in Hq. apply dir_step_inj in Hq as ->. done.
Qed.

Lemma all_of_length {A B} (f : LightDirection → list A) (g : LightDirection → list B) :
  (∀ d, length (f d) ≤ length (g d))%nat → (length (all_of f) ≤ length (all_of g))%nat.
Proof.
  intros Hl. unfold all_of, all_directions. cbn [fmap list_fmap mjoin list_join]. rewrite !length_app.
  pose proof (Hl Down). pose proof (Hl Up). pose proof (Hl North). pose proof (Hl South). pose proof (Hl West). pose proof (Hl East). cbn [length]. lia.
Qed.

Section work.
Context (E att : LightBlock → Z) (occ : LightBlock → LightDirection → bool) (shape : LightBlock → bool).
Hypothesis E_range : ∀ p, 0 ≤ E p ≤ 15.
Hypothesis att_pos : ∀ p, 1 ≤ att p.

Lemma check_work dom lv lv' x old todo decs incs :
  lv x = Some old → 0 ≤ old → written (check_writes E x old) lv lv' →
  (decrease_work dom lv' todo (decs + 1) (incs + length (check_incs E shape x)) < decrease_work dom lv (todo + 1) decs incs)%nat.
Proof.
  intros Hx Hold Hw. destruct (check_written E att occ shape E_range att_pos x old lv lv' Hx Hw) as [Hx' Hne].
  assert (total lit_weight lv' dom ≤ total lit_weight lv dom)%nat.
  { apply total_le. intros p _. destruct (decide (p = x)) as [->|]; [|by rewrite Hne].
    rewrite Hx', Hx. destruct (E x <? old); [apply Nat.le_0_l|done]. }
  assert (length (check_incs E shape x) ≤ 1)%nat by (unfold check_incs; destruct (E x =? 0); cbn [length]; lia).
  unfold decrease_work. lia.
Qed.

(** What one write of a decrease or an increase does to its block. *)
Lemma dec_write lv e p v :
  (∀ p l, lv p = Some l → 0 ≤ l) → (p, v) ∈ all_of (dec_writes lv e) → v = 0 ∧ ∃ d l, p = dir_step d (e_pos e) ∧ lv p = Some l ∧ 0 < l.
Proof.
  intros Hr Hp. apply elem_of_all_of in Hp as [d Hd]. unfold dec_writes, dec_clear in Hd. destruct (toward e d); [|by apply not_elem_of_nil in Hd].
  destruct (lv (dir_step d (e_pos e))) as [l|] eqn:Hl; [|by apply not_elem_of_nil in Hd]. pose proof (Hr _ _ Hl).
  destruct (Z.eqb_spec l 0); [by apply not_elem_of_nil in Hd|]. destruct (l <? e_level e); [|by apply not_elem_of_nil in Hd].
  apply list_elem_of_singleton in Hd. injection Hd as -> ->. split; [done|]. exists d, l. split; [done|]. split; [done|lia].
Qed.
Lemma inc_write lv e old p v :
  (∀ p l, lv p = Some l → 0 ≤ l ≤ 15) → 0 ≤ e_level e ≤ 15 → lv (e_pos e) = Some old → (p, v) ∈ inc_all_writes att occ lv e old →
  ∃ l, lv p = Some l ∧ l < v ≤ 15 ∧ (p = e_pos e ∨ ∃ d, p = dir_step d (e_pos e)).
Proof.
  intros Hr Hl Hold Hp. pose proof (Hr _ _ Hold). unfold inc_all_writes in Hp. apply elem_of_app in Hp as [Hp|Hp].
  - unfold inc_own in Hp. destruct (e_from_emission e), (Z.ltb_spec old (e_level e)); cbn [andb] in Hp; try by apply not_elem_of_nil in Hp.
    apply list_elem_of_singleton in Hp. injection Hp as -> ->. exists old. split; [done|]. split; [lia|by left].
  - destruct (_ =? _); [|by apply not_elem_of_nil in Hp]. apply elem_of_all_of in Hp as [d Hd]. unfold inc_writes, inc_raise in Hd.
    destruct (toward e d); [|by apply not_elem_of_nil in Hd]. destruct (lv (dir_step d (e_pos e))) as [l|] eqn:Hlv; [|by apply not_elem_of_nil in Hd].
    destruct (_ <=? _); [by apply not_elem_of_nil in Hd|]. destruct (Z.leb_spec (saturating_sub (inc_level e old) (att (dir_step d (e_pos e)))) l); [by apply not_elem_of_nil in Hd|].
    destruct (occ (e_pos e) d); [by apply not_elem_of_nil in Hd|]. apply list_elem_of_singleton in Hd. injection Hd as -> ->.
    exists l. split; [done|]. split; [|by right; exists d]. split; [done|]. pose proof (att_pos (dir_step d (e_pos e))). unfold saturating_sub, inc_level. case_match; lia.
Qed.

(** Writes that all use up potential. *)
Lemma writes_used g (ws : list (LightBlock * Z)) dom lv lv' :
  NoDup ws.*1 → written ws lv lv' → (∀ p, is_Some (lv p) → p ∈ dom) →
  (∀ p v, (p, v) ∈ ws → is_Some (lv p) ∧ (g (Some v) + 1 ≤ g (lv p))%nat) → (total g lv' dom + length ws ≤ total g lv dom)%nat.
Proof.
  intros Hn Hw Hdom Hg. rewrite <- (length_fmap fst). apply total_written; [done| | |].
  - intros p Hp. apply list_elem_of_fmap in Hp as ([q v]&->&Hp). apply Hdom. by destruct (Hg _ _ Hp).
  - intros p Hp. destruct (Hw p) as [(v&Hv&->)|[? _]]; [by destruct (Hg _ _ Hv)|done].
  - intros p Hp. destruct (Hw p) as [(v&Hv&_)|[_ ?]]; [|done]. exfalso. apply Hp. apply list_elem_of_fmap. by exists (p, v).
Qed.

Lemma dec_work dom lv lv' e todo decs incs :
  (∀ p l, lv p = Some l → 0 ≤ l) → written (all_of (dec_writes lv e)) lv lv' → (∀ p, is_Some (lv p) → p ∈ dom) →
  (decrease_work dom lv' todo (decs + length (all_of (dec_decs E lv e))) (incs + length (all_of (dec_incs E shape lv e)))
   < decrease_work dom lv todo (S decs) incs)%nat.
Proof.
  intros Hr Hw Hdom.
  assert (Hn : NoDup (all_of (dec_writes lv e)).*1).
  { apply (direction_writes_nodup (e_pos e)). intros d. unfold dec_writes. destruct (dec_clear lv e d); [right; eauto|by left]. }
  assert (total lit_weight lv' dom + length (all_of (dec_writes lv e)) ≤ total lit_weight lv dom)%nat.
  { apply writes_used; [done..|]. intros p v Hp. destruct (dec_write lv e p v Hr Hp) as (->&d&l&_&->&?). split; [done|]. cbn. destruct (Z.ltb_spec 0 l); lia. }
  assert (length (all_of (dec_decs E lv e)) ≤ length (all_of (dec_writes lv e)))%nat.
  { apply all_of_length. intros d. unfold dec_decs, dec_writes. destruct (dec_clear lv e d); [|done]. cbn [length]. case_match; cbn [length]; lia. }
  assert (length (all_of (dec_incs E shape lv e)) ≤ 6)%nat.
  { apply (all_of_length _ (λ _, [tt])). intros d. unfold dec_incs. repeat case_match; cbn [length]; lia. }
  unfold decrease_work. lia.
Qed.

Lemma inc_writes_nodup lv e old : block_i32 (e_pos e) → NoDup (inc_all_writes att occ lv e old).*1.
Proof.
  intros Hb. assert (Hf : ∀ d, inc_writes att occ lv e (inc_level e old) d = [] ∨ ∃ v, inc_writes att occ lv e (inc_level e old) d = [(dir_step d (e_pos e), v)]).
  { intros d. unfold inc_writes. destruct (inc_raise _ _ _ _ _ d); [right; eauto|by left]. }
  unfold inc_all_writes, inc_own. rewrite fmap_app. apply NoDup_app. split; [|split].
  - destruct (_ && _); [apply NoDup_singleton|constructor].
  - intros p Hp Hp'. assert (p = e_pos e) as -> by (destruct (_ && _) in Hp; set_solver).
    destruct (_ =? _) in Hp'; [|by apply not_elem_of_nil in Hp']. apply list_elem_of_fmap in Hp' as ([q v]&Hq&Hp'). apply elem_of_all_of in Hp' as [d Hd].
    destruct (Hf d) as [E'|[v' E']]; rewrite E' in Hd; [by apply not_elem_of_nil in Hd|]. apply list_elem_of_singleton in Hd. injection Hd as -> ->.
    symmetry in Hq. by apply (dir_step_ne d (e_pos e)) in Hq.
  - destruct (_ =? _); [|constructor]. by apply (direction_writes_nodup (e_pos e)).
Qed.

Lemma inc_work dom lv lv' e incs old :
  (∀ p l, lv p = Some l → 0 ≤ l ≤ 15) → 0 ≤ e_level e ≤ 15 → block_i32 (e_pos e) → lv (e_pos e) = Some old →
  written (inc_all_writes att occ lv e old) lv lv' → (∀ p, is_Some (lv p) → p ∈ dom) →
  (increase_work dom lv' (incs + length (inc_all_incs att occ shape lv e old)) < increase_work dom lv (S incs))%nat.
Proof.
  intros Hr Hl Hb Hold Hw Hdom.
  assert (total room_weight lv' dom + length (inc_all_writes att occ lv e old) ≤ total room_weight lv dom)%nat.
  { apply writes_used; [by apply inc_writes_nodup|done..|]. intros p v Hp. destruct (inc_write lv e old p v Hr Hl Hold Hp) as (l&Hlv&?&_).
    pose proof (Hr _ _ Hlv). rewrite Hlv. split; [done|]. cbn. lia. }
  assert (length (inc_all_incs att occ shape lv e old) ≤ length (inc_all_writes att occ lv e old))%nat.
  { unfold inc_all_incs, inc_all_writes. rewrite length_app. destruct (_ =? _); [|cbn; lia].
    assert (length (all_of (inc_incs att occ shape lv e (inc_level e old))) ≤ length (all_of (inc_writes att occ lv e (inc_level e old))))%nat; [|lia].
    apply all_of_length. intros d. unfold inc_incs, inc_writes. destruct (inc_raise att occ lv e (inc_level e old) d); [|done]. case_match; cbn [length]; lia. }
  unfold increase_work. lia.
Qed.

(** A step stores no new block. *)
Lemma written_stored ws lv lv' p : (∀ p v, (p, v) ∈ ws → is_Some (lv p)) → written ws lv lv' → is_Some (lv' p) → is_Some (lv p).
Proof. intros Hs Hw Hp. destruct (Hw p) as [(v&Hin&_)|[_ He]]; [by eapply Hs|by rewrite <- He]. Qed.
End work.
