(* ===== verification/BlockLightUnits.v ===== *)
(** * The block-light engine: work units and the run loop

    What each call does to the queues and the levels, from any state whose
    queues are well formed: one unit of work consumes its entry, performs the
    writes of the theory and appends its entries, or leaves everything as it was
    and says why.  The loop of [run] is proved once for every invariant that the
    units and the phase changes keep ([run_laws]). *)

From stdpp Require Import list sets.
From S2P Require Import Prelude.
From S2P Require Import View.
From S2P Require Import LightTypes.
From S2P Require Import LightTable.
From S2P Require Import LightQueue.
From S2P Require Import LightStore.
From S2P Require Import BlockLight.
From S2P Require Import BlockLightInv.
From S2P Require Import BlockLightPlan.
From S2P Require Import BlockLightMeasure.
Local Open Scope Z_scope.

Section units.
Context {S I : Type} `{LightStoreLaws S} `{LightInput I} `{Allocator, QueueLayout} (src : I).
Hypothesis Hsrc : source_ok src.
Implicit Types (s : S) (e : BlockLightEngine).

Lemma same_view_levels s s' p : same_view s s' → levels s' p = levels s p.
Proof. intros Hv. unfold levels. case_decide; [apply Hv|done]. Qed.
Lemma same_view_emit s s' p : same_view s s' → emit src s' p = emit src s p.
Proof. intros Hv. unfold emit, emit_at. by rewrite (sv_enabled s s' Hv). Qed.

(** The queues as containers. *)
Record queues_ok e : Prop := {
  qs_checks : cq_ok (checks e);
  qs_blocks : Forall block_i32 (cq_positions (checks e));
  qs_decreases : wq_ok (decreases e);
  qs_increases : wq_ok (increases e);
}.
Definition pending (e : BlockLightEngine) : list LightBlock := drop (cq_cursor (checks e)) (cq_positions (checks e)).
(** The batch was consumed and cleared. *)
Definition cleared e : Prop := cq_positions (checks e) = [] ∧ cq_cursor (checks e) = 0%nat.

(** ** Admission and application *)

Lemma push_all_spec q l :
  wq_ok q → (length (wq_items q) + length l ≤ wq_bound q)%nat →
  ∃ q', push_all q l = Ok q' ∧ wq_ok q' ∧ wq_items q' = wq_items q ++ l ∧ wq_bound q' = wq_bound q.
Proof.
  revert q. induction l as [|x l IH]; intros q Hq Hl; cbn [push_all].
  { exists q. by rewrite app_nil_r. }
  cbn [length] in Hl. unfold push_expect. rewrite length_wq_items in Hl.
  destruct (wq_push_spec q x Hq) as [[? _]|(_&q'&->&Hq'&Hi&Hb&_)]; [lia|]. mstep.
  destruct (IH q' Hq') as (q2&->&?&Hi2&Hb2); [rewrite Hi, length_app, length_wq_items, Hb; cbn; lia|].
  exists q2. rewrite Hi2, Hi, <- app_assoc, Hb2, Hb. done.
Qed.

Lemma write_all_spec ws l s :
  store_ok s → prepared s l → (∀ p, p ∈ ws.*1 → p ∈ l) →
  (∀ p v, (p, v) ∈ ws → block_i32 p ∧ is_Some (levels s p) ∧ 0 ≤ v ≤ 15) →
  ∃ s', write_all ws s = Ok s' ∧ store_ok s' ∧ written ws (levels s) (levels s') ∧
    (∀ c, light_enabled s' c = light_enabled s c) ∧ has_inconsistencies s' = has_inconsistencies s.
Proof.
  revert s. induction ws as [|[p v] ws IH]; intros s Hs Hp Hin Hok; cbn [write_all].
  { exists s. split; [done|]. split; [done|]. split; [|split; done]. intros q. right. split; [set_solver|done]. }
  destruct (Hok p v) as (Hb&Hl&Hv); [by left|]. rewrite levels_stored in Hl by done.
  destruct (set_stored_level_spec s l p v Hs Hp) as (s1&->&Hs1&Hp1&Hw); [apply Hin; by left|done|done|]. mstep.
  assert (Hlv : ∀ q, levels s1 q = if decide (q = p) then Some v else levels s q).
  { intros q. unfold levels. rewrite (lw_level _ _ _ _ Hw q). destruct (decide (q = p)) as [->|]; [by rewrite decide_True|done]. }
  destruct (IH s1 Hs1 Hp1) as (s'&->&Hs'&Hws&Hen&Hfl).
  - intros q Hq. apply Hin. by right.
  - intros q w Hq. destruct (Hok q w) as (?&?&?); [by right|]. split; [done|]. split; [|done]. rewrite Hlv. by case_decide.
  - exists s'. split; [done|]. split; [done|]. split; [|split; [intros c; by rewrite Hen, (lw_enabled _ _ _ _ Hw)|by rewrite Hfl, (lw_inconsistent _ _ _ _ Hw)]].
    intros q. destruct (Hws q) as [(w&?&?)|[Hn Hq]]; [left; exists w; split; [by right|done]|]. rewrite Hq, Hlv. case_decide as Hqp.
    + subst q. left. exists v. split; [by left|done].
    + right. split; [|done]. cbn. rewrite elem_of_cons. tauto.
Qed.

(** A queue of entries has room for less than the six that a unit may need. *)
Definition crowded e : Prop :=
  (wq_bound (decreases e) < length (wq_items (decreases e)) + 6)%nat ∨ (wq_bound (increases e) < length (wq_items (increases e)) + 6)%nat.
(** Why a run stops before its budget: a queue is crowded, the storage refuses
    the writes or the publication, or the block of the next increase is no longer
    stored. *)
Definition halted e s (err : BlockLightError) : Prop :=
  match err with
  | Queue Full => crowded e
  | Storage err =>
      (∃ l s0, prepare_writes l s0 = Ok (Failed err, s)) ∨ (∃ s0, publish_visible s0 = Ok (Failed err, s)) ∨
      (err = MissingLayer ∧ ∃ x l, wq_items (increases e) = x :: l ∧ stored_level s (e_pos x) = None)
  | _ => False
  end.
(** What a unit may leave behind when it fails. *)
Definition stalled e s (r : outcome False (reply BlockLightError () * (BlockLightEngine * S))) : Prop :=
  ∃ err s', r = Ok (Failed err, (e, s')) ∧ store_ok s' ∧ same_view s s' ∧ halted e s' err.
(** What it does when it works: the entry is consumed, which gives [e1]. *)
Definition performed s e1 (ws : list (LightBlock * Z)) (ds is_ : list Entry) (r : outcome False (reply BlockLightError () * (BlockLightEngine * S))) : Prop :=
  ∃ d i s', r = Ok (Done tt, (with_increases (with_decreases e1 d) i, s')) ∧ wq_ok d ∧ wq_ok i ∧ store_ok s' ∧
    wq_items d = wq_items (decreases e1) ++ ds ∧ wq_items i = wq_items (increases e1) ++ is_ ∧
    written ws (levels s) (levels s') ∧ (∀ c, light_enabled s' c = light_enabled s c) ∧ has_inconsistencies s' = has_inconsistencies s.
(** The writes of a plan are to stored blocks. *)
Definition writable s (ws : list (LightBlock * Z)) : Prop := ∀ p v, (p, v) ∈ ws → block_i32 p ∧ is_Some (levels s p) ∧ 0 ≤ v ≤ 15.

Lemma prepare_spec plan dc ic e s :
  wq_ok (decreases e) → wq_ok (increases e) → store_ok s →
  (length (plan_decreases plan) ≤ 6)%nat → (length (plan_increases plan) ≤ 6)%nat →
  stalled e s (prepare plan dc ic (e, s)) ∨
  ∃ s1, prepare plan dc ic (e, s) = Ok (Done tt, (e, s1)) ∧ store_ok s1 ∧ same_view s s1 ∧ prepared s1 (writes plan).*1 ∧
    (length (plan_decreases plan) ≤ wq_bound (decreases e) - length (wq_items (decreases e)) + dc)%nat ∧
    (length (plan_increases plan) ≤ wq_bound (increases e) - length (wq_items (increases e)) + ic)%nat.
Proof.
  intros Hd Hi Hs Hl1 Hl2. unfold stalled, prepare, call_bind, guard. rewrite !wq_remaining_ok by done. unfold lift. mstep.
  fold (wq_bound (decreases e)). fold (wq_bound (increases e)). rewrite !length_wq_items.
  destruct (Nat.ltb_spec (wq_bound (decreases e) - wq_len (decreases e) + dc) (length (plan_decreases plan))) as [|Hroomd];
    [|destruct (Nat.ltb_spec (wq_bound (increases e) - wq_len (increases e) + ic) (length (plan_increases plan))) as [|Hroomi]];
    cbn [orb negb]; mstep.
  1,2: left; exists (Queue Full), s; split; [done|]; split; [done|]; split; [apply same_view_refl|]; cbn; unfold crowded; rewrite !length_wq_items; lia.
  unfold on_storage. destruct (prepare_writes_spec s (writes plan).*1 Hs) as (s1&Hs1&Hv&[[err Hp]|[-> Hp]]); [rewrite Hp|]; mstep.
  - left. exists (Storage err), s1. split; [done|]. split; [done|]. split; [done|]. left. eauto.
  - right. exists s1. done.
Qed.

Lemma unit_spec plan dc ic (consume : BlockLightEngine → outcome False BlockLightEngine) e e1 s :
  wq_ok (decreases e) → wq_ok (increases e) → store_ok s → writable s (writes plan) →
  (length (plan_decreases plan) ≤ 6)%nat → (length (plan_increases plan) ≤ 6)%nat →
  consume e = Ok e1 → wq_ok (decreases e1) → wq_ok (increases e1) →
  (wq_bound (decreases e1) = wq_bound (decreases e) ∧ length (wq_items (decreases e)) = length (wq_items (decreases e1)) + dc)%nat →
  (wq_bound (increases e1) = wq_bound (increases e) ∧ length (wq_items (increases e)) = length (wq_items (increases e1)) + ic)%nat →
  let r := call_bind (prepare plan dc ic) (λ _, call_bind (modify consume) (λ _, apply plan)) (e, s) in
  stalled e s r ∨ performed s e1 (writes plan) (plan_decreases plan) (plan_increases plan) r.
Proof.
  intros Hd Hi Hs Hws Hl1 Hl2 Hcons Hd1 Hi1 [Hdb Hdl] [Hib Hil] r. unfold r, call_bind.
  destruct (prepare_spec plan dc ic e s Hd Hi Hs Hl1 Hl2) as [(err&s1&->&?&?&?)|(s1&->&Hs1&Hv&Hp&Hroomd&Hroomi)]; mstep.
  { left. exists err, s1. done. }
  right. unfold modify. rewrite Hcons. mstep. unfold apply.
  destruct (write_all_spec (writes plan) (writes plan).*1 s1 Hs1 Hp) as (s'&->&Hs'&Hw&Hen&Hfl); [done| |].
  { intros p v Hpv. destruct (Hws p v Hpv) as (?&?&?). rewrite (same_view_levels _ _ _ Hv). done. }
  pose proof (wo_len _ Hd) as Hld. pose proof (wo_len _ Hi) as Hli. rewrite <- !length_wq_items in Hld, Hli.
  fold (wq_bound (decreases e)) in Hld. fold (wq_bound (increases e)) in Hli.
  mstep. destruct (push_all_spec (decreases e1) (plan_decreases plan) Hd1) as (d&->&?&?&_); [lia|]. mstep.
  destruct (push_all_spec (increases e1) (plan_increases plan) Hi1) as (i&->&?&?&_); [lia|]. mstep.
  exists d, i, s'. split; [done|]. do 3 (split; [done|]). split; [done|]. split; [done|]. split.
  - intros p. destruct (Hw p) as [?|[? Hq]]; [by left|right]. split; [done|]. by rewrite Hq, (same_view_levels _ _ _ Hv).
  - split; [intros c; by rewrite Hen, (sv_enabled _ _ Hv)|by rewrite Hfl, (sv_inconsistent _ _ Hv)].
Qed.

(** ** The three kinds of work *)

Lemma all_of_six {A} (f : LightDirection → list A) : (∀ d, length (f d) ≤ 1)%nat → (length (all_of f) ≤ 6)%nat.
Proof. intros Hf. by apply (all_of_length f (λ _, [tt])). Qed.

Lemma run_check_unit e s :
  queues_ok e → store_ok s → cq_is_empty (checks e) = false →
  ∃ x c', pending e = x :: drop (cq_cursor c') (cq_positions c') ∧ cq_ok c' ∧ cq_positions c' = cq_positions (checks e) ∧
    (stalled e s (run_check src (e, s)) ∨
     match levels s x with
     | Some old => performed s (with_checks e c') (check_writes (emit src s) x old) [check_dec (emit src s) x old] (check_incs (emit src s) (shape_at src) x) (run_check src (e, s))
     | None => performed s (with_checks e c') [] [] [] (run_check src (e, s))
     end).
Proof.
  intros [Hc Hblocks Hd Hi] Hs Hne.
  destruct (cq_pop_spec (checks e) Hc) as [(_&?&_)|(x&c'&Hdrop&_&Hpeek&Hpop&Hc'&Hpos&_)]; [congruence|].
  exists x, c'. split; [exact Hdrop|]. split; [done|]. split; [done|].
  assert (Hx : block_i32 x) by (by apply (Forall_lookup_1 _ _ _ _ Hblocks) in Hpeek).
  assert (Hrun : ∀ plan, check_plan src s x = Ok plan →
    run_check src (e, s) = call_bind (prepare plan 0 0) (λ _, call_bind (modify (λ e, Ok (with_checks e (cq_pop (checks e)).2))) (λ _, apply plan)) (e, s)).
  { intros plan Hplan. unfold run_check, call_bind at 1, guard. rewrite Hpeek. mstep. by rewrite Hplan. }
  destruct (levels s x) as [old|] eqn:Hl.
  - rewrite (Hrun _ (check_plan_spec src Hsrc s x old Hx Hl)). apply unit_spec; cbn [writes plan_decreases plan_increases]; [done..| |cbn; lia| |by rewrite Hpop|done|done|by split; [|cbn; lia]|by split; [|cbn; lia]].
    + unfold check_writes. intros p v Hin. destruct (_ <? _); [|by apply not_elem_of_nil in Hin].
      apply list_elem_of_singleton in Hin. injection Hin as -> ->. split; [done|]. split; [by rewrite Hl|lia].
    + unfold check_incs. destruct (_ =? _); cbn [length]; lia.
  - assert (Hplan : check_plan src s x = Ok plan_new) by (unfold check_plan; rewrite <- levels_stored, Hl by done; done). rewrite (Hrun _ Hplan).
    apply unit_spec; cbn [plan_new writes plan_decreases plan_increases]; [done..| |cbn; lia|cbn; lia|by rewrite Hpop|done|done|by split; [|cbn; lia]|by split; [|cbn; lia]].
    intros p v Hin. by apply not_elem_of_nil in Hin.
Qed.

Lemma run_decrease_unit e s :
  queues_ok e → store_ok s → wq_is_empty (decreases e) = false →
  ∃ x q', wq_items (decreases e) = x :: wq_items q' ∧ wq_ok q' ∧
    (stalled e s (run_decrease src (e, s)) ∨
     performed s (with_decreases e q') (all_of (dec_writes (levels s) x)) (all_of (dec_decs (emit src s) (levels s) x))
       (all_of (dec_incs (emit src s) (shape_at src) (levels s) x)) (run_decrease src (e, s))).
Proof.
  intros [Hc Hblocks Hd Hi] Hs Hne.
  destruct (wq_pop_spec (decreases e) Hd) as [[Hit _]|(x&q'&Hit&Hpop&Hq'&Hb'&_&Hpeek)].
  { unfold wq_is_empty in Hne. rewrite <- length_wq_items, Hit in Hne. done. }
  exists x, q'. split; [done|]. split; [done|].
  set (plan := {| writes := all_of (dec_writes (levels s) x); plan_decreases := all_of (dec_decs (emit src s) (levels s) x);
                  plan_increases := all_of (dec_incs (emit src s) (shape_at src) (levels s) x) |}).
  set (consume := λ e : BlockLightEngine, '(_, d) ← wq_pop (decreases e); Ok (with_decreases e d) : outcome False BlockLightEngine).
  assert (Hrun : run_decrease src (e, s) = call_bind (prepare plan 1 0) (λ _, call_bind (modify consume) (λ _, apply plan)) (e, s)).
  { unfold run_decrease, call_bind at 1, guard. rewrite Hpeek. unfold lift. mstep. rewrite (decrease_plan_spec src Hsrc). done. }
  rewrite Hrun. apply (unit_spec plan 1 0 consume e (with_decreases e q') s); [done..| | | | |done|done| |split; [done|cbn; lia]].
  - intros p v Hin. destruct (dec_write (levels s) x p v) as (->&d&l&->&Hl&_); [intros q k Hk; by eapply (levels_range s)|done|].
    split; [apply dir_step_i32|]. split; [by rewrite Hl|lia].
  - apply all_of_six. intros d. unfold dec_decs. repeat case_match; cbn [length]; lia.
  - apply all_of_six. intros d. unfold dec_incs. repeat case_match; cbn [length]; lia.
  - unfold consume. by rewrite Hpop.
  - split; [done|]. cbn [with_decreases decreases]. rewrite Hit. cbn. lia.
Qed.

Lemma run_increase_unit e s :
  queues_ok e → store_ok s → wq_is_empty (increases e) = false →
  ∃ x q', wq_items (increases e) = x :: wq_items q' ∧ wq_ok q' ∧
    (block_i32 (e_pos x) → 0 ≤ e_level x ≤ 15 →
     stalled e s (run_increase src (e, s)) ∨
     ∃ old, levels s (e_pos x) = Some old ∧
       let occ := occ_as src (e_empty_shape x) in
       performed s (with_increases e q') (inc_all_writes (att_at src) occ (levels s) x old) []
         (inc_all_incs (att_at src) occ (shape_at src) (levels s) x old) (run_increase src (e, s))).
Proof.
  intros [Hc Hblocks Hd Hi] Hs Hne.
  destruct (wq_pop_spec (increases e) Hi) as [[Hit _]|(x&q'&Hit&Hpop&Hq'&Hb'&_&Hpeek)].
  { unfold wq_is_empty in Hne. rewrite <- length_wq_items, Hit in Hne. done. }
  exists x, q'. split; [done|]. split; [done|]. intros Hb Hlev.
  destruct (levels s (e_pos x)) as [old|] eqn:Hold.
  2: { left. exists (Storage MissingLayer), s. rewrite levels_stored in Hold by done. split; [|split; [done|split; [apply same_view_refl|]]].
       - unfold run_increase, call_bind at 1, guard. rewrite Hpeek. unfold lift. mstep. unfold increase_plan. by rewrite Hold.
       - right; right. split; [done|]. eauto. }
  set (occ := occ_as src (e_empty_shape x)).
  set (plan := {| writes := inc_all_writes (att_at src) occ (levels s) x old; plan_decreases := [];
                  plan_increases := inc_all_incs (att_at src) occ (shape_at src) (levels s) x old |}).
  set (consume := λ e : BlockLightEngine, '(_, i) ← wq_pop (increases e); Ok (with_increases e i) : outcome False BlockLightEngine).
  assert (Hrun : run_increase src (e, s) = call_bind (prepare plan 0 1) (λ _, call_bind (modify consume) (λ _, apply plan)) (e, s)).
  { unfold run_increase, call_bind at 1, guard. rewrite Hpeek. unfold lift. mstep. by rewrite (increase_plan_spec src Hsrc s x old). }
  assert (Hr : ∀ p l, levels s p = Some l → 0 ≤ l ≤ 15) by (intros p l; by apply levels_range).
  rewrite Hrun. destruct (unit_spec plan 0 1 consume e (with_increases e q') s) as [?|?]; [done..| |cbn; lia| | |done|done|split; [done|cbn; lia]| |by left|right; eauto].
  - intros p v Hin. pose proof (inc_write (att_at src) occ (att_at_pos src) (levels s) x old p v Hr Hlev Hold Hin) as (l&Hl&?&Hp). pose proof (Hr _ _ Hl).
    split; [destruct Hp as [->|[d ->]]; [done|apply dir_step_i32]|]. split; [by rewrite Hl|lia].
  - cbn [plan plan_increases]. unfold inc_all_incs. destruct (_ =? _); [|cbn; lia]. apply all_of_six. intros d. unfold inc_incs. repeat case_match; cbn [length]; lia.
  - unfold consume. by rewrite Hpop.
  - split; [done|]. cbn [with_increases increases]. rewrite Hit. cbn. lia.
Qed.
End units.

(** ** The calls around a run *)

Section calls.
Context {S I : Type} `{LightStoreLaws S} `{LightInput I} `{Allocator, QueueLayout}.
Implicit Types (s : S) (e : BlockLightEngine) (src : I).

(** The same work in other queues. *)
Record same_work e e' : Prop := {
  sw_positions : cq_positions (checks e') = cq_positions (checks e);
  sw_cursor : cq_cursor (checks e') = cq_cursor (checks e);
  sw_decreases : wq_items (decreases e') = wq_items (decreases e);
  sw_increases : wq_items (increases e') = wq_items (increases e);
  sw_phase : phase e' = phase e;
  sw_seen : source_seen e' = source_seen e ∧ storage_seen e' = storage_seen e;
}.

(** Growth keeps the work, and queues that grew before a failure stay grown. *)
Lemma grow_queues_work hash limits e :
  queues_ok e → ∃ r e', grow_queues hash limits e = Ok (r, e') ∧ queues_ok e' ∧ same_work e e'.
Proof.
  intros Hq. pose proof Hq as [Hc Hb Hd Hi]. unfold grow_queues.
  destruct (_ || _); [by eexists _, e|]. destruct (checked_sub _ _) as [remaining|]; [|by eexists _, e].
  assert (Hck : (∃ err, cq_grow hash (checks e) (checks_limit limits) remaining = Err err) ∨
    ∃ c r, cq_grow hash (checks e) (checks_limit limits) remaining = Ok (c, r) ∧ cq_ok c ∧
      cq_positions c = cq_positions (checks e) ∧ cq_cursor c = cq_cursor (checks e)).
  { destruct (cq_grow_cases hash (checks e) (checks_limit limits) remaining Hc) as [[_ ->]|[_ [(err&->&_)|(c&r&->&?&?&?&_)]]]; eauto 10. }
  destruct Hck as [[err ->]|(c&r1&->&Hc'&Hpos&Hcur)]; [by eexists _, e|].
  assert (Hwq : ∀ q capacity remaining, wq_ok q → (∃ err, wq_grow q capacity remaining = Err err) ∨
    ∃ q' r, wq_grow q capacity remaining = Ok (q', r) ∧ wq_ok q' ∧ wq_items q' = wq_items q).
  { intros q capacity rm Hwq. destruct (wq_grow_cases q capacity rm Hwq) as [[_ ->]|[_ [(err&->&_)|(q'&r&->&?&?&_)]]]; eauto 10. }
  assert (Hnew : ∀ d i, wq_ok d → wq_ok i → wq_items d = wq_items (decreases e) → wq_items i = wq_items (increases e) →
    let e' := with_increases (with_decreases (with_checks e c) d) i in queues_ok e' ∧ same_work e e').
  { intros d i ? ? ? ? e'. split; split; cbn; (done || by rewrite Hpos). }
  cbn [with_checks decreases]. destruct (Hwq (decreases e) (decreases_limit limits) r1 Hd) as [[err ->]|(d&r2&->&Hd'&Hdi)].
  { exists (Failed (Queue err)). eexists. split; [reflexivity|]. by apply (Hnew (decreases e) (increases e)). }
  cbn [with_checks with_decreases increases decreases]. destruct (Hwq (increases e) (increases_limit limits) r2 Hi) as [[err ->]|(i&r3&->&Hi'&Hii)].
  { exists (Failed (Queue err)). eexists. split; [reflexivity|]. by apply (Hnew d (increases e)). }
  exists (Done tt). eexists. split; [reflexivity|]. by apply Hnew.
Qed.

Definition in_domain (p : LightBlock) : bool :=
  in_horizontal (lb_x p) && in_horizontal (lb_z p) && ((-2032 <=? lb_y p) && (lb_y p <=? 2031)).

Lemma in_domain_i32 p : in_domain p = true → block_i32 p.
Proof.
  unfold in_domain, in_horizontal, block_i32, in_i. change (2 ^ (32 - 1)) with 2147483648.
  rewrite !andb_true_iff, !Z.leb_le. lia.
Qed.

Lemma check_block_work e pos :
  queues_ok e →
  (check_block e pos = Err RunActive ∧ phase e ≠ Idle) ∨ (check_block e pos = Err InvalidBlock ∧ in_domain pos = false) ∨
  (check_block e pos = Err (Queue Full)) ∨
  (phase e = Idle ∧ in_domain pos = true ∧ ∃ added c, check_block e pos = Ok (added, with_checks e c) ∧ queues_ok (with_checks e c) ∧
     cq_cursor c = cq_cursor (checks e) ∧ (added = true ∧ cq_positions c = cq_positions (checks e) ++ [pos] ∨ added = false ∧ c = checks e ∧ pos ∈ cq_positions (checks e))).
Proof.
  intros [Hc Hb Hd Hi]. unfold check_block, require_idle.
  destruct (decide (phase e = Idle)) as [Hidle|Hn]; [rewrite bool_decide_eq_true_2 by done|rewrite bool_decide_eq_false_2 by done; by left]. mstep.
  right. assert (negb (in_horizontal (lb_x pos)) || negb (in_horizontal (lb_z pos)) || negb ((-2032 <=? lb_y pos) && (lb_y pos <=? 2031)) = negb (in_domain pos)) as ->.
  { unfold in_domain. by rewrite !negb_andb. }
  destruct (in_domain pos) eqn:Hdom; cbn [negb]; [|by left]. right.
  destruct (cq_insert_spec (checks e) pos Hc) as [[Hin ->]|[(_&_&->)|(Hnew&_&c'&->&Hc'&Hpos&Hcur'&_)]]; mstep; [right|by left|right].
  - split; [done|]. split; [done|]. exists false, (checks e). split; [done|]. split; [by split|]. split; [done|]. by right.
  - split; [done|]. split; [done|]. exists true, c'. split; [done|]. split; [|split; [done|by left]].
    split; cbn [with_checks checks decreases increases]; [done| |done..]. rewrite Hpos. apply Forall_app. split; [done|]. constructor; [by apply in_domain_i32|done].
Qed.

Section seeding.
Context (src : I).
Hypothesis Hsrc : source_ok src.

Lemma push_sources_spec q l :
  wq_ok q → (length (wq_items q) + length l ≤ wq_bound q)%nat →
  (∀ p st, (p, st) ∈ l → ∃ m, material (registry src) st = Some m) →
  ∃ q', push_sources src q l = Ok q' ∧ wq_ok q' ∧ wq_items q' = wq_items q ++
    ((λ '(p, st), let m := default no_material (material (registry src) st) in emission_entry p (emission m) (empty_shape m)) <$> l).
Proof.
  revert q. induction l as [|[p st] l IH]; intros q Hq Hl Hm; cbn [push_sources].
  { exists q. cbn. by rewrite app_nil_r. }
  destruct (Hm p st) as [m Hmat]; [by left|]. rewrite Hmat. mstep. cbn [length] in Hl. unfold push_expect. rewrite length_wq_items in Hl.
  destruct (wq_push_spec q (emission_entry p (emission m) (empty_shape m)) Hq) as [[? _]|(_&q'&->&Hq'&Hi&Hb&_)]; [lia|]. mstep.
  destruct (IH q' Hq') as (q2&->&?&Hi2); [rewrite Hi, length_app, length_wq_items, Hb; cbn; lia|set_solver|].
  exists q2. split; [done|]. split; [done|]. rewrite Hi2, Hi, <- app_assoc. cbn. by rewrite Hmat.
Qed.

Lemma sources_stored_spec l s :
  store_ok s → (∀ p st, (p, st) ∈ l → block_i32 p) →
  sources_stored l s = true → ∀ p st, (p, st) ∈ l → is_Some (levels s p).
Proof.
  intros Hs Hb. induction l as [|[p st] l IH]; cbn [sources_stored]; intros Hst q sq Hin; [by apply not_elem_of_nil in Hin|].
  apply andb_true_iff in Hst as [Hp Hl]. apply elem_of_cons in Hin as [[= -> ->]|Hin].
  - rewrite levels_stored by (by eapply Hb; left). apply storing_light_spec; [done|by eapply Hb; left|done].
  - eapply IH; [|done..]. intros ???. eapply Hb. by right.
Qed.

(** The emissions of the sources of a chunk, as increases. *)
Definition seeds (l : list (LightBlock * Z)) : list Entry :=
  (λ '(p, st), let m := default no_material (material (registry src) st) in emission_entry p (emission m) (empty_shape m)) <$> l.

(** A chunk is seeded as a whole, or nothing is seen of the attempt. *)
Lemma propagate_work e s chunk :
  queues_ok e → store_ok s →
  (∃ err s', propagate_light_sources src chunk (e, s) = Ok (Failed err, (e, s')) ∧ store_ok s' ∧ same_view s s') ∨
  (phase e = Idle ∧ sources_stored (emission_sources src chunk) s = true ∧
   ∃ a b q s', propagate_light_sources src chunk (e, s) = Ok (Done tt, (with_increases (with_stamps e a b) q, s')) ∧ wq_ok q ∧
     wq_items q = wq_items (increases e) ++ seeds (emission_sources src chunk) ∧ store_ok s' ∧
     has_inconsistencies s' = has_inconsistencies s ∧ (∀ p, levels s' p = levels s p) ∧
     ∀ c, light_enabled s' c = if decide (c = chunk) then true else light_enabled s c).
Proof.
  intros [Hc Hb Hd Hi] Hs.
  assert (Hfail : ∀ err : BlockLightError, ∃ err' s', Ok (Failed err, (e, s)) = (Ok (Failed err', (e, s')) : outcome False (reply BlockLightError () * (BlockLightEngine * S))) ∧ store_ok s' ∧ same_view s s').
  { intros err. exists err, s. split; [done|]. split; [done|]. apply same_view_refl. }
  unfold propagate_light_sources, call_bind, guard, require_idle, require_block.
  destruct (bool_decide (phase e = Idle)) eqn:Hidle; mstep; [apply bool_decide_eq_true in Hidle|left; apply Hfail].
  destruct (bool_decide (kind s = KBlock)); mstep; [|left; apply Hfail].
  destruct (require_source e src) as [[]|err| |] eqn:E1; mstep;
    [|left; apply Hfail|by unfold require_source, ensure in E1; repeat case_match..].
  destruct (require_storage e s) as [[]|err| |] eqn:E2; mstep;
    [|left; apply Hfail|by unfold require_storage, ensure in E2; repeat case_match..].
  rewrite wq_remaining_ok by done. unfold lift. mstep. set (sources := emission_sources src chunk).
  pose proof (wo_len _ Hi) as Hlen. destruct (Nat.ltb_spec (length (wq_entries (increases e)) - wq_len (increases e)) (length sources)) as [|Hroom]; cbn [negb]; mstep; [left; apply Hfail|].
  destruct (sources_stored sources s) eqn:Hst; mstep; [|left; apply Hfail].
  unfold on_storage. destruct (set_enabled_spec s chunk true Hs) as (s1&Hs1&[(err&->&Hv)|(->&Hk&Hstamp&Hflag&Hlv&Hen)]); mstep; [left; by eexists _, s1|right].
  set (e1 := if (length sources =? 0)%nat then e else _).
  assert (He1 : ∃ a b, e1 = with_stamps e a b).
  { unfold e1. destruct (length sources =? 0)%nat; [exists (source_seen e), (storage_seen e); by destruct e|eauto]. }
  destruct He1 as (a&b&->). cbn [with_stamps increases].
  destruct (push_sources_spec (increases e) sources Hi) as (q&->&Hq&Hqi).
  { rewrite length_wq_items. unfold wq_bound. lia. }
  { intros p st Hin. apply (so_emission src Hsrc) in Hin as (_&_&_&m&?&_). by exists m. }
  mstep. split; [done|]. split; [done|]. exists a, b, q, s1. split; [done|]. split; [done|]. split; [done|]. split; [done|]. split; [done|].
  split; [|done]. intros p. unfold levels. case_decide; [apply Hlv|done].
Qed.

(** A seed is an emitting block of the chunk. *)
Lemma seeds_spec chunk x :
  x ∈ seeds (emission_sources src chunk) →
  block_i32 (e_pos x) ∧ block_column (e_pos x) = chunk ∧ x = emission_entry (e_pos x) (emission (mat_at src (e_pos x))) (shape_at src (e_pos x)) ∧
  1 ≤ e_level x ≤ 15 ∧ ∃ st, (e_pos x, st) ∈ emission_sources src chunk.
Proof.
  intros Hx. apply list_elem_of_fmap in Hx as ([p st]&->&Hin). pose proof Hin as (Hbp&Hcol&Hstp&m&Hm&Hpos)%(so_emission src Hsrc).
  rewrite Hm. cbn [default id emission_entry e_pos e_level]. assert (Hmat : mat_at src p = m) by (unfold mat_at; by rewrite Hstp, Hm). unfold shape_at. rewrite Hmat.
  pose proof (mo_emission _ _ (mat_at_ok src Hsrc p)) as Hr. rewrite Hmat in Hr. split; [done|]. split; [done|]. split; [done|]. split; [lia|by exists st].
Qed.
End seeding.
End calls.
