(* ===== verification/BlockLightLoop.v ===== *)
(** * The block-light engine: the run loop

    [run] performs units while its budget lasts and moves from phase to phase.
    What a run guarantees is proved once, for every invariant that the units and
    the phase changes keep: the laws are the record [run_laws], with what a
    budget is enough for as a parameter. *)

From stdpp Require Import list sets.
From S2P Require Import Prelude.
From S2P Require Import View.
From S2P Require Import LightTypes.
From S2P Require Import LightTable.
From S2P Require Import LightQueue.
From S2P Require Import LightStore.
From S2P Require Import BlockLight.
From S2P Require Import BlockLightInv.
From S2P Require Import BlockLightPlan.
From S2P Require Import BlockLightMeasure.
From S2P Require Import BlockLightUnits.
Local Open Scope Z_scope.

Section loop.
Context {S I : Type} `{LightStoreLaws S} `{LightInput I} `{Allocator, QueueLayout} (src : I).
Implicit Types (s : S) (e : BlockLightEngine).

Definition settling (p : Phase) : bool := match p with StorageChanges | Publish => true | _ => false end.
(** The queue a phase works on is empty. *)
Definition drained e : bool :=
  match phase e with
  | Checks => cq_is_empty (checks e)
  | Decreases => wq_is_empty (decreases e)
  | Increases => wq_is_empty (increases e)
  | _ => true
  end.
Definition unit_of (p : Phase) : call (BlockLightEngine * S) BlockLightError () :=
  match p with Checks => run_check src | Decreases => run_decrease src | _ => run_increase src end.
(** The engine in the phase after a drained one. *)
Definition next_phase e : BlockLightEngine :=
  match phase e with
  | Checks => with_phase (with_checks e (cq_clear (checks e))) Decreases
  | Decreases => with_phase e Increases
  | _ => with_phase e StorageChanges
  end.

Section laws.
Context (J F : BlockLightEngine → S → Prop) (fits : nat → BlockLightEngine → S → Prop).

(** A unit that worked, seen from outside. *)
Definition advanced e s (r : outcome False (reply BlockLightError () * (BlockLightEngine * S))) : Prop :=
  ∃ e' s', r = Ok (Done tt, (e', s')) ∧ J e' s' ∧ phase e' = phase e ∧ ∀ n, fits (Datatypes.S n) e s → fits n e' s'.

(** [J] holds between the calls, [F] when a run has completed, and a budget of
    [n] units is enough for what is left when [fits n]. *)
Record run_laws : Prop := {
  rl_store e s : J e s → store_ok s;
  rl_view e s s' : J e s → store_ok s' → same_view s s' → J e s';
  rl_stamps e s a b : J e s → J (with_stamps e a b) s ∧ ∀ n, fits n e s → fits n (with_stamps e a b) s;
  rl_start e s : J e s → phase e = Idle → J (with_phase e Checks) s ∧ ∀ n, fits n e s → fits n (with_phase e Checks) s;
  rl_unit e s : J e s → phase e ≠ Idle → settling (phase e) = false → drained e = false →
    stalled e s (unit_of (phase e) (e, s)) ∨ advanced e s (unit_of (phase e) (e, s));
  rl_busy e s : J e s → phase e ≠ Idle → settling (phase e) = false → drained e = false → ¬ fits 0 e s;
  rl_next e s : J e s → phase e ≠ Idle → settling (phase e) = false → drained e = true → J (next_phase e) s ∧ ∀ n, fits n e s → fits n (next_phase e) s;
  rl_settle e s s' : J e s → phase e = StorageChanges → process_inconsistencies s = Ok (Done tt, s') → store_ok s' →
    J (with_phase e Publish) s' ∧ ∀ n, fits n e s → fits n (with_phase e Publish) s';
  rl_publish e s s' : J e s → phase e = Publish → store_ok s' → same_view s s' → F (with_stamps (with_phase e Idle) None None) s';
}.
Hypothesis laws : run_laws.

Definition incomplete (r : reply BlockLightError RunProgress) : bool :=
  match r with Done progress => negb (complete progress) | Failed _ => false end.
Definition run_result (work_budget : nat) (r : reply BlockLightError RunProgress) e s : Prop :=
  match r with
  | Done progress => if complete progress then F e s else J e s ∧ processed progress = work_budget
  | Failed err => J e s ∧ halted e s err
  end.

(** Iterations that the budget does not pay for. *)
Definition rank (p : Phase) : nat :=
  match p with Idle => 0 | Checks => 6 | Decreases => 5 | Increases => 4 | StorageChanges => 3 | Publish => 2 end.

Section budget.
Context (work_budget : nat).

(** The loop returns, with a result of these. *)
Definition returns (done_ : nat) e s (r : outcome False (reply BlockLightError RunProgress * (BlockLightEngine * S))) : Prop :=
  ∃ a e' s', r = Ok (a, (e', s')) ∧ run_result work_budget a e' s' ∧ (fits (work_budget - done_) e s → incomplete a = false).
Definition loop_ok (fuel : nat) : Prop := ∀ done_ e s,
  J e s → phase e ≠ Idle → (done_ ≤ work_budget)%nat → (work_budget - done_ + rank (phase e) ≤ fuel)%nat →
  returns done_ e s (run_loop src fuel work_budget done_ (e, s)).

(** One unit of work, paid by the budget. *)
Lemma work_step fuel done_ e s (m : call (BlockLightEngine * S) BlockLightError ()) :
  loop_ok fuel → J e s → phase e ≠ Idle → (done_ ≤ work_budget)%nat →
  (work_budget - done_ + rank (phase e) ≤ Datatypes.S fuel)%nat → ¬ fits 0 e s →
  stalled e s (m (e, s)) ∨ advanced e s (m (e, s)) →
  returns done_ e s ((if (done_ =? work_budget)%nat then call_ret {| processed := done_; complete := false |}
     else call_bind m (λ _, run_loop src fuel work_budget (done_ + 1))) (e, s)).
Proof.
  intros IH Hinv Hp Hd Hf Hbusy Hm. destruct (Nat.eqb_spec done_ work_budget) as [->|Hne].
  { eexists _, e, s. split; [done|]. split; [by split|]. by rewrite Nat.sub_diag. }
  unfold call_bind. destruct Hm as [(err&s'&->&?&?&?)|(e'&s'&->&Hinv'&Hp'&Hless)]; mstep.
  - eexists _, e, s'. split; [done|]. split; [split; [by eapply rl_view|done]|done].
  - destruct (IH (done_ + 1)%nat e' s') as (r&e2&s2&->&Hr&Hfit); [done|by rewrite Hp'|lia|rewrite Hp'; lia|].
    exists r, e2, s2. split; [done|]. split; [done|]. intros Hn. apply Hfit, Hless. by replace (Datatypes.S (work_budget - (done_ + 1))) with (work_budget - done_)%nat by lia.
Qed.

(** Moving to the next phase. *)
Lemma phase_step fuel done_ e s e' s' (m : call (BlockLightEngine * S) BlockLightError ()) :
  loop_ok fuel → m (e, s) = Ok (Done tt, (e', s')) → (J e' s' ∧ ∀ n, fits n e s → fits n e' s') → phase e' ≠ Idle → (done_ ≤ work_budget)%nat →
  (work_budget - done_ + rank (phase e') ≤ fuel)%nat → returns done_ e s (call_bind m (λ _, run_loop src fuel work_budget done_) (e, s)).
Proof.
  intros IH Hm [Hinv Hmono] Hp Hd Hf. unfold call_bind. rewrite Hm. mstep. destruct (IH done_ e' s') as (r&e2&s2&->&?&?); [done..|].
  exists r, e2, s2. auto.
Qed.

(** A phase that works on a queue. *)
Lemma queue_step fuel done_ e s (m : call (BlockLightEngine * S) BlockLightError ()) :
  loop_ok fuel → J e s → phase e ≠ Idle → settling (phase e) = false → (done_ ≤ work_budget)%nat → (work_budget - done_ + rank (phase e) ≤ Datatypes.S fuel)%nat →
  (drained e = true → m (e, s) = Ok (Done tt, (next_phase e, s))) →
  returns done_ e s
    ((if drained e then call_bind m (λ _, run_loop src fuel work_budget done_)
      else if (done_ =? work_budget)%nat then call_ret {| processed := done_; complete := false |}
      else call_bind (unit_of (phase e)) (λ _, run_loop src fuel work_budget (done_ + 1))) (e, s)).
Proof.
  intros IH Hinv Hp Hset Hd Hf Hm. destruct (drained e) eqn:Hdr.
  - eapply phase_step; [done|by apply Hm|by apply (rl_next laws)|unfold next_phase; by destruct (phase e)|done|].
    unfold next_phase. destruct (phase e); cbn in *; (done || lia).
  - apply work_step; [done..| |]; [by apply (rl_busy laws)|by apply (rl_unit laws)].
Qed.

Lemma run_loop_spec fuel : loop_ok fuel.
Proof.
  induction fuel as [|fuel IH]; intros done_ e s Hinv Hp Hd Hf.
  { destruct (phase e) eqn:E; cbn in Hf; [done|lia..]. }
  cbn [run_loop]. pose proof (queue_step fuel done_ e s) as Hq.
  destruct (phase e) eqn:E; [done| | | | |]; unfold drained, unit_of, next_phase in Hq; rewrite E in Hq.
  - specialize (Hq (modify (λ e, Ok (with_phase (with_checks e (cq_clear (checks e))) Decreases))) IH Hinv). destruct (cq_is_empty (checks e)); apply Hq; done.
  - specialize (Hq (modify (λ e, Ok (with_phase e Increases))) IH Hinv). destruct (wq_is_empty (decreases e)); apply Hq; done.
  - specialize (Hq (modify (λ e, Ok (with_phase e StorageChanges))) IH Hinv). destruct (wq_is_empty (increases e)); apply Hq; done.
  - destruct (process_inconsistencies_spec s (rl_store laws e s Hinv)) as (s2&Hproc&Hs2&_).
    unfold call_bind at 1, on_storage. rewrite Hproc. mstep. cbn [rank] in Hf.
    unfold call_bind, modify. mstep. destruct (rl_settle laws e s s2 Hinv E Hproc Hs2) as [Hinv2 Hmono].
    destruct (IH done_ (with_phase e Publish) s2) as (r&e2&s3&->&?&?); [done|done|done|cbn; lia|]. exists r, e2, s3. auto.
  - destruct (publish_visible_spec s (rl_store laws e s Hinv)) as (r&s'&Hpub&Hs'&Hv).
    unfold call_bind at 1, on_storage. rewrite Hpub. mstep. destruct r as [[]|err].
    + eexists _, _, s'. split; [reflexivity|]. cbn [run_result complete]. split; [|done]. by eapply (rl_publish laws).
    + eexists _, e, s'. split; [reflexivity|]. split; [|done]. split; [by eapply (rl_view laws)|]. right; left. by exists s.
Qed.
End budget.

(** Which typed error stops a run before it starts. *)
Definition run_refused e s : option BlockLightError :=
  if decide (kind s = KBlock) then
    if match source_seen e with Some stamp => (stamp =? source_stamp src)%nat | None => true end then
      if match storage_seen e with Some stamp => (stamp =? store_stamp s)%nat | None => true end then None else Some StorageMismatch
    else Some SourceMismatch
  else Some WrongLayer.

Lemma run_started e s work_budget :
  J e s → returns work_budget 0 e s (run_loop src (work_budget + 6) work_budget 0 (if decide (phase e = Idle) then with_phase e Checks else e, s)).
Proof.
  intros Hinv. destruct (decide (phase e = Idle)) as [Hidle|Hne].
  - destruct (rl_start laws e s Hinv Hidle) as [Hinv' Hmono].
    destruct (run_loop_spec work_budget (work_budget + 6)%nat 0%nat (with_phase e Checks) s) as (r&e'&s'&->&Hr&Hfit); [done|done|lia|cbn; lia|].
    exists r, e', s'. auto.
  - apply run_loop_spec; [done|done|lia|destruct (phase e); cbn; lia].
Qed.

(** A run is refused, or returns with a result of the invariant. *)
Lemma run_spec e s work_budget :
  J e s →
  match run_refused e s with
  | Some err => run src work_budget (e, s) = Ok (Failed err, (e, s))
  | None => returns work_budget 0 e s (run src work_budget (e, s))
  end.
Proof.
  intros Hinv. unfold run_refused, run, call_bind, guard, require_block, require_source, require_storage.
  destruct (decide (kind s = KBlock)) as [Hk|Hk]; [rewrite bool_decide_eq_true_2 by done|by rewrite bool_decide_eq_false_2 by done]. mstep.
  pose proof (run_started e s work_budget Hinv) as Hgo.
  assert (Hgo' : ∀ a b, returns work_budget 0 e s (run_loop src (work_budget + 6) work_budget 0 (if decide (phase (with_stamps e a b) = Idle) then with_phase (with_stamps e a b) Checks else with_stamps e a b, s))).
  { intros a b. destruct (rl_stamps laws e s a b Hinv) as [Hst Hmono]. destruct (run_started _ s work_budget Hst) as (r&e'&s'&->&?&Hf).
    exists r, e', s'. auto. }
  destruct (source_seen e) as [a|] eqn:Ea.
  - destruct (Nat.eqb_spec a (source_stamp src)) as [->|]; mstep; [|done].
    destruct (storage_seen e) as [b|] eqn:Eb.
    + destruct (Nat.eqb_spec b (store_stamp s)); mstep; [|done]. rewrite Ea. apply Hgo.
    + mstep. rewrite Ea. apply Hgo.
  - mstep. destruct (storage_seen e) as [b|] eqn:Eb.
    + destruct (Nat.eqb_spec b (store_stamp s)); mstep; [|done]. rewrite Ea. apply Hgo'.
    + mstep. rewrite Ea. apply Hgo'.
Qed.
End laws.
End loop.
