(* ===== verification/BlockLightSafe.v ===== *)
(** * The block-light engine: safety and termination

    What holds of the engine whatever is done with it and with its storage: the
    queues are well formed, the increases are for blocks at levels of a nibble,
    and a phase has nothing left of the phases before it.  Nothing is asked of
    the light that is stored, of the source the entries came from, or of the
    calls on the storage between the runs.  A run from such a state returns, and
    a budget of the work that is left is enough for it. *)

From stdpp Require Import list sets relations.
From S2P Require Import Prelude.
From S2P Require Import View.
From S2P Require Import LightTypes.
From S2P Require Import LightTable.
From S2P Require Import LightQueue.
From S2P Require Import LightStore.
From S2P Require Import BlockLight.
From S2P Require Import BlockLightInv.
From S2P Require Import BlockLightPlan.
From S2P Require Import BlockLightMeasure.
From S2P Require Import BlockLightUnits.
From S2P Require Import BlockLightLoop.
Local Open Scope Z_scope.

Section safe.
Context {S I : Type} `{LightStoreLaws S} `{LightInput I} `{Allocator, QueueLayout}.
Implicit Types (s : S) (e : BlockLightEngine) (src : I).

(** An increase that a unit can take. *)
Definition increase_ok (x : Entry) : Prop := block_i32 (e_pos x) ∧ 0 ≤ e_level x ≤ 15.
(** What the phases before have left. *)
Definition phase_ok e : Prop :=
  match phase e with
  | Idle | Checks => True
  | Decreases => cleared e
  | Increases => cleared e ∧ wq_items (decreases e) = []
  | StorageChanges | Publish => cleared e ∧ wq_items (decreases e) = [] ∧ wq_items (increases e) = []
  end.
Record safe e s : Prop := {
  sa_queues : queues_ok e;
  sa_increases : Forall increase_ok (wq_items (increases e));
  sa_store : store_ok s;
  sa_phase : phase_ok e;
}.
(** A run has completed. *)
Record spent e s : Prop := {
  sp_safe : safe e s;
  sp_idle : phase e = Idle ∧ source_seen e = None ∧ storage_seen e = None;
  sp_empty : cleared e ∧ wq_items (decreases e) = [] ∧ wq_items (increases e) = [];
}.

(** ** The work that is left *)

(** [dom] has every stored block. *)
Definition covers (dom : list LightBlock) s : Prop := ∀ p, is_Some (levels s p) → p ∈ dom.
Definition units_left (dom : list LightBlock) e s : nat :=
  match phase e with
  | Idle | Checks | Decreases =>
      decrease_work dom (levels s) (length (pending e)) (length (wq_items (decreases e))) (length (wq_items (increases e)))
  | Increases => increase_work dom (levels s) (length (wq_items (increases e)))
  | StorageChanges | Publish => 0
  end.
(** A budget of [n] is enough for the work that is left. *)
Definition fits (n : nat) e s : Prop := ∃ dom, (settling (phase e) = false → covers dom s) ∧ (units_left dom e s ≤ n)%nat.

Lemma fits_less n e e' s s' :
  settling (phase e) = false → (∀ dom, covers dom s → covers dom s' ∧ (units_left dom e' s' ≤ units_left dom e s)%nat) → fits n e s → fits n e' s'.
Proof. intros Hs Hl (dom&Hdom&?). exists dom. destruct (Hl dom (Hdom Hs)). split; [auto|lia]. Qed.
Lemma fits_settling n e s : settling (phase e) = true → fits n e s.
Proof. intros Hs. exists []. unfold units_left. split; [congruence|]. destruct (phase e); (done || apply Nat.le_0_l). Qed.
Lemma busy_units e s : (∀ dom, 1 ≤ units_left dom e s)%nat → ¬ fits 0 e s.
Proof. intros Hu (dom&_&Hn). specialize (Hu dom). lia. Qed.

Lemma items_busy q : wq_is_empty q = false → (1 ≤ length (wq_items q))%nat.
Proof. unfold wq_is_empty. rewrite Nat.eqb_neq, <- length_wq_items. lia. Qed.
Lemma items_empty q : wq_is_empty q = true → wq_items q = [].
Proof. unfold wq_is_empty. rewrite Nat.eqb_eq, <- length_wq_items, length_zero_iff_nil. done. Qed.
Lemma pending_busy e : cq_ok (checks e) → cq_is_empty (checks e) = false → (1 ≤ length (pending e))%nat.
Proof. intros Hc He. unfold pending. destruct (cq_pop_spec (checks e) Hc) as [(_&?&_)|(?&?&->&_)]; [congruence|cbn; lia]. Qed.
Lemma pending_empty e : cq_ok (checks e) → cq_is_empty (checks e) = true → pending e = [].
Proof. intros Hc He. unfold pending. destruct (cq_pop_spec (checks e) Hc) as [[? _]|(?&?&_&Hf&_)]; [done|congruence]. Qed.

(** ** Units *)

Section source.
Context (src : I).
Hypothesis Hsrc : source_ok src.

Lemma emit_ok s p : 0 ≤ emit src s p ≤ 15.
Proof. apply (emit_at_range src Hsrc). Qed.
Lemma level_ok s : store_ok s → ∀ p l, levels s p = Some l → 0 ≤ l ≤ 15.
Proof. intros Hs p l. by apply levels_range. Qed.

Lemma covers_stored dom ws s s' :
  (∀ p v, (p, v) ∈ ws → is_Some (levels s p)) → written ws (levels s) (levels s') → covers dom s → covers dom s'.
Proof. intros Hws Hw Hdom p Hp. apply Hdom. by eapply written_stored. Qed.

(** A unit that was performed leaves a safe state with less work. *)
Lemma performed_advanced e s e1 ws ds is_ r :
  performed s e1 ws ds is_ r → phase e = phase e1 → settling (phase e) = false →
  queues_ok e1 → Forall increase_ok (wq_items (increases e1) ++ is_) → (∀ p v, (p, v) ∈ ws → is_Some (levels s p)) →
  (∀ d i, wq_items d = wq_items (decreases e1) ++ ds → wq_items i = wq_items (increases e1) ++ is_ →
     let e' := with_increases (with_decreases e1 d) i in
     phase_ok e' ∧ ∀ dom s', written ws (levels s) (levels s') → covers dom s → (units_left dom e' s' < units_left dom e s)%nat) →
  advanced safe fits e s r.
Proof.
  intros (d&i&s'&->&Hd&Hi&Hs'&Hdi&Hii&Hw&_) Hph Hset [Hc Hb _ _] Hinc Hst Hless.
  destruct (Hless d i Hdi Hii) as [Hp Hl]. eexists _, s'. split; [done|]. split; [|split; [by cbn|]].
  - split; [by split|cbn; by rewrite Hii|done|done].
  - intros n (dom&Hdom&Hn). specialize (Hdom Hset). exists dom. split; [intros _; by eapply covers_stored|]. specialize (Hl dom s' Hw Hdom). lia.
Qed.

Lemma check_increase_ok s x : block_i32 x → Forall increase_ok (check_incs (emit src s) (shape_at src) x).
Proof. intros Hx. unfold check_incs. destruct (_ =? _); [constructor|]. apply Forall_singleton. split; [done|apply emit_ok]. Qed.

Lemma check_unit e s :
  safe e s → phase e = Checks → cq_is_empty (checks e) = false →
  stalled e s (run_check src (e, s)) ∨ advanced safe fits e s (run_check src (e, s)).
Proof.
  intros [Hq Hi Hs _] Hp Hne. destruct (run_check_unit src Hsrc e s Hq Hs Hne) as (x&c'&Hpend&Hc'&Hpos&[Hst|Hr]); [by left|right].
  assert (Hq1 : queues_ok (with_checks e c')) by (destruct Hq; split; cbn; [done|by rewrite Hpos|done..]).
  assert (Hx : block_i32 x).
  { pose proof (qs_blocks _ Hq) as Hb. rewrite Forall_forall in Hb. apply Hb. rewrite <- (take_drop (cq_cursor (checks e)) (cq_positions (checks e))). apply elem_of_app. right. fold (pending e). rewrite Hpend. by left. }
  destruct (levels s x) as [old|] eqn:Hl; (eapply performed_advanced; [exact Hr|done|by rewrite Hp|done| | |]).
  - apply Forall_app. split; [done|by apply check_increase_ok].
  - unfold check_writes. intros p v Hin. destruct (_ <? _); [|by apply not_elem_of_nil in Hin]. apply list_elem_of_singleton in Hin. injection Hin as -> ->. by rewrite Hl.
  - intros d i Hd' Hi' e'. split; [unfold phase_ok; cbn; by rewrite Hp|]. intros dom s' Hw _.
    unfold units_left. rewrite Hpend. cbn [e' with_increases with_decreases with_checks phase decreases increases]. rewrite Hp, Hd', Hi', !length_app. cbn [length with_checks decreases increases].
    rewrite <- (Nat.add_1_r (length (drop _ _))). pose proof (level_ok s Hs _ _ Hl).
    apply (check_work (emit src s) (att_at src) (occ_at src) (shape_at src) (emit_ok s) (att_at_pos src) dom (levels s) (levels s') x old); (done || lia).
  - by rewrite app_nil_r.
  - intros p v Hin. by apply not_elem_of_nil in Hin.
  - intros d i Hd' Hi' e'. split; [unfold phase_ok; cbn; by rewrite Hp|]. intros dom s' Hw _.
    unfold units_left. rewrite Hpend. cbn [e' with_increases with_decreases with_checks phase decreases increases]. rewrite Hp, Hd', Hi', !app_nil_r. cbn [length with_checks decreases increases].
    assert (total lit_weight (levels s') dom ≤ total lit_weight (levels s) dom)%nat.
    { apply total_le. intros p _. destruct (Hw p) as [(v&Hin&_)|[_ ->]]; [by apply not_elem_of_nil in Hin|done]. }
    change (pending e') with (drop (cq_cursor c') (cq_positions c')). unfold decrease_work. lia.
Qed.

Lemma dec_increase_ok s x : store_ok s → Forall increase_ok (all_of (dec_incs (emit src s) (shape_at src) (levels s) x)).
Proof.
  intros Hs. apply Forall_forall. intros y Hy. apply elem_of_all_of in Hy as [d Hd]. unfold dec_incs in Hd.
  destruct (toward x d); [|by apply not_elem_of_nil in Hd]. destruct (levels s (dir_step d (e_pos x))) as [l|] eqn:Hl; [|by apply not_elem_of_nil in Hd].
  destruct (l =? 0); [by apply not_elem_of_nil in Hd|]. destruct (l <? e_level x); [destruct (_ =? 0); [by apply not_elem_of_nil in Hd|]|];
    apply list_elem_of_singleton in Hd as ->; (split; [apply dir_step_i32|]); [apply emit_ok|by eapply level_ok].
Qed.

Lemma decrease_unit e s :
  safe e s → phase e = Decreases → wq_is_empty (decreases e) = false →
  stalled e s (run_decrease src (e, s)) ∨ advanced safe fits e s (run_decrease src (e, s)).
Proof.
  intros [Hq Hi Hs Hph] Hp Hne. unfold phase_ok in Hph. rewrite Hp in Hph. destruct (run_decrease_unit src Hsrc e s Hq Hs Hne) as (x&q'&Hit&Hq'&[Hst|Hr]); [by left|right].
  assert (Hlv : ∀ p l, levels s p = Some l → 0 ≤ l) by (intros p l Hl; by eapply level_ok).
  eapply performed_advanced; [exact Hr|done|by rewrite Hp|destruct Hq; by split| | |].
  - apply Forall_app. split; [done|by apply dec_increase_ok].
  - intros p v Hin. by destruct (dec_write (levels s) x p v Hlv Hin) as (_&d&l&_&->&_).
  - intros d i Hd' Hi' e'. split; [unfold phase_ok; cbn; by rewrite Hp|]. intros dom s' Hw Hdom.
    unfold units_left, pending. cbn [e' with_increases with_decreases phase checks decreases increases]. rewrite Hp, Hd', Hi', Hit, !length_app. cbn [length with_decreases decreases increases].
    by apply (dec_work (emit src s) (shape_at src)).
Qed.

Lemma inc_increase_ok s x old :
  store_ok s → increase_ok x → levels s (e_pos x) = Some old → let occ := occ_as src (e_empty_shape x) in
  Forall increase_ok (inc_all_incs (att_at src) occ (shape_at src) (levels s) x old).
Proof.
  intros Hs [_ Hx] Hold occ. apply Forall_forall. intros y Hy. unfold inc_all_incs in Hy.
  destruct (inc_level x old =? e_level x) eqn:HL; [|by apply not_elem_of_nil in Hy]. apply elem_of_all_of in Hy as [d Hd]. unfold inc_incs in Hd.
  destruct (inc_raise (att_at src) occ (levels s) x (inc_level x old) d) as [new|] eqn:Hr; [|by apply not_elem_of_nil in Hd].
  destruct (1 <? new); [|by apply not_elem_of_nil in Hd]. apply list_elem_of_singleton in Hd as ->. split; [apply dir_step_i32|]. cbn [on_entry e_level].
  assert (Hin : (dir_step d (e_pos x), new) ∈ inc_all_writes (att_at src) occ (levels s) x old).
  { unfold inc_all_writes. apply elem_of_app. right. rewrite HL. apply elem_of_all_of. exists d. unfold inc_writes. rewrite Hr. by left. }
  destruct (inc_write (att_at src) occ (att_at_pos src) (levels s) x old _ _ (level_ok s Hs) Hx Hold Hin) as (l&Hl&?&_). pose proof (level_ok s Hs _ _ Hl). lia.
Qed.

Lemma increase_unit e s :
  safe e s → phase e = Increases → wq_is_empty (increases e) = false →
  stalled e s (run_increase src (e, s)) ∨ advanced safe fits e s (run_increase src (e, s)).
Proof.
  intros [Hq Hi Hs Hph] Hp Hne. unfold phase_ok in Hph. rewrite Hp in Hph. destruct Hph as [Hcl Hdec].
  destruct (run_increase_unit src Hsrc e s Hq Hs Hne) as (x&q'&Hit&Hq'&Hr). rewrite Hit in Hi. apply Forall_cons in Hi as [[Hb Hx] Hi].
  destruct (Hr Hb Hx) as [Hst|(old&Hold&Hdone)]; [by left|right].
  pose proof (inc_write (att_at src) (occ_as src (e_empty_shape x)) (att_at_pos src) (levels s) x old) as Hwrite.
  eapply performed_advanced; [exact Hdone|done|by rewrite Hp|destruct Hq; by split| | |].
  - apply Forall_app. split; [done|by apply inc_increase_ok].
  - intros p v Hin. by destruct (Hwrite p v (level_ok s Hs) Hx Hold Hin) as (l&->&_).
  - intros d i Hd' Hi' e'. split; [unfold phase_ok; cbn; rewrite Hp, Hd', app_nil_r; by split|]. intros dom s' Hw Hdom.
    unfold units_left. cbn [e' with_increases with_decreases phase increases]. rewrite Hp, Hi', Hit, length_app. cbn [length with_increases increases].
    apply (inc_work (emit src s) (att_at src) _ (shape_at src) (emit_ok s) (att_at_pos src)); [by apply level_ok|done..].
Qed.
End source.

(** ** Runs *)

Lemma safe_view e s s' : safe e s → store_ok s' → safe e s'.
Proof. intros [? ? _ ?] ?. by split. Qed.
Lemma fits_stamps n e s a b : fits n e s → fits n (with_stamps e a b) s.
Proof. done. Qed.
Lemma room_left e s dom : store_ok s → (total room_weight (levels s) dom ≤ 15 * length dom)%nat.
Proof. intros Hs. apply total_room_bound. intros p l Hl. by eapply level_ok. Qed.

Lemma drained_next e s :
  safe e s → phase e ≠ Idle → settling (phase e) = false → drained e = true → safe (next_phase e) s ∧ ∀ n, fits n e s → fits n (next_phase e) s.
Proof.
  intros [Hq Hi Hs Hph] Hp Hset Hdr. pose proof Hq as [Hc Hb Hd Hin]. unfold phase_ok in Hph. unfold drained in Hdr. unfold next_phase.
  destruct (phase e) eqn:E; [done| | | |done..].
  - destruct (cq_clear_spec (checks e) Hc) as (Hc'&Hpos&_&Hcur). split; [split; [split; cbn; [done|by rewrite Hpos|done..]|done..]|].
    intros n. apply fits_less; [by rewrite E|]. intros dom Hdom. split; [done|]. unfold units_left, pending. cbn [with_phase with_checks phase checks decreases increases].
    rewrite E, Hpos, drop_nil. unfold decrease_work. cbn [length]. lia.
  - split; [split; [by split|done..|]; split; [done|by apply items_empty]|].
    intros n. apply fits_less; [by rewrite E|]. intros dom Hdom. split; [done|]. unfold units_left. cbn [with_phase phase increases]. rewrite E.
    pose proof (room_left e s dom Hs). unfold decrease_work, increase_work. lia.
  - split; [split; [by split|done..|]; destruct Hph; split; [done|]; split; [done|by apply items_empty]|]. intros n _. by apply fits_settling.
Qed.

Lemma safe_laws src : source_ok src → run_laws src safe spent fits.
Proof.
  intros Hsrc. split.
  - by intros e s [].
  - intros e s s' Hsafe Hs' _. by eapply safe_view.
  - intros e s a b [[] ? ? ?]. by split; [split; [by split|..]|].
  - intros e s [[] ? ? ?] Hidle. split; [by split; [by split|..]|]. intros n (dom&Hdom&Hn). rewrite Hidle in Hdom. exists dom.
    split; [intros _; by apply Hdom|]. unfold units_left in *. rewrite Hidle in Hn. exact Hn.
  - intros e s Hsafe Hp Hset Hdr. unfold drained, unit_of in *. destruct (phase e) eqn:E; [done| | | |done..].
    + by apply check_unit.
    + by apply decrease_unit.
    + by apply increase_unit.
  - intros e s [Hq _ _ _] Hp Hset Hdr. apply busy_units. intros dom. unfold units_left, drained in *. destruct (phase e); [done| | | |done..].
    + pose proof (pending_busy e (qs_checks _ Hq) Hdr). unfold decrease_work. lia.
    + pose proof (items_busy _ Hdr). unfold decrease_work. lia.
    + pose proof (items_busy _ Hdr). unfold increase_work. lia.
  - intros e s. apply drained_next.
  - intros e s s' [[] ? ? Hph] Hp _ Hs'. unfold phase_ok in Hph. rewrite Hp in Hph. split; [by split; [by split|..]|]. intros n _. by apply fits_settling.
  - intros e s s' [[] ? ? Hph] Hp Hs' _. unfold phase_ok in Hph. rewrite Hp in Hph. split; [by split; [by split|..]|done|done].
Qed.

Lemma no_work e : phase e = Idle → cleared e ∧ wq_items (decreases e) = [] ∧ wq_items (increases e) = [] → has_work e = false.
Proof.
  intros Hidle ((Hpos&Hcur)&Hd&Hi). unfold has_work. rewrite bool_decide_eq_true_2 by done.
  assert (Hwq : ∀ q, wq_items q = [] → wq_is_empty q = true) by (intros q Hq; unfold wq_is_empty; by rewrite <- length_wq_items, Hq).
  rewrite !Hwq by done. unfold cq_is_empty. by rewrite Hpos, Hcur.
Qed.

(** ** Everything that can be done *)

(** A call on the engine with any source, or a change of the storage by any of
    its calls. *)
Inductive used : BlockLightEngine * S → BlockLightEngine * S → Prop :=
| used_run src budget e s r e' s' :
    source_ok src → run src budget (e, s) = Ok (r, (e', s')) → used (e, s) (e', s')
| used_grow hash limits e s r e' :
    grow_queues hash limits e = Ok (r, e') → used (e, s) (e', s)
| used_check pos e s added e' :
    check_block e pos = Ok (added, e') → used (e, s) (e', s)
| used_seed src chunk e s r e' s' :
    source_ok src → propagate_light_sources src chunk (e, s) = Ok (r, (e', s')) → used (e, s) (e', s')
| used_storage e s s' :
    store_ok s' → used (e, s) (e, s').

Lemma grown_safe e e' s : safe e s → queues_ok e' → same_work e e' → safe e' s.
Proof.
  intros [_ Hi Hs Hp] Hq [Hpos Hcur Hd Hin Hph _]. split; [done|by rewrite Hin|done|]. unfold phase_ok, cleared in *. by rewrite Hph, Hpos, Hcur, Hd, Hin.
Qed.

Lemma used_safe e s e' s' : safe e s → used (e, s) (e', s') → safe e' s'.
Proof.
  intros Hsafe Hu. inversion Hu as [src budget ????? Hsrc Hrun|hash limits ???? Hg|pos ???? Hc|src chunk ????? Hsrc Hp|]; subst.
  - pose proof (run_spec src safe spent fits (safe_laws src Hsrc) e s budget Hsafe) as Hr. destruct (run_refused src e s).
    + rewrite Hr in Hrun. by injection Hrun as <- <- <-.
    + destruct Hr as (r'&e2&s2&Hr&Hres&_). rewrite Hr in Hrun. injection Hrun as -> -> ->. destruct r as [progress|err]; cbn in *; [|apply Hres].
      destruct (complete progress); apply Hres.
  - destruct (grow_queues_work hash limits e (sa_queues _ _ Hsafe)) as (r'&e2&Hg'&?&?). rewrite Hg' in Hg. injection Hg as -> ->. by eapply grown_safe.
  - pose proof (sa_queues _ _ Hsafe) as Hq. destruct (check_block_work e pos Hq) as [[E _]|[[E _]|[E|(Hidle&_&a&c&E&Hqc&_)]]]; rewrite E in Hc; [done..|].
    injection Hc as <- <-. destruct Hsafe as [_ Hi Hs Hph]. split; [done..|]. unfold phase_ok. cbn. by rewrite Hidle.
  - destruct Hsafe as [Hq Hi Hs Hph]. destruct (propagate_work src Hsrc e s chunk Hq Hs) as [(err&s2&E&?&_)|(Hidle&_&a&b&q&s2&E&Hqq&Hitems&Hs2&_)]; rewrite E in Hp; injection Hp as _ <- <-; [by split|].
    destruct Hq. split; [by split| |done|].
    + cbn. rewrite Hitems. apply Forall_app. split; [done|]. apply Forall_forall. intros x Hx. destruct (seeds_spec src Hsrc chunk x Hx) as (?&_&_&?&_). split; [done|lia].
    + unfold phase_ok. cbn. by rewrite Hidle.
  - by eapply safe_view.
Qed.

Lemma uses_safe c c' : rtc used c c' → safe c.1 c.2 → safe c'.1 c'.2.
Proof. induction 1 as [c|[e1 s1] [e2 s2] c' Hu _ IH]; [done|]. intros Hs. apply IH. by eapply used_safe. Qed.

Lemma engine_new_safe hash limits e s :
  0 ≤ checks_limit limits → 0 ≤ decreases_limit limits → 0 ≤ increases_limit limits → engine_new hash limits = Ok e → store_ok s → safe e s.
Proof.
  intros Hc Hd Hi. unfold engine_new.
  destruct (cq_new_cases hash (checks_limit limits) (queue_bytes limits) Hc) as [(?&->&_)|(c&r&->&_&_&Hcok&Hpos&Hcur&_)]; mstep; [done|].
  destruct (wq_new_cases (decreases_limit limits) r Hd) as [(?&->&_)|(d&->&Hdok&Hdi&_)]; mstep; [done|].
  destruct (wq_new_cases (increases_limit limits) (r - wq_heap_bytes d) Hi) as [(?&->&_)|(i&->&Hiok&Hii&_)]; mstep; [done|].
  intros [= <-] Hs. split; [split; cbn; [done|by rewrite Hpos|done..]|cbn; by rewrite Hii|done|done].
Qed.
End safe.
