(* ===== verification/BlockLightRun.v ===== *)
(** * The block-light engine: the light of a run

    Each work unit is one step of the propagation theory, so that a state whose
    levels are settled but for the work that is queued stays one across budgets,
    errors and retries ([engine_inv]); a complete run leaves levels that are the
    brightest light of the source. *)

From stdpp Require Import list sets.
From S2P Require Import Prelude.
From S2P Require Import View.
From S2P Require Import LightTypes.
From S2P Require Import LightTable.
From S2P Require Import LightQueue.
From S2P Require Import LightStore.
From S2P Require Import BlockLight.
From S2P Require Import BlockLightInv.
From S2P Require Import BlockLightPlan.
From S2P Require Import BlockLightUnits.
From S2P Require Import BlockLightLoop.
From S2P Require Import BlockLightSafe.
Local Open Scope Z_scope.

Section run.
Context {S I : Type} `{LightStoreLaws S} `{LightInput I} `{Allocator, QueueLayout} (src : I).
Hypothesis Hsrc : source_ok src.
Implicit Types (s : S) (e : BlockLightEngine).

(** The theory, at the source and the enabled columns of a state. *)
Definition inv_at s (todo : list LightBlock) (decs incs : list Entry) : Prop :=
  light_inv (emit src s) (att_at src) (occ_at src) (shape_at src) (levels s) todo decs incs.

(** The invariant only depends on the levels and the emissions pointwise. *)
Lemma light_inv_ext E E' lv lv' todo decs incs :
  (∀ p, E' p = E p) → (∀ p, lv' p = lv p) →
  light_inv E (att_at src) (occ_at src) (shape_at src) lv todo decs incs →
  light_inv E' (att_at src) (occ_at src) (shape_at src) lv' todo decs incs.
Proof.
  intros HE Hlv [Hb Hr Hi Hd Hem Hed Hsu].
  assert (Hw : ∀ q l v, will_have E incs q l v → will_have E' incs q l v).
  { intros q l v [?|[? ?]]; [by left|right; by rewrite HE]. }
  split.
  - intros p l. rewrite Hlv. apply Hb.
  - intros p l. rewrite Hlv. apply Hr.
  - intros e He. rewrite Hlv, HE. by apply Hi.
  - intros e He. rewrite Hlv. by apply Hd.
  - intros p l. rewrite Hlv, HE. intros Hl. destruct (Hem p l Hl); [by left|right; by apply Hw].
  - intros p l d l'. rewrite !Hlv. intros Hl Hl'. unfold edge_settled.
    destruct (Hed p l d l' Hl Hl') as [?|[?|[?|[?|?]]]]; [by left|by right; left|by do 2 right; left|do 3 right; left; by apply Hw|by do 4 right].
  - intros p l. rewrite Hlv, HE. intros Hl Hpos.
    destruct (Hsu p l Hl Hpos) as [?|[?|[(d&l'&?&?&?)|[(d&l'&?&?&?&?)|?]]]]; [by left|by right; left| | |by do 4 right].
    + do 2 right; left. exists d, l'. rewrite Hlv. split; [done|]. split; [done|by apply Hw].
    + do 3 right; left. exists d, l'. by rewrite Hlv, HE.
Qed.

Lemma inv_same_view s s' todo decs incs : same_view s s' → inv_at s todo decs incs → inv_at s' todo decs incs.
Proof.
  intros Hv. apply light_inv_ext; intros p; [by apply same_view_emit|by apply same_view_levels].
Qed.

(** [lit s]: every stored level is the brightest light that reaches the block. *)
Definition lit s : Prop :=
  ∀ p l, levels s p = Some l → brightest (emit src s) (att_at src) (occ_at src) (levels s) p l.

Lemma inv_lit s : inv_at s [] [] [] → lit s.
Proof.
  intros Hi p l Hl. apply (settled_is_brightest _ _ _ (shape_at src)); [apply (emit_at_range src Hsrc)|apply att_at_pos|done|done].
Qed.

(** The storage's changes were processed after a complete propagation; [f] says
    whether there were any. *)
Definition propagated (f : bool) s : Prop :=
  ∃ s1 s2, store_ok s1 ∧ has_inconsistencies s1 = f ∧ lit s1 ∧ process_inconsistencies s1 = Ok (Done tt, s2) ∧ same_view s2 s.

Definition phase_inv (f : bool) e s : Prop :=
  match phase e with
  | Idle => cq_cursor (checks e) = 0%nat ∧ wq_items (decreases e) = [] ∧ inv_at s (pending e) [] (wq_items (increases e))
  | Checks => inv_at s (pending e) (wq_items (decreases e)) (wq_items (increases e))
  | Decreases => cleared e ∧ inv_at s [] (wq_items (decreases e)) (wq_items (increases e))
  | Increases => cleared e ∧ wq_items (decreases e) = [] ∧ inv_at s [] [] (wq_items (increases e))
  | StorageChanges => cleared e ∧ wq_items (decreases e) = [] ∧ wq_items (increases e) = [] ∧ inv_at s [] [] []
  | Publish => cleared e ∧ wq_items (decreases e) = [] ∧ wq_items (increases e) = [] ∧ propagated f s
  end.

Record engine_inv (f : bool) e s : Prop := {
  ei_queues : queues_ok e;
  ei_store : store_ok s;
  ei_flag : phase e ≠ Publish → has_inconsistencies s = f;
  ei_phase : phase_inv f e s;
}.

Lemma inv_emit s s' lv todo decs incs :
  (∀ c, light_enabled s' c = light_enabled s c) →
  light_inv (emit src s) (att_at src) (occ_at src) (shape_at src) lv todo decs incs →
  light_inv (emit src s') (att_at src) (occ_at src) (shape_at src) lv todo decs incs.
Proof. intros Hen. apply light_inv_ext; [|done]. intros p. unfold emit, emit_at. by rewrite Hen. Qed.

Lemma propagated_view f s s' : same_view s s' → propagated f s → propagated f s'.
Proof. intros Hv (s1&s2&?&?&?&?&?). exists s1, s2. do 4 (split; [done|]). by eapply same_view_trans. Qed.

Lemma engine_inv_view f e s s' : engine_inv f e s → store_ok s' → same_view s s' → engine_inv f e s'.
Proof.
  intros [Hq Hs Hflag Hph] Hs' Hv. split; [done..| |].
  - intros Hp. by rewrite (sv_inconsistent _ _ Hv), Hflag.
  - unfold phase_inv in *. destruct (phase e).
    + destruct Hph as (?&?&?). do 2 (split; [done|]). by eapply inv_same_view.
    + by eapply inv_same_view.
    + destruct Hph. split; [done|]. by eapply inv_same_view.
    + destruct Hph as (?&?&?). split; [done|]. split; [done|]. by eapply inv_same_view.
    + destruct Hph as (?&?&?&?). do 3 (split; [done|]). by eapply inv_same_view.
    + destruct Hph as (?&?&?&?). do 3 (split; [done|]). by eapply propagated_view.
Qed.

(** What a complete run leaves: an idle engine without work, and storage whose
    changes were processed after the light had converged. *)
Record finished (f : bool) e s : Prop := {
  fi_store : store_ok s;
  fi_idle : phase e = Idle;
  fi_empty : cleared e ∧ wq_items (decreases e) = [] ∧ wq_items (increases e) = [];
  fi_propagated : propagated f s;
}.

(** ** Units *)

(** Nothing is said here of budgets. *)
Definition no_budget (n : nat) e s : Prop := False.

Lemma performed_inv f e s e1 ws ds is_ r :
  engine_inv f e s → performed s e1 ws ds is_ r → phase e1 = phase e → phase e ≠ Publish → queues_ok e1 →
  (∀ d i s', wq_items d = wq_items (decreases e1) ++ ds → wq_items i = wq_items (increases e1) ++ is_ → written ws (levels s) (levels s') →
     (∀ c, light_enabled s' c = light_enabled s c) → phase_inv f (with_increases (with_decreases e1 d) i) s') →
  advanced (engine_inv f) no_budget e s r.
Proof.
  intros [_ _ Hflag _] (d&i&s'&->&Hd&Hi&Hs'&Hdi&Hii&Hw&Hen&Hfl) Hph Hne [Hc Hb _ _] Hp. eexists _, s'. split; [done|]. split; [|done].
  split; [by split|done|intros _; rewrite Hfl; by apply Hflag|by apply Hp].
Qed.

Lemma check_light f e s :
  engine_inv f e s → phase e = Checks → cq_is_empty (checks e) = false →
  stalled e s (run_check src (e, s)) ∨ advanced (engine_inv f) no_budget e s (run_check src (e, s)).
Proof.
  intros Hinv Hp Hne. pose proof Hinv as [Hq Hs _ Hph]. unfold phase_inv in Hph. rewrite Hp in Hph.
  destruct (run_check_unit src Hsrc e s Hq Hs Hne) as (x&c'&Hpend&Hc'&Hpos&[Hst|Hr]); [by left|right]. rewrite Hpend in Hph.
  assert (Hq1 : queues_ok (with_checks e c')) by (destruct Hq; split; cbn; [done|by rewrite Hpos|done..]).
  destruct (levels s x) as [old|] eqn:Hl; (eapply performed_inv; [done|exact Hr|done|by rewrite Hp|done|]); intros d i s' Hd' Hi' Hw Hen;
    unfold phase_inv; cbn [with_increases with_decreases with_checks phase decreases increases]; rewrite Hp, Hd', Hi'; unfold pending; cbn [with_increases with_decreases with_checks checks decreases increases];
    apply (inv_emit s s' _ _ _ _ Hen).
  - by apply (check_step _ _ _ _ (emit_at_range src Hsrc (light_enabled s)) (att_at_pos src) (levels s)).
  - rewrite !app_nil_r. apply (light_inv_ext (emit src s) _ (levels s)); [done| |by apply (check_missing _ _ _ _ _ x)].
    intros p. destruct (Hw p) as [(v&Hin&_)|[_ ?]]; [by apply not_elem_of_nil in Hin|done].
Qed.

Lemma decrease_light f e s :
  engine_inv f e s → phase e = Decreases → wq_is_empty (decreases e) = false →
  stalled e s (run_decrease src (e, s)) ∨ advanced (engine_inv f) no_budget e s (run_decrease src (e, s)).
Proof.
  intros Hinv Hp Hne. pose proof Hinv as [Hq Hs _ Hph]. unfold phase_inv in Hph. rewrite Hp in Hph. destruct Hph as [Htodo Hlight].
  destruct (run_decrease_unit src Hsrc e s Hq Hs Hne) as (x&q'&Hit&Hq'&[Hst|Hr]); [by left|right]. rewrite Hit in Hlight.
  eapply performed_inv; [done|exact Hr|done|by rewrite Hp|destruct Hq; by split|]. intros d i s' Hd' Hi' Hw Hen.
  unfold phase_inv. cbn [with_increases with_decreases phase checks decreases increases]. rewrite Hp. split; [done|]. rewrite Hd', Hi'. cbn [with_decreases decreases increases].
  apply (inv_emit s s' _ _ _ _ Hen). by apply (dec_step _ _ _ _ (emit_at_range src Hsrc (light_enabled s)) (att_at_pos src) (levels s)).
Qed.

Lemma increase_light f e s :
  engine_inv f e s → phase e = Increases → wq_is_empty (increases e) = false →
  stalled e s (run_increase src (e, s)) ∨ advanced (engine_inv f) no_budget e s (run_increase src (e, s)).
Proof.
  intros Hinv Hp Hne. pose proof Hinv as [Hq Hs _ Hph]. unfold phase_inv in Hph. rewrite Hp in Hph. destruct Hph as (Htodo&Hdec&Hlight).
  destruct (run_increase_unit src Hsrc e s Hq Hs Hne) as (x&q'&Hit&Hq'&Hr). rewrite Hit in Hlight.
  destruct (li_incs _ _ _ _ _ _ _ _ Hlight x) as ([lx Hlx]&Hlev&Hshape&_); [by left|].
  destruct (Hr ltac:(by eapply levels_i32) ltac:(lia)) as [Hst|(old&Hold&Hdone)]; [by left|right].
  destruct (inc_plan_ext src (occ_as src (e_empty_shape x)) (occ_at src) (levels s) x old) as [Ew Ei]; [intros d; by apply occ_as_shape|].
  cbv zeta in Hdone. rewrite Ew, Ei in Hdone.
  eapply performed_inv; [done|exact Hdone|done|by rewrite Hp|destruct Hq; by split|]. intros d i s' Hd' Hi' Hw Hen.
  unfold phase_inv. cbn [with_increases with_decreases phase checks decreases increases]. rewrite Hp. split; [done|].
  split; [rewrite Hd'; cbn [with_increases decreases]; by rewrite app_nil_r|]. rewrite Hi'. cbn [with_increases increases].
  apply (inv_emit s s' _ _ _ _ Hen). by apply (inc_step _ _ _ _ (att_at_pos src) (levels s) _ x _ old).
Qed.

(** ** Runs *)

Lemma light_next f e s :
  engine_inv f e s → phase e ≠ Idle → settling (phase e) = false → drained e = true → engine_inv f (next_phase e) s.
Proof.
  intros [Hq Hs Hfl Hph] Hp Hset Hdr. pose proof Hq as [Hc Hb Hd Hin]. unfold phase_inv in Hph. unfold drained in Hdr. unfold next_phase.
  destruct (phase e) eqn:E; [done| | | |done..].
  - destruct (cq_clear_spec (checks e) Hc) as (Hc'&Hpos&_&Hcur). rewrite (pending_empty e Hc Hdr) in Hph.
    split; [split; cbn; [done|by rewrite Hpos|done..]|done|intros _; by apply Hfl|]. unfold phase_inv. by cbn.
  - rewrite (items_empty _ Hdr) in Hph. destruct Hph as [Htodo Hph]. split; [by split|done|intros _; by apply Hfl|]. unfold phase_inv. cbn [with_phase phase decreases increases].
    split; [done|]. split; [by apply items_empty|done].
  - rewrite (items_empty _ Hdr) in Hph. destruct Hph as (Htodo&Hdec&Hph). split; [by split|done|intros _; by apply Hfl|]. unfold phase_inv. cbn [with_phase phase decreases increases].
    split; [done|]. split; [done|]. split; [by apply items_empty|done].
Qed.

Lemma light_laws f : run_laws src (engine_inv f) (finished f) no_budget.
Proof.
  split.
  - by intros e s [].
  - intros e s s'. by apply engine_inv_view.
  - intros e s a b [[] ? ? ?]. split; [by split|done].
  - intros e s [[] ? Hfl Hp] Hidle. split; [|done]. unfold phase_inv in Hp. rewrite Hidle in Hp. destruct Hp as (_&Hdec&Hp).
    split; [by split|done|intros _; apply Hfl; by rewrite Hidle|]. unfold phase_inv. cbn [with_phase phase decreases increases]. by rewrite Hdec.
  - intros e s Hinv Hp Hset Hdr. unfold drained, unit_of in *. destruct (phase e) eqn:E; [done| | | |done..].
    + by apply check_light.
    + by apply decrease_light.
    + by apply increase_light.
  - by intros e s _ _ _ _ [].
  - intros e s Hinv Hp Hset Hdr. split; [by apply light_next|by intros n []].
  - intros e s s' [[] Hs Hfl Hph] Hp Hproc Hs'. unfold phase_inv in Hph. rewrite Hp in Hph. destruct Hph as (Htodo&Hdec&Hinc&Hph). split; [|by intros n []].
    split; [by split|done|done|]. unfold phase_inv. cbn [with_phase decreases increases phase checks]. do 3 (split; [done|]).
    exists s, s'. split; [done|]. split; [apply Hfl; by rewrite Hp|]. split; [by apply inv_lit|]. split; [done|apply same_view_refl].
  - intros e s s' [[] ? ? Hph] Hp Hs' Hv. unfold phase_inv in Hph. rewrite Hp in Hph. destruct Hph as (Htodo&Hdec&Hinc&Hph).
    split; [done|done|done|by eapply propagated_view].
Qed.

Lemma finished_idle f e s : finished f e s → has_work e = false.
Proof. intros [_ ? ? _]. by apply no_work. Qed.
End run.
