(* ===== verification/BlockLightCalls.v ===== *)
(** * The block-light engine: the calls around a run and the light

    Growing the queues, adding blocks to check and seeding the light sources of
    a chunk keep the invariant of the light: more blocks to check is less to be
    settled, and an enabled column owes the emissions that are queued for it. *)

From stdpp Require Import list sets relations.
From S2P Require Import Prelude.
From S2P Require Import View.
From S2P Require Import LightTypes.
From S2P Require Import LightTable.
From S2P Require Import LightQueue.
From S2P Require Import LightStore.
From S2P Require Import BlockLight.
From S2P Require Import BlockLightInv.
From S2P Require Import BlockLightPlan.
From S2P Require Import BlockLightUnits.
From S2P Require Import BlockLightRun.
Local Open Scope Z_scope.

Section calls.
Context {S I : Type} `{LightStoreLaws S} `{LightInput I} `{Allocator, QueueLayout}.
Implicit Types (s : S) (e : BlockLightEngine) (src : I).

Lemma grown_light src f e e' s : engine_inv src f e s → queues_ok e' → same_work e e' → engine_inv src f e' s.
Proof.
  intros [_ Hs Hfl Hp] Hq [Hpos Hcur Hd Hi Hph _]. split; [done|done|by rewrite Hph|].
  unfold phase_inv, cleared, pending in *. by rewrite Hph, Hpos, Hcur, Hd, Hi.
Qed.

Section todo.
Context (src : I) (E : LightBlock → Z) (lv : Levels).

(** More blocks to check is less to be settled. *)
Lemma light_inv_todo todo todo' decs incs :
  todo ⊆ todo' → light_inv E (att_at src) (occ_at src) (shape_at src) lv todo decs incs →
  light_inv E (att_at src) (occ_at src) (shape_at src) lv todo' decs incs.
Proof.
  intros Hsub [Hb Hr Hi Hd Hem Hed Hsu]. split; [done..| | |].
  - intros p l Hl. destruct (Hem p l Hl); [left; by apply Hsub|by right].
  - intros p l d l' Hl Hl'. destruct (Hed p l d l' Hl Hl') as [?|[?|?]]; [left; by apply Hsub|right; left; by apply Hsub|by do 2 right].
  - intros p l Hl Hpos. destruct (Hsu p l Hl Hpos) as [?|[?|[?|[(d&l'&?&?)|?]]]];
      [by left|right; left; by apply Hsub|by do 2 right; left| |by do 4 right].
    do 3 right; left. exists d, l'. split; [by apply Hsub|done].
Qed.
End todo.

Lemma check_block_light src f e pos added e' s :
  engine_inv src f e s → check_block e pos = Ok (added, e') → engine_inv src f e' s.
Proof.
  intros [Hq Hs Hfl Hp] Hc. destruct (check_block_work e pos Hq) as [[E _]|[[E _]|[E|(Hidle&_&a&c&E&Hqc&Hcur&Hc')]]]; rewrite E in Hc; [done..|].
  injection Hc as <- <-. split; [done..|]. unfold phase_inv in *. cbn [with_checks phase checks decreases increases]. rewrite Hidle in *.
  destruct Hp as (Hz&Hdec&Hinv). split; [by rewrite Hcur|]. split; [done|]. unfold inv_at in *. eapply light_inv_todo; [|done].
  unfold pending. cbn [with_checks checks]. rewrite Hcur, Hz, !drop_0. destruct Hc' as [[_ ->]|(_&->&_)]; set_solver.
Qed.

(** ** Seeding the light sources of a chunk *)

Section seeding.
Context (src : I).
Hypothesis Hsrc : source_ok src.

(** Enabling a column whose sources are queued keeps the invariant, when no
    check is pending. *)
Lemma seed_inv (E E' : LightBlock → Z) lv incs new :
  (∀ p, 0 ≤ E p ≤ E' p) → (∀ p, E' p ≤ 15) → (∀ p, E p = 0 ∨ E' p = E p) →
  (∀ p, block_i32 p → E' p = E p ∨ ∃ e : Entry, e ∈ new ∧ e_pos e = p ∧ e_from_emission e = true) →
  (∀ e : Entry, e ∈ new → is_Some (lv (e_pos e)) ∧ e_level e = E' (e_pos e) ∧ 0 < e_level e ∧ e_directions e = ALL ∧ e_empty_shape e = shape_at src (e_pos e) ∧ e_from_emission e = true) →
  light_inv E (att_at src) (occ_at src) (shape_at src) lv [] [] incs →
  light_inv E' (att_at src) (occ_at src) (shape_at src) lv [] [] (incs ++ new).
Proof.
  intros HE Hmax Hz Hcol Hnew [Hb Hr Hi Hd Hem Hed Hsu]. pose proof (sub_app_l incs new) as Hsub.
  assert (Hw : ∀ q l v, will_have E incs q l v → will_have E' (incs ++ new) q l v).
  { intros q l v [?|[? ?]]; [by left|right]. split; [by eapply pending_mono|]. specialize (HE q). lia. }
  split; [done|done| |intros e He; by apply not_elem_of_nil in He| | |].
  - intros e [He|He]%elem_of_app.
    + destruct (Hi e He) as (?&?&?&Hfe). do 3 (split; [done|]). intros Hf. destruct (Hfe Hf) as [Hl ?]. split; [|done].
      destruct (Hz (e_pos e)); [lia|]. congruence.
    + destruct (Hnew e He) as (?&Hl&?&?&Hsh&?). split; [done|]. split; [rewrite Hl in *; specialize (Hmax (e_pos e)); lia|].
      split; [by rewrite Hsh|done].
  - intros p l Hl. right. destruct (Hcol p) as [->|(e&?&?&?)]; [by eapply Hb| |].
    + destruct (Hem p l Hl) as [Hx|?]; [by apply not_elem_of_nil in Hx|]. by apply Hw.
    + right. split; [|done]. exists e. split; [apply elem_of_app; by right|done].
  - intros p l d l' Hl Hl'. unfold edge_settled.
    destruct (Hed p l d l' Hl Hl') as [?|[?|[?|[?|[?|?]]]]]; [by left|by right; left|by do 2 right; left|do 3 right; left; by apply Hw
      |do 4 right; left; by eapply covered_mono|by do 5 right].
  - intros p l Hl Hpos. destruct (Hsu p l Hl Hpos) as [?|[Hx|[(d&l'&?&?&?)|[(d&l'&Hx&_)|(d&x&Hx&_)]]]];
      [left; specialize (HE p); lia|by apply not_elem_of_nil in Hx| |by apply not_elem_of_nil in Hx..].
    do 2 right; left. exists d, l'. do 2 (split; [done|]). by apply Hw.
Qed.

Lemma propagate_light f e s chunk r e' s' :
  engine_inv src f e s → cq_positions (checks e) = [] → propagate_light_sources src chunk (e, s) = Ok (r, (e', s')) → engine_inv src f e' s'.
Proof.
  intros Hinv Hnone Hp. pose proof Hinv as [Hq Hs Hfl Hph].
  destruct (propagate_work src Hsrc e s chunk Hq Hs) as [(err&s1&E&?&?)|(Hidle&Hst&a&b&q&s1&E&Hqq&Hitems&Hs1&Hflag&Hlv&Hen)]; rewrite E in Hp; injection Hp as _ <- <-; [by eapply engine_inv_view|].
  unfold phase_inv in Hph. rewrite Hidle in Hph. destruct Hph as (Hcur&Hdec&Hlight). assert (Hpend : pending e = []) by (unfold pending; by rewrite Hnone, drop_nil).
  split; [destruct Hq; by split|done|intros _; rewrite Hflag; apply Hfl; by rewrite Hidle|]. unfold phase_inv. cbn [with_increases with_stamps checks decreases increases phase]. rewrite Hidle.
  split; [done|]. split; [done|]. change (pending (with_increases (with_stamps e a b) q)) with (pending e). rewrite Hpend in *. rewrite Hitems.
  unfold inv_at. apply (light_inv_ext src (emit src s1) _ (levels s)); [done|done|].
  assert (Hmono : ∀ p, emit src s1 p = emit src s p ∨ emit src s p = 0 ∧ block_column p = chunk ∧ emit src s1 p = emission (mat_at src p)).
  { intros p. unfold emit, emit_at. rewrite Hen. case_decide as Hcol; [|by left]. rewrite Hcol.
    destruct (light_enabled s chunk); [by left|by right]. }
  apply (seed_inv (emit src s)).
  - intros p. pose proof (emit_at_range src Hsrc (light_enabled s) p). pose proof (emit_at_range src Hsrc (light_enabled s1) p).
    fold (emit src s) (emit src s1) in *. destruct (Hmono p) as [->|(->&_)]; lia.
  - intros p. apply (emit_at_range src Hsrc).
  - intros p. destruct (Hmono p) as [->|(->&_)]; [by right|by left].
  - intros p Hbp. destruct (Hmono p) as [->|(Hz&Hcol&Hem)]; [by left|].
    destruct (decide (emission (mat_at src p) = 0)) as [E0|E0]; [left; congruence|right].
    pose proof (mo_emission _ _ (mat_at_ok src Hsrc p)).
    pose proof (so_complete src Hsrc chunk p (mat_at src p) Hbp Hcol (mat_at_material src Hsrc p) ltac:(lia)) as Hin.
    eexists. split; [apply list_elem_of_fmap; eexists; split; [|exact Hin]; reflexivity|]. done.
  - intros x Hx. destruct (seeds_spec src Hsrc chunk x Hx) as (Hbp&Hcol&Hx'&Hr&st&Hin).
    assert (Hemit : emission (mat_at src (e_pos x)) = emit src s1 (e_pos x)) by (unfold emit, emit_at; by rewrite Hen, Hcol, decide_True).
    split; [eapply sources_stored_spec; [exact Hs| |exact Hst|exact Hin]; intros p w Hw; by apply (so_emission src Hsrc) in Hw as []|]. rewrite Hx'. cbn [emission_entry e_level e_pos e_directions e_empty_shape e_from_emission].
    rewrite Hx' in Hr. cbn [emission_entry e_level] in Hr. split; [done|]. split; [lia|done].
  - done.
Qed.
End seeding.
End calls.
