(* ===== verification/BlockLightMain.v ===== *)
(** * The block-light engine: what it promises

    Whatever is done with the engine and its storage, a run returns and a budget
    as large as the work that is left is enough for it.  A session is a sequence
    of calls for one source: runs of any budget that stop or fail, queue growth,
    new checks and the seeding of chunks.  From light that was right before a
    change, a session whose last run completes leaves light that is right after
    it. *)

From stdpp Require Import list sets relations.
From S2P Require Import Prelude.
From S2P Require Import View.
From S2P Require Import LightTypes.
From S2P Require Import LightTable.
From S2P Require Import LightQueue.
From S2P Require Import LightStore.
From S2P Require Import BlockLight.
From S2P Require Import BlockLightInv.
From S2P Require Import BlockLightPlan.
From S2P Require Import BlockLightMeasure.
From S2P Require Import BlockLightUnits.
From S2P Require Import BlockLightLoop.
From S2P Require Import BlockLightSafe.
From S2P Require Import BlockLightRun.
From S2P Require Import BlockLightCalls.
Local Open Scope Z_scope.

Section sessions.
Context {S I : Type} `{LightStoreLaws S} `{LightInput I} `{Allocator, QueueLayout} (src : I).
Implicit Types (s : S) (e : BlockLightEngine).

(** A run that did not complete. *)
Definition unfinished (r : reply BlockLightError RunProgress) : bool :=
  match r with Done progress => negb (complete progress) | Failed _ => true end.

(** One call; chunks are seeded while no check is pending. *)
Inductive session : BlockLightEngine * S → BlockLightEngine * S → Prop :=
| session_run budget e s r e' s' :
    run src budget (e, s) = Ok (r, (e', s')) → unfinished r = true → session (e, s) (e', s')
| session_grow hash limits e s r e' :
    grow_queues hash limits e = Ok (r, e') → session (e, s) (e', s)
| session_check pos e s added e' :
    check_block e pos = Ok (added, e') → session (e, s) (e', s)
| session_seed chunk e s r e' s' :
    cq_positions (checks e) = [] → propagate_light_sources src chunk (e, s) = Ok (r, (e', s')) → session (e, s) (e', s').

Section sound.
Hypothesis Hsrc : source_ok src.

Lemma session_inv f e s e' s' : engine_inv src f e s → session (e, s) (e', s') → engine_inv src f e' s'.
Proof.
  intros Hinv Hs. inversion Hs as [budget ??? ? ? Hrun Hun|hash limits ???? Hg|pos ???? Hc|chunk ????? Hn Hp]; subst.
  - pose proof (run_spec src _ _ _ (light_laws src Hsrc f) e s budget Hinv) as Hr. destruct (run_refused src e s).
    + rewrite Hr in Hrun. by injection Hrun as <- <- <-.
    + destruct Hr as (r'&e2&s2&Hr&Hres&_). rewrite Hr in Hrun. injection Hrun as -> -> ->. destruct r as [progress|err]; cbn in *; [|apply Hres].
      destruct (complete progress); [done|by destruct Hres].
  - destruct (grow_queues_work hash limits e (ei_queues _ _ _ _ Hinv)) as (r'&e2&Hg'&?&?). rewrite Hg' in Hg. injection Hg as -> ->. by eapply grown_light.
  - by eapply check_block_light.
  - by eapply propagate_light.
Qed.

Lemma sessions_inv f e s e' s' : engine_inv src f e s → rtc session (e, s) (e', s') → engine_inv src f e' s'.
Proof.
  intros Hinv Hs. remember (e, s) as c eqn:Ec. remember (e', s') as c' eqn:Ec'. revert e s Hinv Ec. induction Hs as [c|c [e1 s1] c' Hstep _ IH]; intros e s Hinv Ec; simplify_eq; [done|].
  eapply IH; [done|by eapply session_inv|done].
Qed.

(** Light is only read through the interface. *)
Lemma lit_view s s' : same_view s s' → lit src s → lit src s'.
Proof.
  intros Hv Hl p l Hp. rewrite (same_view_levels s s' p Hv) in Hp. specialize (Hl p l Hp).
  assert (Hr : ∀ a b, (∀ p, levels a p = levels b p) → (∀ p, emit src a p = emit src b p) → ∀ q k, reaches (emit src a) (att_at src) (occ_at src) (levels a) q k → reaches (emit src b) (att_at src) (occ_at src) (levels b) q k).
  { intros a b Hlv He q k. induction 1 as [q ? ?|q d k _ IH ? ? ?]; [rewrite He in *; constructor; [by rewrite <- Hlv|done]|constructor; [done|by rewrite <- Hlv|done..]]. }
  destruct Hl as [Hz Hmax]. split.
  - destruct Hz as [->|Hz]; [by left|right]. eapply (Hr s s'); [intros q; symmetry; by apply same_view_levels|intros q; symmetry; by apply same_view_emit|done].
  - intros k Hk. apply Hmax. eapply (Hr s' s); [intros q; by apply same_view_levels|intros q; by apply same_view_emit|done].
Qed.

Lemma finished_lit e s : finished src false e s → lit src s.
Proof.
  intros Hf. destruct (fi_propagated _ _ _ _ Hf) as (s1&s2&Hok&Hinc&Hlit&Hproc&Hv).
  destruct (process_inconsistencies_spec s1 Hok) as (s2'&Hproc'&_&_&_&Hsame). rewrite Hproc' in Hproc. injection Hproc as ->.
  eapply lit_view; [exact Hv|]. eapply lit_view; [by apply Hsame|done].
Qed.
End sound.
End sessions.

(** ** Where sessions start *)

Section start.
Context {S I : Type} `{LightStoreLaws S} `{LightInput I} `{Allocator, QueueLayout}.
Implicit Types (s : S) (e : BlockLightEngine) (src : I).

(** An idle engine whose only work is the blocks to check. *)
Record at_rest e : Prop := {
  ar_checks : cq_ok (checks e);
  ar_blocks : Forall block_i32 (cq_positions (checks e));
  ar_decreases : wq_ok (decreases e) ∧ wq_items (decreases e) = [];
  ar_increases : wq_ok (increases e) ∧ wq_items (increases e) = [];
  ar_idle : phase e = Idle ∧ cq_cursor (checks e) = 0%nat;
}.

Lemma engine_new_rest hash limits e :
  0 ≤ checks_limit limits → 0 ≤ decreases_limit limits → 0 ≤ increases_limit limits → engine_new hash limits = Ok e →
  at_rest e ∧ cq_positions (checks e) = [] ∧ source_seen e = None ∧ storage_seen e = None.
Proof.
  intros Hc Hd Hi. unfold engine_new.
  destruct (cq_new_cases hash (checks_limit limits) (queue_bytes limits) Hc) as [(?&->&_)|(c&r&->&_&_&Hcok&Hpos&Hcur&_)]; mstep; [done|].
  destruct (wq_new_cases (decreases_limit limits) r Hd) as [(?&->&_)|(d&->&Hdok&Hdi&_)]; mstep; [done|].
  destruct (wq_new_cases (increases_limit limits) (r - wq_heap_bytes d) Hi) as [(?&->&_)|(i&->&Hiok&Hii&_)]; mstep; [done|].
  intros [= <-]. split; [|done]. split; cbn; [done|by rewrite Hpos|done..].
Qed.

Lemma check_block_rest e pos added e' : at_rest e → check_block e pos = Ok (added, e') → at_rest e' ∧ pending e' = if added then pending e ++ [pos] else pending e.
Proof.
  intros [Hc Hb Hd Hi [Hidle Hcur]]. unfold check_block, require_idle. rewrite bool_decide_eq_true_2 by done. mstep.
  destruct (negb (in_horizontal (lb_x pos)) || negb (in_horizontal (lb_z pos)) || negb _) eqn:Hdom; [done|].
  destruct (cq_insert_spec (checks e) pos Hc) as [[? ->]|[(?&?&->)|(Hnew&?&c&->&Hc'&Hpos&Hcur'&_)]]; mstep; [intros [= <- <-]; by destruct e|done|].
  intros [= <- <-]. split.
  - split; cbn [with_checks checks decreases increases phase]; [done| |done|done|by rewrite Hcur'].
    rewrite Hpos. apply Forall_app_2; [done|]. apply Forall_singleton, in_domain_i32. unfold in_domain.
    rewrite !orb_false_iff, !negb_false_iff in Hdom. destruct Hdom as [[-> ->] ->]. done.
  - unfold pending. cbn [with_checks checks]. by rewrite Hpos, Hcur', Hcur.
Qed.

(** Light is right in the dark. *)
Lemma dark_lit src s : (∀ p, emit src s p = 0) → (∀ p l, levels s p = Some l → l = 0) → lit src s.
Proof.
  intros He Hl p l Hp. rewrite (Hl p l Hp). split; [by left|]. intros l' Hr. exfalso. clear l Hp. induction Hr as [q Hq Hpos|q d k Hr IH ? ? ?]; [rewrite He in Hpos; lia|exact IH].
Qed.

(** ** Changed blocks *)

(** Light that was right for the source [src0]. *)
Section change.
Context (src0 src : I) (s : S) (todo : list LightBlock).
Hypothesis Hsrc0 : source_ok src0.
Hypothesis Hsrc : source_ok src.
Hypothesis Hok : store_ok s.
Hypothesis Hlit : lit src0 s.
Hypothesis Hsame : ∀ p, p ∉ todo → mat_at src p = mat_at src0 p.
(** The face pairs are compared in the two registries. *)
Hypothesis Hfaces : ∀ p d, p ∉ todo → dir_step d p ∉ todo → occ_at src p d = occ_at src0 p d.
(** A checked block that keeps its own light does not start to occlude. *)
Hypothesis Hopen : ∀ p d l, p ∈ todo → dir_step d p ∉ todo → levels s p = Some l → l ≤ emit src s p →
  occ_at src0 p d = false → occ_at src p d = false.

Lemma changed_inv : inv_at src s todo [] [].
Proof.
  assert (Hold : light_inv (emit src0 s) (att_at src0) (occ_at src0) (shape_at src0) (levels s) [] [] []).
  { apply (brightest_is_settled (emit src0 s) (att_at src0) (occ_at src0) (shape_at src0) (emit_at_range src0 Hsrc0 (light_enabled s)) (att_at_pos src0)); [|exact Hlit].
    intros p l. apply levels_i32. }
  destruct Hold as [Hb Hr _ _ Hem Hed Hsu].
  assert (Hemit : ∀ p, p ∉ todo → emit src s p = emit src0 s p) by (intros p Hp; unfold emit, emit_at; by rewrite Hsame).
  assert (Hatt : ∀ p, p ∉ todo → att_at src p = att_at src0 p) by (intros p Hp; unfold att_at; by rewrite Hsame).
  assert (Hwill : ∀ E q l v, will_have E [] q l v → v ≤ l).
  { intros E q l v [?|[(x&Hx&_) _]]; [done|by apply not_elem_of_nil in Hx]. }
  split; [done|done|intros x Hx; by apply not_elem_of_nil in Hx..| | |].
  - intros p l Hl. destruct (decide (p ∈ todo)) as [|Hp]; [by left|right; left]. rewrite Hemit by done.
    destruct (Hem p l Hl) as [Hx|Hw]; [by apply not_elem_of_nil in Hx|]. by apply Hwill in Hw.
  - intros p l d l' Hl Hl'. unfold edge_settled. destruct (decide (p ∈ todo)) as [|Hp]; [by left|]. destruct (decide (dir_step d p ∈ todo)) as [|Hq]; [by right; left|].
    rewrite Hfaces, Hatt by done. do 2 right. destruct (Hed p l d l' Hl Hl') as [Hx|[Hx|[Ho|[Hw|[(x&Hx&_)|(x&Hx&_)]]]]]; [by apply not_elem_of_nil in Hx|by apply not_elem_of_nil in Hx|by left| |by apply not_elem_of_nil in Hx..].
    right; left; left. by apply Hwill in Hw.
  - intros p l Hl Hpos. destruct (decide (p ∈ todo)) as [|Hp]; [by right; left|].
    destruct (Hsu p l Hl Hpos) as [He|[Hx|[(d&l'&Hl'&Ho&Hw)|[(d&l'&Hx&_)|(d&x&Hx&_)]]]]; [left; by rewrite Hemit|by apply not_elem_of_nil in Hx| |by apply not_elem_of_nil in Hx..].
    apply Hwill in Hw. rewrite <- Hatt in Hw by done. set (q := dir_step d p) in *.
    assert (Hback : dir_step (opposite d) q = p) by (apply dir_step_opposite; by eapply Hb).
    destruct (decide (q ∈ todo)) as [Hq|Hq].
    + destruct (decide (l' ≤ emit src s q)) as [Hkeep|Hless].
      * do 2 right; left. exists d, l'. fold q. split; [done|]. split; [|by left]. apply (Hopen q (opposite d) l'); [done|by rewrite Hback|done..].
      * do 3 right; left. exists d, l'. fold q. pose proof (att_at_pos src p). split; [done|]. split; [done|lia].
    + do 2 right; left. exists d, l'. fold q. split; [done|]. split; [|by left]. rewrite Hfaces; [done|done|by rewrite Hback].
Qed.
End change.

Lemma rest_engine_inv src0 src e s :
  source_ok src0 → source_ok src → store_ok s → at_rest e → lit src0 s →
  (∀ p, p ∉ pending e → mat_at src p = mat_at src0 p) →
  (∀ p d, p ∉ pending e → dir_step d p ∉ pending e → occ_at src p d = occ_at src0 p d) →
  (∀ p d l, p ∈ pending e → dir_step d p ∉ pending e → levels s p = Some l → l ≤ emit src s p → occ_at src0 p d = false → occ_at src p d = false) →
  engine_inv src (has_inconsistencies s) e s.
Proof.
  intros Hsrc0 Hsrc Hok [Hc Hb [Hd Hdi] [Hi Hii] [Hidle Hcur]] Hlit Hs Hf Hop. split; [by split|done..|]. unfold phase_inv. rewrite Hidle, Hdi, Hii.
  split; [done|]. split; [done|]. by apply (changed_inv src0).
Qed.

(** A change of the world at the blocks [todo], seen by a storage whose light was
    right: a changed block that keeps its light does not close a face that was
    open. *)
Record world_change (src0 src : I) s (todo : list LightBlock) : Prop := {
  wc_registry : registry src = registry src0;
  wc_state p : p ∉ todo → state_at src p = state_at src0 p;
  wc_open p d l : p ∈ todo → dir_step d p ∉ todo → levels s p = Some l → l ≤ emit src s p → occ_at src0 p d = false → occ_at src p d = false;
}.

(** Where a session starts: the engine is idle, the light is right for the world
    before the change, and the changed blocks are to be checked. *)
Record session_start (src0 src : I) e s : Prop := {
  st_before : source_ok src0;
  st_after : source_ok src;
  st_store : store_ok s;
  st_rest : at_rest e;
  st_lit : lit src0 s;
  st_change : world_change src0 src s (pending e);
}.

Lemma start_inv src0 src e s : session_start src0 src e s → engine_inv src (has_inconsistencies s) e s.
Proof.
  intros [Hsrc0 Hsrc Hok Hrest Hlit [Hreg Hst Hopen]].
  assert (Hmat : ∀ p, p ∉ pending e → mat_at src p = mat_at src0 p) by (intros p Hp; unfold mat_at; by rewrite Hreg, Hst).
  apply (rest_engine_inv src0); [done..| |done]. intros p d Hp Hq. unfold occ_at, occ_as, face_at. by rewrite Hreg, !Hmat.
Qed.
Lemma session_start_inv src0 src e0 s0 e s :
  session_start src0 src e0 s0 → rtc (session src) (e0, s0) (e, s) → engine_inv src (has_inconsistencies s0) e s.
Proof. intros Hstart Hs. eapply sessions_inv; [apply Hstart|by eapply start_inv|done]. Qed.

(** What a run reports: it is refused before it starts and changes nothing; or it
    completes and leaves no work; or it stops after exactly the units its budget
    pays for; or it stops for one of the reasons of [halted]. *)
Definition run_outcome src (work_budget : nat) e s (r : reply BlockLightError RunProgress) e' s' : Prop :=
  match run_refused src e s with
  | Some err => r = Failed err ∧ e' = e ∧ s' = s
  | None =>
      match r with
      | Done progress => if complete progress then has_work e' = false else processed progress = work_budget
      | Failed err => halted e' s' err
      end
  end.
(** An engine that was made with limits, with any sound storage. *)
Definition made e s : Prop :=
  ∃ hash limits, 0 ≤ checks_limit limits ∧ 0 ≤ decreases_limit limits ∧ 0 ≤ increases_limit limits ∧
    engine_new hash limits = Ok e ∧ store_ok s.

Lemma made_safe e0 s0 e s : made e0 s0 → rtc used (e0, s0) (e, s) → safe e s.
Proof. intros (hash&limits&?&?&?&Hnew&Hok) Hu. apply (uses_safe _ _ Hu). by eapply engine_new_safe. Qed.

Lemma run_reported src e s work_budget :
  source_ok src → safe e s →
  ∃ r e' s', run src work_budget (e, s) = Ok (r, (e', s')) ∧ run_outcome src work_budget e s r e' s' ∧ (fits work_budget e s → incomplete r = false).
Proof.
  intros Hsrc Hsafe. pose proof (run_spec src _ _ _ (safe_laws src Hsrc) e s work_budget Hsafe) as Hr. unfold run_outcome. destruct (run_refused src e s) as [err|].
  - by eexists _, e, s.
  - destruct Hr as (r&e'&s'&Hr&Hres&Hfit). rewrite Nat.sub_0_r in Hfit. exists r, e', s'. split; [done|]. split; [|done].
    destruct r as [progress|err]; cbn [run_result] in Hres; [|apply Hres]. destruct (complete progress); [|apply Hres].
    apply no_work; apply Hres.
Qed.

(** C10. The block-light engine never panics and never loops.  Take a new engine
    and a sound storage, and do anything with them: runs of any budget with any
    admitted sources, queue growth, new checks, seeded chunks, and between these
    any change of the storage that leaves it sound, whatever light it then holds.
    A run returns, leaving a sound storage.  It is refused before it starts, for
    the wrong kind of storage or for another source or storage than the run that
    is under way, and changes nothing; or it completes and leaves no work; or it
    stops after exactly the units its budget pays for; or it stops because a
    queue has room for less than six entries, the storage refuses a preparation
    or a publication, or the block of the next increase is not stored. *)
Theorem block_light_runs src e0 s0 e s work_budget :
  made e0 s0 → rtc used (e0, s0) (e, s) → source_ok src →
  ∃ r e' s', run src work_budget (e, s) = Ok (r, (e', s')) ∧ run_outcome src work_budget e s r e' s' ∧ rtc used (e0, s0) (e', s') ∧ store_ok s'.
Proof.
  intros Hmade Hu Hsrc. destruct (run_reported src e s work_budget Hsrc (made_safe _ _ _ _ Hmade Hu)) as (r&e'&s'&Hr&Ho&_). exists r, e', s'.
  assert (Hu' : rtc used (e0, s0) (e', s')) by (eapply rtc_r; [done|by eapply used_run]).
  split; [done|]. split; [done|]. split; [done|]. apply (made_safe _ _ _ _ Hmade Hu').
Qed.

(** C1. Relighting is exact.  Start from an idle engine and light that is exact
    for a world: every stored block has the brightest light that reaches it.
    Change the world at some blocks, which are then exactly the blocks to be
    checked, such that a changed block that keeps its light (it emits at least
    its stored level) does not close a face that was open: for such a block the
    code leaves the light that came through the face.  Then, whatever partial
    runs, failures, queue growth, further checks and seeded chunks come between
    (a session for this one source, without other calls on the storage, and no
    chunk seeded while a check is pending), once a run completes every stored
    block has the brightest light that reaches it in the new world (none brighter
    reaches it, and its own level does), and no work is left.  The storage has no
    sections queued or removed that are not settled yet. *)
Theorem relight_after_changes src0 src e0 s0 e s work_budget units e' s' :
  session_start src0 src e0 s0 → has_inconsistencies s0 = false → rtc (session src) (e0, s0) (e, s) →
  run src work_budget (e, s) = Ok (Done {| processed := units; complete := true |}, (e', s')) →
  lit src s' ∧ has_work e' = false ∧ store_ok s'.
Proof.
  intros Hstart Hf Hs Hrun. pose proof (session_start_inv _ _ _ _ _ _ Hstart Hs) as Hinv. rewrite Hf in Hinv.
  pose proof (run_spec src _ _ _ (light_laws src (st_after _ _ _ _ Hstart) false) e s work_budget Hinv) as Hr. destruct (run_refused src e s) as [err|]; [congruence|].
  destruct Hr as (r&e2&s2&Hr&Hres&_). rewrite Hr in Hrun. injection Hrun as -> -> ->. cbn [run_result complete] in Hres.
  split; [by eapply finished_lit|]. split; [by eapply finished_idle|apply Hres].
Qed.

(** C5. Relighting terminates.  Take a new engine and a sound storage, and do
    anything with them: runs, queue growth, new checks, seeded chunks, and any
    change of the storage between these, whatever light it then holds.  If [dom]
    has the stored blocks, a run whose budget covers nine units for each pending
    check, seven for each queued decrease, one for each queued increase and
    twenty-two for each block of [dom] does not stop for lack of budget: it
    completes, is refused, or stops for one of the reasons of C10. *)
Theorem block_light_run_finishes src e0 s0 e s dom work_budget :
  made e0 s0 → rtc used (e0, s0) (e, s) → source_ok src → covers dom s →
  (9 * length (pending e) + 7 * length (wq_items (decreases e)) + length (wq_items (increases e)) + 22 * length dom ≤ work_budget)%nat →
  ∃ r e' s', run src work_budget (e, s) = Ok (r, (e', s')) ∧ incomplete r = false ∧ run_outcome src work_budget e s r e' s'.
Proof.
  intros Hmade Hu Hsrc Hdom Hb. pose proof (made_safe _ _ _ _ Hmade Hu) as Hsafe.
  destruct (run_reported src e s work_budget Hsrc Hsafe) as (r&e'&s'&Hr&Ho&Hfit). exists r, e', s'. split; [done|]. split; [|done]. apply Hfit.
  exists dom. split; [done|]. pose proof (total_lit_bound (levels s) dom). pose proof (room_left e s dom (sa_store _ _ Hsafe)).
  unfold units_left, decrease_work, increase_work. destruct (phase e); lia.
Qed.
End start.
