(* ===== verification/BlockLightExample.v ===== *)
(** * The block-light engine on the section storage: an example

    A torch is placed in a dark section.  The engine and the storage run
    together, and the properties of the engine apply to what they do. *)

From stdpp Require Import gmap list sets relations.
From S2P Require Import Prelude.
From S2P Require Import View.
From S2P Require Import LightTypes.
From S2P Require Import LightTable.
From S2P Require Import LightLayer.
From S2P Require Import LightQueue.
From S2P Require Import LightStore.
From S2P Require Import LightStorage.
From S2P Require Import LightStorageOps.
From S2P Require Import LightStorageInv.
From S2P Require Import LightStorageSettle.
From S2P Require Import LightStorageHandle.
From S2P Require Import LightStorageReach.
From S2P Require Import LightStorageStore.
From S2P Require Import BlockLight.
From S2P Require Import BlockLightInv.
From S2P Require Import BlockLightPlan.
From S2P Require Import BlockLightUnits.
From S2P Require Import BlockLightLoop.
From S2P Require Import BlockLightSafe.
From S2P Require Import BlockLightRun.
From S2P Require Import BlockLightMain.
Local Open Scope Z_scope.

(** ** A torch *)

#[local] Instance test_sizes : StorageLayout.
Proof.
  refine {| charged_layer_size := 40; section_entry_size := 48; column_size := 24; light_section_size := 12; staged_size := 24;
            snapshot_layer_size := 24; snapshot_top_size := 12; snapshot_size := 96; data_snapshot_size := 48; ledger_size := 24 |}. lia.
Defined.
#[local] Instance test_layout : QueueLayout.
Proof. refine {| entry_size := 16; block_size := 12; slot_size := 8 |}. lia. Defined.

Definition test_air : LightMaterial :=
  {| emission := 0; dampening := 0; can_occlude := false; use_shape_for_light_occlusion := false; faces := [0; 0; 0; 0; 0; 0] |}.
Definition test_torch : LightMaterial :=
  {| emission := 3; dampening := 0; can_occlude := false; use_shape_for_light_occlusion := false; faces := [0; 0; 0; 0; 0; 0] |}.
Definition test_registry : Lighting := {| materials := [test_air; test_torch]; face_count := 2; pairs := [14] |}.
Definition test_block : LightBlock := {| lb_x := 3; lb_y := 5; lb_z := 7 |}.
(** Air everywhere, with the torch or without it. *)
#[local] Instance test_input : LightInput bool := {|
  registry _ := test_registry;
  state_at torch p := if torch && bool_decide (p = test_block) then 1 else 0;
  emission_sources torch c := if torch && bool_decide (c = block_column test_block) then [(test_block, 1)] else [];
  source_stamp torch := if torch then 2%nat else 1%nat;
|}.

Lemma test_source_ok torch : source_ok torch.
Proof.
  split.
  - split; [done| |done]. repeat constructor; cbn; (lia || done).
  - intros p. cbn. split; [case_match; lia|]. destruct (torch && _); by eexists.
  - intros c p st. cbn. destruct torch; cbn [andb]; [|intros Hin; by apply not_elem_of_nil in Hin]. case_bool_decide as Hc; [|intros Hin; by apply not_elem_of_nil in Hin].
    intros [= -> ->]%list_elem_of_singleton. split; [by vm_compute|]. split; [done|]. split; [by rewrite bool_decide_eq_true_2|]. by exists test_torch.
  - intros c p m _ Hc. cbn. destruct torch; cbn [andb]; [|intros [= <-]; done]. case_bool_decide as Hp; [|intros [= <-]; done]. subst p.
    intros [= <-] _. rewrite bool_decide_eq_true_2 by done. by left.
Qed.

(** The section around the torch is stored, in an enabled column. *)
Definition test_limits : StorageLimits := {| max_sections := 64; max_columns := 64; max_notifications := 128; metadata_bytes := 65536; layer_bytes_limit := 1048576 |}.
Definition test_new : LightStorage.Storage.
Proof. let r := eval vm_compute in (storage_new 0 KBlock test_limits) in match r with Ok ?s => exact s end. Defined.
Definition test_setup : list StorageCall := [CallEnable (block_column test_block) true; CallStatus (block_section test_block) false; CallProcess; CallPublish].
Definition test_storage : LightStorage.Storage.
Proof. let r := eval vm_compute in (perform_all test_setup test_new) in match r with Ok ?s => exact s end. Defined.
Definition test_hash (p : LightBlock) : nat := Z.to_nat (lb_x p).
Definition test_engine_limits : BlockLightLimits := {| checks_limit := 4; decreases_limit := 64; increases_limit := 256; queue_bytes := 65536 |}.
(** The engine, told that the torch's block changed. *)
Definition test_idle : BlockLightEngine.
Proof. let r := eval vm_compute in (engine_new test_hash test_engine_limits) in match r with Ok ?e => exact e end. Defined.
Definition test_engine : BlockLightEngine.
Proof. let r := eval vm_compute in (check_block test_idle test_block) in match r with Ok (_, ?e) => exact e end. Defined.

Definition test_run (budget : nat) := run (S := LightStorage.Storage) true budget (test_engine, test_storage).
(** Two units of work, and then the rest. *)
Definition test_paused : BlockLightEngine * LightStorage.Storage.
Proof. let r := eval vm_compute in (test_run 2) in match r with Ok (_, ?c) => exact c end. Defined.
Definition test_done : BlockLightEngine * LightStorage.Storage.
Proof. let r := eval vm_compute in (run (S := LightStorage.Storage) true 400 test_paused) in match r with Ok (_, ?c) => exact c end. Defined.

Example test_light :
  ((λ x, level_at test_done.2 {| lb_x := x; lb_y := 5; lb_z := 7 |}) <$> [0; 1; 2; 3; 4; 5; 6]) =
  [Some 0; Some 1; Some 2; Some 3; Some 2; Some 1; Some 0].
Proof. vm_compute. reflexivity. Qed.

(** ** The start *)

Lemma performed_ok calls s : Forall call_args calls → perform_all calls test_new = Ok s → storage_ok s.
Proof.
  intros Hargs E. destruct (storage_new_sound 0 KBlock test_limits test_new) as [Hs _]; [done..|].
  destruct (perform_all_sound calls test_new Hargs Hs) as (s'&Hp&[Hok _]). rewrite E in Hp. by injection Hp as ->.
Qed.
Lemma test_store_ok : storage_ok test_storage.
Proof. apply (performed_ok test_setup); [repeat constructor|vm_compute; reflexivity]. Qed.

Lemma test_at_rest : at_rest test_engine ∧ pending test_engine = [test_block].
Proof.
  destruct (engine_new_rest test_hash test_engine_limits test_idle) as (Hrest&_); [done|done|done|vm_compute; reflexivity|].
  apply (check_block_rest test_idle test_block true test_engine Hrest). vm_compute. reflexivity.
Qed.

Definition dark_layer (l : DataLayer) : bool := match storage l with Uniform 0 => true | _ => false end.
Definition dark_store (s : LightStorage.Storage) : bool := forallb (λ p, dark_layer p.2) (map_to_list (st_heap s)).
Lemma dark_levels (s : LightStorage.Storage) p l : storage_ok s → dark_store s = true → levels s p = Some l → l = 0.
Proof.
  intros Hok Hdark. unfold levels. case_decide; [|done]. cbn [stored_level storage_store]. rewrite read_level_at by done. intros Hl.
  apply bind_Some in Hl as (id&Hu&[= <-]). pose proof (updating_at_refs s _ id (sk_base _ Hok) Hu) as Hid.
  destruct (ho_refs _ (bo_heap _ (sk_base _ Hok)) id Hid) as [v Hv]. unfold value_of. rewrite Hv.
  unfold dark_store in Hdark. rewrite forallb_forall in Hdark. specialize (Hdark (id, v)). rewrite <- list_elem_of_In, elem_of_map_to_list in Hdark.
  specialize (Hdark Hv). unfold dark_layer in Hdark. cbn [snd default] in *. unfold level_of, settled. destruct v as [[[]|]]; try done. cbn [storage]. by destruct (_ =? 0).
Qed.
Lemma test_dark : dark_store test_storage = true.
Proof. vm_compute. reflexivity. Qed.

Lemma test_start : session_start false true test_engine test_storage.
Proof.
  destruct test_at_rest as [Hrest Hpending]. split; [apply test_source_ok|apply test_source_ok|exact test_store_ok|exact Hrest| |].
  - apply dark_lit; [|intros p l; apply dark_levels; [exact test_store_ok|exact test_dark]]. intros p. unfold emit, emit_at, mat_at. cbn. by destruct (st_light_enabled _ _).
  - rewrite Hpending. split; [done| |].
    + intros p Hp. cbn. rewrite bool_decide_eq_false_2; [done|]. intros ->. apply Hp. by left.
    + intros p d l _ _ _ _ _. unfold occ_at, occ_as, face_at, mat_at. cbn. by destruct (bool_decide _), (bool_decide _).
Qed.

Lemma test_session : rtc (session true) (test_engine, test_storage) (test_paused.1, test_paused.2).
Proof.
  apply rtc_once, (session_run true 2 test_engine test_storage (Done {| processed := 2; complete := false |})); [vm_compute; reflexivity|reflexivity].
Qed.

(** ** The properties there *)

Lemma test_made : made test_idle test_storage.
Proof. exists test_hash, test_engine_limits. do 3 (split; [done|]). split; [vm_compute; reflexivity|exact test_store_ok]. Qed.
Lemma test_checked : used (test_idle, test_storage) (test_engine, test_storage).
Proof. apply (used_check test_block test_idle test_storage true). vm_compute. reflexivity. Qed.
(** Another storage, with light that nothing emits. *)
Definition test_stale : LightStorage.Storage.
Proof. let r := eval vm_compute in (perform_all (test_setup ++ [CallWrite (block_section test_block) [OpFill 5]]) test_new) in match r with Ok ?s => exact s end. Defined.
Lemma test_stale_ok : storage_ok test_stale.
Proof. apply (performed_ok (test_setup ++ [CallWrite (block_section test_block) [OpFill 5]])); [repeat constructor|vm_compute; reflexivity]. Qed.
(** The check, two units of a run, and the storage changed under it. *)
Lemma test_uses : rtc used (test_idle, test_storage) (test_paused.1, test_stale).
Proof.
  eapply rtc_l; [exact test_checked|]. eapply rtc_l.
  - apply (used_run true 2 test_engine test_storage (Done {| processed := 2; complete := false |}) test_paused.1 test_paused.2); [apply test_source_ok|]. vm_compute. reflexivity.
  - apply rtc_once, used_storage. exact test_stale_ok.
Qed.

Lemma block_light_runs_witness :
  ∃ r e' s', run true 7 (test_paused.1, test_stale) = Ok (r, (e', s')) ∧ run_outcome true 7 test_paused.1 test_stale r e' s' ∧
    rtc used (test_idle, test_storage) (e', s') ∧ store_ok s'.
Proof. exact (block_light_runs true test_idle test_storage test_paused.1 test_stale 7 test_made test_uses (test_source_ok true)). Defined.

Definition test_units : nat.
Proof. let r := eval vm_compute in (run (S := LightStorage.Storage) true 400 test_paused) in match r with Ok (Done ?p, _) => let n := eval cbn in (processed p) in exact n end. Defined.
Lemma relight_after_changes_witness : lit true test_done.2 ∧ has_work test_done.1 = false ∧ store_ok test_done.2.
Proof.
  apply (relight_after_changes false true test_engine test_storage test_paused.1 test_paused.2 400 test_units test_done.1 test_done.2 test_start);
    [vm_compute; reflexivity|exact test_session|vm_compute; reflexivity].
Defined.

(** The blocks of the stored sections. *)
Definition section_blocks (k : LightSection) : list LightBlock :=
  x ← seqZ 0 16; y ← seqZ 0 16; z ← seqZ 0 16; [{| lb_x := 16 * ls_x k + x; lb_y := 16 * ls_y k + y; lb_z := 16 * ls_z k + z |}].
Lemma elem_of_section_blocks p : p ∈ section_blocks (section_of p).
Proof.
  assert (Hl : ∀ v, v mod 16 ∈ seqZ 0 16) by (intros v; apply elem_of_seqZ; pose proof (Z.mod_pos_bound v 16); lia).
  apply list_elem_of_bind. exists (lb_x p mod 16). split; [|apply Hl]. apply list_elem_of_bind. exists (lb_y p mod 16). split; [|apply Hl].
  apply list_elem_of_bind. exists (lb_z p mod 16). split; [|apply Hl]. apply list_elem_of_singleton. unfold section_of. cbn [ls_x ls_y ls_z].
  rewrite <- !Z.div_mod by lia. by destruct p.
Qed.
Definition stored_blocks (s : LightStorage.Storage) : list LightBlock := st_entries s ≫= λ e, section_blocks (en_key e).
Lemma stored_covers s : storage_ok s → covers (stored_blocks s) s.
Proof.
  intros Hok p [l Hl]. unfold levels in Hl. case_decide; [|done]. cbn [stored_level storage_store] in Hl. rewrite read_level_at in Hl by done.
  apply bind_Some in Hl as (id&Hu&_). apply bind_Some in Hu as (e&He&_). apply entry_at_some in He as [He Hk]; [|apply Hok].
  apply list_elem_of_bind. exists e. split; [|done]. rewrite Hk. apply elem_of_section_blocks.
Qed.
Lemma block_light_run_finishes_witness :
  let budget := (9 * 1 + 22 * length (stored_blocks test_storage))%nat in
  ∃ r e' s', run true budget (test_engine, test_storage) = Ok (r, (e', s')) ∧ incomplete r = false ∧ run_outcome true budget test_engine test_storage r e' s'.
Proof.
  intros budget. apply (block_light_run_finishes true test_idle test_storage test_engine test_storage (stored_blocks test_storage) budget test_made).
  - apply rtc_once. exact test_checked.
  - apply test_source_ok.
  - apply stored_covers, test_store_ok.
  - unfold budget. destruct test_at_rest as [_ ->]. change (wq_items (decreases test_engine)) with (@nil Entry). change (wq_items (increases test_engine)) with (@nil Entry).
    cbn [length]. generalize (length (stored_blocks test_storage)). intros n. lia.
Defined.
